(* ===== verification/_CoqProject ===== *)
-Q . S2P
Prelude.v
Dbr.v
CaProtocol.v
CaProtocolTheory.v
CaRecv.v
CaRecvTheory.v
Float64.v
Alarm.v
AlarmTheory.v
EventQueue.v
EventQueueTheory.v
EventUser.v
PvaProto.v
PvaProtoTheory.v
PvaText.v
PvaDesc.v
PvaDescTheory.v
PvaChangedTheory.v
PvaValue.v
PvaCheck.v
PvaValueTheory.v
PvaReadTheory.v
PvaDelta.v
PvaDeltaTheory.v
PvaSquashTheory.v
PvaFrame.v
PvaFrameTheory.v
PvaMonitor.v
PvaQueueTheory.v
PvaMonitorTheory.v
PvaServerTheory.v
Float64Theory.v
Strtod.v
CalcOps.v
CalcLex.v
CalcCode.v
CalcPostfix.v
CalcEval.v
CalcTheory.v
CalcCodeTheory.v
CalcExpr.v
CalcRunTheory.v
CalcCompileTheory.v
CalcLexTheory.v
CalcCorrect.v
AccessSecurity.v
AcfParse.v
CalcUsageTheory.v
AccessTheory.v
AcfScanTheory.v
AcfTheory.v
AccessCorrect.v
AccessGate.v
Strtol.v
Value.v
CParse.v
Filters.v
FilterParse.v
FiltersTheory.v
MonitorPath.v
FilterParseTheory.v
Float32.v
CFmt.v
Convert.v
ConvertTheory.v
DbrCodec.v
DbrCodecTheory.v
