(* ===== verification/Prelude.v ===== *)
(** * Verification of epics-rs: wire layers, monitors, calculations and access security

    epics-rs is a Rust implementation of EPICS: input/output controllers hold records,
    records are processed and raise alarms, and clients read, write and monitor them over
    two network protocols, Channel Access (CA) and pvAccess (PVA).  The path of one value
    through the parts modelled here is: bytes of a client's request arrive in arbitrary
    pieces and are cut into messages (CaRecv.v over CaProtocol.v and Dbr.v); the client's
    right to the record is checked against the access security rules (AccessSecurity.v),
    read from a file (AcfParse.v) and with conditions that are calculations over other
    records (CalcEval.v), the answer cached (AccessGate.v); a record is processed and its
    alarm state settled (Alarm.v over Float64.v); the update passes each subscription's filters
    (Filters.v, built from the channel name by FilterParse.v) and is posted to the monitor queues
    of the interested circuits (EventQueue.v), whose sending tasks take entries out in order,
    replies interleaved (EventUser.v).  PVA carries its values in frames, sizes and change
    masks of its own (PvaProto.v, PvaText.v, PvaFrame.v); types are described once per
    connection and cached (PvaDesc.v), values are sent whole or as deltas (PvaValue.v,
    PvaDelta.v), and a monitor queues them at both ends (PvaMonitor.v).

    ** Files and the source they model

    All source paths are under src/crates.

    - Prelude.v (this file): Rust's [Result] as a monad, machine integers as [Z] with
      their wrap-around and saturation, [usize] behind the [Target] class (64 bits on
      hosts, 32 on RTEMS), vectors indexed by [Z], byte order, the shared tactics
      ([uint], [divlia], [rbind], [case_goal], [zbool]) and the hint databases [wire].
    - Dbr.v: epics-base-rs/src/types/dbr.rs, the metadata sizes of types/codec.rs and the
      error values of error.rs that the CA layer returns.
    - CaProtocol.v: epics-ca-rs/src/protocol.rs. [CaHeader] and its 16 and 24 byte forms,
      [from_bytes_for_peer], the payload and count rules, [build_put_frame].
      CaProtocolTheory.v: the two round trips of the header, which sizes and counts need
      the long form, that a put frame parses back to the request it was built from, and
      that the counts of reads, subscriptions and writes keep a reply inside the limits.
    - CaRecv.v: epics-ca-rs/src/server/recv.rs (the accumulator, the checks of one
      message in their order, skipping a refused message, compaction), the command table
      of server/blocking.rs and the token bucket of server/rate_limit.rs.
      CaRecvTheory.v: the accumulator refines a parser of the whole byte stream, so the
      messages delivered do not depend on how the bytes were cut into reads; memory held
      is bounded by the ceiling; the bucket admits no more than its burst plus its rate.
    - Float64.v: binary64 over the Standard Library's [SpecFloat], executable and with no
      axioms.  Float64Theory.v: canonical doubles, their bit patterns, and conversions.
    - Alarm.v: epics-base-rs/src/server/recgbl.rs (raise, inherit, commit, UDF),
      record/alarm.rs (the limit ladder), record/sparse_text.rs (alarm messages),
      records/alarm_filter.rs, record/record_trait.rs ([analog_alarm_ladder]), and the
      parts of database/links.rs, database/processing.rs, record/record_instance.rs that
      inherit, post and acknowledge.  AlarmTheory.v: the first raise of the highest
      severity wins in any mix; a commit publishes it and posts the fields that moved;
      ACKS is the highest severity seen and only an acknowledgement lowers it; over runs
      of values the ladder is a Schmitt trigger; how messages compare and persist.
    - EventQueue.v: epics-base-rs/src/server/event_queue.rs, one queue: the ring with its
      put and get indices, the slab of subscriptions with generations, and every operation
      under the queue lock.  EventQueueTheory.v: the abstraction of a ring to the list of
      its live entries, the invariant over all reachable states, the queue rule of a post,
      order and completeness of delivery, the newest value always arriving, and stale
      handles being refused.
    - EventUser.v: the rest of event_queue.rs, a circuit's chain of queues with flow
      control and owed replies, and its two liveness and ordering theorems.
    - PvaProto.v: epics-pva-rs/src/proto (buffer.rs, size.rs, string.rs, bitset.rs,
      header.rs, command.rs, ip.rs).  PvaProtoTheory.v: round trips with trailing bytes
      and refusal of truncated input, the bit set as a [gset] of positions, its range
      scan, its canonical wire form.
    - PvaText.v: [String::from_utf8_lossy] on byte lists, the string readers and
      proto/status.rs, with their round trips.
    - PvaDesc.v: epics-pva-rs/src/pvdata/scalar.rs, field.rs and the descriptor half of
      encode.rs: inline and cached encoders, the decoder with its depth and node limits,
      bit numbering, changed bit sets.  PvaDescTheory.v: round trips of both forms, the
      cached one over whole connections (a simulation with pending slots), the limits on
      anything decoded, the iterative measure, and the depth cache markers cost.
      PvaChangedTheory.v: what a monitor post frames and that changed paths mark the same
      bits again.
    - PvaValue.v: the value half of pvdata (scalar.rs, typed_array.rs, structure.rs,
      encode.rs): the descriptor-driven encoder with its coercing fallback and the decoder.
      PvaCheck.v: pvdata/value_check.rs.  PvaValueTheory.v and PvaReadTheory.v: the encoder
      ends on every value and descriptor, its bytes are read back to their last byte
      whatever the value was, an accepted value is read back as it is, and what is decoded
      has its descriptor's type.
    - PvaDelta.v: the delta half of encode.rs and monitor_squash.rs.  PvaDeltaTheory.v and
      PvaSquashTheory.v: a delta is an overlay of the leaves it marks; encoding, decoding,
      merging, in-place decoding and squashing are that overlay.
    - PvaFrame.v: decode.rs, the frame loop of server_native/tcp.rs, peer_buf.rs.
      PvaFrameTheory.v: frames do not depend on the reads, segmented messages are
      reassembled within their cap, and where the length arithmetic panics.
    - PvaMonitor.v: the server's monitor queue (server_native/tcp.rs, source.rs, peers.rs)
      and the client's backlog (client_native/monitor_queue.rs, ops_v2.rs).
      PvaQueueTheory.v states the contract of a bounded queue that squashes its tail;
      PvaMonitorTheory.v (client) and PvaServerTheory.v (server) discharge it and compose
      the two ends: a drained subscriber holds the source's value.
    - Strtod.v: epics-libcom-rs/src/runtime/stdlib.rs, [strtod] and [epicsParseDouble].
    - CalcOps.v, CalcLex.v, CalcCode.v, CalcPostfix.v, CalcEval.v: epics-base-rs/src/calc
      (opcodes.rs and error.rs; token.rs; bytecode.rs; postfix.rs; numeric.rs with cast.rs,
      stack.rs and random.rs).  CalcTheory.v: every loop ends.  CalcCodeTheory.v: a program
      is read back as it was written.  CalcExpr.v, CalcRunTheory.v, CalcCompileTheory.v,
      CalcLexTheory.v, CalcCorrect.v: the syntax trees of the base dialect, their text and
      meaning, and the compiler's correctness from text to answer.  CalcUsageTheory.v: the
      answer of a program that stores nothing depends only on the arguments [arg_usage]
      reports.
    - AccessSecurity.v and AcfParse.v: epics-base-rs/src/server/access_security.rs, the rules
      with the published inputs and checks, and the reader of the file.  AccessTheory.v: the
      incremental CALC results are current, the rule walk grants the strongest applicable
      rule.  AcfScanTheory.v and AcfTheory.v: a program logic for the parsers, with which
      every parse ends without panic and keeps the configuration well formed.
      AccessCorrect.v: what a granted access means, from the file's text to the check.
    - AccessGate.v: [AccessGate] of the same file, a check with its stamped cache as a state
      machine over the loads and stores of the source, interleaved with other checks and with
      changes that publish and then notify; once a change is notified no later check answers
      from before it.
    - Strtol.v: the integer half of epics-libcom-rs/src/runtime/stdlib.rs.  Value.v:
      [EpicsValue] of epics-base-rs/src/types/value.rs with its type, count and readings.
      CParse.v: types/c_parse.rs, the text a client writes into a numeric field; a printed
      number is stored as itself and nothing outside the field's range is stored.
    - Filters.v: epics-base-rs/src/server/database/filters (deadband, decimate, sync, utag,
      array slice, timestamp), the chain they form and its split, and a subscriber of
      server/pv.rs and its post into EventQueue.v's queue.  FilterParse.v: filters/parser.rs,
      the modifier of a channel name.  FiltersTheory.v: the shape a channel advertises is the
      shape delivered, what a deadband and a synchronised filter pass.  MonitorPath.v: a post
      through filters and class mask into the queue.  FilterParseTheory.v: what is parsed
      from a name and that the filters built from it are legal.
    - Float32.v: binary32 beside Float64.v.  CFmt.v: the %f and %e conversions of
      epics-libcom-rs/src/cfmt.rs and cvtFast's rendering of types/codec.rs.  Convert.v:
      types/c_cast.rs and the put and get conversion tables of types/value.rs.
      ConvertTheory.v: a get is total, fails exactly for text its row refuses, keeps type, count
      and range, and keeps the integers the target holds.
    - DbrCodec.v: types/codec.rs, server/snapshot.rs and the update of
      server/database/dbr_delivery.rs: a reading, its DBR body of every class, and the
      decoding of one, where a panic is a value of the model.  DbrCodecTheory.v: a client
      decodes what was read; no bytes make the decoder panic; an update is encoded from its
      log alone as from the channel read, but for the two acknowledgement types.

    ** How the code is translated

    A function that mutates its receiver returns the new value; one that fails returns
    [result] or [option]; an environment variable or a clock reading is an argument.
    A lock-protected structure is a value changed by one operation at a time, which is
    what the lock enforces; interleavings are then sequences of operations, and the
    invariants are proved over every such sequence.  An [Arc] that several owners share is
    a name in a store ([StateId] in AccessSecurity.v, [Arc] in PvaMonitor.v).  Integers keep
    their width where the code could leave it ([wrap], [swrap], [sat_add]); an index that the
    code bounds-checks is looked up with an [option].

    ** Fuel

    Loops that are not structural carry a natural number, always computed from the state
    so that it cannot run out: the gate loop of CaRecv.v takes one unit per byte held,
    since every turn consumes a message; [take_oldest_loop] and [drop_cancelled] take one
    unit per used entry of the ring, since every turn retires one; a drain takes one more
    than the used entries; [find_loop] takes one unit per position left; [measure_loop] one
    unit per node; the UTF-8 loops one per byte; the descriptor and value decoders recurse
    on the levels their own depth limit leaves; the value encoder takes twice the depth of
    value and descriptor and two more; the calculation loops one more than the length of the
    text or program, since offsets only grow; the loops of AcfParse.v one more than the
    length of the file, since every turn moves the cursor.  Termination with a result is part
    of the theorems ([encode_terminates], [calc_terminates], [acf_file_is_read], the
    refinement, drain and liveness claims), not a premise of them.

    ** Not modelled

    Sockets, threads, wakers and timers; the burst chain that batches wakeups in
    event_queue.rs; the post stage of dollar and long-string channels; the rest of the printf
    port; the string and array evaluators of the calculation engine (libm is the class [Libm],
    NaN payloads are not represented); the task
    that subscribes to access security inputs, the listeners of trapped writes and the dumps;
    the record types beyond their alarms, the clients outside monitors, gateways, drivers and
    record support packages.

    ** Order of further work

    Outgoing CA frames and the outbox; the CA client's circuit breaker; Modbus frames; the
    array and string evaluators of the calculation engine. *)
From stdpp Require Import base tactics numbers list option strings pretty.

Open Scope Z_scope.

(** ** Results *)

(** Rust's [Result<A, E>]. *)
Inductive result (E A : Type) : Type :=
| Ok (a : A)
| Err (e : E).
Arguments Ok {E A} _.
Arguments Err {E A} _.

#[export] Instance result_ret (E : Type) : MRet (result E) := fun A a => Ok a.
#[export] Instance result_bind (E : Type) : MBind (result E) :=
  fun A B f m => match m with Ok a => f a | Err e => Err e end.
#[export] Instance result_fmap (E : Type) : FMap (result E) :=
  fun A B f m => match m with Ok a => Ok (f a) | Err e => Err e end.

Definition map_err {E F A : Type} (f : E -> F) (m : result E A) : result F A :=
  match m with Ok a => Ok a | Err e => Err (f e) end.

Definition is_ok {E A : Type} (m : result E A) : bool :=
  match m with Ok _ => true | Err _ => false end.

Definition ok_or {E A : Type} (m : option A) (e : E) : result E A :=
  match m with Some a => Ok a | None => Err e end.

#[export] Instance result_eq_dec (E A : Type) `{EqDecision E} `{EqDecision A} :
  EqDecision (result E A).
Proof. solve_decision. Defined.

(** ** Machine integers

    A [w]-bit unsigned integer is a [Z] in [0, 2^w). *)
Definition is_uint (w x : Z) : Prop := 0 <= x < 2 ^ w.

Abbreviation is_u8 := (is_uint 8).
Abbreviation is_u16 := (is_uint 16).
Abbreviation is_u32 := (is_uint 32).
Abbreviation is_u64 := (is_uint 64).

#[export] Instance is_uint_dec (w x : Z) : Decision (is_uint w x).
Proof. unfold is_uint. apply _. Defined.

(** [as uN]: truncating cast. *)
Definition wrap (w x : Z) : Z := x mod 2 ^ w.

(** [as iN]: two's-complement reinterpretation. *)
Definition swrap (w x : Z) : Z :=
  let y := x mod 2 ^ w in
  if y <? 2 ^ (w - 1) then y else y - 2 ^ w.

Definition uint_max (w : Z) : Z := 2 ^ w - 1.
Definition sat_add (w a b : Z) : Z := Z.min (a + b) (uint_max w).
Definition sat_sub (a b : Z) : Z := Z.max (a - b) 0.
Definition sat_mul (w a b : Z) : Z := Z.min (a * b) (uint_max w).

(** [x & !m]. *)
Definition and_not (x m : Z) : Z := Z.ldiff x m.

(** The build target: only the width of [usize] varies (64 on hosts, 32 on RTEMS). *)
Class Target := {
  usize_bits : Z;
  usize_bits_ge : 32 <= usize_bits;
}.

Definition host64 : Target := {| usize_bits := 64; usize_bits_ge := ltac:(lia) |}.
Definition rtems32 : Target := {| usize_bits := 32; usize_bits_ge := ltac:(lia) |}.

Abbreviation is_usize := (is_uint usize_bits).

(** ** Lists indexed by [usize] *)

Abbreviation len l := (Z.of_nat (length l)).
Definition ztake {A : Type} (n : Z) (l : list A) : list A := take (Z.to_nat n) l.
Definition zdrop {A : Type} (n : Z) (l : list A) : list A := drop (Z.to_nat n) l.

(** [&l[a..b]]. *)
Definition slice {A : Type} (a b : Z) (l : list A) : list A := ztake (b - a) (zdrop a l).

(** [Vec::resize]. *)
Definition vec_resize {A : Type} (n : Z) (x : A) (l : list A) : list A :=
  resize (Z.to_nat n) x l.

(** ** Byte order *)

(** [to_le_bytes] at [n] bytes. *)
Fixpoint to_le_bytes (n : nat) (x : Z) : list Z :=
  match n with
  | O => []
  | S n => x mod 256 :: to_le_bytes n (x / 256)
  end.

(** [from_le_bytes]. *)
Fixpoint from_le_bytes (l : list Z) : Z :=
  match l with
  | [] => 0
  | b :: l => b + 256 * from_le_bytes l
  end.

Definition to_be_bytes (n : nat) (x : Z) : list Z := rev (to_le_bytes n x).
Definition from_be_bytes (l : list Z) : Z := from_le_bytes (rev l).

Arguments to_be_bytes : simpl never.
Arguments from_be_bytes : simpl never.

(** Every element of a byte buffer is a [u8]. *)
Abbreviation bytes_ok l := (Forall is_u8 l).

(** ** Automation *)

Create HintDb wire.
Create Rewrite HintDb wire.

(** Unfold the range predicates and finish with [lia]. *)
Ltac uint := unfold is_uint, uint_max in *; simpl in *; lia.

(** [lia] with division and remainder by constants eliminated first. *)
Ltac divlia := Z.to_euclidean_division_equations; lia.

(** Reduce the [result] monad and nothing else. *)
Ltac rbind :=
  cbn [mbind result_bind fmap result_fmap mret result_ret map_err is_ok ok_or].
Tactic Notation "rbind" "in" hyp(H) :=
  cbn [mbind result_bind fmap result_fmap mret result_ret map_err is_ok ok_or] in H.

(** Split on the innermost [if]/[match] scrutinee of the goal, keeping an equation. *)
Ltac case_inner x :=
  lazymatch x with
  | context [match ?y with _ => _ end] => case_inner y
  | _ => destruct x eqn:?
  end.
Ltac case_goal :=
  match goal with
  | |- context [match ?x with _ => _ end] => case_inner x
  end.

(** The same in a hypothesis. *)
Ltac case_hyp H :=
  match type of H with
  | context [match ?x with _ => _ end] => case_inner x
  end.

(** Turn boolean comparisons on [Z] into propositions. *)
Ltac zbool :=
  repeat match goal with
  | H : (_ && _)%bool = true |- _ => apply andb_prop in H as [? ?]
  | H : (_ || _)%bool = false |- _ => apply orb_false_elim in H as [? ?]
  | H : negb _ = true |- _ => apply negb_true_iff in H
  | H : negb _ = false |- _ => apply negb_false_iff in H
  | H : (_ <? _) = true |- _ => apply Z.ltb_lt in H
  | H : (_ <? _) = false |- _ => apply Z.ltb_ge in H
  | H : (_ <=? _) = true |- _ => apply Z.leb_le in H
  | H : (_ <=? _) = false |- _ => apply Z.leb_gt in H
  | H : (_ =? _) = true |- _ => apply Z.eqb_eq in H
  | H : (_ =? _) = false |- _ => apply Z.eqb_neq in H
  end.

(** ** Generic lemmas *)

Lemma mjoin_cons {A : Type} (x : list A) xss : mjoin (x :: xss) = x ++ mjoin xss.
Proof. done. Qed.

Section Lists.
Context {A : Type}.
Implicit Types l k : list A.

Lemma len_nonneg l : 0 <= len l.
Proof. lia. Qed.

Lemma zdrop_0 l : zdrop 0 l = l.
Proof. done. Qed.

Lemma len_zdrop n l : 0 <= n -> len (zdrop n l) = Z.max 0 (len l - n).
Proof. intros. unfold zdrop. rewrite length_drop. lia. Qed.

Lemma len_ztake n l : 0 <= n -> len (ztake n l) = Z.min n (len l).
Proof. intros. unfold ztake. rewrite length_take. lia. Qed.

Lemma zdrop_zdrop a b l : 0 <= a -> 0 <= b -> zdrop a (zdrop b l) = zdrop (a + b) l.
Proof. intros. unfold zdrop. rewrite drop_drop. f_equal. lia. Qed.

Lemma zdrop_ge n l : len l <= n -> zdrop n l = [].
Proof. intros. apply drop_ge. lia. Qed.

Lemma zdrop_app_le n l k : 0 <= n <= len l -> zdrop n (l ++ k) = zdrop n l ++ k.
Proof. intros. apply drop_app_le. lia. Qed.

Lemma zdrop_app_ge n l k : len l <= n -> zdrop n (l ++ k) = zdrop (n - len l) k.
Proof. intros. unfold zdrop. rewrite drop_app_ge by lia. f_equal. lia. Qed.

Lemma ztake_app_le n l k : 0 <= n <= len l -> ztake n (l ++ k) = ztake n l.
Proof. intros. apply take_app_le. lia. Qed.

Lemma ztake_ge n l : len l <= n -> ztake n l = l.
Proof. intros. apply take_ge. lia. Qed.

Lemma ztake_zdrop n l : ztake n l ++ zdrop n l = l.
Proof. apply take_drop. Qed.

Lemma ztake_len_app l k : ztake (len l) (l ++ k) = l.
Proof. unfold ztake. rewrite Nat2Z.id. apply take_app_length. Qed.

Lemma zdrop_len_app l k : zdrop (len l) (l ++ k) = k.
Proof. unfold zdrop. rewrite Nat2Z.id. apply drop_app_length. Qed.

Lemma slice_app_l a b l k :
  0 <= a <= b -> b <= len l -> slice a b (l ++ k) = slice a b l.
Proof.
  intros. unfold slice. rewrite zdrop_app_le by lia.
  apply ztake_app_le. rewrite len_zdrop; lia.
Qed.

Lemma len_vec_resize n (x : A) l : 0 <= n -> len (vec_resize n x l) = n.
Proof. intros. unfold vec_resize. rewrite length_resize. lia. Qed.

Lemma vec_resize_ge n (x : A) l :
  len l <= n -> vec_resize n x l = l ++ replicate (Z.to_nat n - length l) x.
Proof. intros. unfold vec_resize. apply resize_ge. lia. Qed.
End Lists.

(** *** Machine integers *)

Lemma is_uint_lo w x : is_uint w x -> 0 <= x.
Proof. uint. Qed.

Lemma is_uint_mono w v x : 0 <= w <= v -> is_uint w x -> is_uint v x.
Proof. unfold is_uint. intros [??] [??]. pose proof (Z.pow_le_mono_r 2 w v). lia. Qed.

Lemma wrap_small w x : is_uint w x -> wrap w x = x.
Proof. apply Z.mod_small. Qed.

Lemma wrap_range w x : 0 <= w -> is_uint w (wrap w x).
Proof. intros. apply Z.mod_pos_bound. lia. Qed.

Lemma wrap_swrap w x : 0 < w -> wrap w (swrap w x) = wrap w x.
Proof.
  intros. unfold wrap, swrap. case_goal; [apply Z.mod_mod; lia|].
  rewrite Zminus_mod, Z_mod_same_full, Z.sub_0_r, !Z.mod_mod; lia.
Qed.

Lemma pow2_half w : 0 < w -> 2 ^ w = 2 * 2 ^ (w - 1).
Proof. intros. rewrite <- Z.pow_succ_r by lia. f_equal. lia. Qed.

(** [as iN] is the identity on values already in range. *)
Lemma swrap_small w x :
  0 < w -> - 2 ^ (w - 1) <= x < 2 ^ (w - 1) -> swrap w x = x.
Proof.
  intros Hw Hx. pose proof (pow2_half w Hw). unfold swrap.
  destruct (decide (0 <= x)).
  - rewrite Z.mod_small by lia. case_goal; zbool; lia.
  - rewrite <- (Z.mod_add x 1 (2 ^ w)), Z.mod_small by lia.
    case_goal; zbool; lia.
Qed.

Lemma swrap_wrap w x : 0 < w -> swrap w (wrap w x) = swrap w x.
Proof. intros. unfold swrap, wrap. rewrite Z.mod_mod by lia. done. Qed.

Lemma swrap_range w x : 0 < w -> - 2 ^ (w - 1) <= swrap w x < 2 ^ (w - 1).
Proof.
  intros Hw. pose proof (pow2_half w Hw). unfold swrap.
  pose proof (Z.mod_pos_bound x (2 ^ w)). case_goal; zbool; lia.
Qed.

Lemma usize_holds_u32 `{Target} x : is_u32 x -> is_usize x.
Proof. apply is_uint_mono. pose proof usize_bits_ge. lia. Qed.

Lemma usize_max_ge_u32 `{Target} : uint_max 32 <= uint_max usize_bits.
Proof.
  unfold uint_max. pose proof (Z.pow_le_mono_r 2 32 usize_bits).
  pose proof usize_bits_ge. lia.
Qed.

(** [x & !7] rounds down to a multiple of eight. *)
Lemma and_not_7 x : and_not x 7 = 8 * (x / 8).
Proof.
  unfold and_not. change 7 with (Z.ones 3).
  rewrite Z.ldiff_ones_r by lia.
  rewrite Z.shiftl_mul_pow2, Z.shiftr_div_pow2 by lia. change (2 ^ 3) with 8. lia.
Qed.

(** [x & 7] is the remainder modulo eight. *)
Lemma land_7 x : Z.land x 7 = x mod 8.
Proof. change 7 with (Z.ones 3). rewrite Z.land_ones by lia. done. Qed.

(** *** Byte order *)

Lemma length_to_le_bytes n x : length (to_le_bytes n x) = n.
Proof. revert x. induction n; intros; simpl; auto. Qed.

Lemma length_to_be_bytes n x : length (to_be_bytes n x) = n.
Proof. unfold to_be_bytes. rewrite length_rev. apply length_to_le_bytes. Qed.

Lemma bytes_ok_rev l : bytes_ok l -> bytes_ok (rev l).
Proof. apply Forall_rev. Qed.

Lemma to_le_bytes_ok n x : bytes_ok (to_le_bytes n x).
Proof.
  revert x. induction n; intros; simpl; constructor; auto.
  apply (Z.mod_pos_bound x 256). lia.
Qed.

Lemma to_be_bytes_ok n x : bytes_ok (to_be_bytes n x).
Proof. apply bytes_ok_rev, to_le_bytes_ok. Qed.

Lemma pow256_succ (n : nat) : 256 ^ Z.of_nat (S n) = 256 * 256 ^ Z.of_nat n.
Proof. rewrite Nat2Z.inj_succ, Z.pow_succ_r by lia. done. Qed.

Lemma from_to_le_bytes n x :
  from_le_bytes (to_le_bytes n x) = x mod 256 ^ Z.of_nat n.
Proof.
  revert x. induction n; intros; simpl from_le_bytes; simpl to_le_bytes.
  - rewrite Z.mod_1_r. done.
  - simpl. rewrite IHn, pow256_succ, Z.rem_mul_r by lia. done.
Qed.

Lemma from_le_bytes_range l :
  bytes_ok l -> 0 <= from_le_bytes l < 256 ^ Z.of_nat (length l).
Proof.
  induction 1 as [|b l Hb _ IH]; [simpl; lia|].
  cbn [from_le_bytes length]. rewrite pow256_succ. unfold is_uint in Hb. lia.
Qed.

Lemma to_from_le_bytes l :
  bytes_ok l -> to_le_bytes (length l) (from_le_bytes l) = l.
Proof.
  induction 1 as [|b l Hb _ IH]; [done|]. simpl. unfold is_uint in Hb.
  replace (b + 256 * from_le_bytes l) with (b + from_le_bytes l * 256) by lia.
  rewrite Z.mod_add, Z.div_add, Z.mod_small, Z.div_small, Z.add_0_l, IH by lia.
  done.
Qed.

Lemma from_to_be_bytes n x :
  from_be_bytes (to_be_bytes n x) = x mod 256 ^ Z.of_nat n.
Proof.
  unfold from_be_bytes, to_be_bytes. rewrite rev_involutive. apply from_to_le_bytes.
Qed.

Lemma to_from_be_bytes l :
  bytes_ok l -> to_be_bytes (length l) (from_be_bytes l) = l.
Proof.
  intros. unfold from_be_bytes, to_be_bytes.
  rewrite <- length_rev, to_from_le_bytes by (by apply bytes_ok_rev).
  apply rev_involutive.
Qed.

Lemma from_be_bytes_range l :
  bytes_ok l -> 0 <= from_be_bytes l < 256 ^ Z.of_nat (length l).
Proof.
  intros H. unfold from_be_bytes. rewrite <- length_rev.
  by apply from_le_bytes_range, bytes_ok_rev.
Qed.

#[export] Hint Rewrite length_to_le_bytes length_to_be_bytes : wire.
#[export] Hint Resolve to_le_bytes_ok to_be_bytes_ok : wire.

(** ** [usize] arithmetic

    The release profile leaves overflow checks off, so [+] and [*] wrap. *)
Definition usize_add `{Target} (a b : Z) : Z := wrap usize_bits (a + b).
Definition usize_mul `{Target} (a b : Z) : Z := wrap usize_bits (a * b).

Lemma usize_add_small `{Target} a b : is_usize (a + b) -> usize_add a b = a + b.
Proof. apply wrap_small. Qed.

Lemma usize_mul_small `{Target} a b : is_usize (a * b) -> usize_mul a b = a * b.
Proof. apply wrap_small. Qed.
