(* ===== verification/Dbr.v ===== *)
(** * DBR types: the field types of the database and their wire sizes

    Models [epics-base-rs/src/types/dbr.rs] (the [DbFieldType] enum, the
    DBR code tables and [dbr_buffer_size]), the metadata sizes of
    [epics-base-rs/src/types/codec.rs], and the part of
    [epics-base-rs/src/error.rs] the wire layer reports with: the [CaError]
    constructors it raises and the ECA status words. *)
From stdpp Require Import base tactics numbers list option strings.
From S2P Require Import Prelude.

Open Scope Z_scope.

(** ** Errors *)

(** The [CaError] variants the modelled functions construct. *)
Inductive CaError : Type :=
| Protocol (msg : string)
| UnsupportedType (dbr_type : Z)
| TooLarge
| BadCount.

#[export] Instance CaError_eq_dec : EqDecision CaError.
Proof. solve_decision. Defined.

Abbreviation CaResult := (result CaError).

Definition CA_K_ERROR : Z := 2.
Definition CA_K_SEVERE : Z := 4.
Definition CA_K_WARNING : Z := 0.
Definition CA_K_FATAL : Z := Z.lor CA_K_ERROR CA_K_SEVERE.

(** [eca::defmsg]: a status word packs the message number above the
    severity's three bits. *)
Definition defmsg (sev num : Z) : Z :=
  Z.lor (Z.land (wrap 32 (Z.shiftl num 3)) 0xFFF8) (Z.land sev 7).

Definition ECA_TOLARGE : Z := defmsg CA_K_WARNING 9.
Definition ECA_INTERNAL : Z := defmsg CA_K_FATAL 17.
Definition ECA_DEFUNCT : Z := defmsg CA_K_FATAL 34.

(** ** Field types *)

Inductive DbFieldType : Type :=
| DString | Short | Float | Enum | Char | Long | Double
| Int64 | UInt64 | UShort | ULong | UChar.

#[export] Instance DbFieldType_eq_dec : EqDecision DbFieldType.
Proof. solve_decision. Defined.

(** The [#[repr(u16)]] discriminant, [self as u16]. *)
Definition discriminant (t : DbFieldType) : Z :=
  match t with
  | DString => 0 | Short => 1 | Float => 2 | Enum => 3 | Char => 4 | Long => 5
  | Double => 6 | Int64 => 7 | UInt64 => 8 | UShort => 9 | ULong => 10 | UChar => 11
  end.

Definition wire_carrier (t : DbFieldType) : DbFieldType :=
  match t with Char => UChar | other => other end.

Definition from_u16 (v : Z) : CaResult DbFieldType :=
  match v with
  | 0 => Ok DString | 1 => Ok Short | 2 => Ok Float | 3 => Ok Enum
  | 4 => Ok Char | 5 => Ok Long | 6 => Ok Double
  | _ => Err (UnsupportedType v)
  end.

Definition element_size (t : DbFieldType) : Z :=
  match t with
  | DString => 40
  | Short | Enum | UShort => 2
  | Float | Long | ULong => 4
  | Char | UChar => 1
  | Double | Int64 | UInt64 => 8
  end.

Definition ca_wire_type (t : DbFieldType) : Z :=
  match t with
  | Int64 | UInt64 | ULong => discriminant Double
  | UShort => discriminant Long
  | UChar => discriminant Char
  | other => discriminant other
  end.

Definition sts_dbr_type (t : DbFieldType) : Z := ca_wire_type t + 7.
Definition time_dbr_type (t : DbFieldType) : Z := ca_wire_type t + 14.
Definition gr_dbr_type (t : DbFieldType) : Z := ca_wire_type t + 21.
Definition ctrl_dbr_type (t : DbFieldType) : Z := ca_wire_type t + 28.

Definition DBR_STRING : Z := 0.
Definition DBR_PUT_ACKT : Z := 35.
Definition DBR_PUT_ACKS : Z := 36.
Definition DBR_STSACK_STRING : Z := 37.
Definition DBR_CLASS_NAME : Z := 38.

(** An inclusive range pattern [a..=b]. *)
Definition in_range (a b x : Z) : bool := (a <=? x) && (x <=? b).

(** ** Metadata sizes ([codec.rs]) *)

Definition sts_pad (native : DbFieldType) : list Z :=
  match native with
  | Char | UChar => [0]
  | Double | Int64 | UInt64 | ULong => [0; 0; 0; 0]
  | _ => []
  end.

Definition time_pad (native : DbFieldType) : list Z :=
  match native with
  | Short | Enum => [0; 0]
  | Char | UChar => [0; 0; 0]
  | Double | ULong => [0; 0; 0; 0]
  | _ => []
  end.

Definition MAX_UNITS_SIZE : Z := 8.
Definition MAX_ENUM_STATES : Z := 16.
Definition MAX_ENUM_STRING_SIZE : Z := 26.

Definition gr_ctrl_meta_size (native : DbFieldType) (ctrl : bool) : Z :=
  let n_limits := if ctrl then 8 else 6 in
  let head := 4 in
  match native with
  | DString => head + len (sts_pad native)
  | Enum => head + 2 + MAX_ENUM_STATES * MAX_ENUM_STRING_SIZE
  | Float => head + 4 + MAX_UNITS_SIZE + n_limits * 4
  | Double | Int64 | UInt64 | ULong => head + 4 + MAX_UNITS_SIZE + n_limits * 8
  | Short => head + MAX_UNITS_SIZE + n_limits * 2
  | Long | UShort => head + MAX_UNITS_SIZE + n_limits * 4
  | Char | UChar => head + MAX_UNITS_SIZE + n_limits + 1
  end.

Definition dbr_meta_size (dbr_type : Z) (native : DbFieldType) : Z :=
  if in_range 0 6 dbr_type then 0
  else if in_range 7 13 dbr_type then 4 + len (sts_pad native)
  else if in_range 14 20 dbr_type then 12 + len (time_pad native)
  else if in_range 21 27 dbr_type then gr_ctrl_meta_size native false
  else if in_range 28 34 dbr_type then gr_ctrl_meta_size native true
  else if (dbr_type =? DBR_PUT_ACKT) || (dbr_type =? DBR_PUT_ACKS) then 0
  else if dbr_type =? DBR_STSACK_STRING then 8
  else 0.

(** ** DBR codes *)

Definition dbr_buffer_size `{Target} (dbr_type : Z) (native_type : DbFieldType)
    (count : Z) : Z :=
  if dbr_type =? DBR_CLASS_NAME then 40
  else
    let value_size := usize_mul (element_size native_type) count in
    usize_add (dbr_meta_size dbr_type native_type) value_size.

Definition dbr_native_index (dbr_type : Z) : option Z :=
  if in_range 0 6 dbr_type then Some dbr_type
  else if in_range 7 13 dbr_type then Some (dbr_type - 7)
  else if in_range 14 20 dbr_type then Some (dbr_type - 14)
  else if in_range 21 27 dbr_type then Some (dbr_type - 21)
  else if in_range 28 34 dbr_type then Some (dbr_type - 28)
  else if (dbr_type =? 35) || (dbr_type =? 36) then Some 1
  else if dbr_type =? 37 then Some 0
  else if dbr_type =? 38 then Some 0
  else None.

Definition native_type_for_dbr (dbr_type : Z) : CaResult DbFieldType :=
  match dbr_native_index dbr_type with
  | Some idx => from_u16 idx
  | None => Err (UnsupportedType dbr_type)
  end.

Local Open Scope string_scope.
Definition DBR_TEXT : list string :=
  [ "DBR_STRING"; "DBR_SHORT"; "DBR_FLOAT"; "DBR_ENUM"; "DBR_CHAR"; "DBR_LONG";
    "DBR_DOUBLE";
    "DBR_STS_STRING"; "DBR_STS_SHORT"; "DBR_STS_FLOAT"; "DBR_STS_ENUM";
    "DBR_STS_CHAR"; "DBR_STS_LONG"; "DBR_STS_DOUBLE";
    "DBR_TIME_STRING"; "DBR_TIME_SHORT"; "DBR_TIME_FLOAT"; "DBR_TIME_ENUM";
    "DBR_TIME_CHAR"; "DBR_TIME_LONG"; "DBR_TIME_DOUBLE";
    "DBR_GR_STRING"; "DBR_GR_SHORT"; "DBR_GR_FLOAT"; "DBR_GR_ENUM"; "DBR_GR_CHAR";
    "DBR_GR_LONG"; "DBR_GR_DOUBLE";
    "DBR_CTRL_STRING"; "DBR_CTRL_SHORT"; "DBR_CTRL_FLOAT"; "DBR_CTRL_ENUM";
    "DBR_CTRL_CHAR"; "DBR_CTRL_LONG"; "DBR_CTRL_DOUBLE";
    "DBR_PUT_ACKT"; "DBR_PUT_ACKS"; "DBR_STSACK_STRING"; "DBR_CLASS_NAME" ].

(** [iter().position(..)]. *)
Fixpoint position {A : Type} (p : A -> bool) (l : list A) : option Z :=
  match l with
  | [] => None
  | x :: l => if p x then Some 0 else Z.succ <$> position p l
  end.

Definition dbr_text_to_type (text : string) : option Z :=
  position (fun n => bool_decide (n = text)) DBR_TEXT.

Definition dbr_type_to_text (code : Z) : string :=
  default "DBR_invalid" (DBR_TEXT !! Z.to_nat code).
Close Scope string_scope.

(** ** Lemmas *)

(** Case analysis over a bounded code. *)
Lemma dbr_code_cases (P : Z -> Prop) (n : nat) :
  Forall P (Z.of_nat <$> seq 0 n) -> forall t, 0 <= t < Z.of_nat n -> P t.
Proof.
  intros H t Ht. rewrite Forall_forall in H. apply H.
  apply list_elem_of_fmap. exists (Z.to_nat t). split; [lia|].
  apply elem_of_seq. lia.
Qed.

Lemma element_size_bounds t : 1 <= element_size t <= 40.
Proof. destruct t; simpl; lia. Qed.

Lemma dbr_meta_size_bounds t n : 0 <= dbr_meta_size t n <= 422.
Proof.
  unfold dbr_meta_size. repeat case_goal; destruct n; vm_compute; split; discriminate.
Qed.

Lemma dbr_buffer_size_one `{Target} t n :
  dbr_buffer_size t n 1
  = if t =? DBR_CLASS_NAME then 40 else dbr_meta_size t n + element_size n.
Proof.
  pose proof (element_size_bounds n). pose proof (dbr_meta_size_bounds t n).
  pose proof usize_max_ge_u32. unfold dbr_buffer_size, uint_max in *.
  case_goal; [done|].
  rewrite usize_mul_small, usize_add_small; unfold is_uint; lia.
Qed.

(** The native type of every DBR code below 35 repeats with period seven. *)
Lemma native_type_mod7 t :
  0 <= t < 35 -> native_type_for_dbr t = from_u16 (t mod 7).
Proof.
  revert t. apply (dbr_code_cases (fun t => native_type_for_dbr t = from_u16 (t mod 7)) 35).
  repeat constructor.
Qed.

Lemma from_u16_wire v t : from_u16 v = Ok t -> ca_wire_type t = v /\ 0 <= v <= 6.
Proof.
  unfold from_u16. intros H. repeat case_hyp H; simplify_eq; simpl; lia.
Qed.

(** Every DBR metadata block leaves the value array naturally aligned, as C's
    [db_access.h] structs do: the encoded value starts at a multiple of its
    element size (strings are byte arrays). *)
Lemma dbr_value_aligned t n :
  0 <= t < 35 -> native_type_for_dbr t = Ok n -> n <> DString ->
  dbr_meta_size t n mod element_size n = 0.
Proof.
  revert t.
  apply (dbr_code_cases (fun t => native_type_for_dbr t = Ok n -> n <> DString ->
    dbr_meta_size t n mod element_size n = 0) 35).
  repeat constructor; vm_compute; intros; simplify_eq; done.
Qed.

Lemma dbr_text_roundtrip_aux t :
  0 <= t < 39 -> dbr_text_to_type (dbr_type_to_text t) = Some t.
Proof.
  revert t.
  apply (dbr_code_cases (fun t => dbr_text_to_type (dbr_type_to_text t) = Some t) 39).
  repeat constructor.
Qed.

Lemma position_Some {A : Type} (p : A -> bool) l i :
  position p l = Some i -> 0 <= i < len l /\ exists x, l !! Z.to_nat i = Some x /\ p x = true.
Proof.
  revert i. induction l as [|x l IH]; intros i; simpl; [done|].
  destruct (p x) eqn:Hp.
  - intros. simplify_eq. split; [lia|]. exists x. done.
  - destruct (position p l) as [j|] eqn:E; simpl; [|done]. intros. simplify_eq.
    destruct (IH j eq_refl) as [? (y & Hy & ?)]. split; [lia|].
    exists y. rewrite Z2Nat.inj_succ by lia. done.
Qed.
