(* ===== verification/CaProtocol.v ===== *)
(** * The Channel Access message layer

    Models [epics-ca-rs/src/protocol.rs]: the 16/24-byte message header and
    its codec, the framing of client puts, the element-count rules of reads
    and subscriptions, payload padding, and the limits derived from the
    environment.  The environment variables the code reads are an argument
    ([CaEnv]).  The theorems are in [CaProtocolTheory]. *)
From stdpp Require Import base tactics numbers list option strings pretty.
From S2P Require Import Prelude Dbr.

Open Scope Z_scope.

(** ** Commands *)

Definition CA_PROTO_VERSION : Z := 0.
Definition CA_PROTO_EVENT_ADD : Z := 1.
Definition CA_PROTO_EVENT_CANCEL : Z := 2.
Definition CA_PROTO_READ : Z := 3.
Definition CA_PROTO_WRITE : Z := 4.
Definition CA_PROTO_SEARCH : Z := 6.
Definition CA_PROTO_EVENTS_OFF : Z := 8.
Definition CA_PROTO_EVENTS_ON : Z := 9.
Definition CA_PROTO_READ_SYNC : Z := 10.
Definition CA_PROTO_CLEAR_CHANNEL : Z := 12.
Definition CA_PROTO_READ_NOTIFY : Z := 15.
Definition CA_PROTO_CREATE_CHAN : Z := 18.
Definition CA_PROTO_WRITE_NOTIFY : Z := 19.
Definition CA_PROTO_CLIENT_NAME : Z := 20.
Definition CA_PROTO_HOST_NAME : Z := 21.
Definition CA_PROTO_ECHO : Z := 23.

Definition CA_MINIMUM_SUPPORTED_VERSION : Z := 4.

Definition is_legal_tcp_command (cmmd : Z) : bool :=
  existsb (Z.eqb cmmd)
    [ CA_PROTO_VERSION; CA_PROTO_EVENT_ADD; CA_PROTO_EVENT_CANCEL; CA_PROTO_READ;
      CA_PROTO_WRITE; CA_PROTO_SEARCH; CA_PROTO_EVENTS_OFF; CA_PROTO_EVENTS_ON;
      CA_PROTO_READ_SYNC; CA_PROTO_CLEAR_CHANNEL; CA_PROTO_READ_NOTIFY;
      CA_PROTO_CREATE_CHAN; CA_PROTO_WRITE_NOTIFY; CA_PROTO_CLIENT_NAME;
      CA_PROTO_HOST_NAME; CA_PROTO_ECHO ].

Definition BAD_TCP_COMMAND_DIAGNOSTIC : string :=
  "invalid (damaged?) request code from TCP".

(** ** The header *)

Record CaHeader : Type := mkCaHeader {
  cmmd : Z;
  postsize : Z;
  data_type : Z;
  count : Z;
  cid : Z;
  available : Z;
  extended_postsize : option Z;
  extended_count : option Z;
}.

#[export] Instance CaHeader_eq_dec : EqDecision CaHeader.
Proof. solve_decision. Defined.

Definition HDR_SIZE : Z := 16.
Definition EXTENDED_EXTRA : Z := 8.

Definition CaHeader_new (cmd : Z) : CaHeader :=
  mkCaHeader cmd 0 0 0 0 0 None None.

Definition is_extended (h : CaHeader) : bool :=
  (postsize h =? 0xFFFF) && bool_decide (is_Some (extended_postsize h)).

Definition actual_postsize (h : CaHeader) : Z :=
  if postsize h =? 0xFFFF then
    match extended_postsize h with
    | Some ext => ext
    | None => postsize h
    end
  else postsize h.

Definition actual_count (h : CaHeader) : Z :=
  if postsize h =? 0xFFFF then
    match extended_count h with
    | Some ext => ext
    | None => count h
    end
  else count h.

Definition ca_v49 (minor : Z) : bool := 9 <=? minor.
Definition ca_v413 (minor : Z) : bool := 13 <=? minor.

(** [u16::try_from(version).unwrap_or(u16::MAX)]. *)
Definition minor_from (version : Z) : Z :=
  if version <? 2 ^ 16 then version else uint_max 16.

Definition declared_minor (h : CaHeader) : Z := minor_from (actual_count h).

Definition declares_supported_version (h : CaHeader) : bool :=
  CA_MINIMUM_SUPPORTED_VERSION <=? declared_minor h.

Inductive ExtendedHeaderUnsupported : Type := HeaderUnsupported.

Definition set_payload_size (h : CaHeader) (size cnt peer_minor : Z) :
    result ExtendedHeaderUnsupported CaHeader :=
  if (0xFFFF <=? size) || (0xFFFF <=? cnt) then
    if negb (ca_v49 peer_minor) then Err HeaderUnsupported
    else Ok (mkCaHeader (cmmd h) 0xFFFF (data_type h) 0 (cid h) (available h)
               (Some (wrap 32 size)) (Some cnt))
  else Ok (mkCaHeader (cmmd h) (wrap 16 size) (data_type h) (wrap 16 cnt)
             (cid h) (available h) None None).

Definition to_bytes (h : CaHeader) : list Z :=
  to_be_bytes 2 (cmmd h) ++ to_be_bytes 2 (postsize h) ++
  to_be_bytes 2 (data_type h) ++ to_be_bytes 2 (count h) ++
  to_be_bytes 4 (cid h) ++ to_be_bytes 4 (available h).

(** The used prefix of the [HeaderBytes] buffer. *)
Definition to_bytes_extended (h : CaHeader) : list Z :=
  to_bytes h ++
  (if is_extended h then
     to_be_bytes 4 (default 0 (extended_postsize h)) ++
     to_be_bytes 4 (default 0 (extended_count h))
   else []).

Arguments to_bytes : simpl never.
Arguments to_bytes_extended : simpl never.

(** [uN::from_be_bytes] over [n] bytes of [buf] at offset [i]. *)
Definition be_at (n : nat) (i : Z) (buf : list Z) : Z :=
  from_be_bytes (take n (zdrop i buf)).

Arguments be_at : simpl never.

Definition header_too_short (n : Z) : CaError :=
  Protocol ("header too short: " +:+ pretty n +:+ " bytes").

Definition from_bytes (buf : list Z) : CaResult CaHeader :=
  if len buf <? 16 then Err (header_too_short (len buf))
  else Ok (mkCaHeader (be_at 2 0 buf) (be_at 2 2 buf) (be_at 2 4 buf) (be_at 2 6 buf)
             (be_at 4 8 buf) (be_at 4 12 buf) None None).

Definition from_bytes_extended (buf : list Z) : CaResult (CaHeader * Z) :=
  if len buf <? 16 then Err (header_too_short (len buf))
  else
    h ← from_bytes buf;
    if postsize h =? 0xFFFF then
      if len buf <? 24 then Err (Protocol "extended header incomplete")
      else
        let ext_post := be_at 4 16 buf in
        let ext_count := be_at 4 20 buf in
        Ok (mkCaHeader (cmmd h) (postsize h) (data_type h) (count h) (cid h)
              (available h) (Some ext_post) (Some ext_count), 24)
    else Ok (h, 16).

Definition from_bytes_for_peer (buf : list Z) (peer_minor : Z) : CaResult (CaHeader * Z) :=
  if ca_v49 peer_minor then from_bytes_extended buf
  else h ← from_bytes buf; Ok (h, 16).

(** ** Limits *)

Definition MAX_FRAME_BODY_BYTES : Z := 16 * 1024 * 1024.
Definition MAX_TCP : Z := 1024 * 16.
Definition COM_BUF_SIZE : Z := 0x4000.
Definition CONTIGUOUS_FRAMES_TRIGGERING_FLOW_CONTROL : Z := 10.

(** The two environment variables: [EPICS_CA_MAX_ARRAY_BYTES] as
    [long_or_default] reads it (an [i64]) and [EPICS_CA_AUTO_ARRAY_BYTES] as
    [bool] does ([None] when unset or unreadable). *)
Record CaEnv : Type := mkCaEnv {
  env_max_array_bytes : Z;
  env_auto_array_bytes : option bool;
}.

Section Limits.
Context `{Target}.

Definition max_array_bytes_buffer (env : CaEnv) : Z :=
  let max_bytes := env_max_array_bytes env in
  if (0 <=? max_bytes) && (max_bytes <=? uint_max usize_bits) then
    Z.max (sat_add usize_bits max_bytes (16 + EXTENDED_EXTRA)) MAX_TCP
  else MAX_TCP.

Definition auto_array_bytes (env : CaEnv) : bool :=
  default true (env_auto_array_bytes env).

Definition max_recv_body_bytes (env : CaEnv) : option Z :=
  if auto_array_bytes env then None else Some (max_array_bytes_buffer env).

Definition max_frame_body_bytes (env : CaEnv) : Z :=
  default MAX_FRAME_BODY_BYTES (max_recv_body_bytes env).

Definition max_contiguous_frames (env : CaEnv) : Z :=
  let bufs_per_array := max_array_bytes_buffer env / COM_BUF_SIZE in
  if 1 <? bufs_per_array then
    usize_mul bufs_per_array CONTIGUOUS_FRAMES_TRIGGERING_FLOW_CONTROL
  else CONTIGUOUS_FRAMES_TRIGGERING_FLOW_CONTROL.

(** ** Request element counts *)

Definition dbr_request_sizes (dbr_type : Z) : CaResult (Z * Z) :=
  sizes ←
    (if in_range 0 34 dbr_type then
       native ← map_err (fun _ => UnsupportedType dbr_type) (from_u16 (dbr_type mod 7));
       Ok (dbr_buffer_size dbr_type native 1, element_size native)
     else if (dbr_type =? 35) || (dbr_type =? 36) then Ok (2, 2)
     else if dbr_type =? 37 then Ok (48, 40)
     else if dbr_type =? 38 then Ok (40, 40)
     else Err (UnsupportedType dbr_type));
  let '(dbr_size, value_size) := sizes in
  Ok (dbr_size, Z.max value_size 1).

Definition max_read_elements (dbr_size value_size peer_minor : Z) : Z :=
  let max_bytes := if ca_v49 peer_minor then 0xfffffff0 else MAX_TCP in
  sat_sub max_bytes dbr_size / value_size.

Definition read_notify_wire_count (requested native dbr_type peer_minor : Z) : CaResult Z :=
  sizes ← dbr_request_sizes dbr_type;
  let '(dbr_size, value_size) := sizes in
  if max_read_elements dbr_size value_size peer_minor <? requested then Err TooLarge
  else Ok (if (requested =? 0) && negb (ca_v413 peer_minor) then native else requested).

Definition subscription_cancel_wire_count (requested native peer_minor : Z) : Z :=
  if ((requested =? 0) && negb (ca_v413 peer_minor)) || (native <? requested)
  then native else requested.

Definition subscription_wire_count (requested native dbr_type peer_minor : Z) : CaResult Z :=
  sizes ← dbr_request_sizes dbr_type;
  let '(dbr_size, value_size) := sizes in
  let cnt := subscription_cancel_wire_count requested native peer_minor in
  if max_read_elements dbr_size value_size peer_minor <? cnt then Err TooLarge
  else Ok cnt.

Definition check_write_request (cnt dbr_type peer_minor : Z) : CaResult unit :=
  sizes ← dbr_request_sizes dbr_type;
  let '(dbr_size, value_size) := sizes in
  if cnt =? 1 then Ok tt
  else
    let max_bytes := if ca_v49 peer_minor then 0xffffffff else MAX_TCP - 16 in
    let max_elem := sat_sub (sat_sub max_bytes 8) dbr_size / value_size in
    if max_elem <=? cnt then Err BadCount else Ok tt.

(** ** Payload padding and put frames *)

Definition align8 (size : Z) : Z := and_not (sat_add usize_bits size 7) 7.

Definition pad_bytes (s : list Z) : list Z :=
  let bytes := s ++ [0] in
  vec_resize (align8 (len bytes)) 0 bytes.

Definition MAX_STRING_SIZE : Z := 40.

Definition scalar_string_put_len (payload : list Z) : CaResult Z :=
  match position (fun b => b =? 0) (ztake MAX_STRING_SIZE payload) with
  | Some nul => Ok (nul + 1)
  | None => if len payload <? MAX_STRING_SIZE then Ok (len payload + 1) else Err BadCount
  end.

Definition build_put_frame (cmd sid dtype cnt : Z) (ioid : option Z)
    (payload : list Z) (peer_minor : Z) : CaResult (list Z) :=
  body ←
    (if (cnt =? 1) && (dtype =? DBR_STRING) then
       n ← scalar_string_put_len payload; Ok (ztake n payload)
     else Ok payload);
  let body := vec_resize (align8 (len body)) 0 body in
  let hdr := mkCaHeader cmd 0 dtype 0 sid (default 0 ioid) None None in
  hdr ← map_err (fun _ => BadCount) (set_payload_size hdr (len body) cnt peer_minor);
  Ok (to_bytes_extended hdr ++ body).
End Limits.
