(* ===== verification/CaProtocolTheory.v ===== *)
(** * Theorems of the Channel Access message layer

    Header codec round trips, framing of puts, padding, the element-count
    bounds, and the legality table, for the definitions of [CaProtocol]. *)
From stdpp Require Import base tactics numbers list option strings.
From S2P Require Import Prelude Dbr CaProtocol.

Open Scope Z_scope.

(** ** Well-formed headers

    Every field fits its width, and the annex is present exactly when
    [postsize] is the escape value. *)
Record hdr_ok (h : CaHeader) : Prop := mk_hdr_ok {
  ok_cmmd : is_u16 (cmmd h);
  ok_postsize : is_u16 (postsize h);
  ok_data_type : is_u16 (data_type h);
  ok_count : is_u16 (count h);
  ok_cid : is_u32 (cid h);
  ok_available : is_u32 (available h);
  ok_annex :
    match extended_postsize h, extended_count h with
    | None, None => postsize h <> 0xFFFF
    | Some p, Some c => postsize h = 0xFFFF /\ is_u32 p /\ is_u32 c
    | _, _ => False
    end;
}.

(** Bytes of the encoded header. *)
Definition hdr_len (h : CaHeader) : Z := if is_extended h then 24 else 16.

(** ** Reading fields out of an encoded header *)

Lemma be_at_here n x l :
  is_uint (8 * Z.of_nat n) x -> be_at n 0 (to_be_bytes n x ++ l) = x.
Proof.
  intros Hx. unfold be_at. rewrite zdrop_0, take_app_length' by (by rewrite length_to_be_bytes).
  rewrite from_to_be_bytes, Z.mod_small; [done|].
  unfold is_uint in Hx. rewrite Z.pow_mul_r in Hx by lia. done.
Qed.

Lemma be_at_skip n i a l :
  len a <= i -> be_at n i (a ++ l) = be_at n (i - len a) l.
Proof. intros. unfold be_at. by rewrite zdrop_app_ge. Qed.

Ltac be_parse :=
  repeat (rewrite be_at_skip by (rewrite length_to_be_bytes; lia);
          rewrite length_to_be_bytes; simpl Z.sub);
  apply be_at_here; assumption.

Lemma len_to_bytes h : len (to_bytes h) = 16.
Proof. unfold to_bytes. rewrite !length_app, !length_to_be_bytes. done. Qed.

Lemma len_to_bytes_extended h : len (to_bytes_extended h) = hdr_len h.
Proof.
  unfold to_bytes_extended, hdr_len. rewrite length_app, Nat2Z.inj_add, len_to_bytes.
  case_goal; [rewrite length_app, !length_to_be_bytes|]; done.
Qed.

Lemma to_bytes_extended_ok h : bytes_ok (to_bytes_extended h).
Proof.
  unfold to_bytes_extended, to_bytes.
  case_goal; rewrite !Forall_app; repeat split; auto with wire.
Qed.

(** ** Round trips *)

(** The sixteen fixed bytes parse back to the fixed fields. *)
Lemma from_bytes_to_bytes h l :
  hdr_ok h ->
  from_bytes (to_bytes h ++ l)
  = Ok (mkCaHeader (cmmd h) (postsize h) (data_type h) (count h) (cid h) (available h)
          None None).
Proof.
  intros [???????]. unfold from_bytes.
  rewrite length_app, Nat2Z.inj_add, len_to_bytes.
  case_goal; zbool; [lia|]. unfold to_bytes. rewrite <- !app_assoc.
  f_equal. f_equal; be_parse.
Qed.

Lemma is_extended_annex h :
  hdr_ok h ->
  is_extended h = true /\ postsize h = 0xFFFF /\
    (exists p c, extended_postsize h = Some p /\ extended_count h = Some c
                 /\ is_u32 p /\ is_u32 c) \/
  is_extended h = false /\ postsize h <> 0xFFFF
    /\ extended_postsize h = None /\ extended_count h = None.
Proof.
  intros [?????? Ha]. unfold is_extended.
  destruct (extended_postsize h), (extended_count h); try done; simpl.
  - destruct Ha as (-> & ? & ?). left. split; [done|]. eauto 10.
  - right. split; [|done]. apply andb_false_r.
Qed.

Lemma header_roundtrip h l :
  hdr_ok h -> from_bytes_extended (to_bytes_extended h ++ l) = Ok (h, hdr_len h).
Proof.
  intros Hok. unfold from_bytes_extended, hdr_len.
  pose proof (len_to_bytes_extended h) as Hlen. unfold hdr_len in Hlen.
  rewrite length_app, Nat2Z.inj_add, Hlen.
  unfold to_bytes_extended. rewrite <- app_assoc, from_bytes_to_bytes by done.
  rbind. cbn [postsize cmmd data_type count cid available].
  destruct (is_extended_annex h Hok) as
    [(-> & Hp & p & c & He & Hc & ? & ?) | (-> & Hp & He & Hc)].
  - rewrite He, Hc. cbn [default from_option id]. rewrite Hp, Z.eqb_refl.
    rewrite (be_at_skip 4 16), (be_at_skip 4 20) by (rewrite len_to_bytes; lia).
    rewrite len_to_bytes, <- app_assoc. simpl Z.sub.
    rewrite be_at_here by done. rewrite be_at_skip by done.
    rewrite length_to_be_bytes, be_at_here by done.
    clear Hok Hlen. destruct h; cbn in *; simplify_eq. repeat case_goal; zbool; lia || done.
  - apply Z.eqb_neq in Hp. rewrite Hp.
    case_goal; zbool; [lia|]. clear Hok Hlen. destruct h; cbn in *; simplify_eq. done.
Qed.

(** ** Decoding then encoding *)

Lemma be_at_bytes n i buf :
  bytes_ok buf -> 0 <= i -> i + Z.of_nat n <= len buf ->
  to_be_bytes n (be_at n i buf) = take n (drop (Z.to_nat i) buf).
Proof.
  intros Hb Hi Hn. unfold be_at, zdrop.
  rewrite <- (to_from_be_bytes (take n (drop (Z.to_nat i) buf))) at 2
    by (by apply Forall_take, Forall_drop).
  f_equal. rewrite length_take, length_drop. lia.
Qed.

Lemma be_at_uint n w i buf :
  w = 8 * Z.of_nat n -> bytes_ok buf -> 0 <= i -> i + Z.of_nat n <= len buf ->
  is_uint w (be_at n i buf).
Proof.
  intros -> Hb Hi Hn. unfold is_uint, be_at.
  pose proof (from_be_bytes_range (take n (zdrop i buf))) as Hr.
  rewrite length_take, Nat.min_l in Hr by (unfold zdrop; rewrite length_drop; lia).
  rewrite Z.pow_mul_r by lia. apply Hr. by apply Forall_take, Forall_drop.
Qed.

Lemma take_drop_join {A : Type} n m i (l : list A) :
  take n (drop i l) ++ take m (drop (i + n) l) = take (n + m) (drop i l).
Proof. rewrite <- drop_drop. apply take_take_drop. Qed.

Lemma to_bytes_from_bytes buf h :
  bytes_ok buf -> from_bytes buf = Ok h -> to_bytes h = take 16 buf.
Proof.
  intros Hb. unfold from_bytes. case_goal; zbool; [done|]. intros [= <-].
  unfold to_bytes; cbn [cmmd postsize data_type count cid available].
  rewrite !be_at_bytes by (done || lia). simpl Z.to_nat.
  rewrite (take_drop_join 4 4 8), (take_drop_join 2 8 6), (take_drop_join 2 10 4),
    (take_drop_join 2 12 2), (take_drop_join 2 14 0). done.
Qed.

Lemma from_bytes_fields buf h :
  bytes_ok buf -> from_bytes buf = Ok h ->
  is_u16 (cmmd h) /\ is_u16 (postsize h) /\ is_u16 (data_type h) /\ is_u16 (count h) /\
  is_u32 (cid h) /\ is_u32 (available h) /\
  extended_postsize h = None /\ extended_count h = None /\ 16 <= len buf.
Proof.
  intros Hb. unfold from_bytes. case_goal; zbool; [done|]. intros [= <-]. simpl.
  split_and!; try done; apply be_at_uint; done || lia.
Qed.

(** Whatever parses is well formed and re-encodes to the bytes it was read from. *)
Lemma parsed_header buf h n :
  bytes_ok buf -> from_bytes_extended buf = Ok (h, n) ->
  hdr_ok h /\ n = hdr_len h /\ to_bytes_extended h = ztake n buf /\ n <= len buf.
Proof.
  intros Hb. unfold from_bytes_extended. case_goal; zbool; [done|].
  destruct (from_bytes buf) as [g|] eqn:Hg; rbind; [|done].
  pose proof (to_bytes_from_bytes _ _ Hb Hg) as Ht.
  pose proof (from_bytes_fields _ _ Hb Hg) as (?&?&?&?&?&?&He&Hc&?).
  case_goal; zbool.
  - case_goal; zbool; [done|]. intros [= <- <-]. unfold to_bytes_extended, hdr_len, is_extended.
    cbn [postsize extended_postsize extended_count]. rewrite (proj2 (Z.eqb_eq _ _)) by done.
    rewrite bool_decide_eq_true_2 by (by eexists). cbn [andb default from_option id].
    split; [split; simpl; try done; split; [done|split; apply be_at_uint; done || lia]|].
    split; [done|]. split; [|lia].
    unfold to_bytes in *; cbn [cmmd postsize data_type count cid available] in *.
    rewrite Ht, !be_at_bytes by (done || lia). simpl Z.to_nat.
    rewrite (take_drop_join 4 4 16). apply take_take_drop.
  - intros [= <- <-]. unfold to_bytes_extended, hdr_len, is_extended.
    rewrite (proj2 (Z.eqb_neq _ _)) by done. simpl andb. rewrite app_nil_r.
    split; [split; try done; by rewrite He, Hc|]. repeat split; [done|lia].
Qed.

(** ** Choosing the header form *)

Lemma set_payload_size_ok h size cnt minor h' :
  is_u16 (cmmd h) -> is_u16 (data_type h) -> is_u32 (cid h) -> is_u32 (available h) ->
  is_u32 size -> is_u32 cnt ->
  set_payload_size h size cnt minor = Ok h' ->
  hdr_ok h' /\ actual_postsize h' = size /\ actual_count h' = cnt /\
  cmmd h' = cmmd h /\ data_type h' = data_type h /\ cid h' = cid h /\
  available h' = available h /\
  hdr_len h' = (if (0xFFFF <=? size) || (0xFFFF <=? cnt) then 24 else 16) /\
  (hdr_len h' = 24 -> ca_v49 minor = true).
Proof.
  intros ????? ?. unfold set_payload_size. case_goal.
  - case_goal; zbool; [done|]. intros [= <-]. rewrite !wrap_small by done.
    split; [split; simpl; unfold is_uint in *; lia|]. done.
  - zbool. intros [= <-]. rewrite !wrap_small by (unfold is_uint in *; lia).
    unfold actual_postsize, actual_count, hdr_len, is_extended. simpl.
    rewrite (proj2 (Z.eqb_neq _ _)) by lia.
    split; [split; simpl; unfold is_uint in *; lia|]. done.
Qed.

Lemma set_payload_size_err h size cnt minor :
  set_payload_size h size cnt minor = Err HeaderUnsupported <->
  (0xFFFF <= size \/ 0xFFFF <= cnt) /\ minor < 9.
Proof.
  unfold set_payload_size, ca_v49.
  destruct (Z.leb_spec 0xFFFF size), (Z.leb_spec 0xFFFF cnt), (Z.leb_spec 9 minor);
    simpl; split; intros; try done; try lia; split; lia.
Qed.

(** ** Padding *)

Section Padding.
Context `{Target}.

Lemma usize_max_big : 2 ^ 32 - 1 <= uint_max usize_bits.
Proof. exact usize_max_ge_u32. Qed.

(** Below the saturation point [align8] is the ceiling to a multiple of eight. *)
Lemma align8_small size :
  0 <= size <= uint_max usize_bits - 7 -> align8 size = 8 * ((size + 7) / 8).
Proof. intros. unfold align8, sat_add. rewrite Z.min_l by lia. apply and_not_7. Qed.

Lemma align8_bounds size :
  0 <= size <= uint_max usize_bits - 7 ->
  size <= align8 size < size + 8 /\ align8 size mod 8 = 0.
Proof.
  intros. rewrite align8_small by done. split; [|by rewrite Z.mul_comm, Z.mod_mul].
  divlia.
Qed.

Lemma align8_body (body : list Z) :
  len body <= 2 ^ 32 - 8 ->
  exists k : nat,
    vec_resize (align8 (len body)) 0 body = body ++ replicate k 0 /\ (k < 8)%nat /\
    (len body + Z.of_nat k) mod 8 = 0.
Proof.
  intros. pose proof usize_max_big.
  destruct (align8_bounds (len body)) as [Hb Hm]; [lia|].
  exists (Z.to_nat (align8 (len body)) - length body)%nat.
  rewrite vec_resize_ge by lia. split_and!; [done|lia|].
  replace (len body + _) with (align8 (len body)) by lia. done.
Qed.

(** ** Put frames *)

(** What a put sends before padding: a scalar string is cut after its NUL. *)
Definition put_payload (cnt dtype : Z) (payload : list Z) : CaResult (list Z) :=
  if (cnt =? 1) && (dtype =? DBR_STRING) then
    n ← scalar_string_put_len payload; Ok (ztake n payload)
  else Ok payload.

Lemma put_payload_prefix cnt dtype payload body :
  put_payload cnt dtype payload = Ok body -> exists k, body = ztake k payload.
Proof.
  unfold put_payload. case_goal.
  - destruct (scalar_string_put_len payload); rbind; [|done]. intros [= <-]. eauto.
  - intros [= <-]. exists (len payload). by rewrite ztake_ge by lia.
Qed.

Lemma put_payload_len cnt dtype payload body :
  put_payload cnt dtype payload = Ok body -> len body <= len payload.
Proof.
  intros (k & ->)%put_payload_prefix. unfold ztake. rewrite length_take. lia.
Qed.

Lemma from_bytes_for_peer_roundtrip h l minor :
  hdr_ok h -> (hdr_len h = 24 -> ca_v49 minor = true) ->
  from_bytes_for_peer (to_bytes_extended h ++ l) minor = Ok (h, hdr_len h).
Proof.
  intros Hok Hv. unfold from_bytes_for_peer. case_goal; [by apply header_roundtrip|].
  unfold hdr_len, to_bytes_extended in *. rewrite <- app_assoc, from_bytes_to_bytes by done.
  rbind. destruct (is_extended_annex h Hok) as [(He & _)|(He & _ & ? & ?)]; rewrite He in *.
  - specialize (Hv eq_refl). congruence.
  - clear Hok. destruct h; simpl in *; by simplify_eq.
Qed.

Lemma put_frame_parts cmd sid dtype cnt ioid payload minor frame :
  is_u16 cmd -> is_u32 sid -> is_u16 dtype -> is_u32 cnt ->
  is_u32 (default 0 ioid) -> len payload <= 2 ^ 32 - 8 ->
  build_put_frame cmd sid dtype cnt ioid payload minor = Ok frame ->
  exists (h : CaHeader) (body : list Z) (k : nat),
    frame = to_bytes_extended h ++ body ++ replicate k 0 /\
    put_payload cnt dtype payload = Ok body /\ (k < 8)%nat /\
    hdr_ok h /\ (hdr_len h = 24 -> ca_v49 minor = true) /\
    actual_postsize h = len (body ++ replicate k 0) /\ actual_postsize h mod 8 = 0 /\
    actual_count h = cnt /\ cmmd h = cmd /\ data_type h = dtype /\ cid h = sid /\
    available h = default 0 ioid.
Proof.
  intros Hc Hs Hd Hn Hi Hl. unfold build_put_frame. fold (put_payload cnt dtype payload).
  destruct (put_payload cnt dtype payload) as [body|] eqn:Hp; rbind; [|done].
  pose proof (put_payload_len _ _ _ _ Hp) as Hlen.
  destruct (align8_body body) as (k & -> & Hk & Hm); [lia|].
  destruct (set_payload_size _ _ _ _) as [h|] eqn:Hh; rbind; [|done].
  intros [= <-]. apply set_payload_size_ok in Hh as (?&Hp'&?&?&?&?&?&?&?); simpl; try done.
  - exists h, body, k. rewrite Hp', length_app, length_replicate, Nat2Z.inj_add.
    split_and!; done.
  - unfold is_uint. rewrite length_app, length_replicate. lia.
Qed.
End Padding.

(** ** Element counts *)

Section Counts.
Context `{Target}.

Lemma request_sizes_pos t ds vs : dbr_request_sizes t = Ok (ds, vs) -> 0 <= ds /\ 1 <= vs.
Proof.
  unfold dbr_request_sizes. case_goal.
  - destruct (from_u16 (t mod 7)) as [n|]; rbind; [|done]. intros [= <- <-].
    rewrite dbr_buffer_size_one.
    pose proof (dbr_meta_size_bounds t n). pose proof (element_size_bounds n).
    case_goal; lia.
  - repeat case_goal; rbind; intros; simplify_eq; lia.
Qed.

(** The limit [max_read_elements] divides out. *)
Definition read_limit (minor : Z) : Z := if ca_v49 minor then 0xfffffff0 else MAX_TCP.

Lemma max_read_elements_fits ds vs minor n :
  0 <= ds -> 1 <= vs -> 0 < n -> n <= max_read_elements ds vs minor ->
  ds + n * vs <= read_limit minor.
Proof.
  unfold max_read_elements, sat_sub. fold (read_limit minor). intros Hd Hv Hn Hle.
  assert (n * vs <= Z.max (read_limit minor - ds) 0); [|nia].
  pose proof (Z.mul_div_le (Z.max (read_limit minor - ds) 0) vs). nia.
Qed.

Lemma subscription_count_cases requested native minor n :
  subscription_cancel_wire_count requested native minor = n ->
  n = native \/ n = requested /\ requested <= native.
Proof. unfold subscription_cancel_wire_count. case_goal; zbool; lia. Qed.

(** The body ceiling is at least one [MAX_TCP] buffer and fits [usize]. *)
Lemma max_frame_body_bounds env :
  MAX_TCP <= max_frame_body_bytes env <= uint_max usize_bits.
Proof.
  unfold max_frame_body_bytes, max_recv_body_bytes, max_array_bytes_buffer,
    sat_add, MAX_TCP, MAX_FRAME_BODY_BYTES.
  pose proof usize_max_big. repeat case_goal; simpl; lia.
Qed.
End Counts.

(** ** Claims *)

(** A well-formed header encodes to 16 bytes, or 24 when it carries the
    annex, and [from_bytes_extended] reads the same header back from those
    bytes, whatever follows them, consuming exactly the encoded length. *)
Theorem ca_header_encode_decode (h : CaHeader) (rest : list Z) :
  hdr_ok h ->
  from_bytes_extended (to_bytes_extended h ++ rest)
  = Ok (h, len (to_bytes_extended h)).
Proof. intros. rewrite len_to_bytes_extended. by apply header_roundtrip. Qed.

Lemma ca_header_encode_decode_witness :
  from_bytes_extended
    (to_bytes_extended (mkCaHeader 19 0xFFFF 6 0 1 2 (Some 80000) (Some 10000)) ++ [7])
  = Ok (mkCaHeader 19 0xFFFF 6 0 1 2 (Some 80000) (Some 10000), 24).
Proof.
  apply (ca_header_encode_decode
           (mkCaHeader 19 0xFFFF 6 0 1 2 (Some 80000) (Some 10000)) [7]).
  split; vm_compute; intuition discriminate.
Defined.

(** The decoder is injective on bytes: a header that parses is well
    formed, the reported length is 16 or 24 and within the buffer, and
    encoding the header gives back exactly the bytes that were consumed. *)
Theorem ca_header_decode_encode (buf : list Z) (h : CaHeader) (n : Z) :
  bytes_ok buf -> from_bytes_extended buf = Ok (h, n) ->
  hdr_ok h /\ to_bytes_extended h = ztake n buf /\ n <= len buf /\ (n = 16 \/ n = 24).
Proof.
  intros Hb Hp. destruct (parsed_header _ _ _ Hb Hp) as (?&Hn&?&?).
  split_and!; try done. rewrite Hn. unfold hdr_len. case_goal; lia.
Qed.

Lemma ca_header_decode_encode_witness :
  exists h, from_bytes_extended (replicate 16 1) = Ok (h, 16)
            /\ to_bytes_extended h = ztake 16 (replicate 16 1).
Proof.
  eexists. split; [reflexivity|].
  apply (ca_header_decode_encode (replicate 16 1) _ 16); [|reflexivity].
  repeat constructor; vm_compute; discriminate.
Defined.

(** Choosing the header form never loses information and never sends a
    pre-V4.9 peer an annex: [set_payload_size] either stores a size and a
    count that read back exactly, in the 24-byte form only for a peer of
    minor version 9 or later, or refuses, which happens exactly when the
    size or the count needs the annex and the peer is older. *)
Theorem set_payload_size_spec (h : CaHeader) (size cnt minor : Z) :
  hdr_ok h -> is_u32 size -> is_u32 cnt ->
  match set_payload_size h size cnt minor with
  | Ok h' =>
      hdr_ok h' /\ actual_postsize h' = size /\ actual_count h' = cnt /\
      cmmd h' = cmmd h /\ cid h' = cid h /\ (hdr_len h' = 24 -> 9 <= minor)
  | Err _ => (0xFFFF <= size \/ 0xFFFF <= cnt) /\ minor < 9
  end.
Proof.
  intros [] ??. case_goal; [|destruct e; by apply set_payload_size_err in Heqr].
  apply set_payload_size_ok in Heqr as (?&?&?&?&?&?&?&?&Hv); try done.
  split_and!; try done. intros Hl. specialize (Hv Hl). unfold ca_v49 in Hv. zbool. done.
Qed.

Lemma set_payload_size_spec_witness :
  (0xFFFF <= 0xFFFF \/ 0xFFFF <= 1) /\ 8 < 9.
Proof.
  refine (set_payload_size_spec (CaHeader_new 15) 0xFFFF 1 8 _ _ _);
    [split|..]; vm_compute; intuition discriminate.
Defined.

(** A put frame is one complete message for its peer: parsed at the
    peer's version it yields the command, type, channel and request ids and
    element count it was built with, a declared body length that is exactly
    the rest of the frame and a multiple of eight, and that body is the put
    payload (a scalar string cut after its NUL) followed by fewer than eight
    zero bytes. *)
Theorem put_frame_parses `{Target} (cmd sid dtype cnt : Z) (ioid : option Z)
    (payload frame : list Z) (minor : Z) :
  is_u16 cmd -> is_u32 sid -> is_u16 dtype -> is_u32 cnt ->
  is_u32 (default 0 ioid) -> len payload <= 2 ^ 32 - 8 ->
  build_put_frame cmd sid dtype cnt ioid payload minor = Ok frame ->
  exists (h : CaHeader) (n : Z) (body : list Z) (k : nat),
    from_bytes_for_peer frame minor = Ok (h, n) /\
    put_payload cnt dtype payload = Ok body /\
    zdrop n frame = body ++ replicate k 0 /\ (k < 8)%nat /\
    actual_postsize h = len frame - n /\ actual_postsize h mod 8 = 0 /\
    cmmd h = cmd /\ data_type h = dtype /\ cid h = sid /\
    available h = default 0 ioid /\ actual_count h = cnt.
Proof.
  intros ?????? Hf.
  apply put_frame_parts in Hf as (h & body & k & -> & ? & ? & Hok & Hv & Hp & ?&?&?&?&?&?);
    try done.
  exists h, (hdr_len h), body, k. rewrite <- (len_to_bytes_extended h) at 2 3.
  rewrite zdrop_len_app, from_bytes_for_peer_roundtrip by done.
  rewrite !length_app in *. split_and!; done || lia.
Qed.

Lemma put_frame_parses_witness :
  exists frame : list Z,
    @build_put_frame host64 4 5 0 1 None [97; 98; 99; 0; 0; 0; 0; 0; 0] 13 = Ok frame /\
    exists h n body k,
      from_bytes_for_peer frame 13 = Ok (h, n) /\
      put_payload 1 0 [97; 98; 99; 0; 0; 0; 0; 0; 0] = Ok body /\
      zdrop n frame = body ++ replicate k 0 /\ (k < 8)%nat /\
      actual_postsize h = len frame - n /\ actual_postsize h mod 8 = 0 /\
      cmmd h = 4 /\ data_type h = 0 /\ cid h = 5 /\ available h = 0 /\ actual_count h = 1.
Proof.
  eexists. split; [vm_compute; reflexivity|].
  apply (@put_frame_parses host64 4 5 0 1 None [97; 98; 99; 0; 0; 0; 0; 0; 0]);
    vm_compute; intuition discriminate.
Defined.

(** A read count that is accepted for a non-zero request is the count
    asked for, and the reply body of that many elements fits the circuit's
    message limit (16 KiB for a peer below V4.9). *)
Theorem read_count_fits `{Target} (requested native dbr_type minor n ds vs : Z) :
  0 < requested ->
  dbr_request_sizes dbr_type = Ok (ds, vs) ->
  read_notify_wire_count requested native dbr_type minor = Ok n ->
  n = requested /\ ds + n * vs <= read_limit minor.
Proof.
  intros Hr Hs. unfold read_notify_wire_count. rewrite Hs. rbind.
  case_goal; zbool; [done|]. rewrite (proj2 (Z.eqb_neq requested 0)) by lia.
  intros [= <-]. split; [done|].
  apply request_sizes_pos in Hs as [??]. by apply max_read_elements_fits.
Qed.

Lemma read_count_fits_witness :
  @read_notify_wire_count host64 1000 1000 20 8 = Ok 1000 /\ 24 + 1000 * 8 <= read_limit 8.
Proof.
  split; [reflexivity|].
  apply (@read_count_fits host64 1000 1000 20 8 1000 24 8); reflexivity.
Defined.

(** A subscription count is bounded after it is resolved: an accepted
    count is the native count or a smaller request, and its update body fits
    the circuit.  A zero-count read of a pre-V4.13 peer is resolved after the
    bound instead, so a native count over the limit is framed by the read and
    refused by the subscription. *)
Theorem subscription_count_fits `{Target} (requested native dbr_type minor ds vs : Z) :
  0 < native -> 0 <= requested ->
  dbr_request_sizes dbr_type = Ok (ds, vs) ->
  match subscription_wire_count requested native dbr_type minor with
  | Ok n => n <= native /\ (n = native \/ n = requested) /\
            (0 < n -> ds + n * vs <= read_limit minor)
  | Err e => e = TooLarge /\
      (requested = 0 -> minor < 13 ->
       read_notify_wire_count 0 native dbr_type minor = Ok native)
  end.
Proof.
  intros Hn Hr Hs. unfold subscription_wire_count, read_notify_wire_count. rewrite Hs. rbind.
  pose proof (request_sizes_pos _ _ _ Hs) as [? ?].
  destruct (subscription_count_cases requested native minor _ eq_refl) as [Hc|[Hc ?]];
    case_goal; zbool.
  - split; [done|]. intros _ Hm. unfold ca_v413. rewrite (proj2 (Z.leb_gt _ _)) by lia.
    rewrite (proj2 (Z.ltb_ge _ _)); [done|].
    unfold max_read_elements, sat_sub. apply Z.div_pos; lia.
  - split_and!; [lia|by left|]. intros. rewrite Hc in *. by apply max_read_elements_fits.
  - split; [done|]. intros -> Hm. rewrite Hc in Heqb.
    assert (0 <= max_read_elements ds vs minor); [|lia].
    unfold max_read_elements, sat_sub. apply Z.div_pos; lia.
  - split_and!; [lia|by right|]. intros. rewrite Hc in *. by apply max_read_elements_fits.
Qed.

Lemma subscription_count_fits_witness :
  TooLarge = TooLarge /\ (0 = 0 -> 8 < 13 ->
    @read_notify_wire_count host64 0 100000 20 8 = Ok 100000).
Proof.
  refine (@subscription_count_fits host64 0 100000 20 8 24 8 _ _ _); reflexivity || lia.
Defined.

(** An array put that passes [check_write_request] fits the frame: its
    elements, the type's metadata and the double of slack stay below the
    limit of the peer's version; a scalar put is bounded by its type alone. *)
Theorem write_count_fits `{Target} (cnt dbr_type minor : Z) :
  0 <= cnt -> check_write_request cnt dbr_type minor = Ok tt ->
  exists ds vs, dbr_request_sizes dbr_type = Ok (ds, vs) /\
    (cnt = 1 \/
     ds + 8 + cnt * vs < if ca_v49 minor then 0xffffffff else MAX_TCP - 16).
Proof.
  intros Hc. unfold check_write_request.
  destruct (dbr_request_sizes dbr_type) as [[ds vs]|] eqn:Hs; rbind; [|done].
  pose proof (request_sizes_pos _ _ _ Hs) as [? ?]. intros Hw. exists ds, vs.
  split; [done|]. remember (if ca_v49 minor then 4294967295 else MAX_TCP - 16) as lim.
  case_hyp Hw; zbool; [by left|right]. case_hyp Hw; zbool; [done|]. unfold sat_sub in *.
  pose proof (Z.mul_div_le (Z.max (Z.max (lim - 8) 0 - ds) 0) vs). nia.
Qed.

Lemma write_count_fits_witness :
  exists ds vs, @dbr_request_sizes host64 6 = Ok (ds, vs) /\
    (500 = 1 \/ ds + 8 + 500 * vs < if ca_v49 4 then 0xffffffff else MAX_TCP - 16).
Proof. apply (@write_count_fits host64 500 6 4); [lia|reflexivity]. Defined.

(** The legal TCP opcodes are exactly the slots of the server's 28-entry
    jump table that hold a handler. *)
Theorem legal_commands_are_the_jump_table (cmd : Z) :
  is_u16 cmd ->
  is_legal_tcp_command cmd
  = (cmd <? 28) && negb (existsb (Z.eqb cmd) [5; 7; 11; 13; 14; 16; 17; 22; 24; 25; 26; 27]).
Proof.
  intros Hc. destruct (Z.ltb_spec cmd 28) as [Hlt|Hge].
  - revert cmd Hlt Hc. enough (forall cmd, 0 <= cmd < 28 -> is_legal_tcp_command cmd = true
      && negb (existsb (Z.eqb cmd) [5; 7; 11; 13; 14; 16; 17; 22; 24; 25; 26; 27])) as Hall.
    { intros. apply Hall. unfold is_uint in *. lia. }
    apply (dbr_code_cases (fun cmd => is_legal_tcp_command cmd = true
      && negb (existsb (Z.eqb cmd) [5; 7; 11; 13; 14; 16; 17; 22; 24; 25; 26; 27])) 28).
    repeat constructor.
  - simpl. unfold is_legal_tcp_command. apply not_true_is_false. intros Hex.
    apply existsb_exists in Hex as (x & Hin & He). zbool. subst.
    simpl in Hin. vm_compute in Hin. lia.
Qed.

Lemma legal_commands_witness :
  is_legal_tcp_command 5
  = (5 <? 28) && negb (existsb (Z.eqb 5) [5; 7; 11; 13; 14; 16; 17; 22; 24; 25; 26; 27]).
Proof. apply (legal_commands_are_the_jump_table 5). vm_compute. intuition discriminate. Defined.

(** An unterminated scalar string of fewer than 40 bytes whose length is
    already a multiple of eight is framed with no terminator at all: the
    [len + 1] computed for it cannot lengthen the payload, and padding adds
    nothing. *)
Theorem unterminated_put_has_no_nul `{Target} (cmd sid : Z) (ioid : option Z)
    (payload : list Z) (minor : Z) :
  Forall (fun b => b <> 0) payload -> len payload < 40 -> len payload mod 8 = 0 ->
  exists h, build_put_frame cmd sid DBR_STRING 1 ioid payload minor
            = Ok (to_bytes_extended h ++ payload).
Proof.
  intros Hnz Hlt H8. pose proof usize_max_big.
  assert (Hs : scalar_string_put_len payload = Ok (len payload + 1)).
  { unfold scalar_string_put_len.
    destruct (position _ _) as [i|] eqn:Hp.
    - apply position_Some in Hp as (_ & x & Hx & Hz). zbool.
      rewrite Forall_forall in Hnz. exfalso. apply (Hnz x); [|done].
      eapply list_elem_of_lookup_2 in Hx. unfold ztake in Hx.
      by eapply elem_of_take in Hx as (j & ? & _); eapply list_elem_of_lookup_2.
    - unfold MAX_STRING_SIZE. by rewrite (proj2 (Z.ltb_lt _ _)) by lia. }
  unfold build_put_frame. simpl. rewrite Hs. rbind.
  rewrite ztake_ge by lia. rewrite align8_small by lia.
  replace (8 * ((len payload + 7) / 8)) with (len payload) by divlia.
  rewrite vec_resize_ge, Nat2Z.id, Nat.sub_diag by lia. simpl replicate. rewrite app_nil_r.
  unfold set_payload_size. rewrite (proj2 (Z.leb_gt _ _)) by lia.
  change (0xFFFF <=? 1) with false. rbind. by eexists.
Qed.

Lemma unterminated_put_witness :
  exists h, @build_put_frame host64 4 1 DBR_STRING 1 None [97;98;99;100;101;102;103;104] 13
            = Ok (to_bytes_extended h ++ [97;98;99;100;101;102;103;104]).
Proof.
  apply (@unterminated_put_has_no_nul host64 4 1 None [97;98;99;100;101;102;103;104] 13);
    [repeat constructor; lia|reflexivity|reflexivity].
Defined.
