(* ===== verification/CaRecv.v ===== *)
(** * The server's receive path: rate limiter and receive accumulator

    Models [epics-ca-rs/src/server/rate_limit.rs] (the token bucket) and
    [epics-ca-rs/src/server/recv.rs] (the per-circuit accumulation buffer and
    the gate sequence every received message passes).  Both are owned by one
    connection, so the atomics of the bucket are plain state here; the clock
    is an argument, the microseconds since the bucket was built.  [GateLoop]
    is the receive loop's contract with the accumulator: ask for messages
    until [NeedMore]. *)
From stdpp Require Import base tactics numbers list option strings pretty.
From S2P Require Import Prelude Dbr CaProtocol.

Open Scope Z_scope.

(** ** Token bucket *)

Record RateLimiter : Type := mkRateLimiter {
  capacity : Z;
  refill_per_sec : Z;
  millitokens : Z;
  last_refill_micros : Z;
}.

Definition RateLimiter_new (cap refill : Z) : RateLimiter :=
  mkRateLimiter cap refill (sat_mul 64 cap 1000) 0.

Definition rl_enabled (rl : RateLimiter) : bool := 0 <? capacity rl.

Definition refill (rl : RateLimiter) (now_micros : Z) : RateLimiter :=
  let last := last_refill_micros rl in
  if now_micros <=? last then rl
  else
    let delta_micros := now_micros - last in
    let added_milli := sat_mul 64 (refill_per_sec rl) delta_micros / 1000 in
    if added_milli =? 0 then rl
    else
      let cap_milli := sat_mul 64 (capacity rl) 1000 in
      mkRateLimiter (capacity rl) (refill_per_sec rl)
        (Z.min (sat_add 64 (millitokens rl) added_milli) cap_milli) now_micros.

(** [true] is [Ok(())]. *)
Definition try_acquire (rl : RateLimiter) (now_micros : Z) : bool * RateLimiter :=
  if negb (rl_enabled rl) then (true, rl)
  else
    let rl := refill rl now_micros in
    let cur := millitokens rl in
    if cur <? 1000 then (false, rl)
    else (true, mkRateLimiter (capacity rl) (refill_per_sec rl) (cur - 1000)
                  (last_refill_micros rl)).

Record RateLimitConfig : Type := mkRateLimitConfig {
  msgs_per_sec : Z;
  burst : Z;
  strike_threshold : Z;
}.

(** The three variables, each already parsed ([None]: unset or unparsable). *)
Definition RateLimitConfig_from_env (rate burst_env strikes : option Z) : RateLimitConfig :=
  let rate := default 0 rate in
  let burst := default (if 0 <? rate then wrap 64 (rate * 4) else 0) burst_env in
  mkRateLimitConfig rate burst (default 100 strikes).

Definition build (cfg : RateLimitConfig) : option RateLimiter :=
  if (msgs_per_sec cfg =? 0) || (burst cfg =? 0) then None
  else Some (RateLimiter_new (burst cfg) (msgs_per_sec cfg)).

(** ** Gate outcomes *)

Inductive Admit : Type :=
| Parse
| Draining
| Overflow (ceiling : Z).

Record GateError : Type := mkGateError {
  ge_hdr : CaHeader;
  ge_status : Z;
  ge_diagnostic : string;
  ge_context : string;
  ge_mnum : Z;
}.

Definition bad_tcp_command (hdr : CaHeader) : GateError :=
  mkGateError hdr ECA_INTERNAL BAD_TCP_COMMAND_DIAGNOSTIC BAD_TCP_COMMAND_DIAGNOSTIC 0.

Inductive Gate : Type :=
| NeedMore
| Deliver (hdr : CaHeader) (payload : list Z)
| Refuse (error : GateError)
| TearDown (error : option GateError) (reason : CaError)
| Discard
| RateLimited (strikes : Z).

(** ** The accumulator *)

Record RecvAccumulator : Type := mkRecvAccumulator {
  buf : list Z;
  to_drain : Z;
  offset : Z;
  rate : option RateLimiter;
  rate_strikes : Z;
  rate_strike_threshold : Z;
  body_ceiling : Z;
  nmsg : Z;
}.

(** Field updates. *)
Definition set_offset (a : RecvAccumulator) (o : Z) : RecvAccumulator :=
  mkRecvAccumulator (buf a) (to_drain a) o (rate a) (rate_strikes a)
    (rate_strike_threshold a) (body_ceiling a) (nmsg a).
Definition set_buf (a : RecvAccumulator) (b : list Z) : RecvAccumulator :=
  mkRecvAccumulator b (to_drain a) (offset a) (rate a) (rate_strikes a)
    (rate_strike_threshold a) (body_ceiling a) (nmsg a).
Definition set_to_drain (a : RecvAccumulator) (d : Z) : RecvAccumulator :=
  mkRecvAccumulator (buf a) d (offset a) (rate a) (rate_strikes a)
    (rate_strike_threshold a) (body_ceiling a) (nmsg a).
Definition set_rate (a : RecvAccumulator) (r : option RateLimiter) (s : Z) : RecvAccumulator :=
  mkRecvAccumulator (buf a) (to_drain a) (offset a) r s
    (rate_strike_threshold a) (body_ceiling a) (nmsg a).
Definition set_nmsg (a : RecvAccumulator) (n : Z) : RecvAccumulator :=
  mkRecvAccumulator (buf a) (to_drain a) (offset a) (rate a) (rate_strikes a)
    (rate_strike_threshold a) (body_ceiling a) n.

Definition MISALIGNED_DIAGNOSTIC : string := "CAS: Missaligned protocol rejected".

Definition too_large_message (ceiling : Z) : string :=
  "CAS: Server unable to load large request message. Max bytes=" +:+ pretty ceiling.

(** [Refused::ResumeAt] / [Refused::DrainPending]. *)
Inductive Refused : Type :=
| ResumeAt (next : Z)
| DrainPending.

Section Accumulator.
Context `{Target}.

Definition with_rate_limit (cfg : RateLimitConfig) (env : CaEnv) : RecvAccumulator :=
  mkRecvAccumulator [] 0 0 (build cfg) 0 (strike_threshold cfg)
    (max_frame_body_bytes env) 0.

Definition admit_rate (a : RecvAccumulator) (now : Z) : option Gate * RecvAccumulator :=
  match rate a with
  | None => (None, a)
  | Some limiter =>
      let '(ok, limiter) := try_acquire limiter now in
      if ok then (None, set_rate a (Some limiter) 0)
      else
        let strikes := sat_add 32 (rate_strikes a) 1 in
        let a := set_rate a (Some limiter) strikes in
        if (0 <? rate_strike_threshold a) && (rate_strike_threshold a <=? strikes)
        then (Some (RateLimited strikes), a)
        else (Some Discard, a)
  end.

Definition admits_body (a : RecvAccumulator) (declared_body : Z) : result Z unit :=
  let ceiling := body_ceiling a in
  if ceiling <? declared_body then Err ceiling else Ok tt.

Definition accumulation_ceiling (a : RecvAccumulator) : Z :=
  sat_add usize_bits (sat_add usize_bits (body_ceiling a) 24) (64 * 1024).

Definition room (a : RecvAccumulator) : Z :=
  sat_sub (accumulation_ceiling a) (len (buf a)).

Definition accept (a : RecvAccumulator) (chunk : list Z) : Admit * RecvAccumulator :=
  let a := set_nmsg a 0 in
  let '(chunk, a) :=
    if 0 <? to_drain a then
      let drop_now := Z.min (to_drain a) (len chunk) in
      (zdrop drop_now chunk, set_to_drain a (to_drain a - drop_now))
    else (chunk, a) in
  if 0 <? to_drain a then (Draining, a)
  else
    let ceiling := accumulation_ceiling a in
    if ceiling <? sat_add usize_bits (len (buf a)) (len chunk) then (Overflow ceiling, a)
    else (Parse, set_buf a (buf a ++ chunk)).

Definition consume (a : RecvAccumulator) (upto : Z) : RecvAccumulator :=
  if 0 <? upto then set_buf a (zdrop (Z.min upto (len (buf a))) (buf a)) else a.

Definition refuse (a : RecvAccumulator) (off msg_len : Z) : Refused * RecvAccumulator :=
  let arrived := sat_sub (len (buf a)) off in
  if msg_len <=? arrived then (ResumeAt (off + msg_len), a)
  else (DrainPending, set_to_drain a (msg_len - arrived)).

Definition message_len (hdr_size declared_body : Z) : option Z :=
  let LIMIT := uint_max 32 - (HDR_SIZE + EXTENDED_EXTRA) in
  if LIMIT <=? declared_body then None else Some (hdr_size + declared_body).

Definition compact (a : RecvAccumulator) : RecvAccumulator :=
  let parsed := offset a in
  consume (set_offset a 0) parsed.

Definition skip_refused (a : RecvAccumulator) (msg_len : Z) : RecvAccumulator :=
  match refuse a (offset a) msg_len with
  | (ResumeAt next, a) => set_offset a next
  | (DrainPending, a) => set_offset a (len (buf a))
  end.

Definition next_message (a : RecvAccumulator) (client_minor now : Z) :
    Gate * RecvAccumulator :=
  let head := zdrop (offset a) (buf a) in
  if len head <? HDR_SIZE then (NeedMore, compact a)
  else if ca_v49 client_minor && (len head <? 24)
          && bool_decide (head !! 2%nat = Some 0xFF)
          && bool_decide (head !! 3%nat = Some 0xFF)
  then (NeedMore, compact a)
  else
    match from_bytes_for_peer head client_minor with
    | Err e => (TearDown None e, a)
    | Ok (hdr, hdr_size) =>
        let body := actual_postsize hdr in
        match message_len hdr_size body with
        | None =>
            (TearDown None (Protocol ("declared CA body of " +:+ pretty body
               +:+ " bytes has no representable message length")), a)
        | Some msg_len =>
            if negb (cmmd hdr =? CA_PROTO_VERSION)
               && (client_minor <? CA_MINIMUM_SUPPORTED_VERSION)
            then
              let a := skip_refused a msg_len in
              (Refuse (mkGateError hdr ECA_DEFUNCT
                 ("CAS: Client version " +:+ pretty client_minor +:+ " too old")
                 "CAS: Client version too old" (nmsg a)), a)
            else if negb (Z.land msg_len 7 =? 0) then
              (TearDown (Some (mkGateError hdr ECA_INTERNAL MISALIGNED_DIAGNOSTIC
                 MISALIGNED_DIAGNOSTIC (nmsg a)))
                 (Protocol "misaligned CA payload"), a)
            else
              match admits_body a body with
              | Err ceiling =>
                  let a := skip_refused a msg_len in
                  (Refuse (mkGateError hdr ECA_TOLARGE (too_large_message ceiling)
                     "CAS: server unable to load large request message" (nmsg a)), a)
              | Ok _ =>
                  if len (buf a) <? usize_add (offset a) msg_len then (NeedMore, compact a)
                  else
                    let a := set_nmsg (set_offset a (usize_add (offset a) msg_len))
                               (wrap 32 (nmsg a + 1)) in
                    if negb (is_legal_tcp_command (cmmd hdr)) then
                      (TearDown (Some (bad_tcp_command hdr))
                         (Protocol ("illegal TCP command " +:+ pretty (cmmd hdr)
                            +:+ " (C bad_tcp_cmd_action)")), a)
                    else
                      match admit_rate a now with
                      | (Some gate, a) => (gate, a)
                      | (None, a) =>
                          (Deliver hdr
                             (slice (offset a - msg_len + hdr_size) (offset a) (buf a)), a)
                      end
              end
        end
    end.
End Accumulator.

(** ** The receive loop

    What [server::blocking::serve_client] does with one read: [accept] the
    bytes, then take messages until [NeedMore], dispatching each delivered
    one.  Dispatch and the circuit's state are parameters: the state holds
    the negotiated minor version, and dispatching a message yields the next
    state or the error that ends the circuit.  [events] records the gate
    outcomes in order. *)
Inductive LoopEnd : Type :=
| Waiting
| Closed (why : option CaError).

Section GateLoop.
Context `{Target} {S : Type}.
Variable client_minor_version : S -> Z.
Variable dispatch : S -> CaHeader -> list Z -> result CaError S.

Record LoopResult : Type := mkLoopResult {
  events : list Gate;
  lr_acc : RecvAccumulator;
  lr_state : S;
  lr_end : LoopEnd;
}.

Definition log_event (g : Gate) (r : LoopResult) : LoopResult :=
  mkLoopResult (g :: events r) (lr_acc r) (lr_state r) (lr_end r).

Fixpoint gate_loop (fuel : nat) (a : RecvAccumulator) (st : S) (now : Z) :
    option LoopResult :=
  match fuel with
  | O => None
  | Datatypes.S fuel =>
      match next_message a (client_minor_version st) now with
      | (NeedMore, a) => Some (mkLoopResult [] a st Waiting)
      | (Deliver hdr payload as g, a) =>
          match dispatch st hdr payload with
          | Ok st => log_event g <$> gate_loop fuel a st now
          | Err e => Some (mkLoopResult [g] a st (Closed (Some e)))
          end
      | (Refuse err as g, a) => log_event g <$> gate_loop fuel a st now
      | (TearDown error reason as g, a) =>
          Some (mkLoopResult [g] a st (Closed (Some reason)))
      | (Discard as g, a) => log_event g <$> gate_loop fuel a st now
      | (RateLimited strikes as g, a) => Some (mkLoopResult [g] a st (Closed None))
      end
  end.

(** One read of the socket.  Each message takes at least a header, so the
    buffered bytes plus one bound the iterations. *)
Definition serve_chunk (a : RecvAccumulator) (st : S) (chunk : list Z) (now : Z) :
    option LoopResult :=
  match accept a chunk with
  | (Parse, a) => gate_loop (Datatypes.S (length (buf a))) a st now
  | (Draining, a) => Some (mkLoopResult [] a st Waiting)
  | (Overflow _, a) => Some (mkLoopResult [] a st (Closed None))
  end.

(** Successive reads, until the circuit closes or the peer stops sending. *)
Fixpoint serve_chunks (a : RecvAccumulator) (st : S) (chunks : list (list Z)) (now : Z) :
    option LoopResult :=
  match chunks with
  | [] => Some (mkLoopResult [] a st Waiting)
  | c :: cs =>
      match serve_chunk a st c now with
      | None => None
      | Some r =>
          match lr_end r with
          | Closed _ => Some r
          | Waiting =>
              match serve_chunks (lr_acc r) (lr_state r) cs now with
              | None => None
              | Some r' =>
                  Some (mkLoopResult (events r ++ events r') (lr_acc r') (lr_state r')
                          (lr_end r'))
              end
          end
      end
  end.
End GateLoop.

Arguments LoopResult : clear implicits.
