(* ===== verification/CaRecvTheory.v ===== *)
(** * Theorems of the receive path

    The token bucket's admission bound; the accumulator's memory bound; and
    the refinement of the receive loop by a stream semantics ([stream_run])
    in which there is no buffer, cursor, compaction or drain counter: only
    the bytes of the circuit, taken one message at a time. *)
From Stdlib Require Import Btauto Sorted.
From stdpp Require Import base tactics numbers list option strings pretty relations.
From S2P Require Import Prelude Dbr CaProtocol CaProtocolTheory CaRecv.

Open Scope Z_scope.

(** ** Stream semantics

    [classify] decides what the bytes at the front of a stream are. *)
Inductive Verdict : Type :=
| VWait
| VDeliver (hdr : CaHeader) (payload : list Z) (msg_len : Z)
| VRefuse (err : GateError) (msg_len : Z)
| VEnd (error : option GateError) (reason : CaError).

Definition stream_header (ext : bool) (s : list Z) : CaHeader :=
  mkCaHeader (be_at 2 0 s) (be_at 2 2 s) (be_at 2 4 s) (be_at 2 6 s)
    (be_at 4 8 s) (be_at 4 12 s)
    (if ext then Some (be_at 4 16 s) else None)
    (if ext then Some (be_at 4 20 s) else None).

Definition classify_body (ceiling minor : Z) (hdr : CaHeader) (hdr_size body : Z)
    (s : list Z) : Verdict :=
  let msg_len := hdr_size + body in
  if uint_max 32 - 24 <=? body then
    VEnd None (Protocol ("declared CA body of " +:+ pretty body
                 +:+ " bytes has no representable message length"))
  else if negb (cmmd hdr =? CA_PROTO_VERSION) && (minor <? CA_MINIMUM_SUPPORTED_VERSION) then
    VRefuse (mkGateError hdr ECA_DEFUNCT
               ("CAS: Client version " +:+ pretty minor +:+ " too old")
               "CAS: Client version too old" 0) msg_len
  else if negb (msg_len mod 8 =? 0) then
    VEnd (Some (mkGateError hdr ECA_INTERNAL MISALIGNED_DIAGNOSTIC MISALIGNED_DIAGNOSTIC 0))
      (Protocol "misaligned CA payload")
  else if ceiling <? body then
    VRefuse (mkGateError hdr ECA_TOLARGE (too_large_message ceiling)
               "CAS: server unable to load large request message" 0) msg_len
  else if len s <? msg_len then VWait
  else if negb (is_legal_tcp_command (cmmd hdr)) then
    VEnd (Some (bad_tcp_command hdr))
      (Protocol ("illegal TCP command " +:+ pretty (cmmd hdr)
                 +:+ " (C bad_tcp_cmd_action)"))
  else VDeliver hdr (slice hdr_size msg_len s) msg_len.

Definition classify (ceiling minor : Z) (s : list Z) : Verdict :=
  if len s <? 16 then VWait
  else
    let ext := ca_v49 minor && (be_at 2 2 s =? 0xFFFF) in
    if ext && (len s <? 24) then VWait
    else
      classify_body ceiling minor (stream_header ext s) (if ext then 24 else 16)
        (if ext then be_at 4 16 s else be_at 2 2 s) s.

(** The log number [mnum] counts messages of one read, so it is the one part
    of an outcome that depends on how the stream was cut into reads. *)
Definition erase_error (e : GateError) : GateError :=
  mkGateError (ge_hdr e) (ge_status e) (ge_diagnostic e) (ge_context e) 0.

Definition erase (g : Gate) : Gate :=
  match g with
  | Refuse e => Refuse (erase_error e)
  | TearDown e r => TearDown (erase_error <$> e) r
  | g => g
  end.

(** ** Prefix stability *)

Lemma be_at_app n i s t :
  0 <= i -> i + Z.of_nat n <= len s -> be_at n i (s ++ t) = be_at n i s.
Proof.
  intros. unfold be_at. rewrite zdrop_app_le by lia. f_equal. apply take_app_le.
  unfold zdrop. rewrite length_drop. lia.
Qed.

Lemma stream_header_app (ext : bool) s t :
  (if ext then 24 else 16) <= len s -> stream_header ext (s ++ t) = stream_header ext s.
Proof.
  intros Hl. unfold stream_header.
  destruct ext; rewrite !be_at_app by lia; done.
Qed.

Lemma classify_body_app c m h hs b s t :
  0 <= hs -> 0 <= b -> classify_body c m h hs b s <> VWait ->
  classify_body c m h hs b (s ++ t) = classify_body c m h hs b s.
Proof.
  intros ? ?. unfold classify_body. intros Hw.
  repeat (case_goal; [done|]). rewrite length_app, Nat2Z.inj_add.
  destruct (Z.ltb_spec (len s) (hs + b)); [done|].
  rewrite (proj2 (Z.ltb_ge _ _)) by lia. case_goal; [done|].
  by rewrite slice_app_l by lia.
Qed.

(** What a stream starts with does not change when more bytes arrive. *)
Lemma classify_app c m s t :
  bytes_ok s -> classify c m s <> VWait -> classify c m (s ++ t) = classify c m s.
Proof.
  intros Hb. unfold classify. rewrite length_app, Nat2Z.inj_add.
  destruct (Z.ltb_spec (len s) 16); [done|].
  rewrite (proj2 (Z.ltb_ge (len s + len t) 16)) by lia. rewrite be_at_app by lia.
  destruct (ca_v49 m && (be_at 2 2 s =? 0xFFFF)) eqn:Hext; simpl.
  - destruct (Z.ltb_spec (len s) 24); [done|].
    rewrite (proj2 (Z.ltb_ge (len s + len t) 24)) by lia.
    rewrite stream_header_app, be_at_app by (simpl; lia). intros. apply classify_body_app; [lia|..|done].
    apply (be_at_uint 4 32); done || lia.
  - rewrite stream_header_app by (simpl; lia). intros. apply classify_body_app; [lia|..|done].
    apply (be_at_uint 2 16); done || lia.
Qed.

Definition verdict_len (v : Verdict) : option Z :=
  match v with
  | VDeliver _ _ n | VRefuse _ n => Some n
  | VWait | VEnd _ _ => None
  end.

Lemma classify_body_len c m h hs b s n :
  verdict_len (classify_body c m h hs b s) = Some n -> n = hs + b /\ b < 2 ^ 32 - 25.
Proof.
  unfold classify_body, uint_max. intros Hc.
  repeat case_hyp Hc; simpl in Hc; simplify_eq; zbool; lia.
Qed.

Lemma stream_body_nonneg (ext : bool) s :
  bytes_ok s -> (if ext then 24 else 16) <= len s ->
  0 <= if ext then be_at 4 16 s else be_at 2 2 s.
Proof.
  intros. destruct ext; [apply (be_at_uint 4 32)|apply (be_at_uint 2 16)]; done || lia.
Qed.

(** Every classified message takes at least a header, and its length fits 32 bits. *)
Lemma classify_len c m s n :
  bytes_ok s -> verdict_len (classify c m s) = Some n -> 16 <= n < 2 ^ 32.
Proof.
  intros Hb. unfold classify. destruct (Z.ltb_spec (len s) 16); [done|].
  set (ext := ca_v49 m && _). destruct (ext && _) eqn:Hl; [done|].
  pose proof (stream_body_nonneg ext s Hb) as Hn.
  intros [-> ?]%classify_body_len. destruct ext; simpl in *; zbool; lia.
Qed.

(** A message is delivered only once all of it has arrived. *)
Lemma classify_deliver_len c m s h p n :
  classify c m s = VDeliver h p n -> n <= len s.
Proof.
  unfold classify. repeat (case_goal; [done|]). unfold classify_body.
  intros Hc. repeat case_hyp Hc; simplify_eq; zbool; lia.
Qed.

Lemma classify_body_wait c m h hs b s :
  classify_body c m h hs b s = VWait -> len s < hs + c.
Proof. unfold classify_body. intros Hc. repeat case_hyp Hc; simplify_eq; zbool; lia. Qed.

(** While waiting, less than one header and one maximal body is held. *)
Lemma classify_wait_len c m s : 0 <= c -> classify c m s = VWait -> len s < 24 + c.
Proof.
  intros Hc0. unfold classify. destruct (Z.ltb_spec (len s) 16); [lia|].
  set (ext := ca_v49 m && _). destruct (ext && _) eqn:Hl; [zbool; lia|].
  intros ?%classify_body_wait. destruct ext; lia.
Qed.

Lemma classify_min_len c m s : classify c m s <> VWait -> 16 <= len s.
Proof. unfold classify. by destruct (Z.ltb_spec (len s) 16). Qed.

(** ** One gate step *)

(** The bytes the parse cursor is looking at. *)
Definition pending (a : RecvAccumulator) : list Z := zdrop (offset a) (buf a).

(** The accumulator's invariant.  [ceiling_ok] keeps [offset + msg_len] inside
    [usize]; it holds for the compiled-in ceiling on every target. *)
Record acc_ok `{Target} (a : RecvAccumulator) : Prop := mk_acc_ok {
  ok_bytes : bytes_ok (buf a);
  ok_offset : 0 <= offset a <= len (buf a);
  ok_drain : 0 <= to_drain a;
  ok_ceiling : 0 <= body_ceiling a;
  ok_usize : 2 * body_ceiling a + 2 ^ 17 <= uint_max usize_bits;
  ok_buf : len (buf a) <= body_ceiling a + 24 + 65536;
}.

Lemma pending_ok `{Target} a : acc_ok a -> bytes_ok (pending a).
Proof. intros []. by apply Forall_drop. Qed.

Lemma len_pending `{Target} a : acc_ok a -> len (pending a) = len (buf a) - offset a.
Proof. intros []. unfold pending. rewrite len_zdrop; lia. Qed.

(** Advancing the cursor over a whole message. *)
Definition advance (a : RecvAccumulator) (n : Z) : RecvAccumulator :=
  set_nmsg (set_offset a (offset a + n)) (wrap 32 (nmsg a + 1)).

Lemma be_at_2_2_escape s :
  bytes_ok s -> 4 <= len s ->
  (be_at 2 2 s =? 0xFFFF)
  = bool_decide (s !! 2%nat = Some 0xFF) && bool_decide (s !! 3%nat = Some 0xFF).
Proof.
  intros Hb Hl. destruct s as [|x0 [|x1 [|x2 [|x3 s]]]]; simpl in Hl; try lia.
  rewrite !Forall_cons in Hb. destruct Hb as (_ & _ & H2 & H3 & _). unfold is_uint in *.
  unfold be_at, zdrop, from_be_bytes. simpl.
  assert (Hs : forall x, bool_decide (Some x = Some 255) = (x =? 255)).
  { intros x. destruct (Z.eqb_spec x 255); case_bool_decide; congruence. }
  rewrite !Hs. destruct (Z.eqb_spec x2 255), (Z.eqb_spec x3 255); simpl; lia.
Qed.

(** With enough bytes for the header form, the code's parser reads the
    stream's header. *)
Lemma from_bytes_for_peer_stream s m :
  let ext := ca_v49 m && (be_at 2 2 s =? 0xFFFF) in
  (if ext then 24 else 16) <= len s ->
  from_bytes_for_peer s m = Ok (stream_header ext s, if ext then 24 else 16).
Proof.
  intros ext Hl. unfold from_bytes_for_peer, from_bytes_extended, from_bytes.
  assert (16 <= len s) by (destruct ext; lia).
  rewrite (proj2 (Z.ltb_ge (len s) 16)) by lia. rbind. cbn [postsize]. subst ext.
  destruct (ca_v49 m); simpl in *; [|done].
  destruct (be_at 2 2 s =? 65535); [|done].
  by rewrite (proj2 (Z.ltb_ge (len s) 24)) by lia.
Qed.

Lemma stream_actual_postsize (m : Z) s :
  let ext := ca_v49 m && (be_at 2 2 s =? 0xFFFF) in
  actual_postsize (stream_header ext s) = if ext then be_at 4 16 s else be_at 2 2 s.
Proof.
  intros ext. unfold actual_postsize. cbn. subst ext.
  destruct (ca_v49 m), (be_at 2 2 s =? 65535); done.
Qed.

Lemma slice_zdrop {A : Type} o i n (l : list A) :
  0 <= o -> 0 <= i -> slice (o + n - n + i) (o + n) l = slice i n (zdrop o l).
Proof.
  intros. unfold slice. rewrite zdrop_zdrop by lia.
  by replace (o + n - n + i) with (i + o) by lia; replace (o + n - (i + o)) with (n - i) by lia.
Qed.

Section Step.
Context `{Target}.

(** The code's gate sequence decides exactly what [classify] decides, and
    moves the cursor by the message it decided on. *)
Definition gate_matches (a : RecvAccumulator) (v : Verdict)
    (r : Gate * RecvAccumulator) : Prop :=
  match v with
  | VWait => r = (NeedMore, compact a)
  | VDeliver h p n => r = (Deliver h p, advance a n)
  | VRefuse e n => exists e', r = (Refuse e', skip_refused a n) /\ erase_error e' = e
  | VEnd e why => exists e' a', r = (TearDown e' why, a') /\ erase_error <$> e' = e
  end.

Lemma usize_add_offset a n :
  acc_ok a -> 0 <= n <= 24 + body_ceiling a -> usize_add (offset a) n = offset a + n.
Proof. intros [] ?. apply usize_add_small. unfold is_uint, uint_max in *. lia. Qed.

Lemma gate_body_matches a minor now hdr hs body :
  acc_ok a -> rate a = None -> 16 <= hs <= 24 -> 0 <= body -> actual_postsize hdr = body ->
  from_bytes_for_peer (pending a) minor = Ok (hdr, hs) ->
  16 <= len (pending a) -> ca_v49 minor && (len (pending a) <? 24)
    && bool_decide (pending a !! 2%nat = Some 0xFF)
    && bool_decide (pending a !! 3%nat = Some 0xFF) = false ->
  gate_matches a (classify_body (body_ceiling a) minor hdr hs body (pending a))
    (next_message a minor now).
Proof.
  intros Hok Hr Hhs Hb Hact Hparse Hlen Hext. unfold next_message.
  fold (pending a). unfold HDR_SIZE.
  rewrite (proj2 (Z.ltb_ge (len (pending a)) 16)) by lia.
  rewrite Hext, Hparse, Hact. unfold message_len, classify_body.
  change (HDR_SIZE + EXTENDED_EXTRA) with 24.
  case_goal; [by repeat eexists|]. case_goal; [by repeat eexists|].
  rewrite land_7. case_goal; [by repeat eexists|]. unfold admits_body.
  destruct (Z.ltb_spec (body_ceiling a) body); [by repeat eexists|].
  rewrite usize_add_offset by (done || lia). pose proof (len_pending a Hok).
  destruct (Z.ltb_spec (len (pending a)) (hs + body)).
  { by rewrite (proj2 (Z.ltb_lt (len (buf a)) (offset a + (hs + body)))) by lia. }
  rewrite (proj2 (Z.ltb_ge (len (buf a)) (offset a + (hs + body)))) by lia.
  case_goal; [by repeat eexists|]. unfold admit_rate. cbn [rate set_nmsg set_offset].
  rewrite Hr. simpl. f_equal. f_equal. apply slice_zdrop; [apply Hok|lia].
Qed.

Lemma gate_step_matches a minor now :
  acc_ok a -> rate a = None ->
  gate_matches a (classify (body_ceiling a) minor (pending a)) (next_message a minor now).
Proof.
  intros Hok Hr. pose proof (pending_ok a Hok) as Hbytes. unfold classify.
  destruct (Z.ltb_spec (len (pending a)) 16) as [Hs|Hs].
  { simpl. unfold next_message. fold (pending a). unfold HDR_SIZE.
    by rewrite (proj2 (Z.ltb_lt (len (pending a)) 16)) by lia. }
  set (ext := ca_v49 minor && _). destruct (ext && _) eqn:Hl.
  { simpl. unfold next_message. fold (pending a). unfold HDR_SIZE.
    rewrite (proj2 (Z.ltb_ge (len (pending a)) 16)) by lia.
    subst ext. rewrite be_at_2_2_escape in Hl by (done || lia). zbool.
    by repeat match goal with E : _ = true |- _ => rewrite E; clear E end;
      rewrite (proj2 (Z.ltb_lt _ _)) by done. }
  assert ((if ext then 24 else 16) <= len (pending a)) by (destruct ext; simpl in *; zbool; lia).
  apply gate_body_matches; try done.
  - destruct ext; lia.
  - by apply stream_body_nonneg.
  - apply stream_actual_postsize.
  - by apply from_bytes_for_peer_stream.
  - rewrite <- Hl. subst ext. rewrite be_at_2_2_escape by (done || lia). btauto.
Qed.
End Step.

(** ** Cursor, compaction and drain *)

Section Cursor.
Context `{Target}.

(** Everything but the buffer and its bookkeeping is unchanged. *)
Definition same_circuit (a b : RecvAccumulator) : Prop :=
  rate b = rate a /\ body_ceiling b = body_ceiling a.

Lemma same_circuit_trans a b c :
  same_circuit a b -> same_circuit b c -> same_circuit a c.
Proof. unfold same_circuit. intuition congruence. Qed.

Lemma compact_spec a :
  acc_ok a ->
  acc_ok (compact a) /\ same_circuit a (compact a) /\ offset (compact a) = 0 /\
  buf (compact a) = pending a /\ to_drain (compact a) = to_drain a.
Proof.
  intros Hok. pose proof (pending_ok a Hok). pose proof (len_pending a Hok).
  unfold compact, consume. cbn [buf set_offset]. destruct Hok.
  destruct (Z.ltb_spec 0 (offset a)).
  - rewrite Z.min_l by lia. fold (pending a).
    split_and!; try done; split; simpl; done || lia.
  - assert (offset a = 0) as E by lia. unfold pending in *. rewrite E in *.
    split_and!; try done; split; simpl; done || lia.
Qed.

Lemma skip_refused_spec a n :
  acc_ok a -> 0 <= n -> to_drain a = 0 ->
  let a' := skip_refused a n in
  acc_ok a' /\ same_circuit a a' /\ pending a' = zdrop n (pending a) /\
  to_drain a' = Z.max 0 (n - len (pending a)) /\ (0 < to_drain a' -> pending a' = []).
Proof.
  intros Hok Hn Hd. pose proof (len_pending a Hok) as Hl. destruct Hok.
  unfold skip_refused, refuse, sat_sub. rewrite Z.max_l by lia. rewrite <- Hl.
  destruct (Z.leb_spec n (len (pending a))); simpl; unfold pending in *; simpl;
    rewrite ?zdrop_zdrop, ?(Z.add_comm n) by lia.
  - split_and!; try done; try lia; split; simpl; done || lia.
  - rewrite (zdrop_ge (len (buf a))), (zdrop_ge (offset a + n)) by lia.
    split_and!; try done; try lia; split; simpl; done || lia.
Qed.

Lemma advance_spec a n :
  acc_ok a -> 0 <= n <= len (pending a) ->
  acc_ok (advance a n) /\ same_circuit a (advance a n) /\
  pending (advance a n) = zdrop n (pending a) /\ to_drain (advance a n) = to_drain a.
Proof.
  intros Hok Hn. pose proof (len_pending a Hok). destruct Hok. unfold advance, pending in *.
  simpl. rewrite zdrop_zdrop, (Z.add_comm n) by lia.
  split_and!; try done; split; simpl; done || lia.
Qed.

Lemma accumulation_ceiling_eq a :
  acc_ok a -> accumulation_ceiling a = body_ceiling a + 24 + 65536.
Proof. intros []. unfold accumulation_ceiling, sat_add. lia. Qed.

(** Bytes owed to a refused message are dropped; the rest is appended, and a
    read of at most 64 KiB always fits. *)
Lemma accept_spec a chunk :
  acc_ok a -> bytes_ok chunk -> offset a = 0 ->
  (to_drain a = 0 -> len (buf a) < 24 + body_ceiling a) ->
  (0 < to_drain a -> buf a = []) -> len chunk <= 65536 ->
  exists r a', accept a chunk = (r, a') /\ acc_ok a' /\ same_circuit a a' /\
    offset a' = 0 /\ buf a' = buf a ++ zdrop (to_drain a) chunk /\
    to_drain a' = Z.max 0 (to_drain a - len chunk) /\
    r = (if 0 <? to_drain a' then Draining else Parse).
Proof.
  intros Hok Hc Ho Hw Hdr Hl. unfold accept. cbn [to_drain set_nmsg].
  pose proof (accumulation_ceiling_eq a Hok) as Hceil. destruct Hok.
  destruct (Z.ltb_spec 0 (to_drain a)) as [Hd|Hd]; simpl.
  - destruct (Z.ltb_spec 0 (to_drain a - Z.min (to_drain a) (len chunk))) as [Hm|Hm].
    + eexists _, _. split; [done|]. simpl. rewrite zdrop_ge, app_nil_r by lia.
      split_and!; try done; [split; simpl; done || lia|lia|].
      by rewrite (proj2 (Z.ltb_lt _ _)) by lia.
    + rewrite Z.min_l by lia. rewrite (Hdr Hd). simpl.
      unfold accumulation_ceiling in *. simpl. rewrite Hceil. unfold sat_add.
      pose proof (len_zdrop (to_drain a) chunk).
      rewrite (proj2 (Z.ltb_ge _ _)) by lia. eexists _, _. split; [done|]. simpl.
      split_and!; try done; try lia.
      * split; simpl; try done; try lia. by apply Forall_drop.
      * by rewrite (proj2 (Z.ltb_ge _ _)) by lia.
  - assert (to_drain a = 0) as E by lia. specialize (Hw E).
    unfold accumulation_ceiling in *. simpl. rewrite Hceil. unfold sat_add.
    rewrite (proj2 (Z.ltb_ge _ _)) by lia. rewrite (proj2 (Z.ltb_ge _ _)) by lia.
    eexists _, _. split; [done|]. simpl. rewrite E, zdrop_0.
    split_and!; try done; try lia.
    + split; simpl; try done; try lia; [by apply Forall_app|rewrite length_app; lia].
Qed.
End Cursor.

(** ** The stream semantics of a circuit *)

Section Stream.
Context `{Target} {S : Type}.
Variable client_minor_version : S -> Z.
Variable dispatch : S -> CaHeader -> list Z -> result CaError S.
Variable ceiling : Z.

(** Where a circuit stands after its bytes so far: [Open st k r] is state
    [st], [k] bytes of a refused message still to come, and [r] the bytes
    of an incomplete message. *)
Inductive Final : Type :=
| Open (st : S) (skip : Z) (rest : list Z)
| Shut (why : option CaError).

Inductive stream_run : S -> list Z -> list Gate -> Final -> Prop :=
| run_wait st s :
    classify ceiling (client_minor_version st) s = VWait ->
    stream_run st s [] (Open st 0 s)
| run_end st s e why :
    classify ceiling (client_minor_version st) s = VEnd e why ->
    stream_run st s [TearDown e why] (Shut (Some why))
| run_refuse st s e n evs fin :
    classify ceiling (client_minor_version st) s = VRefuse e n -> n <= len s ->
    stream_run st (zdrop n s) evs fin ->
    stream_run st s (Refuse e :: evs) fin
| run_drain st s e n :
    classify ceiling (client_minor_version st) s = VRefuse e n -> len s < n ->
    stream_run st s [Refuse e] (Open st (n - len s) [])
| run_deliver st s h p n st' evs fin :
    classify ceiling (client_minor_version st) s = VDeliver h p n ->
    dispatch st h p = Ok st' -> stream_run st' (zdrop n s) evs fin ->
    stream_run st s (Deliver h p :: evs) fin
| run_fail st s h p n e :
    classify ceiling (client_minor_version st) s = VDeliver h p n ->
    dispatch st h p = Err e ->
    stream_run st s [Deliver h p] (Shut (Some e)).

(** A later read cannot change what an earlier one decided. *)
Lemma stream_run_shut st s evs why t :
  bytes_ok s -> stream_run st s evs (Shut why) -> stream_run st (s ++ t) evs (Shut why).
Proof.
  intros Hb Hr. remember (Shut why) as fin eqn:Hfin. revert Hb Hfin.
  induction Hr as [| |? ? ? ? ? ? Hc| |? ? ? ? ? ? ? ? Hc|? ? ? ? ? ? Hc];
    intros Hb Hfin; simplify_eq.
  - eapply run_end. by rewrite classify_app by congruence.
  - pose proof (classify_len _ _ _ n Hb ltac:(by rewrite Hc)).
    eapply run_refuse; [by rewrite classify_app by congruence|rewrite length_app; lia|].
    rewrite zdrop_app_le by lia. apply IHHr; [by apply Forall_drop|done].
  - pose proof (classify_len _ _ _ n Hb ltac:(by rewrite Hc)).
    pose proof (classify_deliver_len _ _ _ _ _ _ Hc).
    eapply run_deliver; [by rewrite classify_app by congruence|done|].
    rewrite zdrop_app_le by lia. apply IHHr; [by apply Forall_drop|done].
  - eapply run_fail; [by rewrite classify_app by congruence|done].
Qed.

(** Resumption: running on [s ++ t] is running on [s], then on what is left
    of [s] followed by what of [t] is not owed to a refused message. *)
Lemma stream_run_resume st s evs st' k r t :
  bytes_ok s -> stream_run st s evs (Open st' k r) ->
  0 <= k /\ (0 < k -> r = []) /\ bytes_ok r /\
  (len t < k -> stream_run st (s ++ t) evs (Open st' (k - len t) [])) /\
  (k <= len t -> forall evs' fin,
    stream_run st' (r ++ zdrop k t) evs' fin -> stream_run st (s ++ t) (evs ++ evs') fin).
Proof.
  intros Hb Hr. remember (Open st' k r) as fin eqn:Hfin. revert Hb Hfin.
  induction Hr as [| |? ? ? ? ? ? Hc|? ? ? ? Hc|? ? ? ? ? ? ? ? Hc|];
    intros Hb Hfin; simplify_eq.
  - split_and!; try done; lia.
  - pose proof (classify_len _ _ _ n Hb ltac:(by rewrite Hc)).
    destruct IHHr as (?&?&?&Hs&Hl); [by apply Forall_drop|done|].
    split_and!; try done; intros.
    + eapply run_refuse; [by rewrite classify_app by congruence|rewrite length_app; lia|].
      rewrite zdrop_app_le by lia. by apply Hs.
    + eapply run_refuse; [by rewrite classify_app by congruence|rewrite length_app; lia|].
      rewrite zdrop_app_le by lia. by apply Hl.
  - pose proof (classify_len _ _ _ n Hb ltac:(by rewrite Hc)).
    split_and!; try done; try lia; intros.
    + replace (n - len s - len t) with (n - len (s ++ t)) by (rewrite length_app; lia).
      eapply run_drain; [by rewrite classify_app by congruence|rewrite length_app; lia].
    + eapply run_refuse; [by rewrite classify_app by congruence|rewrite length_app; lia|].
      rewrite zdrop_app_ge by lia. done.
  - pose proof (classify_len _ _ _ n Hb ltac:(by rewrite Hc)).
    pose proof (classify_deliver_len _ _ _ _ _ _ Hc).
    destruct IHHr as (?&?&?&Hs&Hl); [by apply Forall_drop|done|].
    split_and!; try done; intros.
    + eapply run_deliver; [by rewrite classify_app by congruence|done|].
      rewrite zdrop_app_le by lia. by apply Hs.
    + eapply run_deliver; [by rewrite classify_app by congruence|done|].
      rewrite zdrop_app_le by lia. by apply Hl.
Qed.

Lemma stream_run_det st s evs1 fin1 evs2 fin2 :
  stream_run st s evs1 fin1 -> stream_run st s evs2 fin2 -> evs1 = evs2 /\ fin1 = fin2.
Proof.
  intros Hr1. revert evs2 fin2.
  induction Hr1; intros ? ? Hr2; inversion Hr2; subst;
    repeat match goal with
    | E : ?x = _, F : ?x = _ |- _ => rewrite E in F; simplify_eq
    end; try lia; try done;
    match goal with
    | IH : forall _ _, stream_run _ _ _ _ -> _, R : stream_run _ _ _ _ |- _ =>
        destruct (IH _ _ R); by subst
    end.
Qed.
End Stream.

Arguments Open {S} _ _ _.
Arguments Shut {S} _.

(** ** The loop implements the stream semantics *)

Section Refinement.
Context `{Target} {S : Type}.
Variable client_minor_version : S -> Z.
Variable dispatch : S -> CaHeader -> list Z -> result CaError S.

Abbreviation run := (stream_run client_minor_version dispatch).
Abbreviation loop := (gate_loop client_minor_version dispatch).

(** What a loop result says about the stream it was run on. *)
Definition loop_matches (ceiling : Z) (st : S) (s : list Z) (r : LoopResult S) : Prop :=
  match lr_end r with
  | Waiting =>
      run ceiling st s (erase <$> events r)
        (Open (lr_state r) (to_drain (lr_acc r)) (buf (lr_acc r))) /\
      acc_ok (lr_acc r) /\ rate (lr_acc r) = None /\ body_ceiling (lr_acc r) = ceiling /\
      offset (lr_acc r) = 0 /\
      (to_drain (lr_acc r) = 0 -> len (buf (lr_acc r)) < 24 + ceiling) /\
      (0 < to_drain (lr_acc r) -> buf (lr_acc r) = [])
  | Closed why => run ceiling st s (erase <$> events r) (Shut why)
  end.

Lemma next_message_empty a minor now :
  pending a = [] -> next_message a minor now = (NeedMore, compact a).
Proof. intros Hp. unfold next_message. fold (pending a). by rewrite Hp. Qed.

Lemma gate_loop_log g fuel a st now r :
  loop fuel a st now = Some r ->
  log_event g <$> loop fuel a st now = Some (log_event g r).
Proof. by intros ->. Qed.

Lemma gate_loop_refines fuel a st now :
  acc_ok a -> rate a = None -> to_drain a = 0 -> (length (pending a) < fuel)%nat ->
  exists r, loop fuel a st now = Some r /\
    loop_matches (body_ceiling a) st (pending a) r.
Proof.
  revert a st. induction fuel as [|fuel IH]; intros a st Hok Hr Hd Hf; [lia|]. simpl.
  pose proof (gate_step_matches a (client_minor_version st) now Hok Hr) as Hg.
  pose proof (classify_len (body_ceiling a) (client_minor_version st) (pending a)) as Hn.
  destruct (classify _ _ _) as [|h p n|e n|e why] eqn:Hc; simpl in Hg.
  - rewrite Hg. eexists. split; [done|]. unfold loop_matches. simpl.
    destruct (compact_spec a Hok) as (?&[? ?]&?&Hb&?). rewrite Hb.
    replace (to_drain (compact a)) with 0 by congruence.
    split_and!; try congruence; try done; [by apply run_wait|].
    intros _. eapply classify_wait_len; [apply Hok|done].
  - rewrite Hg. specialize (Hn n (pending_ok a Hok) eq_refl).
    pose proof (classify_deliver_len _ _ _ _ _ _ Hc) as Hle.
    destruct (dispatch st h p) as [st'|e] eqn:Hdi.
    + destruct (advance_spec a n) as (?&[? ?]&Hp&?); [done|lia|].
      destruct (IH (advance a n) st') as (r & Hl & Hm); [done|congruence..| |].
      { rewrite Hp. unfold zdrop. rewrite length_drop. lia. }
      exists (log_event (Deliver h p) r). split; [by apply gate_loop_log|].
      rewrite Hp in Hm. replace (body_ceiling (advance a n)) with (body_ceiling a) in Hm.
      unfold loop_matches in *. simpl. destruct (lr_end r); [destruct Hm as [Hm ?]; split; [|done]|];
        by eapply run_deliver.
    + eexists. split; [done|]. simpl. by eapply run_fail.
  - destruct Hg as (e' & -> & <-). specialize (Hn n (pending_ok a Hok) eq_refl).
    destruct (skip_refused_spec a n) as (Hok'&[Hr' Hce]&Hp&Hdr&Hemp); [done|lia|done|].
    set (a' := skip_refused a n) in *.
    destruct (decide (n <= len (pending a))) as [Hle|Hgt].
    + destruct (IH a' st) as (r & Hl & Hm); [done|congruence|lia| |].
      { rewrite Hp. unfold zdrop. rewrite length_drop. lia. }
      exists (log_event (Refuse e') r). split; [by apply gate_loop_log|].
      rewrite Hp, Hce in Hm. unfold loop_matches in *. simpl.
      destruct (lr_end r); [destruct Hm as [Hm ?]; split; [|done]|]; by eapply run_refuse.
    + assert (pending a' = []) as Hnil by (apply Hemp; lia).
      pose proof (classify_min_len (body_ceiling a) (client_minor_version st) (pending a)
                    ltac:(by rewrite Hc)).
      destruct fuel as [|fuel]; [lia|]. simpl. rewrite next_message_empty by done.
      eexists. split; [done|]. unfold loop_matches. simpl.
      destruct (compact_spec a' Hok') as (?&[? ?]&?&Hb&Hd').
      rewrite Hb, Hnil, Hd', Hdr, Z.max_r by lia.
      split_and!; try congruence; try done; [by eapply run_drain; [|lia]|lia].
  - destruct Hg as (e' & a' & -> & <-). eexists. split; [done|]. simpl. by eapply run_end.
Qed.

(** One read, from an accumulator at rest. *)
Definition at_rest (a : RecvAccumulator) : Prop :=
  acc_ok a /\ rate a = None /\ offset a = 0 /\
  (to_drain a = 0 -> len (buf a) < 24 + body_ceiling a) /\
  (0 < to_drain a -> buf a = []).

Lemma serve_chunk_refines a st chunk now :
  at_rest a -> bytes_ok chunk -> len chunk <= 65536 ->
  exists r, serve_chunk client_minor_version dispatch a st chunk now = Some r /\
    (to_drain a <= len chunk ->
     loop_matches (body_ceiling a) st (buf a ++ zdrop (to_drain a) chunk) r) /\
    (len chunk < to_drain a ->
     lr_end r = Waiting /\ events r = [] /\ lr_state r = st /\ at_rest (lr_acc r) /\
     body_ceiling (lr_acc r) = body_ceiling a /\
     to_drain (lr_acc r) = to_drain a - len chunk /\ buf (lr_acc r) = []).
Proof.
  intros (Hok & Hr & Ho & Hw & Hdr) Hb Hl. unfold serve_chunk.
  destruct (accept_spec a chunk) as (ad & a' & -> & Hok' & [Hr' Hce] & Ho' & Hbuf & Hd & ->);
    try done. destruct (Z.ltb_spec 0 (to_drain a')) as [Hlt|Hge].
  - eexists. split; [done|]. split; [lia|]. intros _. simpl.
    assert (buf a' = []) as Hnil by (rewrite Hbuf, Hdr, zdrop_ge by lia; done).
    split_and!; try done; try lia. unfold at_rest.
    split_and!; try done; try congruence. lia.
  - assert (Hp : pending a' = buf a') by (unfold pending; by rewrite Ho', zdrop_0).
    destruct (gate_loop_refines (Datatypes.S (length (buf a'))) a' st now) as (r & Hlr & Hm);
      [done|congruence|lia|rewrite Hp; lia|].
    exists r. split; [done|]. split; [|lia]. intros _. by rewrite Hp, Hbuf, Hce in Hm.
Qed.
End Refinement.

Section Reads.
Context `{Target} {S : Type}.
Variable client_minor_version : S -> Z.
Variable dispatch : S -> CaHeader -> list Z -> result CaError S.

Abbreviation run := (stream_run client_minor_version dispatch).
Abbreviation serve := (serve_chunks client_minor_version dispatch).

Lemma loop_matches_at_rest c st s r :
  loop_matches client_minor_version dispatch c st s r -> lr_end r = Waiting ->
  at_rest (lr_acc r) /\ body_ceiling (lr_acc r) = c /\
  run c st s (erase <$> events r)
    (Open (lr_state r) (to_drain (lr_acc r)) (buf (lr_acc r))).
Proof.
  unfold loop_matches. intros Hm He. rewrite He in Hm.
  destruct Hm as (?&?&?&Hc&?&?&?). unfold at_rest. rewrite Hc. done.
Qed.

(** The reads so far have consumed [s]; the remaining ones continue it. *)
Lemma serve_chunks_resume chunks a st0 st s evs now :
  at_rest a -> bytes_ok s ->
  run (body_ceiling a) st0 s evs (Open st (to_drain a) (buf a)) ->
  Forall (fun c => bytes_ok c /\ len c <= 65536) chunks ->
  exists r, serve a st chunks now = Some r /\
    run (body_ceiling a) st0 (s ++ concat chunks) (evs ++ (erase <$> events r))
      (match lr_end r with
       | Waiting => Open (lr_state r) (to_drain (lr_acc r)) (buf (lr_acc r))
       | Closed why => Shut why
       end).
Proof.
  intros Ha Hb Hrun Hcs. revert a st s evs Ha Hb Hrun.
  induction Hcs as [|c cs [Hcb Hcl] _ IH]; intros a st s evs Ha Hb Hrun.
  { eexists. split; [done|]. simpl. by rewrite !app_nil_r. }
  simpl. destruct (serve_chunk_refines client_minor_version dispatch a st c now)
    as (r & -> & Hlong & Hshort); [done..|].
  destruct (stream_run_resume _ _ _ _ _ _ _ _ _ c Hb Hrun) as (Hk & _ & _ & Hsk & Hres).
  assert (Hb' : bytes_ok (s ++ c)) by (by apply Forall_app).
  rewrite app_assoc. destruct (decide (to_drain a <= len c)) as [Hle|Hgt].
  - specialize (Hlong Hle). destruct (lr_end r) as [|why] eqn:Hend.
    + destruct (loop_matches_at_rest _ _ _ _ Hlong Hend) as (Hr & Hc & Hm).
      apply (Hres Hle) in Hm. rewrite <- Hc in Hm.
      destruct (IH _ _ _ _ Hr Hb' Hm) as (r' & -> & Hm').
      rewrite Hc in Hm'. eexists. split; [done|]. simpl. by rewrite fmap_app, app_assoc.
    + eexists. split; [done|]. rewrite Hend. apply stream_run_shut; [done|].
      unfold loop_matches in Hlong. rewrite Hend in Hlong. by apply Hres.
  - destruct Hshort as (Hend & Hev & Hst & Hr & Hc & Hd & Hbuf); [lia|]. rewrite Hend.
    assert (Hm : run (body_ceiling (lr_acc r)) st0 (s ++ c) evs
              (Open (lr_state r) (to_drain (lr_acc r)) (buf (lr_acc r)))).
    { rewrite Hc, Hd, Hst, Hbuf. apply Hsk. lia. }
    destruct (IH _ _ _ _ Hr Hb' Hm) as (r' & -> & Hm').
    rewrite Hc in Hm'. eexists. split; [done|]. simpl. by rewrite Hev.
Qed.
End Reads.

(** A circuit's accumulator as the server builds it, with the rate policy off
    (the default) and a ceiling [usize] can hold twice. *)
Definition fresh_circuit `{Target} (cfg : RateLimitConfig) (env : CaEnv) : Prop :=
  build cfg = None /\ 2 * max_frame_body_bytes env + 2 ^ 17 <= uint_max usize_bits.

Lemma fresh_at_rest `{Target} cfg env :
  fresh_circuit cfg env -> at_rest (with_rate_limit cfg env).
Proof.
  intros [Hc Hu]. pose proof (max_frame_body_bounds env). unfold MAX_TCP in *.
  unfold at_rest, with_rate_limit. simpl. split_and!; try done; try lia.
  split; simpl; try done; lia.
Qed.

Lemma fresh_run `{Target} {S : Type} cmv di c (st : S) :
  0 <= c -> stream_run cmv di c st [] [] (Open st 0 []).
Proof. intros. by apply run_wait. Qed.

(** ** Memory *)

(** Any use of the accumulator: reads and gate steps in any order. *)
Inductive acc_step `{Target} : RecvAccumulator -> RecvAccumulator -> Prop :=
| step_accept a chunk :
    len (buf a) + len chunk <= uint_max usize_bits ->
    acc_step a (snd (accept a chunk))
| step_next a minor now : acc_step a (snd (next_message a minor now)).

Section Memory.
Context `{Target}.

Lemma accept_bounded a chunk :
  len (buf a) <= accumulation_ceiling a ->
  len (buf a) + len chunk <= uint_max usize_bits ->
  let a' := snd (accept a chunk) in
  body_ceiling a' = body_ceiling a /\ len (buf a') <= accumulation_ceiling a.
Proof.
  intros Hb Hu. unfold accept. cbn [to_drain set_nmsg].
  destruct (Z.ltb_spec 0 (to_drain a)); simpl.
  - case_goal; [done|]. unfold accumulation_ceiling in *. simpl.
    case_goal; [done|]. simpl. zbool. split; [done|]. unfold sat_add in *.
    pose proof (len_zdrop (Z.min (to_drain a) (len chunk)) chunk). rewrite length_app. lia.
  - rewrite (proj2 (Z.ltb_ge _ _)) by lia. unfold accumulation_ceiling in *. simpl.
    case_goal; [done|]. simpl. zbool. split; [done|]. unfold sat_add in *.
    rewrite length_app. lia.
Qed.

(** The parse side only ever shrinks the buffer. *)
Definition no_growth (a a' : RecvAccumulator) : Prop :=
  body_ceiling a' = body_ceiling a /\ len (buf a') <= len (buf a).

Lemma compact_no_growth a : no_growth a (compact a).
Proof.
  unfold no_growth, compact, consume. case_goal; simpl; [|lia].
  unfold zdrop. rewrite length_drop. lia.
Qed.

Lemma skip_no_growth a n : no_growth a (skip_refused a n).
Proof. unfold no_growth, skip_refused, refuse. case_goal; simpl; lia. Qed.

Lemma admit_rate_no_growth a now g a' : admit_rate a now = (g, a') -> no_growth a a'.
Proof.
  unfold admit_rate, no_growth. intros Hr. repeat case_hyp Hr; simplify_eq; simpl; lia.
Qed.

Lemma next_message_no_growth a minor now : no_growth a (snd (next_message a minor now)).
Proof.
  assert (Hrefl : no_growth a a) by (split; lia). unfold next_message.
  do 2 (case_goal; [apply compact_no_growth|]).
  destruct (from_bytes_for_peer _ _) as [[hdr hs]|]; [|done].
  case_goal; [|done]. case_goal; [apply skip_no_growth|]. case_goal; [done|].
  case_goal; [|apply skip_no_growth]. case_goal; [apply compact_no_growth|].
  case_goal; [done|]. destruct (admit_rate _ _) as [g a'] eqn:Hr.
  apply admit_rate_no_growth in Hr. destruct g; apply Hr.
Qed.
End Memory.

(** ** The token bucket *)

(** A sequence of draws at the given clock readings: how many were granted. *)
Fixpoint draws (rl : RateLimiter) (times : list Z) : Z * RateLimiter :=
  match times with
  | [] => (0, rl)
  | t :: ts =>
      let '(ok, rl) := try_acquire rl t in
      let '(n, rl) := draws rl ts in
      ((if ok : bool then 1 else 0) + n, rl)
  end.

Record bucket_ok (rl : RateLimiter) : Prop := mk_bucket_ok {
  bk_capacity : 0 < capacity rl;
  bk_refill : 0 <= refill_per_sec rl;
  bk_tokens : 0 <= millitokens rl <= 1000 * capacity rl;
}.

(** Credit at clock reading [t], in thousandths of a millitoken: what is in the
    bucket plus what the time since the last refill is worth. *)
Definition credit (rl : RateLimiter) (t : Z) : Z :=
  1000 * millitokens rl + refill_per_sec rl * Z.max 0 (t - last_refill_micros rl).

Lemma credit_mono rl t u : bucket_ok rl -> t <= u -> credit rl t <= credit rl u.
Proof. intros [] ?. unfold credit. nia. Qed.

Lemma refill_credit rl t :
  bucket_ok rl ->
  bucket_ok (refill rl t) /\ credit (refill rl t) t <= credit rl t /\
  capacity (refill rl t) = capacity rl /\ refill_per_sec (refill rl t) = refill_per_sec rl.
Proof.
  intros Hok. unfold refill. case_goal; [done|]. case_goal; [done|]. zbool.
  destruct Hok. unfold credit, sat_mul, sat_add, uint_max in *. simpl.
  set (d := t - last_refill_micros rl) in *.
  assert (1000 * (Z.min (refill_per_sec rl * d) (2 ^ 64 - 1) / 1000)
          <= refill_per_sec rl * d).
  { pose proof (Z.mul_div_le (Z.min (refill_per_sec rl * d) (2 ^ 64 - 1)) 1000). lia. }
  assert (0 <= Z.min (refill_per_sec rl * d) (2 ^ 64 - 1) / 1000).
  { apply Z.div_pos; nia. }
  split_and!; try done; [split; simpl; lia|].
  rewrite Z.sub_diag, Z.max_l, (Z.max_r 0 d) by lia. lia.
Qed.

Lemma try_acquire_credit rl t ok rl' :
  bucket_ok rl -> try_acquire rl t = (ok, rl') ->
  bucket_ok rl' /\ capacity rl' = capacity rl /\
  refill_per_sec rl' = refill_per_sec rl /\
  credit rl' t + (if ok : bool then 1000000 else 0) <= credit rl t.
Proof.
  intros Hok. unfold try_acquire, rl_enabled.
  rewrite (proj2 (Z.ltb_lt _ _)) by (apply Hok). simpl.
  destruct (refill_credit rl t Hok) as (Hok' & Hc & Hcap & Href).
  case_goal; intros; simplify_eq; zbool; split_and!; simpl; try done; try lia;
    destruct Hok'; try (split; simpl; lia); unfold credit in *; simpl; lia.
Qed.

Lemma try_acquire_last rl t ok rl' :
  last_refill_micros rl <= t -> try_acquire rl t = (ok, rl') -> last_refill_micros rl' <= t.
Proof.
  intros Hl. unfold try_acquire, refill. intros Ha.
  repeat case_hyp Ha; simplify_eq; simpl in *; zbool; lia.
Qed.

Lemma credit_split rl t u :
  last_refill_micros rl <= t <= u ->
  credit rl u = credit rl t + refill_per_sec rl * (u - t).
Proof. intros. unfold credit. rewrite !Z.max_r by lia. lia. Qed.

(** Draws at non-decreasing clock readings up to [fin] never grant more than
    the credit the bucket has at [fin]. *)
Lemma draws_credit ts : forall rl t fin n rl',
  bucket_ok rl -> last_refill_micros rl <= t -> Sorted Z.le (t :: ts) ->
  Forall (fun u => u <= fin) ts -> draws rl ts = (n, rl') ->
  0 <= n /\ 1000000 * n <= credit rl fin.
Proof.
  induction ts as [|u ts IH]; intros rl t fin n rl' Hok Hl Hs Hf; simpl.
  { intros. simplify_eq. destruct Hok. unfold credit. nia. }
  destruct (try_acquire rl u) as [ok rl1] eqn:Ha.
  destruct (draws rl1 ts) as [k rl2] eqn:Hd. intros [= <- <-].
  inversion Hs as [|? ? Hs' Hhd]; subst. inversion Hhd; subst.
  inversion Hf; subst.
  assert (last_refill_micros rl1 <= u) by (eapply try_acquire_last; [|done]; lia).
  apply try_acquire_credit in Ha as (Hok1 & _ & Href & Hc); [|done].
  destruct (IH rl1 u fin k rl2) as [? Hb]; try done.
  rewrite (credit_split rl1 u fin) in Hb by lia. rewrite (credit_split rl u fin) by lia.
  rewrite Href in Hb. destruct ok; lia.
Qed.

(** ** Claims *)

(** C4: the receive path implements the stream semantics.  However a peer's
    bytes are cut into reads of at most 64 KiB, the loop terminates on every
    read, never overflows its buffer, and produces, in order, exactly the
    deliveries, refusals and tear-down that [stream_run] assigns to the
    concatenated byte stream, ending in the same dispatch state, with the
    same bytes of a refused message still owed and the same partial message
    pending; outcomes are compared up to the per-read log number. *)
Theorem receive_refines_stream `{Target} {S : Type} (client_minor_version : S -> Z)
    (dispatch : S -> CaHeader -> list Z -> result CaError S)
    (cfg : RateLimitConfig) (env : CaEnv) (st : S) (chunks : list (list Z)) (now : Z) :
  fresh_circuit cfg env ->
  Forall (fun c => bytes_ok c /\ len c <= 65536) chunks ->
  exists r,
    serve_chunks client_minor_version dispatch (with_rate_limit cfg env) st chunks now
    = Some r /\
    stream_run client_minor_version dispatch (max_frame_body_bytes env) st (concat chunks)
      (erase <$> events r)
      (match lr_end r with
       | Waiting => Open (lr_state r) (to_drain (lr_acc r)) (buf (lr_acc r))
       | Closed why => Shut why
       end).
Proof.
  intros Hfc Hcs. pose proof (max_frame_body_bounds env). unfold MAX_TCP in *.
  apply (serve_chunks_resume client_minor_version dispatch chunks
           (with_rate_limit cfg env) st st [] []); try done.
  - by apply fresh_at_rest.
  - apply fresh_run. simpl. lia.
Qed.

Definition echo_frame : list Z := to_bytes (CaHeader_new CA_PROTO_ECHO).

Lemma receive_refines_stream_witness :
  exists r : LoopResult unit,
    @serve_chunks host64 unit (fun _ => 13) (fun st _ _ => Ok st)
      (@with_rate_limit host64 (mkRateLimitConfig 0 0 100) (mkCaEnv 16384 None)) tt
      [take 5 echo_frame; drop 5 echo_frame] 0 = Some r /\
    stream_run (fun _ => 13) (fun st _ _ => Ok st) (16 * 1024 * 1024) tt echo_frame
      [Deliver (CaHeader_new CA_PROTO_ECHO) []] (Open tt 0 []).
Proof.
  destruct (@receive_refines_stream host64 unit (fun _ => 13) (fun st _ _ => Ok st)
              (mkRateLimitConfig 0 0 100) (mkCaEnv 16384 None) tt
              [take 5 echo_frame; drop 5 echo_frame] 0) as (r & Hr & Hrun).
  - split; [reflexivity|vm_compute; discriminate].
  - repeat constructor; vm_compute; discriminate.
  - exists r. split; [exact Hr|]. vm_compute in Hr. injection Hr as <-. exact Hrun.
Defined.

(** What the server does with a circuit depends only on the bytes the
    peer sent, not on where the reads fell: two ways of cutting the same
    stream give the same outcomes in the same order and end the circuit, or
    leave it open in the same state, alike. *)
Theorem receive_chunking_independent `{Target} {S : Type} (client_minor_version : S -> Z)
    (dispatch : S -> CaHeader -> list Z -> result CaError S)
    (cfg : RateLimitConfig) (env : CaEnv) (st : S) (cs1 cs2 : list (list Z)) (now : Z) :
  fresh_circuit cfg env -> concat cs1 = concat cs2 ->
  Forall (fun c => bytes_ok c /\ len c <= 65536) cs1 ->
  Forall (fun c => bytes_ok c /\ len c <= 65536) cs2 ->
  exists r1 r2,
    serve_chunks client_minor_version dispatch (with_rate_limit cfg env) st cs1 now = Some r1 /\
    serve_chunks client_minor_version dispatch (with_rate_limit cfg env) st cs2 now = Some r2 /\
    erase <$> events r1 = erase <$> events r2 /\ lr_end r1 = lr_end r2 /\
    (lr_end r1 = Waiting -> lr_state r1 = lr_state r2 /\
       buf (lr_acc r1) = buf (lr_acc r2) /\ to_drain (lr_acc r1) = to_drain (lr_acc r2)).
Proof.
  intros Hfc Hcat H1 H2. pose proof (max_frame_body_bounds env) as Hb. unfold MAX_TCP in Hb.
  pose proof (fresh_at_rest _ _ Hfc) as Hrest.
  assert (Hnil : stream_run client_minor_version dispatch
            (body_ceiling (with_rate_limit cfg env)) st [] []
            (Open st (to_drain (with_rate_limit cfg env)) (buf (with_rate_limit cfg env))))
    by (apply fresh_run; simpl; lia).
  destruct (serve_chunks_resume _ _ cs1 _ _ _ [] [] now Hrest (Forall_nil_2 _) Hnil H1)
    as (r1 & E1 & R1).
  destruct (serve_chunks_resume _ _ cs2 _ _ _ [] [] now Hrest (Forall_nil_2 _) Hnil H2)
    as (r2 & E2 & R2).
  exists r1, r2. split; [done|]. split; [done|]. simpl in R1, R2. rewrite Hcat in R1.
  destruct (stream_run_det _ _ _ _ _ _ _ _ _ R1 R2) as [? Hfin].
  by destruct (lr_end r1), (lr_end r2); simplify_eq.
Qed.

Lemma receive_chunking_independent_witness :
  exists r1 r2 : LoopResult unit,
    @serve_chunks host64 unit (fun _ => 13) (fun st _ _ => Ok st)
      (@with_rate_limit host64 (mkRateLimitConfig 0 0 100) (mkCaEnv 16384 None)) tt
      [take 5 echo_frame; drop 5 echo_frame] 0 = Some r1 /\
    @serve_chunks host64 unit (fun _ => 13) (fun st _ _ => Ok st)
      (@with_rate_limit host64 (mkRateLimitConfig 0 0 100) (mkCaEnv 16384 None)) tt
      [echo_frame] 0 = Some r2 /\
    erase <$> events r1 = erase <$> events r2.
Proof.
  destruct (@receive_chunking_independent host64 unit (fun _ => 13) (fun st _ _ => Ok st)
              (mkRateLimitConfig 0 0 100) (mkCaEnv 16384 None) tt
              [take 5 echo_frame; drop 5 echo_frame] [echo_frame] 0)
    as (r1 & r2 & ? & ? & ? & _).
  - split; [reflexivity|vm_compute; discriminate].
  - reflexivity.
  - repeat constructor; vm_compute; discriminate.
  - repeat constructor; vm_compute; discriminate.
  - exists r1, r2. auto.
Defined.

(** C32: the accumulation buffer is bounded by the server's own ceiling and
    never by a size the peer declares: whatever bytes arrive, whatever
    versions and clock readings the gates are called with, and in whatever
    order reads and gate steps come, the buffer stays within
    [accumulation_ceiling], which itself never changes. *)
Theorem accumulation_bounded `{Target} (a0 a : RecvAccumulator) :
  len (buf a0) <= accumulation_ceiling a0 ->
  rtc acc_step a0 a ->
  len (buf a) <= accumulation_ceiling a0 /\ accumulation_ceiling a = accumulation_ceiling a0.
Proof.
  intros H0 Hr. revert H0.
  induction Hr as [a|a b c Hstep _ IH]; intros H0; [done|].
  assert (len (buf b) <= accumulation_ceiling a /\ body_ceiling b = body_ceiling a) as [Hb Hc].
  { destruct Hstep as [a chunk Hu|a minor now].
    - destruct (accept_bounded a chunk H0 Hu). done.
    - destruct (next_message_no_growth a minor now). split; [lia|done]. }
  assert (Heq : accumulation_ceiling b = accumulation_ceiling a)
    by (unfold accumulation_ceiling; by rewrite Hc).
  rewrite <- Heq in *. by apply IH.
Qed.

Lemma accumulation_bounded_witness :
  let a0 := @with_rate_limit host64 (mkRateLimitConfig 0 0 100) (mkCaEnv 16384 None) in
  len (buf (snd (@accept host64 a0 echo_frame))) <= @accumulation_ceiling host64 a0.
Proof.
  intros a0.
  apply (@accumulation_bounded host64 a0 (snd (@accept host64 a0 echo_frame))).
  - vm_compute. discriminate.
  - apply rtc_once. apply (@step_accept host64 a0 echo_frame). vm_compute. discriminate.
Defined.

(** A message that is both misaligned and larger than the ceiling ends
    the circuit with ECA_INTERNAL; it is not refused with ECA_TOLARGE.  The
    alignment gate precedes the size gate. *)
Theorem misaligned_before_oversize `{Target} (a : RecvAccumulator) (minor now : Z)
    (hdr : CaHeader) (hs : Z) :
  acc_ok a -> CA_MINIMUM_SUPPORTED_VERSION <= minor ->
  16 <= len (pending a) -> (len (pending a) <? 24) && (be_at 2 2 (pending a) =? 0xFFFF) = false ->
  from_bytes_for_peer (pending a) minor = Ok (hdr, hs) ->
  body_ceiling a < actual_postsize hdr < uint_max 32 - 24 ->
  (hs + actual_postsize hdr) mod 8 <> 0 ->
  exists e, fst (next_message a minor now) = TearDown (Some e) (Protocol "misaligned CA payload")
            /\ ge_status e = ECA_INTERNAL.
Proof.
  intros Hok Hm Hl Hx Hp Hb Hmis. pose proof (pending_ok a Hok).
  unfold next_message. fold (pending a). unfold HDR_SIZE.
  rewrite (proj2 (Z.ltb_ge (len (pending a)) 16)) by lia.
  rewrite be_at_2_2_escape in Hx by (done || lia).
  rewrite <- !andb_assoc, Hx, andb_false_r. rewrite Hp. unfold message_len.
  change (HDR_SIZE + EXTENDED_EXTRA) with 24. rewrite (proj2 (Z.leb_gt _ _)) by lia.
  rewrite (proj2 (Z.ltb_ge minor _)) by done. rewrite andb_false_r, land_7.
  rewrite (proj2 (Z.eqb_neq _ _)) by done. simpl. eexists. split; [reflexivity|done].
Qed.

Lemma misaligned_before_oversize_witness :
  let h := mkCaHeader 4 0xFFFF 0 0 1 2 (Some (0x2000001)) (Some 1) in
  let a0 := @with_rate_limit host64 (mkRateLimitConfig 0 0 100) (mkCaEnv 16384 None) in
  let a := snd (@accept host64 a0 (to_bytes_extended h)) in
  exists e, fst (@next_message host64 a 13 0)
            = TearDown (Some e) (Protocol "misaligned CA payload") /\ ge_status e = ECA_INTERNAL.
Proof.
  intros h a0 a. apply (@misaligned_before_oversize host64 a 13 0 h 24);
    try reflexivity; try (vm_compute; intuition discriminate).
  split; try (vm_compute; intuition discriminate).
  repeat constructor; vm_compute; discriminate.
Defined.

(** The per-connection token bucket never admits more than its credit:
    over draws at non-decreasing clock readings from [t] to [fin]
    microseconds, the number granted is at most the tokens in the bucket plus
    [refill_per_sec] tokens per second of elapsed time. *)
Theorem token_bucket_bound (rl : RateLimiter) (ts : list Z) (t fin n : Z) (rl' : RateLimiter) :
  bucket_ok rl -> last_refill_micros rl <= t -> Sorted Z.le (t :: ts) ->
  Forall (fun u => u <= fin) ts -> t <= fin -> draws rl ts = (n, rl') ->
  n * 1000000 <= millitokens rl * 1000
                 + refill_per_sec rl * (fin - last_refill_micros rl).
Proof.
  intros Hok Hl Hs Hf Ht Hd. destruct (draws_credit ts rl t fin n rl') as [? Hb]; try done.
  unfold credit in Hb. rewrite Z.max_r in Hb by lia. lia.
Qed.

Lemma token_bucket_bound_witness :
  exists n rl', draws (RateLimiter_new 2 1) [1; 2; 3; 1500000] = (n, rl') /\ n = 3 /\
    n * 1000000 <= 2000 * 1000 + 1 * (1500000 - 0).
Proof.
  eexists _, _. split; [vm_compute; reflexivity|]. split; [reflexivity|].
  apply (token_bucket_bound (RateLimiter_new 2 1) [1; 2; 3; 1500000] 0 1500000 3
           (mkRateLimiter 2 1 500 1500000));
    [split; vm_compute; intuition discriminate|vm_compute; discriminate
    |repeat (apply Sorted_nil || apply Sorted_cons || apply HdRel_nil || apply HdRel_cons); lia
    |repeat (apply Forall_nil_2 || apply Forall_cons_2); lia|lia|reflexivity].
Defined.
