(* ===== verification/Float64.v ===== *)
(** * IEEE-754 binary64

    Rust's [f64] as the Standard Library's executable [spec_float] at precision 53
    and exponent bound 1024, with the operations the alarm code uses: arithmetic in
    round-to-nearest-even, the [PartialOrd] comparisons (false on NaN), [floor],
    [abs], and the saturating [as] casts to and from the integers; [trunc], [ceil],
    [sqrt], the exact remainder [%] and [rem_euclid], and the bit patterns, which the
    calculation engine adds.  [spec_float] has one NaN: payloads are not represented. *)
From Stdlib Require Import SpecFloat.
From stdpp Require Import base tactics numbers list option strings.
From S2P Require Import Prelude.

Open Scope Z_scope.

Abbreviation f64 := spec_float.
Abbreviation f64_prec := 53%Z.
Abbreviation f64_emax := 1024%Z.

Definition f64_zero : f64 := S754_zero false.
Definition f64_add (a b : f64) : f64 := SFadd f64_prec f64_emax a b.
Definition f64_sub (a b : f64) : f64 := SFsub f64_prec f64_emax a b.
Definition f64_mul (a b : f64) : f64 := SFmul f64_prec f64_emax a b.
Definition f64_div (a b : f64) : f64 := SFdiv f64_prec f64_emax a b.
Definition f64_opp (a : f64) : f64 := SFopp a.
Definition f64_abs (a : f64) : f64 := SFabs a.

(** The [PartialOrd] and [PartialEq] operators. *)
Definition f64_eqb (a b : f64) : bool :=
  match SFcompare a b with Some Eq => true | _ => false end.
Definition f64_ltb (a b : f64) : bool :=
  match SFcompare a b with Some Lt => true | _ => false end.
Definition f64_leb (a b : f64) : bool :=
  match SFcompare a b with Some Lt => true | Some Eq => true | _ => false end.
Definition f64_gtb (a b : f64) : bool := f64_ltb b a.
Definition f64_geb (a b : f64) : bool := f64_leb b a.

(** [i as f64] from an integer: the nearest double, ties to even. *)
Definition f64_of_Z (z : Z) : f64 := binary_normalize f64_prec f64_emax z 0 false.

(** The integer [floor(m * 2^e)] of a finite double. *)
Definition floor_Z (s : bool) (m : positive) (e : Z) : Z :=
  let z := if s then Z.neg m else Z.pos m in
  if 0 <=? e then z * 2 ^ e else z / 2 ^ (- e).

(** [f64::floor]: a zero result keeps the sign of the argument. *)
Definition f64_floor (a : f64) : f64 :=
  match a with
  | S754_finite s m e => binary_normalize f64_prec f64_emax (floor_Z s m e) 0 s
  | _ => a
  end.

(** The integer a double truncates to. *)
Definition trunc_Z (s : bool) (m : positive) (e : Z) : Z :=
  let z := if 0 <=? e then Z.pos m * 2 ^ e else Z.pos m / 2 ^ (- e) in
  if s then - z else z.

(** [x as iN] / [x as uN] into [lo, hi]: truncate, saturate, NaN to zero. *)
Definition f64_to_int (lo hi : Z) (a : f64) : Z :=
  match a with
  | S754_zero _ => 0
  | S754_nan => 0
  | S754_infinity s => if s then lo else hi
  | S754_finite s m e => Z.max lo (Z.min hi (trunc_Z s m e))
  end.

Definition f64_to_i32 : f64 -> Z := f64_to_int (- 2 ^ 31) (2 ^ 31 - 1).
Definition f64_to_i64 : f64 -> Z := f64_to_int (- 2 ^ 63) (2 ^ 63 - 1).
Definition f64_to_i128 : f64 -> Z := f64_to_int (- 2 ^ 127) (2 ^ 127 - 1).
Definition f64_to_u16 : f64 -> Z := f64_to_int 0 (2 ^ 16 - 1).

Definition f64_to_u64 : f64 -> Z := f64_to_int 0 (2 ^ 64 - 1).

(** [f64::trunc], [f64::ceil], [f64::sqrt]. *)
Definition f64_trunc (a : f64) : f64 :=
  match a with
  | S754_finite s m e => binary_normalize f64_prec f64_emax (trunc_Z s m e) 0 s
  | _ => a
  end.
Definition f64_ceil (a : f64) : f64 := f64_opp (f64_floor (f64_opp a)).
Definition f64_sqrt (a : f64) : f64 := SFsqrt f64_prec f64_emax a.

(** [a % b]: the exact remainder, with the sign of [a]. *)
Definition f64_rem (a b : f64) : f64 :=
  match a, b with
  | S754_nan, _ | _, S754_nan | S754_infinity _, _ | _, S754_zero _ => S754_nan
  | S754_zero _, _ | _, S754_infinity _ => a
  | S754_finite sa ma ea, S754_finite _ mb eb =>
      let e := Z.min ea eb in
      let r := (Z.pos ma * 2 ^ (ea - e)) mod (Z.pos mb * 2 ^ (eb - e)) in
      binary_normalize f64_prec f64_emax (if sa then - r else r) e sa
  end.

Definition f64_rem_euclid (a b : f64) : f64 :=
  let r := f64_rem a b in
  if f64_ltb r f64_zero then f64_add r (f64_abs b) else r.

Definition f64_is_nan (a : f64) : bool := match a with S754_nan => true | _ => false end.
Definition f64_is_infinite (a : f64) : bool :=
  match a with S754_infinity _ => true | _ => false end.
Definition f64_is_finite (a : f64) : bool := negb (f64_is_nan a || f64_is_infinite a).

#[export] Instance f64_eq_dec : EqDecision f64.
Proof. solve_decision. Defined.

(** [f64::from_bits] and [f64::to_bits]. *)
Definition f64_of_bits (b : Z) : f64 :=
  let s := Z.testbit b 63 in
  let ex := Z.land (Z.shiftr b 52) 0x7FF in
  let m := Z.land b (2 ^ 52 - 1) in
  if ex =? 0x7FF then if m =? 0 then S754_infinity s else S754_nan
  else if ex =? 0 then
    match m with Z.pos p => S754_finite s p (-1074) | _ => S754_zero s end
  else match m + 2 ^ 52 with Z.pos p => S754_finite s p (ex - 1075) | _ => S754_nan end.

Definition f64_to_bits (a : f64) : Z :=
  let sign (s : bool) := if s then 2 ^ 63 else 0 in
  match a with
  | S754_zero s => sign s
  | S754_infinity s => sign s + 0x7FF * 2 ^ 52
  | S754_nan => 0x7FF8 * 2 ^ 48
  | S754_finite s m e =>
      if Z.pos m <? 2 ^ 52 then sign s + Z.pos m
      else sign s + (e + 1075) * 2 ^ 52 + (Z.pos m - 2 ^ 52)
  end.

(** The double nearest to [m * 10^e], ties to even, as [str::parse] gives it: the quotient
    is taken to more than 64 bits with the remainder folded into its last one. *)
Definition f64_of_decimal (m e : Z) : f64 :=
  if m =? 0 then f64_zero
  else if 0 <=? e then f64_of_Z (m * 10 ^ e)
  else
    let d := 10 ^ (- e) in
    let k := Z.max 0 (66 + Z.log2 d - Z.log2 m) in
    let q := m * 2 ^ k / d in
    let sticky := if (m * 2 ^ k) mod d =? 0 then 0 else 1 in
    binary_normalize f64_prec f64_emax (2 * q + sticky) (- k - 1) false.

(** [cvttsd2si r32] ([types/c_cast.rs]): [INT_MIN] for NaN and out of range. *)
Definition cvttsd2si32 (v : f64) : Z :=
  if f64_gtb v (f64_of_Z (-2147483649)) && f64_ltb v (f64_of_Z 2147483648)
  then f64_to_i32 v else - 2 ^ 31.

Lemma f64_to_int_range lo hi a : lo <= 0 <= hi -> lo <= f64_to_int lo hi a <= hi.
Proof. intros. destruct a as [|[]| |]; simpl; lia. Qed.

Lemma f64_geb_nan_l a : f64_geb S754_nan a = false.
Proof. by destruct a as [[]|[]| |[]]. Qed.

Lemma f64_leb_nan_l a : f64_leb S754_nan a = false.
Proof. by destruct a as [[]|[]| |[]]. Qed.

Lemma f64_ltb_nan_r a : f64_ltb a S754_nan = false.
Proof. by destruct a as [[]|[]| |[]]. Qed.
