(* ===== verification/Alarm.v ===== *)
(** * Record alarms

    Models the alarm state of a record: [server/record/alarm.rs] (severities, the
    limit ladder), [server/record/sparse_text.rs] (alarm messages),
    [server/recgbl.rs] (raising, committing and acknowledging alarms),
    [server/records/alarm_filter.rs] (the AFTC low-pass filter), the ladder driver
    of [server/record/record_trait.rs], the MS-class inheritance of
    [server/database/links.rs], the alarm posts of [server/database/processing.rs]
    and the acknowledgement puts of [server/record/record_instance.rs].

    [CommonFields] holds the alarm-related fields of the source's struct.  An
    operation that mutates it takes the record and returns the new one. *)
From Stdlib Require Import SpecFloat.
From stdpp Require Import base tactics numbers list option strings.
From S2P Require Import Prelude Float64.

Open Scope Z_scope.

(** ** Severities and status codes *)

Inductive AlarmSeverity : Type := NoAlarm | Minor | Major | Invalid.

#[export] Instance AlarmSeverity_eq_dec : EqDecision AlarmSeverity.
Proof. solve_decision. Defined.

(** [sevr as u16]. *)
Definition sevr_u16 (s : AlarmSeverity) : Z :=
  match s with NoAlarm => 0 | Minor => 1 | Major => 2 | Invalid => 3 end.

Definition sevr_from_u16 (v : Z) : AlarmSeverity :=
  if v =? 0 then NoAlarm else
  if v =? 1 then Minor else
  if v =? 2 then Major else
  if v =? 3 then Invalid else Invalid.

Definition NO_ALARM : Z := 0.
Definition HIHI_ALARM : Z := 3.
Definition HIGH_ALARM : Z := 4.
Definition LOLO_ALARM : Z := 5.
Definition LOW_ALARM : Z := 6.
Definition STATE_ALARM : Z := 7.
Definition COS_ALARM : Z := 8.
Definition LINK_ALARM : Z := 14.
Definition UDF_ALARM : Z := 17.

(** ** Event masks *)

Record EventMask : Type := mkEventMask { bits : Z }.

#[export] Instance EventMask_eq_dec : EqDecision EventMask.
Proof. solve_decision. Defined.

Definition MASK_NONE : EventMask := mkEventMask 0.
Definition MASK_VALUE : EventMask := mkEventMask 1.
Definition MASK_LOG : EventMask := mkEventMask 2.
Definition MASK_ALARM : EventMask := mkEventMask 4.
Definition MASK_PROPERTY : EventMask := mkEventMask 8.
Definition mask_is_empty (m : EventMask) : bool := bits m =? 0.
Definition mask_contains (m o : EventMask) : bool := Z.land (bits m) (bits o) =? bits o.
Definition mask_intersects (m o : EventMask) : bool := negb (Z.land (bits m) (bits o) =? 0).
Definition mask_or (m o : EventMask) : EventMask := mkEventMask (Z.lor (bits m) (bits o)).
Definition mask_and (m o : EventMask) : EventMask := mkEventMask (Z.land (bits m) (bits o)).

(** ** Alarm messages

    A [SparseText] is absent, owned text, or a link field's name standing for one of
    two rendered forms.  Two values over the same allocation are the same value
    here, so [same] is equality of the form and its text. *)
Inductive SparseText : Type :=
| Absent
| Owned (text : string)
| LinkField (field : string)
| LinkDisconn (field : string).

#[export] Instance SparseText_eq_dec : EqDecision SparseText.
Proof. solve_decision. Defined.

Definition LINK_FIELD_PREFIX : string := "field ".
Definition LINK_DISCONN_SUFFIX : string := " Disconn".

(** [str::strip_prefix]. *)
Fixpoint strip_prefix (p s : string) : option string :=
  match p, s with
  | EmptyString, _ => Some s
  | String a p, String b s => if decide (a = b) then strip_prefix p s else None
  | String _ _, EmptyString => None
  end.

(** [str::strip_suffix]. *)
Fixpoint strip_suffix (s x : string) : option string :=
  if decide (s = x) then Some EmptyString else
  match s with
  | EmptyString => None
  | String a s => String a <$> strip_suffix s x
  end.

(** [SparseText::from(&str)]. *)
Definition SparseText_from (s : string) : SparseText :=
  if decide (s = EmptyString) then Absent else Owned s.

(** [parts], concatenated: what [Display] and [String::from] produce. *)
Definition parts (t : SparseText) : string * string * string :=
  match t with
  | Absent => (EmptyString, EmptyString, EmptyString)
  | Owned s => (EmptyString, s, EmptyString)
  | LinkField f => (LINK_FIELD_PREFIX, f, EmptyString)
  | LinkDisconn f => (EmptyString, f, LINK_DISCONN_SUFFIX)
  end.
Definition render (t : SparseText) : string :=
  let '(p, m, s) := parts t in String.app p (String.app m s).

Definition same (a b : SparseText) : bool := bool_decide (a = b).

Definition eq_str (t : SparseText) (other : string) : bool :=
  match t with
  | Absent => bool_decide (other = EmptyString)
  | Owned s => bool_decide (s = other)
  | LinkField f =>
      match strip_prefix LINK_FIELD_PREFIX other with
      | Some rest => bool_decide (rest = f)
      | None => false
      end
  | LinkDisconn f =>
      match strip_suffix other LINK_DISCONN_SUFFIX with
      | Some rest => bool_decide (rest = f)
      | None => false
      end
  end.

Definition eq_present (a b : SparseText) : bool :=
  if same a b then true else
  match a, b with
  | LinkField x, LinkField y => bool_decide (x = y)
  | LinkDisconn x, LinkDisconn y => bool_decide (x = y)
  | Owned s, _ => eq_str b s
  | _, Owned s => eq_str a s
  | _, _ => false
  end.

(** [PartialEq]. *)
Definition text_eqb (a b : SparseText) : bool :=
  match a, b with
  | Absent, Absent => true
  | Absent, _ => false
  | _, Absent => false
  | _, _ => eq_present a b
  end.

(** [SparseText::store] and [SparseText::set]. *)
Definition store (slot src : SparseText) : SparseText :=
  if same slot src then slot else src.
Definition set_text (slot : SparseText) (s : string) : SparseText :=
  if eq_str slot s then slot else SparseText_from s.

(** The trait [AlarmText]: a held text through [store], plain text through [set]. *)
Class AlarmText (T : Type) := store_into : T -> SparseText -> SparseText.
#[export] Instance AlarmText_sparse : AlarmText SparseText := fun t slot => store slot t.
#[export] Instance AlarmText_str : AlarmText string := fun s slot => set_text slot s.

(** ** Limits *)

Inductive AlarmLimit : Type :=
| LDouble (v : f64)
| LLong (v : Z)
| LInt64 (v : Z).

Definition limit_f64 (l : AlarmLimit) : f64 :=
  match l with LDouble v => v | LLong v => f64_of_Z v | LInt64 v => f64_of_Z v end.

Definition limit_i128 (l : AlarmLimit) : Z :=
  match l with LDouble v => f64_to_i128 v | LLong v => v | LInt64 v => v end.

(** The four limits, [HIHI, LOLO, HIGH, LOW], in the record's own domain. *)
Record quad (A : Type) : Type := mkQuad { q_hihi : A; q_lolo : A; q_high : A; q_low : A }.
Arguments mkQuad {A} _ _ _ _.
Arguments q_hihi {A} _.
Arguments q_lolo {A} _.
Arguments q_high {A} _.
Arguments q_low {A} _.

Definition quad_map {A B : Type} (f : A -> B) (q : quad A) : quad B :=
  mkQuad (f (q_hihi q)) (f (q_lolo q)) (f (q_high q)) (f (q_low q)).

Inductive AlarmLadder : Type :=
| LadderDouble (l : quad f64)
| LadderLong (l : quad Z)
| LadderInt64 (l : quad Z).

Inductive AlarmLimitField : Type := Hihi | Lolo | High | Low.

Definition quad_get {A : Type} (f : AlarmLimitField) (q : quad A) : A :=
  match f with Hihi => q_hihi q | Lolo => q_lolo q | High => q_high q | Low => q_low q end.

Definition quad_set {A : Type} (f : AlarmLimitField) (v : A) (q : quad A) : quad A :=
  match f with
  | Hihi => mkQuad v (q_lolo q) (q_high q) (q_low q)
  | Lolo => mkQuad (q_hihi q) v (q_high q) (q_low q)
  | High => mkQuad (q_hihi q) (q_lolo q) v (q_low q)
  | Low => mkQuad (q_hihi q) (q_lolo q) (q_high q) v
  end.

Record AnalogAlarmConfig : Type := mkConfig {
  limits : AlarmLadder;
  hhsv : Z;
  hsv : Z;
  lsv : Z;
  llsv : Z;
}.

Definition config_of (l : AlarmLadder) : AnalogAlarmConfig := mkConfig l 0 0 0 0.

Definition limit (c : AnalogAlarmConfig) (f : AlarmLimitField) : AlarmLimit :=
  match limits c with
  | LadderDouble l => LDouble (quad_get f l)
  | LadderLong l => LLong (quad_get f l)
  | LadderInt64 l => LInt64 (quad_get f l)
  end.

Definition set_limit (c : AnalogAlarmConfig) (f : AlarmLimitField) (value : AlarmLimit)
  : AnalogAlarmConfig :=
  let ladder :=
    match limits c with
    | LadderDouble l => LadderDouble (quad_set f (limit_f64 value) l)
    | LadderLong l =>
        LadderLong (quad_set f
          (match value with
           | LLong v => v
           | LInt64 v => swrap 32 v
           | LDouble v => f64_to_i32 v
           end) l)
    | LadderInt64 l =>
        LadderInt64 (quad_set f
          (match value with
           | LInt64 v => v
           | LLong v => v
           | LDouble v => f64_to_i64 v
           end) l)
    end in
  mkConfig ladder (hhsv c) (hsv c) (lsv c) (llsv c).

(** The bounds [analog_alarm_range] puts on its number type. *)
Class LadderNum (T : Type) := {
  num_ge : T -> T -> bool;
  num_le : T -> T -> bool;
  num_eq : T -> T -> bool;
  num_add : T -> T -> T;
  num_sub : T -> T -> T;
}.
#[export] Instance LadderNum_f64 : LadderNum f64 :=
  {| num_ge := f64_geb; num_le := f64_leb; num_eq := f64_eqb;
     num_add := f64_add; num_sub := f64_sub |}.

(** [i128]: the release profile wraps. *)
#[export] Instance LadderNum_i128 : LadderNum Z :=
  {| num_ge := Z.geb; num_le := Z.leb; num_eq := Z.eqb;
     num_add := fun a b => swrap 128 (a + b); num_sub := fun a b => swrap 128 (a - b) |}.

Definition analog_alarm_range {T : Type} `{LadderNum T} (val hyst lalm : T)
    (l : quad T) (sevs : quad Z) : Z :=
  if (negb (q_hihi sevs =? 0) &&
      (num_ge val (q_hihi l) ||
       (num_eq lalm (q_hihi l) && num_ge val (num_sub (q_hihi l) hyst))))%bool then 5
  else if (negb (q_lolo sevs =? 0) &&
      (num_le val (q_lolo l) ||
       (num_eq lalm (q_lolo l) && num_le val (num_add (q_lolo l) hyst))))%bool then 1
  else if (negb (q_high sevs =? 0) &&
      (num_ge val (q_high l) ||
       (num_eq lalm (q_high l) && num_ge val (num_sub (q_high l) hyst))))%bool then 4
  else if (negb (q_low sevs =? 0) &&
      (num_le val (q_low l) ||
       (num_eq lalm (q_low l) && num_le val (num_add (q_low l) hyst))))%bool then 2
  else 3.

Definition config_sevs (c : AnalogAlarmConfig) : quad Z :=
  mkQuad (hhsv c) (llsv c) (hsv c) (lsv c).

Definition range (c : AnalogAlarmConfig) (val : AlarmLimit) (hyst : option AlarmLimit)
    (lalm : AlarmLimit) (common_hyst : f64) : Z :=
  let sevs := config_sevs c in
  if ((q_hihi sevs =? 0) && (q_lolo sevs =? 0) && (q_high sevs =? 0)
      && (q_low sevs =? 0))%bool then 3
  else
  match val with
  | LDouble v =>
      let ls := match limits c with
                | LadderDouble l => l
                | LadderLong l => quad_map f64_of_Z l
                | LadderInt64 l => quad_map f64_of_Z l
                end in
      analog_alarm_range v (from_option limit_f64 common_hyst hyst) (limit_f64 lalm) ls sevs
  | LLong _ | LInt64 _ =>
      let v := limit_i128 val in
      let ls := match limits c with
                | LadderDouble l => quad_map f64_to_i128 l
                | LadderLong l => l
                | LadderInt64 l => l
                end in
      analog_alarm_range v (from_option limit_i128 (f64_to_i128 common_hyst) hyst)
        (limit_i128 lalm) ls sevs
  end.

Definition resolve (c : AnalogAlarmConfig) (rng : Z)
  : AlarmSeverity * Z * option AlarmLimit :=
  let hit (sev stat : Z) (f : AlarmLimitField) :=
    (sevr_from_u16 (wrap 16 sev), stat, Some (limit c f)) in
  if rng =? 5 then hit (hhsv c) HIHI_ALARM Hihi
  else if rng =? 4 then hit (hsv c) HIGH_ALARM High
  else if rng =? 2 then hit (lsv c) LOW_ALARM Low
  else if rng =? 1 then hit (llsv c) LOLO_ALARM Lolo
  else (NoAlarm, NO_ALARM, None).

(** ** The alarm fields of a record *)

Record CommonFields : Type := mkCommon {
  hyst : f64;
  acks : AlarmSeverity;
  udfs : Z;
  ackt : bool;
  nsev : AlarmSeverity;
  nsta : Z;
  sevr : AlarmSeverity;
  stat : Z;
  udf : Z;
  analog_alarm : option AnalogAlarmConfig;
  namsg : SparseText;
  amsg : SparseText;
  time_last : Z;
  time : Z;
}.

Definition set_pending (c : CommonFields) (sta : Z) (sev : AlarmSeverity) (msg : SparseText)
  : CommonFields :=
  mkCommon (hyst c) (acks c) (udfs c) (ackt c) sev sta (sevr c) (stat c) (udf c)
    (analog_alarm c) msg (amsg c) (time_last c) (time c).
Definition set_committed (c : CommonFields) (sta : Z) (sev : AlarmSeverity) (msg : SparseText)
  : CommonFields :=
  mkCommon (hyst c) (acks c) (udfs c) (ackt c) (nsev c) (nsta c) sev sta (udf c)
    (analog_alarm c) (namsg c) msg (time_last c) (time c).
Definition set_acks (c : CommonFields) (a : AlarmSeverity) : CommonFields :=
  mkCommon (hyst c) a (udfs c) (ackt c) (nsev c) (nsta c) (sevr c) (stat c) (udf c)
    (analog_alarm c) (namsg c) (amsg c) (time_last c) (time c).
Definition set_ackt (c : CommonFields) (b : bool) : CommonFields :=
  mkCommon (hyst c) (acks c) (udfs c) b (nsev c) (nsta c) (sevr c) (stat c) (udf c)
    (analog_alarm c) (namsg c) (amsg c) (time_last c) (time c).

(** *** Raising *)

Definition rec_gbl_set_sevr (c : CommonFields) (sta : Z) (sev : AlarmSeverity)
  : bool * CommonFields :=
  if sevr_u16 (nsev c) <? sevr_u16 sev then (true, set_pending c sta sev Absent)
  else (false, c).

Definition rec_gbl_set_sevr_raw (c : CommonFields) (sta raw_sevr : Z) : bool * CommonFields :=
  if sevr_u16 (nsev c) <? raw_sevr
  then (true, set_pending c sta (sevr_from_u16 raw_sevr) Absent)
  else (false, c).

Definition rec_gbl_set_sevr_msg {T : Type} `{AlarmText T} (c : CommonFields) (sta : Z)
    (sev : AlarmSeverity) (msg : T) : bool * CommonFields :=
  if sevr_u16 (nsev c) <? sevr_u16 sev
  then (true, set_pending c sta sev (store_into msg (namsg c)))
  else (false, c).

Definition rec_gbl_set_link_alarm (c : CommonFields) (field : string) : CommonFields :=
  (rec_gbl_set_sevr_msg c LINK_ALARM Invalid (LinkField field)).2.

Definition udf_alarm_active (u : Z) (exact_one : bool) : bool :=
  if exact_one then u =? 1 else negb (u =? 0).

Definition rec_gbl_check_udf (c : CommonFields) (exact_one : bool)
    (severity : option AlarmSeverity) (msg : string) : CommonFields :=
  if udf_alarm_active (udf c) exact_one
  then (rec_gbl_set_sevr_msg c UDF_ALARM
          (default (sevr_from_u16 (wrap 16 (udfs c))) severity) msg).2
  else c.

(** *** MS-class inheritance *)

Inductive MonitorSwitch : Type := NoMaximize | Maximize | MaximizeStatus | MaximizeIfInvalid.

Record LinkAlarm : Type := mkLinkAlarm {
  la_stat : Z;
  la_sevr : AlarmSeverity;
  la_amsg : SparseText;
}.

Definition LinkAlarm_pending (c : CommonFields) : LinkAlarm :=
  mkLinkAlarm (nsta c) (nsev c) (namsg c).
Definition LinkAlarm_committed (c : CommonFields) : LinkAlarm :=
  mkLinkAlarm (stat c) (sevr c) (amsg c).

Definition inherited (ms : MonitorSwitch) (src : LinkAlarm)
  : option (Z * AlarmSeverity * option SparseText) :=
  match ms with
  | Maximize => Some (LINK_ALARM, la_sevr src, None)
  | MaximizeIfInvalid =>
      if decide (la_sevr src = Invalid) then Some (LINK_ALARM, la_sevr src, None) else None
  | MaximizeStatus => Some (la_stat src, la_sevr src, Some (la_amsg src))
  | NoMaximize => None
  end.

Definition inherit_sevr_msg (dest : CommonFields) (ms : MonitorSwitch) (src : LinkAlarm)
  : CommonFields :=
  match inherited ms src with
  | Some (sta, sev, Some msg) => (rec_gbl_set_sevr_msg dest sta sev msg).2
  | Some (sta, sev, None) => (rec_gbl_set_sevr dest sta sev).2
  | None => dest
  end.

(** *** Committing *)

Record AlarmResetResult : Type := mkReset {
  alarm_changed : bool;
  prev_sevr : AlarmSeverity;
  prev_stat : Z;
  amsg_changed : bool;
  acks_posted : bool;
}.

Definition reset_unchanged (c : CommonFields) : AlarmResetResult :=
  mkReset false (sevr c) (stat c) false false.

Definition transfer_amsg (c : CommonFields) : CommonFields :=
  set_pending (set_committed c (stat c) (sevr c) (namsg c)) (nsta c) (nsev c) Absent.

Definition rec_gbl_reset_alarms (c0 : CommonFields) : AlarmResetResult * CommonFields :=
  let p_sevr := sevr c0 in
  let p_stat := stat c0 in
  let c1 := if sevr_u16 Invalid <? sevr_u16 (nsev c0)
            then set_pending c0 (nsta c0) Invalid (namsg c0) else c0 in
  let a_changed := negb (text_eqb (namsg c1) (amsg c1)) in
  let c2 := if a_changed then transfer_amsg c1 else c1 in
  let c3 := set_committed c2 (nsta c2) (nsev c2) (amsg c2) in
  let c4 := set_pending c3 NO_ALARM NoAlarm (namsg c3) in
  let changed := (negb (bool_decide (sevr c4 = p_sevr)) || negb (stat c4 =? p_stat))%bool in
  if ((changed || a_changed)
      && (negb (ackt c4) || (sevr_u16 (acks c4) <=? sevr_u16 (sevr c4))))%bool
  then (mkReset changed p_sevr p_stat a_changed true, set_acks c4 (sevr c4))
  else (mkReset changed p_sevr p_stat a_changed false, c4).

(** *** Posting *)

Record AlarmPosts : Type := mkPosts {
  ap_sevr : bool;
  ap_stat_mask : EventMask;
  ap_acks : bool;
}.

Definition alarm_field_posts (c : CommonFields) (r : AlarmResetResult) : AlarmPosts :=
  let sevr_changed := negb (bool_decide (sevr c = prev_sevr r)) in
  let stat_changed := negb (stat c =? prev_stat r) in
  let m := MASK_NONE in
  let m := if (sevr_changed || amsg_changed r)%bool then mask_or m MASK_ALARM else m in
  let m := if stat_changed then mask_or m MASK_VALUE else m in
  mkPosts sevr_changed m (acks_posted r).

(** [for_each]/[to_vec]: the posts in order, each with its mask. *)
Definition posts_to_vec (p : AlarmPosts) : list (string * EventMask) :=
  (if ap_sevr p then [("SEVR"%string, MASK_VALUE)] else []) ++
  (if negb (mask_is_empty (ap_stat_mask p))
   then [("STAT"%string, ap_stat_mask p); ("AMSG"%string, ap_stat_mask p)] else []) ++
  (if ap_acks p then [("ACKS"%string, MASK_VALUE)] else []).

Definition posts_mask (p : AlarmPosts) : EventMask :=
  if (ap_sevr p || ap_acks p)%bool then mask_or (ap_stat_mask p) MASK_VALUE
  else ap_stat_mask p.

Definition reset_mask (p : AlarmPosts) : EventMask :=
  if mask_is_empty (ap_stat_mask p) then MASK_NONE else MASK_ALARM.

Definition RECGBL_POSTED_ALARM_FIELDS : list string := ["SEVR"; "STAT"; "AMSG"; "ACKS"]%string.

(** *** Acknowledging

    What a put posts: one field with its mask, or the record-wide alarm event. *)
Inductive AckPost : Type :=
| FieldPost (name : string) (mask : EventMask)
| RecordAlarmPost.

Definition put_ackt_in (c : CommonFields) (value : Z) : CommonFields * list AckPost :=
  let new_ackt := negb (value =? 0) in
  if Bool.eqb new_ackt (ackt c) then (c, []) else
  let ack_mask := mask_or MASK_VALUE MASK_ALARM in
  let c := set_ackt c new_ackt in
  if (negb new_ackt && (sevr_u16 (sevr c) <? sevr_u16 (acks c)))%bool
  then (set_acks c (sevr c),
        [FieldPost "ACKT" ack_mask; FieldPost "ACKS" ack_mask; RecordAlarmPost])
  else (c, [FieldPost "ACKT" ack_mask; RecordAlarmPost]).

Definition put_acks_in (c : CommonFields) (value : Z) : CommonFields * list AckPost :=
  let sev := sevr_from_u16 value in
  if sevr_u16 sev <? sevr_u16 (acks c) then (c, [])
  else (set_acks c NoAlarm,
        [FieldPost "ACKS" (mask_or MASK_VALUE MASK_ALARM); RecordAlarmPost]).

(** ** The AFTC filter *)

(** [0.6321] as a double. *)
Definition THRESHOLD : f64 := S754_finite false 5693450648921781 (-53).

(** [Duration::as_secs_f64] of a duration in nanoseconds. *)
Definition as_secs_f64 (ns : Z) : f64 :=
  f64_add (f64_of_Z (ns / 1000000000))
          (f64_div (f64_of_Z (ns mod 1000000000)) (f64_of_Z 1000000000)).

Definition aftc_filter (raw_alarm : Z) (aftc afvl_in : f64) (t_last t_new : Z) : Z * f64 :=
  if f64_leb aftc f64_zero then (raw_alarm, f64_zero) else
  if f64_eqb afvl_in f64_zero then (raw_alarm, f64_of_Z raw_alarm) else
  let dt := as_secs_f64 (sat_sub t_new t_last) in
  let alpha := f64_div aftc (f64_add dt aftc) in
  let one := f64_of_Z 1 in
  let afvl :=
    f64_add (f64_mul alpha afvl_in)
      (f64_mul (if f64_gtb afvl_in f64_zero then f64_sub one alpha else f64_sub alpha one)
               (f64_of_Z raw_alarm)) in
  let afvl := if f64_gtb (f64_sub afvl (f64_floor afvl)) THRESHOLD then f64_opp afvl else afvl in
  (f64_to_u16 (f64_abs (f64_floor afvl)), afvl).

(** ** The ladder of a process cycle *)

Record AnalogAlarmInput : Type := mkInput {
  in_val : AlarmLimit;
  in_hyst : option AlarmLimit;
  in_lalm : AlarmLimit;
  in_aftc : f64;
  in_afvl : f64;
}.

(** What the ladder asks of a record type. *)
Class AnalogRecord (R : Type) := {
  analog_alarm_input : R -> option AnalogAlarmInput;
  store_alarm_filter_value : R -> f64 -> R;
  store_analog_lalm : R -> AlarmLimit -> R;
  udf_alarm_on_exact_one : R -> bool;
}.

Definition analog_alarm_ladder {R : Type} `{AnalogRecord R} (r : R) (c : CommonFields)
  : R * CommonFields :=
  match analog_alarm c with
  | None => (r, c)
  | Some cfg =>
    match analog_alarm_input r with
    | None => (r, c)
    | Some i =>
      if udf_alarm_active (udf c) (udf_alarm_on_exact_one r) then
        (if negb (f64_eqb (in_afvl i) f64_zero)
         then store_alarm_filter_value r f64_zero else r, c)
      else
        let rng := range cfg (in_val i) (in_hyst i) (in_lalm i) (hyst c) in
        let '(rng, r) :=
          if f64_gtb (in_aftc i) f64_zero then
            let '(filtered, new_afvl) :=
              aftc_filter rng (in_aftc i) (in_afvl i) (time_last c) (time c) in
            (filtered, store_alarm_filter_value r new_afvl)
          else
            (rng, if negb (f64_eqb (in_afvl i) f64_zero)
                  then store_alarm_filter_value r f64_zero else r) in
        let '(new_sevr, new_stat, alev) := resolve cfg rng in
        if decide (new_sevr = NoAlarm) then (store_analog_lalm r (in_val i), c)
        else
          let '(raised, c') := rec_gbl_set_sevr c new_stat new_sevr in
          if raised then (store_analog_lalm r (default (in_val i) alev), c')
          else (r, c')
    end
  end.
