(* ===== verification/AlarmTheory.v ===== *)
(** * Properties of record alarms

    Message texts compare as they render; a cycle's raises keep the first of the
    highest severity; committing transfers and clears the pending state; the
    unacknowledged severity is the highest one seen; the posts match the change; the
    limit ladder is exact on integer records, holds its hysteresis and ignores NaN. *)
From Stdlib Require Import SpecFloat.
From stdpp Require Import base tactics numbers list option strings.
From S2P Require Import Prelude Float64 Alarm.

Open Scope Z_scope.

(** ** Strings *)

#[local] Arguments String.append : simpl nomatch.

Lemma strip_prefix_Some p s r : strip_prefix p s = Some r <-> s = String.app p r.
Proof.
  revert s. induction p as [|a p IH]; intros s; simpl.
  - split; congruence.
  - destruct s as [|b s]; [done|]. case_decide; [rewrite IH|]; split; congruence.
Qed.

Lemma string_app_length a b :
  String.length (String.app a b) = (String.length a + String.length b)%nat.
Proof. induction a; simpl; auto. Qed.

Lemma strip_suffix_Some s x r : strip_suffix s x = Some r <-> s = String.app r x.
Proof.
  revert r. induction s as [|a s IH]; intros r; simpl.
  - case_decide; destruct r; simpl; split; congruence.
  - case_decide as Hx.
    + split; [intros [= <-]; done|]. destruct r as [|b r]; [done|]. simpl. intros [= -> H].
      exfalso. subst x. apply (f_equal String.length) in H. simpl in H.
      rewrite string_app_length in H. simpl in H. lia.
    + rewrite fmap_Some. setoid_rewrite IH. split; [intros (r' & -> & ->); done|].
      destruct r as [|b r]; simpl; [congruence|]. intros [= -> ->]. eauto.
Qed.

Lemma string_app_nil_r a : String.app a EmptyString = a.
Proof. induction a; simpl; congruence. Qed.

Lemma string_app_inj_l p a b : String.app p a = String.app p b -> a = b.
Proof. induction p; simpl; [done|]. intros [= ?]. auto. Qed.

Lemma string_app_inj_r a b x : String.app a x = String.app b x -> a = b.
Proof.
  intros H. assert (strip_suffix (String.app a x) x = Some b) as Hb by by apply strip_suffix_Some.
  assert (strip_suffix (String.app a x) x = Some a) by by apply strip_suffix_Some.
  congruence.
Qed.

(** ** Messages *)

Lemma render_owned s : render (Owned s) = s.
Proof. apply string_app_nil_r. Qed.

Lemma render_link_field f : render (LinkField f) = String.app LINK_FIELD_PREFIX f.
Proof. cbn [render parts]. by rewrite string_app_nil_r. Qed.

Lemma render_link_disconn f : render (LinkDisconn f) = String.app f LINK_DISCONN_SUFFIX.
Proof. done. Qed.

Create Rewrite HintDb text.
#[export] Hint Rewrite render_owned render_link_field render_link_disconn : text.

Lemma eq_str_spec t s : eq_str t s = true <-> render t = s.
Proof.
  destruct t as [|x|f|f]; cbn [eq_str]; autorewrite with text.
  - rewrite bool_decide_eq_true. naive_solver.
  - by rewrite bool_decide_eq_true.
  - destruct (strip_prefix _ _) eqn:E.
    + apply strip_prefix_Some in E as ->. rewrite bool_decide_eq_true. split; [congruence|].
      intros H%string_app_inj_l. done.
    + split; [done|]. intros <-.
      assert (strip_prefix LINK_FIELD_PREFIX (String.app LINK_FIELD_PREFIX f) = Some f)
        by by apply strip_prefix_Some. congruence.
  - destruct (strip_suffix _ _) eqn:E.
    + apply strip_suffix_Some in E as ->. rewrite bool_decide_eq_true. split; [congruence|].
      intros H%string_app_inj_r. done.
    + split; [done|]. intros <-.
      assert (strip_suffix (String.app f LINK_DISCONN_SUFFIX) LINK_DISCONN_SUFFIX = Some f)
        by by apply strip_suffix_Some. congruence.
Qed.

(** Owned text is never empty, and a field name holds no lower-case letter. *)
Fixpoint no_lower (s : string) : bool :=
  match s with
  | EmptyString => true
  | String a s => negb ((97 <=? Z.of_nat (Ascii.nat_of_ascii a))
                        && (Z.of_nat (Ascii.nat_of_ascii a) <=? 122)) && no_lower s
  end.
Definition text_ok (t : SparseText) : Prop :=
  match t with
  | Absent => True
  | Owned s => s <> EmptyString
  | LinkField f => no_lower f = true
  | LinkDisconn f => no_lower f = true
  end.

Lemma render_disconn_not_field f g :
  no_lower g = true ->
  String.app LINK_FIELD_PREFIX f <> String.app g LINK_DISCONN_SUFFIX.
Proof.
  intros Hg H. destruct g as [|a g]; [discriminate H|].
  injection H as <- _. discriminate Hg.
Qed.

Lemma render_empty t : text_ok t -> render t = EmptyString -> t = Absent.
Proof.
  destruct t as [|s|f|f]; autorewrite with text; simpl; try done.
  destruct f; done.
Qed.

Lemma eq_present_spec a b :
  text_ok a -> text_ok b -> a <> Absent -> b <> Absent ->
  eq_present a b = true <-> render a = render b.
Proof.
  intros Ha Hb Na Nb. unfold eq_present, same. case_bool_decide as E; [naive_solver|].
  destruct a as [|s|f|f], b as [|s'|f'|f']; try done; rewrite ?eq_str_spec, ?bool_decide_eq_true;
    autorewrite with text; try naive_solver.
  - split; [done|]. intros H. by apply render_disconn_not_field in H.
  - split; [done|]. intros H. symmetry in H. by apply render_disconn_not_field in H.
  - split; [congruence|]. intros ?%string_app_inj_r. congruence.
Qed.

(** The comparison decides equality of the rendered texts. *)
Lemma text_eqb_render a b :
  text_ok a -> text_ok b -> text_eqb a b = true <-> render a = render b.
Proof.
  intros Ha Hb.
  destruct (decide (a = Absent)) as [->|Na], (decide (b = Absent)) as [->|Nb].
  - done.
  - split; [by destruct b|]. intros H. symmetry in H. by apply render_empty in H.
  - split; [by destruct a|]. intros H. by apply render_empty in H.
  - rewrite <- eq_present_spec by done. by destruct a, b.
Qed.

(** Comparing two alarm messages answers whether they render to the same text,
    whichever form (owned, link-field, link-disconnect) holds each, as long as link
    field names hold no lower-case letter. *)
Theorem message_equality_is_rendered_equality (a b : SparseText) :
  text_ok a -> text_ok b -> text_eqb a b = bool_decide (render a = render b).
Proof.
  intros Ha Hb. apply eq_true_iff_eq. rewrite bool_decide_eq_true. by apply text_eqb_render.
Qed.

Lemma message_equality_is_rendered_equality_witness :
  text_eqb (Owned "field INP") (LinkField "INP") = true /\
  text_eqb (LinkField "INP") (LinkDisconn "INP") = false.
Proof.
  split.
  - rewrite (message_equality_is_rendered_equality (Owned "field INP") (LinkField "INP"));
      [by vm_compute|done|done].
  - rewrite (message_equality_is_rendered_equality (LinkField "INP") (LinkDisconn "INP"));
      [by vm_compute|done|done].
Defined.

Lemma store_into_sparse t slot : store_into t slot = t.
Proof. unfold store_into, AlarmText_sparse, store, same. by case_bool_decide. Qed.

Lemma render_SparseText_from s : render (SparseText_from s) = s.
Proof.
  unfold SparseText_from. case_decide as E; [by rewrite E|]. apply render_owned.
Qed.

Lemma render_store_into_str s slot : render (store_into s slot) = s.
Proof.
  unfold store_into, AlarmText_str, set_text. destruct (eq_str slot s) eqn:E.
  - by apply eq_str_spec.
  - apply render_SparseText_from.
Qed.

Lemma text_ok_from s : text_ok (SparseText_from s).
Proof. unfold SparseText_from. by case_decide. Qed.

Lemma text_ok_set slot s : text_ok slot -> text_ok (set_text slot s).
Proof. unfold set_text. case_goal; [done|]. intros. apply text_ok_from. Qed.

(** ** Raising alarms in a cycle

    The ways a cycle raises an alarm with an in-range severity. *)
Inductive RaiseOp : Type :=
| SetSevr (sta : Z) (sev : AlarmSeverity)
| SetSevrText (sta : Z) (sev : AlarmSeverity) (msg : SparseText)
| SetSevrStr (sta : Z) (sev : AlarmSeverity) (msg : string)
| LinkFailed (field : string)
| CheckUdf (exact_one : bool) (severity : option AlarmSeverity) (msg : string)
| Inherit (ms : MonitorSwitch) (src : LinkAlarm).

Definition run_raise (c : CommonFields) (op : RaiseOp) : CommonFields :=
  match op with
  | SetSevr sta sev => (rec_gbl_set_sevr c sta sev).2
  | SetSevrText sta sev msg => (rec_gbl_set_sevr_msg c sta sev msg).2
  | SetSevrStr sta sev msg => (rec_gbl_set_sevr_msg c sta sev msg).2
  | LinkFailed field => rec_gbl_set_link_alarm c field
  | CheckUdf e s msg => rec_gbl_check_udf c e s msg
  | Inherit ms src => inherit_sevr_msg c ms src
  end.

(** The status, severity and message text an operation offers. *)
Record Offer : Type := mkOffer { of_stat : Z; of_sevr : AlarmSeverity; of_text : string }.

Definition offer (u us : Z) (op : RaiseOp) : option Offer :=
  match op with
  | SetSevr sta sev => Some (mkOffer sta sev EmptyString)
  | SetSevrText sta sev msg => Some (mkOffer sta sev (render msg))
  | SetSevrStr sta sev msg => Some (mkOffer sta sev msg)
  | LinkFailed field => Some (mkOffer LINK_ALARM Invalid (String.app "field " field))
  | CheckUdf e s msg =>
      if (if e then u =? 1 else negb (u =? 0))
      then Some (mkOffer UDF_ALARM (default (sevr_from_u16 (wrap 16 us)) s) msg) else None
  | Inherit NoMaximize _ => None
  | Inherit Maximize src => Some (mkOffer LINK_ALARM (la_sevr src) EmptyString)
  | Inherit MaximizeStatus src => Some (mkOffer (la_stat src) (la_sevr src) (render (la_amsg src)))
  | Inherit MaximizeIfInvalid src =>
      match la_sevr src with
      | Invalid => Some (mkOffer LINK_ALARM Invalid EmptyString)
      | _ => None
      end
  end.

(** The pending alarm, as an offer. *)
Definition pending (c : CommonFields) : Offer := mkOffer (nsta c) (nsev c) (render (namsg c)).

(** The first of the highest severity among [os], [p] first. *)
Definition highest (p : Offer) (os : list Offer) : Z :=
  foldr (fun o m => Z.max (sevr_u16 (of_sevr o)) m) (sevr_u16 (of_sevr p)) os.
Definition first_highest (p : Offer) (os : list Offer) : Offer :=
  default p (List.find (fun o => sevr_u16 (of_sevr o) =? highest p os) (p :: os)).

Lemma sevr_from_u16_id s : sevr_from_u16 (sevr_u16 s) = s.
Proof. by destruct s. Qed.

Lemma sevr_u16_inj s t : sevr_u16 s = sevr_u16 t -> s = t.
Proof. by destruct s, t. Qed.

Lemma sevr_u16_range s : 0 <= sevr_u16 s <= 3.
Proof. destruct s; simpl; lia. Qed.

(** One offer against the pending alarm: replaced only by a strictly higher one. *)
Definition take_offer (p : Offer) (o : option Offer) : Offer :=
  match o with
  | Some o => if sevr_u16 (of_sevr p) <? sevr_u16 (of_sevr o) then o else p
  | None => p
  end.

Lemma set_sevr_offer c sta sev :
  pending (rec_gbl_set_sevr c sta sev).2 = take_offer (pending c) (Some (mkOffer sta sev EmptyString)).
Proof. unfold rec_gbl_set_sevr, pending; simpl. by case_goal. Qed.

Lemma set_sevr_msg_offer {T} `{AlarmText T} c sta sev (msg : T) :
  pending (rec_gbl_set_sevr_msg c sta sev msg).2
  = take_offer (pending c) (Some (mkOffer sta sev (render (store_into msg (namsg c))))).
Proof. unfold rec_gbl_set_sevr_msg, pending; simpl. by case_goal. Qed.

Lemma run_raise_offer c op :
  pending (run_raise c op) = take_offer (pending c) (offer (udf c) (udfs c) op).
Proof.
  destruct op as [| | |f|e s m|[] src]; cbn [run_raise offer];
    rewrite ?set_sevr_offer, ?set_sevr_msg_offer, ?store_into_sparse, ?render_store_into_str;
    try done.
  - unfold rec_gbl_set_link_alarm. rewrite set_sevr_msg_offer, store_into_sparse.
    by rewrite render_link_field.
  - unfold rec_gbl_check_udf. destruct (udf_alarm_active (udf c) e) eqn:E;
      unfold udf_alarm_active in E; rewrite E; [|done].
    by rewrite set_sevr_msg_offer, render_store_into_str.
  - unfold inherit_sevr_msg. cbn [inherited]. apply set_sevr_offer.
  - unfold inherit_sevr_msg. cbn [inherited]. by rewrite set_sevr_msg_offer, store_into_sparse.
  - unfold inherit_sevr_msg. cbn [inherited].
    case_decide as E; [rewrite E, set_sevr_offer; done|]. by destruct (la_sevr src).
Qed.

Lemma run_raise_udf c op : udf (run_raise c op) = udf c /\ udfs (run_raise c op) = udfs c.
Proof.
  destruct op as [| | |f|e s m|[] src]; cbn [run_raise]; 
    unfold rec_gbl_set_link_alarm, rec_gbl_check_udf, inherit_sevr_msg,
      rec_gbl_set_sevr_msg, rec_gbl_set_sevr; simpl; repeat case_goal; simplify_eq/=; auto.
Qed.

Lemma highest_ge p os : sevr_u16 (of_sevr p) <= highest p os.
Proof. unfold highest. induction os; cbn [foldr]; lia. Qed.

Lemma highest_take p o os : highest (take_offer p (Some o)) os = highest p (o :: os).
Proof.
  unfold highest. cbn [take_offer foldr].
  case_goal; zbool; induction os; cbn [foldr]; lia.
Qed.

Lemma highest_attained p os :
  exists x, In x (p :: os) /\ sevr_u16 (of_sevr x) = highest p os.
Proof.
  unfold highest. induction os as [|y os (x & Hx & E)]; [exists p; simpl; auto|].
  cbn [foldr]. rewrite <- E.
  destruct (Z.max_spec (sevr_u16 (of_sevr y)) (sevr_u16 (of_sevr x))) as [[? ->]|[? ->]].
  - exists x. destruct Hx; simpl; auto.
  - exists y. simpl; auto.
Qed.

Lemma find_highest p os :
  is_Some (List.find (fun o => sevr_u16 (of_sevr o) =? highest p os) (p :: os)).
Proof.
  destruct (highest_attained p os) as (x & Hx & E).
  destruct (List.find _ _) eqn:F; [by eexists|].
  eapply find_none in F; [|exact Hx]. simpl in F. rewrite E, Z.eqb_refl in F. done.
Qed.

Lemma first_highest_take p o os :
  first_highest (take_offer p (Some o)) os = first_highest p (o :: os).
Proof.
  unfold first_highest. rewrite highest_take. set (h := highest p (o :: os)).
  assert (sevr_u16 (of_sevr o) <= h) by (unfold h, highest; cbn [foldr]; lia).
  assert (sevr_u16 (of_sevr p) <= h) by apply highest_ge.
  destruct (find_highest p (o :: os)) as [r Hr]. fold h in Hr.
  rewrite Hr. cbn [default]. cbn [List.find take_offer] in *.
  destruct (sevr_u16 (of_sevr p) <? sevr_u16 (of_sevr o)) eqn:E; zbool;
    destruct (sevr_u16 (of_sevr p) =? h) eqn:Ep; zbool; try lia;
    destruct (sevr_u16 (of_sevr o) =? h) eqn:Eo; zbool; try lia;
    simplify_eq/=; try done; by rewrite Hr.
Qed.

Lemma raises_fold c ops :
  pending (foldl run_raise c ops) = foldl take_offer (pending c) (offer (udf c) (udfs c) <$> ops).
Proof.
  revert c. induction ops as [|op ops IH]; intros c; [done|]. simpl. rewrite IH.
  pose proof (run_raise_udf c op) as [-> ->]. by rewrite run_raise_offer.
Qed.

Lemma take_offers_first_highest p os :
  foldl take_offer p os = first_highest p (omap id os).
Proof.
  revert p. induction os as [|[o|] os IH]; intros p; cbn [foldl omap list_omap].
  - unfold first_highest, highest. simpl. by rewrite Z.eqb_refl.
  - rewrite IH, first_highest_take. done.
  - apply IH.
Qed.

Lemma omap_id_fmap {A B} (f : A -> option B) (l : list A) : omap id (f <$> l) = omap f l.
Proof.
  induction l as [|a l IH]; [done|]. cbn [fmap list_fmap omap list_omap].
  unfold id at 1. by destruct (f a); rewrite <- IH.
Qed.

(** A cycle's raises, in whatever mix and order (plain, with a message, a failed
    link, the undefined-value check, MS-class inheritance), leave as the pending
    status, severity and message text the first one of the highest severity, where
    the alarm already pending counts as the earliest. *)
Theorem raises_keep_first_of_highest (c : CommonFields) (ops : list RaiseOp) :
  pending (foldl run_raise c ops)
  = first_highest (pending c) (omap (offer (udf c) (udfs c)) ops).
Proof.
  rewrite raises_fold, take_offers_first_highest. by rewrite omap_id_fmap.
Qed.

(** ** Committing *)

(** What a commit does, field by field. *)
Lemma reset_spec c :
  let '(r, c') := rec_gbl_reset_alarms c in
  let differs := negb (text_eqb (namsg c) (amsg c)) in
  let changed := negb (bool_decide (nsev c = sevr c)) || negb (nsta c =? stat c) in
  let fired := (changed || differs)
               && (negb (ackt c) || (sevr_u16 (acks c) <=? sevr_u16 (nsev c))) in
  r = mkReset changed (sevr c) (stat c) differs fired /\
  c' = mkCommon (hyst c) (if fired then nsev c else acks c) (udfs c) (ackt c) NoAlarm NO_ALARM
         (nsev c) (nsta c) (udf c) (analog_alarm c)
         (if differs then Absent else namsg c) (if differs then namsg c else amsg c)
         (time_last c) (time c).
Proof.
  unfold rec_gbl_reset_alarms.
  replace (sevr_u16 Invalid <? sevr_u16 (nsev c)) with false
    by (symmetry; apply Z.ltb_ge; pose proof (sevr_u16_range (nsev c)); simpl; lia).
  destruct c as [h ak us at' ns nt sv st u cfg nm am tl t]; cbn.
  destruct (text_eqb nm am); cbn; case_goal; cbn; by split.
Qed.

Ltac reset_cases c :=
  pose proof (reset_spec c); destruct (rec_gbl_reset_alarms c) as [? ?];
  cbv zeta in *; destruct_and!; subst; cbn in *.

Lemma changed_spec (a b : AlarmSeverity) (x y : Z) :
  (negb (bool_decide (a = b)) || negb (x =? y))%bool = bool_decide ((a, x) <> (b, y)).
Proof.
  apply eq_true_iff_eq. rewrite bool_decide_eq_true, orb_true_iff, !negb_true_iff,
    bool_decide_eq_false, Z.eqb_neq.
  destruct (decide (a = b)), (decide (x = y)); intuition congruence.
Qed.

(** A commit makes the pending severity and status the current ones, makes the
    current message render as the pending one, and clears the pending severity and
    status; the pending message is cleared exactly when it differed. *)
Theorem reset_commits_pending (c : CommonFields) :
  text_ok (namsg c) -> text_ok (amsg c) ->
  let '(r, c') := rec_gbl_reset_alarms c in
  sevr c' = nsev c /\ stat c' = nsta c /\ render (amsg c') = render (namsg c) /\
  nsev c' = NoAlarm /\ nsta c' = NO_ALARM /\
  namsg c' = (if decide (render (namsg c) = render (amsg c)) then namsg c else Absent) /\
  alarm_changed r = bool_decide ((sevr c', stat c') <> (sevr c, stat c)) /\
  amsg_changed r = bool_decide (render (amsg c') <> render (amsg c)) /\
  prev_sevr r = sevr c /\ prev_stat r = stat c.
Proof.
  intros Hn Ha. pose proof (text_eqb_render _ _ Hn Ha) as Heq. reset_cases c.
  rewrite changed_spec. destruct (text_eqb (namsg c) (amsg c)) eqn:E; cbn.
  - assert (render (namsg c) = render (amsg c)) as E' by (by apply Heq). rewrite (decide_True _ _ E').
    rewrite (bool_decide_eq_false_2 (render (amsg c) <> render (amsg c))) by auto.
    split_and!; done.
  - assert (render (namsg c) <> render (amsg c)) by (intros H%Heq; done).
    rewrite decide_False by done.
    rewrite (bool_decide_eq_true_2 (render (namsg c) <> render (amsg c))) by done.
    split_and!; done.
Qed.

Definition quiet (sv : AlarmSeverity) (st : Z) (am : SparseText) (ak : AlarmSeverity)
    (t : bool) : CommonFields :=
  mkCommon f64_zero ak 3 t NoAlarm NO_ALARM sv st 0 None Absent am 0 0.

Lemma reset_commits_pending_witness :
  let c := run_raise (quiet NoAlarm 0 Absent NoAlarm true) (LinkFailed "INP") in
  text_ok (namsg c) /\ text_ok (amsg c) /\
  (let c' := (rec_gbl_reset_alarms c).2 in
   sevr c' = Invalid /\ stat c' = LINK_ALARM /\ render (amsg c') = "field INP"%string).
Proof.
  split_and!; [done|done|].
  pose proof (reset_commits_pending
    (run_raise (quiet NoAlarm 0 Absent NoAlarm true) (LinkFailed "INP")) eq_refl I) as H.
  vm_compute in H. vm_compute. intuition.
Defined.

(** *** Cycles: raise, then commit *)

Definition cycle (c : CommonFields) (ops : list RaiseOp) : AlarmResetResult * CommonFields :=
  rec_gbl_reset_alarms (foldl run_raise c ops).

#[local] Opaque rec_gbl_reset_alarms.

Lemma reset_moves c b :
  text_eqb (namsg c) (amsg c) = b ->
  let c' := (rec_gbl_reset_alarms c).2 in
  nsev c' = NoAlarm /\ sevr c' = nsev c /\
  namsg c' = (if b then namsg c else Absent) /\ amsg c' = (if b then amsg c else namsg c).
Proof. intros <-. reset_cases c. by destruct (text_eqb (namsg c) (amsg c)). Qed.

(** An alarm message raised in one cycle only is cleared by the next quiet one;
    raised unchanged in two cycles running it stays published after the alarm
    clears. *)
Theorem message_outlives_a_repeated_alarm (c : CommonFields) (field : string) :
  nsev c = NoAlarm -> namsg c = Absent -> no_lower field = true -> text_ok (amsg c) ->
  render (amsg c) <> render (LinkField field) ->
  let c1 := (cycle c [LinkFailed field]).2 in
  let c2 := (cycle c1 [LinkFailed field]).2 in
  let once := (cycle c1 []).2 in
  let twice := (cycle c2 []).2 in
  sevr once = NoAlarm /\ render (amsg once) = EmptyString /\
  sevr twice = NoAlarm /\ render (amsg twice) = render (LinkField field).
Proof.
  intros Hs Hm Hf Ha Hd.
  assert (text_eqb (LinkField field) (amsg c) = false) as E1.
  { apply not_true_is_false. intros H. apply text_eqb_render in H; [|done..]. congruence. }
  assert (text_eqb (LinkField field) (LinkField field) = true) as E2
    by (by apply text_eqb_render).
  assert (forall c, nsev c = NoAlarm -> foldl run_raise c [LinkFailed field]
    = set_pending c LINK_ALARM Invalid (LinkField field)) as Hraise.
  { intros c' Hc'. cbn [foldl run_raise]. unfold rec_gbl_set_link_alarm, rec_gbl_set_sevr_msg.
    by rewrite Hc', store_into_sparse. }
  intros c1 c2 once twice.
  assert (nsev c1 = NoAlarm /\ namsg c1 = Absent /\ amsg c1 = LinkField field) as (? & ? & E3).
  { subst c1. unfold cycle. rewrite Hraise by done. destruct (reset_moves
      (set_pending c LINK_ALARM Invalid (LinkField field)) false E1) as (?&?&?&?). auto. }
  assert (nsev c2 = NoAlarm /\ namsg c2 = LinkField field /\ amsg c2 = LinkField field)
    as (? & E4 & E5).
  { subst c2. unfold cycle. rewrite Hraise by done. destruct (reset_moves
      (set_pending c1 LINK_ALARM Invalid (LinkField field)) true) as (?&?&?&?); [cbn [namsg amsg set_pending]; by rewrite E3|].
    cbn [namsg amsg set_pending] in *. split_and!; congruence. }
  destruct (reset_moves c1 false) as (?&?&?&?); [by rewrite E3; destruct (namsg c1)|].
  destruct (reset_moves c2 true) as (?&?&?&?); [by rewrite E4, E5|].
  subst once twice. unfold cycle. cbn [foldl].
  assert (amsg (rec_gbl_reset_alarms c1).2 = Absent) as -> by congruence.
  assert (amsg (rec_gbl_reset_alarms c2).2 = LinkField field) as -> by congruence.
  split_and!; done || congruence.
Qed.

Lemma message_outlives_a_repeated_alarm_witness :
  let c0 := quiet NoAlarm 0 Absent NoAlarm true in
  render (amsg c0) <> render (LinkField "SIOL") /\
  render (amsg (cycle (cycle (cycle c0 [LinkFailed "SIOL"]).2 [LinkFailed "SIOL"]).2 []).2)
  = "field SIOL"%string.
Proof.
  assert (render (amsg (quiet NoAlarm 0 Absent NoAlarm true)) <> render (LinkField "SIOL"))
    as Hd by done.
  split; [done|].
  apply (message_outlives_a_repeated_alarm (quiet NoAlarm 0 Absent NoAlarm true) "SIOL"
           eq_refl eq_refl eq_refl I Hd).
Defined.

(** *** Acknowledgement *)

Lemma run_raise_fixed c op :
  ackt (run_raise c op) = ackt c /\ acks (run_raise c op) = acks c /\
  sevr (run_raise c op) = sevr c /\ stat (run_raise c op) = stat c /\
  amsg (run_raise c op) = amsg c.
Proof.
  destruct op as [| | |f|e s m|[] src]; cbn [run_raise];
    unfold rec_gbl_set_link_alarm, rec_gbl_check_udf, inherit_sevr_msg,
      rec_gbl_set_sevr_msg, rec_gbl_set_sevr; simpl; repeat case_goal; simplify_eq/=; auto.
Qed.

Lemma raises_fixed c ops :
  ackt (foldl run_raise c ops) = ackt c /\ acks (foldl run_raise c ops) = acks c /\
  sevr (foldl run_raise c ops) = sevr c /\ stat (foldl run_raise c ops) = stat c /\
  amsg (foldl run_raise c ops) = amsg c.
Proof.
  revert c. induction ops as [|op ops IH]; intros c; [done|]. cbn [foldl].
  destruct (IH (run_raise c op)) as (-> & -> & -> & -> & ->). apply run_raise_fixed.
Qed.

(** One commit, seen by the acknowledgement state. *)
Lemma reset_acks c :
  let '(r, c') := rec_gbl_reset_alarms c in
  ackt c' = ackt c /\ sevr c' = nsev c /\
  acks c' = (if (alarm_changed r || amsg_changed r)
                && (negb (ackt c) || (sevr_u16 (acks c) <=? sevr_u16 (nsev c)))
             then nsev c else acks c) /\
  (alarm_changed r = false -> nsev c = sevr c /\ nsta c = stat c).
Proof.
  reset_cases c. split_and!; try done. rewrite changed_spec. intros H.
  apply bool_decide_eq_false in H. apply dec_stable in H. naive_solver.
Qed.

Lemma cycle_acks c ops :
  let '(r, c') := cycle c ops in
  ackt c' = ackt c /\
  (sevr_u16 (sevr c) <= sevr_u16 (acks c) \/ alarm_changed r || amsg_changed r = true ->
   sevr_u16 (acks c')
   = if ackt c then Z.max (sevr_u16 (acks c)) (sevr_u16 (sevr c'))
     else if alarm_changed r || amsg_changed r then sevr_u16 (sevr c')
     else sevr_u16 (acks c)) /\
  (alarm_changed r || amsg_changed r = false -> sevr c' = sevr c).
Proof.
  unfold cycle. destruct (raises_fixed c ops) as (Ha & Hk & Hs & Ht & _).
  pose proof (reset_acks (foldl run_raise c ops)) as H.
  destruct (rec_gbl_reset_alarms _) as [r c']. destruct H as (-> & Hv & -> & Hu).
  rewrite Ha, Hk, Hs, Ht, <- Hv in *.
  split_and!; [done| |intros [H _]%orb_false_elim; by destruct (Hu H)].
  intros Hor. destruct (alarm_changed r || amsg_changed r) eqn:Ec; cbn [andb orb].
  - destruct (ackt c); cbn [negb orb]; [|done]. case_goal; zbool; lia.
  - destruct (ackt c); [|done]. apply orb_false_elim in Ec as [? _].
    assert (sevr c' = sevr c) as -> by (by apply Hu). destruct Hor; [lia|done].
Qed.

Definition run_cycles (c : CommonFields) (cs : list (list RaiseOp)) : CommonFields :=
  foldl (fun c ops => (cycle c ops).2) c cs.

(** The severities a run commits, one per cycle. *)
Fixpoint committed (c : CommonFields) (cs : list (list RaiseOp)) : list AlarmSeverity :=
  match cs with
  | [] => []
  | ops :: cs => sevr (cycle c ops).2 :: committed (cycle c ops).2 cs
  end.

(** While transient alarms must be acknowledged (ACKT) and none has been, the
    unacknowledged severity ACKS is the highest severity ever committed. *)
Theorem acks_is_the_highest_severity (c : CommonFields) (cs : list (list RaiseOp)) :
  ackt c = true -> sevr_u16 (sevr c) <= sevr_u16 (acks c) ->
  sevr_u16 (acks (run_cycles c cs))
  = foldl Z.max (sevr_u16 (acks c)) (sevr_u16 <$> committed c cs).
Proof.
  revert c. induction cs as [|ops cs IH]; intros c Ht Hle; [done|].
  cbn [run_cycles foldl committed fmap list_fmap].
  pose proof (cycle_acks c ops) as H. destruct (cycle c ops) as [r c'] eqn:E.
  destruct H as (Ht' & Hm & _). rewrite Ht in Hm. specialize (Hm (or_introl Hle)).
  cbn [snd]. fold (run_cycles c' cs). rewrite IH by (congruence || lia). by rewrite Hm.
Qed.

Lemma acks_is_the_highest_severity_witness :
  sevr_u16 (acks (run_cycles (quiet NoAlarm 0 Absent NoAlarm true)
    [[SetSevr HIGH_ALARM Minor]; [LinkFailed "INP"]; []])) = 3.
Proof.
  rewrite (acks_is_the_highest_severity (quiet NoAlarm 0 Absent NoAlarm true));
    [by vm_compute|done|by vm_compute].
Defined.

(** What the rest of the system does to the acknowledgement state. *)
Inductive AckEvent : Type :=
| Process (ops : list RaiseOp)
| PutAckt (value : Z).

Definition ack_step (c : CommonFields) (e : AckEvent) : CommonFields :=
  match e with
  | Process ops => (cycle c ops).2
  | PutAckt v => (put_ackt_in c v).1
  end.

Lemma ack_step_covers c e :
  sevr_u16 (sevr c) <= sevr_u16 (acks c) ->
  sevr_u16 (sevr (ack_step c e)) <= sevr_u16 (acks (ack_step c e)).
Proof.
  intros Hle. destruct e as [ops|v]; cbn [ack_step].
  - pose proof (cycle_acks c ops) as H. destruct (cycle c ops) as [r c'].
    destruct H as (_ & Hm & Hs). cbn [snd]. rewrite Hm by auto.
    destruct (ackt c); [lia|]. case_goal; [lia|]. by rewrite Hs.
  - unfold put_ackt_in. repeat case_goal; cbn; zbool; lia.
Qed.

(** Once an alarm field has moved in a cycle, no sequence of cycles and ACKT puts
    leaves the record at a severity above its unacknowledged one: only an
    acknowledgement can, whatever it acknowledged before. *)
Theorem change_rearms_acknowledgement (c : CommonFields) (ops : list RaiseOp)
    (es : list AckEvent) :
  let '(r, c') := cycle c ops in
  alarm_changed r || amsg_changed r = true ->
  let c'' := foldl ack_step c' es in
  sevr_u16 (sevr c'') <= sevr_u16 (acks c'').
Proof.
  pose proof (cycle_acks c ops) as H. destruct (cycle c ops) as [r c'].
  destruct H as (_ & Hm & _). intros Hc. specialize (Hm (or_intror Hc)). rewrite Hc in Hm.
  assert (sevr_u16 (sevr c') <= sevr_u16 (acks c')) as Hle by (destruct (ackt c); lia).
  clear Hm Hc. revert c' Hle. induction es as [|e es IH]; intros c' Hle; [done|].
  apply IH. by apply ack_step_covers.
Qed.

Lemma change_rearms_acknowledgement_witness :
  let c0 := (put_acks_in (quiet Major LINK_ALARM Absent Major true) 2).1 in
  acks c0 = NoAlarm /\
  let c := foldl ack_step (cycle c0 [SetSevr HIGH_ALARM Minor]).2 [Process []; PutAckt 0] in
  sevr_u16 (sevr c) <= sevr_u16 (acks c).
Proof.
  split; [done|].
  pose proof (change_rearms_acknowledgement
    (put_acks_in (quiet Major LINK_ALARM Absent Major true) 2).1
    [SetSevr HIGH_ALARM Minor] [Process []; PutAckt 0]) as H.
  vm_compute in H. vm_compute. exact (H eq_refl).
Defined.

(** ** Posting *)

Definition mask_union (ms : list EventMask) : EventMask := foldr mask_or MASK_NONE ms.

(** The masks a commit posts are those of the fields that moved. *)
Lemma posts_of_reset c :
  let '(r, c') := rec_gbl_reset_alarms c in
  let p := alarm_field_posts c' r in
  let sv := negb (bool_decide (nsev c = sevr c)) in
  let st := negb (nsta c =? stat c) in
  let am := negb (text_eqb (namsg c) (amsg c)) in
  p = mkPosts sv
        (mkEventMask ((if sv || am then 4 else 0) + (if st then 1 else 0)))
        (acks_posted r).
Proof.
  reset_cases c. unfold alarm_field_posts; cbn.
  repeat case_goal; done.
Qed.

(** The alarm fields a commit posts are a subsequence of SEVR, STAT, AMSG, ACKS in
    that order, SEVR exactly when the severity moved and STAT with AMSG exactly when
    any of severity, status or message did; ACKS is never posted alone; and the
    summary mask is the union of the posts' masks, empty exactly when nothing posts. *)
Theorem alarm_posts_match_changes (c : CommonFields) :
  let '(r, c') := rec_gbl_reset_alarms c in
  let p := alarm_field_posts c' r in
  let posted f := bool_decide (f ∈ (posts_to_vec p).*1) in
  (posts_to_vec p).*1 `sublist_of` RECGBL_POSTED_ALARM_FIELDS /\
  posted "SEVR"%string = negb (bool_decide (sevr c' = sevr c)) /\
  posted "STAT"%string = alarm_changed r || amsg_changed r /\
  posted "AMSG"%string = posted "STAT"%string /\
  (posted "ACKS"%string = true -> posted "STAT"%string = true) /\
  posts_mask p = mask_union (posts_to_vec p).*2 /\
  mask_is_empty (posts_mask p) = bool_decide (posts_to_vec p = []) /\
  reset_mask p = if posted "STAT"%string then MASK_ALARM else MASK_NONE.
Proof.
  pose proof (posts_of_reset c) as Hp. reset_cases c. rewrite Hp. clear Hp.
  destruct (bool_decide (nsev c = sevr c)), (nsta c =? stat c),
    (text_eqb (namsg c) (amsg c)), (ackt c), (_ <=? _); cbn [negb andb orb];
    (split; [repeat (apply sublist_skip || apply sublist_cons || apply sublist_nil)|]);
    vm_compute; by split_and!.
Qed.

(** ** The limit ladder *)

Definition is_i64 (z : Z) : Prop := - 2 ^ 63 <= z < 2 ^ 63.
Definition is_i16 (z : Z) : Prop := - 2 ^ 15 <= z < 2 ^ 15.

Lemma i128_sub_exact a b : is_i64 a -> is_i64 b -> num_sub a b = a - b.
Proof. unfold is_i64. intros. apply swrap_small; lia. Qed.

Lemma i128_add_exact a b : is_i64 a -> is_i64 b -> num_add a b = a + b.
Proof. unfold is_i64. intros. apply swrap_small; lia. Qed.

(** The levels in the order they are tried: code, enabling severity, and whether the
    value is past the limit, or within [hyst] of it while latched there. *)
Definition past_above (lim h lat v : Z) : Prop := lim <= v \/ lat = lim /\ lim - h <= v.
Definition past_below (lim h lat v : Z) : Prop := v <= lim \/ lat = lim /\ v <= lim + h.
Definition levels (cfg : AnalogAlarmConfig) (l : quad Z) (h lat v : Z)
  : list (Z * Z * Prop) :=
  [(5, hhsv cfg, past_above (q_hihi l) h lat v);
   (1, llsv cfg, past_below (q_lolo l) h lat v);
   (4, hsv cfg, past_above (q_high l) h lat v);
   (2, lsv cfg, past_below (q_low l) h lat v)].

Definition fires (lv : Z * Z * Prop) : Prop := lv.1.2 <> 0 /\ lv.2.

(** [rng] is the code of the first level that fires, 3 when none does. *)
Inductive first_fired : list (Z * Z * Prop) -> Z -> Prop :=
| none_fired : first_fired [] 3
| this_fired lv ls : fires lv -> first_fired (lv :: ls) lv.1.1
| later_fired lv ls rng : ~ fires lv -> first_fired ls rng -> first_fired (lv :: ls) rng.

Lemma above_dec lim h lat v :
  is_i64 lim -> is_i64 h ->
  (num_ge v lim || (num_eq lat lim && num_ge v (num_sub lim h)))%bool = true
  <-> past_above lim h lat v.
Proof.
  intros. rewrite i128_sub_exact by done. unfold past_above, num_ge, num_eq, LadderNum_i128.
  rewrite orb_true_iff, andb_true_iff, !Z.geb_leb, !Z.leb_le, Z.eqb_eq. done.
Qed.

Lemma below_dec lim h lat v :
  is_i64 lim -> is_i64 h ->
  (num_le v lim || (num_eq lat lim && num_le v (num_add lim h)))%bool = true
  <-> past_below lim h lat v.
Proof.
  intros. rewrite i128_add_exact by done. unfold past_below, num_le, num_eq, LadderNum_i128.
  rewrite orb_true_iff, andb_true_iff, !Z.leb_le, Z.eqb_eq. done.
Qed.

Lemma level_step code sev (b : bool) (P : Prop) ls (rest : Z) :
  (b = true <-> P) -> first_fired ls rest ->
  first_fired ((code, sev, P) :: ls) (if (negb (sev =? 0) && b)%bool then code else rest).
Proof.
  intros HP Hr. destruct (Z.eqb_spec sev 0); cbn [negb andb].
  - apply later_fired; [|done]. unfold fires. simpl. tauto.
  - destruct b.
    + apply (this_fired (code, sev, P)). split; [done|]. by apply HP.
    + apply later_fired; [|done]. unfold fires. simpl. intros [_ H]. by apply HP in H.
Qed.

(** The limits, as integers, of a config whose record is [DBF_LONG] or [DBF_INT64]. *)
Definition int_limits (cfg : AnalogAlarmConfig) : option (quad Z) :=
  match limits cfg with
  | LadderLong l => Some l
  | LadderInt64 l => Some l
  | LadderDouble _ => None
  end.
Definition quad_i64 (l : quad Z) : Prop :=
  is_i64 (q_hihi l) /\ is_i64 (q_lolo l) /\ is_i64 (q_high l) /\ is_i64 (q_low l).

Lemma int_ladder_levels cfg l h lat v :
  quad_i64 l -> is_i64 h ->
  first_fired (levels cfg l h lat v) (analog_alarm_range v h lat l (config_sevs cfg)).
Proof.
  intros (? & ? & ? & ?) ?. unfold levels, analog_alarm_range, config_sevs.
  cbn [q_hihi q_lolo q_high q_low].
  apply level_step; [by apply above_dec|]. apply level_step; [by apply below_dec|].
  apply level_step; [by apply above_dec|]. apply level_step; [by apply below_dec|].
  constructor.
Qed.

(** For an integer record the range is the first enabled level, tried in the order
    HIHI, LOLO, HIGH, LOW, whose limit the value is past, or is within HYST of while
    latched on it; 64-bit limits, hysteresis and values are compared exactly, with no
    overflow. *)
Theorem integer_range_is_first_level (cfg : AnalogAlarmConfig) (l : quad Z)
    (v lat h : Z) (common_hyst : f64) :
  int_limits cfg = Some l -> quad_i64 l -> is_i64 h ->
  first_fired (levels cfg l h lat v)
    (range cfg (LInt64 v) (Some (LInt64 h)) (LInt64 lat) common_hyst).
Proof.
  intros Hl Hq Hh. unfold range. case_goal.
  - zbool. unfold config_sevs in *. cbn in *.
    do 4 (apply later_fired; [unfold fires; simpl; tauto|]). constructor.
  - cbn [limit_i128 from_option]. unfold int_limits in Hl.
    destruct (limits cfg); simplify_eq; by apply int_ladder_levels.
Qed.

Lemma integer_range_is_first_level_witness :
  let l := mkQuad 9007199254740993 (-10) 5 (-5) in
  let cfg := mkConfig (LadderInt64 l) 2 1 1 2 in
  first_fired (levels cfg l 0 0 9007199254740992)
    (range cfg (LInt64 9007199254740992) (Some (LInt64 0)) (LInt64 0) f64_zero) /\
  range cfg (LInt64 9007199254740992) (Some (LInt64 0)) (LInt64 0) f64_zero = 4.
Proof.
  split; [|by vm_compute].
  apply integer_range_is_first_level; [done| |]; unfold quad_i64, is_i64; simpl; lia.
Defined.

(** An undefined (NaN) value fires no level, whatever the limits, the latch and the
    severities. *)
Theorem nan_fires_no_level (cfg : AnalogAlarmConfig) (h : option AlarmLimit)
    (lat : AlarmLimit) (common_hyst : f64) :
  range cfg (LDouble S754_nan) h lat common_hyst = 3.
Proof.
  unfold range. case_goal; [done|]. unfold analog_alarm_range, num_ge, num_le, LadderNum_f64.
  rewrite !f64_geb_nan_l, !f64_leb_nan_l, !andb_false_r. done.
Qed.

(** *** Hysteresis over a run of cycles *)

(** A record type whose VAL and LALM are [DBF_INT64]: a store is read back. *)
Class Int64Record (R : Type) `{AnalogRecord R} := {
  set_val : R -> Z -> R;
  read_val r i v : analog_alarm_input r = Some i ->
    analog_alarm_input (set_val r v)
    = Some (mkInput (LInt64 v) (in_hyst i) (in_lalm i) (in_aftc i) (in_afvl i));
  read_lalm r i z : analog_alarm_input r = Some i ->
    analog_alarm_input (store_analog_lalm r (LInt64 z))
    = Some (mkInput (in_val i) (in_hyst i) (LInt64 z) (in_aftc i) (in_afvl i));
}.

(** The four cells alone are such a record. *)
#[export] Instance AnalogRecord_cells : AnalogRecord AnalogAlarmInput :=
  {| analog_alarm_input r := Some r;
     store_alarm_filter_value r v := mkInput (in_val r) (in_hyst r) (in_lalm r) (in_aftc r) v;
     store_analog_lalm r l := mkInput (in_val r) (in_hyst r) l (in_aftc r) (in_afvl r);
     udf_alarm_on_exact_one _ := false |}.
#[export] Program Instance Int64Record_cells : Int64Record AnalogAlarmInput :=
  {| set_val r v := mkInput (LInt64 v) (in_hyst r) (in_lalm r) (in_aftc r) (in_afvl r) |}.
Next Obligation. naive_solver. Qed.
Next Obligation. naive_solver. Qed.

Section Hysteresis.
Context {R : Type} `{Int64Record R}.

(** One process cycle: the new value, the ladder, the commit. *)
Definition ladder_cycle (r : R) (c : CommonFields) (v : Z) : R * CommonFields :=
  let '(r, c) := analog_alarm_ladder (set_val r v) c in
  let '(_, c) := rec_gbl_reset_alarms c in (r, c).

Fixpoint ladder_run (r : R) (c : CommonFields) (vs : list Z) : list AlarmSeverity :=
  match vs with
  | [] => []
  | v :: vs => let '(r, c) := ladder_cycle r c v in sevr c :: ladder_run r c vs
  end.

(** A Schmitt trigger: on at [lim], off again only below [lim - h]. *)
Fixpoint schmitt (lim h : Z) (on : bool) (vs : list Z) : list bool :=
  match vs with
  | [] => []
  | v :: vs =>
      let on := (lim <=? v) || (on && (lim - h <=? v)) in
      on :: schmitt lim h on vs
  end.

(** A record with HIHI alone enabled, unfiltered, defined, between cycles. *)
Record hihi_ready (lim h sev : Z) (on : bool) (r : R) (c : CommonFields) : Prop := {
  hr_cfg : exists l, analog_alarm c = Some (mkConfig (LadderInt64 l) sev 0 0 0)
                     /\ q_hihi l = lim;
  hr_udf : udf c = 0;
  hr_nsev : nsev c = NoAlarm;
  hr_input : exists i z, analog_alarm_input r = Some i /\ in_hyst i = Some (LInt64 h) /\
    in_lalm i = LInt64 z /\ (z = lim <-> on = true) /\
    f64_gtb (in_aftc i) f64_zero = false /\ f64_eqb (in_afvl i) f64_zero = true;
}.

Lemma reset_keeps c :
  let '(_, c') := rec_gbl_reset_alarms c in
  nsev c' = NoAlarm /\ sevr c' = nsev c /\ udf c' = udf c /\ analog_alarm c' = analog_alarm c.
Proof. reset_cases c. done. Qed.

Lemma wrap16_sevr sev : is_i16 sev -> sev <> 0 -> sevr_from_u16 (wrap 16 sev) <> NoAlarm.
Proof.
  unfold is_i16, wrap, sevr_from_u16. intros ? Hne E.
  destruct (Z.eqb_spec (sev mod 2 ^ 16) 0) as [Hz|]; [|repeat case_match; done].
  change (2 ^ 16) with 65536 in *. divlia.
Qed.

Lemma hihi_range lim h sev lat v l ch :
  sev <> 0 -> q_hihi l = lim -> is_i64 lim -> is_i64 h ->
  range (mkConfig (LadderInt64 l) sev 0 0 0) (LInt64 v) (Some (LInt64 h)) (LInt64 lat) ch
  = if (lim <=? v) || ((lat =? lim) && (lim - h <=? v)) then 5 else 3.
Proof.
  intros Hs <- ? ?. unfold range, config_sevs, analog_alarm_range.
  cbn [limits hhsv hsv lsv llsv q_hihi q_lolo q_high q_low limit_i128 from_option].
  apply Z.eqb_neq in Hs. rewrite Hs. cbn [andb negb Z.eqb].
  rewrite i128_sub_exact by done. cbn [num_ge num_eq LadderNum_i128].
  by rewrite !Z.geb_leb.
Qed.

(** The ladder of a defined record with no filter. *)
Lemma unfiltered_ladder (r : R) (c : CommonFields) cfg i :
  analog_alarm c = Some cfg -> analog_alarm_input r = Some i -> udf c = 0 ->
  f64_gtb (in_aftc i) f64_zero = false -> f64_eqb (in_afvl i) f64_zero = true ->
  analog_alarm_ladder r c =
    let '(sv, st, alev) := resolve cfg (range cfg (in_val i) (in_hyst i) (in_lalm i) (hyst c)) in
    if decide (sv = NoAlarm) then (store_analog_lalm r (in_val i), c)
    else let '(raised, c') := rec_gbl_set_sevr c st sv in
         if raised then (store_analog_lalm r (default (in_val i) alev), c') else (r, c').
Proof.
  intros Hc Hi Hu Ha Hf. unfold analog_alarm_ladder. rewrite Hc, Hi, Hu, Ha, Hf.
  by destruct (udf_alarm_on_exact_one r).
Qed.

Lemma resolve_5 l sev :
  resolve (mkConfig (LadderInt64 l) sev 0 0 0) 5
  = (sevr_from_u16 (wrap 16 sev), HIHI_ALARM, Some (LInt64 (q_hihi l))).
Proof. done. Qed.

Lemma resolve_3 cfg : resolve cfg 3 = (NoAlarm, NO_ALARM, None).
Proof. done. Qed.

Lemma set_sevr_from_quiet c st sv :
  nsev c = NoAlarm -> sv <> NoAlarm ->
  rec_gbl_set_sevr c st sv = (true, set_pending c st sv Absent).
Proof. intros Hn Hs. unfold rec_gbl_set_sevr. rewrite Hn. by destruct sv. Qed.

Lemma hihi_ladder lim h sev on r c v :
  is_i64 lim -> is_i64 h -> is_i16 sev -> sev <> 0 -> hihi_ready lim h sev on r c ->
  let on' := (lim <=? v) || (on && (lim - h <=? v)) in
  analog_alarm_ladder (set_val r v) c =
    if on' then (store_analog_lalm (set_val r v) (LInt64 lim),
                 set_pending c HIHI_ALARM (sevr_from_u16 (wrap 16 sev)) Absent)
    else (store_analog_lalm (set_val r v) (LInt64 v), c).
Proof.
  intros Hl Hh Hs Hne [(l & Hcfg & Hq) Hu Hn (i & z & Hi & Hy & Hz & Hon & Ha & Hf)] on'.
  rewrite (unfiltered_ladder _ _ _ _ Hcfg (read_val _ _ v Hi) Hu Ha Hf).
  cbn [in_val in_hyst in_lalm]. rewrite Hy, Hz, (hihi_range lim h sev z v l) by done.
  assert ((z =? lim) = on) as -> by (apply eq_true_iff_eq; by rewrite Z.eqb_eq).
  fold on'. pose proof (wrap16_sevr sev Hs Hne). destruct on'.
  - rewrite resolve_5, decide_False, set_sevr_from_quiet, Hq by done. done.
  - rewrite resolve_3. done.
Qed.

Lemma hihi_ready_after lim h sev on on' r c r0 c0 i z v :
  hihi_ready lim h sev on r0 c0 -> analog_alarm c = analog_alarm c0 -> udf c = udf c0 ->
  nsev c = NoAlarm -> analog_alarm_input r0 = Some i ->
  analog_alarm_input r
    = Some (mkInput (LInt64 v) (in_hyst i) (LInt64 z) (in_aftc i) (in_afvl i)) ->
  (z = lim <-> on' = true) -> hihi_ready lim h sev on' r c.
Proof.
  intros [Hc Hu _ (i' & z' & Hi' & Hy & _ & _ & Ha & Hf)] Ec Eu En Hi Hr Hz.
  assert (i' = i) as -> by congruence.
  split; [by rewrite Ec|by rewrite Eu|done|]. eexists _, z. by split_and!.
Qed.

(** One cycle is one step of the trigger. *)
Lemma hihi_cycle lim h sev on on' r c v :
  is_i64 lim -> is_i64 h -> is_i16 sev -> sev <> 0 -> hihi_ready lim h sev on r c ->
  on' = (lim <=? v) || (on && (lim - h <=? v)) ->
  let '(r', c') := ladder_cycle r c v in
  sevr c' = (if on' then sevr_from_u16 (wrap 16 sev) else NoAlarm) /\
  hihi_ready lim h sev on' r' c'.
Proof.
  intros Hl Hh Hs Hne Hr Eon. unfold ladder_cycle.
  rewrite (hihi_ladder lim h sev on r c v Hl Hh Hs Hne Hr), <- Eon.
  pose proof (hr_nsev _ _ _ _ _ _ Hr) as Hn.
  pose proof (hr_input _ _ _ _ _ _ Hr) as (i & z & Hi & _).
  destruct on'; [set (c0 := set_pending _ _ _ _)|set (c0 := c)];
    pose proof (reset_keeps c0) as Hk; destruct (rec_gbl_reset_alarms c0) as [? c'];
    destruct Hk as (R1 & R2 & R3 & R4).
  - split; [by rewrite R2|].
    eapply hihi_ready_after;
      [exact Hr|done|done|done|exact Hi|exact (read_lalm _ _ lim (read_val _ _ v Hi))|done].
  - split; [by rewrite R2|].
    eapply hihi_ready_after;
      [exact Hr|done|done|done|exact Hi|exact (read_lalm _ _ v (read_val _ _ v Hi))|].
    symmetry in Eon. apply orb_false_elim in Eon as [E _]. zbool. lia.
Qed.

(** C40: with HIHI alone enabled, the alarm filter AFTC off, UDF clear and no alarm pending,
    the severities an [int64] record commits over any run of values are those of a Schmitt
    trigger that switches on at HIHI and off below HIHI - HYST. *)
Theorem hihi_alarm_is_a_schmitt_trigger (lim h sev : Z) (on : bool) (r : R)
    (c : CommonFields) (vs : list Z) :
  is_i64 lim -> is_i64 h -> is_i16 sev -> sev <> 0 -> hihi_ready lim h sev on r c ->
  ladder_run r c vs
  = (fun on => if on : bool then sevr_from_u16 (wrap 16 sev) else NoAlarm)
      <$> schmitt lim h on vs.
Proof.
  intros Hl Hh Hs Hne. revert on r c.
  induction vs as [|v vs IH]; intros on r c Hr; [done|].
  pose proof (hihi_cycle lim h sev on _ r c v Hl Hh Hs Hne Hr eq_refl) as Hc.
  cbn [ladder_run schmitt fmap list_fmap].
  destruct (ladder_cycle r c v) as [r' c']. destruct Hc as [-> Hr'].
  f_equal. by apply IH.
Qed.
End Hysteresis.

Definition demo_cells : AnalogAlarmInput :=
  mkInput (LInt64 0) (Some (LInt64 2)) (LInt64 0) f64_zero f64_zero.
Definition demo_hihi : CommonFields :=
  mkCommon f64_zero NoAlarm 3 true NoAlarm 0 NoAlarm 0 0
    (Some (mkConfig (LadderInt64 (mkQuad 10 0 0 0)) 2 0 0 0)) Absent Absent 0 0.

Lemma hihi_alarm_is_a_schmitt_trigger_witness :
  ladder_run demo_cells demo_hihi [9; 10; 9; 8; 7; 9] = [NoAlarm; Major; Major; Major; NoAlarm; NoAlarm].
Proof.
  rewrite (hihi_alarm_is_a_schmitt_trigger 10 2 2 false demo_cells demo_hihi);
    [by vm_compute|unfold is_i64; lia|unfold is_i64; lia|unfold is_i16; lia|lia|].
  split; [by eexists|done|done|]. eexists _, 0. split_and!; try done.
Defined.

(** ** Out-of-range raw severities *)

(** Of two raises in one cycle with the same out-of-range raw severity, the later
    one wins, because the first is stored clamped: with ZSV and COSV both 4 a bo
    record that changes state reports COS, not STATE. *)
Theorem raw_severity_tie_goes_to_the_later (c : CommonFields) (st1 st2 raw : Z) :
  3 < raw ->
  let c' := (rec_gbl_set_sevr_raw (rec_gbl_set_sevr_raw c st1 raw).2 st2 raw).2 in
  nsta c' = st2 /\ nsev c' = Invalid.
Proof.
  intros Hr. assert (sevr_from_u16 raw = Invalid) as Hi
    by (unfold sevr_from_u16; repeat (case_goal; zbool; try lia); done).
  unfold rec_gbl_set_sevr_raw. rewrite Hi.
  assert (forall s, (sevr_u16 s <? raw) = true) as Hlt
    by (intros s; apply Z.ltb_lt; pose proof (sevr_u16_range s); lia).
  rewrite !Hlt. cbn. done.
Qed.

Lemma raw_severity_tie_goes_to_the_later_witness :
  3 < 4 /\
  nsta (rec_gbl_set_sevr_raw
          (rec_gbl_set_sevr_raw (quiet NoAlarm 0 Absent NoAlarm true) STATE_ALARM 4).2
          COS_ALARM 4).2 = COS_ALARM.
Proof.
  split; [lia|].
  apply (raw_severity_tie_goes_to_the_later (quiet NoAlarm 0 Absent NoAlarm true)). lia.
Defined.
