(* ===== verification/EventQueue.v ===== *)
(** * The monitor event queue

    Models [epics-base-rs/src/server/event_queue.rs]: one ring shared by the
    subscriptions attached to it ([QueInner]), and the per-circuit chain of such
    queues with its flow-control flag and owed replies ([EventUser]).  Every operation
    runs under the queue's lock in the source, so each is one function on the state.

    What a log carries is opaque to the queue ([LogTypes]).  Ring and slab indices and
    counters are natural numbers: the ring has at most 4 * 65535 entries, and the
    64-bit counters do not wrap within any run.  Parked wakers are not state here;
    where the source would panic on an empty slot a lookup answers [None], and the
    invariant excludes it. *)
From stdpp Require Import base tactics numbers list option.
From S2P Require Import Prelude Alarm.

Open Scope Z_scope.
Open Scope nat_scope.

(** What the queue stores and never inspects. *)
Class LogTypes := {
  NativeValue : Type;
  EpicsValue : Type;
  LogHead : Type;
  DeliveryContext : Type;
}.

Definition EVENT_ENTRIES : nat := 4.
Definition MAX_EVENTS_PER_QUE : nat := Z.to_nat 65535.

(** The environment variable, already trimmed and parsed: unset, unparsable, or a number. *)
Inductive EnvNumber : Type := Unset | Unparsable | Number (n : nat).

Definition events_per_que_from (raw : EnvNumber) : nat :=
  match raw with
  | Unset => 36
  | Unparsable => 36
  | Number n =>
      if n <? EVENT_ENTRIES then EVENT_ENTRIES
      else if MAX_EVENTS_PER_QUE <? n then MAX_EVENTS_PER_QUE
      else n
  end.

(** ** Handles *)

Record AttachId : Type := mkAttachId { attach_bits : Z }.

#[export] Instance AttachId_eq_dec : EqDecision AttachId.
Proof. solve_decision. Defined.

Definition SLOT_BITS : Z := 16.
Definition AttachId_new (generation : Z) (slot : nat) : AttachId :=
  mkAttachId (Z.lor (wrap 64 (Z.shiftl generation SLOT_BITS)) (Z.of_nat slot)).
Definition slot (id : AttachId) : nat := Z.to_nat (wrap 16 (attach_bits id)).

Inductive LogKind : Type := KVal | KRef.

#[export] Instance LogKind_eq_dec : EqDecision LogKind.
Proof. solve_decision. Defined.

Inductive PostOutcome : Type :=
| Appended (first_event : bool)
| Replaced
| Collapsed
| Closed.

#[export] Instance PostOutcome_eq_dec : EqDecision PostOutcome.
Proof. solve_decision. Defined.

Inductive TryRecvError : Type := Empty | Disconnected.

Section Queue.
Context `{LogTypes}.

(** ** Logs *)

Inductive LogData : Type :=
| Val (v : NativeValue)
| Ref
| OwnedCopy (v : EpicsValue).

Definition is_ref (d : LogData) : bool := match d with Ref => true | _ => false end.

Record PostLog : Type := mkLog {
  log_head : LogHead;
  log_mask : EventMask;
  log_value : LogData;
}.

(** [LogSource::drop_val]: a copied scalar becomes a reference. *)
Definition drop_val (l : PostLog) : PostLog :=
  match log_value l with
  | Val _ => mkLog (log_head l) (log_mask l) Ref
  | _ => l
  end.

(** [LogSource::into_log_or] and [PostLog::set_mask_or]. *)
Definition into_log_or (l : PostLog) (also : EventMask) : PostLog :=
  mkLog (log_head l) (mask_or (log_mask l) also) (log_value l).

(** ** Subscriptions *)

Record SubQ : Type := mkSub {
  sub_id : AttachId;
  sub_sid : Z;
  kind : LogKind;
  npend : nat;
  last : nat;
  nreplace : nat;
  ncollapse : nat;
  gone : Z;
  end_reported : bool;
  context : DeliveryContext;
}.

Definition PRODUCER_GONE : Z := 1.
Definition READER_GONE : Z := 2.
Definition producer_gone (s : SubQ) : bool := negb (Z.land (gone s) PRODUCER_GONE =? 0)%Z.
Definition reader_gone (s : SubQ) : bool := negb (Z.land (gone s) READER_GONE =? 0)%Z.

Definition SubQ_new (id : AttachId) (sid : Z) (k : LogKind) (ctx : DeliveryContext) : SubQ :=
  mkSub id sid k 0 0 0 0 0 false ctx.

Definition set_npend_last (s : SubQ) (n l : nat) : SubQ :=
  mkSub (sub_id s) (sub_sid s) (kind s) n l (nreplace s) (ncollapse s) (gone s)
    (end_reported s) (context s).
Definition set_counters (s : SubQ) (r c : nat) : SubQ :=
  mkSub (sub_id s) (sub_sid s) (kind s) (npend s) (last s) r c (gone s)
    (end_reported s) (context s).
Definition set_gone (s : SubQ) (g : Z) (e : bool) : SubQ :=
  mkSub (sub_id s) (sub_sid s) (kind s) (npend s) (last s) (nreplace s) (ncollapse s) g
    e (context s).

(** ** The ring *)

Record Entry : Type := mkEntry { entry_id : AttachId; entry_log : PostLog }.

(** [wrap] of the source: ring index [i] for any [i < 2 * size]. *)
Definition ring_wrap (i size : nat) : nat := if size <=? i then i - size else i.

(** [free] lists the free slots, the next one to hand out first. *)
Record QueInner : Type := mkQue {
  ring : list (option Entry);
  getix : nat;
  used : nat;
  n_duplicates : nat;
  draining : bool;
  in_burst : bool;
  subs : list (option SubQ);
  free : list nat;
  quota : nat;
  qsize : nat;
  replace_threshold : nat;
  unreported_ends : nat;
  taken : nat;
}.

Definition EvQue_new (events_per_que : nat) : QueInner :=
  let size := EVENT_ENTRIES * events_per_que in
  let slots := size / EVENT_ENTRIES in
  mkQue (replicate size None) 0 0 0 false false (replicate slots None) (seq 0 slots)
    0 size events_per_que 0 0.

Definition sub (q : QueInner) (id : AttachId) : option SubQ :=
  match subs q !! slot id with
  | Some (Some s) => if decide (sub_id s = id) then Some s else None
  | _ => None
  end.

Definition put_sub (q : QueInner) (i : nat) (s : option SubQ) : QueInner :=
  mkQue (ring q) (getix q) (used q) (n_duplicates q) (draining q) (in_burst q)
    (<[i := s]> (subs q)) (free q) (quota q) (qsize q) (replace_threshold q)
    (unreported_ends q) (taken q).
Definition put_ring (q : QueInner) (r : list (option Entry)) : QueInner :=
  mkQue r (getix q) (used q) (n_duplicates q) (draining q) (in_burst q) (subs q) (free q)
    (quota q) (qsize q) (replace_threshold q) (unreported_ends q) (taken q).
Definition set_draining (q : QueInner) (d : bool) : QueInner :=
  mkQue (ring q) (getix q) (used q) (n_duplicates q) d (in_burst q) (subs q) (free q)
    (quota q) (qsize q) (replace_threshold q) (unreported_ends q) (taken q).

Definition ring_space (q : QueInner) : nat := qsize q - used q.
Definition ix (q : QueInner) (k : nat) : nat := ring_wrap (getix q + k) (qsize q).
Definition may_drain (q : QueInner) (flow_ctrl_on : bool) : bool :=
  draining q || negb flow_ctrl_on || (0 <? n_duplicates q).

(** The queue after the slot is freed, and what it held. *)
Definition free_slot (q : QueInner) (id : AttachId) : QueInner * list SubQ :=
  let s := mjoin (subs q !! slot id) in
  let unreported :=
    match s with
    | Some s => if producer_gone s && negb (end_reported s)
                then unreported_ends q - 1 else unreported_ends q
    | None => unreported_ends q
    end in
  (mkQue (ring q) (getix q) (used q) (n_duplicates q) (draining q) (in_burst q)
     (<[slot id := None]> (subs q)) (slot id :: free q) (quota q - EVENT_ENTRIES) (qsize q)
     (replace_threshold q) unreported (taken q),
   option_list s).

(** One entry of [id] leaves the ring; [true] when it is to be delivered. *)
Definition release (q : QueInner) (id : AttachId) : bool * QueInner * list SubQ :=
  match sub q id with
  | None => (false, q, [])
  | Some s =>
      let s := set_npend_last s (npend s - 1) (last s) in
      let q := put_sub q (slot id) (Some s) in
      let duplicate := 0 <? npend s in
      let gone := reader_gone s in
      let drained := npend s =? 0 in
      let q := mkQue (ring q) (getix q) (used q)
                 (if duplicate then n_duplicates q - 1 else n_duplicates q)
                 (draining q) (in_burst q) (subs q) (free q) (quota q) (qsize q)
                 (replace_threshold q) (unreported_ends q) (taken q) in
      if gone && drained
      then let '(q, retired) := free_slot q id in (negb gone, q, retired)
      else (negb gone, q, [])
  end.

(** Retire the head entry: the ring slot it sits in, its monitor, whether to deliver it. *)
Definition advance (q : QueInner) : option (nat * AttachId * bool * QueInner * list SubQ) :=
  if used q =? 0 then None else
  let at_ := getix q in
  match ring q !! at_ with
  | Some (Some e) =>
      let id := entry_id e in
      let q := mkQue (ring q) (ix q 1) (used q - 1) (n_duplicates q) (draining q) (in_burst q)
                 (subs q) (free q) (quota q) (qsize q) (replace_threshold q)
                 (unreported_ends q) (S (taken q)) in
      let '(live, q, retired) := release q id in
      Some (at_, id, live, set_draining q (0 <? used q), retired)
  | _ => None
  end.

(** What the circuit consumer takes. *)
Inductive CircuitEvent : Type :=
| Event (id : AttachId) (sid : Z) (ctx : DeliveryContext) (log : PostLog) (remaining : bool)
| Ended (id : AttachId)
| Reply (frame : list Z).

(** The drain loop, bounded by the entries it can retire. *)
Fixpoint take_oldest_loop (fuel : nat) (q : QueInner)
  : option CircuitEvent * QueInner * list SubQ :=
  match fuel with
  | O => (None, q, [])
  | S fuel =>
      match advance q with
      | None => (None, q, [])
      | Some (at_, id, live, q, retired) =>
          if negb live then
            let '(ev, q, more) := take_oldest_loop fuel (put_ring q (<[at_ := None]> (ring q))) in
            (ev, q, retired ++ more)
          else
            match sub q id, ring q !! at_ with
            | Some s, Some (Some e) =>
                (Some (Event id (sub_sid s) (context s) (entry_log e) (0 <? used q)),
                 put_ring q (<[at_ := None]> (ring q)), retired)
            | _, _ => (None, q, retired)
            end
      end
  end.

Definition take_oldest (q : QueInner) (flow_ctrl_on : bool)
  : option CircuitEvent * QueInner * list SubQ :=
  if (used q =? 0) || negb (may_drain q flow_ctrl_on) then (None, q, [])
  else take_oldest_loop (used q) (set_draining q true).

(** Drop a cancelled subscription's entries at the head. *)
Fixpoint drop_cancelled (fuel : nat) (q : QueInner) : QueInner * list SubQ :=
  match fuel with
  | O => (q, [])
  | S fuel =>
      if used q =? 0 then (q, []) else
      match mjoin (ring q !! getix q) with
      | None => (q, [])
      | Some e =>
          if match sub q (entry_id e) with Some s => negb (reader_gone s) | None => false end
          then (q, [])
          else
            match advance q with
            | None => (q, [])
            | Some (at_, _, _, q, retired) =>
                let '(q, more) := drop_cancelled fuel (put_ring q (<[at_ := None]> (ring q))) in
                (q, retired ++ more)
            end
      end
  end.

(** [slice::swap]. *)
Definition swap {A : Type} (l : list A) (a b : nat) : list A :=
  match l !! a, l !! b with
  | Some x, Some y => <[b := x]> (<[a := y]> l)
  | _, _ => l
  end.

(** Whether ring position [k] holds an entry of [id]. *)
Definition holds_at (q : QueInner) (id : AttachId) (k : nat) : bool :=
  match mjoin (ring q !! ix q k) with
  | Some e => bool_decide (entry_id e = id)
  | None => false
  end.

(** Move the entry at position [k] to the head, those before it one place down. *)
Definition rotate_to_head (q : QueInner) (k : nat) : QueInner :=
  let r := foldl (fun r j => swap r (ix q j) (ix q (j - 1))) (ring q) (reverse (seq 1 k)) in
  let shift (s : SubQ) :=
    if (0 <? npend s) && (ring_wrap (last s + qsize q - getix q) (qsize q) <? k)
    then set_npend_last s (npend s) (ring_wrap (last s + 1) (qsize q)) else s in
  mkQue r (getix q) (used q) (n_duplicates q) (draining q) (in_burst q)
    (option_map shift <$> subs q) (free q) (quota q) (qsize q) (replace_threshold q)
    (unreported_ends q) (taken q).

(** A monitor's own oldest entry. *)
Definition take_for (q : QueInner) (id : AttachId) : option PostLog * QueInner * list SubQ :=
  let '(q, retired) := drop_cancelled (used q) q in
  match List.find (holds_at q id) (seq 0 (used q)) with
  | None => (None, q, retired)
  | Some k =>
      let q := if 0 <? k then rotate_to_head q k else q in
      match advance q with
      | None => (None, q, retired)
      | Some (at_, _, _, q, more) =>
          (entry_log <$> mjoin (ring q !! at_), put_ring q (<[at_ := None]> (ring q)),
           retired ++ more)
      end
  end.

Definition ended (s : option SubQ) : bool :=
  match s with
  | Some s => producer_gone s && negb (end_reported s) && (npend s =? 0)
  | None => false
  end.

Definition take_ended (q : QueInner) : option CircuitEvent * QueInner :=
  if unreported_ends q =? 0 then (None, q) else
  match list_find ended (subs q) with
  | Some (i, Some s) =>
      (Some (Ended (sub_id s)),
       mkQue (ring q) (getix q) (used q) (n_duplicates q) (draining q) (in_burst q)
         (<[i := Some (set_gone s (gone s) true)]> (subs q)) (free q) (quota q) (qsize q)
         (replace_threshold q) (unreported_ends q - 1) (taken q))
  | _ => (None, q)
  end.

(** [QueInner::close_producer]; [false] for a detached handle. *)
Definition close_producer (q : QueInner) (id : AttachId) : bool * QueInner :=
  match sub q id with
  | None => (false, q)
  | Some s =>
      if negb (producer_gone s) then
        let q := put_sub q (slot id)
                   (Some (set_gone s (Z.lor (gone s) PRODUCER_GONE) (end_reported s))) in
        (true, mkQue (ring q) (getix q) (used q) (n_duplicates q) (draining q) (in_burst q)
                 (subs q) (free q) (quota q) (qsize q) (replace_threshold q)
                 (S (unreported_ends q)) (taken q))
      else (true, q)
  end.

(** [EvQue::close_reader]. *)
Definition close_reader (q : QueInner) (id : AttachId) : QueInner * list SubQ :=
  match sub q id with
  | None => (q, [])
  | Some s =>
      let q := put_sub q (slot id)
                 (Some (set_gone s (Z.lor (gone s) READER_GONE) (end_reported s))) in
      if npend s =? 0 then free_slot q id else (q, [])
  end.

Definition try_attach (q : QueInner) (generation sid : Z) (k : LogKind) (ctx : DeliveryContext)
  : option (AttachId * QueInner) :=
  if qsize q - EVENT_ENTRIES <=? quota q then None else
  match free q with
  | [] => None
  | sl :: fr =>
      let id := AttachId_new generation sl in
      Some (id,
        mkQue (ring q) (getix q) (used q) (n_duplicates q) (draining q) (in_burst q)
          (<[sl := Some (SubQ_new id sid k ctx)]> (subs q)) fr (quota q + EVENT_ENTRIES)
          (qsize q) (replace_threshold q) (unreported_ends q) (taken q))
  end.

(** [EvQue::post]: the outcome, the queue, and whether the burst must chain it. *)
Definition post (q : QueInner) (flow_on : bool) (id : AttachId) (log : PostLog)
  : PostOutcome * QueInner * bool :=
  match subs q !! slot id with
  | Some (Some s) =>
      if negb (bool_decide (sub_id s = id) && (gone s =? 0)%Z) then (Closed, q, false) else
      let log := if decide (kind s = KRef) then drop_val log else log in
      let newest := if 0 <? npend s then mjoin (ring q !! last s) else None in
      let append :=
        let at_ := ring_wrap (getix q + used q) (qsize q) in
        let first_event := ring_space q =? qsize q in
        let chain := first_event && negb (in_burst q) in
        (Appended first_event,
         mkQue (<[at_ := Some (mkEntry id (into_log_or log MASK_NONE))]> (ring q))
           (getix q) (S (used q))
           (if 0 <? npend s then S (n_duplicates q) else n_duplicates q) (draining q)
           (in_burst q || chain)
           (<[slot id := Some (set_npend_last s (S (npend s)) at_)]> (subs q)) (free q)
           (quota q) (qsize q) (replace_threshold q) (unreported_ends q) (taken q), chain) in
      match newest with
      | Some e =>
          if is_ref (log_value log) && is_ref (log_value (entry_log e)) then
            (Collapsed,
             put_sub
               (put_ring q (<[last s := Some (mkEntry (entry_id e)
                  (into_log_or (entry_log e) (log_mask log)))]> (ring q)))
               (slot id) (Some (set_counters s (nreplace s) (S (ncollapse s)))), false)
          else if flow_on || (ring_space q <=? replace_threshold q) then
            (Replaced,
             put_sub
               (put_ring q (<[last s := Some (mkEntry (entry_id e)
                  (into_log_or log (log_mask (entry_log e))))]> (ring q)))
               (slot id) (Some (set_counters s (S (nreplace s)) (ncollapse s))), false)
          else append
      | None => append
      end
  | _ => (Closed, q, false)
  end.

(** [EvQue::try_next]. *)
Definition try_next (q : QueInner) (flow_on : bool) (id : AttachId)
  : result TryRecvError PostLog * QueInner * list SubQ :=
  match sub q id with
  | None => (Err Disconnected, q, [])
  | Some s =>
      if npend s =? 0 then
        (Err (if producer_gone s then Disconnected else Empty), q, [])
      else if negb (may_drain q flow_on) then (Err Empty, q, [])
      else
        let '(log, q, retired) := take_for (set_draining q true) id in
        (ok_or log Empty, q, retired)
  end.

Definition refuses_posts (q : QueInner) (id : AttachId) : bool :=
  match sub q id with None => true | Some s => negb (gone s =? 0)%Z end.

(** [EvQue::poll_oldest]; [None] parks the consumer. *)
Definition poll_oldest (q : QueInner) (flow_on : bool)
  : option CircuitEvent * QueInner * list SubQ :=
  let '(ev, q, retired) := take_oldest q flow_on in
  match ev with
  | Some ev => (Some ev, q, retired)
  | None => let '(ev, q) := take_ended q in (ev, q, retired)
  end.
End Queue.
