(* ===== verification/EventQueueTheory.v ===== *)
(** * Properties of the monitor event queue

    The ring is related to the list of its entries, oldest first; every operation
    preserves the relation and acts on that list as the queue's contract says.  From it
    follow the module's stated invariants (the ring never fills, the duplicate count,
    the pending counts) in every reachable state, and the delivery rules. *)
From stdpp Require Import base tactics numbers list option.
From S2P Require Import Prelude Alarm EventQueue.

Open Scope nat_scope.

(** ** Ring arithmetic *)

Lemma ring_wrap_lt i n : i < 2 * n -> ring_wrap i n < n.
Proof. unfold ring_wrap. destruct (Nat.leb_spec n i); lia. Qed.

Lemma ring_wrap_inj i j n :
  i < 2 * n -> j < 2 * n -> i < j + n -> j < i + n -> ring_wrap i n = ring_wrap j n -> i = j.
Proof. unfold ring_wrap. destruct (Nat.leb_spec n i), (Nat.leb_spec n j); lia. Qed.

(** ** Sums over the slab *)

Definition slab_sum {A : Type} (f : A -> nat) (l : list (option A)) : nat :=
  sum_list_with (from_option f 0) l.

Lemma slab_sum_insert {A} (f : A -> nat) l i (old new : option A) :
  l !! i = Some old ->
  slab_sum f (<[i := new]> l) + from_option f 0 old = slab_sum f l + from_option f 0 new.
Proof.
  unfold slab_sum. revert i. induction l as [|x l IH]; intros [|i]; simpl; try done.
  - intros [= ->]. lia.
  - intros E. specialize (IH i E). lia.
Qed.

Lemma slab_sum_replicate_None {A} (f : A -> nat) n : slab_sum f (replicate n None) = 0.
Proof. unfold slab_sum. induction n; simpl; auto. Qed.

Lemma slab_sum_ext {A B} (f : A -> nat) (g : B -> nat) (h : A -> B) l :
  (forall x, Some x ∈ l -> g (h x) = f x) -> slab_sum g (option_map h <$> l) = slab_sum f l.
Proof.
  unfold slab_sum. induction l as [|[x|] l IH]; intros E; [done| |];
    rewrite fmap_cons; cbn [sum_list_with option_map from_option];
    (rewrite IH; [|intros y Hy; apply E; by right]); [|done].
  rewrite E; [done|]. by left.
Qed.

Lemma slab_sum_le_mono {A} (f g : A -> nat) l :
  (forall x, f x <= g x) -> slab_sum f l <= slab_sum g l.
Proof.
  intros Hfg. unfold slab_sum. induction l as [|[x|] l IH]; simpl; [lia| |lia].
  specialize (Hfg x). lia.
Qed.

Lemma slab_sum_add {A} (f g : A -> nat) l :
  slab_sum (fun x => f x + g x) l = slab_sum f l + slab_sum g l.
Proof. unfold slab_sum. induction l as [|[x|] l IH]; simpl; lia. Qed.

Lemma slab_sum_ge {A} (f : A -> nat) l i x : l !! i = Some (Some x) -> f x <= slab_sum f l.
Proof.
  unfold slab_sum. revert i. induction l as [|y l IH]; intros [|i]; simpl; try done.
  - intros [= ->]. simpl. lia.
  - intros E. specialize (IH i E). lia.
Qed.

Lemma slab_sum_zero_in {A} (f : A -> nat) l i x :
  slab_sum f l = 0 -> l !! i = Some (Some x) -> f x = 0.
Proof. intros Hz E. pose proof (slab_sum_ge f l i x E). lia. Qed.

(** ** Handles *)

Lemma slot_new g s : s < Z.to_nat 65536 -> slot (AttachId_new g s) = s.
Proof.
  intros Hs. unfold slot, AttachId_new, SLOT_BITS, attach_bits, wrap.
  rewrite <- !Z.land_ones by lia. rewrite Z.land_lor_distr_l, <- Z.land_assoc.
  change (Z.land (Z.ones 64) (Z.ones 16)) with (Z.ones 16).
  rewrite !Z.land_ones by lia. rewrite Z.shiftl_mul_pow2, Z_mod_mult by lia.
  rewrite Z.lor_0_l, Z.mod_small by lia. lia.
Qed.

(** Two handles from different generations differ, up to the 48-bit wrap. *)
Lemma AttachId_new_inj g g' s s' :
  s < Z.to_nat 65536 -> s' < Z.to_nat 65536 ->
  AttachId_new g s = AttachId_new g' s' -> s = s' /\ (g mod 2 ^ 48 = g' mod 2 ^ 48)%Z.
Proof.
  intros Hs Hs' E. split.
  - rewrite <- (slot_new g s Hs), <- (slot_new g' s' Hs'). by rewrite E.
  - injection E as E. apply (f_equal (fun z => Z.shiftr z 16)) in E.
    rewrite !Z.shiftr_lor, !(Z.shiftr_div_pow2 (Z.of_nat _)) in E by lia.
    rewrite !(Z.div_small (Z.of_nat _)), !Z.lor_0_r in E by lia.
    unfold wrap, SLOT_BITS in E.
    rewrite !Z.shiftl_mul_pow2, !Z.shiftr_div_pow2 in E by lia.
    change (2 ^ 64)%Z with (2 ^ 48 * 2 ^ 16)%Z in E.
    rewrite !Z.mul_mod_distr_r, !Z.div_mul in E by lia. done.
Qed.

Section Theory.
Context `{LogTypes}.
Implicit Types (q : QueInner) (es : list Entry) (s : SubQ) (id : AttachId).

(** ** The ring and the list of its entries *)

Record layout q es : Prop := {
  lay_size : qsize q = 4 * replace_threshold q;
  lay_pos : 0 < replace_threshold q;
  lay_ring : length (ring q) = qsize q;
  lay_getix : getix q < qsize q;
  lay_used : used q = length es;
  lay_fits : length es <= qsize q;
  lay_at : forall k, k < qsize q -> ring q !! ix q k = Some (es !! k);
}.

Lemma ix_lt q k : getix q < qsize q -> k <= qsize q -> ix q k < qsize q.
Proof. intros. apply ring_wrap_lt. lia. Qed.

Lemma ix_inj q j k :
  getix q < qsize q -> j < qsize q -> k < qsize q -> ix q j = ix q k -> j = k.
Proof. intros ???. unfold ix, ring_wrap. do 2 case_match; zbool; rewrite ?Nat.leb_le, ?Nat.leb_gt in *; lia. Qed.

Lemma ix_0 q : getix q < qsize q -> ix q 0 = getix q.
Proof. intros. unfold ix, ring_wrap. rewrite Nat.add_0_r. destruct (Nat.leb_spec (qsize q) (getix q)); lia. Qed.

(** Writing position [k]. *)
Lemma ring_insert_at q es k x j :
  layout q es -> k < qsize q -> j < qsize q ->
  <[ix q k := x]> (ring q) !! ix q j = Some (if decide (j = k) then x else es !! j).
Proof.
  intros L Hk Hj. pose proof (lay_getix _ _ L). case_decide as E.
  - subst j. apply list_lookup_insert_eq. rewrite (lay_ring _ _ L). apply ix_lt; lia.
  - rewrite list_lookup_insert_ne by (intros Ei; apply E; symmetry; by eapply ix_inj).
    by apply (lay_at _ _ L).
Qed.

Definition same_frame q q' : Prop :=
  qsize q' = qsize q /\ replace_threshold q' = replace_threshold q /\ getix q' = getix q.

Lemma layout_write q q' es es' k x :
  layout q es -> same_frame q q' -> k < qsize q ->
  ring q' = <[ix q k := x]> (ring q) -> used q' = length es' -> length es' <= qsize q ->
  (forall j, j < qsize q -> es' !! j = if decide (j = k) then x else es !! j) ->
  layout q' es'.
Proof.
  intros L (Es & Et & Eg) Hk Er Hu Hl Hes. pose proof L as [].
  split; rewrite ?Es, ?Et, ?Eg, ?Er, ?length_insert; auto.
  intros j Hj. rewrite Hes by done.
  replace (ix q' j) with (ix q j) by (unfold ix; by rewrite Es, Eg).
  by apply ring_insert_at.
Qed.

Lemma layout_frame q q' es :
  layout q es -> same_frame q q' -> ring q' = ring q -> used q' = used q -> layout q' es.
Proof.
  intros [] (Es & Et & Eg) Er Eu. split; rewrite ?Es, ?Et, ?Eg, ?Er, ?Eu; auto.
  intros j Hj. unfold ix. rewrite Es, Eg. fold (ix q j). auto.
Qed.

(** Taking the head. *)
Lemma layout_pop q q' e es :
  layout q (e :: es) -> qsize q' = qsize q -> replace_threshold q' = replace_threshold q ->
  getix q' = ix q 1 -> used q' = used q - 1 -> ring q' = <[getix q := None]> (ring q) ->
  layout q' es.
Proof.
  intros L Es Et Eg Eu Er. pose proof L as [? ? ? ? Hu Hf _].
  split; rewrite ?Es, ?Et, ?Eg, ?Er, ?Eu, ?length_insert; auto; simpl in *; try lia.
  - apply ix_lt; lia.
  - intros k Hk. rewrite <- (ix_0 q) by done.
    destruct (decide (S k = qsize q)) as [E1|E1].
    + replace (ix q' k) with (ix q 0).
      * rewrite (ring_insert_at q (e :: es)) by (done || lia). rewrite decide_True by done.
        symmetry. f_equal. apply lookup_ge_None. lia.
      * unfold ix, ring_wrap in *. rewrite Es, Eg.
        repeat case_match; rewrite ?Nat.leb_le, ?Nat.leb_gt in *; lia.
    + replace (ix q' k) with (ix q (S k)).
      * rewrite (ring_insert_at q (e :: es)) by (done || lia).
        by rewrite decide_False by lia.
      * unfold ix, ring_wrap in *. rewrite Es, Eg.
        repeat case_match; rewrite ?Nat.leb_le, ?Nat.leb_gt in *; lia.
Qed.

Lemma layout_head q e es : layout q (e :: es) -> ring q !! getix q = Some (Some e).
Proof.
  intros L. pose proof (lay_getix _ _ L). rewrite <- (ix_0 q) by done.
  rewrite (lay_at _ _ L) by lia. done.
Qed.

(** ** The slab and the entries *)

(** How many entries a monitor has, and where its newest one is. *)
Definition count id es : nat := length (filter (fun e => entry_id e = id) es).
Definition newest id es k : Prop :=
  (exists e, es !! k = Some e /\ entry_id e = id) /\
  forall j e, k < j -> es !! j = Some e -> entry_id e <> id.

(** [at_] gives the ring index of a position. *)
Record slab_ok (at_ : nat -> nat) (sb : list (option SubQ)) es : Prop := {
  sl_slot i s : sb !! i = Some (Some s) -> slot (sub_id s) = i;
  sl_npend i s : sb !! i = Some (Some s) -> npend s = count (sub_id s) es;
  sl_last i s : sb !! i = Some (Some s) -> 0 < npend s ->
    exists k, last s = at_ k /\ newest (sub_id s) es k;
  sl_entry e : e ∈ es -> exists s, sb !! slot (entry_id e) = Some (Some s)
                                   /\ sub_id s = entry_id e;
  sl_cancel i s : sb !! i = Some (Some s) -> reader_gone s = true -> 0 < npend s;
}.

Lemma count_app id l k : count id (l ++ k) = count id l + count id k.
Proof. unfold count. by rewrite list.filter_app, length_app. Qed.

Lemma count_cons id e es :
  count id (e :: es) = (if decide (entry_id e = id) then 1 else 0) + count id es.
Proof. unfold count. rewrite filter_cons. by case_decide. Qed.

Lemma count_pos id es : 0 < count id es <-> exists e, e ∈ es /\ entry_id e = id.
Proof.
  unfold count. split.
  - destruct (filter _ es) as [|e l] eqn:E; simpl; [lia|]. intros _. exists e.
    assert (e ∈ filter (fun e => entry_id e = id) es) as Hin by (rewrite E; left).
    apply list_elem_of_filter in Hin. tauto.
  - intros (e & Hin & He).
    assert (e ∈ filter (fun e => entry_id e = id) es) as Hf by by apply list_elem_of_filter.
    destruct (filter _ es); [by apply elem_of_nil in Hf|simpl; lia].
Qed.

Lemma newest_in id es k : newest id es k -> exists e, e ∈ es /\ entry_id e = id.
Proof. intros [(e & He & ?) _]. exists e. split; [|done]. by eapply list_elem_of_lookup_2. Qed.

Lemma newest_unique id es j k : newest id es j -> newest id es k -> j = k.
Proof.
  intros [(e & He & Ei) Hj] [(e' & He' & Ei') Hk].
  destruct (Nat.lt_trichotomy j k) as [L|[L|L]]; [|done|].
  - by destruct (Hj k e' L He').
  - by destruct (Hk j e L He).
Qed.

(** Others' entries are untouched: as many of them, and the newest in the same slot. *)
Definition others_kept (at_ at_' : nat -> nat) id es es' : Prop :=
  (forall i, i <> id -> count i es' = count i es) /\
  (forall i k, i <> id -> newest i es k -> exists k', at_' k' = at_ k /\ newest i es' k') /\
  (forall e, e ∈ es' -> entry_id e = id \/ exists e0, e0 ∈ es /\ entry_id e0 = entry_id e).

Lemma slab_ok_update at_ at_' sb es es' s s' :
  slab_ok at_ sb es -> sb !! slot (sub_id s) = Some (Some s) -> sub_id s' = sub_id s ->
  npend s' = count (sub_id s) es' ->
  (0 < npend s' -> exists k, last s' = at_' k /\ newest (sub_id s) es' k) ->
  (reader_gone s' = true -> 0 < npend s') ->
  others_kept at_ at_' (sub_id s) es es' ->
  slab_ok at_' (<[slot (sub_id s) := Some s']> sb) es'.
Proof.
  intros S Hs Hid Hn Hl Hc (Ok1 & Ok2 & Ok3).
  assert (slot (sub_id s) < length sb) as Hlt by (by eapply lookup_lt_Some).
  assert (forall i t, <[slot (sub_id s) := Some s']> sb !! i = Some (Some t) ->
    t = s' \/ sb !! i = Some (Some t) /\ sub_id t <> sub_id s /\ i <> slot (sub_id s)) as Hcase.
  { intros i t Ht. destruct (decide (i = slot (sub_id s))) as [->|Hne].
    - rewrite list_lookup_insert_eq in Ht by done. left. congruence.
    - rewrite list_lookup_insert_ne in Ht by done. right. split; [done|].
      apply (sl_slot _ _ _ S) in Ht as <-. split; [|done]. intros E. by rewrite E in Hne. }
  split.
  - intros i t Ht. destruct (decide (i = slot (sub_id s))) as [->|Hne].
    + rewrite list_lookup_insert_eq in Ht by done. injection Ht as <-. by rewrite Hid.
    + rewrite list_lookup_insert_ne in Ht by done. by apply (sl_slot _ _ _ S).
  - intros i t [->|(Ht & Hne & _)]%Hcase; [by rewrite Hid|].
    rewrite Ok1 by done. by eapply (sl_npend _ _ _ S).
  - intros i t [->|(Ht & Hne & _)]%Hcase Hp; [rewrite Hid; auto|].
    destruct (sl_last _ _ _ S _ _ Ht Hp) as (k & -> & Hk).
    destruct (Ok2 _ _ Hne Hk) as (k' & <- & ?). eauto.
  - intros e He. destruct (decide (entry_id e = sub_id s)) as [E|Hne].
    + exists s'. rewrite E, list_lookup_insert_eq by done. by rewrite Hid.
    + destruct (Ok3 e He) as [?|(e0 & He0 & E0)]; [done|].
      destruct (sl_entry _ _ _ S _ He0) as (t & Ht & Eid). rewrite E0 in *.
      exists t. split; [|done]. rewrite list_lookup_insert_ne; [done|].
      intros Es. rewrite Es, Ht in Hs. congruence.
  - intros i t [->|(Ht & _)]%Hcase ?; [auto|]. by eapply (sl_cancel _ _ _ S).
Qed.

(** A slot is freed once its monitor has no entry. *)
Lemma slab_ok_free at_ sb es s :
  slab_ok at_ sb es -> sb !! slot (sub_id s) = Some (Some s) -> count (sub_id s) es = 0 ->
  slab_ok at_ (<[slot (sub_id s) := None]> sb) es.
Proof.
  intros S Hs Hz. assert (slot (sub_id s) < length sb) as Hlt by (by eapply lookup_lt_Some).
  assert (forall i t, <[slot (sub_id s) := None]> sb !! i = Some (Some t) ->
    sb !! i = Some (Some t)) as Hcase.
  { intros i t Ht. destruct (decide (i = slot (sub_id s))) as [->|Hne].
    - rewrite list_lookup_insert_eq in Ht by done. congruence.
    - by rewrite list_lookup_insert_ne in Ht by done. }
  split.
  - intros i t ?%Hcase. by apply (sl_slot _ _ _ S).
  - intros i t ?%Hcase. by eapply (sl_npend _ _ _ S).
  - intros i t ?%Hcase. by eapply (sl_last _ _ _ S).
  - intros e He. destruct (sl_entry _ _ _ S _ He) as (t & Ht & Eid). exists t. split; [|done].
    rewrite list_lookup_insert_ne; [done|]. intros Es. rewrite Es, Ht in Hs.
    assert (0 < count (sub_id s) es) by (apply count_pos; exists e; split; congruence). lia.
  - intros i t ?%Hcase. by eapply (sl_cancel _ _ _ S).
Qed.

Lemma slab_ok_attach at_ sb es i s :
  slab_ok at_ sb es -> sb !! i = Some None -> slot (sub_id s) = i -> npend s = 0 ->
  reader_gone s = false -> slab_ok at_ (<[i := Some s]> sb) es.
Proof.
  intros S Hi Hsl Hn Hr. assert (i < length sb) as Hlt by (by eapply lookup_lt_Some).
  assert (forall e, e ∈ es -> slot (entry_id e) <> i) as Hno.
  { intros e He E0. rewrite <- E0 in Hi. destruct (sl_entry _ _ _ S _ He) as (t & Ht & _). congruence. }
  assert (forall j t, <[i := Some s]> sb !! j = Some (Some t) ->
    t = s /\ j = i \/ sb !! j = Some (Some t)) as Hcase.
  { intros j t Ht. destruct (decide (j = i)) as [->|Hne].
    - rewrite list_lookup_insert_eq in Ht by done. left. split; congruence.
    - rewrite list_lookup_insert_ne in Ht by done. auto. }
  split.
  - intros j t [[-> ->]|?]%Hcase; [done|]. by apply (sl_slot _ _ _ S).
  - intros j t [[-> ->]|?]%Hcase; [|by eapply (sl_npend _ _ _ S)].
    rewrite Hn. destruct (count (sub_id s) es) eqn:E; [done|].
    assert (0 < count (sub_id s) es) as (e & He & Eid)%count_pos by lia.
    destruct (Hno e He). by rewrite Eid.
  - intros j t [[-> ->]|?]%Hcase; [lia|]. by eapply (sl_last _ _ _ S).
  - intros e He. destruct (sl_entry _ _ _ S _ He) as (t & Ht & Eid). exists t. split; [|done].
    rewrite list_lookup_insert_ne; [done|]. intros Es. by apply (Hno e He).
  - intros j t [[-> ->]|?]%Hcase; [congruence|]. by eapply (sl_cancel _ _ _ S).
Qed.

(** ** The invariant *)

Definition owes_end (s : SubQ) : nat :=
  if producer_gone s && negb (end_reported s) then 1 else 0.

Record counts_ok q : Prop := {
  ct_slots : length (subs q) = replace_threshold q;
  ct_cap : replace_threshold q <= MAX_EVENTS_PER_QUE;
  ct_used : used q = slab_sum npend (subs q);
  ct_dups : n_duplicates q = slab_sum (fun s => npend s - 1) (subs q);
  ct_dup_bound : n_duplicates q + replace_threshold q < qsize q;
  ct_quota : quota q = 4 * slab_sum (fun _ => 1) (subs q);
  ct_quota_le : quota q + 4 <= qsize q;
  ct_free : NoDup (free q);
  ct_free_in i : i ∈ free q <-> subs q !! i = Some None;
  ct_ends : unreported_ends q = slab_sum owes_end (subs q);
  ct_reported i s : subs q !! i = Some (Some s) -> end_reported s = true ->
    producer_gone s = true;
}.

Record inv q es : Prop := {
  inv_layout : layout q es;
  inv_slab : slab_ok (ix q) (subs q) es;
  inv_counts : counts_ok q;
}.

(** The quota reservation keeps the ring from filling. *)
Lemma ring_never_full q es : inv q es -> used q + 2 <= qsize q.
Proof.
  intros [L _ C]. pose proof (lay_size _ _ L). pose proof C as [? ? Hu Hd ? Hq ? _ _ _ _].
  pose proof (slab_sum_le_mono npend (fun s => (npend s - 1) + 1) (subs q)) as Hle.
  rewrite slab_sum_add in Hle. rewrite Hu.
  assert (slab_sum npend (subs q)
    <= slab_sum (fun s => npend s - 1) (subs q) + slab_sum (fun _ => 1) (subs q))
    by (apply Hle; intros; lia). lia.
Qed.

Lemma sub_Some q es id s :
  inv q es -> sub q id = Some s <-> subs q !! slot id = Some (Some s) /\ sub_id s = id.
Proof.
  intros _. unfold sub. destruct (subs q !! slot id) as [[t|]|]; [case_decide|..]; intuition congruence.
Qed.

Lemma inv_new n :
  4 <= n <= MAX_EVENTS_PER_QUE -> inv (EvQue_new n) [].
Proof.
  intros Hn. unfold EvQue_new, EVENT_ENTRIES. rewrite (Nat.mul_comm 4 n), Nat.div_mul by lia.
  split.
  - split; cbn [qsize replace_threshold ring getix used]; rewrite ?length_replicate; simpl; try lia.
    intros k Hk. apply lookup_replicate_2. apply ix_lt; simpl; lia.
  - split; cbn [subs]; try (intros i s Hs; apply lookup_replicate in Hs as [? _]; done).
    intros e He. by apply elem_of_nil in He.
  - split; cbn -[slab_sum owes_end MAX_EVENTS_PER_QUE Nat.mul];
      rewrite ?length_replicate, ?slab_sum_replicate_None; try lia.
    + apply NoDup_ListNoDup, seq_NoDup.
    + intros i. rewrite elem_of_seq, lookup_replicate. split; [intros; split; [done|lia]|intros; lia].
    + intros i s Hs. by apply lookup_replicate in Hs as [? _].
Qed.

(** *** Attaching *)

Lemma inv_try_attach q es g sid k ctx id q' :
  inv q es -> try_attach q g sid k ctx = Some (id, q') ->
  inv q' es /\ sub q id = None /\ sub q' id = Some (SubQ_new id sid k ctx) /\
  id = AttachId_new g (slot id).
Proof.
  intros [L S C] Ha. unfold try_attach, EVENT_ENTRIES in Ha.
  destruct (Nat.leb_spec (qsize q - 4) (quota q)) as [|Hq]; [done|].
  pose proof C as [Hsl Hcap Hu Hd Hdb Hqt Hqe Hf Hfi He Hre].
  destruct (free q) as [|sl fr] eqn:Ef; [done|]. injection Ha as <- <-.
  assert (subs q !! sl = Some None) as Hsn by (apply Hfi; left).
  assert (sl < length (subs q)) as Hlt by (by eapply lookup_lt_Some).
  assert (slot (AttachId_new g sl) = sl) as Hslot
    by (apply slot_new; unfold MAX_EVENTS_PER_QUE in *; lia).
  split_and!.
  - split; cbn [subs].
    + by apply (layout_frame q).
    + by apply slab_ok_attach.
    + pose proof (fun f => slab_sum_insert f (subs q) sl None
        (Some (SubQ_new (AttachId_new g sl) sid k ctx)) Hsn) as Hins.
      split; cbn -[slab_sum owes_end MAX_EVENTS_PER_QUE Nat.mul];
        rewrite ?length_insert; try done.
      * specialize (Hins npend). cbn [from_option npend SubQ_new] in Hins. lia.
      * specialize (Hins (fun s => npend s - 1)). cbn [from_option npend SubQ_new] in Hins. lia.
      * specialize (Hins (fun _ => 1)). cbn [from_option] in Hins. unfold EVENT_ENTRIES. lia.
      * unfold EVENT_ENTRIES. pose proof (lay_size _ _ L). lia.
      * by apply list.NoDup_cons in Hf as [_ Hf].
      * intros i. apply list.NoDup_cons in Hf as [Hni _]. destruct (decide (i = sl)) as [->|Hne].
        -- rewrite list_lookup_insert_eq by done. split; [done|congruence].
        -- rewrite list_lookup_insert_ne, <- Hfi, elem_of_cons by done. tauto.
      * specialize (Hins owes_end). cbn [from_option] in Hins.
        change (owes_end (SubQ_new _ _ _ _)) with 0 in Hins. lia.
      * intros i t Ht. destruct (decide (i = sl)) as [->|Hne].
        -- rewrite list_lookup_insert_eq in Ht by done. by injection Ht as <-.
        -- rewrite list_lookup_insert_ne in Ht by done. eauto.
  - unfold sub. by rewrite Hslot, Hsn.
  - unfold sub. cbn [subs]. rewrite Hslot, list_lookup_insert_eq by done. by rewrite decide_True.
  - by rewrite Hslot.
Qed.

(** A fresh queue admits its first monitor. *)
Lemma try_attach_new n g sid k ctx :
  4 <= n <= MAX_EVENTS_PER_QUE -> is_Some (try_attach (EvQue_new n) g sid k ctx).
Proof.
  intros Hn. unfold try_attach, EvQue_new, EVENT_ENTRIES. cbn [quota qsize free].
  rewrite (Nat.mul_comm 4 n), Nat.div_mul by lia.
  destruct (Nat.leb_spec (n * 4 - 4) 0); [lia|]. destruct n; [lia|]. simpl. eauto.
Qed.

(** *** Updating one subscription *)

Lemma counts_update q q' s s' :
  counts_ok q -> subs q !! slot (sub_id s) = Some (Some s) ->
  subs q' = <[slot (sub_id s) := Some s']> (subs q) ->
  free q' = free q -> quota q' = quota q -> qsize q' = qsize q ->
  replace_threshold q' = replace_threshold q ->
  used q' + npend s = used q + npend s' ->
  n_duplicates q' + (npend s - 1) = n_duplicates q + (npend s' - 1) ->
  n_duplicates q' + replace_threshold q < qsize q ->
  unreported_ends q' + owes_end s = unreported_ends q + owes_end s' ->
  (end_reported s' = true -> producer_gone s' = true) ->
  counts_ok q'.
Proof.
  intros [] Hs Es Ef Eq Ez Et Hu Hd Hb He Hre.
  pose proof (fun f => slab_sum_insert f (subs q) _ _ (Some s') Hs) as Hins.
  split; rewrite ?Es, ?Ef, ?Eq, ?Ez, ?Et, ?length_insert; try done.
  - specialize (Hins npend). cbn [from_option] in Hins. lia.
  - specialize (Hins (fun s => npend s - 1)). cbn [from_option] in Hins. lia.
  - specialize (Hins (fun _ => 1)). cbn [from_option] in Hins. lia.
  - intros i. rewrite ct_free_in0. destruct (decide (i = slot (sub_id s))) as [->|Hne].
    + rewrite list_lookup_insert_eq by (by eapply lookup_lt_Some). split; congruence.
    + by rewrite list_lookup_insert_ne.
  - specialize (Hins owes_end). cbn [from_option] in Hins. lia.
  - intros i t Ht. destruct (decide (i = slot (sub_id s))) as [->|Hne].
    + rewrite list_lookup_insert_eq in Ht by (by eapply lookup_lt_Some). by injection Ht as <-.
    + rewrite list_lookup_insert_ne in Ht by done. eauto.
Qed.

(** Rewriting an entry in place keeps every monitor's count and newest position. *)
Lemma count_insert_same id es k e e' :
  es !! k = Some e -> entry_id e' = entry_id e -> count id (<[k := e']> es) = count id es.
Proof.
  revert k. induction es as [|x es IH]; intros [|k]; try done; simpl.
  - intros [= ->] E. by rewrite !count_cons, E.
  - intros Hk E. rewrite !count_cons. by erewrite IH.
Qed.

Lemma newest_insert_same id es k e e' j :
  es !! k = Some e -> entry_id e' = entry_id e -> newest id es j ->
  newest id (<[k := e']> es) j.
Proof.
  intros Hk E [(x & Hx & Ex) Hn].
  assert (k < length es) by (by eapply lookup_lt_Some).
  split.
  - destruct (decide (j = k)) as [->|Hne].
    + exists e'. rewrite list_lookup_insert_eq by done. split; [done|congruence].
    + exists x. by rewrite list_lookup_insert_ne.
  - intros i y Hi Hy. destruct (decide (i = k)) as [->|Hne].
    + rewrite list_lookup_insert_eq in Hy by done. injection Hy as <-. rewrite E. eauto.
    + rewrite list_lookup_insert_ne in Hy by done. eauto.
Qed.

Lemma inv_rewrite_newest q es s k e e' r c :
  inv q es -> subs q !! slot (sub_id s) = Some (Some s) -> es !! k = Some e ->
  entry_id e' = entry_id e ->
  inv (put_sub (put_ring q (<[ix q k := Some e']> (ring q))) (slot (sub_id s))
         (Some (set_counters s r c))) (<[k := e']> es).
Proof.
  intros [L S C] Hs Hk Ee. assert (k < length es) by (by eapply lookup_lt_Some).
  pose proof (lay_fits _ _ L). split.
  - eapply (layout_write q _ es _ k (Some e') L); try done; rewrite ?length_insert;
      [lia|by apply (lay_used _ _ L)|lia|].
    intros j Hj. case_decide as Ej; [subst; by apply list_lookup_insert_eq|].
    by rewrite list_lookup_insert_ne.
  - apply (slab_ok_update (ix q)) with es; try done; cbn [npend set_counters last].
    + by rewrite (count_insert_same _ _ _ e), <- (sl_npend _ _ _ S _ _ Hs).
    + intros Hp. destruct (sl_last _ _ _ S _ _ Hs Hp) as (j & Hj & Hn).
      exists j. split; [done|]. by eapply newest_insert_same.
    + intros Hr. by apply (sl_cancel _ _ _ S _ _ Hs).
    + split_and!.
      * intros. by eapply count_insert_same.
      * intros i j _ Hn. exists j. split; [done|]. by eapply newest_insert_same.
      * intros x Hx. apply list_elem_of_lookup_1 in Hx as [j Hj]. right.
        destruct (decide (j = k)) as [->|Hne].
        -- rewrite list_lookup_insert_eq in Hj by done. injection Hj as <-. exists e.
           split; [by eapply list_elem_of_lookup_2|done].
        -- rewrite list_lookup_insert_ne in Hj by done. exists x.
           split; [by eapply list_elem_of_lookup_2|done].
  - eapply (counts_update q _ s (set_counters s r c)); try done; [apply C|].
    apply (ct_reported _ C _ _ Hs).
Qed.

(** *** Posting *)

Lemma newest_snoc_other id es e j :
  entry_id e <> id -> newest id es j -> newest id (es ++ [e]) j.
Proof.
  intros Hne [(x & Hx & Ex) Hn]. assert (j < length es) by (by eapply lookup_lt_Some). split.
  - exists x. by rewrite lookup_app_l.
  - intros i y Hi Hy. apply lookup_app_Some in Hy as [Hy|[Hl Hy]]; [eauto|].
    apply list_lookup_singleton_Some in Hy as [_ <-]. done.
Qed.

Lemma newest_snoc es e : newest (entry_id e) (es ++ [e]) (length es).
Proof.
  split.
  - exists e. by rewrite lookup_app_r, Nat.sub_diag.
  - intros j x Hj Hx. apply lookup_app_Some in Hx as [Hx|[Hl Hx]].
    + apply lookup_lt_Some in Hx. lia.
    + apply list_lookup_singleton_Some in Hx as [Hx _]. lia.
Qed.

Lemma inv_append q es s log b :
  inv q es -> subs q !! slot (sub_id s) = Some (Some s) -> reader_gone s = false ->
  (npend s = 0 \/ replace_threshold q < ring_space q) ->
  inv (mkQue (<[ix q (used q) := Some (mkEntry (sub_id s) log)]> (ring q))
         (getix q) (S (used q))
         (if 0 <? npend s then S (n_duplicates q) else n_duplicates q) (draining q) b
         (<[slot (sub_id s) := Some (set_npend_last s (S (npend s)) (ix q (used q)))]> (subs q))
         (free q) (quota q) (qsize q) (replace_threshold q) (unreported_ends q) (taken q))
      (es ++ [mkEntry (sub_id s) log]).
Proof.
  intros I Hs Hr Hroom. pose proof (ring_never_full _ _ I) as Hfull. destruct I as [L S C].
  pose proof (lay_used _ _ L) as Hu. set (e := mkEntry (sub_id s) log). split.
  - eapply (layout_write q _ es _ (used q) (Some e) L); try done; cbn [used];
      rewrite ?length_app; simpl; try lia.
    intros j Hj. case_decide as Ej.
    + subst j. by rewrite Hu, lookup_app_r, Nat.sub_diag.
    + destruct (decide (j < length es)) as [Hl|Hl]; [by rewrite lookup_app_l|].
      rewrite !lookup_ge_None_2; [done|lia|rewrite length_app; simpl; lia].
  - cbn [subs]. apply (slab_ok_update (ix q)) with es; try done; cbn [npend last set_npend_last].
    + rewrite count_app, (sl_npend _ _ _ S _ _ Hs). unfold e at 1.
      rewrite count_cons. cbn [entry_id]. rewrite decide_True by done.
      change (count (sub_id s) []) with 0. lia.
    + intros _. exists (length es). rewrite <- Hu. split; [done|]. rewrite Hu.
      apply (newest_snoc es e).
    + lia.
    + split_and!.
      * intros i Hi. rewrite count_app, count_cons. cbn [entry_id e].
        rewrite decide_False by done. change (count i []) with 0. lia.
      * intros i j Hi Hn. exists j. split; [done|]. by apply newest_snoc_other.
      * intros x. rewrite elem_of_app, list_elem_of_singleton. intros [Hx| ->]; [|by left].
        right. eauto.
  - eapply (counts_update q _ s (set_npend_last s (Datatypes.S (npend s)) (ix q (used q)))); try done;
      cbn [npend set_npend_last n_duplicates used unreported_ends]; try lia.
    + destruct (Nat.ltb_spec 0 (npend s)); lia.
    + pose proof (ct_dup_bound _ C). destruct (Nat.ltb_spec 0 (npend s)) as [Hp|]; [|done].
      destruct Hroom as [|Hroom]; [lia|]. unfold ring_space in Hroom.
      assert (Datatypes.S (n_duplicates q) <= used q); [|lia].
      rewrite (ct_dups _ C), (ct_used _ C).
      pose proof (slab_sum_insert (fun s => npend s - 1) (subs q) _ _ None Hs) as H1.
      pose proof (slab_sum_insert npend (subs q) _ _ None Hs) as H2.
      pose proof (slab_sum_le_mono (fun s => npend s - 1) npend
        (<[slot (sub_id s) := None]> (subs q))) as H3.
      cbn [from_option] in *. assert (forall s, npend s - 1 <= npend s) as Hle by (intros; lia).
      specialize (H3 Hle). lia.
    + apply (ct_reported _ C _ _ Hs).
Qed.

(** What a post leaves in the queue: the log as stored, and where. *)
Definition stored_log (k : LogKind) (log : PostLog) : PostLog :=
  if decide (k = KRef) then drop_val log else log.

(** A reference posted over a reference. *)
Definition ref_over_ref (log : PostLog) (e : Entry) : bool :=
  is_ref (log_value log) && is_ref (log_value (entry_log e)).

(** The monitor's newest entry, if it has one, decides which of the three happens. *)
Inductive post_effect (flow_on : bool) (space threshold : nat) (id : AttachId) (log : PostLog)
    es : PostOutcome -> list Entry -> Prop :=
| effect_append :
    (forall k e, newest id es k -> es !! k = Some e ->
       ref_over_ref log e = false /\ flow_on = false /\ threshold < space) ->
    post_effect flow_on space threshold id log es (Appended (bool_decide (es = [])))
      (es ++ [mkEntry id (into_log_or log MASK_NONE)])
| effect_replace k e :
    newest id es k -> es !! k = Some e -> ref_over_ref log e = false ->
    (flow_on = true \/ space <= threshold) ->
    post_effect flow_on space threshold id log es Replaced
      (<[k := mkEntry id (into_log_or log (log_mask (entry_log e)))]> es)
| effect_collapse k e :
    newest id es k -> es !! k = Some e -> ref_over_ref log e = true ->
    post_effect flow_on space threshold id log es Collapsed
      (<[k := mkEntry id (into_log_or (entry_log e) (log_mask log))]> es).

(** One outcome and one queue: the rule leaves no choice. *)
Lemma post_effect_deterministic fl sp th id log es o1 es1 o2 es2 :
  post_effect fl sp th id log es o1 es1 -> post_effect fl sp th id log es o2 es2 -> o1 = o2 /\ es1 = es2.
Proof.
  intros [H1|k1 e1 Hn1 He1 Hr1 Hf1|k1 e1 Hn1 He1 Hr1] [H2|k2 e2 Hn2 He2 Hr2 Hf2|k2 e2 Hn2 He2 Hr2]; [done| | | | | | | |];
    try (destruct (H1 _ _ Hn2 He2) as (? & -> & ?); destruct_or?; (congruence || lia));
    try (destruct (H2 _ _ Hn1 He1) as (? & -> & ?); destruct_or?; (congruence || lia)).
  all: rewrite (newest_unique _ _ _ _ Hn1 Hn2) in He1; rewrite He1 in He2; injection He2 as ->; try congruence.
  all: by rewrite (newest_unique _ _ _ _ Hn1 Hn2).
Qed.

Lemma gone_zero_reader s : gone s = 0%Z -> reader_gone s = false.
Proof. unfold reader_gone. by intros ->. Qed.

Lemma is_ref_true d : is_ref d = true -> d = Ref.
Proof. by destruct d. Qed.

(** A post to a live subscription. *)
Lemma inv_post q es fl id log s :
  inv q es -> sub q id = Some s -> gone s = 0%Z ->
  let '(o, q', _) := post q fl id log in
  exists es', inv q' es' /\
    post_effect fl (ring_space q) (replace_threshold q) id (stored_log (kind s) log) es o es'.
Proof.
  intros I Hsub Hg. pose proof Hsub as [Hs Hid]%(sub_Some _ es); [|done]. subst id.
  unfold post. rewrite Hs, bool_decide_eq_true_2 by done. rewrite Hg. cbn [andb Z.eqb negb].
  fold (stored_log (kind s) log). set (lg := stored_log (kind s) log).
  pose proof (gone_zero_reader _ Hg) as Hr. pose proof I as [L S C].
  assert (count (sub_id s) es = npend s) as Hc by (symmetry; by eapply (sl_npend _ _ _ S)).
  pose proof (inv_append q es s (into_log_or lg MASK_NONE)) as Happ.
  assert ((ring_space q =? qsize q) = bool_decide (es = [])) as Hfirst.
  { pose proof (lay_used _ _ L). pose proof (ring_never_full _ _ I). unfold ring_space.
    destruct es; [rewrite bool_decide_true by done; apply Nat.eqb_eq|rewrite bool_decide_false by done; apply Nat.eqb_neq];
      simpl in *; lia. }
  destruct (Nat.ltb_spec 0 (npend s)) as [Hp|Hp].
  - destruct (sl_last _ _ _ S _ _ Hs Hp) as (k & Hk & Hn).
    pose proof Hn as [(e & He & Ee) _].
    assert (k < qsize q) as Hkq
      by (pose proof (lay_fits _ _ L); apply lookup_lt_Some in He; lia).
    rewrite Hk, (lay_at _ _ L k Hkq), He. cbn [mjoin option_join].
    destruct (is_ref (log_value lg) && is_ref (log_value (entry_log e))) eqn:Eref.
    { rewrite Ee. eexists. split; [by apply (inv_rewrite_newest q es s k e)|]. by econstructor. }
    destruct (fl || (ring_space q <=? replace_threshold q)) eqn:Efl.
    { rewrite Ee. eexists. split; [by apply (inv_rewrite_newest q es s k e)|].
      econstructor; [done..|]. apply orb_true_iff in Efl as [->|E%Nat.leb_le]; auto. }
    apply orb_false_elim in Efl as [-> E%Nat.leb_gt].
    eexists. split; [apply Happ; auto|]. rewrite Hfirst. constructor. intros j x Hj Hx.
    rewrite (newest_unique _ _ _ _ Hj Hn) in Hx. by rewrite He in Hx; injection Hx as <-.
  - eexists. split; [apply Happ; auto; left; lia|]. rewrite Hfirst. constructor. intros j x [(y & Hy & Ey) _] _.
    assert (0 < count (sub_id s) es); [|lia]. apply count_pos. exists y. split; [by eapply list_elem_of_lookup_2|done].
Qed.

(** *** Freeing a slot *)

Lemma counts_free q q' s :
  counts_ok q -> subs q !! slot (sub_id s) = Some (Some s) -> npend s <= 1 ->
  subs q' = <[slot (sub_id s) := None]> (subs q) ->
  free q' = slot (sub_id s) :: free q -> quota q' = quota q - 4 -> qsize q' = qsize q ->
  replace_threshold q' = replace_threshold q -> used q' = used q - npend s ->
  n_duplicates q' = n_duplicates q -> unreported_ends q' = unreported_ends q - owes_end s ->
  counts_ok q'.
Proof.
  intros [] Hs Hn Es Ef Eq Ez Et Hu Hd He.
  pose proof (fun f => slab_sum_insert f (subs q) _ _ None Hs) as Hins.
  assert (slot (sub_id s) < length (subs q)) by (by eapply lookup_lt_Some).
  split; rewrite ?Es, ?Ef, ?Eq, ?Ez, ?Et, ?length_insert, ?Hd; try done.
  - specialize (Hins npend). cbn [from_option] in Hins. lia.
  - specialize (Hins (fun s => npend s - 1)). cbn [from_option] in Hins. lia.
  - specialize (Hins (fun _ => 1)). cbn [from_option] in Hins. lia.
  - lia.
  - apply list.NoDup_cons. split; [|done]. rewrite ct_free_in0. congruence.
  - intros i. rewrite elem_of_cons, ct_free_in0.
    destruct (decide (i = slot (sub_id s))) as [->|Hne].
    + rewrite list_lookup_insert_eq by done. tauto.
    + rewrite list_lookup_insert_ne by done. tauto.
  - specialize (Hins owes_end). cbn [from_option] in Hins. lia.
  - intros i t Ht. destruct (decide (i = slot (sub_id s))) as [->|Hne].
    + rewrite list_lookup_insert_eq in Ht by done. congruence.
    + rewrite list_lookup_insert_ne in Ht by done. eauto.
Qed.

Lemma free_slot_eq q s :
  subs q !! slot (sub_id s) = Some (Some s) ->
  free_slot q (sub_id s)
  = (mkQue (ring q) (getix q) (used q) (n_duplicates q) (draining q) (in_burst q)
       (<[slot (sub_id s) := None]> (subs q)) (slot (sub_id s) :: free q) (quota q - 4)
       (qsize q) (replace_threshold q) (unreported_ends q - owes_end s) (taken q), [s]).
Proof.
  intros Hs. unfold free_slot. rewrite Hs. cbn [mjoin option_join option_list].
  unfold owes_end, EVENT_ENTRIES. destruct (producer_gone s && negb (end_reported s)); [done|].
  by rewrite Nat.sub_0_r.
Qed.

(** *** Retiring the head *)

Lemma newest_tail id e es k : newest id (e :: es) (S k) <-> newest id es k.
Proof.
  split; intros [Hx Hn]; (split; [done|]); intros j y Hj Hy.
  - apply (Hn (S j)); [lia|done].
  - destruct j; [lia|]. apply (Hn j); [lia|done].
Qed.

Lemma newest_head id e es : newest id (e :: es) 0 -> count id es = 0.
Proof.
  intros [_ Hn]. destruct (count id es) eqn:E; [done|].
  assert (0 < count id es) as (x & [j Hj]%list_elem_of_lookup_1 & Ex)%count_pos by lia.
  destruct (Hn (S j) x); [lia|done|done].
Qed.

Lemma newest_cons_other id e es k :
  entry_id e <> id -> newest id (e :: es) k -> exists j, k = S j /\ newest id es j.
Proof.
  intros Hne Hn. destruct k as [|k].
  - destruct Hn as [(x & [= <-] & Ex) _]. done.
  - exists k. split; [done|]. by apply newest_tail in Hn.
Qed.

Lemma ix_next q q' k :
  getix q < qsize q -> qsize q' = qsize q -> getix q' = ix q 1 -> S k < qsize q ->
  ix q' k = ix q (S k).
Proof.
  intros Hg Es Eg Hk. unfold ix, ring_wrap in *. rewrite Es, Eg.
  repeat case_match; rewrite ?Nat.leb_le, ?Nat.leb_gt in *; lia.
Qed.

(** The slab once the head entry has left. *)
Lemma slab_pop q q' e es s s' :
  layout q (e :: es) -> slab_ok (ix q) (subs q) (e :: es) ->
  qsize q' = qsize q -> getix q' = ix q 1 ->
  subs q !! slot (entry_id e) = Some (Some s) -> sub_id s = entry_id e ->
  sub_id s' = sub_id s -> npend s' = npend s - 1 -> last s' = last s ->
  (reader_gone s' = true -> 0 < npend s') ->
  slab_ok (ix q') (<[slot (entry_id e) := Some s']> (subs q)) es /\ npend s = S (count (entry_id e) es).
Proof.
  intros L S Es Eg Hs Hid Hid' Hn Hl Hc. rewrite <- Hid in *.
  pose proof (lay_getix _ _ L) as Hg. pose proof (lay_fits _ _ L) as Hf. simpl in Hf.
  pose proof (sl_npend _ _ _ S _ _ Hs) as Hcnt. rewrite count_cons, decide_True in Hcnt by done.
  assert (forall k i, newest i es k -> ix q' k = ix q (Datatypes.S k)) as Hix.
  { intros k i [(x & Hx & _) _]. apply lookup_lt_Some in Hx. apply ix_next; (done || lia). }
  split; [|lia]. apply (slab_ok_update (ix q)) with (e :: es); try done.
  - lia.
  - intros Hp. destruct (sl_last _ _ _ S _ _ Hs) as (k & Hk & Hnew); [lia|].
    destruct k as [|k]; [apply newest_head in Hnew; lia|]. apply newest_tail in Hnew.
    exists k. split; [|done]. by rewrite (Hix k (sub_id s)), Hl, Hk.
  - split_and!.
    + intros i Hi. rewrite count_cons, decide_False by congruence. done.
    + intros i k Hi Hnew. apply newest_cons_other in Hnew as (j & -> & Hj); [|congruence].
      exists j. split; [by eapply Hix|done].
    + intros x Hx. right. exists x. split; [by right|done].
Qed.

(** Retiring the head, before the freed slot is considered. *)
Definition popped q s : QueInner :=
  mkQue (ring q) (ix q 1) (used q - 1)
    (if 0 <? npend s - 1 then n_duplicates q - 1 else n_duplicates q) (0 <? used q - 1)
    (in_burst q)
    (<[slot (sub_id s) := Some (set_npend_last s (npend s - 1) (last s))]> (subs q))
    (free q) (quota q) (qsize q) (replace_threshold q) (unreported_ends q) (S (taken q)).

Lemma advance_eq q e es s :
  layout q (e :: es) -> subs q !! slot (entry_id e) = Some (Some s) -> sub_id s = entry_id e ->
  advance q = Some (getix q, entry_id e, negb (reader_gone s),
    (if reader_gone s && (npend s - 1 =? 0) then (free_slot (popped q s) (entry_id e)).1
     else popped q s),
    if reader_gone s && (npend s - 1 =? 0) then (free_slot (popped q s) (entry_id e)).2 else []).
Proof.
  intros L Hs Hid. unfold advance. rewrite (lay_used _ _ L). cbn [length Nat.eqb].
  rewrite (layout_head _ _ _ L). unfold release, sub. cbn [subs]. rewrite Hs, decide_True by done.
  cbn [npend set_npend_last]. change (reader_gone (set_npend_last s _ _)) with (reader_gone s).
  unfold popped. rewrite (lay_used _ _ L), Hid. cbn [length]. rewrite Nat.sub_succ, Nat.sub_0_r.
  destruct (reader_gone s && (npend s - 1 =? 0)); done.
Qed.

Lemma popped_subs q s id :
  slot (sub_id s) < length (subs q) -> subs q !! slot (sub_id s) = Some (Some s) ->
  id <> sub_id s -> sub (popped q s) id = sub q id.
Proof.
  intros Hlt Hs Hne. unfold sub, popped. cbn [subs].
  destruct (decide (slot id = slot (sub_id s))) as [->|Hn].
  - rewrite list_lookup_insert_eq, Hs by done. cbn [sub_id set_npend_last].
    by rewrite !decide_False by done.
  - by rewrite list_lookup_insert_ne.
Qed.

Lemma popped_counts q e es s :
  inv q (e :: es) -> subs q !! slot (sub_id s) = Some (Some s) -> 0 < npend s ->
  counts_ok (popped q s).
Proof.
  intros [L S C] Hs Hp. pose proof (lay_used _ _ L) as Hu. simpl in Hu.
  pose proof (ct_dup_bound _ C) as Hb.
  assert (npend s - 1 <= n_duplicates q) as Hd
    by (rewrite (ct_dups _ C); by apply (slab_sum_ge (fun s => npend s - 1) _ _ _ Hs)).
  eapply (counts_update q (popped q s) s (set_npend_last s (npend s - 1) (last s)) C Hs);
    try done; unfold popped; cbn [used n_duplicates npend set_npend_last]; try lia.
  - destruct (Nat.ltb_spec 0 (npend s - 1)); lia.
  - destruct (Nat.ltb_spec 0 (npend s - 1)); lia.
  - apply (ct_reported _ C _ _ Hs).
Qed.

Lemma inv_pop q e es :
  inv q (e :: es) ->
  exists s q' retired,
    sub q (entry_id e) = Some s /\
    advance q = Some (getix q, entry_id e, negb (reader_gone s), q', retired) /\
    ring q' = ring q /\ used q' = length es /\ draining q' = (0 <? length es) /\
    taken q' = S (taken q) /\
    (reader_gone s = false ->
     sub q' (entry_id e) = Some (set_npend_last s (npend s - 1) (last s))) /\
    (forall id, id <> entry_id e -> sub q' id = sub q id) /\
    inv (put_ring q' (<[getix q := None]> (ring q'))) es.
Proof.
  intros I. pose proof I as [L S C]. pose proof (lay_used _ _ L) as Hu. simpl in Hu.
  destruct (sl_entry _ _ _ S e) as (s & Hs & Hid); [left|].
  assert (sub q (entry_id e) = Some s) as Hsub by (by apply (sub_Some q (e :: es))).
  rewrite (advance_eq q e es s) by done. rewrite <- Hid in *.
  assert (slot (sub_id s) < length (subs q)) as Hlt by (by eapply lookup_lt_Some).
  set (s' := set_npend_last s (npend s - 1) (last s)).
  assert (forall t, sub_id t = sub_id s -> npend t = npend s - 1 -> last t = last s ->
    (reader_gone t = true -> 0 < npend t) ->
    slab_ok (ix (popped q s)) (<[slot (sub_id s) := Some t]> (subs q)) es
    /\ npend s = Datatypes.S (count (sub_id s) es)) as Hslab.
  { intros t. pose proof (slab_pop q (popped q s) e es s t L S eq_refl eq_refl) as Hp.
    rewrite <- Hid in Hp. auto. }
  destruct (Hslab (set_gone s' 0%Z false)) as [Sfree Hn]; [done..|].
  pose proof (popped_counts q e es s I Hs) as Hcnt.
  assert (sub (popped q s) (sub_id s) = Some s') as Hsub'.
  { unfold sub, popped. cbn [subs]. rewrite list_lookup_insert_eq by done. by rewrite decide_True. }
  eexists s, _, _. split; [done|]. split; [done|].
  destruct (reader_gone s && (npend s - 1 =? 0)) eqn:Eg.
  - apply andb_prop in Eg as [Er En%Nat.eqb_eq].
    pose proof (free_slot_eq (popped q s) s') as Hfs. change (sub_id s') with (sub_id s) in Hfs.
    rewrite Hfs by (by apply list_lookup_insert_eq). clear Hfs.
    cbn [fst ring used draining taken popped subs]. rewrite list_insert_insert_eq.
    split_and!; try done; [lia|by rewrite Hu, Nat.sub_succ, Nat.sub_0_r|congruence| |].
    + intros id Hne. unfold sub. cbn [subs].
      destruct (decide (slot id = slot (sub_id s))) as [->|Hn'].
      * rewrite list_lookup_insert_eq, Hs by done. by rewrite decide_False by done.
      * by rewrite list_lookup_insert_ne.
    + split; [by apply (layout_pop q _ e es L)| |].
      * cbn [subs put_ring]. pose proof (slab_ok_free _ _ _ (set_gone s' 0%Z false) Sfree) as Sf.
        rewrite list_insert_insert_eq in Sf. apply Sf; [by apply list_lookup_insert_eq|].
        change (count (sub_id s) es = 0). lia.
      * eapply (counts_free (popped q s) _ s'); try done; cbn [s' npend set_npend_last];
          [apply Hcnt; lia|by apply list_lookup_insert_eq|lia| |].
        -- cbn. by rewrite list_insert_insert_eq.
        -- cbn. lia.
  - destruct (Hslab s') as [Sk _]; [done..| |].
    { change (reader_gone s') with (reader_gone s). intros Er. rewrite Er in Eg.
      cbn [andb] in Eg. apply Nat.eqb_neq in Eg. cbn. lia. }
    cbn [ring used draining taken popped].
    split_and!; try done; [lia|by rewrite Hu, Nat.sub_succ, Nat.sub_0_r| |].
    + intros id Hne. by apply popped_subs.
    + split; [by apply (layout_pop q _ e es L)|done|].
      destruct Hcnt; [lia|]. by split.
Qed.

(** *** The circuit consumer *)

(** The monitor is attached and its reader still there. *)
Definition live q id : bool :=
  match sub q id with Some s => negb (reader_gone s) | None => false end.

(** [inv] does not depend on the drain and burst flags. *)
Lemma inv_flags q q' es :
  inv q es -> ring q' = ring q -> getix q' = getix q -> used q' = used q ->
  n_duplicates q' = n_duplicates q -> subs q' = subs q -> free q' = free q ->
  quota q' = quota q -> qsize q' = qsize q -> replace_threshold q' = replace_threshold q ->
  unreported_ends q' = unreported_ends q -> inv q' es.
Proof.
  intros [L S C] Er Eg Eu Ed Es Ef Eq Ez Et Ee. split.
  - by apply (layout_frame q).
  - rewrite Es. unfold ix in *. by rewrite Eg, Ez.
  - destruct C. split; rewrite ?Es, ?Ef, ?Eq, ?Ez, ?Et, ?Eu, ?Ed, ?Ee; done.
Qed.

Lemma pop_live q e es s q' :
  sub q (entry_id e) = Some s ->
  (reader_gone s = false ->
   sub q' (entry_id e) = Some (set_npend_last s (npend s - 1) (last s))) ->
  (reader_gone s = true -> live q' (entry_id e) = false) ->
  (forall id, id <> entry_id e -> sub q' id = sub q id) ->
  inv q (e :: es) -> forall id, live q' id = live q id.
Proof.
  intros Hs Hl Hc Ho _ id. destruct (decide (id = entry_id e)) as [->|Hne].
  - unfold live at 2. rewrite Hs. destruct (reader_gone s) eqn:E; [by apply Hc|].
    unfold live. rewrite Hl by done.
    change (reader_gone (set_npend_last s _ _)) with (reader_gone s). by rewrite E.
  - unfold live. by rewrite Ho.
Qed.

Lemma advance_live q e es at_ id b q' ret :
  inv q (e :: es) -> advance q = Some (at_, id, b, q', ret) ->
  forall i, live q' i = live q i.
Proof.
  intros I Ha. pose proof I as [L S C].
  destruct (inv_pop q e es I) as (s & q1 & r1 & Hs & Ha' & _ & _ & _ & _ & Hl & Ho & _).
  rewrite Ha' in Ha. injection Ha as <- <- <- <- <-.
  eapply pop_live; try done. intros Er.
  pose proof Hs as [Hs1 Hid]%(sub_Some q (e :: es)); [|done].
  rewrite (advance_eq q e es s L Hs1 Hid), Er in Ha'. cbn [andb negb] in Ha'.
  assert (slot (sub_id s) < length (subs q)) as Hlt by (rewrite Hid; by eapply lookup_lt_Some).
  destruct (npend s - 1 =? 0); injection Ha' as <- _; rewrite <- Hid; unfold live, sub.
  - cbn [free_slot fst subs popped]. by rewrite list_insert_insert_eq, list_lookup_insert_eq.
  - cbn [popped subs]. rewrite list_lookup_insert_eq by done. rewrite decide_True by done.
    change (reader_gone (set_npend_last s (npend s - 1) (last s))) with (reader_gone s).
    by rewrite Er.
Qed.

Lemma live_put_ring q r id : live (put_ring q r) id = live q id.
Proof. done. Qed.

Lemma take_oldest_loop_spec fuel q es :
  inv q es -> length es <= fuel ->
  let '(ev, q', _) := take_oldest_loop fuel q in
  exists ds es',
    Forall (fun e => live q (entry_id e) = false) ds /\ inv q' es' /\
    (forall id, live q' id = live q id) /\
    match ev with
    | None => es = ds /\ es' = []
    | Some (Event id sid ctx log remaining) =>
        exists s, es = ds ++ mkEntry id log :: es' /\ sub q id = Some s /\
          reader_gone s = false /\ sid = sub_sid s /\ ctx = context s /\
          remaining = (0 <? length es')
    | Some _ => False
    end.
Proof.
  revert q es. induction fuel as [|fuel IH]; intros q es I Hf; cbn [take_oldest_loop].
  - destruct es; [|simpl in Hf; lia]. exists [], []. by split_and!.
  - destruct es as [|e es].
    { unfold advance. rewrite (lay_used _ _ (inv_layout _ _ I)). exists [], []. by split_and!. }
    destruct (inv_pop q e es I) as (s & q1 & r1 & Hs & Ha & Hr & Hu & _ & _ & Hl & Ho & I').
    pose proof (advance_live _ _ _ _ _ _ _ _ I Ha) as Hlive.
    rewrite Ha. rewrite negb_involutive. destruct (reader_gone s) eqn:Er.
    + specialize (IH (put_ring q1 (<[getix q := None]> (ring q1))) es I').
      destruct (take_oldest_loop fuel _) as [[ev q2] r2].
      destruct IH as (ds & es' & Hds & I2 & Hl2 & Hev); [simpl in Hf; lia|].
      assert (forall id, live (put_ring q1 (<[getix q := None]> (ring q1))) id = live q id)
        as Hlq by done.
      exists (e :: ds), es'. split_and!; try done.
      * constructor; [unfold live; by rewrite Hs, Er|].
        eapply Forall_impl; [|exact Hds]. intros x. cbv beta. by rewrite Hlq.
      * intros id. rewrite Hl2. apply Hlq.
      * destruct ev as [[id sid ctx log rem| |]|]; [|done|done|].
        -- destruct Hev as (t & -> & Ht & Hrt & Hsid & Hctx & Hrem). exists t.
           split_and!; try done. rewrite <- Ho; [done|]. intros ->.
           assert (live q (entry_id e) = true); [|unfold live in *; rewrite Hs, Er in *; done].
           rewrite <- Hlq. unfold live. rewrite Ht, Hrt. done.
        -- destruct Hev as [-> ->]. done.
    + rewrite (Hl eq_refl), Hr, (layout_head _ _ _ (inv_layout _ _ I)).
      rewrite Hr in I'.
      exists [], es. split_and!; try done.
      exists s. split_and!; try done; [by destruct e|by rewrite Hu].
Qed.

(** *** Closing and end of stream *)

Lemma others_kept_refl at_ id es : others_kept at_ at_ id es es.
Proof. split_and!; eauto. Qed.

(** Changing a subscription's flags alone. *)
Lemma inv_set_flags q q' es s g b :
  inv q es -> subs q !! slot (sub_id s) = Some (Some s) ->
  (reader_gone (set_gone s g b) = true -> 0 < npend s) ->
  subs q' = <[slot (sub_id s) := Some (set_gone s g b)]> (subs q) ->
  ring q' = ring q -> getix q' = getix q -> used q' = used q ->
  n_duplicates q' = n_duplicates q -> free q' = free q -> quota q' = quota q ->
  qsize q' = qsize q -> replace_threshold q' = replace_threshold q ->
  unreported_ends q' + owes_end s = unreported_ends q + owes_end (set_gone s g b) ->
  (b = true -> producer_gone (set_gone s g b) = true) ->
  inv q' es.
Proof.
  intros [L S C] Hs Hr Es Er Eg Eu Ed Ef Eq Ez Et Ee Hb. split.
  - by apply (layout_frame q).
  - rewrite Es.
    assert (slab_ok (ix q) (<[slot (sub_id s) := Some (set_gone s g b)]> (subs q)) es) as S'.
    { apply (slab_ok_update (ix q)) with es; try done.
      - by apply (sl_npend _ _ _ S _ _ Hs).
      - apply (sl_last _ _ _ S _ _ Hs).
      - apply others_kept_refl. }
    unfold ix in *. by rewrite Eg, Ez.
  - eapply (counts_update q q' s (set_gone s g b)); try done; cbn [npend set_gone]; try lia.
    rewrite Ed. apply C.
Qed.

Lemma lor_gone_producer g : negb (Z.land (Z.lor g PRODUCER_GONE) PRODUCER_GONE =? 0)%Z = true.
Proof.
  unfold PRODUCER_GONE. rewrite Z.land_lor_distr_l. change (Z.land 1 1) with 1%Z.
  destruct (Z.eqb_spec (Z.lor (Z.land g 1) 1) 0) as [E|]; [|done].
  apply Z.lor_eq_0_iff in E as [_ E]. discriminate E.
Qed.

Lemma lor_producer_reader g :
  Z.land (Z.lor g PRODUCER_GONE) READER_GONE = Z.land g READER_GONE.
Proof.
  unfold PRODUCER_GONE, READER_GONE. rewrite Z.land_lor_distr_l.
  change (Z.land 1 2) with 0%Z. by rewrite Z.lor_0_r.
Qed.

Lemma inv_close_producer q es id :
  inv q es -> inv (close_producer q id).2 es.
Proof.
  intros I. unfold close_producer. destruct (sub q id) as [s|] eqn:Hsub; [|done].
  destruct (producer_gone s) eqn:Ep; [done|]. cbn [negb snd].
  pose proof Hsub as [Hs <-]%(sub_Some _ es); [|done].
  assert (end_reported s = false) as Ee.
  { apply not_true_is_false. intros E.
    apply (ct_reported _ (inv_counts _ _ I) _ _ Hs) in E. congruence. }
  eapply (inv_set_flags q _ es s); try done; cbn [unreported_ends put_sub].
  - intros Hr. apply (sl_cancel _ _ _ (inv_slab _ _ I) _ _ Hs).
    unfold reader_gone in *. cbn [gone set_gone] in Hr. by rewrite lor_producer_reader in Hr.
  - unfold owes_end. rewrite Ep. unfold producer_gone. cbn [gone set_gone end_reported].
    rewrite lor_gone_producer, Ee. cbn [andb negb]. lia.
  - congruence.
Qed.

Lemma lor_reader_producer g :
  Z.land (Z.lor g READER_GONE) PRODUCER_GONE = Z.land g PRODUCER_GONE.
Proof.
  unfold PRODUCER_GONE, READER_GONE. rewrite Z.land_lor_distr_l.
  change (Z.land 2 1) with 0%Z. by rewrite Z.lor_0_r.
Qed.

Lemma producer_gone_lor_reader s b :
  producer_gone (set_gone s (Z.lor (gone s) READER_GONE) b) = producer_gone s.
Proof. unfold producer_gone. cbn [gone set_gone]. by rewrite lor_reader_producer. Qed.

Lemma inv_close_reader q es id :
  inv q es -> inv (close_reader q id).1 es.
Proof.
  intros I. unfold close_reader. destruct (sub q id) as [s|] eqn:Hsub; [|done].
  pose proof Hsub as [Hs <-]%(sub_Some _ es); [|done]. pose proof I as [L S C].
  assert (slot (sub_id s) < length (subs q)) as Hlt by (by eapply lookup_lt_Some).
  set (s' := set_gone s (Z.lor (gone s) READER_GONE) (end_reported s)).
  destruct (Nat.eqb_spec (npend s) 0) as [En|En].
  - pose proof (free_slot_eq (put_sub q (slot (sub_id s)) (Some s')) s') as Hfs.
    change (sub_id s') with (sub_id s) in Hfs.
    rewrite Hfs by (by apply list_lookup_insert_eq). cbn [fst subs put_sub].
    rewrite list_insert_insert_eq. split.
    + by apply (layout_frame q).
    + cbn [subs]. apply slab_ok_free; [done|done|].
      by rewrite <- (sl_npend _ _ _ S _ _ Hs).
    + eapply (counts_free q _ s); try done; cbn; try lia.
      unfold owes_end, s'. by rewrite producer_gone_lor_reader.
  - cbn [fst]. eapply (inv_set_flags q _ es s); try done.
    + intros _. lia.
    + unfold owes_end. by rewrite producer_gone_lor_reader.
    + rewrite producer_gone_lor_reader. apply (ct_reported _ C _ _ Hs).
Qed.

Lemma inv_take_ended q es : inv q es -> inv (take_ended q).2 es.
Proof.
  intros I. unfold take_ended. destruct (unreported_ends q =? 0) eqn:E0; [done|].
  destruct (list_find ended (subs q)) as [[i [s|]]|] eqn:Ef; [|done|done].
  apply list_find_Some in Ef as (Hs & Hend & _). cbn [ended snd] in *.
  apply Is_true_true, andb_prop in Hend as [Hend Hz%Nat.eqb_eq].
  apply andb_prop in Hend as [Hp He%negb_true_iff].
  pose proof (sl_slot _ _ _ (inv_slab _ _ I) _ _ Hs) as Hi. subst i.
  eapply (inv_set_flags q _ es s); try done.
  - intros Hr. by apply (sl_cancel _ _ _ (inv_slab _ _ I) _ _ Hs).
  - cbn [unreported_ends]. apply Nat.eqb_neq in E0. unfold owes_end.
    cbn [end_reported set_gone]. rewrite Hp, He, andb_false_r. cbn. lia.
Qed.

(** *** A monitor's own reader *)

Definition ring_as q (r : list (option Entry)) es : Prop :=
  length r = qsize q /\ forall k, k < qsize q -> r !! ix q k = Some (es !! k).

Lemma lookup_split {A} (pre post : list A) x j :
  (pre ++ x :: post) !! j
  = if decide (j < length pre) then pre !! j
    else if decide (j = length pre) then Some x else post !! (j - S (length pre)).
Proof.
  case_decide; [by apply lookup_app_l|]. rewrite lookup_app_r by lia. case_decide.
  - subst. by rewrite Nat.sub_diag.
  - by replace (j - length pre) with (S (j - S (length pre))) by lia.
Qed.

Lemma ring_as_swap q r pre x e post :
  getix q < qsize q -> length (pre ++ x :: e :: post) <= qsize q ->
  ring_as q r (pre ++ x :: e :: post) ->
  ring_as q (swap r (ix q (S (length pre))) (ix q (length pre))) (pre ++ e :: x :: post).
Proof.
  intros Hg Hl [Hlen Hr]. rewrite length_app in Hl. simpl in Hl. set (k := length pre) in *.
  assert (r !! ix q (S k) = Some (Some e)) as He.
  { rewrite Hr, lookup_split by lia. rewrite !decide_False by (subst k; lia).
    subst k. by rewrite Nat.sub_diag. }
  assert (r !! ix q k = Some (Some x)) as Hx.
  { rewrite Hr, lookup_split by lia. by rewrite decide_False, decide_True by (subst k; lia). }
  unfold swap. rewrite He, Hx. split; [by rewrite !length_insert|].
  assert (forall i j, i < qsize q -> j < qsize q -> i <> j -> ix q i <> ix q j) as Hne
    by (intros i j ?? Hij E; apply Hij; by eapply ix_inj).
  intros j Hj. destruct (decide (j = k)) as [->|Hjk].
  { rewrite list_lookup_insert_eq by (rewrite length_insert, Hlen; apply ix_lt; lia).
    rewrite lookup_split. by rewrite decide_False, decide_True by (subst k; lia). }
  rewrite list_lookup_insert_ne by (apply Hne; lia).
  destruct (decide (j = S k)) as [->|Hjk'].
  { rewrite list_lookup_insert_eq by (rewrite Hlen; apply ix_lt; lia).
    rewrite lookup_split. rewrite !decide_False by (subst k; lia).
    subst k. by rewrite Nat.sub_diag. }
  rewrite list_lookup_insert_ne, Hr by (try apply Hne; lia). f_equal.
  rewrite !lookup_split. case_decide; [done|]. rewrite !decide_False by (subst k; lia).
  by replace (j - S (length pre)) with (S (j - S (S (length pre)))) by (subst k; lia).
Qed.

Lemma rotate_ring q r pre e post :
  getix q < qsize q -> length (pre ++ e :: post) <= qsize q -> ring_as q r (pre ++ e :: post) ->
  ring_as q (foldl (fun r j => swap r (ix q j) (ix q (j - 1))) r (reverse (seq 1 (length pre))))
    (e :: pre ++ post).
Proof.
  intros Hg. revert r post. induction pre as [|x pre IH] using rev_ind; intros r post Hl Hr;
    [done|].
  rewrite length_app, Nat.add_1_r, seq_S, reverse_app. cbn [reverse foldl app].
  rewrite reverse_singleton. cbn [app foldl].
  rewrite <- app_assoc in Hl, Hr. cbn [app] in Hl, Hr.
  replace (1 + length pre) with (S (length pre)) by lia.
  replace (S (length pre) - 1) with (length pre) by lia.
  rewrite <- app_assoc. cbn [app]. apply IH; [by rewrite length_app in *|].
  by apply ring_as_swap.
Qed.

Lemma off_ix q k :
  getix q < qsize q -> k < qsize q -> ring_wrap (ix q k + qsize q - getix q) (qsize q) = k.
Proof.
  intros. unfold ix, ring_wrap. repeat case_match; rewrite ?Nat.leb_le, ?Nat.leb_gt in *; lia.
Qed.

Lemma ix_succ q k :
  getix q < qsize q -> S k < qsize q -> ring_wrap (ix q k + 1) (qsize q) = ix q (S k).
Proof.
  intros. unfold ix, ring_wrap. repeat case_match; rewrite ?Nat.leb_le, ?Nat.leb_gt in *; lia.
Qed.

Lemma lookup_rotated {A} (pre post : list A) e m :
  (e :: pre ++ post) !! m
  = if decide (m = 0) then Some e
    else if decide (m <= length pre) then (pre ++ e :: post) !! (m - 1)
    else (pre ++ e :: post) !! m.
Proof.
  destruct m as [|m]; [done|]. change ((e :: pre ++ post) !! S m) with ((pre ++ post) !! m).
  rewrite decide_False by done.
  case_decide as Hm.
  - rewrite lookup_app_l by lia. rewrite lookup_split, decide_True by lia.
    by replace (S m - 1) with m by lia.
  - rewrite lookup_app_r by lia. rewrite lookup_split, !decide_False by lia. done.
Qed.

Lemma newest_rotated id pre e post j :
  j <> length pre -> newest id (pre ++ e :: post) j -> (j < length pre -> entry_id e <> id) ->
  newest id (e :: pre ++ post) (if decide (j < length pre) then S j else j).
Proof.
  intros Hj [(x & Hx & Ex) Hn] He. split.
  - exists x. rewrite lookup_rotated. split; [|done].
    destruct (decide (j < length pre)).
    + rewrite decide_False, decide_True by lia. by replace (S j - 1) with j by lia.
    + by rewrite !decide_False by lia.
  - intros m y Hm. rewrite lookup_rotated.
    destruct (decide (j < length pre)); rewrite decide_False by lia; case_decide; intros Hy;
      (eapply Hn; [|exact Hy]; lia).
Qed.

(** A subscription with nothing pending may hold any [last]. *)
Lemma inv_last_irrelevant q es s l :
  inv q es -> subs q !! slot (sub_id s) = Some (Some s) -> npend s = 0 ->
  inv (put_sub q (slot (sub_id s)) (Some (set_npend_last s 0 l))) es.
Proof.
  intros [L S C] Hs Hz. split.
  - by apply (layout_frame q).
  - cbn [subs put_sub]. apply (slab_ok_update (ix q)) with es; try done; cbn [npend set_npend_last].
    + by rewrite <- (sl_npend _ _ _ S _ _ Hs), Hz.
    + lia.
    + intros Hr. apply (sl_cancel _ _ _ S _ _ Hs) in Hr. lia.
    + apply others_kept_refl.
  - eapply (counts_update q _ s (set_npend_last s 0 l)); try done; cbn; try lia; [apply C|].
    apply (ct_reported _ C _ _ Hs).
Qed.

Lemma count_rotated id pre e post : count id (e :: pre ++ post) = count id (pre ++ e :: post).
Proof. rewrite count_cons, !count_app, count_cons. lia. Qed.

(** How the rotation moves a subscription's newest-entry index. *)
Definition rotated_sub q k (s : SubQ) : SubQ :=
  if (0 <? npend s) && (ring_wrap (last s + qsize q - getix q) (qsize q) <? k)
  then set_npend_last s (npend s) (ring_wrap (last s + 1) (qsize q)) else s.

Lemma rotated_sub_fields q k s :
  let t := rotated_sub q k s in
  sub_id t = sub_id s /\ npend t = npend s /\ reader_gone t = reader_gone s /\
  owes_end t = owes_end s /\ end_reported t = end_reported s /\
  producer_gone t = producer_gone s.
Proof. unfold rotated_sub. by case_match. Qed.

Section Rotate.
Context (q : QueInner) (pre : list Entry) (e : Entry) (post : list Entry) (s : SubQ).
Hypothesis I : inv q (pre ++ e :: post).
Hypothesis Hs : subs q !! slot (sub_id s) = Some (Some s).
Hypothesis He : entry_id e = sub_id s.
Hypothesis Hpre : Forall (fun x => entry_id x <> sub_id s) pre.

Let k := length pre.
Let q1 := rotate_to_head q k.

(** The rotated queue, with the taken monitor's index put on the head if it is alone. *)
Definition head_sub : SubQ :=
  if decide (npend s = 1) then set_npend_last s 1 (ix q 0) else s.

Lemma rot_room : k < qsize q.
Proof.
  pose proof (lay_fits _ _ (inv_layout _ _ I)) as Hf. rewrite length_app in Hf. simpl in Hf.
  unfold k. lia.
Qed.

Lemma rot_newest : exists j, last s = ix q j /\ k <= j /\ newest (sub_id s) (pre ++ e :: post) j.
Proof.
  assert (0 < npend s) as Hp.
  { rewrite (sl_npend _ _ _ (inv_slab _ _ I) _ _ Hs). apply count_pos. exists e.
    split; [apply elem_of_app; right; left|done]. }
  destruct (sl_last _ _ _ (inv_slab _ _ I) _ _ Hs Hp) as (j & Hj & Hn). exists j.
  split_and!; try done. destruct (decide (j < k)) as [Hlt|]; [|lia].
  destruct Hn as [_ Hn]. exfalso. apply (Hn k e); [done| |done].
  rewrite lookup_split. by rewrite decide_False, decide_True by (unfold k; lia).
Qed.

Lemma newest_lt id es j : newest id es j -> j < length es.
Proof. intros [(x & Hx & _) _]. by eapply lookup_lt_Some. Qed.

Lemma rotated_self : rotated_sub q k s = s.
Proof.
  destruct rot_newest as (j & Hj & Hkj & Hn). pose proof (newest_lt _ _ _ Hn).
  pose proof (inv_layout _ _ I) as L. pose proof (lay_fits _ _ L).
  unfold rotated_sub. rewrite Hj, off_ix by (apply (lay_getix _ _ L) || lia).
  destruct (Nat.ltb_spec j k); [lia|]. by rewrite andb_false_r.
Qed.

Lemma subs_rotated : subs q1 = option_map (rotated_sub q k) <$> subs q.
Proof. done. Qed.

Lemma subs_rotated_self : subs q1 !! slot (sub_id s) = Some (Some s).
Proof. rewrite subs_rotated, list_lookup_fmap, Hs. cbn. by rewrite rotated_self. Qed.

Lemma rotated_lookup i t :
  subs q1 !! i = Some (Some t) -> exists t0, subs q !! i = Some (Some t0) /\ t = rotated_sub q k t0.
Proof.
  rewrite subs_rotated, list_lookup_fmap. destruct (subs q !! i) as [[t0|]|]; cbn; try done.
  intros [= <-]. eauto.
Qed.

(** Another monitor's newest entry after the rotation. *)
Lemma rotated_other t j :
  subs q !! slot (sub_id t) = Some (Some t) -> sub_id t <> sub_id s -> 0 < npend t ->
  last t = ix q j -> newest (sub_id t) (pre ++ e :: post) j ->
  exists j', last (rotated_sub q k t) = ix q1 j' /\ newest (sub_id t) (e :: pre ++ post) j'.
Proof.
  intros Ht Hne Hp Hl Hn. pose proof (inv_layout _ _ I) as L. pose proof (newest_lt _ _ _ Hn).
  pose proof (lay_fits _ _ L). pose proof (lay_getix _ _ L).
  assert (j <> k) as Hjk.
  { intros ->. destruct Hn as [(x & Hx & Ex) _]. rewrite lookup_split in Hx.
    rewrite decide_False, decide_True in Hx by (unfold k; lia). injection Hx as <-. congruence. }
  eexists. split; [|apply newest_rotated; [exact Hjk|done|intros _; congruence]].
  change (ix q1) with (ix q). unfold rotated_sub. rewrite Hl, off_ix by lia.
  destruct (Nat.ltb_spec 0 (npend t)); [|lia]. cbn [andb]. fold k.
  pose proof rot_room.
  destruct (Nat.ltb_spec j k); [rewrite decide_True by done|by rewrite decide_False by lia].
  cbn [last set_npend_last]. apply ix_succ; lia.
Qed.

Lemma head_sub_fields :
  sub_id head_sub = sub_id s /\ npend head_sub = npend s /\ reader_gone head_sub = reader_gone s /\
  owes_end head_sub = owes_end s /\ end_reported head_sub = end_reported s /\
  producer_gone head_sub = producer_gone s.
Proof. unfold head_sub. by case_decide as E; [rewrite E|]. Qed.

Lemma head_sub_newest :
  exists j, last head_sub = ix q1 j /\ newest (sub_id s) (e :: pre ++ post) j.
Proof.
  destruct rot_newest as (j & Hj & Hkj & Hn). change (ix q1) with (ix q).
  pose proof (sl_npend _ _ _ (inv_slab _ _ I) _ _ Hs) as Hc.
  rewrite <- count_rotated, count_cons, decide_True in Hc by done.
  unfold head_sub. case_decide as E.
  - exists 0. split; [done|]. split; [by exists e|].
    intros m x Hm Hx Ex. destruct m as [|m]; [lia|].
    assert (0 < count (sub_id s) (pre ++ post)); [|lia].
    apply count_pos. exists x. split; [by apply (list_elem_of_lookup_2 _ m)|done].
  - assert (j <> k) as Hjk.
    { intros ->. apply E. rewrite Hc. f_equal.
      destruct (count (sub_id s) (pre ++ post)) eqn:E'; [done|exfalso].
      assert (0 < count (sub_id s) (pre ++ post)) as (x & Hx & Ex)%count_pos by lia.
      apply elem_of_app in Hx as [Hx|Hx].
      - rewrite list.Forall_forall in Hpre. by apply (Hpre x).
      - apply list_elem_of_lookup_1 in Hx as [m Hm]. destruct Hn as [_ Hn].
        apply (Hn (k + S m) x); [lia| |done].
        rewrite lookup_split. rewrite !decide_False by (unfold k; lia).
        by replace (k + S m - S (length pre)) with m by (unfold k; lia). }
    exists j. split; [done|].
    pose proof (newest_rotated (sub_id s) pre e post j Hjk Hn) as Hr.
    rewrite decide_False in Hr by (unfold k in *; lia). apply Hr. unfold k in *. lia.
Qed.

Lemma inv_rotated : inv (put_sub q1 (slot (sub_id s)) (Some head_sub)) (e :: pre ++ post).
Proof.
  pose proof I as [L S C]. destruct head_sub_fields as (F1 & F2 & F3 & F4 & F5 & F6).
  pose proof (lay_fits _ _ L) as Hfit. pose proof subs_rotated_self as Hself.
  assert (slot (sub_id s) < length (subs q1)) as Hlt by (by eapply lookup_lt_Some).
  assert (length (e :: pre ++ post) = length (pre ++ e :: post)) as Hlen
    by (simpl; rewrite !length_app; simpl; lia).
  assert (forall i t, <[slot (sub_id s) := Some head_sub]> (subs q1) !! i = Some (Some t) ->
    i = slot (sub_id s) /\ t = head_sub \/
    exists t0, subs q !! i = Some (Some t0) /\ t = rotated_sub q k t0 /\ sub_id t0 <> sub_id s)
    as Hcase.
  { intros i t Ht. destruct (decide (i = slot (sub_id s))) as [->|Hne].
    - rewrite list_lookup_insert_eq in Ht by done. left. split; congruence.
    - rewrite list_lookup_insert_ne in Ht by done. apply rotated_lookup in Ht as (t0 & Ht0 & ->).
      right. exists t0. split_and!; try done. intros E. apply Hne.
      apply (sl_slot _ _ _ S) in Ht0 as <-. by rewrite E. }
  split.
  - pose proof (rotate_ring q (ring q) pre e post (lay_getix _ _ L) Hfit
      (conj (lay_ring _ _ L) (lay_at _ _ L))) as [Hrl Hra].
    destruct L. split; try done; rewrite Hlen; done.
  - cbn [subs put_sub]. change (ix (put_sub q1 (slot (sub_id s)) (Some head_sub))) with (ix q1).
    split.
    + intros i t [[-> ->]|(t0 & Ht0 & -> & _)]%Hcase; [by rewrite F1|].
      destruct (rotated_sub_fields q k t0) as (-> & _). by apply (sl_slot _ _ _ S).
    + intros i t [[-> ->]|(t0 & Ht0 & -> & _)]%Hcase; rewrite count_rotated.
      * rewrite F1, F2. by apply (sl_npend _ _ _ S _ _ Hs).
      * destruct (rotated_sub_fields q k t0) as (-> & -> & _). by apply (sl_npend _ _ _ S _ _ Ht0).
    + intros i t [[-> ->]|(t0 & Ht0 & -> & Hne)]%Hcase Hp.
      * rewrite F1. apply head_sub_newest.
      * destruct (rotated_sub_fields q k t0) as (-> & Hn & _). rewrite Hn in Hp.
        destruct (sl_last _ _ _ S _ _ Ht0 Hp) as (j & Hj & Hnew).
        apply (sl_slot _ _ _ S) in Ht0 as Hi. subst i. by apply (rotated_other t0 j).
    + intros x Hx. assert (x ∈ pre ++ e :: post) as Hx'.
      { apply elem_of_app. rewrite elem_of_cons in *. rewrite elem_of_app in Hx. tauto. }
      destruct (sl_entry _ _ _ S x Hx') as (t & Ht & Et).
      destruct (decide (slot (entry_id x) = slot (sub_id s))) as [Es|Es].
      * exists head_sub. rewrite Es in *. rewrite list_lookup_insert_eq by done.
        split; [done|]. rewrite F1. congruence.
      * exists (rotated_sub q k t). rewrite list_lookup_insert_ne by done.
        rewrite subs_rotated, list_lookup_fmap, Ht. split; [done|].
        by destruct (rotated_sub_fields q k t) as (-> & _).
    + intros i t [[-> ->]|(t0 & Ht0 & -> & _)]%Hcase Hr.
      * rewrite F2. apply (sl_cancel _ _ _ S _ _ Hs). congruence.
      * destruct (rotated_sub_fields q k t0) as (_ & -> & Hrr & _).
        apply (sl_cancel _ _ _ S _ _ Ht0). congruence.
  - assert (counts_ok q1) as C1.
    { destruct C. split; rewrite ?subs_rotated; rewrite ?length_fmap; try done.
      - rewrite (slab_sum_ext npend); [done|]. intros t _. by destruct (rotated_sub_fields q k t) as (_ & -> & _).
      - rewrite (slab_sum_ext (fun s => npend s - 1)); [done|].
        intros t _. by destruct (rotated_sub_fields q k t) as (_ & -> & _).
      - by rewrite (slab_sum_ext (fun _ => 1)).
      - intros i. rewrite list_lookup_fmap. cbn [q1 rotate_to_head free]. rewrite ct_free_in0.
        destruct (subs q !! i) as [[t|]|]; cbn; split; congruence.
      - rewrite (slab_sum_ext owes_end); [done|].
        intros t _. by destruct (rotated_sub_fields q k t) as (_ & _ & _ & -> & _).
      - intros i t Ht He'. rewrite <- subs_rotated in Ht.
        apply rotated_lookup in Ht as (t0 & Ht0 & ->).
        destruct (rotated_sub_fields q k t0) as (_ & _ & _ & _ & E5 & E6).
        rewrite E6. apply (ct_reported0 _ _ Ht0). congruence. }
    eapply (counts_update q1 _ s head_sub C1 Hself); try done; cbn [used n_duplicates unreported_ends put_sub].
    + lia.
    + lia.
    + apply C1.
    + lia.
    + rewrite F5, F6. apply (ct_reported _ C _ _ Hs).
Qed.

(** Taking the entry once it is at the head. *)
Lemma pop_rotated :
  reader_gone s = false ->
  advance q1 = Some (getix q, sub_id s, true, popped q1 s, []) /\
  ring q1 !! getix q = Some (Some e) /\
  inv (put_ring (popped q1 s) (<[getix q := None]> (ring q1))) (pre ++ post).
Proof.
  intros Hr. pose proof inv_rotated as I1. pose proof subs_rotated_self as Hself.
  set (qf := put_sub q1 (slot (sub_id s)) (Some head_sub)) in *.
  assert (layout q1 (e :: pre ++ post)) as L1 by (by apply (layout_frame qf); [apply I1|..]).
  destruct head_sub_fields as (F1 & F2 & F3 & _).
  assert (slot (sub_id s) < length (subs q1)) as Hlt by (by eapply lookup_lt_Some).
  split_and!.
  - rewrite (advance_eq q1 e (pre ++ post) s L1) by (by rewrite ?He).
    by rewrite Hr, He.
  - apply (layout_head _ _ _ L1).
  - destruct (inv_pop qf e (pre ++ post) I1) as (t & q' & ret & Ht & Ha & _ & _ & _ & _ & _ & _ & I2).
    assert (t = head_sub) as ->.
    { unfold sub in Ht. cbn [subs qf put_sub] in Ht. rewrite He, list_lookup_insert_eq in Ht by done.
      rewrite decide_True in Ht by (by rewrite F1). congruence. }
    rewrite (advance_eq qf e (pre ++ post) head_sub (inv_layout _ _ I1)) in Ha;
      [|rewrite He; by apply list_lookup_insert_eq|by rewrite F1].
    rewrite F3, Hr in Ha. cbn [andb negb] in Ha. injection Ha as <- _.
    change (getix qf) with (getix q) in I2.
    unfold head_sub in *. case_decide as E.
    + pose proof (inv_last_irrelevant _ _ (set_npend_last s 0 (ix q 0)) (last s) I2) as I3.
      eapply inv_flags; [apply I3|..]; try done.
      * cbn [subs put_ring popped sub_id set_npend_last npend last].
        apply list_lookup_insert_eq. unfold qf. cbn [subs put_sub]. by rewrite length_insert.
      * cbn -[ix ring_wrap]. by rewrite E.
      * cbn -[ix ring_wrap]. by rewrite !list_insert_insert_eq, E.
    + eapply inv_flags; [apply I2|..]; try done.
      cbn -[ix ring_wrap]. by rewrite list_insert_insert_eq.
Qed.
End Rotate.

Lemma drop_cancelled_spec fuel q es :
  inv q es -> length es <= fuel ->
  let '(q', _) := drop_cancelled fuel q in
  exists ds es',
    es = ds ++ es' /\ Forall (fun e => live q (entry_id e) = false) ds /\ inv q' es' /\
    (forall id, live q' id = live q id) /\ (forall id, live q id = true -> sub q' id = sub q id).
Proof.
  revert q es. induction fuel as [|fuel IH]; intros q es I Hf; cbn [drop_cancelled].
  - exists [], es. by split_and!.
  - destruct es as [|e es].
    { rewrite (lay_used _ _ (inv_layout _ _ I)). exists [], []. by split_and!. }
    pose proof (inv_layout _ _ I) as L. rewrite (lay_used _ _ L). cbn [length Nat.eqb].
    rewrite (layout_head _ _ _ L). cbn [mjoin option_join]. fold (live q (entry_id e)).
    destruct (live q (entry_id e)) eqn:El; [exists [], (e :: es); by split_and!|].
    destruct (inv_pop q e es I) as (s & q1 & r1 & Hs & Ha & Hr & _ & _ & _ & _ & Ho & I').
    pose proof (advance_live _ _ _ _ _ _ _ _ I Ha) as Hlive. rewrite Ha.
    specialize (IH (put_ring q1 (<[getix q := None]> (ring q1))) es I').
    destruct (drop_cancelled fuel _) as [q2 r2].
    destruct IH as (ds & es' & -> & Hds & I2 & Hl2 & Hs2); [simpl in Hf; lia|].
    exists (e :: ds), es'. split_and!; try done.
    + constructor; [done|]. eapply Forall_impl; [|exact Hds]. intros x.
      cbv beta. by rewrite live_put_ring, Hlive.
    + intros id. by rewrite Hl2, live_put_ring, Hlive.
    + intros id Hid. rewrite Hs2 by (by rewrite live_put_ring, Hlive).
      apply Ho. intros ->. congruence.
Qed.

(** The first entry of a monitor. *)
Lemma first_of id es :
  0 < count id es ->
  exists pre e post, es = pre ++ e :: post /\ entry_id e = id /\
    Forall (fun x => entry_id x <> id) pre.
Proof.
  induction es as [|x es IH]; [unfold count; simpl; lia|].
  destruct (decide (entry_id x = id)) as [E|E]; [by exists [], x, es|].
  rewrite count_cons, decide_False by done. intros (pre & e & post & -> & He & Hp)%IH.
  exists (x :: pre), e, post. split_and!; try done. by constructor.
Qed.

Lemma find_app_none {A} (f : A -> bool) l k :
  List.find f l = None -> List.find f (l ++ k) = List.find f k.
Proof. induction l as [|x l IH]; [done|]. simpl. destruct (f x); [done|apply IH]. Qed.

Lemma find_first_of q pre e post :
  inv q (pre ++ e :: post) -> Forall (fun x => entry_id x <> entry_id e) pre ->
  List.find (holds_at q (entry_id e)) (seq 0 (used q)) = Some (length pre).
Proof.
  intros I Hp. pose proof (inv_layout _ _ I) as L. pose proof (lay_fits _ _ L) as Hf.
  rewrite length_app in Hf. simpl in Hf.
  assert (forall j x, (pre ++ e :: post) !! j = Some x ->
    holds_at q (entry_id e) j = bool_decide (entry_id x = entry_id e)) as Hh.
  { intros j x Hx. unfold holds_at. apply lookup_lt_Some in Hx as Hlt.
    rewrite length_app in Hlt. simpl in Hlt. rewrite (lay_at _ _ L) by lia. by rewrite Hx. }
  rewrite (lay_used _ _ L), length_app. cbn [length]. rewrite seq_app.
  assert (List.find (holds_at q (entry_id e)) (seq 0 (length pre)) = None) as Hn.
  { destruct (List.find _ _) as [j|] eqn:E; [|done]. apply find_some in E as [Hin Hj].
    apply in_seq in Hin. destruct (lookup_lt_is_Some_2 pre j) as [x Hx]; [lia|].
    rewrite (Hh j x) in Hj by (by rewrite lookup_app_l by lia).
    apply bool_decide_eq_true in Hj. exfalso.
    apply (proj1 (list.Forall_forall _ _) Hp x); [by eapply list_elem_of_lookup_2|done]. }
  rewrite find_app_none by done. cbn [seq List.find]. rewrite Nat.add_0_l.
  rewrite (Hh _ e) by (by rewrite lookup_split, decide_False, decide_True by lia).
  by rewrite bool_decide_eq_true_2.
Qed.

Lemma live_rotated q k id : live (rotate_to_head q k) id = live q id.
Proof.
  unfold live, sub. cbn [subs rotate_to_head]. rewrite list_lookup_fmap.
  destruct (subs q !! slot id) as [[t|]|]; [|done|done]. cbn [fmap option_fmap option_map].
  fold (rotated_sub q k t). destruct (rotated_sub_fields q k t) as (-> & _ & Hr & _).
  case_decide; [by rewrite Hr|done].
Qed.

Lemma live_popped q s id :
  subs q !! slot (sub_id s) = Some (Some s) -> live (popped q s) id = live q id.
Proof.
  intros Hs. assert (slot (sub_id s) < length (subs q)) by (by eapply lookup_lt_Some).
  destruct (decide (id = sub_id s)) as [->|Hne].
  - unfold live, sub. cbn [subs popped]. rewrite list_lookup_insert_eq, Hs by done. by rewrite !decide_True by done.
  - unfold live. by rewrite popped_subs.
Qed.

(** What a monitor's own reader takes: its oldest entry, wherever it is. *)
Lemma inv_take_for q es id :
  inv q es -> live q id = true -> 0 < count id es ->
  let '(log, q', _) := take_for q id in
  exists ds pre e post,
    es = ds ++ pre ++ e :: post /\ Forall (fun x => live q (entry_id x) = false) ds /\
    Forall (fun x => entry_id x <> id) pre /\ entry_id e = id /\ log = Some (entry_log e) /\
    inv q' (pre ++ post) /\ (forall i, live q' i = live q i).
Proof.
  intros I Hl Hc. unfold take_for.
  pose proof (drop_cancelled_spec (used q) q es I) as Hd.
  rewrite (lay_used _ _ (inv_layout _ _ I)) in Hd at 1.
  destruct (drop_cancelled (used q) q) as [q1 r1].
  destruct Hd as (ds & es1 & -> & Hds & I1 & Hl1 & Hs1); [done|].
  assert (0 < count id es1) as Hc1.
  { rewrite count_app in Hc. destruct (count id ds) eqn:E; [lia|exfalso].
    assert (0 < count id ds) as (x & Hx & Ex)%count_pos by lia.
    apply (proj1 (list.Forall_forall _ _) Hds) in Hx. congruence. }
  destruct (first_of id es1 Hc1) as (pre & e & post & -> & He & Hp). subst id.
  rewrite (find_first_of q1 pre e post) by done.
  destruct (sl_entry _ _ _ (inv_slab _ _ I1) e) as (s & Hs & Hid);
    [apply elem_of_app; right; left|].
  assert (reader_gone s = false) as Hr.
  { rewrite <- Hl1 in Hl. unfold live, sub in Hl. rewrite Hs, decide_True in Hl by done.
    by apply negb_true_iff. }
  destruct (Nat.ltb_spec 0 (length pre)) as [Hk|Hk].
  - rewrite <- Hid in *.
    destruct (pop_rotated q1 pre e post s I1 Hs (eq_sym Hid) Hp Hr) as (Ha & Hg & I2).
    rewrite Ha. change (ring (popped _ s)) with (ring (rotate_to_head q1 (length pre))).
    rewrite Hg. exists ds, pre, e, post. split_and!; try done.
    intros i. rewrite live_put_ring, live_popped, live_rotated by (by apply subs_rotated_self with e post).
    apply Hl1.
  - destruct pre; [|simpl in Hk; lia].
    destruct (inv_pop q1 e post I1) as (t & q2 & r2 & Ht & Ha & Hri & _ & _ & _ & _ & _ & I2).
    pose proof (advance_live _ _ _ _ _ _ _ _ I1 Ha) as Hlive.
    rewrite Ha, Hri, (layout_head _ _ _ (inv_layout _ _ I1)). rewrite Hri in I2.
    exists ds, [], e, post. split_and!; try done.
    intros i. by rewrite live_put_ring, Hlive.
Qed.

(** ** Runs

    What the record side, the circuit and the readers do to one queue.  A monitor's own
    reader is asked only while it exists. *)
Inductive QueOp : Type :=
| DoAttach (generation sid : Z) (k : LogKind) (ctx : DeliveryContext)
| DoPost (id : AttachId) (log : PostLog)
| DoPoll
| DoTryNext (id : AttachId)
| DoCloseProducer (id : AttachId)
| DoCloseReader (id : AttachId)
| DoFlow (on : bool)
| DoWake.

Record QueState : Type := mkState { que : QueInner; flow : bool }.

Definition end_burst q : QueInner :=
  mkQue (ring q) (getix q) (used q) (n_duplicates q) (draining q) false (subs q) (free q)
    (quota q) (qsize q) (replace_threshold q) (unreported_ends q) (taken q).

Definition que_step (st : QueState) (op : QueOp) : QueState :=
  let q := que st in
  let fl := flow st in
  match op with
  | DoAttach g sid k ctx =>
      match try_attach q g sid k ctx with Some (_, q) => mkState q fl | None => st end
  | DoPost id log => mkState (post q fl id log).1.2 fl
  | DoPoll => mkState (poll_oldest q fl).1.2 fl
  | DoTryNext id => if live q id then mkState (try_next q fl id).1.2 fl else st
  | DoCloseProducer id => mkState (close_producer q id).2 fl
  | DoCloseReader id => mkState (close_reader q id).1 fl
  | DoFlow on => mkState q on
  | DoWake => mkState (end_burst q) fl
  end.

(** A queue of [n] events per queue after [ops]. *)
Definition que_run (n : nat) (ops : list QueOp) : QueState :=
  foldl que_step (mkState (EvQue_new n) false) ops.

(** The entries in the ring, oldest first. *)
Definition contents q : list Entry :=
  omap (fun k => mjoin (ring q !! ix q k)) (seq 0 (used q)).

Lemma omap_lookup_seq {A} (f : nat -> option A) (l : list A) a :
  (forall k, k < length l -> f (a + k) = l !! k) -> omap f (seq a (length l)) = l.
Proof.
  revert a. induction l as [|x l IH]; intros a Hf; [done|]. cbn [length seq omap list_omap].
  pose proof (Hf 0) as H0. rewrite Nat.add_0_r in H0. rewrite H0 by (simpl; lia). cbn.
  f_equal. apply IH. intros k Hk. replace (S a + k) with (a + S k) by lia.
  apply Hf. simpl. lia.
Qed.

Lemma contents_inv q es : inv q es -> contents q = es.
Proof.
  intros I. pose proof (inv_layout _ _ I) as L. unfold contents. rewrite (lay_used _ _ L).
  apply omap_lookup_seq. intros k Hk. rewrite Nat.add_0_l, (lay_at _ _ L); [by destruct (es !! k)|].
  pose proof (lay_fits _ _ L). lia.
Qed.

Lemma post_refused q fl id log :
  refuses_posts q id = true -> post q fl id log = (Closed, q, false).
Proof.
  unfold refuses_posts, post, sub. destruct (subs q !! slot id) as [[s|]|]; try done.
  case_decide as E.
  - rewrite bool_decide_eq_true_2 by done. intros E0. cbn [andb]. by rewrite E0.
  - by rewrite bool_decide_eq_false_2.
Qed.

Lemma refuses_posts_false q id :
  refuses_posts q id = false -> exists s, sub q id = Some s /\ gone s = 0%Z.
Proof.
  unfold refuses_posts. destruct (sub q id) as [s|]; [|done].
  intros E%negb_false_iff%Z.eqb_eq. eauto.
Qed.

Lemma inv_post_any q es fl id log : inv q es -> exists es', inv (post q fl id log).1.2 es'.
Proof.
  intros I. destruct (refuses_posts q id) eqn:E.
  - exists es. by rewrite post_refused.
  - apply refuses_posts_false in E as (s & Hs & Hg).
    pose proof (inv_post q es fl id log s I Hs Hg) as Hp.
    destruct (post q fl id log) as [[o q'] c]. destruct Hp as (es' & ? & _). by exists es'.
Qed.

Lemma inv_draining q es d : inv q es -> inv (set_draining q d) es.
Proof. intros I. by apply (inv_flags q). Qed.

Lemma inv_take_oldest q es fl : inv q es -> exists es', inv (take_oldest q fl).1.2 es'.
Proof.
  intros I. unfold take_oldest. case_match; [by exists es|].
  pose proof (take_oldest_loop_spec (used q) (set_draining q true) es (inv_draining _ _ _ I)) as Hl.
  destruct (take_oldest_loop _ _) as [[ev q'] r].
  destruct Hl as (ds & es' & _ & I' & _); [by rewrite (lay_used _ _ (inv_layout _ _ I))|].
  by exists es'.
Qed.

Lemma inv_poll_oldest q es fl : inv q es -> exists es', inv (poll_oldest q fl).1.2 es'.
Proof.
  intros I. unfold poll_oldest. destruct (inv_take_oldest q es fl I) as [es' I'].
  destruct (take_oldest q fl) as [[[ev|] q'] r]; [by exists es'|]. exists es'.
  apply inv_take_ended in I'. cbn [fst snd] in *. by destruct (take_ended q').
Qed.

Lemma live_npend q es id s :
  inv q es -> sub q id = Some s -> npend s = count id es.
Proof.
  intros I Hs. pose proof Hs as [Hs' <-]%(sub_Some _ es); [|done].
  by apply (sl_npend _ _ _ (inv_slab _ _ I) _ _ Hs').
Qed.

Lemma inv_try_next q es fl id :
  inv q es -> live q id = true -> exists es', inv (try_next q fl id).1.2 es'.
Proof.
  intros I Hl. unfold try_next. destruct (sub q id) as [s|] eqn:Hs; [|by exists es].
  pose proof (live_npend _ _ _ _ I Hs) as Hn.
  destruct (Nat.eqb_spec (npend s) 0) as [E|E]; [by exists es|].
  case_match; [by exists es|].
  pose proof (inv_take_for (set_draining q true) es id (inv_draining _ _ _ I) Hl) as Ht.
  destruct (take_for _ id) as [[lg q'] r].
  destruct Ht as (ds & pre & e & post & _ & _ & _ & _ & _ & I' & _); [lia|]. by exists (pre ++ post).
Qed.

Lemma inv_step st es op : inv (que st) es -> exists es', inv (que (que_step st op)) es'.
Proof.
  destruct st as [q fl]. cbn [que]. intros I. destruct op; cbn [que_step que flow].
  - destruct (try_attach q _ _ _ _) as [[id q']|] eqn:E; [|by exists es].
    apply (inv_try_attach _ _ _ _ _ _ _ _ I) in E as [I' _]. by exists es.
  - by apply inv_post_any with es.
  - by apply inv_poll_oldest with es.
  - destruct (live q id) eqn:El; [|by exists es]. by apply inv_try_next with es.
  - exists es. by apply inv_close_producer.
  - exists es. by apply inv_close_reader.
  - by exists es.
  - exists es. by apply (inv_flags q).
Qed.

Lemma inv_run n ops :
  4 <= n <= MAX_EVENTS_PER_QUE -> inv (que (que_run n ops)) (contents (que (que_run n ops))).
Proof.
  intros Hn. unfold que_run.
  assert (exists es, inv (que (mkState (EvQue_new n) false)) es) as Hex
    by (eexists; by apply inv_new).
  revert Hex. generalize (mkState (EvQue_new n) false) as st. 
  induction ops as [|op ops IH]; intros st [es I]; cbn [foldl].
  - by rewrite (contents_inv _ _ I).
  - apply IH. by apply inv_step with es.
Qed.

(** C6: in every state a queue can reach, the ring is never full, it holds as many
    entries as the subscriptions have pending, the duplicate count is the entries
    beyond the first of each subscription, and each attached subscription reserves
    four ring entries out of the ring. *)
Theorem event_queue_invariants (n : nat) (ops : list QueOp) :
  4 <= n <= MAX_EVENTS_PER_QUE ->
  let q := que (que_run n ops) in
  used q < qsize q /\
  used q = slab_sum npend (subs q) /\
  n_duplicates q = slab_sum (fun s => npend s - 1) (subs q) /\
  quota q = EVENT_ENTRIES * slab_sum (fun _ => 1) (subs q) /\
  quota q + EVENT_ENTRIES <= qsize q.
Proof.
  intros Hn. pose proof (inv_run n ops Hn) as I. cbv zeta.
  pose proof (ring_never_full _ _ I). destruct (inv_counts _ _ I).
  split_and!; try done; lia.
Qed.

(** C39: a post to a subscription that refuses posts changes nothing.  Otherwise the monitor's
    newest queued entry decides: with none the log is appended; a reference over a reference
    merges only the masks into it; any other log replaces it in place, keeping the masks of
    both, when flow control is on or the ring is within the threshold of full, and is appended
    otherwise.  No other entry changes or moves, and an append reports whether the queue was
    empty. *)
Theorem post_follows_the_queue_rule (n : nat) (ops : list QueOp) (id : AttachId)
    (log : PostLog) :
  4 <= n <= MAX_EVENTS_PER_QUE ->
  let st := que_run n ops in
  let q := que st in
  let '(o, q', _) := post q (flow st) id log in
  if refuses_posts q id then o = Closed /\ q' = q
  else exists s, sub q id = Some s /\
    post_effect (flow st) (ring_space q) (replace_threshold q) id (stored_log (kind s) log)
      (contents q) o (contents q').
Proof.
  intros Hn. pose proof (inv_run n ops Hn) as I. cbv zeta.
  set (q := que (que_run n ops)) in *. set (fl := flow (que_run n ops)).
  destruct (refuses_posts q id) eqn:E.
  - by rewrite post_refused.
  - apply refuses_posts_false in E as (s & Hs & Hg).
    pose proof (inv_post q _ fl id log s I Hs Hg) as Hp.
    destruct (post q fl id log) as [[o q'] c]. destruct Hp as (es' & I' & He).
    exists s. split; [done|]. by rewrite (contents_inv _ _ I').
Qed.

(** ** Delivery *)

(** Nothing is deliverable: the gate holds the entries back, or only cancelled ones
    were left and they are dropped. *)
Definition nothing_to_deliver q fl q' : Prop :=
  may_drain q fl = false /\ contents q' = contents q \/
  contents q' = [] /\ Forall (fun e => live q (entry_id e) = false) (contents q).

Lemma take_oldest_spec q fl :
  inv q (contents q) ->
  let '(ev, q', _) := take_oldest q fl in
  inv q' (contents q') /\ (forall id, live q' id = live q id) /\
  match ev with
  | None => nothing_to_deliver q fl q'
  | Some (Event id sid ctx log remaining) =>
      may_drain q fl = true /\
      exists ds s, contents q = ds ++ mkEntry id log :: contents q' /\
        Forall (fun e => live q (entry_id e) = false) ds /\ sub q id = Some s /\
        reader_gone s = false /\ sid = sub_sid s /\ ctx = context s /\
        remaining = (0 <? length (contents q'))
  | Some _ => False
  end.
Proof.
  intros I. unfold take_oldest. pose proof (lay_used _ _ (inv_layout _ _ I)) as Hu.
  destruct (Nat.eqb_spec (used q) 0) as [E0|E0]; cbn [orb].
  - split_and!; try done. right. rewrite Hu in E0.
    apply length_zero_iff_nil in E0. by rewrite E0.
  - destruct (may_drain q fl) eqn:Em; cbn [negb].
    + pose proof (take_oldest_loop_spec (used q) (set_draining q true) _ (inv_draining _ _ true I))
        as Hl.
      destruct (take_oldest_loop _ _) as [[ev q'] r].
      destruct Hl as (ds & es' & Hds & I' & Hlive & Hev); [by rewrite Hu|].
      pose proof (contents_inv _ _ I') as Ec. rewrite Ec. split_and!; try done.
      destruct ev as [[id sid ctx log rem| |]|]; [|done|done|].
      * split; [done|]. destruct Hev as (s & Hc & Hs & Hr & ? & ? & ?). by exists ds, s.
      * destruct Hev as [Hc ->]. right. split; [done|]. by rewrite Hc.
    + split_and!; try done. by left.
Qed.

(** Polled by its circuit, a queue hands out its oldest live entry with the monitor's
    own id and context, having dropped only entries of cancelled monitors before it, and
    only when no EVENTS_OFF is in force, a drain pass is under way or a duplicate is
    queued; an end of stream is reported only when nothing is deliverable. *)
Theorem circuit_takes_the_oldest_live_entry (n : nat) (ops : list QueOp) :
  4 <= n <= MAX_EVENTS_PER_QUE ->
  let st := que_run n ops in
  let q := que st in
  let '(ev, q', _) := poll_oldest q (flow st) in
  match ev with
  | Some (Event id sid ctx log remaining) =>
      (flow st = false \/ draining q = true \/ 0 < n_duplicates q) /\
      exists ds s, contents q = ds ++ mkEntry id log :: contents q' /\
        Forall (fun e => live q (entry_id e) = false) ds /\ sub q id = Some s /\
        reader_gone s = false /\ sid = sub_sid s /\ ctx = context s /\
        remaining = (0 <? length (contents q'))
  | Some (Ended id) =>
      nothing_to_deliver q (flow st) q' /\
      exists s, sub q' id = Some s /\ producer_gone s = true /\ npend s = 0
  | Some (Reply _) => False
  | None => nothing_to_deliver q (flow st) q'
  end.
Proof.
  intros Hn. pose proof (inv_run n ops Hn) as I. cbv zeta.
  set (q := que (que_run n ops)) in *. set (fl := flow (que_run n ops)).
  unfold poll_oldest. pose proof (take_oldest_spec q fl I) as Ht.
  destruct (take_oldest q fl) as [[ev q1] r]. destruct Ht as (I1 & Hl & Hev).
  destruct ev as [[id sid ctx log rem| |]|]; [|done|done|].
  - destruct Hev as [Hm Hev]. split; [|done]. unfold may_drain in Hm.
    apply orb_true_iff in Hm as [[E|E%negb_true_iff]%orb_true_iff|E%Nat.ltb_lt]; auto.
  - pose proof (inv_take_ended _ _ I1) as I2. pose proof (contents_inv _ _ I2) as Ec.
    unfold take_ended in *. destruct (unreported_ends q1 =? 0); [done|].
    destruct (list_find ended (subs q1)) as [[i [s|]]|] eqn:Ef; [|done|done].
    apply list_find_Some in Ef as (Hs & Hend & _). cbn [ended snd] in *.
    apply Is_true_true, andb_prop in Hend as [Hend Hz%Nat.eqb_eq].
    apply andb_prop in Hend as [Hp _]. pose proof (sl_slot _ _ _ (inv_slab _ _ I1) _ _ Hs) as <-.
    split.
    + unfold nothing_to_deliver in *. by rewrite Ec.
    + exists (set_gone s (gone s) true). unfold sub. cbn [subs].
      rewrite list_lookup_insert_eq by (by eapply lookup_lt_Some). by rewrite decide_True.
Qed.

(** A monitor's own reader takes that monitor's oldest entry, wherever it is in the
    ring, drops only cancelled entries ahead of the first live one, and leaves the
    other entries in their order; it reports empty when nothing is queued for it or
    EVENTS_OFF withholds it, and disconnected only once the producer is gone. *)
Theorem reader_takes_its_own_oldest (n : nat) (ops : list QueOp) (id : AttachId) :
  4 <= n <= MAX_EVENTS_PER_QUE ->
  let st := que_run n ops in
  let q := que st in
  live q id = true ->
  let '(r, q', _) := try_next q (flow st) id in
  match r with
  | Ok log =>
      may_drain q (flow st) = true /\
      exists ds pre post,
        contents q = ds ++ pre ++ mkEntry id log :: post /\ contents q' = pre ++ post /\
        Forall (fun e => live q (entry_id e) = false) ds /\
        Forall (fun e => entry_id e <> id) pre
  | Err Empty =>
      q' = q /\ (count id (contents q) = 0 \/ may_drain q (flow st) = false)
  | Err Disconnected =>
      q' = q /\ count id (contents q) = 0 /\ exists s, sub q id = Some s /\ producer_gone s = true
  end.
Proof.
  intros Hn. pose proof (inv_run n ops Hn) as I. cbv zeta.
  set (q := que (que_run n ops)) in *. set (fl := flow (que_run n ops)).
  intros Hl. unfold try_next. destruct (sub q id) as [s|] eqn:Hs;
    [|unfold live in Hl; by rewrite Hs in Hl].
  pose proof (live_npend _ _ _ _ I Hs) as Hc.
  destruct (Nat.eqb_spec (npend s) 0) as [E|E].
  { destruct (producer_gone s) eqn:Ep; split_and!; try done; [congruence|by exists s|left; congruence]. }
  destruct (may_drain q fl) eqn:Em; cbn [negb]; [|auto].
  pose proof (inv_take_for (set_draining q true) _ id (inv_draining _ _ _ I) Hl) as Ht.
  destruct (take_for _ id) as [[lg q'] r].
  destruct Ht as (ds & pre & e & post & Ec & Hds & Hpre & He & -> & I' & _); [lia|].
  cbn [ok_or]. split; [done|]. exists ds, pre, post.
  rewrite (contents_inv _ _ I'). split_and!; try done. rewrite Ec. subst id. by destruct e.
Qed.

(** The circuit consumer's drain pass: poll until nothing comes. *)
Fixpoint drain (fuel : nat) q : list (AttachId * PostLog) * QueInner :=
  match fuel with
  | O => ([], q)
  | S fuel =>
      match take_oldest q false with
      | (Some (Event id _ _ log _), q, _) =>
          let '(evs, q) := drain fuel q in ((id, log) :: evs, q)
      | (_, q, _) => ([], q)
      end
  end.

(** What is deliverable: the entries of live monitors. *)
Definition deliverable q es : list (AttachId * PostLog) :=
  (fun e => (entry_id e, entry_log e)) <$> filter (fun e => live q (entry_id e) = true) es.

Lemma deliverable_dead q ds es :
  Forall (fun e => live q (entry_id e) = false) ds ->
  deliverable q (ds ++ es) = deliverable q es.
Proof.
  intros Hd. unfold deliverable. induction Hd as [|e ds E _ IH]; [done|].
  rewrite <- app_comm_cons, filter_cons, decide_False by congruence. done.
Qed.

Lemma deliverable_ext q q' es :
  (forall id, live q' id = live q id) -> deliverable q' es = deliverable q es.
Proof.
  intros Hl. unfold deliverable. f_equal. apply list_filter_iff. intros e. by rewrite Hl.
Qed.

Lemma may_drain_off q : may_drain q false = true.
Proof. unfold may_drain. by rewrite orb_true_r. Qed.

Lemma drain_spec fuel q :
  inv q (contents q) -> length (contents q) < fuel ->
  let '(evs, q') := drain fuel q in
  evs = deliverable q (contents q) /\ contents q' = [] /\ inv q' (contents q').
Proof.
  revert q. induction fuel as [|fuel IH]; intros q I Hf; [lia|]. cbn [drain].
  pose proof (take_oldest_spec q false I) as Ht.
  destruct (take_oldest q false) as [[ev q1] r]. destruct Ht as (I1 & Hl & Hev).
  destruct ev as [[id sid ctx log rem| |]|]; [|done|done|].
  - destruct Hev as [_ (ds & s & Hc & Hds & Hs & Hr & _)].
    specialize (IH q1 I1). destruct (drain fuel q1) as [evs q2].
    destruct IH as (-> & E2 & I2); [rewrite Hc, length_app in Hf; simpl in Hf; lia|].
    split_and!; try done. rewrite Hc, (deliverable_dead _ _ _ Hds).
    rewrite (deliverable_ext q q1) by done. unfold deliverable.
    rewrite filter_cons_True by (unfold live; cbn; by rewrite Hs, Hr). done.
  - destruct Hev as [[Hm _]|[Hc Hd]]; [by rewrite may_drain_off in Hm|].
    split_and!; try done. rewrite <- (app_nil_r (contents q)). by rewrite (deliverable_dead _ _ _ Hd).
Qed.

(** C10: with EVENTS_ON, draining a queue delivers exactly the queued entries of the live
    monitors, each once, in the order they were queued, and leaves it empty. *)
Theorem drain_delivers_everything_in_order (n : nat) (ops : list QueOp) :
  4 <= n <= MAX_EVENTS_PER_QUE ->
  let q := que (que_run n ops) in
  let '(evs, q') := drain (S (used q)) q in
  evs = deliverable q (contents q) /\ contents q' = [].
Proof.
  intros Hn. pose proof (inv_run n ops Hn) as I. cbv zeta.
  pose proof (drain_spec (S (used (que (que_run n ops)))) _ I) as Hd.
  rewrite (lay_used _ _ (inv_layout _ _ I)) in *.
  destruct (drain _ _) as [evs q']. destruct Hd as (-> & ? & _); [lia|]. done.
Qed.

(** The newest entry of the posted monitor after a post. *)
Lemma post_effect_newest fl sp th id log es o es' :
  post_effect fl sp th id log es o es' ->
  exists k e, newest id es' k /\ es' !! k = Some e /\ entry_id e = id /\
    log_value (entry_log e) = log_value log /\
    exists m, log_mask (entry_log e) = mask_or m (log_mask log)
           \/ log_mask (entry_log e) = mask_or (log_mask log) m.
Proof.
  intros [_|k e Hn He _ _|k e Hn He [Hv%is_ref_true Hv'%is_ref_true]%andb_prop].
  - eexists (length es), _. split_and!.
    + apply (newest_snoc es (mkEntry id _)).
    + by rewrite lookup_app_r, Nat.sub_diag.
    + done.
    + done.
    + eexists. by right.
  - assert (k < length es) by (by eapply lookup_lt_Some).
    assert (entry_id e = id) as Ei by (destruct Hn as [(x & Hx & <-) _]; congruence).
    eexists k, _. split_and!; [by eapply newest_insert_same|by apply list_lookup_insert_eq|done|done|].
    eexists. by right.
  - assert (k < length es) by (by eapply lookup_lt_Some).
    assert (entry_id e = id) as Ei by (destruct Hn as [(x & Hx & <-) _]; congruence).
    eexists k, _. split_and!; [by eapply newest_insert_same|by apply list_lookup_insert_eq|done| |].
    + cbn. congruence.
    + eexists. by left.
Qed.

Lemma mask_or_contains_l m o : mask_contains (mask_or m o) m = true.
Proof.
  unfold mask_contains, mask_or. cbn [bits]. apply Z.eqb_eq, Z.bits_inj'.
  intros i _. rewrite Z.land_spec, Z.lor_spec. by destruct (Z.testbit (bits m) i), (Z.testbit (bits o) i).
Qed.

Lemma mask_or_contains_r m o : mask_contains (mask_or m o) o = true.
Proof.
  unfold mask_contains, mask_or. cbn [bits]. apply Z.eqb_eq, Z.bits_inj'.
  intros i _. rewrite Z.land_spec, Z.lor_spec. by destruct (Z.testbit (bits m) i), (Z.testbit (bits o) i).
Qed.

Lemma live_post q es fl id log i :
  inv q es -> live (post q fl id log).1.2 i = live q i.
Proof.
  intros I. destruct (refuses_posts q id) eqn:E; [by rewrite post_refused|].
  apply refuses_posts_false in E as (s & Hs & Hg).
  pose proof Hs as [Hs' <-]%(sub_Some _ es); [|done].
  assert (slot (sub_id s) < length (subs q)) as Hlt by (by eapply lookup_lt_Some).
  assert (exists t, subs (post q fl (sub_id s) log).1.2 = <[slot (sub_id s) := Some t]> (subs q)
    /\ sub_id t = sub_id s /\ gone t = gone s) as (t & Et & Ei & Egn).
  { unfold post. rewrite Hs', bool_decide_eq_true_2, Hg by done. cbn [andb Z.eqb negb].
    repeat case_match; cbn; eauto. }
  unfold live, sub. rewrite Et. destruct (decide (slot i = slot (sub_id s))) as [Es|Es].
  - rewrite Es, list_lookup_insert_eq, Hs' by done. rewrite Ei. case_decide; [|done].
    unfold reader_gone. by rewrite Egn.
  - by rewrite list_lookup_insert_ne.
Qed.

(** C31: the newest update of a monitor is never lost: after any accepted post, a drain
    delivers for that monitor, last of all its events, the posted value (or, by
    reference, the field to read), with every class of the post in its mask. *)
Theorem newest_update_is_delivered (n : nat) (ops : list QueOp) (id : AttachId)
    (log : PostLog) (s : SubQ) :
  4 <= n <= MAX_EVENTS_PER_QUE ->
  let st := que_run n ops in
  let q := que st in
  sub q id = Some s -> refuses_posts q id = false ->
  let q' := (post q (flow st) id log).1.2 in
  exists before after l,
    (drain (S (used q')) q').1 = before ++ (id, l) :: after /\
    Forall (fun ev => ev.1 <> id) after /\
    log_value l = log_value (stored_log (kind s) log) /\
    mask_contains (log_mask l) (log_mask log) = true.
Proof.
  intros Hn. pose proof (inv_run n ops Hn) as I. cbv zeta.
  set (q := que (que_run n ops)) in *. set (fl := flow (que_run n ops)).
  intros Hs Href. pose proof (refuses_posts_false _ _ Href) as (s' & Hs' & Hg).
  assert (s' = s) as -> by congruence.
  pose proof (inv_post q _ fl id log s I Hs Hg) as Hp.
  pose proof (fun i => live_post q _ fl id log i I) as Hlive.
  destruct (post q fl id log) as [[o q'] c]. cbn [fst snd] in *.
  destruct Hp as (es' & I' & He). pose proof (contents_inv _ _ I') as Ec. rewrite <- Ec in *.
  destruct (post_effect_newest _ _ _ _ _ _ _ _ He) as (k & e & Hnew & Hk & Ei & Hv & m & Hm).
  pose proof (drain_spec (S (used q')) q' I') as Hd.
  rewrite (lay_used _ _ (inv_layout _ _ I')) in *.
  destruct (drain _ _) as [evs q'']. destruct Hd as (-> & _ & _); [lia|]. cbn [fst].
  destruct (list_elem_of_split_length _ _ _ Hk) as (l1 & l2 & Hsplit & Hlen).
  exists (deliverable q' l1), (deliverable q' l2), (entry_log e). rewrite Hsplit.
  assert (live q' id = true) as Hid
    by (rewrite Hlive; unfold live; by rewrite Hs, (gone_zero_reader _ Hg)).
  split_and!.
  - unfold deliverable. rewrite list.filter_app, fmap_app. f_equal.
    rewrite filter_cons_True by congruence. cbn. by rewrite Ei.
  - unfold deliverable. apply Forall_fmap, list.Forall_forall. intros x Hx.
    apply list_elem_of_filter in Hx as [_ Hx]. apply list_elem_of_lookup_1 in Hx as [j Hj].
    destruct Hnew as [_ Hnew]. apply (Hnew (k + S j) x); [lia|].
    rewrite Hsplit, lookup_app_r by lia. by replace (k + S j - length l1) with (S j) by lia.
  - done.
  - assert (log_mask (stored_log (kind s) log) = log_mask log) as Em
      by (unfold stored_log, drop_val; repeat case_match; done).
    rewrite Em in Hm. destruct Hm as [-> | ->]; [apply mask_or_contains_r|apply mask_or_contains_l].
Qed.

(** A handle whose subscription was freed stays refused: when its slot goes to a
    subscription of another generation, the old handle neither posts nor closes
    anything. *)
Theorem stale_handle_is_refused (n : nat) (ops : list QueOp) (g g' : Z) (sl : nat)
    (sid : Z) (k : LogKind) (ctx : DeliveryContext) (id' : AttachId) (q' : QueInner)
    (fl : bool) (log : PostLog) :
  4 <= n <= MAX_EVENTS_PER_QUE ->
  let q := que (que_run n ops) in
  let id := AttachId_new g sl in
  (sl < Z.to_nat 65536) -> sub q id = None -> (g mod 2 ^ 48 <> g' mod 2 ^ 48)%Z ->
  try_attach q g' sid k ctx = Some (id', q') ->
  id' <> id /\ post q' fl id log = (Closed, q', false) /\
  close_reader q' id = (q', []) /\ close_producer q' id = (false, q') /\
  sub q' id' = Some (SubQ_new id' sid k ctx).
Proof.
  intros Hn q id Hsl Hsub Hg Ha. pose proof (inv_run n ops Hn) as I. fold q in I.
  destruct (inv_try_attach _ _ _ _ _ _ _ _ I Ha) as (I' & Hnone & Hnew & Hid').
  assert (id' <> id) as Hne.
  { intros E. rewrite Hid' in E. unfold id in E. apply AttachId_new_inj in E as [_ E]; [congruence| |done].
    unfold slot, wrap. pose proof (Z.mod_pos_bound (attach_bits id') (2 ^ 16)). lia. }
  assert (sub q' id = None) as Hstale.
  { unfold try_attach in Ha. case_match; [done|]. destruct (free q) as [|s0 fr] eqn:Ef; [done|].
    injection Ha as <- <-. unfold sub in *. cbn [subs] in *.
    assert (subs q !! s0 = Some None) as Hs0
      by (apply (ct_free_in _ (inv_counts _ _ I)); rewrite Ef; left).
    destruct (decide (slot id = s0)) as [<-|Hns].
    - rewrite list_lookup_insert_eq by (by eapply lookup_lt_Some).
      by rewrite decide_False by done.
    - rewrite list_lookup_insert_ne by done. done. }
  split_and!; try done.
  - apply post_refused. unfold refuses_posts. by rewrite Hstale.
  - unfold close_reader. by rewrite Hstale.
  - unfold close_producer. by rewrite Hstale.
Qed.
End Theory.

(** ** A concrete queue *)

#[export] Instance demo_types : LogTypes :=
  {| NativeValue := Z; EpicsValue := Z; LogHead := unit; DeliveryContext := unit |}.

Definition demo_log (v : Z) : PostLog := mkLog tt MASK_VALUE (Val v).
Definition demo_id1 : AttachId := AttachId_new 1 0.
Definition demo_id2 : AttachId := AttachId_new 2 1.
Definition demo_ops : list QueOp :=
  [DoAttach 1 7 KVal tt; DoAttach 2 8 KRef tt; DoPost demo_id1 (demo_log 10);
   DoPost demo_id2 (demo_log 20); DoPost demo_id1 (demo_log 30)].

Lemma demo_size : 4 <= 4 <= MAX_EVENTS_PER_QUE.
Proof. unfold MAX_EVENTS_PER_QUE. lia. Qed.

Lemma event_queue_invariants_witness :
  used (que (que_run 4 demo_ops)) < qsize (que (que_run 4 demo_ops)) /\
  n_duplicates (que (que_run 4 demo_ops)) = 1.
Proof.
  destruct (event_queue_invariants 4 demo_ops demo_size) as (H1 & _ & H3 & _).
  split; [exact H1|]. rewrite H3. by vm_compute.
Defined.

Lemma post_follows_the_queue_rule_witness :
  let st := que_run 4 (demo_ops ++ [DoFlow true]) in
  let q := que st in
  (post q true demo_id1 (demo_log 40)).1.1 = Replaced /\
  let '(o, q', _) := post q (flow st) demo_id1 (demo_log 40) in
  if refuses_posts q demo_id1 then o = Closed /\ q' = q
  else exists s, sub q demo_id1 = Some s /\
    post_effect (flow st) (ring_space q) (replace_threshold q) demo_id1
      (stored_log (kind s) (demo_log 40)) (contents q) o (contents q').
Proof.
  split; [by vm_compute|]. apply post_follows_the_queue_rule. exact demo_size.
Defined.

(** The event a poll returned. *)
Definition polled (ev : option CircuitEvent) : option (AttachId * PostLog * bool) :=
  match ev with Some (Event id _ _ log rem) => Some (id, log, rem) | _ => None end.

Lemma circuit_takes_the_oldest_live_entry_witness :
  let st := que_run 4 demo_ops in
  let q := que st in
  polled (poll_oldest q (flow st)).1.1 = Some (demo_id1, demo_log 10, true) /\
  let '(ev, q', _) := poll_oldest q (flow st) in
  match ev with
  | Some (Event id sid ctx log remaining) =>
      exists ds s, contents q = ds ++ mkEntry id log :: contents q' /\ sub q id = Some s
  | _ => True
  end.
Proof.
  split; [by vm_compute|].
  pose proof (circuit_takes_the_oldest_live_entry 4 demo_ops demo_size) as H. cbv zeta in *.
  destruct (poll_oldest (que (que_run 4 demo_ops)) (flow (que_run 4 demo_ops))) as [[ev q'] r].
  destruct ev as [[]|]; try done. destruct H as [_ (ds & s & H1 & _ & H2 & _)]. exists ds, s. exact (conj H1 H2).
Defined.

Lemma reader_takes_its_own_oldest_witness :
  let st := que_run 4 demo_ops in
  let q := que st in
  (log_value <$> (try_next q (flow st) demo_id2).1.1 = Ok Ref) /\
  let '(r, q', _) := try_next q (flow st) demo_id2 in
  match r with
  | Ok log => exists ds pre post,
      contents q = ds ++ pre ++ mkEntry demo_id2 log :: post /\ contents q' = pre ++ post
  | Err _ => True
  end.
Proof.
  split; [by vm_compute|].
  pose proof (reader_takes_its_own_oldest 4 demo_ops demo_id2 demo_size ltac:(by vm_compute)) as H.
  cbv zeta in *.
  destruct (try_next (que (que_run 4 demo_ops)) (flow (que_run 4 demo_ops)) demo_id2)
    as [[[log|] q'] r]; [|done].
  destruct H as [_ (ds & pre & post & H1 & H2 & _)]. exists ds, pre, post. exact (conj H1 H2).
Defined.

Lemma drain_delivers_everything_in_order_witness :
  let q := que (que_run 4 demo_ops) in
  (drain (S (used q)) q).1 = deliverable q (contents q) /\
  deliverable q (contents q)
  = [(demo_id1, demo_log 10); (demo_id2, mkLog tt MASK_VALUE Ref); (demo_id1, demo_log 30)].
Proof.
  split; [|by vm_compute].
  pose proof (drain_delivers_everything_in_order 4 demo_ops demo_size) as H. cbv zeta in H.
  destruct (drain _ (que (que_run 4 demo_ops))) as [evs q']. by destruct H as [-> _].
Defined.

Lemma newest_update_is_delivered_witness :
  let st := que_run 4 demo_ops in
  let q' := (post (que st) (flow st) demo_id1 (demo_log 40)).1.2 in
  exists before after l,
    (drain (S (used q')) q').1 = before ++ (demo_id1, l) :: after /\
    Forall (fun ev => ev.1 <> demo_id1) after /\ log_value l = log_value (demo_log 40).
Proof.
  destruct (newest_update_is_delivered 4 demo_ops demo_id1 (demo_log 40)
    (mkSub demo_id1 7 KVal 2 2 0 0 0 false (tt : @DeliveryContext demo_types)) demo_size ltac:(by vm_compute) ltac:(by vm_compute))
    as (b & a & l & H1 & H2 & H3 & _).
  exists b, a, l. auto.
Defined.

Lemma stale_handle_is_refused_witness :
  match try_attach (que (que_run 4 [DoAttach 1 7 KVal tt; DoCloseReader demo_id1])) 3 9 KVal tt with
  | Some (id', q') => post q' false demo_id1 (demo_log 1) = (Closed, q', false)
  | None => True
  end.
Proof.
  pose proof (fun id' q' => stale_handle_is_refused 4 [DoAttach 1 7 KVal tt; DoCloseReader demo_id1]
    1 3 0 9 KVal tt id' q' false (demo_log 1) demo_size ltac:(lia) ltac:(by vm_compute)
    ltac:(by vm_compute)) as H.
  destruct (try_attach _ _ _ _ _) as [[id' q']|] eqn:E; [|done].
  destruct (H id' q' eq_refl) as (_ & Hp & _). exact Hp.
Defined.
