(* ===== verification/PvaProto.v ===== *)
(** * The pvAccess wire primitives

    Models [epics-pva-rs/src/proto]: [buffer.rs] (byte order, endian-aware reads and
    writes), [size.rs] (variable-length sizes), [string.rs] (length-prefixed bytes),
    [bitset.rs] (the delta bit set and its wire form), [header.rs] (the 8-byte frame
    header) and [ip.rs] (16-byte addresses).  A [Cursor] is the list of the bytes left;
    a decoder returns its value and the cursor after it.  Error texts carry their source
    line in the code and are represented by what failed. *)
From stdpp Require Import base tactics numbers list option strings.
From S2P Require Import Prelude.

Open Scope Z_scope.

(** ** Byte order and buffers *)

Inductive ByteOrder : Type := Little | Big.

#[export] Instance ByteOrder_eq_dec : EqDecision ByteOrder.
Proof. solve_decision. Defined.

Definition is_big (o : ByteOrder) : bool := match o with Big => true | Little => false end.
Definition header_flag (o : ByteOrder) : Z := if is_big o then 0x80 else 0.
Definition from_header_flag (b : Z) : ByteOrder :=
  if negb (Z.land b 0x80 =? 0) then Big else Little.

Inductive DecodeError : Type :=
| ShortRead (n : Z)
| BadMagic (b : Z)
| BadVersion
| NullSize (what : string)
| UnknownStatusKind (b : Z)
| TypecacheMiss (key : Z)
| NestingTooDeep
| TooManyNodes
| ElementNotStructure
| ElementNotUnion
| BoundedStringRefused
| UnknownTypeTag (b : Z)
| UnknownArrayTag (b : Z)
| ArrayTooLong (n : Z)
| ArraySizeOverflow
| PresenceByte (b : Z)
| SelectorOutOfRange (sel : Z)
| RanPastEnd
| AdvanceOverflow.

Definition put_u8 (v : Z) : list Z := [v].
Definition put_uint (n : nat) (v : Z) (o : ByteOrder) : list Z :=
  match o with Big => to_be_bytes n v | Little => to_le_bytes n v end.
Definition put_u16 : Z -> ByteOrder -> list Z := put_uint 2.
Definition put_u32 : Z -> ByteOrder -> list Z := put_uint 4.
Definition put_u64 : Z -> ByteOrder -> list Z := put_uint 8.

(** A signed value is written as the bytes of its two's complement. *)
Definition put_sint (n : nat) (v : Z) : ByteOrder -> list Z :=
  put_uint n (wrap (8 * Z.of_nat n) v).
Definition put_i8 (v : Z) : list Z := [wrap 8 v].
Definition put_i16 : Z -> ByteOrder -> list Z := put_sint 2.
Definition put_i32 : Z -> ByteOrder -> list Z := put_sint 4.
Definition put_i64 : Z -> ByteOrder -> list Z := put_sint 8.

(** A decoder. *)
Definition reader (A : Type) : Type := list Z -> result DecodeError (A * list Z).

(** [read_exact] of [n] bytes. *)
Definition read_exact (n : nat) : reader (list Z) := fun cur =>
  if (length cur <? n)%nat then Err (ShortRead (Z.of_nat n)) else Ok (take n cur, drop n cur).

Definition get_u8 : reader Z := fun cur =>
  '(buf, cur) ← read_exact 1 cur;
  Ok (from_le_bytes buf, cur).
Definition get_uint (n : nat) (o : ByteOrder) : reader Z := fun cur =>
  '(buf, cur) ← read_exact n cur;
  Ok (match o with Big => from_be_bytes buf | Little => from_le_bytes buf end, cur).
Definition get_sint (n : nat) (o : ByteOrder) : reader Z := fun cur =>
  '(v, cur) ← get_uint n o cur;
  Ok (swrap (8 * Z.of_nat n) v, cur).
Definition get_u16 : ByteOrder -> reader Z := get_uint 2.
Definition get_u32 : ByteOrder -> reader Z := get_uint 4.
Definition get_u64 : ByteOrder -> reader Z := get_uint 8.
Definition get_i8 : reader Z := fun cur =>
  '(v, cur) ← get_u8 cur;
  Ok (swrap 8 v, cur).
Definition get_i16 : ByteOrder -> reader Z := get_sint 2.
Definition get_i32 : ByteOrder -> reader Z := get_sint 4.
Definition get_i64 : ByteOrder -> reader Z := get_sint 8.

(** [get_bytes]: the length is tested against what remains before anything is read. *)
Definition get_bytes (n : Z) : reader (list Z) := fun cur =>
  if len cur <? n then Err (ShortRead n)
  else read_exact (Z.to_nat n) cur.

(** ** Sizes *)

Definition NULL_MARKER : Z := 0xFF.
Definition EXTENDED_MARKER : Z := 0xFE.

Definition encode_size (value : Z) (o : ByteOrder) : list Z :=
  if value <? 254 then put_u8 value else EXTENDED_MARKER :: put_u32 value o.

Definition decode_size (o : ByteOrder) : reader (option Z) := fun cur =>
  '(b, cur) ← get_u8 cur;
  if b =? NULL_MARKER then Ok (None, cur)
  else if b =? EXTENDED_MARKER then
    '(v, cur) ← get_u32 o cur;
    Ok (Some v, cur)
  else Ok (Some b, cur).

Definition decode_size_nonnull (o : ByteOrder) (what : string) : reader Z := fun cur =>
  '(n, cur) ← decode_size o cur;
  n ← ok_or n (NullSize what);
  Ok (n, cur).

(** ** Strings *)

Definition encode_string_bytes (bytes : list Z) (o : ByteOrder) : list Z :=
  encode_size (wrap 32 (len bytes)) o ++ bytes.

Definition decode_string_bytes (o : ByteOrder) : reader (option (list Z)) := fun cur =>
  '(n, cur) ← decode_size o cur;
  match n with
  | None => Ok (None, cur)
  | Some n =>
      '(b, cur) ← get_bytes n cur;
      Ok (Some b, cur)
  end.

(** ** Bit sets

    Positions are [nat]; the storage is a byte vector, its bit count far below [usize]. *)
Module BitSet.

Record t : Type := mk { bytes : list Z }.

#[export] Instance t_eq_dec : EqDecision t.
Proof. solve_decision. Defined.

Definition new : t := mk [].

Definition div_ceil (a b : nat) : nat := ((a + b - 1) / b)%nat.

Definition all_set (nbits : nat) : t :=
  let nbytes := div_ceil nbits 8 in
  let bs := replicate nbytes 0xFF in
  let extra := (nbytes * 8 - nbits)%nat in
  if (0 <? extra)%nat then
    let last := (length bs - 1)%nat in
    mk (alter (fun x => Z.land x (Z.shiftr 0xFF (Z.of_nat extra))) last bs)
  else mk bs.

(** [1 << (i % 8)]. *)
Definition bit_mask (i : nat) : Z := Z.shiftl 1 (Z.of_nat (i mod 8)%nat).

Definition set (b : t) (i : nat) : t :=
  let need := (i / 8 + 1)%nat in
  let bs := if (length (bytes b) <? need)%nat then resize need 0 (bytes b) else bytes b in
  mk (alter (fun x => Z.lor x (bit_mask i)) (i / 8)%nat bs).

Definition clear (b : t) (i : nat) : t :=
  let byte_idx := (i / 8)%nat in
  if (byte_idx <? length (bytes b))%nat
  then mk (alter (fun x => and_not x (bit_mask i)) byte_idx (bytes b))
  else b.

Definition get (b : t) (i : nat) : bool :=
  match bytes b !! (i / 8)%nat with
  | None => false
  | Some x => negb (Z.land x (bit_mask i) =? 0)
  end.

(** [self.bytes[i]] where [i] is in range. *)
Definition byte_at (b : t) (i : nat) : Z := default 0 (bytes b !! i).

Definition any_in (b : t) (start stop : nat) : bool :=
  let stop := Nat.min stop (length (bytes b) * 8) in
  if (stop <=? start)%nat then false else
  let first := (start / 8)%nat in
  let last := ((stop - 1) / 8)%nat in
  let lo := wrap 8 (Z.shiftl 0xFF (Z.of_nat (start mod 8)%nat)) in
  let hi := Z.shiftr 0xFF (Z.of_nat (7 - (stop - 1) mod 8)%nat) in
  if (first =? last)%nat then
    negb (Z.land (Z.land (byte_at b first) lo) hi =? 0)
  else
    negb (Z.land (byte_at b first) lo =? 0)
    || existsb (fun x => negb (x =? 0))
         (take (last - (first + 1)) (drop (first + 1) (bytes b)))
    || negb (Z.land (byte_at b last) hi =? 0).

(** [*dst |= *src] over the zipped prefix. *)
Fixpoint or_bytes (dst src : list Z) : list Z :=
  match dst, src with
  | d :: dst, s :: src => Z.lor d s :: or_bytes dst src
  | _, _ => dst
  end.

Definition union_with (b other : t) : t :=
  let n := length (bytes other) in
  let bs := if (length (bytes b) <? n)%nat then resize n 0 (bytes b) else bytes b in
  mk (or_bytes bs (bytes other)).

Definition is_empty (b : t) : bool := forallb (fun x => x =? 0) (bytes b).

Definition size (b : t) : nat := (length (bytes b) * 8)%nat.

Definition byte_size (b : t) : nat := length (bytes b).

Definition byte_bits (byte_idx : nat) (byte : Z) : list nat :=
  omap (fun bit_idx => if negb (Z.land byte (Z.shiftl 1 (Z.of_nat bit_idx)) =? 0)
                       then Some (byte_idx * 8 + bit_idx)%nat else None) (seq 0 8).

Definition iter (b : t) : list nat := mjoin (imap byte_bits (bytes b)).

(** The [while] loop of [find_set]; [fuel] bounds the positions left. *)
Fixpoint find_loop (b : t) (fuel i : nat) : nat :=
  match fuel with
  | O => size b
  | S fuel =>
      if (i <? size b)%nat then if get b i then i else find_loop b fuel (S i)
      else size b
  end.
Definition find_set (b : t) (start : nat) : nat := find_loop b (size b - start) start.

(** [u8::count_ones]. *)
Definition count_ones (x : Z) : nat :=
  length (List.filter (fun k => Z.testbit x (Z.of_nat k)) (seq 0 8)).

Definition count (b : t) : nat := sum_list (count_ones <$> bytes b).

(** The [while] loop that drops the trailing zero bytes. *)
Fixpoint trim_len (l : list Z) (nbytes : nat) : nat :=
  match nbytes with
  | O => O
  | S n => if default 0 (l !! n) =? 0 then trim_len l n else nbytes
  end.

(** The [Big] branch: every full 8-byte word reversed, a trailing partial word kept. *)
Definition swap_words (l : list Z) : list Z :=
  let nwords := (length l / 8)%nat in
  mjoin ((fun w => rev (take 8 (drop (w * 8) l))) <$> seq 0 nwords) ++ drop (nwords * 8) l.

Definition word_order (o : ByteOrder) (l : list Z) : list Z :=
  match o with Little => l | Big => swap_words l end.

Definition encode (b : t) (o : ByteOrder) : list Z :=
  let nbytes := trim_len (bytes b) (length (bytes b)) in
  encode_size (wrap 32 (Z.of_nat nbytes)) o ++ word_order o (take nbytes (bytes b)).

Definition decode (o : ByteOrder) : reader t := fun cur =>
  '(nbytes, cur) ← decode_size_nonnull o "bitset size" cur;
  '(wire, cur) ← get_bytes nbytes cur;
  Ok (mk (word_order o wire), cur).

End BitSet.

(** ** Frame headers *)

Definition MAGIC : Z := 0xCA.
Definition PVA_VERSION : Z := 2.
Definition FLAG_CONTROL : Z := 0x01.
Definition FLAG_SEGMENT_FIRST : Z := 0x10.
Definition FLAG_SEGMENT_LAST : Z := 0x20.
Definition FLAG_SERVER : Z := 0x40.
Definition FLAG_BIG_ENDIAN : Z := 0x80.
Definition FLAG_SEGMENT_MASK : Z := 0x30.

Definition HeaderFlags_new (server control : bool) (o : ByteOrder) : Z :=
  let b := 0 in
  let b := if control then Z.lor b FLAG_CONTROL else b in
  let b := if server then Z.lor b FLAG_SERVER else b in
  if is_big o then Z.lor b FLAG_BIG_ENDIAN else b.

Definition flag_set (flags mask : Z) : bool := negb (Z.land flags mask =? 0).
Definition is_control (f : Z) : bool := flag_set f FLAG_CONTROL.
Definition is_server (f : Z) : bool := flag_set f FLAG_SERVER.
Definition segment_first (f : Z) : bool := flag_set f FLAG_SEGMENT_FIRST.
Definition segment_last (f : Z) : bool := flag_set f FLAG_SEGMENT_LAST.
Definition unsegmented (f : Z) : bool := Z.land f FLAG_SEGMENT_MASK =? 0.
Definition byte_order (f : Z) : ByteOrder := from_header_flag f.

Record PvaHeader : Type := mkPvaHeader {
  version : Z;
  flags : Z;
  command : Z;
  payload_length : Z;
}.

Definition application (server : bool) (o : ByteOrder) (cmd plen : Z) : PvaHeader :=
  mkPvaHeader PVA_VERSION (HeaderFlags_new server false o) cmd plen.
Definition control (server : bool) (o : ByteOrder) (cmd data : Z) : PvaHeader :=
  mkPvaHeader PVA_VERSION (HeaderFlags_new server true o) cmd data.

Definition header_encode (h : PvaHeader) : list Z :=
  [MAGIC; version h; flags h; command h]
  ++ match byte_order (flags h) with
     | Big => to_be_bytes 4 (payload_length h)
     | Little => to_le_bytes 4 (payload_length h)
     end.

Definition header_write_into (h : PvaHeader) : list Z :=
  put_u8 MAGIC ++ put_u8 (version h) ++ put_u8 (flags h) ++ put_u8 (command h)
  ++ put_u32 (payload_length h) (byte_order (flags h)).

Definition header_decode : reader PvaHeader := fun cur =>
  '(magic, cur) ← get_u8 cur;
  if negb (magic =? MAGIC) then Err (BadMagic magic) else
  '(version, cur) ← get_u8 cur;
  if version =? 0 then Err BadVersion else
  '(flags, cur) ← get_u8 cur;
  '(command, cur) ← get_u8 cur;
  '(plen, cur) ← get_u32 (byte_order flags) cur;
  Ok (mkPvaHeader version flags command plen, cur).

(** ** Commands *)

Inductive Command : Type :=
| Beacon | ConnectionValidation | Echo | Search | SearchResponse | AuthNZ | AclChange
| CreateChannel | DestroyChannel | ConnectionValidated | Get | Put | PutGet | Monitor
| Array | DestroyRequest | Process | GetField | Message | MultipleData | Rpc
| CancelRequest | OriginTag.

Definition code (c : Command) : Z :=
  match c with
  | Beacon => 0 | ConnectionValidation => 1 | Echo => 2 | Search => 3
  | SearchResponse => 4 | AuthNZ => 5 | AclChange => 6 | CreateChannel => 7
  | DestroyChannel => 8 | ConnectionValidated => 9 | Get => 10 | Put => 11
  | PutGet => 12 | Monitor => 13 | Array => 14 | DestroyRequest => 15 | Process => 16
  | GetField => 17 | Message => 18 | MultipleData => 19 | Rpc => 20
  | CancelRequest => 21 | OriginTag => 22
  end.

Definition from_code (c : Z) : option Command :=
  if c =? 0 then Some Beacon else if c =? 1 then Some ConnectionValidation
  else if c =? 2 then Some Echo else if c =? 3 then Some Search
  else if c =? 4 then Some SearchResponse else if c =? 5 then Some AuthNZ
  else if c =? 6 then Some AclChange else if c =? 7 then Some CreateChannel
  else if c =? 8 then Some DestroyChannel else if c =? 9 then Some ConnectionValidated
  else if c =? 10 then Some Get else if c =? 11 then Some Put
  else if c =? 12 then Some PutGet else if c =? 13 then Some Monitor
  else if c =? 14 then Some Array else if c =? 15 then Some DestroyRequest
  else if c =? 16 then Some Process else if c =? 17 then Some GetField
  else if c =? 18 then Some Message else if c =? 19 then Some MultipleData
  else if c =? 20 then Some Rpc else if c =? 21 then Some CancelRequest
  else if c =? 22 then Some OriginTag else None.

Inductive ControlCommand : Type :=
| SetMarker | AckMarker | SetByteOrder | EchoRequest | EchoResponse.

Definition control_code (c : ControlCommand) : Z :=
  match c with
  | SetMarker => 0 | AckMarker => 1 | SetByteOrder => 2 | EchoRequest => 3
  | EchoResponse => 4
  end.

Definition control_from_code (c : Z) : option ControlCommand :=
  if c =? 0 then Some SetMarker else if c =? 1 then Some AckMarker
  else if c =? 2 then Some SetByteOrder else if c =? 3 then Some EchoRequest
  else if c =? 4 then Some EchoResponse else None.

(** ** Addresses *)

Inductive IpAddr : Type :=
| V4 (octets : list Z)
| V6 (octets : list Z).

Definition ip_to_bytes (ip : IpAddr) : list Z :=
  match ip with
  | V4 o => replicate 10 0 ++ [0xFF; 0xFF] ++ o
  | V6 o => o
  end.

Definition is_v4_mapped (addr : list Z) : bool :=
  forallb (fun b => b =? 0) (take 10 addr)
  && bool_decide (addr !! 10%nat = Some 0xFF) && bool_decide (addr !! 11%nat = Some 0xFF).

Definition ip_from_bytes (addr : list Z) : option IpAddr :=
  if forallb (fun b => b =? 0) addr then None
  else if is_v4_mapped addr then Some (V4 (drop 12 addr))
  else Some (V6 addr).

Definition ip_from_bytes_allow_unspec (addr : list Z) : IpAddr :=
  if is_v4_mapped addr then V4 (drop 12 addr) else V6 addr.
