(* ===== verification/PvaProtoTheory.v ===== *)
(** * Properties of the pvAccess wire primitives

    Codec round trips in both byte orders with trailing bytes, the bit set as a finite
    set of positions, its range scan and its wire form, and what a frame header decodes
    to. *)
From Stdlib Require Import ZifyNat.
From stdpp Require Import base tactics numbers list option strings sorting gmap.
From S2P Require Import Prelude PvaProto.

Open Scope Z_scope.

(** [lia] through natural-number division by constants. *)
Ltac ndivlia := Zify.zify; Z.to_euclidean_division_equations; lia.

(** ** Fixed-width reads *)

Lemma read_exact_app (b rest : list Z) :
  read_exact (length b) (b ++ rest) = Ok (b, rest).
Proof.
  unfold read_exact. rewrite length_app.
  destruct (Nat.ltb_spec (length b + length rest) (length b)); [lia|].
  by rewrite take_app_length, drop_app_length.
Qed.

Lemma get_u8_cons x rest : get_u8 (x :: rest) = Ok (x, rest).
Proof.
  unfold get_u8. change (x :: rest) with ([x] ++ rest).
  rewrite (read_exact_app [x]). rbind. simpl. do 2 f_equal. lia.
Qed.

Lemma length_put_uint n v o : length (put_uint n v o) = n.
Proof. destruct o; unfold put_uint; by autorewrite with wire. Qed.

Lemma get_put_uint n o v rest :
  is_uint (8 * Z.of_nat n) v -> get_uint n o (put_uint n v o ++ rest) = Ok (v, rest).
Proof.
  intros Hv. unfold get_uint.
  rewrite <- (length_put_uint n v o) at 1. rewrite read_exact_app. rbind.
  assert (Hm : v mod 256 ^ Z.of_nat n = v).
  { apply Z.mod_small. unfold is_uint in Hv. rewrite Z.pow_mul_r in Hv by lia. done. }
  do 2 f_equal. destruct o; unfold put_uint.
  - by rewrite from_to_le_bytes.
  - by rewrite from_to_be_bytes.
Qed.

Lemma get_put_sint n o v rest :
  (0 < n)%nat -> - 2 ^ (8 * Z.of_nat n - 1) <= v < 2 ^ (8 * Z.of_nat n - 1) ->
  get_sint n o (put_sint n v o ++ rest) = Ok (v, rest).
Proof.
  intros Hn Hv. unfold get_sint, put_sint. rewrite get_put_uint.
  - rbind. by rewrite swrap_wrap, swrap_small by lia.
  - unfold wrap, is_uint. apply Z.mod_pos_bound. lia.
Qed.

Lemma length_put_u32 v o : length (put_u32 v o) = 4%nat.
Proof. apply length_put_uint. Qed.

Lemma get_put_u32 o v rest : is_u32 v -> get_u32 o (put_u32 v o ++ rest) = Ok (v, rest).
Proof. apply (get_put_uint 4). Qed.

(** [get_bytes] of a length the buffer does not hold fails without reading. *)
Lemma get_bytes_app (b rest : list Z) : get_bytes (len b) (b ++ rest) = Ok (b, rest).
Proof.
  unfold get_bytes. rewrite length_app.
  destruct (Z.ltb_spec (Z.of_nat (length b + length rest)) (len b)); [lia|].
  rewrite Nat2Z.id. apply read_exact_app.
Qed.

Lemma decode_encode_size o v rest :
  is_u32 v -> decode_size o (encode_size v o ++ rest) = Ok (Some v, rest).
Proof.
  intros Hv. unfold encode_size, decode_size. destruct (Z.ltb_spec v 254) as [Hs|Hs].
  - cbn [put_u8 app]. rewrite get_u8_cons. rbind. unfold NULL_MARKER, EXTENDED_MARKER.
    destruct (Z.eqb_spec v 0xFF); [lia|]. destruct (Z.eqb_spec v 0xFE); [lia|]. done.
  - cbn [app]. rewrite get_u8_cons. rbind. cbn [EXTENDED_MARKER NULL_MARKER Z.eqb Pos.eqb].
    by rewrite get_put_u32.
Qed.

Lemma decode_encode_size_nonnull o v what rest :
  is_u32 v -> decode_size_nonnull o what (encode_size v o ++ rest) = Ok (v, rest).
Proof. intros. unfold decode_size_nonnull. by rewrite decode_encode_size. Qed.

Lemma read_exact_short n (l : list Z) :
  (length l < n)%nat -> read_exact n l = Err (ShortRead (Z.of_nat n)).
Proof. intros. unfold read_exact. by destruct (Nat.ltb_spec (length l) n); [|lia]. Qed.

Lemma get_bytes_short n (l : list Z) : len l < n -> get_bytes n l = Err (ShortRead n).
Proof. intros. unfold get_bytes. by destruct (Z.ltb_spec (len l) n); [|lia]. Qed.

Lemma get_u32_short o (l : list Z) : (length l < 4)%nat -> get_u32 o l = Err (ShortRead 4).
Proof. intros. unfold get_u32, get_uint. by rewrite read_exact_short. Qed.

(** A length-prefixed body cut anywhere is a short read. *)
Lemma sized_body_cut {A : Type} (f : option Z * list Z -> result DecodeError A) o
    (body : list Z) k :
  len body < 2 ^ 32 ->
  (k < length (encode_size (len body) o ++ body))%nat ->
  (forall cur, len cur < len body ->
    exists e, f (Some (len body), cur) = Err e) ->
  exists e, (decode_size o (take k (encode_size (len body) o ++ body)) ≫= f) = Err e.
Proof.
  intros Hb Hk Hf. unfold encode_size, decode_size in *.
  destruct k as [|k]; [rewrite take_0; eexists; reflexivity|].
  destruct (Z.ltb_spec (len body) 254) as [Hs|Hs].
  - cbn [put_u8 app take length] in *. rewrite get_u8_cons. rbind.
    unfold NULL_MARKER, EXTENDED_MARKER.
    destruct (Z.eqb_spec (len body) 0xFF); [lia|].
    destruct (Z.eqb_spec (len body) 0xFE); [lia|].
    apply Hf. rewrite length_take. lia.
  - cbn [app take length] in *. rewrite get_u8_cons. rbind.
    cbn [EXTENDED_MARKER NULL_MARKER Z.eqb Pos.eqb].
    rewrite length_app, length_put_u32 in Hk.
    destruct (decide (k < 4)%nat) as [Hk4|Hk4].
    + rewrite get_u32_short by (rewrite length_take; lia). eexists; reflexivity.
    + rewrite take_app_ge by (rewrite length_put_u32; lia).
      rewrite length_put_u32, get_put_u32 by (split; lia). rbind.
      apply Hf. rewrite length_take. lia.
Qed.

(** A byte string of fewer than 2^32 bytes, written with its length prefix in either
    byte order, reads back as itself and leaves exactly the bytes that followed it; cut
    short at any byte, the encoding is refused. *)
Theorem pva_string_round_trip o (s : list Z) :
  len s < 2 ^ 32 ->
  (forall rest,
     decode_string_bytes o (encode_string_bytes s o ++ rest) = Ok (Some s, rest)) /\
  (forall k, (k < length (encode_string_bytes s o))%nat ->
     exists e, decode_string_bytes o (take k (encode_string_bytes s o)) = Err e).
Proof.
  intros Hs. assert (is_u32 (len s)) by (split; lia).
  unfold decode_string_bytes, encode_string_bytes. rewrite wrap_small by done. split.
  - intros rest. rewrite <- app_assoc, decode_encode_size by done.
    rbind. by rewrite get_bytes_app.
  - intros k Hk. apply sized_body_cut; [done..|].
    intros cur Hc. cbn beta iota. rewrite get_bytes_short by done. by eexists.
Qed.

Lemma pva_string_round_trip_witness :
  (forall rest, decode_string_bytes Big (encode_string_bytes [0xFF; 0; 0x80] Big ++ rest)
    = Ok (Some [0xFF; 0; 0x80], rest)) /\
  exists e, decode_string_bytes Big (take 3 (encode_string_bytes [0xFF; 0; 0x80] Big)) = Err e.
Proof.
  destruct (pva_string_round_trip Big [0xFF; 0; 0x80]) as [H1 H2]; [simpl; lia|].
  split; [exact H1|]. apply H2. vm_compute. lia.
Defined.

(** ** Bit sets *)

Module BitSetTheory.
Import BitSet.

Definition wf (b : t) : Prop := bytes_ok (bytes b).

(** *** Bits of bytes *)

Lemma land_bit (x : Z) (k : nat) :
  negb (Z.land x (Z.shiftl 1 (Z.of_nat k)) =? 0) = Z.testbit x (Z.of_nat k).
Proof.
  assert (Hb : forall j, 0 <= j ->
    Z.testbit (Z.land x (Z.shiftl 1 (Z.of_nat k))) j
    = Z.testbit x j && (j =? Z.of_nat k)).
  { intros j Hj. rewrite Z.land_spec, Z.shiftl_1_l, Z.pow2_bits_eqb by lia.
    by rewrite Z.eqb_sym. }
  destruct (Z.eqb_spec (Z.land x (Z.shiftl 1 (Z.of_nat k))) 0) as [H0|H0]; simpl.
  - specialize (Hb (Z.of_nat k)). rewrite H0, Z.bits_0, Z.eqb_refl, andb_true_r in Hb.
    apply Hb. lia.
  - destruct (Z.testbit x (Z.of_nat k)) eqn:E; [done|].
    exfalso. apply H0. apply Z.bits_inj'. intros j Hj. rewrite Hb, Z.bits_0 by done.
    destruct (Z.eqb_spec j (Z.of_nat k)) as [->|]; [by rewrite E|by rewrite andb_false_r].
Qed.

Lemma get_testbit b i : get b i = Z.testbit (byte_at b (i / 8)) (Z.of_nat (i mod 8)%nat).
Proof.
  unfold get, byte_at, bit_mask. destruct (bytes b !! (i / 8)%nat); simpl.
  - apply land_bit.
  - by rewrite Z.bits_0.
Qed.

Lemma bit_mask_testbit i k :
  0 <= k -> Z.testbit (bit_mask i) k = (Z.of_nat (i mod 8)%nat =? k).
Proof. intros. unfold bit_mask. by rewrite Z.shiftl_1_l, Z.pow2_bits_eqb by lia. Qed.

(** A byte is non-zero when one of its eight bits is set. *)
Lemma byte_nonzero x :
  is_u8 x -> x <> 0 <-> exists k : nat, (k < 8)%nat /\ Z.testbit x (Z.of_nat k) = true.
Proof.
  intros [H0 H1]. split.
  - intros Hx. exists (Z.to_nat (Z.log2 x)).
    assert (Z.log2 x < 8) by (apply Z.log2_lt_pow2; lia).
    pose proof (Z.log2_nonneg x).
    split; [lia|]. rewrite Z2Nat.id by done. apply Z.bit_log2. lia.
  - intros (k & _ & Hk) ->. by rewrite Z.bits_0 in Hk.
Qed.

Lemma byte_at_ok b i : wf b -> is_u8 (byte_at b i).
Proof.
  intros H. unfold byte_at. destruct (bytes b !! i) eqn:E; simpl; [|split; lia].
  by apply (Forall_lookup_1 _ _ _ _ H E).
Qed.

(** *** Reads after writes *)

Lemma default_resize n (l : list Z) k :
  (length l <= n)%nat -> default 0 (resize n 0 l !! k) = default 0 (l !! k).
Proof.
  intros Hn. destruct (decide (k < length l)%nat).
  - by rewrite lookup_resize by lia.
  - rewrite (lookup_ge_None_2 l) by lia. destruct (decide (k < n)%nat).
    + by rewrite lookup_resize_new by lia.
    + by rewrite lookup_resize_old by lia.
Qed.

(** The vector a write works on after growing. *)
Lemma default_grown (l : list Z) n k :
  default 0 ((if (length l <? n)%nat then resize n 0 l else l) !! k) = default 0 (l !! k).
Proof. destruct (Nat.ltb_spec (length l) n); [apply default_resize; lia|done]. Qed.

Lemma length_grown (l : list Z) n :
  (n <= length (if (length l <? n)%nat then resize n 0%Z l else l))%nat.
Proof. destruct (Nat.ltb_spec (length l) n); [by rewrite length_resize|lia]. Qed.

Lemma wf_grown (l : list Z) n :
  bytes_ok l -> bytes_ok (if (length l <? n)%nat then resize n 0 l else l).
Proof.
  intros H. destruct (length l <? n)%nat; [|done].
  apply Forall_resize; [split; lia|done].
Qed.

Lemma default_alter (f : Z -> Z) i (l : list Z) k :
  (i < length l)%nat ->
  default 0 (alter f i l !! k)
  = if decide (i = k) then f (default 0 (l !! k)) else default 0 (l !! k).
Proof.
  intros Hi. case_decide as Hk.
  - subst k. rewrite list_lookup_alter_eq.
    by destruct (lookup_lt_is_Some_2 l i Hi) as [x ->].
  - by rewrite list_lookup_alter_ne.
Qed.

Lemma same_bit i j :
  ((i =? j)%nat = true <-> (i / 8 = j / 8)%nat /\ (i mod 8 = j mod 8)%nat).
Proof.
  rewrite Nat.eqb_eq. split; [by intros ->|intros [H1 H2]].
  by rewrite (Nat.div_mod_eq i 8), (Nat.div_mod_eq j 8), H1, H2.
Qed.

Lemma get_set b i j : get (set b i) j = ((i =? j)%nat || get b j).
Proof.
  rewrite !get_testbit. unfold set, byte_at. cbn [bytes].
  pose proof (length_grown (bytes b) (i / 8 + 1)) as Hl.
  rewrite default_alter by lia. rewrite default_grown.
  case_decide as H8.
  - rewrite Z.lor_spec, bit_mask_testbit by lia.
    rewrite orb_comm. f_equal. apply eq_true_iff_eq. rewrite same_bit, Z.eqb_eq. lia.
  - destruct (i =? j)%nat eqn:E; [|done]. by apply same_bit in E as [? _].
Qed.

Lemma get_clear b i j : get (clear b i) j = (negb (i =? j)%nat && get b j).
Proof.
  unfold clear. destruct (Nat.ltb_spec (i / 8) (length (bytes b))) as [Hi|Hi].
  - rewrite !get_testbit. unfold byte_at. cbn [bytes]. rewrite default_alter by done.
    case_decide as H8.
    + unfold and_not. rewrite Z.ldiff_spec, bit_mask_testbit by lia.
      rewrite andb_comm. do 2 f_equal. apply eq_true_iff_eq. rewrite same_bit, Z.eqb_eq. lia.
    + destruct (i =? j)%nat eqn:E; [|done]. by apply same_bit in E as [? _].
  - destruct (i =? j)%nat eqn:E; [|done]. apply Nat.eqb_eq in E as <-.
    unfold get. by rewrite lookup_ge_None_2.
Qed.

Lemma default_or_bytes dst src k :
  (length src <= length dst)%nat ->
  default 0 (or_bytes dst src !! k) = Z.lor (default 0 (dst !! k)) (default 0 (src !! k)).
Proof.
  revert src k. induction dst as [|d dst IH]; intros [|s src] k Hl; simpl in *.
  - done.
  - lia.
  - by rewrite Z.lor_0_r.
  - destruct k; simpl; [done|]. apply IH. lia.
Qed.

Lemma get_union_with b other j : get (union_with b other) j = get b j || get other j.
Proof.
  rewrite !get_testbit. unfold union_with, byte_at. cbn [bytes].
  rewrite default_or_bytes by apply length_grown.
  by rewrite default_grown, Z.lor_spec.
Qed.

(** The bits of [0xFF >> n]. *)
Lemma ff_shiftr_testbit n k :
  0 <= n -> 0 <= k -> Z.testbit (Z.shiftr 0xFF n) k = (k + n <? 8).
Proof.
  intros. rewrite Z.shiftr_spec by done. change 0xFF with (Z.ones 8).
  destruct (Z.ltb_spec (k + n) 8).
  - apply Z.ones_spec_low. lia.
  - apply Z.ones_spec_high. lia.
Qed.

(** The bits of [0xFFu8 << n]. *)
Lemma ff_shiftl_testbit n k :
  0 <= n -> 0 <= k < 8 -> Z.testbit (wrap 8 (Z.shiftl 0xFF n)) k = (n <=? k).
Proof.
  intros. unfold wrap. rewrite Z.mod_pow2_bits_low by lia.
  change 0xFF with (Z.ones 8).
  destruct (Z.leb_spec n k).
  - rewrite Z.shiftl_spec by lia. apply Z.ones_spec_low. lia.
  - apply Z.shiftl_spec_low. lia.
Qed.

Lemma get_all_set n j : get (all_set n) j = (j <? n)%nat.
Proof.
  rewrite get_testbit. unfold all_set, byte_at. set (nb := div_ceil n 8).
  assert (Hnb : (n <= nb * 8 < n + 8)%nat) by (unfold nb, div_ceil; ndivlia).
  clearbody nb.
  assert (Hr : default 0 (replicate nb 0xFF !! (j / 8)%nat)
               = if (j / 8 <? nb)%nat then 0xFF else 0).
  { destruct (Nat.ltb_spec (j / 8) nb).
    - by rewrite lookup_replicate_2.
    - by rewrite lookup_ge_None_2 by (rewrite length_replicate; lia). }
  assert (Hff : forall k : nat, (k < 8)%nat -> Z.testbit 0xFF (Z.of_nat k) = true).
  { intros k Hk. apply (Z.ones_spec_low 8). lia. }
  assert ((j mod 8 < 8)%nat) by (apply Nat.mod_upper_bound; lia).
  destruct (Nat.ltb_spec 0 (nb * 8 - n)) as [He|He]; cbn [bytes].
  - rewrite default_alter, length_replicate, Hr by (rewrite length_replicate; lia).
    destruct (Nat.ltb_spec (j / 8) nb) as [Hj|Hj].
    + case_decide.
      * rewrite Z.land_spec, Hff, ff_shiftr_testbit by lia.
        rewrite andb_true_l.
        apply eq_true_iff_eq. rewrite Z.ltb_lt, Nat.ltb_lt. split; intros; ndivlia.
      * rewrite Hff by done. symmetry. apply Nat.ltb_lt. ndivlia.
    + case_decide; [lia|]. rewrite Z.bits_0. symmetry. apply Nat.ltb_ge. ndivlia.
  - rewrite Hr. destruct (Nat.ltb_spec (j / 8) nb) as [Hj|Hj].
    + rewrite Hff by done. symmetry. apply Nat.ltb_lt. ndivlia.
    + rewrite Z.bits_0. symmetry. apply Nat.ltb_ge. ndivlia.
Qed.

(** *** Storage stays bytes *)

Lemma bit_mask_ok i : is_u8 (bit_mask i).
Proof.
  unfold bit_mask. rewrite Z.shiftl_1_l.
  assert ((i mod 8 < 8)%nat) by (apply Nat.mod_upper_bound; lia).
  split; [apply Z.pow_nonneg; lia|]. apply Z.pow_lt_mono_r; lia.
Qed.

Lemma lor_u8 x y : is_u8 x -> is_u8 y -> is_u8 (Z.lor x y).
Proof.
  intros [Hx Hx'] [Hy Hy']. split; [by apply Z.lor_nonneg|].
  destruct (Z.eq_dec (Z.lor x y) 0) as [->|Hn]; [done|].
  assert (0 <= Z.lor x y) by (by apply Z.lor_nonneg).
  apply Z.log2_lt_pow2; [lia|]. rewrite Z.log2_lor by done.
  destruct (Z.eq_dec x 0) as [->|], (Z.eq_dec y 0) as [->|];
    try change (Z.log2 0) with 0;
    apply Z.max_lub_lt; try lia; apply Z.log2_lt_pow2; lia.
Qed.

Lemma submask_u8 x y :
  is_u8 x -> 0 <= y -> (forall k, Z.testbit y k = true -> Z.testbit x k = true) -> is_u8 y.
Proof.
  intros [Hx Hx'] Hy Hs. split; [done|].
  destruct (Z.eq_dec y 0) as [->|Hn]; [done|].
  apply Z.log2_lt_pow2; [lia|].
  assert (Hb : Z.testbit x (Z.log2 y) = true) by (apply Hs, Z.bit_log2; lia).
  destruct (Z.lt_ge_cases (Z.log2 y) 8) as [|Hge]; [done|].
  rewrite (Z.bits_above_log2 x) in Hb; [done|done|].
  destruct (Z.eq_dec x 0) as [->|]; [change (Z.log2 0) with 0; lia|].
  assert (Z.log2 x < 8) by (apply Z.log2_lt_pow2; lia). lia.
Qed.

Lemma wf_set b i : wf b -> wf (set b i).
Proof.
  intros H. unfold wf, set. cbn [bytes]. apply Forall_alter; [by apply wf_grown|].
  intros x _ Hx. apply lor_u8; [done|apply bit_mask_ok].
Qed.

Lemma wf_clear b i : wf b -> wf (clear b i).
Proof.
  intros H. unfold clear. case_goal; [|done]. apply Forall_alter; [done|].
  intros x _ Hx. apply (submask_u8 x); [done|..].
  - unfold and_not. apply Z.ldiff_nonneg. left. apply Hx.
  - intros k. unfold and_not. rewrite Z.ldiff_spec. by intros [? _]%andb_prop.
Qed.

Lemma wf_union_with b other : wf b -> wf other -> wf (union_with b other).
Proof.
  intros H Ho. unfold wf, union_with. cbn [bytes].
  generalize (wf_grown (bytes b) (length (bytes other)) H).
  generalize (if (length (bytes b) <? length (bytes other))%nat
              then resize (length (bytes other)) 0 (bytes b) else bytes b).
  unfold wf in Ho. revert Ho. generalize (bytes other).
  intros src Hs dst. revert src Hs. induction dst as [|d dst IH]; intros [|s src] Hs Hd;
    simpl; try done.
  inversion Hs; inversion Hd; subst. constructor; [by apply lor_u8|by apply IH].
Qed.

Lemma wf_all_set n : wf (all_set n).
Proof.
  assert (Hr : forall m, bytes_ok (replicate m 0xFF)).
  { intros m. apply Forall_replicate. split; lia. }
  unfold wf, all_set. case_goal; cbn [bytes]; [|done].
  apply Forall_alter; [done|]. intros x _ Hx. apply (submask_u8 x); [done|..].
  - apply Z.land_nonneg. left. apply Hx.
  - intros k. rewrite Z.land_spec. by intros [? _]%andb_prop.
Qed.

(** *** Enumeration *)

Lemma byte_bits_filter n x (f : nat -> bool) :
  (forall k, (k < 8)%nat -> f (n * 8 + k)%nat = Z.testbit x (Z.of_nat k)) ->
  byte_bits n x = List.filter f (seq (n * 8) 8).
Proof.
  intros Hf. unfold byte_bits.
  assert (Hgen : forall m a, (a + m <= 8)%nat ->
    omap (fun bit_idx => if negb (Z.land x (Z.shiftl 1 (Z.of_nat bit_idx)) =? 0)
                         then Some (n * 8 + bit_idx)%nat else None) (seq a m)
    = List.filter f (seq (n * 8 + a) m)); [|rewrite (Hgen 8%nat 0%nat), Nat.add_0_r by lia; done].
  induction m as [|m IH]; intros a Ha; [done|].
  cbn [seq omap list_omap List.filter]. rewrite land_bit, <- Hf by lia.
  rewrite <- Nat.add_succ_r, <- IH by lia. by destruct (f _).
Qed.

(** The iterator yields the set positions of the storage in ascending order. *)
Lemma iter_filter b : iter b = List.filter (get b) (seq 0 (size b)).
Proof.
  destruct b as [l]. unfold iter, size. cbn [bytes].
  induction l as [|x l IH] using rev_ind; [done|].
  rewrite imap_app, join_app, IH, length_app. cbn [imap mjoin list_join length].
  rewrite app_nil_r, Nat.mul_add_distr_r, seq_app, List.filter_app.
  f_equal.
  - apply filter_ext_in. intros i Hi%in_seq. unfold get. cbn [bytes].
    by rewrite lookup_app_l by ndivlia.
  - simpl Init.Nat.add at 1. rewrite Nat.add_0_r. apply byte_bits_filter.
    intros k Hk. rewrite get_testbit. unfold byte_at. cbn [bytes].
    replace ((length l * 8 + k) / 8)%nat with (length l) by ndivlia.
    replace ((length l * 8 + k) mod 8)%nat with k by ndivlia.
    by rewrite list_lookup_middle.
Qed.

Lemma get_lt_size b i : get b i = true -> (i < size b)%nat.
Proof.
  unfold get, size. destruct (bytes b !! (i / 8)%nat) eqn:E; [|done].
  apply lookup_lt_Some in E. intros _. ndivlia.
Qed.

Lemma elem_of_iter b i : i ∈ iter b <-> get b i = true.
Proof.
  rewrite iter_filter, list_elem_of_In, filter_In, in_seq.
  split; [tauto|]. intros H. pose proof (get_lt_size b i H). split; [lia|done].
Qed.

Lemma NoDup_iter b : NoDup (iter b).
Proof. rewrite iter_filter. apply NoDup_ListNoDup, List.NoDup_filter, seq_NoDup. Qed.

Lemma StronglySorted_filter_seq (f : nat -> bool) a n :
  StronglySorted lt (List.filter f (seq a n)).
Proof.
  revert a. induction n as [|n IH]; intros a; simpl; [constructor|].
  destruct (f a); [|done]. constructor; [done|].
  apply List.Forall_forall. intros j [Hj _]%filter_In. apply in_seq in Hj. lia.
Qed.

Lemma count_ones_byte_bits n x : count_ones x = length (byte_bits n x).
Proof.
  unfold count_ones, byte_bits. induction (seq 0 8) as [|k l IH]; [done|].
  cbn [omap list_omap List.filter]. rewrite land_bit.
  destruct (Z.testbit x (Z.of_nat k)); simpl; by rewrite IH.
Qed.

Lemma count_iter b : count b = length (iter b).
Proof.
  destruct b as [l]. unfold count, iter. cbn [bytes].
  induction l as [|x l IH] using rev_ind; [done|].
  rewrite imap_app, join_app, length_app, <- IH.
  cbn [imap mjoin list_join]. rewrite app_nil_r, <- count_ones_byte_bits.
  rewrite fmap_app. clear IH. generalize (count_ones <$> l).
  intros m. induction m as [|y m IH]; simpl in *; lia.
Qed.

(** *** The set of positions *)

Definition bits (b : t) : gset nat := list_to_set (iter b).

Lemma elem_of_bits b i : i ∈ bits b <-> get b i = true.
Proof. unfold bits. by rewrite elem_of_list_to_set, elem_of_iter. Qed.

Lemma size_bits b : base.size (bits b) = count b.
Proof. unfold bits. rewrite size_list_to_set by apply NoDup_iter. by rewrite count_iter. Qed.

Lemma bits_ext b (X : gset nat) : (forall i, get b i = true <-> i ∈ X) -> bits b = X.
Proof. intros H. apply set_eq. intros i. by rewrite elem_of_bits. Qed.

Lemma is_empty_bits b : wf b -> is_empty b = bool_decide (bits b = ∅).
Proof.
  intros Hb. unfold is_empty. apply eq_true_iff_eq.
  rewrite forallb_forall, bool_decide_eq_true. split.
  - intros H0. apply bits_ext. intros i. split; [|set_solver].
    rewrite get_testbit. unfold byte_at. destruct (bytes b !! (i / 8)%nat) eqn:E; simpl.
    + apply list_elem_of_lookup_2, list_elem_of_In, H0, Z.eqb_eq in E as ->.
      by rewrite Z.bits_0.
    + by rewrite Z.bits_0.
  - intros H0 x Hx%list_elem_of_In. apply Z.eqb_eq.
    destruct (Z.eq_dec x 0) as [|Hn]; [done|exfalso].
    apply list_elem_of_lookup_1 in Hx as [n Hn'].
    apply byte_nonzero in Hn as (k & Hk & Ht); [|by apply (Forall_lookup_1 _ _ _ _ Hb Hn')].
    assert (Hin : (n * 8 + k)%nat ∈ bits b); [|rewrite H0 in Hin; set_solver].
    apply elem_of_bits. rewrite get_testbit. unfold byte_at.
    replace ((n * 8 + k) / 8)%nat with n by ndivlia.
    replace ((n * 8 + k) mod 8)%nat with k by ndivlia. by rewrite Hn'.
Qed.

(** The loop of [find_set] has run through every position its fuel allows. *)
Lemma find_loop_spec b fuel i :
  (size b - i <= fuel)%nat ->
  (forall j, get b j = true -> (i <= j)%nat ->
     (i <= find_loop b fuel i <= j)%nat /\ get b (find_loop b fuel i) = true) /\
  ((forall j, get b j = true -> (j < i)%nat) -> find_loop b fuel i = size b).
Proof.
  revert i. induction fuel as [|fuel IH]; intros i Hf; simpl.
  - split; [|done]. intros j Hj%get_lt_size Hij. lia.
  - destruct (Nat.ltb_spec i (size b)) as [Hi|Hi].
    2: { split; [|done]. intros j Hj%get_lt_size Hij. lia. }
    destruct (get b i) eqn:Hg.
    + split; [|intros H; specialize (H i Hg); lia]. intros j _ Hij. split; [lia|done].
    + destruct (IH (S i)) as [H1 H2]; [lia|]. split.
      * intros j Hj Hij. destruct (decide (i = j)) as [->|]; [congruence|].
        destruct (H1 j Hj) as [? ?]; [lia|]. split; [lia|done].
      * intros Hn. apply H2. intros j Hj. specialize (Hn j Hj). lia.
Qed.

(** The bit set implements a finite set of positions: each operation on the byte
    vector is the set operation of its name and keeps the storage bytes, [iter] lists
    the members in strictly ascending order, [count] is their number, and [find_set]
    returns the least member from [i] on, or the size of the storage when there is
    none. *)
Theorem bitset_is_a_set b other i n :
  wf b -> wf other ->
  (bits new = ∅ /\ wf new) /\
  (bits (all_set n) = set_seq 0 n /\ wf (all_set n)) /\
  (bits (set b i) = {[i]} ∪ bits b /\ wf (set b i)) /\
  (bits (clear b i) = bits b ∖ {[i]} /\ wf (clear b i)) /\
  (bits (union_with b other) = bits b ∪ bits other /\ wf (union_with b other)) /\
  get b i = bool_decide (i ∈ bits b) /\
  is_empty b = bool_decide (bits b = ∅) /\
  count b = base.size (bits b) /\
  StronglySorted lt (iter b) /\
  (forall j, j ∈ bits b -> (i <= j)%nat ->
     (i <= find_set b i <= j)%nat /\ find_set b i ∈ bits b) /\
  ((forall j, j ∈ bits b -> (j < i)%nat) -> find_set b i = size b).
Proof.
  intros Hb Ho.
  destruct (find_loop_spec b (size b - i) i) as [Hf1 Hf2]; [lia|].
  split_and!; try (apply bits_ext; intros j).
  - rewrite get_testbit. unfold byte_at. simpl.
    rewrite Z.bits_0, elem_of_empty. done.
  - constructor.
  - rewrite get_all_set, Nat.ltb_lt, elem_of_set_seq. lia.
  - apply wf_all_set.
  - rewrite get_set, orb_true_iff, Nat.eqb_eq, elem_of_union, elem_of_singleton, elem_of_bits.
    intuition congruence.
  - by apply wf_set.
  - rewrite get_clear, andb_true_iff, negb_true_iff, Nat.eqb_neq, elem_of_difference,
      elem_of_singleton, elem_of_bits. intuition congruence.
  - by apply wf_clear.
  - rewrite get_union_with, orb_true_iff, elem_of_union, !elem_of_bits. done.
  - by apply wf_union_with.
  - apply eq_true_iff_eq. by rewrite bool_decide_eq_true, elem_of_bits.
  - by apply is_empty_bits.
  - by rewrite size_bits.
  - rewrite iter_filter. apply StronglySorted_filter_seq.
  - intros j Hj Hij. rewrite elem_of_bits in Hj |- *. by apply Hf1.
  - intros Hn. apply Hf2. intros j Hj. by apply Hn, elem_of_bits.
Qed.

Lemma bitset_is_a_set_witness :
  let b := set (set new 20) 3 in
  bits (clear b 20) = bits b ∖ {[20%nat]} /\ count b = base.size (bits b) /\
  find_set b 4 = 20%nat.
Proof.
  assert (wf new) by constructor.
  assert (wf (set (set new 20) 3)) by (repeat apply wf_set; done).
  destruct (bitset_is_a_set (set (set new 20) 3) new 20 0) as
    (_ & _ & _ & Hc & _ & _ & _ & Hn & _); [done..|].
  split_and!; [apply Hc|apply Hn|done].
Defined.

(** *** Range scan *)

(** A byte masked to the bits [lo..=hi] is non-zero when one of them is set. *)
Lemma masked_nonzero x (lo hi : nat) :
  is_u8 x -> (lo < 8)%nat -> (hi < 8)%nat ->
  Z.land (Z.land x (wrap 8 (Z.shiftl 0xFF (Z.of_nat lo))))
         (Z.shiftr 0xFF (Z.of_nat (7 - hi)%nat)) <> 0
  <-> exists k : nat, (lo <= k <= hi)%nat /\ Z.testbit x (Z.of_nat k) = true.
Proof.
  intros Hx Hlo Hhi. rewrite byte_nonzero.
  - split.
    + intros (k & Hk & Ht). rewrite !Z.land_spec, ff_shiftl_testbit, ff_shiftr_testbit in Ht
        by lia. zbool. exists k. split; [lia|done].
    + intros (k & Hk & Ht). exists k. split; [lia|].
      rewrite !Z.land_spec, ff_shiftl_testbit, ff_shiftr_testbit, Ht by lia. simpl.
      apply andb_true_intro. split; [apply Z.leb_le|apply Z.ltb_lt]; lia.
  - apply (submask_u8 x); [done|..].
    + rewrite !Z.land_nonneg. left. left. apply Hx.
    + intros k. rewrite !Z.land_spec. intros [[? _]%andb_prop _]%andb_prop. done.
Qed.

Lemma u8_land_ff_low x : is_u8 x -> Z.land x (wrap 8 (Z.shiftl 0xFF (Z.of_nat 0))) = x.
Proof.
  intros Hx. change (wrap 8 (Z.shiftl 0xFF (Z.of_nat 0))) with (Z.ones 8).
  rewrite Z.land_ones by lia. apply Z.mod_small. apply Hx.
Qed.

Lemma u8_land_ff_high x : is_u8 x -> Z.land x (Z.shiftr 0xFF (Z.of_nat (7 - 7)%nat)) = x.
Proof.
  intros Hx. change (Z.shiftr 0xFF (Z.of_nat (7 - 7)%nat)) with (Z.ones 8).
  rewrite Z.land_ones by lia. apply Z.mod_small. apply Hx.
Qed.

Lemma land_wrap_u8 x m : is_u8 x -> 0 <= m -> is_u8 (Z.land x m).
Proof.
  intros Hx Hm. apply (submask_u8 x); [done|apply Z.land_nonneg; by right|].
  intros k. rewrite Z.land_spec. by intros [? _]%andb_prop.
Qed.

(** Positions of byte [q] from bit [lo] up, of byte [q] up to bit [hi]. *)
Lemma low_masked_nonzero x (lo : nat) :
  is_u8 x -> (lo < 8)%nat ->
  Z.land x (wrap 8 (Z.shiftl 0xFF (Z.of_nat lo))) <> 0
  <-> exists k : nat, (lo <= k <= 7)%nat /\ Z.testbit x (Z.of_nat k) = true.
Proof.
  intros Hx Hlo. rewrite <- masked_nonzero by (done || lia).
  rewrite (u8_land_ff_high (Z.land _ _)); [done|].
  apply land_wrap_u8; [done|]. unfold wrap. apply Z.mod_pos_bound. lia.
Qed.

Lemma high_masked_nonzero x (hi : nat) :
  is_u8 x -> (hi < 8)%nat ->
  Z.land x (Z.shiftr 0xFF (Z.of_nat (7 - hi)%nat)) <> 0
  <-> exists k : nat, (0 <= k <= hi)%nat /\ Z.testbit x (Z.of_nat k) = true.
Proof.
  intros Hx Hhi. rewrite <- (masked_nonzero x 0) by (done || lia).
  by rewrite u8_land_ff_low.
Qed.

Lemma negb_eqb_0 x : negb (x =? 0) = true <-> x <> 0.
Proof. by rewrite negb_true_iff, Z.eqb_neq. Qed.

(** A bit of byte [q] between two bits of it is a position between two positions. *)
Lemma bit_range_positions b q lo hi :
  (hi < 8)%nat ->
  (exists k : nat, (lo <= k <= hi)%nat /\ Z.testbit (byte_at b q) (Z.of_nat k) = true)
  <-> exists i, (q * 8 + lo <= i <= q * 8 + hi)%nat /\ get b i = true.
Proof.
  intros Hhi. split.
  - intros (k & Hk & Ht). exists (q * 8 + k)%nat. split; [lia|]. rewrite get_testbit.
    replace ((q * 8 + k) / 8)%nat with q by ndivlia.
    by replace ((q * 8 + k) mod 8)%nat with k by ndivlia.
  - intros (i & Hi & Hg). exists (i - q * 8)%nat. split; [lia|]. rewrite get_testbit in Hg.
    replace (i / 8)%nat with q in Hg by ndivlia.
    by replace (i mod 8)%nat with (i - q * 8)%nat in Hg by ndivlia.
Qed.

(** The whole bytes [first+1 .. last] scanned for a non-zero one. *)
Lemma middle_bytes_nonzero b first last :
  wf b -> (last <= length (bytes b))%nat ->
  existsb (fun x => negb (x =? 0)) (take (last - (first + 1)) (drop (first + 1) (bytes b)))
    = true
  <-> exists i, ((first + 1) * 8 <= i < last * 8)%nat /\ get b i = true.
Proof.
  intros Hb Hl. rewrite existsb_exists. split.
  - intros (x & Hx%list_elem_of_In & Hn). apply negb_eqb_0 in Hn.
    apply list_elem_of_lookup_1 in Hx as [q Hq].
    pose proof (lookup_lt_Some _ _ _ Hq) as Hlt.
    rewrite length_take, length_drop in Hlt.
    rewrite lookup_take_lt, lookup_drop in Hq by lia.
    assert (Hx : byte_at b (first + 1 + q) = x) by (unfold byte_at; by rewrite Hq).
    rewrite <- Hx in Hn. apply byte_nonzero in Hn as (k & Hk & Ht); [|by apply byte_at_ok].
    destruct (proj1 (bit_range_positions b (first + 1 + q) 0 7 ltac:(lia))) as (i & Hi & Hg).
    { exists k. split; [lia|done]. }
    exists i. split; [lia|done].
  - intros (i & Hi & Hg). exists (byte_at b (i / 8)). split.
    + apply list_elem_of_In, (list_elem_of_lookup_2 _ (i / 8 - (first + 1))).
      rewrite lookup_take_lt, lookup_drop by ndivlia.
      replace (first + 1 + (i / 8 - (first + 1)))%nat with (i / 8)%nat by ndivlia.
      destruct (lookup_lt_is_Some_2 (bytes b) (i / 8)) as [x Hx]; [ndivlia|].
      unfold byte_at. by rewrite Hx.
    + apply negb_eqb_0, byte_nonzero; [by apply byte_at_ok|].
      exists (i mod 8)%nat. rewrite <- get_testbit. split; [ndivlia|done].
Qed.

(** A scan of [start .. stop] with both ends in the storage. *)
Definition scan (b : t) (start stop : nat) : Prop :=
  exists i, (start <= i < stop)%nat /\ get b i = true.

Lemma scan_split b start mid stop :
  (start <= mid <= stop)%nat ->
  scan b start stop <-> scan b start mid \/ scan b mid stop.
Proof.
  intros Hm. unfold scan. split.
  - intros (i & Hi & Hg). destruct (decide (i < mid)%nat); [left|right]; exists i; (split; [lia|done]).
  - intros [(i & Hi & Hg)|(i & Hi & Hg)]; exists i; (split; [lia|done]).
Qed.

Lemma scan_clip b start stop : scan b start (Nat.min stop (size b)) <-> scan b start stop.
Proof.
  split; intros (i & Hi & Hg); exists i; pose proof (get_lt_size b i Hg); (split; [lia|done]).
Qed.

Lemma byte_scan b q lo hi :
  (hi < 8)%nat ->
  (exists k : nat, (lo <= k <= hi)%nat /\ Z.testbit (byte_at b q) (Z.of_nat k) = true)
  <-> scan b (q * 8 + lo) (q * 8 + hi + 1).
Proof.
  intros Hhi. rewrite bit_range_positions by done. unfold scan.
  split; intros (i & Hi & Hg); exists i; (split; [lia|done]).
Qed.

Lemma any_in_scan b start stop : wf b -> any_in b start stop = true <-> scan b start stop.
Proof.
  intros Hb. rewrite <- scan_clip. unfold any_in, size.
  set (e := Nat.min stop (length (bytes b) * 8)).
  assert (He : (e <= length (bytes b) * 8)%nat) by lia. clearbody e.
  destruct (Nat.leb_spec e start) as [Hs|Hs].
  { split; [done|]. intros (i & ? & _). lia. }
  pose proof (fun q => byte_at_ok b q Hb) as Hok.
  assert ((start mod 8 < 8)%nat /\ ((e - 1) mod 8 < 8)%nat) as [? ?]
    by (split; apply Nat.mod_upper_bound; lia).
  pose proof (Nat.div_mod_eq start 8) as Hds. pose proof (Nat.div_mod_eq (e - 1) 8) as Hde.
  destruct (Nat.eqb_spec (start / 8) ((e - 1) / 8)) as [Hq|Hq].
  - rewrite negb_eqb_0, masked_nonzero, byte_scan by done.
    replace (start / 8 * 8 + start mod 8)%nat with start by lia.
    by replace (start / 8 * 8 + (e - 1) mod 8 + 1)%nat with e by lia.
  - rewrite !orb_true_iff, !negb_eqb_0, low_masked_nonzero, high_masked_nonzero, !byte_scan
      by (done || lia).
    rewrite middle_bytes_nonzero by (done || ndivlia).
    replace (start / 8 * 8 + start mod 8)%nat with start by lia.
    replace (start / 8 * 8 + 7 + 1)%nat with ((start / 8 + 1) * 8)%nat by lia.
    replace ((e - 1) / 8 * 8 + (e - 1) mod 8 + 1)%nat with e by lia.
    replace ((e - 1) / 8 * 8 + 0)%nat with ((e - 1) / 8 * 8)%nat by lia.
    change (exists i, ((start / 8 + 1) * 8 <= i < (e - 1) / 8 * 8)%nat /\ get b i = true)
      with (scan b ((start / 8 + 1) * 8) ((e - 1) / 8 * 8)).
    rewrite <- !scan_split by ndivlia. done.
Qed.

(** [any_in] over a half-open range, which reads whole bytes between two masked
    ends, answers what testing every position of the range one by one answers. *)
Theorem any_in_is_a_per_bit_scan b start stop :
  wf b -> any_in b start stop = existsb (get b) (seq start (stop - start)).
Proof.
  intros Hb. apply eq_true_iff_eq. rewrite any_in_scan, existsb_exists by done.
  unfold scan. setoid_rewrite in_seq.
  split; intros (i & Hi & Hg); exists i; (split; [lia|done]).
Qed.

Lemma any_in_is_a_per_bit_scan_witness :
  any_in (set (set new 23) 7) 8 23 = existsb (get (set (set new 23) 7)) (seq 8 (23 - 8)).
Proof. apply any_in_is_a_per_bit_scan. repeat apply wf_set. constructor. Defined.

(** *** Wire form *)

Lemma swap_words_short l : (length l < 8)%nat -> swap_words l = l.
Proof. intros H. unfold swap_words. by rewrite Nat.div_small. Qed.

Lemma swap_words_app a l :
  length a = 8%nat -> swap_words (a ++ l) = rev a ++ swap_words l.
Proof.
  intros Ha. unfold swap_words. rewrite length_app, Ha.
  replace ((8 + length l) / 8)%nat with (S (length l / 8)) by ndivlia.
  cbn [seq]. rewrite fmap_cons. cbn [mjoin list_join]. rewrite <- app_assoc. f_equal.
  { rewrite drop_0, take_app_le, take_ge by lia. done. }
  f_equal.
  - rewrite <- fmap_S_seq, <- list_fmap_compose. f_equal. apply list_fmap_ext.
    intros _ w _. simpl. do 2 f_equal.
    replace (S (S (S (S (S (S (S (S (w * 8))))))))) with (length a + w * 8)%nat by lia.
    by rewrite drop_app_add.
  - replace (S (length l / 8) * 8)%nat with (length a + length l / 8 * 8)%nat by lia.
    by rewrite drop_app_add.
Qed.

(** Cut a list into a head word and the rest. *)
Lemma word_ind (P : list Z -> Prop) :
  (forall l, (length l < 8)%nat -> P l) ->
  (forall a l, length a = 8%nat -> P l -> P (a ++ l)) -> forall l, P l.
Proof.
  intros Hs Ha l. remember (length l) as n eqn:Hn. revert l Hn.
  induction n as [n IH] using lt_wf_ind. intros l ->.
  destruct (decide (length l < 8)%nat); [by apply Hs|].
  rewrite <- (take_drop 8 l). apply Ha; [rewrite length_take; lia|].
  eapply IH; [|reflexivity]. rewrite length_drop. lia.
Qed.

Lemma length_swap_words l : length (swap_words l) = length l.
Proof.
  induction l as [l Hl|a l Ha IH] using word_ind; [by rewrite swap_words_short|].
  by rewrite swap_words_app, !length_app, length_rev, IH.
Qed.

Lemma swap_words_involutive l : swap_words (swap_words l) = l.
Proof.
  induction l as [l Hl|a l Ha IH] using word_ind.
  - by rewrite (swap_words_short l), swap_words_short.
  - rewrite (swap_words_app a), swap_words_app by (rewrite ?length_rev; done).
    by rewrite rev_involutive, IH.
Qed.

Lemma length_word_order o l : length (word_order o l) = length l.
Proof. destruct o; [done|apply length_swap_words]. Qed.

Lemma word_order_involutive o l : word_order o (word_order o l) = l.
Proof. destruct o; [done|apply swap_words_involutive]. Qed.

Lemma trim_len_le l n : (trim_len l n <= n)%nat.
Proof. induction n; simpl; [lia|]. destruct (_ =? 0); lia. Qed.

Lemma trim_len_zero l n k : (trim_len l n <= k < n)%nat -> default 0 (l !! k) = 0.
Proof.
  induction n as [|n IH]; simpl; [lia|].
  destruct (Z.eqb_spec (default 0 (l !! n)) 0) as [H0|H0]; [|lia].
  intros Hk. destruct (decide (k = n)) as [->|]; [done|]. apply IH. lia.
Qed.

Lemma trim_len_last l n m : trim_len l n = S m -> default 0 (l !! m) <> 0.
Proof.
  induction n as [|n IH]; simpl; [done|].
  destruct (Z.eqb_spec (default 0 (l !! n)) 0) as [H0|H0]; [done|]. by intros [= <-].
Qed.

Definition trimmed (b : t) : list Z :=
  take (trim_len (bytes b) (length (bytes b))) (bytes b).

Lemma length_trimmed b : length (trimmed b) = trim_len (bytes b) (length (bytes b)).
Proof.
  unfold trimmed. rewrite length_take.
  pose proof (trim_len_le (bytes b) (length (bytes b))). lia.
Qed.

Lemma trimmed_lookup b k : default 0 (trimmed b !! k) = byte_at b k.
Proof.
  unfold trimmed, byte_at. set (n := trim_len _ _).
  destruct (decide (k < n)%nat); [by rewrite lookup_take_lt|].
  rewrite lookup_take_ge by lia. simpl. symmetry.
  destruct (decide (k < length (bytes b))%nat).
  - apply (trim_len_zero _ (length (bytes b))). fold n. lia.
  - by rewrite lookup_ge_None_2 by lia.
Qed.

Lemma get_trimmed b i : get (mk (trimmed b)) i = get b i.
Proof. rewrite !get_testbit. f_equal. apply trimmed_lookup. Qed.

Lemma bits_byte_at b other :
  wf b -> wf other -> bits b = bits other -> forall k, byte_at b k = byte_at other k.
Proof.
  intros Hb Ho He k. apply Z.bits_inj'. intros j Hj.
  destruct (Z.lt_ge_cases j 8) as [Hj8|Hj8].
  - assert (Hg : forall c, Z.testbit (byte_at c k) j = get c (k * 8 + Z.to_nat j)%nat).
    { intros c. rewrite get_testbit.
      replace ((k * 8 + Z.to_nat j) / 8)%nat with k by ndivlia.
      replace (Z.of_nat ((k * 8 + Z.to_nat j) mod 8)%nat) with j by ndivlia. done. }
    rewrite !Hg. apply eq_true_iff_eq. by rewrite <- !elem_of_bits, He.
  - assert (Hz : forall x, is_u8 x -> Z.testbit x j = false).
    { intros x [Hx0 Hx1]. destruct (Z.eq_dec x 0) as [->|]; [apply Z.bits_0|].
      assert (Z.log2 x < 8) by (apply Z.log2_lt_pow2; lia).
      apply Z.bits_above_log2; lia. }
    by rewrite !Hz by (by apply byte_at_ok).
Qed.

(** The last byte kept is not zero, so the shorter vector cannot agree with the longer. *)
Lemma trimmed_length_le b other :
  (forall k, byte_at b k = byte_at other k) ->
  (length (trimmed b) <= length (trimmed other))%nat.
Proof.
  intros He. destruct (length (trimmed b)) as [|m] eqn:E; [lia|].
  rewrite length_trimmed in E. pose proof (trim_len_last _ _ _ E) as Hn.
  destruct (decide (m < length (trimmed other))%nat); [lia|exfalso]. apply Hn.
  change (default 0 (bytes b !! m)) with (byte_at b m).
  rewrite He, <- trimmed_lookup. by rewrite lookup_ge_None_2 by lia.
Qed.

Lemma trimmed_ext b other :
  (forall k, byte_at b k = byte_at other k) -> trimmed b = trimmed other.
Proof.
  intros He. assert (Hlen : length (trimmed b) = length (trimmed other)).
  { apply Nat.le_antisymm; apply trimmed_length_le; [done|]. intros. by rewrite He. }
  apply list_eq_same_length with (n := length (trimmed b)); [done..|].
  intros k x y Hk Hx Hy. pose proof (trimmed_lookup b k) as H1.
  pose proof (trimmed_lookup other k) as H2. rewrite Hx in H1. rewrite Hy in H2.
  simpl in *. by rewrite H1, He, H2.
Qed.

Lemma encode_trimmed b o :
  encode b o = encode_size (wrap 32 (len (trimmed b))) o ++ word_order o (trimmed b).
Proof. unfold encode. by rewrite length_trimmed. Qed.

Lemma decode_encoded b o rest :
  len (bytes b) < 2 ^ 32 -> decode o (encode b o ++ rest) = Ok (mk (trimmed b), rest).
Proof.
  intros Hl. assert (Hu : is_u32 (len (trimmed b))).
  { rewrite length_trimmed. pose proof (trim_len_le (bytes b) (length (bytes b))). split; lia. }
  rewrite encode_trimmed, wrap_small, <- app_assoc by done.
  unfold decode. rewrite decode_encode_size_nonnull by done. rbind.
  rewrite <- (length_word_order o), get_bytes_app. rbind. by rewrite word_order_involutive.
Qed.

(** A bit set read back from its wire form, in either byte order and with any bytes
    after it, has the same members; the wire form depends on the members alone, whatever
    zero bytes the storage carries; and cut at any byte it is refused. *)
Theorem bitset_wire_round_trip b o :
  wf b -> len (bytes b) < 2 ^ 32 ->
  (exists b', (forall rest, decode o (encode b o ++ rest) = Ok (b', rest)) /\
     bits b' = bits b /\ encode b' o = encode b o) /\
  (forall other, wf other -> bits other = bits b -> encode other o = encode b o) /\
  (forall k, (k < length (encode b o))%nat -> exists e, decode o (take k (encode b o)) = Err e).
Proof.
  intros Hb Hl.
  assert (Hu : is_u32 (len (trimmed b))).
  { rewrite length_trimmed. pose proof (trim_len_le (bytes b) (length (bytes b))). split; lia. }
  split_and!.
  - exists (mk (trimmed b)). split_and!.
    + intros rest. by apply decode_encoded.
    + apply bits_ext. intros i. by rewrite get_trimmed, elem_of_bits.
    + rewrite !encode_trimmed. by rewrite (trimmed_ext (mk (trimmed b)) b)
        by (intros k; apply trimmed_lookup).
  - intros other Ho He. rewrite !encode_trimmed.
    by rewrite (trimmed_ext other b) by (by apply bits_byte_at).
  - intros k. rewrite encode_trimmed, wrap_small, <- (length_word_order o (trimmed b)) by done.
    intros Hk. unfold decode, decode_size_nonnull.
    destruct (sized_body_cut (fun '(n, cur) =>
      n ← ok_or n (NullSize "bitset size"); '(w, cur) ← get_bytes n cur;
      Ok (mk (word_order o w), cur)) o (word_order o (trimmed b)) k) as [e He].
    + rewrite length_word_order. apply Hu.
    + done.
    + intros cur Hc. rbind. rewrite get_bytes_short by done. by eexists.
    + exists e. rewrite <- He.
      destruct (decode_size o _) as [[[n|] cur]|]; done.
Qed.

Lemma bitset_wire_round_trip_witness :
  (exists b', (forall rest, decode Big (encode (set (set new 70) 3) Big ++ rest)
     = Ok (b', rest)) /\ bits b' = bits (set (set new 70) 3) /\
     encode b' Big = encode (set (set new 70) 3) Big) /\
  encode (clear (set (set (set new 70) 200) 3) 200) Big = encode (set (set new 70) 3) Big.
Proof.
  assert (Hw : wf (set (set new 70) 3)) by (repeat apply wf_set; constructor).
  destruct (bitset_wire_round_trip (set (set new 70) 3) Big Hw) as (H1 & H2 & _).
  { vm_compute. done. }
  split; [exact H1|]. apply H2; [apply wf_clear; repeat apply wf_set; constructor|].
  vm_compute. done.
Defined.

End BitSetTheory.

(** ** Frame headers *)

Definition header_ok (h : PvaHeader) : Prop :=
  is_u8 (version h) /\ is_u8 (flags h) /\ is_u8 (command h) /\ is_u32 (payload_length h).

Lemma header_encode_write_into h : header_encode h = header_write_into h.
Proof.
  unfold header_encode, header_write_into, put_u32, put_uint. by destruct (byte_order _).
Qed.

(** The flag bits a constructor sets are the ones the accessors read. *)
Lemma HeaderFlags_new_spec server control o :
  let f := HeaderFlags_new server control o in
  is_server f = server /\ is_control f = control /\ byte_order f = o /\
  unsegmented f = true /\ segment_first f = false /\ segment_last f = false /\ is_u8 f.
Proof. destruct server, control, o; by vm_compute. Qed.

Lemma read_exact_inv n (cur b rest : list Z) :
  read_exact n cur = Ok (b, rest) -> cur = b ++ rest /\ length b = n.
Proof.
  unfold read_exact. destruct (Nat.ltb_spec (length cur) n) as [|Hn]; [done|].
  intros [= <- <-]. by rewrite take_drop, length_take_le by lia.
Qed.

Lemma get_u8_inv cur x rest : get_u8 cur = Ok (x, rest) -> cur = x :: rest.
Proof.
  unfold get_u8. destruct (read_exact 1 cur) as [[b r]|] eqn:E; rbind; [|done].
  apply read_exact_inv in E as [-> Hb]. destruct b as [|y [|]]; try done.
  intros [= <- <-]. simpl. f_equal. lia.
Qed.

Lemma get_uint_inv n o cur v rest :
  bytes_ok cur -> get_uint n o cur = Ok (v, rest) -> cur = put_uint n v o ++ rest.
Proof.
  intros Hc. unfold get_uint.
  destruct (read_exact n cur) as [[b r]|] eqn:E; rbind; [|done].
  apply read_exact_inv in E as [-> <-]. apply Forall_app in Hc as [Hb _].
  intros [= <- <-]. f_equal. unfold put_uint.
  destruct o; [by rewrite to_from_le_bytes|by rewrite to_from_be_bytes].
Qed.

Lemma header_decode_encode h rest :
  header_ok h -> version h <> 0 -> header_decode (header_encode h ++ rest) = Ok (h, rest).
Proof.
  intros (Hv & Hf & Hc & Hp) Hv0. rewrite header_encode_write_into.
  unfold header_decode, header_write_into, put_u8. cbn [app].
  rewrite get_u8_cons. rbind. cbn [MAGIC Z.eqb Pos.eqb negb].
  rewrite get_u8_cons. rbind. destruct (Z.eqb_spec (version h) 0); [done|].
  rewrite get_u8_cons. rbind. rewrite get_u8_cons. rbind.
  rewrite get_put_u32 by done. rbind. by destruct h.
Qed.

Lemma header_encode_decode cur h rest :
  bytes_ok cur -> header_decode cur = Ok (h, rest) ->
  header_encode h ++ rest = cur /\ version h <> 0.
Proof.
  intros Hok. rewrite header_encode_write_into. unfold header_decode.
  destruct (get_u8 cur) as [[m c1]|] eqn:E1; rbind; [|done]. apply get_u8_inv in E1 as ->.
  destruct (Z.eqb_spec m MAGIC) as [->|]; [|done]. cbn [negb].
  destruct (get_u8 c1) as [[v c2]|] eqn:E2; rbind; [|done]. apply get_u8_inv in E2 as ->.
  destruct (Z.eqb_spec v 0) as [|Hv]; [done|].
  destruct (get_u8 c2) as [[f c3]|] eqn:E3; rbind; [|done]. apply get_u8_inv in E3 as ->.
  destruct (get_u8 c3) as [[c c4]|] eqn:E4; rbind; [|done]. apply get_u8_inv in E4 as ->.
  destruct (get_u32 _ c4) as [[n c5]|] eqn:E5; rbind; [|done]. intros [= <- <-].
  split; [|done]. do 4 (apply Forall_inv_tail in Hok).
  by rewrite (get_uint_inv _ _ _ _ _ Hok E5).
Qed.

(** A frame header with a non-zero version survives encoding and decoding whatever
    follows it, its length being read in the byte order its own flags announce, and the
    two encoders agree on it; whatever bytes decode, the header re-encodes to the bytes
    consumed; a built header carries the direction, kind and byte order asked for. *)
Theorem pva_header_round_trip h rest :
  header_ok h -> version h <> 0 ->
  header_decode (header_encode h ++ rest) = Ok (h, rest) /\
  header_write_into h = header_encode h /\
  (forall cur h' rest', bytes_ok cur -> header_decode cur = Ok (h', rest') ->
     header_encode h' ++ rest' = cur /\ version h' <> 0) /\
  (forall server control o,
     let f := HeaderFlags_new server control o in
     is_server f = server /\ is_control f = control /\ byte_order f = o /\
     unsegmented f = true).
Proof.
  intros Hh Hv. split_and!.
  - by apply header_decode_encode.
  - symmetry. apply header_encode_write_into.
  - apply header_encode_decode.
  - intros server control o. destruct (HeaderFlags_new_spec server control o)
      as (? & ? & ? & ? & _). done.
Qed.

Lemma pva_header_round_trip_witness :
  header_decode (header_encode (application true Big 4 0x100) ++ [1; 2])
  = Ok (application true Big 4 0x100, [1; 2]).
Proof.
  destruct (pva_header_round_trip (application true Big 4 0x100) [1; 2]) as [H _].
  - unfold header_ok, is_uint. vm_compute. repeat split; discriminate.
  - done.
  - exact H.
Defined.

Lemma code_from_code c cmd : from_code c = Some cmd <-> c = code cmd.
Proof.
  split.
  - unfold from_code. intros H.
    repeat match type of H with (if ?x =? ?n then _ else _) = _ =>
      destruct (Z.eqb_spec x n); [by simplify_eq/=|] end. done.
  - intros ->. by destruct cmd.
Qed.

Lemma control_code_from_code c cmd : control_from_code c = Some cmd <-> c = control_code cmd.
Proof.
  split.
  - unfold control_from_code. intros H.
    repeat match type of H with (if ?x =? ?n then _ else _) = _ =>
      destruct (Z.eqb_spec x n); [by simplify_eq/=|] end. done.
  - intros ->. by destruct cmd.
Qed.

(** ** Addresses *)

Definition ip_ok (ip : IpAddr) : Prop :=
  match ip with
  | V4 o => bytes_ok o /\ length o = 4%nat
  | V6 o => bytes_ok o /\ length o = 16%nat /\ is_v4_mapped o = false
  end.

(** An address that is not an IPv4-mapped IPv6 one reads back as itself; the raw-zero
    pattern is the only one the strict reader refuses. *)
Lemma ip_round_trip ip :
  ip_ok ip -> ip_from_bytes_allow_unspec (ip_to_bytes ip) = ip /\
  (ip <> V6 (replicate 16 0) -> ip_from_bytes (ip_to_bytes ip) = Some ip).
Proof.
  unfold ip_from_bytes, ip_from_bytes_allow_unspec. destruct ip as [o|o]; cbn [ip_to_bytes].
  - intros _. by split.
  - intros (_ & Hl & Hm). rewrite Hm. split; [done|]. intros Hz.
    destruct (forallb _ o) eqn:E; [|done]. exfalso. apply Hz. f_equal.
    symmetry. apply replicate_as_elem_of. split; [done|].
    intros x Hx%list_elem_of_In. rewrite forallb_forall in E. by apply Z.eqb_eq, E.
Qed.
