(* ===== verification/PvaText.v ===== *)
(** * pvAccess strings and statuses

    A Rust [String] is the list of its UTF-8 bytes.  Models [String::from_utf8_lossy], the
    string readers of [epics-pva-rs/src/proto/string.rs] that use it and the [Status]
    codec of [proto/status.rs], with their round trips. *)
From stdpp Require Import base tactics numbers list option strings.
From S2P Require Import Prelude PvaProto PvaProtoTheory.

Open Scope Z_scope.

(** ** UTF-8 *)

Definition between (lo hi b : Z) : bool := (lo <=? b) && (b <=? hi).
Definition cont_byte (b : Z) : bool := between 0x80 0xBF b.

(** The bytes a second byte may be after the given first byte of a long sequence. *)
Definition second_of_3 (b0 b1 : Z) : bool :=
  if b0 =? 0xE0 then between 0xA0 0xBF b1
  else if b0 =? 0xED then between 0x80 0x9F b1
  else cont_byte b1.
Definition second_of_4 (b0 b1 : Z) : bool :=
  if b0 =? 0xF0 then between 0x90 0xBF b1
  else if b0 =? 0xF4 then between 0x80 0x8F b1
  else cont_byte b1.

(** The next sequence of a byte string: how many bytes it takes and whether they are one
    character, a broken sequence ending before the first byte that cannot continue it. *)
Definition utf8_step (l : list Z) : nat * bool :=
  match l with
  | [] => (0%nat, true)
  | b0 :: l =>
      if b0 <? 0x80 then (1%nat, true)
      else if between 0xC2 0xDF b0 then
        match l with
        | b1 :: _ => if cont_byte b1 then (2%nat, true) else (1%nat, false)
        | [] => (1%nat, false)
        end
      else if between 0xE0 0xEF b0 then
        match l with
        | b1 :: l =>
            if second_of_3 b0 b1 then
              match l with
              | b2 :: _ => if cont_byte b2 then (3%nat, true) else (2%nat, false)
              | [] => (2%nat, false)
              end
            else (1%nat, false)
        | [] => (1%nat, false)
        end
      else if between 0xF0 0xF4 b0 then
        match l with
        | b1 :: l =>
            if second_of_4 b0 b1 then
              match l with
              | b2 :: l =>
                  if cont_byte b2 then
                    match l with
                    | b3 :: _ => if cont_byte b3 then (4%nat, true) else (3%nat, false)
                    | [] => (3%nat, false)
                    end
                  else (2%nat, false)
              | [] => (2%nat, false)
              end
            else (1%nat, false)
        | [] => (1%nat, false)
        end
      else (1%nat, false)
  end.

(** U+FFFD. *)
Definition REPLACEMENT : list Z := [0xEF; 0xBF; 0xBD].

(** Every step takes at least a byte, so [length l] steps are enough. *)
Fixpoint lossy_loop (fuel : nat) (l : list Z) : list Z :=
  match fuel, l with
  | _, [] => []
  | O, _ => []
  | S fuel, _ =>
      let '(n, ok) := utf8_step l in
      (if ok then take n l else REPLACEMENT) ++ lossy_loop fuel (drop n l)
  end.
Definition from_utf8_lossy (l : list Z) : list Z := lossy_loop (length l) l.

Fixpoint valid_loop (fuel : nat) (l : list Z) : bool :=
  match fuel, l with
  | _, [] => true
  | O, _ => false
  | S fuel, _ => let '(n, ok) := utf8_step l in ok && valid_loop fuel (drop n l)
  end.
Definition valid_utf8 (l : list Z) : bool := valid_loop (length l) l.

(** ** Strings *)

Definition encode_string (value : list Z) (o : ByteOrder) : list Z :=
  encode_string_bytes value o.

Definition decode_string (o : ByteOrder) : reader (option (list Z)) := fun cur =>
  '(s, cur) ← decode_string_bytes o cur;
  Ok (option_map from_utf8_lossy s, cur).

(** [decode_string(..)?.unwrap_or_default()]. *)
Definition decode_string_or_default (o : ByteOrder) : reader (list Z) := fun cur =>
  '(s, cur) ← decode_string o cur;
  Ok (default [] s, cur).

(** ** Status *)

Inductive StatusKind : Type := StOk | StWarning | StError | StFatal.

Definition kind_byte (k : StatusKind) : Z :=
  match k with StOk => 0 | StWarning => 1 | StError => 2 | StFatal => 3 end.

Definition kind_from_byte (b : Z) : option StatusKind :=
  if b =? 0 then Some StOk else if b =? 1 then Some StWarning
  else if b =? 2 then Some StError else if b =? 3 then Some StFatal else None.

Inductive Status : Type :=
| OkNoMsg
| Detailed (kind : StatusKind) (message stack : list Z).

Definition is_success (s : Status) : bool :=
  match s with
  | OkNoMsg => true
  | Detailed k _ _ => match k with StOk | StWarning => true | _ => false end
  end.

Definition status_message (s : Status) : option (list Z) :=
  match s with OkNoMsg => None | Detailed _ m _ => Some m end.

Definition status_encode (s : Status) (o : ByteOrder) : list Z :=
  match s with
  | OkNoMsg => put_u8 0xFF
  | Detailed kind message stack =>
      put_u8 (kind_byte kind) ++ encode_string message o ++ encode_string stack o
  end.

Definition status_decode (o : ByteOrder) : reader Status := fun cur =>
  '(b, cur) ← get_u8 cur;
  if b =? 0xFF then Ok (OkNoMsg, cur) else
  kind ← ok_or (kind_from_byte b) (UnknownStatusKind b);
  '(message, cur) ← decode_string_or_default o cur;
  '(stack, cur) ← decode_string_or_default o cur;
  Ok (Detailed kind message stack, cur).

(** ** UTF-8 lemmas *)

(** Cases on the shape of a non-empty byte string, down to the next sequence. *)
Ltac utf8_cases :=
  repeat match goal with
  | |- context [match ?l with [] => _ | _ :: _ => _ end] => destruct l; simpl
  | |- context [if ?b then _ else _] => destruct b eqn:?; simpl
  end.

Ltac utf8_cases_in H :=
  repeat match type of H with
  | context [match ?l with [] => _ | _ :: _ => _ end] => destruct l
  | context [if ?b then _ else _] => destruct b eqn:?
  end; try discriminate H.

Lemma utf8_step_bounds l n ok :
  utf8_step l = (n, ok) -> l <> [] -> (1 <= n <= length l)%nat.
Proof.
  destruct l as [|b l]; [done|]. intros H _. revert H. unfold utf8_step. simpl length.
  utf8_cases; intros [= <- <-]; simpl; lia.
Qed.

(** A whole character is recognised whatever follows it. *)
Lemma utf8_step_app l r n :
  utf8_step l = (n, true) -> l <> [] ->
  utf8_step (take n l ++ r) = (n, true) /\ length (take n l) = n.
Proof.
  intros H Hne. split.
  - destruct l as [|b l]; [done|]. unfold utf8_step in H.
    utf8_cases_in H; injection H as <-; unfold utf8_step; cbn [take app];
      repeat match goal with H : ?x = _ |- context [if ?x then _ else _] => rewrite H end;
      done.
  - apply length_take_le. apply (utf8_step_bounds l n true H Hne).
Qed.

Lemma valid_loop_lossy fuel l :
  (length l <= fuel)%nat -> valid_loop fuel l = true -> lossy_loop fuel l = l.
Proof.
  revert l. induction fuel as [|fuel IH]; intros l Hf Hv.
  - destruct l; [done|simpl in *; lia].
  - destruct l as [|b l]; [done|]. cbn [valid_loop lossy_loop] in *.
    destruct (utf8_step (b :: l)) as [n ok] eqn:E. apply andb_prop in Hv as [-> Hv].
    pose proof (utf8_step_bounds _ _ _ E ltac:(done)) as Hn.
    rewrite IH; [apply take_drop|rewrite length_drop; simpl in *; lia|done].
Qed.

Lemma from_utf8_lossy_valid l : valid_utf8 l = true -> from_utf8_lossy l = l.
Proof. by apply valid_loop_lossy. Qed.

(** The fuel of [valid_loop] beyond the length changes nothing. *)
Lemma valid_loop_fuel fuel l :
  (length l <= fuel)%nat -> valid_loop fuel l = valid_utf8 l.
Proof.
  unfold valid_utf8. remember (length l) as n eqn:Hn. revert fuel l Hn.
  induction n as [n IH] using lt_wf_ind. intros fuel l -> Hf.
  destruct l as [|b l]; [by destruct fuel|].
  destruct fuel as [|fuel]; [simpl in Hf; lia|]. cbn [valid_loop length].
  destruct (utf8_step (b :: l)) as [n ok] eqn:E. f_equal.
  pose proof (utf8_step_bounds _ _ _ E ltac:(done)) as Hn.
  assert (Hd : (length (drop n (b :: l)) < length (b :: l))%nat)
    by (rewrite length_drop; simpl in *; lia).
  rewrite (IH _ Hd fuel _ eq_refl) by (simpl in *; lia).
  symmetry. apply (IH _ Hd); [done|simpl in *; lia].
Qed.

Lemma valid_utf8_step c n r :
  utf8_step c = (n, true) -> c <> [] -> valid_utf8 (take n c ++ r) = valid_utf8 r.
Proof.
  intros Hc Hne. destruct (utf8_step_app c r n Hc Hne) as [Hs Hl].
  pose proof (utf8_step_bounds _ _ _ Hc Hne) as Hn.
  rewrite <- (valid_loop_fuel (S (length (take n c ++ r)))) by lia.
  destruct (take n c ++ r) as [|x t] eqn:E.
  { apply app_eq_nil in E as [E _]. rewrite E in Hl. simpl in Hl. lia. }
  assert (Hd : drop n (x :: t) = r) by (rewrite <- E, <- Hl at 1; apply drop_app_length).
  assert (Hf : (length r <= length (x :: t))%nat) by (rewrite <- E, length_app; lia).
  generalize dependent (length (x :: t)). intros fuel Hf.
  cbn [valid_loop]. rewrite Hs, Hd. by apply valid_loop_fuel.
Qed.

(** What the lossy reader returns is UTF-8. *)
Lemma from_utf8_lossy_is_utf8 l : valid_utf8 (from_utf8_lossy l) = true.
Proof.
  unfold from_utf8_lossy. generalize (length l). intros fuel. revert l.
  induction fuel as [|fuel IH]; intros l; [by destruct l|].
  destruct l as [|b l]; [done|]. cbn [lossy_loop].
  destruct (utf8_step (b :: l)) as [n ok] eqn:E. destruct ok.
  - rewrite (valid_utf8_step (b :: l)) by done. apply IH.
  - change REPLACEMENT with (take 3 REPLACEMENT).
    rewrite (valid_utf8_step REPLACEMENT) by done. apply IH.
Qed.

(** ** Codec lemmas *)

Definition text_ok (s : list Z) : Prop := valid_utf8 s = true /\ len s < 2 ^ 32.

Lemma decode_encode_string_bytes o s rest :
  len s < 2 ^ 32 ->
  decode_string_bytes o (encode_string_bytes s o ++ rest) = Ok (Some s, rest).
Proof.
  intros Hs. assert (is_u32 (len s)) by (split; lia).
  unfold decode_string_bytes, encode_string_bytes.
  rewrite wrap_small, <- app_assoc, decode_encode_size by done.
  rbind. by rewrite get_bytes_app.
Qed.

Lemma decode_encode_string o s rest :
  text_ok s -> decode_string_or_default o (encode_string s o ++ rest) = Ok (s, rest).
Proof.
  intros [Hv Hl]. unfold decode_string_or_default, decode_string, encode_string.
  rewrite decode_encode_string_bytes by done. rbind. simpl.
  by rewrite from_utf8_lossy_valid.
Qed.

Definition status_ok (s : Status) : Prop :=
  match s with OkNoMsg => True | Detailed _ m st => text_ok m /\ text_ok st end.

(** A status survives the wire: kind, message and stack. *)
Lemma status_round_trip s o rest :
  status_ok s -> status_decode o (status_encode s o ++ rest) = Ok (s, rest).
Proof.
  destruct s as [|k m st]; intros Hs; unfold status_decode, status_encode, put_u8; cbn [app].
  - by rewrite get_u8_cons.
  - destruct Hs as [Hm Hst]. rewrite get_u8_cons. rbind.
    assert (Hk : (kind_byte k =? 0xFF) = false) by (by destruct k). rewrite Hk.
    replace (kind_from_byte (kind_byte k)) with (Some k) by (by destruct k). rbind.
    rewrite <- app_assoc, decode_encode_string by done. rbind.
    rewrite decode_encode_string by done. done.
Qed.
