(* ===== verification/PvaDesc.v ===== *)
(** * pvData type descriptors

    Models the descriptor half of [epics-pva-rs/src/pvdata]: [scalar.rs] (the scalar type
    codes), [field.rs] ([FieldDesc], its bit numbering and path lookup) and, of
    [encode.rs], the inline and the cached encoder, the decoder with its type cache and
    its limits, and the changed-bitset computations of a monitor post. *)
From stdpp Require Import base tactics numbers list option strings gmap.
From S2P Require Import Prelude PvaProto PvaText.

Open Scope Z_scope.

(** ** Scalar types *)

Inductive ScalarType : Type :=
| Boolean | Byte | Short | Int | Long | UByte | UShort | UInt | ULong | Float | Double
| String.

#[export] Instance ScalarType_eq_dec : EqDecision ScalarType.
Proof. solve_decision. Defined.

Definition type_code (st : ScalarType) : Z :=
  match st with
  | Boolean => 0x00 | Byte => 0x20 | Short => 0x21 | Int => 0x22 | Long => 0x23
  | UByte => 0x24 | UShort => 0x25 | UInt => 0x26 | ULong => 0x27 | Float => 0x42
  | Double => 0x43 | String => 0x60
  end.

Definition from_type_code (c : Z) : option ScalarType :=
  if c =? 0x00 then Some Boolean else if c =? 0x20 then Some Byte
  else if c =? 0x21 then Some Short else if c =? 0x22 then Some Int
  else if c =? 0x23 then Some Long else if c =? 0x24 then Some UByte
  else if c =? 0x25 then Some UShort else if c =? 0x26 then Some UInt
  else if c =? 0x27 then Some ULong else if c =? 0x42 then Some Float
  else if c =? 0x43 then Some Double else if c =? 0x60 then Some String else None.

Definition array_type_code (st : ScalarType) : Z := Z.lor (type_code st) 0x08.

Definition from_array_type_code (c : Z) : option ScalarType :=
  if negb (Z.land c 0x08 =? 0) then from_type_code (and_not c 0x08) else None.

(** ** Descriptors *)

#[warnings="-register-all"]
Inductive FieldDesc : Type :=
| Scalar (st : ScalarType)
| ScalarArray (st : ScalarType)
| Structure (struct_id : list Z) (fields : list (list Z * FieldDesc))
| StructureArray (struct_id : list Z) (fields : list (list Z * FieldDesc))
| Union (struct_id : list Z) (variants : list (list Z * FieldDesc))
| UnionArray (struct_id : list Z) (variants : list (list Z * FieldDesc))
| Variant
| VariantArray.

(** The member list of a compound descriptor. *)
Definition members (d : FieldDesc) : list (list Z * FieldDesc) :=
  match d with
  | Structure _ fs | StructureArray _ fs | Union _ fs | UnionArray _ fs => fs
  | _ => []
  end.

(** [derive(PartialEq)]: same constructor, same id, members equal in order. *)
Section Equality.
Variable eqb : FieldDesc -> FieldDesc -> bool.
Fixpoint members_eqb (xs ys : list (list Z * FieldDesc)) : bool :=
  match xs, ys with
  | [], [] => true
  | (n, x) :: xs, (m, y) :: ys => bool_decide (n = m) && eqb x y && members_eqb xs ys
  | _, _ => false
  end.
End Equality.

Fixpoint desc_eqb (x y : FieldDesc) : bool :=
  match x, y with
  | Scalar a, Scalar b | ScalarArray a, ScalarArray b => bool_decide (a = b)
  | Structure i fs, Structure j gs | StructureArray i fs, StructureArray j gs
  | Union i fs, Union j gs | UnionArray i fs, UnionArray j gs =>
      bool_decide (i = j) && members_eqb desc_eqb fs gs
  | Variant, Variant | VariantArray, VariantArray => true
  | _, _ => false
  end.

(** The positions a descriptor spans in a bit set; [StructFields] stores the count its
    members give when it is built and cannot change afterwards. *)
Fixpoint total_bits (d : FieldDesc) : nat :=
  match d with
  | Structure _ fs => 1 + sum_list_with (fun '(_, c) => total_bits c) fs
  | _ => 1
  end.

Definition field_count (d : FieldDesc) : nat := length (members d).

(** The member loop of [find_bit_for_path]: the first member of that name, with the
    position it starts at. *)
Fixpoint find_member (head : list Z) (fs : list (list Z * FieldDesc)) (offset : nat)
    : option (FieldDesc * nat) :=
  match fs with
  | [] => None
  | (name, child) :: fs =>
      if bool_decide (name = head) then Some (child, offset)
      else find_member head fs (offset + total_bits child)
  end.

Fixpoint find_bit_for_path (d : FieldDesc) (base : nat) (path : list (list Z))
    : option (nat * nat) :=
  match path with
  | [] => Some (base, (base + total_bits d)%nat)
  | head :: tail =>
      match d with
      | Structure _ fs =>
          '(child, offset) ← find_member head fs (base + 1);
          find_bit_for_path child offset tail
      | _ => None
      end
  end.

(** [path.split('.')]. *)
Fixpoint split_dots (path : list Z) : list (list Z) :=
  match path with
  | [] => [[]]
  | c :: path =>
      if c =? 46 then [] :: split_dots path
      else match split_dots path with
           | w :: ws => (c :: w) :: ws
           | [] => [[c]]
           end
  end.

Definition bit_span_for_path (d : FieldDesc) (path : list Z) : option (nat * nat) :=
  match path with
  | [] => Some (0%nat, total_bits d)
  | _ => find_bit_for_path d 0 (split_dots path)
  end.

Definition bit_for_path (d : FieldDesc) (path : list Z) : option nat :=
  match path with
  | [] => Some 0%nat
  | _ => fst <$> find_bit_for_path d 0 (split_dots path)
  end.

(** ** Encoding *)

Definition TAG_STRUCTURE : Z := 0x80.
Definition TAG_UNION : Z := 0x81.
Definition TAG_VARIANT : Z := 0x82.
Definition TAG_BOUNDED_STRING : Z := 0x83.
Definition TAG_STRUCTURE_ARRAY : Z := 0x88.
Definition TAG_UNION_ARRAY : Z := 0x89.
Definition TAG_VARIANT_ARRAY : Z := 0x8A.
Definition TAG_NULL : Z := 0xFF.

Section Body.
Variable o : ByteOrder.
Variable enc : FieldDesc -> list Z.
Fixpoint encode_members (fs : list (list Z * FieldDesc)) : list Z :=
  match fs with
  | [] => []
  | (name, child) :: fs => (encode_string name o ++ enc child) ++ encode_members fs
  end.
Definition encode_structure_body (struct_id : list Z) (fs : list (list Z * FieldDesc)) : list Z :=
  encode_string struct_id o ++ encode_size (wrap 32 (len fs)) o ++ encode_members fs.
End Body.

Fixpoint encode_type_desc (o : ByteOrder) (d : FieldDesc) : list Z :=
  match d with
  | Scalar st => put_u8 (type_code st)
  | ScalarArray st => put_u8 (array_type_code st)
  | Structure id fs =>
      put_u8 TAG_STRUCTURE ++ encode_structure_body o (encode_type_desc o) id fs
  | StructureArray id fs =>
      put_u8 TAG_STRUCTURE_ARRAY ++ put_u8 TAG_STRUCTURE
      ++ encode_structure_body o (encode_type_desc o) id fs
  | Union id fs =>
      put_u8 TAG_UNION ++ encode_structure_body o (encode_type_desc o) id fs
  | UnionArray id fs =>
      put_u8 TAG_UNION_ARRAY ++ put_u8 TAG_UNION
      ++ encode_structure_body o (encode_type_desc o) id fs
  | Variant => put_u8 TAG_VARIANT
  | VariantArray => put_u8 TAG_VARIANT_ARRAY
  end.

Definition encode_field_desc (o : ByteOrder) (name : list Z) (d : FieldDesc) : list Z :=
  encode_string name o ++ encode_type_desc o d.

(** *** With a type cache

    The map is an association list, newest first; a key is inserted only when absent. *)
Record EncodeTypeCache : Type := mkEncodeTypeCache {
  next : Z;
  map : list (FieldDesc * Z);
}.

Definition EncodeTypeCache_new : EncodeTypeCache := mkEncodeTypeCache 0 [].

Definition cacheable (d : FieldDesc) : bool :=
  match d with
  | Structure _ _ | StructureArray _ _ | Union _ _ | UnionArray _ _ => true
  | _ => false
  end.

Fixpoint map_get (d : FieldDesc) (m : list (FieldDesc * Z)) : option Z :=
  match m with
  | [] => None
  | (k, slot) :: m => if desc_eqb k d then Some slot else map_get d m
  end.

(** An encoder threading the cache; [None] is the panic on slot exhaustion. *)
Definition cached_encoder : Type := EncodeTypeCache -> option (list Z * EncodeTypeCache).

Definition encode_with_slot (o : ByteOrder) (d : FieldDesc) (inline : cached_encoder)
    : cached_encoder := fun cache =>
  if cacheable d then
    match map_get d (map cache) with
    | Some slot => Some (put_u8 0xFE ++ put_u16 slot o, cache)
    | None =>
        let slot := next cache in
        if slot + 1 <=? uint_max 16 then
          '(b, cache) ← inline (mkEncodeTypeCache (slot + 1) ((d, slot) :: map cache));
          Some (put_u8 0xFD ++ put_u16 slot o ++ b, cache)
        else None
    end
  else inline cache.

Section BodyCached.
Variable o : ByteOrder.
Variable enc : FieldDesc -> cached_encoder.
Fixpoint encode_members_cached (fs : list (list Z * FieldDesc)) : cached_encoder := fun cache =>
  match fs with
  | [] => Some ([], cache)
  | (name, child) :: fs =>
      '(b, cache) ← enc child cache;
      '(bs, cache) ← encode_members_cached fs cache;
      Some ((encode_string name o ++ b) ++ bs, cache)
  end.
Definition encode_structure_body_cached (tags : list Z) (struct_id : list Z)
    (fs : list (list Z * FieldDesc)) : cached_encoder := fun cache =>
  '(b, cache) ← encode_members_cached fs cache;
  Some (tags ++ encode_string struct_id o ++ encode_size (wrap 32 (len fs)) o ++ b, cache).
End BodyCached.

Fixpoint encode_type_desc_inline_cached (o : ByteOrder) (d : FieldDesc) : cached_encoder :=
  let child c := encode_with_slot o c (encode_type_desc_inline_cached o c) in
  match d with
  | Scalar st => fun cache => Some (put_u8 (type_code st), cache)
  | ScalarArray st => fun cache => Some (put_u8 (array_type_code st), cache)
  | Structure id fs =>
      encode_structure_body_cached o child (put_u8 TAG_STRUCTURE) id fs
  | StructureArray id fs =>
      encode_structure_body_cached o child
        (put_u8 TAG_STRUCTURE_ARRAY ++ put_u8 TAG_STRUCTURE) id fs
  | Union id fs =>
      encode_structure_body_cached o child (put_u8 TAG_UNION) id fs
  | UnionArray id fs =>
      encode_structure_body_cached o child (put_u8 TAG_UNION_ARRAY ++ put_u8 TAG_UNION) id fs
  | Variant => fun cache => Some (put_u8 TAG_VARIANT, cache)
  | VariantArray => fun cache => Some (put_u8 TAG_VARIANT_ARRAY, cache)
  end.

Definition encode_type_desc_cached (o : ByteOrder) (d : FieldDesc) : cached_encoder :=
  encode_with_slot o d (encode_type_desc_inline_cached o d).

Definition encode_field_desc_cached (o : ByteOrder) (name : list Z) (d : FieldDesc)
    : cached_encoder := fun cache =>
  '(b, cache) ← encode_type_desc_cached o d cache;
  Some (encode_string name o ++ b, cache).

(** ** Decoding *)

Record TreeMetrics : Type := mkTreeMetrics { height : Z; nodes : Z }.

Definition LEAF : TreeMetrics := mkTreeMetrics 0 1.

Record CachedType : Type := mkCachedType {
  slot_desc : FieldDesc;
  slot_height : Z;
  slot_nodes : Z;
}.

Definition new_with_metrics (d : FieldDesc) (m : TreeMetrics) : CachedType :=
  mkCachedType d (height m) (nodes m).

(** The stack loop of [TreeMetrics::measure]; the fuel is the descriptor's node count. *)
Fixpoint measure_loop (fuel : nat) (stack : list (FieldDesc * Z)) (m : TreeMetrics)
    : TreeMetrics :=
  match fuel, stack with
  | S fuel, (d, lvl) :: stack =>
      measure_loop fuel (rev ((fun '(_, c) => (c, lvl + 1)) <$> members d) ++ stack)
        (mkTreeMetrics (Z.max (height m) lvl) (sat_add 32 (nodes m) 1))
  | _, _ => m
  end.

Fixpoint node_count (d : FieldDesc) : nat :=
  match d with
  | Structure _ fs | StructureArray _ fs | Union _ fs | UnionArray _ fs =>
      S (sum_list_with (fun '(_, c) => node_count c) fs)
  | _ => 1
  end.

Definition measure (d : FieldDesc) : TreeMetrics :=
  measure_loop (node_count d) [(d, 0)] (mkTreeMetrics 0 0).

Definition CachedType_new (d : FieldDesc) : CachedType := new_with_metrics d (measure d).

Abbreviation TypeCache := (gmap Z CachedType).

(** [cfg(target_os = "rtems")]. *)
Definition MAX_FIELD_DEPTH (rtems : bool) : nat := if rtems then 10 else 20.
Definition MAX_FIELD_NODES : Z := uint_max 16.

Definition check_field_metrics (rtems : bool) (m : TreeMetrics) : result DecodeError unit :=
  if MAX_FIELD_NODES <? nodes m then Err TooManyNodes
  else if Z.of_nat (MAX_FIELD_DEPTH rtems) <? height m then Err NestingTooDeep
  else Ok tt.

Inductive BoundedStringPolicy : Type := Interop | StrictPvxs.

(** A decoder with a type cache, which keeps what was defined before a failure. *)
Definition dec (A : Type) : Type :=
  TypeCache -> list Z -> TypeCache * result DecodeError (A * list Z).

#[export] Instance dec_ret : MRet dec := fun A a cache cur => (cache, Ok (a, cur)).
#[export] Instance dec_bind : MBind dec := fun A B f m cache cur =>
  match m cache cur with
  | (cache, Ok (a, cur)) => f a cache cur
  | (cache, Err e) => (cache, Err e)
  end.

Definition lift {A : Type} (r : reader A) : dec A := fun cache cur => (cache, r cur).
Definition fails {A : Type} (e : DecodeError) : dec A := fun cache _ => (cache, Err e).
Definition checked (r : result DecodeError unit) : dec unit := fun cache cur =>
  (cache, match r with Ok _ => Ok (tt, cur) | Err e => Err e end).

(** [cache.entry(key).or_insert_with(..)]. *)
Definition define_slot (key : Z) (t : CachedType) : dec unit := fun cache cur =>
  (match cache !! key with Some _ => cache | None => <[key := t]> cache end, Ok (tt, cur)).

Definition lookup_slot (key : Z) : dec (FieldDesc * TreeMetrics) := fun cache cur =>
  (cache, match cache !! key with
          | Some t => Ok ((slot_desc t, mkTreeMetrics (slot_height t) (slot_nodes t)), cur)
          | None => Err (TypecacheMiss key)
          end).

Definition fold_metrics (m child : TreeMetrics) : TreeMetrics :=
  mkTreeMetrics (Z.max (height m) (sat_add 32 (height child) 1))
                (sat_add 32 (nodes m) (nodes child)).

Section Bodies.
Variable rtems : bool.
Variable o : ByteOrder.
Variable child : dec (FieldDesc * TreeMetrics).

(** The member loop: [n] members, the running metrics checked after each. *)
Fixpoint decode_members (n : nat) (m : TreeMetrics)
    : dec (list (list Z * FieldDesc) * TreeMetrics) :=
  match n with
  | O => mret ([], m)
  | S n =>
      name ← lift (decode_string_or_default o);
      '(d, c) ← child;
      let m := fold_metrics m c in
      _ ← checked (check_field_metrics rtems m);
      '(rest, m) ← decode_members n m;
      mret ((name, d) :: rest, m)
  end.

Definition decode_structure_body : dec (FieldDesc * TreeMetrics) :=
  struct_id ← lift (decode_string_or_default o);
  n ← lift (decode_size_nonnull o "structure field count");
  '(fs, m) ← decode_members (Z.to_nat n) (mkTreeMetrics 0 1);
  mret (Structure struct_id fs, m).

Definition decode_union_body : dec (FieldDesc * TreeMetrics) :=
  struct_id ← lift (decode_string_or_default o);
  n ← lift (decode_size_nonnull o "union variant count");
  '(fs, m) ← decode_members (Z.to_nat n) (mkTreeMetrics 0 1);
  mret (Union struct_id fs, m).
End Bodies.

(** [decode_type_desc_cached_at_depth]; [levels] is [MAX_FIELD_DEPTH + 1 - depth], so that no
    level levels is a depth over the limit. *)
Fixpoint decode_type_desc_at (rtems : bool) (o : ByteOrder) (policy : BoundedStringPolicy)
    (levels : nat) : dec (FieldDesc * TreeMetrics) :=
  match levels with
  | O => fails NestingTooDeep
  | S levels =>
      let deeper := decode_type_desc_at rtems o policy levels in
      tag ← lift get_u8;
      if tag =? 0xFD then
        key ← lift (get_u16 o);
        '(d, m) ← deeper;
        _ ← define_slot key (new_with_metrics d m);
        mret (d, m)
      else if tag =? 0xFE then
        key ← lift (get_u16 o);
        lookup_slot key
      else if tag =? TAG_STRUCTURE then decode_structure_body rtems o deeper
      else if tag =? TAG_UNION then decode_union_body rtems o deeper
      else if tag =? TAG_STRUCTURE_ARRAY then
        '(elem, m) ← deeper;
        match elem with
        | Structure id fs => mret (StructureArray id fs, m)
        | _ => fails ElementNotStructure
        end
      else if tag =? TAG_UNION_ARRAY then
        '(elem, m) ← deeper;
        match elem with
        | Union id fs => mret (UnionArray id fs, m)
        | _ => fails ElementNotUnion
        end
      else if tag =? TAG_VARIANT then mret (Variant, LEAF)
      else if tag =? TAG_VARIANT_ARRAY then mret (VariantArray, LEAF)
      else if tag =? TAG_BOUNDED_STRING then
        match policy with
        | Interop =>
            _ ← lift (decode_size_nonnull o "bounded string size");
            mret (Scalar String, LEAF)
        | StrictPvxs => fails BoundedStringRefused
        end
      else if negb (Z.land tag 0x08 =? 0) then
        match from_array_type_code tag with
        | Some st => mret (ScalarArray st, LEAF)
        | None => fails (UnknownArrayTag tag)
        end
      else
        match from_type_code tag with
        | Some st => mret (Scalar st, LEAF)
        | None => fails (UnknownTypeTag tag)
        end
  end.

Definition decode_type_desc_cached_with_policy (rtems : bool) (o : ByteOrder)
    (policy : BoundedStringPolicy) : dec FieldDesc :=
  '(d, _) ← decode_type_desc_at rtems o policy (S (MAX_FIELD_DEPTH rtems));
  mret d.

Definition decode_type_desc_cached (rtems : bool) (o : ByteOrder) : dec FieldDesc :=
  decode_type_desc_cached_with_policy rtems o Interop.

Definition decode_field_desc_cached (rtems : bool) (o : ByteOrder) : dec (list Z * FieldDesc) :=
  name ← lift (decode_string_or_default o);
  d ← decode_type_desc_cached rtems o;
  mret (name, d).

(** Without a cache: an empty one that is thrown away. *)
Definition decode_type_desc (rtems : bool) (o : ByteOrder) : reader FieldDesc := fun cur =>
  snd (decode_type_desc_cached rtems o ∅ cur).

Definition decode_field_desc (rtems : bool) (o : ByteOrder) : reader (list Z * FieldDesc) :=
  fun cur =>
  '(name, cur) ← decode_string_or_default o cur;
  '(d, cur) ← decode_type_desc rtems o cur;
  Ok ((name, d), cur).

(** The peek of [decode_type_desc_cached_opt]: a null code is an absent value. *)
Definition decode_type_desc_cached_opt (rtems : bool) (o : ByteOrder) : dec (option FieldDesc) :=
  fun cache cur =>
  match get_u8 cur with
  | Err e => (cache, Err e)
  | Ok (b, after) =>
      if b =? TAG_NULL then (cache, Ok (None, after))
      else (d ← decode_type_desc_cached rtems o; mret (Some d)) cache cur
  end.

(** ** Changed bit sets *)

Section Canonical.
Variable walk : FieldDesc -> nat -> BitSet.t -> BitSet.t.
Fixpoint canonical_members (fs : list (list Z * FieldDesc)) (bit : nat) (out : BitSet.t)
    : BitSet.t :=
  match fs with
  | [] => out
  | (_, child) :: fs => canonical_members fs (bit + total_bits child) (walk child bit out)
  end.
End Canonical.

Fixpoint canonical_walk (selection : BitSet.t) (d : FieldDesc) (bit_offset : nat)
    (out : BitSet.t) : BitSet.t :=
  match d with
  | Structure _ fs =>
      canonical_members (canonical_walk selection) fs (bit_offset + 1) out
  | _ => if BitSet.get selection bit_offset then BitSet.set out bit_offset else out
  end.

Definition canonical_changed_bitset (d : FieldDesc) (selection : BitSet.t) : BitSet.t :=
  canonical_walk selection d 0 BitSet.new.

Definition set_span (out : BitSet.t) (start stop : nat) : BitSet.t :=
  foldl BitSet.set out (seq start (stop - start)).

Definition mark_path (d : FieldDesc) (out : BitSet.t) (path : list Z) : BitSet.t :=
  match path with
  | [] => out
  | _ => match bit_span_for_path d path with
         | Some (start, stop) => set_span out start stop
         | None => out
         end
  end.

Definition marked_changed_bitset (d : FieldDesc) (marked_paths : list (list Z)) : BitSet.t :=
  foldl (mark_path d) BitSet.new marked_paths.

Definition marked_wire_changed_bitset (d : FieldDesc) (marked_paths : list (list Z))
    (mask : BitSet.t) : BitSet.t :=
  let target := marked_changed_bitset d marked_paths in
  let selected := foldl (fun s bit => if BitSet.get mask bit then BitSet.set s bit else s)
                    BitSet.new (BitSet.iter target) in
  canonical_changed_bitset d selected.

Section Paths.
Variable walk : FieldDesc -> nat -> list Z -> list (list Z).
Fixpoint member_paths (fs : list (list Z * FieldDesc)) (bit : nat) (prefix : list Z)
    : list (list Z) :=
  match fs with
  | [] => []
  | (name, child) :: fs =>
      let child_path := match prefix with [] => name | _ => prefix ++ [46] ++ name end in
      walk child bit child_path ++ member_paths fs (bit + total_bits child) prefix
  end.
End Paths.

Fixpoint paths_walk (changed : BitSet.t) (d : FieldDesc) (bit_offset : nat) (prefix : list Z)
    : list (list Z) :=
  if negb (bool_decide (prefix = [])) && BitSet.get changed bit_offset then [prefix]
  else match d with
       | Structure _ fs => member_paths (paths_walk changed) fs (bit_offset + 1) prefix
       | _ => []
       end.

Definition changed_bitset_paths (d : FieldDesc) (changed : BitSet.t) : list (list Z) :=
  paths_walk changed d 0 [].
