(* ===== verification/PvaDescTheory.v ===== *)
(** * Properties of pvData type descriptors

    Round trips of the inline and the cached descriptor forms over a connection, the limits
    every decoded descriptor obeys whatever bytes arrive, and the depth the cache markers
    cost. *)
From stdpp Require Import base tactics numbers list option strings gmap.
From S2P Require Import Prelude PvaProto PvaProtoTheory PvaText PvaDesc.

Open Scope Z_scope.

(** ** Induction, equality, measures *)

Lemma desc_ind' (P : FieldDesc -> Prop) :
  (forall d, Forall (fun nc => P nc.2) (members d) -> P d) -> forall d, P d.
Proof.
  intros H. fix IH 1. intros d. apply H. destruct d as [| |? fs|? fs|? fs|? fs| |];
    simpl; try constructor; induction fs as [|[n c] fs IHfs]; constructor; (apply IH || done).
Qed.

Lemma members_eqb_spec xs ys :
  Forall (fun nc => forall y, desc_eqb nc.2 y = true <-> nc.2 = y) xs ->
  members_eqb desc_eqb xs ys = true <-> xs = ys.
Proof.
  intros H. revert ys. induction H as [|[n x] xs Hx _ IH]; intros [|[m y] ys]; simpl;
    [done..|].
  rewrite !andb_true_iff, bool_decide_eq_true, IH, Hx. simpl. split.
  - by intros [[-> ->] ->].
  - by intros [= -> -> ->].
Qed.

Lemma desc_eqb_spec x y : desc_eqb x y = true <-> x = y.
Proof.
  revert y. induction x as [x IH] using desc_ind'. intros y.
  destruct x, y; simpl in *;
    first
    [ done
    | rewrite andb_true_iff, bool_decide_eq_true, members_eqb_spec by done;
      split; [by intros [-> ->]|by intros [= -> ->]]
    | rewrite bool_decide_eq_true; split; congruence
    | split; congruence ].
Qed.

#[export] Instance FieldDesc_eq_dec : EqDecision FieldDesc.
Proof.
  refine (fun x y => match desc_eqb x y as b return desc_eqb x y = b -> _ with
                     | true => fun H => left _
                     | false => fun H => right _ end eq_refl).
  - by apply desc_eqb_spec.
  - intros E. apply desc_eqb_spec in E. congruence.
Defined.

Fixpoint desc_height (d : FieldDesc) : nat :=
  match d with
  | Structure _ fs | StructureArray _ fs | Union _ fs | UnionArray _ fs =>
      max_list_with (fun '(_, c) => S (desc_height c)) fs
  | _ => 0
  end.

Definition exact (d : FieldDesc) : TreeMetrics :=
  mkTreeMetrics (Z.of_nat (desc_height d)) (Z.of_nat (node_count d)).

(** The levels of wire nesting a descriptor takes; [k] is the cost of a cache marker. *)
Fixpoint levels (k : nat) (d : FieldDesc) : nat :=
  match d with
  | Structure _ fs | Union _ fs =>
      (k + 1 + max_list_with (fun '(_, c) => levels k c) fs)%nat
  | StructureArray _ fs | UnionArray _ fs =>
      (k + 2 + max_list_with (fun '(_, c) => levels k c) fs)%nat
  | _ => 1%nat
  end.

(** Names and ids are UTF-8 and every length fits its prefix. *)
Fixpoint desc_ok (d : FieldDesc) : Prop :=
  match d with
  | Structure id fs | StructureArray id fs | Union id fs | UnionArray id fs =>
      text_ok id /\ len fs < 2 ^ 32 /\
      foldr (fun '(n, c) P => (text_ok n /\ desc_ok c) /\ P) True fs
  | _ => True
  end.

Definition members_ok (fs : list (list Z * FieldDesc)) : Prop :=
  Forall (fun nc => text_ok nc.1 /\ desc_ok nc.2) fs.

Lemma members_ok_foldr fs :
  foldr (fun '(n, c) P => (text_ok n /\ desc_ok c) /\ P) True fs <-> members_ok fs.
Proof.
  unfold members_ok. induction fs as [|[n c] fs IH]; simpl.
  - split; [constructor|done].
  - rewrite Forall_cons, IH. done.
Qed.

Lemma node_count_pos d : (1 <= node_count d)%nat.
Proof. destruct d; simpl; lia. Qed.

Lemma height_levels k d : (S (desc_height d) <= levels k d)%nat.
Proof.
  induction d as [d IH] using desc_ind'.
  assert (Hm : (max_list_with (fun '(_, c) => S (desc_height c)) (members d)
    <= max_list_with (fun '(_, c) => levels k c) (members d))%nat).
  { induction IH as [|[n c] fs Hc _ IHfs]; simpl in *; lia. }
  destruct d; simpl in *; lia.
Qed.

(** ** Folding metrics *)

Abbreviation child_height fs :=
  (max_list_with (fun '((_, c) : list Z * FieldDesc) => S (desc_height c)) fs).
Abbreviation child_nodes fs :=
  (sum_list_with (fun '((_, c) : list Z * FieldDesc) => node_count c) fs).

Definition total (fs : list (list Z * FieldDesc)) (m : TreeMetrics) : TreeMetrics :=
  foldl (fun m nc => fold_metrics m (exact nc.2)) m fs.

#[local] Arguments total : simpl never.

Definition within (rtems : bool) (m : TreeMetrics) : Prop :=
  0 <= height m <= Z.of_nat (MAX_FIELD_DEPTH rtems) /\ 0 <= nodes m <= MAX_FIELD_NODES.

Lemma max_depth_small rtems : (MAX_FIELD_DEPTH rtems <= 20)%nat.
Proof. destruct rtems; simpl; lia. Qed.

Lemma check_within rtems m :
  0 <= height m -> 0 <= nodes m -> check_field_metrics rtems m = Ok tt <-> within rtems m.
Proof.
  intros. unfold check_field_metrics, within.
  destruct (Z.ltb_spec MAX_FIELD_NODES (nodes m)); [split; [done|lia]|].
  destruct (Z.ltb_spec (Z.of_nat (MAX_FIELD_DEPTH rtems)) (height m)); [split; [done|lia]|].
  split; [lia|done].
Qed.

(** Folding a child into metrics within the limits does not saturate. *)
Lemma fold_metrics_exact rtems m d :
  within rtems m -> within rtems (exact d) ->
  fold_metrics m (exact d)
  = mkTreeMetrics (Z.max (height m) (Z.of_nat (S (desc_height d))))
                  (nodes m + Z.of_nat (node_count d)).
Proof.
  intros [Hh Hn] [Hh' Hn']. pose proof (max_depth_small rtems).
  unfold fold_metrics, sat_add, MAX_FIELD_NODES, uint_max in *. simpl in *. f_equal; lia.
Qed.

Lemma exact_nonneg d : 0 <= height (exact d) /\ 0 <= nodes (exact d).
Proof. simpl. lia. Qed.

Lemma total_cons x c fs m : total ((x, c) :: fs) m = total fs (fold_metrics m (exact c)).
Proof. done. Qed.

(** The metrics the member loop ends with are those of the member list. *)
Lemma total_exact rtems fs m :
  0 <= height m -> 0 <= nodes m ->
  let h := Z.of_nat (child_height fs) in
  let n := Z.of_nat (child_nodes fs) in
  within rtems (mkTreeMetrics (Z.max (height m) h) (nodes m + n)) ->
  total fs m = mkTreeMetrics (Z.max (height m) h) (nodes m + n).
Proof.
  revert m. induction fs as [|[x c] fs IH]; intros m Hh Hn; simpl; intros Hw.
  - destruct m. unfold total. simpl in *. f_equal; lia.
  - rewrite total_cons. unfold within in Hw. simpl in Hw.
    rewrite (fold_metrics_exact rtems) by (unfold within; simpl; lia).
    rewrite IH; simpl; [f_equal; lia|lia..|]. unfold within. simpl. lia.
Qed.

(** Every prefix of the loop is within the limits when the whole list is. *)
Lemma total_step rtems x c fs m :
  0 <= height m -> 0 <= nodes m ->
  within rtems (mkTreeMetrics
    (Z.max (height m) (Z.of_nat (child_height ((x, c) :: fs))))
    (nodes m + Z.of_nat (child_nodes ((x, c) :: fs)))) ->
  let m' := fold_metrics m (exact c) in
  check_field_metrics rtems m' = Ok tt /\ 0 <= height m' /\ 0 <= nodes m' /\
  within rtems (mkTreeMetrics
    (Z.max (height m') (Z.of_nat (child_height fs)))
    (nodes m' + Z.of_nat (child_nodes fs))).
Proof.
  intros Hh Hn Hw. unfold within in Hw. simpl in Hw. cbn zeta.
  rewrite (fold_metrics_exact rtems) by (unfold within; simpl; lia).
  rewrite check_within by (simpl; lia). unfold within. simpl. lia.
Qed.

(** ** Steps of the decoder monad *)

Lemma dec_bind_ok {A B : Type} (m : dec A) (f : A -> dec B) dc cur dc' a cur' :
  m dc cur = (dc', Ok (a, cur')) -> (m ≫= f) dc cur = f a dc' cur'.
Proof. intros H. unfold mbind, dec_bind. by rewrite H. Qed.

Lemma dec_bind_lift {A B : Type} (r : reader A) (f : A -> dec B) dc cur a cur' :
  r cur = Ok (a, cur') -> (lift r ≫= f) dc cur = f a dc cur'.
Proof. intros H. apply dec_bind_ok. unfold lift. by rewrite H. Qed.

Section Bodies.
Context (rtems : bool) (o : ByteOrder) (child : dec (FieldDesc * TreeMetrics)).

(** [child] reads the members [fs] off the bytes, taking the cache from one to the next. *)
Inductive reads : list (list Z * FieldDesc) -> TypeCache -> list Z -> TypeCache -> Prop :=
| reads_nil dc : reads [] dc [] dc
| reads_cons n c fs dc b dc1 bs dc2 :
    text_ok n ->
    (forall rest, child dc (b ++ rest) = (dc1, Ok ((c, exact c), rest))) ->
    reads fs dc1 bs dc2 ->
    reads ((n, c) :: fs) dc ((encode_string n o ++ b) ++ bs) dc2.

Lemma decode_members_reads fs dc bs dc2 m rest :
  reads fs dc bs dc2 -> 0 <= height m -> 0 <= nodes m ->
  within rtems (mkTreeMetrics
    (Z.max (height m) (Z.of_nat (child_height fs)))
    (nodes m + Z.of_nat (child_nodes fs))) ->
  decode_members rtems o child (length fs) m dc (bs ++ rest)
  = (dc2, Ok ((fs, total fs m), rest)).
Proof.
  intros Hr. revert m. induction Hr as [|n c fs dc b dc1 bs dc2 Hn Hc Hr IH];
    intros m Hh Hm Hw; [done|].
  destruct (total_step rtems n c fs m Hh Hm Hw) as (Hchk & Hh' & Hn' & Hw').
  cbn [decode_members length]. rewrite <- !app_assoc.
  erewrite dec_bind_lift by (by apply decode_encode_string).
  erewrite dec_bind_ok by apply Hc. cbn beta iota zeta.
  rewrite Hchk. erewrite dec_bind_ok by reflexivity.
  by erewrite dec_bind_ok by (by apply IH).
Qed.

Definition body_wire (id : list Z) (fs : list (list Z * FieldDesc)) (bs : list Z) : list Z :=
  encode_string id o ++ encode_size (wrap 32 (len fs)) o ++ bs.

Definition compound_within (fs : list (list Z * FieldDesc)) : Prop :=
  within rtems (mkTreeMetrics
    (Z.of_nat (child_height fs))
    (Z.of_nat (S (child_nodes fs)))).

Lemma decode_body_reads what (mk : list Z -> list (list Z * FieldDesc) -> FieldDesc)
    id fs dc bs dc2 rest :
  text_ok id -> len fs < 2 ^ 32 -> compound_within fs -> reads fs dc bs dc2 ->
  (struct_id ← lift (decode_string_or_default o);
   n ← lift (decode_size_nonnull o what);
   '(fs, m) ← decode_members rtems o child (Z.to_nat n) (mkTreeMetrics 0 1);
   mret (mk struct_id fs, m)) dc (body_wire id fs bs ++ rest)
  = (dc2, Ok ((mk id fs, mkTreeMetrics
      (Z.of_nat (child_height fs))
      (Z.of_nat (S (child_nodes fs)))), rest)).
Proof.
  intros Hid Hl Hw Hr. unfold body_wire. rewrite <- !app_assoc.
  erewrite dec_bind_lift by (by apply decode_encode_string).
  assert (is_u32 (len fs)) by (split; lia). rewrite wrap_small by done.
  erewrite dec_bind_lift by (by apply decode_encode_size_nonnull).
  rewrite Nat2Z.id.
  assert (Hw' : within rtems (mkTreeMetrics
    (Z.max 0 (Z.of_nat (child_height fs)))
    (1 + Z.of_nat (child_nodes fs)))).
  { unfold compound_within, within in *. simpl in *. lia. }
  erewrite dec_bind_ok by (apply decode_members_reads; [done|simpl; lia..|done]).
  rewrite (total_exact rtems); [|simpl; lia|simpl; lia|exact Hw'].
  unfold mret, dec_ret. cbn [height nodes].
  replace (Z.max 0 (Z.of_nat (child_height fs))) with (Z.of_nat (child_height fs)) by lia.
  by replace (1 + Z.of_nat (child_nodes fs)) with (Z.of_nat (S (child_nodes fs))) by lia.
Qed.
End Bodies.

(** ** One level of the decoder *)

Definition desc_id (d : FieldDesc) : list Z :=
  match d with
  | Structure id _ | StructureArray id _ | Union id _ | UnionArray id _ => id
  | _ => []
  end.

(** The tag bytes a compound descriptor's inline form starts with. *)
Definition tags (d : FieldDesc) : list Z :=
  match d with
  | Structure _ _ => [TAG_STRUCTURE]
  | StructureArray _ _ => [TAG_STRUCTURE_ARRAY; TAG_STRUCTURE]
  | Union _ _ => [TAG_UNION]
  | UnionArray _ _ => [TAG_UNION_ARRAY; TAG_UNION]
  | _ => []
  end.

Abbreviation child_levels k fs :=
  (max_list_with (fun '((_, c) : list Z * FieldDesc) => levels k c) fs).

Lemma levels_compound k d :
  cacheable d = true -> levels k d = (k + length (tags d) + child_levels k (members d))%nat.
Proof. destruct d; simpl; try done; lia. Qed.

Lemma exact_compound d :
  cacheable d = true ->
  exact d = mkTreeMetrics (Z.of_nat (child_height (members d)))
                          (Z.of_nat (S (child_nodes (members d)))).
Proof. by destruct d. Qed.

Lemma desc_ok_compound d :
  cacheable d = true -> desc_ok d ->
  text_ok (desc_id d) /\ len (members d) < 2 ^ 32 /\ members_ok (members d).
Proof.
  intros Hc Hok. destruct d; try done; simpl in *; rewrite members_ok_foldr in Hok; tauto.
Qed.

Lemma encode_compound o d :
  cacheable d = true ->
  encode_type_desc o d
  = tags d ++ body_wire o (desc_id d) (members d)
                (encode_members o (encode_type_desc o) (members d)).
Proof. destruct d; try done; intros _; simpl; done. Qed.

Section Levels.
Context (rtems : bool) (o : ByteOrder) (policy : BoundedStringPolicy).
Abbreviation at_ := (decode_type_desc_at rtems o policy).

Lemma decode_leaf n d dc rest :
  cacheable d = false ->
  at_ (S n) dc (encode_type_desc o d ++ rest) = (dc, Ok ((d, exact d), rest)).
Proof.
  intros Hc. destruct d; try done; cbn [encode_type_desc put_u8 app decode_type_desc_at];
    erewrite dec_bind_lift by apply get_u8_cons; try done; by destruct st.
Qed.

(** A compound descriptor whose members are read at level [n] is read, tags included. *)
Lemma decode_compound n d dc bs dc2 rest :
  cacheable d = true -> desc_ok d -> within rtems (exact d) ->
  reads o (at_ n) (members d) dc bs dc2 ->
  at_ (length (tags d) + n) dc (tags d ++ body_wire o (desc_id d) (members d) bs ++ rest)
  = (dc2, Ok ((d, exact d), rest)).
Proof.
  intros Hc Hok Hw Hr. destruct (desc_ok_compound d Hc Hok) as (Hid & Hl & _).
  rewrite (exact_compound d Hc) in *.
  assert (Hcw : compound_within rtems (members d)) by done.
  destruct d; try done;
    cbn [tags length Nat.add app members desc_id decode_type_desc_at] in *;
    erewrite dec_bind_lift by apply get_u8_cons; cbn [Z.eqb Pos.eqb TAG_STRUCTURE TAG_UNION
      TAG_STRUCTURE_ARRAY TAG_UNION_ARRAY];
    try (by apply decode_body_reads);
    erewrite dec_bind_ok
      by (erewrite dec_bind_lift by apply get_u8_cons; by apply decode_body_reads); done.
Qed.

(** ** The inline form *)

Lemma members_within d :
  within rtems (exact d) -> Forall (fun nc => within rtems (exact nc.2)) (members d).
Proof.
  intros Hw. destruct (cacheable d) eqn:Hc; [|by destruct d; try done; constructor].
  rewrite (exact_compound d Hc) in Hw. clear Hc. revert Hw.
  generalize (members d). intros fs. unfold within. simpl.
  assert (Hgen : forall k, 0 <= Z.of_nat (child_height fs) <= Z.of_nat (MAX_FIELD_DEPTH rtems) ->
    Z.of_nat (k + child_nodes fs) <= MAX_FIELD_NODES ->
    Forall (fun nc => within rtems (exact nc.2)) fs); [|intros; apply (Hgen 1%nat); lia].
  induction fs as [|[x c] fs IH]; intros k H1 H2; constructor; simpl in *.
  - unfold within. simpl. lia.
  - apply (IH k); lia.
Qed.

Lemma inline_round_trip d n dc rest :
  desc_ok d -> within rtems (exact d) -> (levels 0 d <= n)%nat ->
  at_ n dc (encode_type_desc o d ++ rest) = (dc, Ok ((d, exact d), rest)).
Proof.
  revert n rest. induction d as [d IH] using desc_ind'. intros n rest Hok Hw Hn.
  destruct (cacheable d) eqn:Hc.
  - rewrite (levels_compound 0 d Hc) in Hn.
    replace n with (length (tags d) + (n - length (tags d)))%nat by lia.
    rewrite (encode_compound o d Hc), <- app_assoc. apply decode_compound; try done.
    pose proof (members_within d Hw) as Hmw.
    destruct (desc_ok_compound d Hc Hok) as (_ & _ & Hm).
    assert (Hlv : (child_levels 0 (members d) <= n - length (tags d))%nat) by lia.
    revert IH Hm Hmw Hlv. generalize (n - length (tags d))%nat. clear.
    intros n. induction (members d) as [|[x c] fs IHfs]; intros IH Hm Hmw Hlv; [constructor|].
    apply list.Forall_cons in IH as [IHc IH]. apply list.Forall_cons in Hm as [[Hx Hc] Hm].
    apply list.Forall_cons in Hmw as [Hwc Hmw]. simpl in *.
    econstructor; [done| |apply IHfs; (done || lia)].
    intros rest. apply IHc; (done || lia).
  - destruct n as [|n]; [pose proof (height_levels 0 d); lia|]. by apply decode_leaf.
Qed.
End Levels.

(** ** The cached form

    While a descriptor's members are on the wire its slot is taken on the sending side and
    not yet bound on the receiving side: it is pending. *)
Definition slot_of (d : FieldDesc) : CachedType := new_with_metrics d (exact d).

Record sync (pend : list (FieldDesc * Z)) (ec : EncodeTypeCache) (dc : TypeCache) : Prop := {
  sync_next : 0 <= next ec <= uint_max 16;
  sync_map : forall d s, map_get d (map ec) = Some s ->
    0 <= s < next ec /\ ((d, s) ∈ pend \/ dc !! s = Some (slot_of d));
  sync_pend : forall d s, (d, s) ∈ pend -> s < next ec /\ dc !! s = None;
  sync_fresh : forall s, next ec <= s -> dc !! s = None;
}.

Lemma sync_new : sync [] EncodeTypeCache_new ∅.
Proof.
  split; simpl; try done.
  - intros d s Hd%not_elem_of_nil. done.
Qed.

Lemma map_get_cons d slot m d' :
  map_get d' ((d, slot) :: m) = if decide (d = d') then Some slot else map_get d' m.
Proof.
  simpl. destruct (desc_eqb d d') eqn:E.
  - apply desc_eqb_spec in E as ->. by rewrite decide_True.
  - rewrite decide_False; [done|]. intros ->. by rewrite (proj2 (desc_eqb_spec d' d')) in E.
Qed.

(** Taking a slot makes it pending. *)
Lemma sync_take pend ec dc d :
  sync pend ec dc -> next ec + 1 <= uint_max 16 ->
  sync ((d, next ec) :: pend) (mkEncodeTypeCache (next ec + 1) ((d, next ec) :: map ec)) dc.
Proof.
  intros [Hn Hm Hp Hf] Hlt. split; cbn [next map].
  - lia.
  - intros d' s. rewrite map_get_cons. case_decide as He.
    + intros [= <-]. subst. split; [lia|]. left. left.
    + intros Hs. destruct (Hm d' s Hs) as [? [?|?]]; (split; [lia|]); [left; by right|by right].
  - intros d' s [[= -> ->]|Hin]%elem_of_cons.
    + split; [lia|]. apply Hf. lia.
    + destruct (Hp d' s Hin). split; [lia|done].
  - intros s Hs. apply Hf. lia.
Qed.

(** Binding the slot on the receiving side ends that. *)
Lemma sync_bind pend ec dc d s :
  sync ((d, s) :: pend) ec dc -> (forall d', (d', s) ∉ pend) ->
  sync pend ec (<[s := slot_of d]> dc).
Proof.
  intros [Hn Hm Hp Hf] Hs. split.
  - done.
  - intros d' s' Hd. destruct (Hm d' s' Hd) as [Hr Hor]. split; [done|].
    destruct Hor as [[[= -> ->]|Hin]%elem_of_cons|Hdc].
    + right. by rewrite lookup_insert_eq.
    + by left.
    + right. rewrite lookup_insert_ne; [done|]. intros <-.
      destruct (Hp d s) as [_ Hnone]; [left|]. congruence.
  - intros d' s' Hin. destruct (Hp d' s') as [Hlt Hnone]; [by right|]. split; [done|].
    rewrite lookup_insert_ne; [done|]. intros <-. by apply (Hs d').
  - intros s' Hs'. rewrite lookup_insert_ne; [by apply Hf|]. intros <-.
    destruct (Hp d s) as [Hlt _]; [left|]. lia.
Qed.

Section Cached.
Context (rtems : bool) (o : ByteOrder) (policy : BoundedStringPolicy).
Abbreviation at_ := (decode_type_desc_at rtems o policy).
Abbreviation cached := (encode_type_desc_cached o).

(** [d] is smaller than everything pending, so it is not one of the pending ones. *)
Definition below (d : FieldDesc) (pend : list (FieldDesc * Z)) : Prop :=
  Forall (fun ds => (node_count d < node_count ds.1)%nat) pend.

(** What one level of the cached encoder sends, the decoder reads, caches kept in step. *)
Definition carried (d : FieldDesc) : Prop :=
  forall pend ec dc n b ec',
    desc_ok d -> within rtems (exact d) -> (levels 1 d <= n)%nat -> below d pend ->
    sync pend ec dc -> cached d ec = Some (b, ec') ->
    exists dc', (forall rest, at_ n dc (b ++ rest) = (dc', Ok ((d, exact d), rest))) /\
      sync pend ec' dc'.

Lemma carried_members fs pend n ec dc b ec' :
  Forall (fun nc => carried nc.2) fs -> members_ok fs ->
  Forall (fun nc => within rtems (exact nc.2)) fs -> (child_levels 1 fs <= n)%nat ->
  Forall (fun nc => below nc.2 pend) fs -> sync pend ec dc ->
  encode_members_cached o cached fs ec = Some (b, ec') ->
  exists dc', reads o (at_ n) fs dc b dc' /\ sync pend ec' dc'.
Proof.
  intros Hfs. revert ec dc b. induction Hfs as [|[x c] fs Hc _ IH]; intros ec dc b Hok Hw Hn Hb Hs He.
  - injection He as <- <-. exists dc. split; [constructor|done].
  - apply list.Forall_cons in Hok as [[Hx Hcok] Hok]. apply list.Forall_cons in Hw as [Hcw Hw].
    apply list.Forall_cons in Hb as [Hcb Hb]. simpl in Hn.
    cbn [encode_members_cached] in He.
    destruct (cached c ec) as [[b1 ec1]|] eqn:E1; [|done]. cbn in He.
    destruct (encode_members_cached o cached fs ec1) as [[b2 ec2]|] eqn:E2; [|done].
    injection He as <- <-.
    destruct (Hc pend ec dc n b1 ec1) as (dc1 & Hr1 & Hs1); try (done || simpl in *; lia).
    destruct (IH ec1 dc1 b2) as (dc2 & Hr2 & Hs2); try (done || lia).
    exists dc2. split; [by econstructor|done].
Qed.

Lemma inline_cached_compound d ec :
  cacheable d = true ->
  encode_type_desc_inline_cached o d ec
  = '(b, ec') ← encode_members_cached o cached (members d) ec;
    Some (tags d ++ body_wire o (desc_id d) (members d) b, ec').
Proof. by destruct d. Qed.

Lemma child_below x c fs : (x, c) ∈ fs -> (node_count c < S (child_nodes fs))%nat.
Proof.
  induction fs as [|[y e] fs IH]; [by intros ?%not_elem_of_nil|].
  intros [[= -> ->]|Hin]%elem_of_cons; simpl; [lia|]. specialize (IH Hin). lia.
Qed.

(** Members of a descriptor are below it and below what it is below. *)
Lemma members_below d s pend :
  cacheable d = true -> below d pend ->
  Forall (fun nc => below nc.2 ((d, s) :: pend)) (members d).
Proof.
  intros Hc Hb. assert (Hd : node_count d = S (child_nodes (members d))) by (by destruct d).
  apply list.Forall_forall. intros [x c] Hin. apply child_below in Hin. simpl.
  constructor; [simpl; lia|]. eapply Forall_impl; [exact Hb|]. simpl. lia.
Qed.

Lemma cached_carried d : carried d.
Proof.
  induction d as [d IH] using desc_ind'. intros pend ec dc n b ec' Hok Hw Hn Hb Hs He.
  unfold encode_type_desc_cached, encode_with_slot in He.
  destruct (cacheable d) eqn:Hc.
  2: { destruct n as [|n]; [pose proof (height_levels 1 d); lia|].
       assert (b = encode_type_desc o d /\ ec' = ec) as [-> ->].
       { destruct d; try done; injection He as <- <-; done. }
       exists dc. split; [|done]. intros rest. by apply decode_leaf. }
  rewrite (levels_compound 1 d Hc) in Hn.
  destruct n as [|n]; [lia|].
  destruct (map_get d (map ec)) as [s|] eqn:Hg.
  - injection He as <- <-. destruct (sync_map _ _ _ Hs d s Hg) as [Hr [Hin|Hdc]].
    { exfalso. unfold below in Hb. rewrite list.Forall_forall in Hb.
      specialize (Hb _ Hin). simpl in Hb. lia. }
    exists dc. split; [|done]. intros rest. cbn [put_u8 app decode_type_desc_at].
    erewrite dec_bind_lift by apply get_u8_cons. cbn [Z.eqb Pos.eqb].
    pose proof (sync_next _ _ _ Hs). unfold uint_max in *.
    erewrite dec_bind_lift by (apply (get_put_uint 2); split; simpl in *; lia).
    unfold lookup_slot. rewrite Hdc. done.
  - destruct (Z.leb_spec (next ec + 1) (uint_max 16)) as [Hlt|]; [|done].
    rewrite inline_cached_compound in He by done.
    pose proof (sync_take pend ec dc d Hs Hlt) as Hs1.
    pose proof (sync_next _ _ _ Hs) as Hnx.
    destruct (desc_ok_compound d Hc Hok) as (_ & _ & Hmo).
    destruct (encode_members_cached _ _ _ _) as [[b1 ec1]|] eqn:Em; [|done]. cbn in He.
    injection He as <- <-.
    replace n with (length (tags d) + (n - length (tags d)))%nat by lia.
    destruct (carried_members (members d) ((d, next ec) :: pend) (n - length (tags d))
      (mkEncodeTypeCache (next ec + 1) ((d, next ec) :: map ec)) dc b1 ec1 IH Hmo (members_within rtems d Hw)) as (dc1 & Hr & Hs2);
      [lia| |exact Hs1|exact Em|].
    { by apply members_below. }
    exists (<[next ec := slot_of d]> dc1). split.
    + intros rest. cbn [put_u8 app decode_type_desc_at].
      erewrite dec_bind_lift by apply get_u8_cons. cbn [Z.eqb Pos.eqb].
      unfold uint_max in *. rewrite <- app_assoc.
      erewrite dec_bind_lift by (apply (get_put_uint 2); split; simpl in *; lia).
      rewrite <- app_assoc.
      erewrite dec_bind_ok by (by apply decode_compound). cbn beta iota zeta.
      destruct (sync_pend _ _ _ Hs2 d (next ec)) as [_ Hnone]; [left|].
      unfold mbind, dec_bind, define_slot. by rewrite Hnone.
    + apply sync_bind; [done|]. intros d' Hin. destruct (sync_pend _ _ _ Hs d' _ Hin). lia.
Qed.
End Cached.

(** The slots a descriptor can take are at most its nodes. *)
Lemma cached_succeeds o d ec :
  next ec + Z.of_nat (node_count d) <= uint_max 16 ->
  exists b ec', encode_type_desc_cached o d ec = Some (b, ec') /\
    next ec <= next ec' <= next ec + Z.of_nat (node_count d).
Proof.
  revert ec. induction d as [d IH] using desc_ind'. intros ec Hle.
  unfold encode_type_desc_cached, encode_with_slot.
  destruct (cacheable d) eqn:Hc.
  2: { destruct d; try done; do 2 eexists; split; try done; lia. }
  destruct (map_get d (map ec)); [do 2 eexists; split; [done|lia]|].
  assert (Hd : node_count d = S (child_nodes (members d))) by (by destruct d).
  rewrite Hd in *. destruct (Z.leb_spec (next ec + 1) (uint_max 16)) as [_|]; [|lia].
  rewrite inline_cached_compound by done.
  set (ec1 := mkEncodeTypeCache _ _).
  assert (Hm : exists b ec', encode_members_cached o (encode_type_desc_cached o) (members d) ec1
    = Some (b, ec') /\ next ec1 <= next ec' <= next ec1 + Z.of_nat (child_nodes (members d))).
  { assert (Hle1 : next ec1 + Z.of_nat (child_nodes (members d)) <= uint_max 16)
      by (unfold ec1; simpl; lia).
    clearbody ec1. clear Hle Hd Hc. revert ec1 Hle1.
    induction IH as [|[x c] fs Hcc _ IHfs]; intros ec1 Hle1; simpl in *.
    - do 2 eexists. split; [done|lia].
    - destruct (Hcc ec1) as (b & ec2 & -> & H2); [lia|]. cbn.
      destruct (IHfs ec2) as (bs & ec3 & -> & H3); [lia|]. cbn.
      do 2 eexists. split; [done|lia]. }
  destruct Hm as (b & ec' & -> & Hn). cbn. do 2 eexists. split; [done|].
  unfold ec1 in Hn. simpl in Hn. lia.
Qed.

(** ** Descriptors over a connection *)

(** A connection's descriptors, encoded one after the other with its cache. *)
Fixpoint send (o : ByteOrder) (ds : list FieldDesc) : cached_encoder := fun ec =>
  match ds with
  | [] => Some ([], ec)
  | d :: ds =>
      '(b, ec) ← encode_type_desc_cached o d ec;
      '(bs, ec) ← send o ds ec;
      Some (b ++ bs, ec)
  end.

Fixpoint receive (rtems : bool) (o : ByteOrder) (n : nat) : dec (list FieldDesc) :=
  match n with
  | O => mret []
  | S n => d ← decode_type_desc_cached rtems o; ds ← receive rtems o n; mret (d :: ds)
  end.

Definition sendable (rtems : bool) (d : FieldDesc) : Prop :=
  desc_ok d /\ (levels 1 d <= S (MAX_FIELD_DEPTH rtems))%nat.

Lemma within_levels rtems k d :
  (levels k d <= S (MAX_FIELD_DEPTH rtems))%nat ->
  Z.of_nat (node_count d) <= MAX_FIELD_NODES -> within rtems (exact d).
Proof.
  intros Hl Hn. pose proof (height_levels k d). unfold within. simpl. lia.
Qed.

Lemma send_receive rtems o ds ec dc :
  Forall (sendable rtems) ds -> sync [] ec dc ->
  next ec + Z.of_nat (sum_list_with node_count ds) <= uint_max 16 ->
  exists wire ec' dc', send o ds ec = Some (wire, ec') /\ sync [] ec' dc' /\
    forall rest, receive rtems o (length ds) dc (wire ++ rest) = (dc', Ok (ds, rest)).
Proof.
  intros Hds. revert ec dc. induction Hds as [|d ds [Hok Hl] _ IH]; intros ec dc Hs Hle.
  - exists [], ec, dc. split_and!; done.
  - cbn [sum_list_with] in Hle. pose proof (sync_next _ _ _ Hs) as Hnx.
    destruct (cached_succeeds o d ec) as (b & ec1 & E1 & Hn1); [lia|].
    destruct (cached_carried rtems o Interop d [] ec dc (S (MAX_FIELD_DEPTH rtems)) b ec1)
      as (dc1 & Hr1 & Hs1); try done.
    { apply (within_levels rtems 1); [done|]. unfold MAX_FIELD_NODES. lia. }
    { constructor. }
    destruct (IH ec1 dc1 Hs1) as (bs & ec2 & dc2 & E2 & Hs2 & Hr2); [lia|].
    exists (b ++ bs), ec2, dc2. split_and!; [|done|].
    + cbn [send]. rewrite E1. cbn. by rewrite E2.
    + intros rest. cbn [receive length]. rewrite <- app_assoc.
      erewrite dec_bind_ok.
      2: { unfold decode_type_desc_cached, decode_type_desc_cached_with_policy.
           erewrite dec_bind_ok by apply Hr1. done. }
      by erewrite dec_bind_ok by apply Hr2.
Qed.

(** A descriptor within the limits is read from its inline form, at any place of a stream. *)
Lemma decode_inline rtems o d dc rest :
  desc_ok d -> (levels 0 d <= S (MAX_FIELD_DEPTH rtems))%nat ->
  Z.of_nat (node_count d) <= MAX_FIELD_NODES ->
  decode_type_desc_cached rtems o dc (encode_type_desc o d ++ rest) = (dc, Ok (d, rest)).
Proof.
  intros Hok Hl Hn. unfold decode_type_desc_cached, decode_type_desc_cached_with_policy.
  assert (within rtems (exact d)) by (by apply (within_levels rtems 0)).
  by erewrite dec_bind_ok by (by apply inline_round_trip).
Qed.

(** A descriptor whose names are UTF-8, within the depth and node limits, decodes from
    its inline form as itself, with any bytes after it and any type cache, which it leaves
    as it was. *)
Theorem type_desc_round_trip rtems o d :
  desc_ok d -> (levels 0 d <= S (MAX_FIELD_DEPTH rtems))%nat ->
  Z.of_nat (node_count d) <= MAX_FIELD_NODES ->
  (forall dc rest, decode_type_desc_cached rtems o dc (encode_type_desc o d ++ rest)
     = (dc, Ok (d, rest))) /\
  (forall rest, decode_type_desc rtems o (encode_type_desc o d ++ rest) = Ok (d, rest)).
Proof.
  intros Hok Hl Hn.
  split; intros; [by apply decode_inline|]. unfold decode_type_desc. by rewrite decode_inline.
Qed.

(** An NTScalar-like descriptor: a value and two nested structures of the same type. *)
Definition nt_scalar : FieldDesc :=
  Structure [101; 112; 105; 99; 115]
    [([118], Scalar Double);
     ([97], Structure [] [([115], Scalar Int); ([109], Scalar String)]);
     ([98], Structure [] [([115], Scalar Int); ([109], Scalar String)])].

Lemma type_desc_round_trip_witness :
  decode_type_desc true Big (encode_type_desc Big nt_scalar ++ [7]) = Ok (nt_scalar, [7]).
Proof.
  destruct (type_desc_round_trip true Big nt_scalar) as [_ H].
  - vm_compute. intuition congruence.
  - vm_compute. lia.
  - vm_compute. discriminate.
  - apply H.
Defined.

(** C37: any sequence of descriptors that fit the depth limit with each nested one counted
    twice, as its cache marker makes it, sent over one connection with the type cache from
    fresh caches on both sides, with at most 65535 nodes in all, is encoded without exhausting
    the slots and decoded to the same sequence, references resolved. *)
Theorem type_cache_stream_round_trip rtems o ds :
  Forall (sendable rtems) ds -> Z.of_nat (sum_list_with node_count ds) <= uint_max 16 ->
  exists wire ec dc,
    send o ds EncodeTypeCache_new = Some (wire, ec) /\
    forall rest, receive rtems o (length ds) ∅ (wire ++ rest) = (dc, Ok (ds, rest)).
Proof.
  intros Hds Hn.
  destruct (send_receive rtems o ds EncodeTypeCache_new ∅ Hds sync_new)
    as (wire & ec & dc & Hs & _ & Hr); [simpl; lia|].
  by exists wire, ec, dc.
Qed.

Lemma type_cache_stream_round_trip_witness :
  exists wire ec dc,
    send Little [nt_scalar; Variant; nt_scalar] EncodeTypeCache_new = Some (wire, ec) /\
    forall rest, receive false Little 3 ∅ (wire ++ rest)
      = (dc, Ok ([nt_scalar; Variant; nt_scalar], rest)).
Proof.
  apply (type_cache_stream_round_trip false Little [nt_scalar; Variant; nt_scalar]).
  - repeat constructor; vm_compute; (congruence || lia || done).
  - vm_compute. discriminate.
Defined.

(** ** The iterative measure *)

Definition stack_nodes (st : list (FieldDesc * Z)) : nat :=
  sum_list_with (fun '(d, _) => node_count d) st.
Definition stack_height (h : Z) (st : list (FieldDesc * Z)) : Z :=
  foldr (fun '(d, lvl) acc => Z.max (lvl + Z.of_nat (desc_height d)) acc) h st.

Lemma stack_height_app h st1 st2 :
  stack_height h (st1 ++ st2) = stack_height (stack_height h st2) st1.
Proof. unfold stack_height. by rewrite foldr_app. Qed.

Lemma stack_height_max h h' st :
  stack_height (Z.max h h') st = Z.max h (stack_height h' st).
Proof. induction st as [|[d l] st IH]; simpl; [done|]. rewrite IH. lia. Qed.

Lemma stack_height_rev h st : stack_height h (rev st) = stack_height h st.
Proof.
  revert h. induction st as [|[d l] st IH]; intros h; [done|]. cbn [rev].
  rewrite stack_height_app, IH. simpl. by rewrite stack_height_max.
Qed.

Lemma stack_height_members h lvl fs :
  lvl <= h ->
  stack_height h ((fun '((_, c) : list Z * FieldDesc) => (c, lvl + 1)) <$> fs)
  = Z.max h (lvl + Z.of_nat (child_height fs)).
Proof.
  intros Hl. unfold stack_height. induction fs as [|[x c] fs IH]; [simpl; lia|].
  rewrite fmap_cons. cbn [foldr]. rewrite IH. simpl. lia.
Qed.

Lemma stack_nodes_rev st : stack_nodes (rev st) = stack_nodes st.
Proof.
  unfold stack_nodes. induction st as [|[d l] st IH]; [done|]. cbn [rev].
  rewrite sum_list_with_app, IH. simpl. lia.
Qed.

Lemma stack_nodes_members lvl fs :
  stack_nodes ((fun '((_, c) : list Z * FieldDesc) => (c, lvl + 1)) <$> fs) = child_nodes fs.
Proof.
  unfold stack_nodes. induction fs as [|[x c] fs IH]; [done|].
  rewrite fmap_cons. cbn [sum_list_with]. by rewrite IH.
Qed.

Lemma measure_loop_spec fuel st m :
  fuel = stack_nodes st -> 0 <= nodes m <= uint_max 32 ->
  measure_loop fuel st m
  = mkTreeMetrics (stack_height (height m) st)
                  (Z.min (nodes m + Z.of_nat (stack_nodes st)) (uint_max 32)).
Proof.
  revert st m. induction fuel as [|fuel IH]; intros st m Hf Hm.
  - destruct st as [|[d l] st]; [destruct m; simpl in *; f_equal; lia|].
    unfold stack_nodes in Hf. simpl in Hf. pose proof (node_count_pos d). lia.
  - destruct st as [|[d l] st]; [done|]. cbn [measure_loop].
    assert (Hd : node_count d = S (child_nodes (members d)) /\
                 desc_height d = child_height (members d)) by (by destruct d).
    destruct Hd as [Hn Hh].
    assert (Hs : stack_nodes (rev ((fun '(_, c) => (c, l + 1)) <$> members d) ++ st) = fuel).
    { unfold stack_nodes in *. rewrite sum_list_with_app. fold (stack_nodes st) in *.
      change (sum_list_with (fun '(d, _) => node_count d)
        (rev ((fun '(_, c) => (c, l + 1)) <$> members d)))
        with (stack_nodes (rev ((fun '(_, c) => (c, l + 1)) <$> members d))).
      rewrite stack_nodes_rev, stack_nodes_members. simpl in Hf.
      change (sum_list_with (fun '(d, _) => node_count d) st) with (stack_nodes st) in *. lia. }
    rewrite IH; [|done|].
    + rewrite stack_height_app, stack_height_rev, Hs. cbn [height nodes].
      f_equal; [|unfold sat_add; lia].
      rewrite (Z.max_comm (height m) l), stack_height_max, stack_height_members by lia.
      simpl. rewrite Hh. lia.
    + cbn [nodes]. unfold sat_add, uint_max in *. simpl in *. lia.
Qed.

(** Measuring with an explicit stack gives the height and, saturating, the node count. *)
Lemma measure_exact d :
  measure d = mkTreeMetrics (Z.of_nat (desc_height d))
                            (Z.min (Z.of_nat (node_count d)) (uint_max 32)).
Proof.
  unfold measure. rewrite measure_loop_spec.
  - unfold stack_nodes. simpl. f_equal; f_equal; lia.
  - unfold stack_nodes. simpl. lia.
  - simpl. unfold uint_max. lia.
Qed.

(** ** What any bytes decode to *)

Section Limits.
Context (rtems : bool).

(** A slot carries the exact measure of its descriptor, which is within the limits. *)
Definition slot_ok (t : CachedType) : Prop :=
  t = slot_of (slot_desc t) /\ within rtems (exact (slot_desc t)).

Definition cache_ok (dc : TypeCache) : Prop := map_Forall (fun _ t => slot_ok t) dc.

(** A decoder keeps the cache well-formed and returns only values satisfying [Q]. *)
Definition yields {A : Type} (m : dec A) (Q : A -> Prop) : Prop :=
  forall dc cur, cache_ok dc ->
  cache_ok (fst (m dc cur)) /\
  forall a rest, snd (m dc cur) = Ok (a, rest) -> Q a.

Lemma yields_ret {A : Type} (a : A) (Q : A -> Prop) : Q a -> yields (mret a) Q.
Proof. intros H dc cur Hdc. split; [done|]. intros b rest E. by injection E as <- <-. Qed.

Lemma yields_bind {A B : Type} (m : dec A) (f : A -> dec B) (P : A -> Prop) (Q : B -> Prop) :
  yields m P -> (forall a, P a -> yields (f a) Q) -> yields (m ≫= f) Q.
Proof.
  intros Hm Hf dc cur Hdc. destruct (Hm dc cur Hdc) as [H1 H2].
  unfold mbind, dec_bind. destruct (m dc cur) as [dc' [[a rest]|e]]; simpl in *; [|done].
  apply (Hf a); [by eapply H2|done].
Qed.

Lemma yields_lift {A : Type} (r : reader A) : yields (lift r) (fun _ => True).
Proof. done. Qed.

Lemma yields_fails {A : Type} e (Q : A -> Prop) : yields (fails e) Q.
Proof. intros dc cur Hdc. split; [done|]. by intros a rest E. Qed.

Lemma yields_checked r : yields (checked r) (fun _ => r = Ok tt).
Proof.
  intros dc cur Hdc. split; [done|]. intros a rest E. by destruct r as [[]|].
Qed.

Definition measured (dm : FieldDesc * TreeMetrics) : Prop :=
  dm.2 = exact dm.1 /\ within rtems dm.2.

Lemma yields_lookup_slot key : yields (lookup_slot key) measured.
Proof.
  intros dc cur Hdc. split; [done|]. intros [d m] rest. unfold lookup_slot. simpl.
  destruct (dc !! key) as [t|] eqn:E; [|done]. intros [= <- <- <-].
  destruct (Hdc key t E) as [Ht Hw]. unfold measured. simpl. rewrite Ht. done.
Qed.

Lemma yields_define_slot key d :
  within rtems (exact d) -> yields (define_slot key (slot_of d)) (fun _ => True).
Proof.
  intros Hw dc cur Hdc. split; [|done]. unfold define_slot. simpl.
  destruct (dc !! key) eqn:E; [done|]. by apply map_Forall_insert_2.
Qed.

Definition measured_members (m0 : TreeMetrics)
    (r : list (list Z * FieldDesc) * TreeMetrics) : Prop :=
  within rtems r.2 /\
  r.2 = mkTreeMetrics (Z.max (height m0) (Z.of_nat (child_height r.1)))
                      (nodes m0 + Z.of_nat (child_nodes r.1)).

Lemma yields_decode_members o child n m :
  yields child measured -> within rtems m ->
  yields (decode_members rtems o child n m) (measured_members m).
Proof.
  intros Hc. revert m. induction n as [|n IH]; intros m Hm; cbn [decode_members].
  - apply yields_ret. split; [done|]. destruct m, Hm. simpl in *. f_equal; lia.
  - apply (yields_bind _ _ (fun _ => True)); [apply yields_lift|]. intros name _.
    eapply yields_bind; [exact Hc|]. intros [d c] [He Hw]. simpl in He, Hw. subst c.
    cbn beta iota zeta.
    eapply yields_bind; [apply yields_checked|]. intros [] Hchk. cbn beta in Hchk.
    rewrite (fold_metrics_exact rtems) in * by done.
    pose proof (proj1 Hm). pose proof (proj2 Hm).
    apply check_within in Hchk; [|simpl; lia|simpl; lia].
    eapply yields_bind; [by apply IH|]. intros [rest m'] [Hw' Hm']. simpl in *.
    apply yields_ret. split; [done|]. simpl. rewrite Hm'. simpl. f_equal; lia.
Qed.

Lemma yields_body o child what (mk : list Z -> list (list Z * FieldDesc) -> FieldDesc) :
  yields child measured ->
  (forall id fs, exact (mk id fs) = mkTreeMetrics (Z.of_nat (child_height fs))
                                      (Z.of_nat (S (child_nodes fs)))) ->
  yields (struct_id ← lift (decode_string_or_default o);
          n ← lift (decode_size_nonnull o what);
          '(fs, m) ← decode_members rtems o child (Z.to_nat n) (mkTreeMetrics 0 1);
          mret (mk struct_id fs, m)) measured.
Proof.
  intros Hc Hmk. apply (yields_bind _ _ (fun _ => True)); [apply yields_lift|]. intros id _.
  apply (yields_bind _ _ (fun _ => True)); [apply yields_lift|]. intros n _.
  eapply yields_bind; [apply yields_decode_members; [done|]|].
  { destruct rtems; split; simpl; unfold MAX_FIELD_NODES, uint_max; lia. }
  intros [fs m] [Hw Hm]. simpl in *. apply yields_ret. split; [|done].
  cbn [fst snd]. rewrite Hmk, Hm. f_equal; lia.
Qed.

Lemma leaf_measured d : cacheable d = false -> measured (d, LEAF).
Proof.
  intros Hc. split; [by destruct d|].
  destruct rtems; split; simpl; unfold MAX_FIELD_NODES, uint_max; lia.
Qed.

Lemma yields_decode o policy n : yields (decode_type_desc_at rtems o policy n) measured.
Proof.
  induction n as [|n IH]; cbn [decode_type_desc_at]; [apply yields_fails|].
  apply (yields_bind _ _ (fun _ => True)); [apply yields_lift|]. intros tag _.
  repeat match goal with
  | |- yields (if ?b then _ else _) _ => destruct b
  | |- yields (match ?x with _ => _ end) _ => destruct x
  end; try apply yields_fails; try (by apply yields_ret, leaf_measured).
  - apply (yields_bind _ _ (fun _ => True)); [apply yields_lift|]. intros key _.
    eapply yields_bind; [apply IH|]. intros [d m] [Hm Hw]. simpl in *. subst m.
    eapply yields_bind; [by apply (yields_define_slot key d)|]. intros _ _.
    by apply yields_ret.
  - apply (yields_bind _ _ (fun _ => True)); [apply yields_lift|]. intros key _.
    apply yields_lookup_slot.
  - by apply yields_body.
  - by apply yields_body.
  - eapply yields_bind; [apply IH|]. intros [d m] [Hm Hw]. simpl in *.
    destruct d; try apply yields_fails. by apply yields_ret.
  - eapply yields_bind; [apply IH|]. intros [d m] [Hm Hw]. simpl in *.
    destruct d; try apply yields_fails. by apply yields_ret.
  - apply (yields_bind _ _ (fun _ => True)); [apply yields_lift|]. intros _ _.
    by apply yields_ret, leaf_measured.
Qed.
End Limits.

(** C38: whatever bytes a peer sends and whatever its earlier messages put in the type
    cache, a decoded descriptor is no deeper than the depth limit and has no more nodes
    than the node limit, cache references expanded; the cache keeps exact measures within
    the same limits, after a refused message too. *)
Theorem decoded_descriptor_is_bounded rtems o policy dc cur :
  cache_ok rtems dc ->
  let r := decode_type_desc_cached_with_policy rtems o policy dc cur in
  cache_ok rtems (fst r) /\
  forall d rest, snd r = Ok (d, rest) ->
    (desc_height d <= MAX_FIELD_DEPTH rtems)%nat /\
    Z.of_nat (node_count d) <= MAX_FIELD_NODES.
Proof.
  intros Hdc.
  assert (H : yields rtems (decode_type_desc_cached_with_policy rtems o policy)
                (fun d => within rtems (exact d))).
  { unfold decode_type_desc_cached_with_policy.
    eapply yields_bind; [apply yields_decode|]. intros [d m] [Hm Hw]. simpl in *.
    apply yields_ret. by rewrite <- Hm. }
  destruct (H dc cur Hdc) as [H1 H2]. split; [done|]. intros d rest E.
  destruct (H2 d rest E) as [Hh Hn]. simpl in *. lia.
Qed.

(** Definitions that each reference the one before twice: the descriptor of the [n]-th has
    2^(n+1) - 1 nodes. *)
Fixpoint doubling (n : nat) : list Z :=
  match n with
  | O => [0xFD; 0; 0; 0x80; 0; 0]
  | S m => doubling m ++ [0xFD; Z.of_nat n; 0; 0x80; 0; 2; 0; 0xFE; Z.of_nat m; 0;
                                                           0; 0xFE; Z.of_nat m; 0]
  end.

Lemma decoded_descriptor_is_bounded_witness :
  cache_ok false ∅ /\
  forall d rest, snd (decode_type_desc_cached_with_policy false Little Interop ∅ (doubling 0))
    = Ok (d, rest) -> Z.of_nat (node_count d) <= MAX_FIELD_NODES.
Proof.
  assert (H0 : cache_ok false ∅) by apply map_Forall_empty.
  split; [done|]. intros d rest E.
  destruct (decoded_descriptor_is_bounded false Little Interop ∅ (doubling 0) H0) as [_ H].
  apply (H d rest E).
Defined.

(** *** The doubling attack *)

(** Reading the definitions one by one: the one that would expand past the limit is
    refused, 230 bytes into the stream. *)
Lemma doubling_is_refused :
  length (doubling 16) = 230%nat /\
  is_ok (snd (receive false Little 16 ∅ (doubling 15))) = true /\
  snd (receive false Little 17 ∅ (doubling 16)) = Err TooManyNodes.
Proof. split_and!; vm_compute; reflexivity. Qed.

(** *** Depth and cache markers *)

(** [n] structures nested in one another around a scalar. *)
Fixpoint nested (n : nat) : FieldDesc :=
  match n with
  | O => Scalar Int
  | S n => Structure [] [([97], nested n)]
  end.

(** The bytes a fresh connection sends for a descriptor with the type cache. *)
Definition first_emission (d : FieldDesc) : list Z :=
  match encode_type_desc_cached Little d EncodeTypeCache_new with
  | Some (b, _) => b
  | None => []
  end.

(** A cache marker costs the decoder a level, so structures nested eleven to twenty
    deep, which the inline form carries, are refused when the same encoder sends them with
    the type cache. *)
Theorem cached_form_halves_the_depth n :
  (11 <= n <= 20)%nat ->
  decode_type_desc false Little (encode_type_desc Little (nested n)) = Ok (nested n, []) /\
  decode_type_desc false Little (first_emission (nested n)) = Err NestingTooDeep /\
  decode_type_desc false Little (first_emission (nested 10)) = Ok (nested 10, []).
Proof.
  intros Hn.
  assert (Hin : n ∈ seq 11 10) by (apply elem_of_seq; lia).
  repeat (apply elem_of_cons in Hin as [->|Hin]; [by vm_compute|]).
  by apply not_elem_of_nil in Hin.
Qed.

Lemma cached_form_halves_the_depth_witness :
  decode_type_desc false Little (first_emission (nested 15)) = Err NestingTooDeep.
Proof. apply (cached_form_halves_the_depth 15). lia. Defined.
