(* ===== verification/PvaChangedTheory.v ===== *)
(** * Properties of changed bit sets

    What a monitor post frames, and that the paths of a changed bit set mark it again. *)
From stdpp Require Import base tactics numbers list option strings gmap.
From S2P Require Import Prelude PvaProto PvaProtoTheory PvaText PvaDesc PvaDescTheory.
Import BitSet BitSetTheory.

Open Scope Z_scope.

(** ** Leaves *)

Section Leaves.
Variable go : FieldDesc -> nat -> list nat.
Fixpoint member_leaves (fs : list (list Z * FieldDesc)) (bit : nat) : list nat :=
  match fs with
  | [] => []
  | (_, c) :: fs => go c bit ++ member_leaves fs (bit + total_bits c)
  end.
End Leaves.

(** The positions of the fields that are not structures, depth first from [base]. *)
Fixpoint leaves (d : FieldDesc) (base : nat) : list nat :=
  match d with
  | Structure _ fs => member_leaves leaves fs (base + 1)
  | _ => [base]
  end.

Definition is_structure (d : FieldDesc) : bool :=
  match d with Structure _ _ => true | _ => false end.

Lemma get_new i : get new i = false.
Proof. done. Qed.

Lemma get_fold_set (g : nat -> bool) l out i :
  get (foldl (fun s bit => if g bit then set s bit else s) out l) i
  = get out i || (g i && bool_decide (i ∈ l)).
Proof.
  revert out. induction l as [|x l IH]; intros out; cbn [foldl].
  - by rewrite bool_decide_eq_false_2, andb_false_r, orb_false_r by apply not_elem_of_nil.
  - rewrite IH. destruct (Nat.eq_dec x i) as [->|Hne].
    + rewrite (bool_decide_eq_true_2 (i ∈ i :: l)) by left.
      destruct (g i) eqn:E; simpl; [|by rewrite orb_false_r].
      rewrite get_set, Nat.eqb_refl, orb_true_r. done.
    + rewrite (bool_decide_ext (i ∈ x :: l) (i ∈ l)) by (rewrite elem_of_cons; intuition congruence).
      destruct (g x); [|done]. rewrite get_set. by destruct (Nat.eqb_spec x i).
Qed.

Lemma get_set_span out start stop i :
  get (set_span out start stop) i = get out i || ((start <=? i)%nat && (i <? stop)%nat).
Proof.
  unfold set_span.
  pose proof (get_fold_set (fun _ => true) (seq start (stop - start)) out i) as H.
  cbn beta iota in H. change (foldl (fun s bit => set s bit)) with (foldl set) in H.
  rewrite H, andb_true_l. f_equal. apply eq_true_iff_eq.
  rewrite bool_decide_eq_true, elem_of_seq, andb_true_iff, Nat.leb_le, Nat.ltb_lt. lia.
Qed.

(** *** Canonical bit sets hold the selected leaves *)

Lemma canonical_walk_spec selection d base out i :
  get (canonical_walk selection d base out) i
  = get out i || (get selection i && bool_decide (i ∈ leaves d base)).
Proof.
  revert base out. induction d as [d IH] using desc_ind'. intros base out.
  destruct (is_structure d) eqn:Hs.
  - destruct d as [| |id fs| | | | |]; try done. cbn [canonical_walk leaves members] in *.
    clear Hs id. revert out. generalize (base + 1)%nat.
    induction IH as [|[x c] fs Hc _ IHfs]; intros bit out; cbn [canonical_members member_leaves] in *.
    + by rewrite bool_decide_eq_false_2, andb_false_r, orb_false_r by apply not_elem_of_nil.
    + rewrite IHfs, Hc, <- orb_assoc. f_equal. rewrite <- andb_orb_distrib_r. f_equal.
      apply eq_true_iff_eq. rewrite orb_true_iff, !bool_decide_eq_true, elem_of_app. done.
  - assert (Hw : canonical_walk selection d base out
                 = if get selection base then set out base else out) by (by destruct d).
    assert (Hl : leaves d base = [base]) by (by destruct d).
    rewrite Hw, Hl. apply (get_fold_set (get selection) [base]).
Qed.

(** *** Marked paths *)

(** [i] lies under one of the paths. *)
Definition marks (d : FieldDesc) (paths : list (list Z)) (i : nat) : Prop :=
  exists p s e, p ∈ paths /\ p <> [] /\ bit_span_for_path d p = Some (s, e) /\ (s <= i < e)%nat.

Lemma marks_nil d i : ~ marks d [] i.
Proof. intros (p & s & e & Hp & _). by apply not_elem_of_nil in Hp. Qed.

Lemma marks_app d ps qs i : marks d (ps ++ qs) i <-> marks d ps i \/ marks d qs i.
Proof.
  split.
  - intros (p & s & e & [Hp|Hp]%elem_of_app & H); [left|right]; by exists p, s, e.
  - intros [(p & s & e & Hp & H)|(p & s & e & Hp & H)]; exists p, s, e;
      (split; [apply elem_of_app; tauto|done]).
Qed.

Lemma marks_singleton d p s e i :
  p <> [] -> bit_span_for_path d p = Some (s, e) -> marks d [p] i <-> (s <= i < e)%nat.
Proof.
  intros Hp Hs. split.
  - intros (q & s' & e' & Hq & _ & Hs' & Hi). apply list_elem_of_singleton in Hq as ->.
    rewrite Hs in Hs'. injection Hs' as <- <-. done.
  - intros Hi. exists p, s, e. split_and!; (done || lia || by apply list_elem_of_singleton).
Qed.

Lemma mark_path_spec d out p i :
  get (mark_path d out p) i = true <-> get out i = true \/ marks d [p] i.
Proof.
  unfold mark_path. destruct p as [|c p].
  { split; [by left|]. intros [?|(q & s & e & Hq & Hne & _)]; [done|].
    apply list_elem_of_singleton in Hq. done. }
  destruct (bit_span_for_path d (c :: p)) as [[s e]|] eqn:E.
  - rewrite get_set_span, (marks_singleton d (c :: p) s e) by done.
    rewrite orb_true_iff, andb_true_iff, Nat.leb_le, Nat.ltb_lt. done.
  - split; [by left|]. intros [?|(q & s & e & Hq & _ & Hs & _)]; [done|].
    apply list_elem_of_singleton in Hq as ->. congruence.
Qed.

Lemma marked_changed_bitset_spec d paths i :
  get (marked_changed_bitset d paths) i = true <-> marks d paths i.
Proof.
  unfold marked_changed_bitset.
  assert (H : forall out, get (foldl (mark_path d) out paths) i = true
                <-> get out i = true \/ marks d paths i).
  { induction paths as [|p paths IH]; intros out; simpl.
    - split; [by left|]. by intros [?|?%marks_nil].
    - rewrite IH, mark_path_spec. change (p :: paths) with ([p] ++ paths).
      rewrite marks_app. tauto. }
  rewrite H, get_new. split; [by intros [?|?]|by right].
Qed.

Lemma marked_wire_spec d paths mask i :
  get (marked_wire_changed_bitset d paths mask) i = true <->
  i ∈ leaves d 0 /\ get mask i = true /\ marks d paths i.
Proof.
  unfold marked_wire_changed_bitset, canonical_changed_bitset.
  rewrite canonical_walk_spec, get_new, orb_false_l, andb_true_iff, bool_decide_eq_true.
  rewrite get_fold_set, get_new, orb_false_l, andb_true_iff, bool_decide_eq_true, elem_of_iter.
  rewrite marked_changed_bitset_spec. tauto.
Qed.

Lemma canonical_spec d mask i :
  get (canonical_changed_bitset d mask) i = true <-> i ∈ leaves d 0 /\ get mask i = true.
Proof.
  unfold canonical_changed_bitset.
  rewrite canonical_walk_spec, get_new, orb_false_l, andb_true_iff, bool_decide_eq_true. tauto.
Qed.

(** The changed bit set a post frames holds exactly the non-structure fields that lie
    under a marked path and that the request's mask selects: never a structure's bit, and
    nothing at all when the mask selects no marked leaf. *)
Theorem post_frames_marked_selected_leaves d paths mask i :
  i ∈ bits (marked_wire_changed_bitset d paths mask) <->
  i ∈ leaves d 0 /\ i ∈ bits mask /\ marks d paths i.
Proof. rewrite !elem_of_bits. apply marked_wire_spec. Qed.

(** ** Paths of a changed bit set *)

(** The structure member names a dotted path can address: not empty, no dot, distinct. *)
Definition name_ok (n : list Z) : Prop := n <> [] /\ 46 ∉ n.

Fixpoint names_ok (d : FieldDesc) : Prop :=
  match d with
  | Structure _ fs =>
      NoDup (fst <$> fs) /\ foldr (fun '(n, c) P => (name_ok n /\ names_ok c) /\ P) True fs
  | _ => True
  end.

Definition join (ps : list (list Z)) : list Z :=
  match ps with
  | [] => []
  | p :: ps => foldl (fun acc n => acc ++ [46] ++ n) p ps
  end.

Lemma join_snoc ps n :
  join (ps ++ [n]) = match ps with [] => n | _ => join ps ++ [46] ++ n end.
Proof. destruct ps as [|p ps]; [done|]. simpl. by rewrite foldl_app. Qed.

Lemma join_nonempty ps : Forall name_ok ps -> ps <> [] -> join ps <> [].
Proof.
  intros Hps Hne. destruct ps as [|p ps _] using rev_ind; [done|].
  rewrite join_snoc. apply Forall_app in Hps as [_ [[Hp _] _]%list.Forall_cons].
  destruct ps; [done|]. intros [_ [? _]%app_eq_nil]%app_eq_nil. done.
Qed.

Lemma split_dots_nonempty l : split_dots l <> [].
Proof. destruct l as [|c l]; simpl; [done|]. destruct (c =? 46), (split_dots l); done. Qed.

Lemma split_dots_name n : 46 ∉ n -> split_dots n = [n].
Proof.
  induction n as [|c n IH]; simpl; [done|]. rewrite not_elem_of_cons. intros [Hc Hn].
  destruct (Z.eqb_spec c 46); [congruence|]. by rewrite IH.
Qed.

Lemma split_dots_app l n : 46 ∉ n -> split_dots (l ++ [46] ++ n) = split_dots l ++ [n].
Proof.
  intros Hn. induction l as [|c l IH]; cbn [split_dots app].
  - by rewrite split_dots_name.
  - destruct (c =? 46); [cbn [app] in IH; by rewrite IH|].
    cbn [app] in IH. rewrite IH. pose proof (split_dots_nonempty l).
    by destruct (split_dots l).
Qed.

Lemma split_join ps : Forall name_ok ps -> ps <> [] -> split_dots (join ps) = ps.
Proof.
  intros Hps Hne. induction ps as [|p ps IH] using rev_ind; [done|].
  rewrite join_snoc. apply Forall_app in Hps as [Hps [[_ Hp] _]%list.Forall_cons].
  destruct ps as [|q ps]; [by apply split_dots_name|].
  by rewrite split_dots_app, IH.
Qed.

(** The node a list of names leads to, with its position. *)
Fixpoint node_at (d : FieldDesc) (base : nat) (path : list (list Z)) : option (FieldDesc * nat) :=
  match path with
  | [] => Some (d, base)
  | head :: tail =>
      match d with
      | Structure _ fs =>
          '(child, offset) ← find_member head fs (base + 1);
          node_at child offset tail
      | _ => None
      end
  end.

Lemma find_bit_node_at d base path :
  find_bit_for_path d base path
  = '(c, b) ← node_at d base path; Some (b, (b + total_bits c)%nat).
Proof.
  revert d base. induction path as [|n path IH]; intros d base; [done|]. simpl.
  destruct d; try done. destruct (find_member _ _ _) as [[c b]|]; [|done]. simpl. apply IH.
Qed.

Lemma node_at_snoc d base path n :
  node_at d base (path ++ [n])
  = '(c, b) ← node_at d base path;
    match c with Structure _ fs => find_member n fs (b + 1) | _ => None end.
Proof.
  revert d base. induction path as [|m path IH]; intros d base; simpl.
  - destruct d; try done. by destruct (find_member _ _ _) as [[c b]|].
  - destruct d; try done. destruct (find_member _ _ _) as [[c b]|]; [|done]. simpl. apply IH.
Qed.

Lemma find_member_app n c pre fs b :
  n ∉ (fst <$> pre) ->
  find_member n (pre ++ (n, c) :: fs) b
  = Some (c, (b + sum_list_with (fun '(_, c) => total_bits c) pre)%nat).
Proof.
  revert b. induction pre as [|[m e] pre IH]; intros b Hn; simpl.
  - rewrite bool_decide_eq_true_2 by done. do 2 f_equal. lia.
  - rewrite fmap_cons, not_elem_of_cons in Hn. destruct Hn as [Hne Hn]. simpl in Hne.
    rewrite bool_decide_eq_false_2 by congruence. rewrite IH by done. do 2 f_equal. lia.
Qed.

Lemma span_of_node d ps c b :
  Forall name_ok ps -> ps <> [] -> node_at d 0 ps = Some (c, b) ->
  bit_span_for_path d (join ps) = Some (b, (b + total_bits c)%nat).
Proof.
  intros Hps Hne Hn. unfold bit_span_for_path.
  pose proof (join_nonempty ps Hps Hne). destruct (join ps) as [|x l] eqn:E; [done|].
  rewrite <- E, split_join by done. by rewrite find_bit_node_at, Hn.
Qed.

(** A set of positions is node-aligned: a structure whose bit is set has every bit under it
    set too. *)
Section Aligned.
Variable go : FieldDesc -> nat -> Prop.
Fixpoint members_aligned (fs : list (list Z * FieldDesc)) (bit : nat) : Prop :=
  match fs with
  | [] => True
  | (_, c) :: fs => go c bit /\ members_aligned fs (bit + total_bits c)
  end.
End Aligned.

Fixpoint aligned (g : nat -> bool) (d : FieldDesc) (base : nat) : Prop :=
  (g base = true -> forall i, (base <= i < base + total_bits d)%nat -> g i = true) /\
  match d with
  | Structure _ fs => members_aligned (aligned g) fs (base + 1)
  | _ => True
  end.

Abbreviation span fs := (sum_list_with (fun '((_, c) : list Z * FieldDesc) => total_bits c) fs).

Section Inverse.
Context (changed : BitSet.t) (root : FieldDesc).

(** The walk below the node at [ps] yields paths that mark the changed bits under it. *)
Definition walk_marks (d : FieldDesc) : Prop := forall ps b,
  node_at root 0 ps = Some (d, b) -> Forall name_ok ps -> names_ok d ->
  aligned (get changed) d b -> (ps = [] -> get changed b = false) ->
  forall i, marks root (paths_walk changed d b (join ps)) i <->
    (b <= i < b + total_bits d)%nat /\ get changed i = true.

Lemma child_path ps n :
  Forall name_ok ps ->
  match join ps with [] => n | _ => join ps ++ [46] ++ n end = join (ps ++ [n]).
Proof.
  intros Hps. rewrite join_snoc. destruct ps as [|p ps]; [done|].
  destruct (join (p :: ps)) eqn:E; [|done].
  by destruct (join_nonempty (p :: ps) Hps ltac:(done)).
Qed.

Lemma member_paths_marks id ps b pre fs :
  Forall (fun nc => walk_marks nc.2) fs ->
  node_at root 0 ps = Some (Structure id (pre ++ fs), b) -> Forall name_ok ps ->
  NoDup (fst <$> pre ++ fs) -> Forall (fun nc => name_ok nc.1 /\ names_ok nc.2) fs ->
  members_aligned (aligned (get changed)) fs (b + 1 + span pre) ->
  forall i, marks root (member_paths (paths_walk changed) fs (b + 1 + span pre) (join ps)) i <->
    (b + 1 + span pre <= i < b + 1 + span pre + span fs)%nat /\ get changed i = true.
Proof.
  revert pre. induction fs as [|[n c] fs IH]; intros pre Hw Hn Hps Hnd Hok Hal i; simpl in *.
  { split; [by intros ?%marks_nil|lia]. }
  apply list.Forall_cons in Hw as [Hc Hw]. apply list.Forall_cons in Hok as [[Hnok Hcok] Hok].
  destruct Hal as [Hca Hal]. simpl in *.
  assert (Hnp : n ∉ (fst <$> pre)).
  { rewrite fmap_app, fmap_cons in Hnd. apply NoDup_app in Hnd as (_ & Hd & _).
    intros Hin. apply (Hd n Hin). left. }
  rewrite marks_app, child_path by done.
  assert (Hnode : node_at root 0 (ps ++ [n]) = Some (c, (b + 1 + span pre)%nat)).
  { rewrite node_at_snoc, Hn. simpl. by apply find_member_app. }
  rewrite (Hc (ps ++ [n]) _ Hnode); [|..]; try done.
  - specialize (IH (pre ++ [(n, c)])). rewrite <- app_assoc in IH. simpl in IH.
    assert (Hspan : (b + 1 + span (pre ++ [(n, c)]) = b + 1 + span pre + total_bits c)%nat).
    { rewrite sum_list_with_app. simpl. lia. }
    rewrite Hspan in IH. rewrite IH by done. split.
    + intros [[? ?]|[? ?]]; (split; [lia|done]).
    + intros [? ?]. destruct (decide (i < b + 1 + span pre + total_bits c)%nat);
        [left|right]; (split; [lia|done]).
  - apply Forall_app. split; [done|]. by constructor.
  - by destruct ps.
Qed.

Lemma names_ok_members id fs :
  names_ok (Structure id fs) <->
  NoDup (fst <$> fs) /\ Forall (fun nc => name_ok nc.1 /\ names_ok nc.2) fs.
Proof.
  simpl. apply and_iff_compat_l. induction fs as [|[n c] fs IH]; simpl.
  - split; [constructor|done].
  - rewrite list.Forall_cons, IH. done.
Qed.

Lemma paths_walk_marks d : walk_marks d.
Proof.
  induction d as [d IH] using desc_ind'. intros ps b Hn Hps Hok Hal Hroot i.
  destruct (get changed b) eqn:Hg.
  - assert (Hne : ps <> []) by (intros ->; by specialize (Hroot eq_refl)).
    assert (Hw : paths_walk changed d b (join ps) = [join ps]).
    { destruct d; simpl; rewrite Hg, bool_decide_eq_false_2 by (by apply join_nonempty); done. }
    rewrite Hw, (marks_singleton root (join ps) b (b + total_bits d)).
    + destruct d; destruct Hal as [Hal _]; (split; [|tauto]); intros Hi; (split; [done|]);
        by apply Hal.
    + by apply join_nonempty.
    + by apply span_of_node.
  - destruct (is_structure d) eqn:Hs.
    + destruct d as [| |id fs| | | | |]; try done. destruct Hal as [_ Hal].
      apply names_ok_members in Hok as [Hnd Hok].
      assert (Hw : paths_walk changed (Structure id fs) b (join ps)
                   = member_paths (paths_walk changed) fs (b + 1) (join ps)).
      { simpl. by rewrite Hg, andb_false_r. }
      pose proof (member_paths_marks id ps b [] fs IH Hn Hps Hnd Hok) as Hm.
      simpl in Hm. rewrite Nat.add_0_r in Hm. rewrite Hw, Hm by done. simpl.
      destruct (Nat.eq_dec i b) as [->|]; [split; [lia|intros [_ ?]; congruence]|].
      split; intros [? ?]; (split; [lia|done]).
    + assert (Hw : paths_walk changed d b (join ps) = []).
      { destruct d; simpl; rewrite ?Hg, ?andb_false_r; done. }
      assert (Ht : total_bits d = 1%nat) by (by destruct d). rewrite Hw, Ht.
      split; [by intros ?%marks_nil|]. intros [Hi Hc].
      assert (i = b) as -> by lia. congruence.
Qed.
End Inverse.

(** The dotted paths collected from a node-aligned changed bit set mark exactly that
    set again, when member names can be addressed by a dotted path. *)
Theorem changed_paths_mark_the_same_bits d b :
  names_ok d -> aligned (get b) d 0 -> get b 0 = false ->
  (forall i, get b i = true -> (i < total_bits d)%nat) ->
  bits (marked_changed_bitset d (changed_bitset_paths d b)) = bits b.
Proof.
  intros Hok Hal H0 Hb. apply bits_ext. intros i. rewrite marked_changed_bitset_spec.
  unfold changed_bitset_paths. change [] with (join []) at 1.
  rewrite (paths_walk_marks b d d [] 0%nat) by (done || constructor).
  rewrite elem_of_bits. split; [tauto|]. intros Hi. split; [|done]. specialize (Hb i Hi). lia.
Qed.

Definition marked_nt : BitSet.t := set (set (set (set new 3) 5) 6) 7.

Lemma changed_paths_mark_the_same_bits_witness :
  bits (marked_changed_bitset nt_scalar (changed_bitset_paths nt_scalar marked_nt))
  = bits marked_nt.
Proof.
  apply changed_paths_mark_the_same_bits.
  - simpl. unfold name_ok.
    split_and!; try done; apply (bool_decide_unpack _); by vm_compute.
  - simpl. split_and!; try done; intros Hg i Hi; try (by vm_compute in Hg);
      do 8 (destruct i as [|i]; [try done; lia|]); lia.
  - done.
  - intros i Hi%get_lt_size. exact Hi.
Defined.
