(* ===== verification/PvaValue.v ===== *)
(** * pvData values

    Models the value half of [epics-pva-rs/src/pvdata]: [scalar.rs] ([ScalarValue]),
    [typed_array.rs] ([TypedScalarArray]), [structure.rs] ([PvField] and the recovery of a
    descriptor from a value) and, of [encode.rs], the scalar and array codecs, the
    descriptor-driven encoder with its coercing fallback and the full-value decoder with
    its depth limit.  An [f32] or [f64] is its bit pattern, which is all the wire carries;
    a [PvString] is its bytes. *)
From stdpp Require Import base tactics numbers list option strings gmap.
From S2P Require Import Prelude PvaProto PvaText PvaDesc.

Open Scope Z_scope.

(** ** Scalars *)

Module ScalarValue.

Inductive t : Type :=
| Boolean (b : bool)
| Byte (x : Z) | Short (x : Z) | Int (x : Z) | Long (x : Z)
| UByte (x : Z) | UShort (x : Z) | UInt (x : Z) | ULong (x : Z)
| Float (bits : Z) | Double (bits : Z)
| String (s : list Z).

#[export] Instance t_eq_dec : EqDecision t.
Proof. solve_decision. Defined.

Definition scalar_type (v : t) : ScalarType :=
  match v with
  | Boolean _ => PvaDesc.Boolean | Byte _ => PvaDesc.Byte | Short _ => PvaDesc.Short
  | Int _ => PvaDesc.Int | Long _ => PvaDesc.Long | UByte _ => PvaDesc.UByte
  | UShort _ => PvaDesc.UShort | UInt _ => PvaDesc.UInt | ULong _ => PvaDesc.ULong
  | Float _ => PvaDesc.Float | Double _ => PvaDesc.Double | String _ => PvaDesc.String
  end.

End ScalarValue.

Abbreviation scalar_type := ScalarValue.scalar_type.

Definition zero_scalar (st : ScalarType) : ScalarValue.t :=
  match st with
  | Boolean => ScalarValue.Boolean false | Byte => ScalarValue.Byte 0
  | Short => ScalarValue.Short 0 | Int => ScalarValue.Int 0 | Long => ScalarValue.Long 0
  | UByte => ScalarValue.UByte 0 | UShort => ScalarValue.UShort 0
  | UInt => ScalarValue.UInt 0 | ULong => ScalarValue.ULong 0
  | Float => ScalarValue.Float 0 | Double => ScalarValue.Double 0
  | String => ScalarValue.String []
  end.

Definition encode_scalar_value (v : ScalarValue.t) (o : ByteOrder) : list Z :=
  match v with
  | ScalarValue.Boolean b => put_u8 (if b then 1 else 0)
  | ScalarValue.Byte x => put_i8 x
  | ScalarValue.UByte x => put_u8 x
  | ScalarValue.Short x => put_i16 x o
  | ScalarValue.UShort x => put_u16 x o
  | ScalarValue.Int x => put_i32 x o
  | ScalarValue.UInt x => put_u32 x o
  | ScalarValue.Long x => put_i64 x o
  | ScalarValue.ULong x => put_u64 x o
  | ScalarValue.Float bits => put_u32 bits o
  | ScalarValue.Double bits => put_u64 bits o
  | ScalarValue.String s => encode_string_bytes s o
  end.

(** [decode_string_value]: the raw bytes, with no UTF-8 repair. *)
Definition decode_string_value (o : ByteOrder) : reader (option (list Z)) :=
  decode_string_bytes o.

(** A reader with a function applied to what it reads. *)
Definition reading {A B : Type} (f : A -> B) (r : reader A) : reader B := fun cur =>
  '(a, cur) ← r cur;
  Ok (f a, cur).

Definition decode_scalar_value (st : ScalarType) (o : ByteOrder) : reader ScalarValue.t :=
  match st with
  | Boolean => reading (fun b => ScalarValue.Boolean (negb (b =? 0))) get_u8
  | Byte => reading ScalarValue.Byte get_i8
  | UByte => reading ScalarValue.UByte get_u8
  | Short => reading ScalarValue.Short (get_i16 o)
  | UShort => reading ScalarValue.UShort (get_u16 o)
  | Int => reading ScalarValue.Int (get_i32 o)
  | UInt => reading ScalarValue.UInt (get_u32 o)
  | Long => reading ScalarValue.Long (get_i64 o)
  | ULong => reading ScalarValue.ULong (get_u64 o)
  | Float => reading ScalarValue.Float (get_u32 o)
  | Double => reading ScalarValue.Double (get_u64 o)
  | String => reading (fun s => ScalarValue.String (default [] s)) (decode_string_value o)
  end.

(** ** Typed arrays *)

Module TypedScalarArray.

Inductive t : Type :=
| Boolean (a : list bool)
| Byte (a : list Z) | UByte (a : list Z)
| Short (a : list Z) | UShort (a : list Z)
| Int (a : list Z) | UInt (a : list Z)
| Long (a : list Z) | ULong (a : list Z)
| Float (a : list Z) | Double (a : list Z)
| String (a : list (list Z)).

#[export] Instance t_eq_dec : EqDecision t.
Proof. solve_decision. Defined.

Definition scalar_type (a : t) : ScalarType :=
  match a with
  | Boolean _ => PvaDesc.Boolean | Byte _ => PvaDesc.Byte | UByte _ => PvaDesc.UByte
  | Short _ => PvaDesc.Short | UShort _ => PvaDesc.UShort | Int _ => PvaDesc.Int
  | UInt _ => PvaDesc.UInt | Long _ => PvaDesc.Long | ULong _ => PvaDesc.ULong
  | Float _ => PvaDesc.Float | Double _ => PvaDesc.Double | String _ => PvaDesc.String
  end.

Definition get (a : t) (i : nat) : option ScalarValue.t :=
  match a with
  | Boolean a => ScalarValue.Boolean <$> a !! i
  | Byte a => ScalarValue.Byte <$> a !! i
  | UByte a => ScalarValue.UByte <$> a !! i
  | Short a => ScalarValue.Short <$> a !! i
  | UShort a => ScalarValue.UShort <$> a !! i
  | Int a => ScalarValue.Int <$> a !! i
  | UInt a => ScalarValue.UInt <$> a !! i
  | Long a => ScalarValue.Long <$> a !! i
  | ULong a => ScalarValue.ULong <$> a !! i
  | Float a => ScalarValue.Float <$> a !! i
  | Double a => ScalarValue.Double <$> a !! i
  | String a => ScalarValue.String <$> a !! i
  end.

Definition length (a : t) : nat :=
  match a with
  | Boolean a => List.length a
  | Byte a | UByte a | Short a | UShort a | Int a | UInt a | Long a | ULong a
  | Float a | Double a => List.length a
  | String a => List.length a
  end.

Definition to_scalar_values (a : t) : list ScalarValue.t :=
  match a with
  | Boolean a => ScalarValue.Boolean <$> a
  | Byte a => ScalarValue.Byte <$> a
  | UByte a => ScalarValue.UByte <$> a
  | Short a => ScalarValue.Short <$> a
  | UShort a => ScalarValue.UShort <$> a
  | Int a => ScalarValue.Int <$> a
  | UInt a => ScalarValue.UInt <$> a
  | Long a => ScalarValue.Long <$> a
  | ULong a => ScalarValue.ULong <$> a
  | Float a => ScalarValue.Float <$> a
  | Double a => ScalarValue.Double <$> a
  | String a => ScalarValue.String <$> a
  end.

(** The elements as one type, [None] when one of them is of another. *)
Definition from_scalar_values (values : list ScalarValue.t) (st : ScalarType) : option t :=
  match st with
  | PvaDesc.Boolean =>
      Boolean <$> mapM (fun v => match v with ScalarValue.Boolean b => Some b | _ => None end) values
  | PvaDesc.Byte =>
      Byte <$> mapM (fun v => match v with ScalarValue.Byte x => Some x | _ => None end) values
  | PvaDesc.UByte =>
      UByte <$> mapM (fun v => match v with ScalarValue.UByte x => Some x | _ => None end) values
  | PvaDesc.Short =>
      Short <$> mapM (fun v => match v with ScalarValue.Short x => Some x | _ => None end) values
  | PvaDesc.UShort =>
      UShort <$> mapM (fun v => match v with ScalarValue.UShort x => Some x | _ => None end) values
  | PvaDesc.Int =>
      Int <$> mapM (fun v => match v with ScalarValue.Int x => Some x | _ => None end) values
  | PvaDesc.UInt =>
      UInt <$> mapM (fun v => match v with ScalarValue.UInt x => Some x | _ => None end) values
  | PvaDesc.Long =>
      Long <$> mapM (fun v => match v with ScalarValue.Long x => Some x | _ => None end) values
  | PvaDesc.ULong =>
      ULong <$> mapM (fun v => match v with ScalarValue.ULong x => Some x | _ => None end) values
  | PvaDesc.Float =>
      Float <$> mapM (fun v => match v with ScalarValue.Float x => Some x | _ => None end) values
  | PvaDesc.Double =>
      Double <$> mapM (fun v => match v with ScalarValue.Double x => Some x | _ => None end) values
  | PvaDesc.String =>
      String <$> mapM (fun v => match v with ScalarValue.String s => Some s | _ => None end) values
  end.

End TypedScalarArray.

Section ArrayCodec.
Context `{Target}.
(** The byte order of the machine, [cfg!(target_endian)]. *)
Variable host : ByteOrder.

(** The memory image of a slice of [n]-byte elements, or the elements swapped one by one;
    [image] is an element's bytes in an order. *)
Definition emit_pod (image : Z -> ByteOrder -> list Z) (a : list Z) (same_endian : bool)
    (wire : ByteOrder) : list Z :=
  if same_endian then mjoin ((fun x => image x host) <$> a)
  else mjoin ((fun x => image x wire) <$> a).

Definition encode_typed_scalar_array (arr : TypedScalarArray.t) (o : ByteOrder) : list Z :=
  let same_endian := bool_decide (is_big host = is_big o) in
  match arr with
  | TypedScalarArray.Boolean a => mjoin ((fun b : bool => put_u8 (if b then 1 else 0)) <$> a)
  | TypedScalarArray.Byte a => wrap 8 <$> a
  | TypedScalarArray.UByte a => a
  | TypedScalarArray.Short a => emit_pod (put_sint 2) a same_endian o
  | TypedScalarArray.UShort a => emit_pod (put_uint 2) a same_endian o
  | TypedScalarArray.Int a => emit_pod (put_sint 4) a same_endian o
  | TypedScalarArray.UInt a => emit_pod (put_uint 4) a same_endian o
  | TypedScalarArray.Long a => emit_pod (put_sint 8) a same_endian o
  | TypedScalarArray.ULong a => emit_pod (put_uint 8) a same_endian o
  | TypedScalarArray.Float a => emit_pod (put_uint 4) a same_endian o
  | TypedScalarArray.Double a => emit_pod (put_uint 8) a same_endian o
  | TypedScalarArray.String a => mjoin ((fun s => encode_string_bytes s o) <$> a)
  end.

(** [bytes.as_chunks::<n>()], [k] chunks. *)
Fixpoint chunks (n k : nat) (bytes : list Z) : list (list Z) :=
  match k with
  | O => []
  | S k => take n bytes :: chunks n k (drop n bytes)
  end.

(** An element from its bytes in an order. *)
Definition uint_of (o : ByteOrder) (b : list Z) : Z :=
  match o with Big => from_be_bytes b | Little => from_le_bytes b end.
Definition sint_of (o : ByteOrder) (b : list Z) : Z := swrap (8 * len b) (uint_of o b).

Definition read_pod_array (n : Z) (size : nat) (from : ByteOrder -> list Z -> Z)
    (same_endian : bool) (wire : ByteOrder) : reader (list Z) := fun cur =>
  let nbytes := n * Z.of_nat size in
  if uint_max usize_bits <? nbytes then Err ArraySizeOverflow
  else if len cur <? nbytes then Err (ArrayTooLong n)
  else
    '(bytes, cur) ← get_bytes nbytes cur;
    let slots := chunks size (Z.to_nat n) bytes in
    Ok (if same_endian then from host <$> slots else from wire <$> slots, cur).

(** [n] times the same reader. *)
Fixpoint repeat_reader {A : Type} (r : reader A) (n : nat) : reader (list A) := fun cur =>
  match n with
  | O => Ok ([], cur)
  | S n =>
      '(a, cur) ← r cur;
      '(rest, cur) ← repeat_reader r n cur;
      Ok (a :: rest, cur)
  end.

Definition decode_typed_scalar_array (st : ScalarType) (n : Z) (o : ByteOrder)
    : reader (option TypedScalarArray.t) :=
  let same_endian := bool_decide (is_big host = is_big o) in
  let pod size from := read_pod_array n size from same_endian o in
  match st with
  | Boolean =>
      reading (fun bytes => Some (TypedScalarArray.Boolean ((fun b => negb (b =? 0)) <$> bytes)))
        (get_bytes n)
  | Byte => reading (fun bytes => Some (TypedScalarArray.Byte (swrap 8 <$> bytes))) (get_bytes n)
  | UByte => reading (fun bytes => Some (TypedScalarArray.UByte bytes)) (get_bytes n)
  | Short => reading (fun a => Some (TypedScalarArray.Short a)) (pod 2%nat sint_of)
  | UShort => reading (fun a => Some (TypedScalarArray.UShort a)) (pod 2%nat uint_of)
  | Int => reading (fun a => Some (TypedScalarArray.Int a)) (pod 4%nat sint_of)
  | UInt => reading (fun a => Some (TypedScalarArray.UInt a)) (pod 4%nat uint_of)
  | Long => reading (fun a => Some (TypedScalarArray.Long a)) (pod 8%nat sint_of)
  | ULong => reading (fun a => Some (TypedScalarArray.ULong a)) (pod 8%nat uint_of)
  | Float => reading (fun a => Some (TypedScalarArray.Float a)) (pod 4%nat uint_of)
  | Double => reading (fun a => Some (TypedScalarArray.Double a)) (pod 8%nat uint_of)
  | String =>
      reading (fun a => Some (TypedScalarArray.String a))
        (repeat_reader (reading (default []) (decode_string_value o)) (Z.to_nat n))
  end.
End ArrayCodec.

(** ** Values *)

(** A structure, a union array element and an "any" value over the fields [F] they hold. *)
Record PvStructure (F : Type) : Type := mkPvStructure {
  struct_id : list Z;
  fields : list (list Z * F);
}.
Arguments mkPvStructure {F}.
Arguments struct_id {F}.
Arguments fields {F}.

Record UnionItem (F : Type) : Type := mkUnionItem {
  item_selector : Z;
  item_variant_name : list Z;
  item_value : F;
}.
Arguments mkUnionItem {F}.
Arguments item_selector {F}.
Arguments item_variant_name {F}.
Arguments item_value {F}.

Record VariantValue (F : Type) : Type := mkVariantValue {
  variant_desc : option FieldDesc;
  variant_value : F;
}.
Arguments mkVariantValue {F}.
Arguments variant_desc {F}.
Arguments variant_value {F}.

Module PvField.

#[warnings="-register-all"]
Inductive t : Type :=
| Scalar (v : ScalarValue.t)
| ScalarArray (items : list ScalarValue.t)
| ScalarArrayTyped (arr : TypedScalarArray.t)
| Structure (s : PvStructure t)
| StructureArray (items : list (option (PvStructure t)))
| Union (selector : Z) (variant_name : list Z) (value : t)
| UnionArray (items : list (option (UnionItem t)))
| Variant (v : VariantValue t)
| VariantArray (items : list (option (VariantValue t)))
| Null.

End PvField.

Abbreviation struct_t := (PvStructure PvField.t).

Definition PvStructure_new (id : list Z) : struct_t := mkPvStructure id [].

(** [iter().find(|(n, _)| n == name)]. *)
Fixpoint find_name {A : Type} (name : list Z) (l : list (list Z * A)) : option A :=
  match l with
  | [] => None
  | (n, v) :: l => if bool_decide (n = name) then Some v else find_name name l
  end.

Definition get_field (s : struct_t) (name : list Z) : option PvField.t :=
  find_name name (fields s).

Fixpoint set_name {A : Type} (name : list Z) (v : A) (l : list (list Z * A))
    : list (list Z * A) :=
  match l with
  | [] => [(name, v)]
  | (n, w) :: l => if bool_decide (n = name) then (n, v) :: l else (n, w) :: set_name name v l
  end.

Definition PvStructure_set (s : struct_t) (name : list Z) (v : PvField.t) : struct_t :=
  mkPvStructure (struct_id s) (set_name name v (fields s)).

Definition VariantValue_scalar (v : ScalarValue.t) : VariantValue PvField.t :=
  mkVariantValue (Some (Scalar (scalar_type v))) (PvField.Scalar v).
Definition VariantValue_null : VariantValue PvField.t := mkVariantValue None PvField.Null.

Fixpoint deref_selected (v : PvField.t) : PvField.t :=
  match v with
  | PvField.Union selector _ value => if 0 <=? selector then deref_selected value else v
  | PvField.Variant w =>
      match variant_desc w with Some _ => deref_selected (variant_value w) | None => v end
  | _ => v
  end.

(** *** Descriptors recovered from values *)

(** [arr.iter().flatten().next()]. *)
Fixpoint first_present {A : Type} (l : list (option A)) : option A :=
  match l with
  | [] => None
  | Some a :: _ => Some a
  | None :: l => first_present l
  end.

Fixpoint descriptor (v : PvField.t) : FieldDesc :=
  let of_fields := fmap (fun '(n, f) => (n, descriptor f)) in
  match v with
  | PvField.Scalar v => Scalar (scalar_type v)
  | PvField.ScalarArray arr =>
      ScalarArray (match arr with v :: _ => scalar_type v | [] => Double end)
  | PvField.ScalarArrayTyped arr => ScalarArray (TypedScalarArray.scalar_type arr)
  | PvField.Structure s => Structure (struct_id s) (of_fields (fields s))
  | PvField.StructureArray arr =>
      match first_present
              (List.map (option_map (fun s => (struct_id s, of_fields (fields s)))) arr) with
      | Some (id, fs) => StructureArray id fs
      | None => StructureArray [] []
      end
  | PvField.Union _ name value => Union [] [(name, descriptor value)]
  | PvField.UnionArray _ => UnionArray [] []
  | PvField.Variant w => default Variant (variant_desc w)
  | PvField.VariantArray _ => VariantArray
  | PvField.Null => Variant
  end.

(** A member list whose descriptors are all recoverable. *)
Fixpoint all_named {A B : Type} (f : A -> option B) (l : list (list Z * A))
    : option (list (list Z * B)) :=
  match l with
  | [] => Some []
  | (n, a) :: l => b ← f a; rest ← all_named f l; Some ((n, b) :: rest)
  end.

Fixpoint wire_descriptor (v : PvField.t) : option FieldDesc :=
  match v with
  | PvField.Scalar v => Some (Scalar (scalar_type v))
  | PvField.ScalarArray arr => v ← head arr; Some (ScalarArray (scalar_type v))
  | PvField.ScalarArrayTyped arr => Some (ScalarArray (TypedScalarArray.scalar_type arr))
  | PvField.Structure s =>
      fs ← all_named wire_descriptor (fields s); Some (Structure (struct_id s) fs)
  | PvField.StructureArray arr =>
      first ← first_present
        (List.map (option_map (fun s => (struct_id s, all_named wire_descriptor (fields s)))) arr);
      fs ← snd first; Some (StructureArray (fst first) fs)
  | PvField.Union _ _ _ | PvField.UnionArray _ => None
  | PvField.Variant w => match variant_desc w with Some _ => Some Variant | None => None end
  | PvField.VariantArray _ => Some VariantArray
  | PvField.Null => None
  end.

(** *** Defaults *)

Fixpoint default_value_for (d : FieldDesc) : PvField.t :=
  match d with
  | Scalar st => PvField.Scalar (zero_scalar st)
  | ScalarArray _ => PvField.ScalarArray []
  | Structure id fs =>
      PvField.Structure (mkPvStructure id (fmap (fun '(n, c) => (n, default_value_for c)) fs))
  | StructureArray _ _ => PvField.StructureArray []
  | Union _ _ => PvField.Union (-1) [] PvField.Null
  | UnionArray _ _ => PvField.UnionArray []
  | Variant => PvField.Variant VariantValue_null
  | VariantArray => PvField.VariantArray []
  end.

Definition value_fits_desc (v : PvField.t) (d : FieldDesc) : bool :=
  match d, v with
  | Scalar st, PvField.Scalar v => bool_decide (scalar_type v = st)
  | ScalarArray st, PvField.ScalarArray items =>
      forallb (fun v => bool_decide (scalar_type v = st)) items
  | ScalarArray st, PvField.ScalarArrayTyped arr =>
      bool_decide (TypedScalarArray.scalar_type arr = st)
  | Structure _ _, PvField.Structure _ => true
  | StructureArray _ _, PvField.StructureArray _ => true
  | Union _ _, PvField.Union _ _ _ => true
  | UnionArray _ _, PvField.UnionArray _ => true
  | Variant, PvField.Variant _ => true
  | VariantArray, PvField.VariantArray _ => true
  | _, _ => false
  end.

(** [member_at]: the member at the descriptor's index when it has the name, else by name. *)
Definition member_at (s : struct_t) (i : nat) (name : list Z) : option PvField.t :=
  match fields s !! i with
  | Some (n, v) => if bool_decide (n = name) then Some v else get_field s name
  | None => get_field s name
  end.

(** [slice.get(i)] at a [usize] index. *)
Definition get_at {A : Type} (l : list A) (i : Z) : option A :=
  if i <? len l then l !! Z.to_nat i else None.

(** [usize::try_from(selector).ok().and_then(|idx| variants.get(idx))], with the index. *)
Definition select (variants : list (list Z * FieldDesc)) (selector : Z)
    : option (Z * FieldDesc) :=
  if 0 <=? selector then '(_, d) ← get_at variants selector; Some (selector, d) else None.

(** [iter().position(f)]. *)
Fixpoint position {A : Type} (f : A -> bool) (l : list A) : option nat :=
  match l with
  | [] => None
  | a :: l => if f a then Some O else S <$> position f l
  end.

(** ** Encoding

    What [encode.rs] takes from the conversions of [value.rs]: a scalar copied out as another
    type, when it can be. *)
Class ScalarCopy : Type := copy_out : ScalarValue.t -> ScalarType -> option ScalarValue.t.

Definition coerce_scalar `{ScalarCopy} (v : ScalarValue.t) (st : ScalarType) : ScalarValue.t :=
  if bool_decide (scalar_type v = st) then v
  else default (zero_scalar st) (copy_out v st).

(** The concatenation of the encodings of a list. *)
Fixpoint encode_each {A : Type} (f : A -> option (list Z)) (l : list A) : option (list Z) :=
  match l with
  | [] => Some []
  | a :: l => b ← f a; bs ← encode_each f l; Some (b ++ bs)
  end.

(** The size prefix of an array, [len() as u32]. *)
Definition array_size (n : nat) (o : ByteOrder) : list Z :=
  encode_size (wrap 32 (Z.of_nat n)) o.

Section Encode.
Context `{ScalarCopy}.
Variable host : ByteOrder.
Variable o : ByteOrder.
(** The recursive call; [None] is the recursion not finished. *)
Variable enc : PvField.t -> FieldDesc -> option (list Z).

Fixpoint encode_structure_fields (s : struct_t) (i : nat) (fs : list (list Z * FieldDesc))
    : option (list Z) :=
  match fs with
  | [] => Some []
  | (name, child_desc) :: fs =>
      b ← match member_at s i name with
          | Some v => enc v child_desc
          | None => enc (default_value_for child_desc) child_desc
          end;
      bs ← encode_structure_fields s (S i) fs;
      Some (b ++ bs)
  end.

Definition encode_scalars (items : list ScalarValue.t) (st : ScalarType) : list Z :=
  array_size (length items) o
  ++ mjoin ((fun v => encode_scalar_value (coerce_scalar v st) o) <$> items).

Definition encode_pv_field_generic (v : PvField.t) (d : FieldDesc) : option (list Z) :=
  match d with
  | Scalar st =>
      let sv := match v with PvField.Scalar v => coerce_scalar v st | _ => zero_scalar st end in
      Some (encode_scalar_value sv o)
  | ScalarArray st =>
      match v with
      | PvField.ScalarArray items => Some (encode_scalars items st)
      | PvField.ScalarArrayTyped arr =>
          Some (encode_scalars (TypedScalarArray.to_scalar_values arr) st)
      | _ => Some (encode_size 0 o)
      end
  | Structure _ fs => encode_each (fun '(_, c) => enc (default_value_for c) c) fs
  | StructureArray _ _ => Some (encode_size 0 o)
  | Union _ variants =>
      match v with
      | PvField.Null => Some (put_u8 0xFF)
      | _ =>
          match position (fun '(_, vd) => value_fits_desc v vd) variants with
          | Some idx =>
              '(_, vd) ← variants !! idx;
              b ← enc v vd;
              Some (encode_size (wrap 32 (Z.of_nat idx)) o ++ b)
          | None => Some (put_u8 0xFF)
          end
      end
  | UnionArray _ _ => Some (encode_size 0 o)
  | Variant =>
      match v with
      | PvField.Null => Some (put_u8 0xFF)
      | _ =>
          match wire_descriptor v with
          | Some d => b ← enc v d; Some (encode_type_desc o d ++ b)
          | None => Some (put_u8 0xFF)
          end
      end
  | VariantArray => Some (encode_size 0 o)
  end.

(** One call of [encode_pv_field]: the arms where the value has the descriptor's shape, else
    the fallback. *)
Definition encode_step (v : PvField.t) (d : FieldDesc) : option (list Z) :=
  match d, v with
  | Scalar st, PvField.Scalar sv =>
      if bool_decide (scalar_type sv = st) then Some (encode_scalar_value sv o)
      else Some (encode_scalar_value (coerce_scalar sv st) o)
  | ScalarArray st, PvField.ScalarArrayTyped arr =>
      if bool_decide (TypedScalarArray.scalar_type arr = st) then
        Some (array_size (TypedScalarArray.length arr) o ++ encode_typed_scalar_array host arr o)
      else encode_pv_field_generic v d
  | ScalarArray st, PvField.ScalarArray items =>
      if forallb (fun v => bool_decide (scalar_type v = st)) items then
        Some (array_size (length items) o
              ++ mjoin ((fun sv => encode_scalar_value sv o) <$> items))
      else encode_pv_field_generic v d
  | Structure _ fs, PvField.Structure s => encode_structure_fields s 0 fs
  | StructureArray _ fs, PvField.StructureArray items =>
      bs ← encode_each (fun s =>
             match s with
             | None => Some (put_u8 0x00)
             | Some s => b ← encode_structure_fields s 0 fs; Some (put_u8 0x01 ++ b)
             end) items;
      Some (array_size (length items) o ++ bs)
  | Union _ variants, PvField.Union selector _ value =>
      match select variants selector with
      | Some (idx, vdesc) =>
          b ← enc value vdesc;
          Some (encode_size (wrap 32 idx) o ++ b)
      | None => Some (put_u8 0xFF)
      end
  | UnionArray _ variants, PvField.UnionArray items =>
      bs ← encode_each (fun it =>
             match (it ← it; '(idx, vd) ← select variants (item_selector it);
                    Some (idx, item_value it, vd)) with
             | Some (idx, value, vd) =>
                 b ← enc value vd;
                 Some (put_u8 0x01 ++ encode_size (wrap 32 idx) o ++ b)
             | None => Some (put_u8 0x00)
             end) items;
      Some (array_size (length items) o ++ bs)
  | Variant, PvField.Variant w =>
      match variant_desc w with
      | None => Some (put_u8 0xFF)
      | Some d => b ← enc (variant_value w) d; Some (encode_type_desc o d ++ b)
      end
  | VariantArray, PvField.VariantArray items =>
      bs ← encode_each (fun it =>
             match (it ← it; d ← variant_desc it; Some (d, variant_value it)) with
             | Some (d, value) =>
                 b ← enc value d;
                 Some (put_u8 0x01 ++ encode_type_desc o d ++ b)
             | None => Some (put_u8 0x00)
             end) items;
      Some (array_size (length items) o ++ bs)
  | _, _ => encode_pv_field_generic v d
  end.
End Encode.

(** The recursion of [encode_pv_field], at most [fuel] calls deep. *)
Fixpoint encode_at `{ScalarCopy} (host o : ByteOrder) (fuel : nat) (v : PvField.t)
    (d : FieldDesc) : option (list Z) :=
  match fuel with
  | O => None
  | S fuel => encode_step host o (encode_at host o fuel) v d
  end.

(** How deep a descriptor and a value nest, the descriptors a value carries counted in; a
    structure array is a level for its elements and one for their members. *)
Fixpoint desc_depth (d : FieldDesc) : nat :=
  match d with
  | Structure _ fs | Union _ fs | UnionArray _ fs =>
      S (max_list_with (fun '(_, c) => desc_depth c) fs)
  | StructureArray _ fs => S (S (max_list_with (fun '(_, c) => desc_depth c) fs))
  | _ => 1
  end.

Fixpoint value_depth (v : PvField.t) : nat :=
  let of_struct s := max_list_with (fun '(_, f) => value_depth f) (fields s) in
  let of_any w := (max (from_option desc_depth O (variant_desc w)) (value_depth (variant_value w)))
  in
  match v with
  | PvField.Scalar _ | PvField.ScalarArray _ | PvField.ScalarArrayTyped _ => 1
  | PvField.Structure s => S (of_struct s)
  | PvField.StructureArray items => S (S (max_list_with (from_option of_struct O) items))
  | PvField.Union _ _ value => S (value_depth value)
  | PvField.UnionArray items =>
      S (max_list_with (from_option (fun it => value_depth (item_value it)) O) items)
  | PvField.Variant w => S (of_any w)
  | PvField.VariantArray items => S (max_list_with (from_option of_any O) items)
  | PvField.Null => 0
  end.

(** Calls deep enough for any value against any descriptor: [encode_terminates]. *)
Definition encode_fuel (v : PvField.t) (d : FieldDesc) : nat :=
  (2 * max (value_depth v) (desc_depth d) + 2)%nat.

Definition encode_pv_field `{ScalarCopy} (host o : ByteOrder) (v : PvField.t) (d : FieldDesc)
    : list Z :=
  default [] (encode_at host o (encode_fuel v d) v d).

(** ** Decoding *)

(** The byte that tells a null "any", consumed only when it is one. *)
Definition peek_null : dec bool := fun cache cur =>
  match get_u8 cur with
  | Err e => (cache, Err e)
  | Ok (peek, after) =>
      if peek =? 0xFF then (cache, Ok (true, after)) else (cache, Ok (false, cur))
  end.

(** The element loop of an array: [n] elements, each giving what it pushes. *)
Fixpoint decode_elements {A : Type} (elem : dec (list A)) (n : nat) : dec (list A) :=
  match n with
  | O => mret []
  | S n =>
      pushed ← elem;
      rest ← decode_elements elem n;
      mret (pushed ++ rest)
  end.

(** An element behind its presence byte. *)
Definition decode_present {A : Type} (body : dec (list (option A))) : dec (list (option A)) :=
  presence ← lift get_u8;
  if presence =? 0x00 then mret [None]
  else if presence =? 0x01 then body
  else fails (PresenceByte presence).

Section Decode.
Context `{Target}.
Variable rtems : bool.
Variable host : ByteOrder.
Variable o : ByteOrder.
(** The recursive call, one level deeper. *)
Variable child : FieldDesc -> dec PvField.t.

Fixpoint decode_struct_members (fs : list (list Z * FieldDesc))
    : dec (list (list Z * PvField.t)) :=
  match fs with
  | [] => mret []
  | (name, d) :: fs =>
      v ← child d;
      rest ← decode_struct_members fs;
      mret ((name, v) :: rest)
  end.

(** The variant a selector read from the wire names: [sel as i32], then [as usize]. *)
Definition wire_variant (variants : list (list Z * FieldDesc)) (sel : Z)
    : dec (list Z * FieldDesc) :=
  match get_at variants (wrap usize_bits (swrap 32 sel)) with
  | Some nd => mret nd
  | None => fails (SelectorOutOfRange (swrap 32 sel))
  end.

Definition decode_value_step (d : FieldDesc) : dec PvField.t :=
  match d with
  | Scalar st => sv ← lift (decode_scalar_value st o); mret (PvField.Scalar sv)
  | ScalarArray st =>
      n ← lift (decode_size_nonnull o "scalar array length");
      typed ← lift (decode_typed_scalar_array host st n o);
      match typed with
      | Some arr => mret (PvField.ScalarArrayTyped arr)
      | None =>
          items ← lift (repeat_reader (decode_scalar_value st o) (Z.to_nat n));
          mret (PvField.ScalarArray items)
      end
  | Structure id fs =>
      members ← decode_struct_members fs;
      mret (PvField.Structure (mkPvStructure id members))
  | StructureArray id fs =>
      n ← lift (decode_size_nonnull o "structure array length");
      items ← decode_elements (decode_present (
                v ← child (Structure id fs);
                mret (match v with PvField.Structure s => [Some s] | _ => [] end)))
                (Z.to_nat n);
      mret (PvField.StructureArray items)
  | Union _ variants =>
      sel ← lift (decode_size o);
      match sel with
      | None => mret (PvField.Union (-1) [] PvField.Null)
      | Some sel_u32 =>
          '(name, vdesc) ← wire_variant variants sel_u32;
          v ← child vdesc;
          mret (PvField.Union (swrap 32 sel_u32) name v)
      end
  | UnionArray _ variants =>
      n ← lift (decode_size_nonnull o "union array length");
      items ← decode_elements (decode_present (
                sel ← lift (decode_size o);
                match sel with
                | None => mret [None]
                | Some sel_u32 =>
                    '(name, vdesc) ← wire_variant variants sel_u32;
                    v ← child vdesc;
                    mret [Some (mkUnionItem (swrap 32 sel_u32) name v)]
                end))
                (Z.to_nat n);
      mret (PvField.UnionArray items)
  | Variant =>
      null ← peek_null;
      if null : bool then mret (PvField.Variant VariantValue_null)
      else
        inner ← decode_type_desc_cached rtems o;
        v ← child inner;
        mret (PvField.Variant (mkVariantValue (Some inner) v))
  | VariantArray =>
      n ← lift (decode_size_nonnull o "variant array length");
      items ← decode_elements (decode_present (
                null ← peek_null;
                if null : bool then mret [None]
                else
                  inner ← decode_type_desc_cached rtems o;
                  v ← child inner;
                  mret [Some (mkVariantValue (Some inner) v)]))
                (Z.to_nat n);
      mret (PvField.VariantArray items)
  end.
End Decode.

(** [decode_pv_field_at_depth]; [levels] is [MAX_FIELD_DEPTH + 1 - depth]. *)
Fixpoint decode_pv_field_at `{Target} (rtems : bool) (host o : ByteOrder) (levels : nat)
    (d : FieldDesc) : dec PvField.t :=
  match levels with
  | O => fails NestingTooDeep
  | S levels => decode_value_step rtems host o (decode_pv_field_at rtems host o levels) d
  end.

Definition decode_pv_field_cached `{Target} (rtems : bool) (host o : ByteOrder) (d : FieldDesc)
    : dec PvField.t :=
  decode_pv_field_at rtems host o (S (MAX_FIELD_DEPTH rtems)) d.

Definition decode_pv_field `{Target} (rtems : bool) (host o : ByteOrder) (d : FieldDesc)
    : reader PvField.t := fun cur =>
  snd (decode_pv_field_cached rtems host o d ∅ cur).
