(* ===== verification/PvaCheck.v ===== *)
(** * Checking values against descriptors

    Models [epics-pva-rs/src/pvdata/value_check.rs]: whether a value can be encoded under a
    descriptor without being coerced, and the copy of the marked fields of a post into the
    stored value of a PV. *)
From stdpp Require Import base tactics numbers list option strings gmap.
From S2P Require Import Prelude PvaProto PvaText PvaDesc PvaValue.

Open Scope Z_scope.

Definition value_label (v : PvField.t) : string :=
  match v with
  | PvField.Scalar _ => "Scalar" | PvField.ScalarArray _ => "ScalarArray"
  | PvField.ScalarArrayTyped _ => "ScalarArrayTyped" | PvField.Structure _ => "Structure"
  | PvField.StructureArray _ => "StructureArray" | PvField.Union _ _ _ => "Union"
  | PvField.UnionArray _ => "UnionArray" | PvField.Variant _ => "Variant"
  | PvField.VariantArray _ => "VariantArray" | PvField.Null => "Null"
  end.

Definition desc_label (d : FieldDesc) : string :=
  match d with
  | Scalar _ => "Scalar" | ScalarArray _ => "ScalarArray" | Structure _ _ => "Structure"
  | StructureArray _ _ => "StructureArray" | Union _ _ => "Union"
  | UnionArray _ _ => "UnionArray" | Variant => "Variant" | VariantArray => "VariantArray"
  end.

Inductive ValueDescMismatch : Type :=
| VariantMismatch (desc value : string)
| ScalarTypeMismatch (desc value : ScalarType)
| StructureIdMismatch (desc_id value_id : list Z)
| UnionSelectorOutOfRange (selector variants : Z)
| MissingField (name : list Z)
| UnexpectedField (name : list Z).

Abbreviation check_result := (result ValueDescMismatch unit).

(** [for x in l { f(x)?; }]. *)
Fixpoint check_each {A : Type} (f : A -> check_result) (l : list A) : check_result :=
  match l with
  | [] => Ok tt
  | a :: l => _ ← f a; check_each f l
  end.

(** The first element of another type. *)
Fixpoint find_other (st : ScalarType) (l : list ScalarValue.t) : option ScalarType :=
  match l with
  | [] => None
  | v :: l => if bool_decide (scalar_type v = st) then find_other st l else Some (scalar_type v)
  end.

(** The second loop of [structure_fields_match]: no member the descriptor lacks. *)
Fixpoint unexpected {A : Type} (ms : list (list Z * A)) (fs : list (list Z * FieldDesc))
    : check_result :=
  match ms with
  | [] => Ok tt
  | (name, _) :: ms =>
      if existsb (fun '(n, _) => bool_decide (n = name)) fs then unexpected ms fs
      else Err (UnexpectedField name)
  end.

(** The checks of the members of a value, each against a descriptor of its name. *)
Definition structure_fields_match (checks : list (list Z * (FieldDesc -> check_result)))
    (fs : list (list Z * FieldDesc)) : check_result :=
  _ ← check_each (fun '(name, child_desc) =>
        match find_name name checks with
        | Some check => check child_desc
        | None => Err (MissingField name)
        end) fs;
  unexpected checks fs.

Definition check_union_selector (selector : Z) (check : FieldDesc -> check_result)
    (variants : list (list Z * FieldDesc)) : check_result :=
  if selector <? 0 then Ok tt
  else match get_at variants selector with
       | Some (_, vdesc) => check vdesc
       | None => Err (UnionSelectorOutOfRange selector (len variants))
       end.

Fixpoint value_matches_descriptor (v : PvField.t) (d : FieldDesc) : check_result :=
  let members s := (fun '(n, f) => (n, value_matches_descriptor f)) <$> fields s in
  match v, d with
  | PvField.Scalar sv, Scalar t =>
      if bool_decide (scalar_type sv = t) then Ok tt
      else Err (ScalarTypeMismatch t (scalar_type sv))
  | PvField.ScalarArray items, ScalarArray st =>
      match find_other st items with
      | Some other => Err (ScalarTypeMismatch st other)
      | None => Ok tt
      end
  | PvField.ScalarArrayTyped arr, ScalarArray st =>
      if bool_decide (TypedScalarArray.scalar_type arr = st) then Ok tt
      else Err (ScalarTypeMismatch st (TypedScalarArray.scalar_type arr))
  | PvField.Structure s, Structure id fs =>
      if bool_decide (struct_id s = id) then structure_fields_match (members s) fs
      else Err (StructureIdMismatch id (struct_id s))
  | PvField.StructureArray items, StructureArray id fs =>
      check_each (fun elem =>
        match elem with
        | None => Ok tt
        | Some s =>
            if bool_decide (struct_id s = id) then structure_fields_match (members s) fs
            else Err (StructureIdMismatch id (struct_id s))
        end) items
  | PvField.Union selector _ value, Union _ variants =>
      check_union_selector selector (value_matches_descriptor value) variants
  | PvField.UnionArray items, UnionArray _ variants =>
      check_each (fun elem =>
        match elem with
        | None => Ok tt
        | Some it =>
            check_union_selector (item_selector it) (value_matches_descriptor (item_value it))
              variants
        end) items
  | PvField.Variant _, Variant => Ok tt
  | PvField.VariantArray _, VariantArray => Ok tt
  | PvField.Null, Variant => Ok tt
  | _, _ => Err (VariantMismatch (desc_label d) (value_label v))
  end.

(** ** Posts *)

(** [(start..end).any(|b| marks.get(b))]. *)
Definition marked_below (marks : BitSet.t) (start stop : nat) : bool :=
  existsb (BitSet.get marks) (seq start (stop - start)).

Section CheckMarked.
Variable marks : BitSet.t.
Variable check : FieldDesc -> nat -> PvField.t -> check_result.
Fixpoint check_marked_members (s : struct_t) (i : nat) (fs : list (list Z * FieldDesc))
    (child_bit : nat) : check_result :=
  match fs with
  | [] => Ok tt
  | (name, child_desc) :: fs =>
      let span := total_bits child_desc in
      _ ← match member_at s i name with
          | Some child => check child_desc child_bit child
          | None =>
              if marked_below marks child_bit (child_bit + span) then Err (MissingField name)
              else Ok tt
          end;
      check_marked_members s (S i) fs (child_bit + span)
  end.
End CheckMarked.

Fixpoint check_marked (marks : BitSet.t) (d : FieldDesc) (bit : nat) (delta : PvField.t)
    : check_result :=
  if BitSet.get marks bit then value_matches_descriptor delta d
  else
    match d with
    | Structure _ fs =>
        match delta with
        | PvField.Structure s =>
            check_marked_members marks (check_marked marks) s 0 fs (bit + 1)
        | _ =>
            if marked_below marks (bit + 1) (bit + total_bits d)
            then Err (VariantMismatch (desc_label d) (value_label delta))
            else Ok tt
        end
    | _ => Ok tt
    end.

(** The member [field_at_mut] finds, replaced by a function of it; [None] when it has none. *)
Fixpoint alter_name {A : Type} (f : A -> A) (name : list Z) (l : list (list Z * A))
    : option (list (list Z * A)) :=
  match l with
  | [] => None
  | (n, v) :: l =>
      if bool_decide (n = name) then Some ((n, f v) :: l)
      else l ← alter_name f name l; Some ((n, v) :: l)
  end.

Definition alter_at {A : Type} (f : A -> A) (i : nat) (name : list Z) (l : list (list Z * A))
    : option (list (list Z * A)) :=
  match l !! i with
  | Some (n, v) => if bool_decide (n = name) then Some (<[i := (n, f v)]> l) else alter_name f name l
  | None => alter_name f name l
  end.

Section CopyMarked.
Variable copy : FieldDesc -> nat -> PvField.t -> PvField.t -> PvField.t.
(** The member loop, over the fields of the stored structure. *)
Fixpoint copy_marked_members (ds : struct_t) (i : nat) (fs : list (list Z * FieldDesc))
    (child_bit : nat) (cur : list (list Z * PvField.t)) : list (list Z * PvField.t) :=
  match fs with
  | [] => cur
  | (name, child_desc) :: fs =>
      let cur := match member_at ds i name with
                 | Some d =>
                     match alter_at (copy child_desc child_bit d) i name cur with
                     | Some cur => cur
                     | None => cur ++ [(name, copy child_desc child_bit d d)]
                     end
                 | None => cur
                 end in
      copy_marked_members ds (S i) fs (child_bit + total_bits child_desc) cur
  end.
End CopyMarked.

Fixpoint copy_marked (marks : BitSet.t) (d : FieldDesc) (bit : nat) (delta cur : PvField.t)
    : PvField.t :=
  if BitSet.get marks bit then delta
  else
    match d, delta, cur with
    | Structure _ fs, PvField.Structure ds, PvField.Structure cs =>
        PvField.Structure (mkPvStructure (struct_id cs)
          (copy_marked_members (copy_marked marks) ds 0 fs (bit + 1) (fields cs)))
    | _, _, _ => cur
    end.

Definition apply_marked_delta (marks : BitSet.t) (d : FieldDesc) (bit_offset : nat)
    (delta cur : PvField.t) : result ValueDescMismatch PvField.t :=
  _ ← check_marked marks d bit_offset delta;
  Ok (copy_marked marks d bit_offset delta cur).
