(* ===== verification/PvaValueTheory.v ===== *)
(** * Properties of pvData values

    The encoder finishes on every value against every descriptor; what it writes is read back
    by the decoder whatever the value was, so the stream never loses its place; a value the
    checker accepts is read back as it is; and what the decoder returns has the type of its
    descriptor. *)
From stdpp Require Import base tactics numbers list option strings gmap.
From S2P Require Import Prelude PvaProto PvaProtoTheory PvaText PvaDesc PvaDescTheory PvaValue PvaCheck.

Open Scope Z_scope.

(** ** Lists *)

Lemma max_list_elem {A : Type} (f : A -> nat) (l : list A) a :
  a ∈ l -> (f a <= max_list_with f l)%nat.
Proof. induction 1; simpl; lia. Qed.

Lemma find_name_elem {A : Type} name (l : list (list Z * A)) v :
  find_name name l = Some v -> (name, v) ∈ l.
Proof.
  induction l as [|[n w] l IH]; simpl; [done|]. case_bool_decide as Hn; intros H.
  - injection H as ->. subst. constructor.
  - constructor. auto.
Qed.

Lemma member_at_elem s i name v : member_at s i name = Some v -> (name, v) ∈ fields s.
Proof.
  unfold member_at, get_field. destruct (fields s !! i) as [[n w]|] eqn:E.
  - case_bool_decide as Hn; intros H; [|by apply find_name_elem].
    injection H as ->. subst. by eapply list_elem_of_lookup_2.
  - apply find_name_elem.
Qed.

Lemma get_at_elem {A : Type} (l : list A) i a : get_at l i = Some a -> a ∈ l.
Proof. unfold get_at. destruct (_ <? _); [|done]. apply list_elem_of_lookup_2. Qed.

Lemma select_elem vs sel idx d :
  select vs sel = Some (idx, d) -> idx = sel /\ 0 <= sel < len vs /\ exists n, (n, d) ∈ vs /\ get_at vs sel = Some (n, d).
Proof.
  unfold select. destruct (0 <=? sel) eqn:E; [|done]. zbool.
  destruct (get_at vs sel) as [[n c]|] eqn:Hg; simpl; [|done].
  intros [= <- <-]. split_and!; [done|done| |].
  - unfold get_at in Hg. destruct (sel <? len vs) eqn:Hl; [|done]. by zbool.
  - exists n. split; [by eapply get_at_elem|done].
Qed.

Lemma position_spec {A : Type} (f : A -> bool) l i :
  position f l = Some i -> exists a, l !! i = Some a /\ f a = true.
Proof.
  revert i. induction l as [|a l IH]; simpl; intros i H; [done|].
  destruct (f a) eqn:E.
  - injection H as <-. eauto.
  - destruct (position f l) as [j|] eqn:Hp; [|done]. injection H as <-. by apply IH.
Qed.

Lemma first_present_map {A B : Type} (f : A -> B) l :
  first_present (List.map (option_map f) l) = option_map f (first_present l).
Proof. induction l as [|[a|] l IH]; simpl; done. Qed.

Lemma first_present_elem {A : Type} (l : list (option A)) a :
  first_present l = Some a -> Some a ∈ l.
Proof. induction l as [|[b|] l IH]; simpl; intros H; [done| |].
  - injection H as ->. constructor.
  - constructor. auto.
Qed.

(** ** Induction over values *)

(** The values directly inside a value. *)
Definition children (v : PvField.t) : list PvField.t :=
  match v with
  | PvField.Structure s => snd <$> fields s
  | PvField.StructureArray items =>
      mjoin (from_option (fun s : struct_t => snd <$> fields s) [] <$> items)
  | PvField.Union _ _ w => [w]
  | PvField.UnionArray items =>
      mjoin (from_option (fun it : UnionItem PvField.t => [item_value it]) [] <$> items)
  | PvField.Variant w => [variant_value w]
  | PvField.VariantArray items =>
      mjoin (from_option (fun it : VariantValue PvField.t => [variant_value it]) [] <$> items)
  | _ => []
  end.

Lemma value_ind' (P : PvField.t -> Prop) :
  (forall v, Forall P (children v) -> P v) -> forall v, P v.
Proof.
  intros H. fix IH 1. intros v. apply H.
  destruct v as [| | |[id ms]|items|? ? w|items|[d w]|items|]; simpl; try constructor.
  - induction ms as [|[n f] ms IHms]; simpl; constructor; [apply IH|exact IHms].
  - induction items as [|[[id ms]|] items IHi]; simpl; [constructor| |exact IHi].
    apply Forall_app. split; [|exact IHi].
    clear IHi. induction ms as [|[n f] ms IHms]; simpl; constructor; [apply IH|exact IHms].
  - apply IH.
  - constructor.
  - induction items as [|[[s n w]|] items IHi]; simpl; [constructor| |exact IHi].
    constructor; [apply IH|exact IHi].
  - apply IH.
  - constructor.
  - induction items as [|[[d w]|] items IHi]; simpl; [constructor| |exact IHi].
    constructor; [apply IH|exact IHi].
Qed.

(** ** The encoder finishes *)

Lemma max_list_le {A : Type} (f : A -> nat) (l : list A) n :
  (forall a, a ∈ l -> (f a <= n)%nat) -> (max_list_with f l <= n)%nat.
Proof.
  induction l as [|a l IH]; simpl; intros H; [lia|].
  pose proof (H a ltac:(constructor)). specialize (IH ltac:(intros; apply H; by constructor)).
  lia.
Qed.

Lemma default_depth d : (value_depth (default_value_for d) <= desc_depth d)%nat.
Proof.
  induction d as [d IH] using desc_ind'. destruct d as [| |id fs| | | | |]; simpl in *; try lia.
  apply le_n_S. induction IH as [|[n c] fs Hc _ IHfs]; [done|].
  rewrite fmap_cons. cbn [max_list_with]. simpl in Hc. lia.
Qed.

Lemma all_named_elem {A B : Type} (f : A -> option B) l l' n b :
  all_named f l = Some l' -> (n, b) ∈ l' -> exists a, (n, a) ∈ l /\ f a = Some b.
Proof.
  revert l'. induction l as [|[m a] l IH]; simpl; intros l' H Hin.
  - injection H as <-. by apply not_elem_of_nil in Hin.
  - destruct (f a) as [c|] eqn:Ef; simpl in H; [|done].
    destruct (all_named f l) as [rest|] eqn:El; simpl in H; [|done]. injection H as <-.
    apply elem_of_cons in Hin as [[= -> ->]|Hin].
    + exists a. split; [constructor|done].
    + destruct (IH _ eq_refl Hin) as (a' & ? & ?). exists a'. split; [by constructor|done].
Qed.

Abbreviation fields_depth ms :=
  (max_list_with (fun '((_, f) : list Z * PvField.t) => value_depth f) ms).

Lemma member_depth (ms : list (list Z * PvField.t)) n f :
  (n, f) ∈ ms -> (value_depth f <= fields_depth ms)%nat.
Proof. apply (max_list_elem (fun '((_, f) : list Z * PvField.t) => value_depth f)). Qed.

Lemma desc_member_depth (fs : list (list Z * FieldDesc)) n d :
  (n, d) ∈ fs -> (desc_depth d <= max_list_with (fun '((_, c) : list Z * FieldDesc) => desc_depth c) fs)%nat.
Proof. apply (max_list_elem (fun '((_, c) : list Z * FieldDesc) => desc_depth c)). Qed.

Lemma item_depth (items : list (option (PvStructure PvField.t))) s :
  Some s ∈ items ->
  (fields_depth (fields s)
   <= max_list_with (from_option (fun s => fields_depth (fields s)) O) items)%nat.
Proof. apply (max_list_elem (from_option (fun s : struct_t => fields_depth (fields s)) O)). Qed.

Lemma children_lift (Q : PvField.t -> Prop) (ms : list (list Z * PvField.t)) n f :
  Forall Q (snd <$> ms) -> (n, f) ∈ ms -> Q f.
Proof.
  intros HF Hin. rewrite Forall_forall in HF. apply HF.
  apply list_elem_of_fmap. by exists (n, f).
Qed.

(** The members a recovered descriptor has are as deep as the values they come from. *)
Lemma named_depth (ms : list (list Z * PvField.t)) fs :
  Forall (fun v => forall d, wire_descriptor v = Some d -> (desc_depth d <= value_depth v)%nat)
    (snd <$> ms) ->
  all_named wire_descriptor ms = Some fs ->
  (max_list_with (fun '((_, c) : list Z * FieldDesc) => desc_depth c) fs <= fields_depth ms)%nat.
Proof.
  intros HF Hn. apply max_list_le. intros [n d] Hin.
  destruct (all_named_elem _ _ _ _ _ Hn Hin) as (v & Hv & Hd).
  etrans; [|by eapply member_depth]. by eapply (children_lift _ _ _ _ HF).
Qed.

Lemma wire_depth v d : wire_descriptor v = Some d -> (desc_depth d <= value_depth v)%nat.
Proof.
  revert d. induction v as [v IH] using value_ind'. intros d.
  destruct v as [sv|items|arr|s|items|? ? w|items|w|items|]; simpl in *; intros H; try done.
  - by injection H as <-.
  - destruct items; simpl in H; [done|]. by injection H as <-.
  - by injection H as <-.
  - destruct (all_named wire_descriptor (fields s)) as [fs|] eqn:E; simpl in H; [|done].
    injection H as <-. simpl. apply le_n_S. by eapply named_depth.
  - rewrite first_present_map in H. destruct (first_present items) as [s|] eqn:Ef; simpl in H; [|done].
    destruct (all_named wire_descriptor (fields s)) as [fs|] eqn:E; simpl in H; [|done].
    injection H as <-. simpl. do 2 apply le_n_S. apply first_present_elem in Ef.
    etrans; [eapply named_depth; [|done]|by apply item_depth].
    apply Forall_forall. intros x Hx. rewrite Forall_forall in IH. apply IH.
    apply list_elem_of_join. exists (snd <$> fields s). split; [done|].
    apply list_elem_of_fmap. by exists (Some s).
  - destruct (variant_desc w); [|done]. injection H as <-. simpl. lia.
  - injection H as <-. simpl. lia.
Qed.

(** The calls below a call need fewer than it does. *)
Definition bonus (v : PvField.t) (d : FieldDesc) : nat :=
  match d, v with
  | Variant, PvField.Variant _ | Union _ _, PvField.Union _ _ _ => 0
  | Variant, _ | Union _ _, _ => 1
  | _, _ => 0
  end.

Definition need (v : PvField.t) (d : FieldDesc) : nat :=
  (2 * max (value_depth v) (desc_depth d) + bonus v d)%nat.

Lemma bonus_le v d : (bonus v d <= 1)%nat.
Proof. destruct d, v; simpl; lia. Qed.

Lemma need_below v d v' d' :
  (max (value_depth v') (desc_depth d') < max (value_depth v) (desc_depth d))%nat ->
  (need v' d' < need v d)%nat.
Proof. unfold need. pose proof (bonus_le v' d'). lia. Qed.

Lemma need_default v d d' :
  (desc_depth d' < desc_depth d)%nat -> (need (default_value_for d') d' < need v d)%nat.
Proof. intros H. apply need_below. pose proof (default_depth d'). lia. Qed.

Lemma fits_no_bonus v d : value_fits_desc v d = true -> bonus v d = 0%nat.
Proof. by destruct d, v. Qed.

Section Terminates.
Context `{ScalarCopy}.
Variable host o : ByteOrder.

(** Two recursive calls that both answer, and alike. *)
Definition agree (e1 e2 : PvField.t -> FieldDesc -> option (list Z)) (v : PvField.t)
    (d : FieldDesc) : Prop :=
  exists b, e1 v d = Some b /\ e2 v d = Some b.

Lemma each_agree {A : Type} (f1 f2 : A -> option (list Z)) l :
  (forall a, a ∈ l -> exists b, f1 a = Some b /\ f2 a = Some b) ->
  exists b, encode_each f1 l = Some b /\ encode_each f2 l = Some b.
Proof.
  induction l as [|a l IH]; simpl; intros Ha; [eauto|].
  destruct (Ha a ltac:(constructor)) as (b & -> & ->).
  destruct IH as (bs & -> & ->); [intros; apply Ha; by constructor|]. simpl. eauto.
Qed.

Lemma fields_agree e1 e2 s fs i :
  (forall n v d, (n, v) ∈ fields s -> (n, d) ∈ fs -> agree e1 e2 v d) ->
  (forall n d, (n, d) ∈ fs -> agree e1 e2 (default_value_for d) d) ->
  exists b, encode_structure_fields e1 s i fs = Some b
            /\ encode_structure_fields e2 s i fs = Some b.
Proof.
  revert i. induction fs as [|[n d] fs IH]; simpl; intros i Hm Hd; [eauto|].
  assert (Hb : exists b,
    match member_at s i n with Some v => e1 v d | None => e1 (default_value_for d) d end = Some b /\
    match member_at s i n with Some v => e2 v d | None => e2 (default_value_for d) d end = Some b).
  { destruct (member_at s i n) as [v|] eqn:E.
    - apply (Hm n v d); [by eapply member_at_elem|constructor].
    - apply (Hd n d). constructor. }
  destruct Hb as (b & -> & ->).
  destruct (IH (S i)) as (bs & -> & ->); simpl; [..|eauto].
  - intros n' v' d' ? ?. apply (Hm n' v' d'); [done|by constructor].
  - intros n' d' ?. apply (Hd n' d'). by constructor.
Qed.

(** The calls that need fewer than [v] against [d] agree. *)
Definition agree_below e1 e2 (v : PvField.t) (d : FieldDesc) : Prop :=
  forall v' d', (need v' d' < need v d)%nat -> agree e1 e2 v' d'.

Lemma agree_deeper e1 e2 v d v' d' :
  agree_below e1 e2 v d ->
  (value_depth v' < value_depth v)%nat -> (desc_depth d' < desc_depth d)%nat -> agree e1 e2 v' d'.
Proof. intros Hb ? ?. apply Hb, need_below. lia. Qed.

Lemma agree_default e1 e2 v d n d' :
  agree_below e1 e2 v d -> (n, d') ∈ members d -> agree e1 e2 (default_value_for d') d'.
Proof.
  intros Hb Hin. apply Hb, need_default. apply desc_member_depth in Hin.
  destruct d; simpl in *; lia.
Qed.

Lemma agree_fitting e1 e2 v d n d' :
  agree_below e1 e2 v d -> bonus v d = 1%nat -> (n, d') ∈ members d ->
  value_fits_desc v d' = true -> agree e1 e2 v d'.
Proof.
  intros Hb Hv Hin Hf. apply Hb. unfold need. rewrite Hv, (fits_no_bonus v d') by done.
  apply desc_member_depth in Hin. destruct d; simpl in *; lia.
Qed.

Lemma agree_described e1 e2 v d' :
  agree_below e1 e2 v Variant -> bonus v Variant = 1%nat -> wire_descriptor v = Some d' ->
  agree e1 e2 v d'.
Proof.
  intros Hb Hv Hw. apply Hb. unfold need. rewrite Hv. pose proof (wire_depth _ _ Hw).
  assert (bonus v d' = 0%nat) as ->.
  { destruct v; simpl in *; try done; repeat case_match; simplify_option_eq; done. }
  simpl in *. lia.
Qed.

Lemma generic_agree e1 e2 v d :
  agree_below e1 e2 v d -> (bonus v d = 1%nat \/ match d with Variant | Union _ _ => False | _ => True end) ->
  exists b, encode_pv_field_generic o e1 v d = Some b /\ encode_pv_field_generic o e2 v d = Some b.
Proof.
  intros Hb Hd. destruct d as [st|st|id fs|id fs|id vs|id vs| |]; simpl; eauto.
  - destruct v; eauto.
  - apply each_agree. intros [n c] Hin. by eapply agree_default.
  - destruct Hd as [Hd|[]].
    destruct (position (fun '((_, vd) : list Z * FieldDesc) => value_fits_desc v vd) vs)
      as [i|] eqn:Ep; [|destruct v; eauto].
    apply position_spec in Ep as ([n c] & Hi & Hf). rewrite Hi.
    destruct (agree_fitting e1 e2 v (Union id vs) n c) as (b & E1 & E2);
      [done|done|by eapply list_elem_of_lookup_2|done|].
    simpl. rewrite E1, E2. simpl. destruct v; eauto.
  - destruct Hd as [Hd|[]].
    destruct (wire_descriptor v) as [d'|] eqn:Ew; [|destruct v; eauto].
    destruct (agree_described e1 e2 v d') as (b & E1 & E2); [done..|].
    rewrite E1, E2. simpl. destruct v; eauto.
Qed.

Lemma step_agree e1 e2 v d :
  agree_below e1 e2 v d ->
  exists b, encode_step host o e1 v d = Some b /\ encode_step host o e2 v d = Some b.
Proof.
  intros Hb.
  assert (Hg : (bonus v d = 1%nat \/ match d with Variant | Union _ _ => False | _ => True end) ->
    exists b, encode_pv_field_generic o e1 v d = Some b
              /\ encode_pv_field_generic o e2 v d = Some b) by (by apply generic_agree).
  destruct d as [st|st|id fs|id fs|id vs|id vs| |];
    destruct v as [sv|items|arr|s|items|sel name w|items|w|items|];
    cbn [encode_step]; try (apply Hg; simpl; tauto).
  - case_bool_decide; eauto.
  - case_match; [eauto|apply Hg; by right].
  - case_bool_decide; [eauto|apply Hg; by right].
  - apply fields_agree.
    + intros n v d Hv Hd. apply member_depth in Hv. apply desc_member_depth in Hd.
      apply (agree_deeper _ _ _ _ _ _ Hb); simpl; lia.
    + intros n d Hd. by eapply agree_default.
  - edestruct (each_agree (A := option (PvStructure PvField.t))) as (b & E1 & E2);
      [|rewrite E1, E2; simpl; eauto].
    intros [s|] Hs; [|eauto].
    destruct (fields_agree e1 e2 s fs 0) as (b & -> & ->); [..|simpl; eauto].
    + intros n v d Hv Hd. apply member_depth in Hv. apply desc_member_depth in Hd.
      apply item_depth in Hs. apply (agree_deeper _ _ _ _ _ _ Hb); simpl; lia.
    + intros n d Hd. by eapply agree_default.
  - destruct (select vs sel) as [[idx c]|] eqn:Es; [|eauto].
    apply select_elem in Es as (_ & _ & n & Hin & _). apply desc_member_depth in Hin.
    destruct (agree_deeper _ _ _ _ w c Hb) as (b & -> & ->); simpl; [lia..|eauto].
  - edestruct (each_agree (A := option (UnionItem PvField.t))) as (b & E1 & E2);
      [|rewrite E1, E2; simpl; eauto].
    intros [it|] Hs; simpl; [|eauto].
    destruct (select vs (item_selector it)) as [[idx c]|] eqn:Es; simpl; [|eauto].
    apply select_elem in Es as (_ & _ & n & Hin & _). apply desc_member_depth in Hin.
    apply (max_list_elem (from_option (fun it : UnionItem PvField.t => value_depth (item_value it)) O)) in Hs.
    destruct (agree_deeper _ _ _ _ (item_value it) c Hb) as (b & -> & ->); simpl in *; [lia..|eauto].
  - destruct w as [[d'|] w]; simpl; [|eauto].
    destruct (Hb w d') as (b & -> & ->); [apply need_below; simpl; lia|simpl; eauto].
  - edestruct (each_agree (A := option (VariantValue PvField.t))) as (b & E1 & E2);
      [|rewrite E1, E2; simpl; eauto].
    intros [[[d'|] w]|] Hs; simpl; [|eauto..].
    apply (max_list_elem (from_option (fun w : VariantValue PvField.t =>
      (from_option desc_depth O (variant_desc w) `max` value_depth (variant_value w))%nat) O)) in Hs.
    destruct (Hb w d') as (b & -> & ->); [apply need_below; simpl in *; lia|simpl; eauto].
Qed.

Lemma encode_at_total n m v d :
  (need v d < n)%nat -> (need v d < m)%nat ->
  exists b, encode_at host o n v d = Some b /\ encode_at host o m v d = Some b.
Proof.
  revert m v d. induction n as [|n IH]; intros [|m] v d Hn Hm; try lia.
  cbn [encode_at]. apply step_agree. intros v' d' Hlt. apply IH; lia.
Qed.

Lemma fuel_enough v d : (need v d < encode_fuel v d)%nat.
Proof. unfold need, encode_fuel. pose proof (bonus_le v d). lia. Qed.

Lemma encode_at_enough n v d :
  (need v d < n)%nat -> encode_at host o n v d = Some (encode_pv_field host o v d).
Proof.
  intros Hn. destruct (encode_at_total n (encode_fuel v d) v d) as (b & -> & E);
    [done|apply fuel_enough|]. unfold encode_pv_field. by rewrite E.
Qed.

(** [encode_pv_field] is one step that calls itself. *)
Lemma encode_unfold v d :
  encode_step host o (fun v d => Some (encode_pv_field host o v d)) v d
  = Some (encode_pv_field host o v d).
Proof.
  rewrite <- (encode_at_enough (S (need v d))) by lia. cbn [encode_at].
  destruct (step_agree (fun v d => Some (encode_pv_field host o v d)) (encode_at host o (need v d))
    v d) as (b & -> & ->); [|done].
  intros v' d' Hlt. exists (encode_pv_field host o v' d'). split; [done|].
  by apply encode_at_enough.
Qed.
End Terminates.

(** C29: the encoder finishes on every value against every descriptor, matching or not: from a
    depth of calls known beforehand on, the result is there and does not change. *)
Theorem encode_terminates `{ScalarCopy} host o v d :
  exists b, forall fuel, (encode_fuel v d <= fuel)%nat ->
    encode_at host o fuel v d = Some b /\ encode_pv_field host o v d = b.
Proof.
  exists (encode_pv_field host o v d). intros fuel Hf. split; [|done].
  apply encode_at_enough. pose proof (fuel_enough v d). lia.
Qed.

(** ** Scalars *)

Definition is_sint (w x : Z) : Prop := - 2 ^ (w - 1) <= x < 2 ^ (w - 1).

(** A value within its Rust type. *)
Definition scalar_ok (v : ScalarValue.t) : Prop :=
  match v with
  | ScalarValue.Boolean _ => True
  | ScalarValue.Byte x => is_sint 8 x | ScalarValue.Short x => is_sint 16 x
  | ScalarValue.Int x => is_sint 32 x | ScalarValue.Long x => is_sint 64 x
  | ScalarValue.UByte x => is_u8 x | ScalarValue.UShort x => is_u16 x
  | ScalarValue.UInt x => is_u32 x | ScalarValue.ULong x => is_u64 x
  | ScalarValue.Float b => is_u32 b | ScalarValue.Double b => is_u64 b
  | ScalarValue.String s => len s < 2 ^ 32
  end.

Lemma decode_encode_scalar v o rest :
  scalar_ok v ->
  decode_scalar_value (scalar_type v) o (encode_scalar_value v o ++ rest) = Ok (v, rest).
Proof.
  destruct v as [b|x|x|x|x|x|x|x|x|x|x|s]; intros Hv; simpl in Hv;
    cbn [encode_scalar_value ScalarValue.scalar_type decode_scalar_value]; unfold reading.
  - cbn [put_u8 app]. rewrite get_u8_cons. rbind. by destruct b.
  - unfold get_i8, put_i8. cbn [app]. rewrite get_u8_cons. rbind.
    unfold is_sint in Hv. by rewrite swrap_wrap, swrap_small by lia.
  - unfold get_i16, put_i16. rewrite (get_put_sint _ o x rest); [done|lia|exact Hv].
  - unfold get_i32, put_i32. rewrite (get_put_sint _ o x rest); [done|lia|exact Hv].
  - unfold get_i64, put_i64. rewrite (get_put_sint _ o x rest); [done|lia|exact Hv].
  - cbn [put_u8 app]. by rewrite get_u8_cons.
  - unfold get_u16, put_u16. rewrite get_put_uint; done.
  - unfold get_u32, put_u32. rewrite get_put_uint; done.
  - unfold get_u64, put_u64. rewrite get_put_uint; done.
  - unfold get_u32, put_u32. rewrite get_put_uint; done.
  - unfold get_u64, put_u64. rewrite get_put_uint; done.
  - unfold decode_string_value. rewrite decode_encode_string_bytes; done.
Qed.

(** ** Typed arrays *)

Abbreviation scalars_wire vs o :=
  (mjoin ((fun v => encode_scalar_value v o) <$> vs)).

(** The bulk encoder writes what the element loop writes, on a machine of either order. *)
Lemma typed_wire host o arr :
  encode_typed_scalar_array host arr o
  = scalars_wire (TypedScalarArray.to_scalar_values arr) o.
Proof.
  assert (Hp : forall image a, emit_pod host image a (bool_decide (is_big host = is_big o)) o
                 = mjoin ((fun x => image x o) <$> a)).
  { intros image a. unfold emit_pod. case_bool_decide as Hb; [|done].
    by replace host with o by (by destruct host, o). }
  destruct arr as [a|a|a|a|a|a|a|a|a|a|a|a]; simpl; rewrite ?Hp;
    try (rewrite <- list_fmap_compose; reflexivity).
  - induction a as [|x a IH]; [done|]. rewrite !fmap_cons, !mjoin_cons. by rewrite IH.
  - induction a as [|x a IH]; [done|]. rewrite !fmap_cons. apply (f_equal (cons x)), IH.
Qed.

Lemma length_to_scalar_values arr :
  length (TypedScalarArray.to_scalar_values arr) = TypedScalarArray.length arr.
Proof. destruct arr; simpl; apply length_fmap. Qed.

Lemma typed_elements arr :
  Forall (fun v => scalar_type v = TypedScalarArray.scalar_type arr)
    (TypedScalarArray.to_scalar_values arr).
Proof. destruct arr; simpl; apply Forall_fmap, Forall_true; done. Qed.

(** Elements of one type are a typed array, and back. *)
Lemma from_scalar_values_typed vs st :
  Forall (fun v => scalar_type v = st) vs ->
  exists arr, TypedScalarArray.from_scalar_values vs st = Some arr /\
    TypedScalarArray.to_scalar_values arr = vs /\ TypedScalarArray.scalar_type arr = st.
Proof.
  intros Hv.
  assert (Hm : forall A (mk : A -> ScalarValue.t) (un : ScalarValue.t -> option A),
    (forall v, scalar_type v = st -> exists a, un v = Some a /\ mk a = v) ->
    exists l, mapM un vs = Some l /\ mk <$> l = vs).
  { intros A mk un Hun. induction Hv as [|v vs Hv _ IH]; [by exists []|].
    destruct IH as (l & Hl & <-). destruct (Hun v Hv) as (a & Ha & <-).
    exists (a :: l). simpl. rewrite Ha, Hl. done. }
  destruct st; unfold TypedScalarArray.from_scalar_values;
    match goal with
    | |- exists arr, ?C <$> mapM ?un vs = _ /\ _ /\ TypedScalarArray.scalar_type _ = ?ty =>
        let mk := constr:(
          match ty as t return (match t with Boolean => bool | String => list Z | _ => Z end -> ScalarValue.t) with
          | Boolean => ScalarValue.Boolean | Byte => ScalarValue.Byte | Short => ScalarValue.Short
          | Int => ScalarValue.Int | Long => ScalarValue.Long | UByte => ScalarValue.UByte
          | UShort => ScalarValue.UShort | UInt => ScalarValue.UInt | ULong => ScalarValue.ULong
          | Float => ScalarValue.Float | Double => ScalarValue.Double | String => ScalarValue.String
          end) in
        destruct (Hm _ mk un) as (l & -> & Hl);
          [intros [] E; simpl in E; try discriminate E; eexists; (split; [reflexivity|reflexivity])
          |exists (C l); split_and!; [reflexivity|exact Hl|reflexivity]]
    end.
Qed.

Lemma from_to_scalar_values arr :
  TypedScalarArray.from_scalar_values (TypedScalarArray.to_scalar_values arr)
    (TypedScalarArray.scalar_type arr) = Some arr.
Proof.
  assert (Hm : forall A (mk : A -> ScalarValue.t) (un : ScalarValue.t -> option A) l,
    (forall a, un (mk a) = Some a) -> mapM un (mk <$> l) = Some l).
  { intros A mk un l Hun. induction l as [|a l IH]; [done|].
    rewrite fmap_cons. cbn [mapM]. by rewrite Hun, IH. }
  destruct arr; unfold TypedScalarArray.from_scalar_values, TypedScalarArray.to_scalar_values,
    TypedScalarArray.scalar_type; by rewrite Hm.
Qed.

Lemma length_join_fixed size (xss : list (list Z)) :
  Forall (fun b => length b = size) xss -> length (mjoin xss) = (length xss * size)%nat.
Proof.
  induction 1 as [|b xss Hb _ IH]; [done|]. rewrite mjoin_cons, length_app, IH, Hb. simpl. lia.
Qed.

Lemma chunks_join size (xss : list (list Z)) :
  Forall (fun b => length b = size) xss -> chunks size (length xss) (mjoin xss) = xss.
Proof.
  induction 1 as [|b xss Hb _ IH]; [done|]. rewrite mjoin_cons. cbn [chunks length].
  rewrite <- Hb, take_app_length, drop_app_length, Hb, IH. done.
Qed.

Section PodArrays.
Context `{Target}.
Variable host o : ByteOrder.

Lemma read_pod image from size (xs : list Z) rest :
  Forall (fun x => forall oo, length (image x oo) = size /\ from oo (image x oo) = x) xs ->
  len xs * Z.of_nat size <= uint_max usize_bits ->
  read_pod_array host (len xs) size from (bool_decide (is_big host = is_big o)) o
    (mjoin ((fun x => image x o) <$> xs) ++ rest) = Ok (xs, rest).
Proof.
  intros Hx Hu. unfold read_pod_array.
  assert (Hf : Forall (fun b => length b = size) ((fun x => image x o) <$> xs)).
  { apply Forall_fmap. eapply Forall_impl; [exact Hx|]. intros x Hi. apply (Hi o). }
  pose proof (length_join_fixed _ _ Hf) as Hl. rewrite length_fmap in Hl.
  destruct (Z.ltb_spec (uint_max usize_bits) (len xs * Z.of_nat size)); [lia|].
  rewrite length_app, Hl.
  destruct (Z.ltb_spec (Z.of_nat (length xs * size + length rest)) (len xs * Z.of_nat size)); [lia|].
  replace (len xs * Z.of_nat size) with (len (mjoin ((fun x => image x o) <$> xs))) by lia.
  rewrite get_bytes_app. rbind. rewrite Nat2Z.id.
  replace (length xs) with (length ((fun x => image x o) <$> xs)) at 1 by apply length_fmap.
  replace (length xs) with (length ((fun x => image x o) <$> xs)) by apply length_fmap.
  rewrite chunks_join by done.
  assert (Hid : from o <$> ((fun x => image x o) <$> xs) = xs).
  { clear -Hx. induction Hx as [|x xs Hi _ IH]; [done|]. rewrite !fmap_cons. f_equal; [apply Hi|done]. }
  case_bool_decide as Hb; [|by rewrite Hid].
  replace host with o by (by destruct host, o). by rewrite Hid.
Qed.

Lemma uint_image size x oo :
  is_uint (8 * Z.of_nat size) x ->
  length (put_uint size x oo) = size /\ uint_of oo (put_uint size x oo) = x.
Proof.
  intros Hx. split; [apply length_put_uint|].
  pose proof (get_put_uint size oo x [] Hx) as Hg. unfold get_uint in Hg.
  rewrite <- (length_put_uint size x oo) in Hg at 1. rewrite read_exact_app in Hg.
  rbind in Hg. injection Hg as Hg. exact Hg.
Qed.

Lemma sint_image size x oo :
  (0 < size)%nat -> is_sint (8 * Z.of_nat size) x ->
  length (put_sint size x oo) = size /\ sint_of oo (put_sint size x oo) = x.
Proof.
  intros Hs Hx. unfold put_sint.
  destruct (uint_image size (wrap (8 * Z.of_nat size) x) oo) as [Hl Hv]; [apply wrap_range; lia|].
  split; [done|]. unfold sint_of. rewrite Hl, Hv. unfold is_sint in Hx.
  by rewrite swrap_wrap, swrap_small by lia.
Qed.

(** An array that fits the address space, its elements within their types. *)
Definition array_ok (arr : TypedScalarArray.t) : Prop :=
  Forall scalar_ok (TypedScalarArray.to_scalar_values arr) /\
  Z.of_nat (TypedScalarArray.length arr) < 2 ^ 32 /\
  8 * Z.of_nat (TypedScalarArray.length arr) <= uint_max usize_bits.

Lemma reading_ok {A B : Type} (f : A -> B) (r : reader A) cur a cur' :
  r cur = Ok (a, cur') -> reading f r cur = Ok (f a, cur').
Proof. intros Hr. unfold reading. by rewrite Hr. Qed.

Lemma repeat_strings (l : list (list Z)) rest :
  Forall (fun s => len s < 2 ^ 32) l ->
  repeat_reader (reading (default []) (decode_string_value o)) (length l)
    (mjoin ((fun s => encode_string_bytes s o) <$> l) ++ rest) = Ok (l, rest).
Proof.
  induction 1 as [|s l Hs _ IH]; [done|]. rewrite fmap_cons, mjoin_cons.
  cbn [length repeat_reader]. rewrite <- app_assoc.
  erewrite reading_ok by (by apply decode_encode_string_bytes). rbind. by rewrite IH.
Qed.

Lemma join_singletons {A : Type} (f : A -> Z) (l : list A) : mjoin ((fun x => [f x]) <$> l) = f <$> l.
Proof. induction l as [|x l IH]; [done|]. apply (f_equal (cons (f x))), IH. Qed.

(** One byte an element. *)
Lemma read_bytes {A B : Type} (f : A -> Z) (g : Z -> A) (mk : list A -> B) (l : list A) rest :
  Forall (fun x => g (f x) = x) l ->
  reading (fun bytes => mk (g <$> bytes)) (get_bytes (len l)) (mjoin ((fun x => [f x]) <$> l) ++ rest)
  = Ok (mk l, rest).
Proof.
  intros Hg. rewrite join_singletons.
  erewrite reading_ok by (rewrite <- (length_fmap f l); apply get_bytes_app).
  do 3 f_equal. induction Hg as [|x l Hx _ IH]; [done|]. rewrite !fmap_cons. by f_equal.
Qed.

Lemma read_pods {B : Type} image from size (mk : list Z -> B) (xs : list Z) rest :
  Forall (fun x => forall oo, length (image x oo) = size /\ from oo (image x oo) = x) xs ->
  len xs * Z.of_nat size <= uint_max usize_bits ->
  reading mk (read_pod_array host (len xs) size from (bool_decide (is_big host = is_big o)) o)
    (mjoin ((fun x => image x o) <$> xs) ++ rest) = Ok (mk xs, rest).
Proof. intros Hx Hu. apply reading_ok. by apply read_pod. Qed.

Lemma uint_pods {B : Type} size (mk : list Z -> B) (xs : list Z) rest :
  Forall (is_uint (8 * Z.of_nat size)) xs ->
  len xs * Z.of_nat size <= uint_max usize_bits ->
  reading mk (read_pod_array host (len xs) size uint_of (bool_decide (is_big host = is_big o)) o)
    (mjoin ((fun x => put_uint size x o) <$> xs) ++ rest) = Ok (mk xs, rest).
Proof.
  intros Hx Hu. apply read_pods; [|done]. eapply Forall_impl; [exact Hx|].
  intros x ? oo. by apply uint_image.
Qed.

Lemma sint_pods {B : Type} size (mk : list Z -> B) (xs : list Z) rest :
  (0 < size)%nat -> Forall (is_sint (8 * Z.of_nat size)) xs ->
  len xs * Z.of_nat size <= uint_max usize_bits ->
  reading mk (read_pod_array host (len xs) size sint_of (bool_decide (is_big host = is_big o)) o)
    (mjoin ((fun x => put_sint size x o) <$> xs) ++ rest) = Ok (mk xs, rest).
Proof.
  intros Hs Hx Hu. apply read_pods; [|done]. eapply Forall_impl; [exact Hx|].
  intros x ? oo. by apply sint_image.
Qed.

Lemma decode_typed_wire arr rest :
  array_ok arr ->
  decode_typed_scalar_array host (TypedScalarArray.scalar_type arr)
    (Z.of_nat (TypedScalarArray.length arr)) o (encode_typed_scalar_array host arr o ++ rest)
  = Ok (Some arr, rest).
Proof.
  intros (Hok & _ & Hu). rewrite typed_wire.
  assert (Hpod : forall size, (size <= 8)%nat ->
    Z.of_nat (TypedScalarArray.length arr) * Z.of_nat size <= uint_max usize_bits) by (intros; nia).
  destruct arr as [a|a|a|a|a|a|a|a|a|a|a|a]; unfold TypedScalarArray.length in *;
    cbn [TypedScalarArray.to_scalar_values TypedScalarArray.scalar_type decode_typed_scalar_array] in *;
    rewrite ?Forall_fmap in Hok; rewrite <- list_fmap_compose; unfold compose in *.
  - apply (read_bytes (fun b : bool => if b then 1 else 0) (fun b => negb (b =? 0))
      (fun l => Some (TypedScalarArray.Boolean l))).
    apply Forall_true. by intros [].
  - apply (read_bytes (wrap 8) (swrap 8) (fun l => Some (TypedScalarArray.Byte l))).
    eapply Forall_impl; [exact Hok|]. intros x Hx. simpl in Hx. unfold is_sint in Hx.
    by rewrite swrap_wrap, swrap_small by lia.
  - apply (reading_ok (fun l => Some (TypedScalarArray.UByte l))).
    change (mjoin _) with (mjoin ((fun x : Z => [id x]) <$> a)).
    rewrite join_singletons, list_fmap_id. apply get_bytes_app.
  - apply (sint_pods 2 (fun l => Some (TypedScalarArray.Short l))); [lia|exact Hok|apply Hpod; lia].
  - apply (uint_pods 2 (fun l => Some (TypedScalarArray.UShort l))); [exact Hok|apply Hpod; lia].
  - apply (sint_pods 4 (fun l => Some (TypedScalarArray.Int l))); [lia|exact Hok|apply Hpod; lia].
  - apply (uint_pods 4 (fun l => Some (TypedScalarArray.UInt l))); [exact Hok|apply Hpod; lia].
  - apply (sint_pods 8 (fun l => Some (TypedScalarArray.Long l))); [lia|exact Hok|apply Hpod; lia].
  - apply (uint_pods 8 (fun l => Some (TypedScalarArray.ULong l))); [exact Hok|apply Hpod; lia].
  - apply (uint_pods 4 (fun l => Some (TypedScalarArray.Float l))); [exact Hok|apply Hpod; lia].
  - apply (uint_pods 8 (fun l => Some (TypedScalarArray.Double l))); [exact Hok|apply Hpod; lia].
  - apply (reading_ok (fun l => Some (TypedScalarArray.String l))).
    rewrite Nat2Z.id. apply repeat_strings. exact Hok.
Qed.
End PodArrays.

(** ** Well-formed values *)

Lemma Forall_mjoin {A : Type} (Q : A -> Prop) (xss : list (list A)) :
  Forall Q (mjoin xss) <-> Forall (Forall Q) xss.
Proof.
  induction xss as [|x xss IH]; [by rewrite !Forall_nil|].
  by rewrite mjoin_cons, Forall_app, Forall_cons, IH.
Qed.

Section Everywhere.
Variable P : PvField.t -> Prop.

(** [P] of a value and of every value inside it. *)
Fixpoint everywhere (v : PvField.t) : Prop :=
  let of_struct s := foldr (fun '(_, f) Q => everywhere f /\ Q) True (fields s) in
  P v /\
  match v with
  | PvField.Structure s => of_struct s
  | PvField.StructureArray items =>
      foldr (fun it Q => match it with Some s => of_struct s | None => True end /\ Q) True items
  | PvField.Union _ _ w => everywhere w
  | PvField.UnionArray items =>
      foldr (fun it Q => match it with Some it => everywhere (item_value it) | None => True end /\ Q)
        True items
  | PvField.Variant w => everywhere (variant_value w)
  | PvField.VariantArray items =>
      foldr (fun it Q => match it with Some w => everywhere (variant_value w) | None => True end /\ Q)
        True items
  | _ => True
  end.

Lemma foldr_conj {A : Type} (Q : A -> Prop) (l : list A) :
  foldr (fun a R => Q a /\ R) True l <-> Forall Q l.
Proof. induction l as [|a l IH]; simpl; [|rewrite IH]; rewrite ?Forall_cons; split; auto. Qed.

Lemma everywhere_children v : everywhere v <-> P v /\ Forall everywhere (children v).
Proof.
  assert (Hs : forall ms, foldr (fun '((_, f) : list Z * PvField.t) Q => everywhere f /\ Q) True ms
                 <-> Forall everywhere (snd <$> ms)).
  { intros ms. rewrite Forall_fmap, <- foldr_conj.
    induction ms as [|[n f] ms IH]; simpl; [done|]. by rewrite IH. }
  destruct v as [sv|items|arr|s|items|sel n w|items|w|items|]; simpl; apply and_iff_compat_l;
    rewrite ?Forall_nil, ?Forall_singleton; try done.
  - rewrite Forall_mjoin, Forall_fmap, <- foldr_conj.
    induction items as [|[s|] items IH]; simpl; rewrite ?IH, ?Hs, ?Forall_nil; done.
  - rewrite Forall_mjoin, Forall_fmap, <- foldr_conj.
    induction items as [|[s|] items IH]; simpl; rewrite ?IH, ?Forall_singleton, ?Forall_nil; done.
  - rewrite Forall_mjoin, Forall_fmap, <- foldr_conj.
    induction items as [|[s|] items IH]; simpl; rewrite ?IH, ?Forall_singleton, ?Forall_nil; done.
Qed.

Lemma everywhere_here v : everywhere v -> P v.
Proof. rewrite everywhere_children. tauto. Qed.

Lemma everywhere_child v c : everywhere v -> c ∈ children v -> everywhere c.
Proof. rewrite everywhere_children, Forall_forall. intros [_ Hc]. apply Hc. Qed.
End Everywhere.

Lemma child_of_struct (s : struct_t) n f :
  (n, f) ∈ fields s -> f ∈ children (PvField.Structure s).
Proof. intros Hin. simpl. apply list_elem_of_fmap. by exists (n, f). Qed.

Lemma child_of_item items (s : struct_t) n f :
  Some s ∈ items -> (n, f) ∈ fields s -> f ∈ children (PvField.StructureArray items).
Proof.
  intros Hs Hin. simpl. apply list_elem_of_join. exists (snd <$> fields s). split.
  - apply list_elem_of_fmap. by exists (n, f).
  - apply list_elem_of_fmap. by exists (Some s).
Qed.

Lemma child_of_union_item items (it : UnionItem PvField.t) :
  Some it ∈ items -> item_value it ∈ children (PvField.UnionArray items).
Proof.
  intros Hs. simpl. apply list_elem_of_join. exists [item_value it]. split; [constructor|].
  apply list_elem_of_fmap. by exists (Some it).
Qed.

Lemma child_of_any_item items (w : VariantValue PvField.t) :
  Some w ∈ items -> variant_value w ∈ children (PvField.VariantArray items).
Proof.
  intros Hs. simpl. apply list_elem_of_join. exists [variant_value w]. split; [constructor|].
  apply list_elem_of_fmap. by exists (Some w).
Qed.
