(* ===== verification/PvaReadTheory.v ===== *)
(** * What the other side reads

    The bytes [encode_pv_field] writes for any value against any descriptor are read back to
    their last byte, as a value of the descriptor's type; for a value the checker accepts,
    as that value.  The decoder returns values of the descriptor's type and nothing else. *)
From stdpp Require Import base tactics numbers list option strings gmap.
From S2P Require Import Prelude PvaProto PvaProtoTheory PvaText PvaDesc PvaDescTheory PvaValue PvaCheck.
From S2P Require Import PvaValueTheory.

Open Scope Z_scope.

(** ** The type of a value *)

Section Zip.
Context {A : Type}.
Variable f : PvField.t -> A -> bool.
Fixpoint zip_typed (ms : list (list Z * PvField.t)) (fs : list (list Z * A)) : bool :=
  match ms, fs with
  | [], [] => true
  | (n, v) :: ms, (m, d) :: fs => bool_decide (n = m) && f v d && zip_typed ms fs
  | _, _ => false
  end.
End Zip.

(** A selector with the name and a value of the variant it selects. *)
Definition selected (typed : FieldDesc -> bool) (vs : list (list Z * FieldDesc)) (sel : Z)
    (name : list Z) : bool :=
  (0 <=? sel) &&
  match get_at vs sel with
  | Some (n, d) => bool_decide (name = n) && typed d
  | None => false
  end.

(** The values the decoder builds for a descriptor. *)
Fixpoint well_typed (v : PvField.t) (d : FieldDesc) : bool :=
  match v, d with
  | PvField.Scalar sv, Scalar st => bool_decide (scalar_type sv = st)
  | PvField.ScalarArrayTyped arr, ScalarArray st =>
      bool_decide (TypedScalarArray.scalar_type arr = st)
  | PvField.Structure s, Structure id fs =>
      bool_decide (struct_id s = id) && zip_typed well_typed (fields s) fs
  | PvField.StructureArray items, StructureArray id fs =>
      forallb (fun it => match it with
                         | Some s => bool_decide (struct_id s = id)
                                     && zip_typed well_typed (fields s) fs
                         | None => true end) items
  | PvField.Union sel name w, Union _ vs =>
      match w with
      | PvField.Null => bool_decide (sel = -1) && bool_decide (name = [])
      | _ => selected (well_typed w) vs sel name
      end
  | PvField.UnionArray items, UnionArray _ vs =>
      forallb (fun it => match it with
                         | Some it => selected (well_typed (item_value it)) vs
                                        (item_selector it) (item_variant_name it)
                         | None => true end) items
  | PvField.Variant w, Variant =>
      match variant_desc w, variant_value w with
      | None, PvField.Null => true
      | Some d, v => well_typed v d
      | _, _ => false
      end
  | PvField.VariantArray items, VariantArray =>
      forallb (fun it => match it with
                         | Some w => match variant_desc w with
                                     | Some d => well_typed (variant_value w) d
                                     | None => false end
                         | None => true end) items
  | _, _ => false
  end.

Lemma null_untyped d : well_typed PvField.Null d = false.
Proof. by destruct d. Qed.

Lemma union_typed sel name w id vs :
  well_typed (PvField.Union sel name w) (Union id vs) = true <->
  (sel = -1 /\ name = [] /\ w = PvField.Null) \/ selected (well_typed w) vs sel name = true.
Proof.
  assert (Hn : selected (well_typed PvField.Null) vs sel name = false).
  { unfold selected. destruct (get_at vs sel) as [[n d]|]; rewrite ?null_untyped, ?andb_false_r; done. }
  split.
  - destruct w; simpl; intros Hw; try (by right). zbool. left.
    by rewrite !bool_decide_eq_true in *.
  - intros [(-> & -> & ->)|Hs]; [done|]. destruct w; simpl in *; congruence.
Qed.

(** ** The value as it is read

    The members in the descriptor's order, arrays typed, unions and "any"s in the form that
    is sent. *)
Fixpoint as_read (v : PvField.t) (d : FieldDesc) : PvField.t :=
  let members s fs :=
    let ms := (fun '(n, f) => (n, as_read f)) <$> fields s in
    (fun '(n, c) => (n, match find_name n ms with
                        | Some read => read c
                        | None => default_value_for c end)) <$> fs in
  let variant sel w vs :=
    if 0 <=? sel then '(n, c) ← get_at vs sel; Some (n, as_read w c) else None in
  match v, d with
  | PvField.ScalarArray items, ScalarArray st =>
      from_option PvField.ScalarArrayTyped v (TypedScalarArray.from_scalar_values items st)
  | PvField.Structure s, Structure id fs => PvField.Structure (mkPvStructure id (members s fs))
  | PvField.StructureArray items, StructureArray id fs =>
      PvField.StructureArray
        ((fun it => match it with
                    | Some s => Some (mkPvStructure id (members s fs))
                    | None => None end) <$> items)
  | PvField.Union sel _ w, Union _ vs =>
      match variant sel w vs with
      | Some (n, w) => PvField.Union sel n w
      | None => PvField.Union (-1) [] PvField.Null
      end
  | PvField.UnionArray items, UnionArray _ vs =>
      PvField.UnionArray
        ((fun it => match it with
                    | Some it =>
                        match variant (item_selector it) (item_value it) vs with
                        | Some (n, w) => Some (mkUnionItem (item_selector it) n w)
                        | None => None end
                    | None => None end) <$> items)
  | PvField.Variant w, Variant =>
      match variant_desc w with
      | Some d => PvField.Variant (mkVariantValue (Some d) (as_read (variant_value w) d))
      | None => PvField.Variant VariantValue_null
      end
  | PvField.VariantArray items, VariantArray =>
      PvField.VariantArray
        ((fun it => match it with
                    | Some w =>
                        match variant_desc w with
                        | Some d => Some (mkVariantValue (Some d) (as_read (variant_value w) d))
                        | None => None end
                    | None => None end) <$> items)
  | PvField.Null, Variant => PvField.Variant VariantValue_null
  | _, _ => v
  end.

(** Member names are distinct, and the value of an "any" is of the type it carries. *)
Definition sound_here (v : PvField.t) : Prop :=
  match v with
  | PvField.Structure s => NoDup (fields s).*1
  | PvField.StructureArray items =>
      Forall (fun it => match it with Some s => NoDup (fields s).*1 | None => True end) items
  | PvField.Variant w =>
      match variant_desc w with
      | Some d => value_matches_descriptor (variant_value w) d = Ok tt
      | None => True end
  | PvField.VariantArray items =>
      Forall (fun it => match it with
                        | Some w => match variant_desc w with
                                    | Some d => value_matches_descriptor (variant_value w) d = Ok tt
                                    | None => True end
                        | None => True end) items
  | _ => True
  end.
Abbreviation sound := (everywhere sound_here).

(** ** What the wire can carry *)

Section Carried.
Context `{Target}.

Definition desc_fits (rtems : bool) (d : FieldDesc) : Prop :=
  desc_ok d /\ (levels 0 d <= S (MAX_FIELD_DEPTH rtems))%nat /\
  Z.of_nat (node_count d) <= MAX_FIELD_NODES.

Definition scalars_ok (items : list ScalarValue.t) : Prop :=
  Forall scalar_ok items /\ len items < 2 ^ 32 /\ 8 * len items <= uint_max usize_bits.

Definition ok_here (rtems : bool) (v : PvField.t) : Prop :=
  from_option (desc_fits rtems) True (wire_descriptor v) /\
  match v with
  | PvField.Scalar sv => scalar_ok sv
  | PvField.ScalarArray items => scalars_ok items
  | PvField.ScalarArrayTyped arr => array_ok arr
  | PvField.StructureArray items => len items < 2 ^ 32
  | PvField.UnionArray items => len items < 2 ^ 32
  | PvField.Variant w => from_option (desc_fits rtems) True (variant_desc w)
  | PvField.VariantArray items =>
      len items < 2 ^ 32 /\
      Forall (fun it => match it with
                        | Some w => from_option (desc_fits rtems) True (variant_desc w)
                        | None => True end) items
  | _ => True
  end.
Abbreviation value_ok rtems := (everywhere (ok_here rtems)).

(** Everything inside a default is in range. *)
Lemma zero_scalar_ok st : scalar_ok (zero_scalar st) /\ scalar_type (zero_scalar st) = st.
Proof. destruct st; simpl; unfold is_sint, is_uint; split; try done; lia. Qed.
End Carried.
Abbreviation value_ok rtems := (everywhere (ok_here rtems)).

Section Fits.
Context `{Target}.
Variable rtems : bool.

Lemma desc_fits_member d n c : desc_fits rtems d -> (n, c) ∈ members d -> desc_fits rtems c.
Proof.
  intros (Hok & Hl & Hn) Hin. destruct (cacheable d) eqn:Hc;
    [|by destruct d; try done; apply not_elem_of_nil in Hin].
  destruct (desc_ok_compound d Hc Hok) as (_ & _ & Hm).
  rewrite (levels_compound 0 d Hc) in Hl.
  assert (Hd : node_count d = S (child_nodes (members d))) by (by destruct d).
  pose proof (child_below _ _ _ Hin) as Hb.
  apply (max_list_elem (fun '((_, c) : list Z * FieldDesc) => levels 0 c)) in Hin as Hlc.
  unfold members_ok in Hm. rewrite list.Forall_forall in Hm. specialize (Hm _ Hin).
  split_and!; [apply Hm|lia|lia].
Qed.

Lemma desc_fits_small d : desc_fits rtems d -> len (members d) <= 2 ^ 16.
Proof.
  intros (_ & _ & Hn). unfold MAX_FIELD_NODES, uint_max in Hn.
  enough (length (members d) <= node_count d)%nat by lia.
  assert (Hc : forall fs, (length fs <= child_nodes fs)%nat).
  { induction fs as [|[n c] fs IH]; simpl; [lia|]. pose proof (node_count_pos c). lia. }
  pose proof (Hc (members d)). destruct d; simpl in *; lia.
Qed.

Lemma all_named_default fs fs' :
  Forall (fun nc => forall d', wire_descriptor (default_value_for nc.2) = Some d' -> d' = nc.2) fs ->
  all_named wire_descriptor ((fun '(n, c) => (n, default_value_for c)) <$> fs) = Some fs' -> fs' = fs.
Proof.
  intros HF. revert fs'. induction HF as [|[n c] fs Hc _ IH]; intros fs'; simpl.
  - by intros [= <-].
  - destruct (wire_descriptor _) as [d'|] eqn:E; simpl; [|done].
    destruct (all_named _ _) as [rest|] eqn:E2; simpl; [|done]. intros [= <-].
    by rewrite (Hc _ eq_refl), (IH _ eq_refl).
Qed.

(** A default says its descriptor, when it says one. *)
Lemma wire_default d d' : wire_descriptor (default_value_for d) = Some d' -> d' = d.
Proof.
  revert d'. induction d as [d IH] using desc_ind'. intros d'.
  destruct d as [st|st|id fs|id fs|id vs|id vs| |]; simpl; try done.
  - intros [= <-]. by destruct st.
  - destruct (all_named _ _) as [fs'|] eqn:E; simpl; [|done]. intros [= <-].
    f_equal. by apply all_named_default.
  - congruence.
Qed.

Lemma default_ok d : desc_fits rtems d -> value_ok rtems (default_value_for d).
Proof.
  induction d as [d IH] using desc_ind'. intros Hd. apply everywhere_children. split.
  - split.
    + destruct (wire_descriptor _) as [d'|] eqn:E; simpl; [|done].
      apply wire_default in E. by subst.
    + pose proof usize_bits_ge. assert (2 ^ 32 <= 2 ^ usize_bits) by (apply Z.pow_le_mono_r; lia).
      destruct d; simpl; unfold scalars_ok, uint_max; try apply zero_scalar_ok;
        repeat split; try done; simpl; try constructor; lia.
  - destruct d as [| |id fs| | | | |]; simpl; try apply List.Forall_nil;
      [|apply Forall_singleton; repeat split..].
    apply Forall_fmap, Forall_fmap, Forall_forall. intros [n c] Hin. simpl.
    rewrite Forall_forall in IH. apply (IH (n, c) Hin). by eapply desc_fits_member.
Qed.
End Fits.

(** ** Checked values *)

Lemma check_each_ok {A : Type} (f : A -> check_result) l :
  check_each f l = Ok tt <-> Forall (fun a => f a = Ok tt) l.
Proof.
  induction l as [|a l IH]; simpl; [by rewrite Forall_nil|]. rewrite Forall_cons, <- IH.
  destruct (f a) as [[]|e]; rbind; [tauto|]. split; [done|by intros [? _]].
Qed.

Lemma find_name_fmap {A B : Type} (g : A -> B) name (l : list (list Z * A)) :
  find_name name ((fun '(n, a) => (n, g a)) <$> l) = g <$> find_name name l.
Proof.
  induction l as [|[n a] l IH]; [done|]. rewrite fmap_cons. simpl.
  case_bool_decide; [done|apply IH].
Qed.

Lemma find_name_nodup {A : Type} name v (l : list (list Z * A)) i :
  NoDup l.*1 -> l !! i = Some (name, v) -> find_name name l = Some v.
Proof.
  revert i. induction l as [|[n a] l IH]; [done|]. intros i Hnd Hi.
  rewrite fmap_cons in Hnd. apply NoDup_cons in Hnd as [Hn Hnd]. simpl.
  destruct i as [|i]; simpl in Hi.
  - injection Hi as -> ->. by case_bool_decide.
  - case_bool_decide as E; [|by eapply IH]. subst. exfalso. apply Hn.
    apply list_elem_of_fmap. exists (name, v). split; [done|]. by eapply list_elem_of_lookup_2.
Qed.

Lemma member_at_nodup (s : struct_t) i name :
  NoDup (fields s).*1 -> member_at s i name = find_name name (fields s).
Proof.
  intros Hnd. unfold member_at, get_field. destruct (fields s !! i) as [[n v]|] eqn:E; [|done].
  case_bool_decide; [|done]. subst. symmetry. by eapply find_name_nodup.
Qed.

(** The members of a structure the checker accepts: each found by its name, and accepted. *)
Definition members_match (s : struct_t) (fs : list (list Z * FieldDesc)) : Prop :=
  NoDup (fields s).*1 /\
  Forall (fun nc => exists v, find_name nc.1 (fields s) = Some v /\ sound v /\
            value_matches_descriptor v nc.2 = Ok tt) fs.

Abbreviation member_checks s := ((fun '(n, f) => (n, value_matches_descriptor f)) <$> fields s).

Lemma structure_match_members (s : struct_t) fs :
  NoDup (fields s).*1 -> Forall (fun nv => sound nv.2) (fields s) ->
  structure_fields_match (member_checks s) fs = Ok tt -> members_match s fs.
Proof.
  intros Hnd Hs Hm. split; [done|]. unfold structure_fields_match in Hm.
  destruct (check_each _ fs) as [[]|e] eqn:E; [|done]. clear Hm.
  apply check_each_ok in E. eapply Forall_impl; [exact E|]. intros [n c] Hc. simpl in *.
  rewrite find_name_fmap in Hc. destruct (find_name n (fields s)) as [v|] eqn:Ev; [|done].
  exists v. split_and!; [done| |done]. rewrite Forall_forall in Hs.
  apply (Hs (n, v)). by apply find_name_elem.
Qed.

Definition read_members (s : struct_t) (fs : list (list Z * FieldDesc))
    : list (list Z * PvField.t) :=
  (fun '(n, c) => (n, match find_name n ((fun '(n, f) => (n, as_read f)) <$> fields s) with
                      | Some read => read c
                      | None => default_value_for c end)) <$> fs.

(** ** Reading back *)

(** The levels of nesting the decoder goes down for a value. *)
Fixpoint wire_levels (w : PvField.t) : nat :=
  let of_fields ms := max_list_with (fun '(_, f) => wire_levels f) ms in
  match w with
  | PvField.Scalar _ | PvField.ScalarArray _ | PvField.ScalarArrayTyped _ => 1
  | PvField.Structure s => S (of_fields (fields s))
  | PvField.StructureArray items =>
      S (max_list_with (from_option (fun s => S (of_fields (fields s))) O) items)
  | PvField.Union _ _ w => S (wire_levels w)
  | PvField.UnionArray items =>
      S (max_list_with (from_option (fun it => wire_levels (item_value it)) O) items)
  | PvField.Variant w => S (wire_levels (variant_value w))
  | PvField.VariantArray items =>
      S (max_list_with (from_option (fun w => wire_levels (variant_value w)) O) items)
  | PvField.Null => 0
  end.

Abbreviation fields_levels ms :=
  (max_list_with (fun '((_, f) : list Z * PvField.t) => wire_levels f) ms).

(** A scalar copied out is of the type asked for, and in its range. *)
Class ScalarCopyOk `{ScalarCopy} : Prop :=
  copy_out_ok : forall v st w,
    scalar_ok v -> copy_out v st = Some w -> scalar_ok w /\ scalar_type w = st.

Section ReadBack.
Context `{Target} `{ScalarCopyOk}.
Variable rtems : bool.
Variables host o : ByteOrder.

Abbreviation at_level := (decode_pv_field_at rtems host o).

Lemma coerce_ok v st :
  scalar_ok v -> scalar_ok (coerce_scalar v st) /\ scalar_type (coerce_scalar v st) = st.
Proof.
  intros Hv. unfold coerce_scalar. case_bool_decide; [done|].
  destruct (copy_out v st) as [w|] eqn:E; simpl; [by eapply copy_out_ok|apply zero_scalar_ok].
Qed.

(** [r] reads exactly [b], whatever follows, and leaves the cache alone. *)
Definition consumes {A : Type} (r : dec A) (b : list Z) (a : A) : Prop :=
  forall dc rest, r dc (b ++ rest) = (dc, Ok (a, rest)).

Lemma consumes_ret {A : Type} (a : A) : consumes (mret a) [] a.
Proof. done. Qed.

Lemma consumes_bind {A B : Type} (r : dec A) (f : A -> dec B) b c a a' :
  consumes r b a -> consumes (f a) c a' -> consumes (r ≫= f) (b ++ c) a'.
Proof.
  intros Hr Hf dc rest. rewrite <- app_assoc. erewrite dec_bind_ok by apply Hr. apply Hf.
Qed.

Lemma consumes_map {A B : Type} (r : dec A) (g : A -> B) b a :
  consumes r b a -> consumes (r ≫= fun a => mret (g a)) b (g a).
Proof. intros Hr dc rest. by erewrite dec_bind_ok by apply Hr. Qed.

Lemma consumes_lift {A : Type} (r : reader A) b a :
  (forall rest, r (b ++ rest) = Ok (a, rest)) -> consumes (lift r) b a.
Proof. intros Hr dc rest. unfold lift. by rewrite Hr. Qed.

Lemma consumes_size n what :
  Z.of_nat n < 2 ^ 32 ->
  consumes (lift (decode_size_nonnull o what)) (array_size n o) (Z.of_nat n).
Proof.
  intros Hn. apply consumes_lift. intros rest. unfold array_size.
  assert (is_u32 (Z.of_nat n)) by (split; lia).
  rewrite wrap_small by done. by apply decode_encode_size_nonnull.
Qed.

(** What is read back for [v] from [b], at every level that is deep enough for it. *)
Definition reads (v : PvField.t) (d : FieldDesc) (b : list Z) : Prop :=
  exists w, (forall lv, (wire_levels w <= lv)%nat -> consumes (at_level lv d) b w) /\
    well_typed w d = true /\
    (value_matches_descriptor v d = Ok tt -> sound v -> w = as_read v d).

Lemma read_scalar lv sv :
  scalar_ok sv ->
  consumes (at_level (S lv) (Scalar (scalar_type sv))) (encode_scalar_value sv o)
    (PvField.Scalar sv).
Proof.
  intros Hs. cbn [decode_pv_field_at decode_value_step]. apply consumes_map, consumes_lift.
  intros rest. by apply decode_encode_scalar.
Qed.

Lemma read_typed_array lv arr :
  array_ok arr ->
  consumes (at_level (S lv) (ScalarArray (TypedScalarArray.scalar_type arr)))
    (array_size (TypedScalarArray.length arr) o ++ encode_typed_scalar_array host arr o)
    (PvField.ScalarArrayTyped arr).
Proof.
  intros Ha. cbn [decode_pv_field_at decode_value_step].
  eapply consumes_bind; [apply consumes_size; apply Ha|].
  rewrite <- (app_nil_r (encode_typed_scalar_array _ _ _)).
  apply (consumes_bind _ _ _ _ (Some arr)); [|apply consumes_ret].
  apply consumes_lift. intros rest. by apply decode_typed_wire.
Qed.

(** An array sent element by element. *)
Lemma read_scalars lv items st :
  scalars_ok items -> Forall (fun v => scalar_type v = st) items ->
  exists arr, TypedScalarArray.from_scalar_values items st = Some arr /\
    TypedScalarArray.scalar_type arr = st /\
    consumes (at_level (S lv) (ScalarArray st)) (array_size (length items) o ++ scalars_wire items o)
      (PvField.ScalarArrayTyped arr).
Proof.
  intros (Hs & Hl & Hu) Ht. destruct (from_scalar_values_typed _ _ Ht) as (arr & Ha & <- & <-).
  exists arr. split_and!; [done..|]. rewrite <- (typed_wire host), length_to_scalar_values.
  apply read_typed_array. rewrite length_to_scalar_values in *. done.
Qed.

(** *** Members *)

Lemma read_fields enc (s : struct_t) fs i b :
  (forall n v c b, (n, c) ∈ fs -> (n, v) ∈ fields s -> enc v c = Some b -> reads v c b) ->
  (forall n c b, (n, c) ∈ fs -> enc (default_value_for c) c = Some b ->
     reads (default_value_for c) c b) ->
  encode_structure_fields enc s i fs = Some b ->
  exists ms, (forall lv, (fields_levels ms <= lv)%nat ->
                consumes (decode_struct_members (at_level lv) fs) b ms) /\
    zip_typed well_typed ms fs = true /\ (members_match s fs -> ms = read_members s fs).
Proof.
  intros Hm Hd. revert i b. induction fs as [|[n c] fs IH]; cbn [encode_structure_fields]; intros i b Hb.
  - injection Hb as <-. exists []. done.
  - destruct (match member_at s i n with Some v => enc v c | None => _ end) as [b1|] eqn:E1;
      simpl in Hb; [|done].
    destruct (encode_structure_fields enc s (S i) fs) as [b2|] eqn:E2; simpl in Hb; [|done].
    injection Hb as <-.
    assert (Hr : exists w, (forall lv, (wire_levels w <= lv)%nat -> consumes (at_level lv c) b1 w) /\
      well_typed w c = true /\
      (members_match s ((n, c) :: fs) -> (n, w) :: read_members s fs = read_members s ((n, c) :: fs))).
    { destruct (member_at s i n) as [v|] eqn:Ev.
      - destruct (Hm n v c b1) as (w & Hw & Ht & He); [constructor|by eapply member_at_elem|done|].
        exists w. split_and!; [done..|]. intros [Hnd HF]. apply Forall_cons in HF as [(v' & Hv' & Hs & Hc) _].
        rewrite member_at_nodup in Ev by done. simpl in Hv', Hc. simplify_eq.
        unfold read_members. rewrite fmap_cons, find_name_fmap, Ev. simpl. by rewrite He.
      - destruct (Hd n c b1) as (w & Hw & Ht & _); [constructor|done|].
        exists w. split_and!; [done..|]. intros [Hnd HF]. apply Forall_cons in HF as [(v' & Hv' & _) _].
        rewrite member_at_nodup in Ev by done. simpl in Hv'. congruence. }
    destruct Hr as (w & Hw & Ht & He).
    destruct (IH (fun n v c b Hin => Hm n v c b ltac:(by constructor))
      (fun n c b Hin => Hd n c b ltac:(by constructor)) (S i) b2 E2) as (ms & Hms & Hz & Hread).
    exists ((n, w) :: ms). split_and!.
    + intros lv Hlv. simpl in Hlv. cbn [decode_struct_members].
      eapply consumes_bind; [apply Hw; lia|]. cbn beta.
      apply (consumes_map _ (fun rest => (n, w) :: rest)), Hms. lia.
    + simpl. by rewrite bool_decide_eq_true_2, Ht.
    + intros Hmm. rewrite <- He by done. f_equal. apply Hread. destruct Hmm as [? HF].
      split; [done|]. by apply Forall_cons in HF as [_ ?].
Qed.

(** *** Elements *)

Section Elements.
Context {A B : Type}.
Variable f : A -> option (list Z).
Variable elem : nat -> dec (list (option B)).
Variable cost : option B -> nat.
Variable Q : A -> option B -> Prop.

Lemma read_elements (items : list A) bs :
  (forall a b, a ∈ items -> f a = Some b ->
     exists w, (forall lv, (cost w <= lv)%nat -> consumes (elem lv) b [w]) /\ Q a w) ->
  encode_each f items = Some bs ->
  exists ws, (forall lv, (max_list_with cost ws <= lv)%nat ->
                consumes (decode_elements (elem lv) (length items)) bs ws) /\ Forall2 Q items ws.
Proof.
  revert bs. induction items as [|a items IH]; simpl; intros bs Hf Hb.
  - injection Hb as <-. exists []. done.
  - destruct (f a) as [b|] eqn:Ea; simpl in Hb; [|done].
    destruct (encode_each f items) as [bs'|] eqn:Es; simpl in Hb; [|done]. injection Hb as <-.
    destruct (Hf a b) as (w & Hw & HQ); [constructor|done|].
    destruct (IH bs') as (ws & Hws & HF); [intros; eapply Hf; [by constructor|done]|done|].
    exists (w :: ws). split; [|by constructor]. intros lv Hlv. simpl in Hlv.
    eapply consumes_bind; [apply Hw; lia|]. cbn beta.
    apply (consumes_map _ (fun rest => [w] ++ rest)), Hws. lia.
Qed.

Lemma read_array (mk : list (option B) -> PvField.t) what (items : list A) bs :
  len items < 2 ^ 32 ->
  (forall a b, a ∈ items -> f a = Some b ->
     exists w, (forall lv, (cost w <= lv)%nat -> consumes (elem lv) b [w]) /\ Q a w) ->
  encode_each f items = Some bs ->
  exists ws, (forall lv, (max_list_with cost ws <= lv)%nat ->
      consumes (n ← lift (decode_size_nonnull o what);
                items ← decode_elements (elem lv) (Z.to_nat n);
                mret (mk items)) (array_size (length items) o ++ bs) (mk ws))
    /\ Forall2 Q items ws.
Proof.
  intros Hl Hf Hb. destruct (read_elements items bs Hf Hb) as (ws & Hws & HF).
  exists ws. split; [|done]. intros lv Hlv. eapply consumes_bind; [by apply consumes_size|]. cbn beta.
  rewrite Nat2Z.id. by apply consumes_map, Hws.
Qed.
End Elements.

(** The empty array every other value is sent as. *)
Lemma read_empty {B : Type} (elem : dec (list (option B))) (mk : list (option B) -> PvField.t) what :
  consumes (n ← lift (decode_size_nonnull o what);
            items ← decode_elements elem (Z.to_nat n);
            mret (mk items)) (encode_size 0 o) (mk []).
Proof.
  rewrite <- (app_nil_r (encode_size 0 o)).
  eapply consumes_bind; [by apply (consumes_size 0)|]. apply consumes_map, consumes_ret.
Qed.

(** A present element: the byte that says so, then its body. *)
Lemma consumes_present {B : Type} (body : dec (list (option B))) b w :
  consumes body b w -> consumes (decode_present body) (put_u8 0x01 ++ b) w.
Proof.
  intros Hb. apply (consumes_bind _ _ _ _ 1); [|exact Hb].
  apply consumes_lift. intros rest. apply get_u8_cons.
Qed.

Lemma consumes_absent {B : Type} (body : dec (list (option B))) :
  consumes (decode_present body) (put_u8 0x00) [None].
Proof.
  intros dc rest. unfold decode_present. by erewrite dec_bind_lift by apply get_u8_cons.
Qed.

(** *** Unions *)

Definition read_variant {B : Type} (lv : nat) (vs : list (list Z * FieldDesc)) (null : B)
    (mk : Z -> list Z -> PvField.t -> B) : dec B :=
  sel ← lift (decode_size o);
  match sel with
  | None => mret null
  | Some sel_u32 =>
      '(name, vdesc) ← wire_variant vs sel_u32;
      v ← at_level lv vdesc;
      mret (mk (swrap 32 sel_u32) name v)
  end.

Lemma consumes_variant {B : Type} lv vs (null : B) mk idx n c b w :
  0 <= idx < len vs -> len vs <= 2 ^ 16 -> get_at vs idx = Some (n, c) ->
  consumes (at_level lv c) b w ->
  consumes (read_variant lv vs null mk) (encode_size (wrap 32 idx) o ++ b) (mk idx n w).
Proof.
  intros Hi Hl Hg Hw. pose proof usize_bits_ge. assert (is_u32 idx) by (split; lia).
  assert (2 ^ 32 <= 2 ^ usize_bits) by (apply Z.pow_le_mono_r; lia).
  rewrite wrap_small by done.
  apply (consumes_bind _ _ _ _ (Some idx)); [apply consumes_lift; intros; by apply decode_encode_size|].
  cbn beta iota. assert (Hsw : swrap 32 idx = idx) by (apply swrap_small; lia).
  intros dc rest. unfold wire_variant. rewrite Hsw, wrap_small, Hg by (split; lia).
  erewrite dec_bind_ok by done. cbn beta iota. by erewrite dec_bind_ok by apply Hw.
Qed.

Lemma consumes_no_variant {B : Type} lv vs (null : B) mk :
  consumes (read_variant lv vs null mk) (put_u8 0xFF) null.
Proof.
  intros dc rest. unfold read_variant. rewrite (dec_bind_lift _ _ dc _ None rest); [done|].
  cbn [put_u8 app]. unfold decode_size. by rewrite get_u8_cons.
Qed.

(** *** "Any" values *)

Definition read_any {B : Type} (lv : nat) (null : B) (mk : FieldDesc -> PvField.t -> B) : dec B :=
  null_any ← peek_null;
  if null_any : bool then mret null
  else
    inner ← decode_type_desc_cached rtems o;
    v ← at_level lv inner;
    mret (mk inner v).

Lemma type_tag d : exists t b, encode_type_desc o d = t :: b /\ t <> 0xFF.
Proof.
  destruct d as [st|st| | | | | |]; simpl; eexists _, _; (split; [reflexivity|]); try done;
    destruct st; vm_compute; discriminate.
Qed.

Lemma consumes_any {B : Type} lv (null : B) mk d b w :
  desc_fits rtems d -> consumes (at_level lv d) b w ->
  consumes (read_any lv null mk) (encode_type_desc o d ++ b) (mk d w).
Proof.
  intros (Hok & Hl & Hn) Hw dc rest. unfold read_any.
  destruct (type_tag d) as (t & tl & Ht & Hne).
  assert (Hp : peek_null dc ((encode_type_desc o d ++ b) ++ rest)
               = (dc, Ok (false, (encode_type_desc o d ++ b) ++ rest))).
  { unfold peek_null. rewrite Ht. cbn [app]. rewrite get_u8_cons.
    by destruct (Z.eqb_spec t 0xFF). }
  erewrite dec_bind_ok by exact Hp. cbn iota. rewrite <- app_assoc.
  erewrite dec_bind_ok by (by apply decode_inline). by erewrite dec_bind_ok by apply Hw.
Qed.

Lemma consumes_no_any {B : Type} lv (null : B) mk : consumes (read_any lv null mk) (put_u8 0xFF) null.
Proof.
  intros dc rest. unfold read_any. rewrite (dec_bind_ok _ _ dc _ dc true rest); [done|].
  unfold peek_null. cbn [put_u8 app]. by rewrite get_u8_cons.
Qed.

(** *** One call *)

(** The calls below read back. *)
Definition reads_below (enc : PvField.t -> FieldDesc -> option (list Z)) : Prop :=
  forall v d b, enc v d = Some b -> value_ok rtems v -> desc_fits rtems d -> reads v d b.

Lemma read_fields_below enc (s : struct_t) d b :
  reads_below enc -> desc_fits rtems d -> Forall (fun nv => value_ok rtems nv.2) (fields s) ->
  encode_structure_fields enc s 0 (members d) = Some b ->
  exists ms, (forall lv, (fields_levels ms <= lv)%nat ->
                consumes (decode_struct_members (at_level lv) (members d)) b ms) /\
    zip_typed well_typed ms (members d) = true /\
    (members_match s (members d) -> ms = read_members s (members d)).
Proof.
  intros Hb Hd Hok. apply read_fields.
  - intros n v c b' Hc Hv He. apply (Hb _ _ _ He).
    + rewrite Forall_forall in Hok. apply (Hok (n, v) Hv).
    + by eapply desc_fits_member.
  - intros n c b' Hc He. assert (desc_fits rtems c) by (by eapply desc_fits_member).
    apply (Hb _ _ _ He); [by apply default_ok|done].
Qed.

Lemma members_everywhere (P : PvField.t -> Prop) (s : struct_t) v :
  everywhere P v -> (forall n f, (n, f) ∈ fields s -> f ∈ children v) ->
  Forall (fun nv => everywhere P nv.2) (fields s).
Proof.
  intros Hv Hc. apply Forall_forall. intros [n f] Hin. simpl. eapply everywhere_child; [done|by eapply Hc].
Qed.
Lemma reads_scalar v st sv :
  scalar_ok sv -> scalar_type sv = st ->
  (value_matches_descriptor v (Scalar st) = Ok tt -> v = PvField.Scalar sv) ->
  reads v (Scalar st) (encode_scalar_value sv o).
Proof.
  intros Hs <- Hv. exists (PvField.Scalar sv). split_and!.
  - intros [|lv] Hlv; [simpl in Hlv; lia|]. by apply read_scalar.
  - simpl. by rewrite bool_decide_eq_true_2.
  - intros Hm _. by rewrite (Hv Hm).
Qed.

Lemma step_scalar enc v st b :
  value_ok rtems v -> encode_step host o enc v (Scalar st) = Some b -> reads v (Scalar st) b.
Proof.
  intros Hok%everywhere_here He. destruct Hok as [_ Hok].
  destruct v as [sv| | | | | | | | |]; cbn [encode_step encode_pv_field_generic] in He;
    [|injection He as <-; apply reads_scalar; [apply zero_scalar_ok..|done]..].
  case_bool_decide as Ht; injection He as <-; apply reads_scalar; try done;
    [apply coerce_ok; done..|]. simpl. by rewrite bool_decide_eq_false_2.
Qed.

Lemma reads_array v st items arr :
  scalars_ok items -> Forall (fun v => scalar_type v = st) items ->
  TypedScalarArray.from_scalar_values items st = Some arr ->
  (value_matches_descriptor v (ScalarArray st) = Ok tt ->
     as_read v (ScalarArray st) = PvField.ScalarArrayTyped arr) ->
  reads v (ScalarArray st) (array_size (length items) o ++ scalars_wire items o).
Proof.
  intros Hs Ht Ha Hv. exists (PvField.ScalarArrayTyped arr).
  assert (Hty : TypedScalarArray.scalar_type arr = st).
  { destruct (read_scalars 0 items st Hs Ht) as (arr' & Ha' & Hty & _). congruence. }
  split_and!.
  - intros [|lv] Hlv; [simpl in Hlv; lia|].
    destruct (read_scalars lv items st Hs Ht) as (arr' & Ha' & _ & Hc). by simplify_eq.
  - simpl. by rewrite bool_decide_eq_true_2.
  - intros Hm _. by rewrite Hv.
Qed.

Lemma coerced_scalars items st :
  scalars_ok items ->
  scalars_ok ((fun v => coerce_scalar v st) <$> items) /\
  Forall (fun v => scalar_type v = st) ((fun v => coerce_scalar v st) <$> items).
Proof.
  intros (Hs & Hl & Hu). unfold scalars_ok. rewrite length_fmap, !Forall_fmap.
  split_and!; try done; (eapply Forall_impl; [exact Hs|]); intros v Hv; apply coerce_ok, Hv.
Qed.

(** Whatever the array, its elements coerced are an array of the descriptor's type. *)
Lemma reads_coerced v st items :
  scalars_ok items -> value_matches_descriptor v (ScalarArray st) <> Ok tt ->
  reads v (ScalarArray st) (encode_scalars o items st).
Proof.
  intros Hs Hne. destruct (coerced_scalars items st Hs) as [Hc Ht].
  destruct (from_scalar_values_typed _ _ Ht) as (arr & Ha & _).
  unfold encode_scalars. rewrite <- (length_fmap (fun v => coerce_scalar v st) items).
  change (fun v => encode_scalar_value (coerce_scalar v st) o)
    with ((fun v => encode_scalar_value v o) ∘ (fun v => coerce_scalar v st)).
  rewrite list_fmap_compose. by eapply reads_array.
Qed.

Lemma find_other_none st items :
  find_other st items = None <-> Forall (fun v => scalar_type v = st) items.
Proof.
  induction items as [|v items IH]; simpl; [by rewrite Forall_nil|]. rewrite Forall_cons.
  case_bool_decide; [rewrite IH; tauto|]. split; [done|tauto].
Qed.

Lemma forallb_typed st items :
  forallb (fun v => bool_decide (scalar_type v = st)) items = true <->
  Forall (fun v => scalar_type v = st) items.
Proof.
  induction items as [|v items IH]; simpl; [by rewrite Forall_nil|].
  rewrite andb_true_iff, Forall_cons, IH, bool_decide_eq_true. done.
Qed.

Lemma nil_scalars_ok : scalars_ok [].
Proof.
  unfold scalars_ok, uint_max. simpl. pose proof usize_bits_ge.
  assert (2 ^ 32 <= 2 ^ usize_bits) by (apply Z.pow_le_mono_r; lia).
  split_and!; [constructor|lia|lia].
Qed.

Lemma reads_empty_array v st :
  value_matches_descriptor v (ScalarArray st) <> Ok tt ->
  reads v (ScalarArray st) (encode_size 0 o).
Proof.
  intros Hne. destruct (from_scalar_values_typed [] st) as (arr & Ha & _); [constructor|].
  rewrite <- (app_nil_r (encode_size 0 o)).
  apply (reads_array v st [] arr nil_scalars_ok); [constructor|done|done].
Qed.

Lemma step_array enc v st b :
  value_ok rtems v -> encode_step host o enc v (ScalarArray st) = Some b ->
  reads v (ScalarArray st) b.
Proof.
  intros Hok%everywhere_here He. destruct Hok as [_ Hok].
  destruct v as [|items|arr| | | | | | |]; cbn [encode_step encode_pv_field_generic] in He;
    try (injection He as <-; by apply reads_empty_array).
  - destruct (forallb _ items) eqn:Hf; injection He as <-.
    + apply forallb_typed in Hf. destruct (from_scalar_values_typed _ _ Hf) as (arr & Ha & _).
      eapply reads_array; [done..|]. simpl. by rewrite Ha.
    + apply reads_coerced; [done|]. simpl.
      destruct (find_other st items) eqn:E; [done|]. apply find_other_none, forallb_typed in E. congruence.
  - destruct Hok as (Hs & Hl & Hu). rewrite <- length_to_scalar_values in Hl, Hu.
    case_bool_decide as Ht; injection He as <-.
    + rewrite typed_wire, <- length_to_scalar_values.
      apply (reads_array _ _ _ arr); [done| |rewrite <- Ht; apply from_to_scalar_values|done].
      rewrite <- Ht. apply typed_elements.
    + apply reads_coerced; [done|]. simpl. by rewrite bool_decide_eq_false_2.
Qed.

(** Structures. *)

Lemma generic_fields enc id fs :
  encode_each (fun '(_, c) => enc (default_value_for c) c) fs
  = encode_structure_fields enc (PvStructure_new id) 0 fs.
Proof.
  generalize 0%nat. induction fs as [|[n c] fs IH]; intros i; simpl; [done|].
  unfold member_at. simpl. by rewrite <- IH.
Qed.

Lemma step_structure enc v id fs b :
  reads_below enc -> value_ok rtems v -> desc_fits rtems (Structure id fs) ->
  encode_step host o enc v (Structure id fs) = Some b -> reads v (Structure id fs) b.
Proof.
  intros Hb Hok Hd He.
  assert (Hs : exists s, encode_structure_fields enc s 0 fs = Some b /\
    Forall (fun nv => value_ok rtems nv.2) (fields s) /\
    (value_matches_descriptor v (Structure id fs) = Ok tt -> v = PvField.Structure s)).
  { destruct v as [| | |s| | | | | |]; cbn [encode_step encode_pv_field_generic] in He;
      try (exists (PvStructure_new id); rewrite <- generic_fields; split_and!; [done|constructor|done]).
    exists s. split_and!; [done| |done]. apply (members_everywhere _ _ _ Hok), child_of_struct. }
  destruct Hs as (s & Hs & Hf & Hv).
  destruct (read_fields_below enc s (Structure id fs) b Hb Hd Hf Hs) as (ms & Hms & Hz & Hr).
  exists (PvField.Structure (mkPvStructure id ms)). split_and!.
  - intros [|lv] Hlv; [simpl in Hlv; lia|]. simpl in Hlv.
    apply (consumes_map _ (fun ms => PvField.Structure (mkPvStructure id ms))), Hms. lia.
  - simpl. rewrite bool_decide_eq_true_2 by done. exact Hz.
  - intros Hm Hsd. specialize (Hv Hm). subst. simpl in Hm. case_bool_decide; [|done].
    simpl. rewrite Hr; [done|]. apply structure_match_members; [apply (everywhere_here _ _ Hsd)| |done].
    apply (members_everywhere _ _ _ Hsd), child_of_struct.
Qed.

(** Arrays of optional elements: what is read follows element by element. *)
Lemma forall2_forallb {A B : Type} (P : B -> bool) (Q : A -> B -> Prop) (l : list A) (k : list B) :
  (forall a b, Q a b -> P b = true) -> Forall2 Q l k -> forallb P k = true.
Proof. intros HP HF. induction HF as [|a b l k Hab _ IH]; [done|]. simpl. by rewrite IH, (HP _ _ Hab). Qed.

Lemma forall2_fmap {A B : Type} (g : A -> B) (P : A -> Prop) (Q : A -> B -> Prop) (l : list A) (k : list B) :
  (forall a b, Q a b -> P a -> b = g a) -> Forall P l -> Forall2 Q l k -> k = g <$> l.
Proof.
  intros Hg HP HF. induction HF as [|a b l k Hab _ IH]; [done|].
  apply Forall_cons in HP as [Ha HP]. rewrite fmap_cons, <- IH, (Hg _ _ Hab Ha) by done. done.
Qed.

Definition struct_element (id : list Z) (fs : list (list Z * FieldDesc)) (w : option struct_t) : bool :=
  match w with
  | Some s => bool_decide (struct_id s = id) && zip_typed well_typed (fields s) fs
  | None => true
  end.

Definition struct_read (id : list Z) (fs : list (list Z * FieldDesc)) (it : option struct_t)
    : option struct_t :=
  match it with Some s => Some (mkPvStructure id (read_members s fs)) | None => None end.

Definition struct_checked (fs : list (list Z * FieldDesc)) (it : option struct_t) : Prop :=
  match it with Some s => members_match s fs | None => True end.

Definition struct_wire enc (fs : list (list Z * FieldDesc)) (it : option struct_t) : option (list Z) :=
  match it with
  | None => Some (put_u8 0x00)
  | Some s => b ← encode_structure_fields enc s 0 fs; Some (put_u8 0x01 ++ b)
  end.

Definition read_struct (lv : nat) (id : list Z) (fs : list (list Z * FieldDesc))
    : dec (list (option struct_t)) :=
  v ← at_level lv (Structure id fs);
  mret (match v with PvField.Structure s => [Some s] | _ => [] end).

Lemma read_struct_element enc id fs it b :
  reads_below enc -> desc_fits rtems (StructureArray id fs) ->
  (forall s, it = Some s -> Forall (fun nv => value_ok rtems nv.2) (fields s)) ->
  struct_wire enc fs it = Some b ->
  exists w, (forall lv, (from_option (fun s : struct_t => S (fields_levels (fields s))) O w <= lv)%nat ->
      consumes (decode_present (read_struct lv id fs)) b [w]) /\
    (struct_element id fs w = true /\ (struct_checked fs it -> w = struct_read id fs it)).
Proof.
  intros Hb Hd Hok He. unfold struct_wire in He.
  destruct it as [s|]; [|injection He as <-; exists None; split; [intros; apply consumes_absent|done]].
  destruct (encode_structure_fields enc s 0 fs) as [b1|] eqn:E1; simpl in He; [|done].
  injection He as <-.
  destruct (read_fields_below enc s (StructureArray id fs) b1) as (ms & Hms & Hz & Hr); [done..|by apply Hok|done|].
  exists (Some (mkPvStructure id ms)). split_and!.
  - intros [|lv] Hlv; [simpl in Hlv; lia|]. simpl in Hlv. apply consumes_present.
    apply (consumes_map (at_level (S lv) (Structure id fs))
      (fun v => match v with PvField.Structure s => [Some s] | _ => [] end) b1
      (PvField.Structure (mkPvStructure id ms))).
    apply (consumes_map _ (fun ms => PvField.Structure (mkPvStructure id ms))), Hms. lia.
  - simpl. by rewrite bool_decide_eq_true_2.
  - intros Hm. simpl. by rewrite Hr.
Qed.

Lemma step_structure_array enc v id fs b :
  reads_below enc -> value_ok rtems v -> desc_fits rtems (StructureArray id fs) ->
  encode_step host o enc v (StructureArray id fs) = Some b -> reads v (StructureArray id fs) b.
Proof.
  intros Hb Hok Hd He.
  destruct v as [| | | |items| | | | |]; cbn [encode_step encode_pv_field_generic] in He;
    try (injection He as <-; exists (PvField.StructureArray []); split_and!; try done;
         intros [|lv] Hlv; [simpl in Hlv; lia|]; apply read_empty).
  change (encode_each _ items) with (encode_each (struct_wire enc fs) items) in He.
  destruct (encode_each (struct_wire enc fs) items) as [bs|] eqn:Eb; simpl in He; [|done].
  injection He as <-.
  destruct (read_array (struct_wire enc fs) (fun lv => decode_present (read_struct lv id fs))
      (from_option (fun s : struct_t => S (fields_levels (fields s))) O)
      (fun it w => struct_element id fs w = true /\ (struct_checked fs it -> w = struct_read id fs it))
      PvField.StructureArray "structure array length" items bs)
    as (ws & Hws & HF); [apply (everywhere_here _ _ Hok)| |exact Eb|].
  { intros it b Hin. apply read_struct_element; [done..|]. intros s ->.
    apply (members_everywhere _ _ _ Hok). intros. by eapply child_of_item. }
  exists (PvField.StructureArray ws). split_and!.
  - intros [|lv] Hlv; [simpl in Hlv; lia|]. apply Hws. simpl in Hlv. lia.
  - simpl. apply (forall2_forallb (struct_element id fs)) in HF; [exact HF|by intros ? ? [? _]].
  - intros Hm Hsd. change (as_read (PvField.StructureArray items) (StructureArray id fs))
      with (PvField.StructureArray (struct_read id fs <$> items)). f_equal.
    simpl in Hm. apply check_each_ok in Hm. pose proof (everywhere_here _ _ Hsd) as Hnd. simpl in Hnd.
    apply (forall2_fmap (struct_read id fs) (struct_checked fs)) in HF; [done|by intros a b [_ ?]|].
    apply Forall_forall. intros [s|] Hin; [|done]. rewrite Forall_forall in Hm, Hnd.
    specialize (Hm _ Hin). specialize (Hnd _ Hin). simpl in Hm, Hnd. case_bool_decide; [|done].
    apply structure_match_members; [done| |done].
    apply (members_everywhere _ _ _ Hsd). intros. by eapply child_of_item.
Qed.

(** Unions. *)

Lemma reads_union v id vs sel n c w b :
  desc_fits rtems (Union id vs) -> 0 <= sel < len vs -> get_at vs sel = Some (n, c) ->
  (forall lv, (wire_levels w <= lv)%nat -> consumes (at_level lv c) b w) -> well_typed w c = true ->
  (value_matches_descriptor v (Union id vs) = Ok tt -> sound v ->
     as_read v (Union id vs) = PvField.Union sel n w) ->
  reads v (Union id vs) (encode_size (wrap 32 sel) o ++ b).
Proof.
  intros Hd Hs Hg Hw Ht Hv. exists (PvField.Union sel n w). split_and!.
  - intros [|lv] Hlv; [simpl in Hlv; lia|]. simpl in Hlv.
    apply (consumes_variant lv vs (PvField.Union (-1) [] PvField.Null) PvField.Union sel n c);
      [done|apply (desc_fits_small rtems _ Hd)|done|apply Hw; lia].
  - apply union_typed. right. unfold selected. rewrite Hg, Ht, bool_decide_eq_true_2 by done.
    by destruct (Z.leb_spec 0 sel); [|lia].
  - intros Hm Hsd. by rewrite Hv.
Qed.

Lemma reads_null_union v id vs :
  (value_matches_descriptor v (Union id vs) = Ok tt ->
     as_read v (Union id vs) = PvField.Union (-1) [] PvField.Null) ->
  reads v (Union id vs) (put_u8 0xFF).
Proof.
  intros Hv. exists (PvField.Union (-1) [] PvField.Null). split_and!; [|done|].
  - intros [|lv] Hlv; [simpl in Hlv; lia|].
    apply (consumes_no_variant lv vs (PvField.Union (-1) [] PvField.Null) PvField.Union).
  - intros Hm _. by rewrite Hv.
Qed.

(** A selector the checker accepts. *)
Lemma checked_selector sel check vs idx c :
  check_union_selector sel check vs = Ok tt -> select vs sel = Some (idx, c) -> check c = Ok tt.
Proof.
  unfold check_union_selector. intros Hc Hs. apply select_elem in Hs as (_ & Hr & n & _ & Hg).
  rewrite Hg in Hc. by destruct (Z.ltb_spec sel 0); [lia|].
Qed.

Lemma unselected sel check vs :
  check_union_selector sel check vs = Ok tt -> select vs sel = None -> sel < 0.
Proof.
  unfold check_union_selector, select. destruct (Z.ltb_spec sel 0); [done|].
  destruct (Z.leb_spec 0 sel); [|lia]. by destruct (get_at vs sel) as [[]|].
Qed.

Lemma step_union enc v id vs b :
  reads_below enc -> value_ok rtems v -> desc_fits rtems (Union id vs) ->
  encode_step host o enc v (Union id vs) = Some b -> reads v (Union id vs) b.
Proof.
  intros Hb Hok Hd He.
  assert (Hg : forall b, encode_pv_field_generic o enc v (Union id vs) = Some b ->
    value_matches_descriptor v (Union id vs) <> Ok tt -> reads v (Union id vs) b).
  { clear b He. intros b He Hne. cbn [encode_pv_field_generic] in He.
    assert (Hn : Some (put_u8 255) = Some b -> reads v (Union id vs) b).
    { intros [= <-]. by apply reads_null_union. }
    destruct (position (fun '((_, vd) : list Z * FieldDesc) => value_fits_desc v vd) vs)
      as [i|] eqn:Ep; [|destruct v; by apply Hn].
    apply position_spec in Ep as ([n c] & Hi & _). rewrite Hi in He. simpl in He.
    destruct (enc v c) as [b1|] eqn:E1; simpl in He; [|destruct v; by apply Hn || done].
    assert (He' : Some (encode_size (wrap 32 (Z.of_nat i)) o ++ b1) = Some b \/ Some (put_u8 255) = Some b)
      by (destruct v; auto). destruct He' as [[= <-]|]; [|by apply Hn].
    destruct (Hb v c b1 E1 Hok) as (w & Hw & Ht & _).
    { eapply desc_fits_member; [exact Hd|]. by eapply list_elem_of_lookup_2. }
    apply lookup_lt_Some in Hi as Hlt.
    eapply reads_union; [done|lia| |done..]. unfold get_at.
    destruct (Z.ltb_spec (Z.of_nat i) (len vs)); [by rewrite Nat2Z.id|lia]. }
  destruct v as [| | | | |sel name w0| | | |]; cbn [encode_step] in He; try (by apply Hg).
  destruct (select vs sel) as [[idx c]|] eqn:Es.
  - pose proof Es as Hsel. apply select_elem in Es as (-> & Hr & n & Hin & Hget).
    destruct (enc w0 c) as [b1|] eqn:E1; simpl in He; [|done]. injection He as <-.
    destruct (Hb w0 c b1 E1) as (w & Hw & Ht & Hread).
    { eapply everywhere_child; [exact Hok|]. constructor. }
    { by eapply desc_fits_member. }
    eapply reads_union; [done..|]. intros Hm Hsd. simpl.
    destruct (Z.leb_spec 0 sel); [|lia]. rewrite Hget. simpl.
    rewrite Hread; [done| |eapply everywhere_child; [exact Hsd|constructor]].
    by eapply checked_selector.
  - injection He as <-. apply reads_null_union. intros Hm. simpl.
    pose proof (unselected _ _ _ Hm Es). by destruct (Z.leb_spec 0 sel); [lia|].
Qed.

Definition union_element (vs : list (list Z * FieldDesc)) (w : option (UnionItem PvField.t)) : bool :=
  match w with
  | Some it => selected (well_typed (item_value it)) vs (item_selector it) (item_variant_name it)
  | None => true
  end.

(** What an element of a union array is read as. *)
Definition union_read (vs : list (list Z * FieldDesc)) (it : option (UnionItem PvField.t))
    : option (UnionItem PvField.t) :=
  it ← it;
  '(n, w) ← (if 0 <=? item_selector it
             then '(n, c) ← get_at vs (item_selector it); Some (n, as_read (item_value it) c)
             else None);
  Some (mkUnionItem (item_selector it) n w).

Lemma union_read_unfold id vs items :
  as_read (PvField.UnionArray items) (UnionArray id vs)
  = PvField.UnionArray (union_read vs <$> items).
Proof. reflexivity. Qed.

(** An element of a union array the checker accepts. *)
Definition union_checked (vs : list (list Z * FieldDesc)) (it : option (UnionItem PvField.t)) : Prop :=
  match it with
  | Some it => sound (item_value it) /\
      check_union_selector (item_selector it) (value_matches_descriptor (item_value it)) vs = Ok tt
  | None => True
  end.

Definition union_wire enc (vs : list (list Z * FieldDesc)) (it : option (UnionItem PvField.t))
    : option (list Z) :=
  match (it ← it; '(idx, vd) ← select vs (item_selector it); Some (idx, item_value it, vd)) with
  | Some (idx, value, vd) =>
      b ← enc value vd; Some (put_u8 0x01 ++ encode_size (wrap 32 idx) o ++ b)
  | None => Some (put_u8 0x00)
  end.

Lemma read_union_element enc id vs it b :
  reads_below enc -> desc_fits rtems (UnionArray id vs) ->
  (forall x, it = Some x -> value_ok rtems (item_value x)) ->
  union_wire enc vs it = Some b ->
  exists w, (forall lv, (from_option (fun it => wire_levels (item_value it)) O w <= lv)%nat ->
      consumes (decode_present (read_variant lv vs [None] (fun s n v => [Some (mkUnionItem s n v)])))
        b [w]) /\
    (union_element vs w = true /\ (union_checked vs it -> w = union_read vs it)).
Proof.
  intros Hb Hd Hok He. unfold union_wire in He.
  destruct it as [it|]; simpl in He;
    [|injection He as <-; exists None; split; [intros; apply consumes_absent|done]].
  destruct (select vs (item_selector it)) as [[idx c]|] eqn:Es; simpl in He.
  - pose proof Es as Hsel. apply select_elem in Es as (-> & Hr & n & Hin & Hget).
    destruct (enc (item_value it) c) as [b1|] eqn:E1; simpl in He; [|done]. injection He as <-.
    destruct (Hb _ c b1 E1) as (w & Hw & Ht & Hread); [by apply Hok|by eapply desc_fits_member|].
    exists (Some (mkUnionItem (item_selector it) n w)). split_and!.
    + intros lv Hlv. apply consumes_present.
      apply (consumes_variant lv vs [None] (fun s n v => [Some (mkUnionItem s n v)]) _ n c);
        [done|apply (desc_fits_small rtems _ Hd)|done|by apply Hw].
    + simpl. unfold selected. rewrite Hget, Ht, bool_decide_eq_true_2 by done.
      by destruct (Z.leb_spec 0 (item_selector it)); [|lia].
    + intros [Hsd Hc]. unfold union_read. simpl. destruct (Z.leb_spec 0 (item_selector it)); [|lia].
      rewrite Hget. simpl. rewrite Hread; [done| |done]. by eapply checked_selector.
  - injection He as <-. exists None. split_and!; [intros; apply consumes_absent|done|].
    intros [_ Hc]. pose proof (unselected _ _ _ Hc Es). unfold union_read. simpl.
    by destruct (Z.leb_spec 0 (item_selector it)); [lia|].
Qed.

Lemma step_union_array enc v id vs b :
  reads_below enc -> value_ok rtems v -> desc_fits rtems (UnionArray id vs) ->
  encode_step host o enc v (UnionArray id vs) = Some b -> reads v (UnionArray id vs) b.
Proof.
  intros Hb Hok Hd He.
  destruct v as [| | | | | |items| | |]; cbn [encode_step encode_pv_field_generic] in He;
    try (injection He as <-; exists (PvField.UnionArray []); split_and!; try done;
         intros [|lv] Hlv; [simpl in Hlv; lia|]; apply read_empty).
  change (encode_each _ items) with (encode_each (union_wire enc vs) items) in He.
  destruct (encode_each (union_wire enc vs) items) as [bs|] eqn:Eb; simpl in He; [|done].
  injection He as <-.
  destruct (read_array (union_wire enc vs)
      (fun lv => decode_present (read_variant lv vs [None] (fun s n v => [Some (mkUnionItem s n v)])))
      (from_option (fun it => wire_levels (item_value it)) O)
      (fun it w => union_element vs w = true /\ (union_checked vs it -> w = union_read vs it))
      PvField.UnionArray "union array length" items bs)
    as (ws & Hws & HF); [apply (everywhere_here _ _ Hok)| |exact Eb|].
  { intros it b Hin. apply (read_union_element enc id); [done..|]. intros x ->.
    eapply everywhere_child; [exact Hok|by apply child_of_union_item]. }
  exists (PvField.UnionArray ws). split_and!.
  - intros [|lv] Hlv; [simpl in Hlv; lia|]. apply Hws. simpl in Hlv. lia.
  - simpl. apply (forall2_forallb (union_element vs)) in HF; [exact HF|by intros ? ? [? _]].
  - intros Hm Hsd. rewrite union_read_unfold. f_equal. simpl in Hm. apply check_each_ok in Hm.
    apply (forall2_fmap (union_read vs) (union_checked vs)) in HF; [done|by intros a b [_ ?]|].
    apply Forall_forall. intros [it|] Hin; [|done]. rewrite Forall_forall in Hm. split.
    + eapply everywhere_child; [exact Hsd|by apply child_of_union_item].
    + apply (Hm _ Hin).
Qed.

(** "Any" values. *)

Lemma reads_any v d b :
  desc_fits rtems d ->
  (exists w, (forall lv, (wire_levels w <= lv)%nat -> consumes (at_level lv d) b w) /\
     well_typed w d = true /\
     (value_matches_descriptor v Variant = Ok tt -> sound v ->
        as_read v Variant = PvField.Variant (mkVariantValue (Some d) w))) ->
  reads v Variant (encode_type_desc o d ++ b).
Proof.
  intros Hd (w & Hw & Ht & Hv). exists (PvField.Variant (mkVariantValue (Some d) w)). split_and!.
  - intros [|lv] Hlv; [simpl in Hlv; lia|]. simpl in Hlv.
    apply (consumes_any lv (PvField.Variant VariantValue_null)
      (fun d v => PvField.Variant (mkVariantValue (Some d) v))); [done|apply Hw; lia].
  - exact Ht.
  - intros Hm Hsd. by rewrite Hv.
Qed.

Lemma reads_null_any v :
  (value_matches_descriptor v Variant = Ok tt -> as_read v Variant = PvField.Variant VariantValue_null) ->
  reads v Variant (put_u8 0xFF).
Proof.
  intros Hv. exists (PvField.Variant VariantValue_null). split_and!; [|done|].
  - intros [|lv] Hlv; [simpl in Hlv; lia|].
    apply (consumes_no_any lv (PvField.Variant VariantValue_null)
      (fun d v => PvField.Variant (mkVariantValue (Some d) v))).
  - intros Hm _. by rewrite Hv.
Qed.

Lemma step_variant enc v b :
  reads_below enc -> value_ok rtems v ->
  encode_step host o enc v Variant = Some b -> reads v Variant b.
Proof.
  intros Hb Hok He.
  assert (Hg : encode_pv_field_generic o enc v Variant = Some b ->
    (value_matches_descriptor v Variant = Ok tt -> v = PvField.Null) -> reads v Variant b).
  { clear He. intros He Hne. cbn [encode_pv_field_generic] in He.
    assert (Hn : Some (put_u8 255) = Some b -> reads v Variant b).
    { intros [= <-]. apply reads_null_any. intros Hm. by rewrite (Hne Hm). }
    destruct (wire_descriptor v) as [d|] eqn:Ew; [|destruct v; by apply Hn].
    destruct (enc v d) as [b1|] eqn:E1; simpl in He; [|destruct v; by apply Hn || done].
    assert (He' : Some (encode_type_desc o d ++ b1) = Some b) by (destruct v; done).
    injection He' as <-. pose proof (everywhere_here _ _ Hok) as [Hd _]. rewrite Ew in Hd. simpl in Hd.
    apply reads_any; [done|]. destruct (Hb v d b1 E1 Hok Hd) as (w & Hw & Ht & _).
    exists w. split_and!; [done..|]. intros Hm. rewrite (Hne Hm) in Ew. done. }
  destruct v as [| | | | | | |[[d|] w0]| |]; cbn [encode_step] in He; try (by apply Hg).
  - cbn [variant_desc variant_value] in He. destruct (enc w0 d) as [b1|] eqn:E1; simpl in He; [|done].
    injection He as <-. pose proof (everywhere_here _ _ Hok) as [_ Hd]. simpl in Hd.
    apply reads_any; [done|]. destruct (Hb w0 d b1 E1) as (w & Hw & Ht & Hr); [|done|].
    { eapply everywhere_child; [exact Hok|]. constructor. }
    exists w. split_and!; [done..|]. intros _ Hsd. simpl.
    rewrite Hr; [done|apply (everywhere_here _ _ Hsd)|].
    eapply everywhere_child; [exact Hsd|]. constructor.
  - injection He as <-. by apply reads_null_any.
Qed.

Definition any_element (w : option (VariantValue PvField.t)) : bool :=
  match w with
  | Some w => match variant_desc w with Some d => well_typed (variant_value w) d | None => false end
  | None => true
  end.

Definition any_read (it : option (VariantValue PvField.t)) : option (VariantValue PvField.t) :=
  match it with
  | Some w => match variant_desc w with
              | Some d => Some (mkVariantValue (Some d) (as_read (variant_value w) d))
              | None => None end
  | None => None
  end.

Definition any_checked (it : option (VariantValue PvField.t)) : Prop :=
  match it with
  | Some w => sound (variant_value w) /\
      match variant_desc w with
      | Some d => value_matches_descriptor (variant_value w) d = Ok tt
      | None => True end
  | None => True
  end.

Definition any_wire enc (it : option (VariantValue PvField.t)) : option (list Z) :=
  match (it ← it; d ← variant_desc it; Some (d, variant_value it)) with
  | Some (d, value) => b ← enc value d; Some (put_u8 0x01 ++ encode_type_desc o d ++ b)
  | None => Some (put_u8 0x00)
  end.

Lemma read_any_element enc it b :
  reads_below enc ->
  (forall w, it = Some w -> value_ok rtems (variant_value w) /\
     from_option (desc_fits rtems) True (variant_desc w)) ->
  any_wire enc it = Some b ->
  exists w, (forall lv, (from_option (fun w => wire_levels (variant_value w)) O w <= lv)%nat ->
      consumes (decode_present (read_any lv [None] (fun d v => [Some (mkVariantValue (Some d) v)])))
        b [w]) /\
    (any_element w = true /\ (any_checked it -> w = any_read it)).
Proof.
  intros Hb Hok He. unfold any_wire in He.
  destruct it as [[[d|] v0]|]; simpl in He;
    [|injection He as <-; exists None; split; [intros; apply consumes_absent|done]..].
  destruct (Hok _ eq_refl) as [Hv Hd]. simpl in Hv, Hd.
  destruct (enc v0 d) as [b1|] eqn:E1; simpl in He; [|done]. injection He as <-.
  destruct (Hb v0 d b1 E1 Hv Hd) as (w & Hw & Ht & Hr).
  exists (Some (mkVariantValue (Some d) w)). split_and!.
  - intros lv Hlv. apply consumes_present.
    apply (consumes_any lv [None] (fun d v => [Some (mkVariantValue (Some d) v)])); [done|by apply Hw].
  - exact Ht.
  - intros [Hsd Hm]. simpl in *. by rewrite Hr.
Qed.

Lemma step_variant_array enc v b :
  reads_below enc -> value_ok rtems v ->
  encode_step host o enc v VariantArray = Some b -> reads v VariantArray b.
Proof.
  intros Hb Hok He.
  destruct v as [| | | | | | | |items|]; cbn [encode_step encode_pv_field_generic] in He;
    try (injection He as <-; exists (PvField.VariantArray []); split_and!; try done;
         intros [|lv] Hlv; [simpl in Hlv; lia|]; apply read_empty).
  change (encode_each _ items) with (encode_each (any_wire enc) items) in He.
  destruct (encode_each (any_wire enc) items) as [bs|] eqn:Eb; simpl in He; [|done].
  injection He as <-. destruct (everywhere_here _ _ Hok) as [_ [Hl Hd]].
  destruct (read_array (any_wire enc)
      (fun lv => decode_present (read_any lv [None] (fun d v => [Some (mkVariantValue (Some d) v)])))
      (from_option (fun w => wire_levels (variant_value w)) O)
      (fun it w => any_element w = true /\ (any_checked it -> w = any_read it))
      PvField.VariantArray "variant array length" items bs) as (ws & Hws & HF); [done| |exact Eb|].
  { intros it b Hin. apply read_any_element; [done|]. intros w ->. split.
    - eapply everywhere_child; [exact Hok|by apply child_of_any_item].
    - rewrite Forall_forall in Hd. apply (Hd _ Hin). }
  exists (PvField.VariantArray ws). split_and!.
  - intros [|lv] Hlv; [simpl in Hlv; lia|]. apply Hws. simpl in Hlv. lia.
  - simpl. apply (forall2_forallb any_element) in HF; [exact HF|by intros ? ? [? _]].
  - intros Hm Hsd. change (as_read (PvField.VariantArray items) VariantArray)
      with (PvField.VariantArray (any_read <$> items)). f_equal.
    pose proof (everywhere_here _ _ Hsd) as Hs. simpl in Hs. rewrite Forall_forall in Hs.
    apply (forall2_fmap any_read any_checked) in HF; [done|by intros a b [_ ?]|].
    apply Forall_forall. intros [w|] Hin; [|done]. split; [|apply (Hs _ Hin)].
    eapply everywhere_child; [exact Hsd|by apply child_of_any_item].
Qed.

(** *** The encoder *)

Lemma step_reads enc v d b :
  reads_below enc -> value_ok rtems v -> desc_fits rtems d ->
  encode_step host o enc v d = Some b -> reads v d b.
Proof.
  intros Hb Hok Hd. destruct d;
    eauto using step_scalar, step_array, step_structure, step_structure_array, step_union,
      step_union_array, step_variant, step_variant_array.
Qed.

Lemma encode_at_reads n : reads_below (encode_at host o n).
Proof.
  induction n as [|n IH]; intros v d b He Hok Hd; [done|]. by eapply step_reads.
Qed.

Lemma encode_reads v d :
  value_ok rtems v -> desc_fits rtems d -> reads v d (encode_pv_field host o v d).
Proof.
  intros. eapply encode_at_reads; [|done..]. apply (encode_at_enough _ _ (S (need v d))). lia.
Qed.
End ReadBack.

(** ** The machine of the sender does not show *)

Section Hosts.
Context `{ScalarCopy}.
Variables h1 h2 o : ByteOrder.
Variables e1 e2 : PvField.t -> FieldDesc -> option (list Z).
Hypothesis same : forall v d, e1 v d = e2 v d.

Lemma each_ext {A : Type} (f g : A -> option (list Z)) l :
  (forall a, f a = g a) -> encode_each f l = encode_each g l.
Proof. intros Hfg. induction l as [|a l IH]; simpl; [done|]. by rewrite Hfg, IH. Qed.

Lemma fields_ext (s : struct_t) i fs :
  encode_structure_fields e1 s i fs = encode_structure_fields e2 s i fs.
Proof.
  revert i. induction fs as [|[n c] fs IH]; intros i; simpl; [done|].
  by destruct (member_at s i n); rewrite same, IH.
Qed.

Lemma generic_ext v d : encode_pv_field_generic o e1 v d = encode_pv_field_generic o e2 v d.
Proof.
  destruct d as [st|st|id fs|id fs|id vs|id vs| |]; simpl; try done.
  - apply each_ext. by intros [n c].
  - destruct v; try done; (destruct (position _ vs) as [i|]; [|done]);
      (destruct (vs !! i) as [[n c]|]; simpl; [|done]); by rewrite same.
  - destruct v; try done; (destruct (wire_descriptor _) as [d|]; [|done]); by rewrite same.
Qed.

Lemma step_host v d : encode_step h1 o e1 v d = encode_step h2 o e2 v d.
Proof.
  destruct d as [st|st|id fs|id fs|id vs|id vs| |];
    destruct v as [sv|items|arr|s|items|sel name w|items|w|items|];
    cbn [encode_step]; rewrite ?typed_wire, ?generic_ext; try done.
  - apply fields_ext.
  - erewrite each_ext; [done|]. intros [s|]; [|done]. by rewrite fields_ext.
  - destruct (select vs sel) as [[]|]; by rewrite ?same.
  - erewrite each_ext; [done|]. intros [it|]; [|done]. simpl.
    destruct (select vs (item_selector it)) as [[]|]; simpl; by rewrite ?same.
  - destruct (variant_desc w); by rewrite ?same.
  - erewrite each_ext; [done|]. intros [[[d|] w]|]; simpl; by rewrite ?same.
Qed.
End Hosts.

Lemma encode_host `{ScalarCopy} h1 h2 o v d : encode_pv_field h1 o v d = encode_pv_field h2 o v d.
Proof.
  unfold encode_pv_field. f_equal. generalize (encode_fuel v d). intros n. revert v d.
  induction n as [|n IH]; intros v d; [done|]. cbn [encode_at]. by apply step_host.
Qed.

(** ** Decoded values *)

Lemma reading_inv {A B : Type} (f : A -> B) (r : reader A) cur b cur' :
  reading f r cur = Ok (b, cur') -> exists a, r cur = Ok (a, cur') /\ b = f a.
Proof.
  unfold reading. destruct (r cur) as [[a c]|e]; rbind; [|done]. intros [= <- <-]. eauto.
Qed.

Lemma decoded_scalar_type st o cur sv cur' :
  decode_scalar_value st o cur = Ok (sv, cur') -> scalar_type sv = st.
Proof. destruct st; simpl; intros (a & _ & ->)%reading_inv; done. Qed.

Lemma decoded_array_type `{Target} host st n o cur arr cur' :
  decode_typed_scalar_array host st n o cur = Ok (arr, cur') ->
  exists a, arr = Some a /\ TypedScalarArray.scalar_type a = st.
Proof. destruct st; simpl; intros (a & _ & ->)%reading_inv; eauto. Qed.

Section Decoded.
Context `{Target}.
Variable rtems : bool.
Variables host o : ByteOrder.

Lemma yields_lift_with {A : Type} (r : reader A) (Q : A -> Prop) :
  (forall cur a cur', r cur = Ok (a, cur') -> Q a) -> yields rtems (lift r) Q.
Proof. intros Hr dc cur Hdc. split; [done|]. intros a rest. apply Hr. Qed.

Lemma yields_skip {A B : Type} (r : reader A) (f : A -> dec B) (Q : B -> Prop) :
  (forall a, yields rtems (f a) Q) -> yields rtems (lift r ≫= f) Q.
Proof. intros Hf. eapply yields_bind; [apply yields_lift|]. auto. Qed.

Lemma yields_elements {A : Type} (elem : dec (list A)) (P : A -> Prop) n :
  yields rtems elem (Forall P) -> yields rtems (decode_elements elem n) (Forall P).
Proof.
  intros He. induction n as [|n IH]; [apply yields_ret; constructor|].
  eapply yields_bind; [exact He|]. intros pushed Hp.
  eapply yields_bind; [exact IH|]. intros rest Hr. apply yields_ret. by apply Forall_app.
Qed.

Lemma yields_present {A : Type} (body : dec (list (option A))) (P : option A -> Prop) :
  P None -> yields rtems body (Forall P) -> yields rtems (decode_present body) (Forall P).
Proof.
  intros Hn Hb. apply yields_skip. intros b.
  destruct (b =? 0); [apply yields_ret; by constructor|].
  destruct (b =? 1); [done|apply yields_fails].
Qed.

(** A value of the type, no deeper than the levels it was read with. *)
Definition read_as (lv : nat) (d : FieldDesc) (w : PvField.t) : Prop :=
  well_typed w d = true /\ (wire_levels w <= lv)%nat.

Abbreviation bounded d := (Z.of_nat (node_count d) <= MAX_FIELD_NODES).

Section Level.
Variable lv : nat.
Variable child : FieldDesc -> dec PvField.t.
Hypothesis child_reads : forall d, bounded d -> yields rtems (child d) (read_as lv d).

Lemma yields_members fs :
  Forall (fun nc => bounded nc.2) fs ->
  yields rtems (decode_struct_members child fs)
    (fun ms => zip_typed well_typed ms fs = true /\ (fields_levels ms <= lv)%nat).
Proof.
  induction 1 as [|[n d] fs Hd _ IH]; [apply yields_ret; simpl; split; [done|lia]|].
  eapply yields_bind; [by apply child_reads|]. intros v [Hv Hl].
  eapply yields_bind; [exact IH|]. intros rest [Hr Hlr]. apply yields_ret.
  simpl. rewrite bool_decide_eq_true_2, Hv, Hr by done. split; [done|lia].
Qed.

(** The variant of a selector read from the wire. *)
Lemma yields_wire_variant vs sel :
  len vs < 2 ^ 31 ->
  yields rtems (wire_variant vs sel)
    (fun nd => 0 <= swrap 32 sel /\ get_at vs (swrap 32 sel) = Some nd).
Proof.
  intros Hl. unfold wire_variant. pose proof (swrap_range 32 sel ltac:(lia)) as Hr.
  pose proof usize_bits_ge. assert (2 ^ 32 <= 2 ^ usize_bits) by (apply Z.pow_le_mono_r; lia).
  destruct (get_at vs (wrap usize_bits (swrap 32 sel))) as [nd|] eqn:E; [|apply yields_fails].
  apply yields_ret. destruct (decide (0 <= swrap 32 sel)) as [Hp|Hp].
  - rewrite wrap_small in E; [done|split; lia].
  - exfalso. unfold get_at, wrap in E.
    rewrite <- (Z_mod_plus_full _ 1), Z.mod_small in E by lia.
    destruct (Z.ltb_spec (swrap 32 sel + 1 * 2 ^ usize_bits) (len vs)); [lia|done].
Qed.

Lemma yields_variant {B : Type} vs (null : B) mk (Q : B -> Prop) :
  len vs < 2 ^ 31 -> Forall (fun nc => bounded nc.2) vs -> Q null ->
  (forall sel n d w, 0 <= sel -> get_at vs sel = Some (n, d) -> read_as lv d w -> Q (mk sel n w)) ->
  yields rtems (sel ← lift (decode_size o);
                match sel with
                | None => mret null
                | Some sel_u32 =>
                    '(name, vdesc) ← wire_variant vs sel_u32;
                    v ← child vdesc;
                    mret (mk (swrap 32 sel_u32) name v)
                end) Q.
Proof.
  intros Hl Hb Hn Hmk. apply yields_skip. intros [sel|]; [|by apply yields_ret].
  eapply yields_bind; [by apply yields_wire_variant|]. intros [n d] [Hs Hg].
  eapply yields_bind; [apply child_reads|intros w Hw; apply yields_ret; by eapply Hmk].
  rewrite Forall_forall in Hb. apply (Hb (n, d)). by eapply get_at_elem.
Qed.

Lemma yields_any {B : Type} (null : B) mk (Q : B -> Prop) :
  Q null -> (forall d w, read_as lv d w -> Q (mk d w)) ->
  yields rtems (null_any ← peek_null;
                if null_any : bool then mret null
                else inner ← decode_type_desc_cached rtems o;
                     v ← child inner;
                     mret (mk inner v)) Q.
Proof.
  intros Hn Hmk. eapply (yields_bind _ _ _ (fun _ => True)).
  { intros dc cur Hdc. unfold peek_null. destruct (get_u8 cur) as [[b after]|e]; [|done].
    by destruct (b =? 255). }
  intros [] _; [by apply yields_ret|].
  eapply (yields_bind _ _ _ (fun d => bounded d)).
  { eapply yields_bind; [apply yields_decode|]. intros [d m] [Hm Hw]. simpl in *.
    apply yields_ret. subst. destruct Hw as [_ Hw]. simpl in Hw. lia. }
  intros d Hd. eapply yields_bind; [by apply child_reads|]. intros w Hw. apply yields_ret. auto.
Qed.

Lemma bounded_members d :
  bounded d -> Forall (fun nc => bounded nc.2) (members d) /\ len (members d) < 2 ^ 31.
Proof.
  intros Hd. split.
  - apply Forall_forall. intros [n c] Hin. apply child_below in Hin. simpl.
    destruct d; simpl in *; lia.
  - unfold MAX_FIELD_NODES, uint_max in Hd.
    assert (Hc : forall fs, (length fs <= child_nodes fs)%nat).
    { induction fs as [|[n c] fs IH]; simpl; [lia|]. pose proof (node_count_pos c). lia. }
    pose proof (Hc (members d)). destruct d; simpl in *; lia.
Qed.

Lemma yields_step_array {B : Type} what (elem : dec (list (option B)))
    (mk : list (option B) -> PvField.t) (typed : option B -> bool) (cost : option B -> nat) d :
  (forall ws, well_typed (mk ws) d = forallb typed ws) ->
  (forall ws, wire_levels (mk ws) = S (max_list_with cost ws)) ->
  yields rtems elem (Forall (fun w => typed w = true /\ (cost w <= lv)%nat)) ->
  yields rtems (n ← lift (decode_size_nonnull o what);
                items ← decode_elements elem (Z.to_nat n);
                mret (mk items)) (read_as (S lv) d).
Proof.
  intros Ht Hc He. apply yields_skip. intros n.
  eapply yields_bind; [by apply yields_elements|]. intros ws Hws. apply yields_ret.
  unfold read_as. rewrite Ht, Hc. clear -Hws.
  induction Hws as [|w ws [Hw Hl] _ [IH1 IH2]]; simpl; [split; [done|lia]|].
  rewrite Hw, IH1. split; [done|lia].
Qed.

Lemma yields_value_step d :
  bounded d -> yields rtems (decode_value_step rtems host o child d) (read_as (S lv) d).
Proof.
  intros Hd. destruct (bounded_members d Hd) as [Hm Hl].
  destruct d as [st|st|id fs|id fs|id vs|id vs| |]; cbn [decode_value_step members] in *.
  - eapply yields_bind; [apply yields_lift_with; intros ? ? ?; apply decoded_scalar_type|].
    intros sv Ht. apply yields_ret. split; simpl; [by apply bool_decide_eq_true_2|lia].
  - apply yields_skip. intros n.
    eapply yields_bind; [apply yields_lift_with; intros ? ? ?; apply decoded_array_type|].
    intros arr (a & -> & Ha). apply yields_ret. split; simpl; [by apply bool_decide_eq_true_2|lia].
  - eapply yields_bind; [by apply yields_members|]. intros ms [Hz Hlv]. apply yields_ret.
    split; simpl; [by rewrite bool_decide_eq_true_2|lia].
  - apply (yields_step_array _ _ _ (struct_element id fs)
      (from_option (fun s : struct_t => S (fields_levels (fields s))) O)); [done..|].
    apply yields_present; [simpl; split; [done|lia]|].
    eapply yields_bind; [by apply (child_reads (Structure id fs))|]. intros w [Hw Hlv].
    apply yields_ret. destruct w; simpl in *; try done. repeat constructor; [done|simpl; lia].
  - apply (yields_variant vs (PvField.Union (-1) [] PvField.Null) PvField.Union); [done..| |].
    + split; simpl; [done|lia].
    + intros sel n d w Hs Hg [Hw Hlv]. split; [|simpl; lia]. apply union_typed. right.
      unfold selected. rewrite Hg, Hw, bool_decide_eq_true_2 by done.
      by destruct (Z.leb_spec 0 sel); [|lia].
  - apply (yields_step_array _ _ _ (union_element vs)
      (from_option (fun it : UnionItem PvField.t => wire_levels (item_value it)) O)); [done..|].
    apply yields_present; [simpl; split; [done|lia]|].
    apply (yields_variant vs [None] (fun s n v => [Some (mkUnionItem s n v)])); [done..| |].
    + repeat constructor. simpl. lia.
    + intros sel n d w Hs Hg [Hw Hlv]. repeat constructor; [|simpl; lia]. simpl.
      unfold selected. rewrite Hg, Hw, bool_decide_eq_true_2 by done.
      by destruct (Z.leb_spec 0 sel); [|lia].
  - apply (yields_any (PvField.Variant VariantValue_null)
      (fun d v => PvField.Variant (mkVariantValue (Some d) v))).
    + split; simpl; [done|lia].
    + intros d w [Hw Hlv]. split; [exact Hw|simpl; lia].
  - apply (yields_step_array _ _ _ any_element
      (from_option (fun w : VariantValue PvField.t => wire_levels (variant_value w)) O)); [done..|].
    apply yields_present; [simpl; split; [done|lia]|].
    apply (yields_any [None] (fun d v => [Some (mkVariantValue (Some d) v)])).
    + repeat constructor. simpl. lia.
    + intros d w [Hw Hlv]. repeat constructor; [exact Hw|simpl; lia].
Qed.
End Level.

Lemma yields_value lv d :
  bounded d -> yields rtems (decode_pv_field_at rtems host o lv d) (read_as lv d).
Proof.
  revert d. induction lv as [|lv IH]; intros d Hd; [apply yields_fails|].
  by apply yields_value_step.
Qed.
End Decoded.

(** C8: whatever bytes a peer sends and whatever a well-formed type cache holds of its earlier
    messages, a value decoded for a descriptor within the node limit has the type of that
    descriptor, down to the types its "any" fields carry, and nests no deeper than the depth
    limit; the cache stays well-formed, after a refused value too. *)
Theorem decoded_value_has_its_type `{Target} rtems host o d dc cur :
  cache_ok rtems dc -> Z.of_nat (node_count d) <= MAX_FIELD_NODES ->
  let r := decode_pv_field_cached rtems host o d dc cur in
  cache_ok rtems (fst r) /\
  forall v rest, snd r = Ok (v, rest) ->
    well_typed v d = true /\ (wire_levels v <= S (MAX_FIELD_DEPTH rtems))%nat.
Proof. intros Hdc Hd r. exact (yields_value rtems host o _ d Hd dc cur Hdc). Qed.

(** ** A decoded value sent again *)

(** The member names of every structure are distinct. *)
Definition distinct_here (v : PvField.t) : Prop :=
  match v with
  | PvField.Structure s => NoDup (fields s).*1
  | PvField.StructureArray items =>
      Forall (fun it => match it with Some s => NoDup (fields s).*1 | None => True end) items
  | _ => True
  end.

(** A value of the descriptor's type: accepted, sound, and read as it is. *)
Definition settled (v : PvField.t) (d : FieldDesc) : Prop :=
  value_matches_descriptor v d = Ok tt /\ sound v /\ as_read v d = v.

Lemma zip_typed_forall2 ms fs :
  zip_typed well_typed ms fs = true ->
  Forall2 (fun m f => m.1 = f.1 /\ well_typed m.2 f.2 = true) ms fs.
Proof.
  revert fs. induction ms as [|[n v] ms IH]; intros [|[m d] fs]; simpl; try done.
  rewrite !andb_true_iff, bool_decide_eq_true. intros [[-> Hv] Hz]. constructor; auto.
Qed.

Lemma settled_members (s : struct_t) fs :
  NoDup (fields s).*1 ->
  Forall2 (fun m f => m.1 = f.1 /\ settled m.2 f.2) (fields s) fs ->
  structure_fields_match (member_checks s) fs = Ok tt /\
  Forall (fun nv => sound nv.2) (fields s) /\ read_members s fs = fields s.
Proof.
  intros Hnd HF. assert (Hfind : forall i n v, fields s !! i = Some (n, v) -> find_name n (fields s) = Some v).
  { intros i n v. by apply find_name_nodup. }
  split_and!.
  - unfold structure_fields_match. rewrite (proj2 (check_each_ok _ _)).
    + rbind. assert (Hn : forall n v, (n, v) ∈ fields s -> n ∈ fs.*1).
      { intros n v Hin. apply list_elem_of_lookup in Hin as [i Hi].
        destruct (Forall2_lookup_l _ _ _ _ _ HF Hi) as ([m c] & Hc & [Hm _]). simpl in Hm. subst.
        apply list_elem_of_fmap. exists (m, c). split; [done|]. by eapply list_elem_of_lookup_2. }
      revert Hn. clear. induction (fields s) as [|[n v] ms IH]; intros Hn; [done|].
      rewrite fmap_cons. simpl. assert (existsb (fun '(m, _) => bool_decide (m = n)) fs = true) as ->.
      { apply existsb_exists. destruct (list_elem_of_fmap_1 _ _ _ (Hn n v ltac:(constructor))) as ([m c] & -> & Hin).
        exists (m, c). split; [by apply list_elem_of_In|by apply bool_decide_eq_true_2]. }
      apply IH. intros n' v' ?. apply (Hn n' v'). by constructor.
    + apply Forall_forall. intros [n c] Hin. apply list_elem_of_lookup in Hin as [i Hi].
      destruct (Forall2_lookup_r _ _ _ _ _ HF Hi) as ([m v] & Hv & [Hm (Hc & _)]). simpl in Hm, Hc. subst.
      by rewrite find_name_fmap, (Hfind i n v Hv).
  - apply Forall_forall. intros [n v] Hin. apply list_elem_of_lookup in Hin as [i Hi].
    destruct (Forall2_lookup_l _ _ _ _ _ HF Hi) as (f & _ & [_ (_ & Hs & _)]). exact Hs.
  - unfold read_members. apply list_eq_same_length with (length fs);
      [by apply Forall2_length in HF|by rewrite length_fmap|].
    intros i [n1 v1] [n2 v2] Hi H1 H2. apply list_lookup_fmap_Some in H1 as ([m c] & [= -> ->] & Hc).
    destruct (Forall2_lookup_lr _ _ _ _ _ _ HF H2 Hc) as [Hm (_ & _ & Hr)]. simpl in Hm, Hr. subst.
    rewrite find_name_fmap, (Hfind i m v2 H2). simpl. by rewrite Hr.
Qed.

Lemma settled_selected w vs sel name :
  (forall d, well_typed w d = true -> settled w d) ->
  selected (well_typed w) vs sel name = true ->
  0 <= sel /\ exists d, get_at vs sel = Some (name, d) /\ settled w d.
Proof.
  intros IH Hs. unfold selected in Hs. zbool. destruct (get_at vs sel) as [[n d]|]; [|done].
  zbool. split; [done|]. exists d. rewrite bool_decide_eq_true in *. subst. auto.
Qed.

(** A child that is settled against whatever descriptor it has the type of. *)
Definition settles (c : PvField.t) : Prop := forall d, well_typed c d = true -> settled c d.

Lemma settled_struct (s : struct_t) id fs :
  Forall settles (snd <$> fields s) -> NoDup (fields s).*1 ->
  bool_decide (struct_id s = id) && zip_typed well_typed (fields s) fs = true ->
  struct_id s = id /\ structure_fields_match (member_checks s) fs = Ok tt /\
  Forall sound (snd <$> fields s) /\ mkPvStructure id (read_members s fs) = s.
Proof.
  intros HF Hnd Ht. zbool. rewrite bool_decide_eq_true in *. subst id.
  destruct (settled_members s fs Hnd) as (Hm & Hs & Hr).
  - apply zip_typed_forall2 in H0. revert HF. clear -H0.
    induction H0 as [|[n v] [m d] ms fs [Hn Ht] _ IH]; intros HF; constructor;
      apply Forall_cons in HF as [Hv HF]; simpl in *; auto.
  - split_and!; [done|done|by apply Forall_fmap|]. rewrite Hr. by destruct s.
Qed.

Lemma settled_items {A : Type} (typed : A -> bool) (check : option A -> check_result)
    (read : option A -> option A) (P : A -> Prop) (items : list (option A)) :
  check None = Ok tt -> read None = None ->
  (forall a, Some a ∈ items -> typed a = true -> check (Some a) = Ok tt /\ read (Some a) = Some a /\ P a) ->
  forallb (fun it => match it with Some a => typed a | None => true end) items = true ->
  check_each check items = Ok tt /\ read <$> items = items /\
  Forall (fun it => match it with Some a => P a | None => True end) items.
Proof.
  intros Hc Hr Ha. induction items as [|it items IH]; cbn [check_each forallb]; intros Ht; [done|].
  zbool. destruct IH as (IH1 & IH2 & IH3); [intros; apply Ha; [by constructor|done]|done|].
  rewrite IH1. destruct it as [a|].
  - destruct (Ha a ltac:(constructor) ltac:(done)) as (H1 & H2 & H3).
    rewrite H1. rbind. rewrite fmap_cons, IH2, H2. auto.
  - rewrite Hc. rbind. rewrite fmap_cons, IH2, Hr. auto.
Qed.

Lemma settled_struct_array items id fs :
  (forall c, c ∈ children (PvField.StructureArray items) -> settles c) -> distinct_here (PvField.StructureArray items) ->
  well_typed (PvField.StructureArray items) (StructureArray id fs) = true ->
  value_matches_descriptor (PvField.StructureArray items) (StructureArray id fs) = Ok tt /\
  (sound_here (PvField.StructureArray items) /\ Forall sound (children (PvField.StructureArray items))) /\
  as_read (PvField.StructureArray items) (StructureArray id fs) = PvField.StructureArray items.
Proof.
  intros Hc Hn Ht.
  destruct (settled_items (fun s => bool_decide (struct_id s = id) && zip_typed well_typed (fields s) fs)
    (fun it => match it with
               | None => Ok tt
               | Some s => if bool_decide (struct_id s = id)
                           then structure_fields_match (member_checks s) fs
                           else Err (StructureIdMismatch id (struct_id s)) end)
    (struct_read id fs) (fun s => Forall sound (snd <$> fields s)) items) as (Hm & Hr & Hs);
    [done|done| |exact Ht|].
  { intros s Hin Hs. simpl in Hn. rewrite Forall_forall in Hn.
    destruct (settled_struct s id fs) as (<- & Hm & Hsd & Hr); [|apply (Hn _ Hin)|done|].
    { apply Forall_fmap, Forall_forall. intros [n f] Hf. apply Hc. by eapply child_of_item. }
    rewrite bool_decide_eq_true_2 by done. split_and!; [done| |done]. simpl. by f_equal. }
  split_and!; [exact Hm|exact Hn| |exact (f_equal PvField.StructureArray Hr)].
  simpl. rewrite Forall_mjoin, Forall_fmap. eapply Forall_impl; [exact Hs|]. by intros [s|] ?; [|constructor].
Qed.

Lemma settled_union_array items id vs :
  (forall c, c ∈ children (PvField.UnionArray items) -> settles c) -> distinct_here (PvField.UnionArray items) ->
  well_typed (PvField.UnionArray items) (UnionArray id vs) = true ->
  value_matches_descriptor (PvField.UnionArray items) (UnionArray id vs) = Ok tt /\
  (sound_here (PvField.UnionArray items) /\ Forall sound (children (PvField.UnionArray items))) /\
  as_read (PvField.UnionArray items) (UnionArray id vs) = PvField.UnionArray items.
Proof.
  intros Hc Hn Ht.
  destruct (settled_items (fun it => selected (well_typed (item_value it)) vs (item_selector it)
              (item_variant_name it))
    (fun it => match it with
               | None => Ok tt
               | Some it => check_union_selector (item_selector it)
                              (value_matches_descriptor (item_value it)) vs end)
    (union_read vs) (fun it => sound (item_value it)) items) as (Hm & Hr & Hs);
    [done|done| |exact Ht|].
  { intros it Hin Hs.
    destruct (settled_selected _ vs _ _ (Hc _ (child_of_union_item _ _ Hin)) Hs)
      as (Hp & c & Hg & Hm & Hsd & Hr).
    unfold check_union_selector, union_read. simpl. rewrite Hg.
    destruct (Z.ltb_spec (item_selector it) 0); [lia|].
    destruct (Z.leb_spec 0 (item_selector it)); [|lia]. simpl. rewrite Hr.
    split_and!; [done|by destruct it|done]. }
  split_and!; [exact Hm|done| |exact (f_equal PvField.UnionArray Hr)].
  simpl. rewrite Forall_mjoin, Forall_fmap. eapply Forall_impl; [exact Hs|].
  intros [it|] ?; simpl; [by apply Forall_singleton|constructor].
Qed.

Lemma settled_any_array items :
  (forall c, c ∈ children (PvField.VariantArray items) -> settles c) -> distinct_here (PvField.VariantArray items) ->
  well_typed (PvField.VariantArray items) (VariantArray) = true ->
  value_matches_descriptor (PvField.VariantArray items) (VariantArray) = Ok tt /\
  (sound_here (PvField.VariantArray items) /\ Forall sound (children (PvField.VariantArray items))) /\
  as_read (PvField.VariantArray items) (VariantArray) = PvField.VariantArray items.
Proof.
  intros Hc Hn Ht.
  destruct (settled_items
    (fun w => match variant_desc w with Some d => well_typed (variant_value w) d | None => false end)
    (fun _ => Ok tt) any_read
    (fun w => sound (variant_value w) /\ match variant_desc w with
              | Some d => value_matches_descriptor (variant_value w) d = Ok tt
              | None => True end) items) as (_ & Hr & Hs); [done|done| |exact Ht|].
  { intros [[c|] w] Hin Hw; [|done]. simpl in Hw.
    destruct (Hc _ (child_of_any_item _ _ Hin) c Hw) as (Hm & Hsd & Hr). simpl in *.
    rewrite Hr. done. }
  split_and!; [done| | |exact (f_equal PvField.VariantArray Hr)].
  * eapply Forall_impl; [exact Hs|]. intros [w|]; [tauto|done].
  * simpl. rewrite Forall_mjoin, Forall_fmap. eapply Forall_impl; [exact Hs|].
    intros [w|]; simpl; [intros [? _]; by apply Forall_singleton|constructor].
Qed.

Lemma typed_settles v : everywhere distinct_here v -> settles v.
Proof.
  induction v as [v IH] using value_ind'. intros Hd.
  assert (Hc : forall c, c ∈ children v -> settles c).
  { intros c Hin. rewrite Forall_forall in IH. apply IH; [done|]. by eapply everywhere_child. }
  pose proof (everywhere_here _ _ Hd) as Hn. clear Hd IH. intros d Ht. unfold settled.
  rewrite everywhere_children.
  destruct v as [sv|its|arr|s|items|sel name w|items|[vd w]|items|], d as [st|st|id fs|id fs|id vs|id vs| |];
    try discriminate Ht.
  - cbn [value_matches_descriptor]. simpl in Ht. rewrite Ht. repeat split. constructor.
  - cbn [value_matches_descriptor]. simpl in Ht. rewrite Ht. repeat split. constructor.
  - destruct (settled_struct s id fs) as (<- & Hm & Hs & Hr); [|done|done|].
    { apply Forall_forall. auto. }
    cbn [value_matches_descriptor]. rewrite bool_decide_eq_true_2 by done.
    split_and!; [done|done|done|]. cbn [as_read]. f_equal. exact Hr.
  - by apply settled_struct_array.
  - apply union_typed in Ht as [(-> & -> & ->)|Ht].
    { repeat split. constructor; [|constructor]. repeat split. }
    destruct (settled_selected w vs sel name (Hc w ltac:(constructor)) Ht) as (Hs & c & Hg & Hm & Hsd & Hr).
    cbn [value_matches_descriptor as_read]. unfold check_union_selector.
    destruct (Z.ltb_spec sel 0); [lia|]. destruct (Z.leb_spec 0 sel); [|lia]. rewrite Hg. simpl.
    rewrite Hr. split_and!; [done|done| |done]. by apply Forall_singleton.
  - by apply settled_union_array.
  - cbn [value_matches_descriptor as_read well_typed variant_desc variant_value] in *.
    destruct vd as [c|]; [|destruct w; try discriminate Ht; repeat split; constructor; [|constructor]; repeat split].
    destruct (Hc w ltac:(constructor) c Ht) as (Hm & Hsd & Hr). rewrite Hr.
    split_and!; [done|exact Hm| |done]. by apply Forall_singleton.
  - by apply settled_any_array.
Qed.

(** ** The properties of the codec *)

Lemma as_read_typed `{Target} `{ScalarCopyOk} rtems host o v d :
  value_ok rtems v -> desc_fits rtems d -> value_matches_descriptor v d = Ok tt -> sound v ->
  (wire_levels (as_read v d) <= S (MAX_FIELD_DEPTH rtems))%nat ->
  well_typed (as_read v d) d = true /\
  consumes (decode_pv_field_cached rtems host o d) (encode_pv_field host o v d) (as_read v d).
Proof.
  intros Hok Hd Hm Hs Hl.
  destruct (encode_reads rtems host o v d Hok Hd) as (w & Hw & Ht & Hr).
  rewrite <- (Hr Hm Hs) in *. split; [done|]. by apply Hw.
Qed.

(** The stream keeps its place.  Whatever value is encoded under a descriptor, fitting it
    or not, what is written is the encoding of a value of the descriptor's type: a decoder on
    any machine reads that value from it and stops at its last byte, with its type cache as it
    was, as long as the value is within the depth limit. *)
Theorem encoded_value_keeps_its_place `{Target} `{ScalarCopyOk} rtems sender receiver o v d :
  value_ok rtems v -> desc_fits rtems d ->
  exists w, well_typed w d = true /\
    ((wire_levels w <= S (MAX_FIELD_DEPTH rtems))%nat ->
     forall dc rest,
       decode_pv_field_cached rtems receiver o d dc (encode_pv_field sender o v d ++ rest)
       = (dc, Ok (w, rest))).
Proof.
  intros Hok Hd. rewrite (encode_host sender receiver).
  destruct (encode_reads rtems receiver o v d Hok Hd) as (w & Hw & Ht & _).
  exists w. split; [done|]. intros Hl. by apply Hw.
Qed.

(** C33: a value the checker accepts, with distinct member names, "any" fields that match the
    descriptors they carry and numbers and texts within their ranges, reaches the other side
    as it is under a descriptor and a depth within the limits: its members in the descriptor's
    order, its arrays typed, its unions and "any" fields in the form that is sent ([as_read]),
    and no leaf coerced or filled in; what follows it is left unread. *)
Theorem checked_value_round_trip `{Target} `{ScalarCopyOk} rtems sender receiver o v d :
  value_ok rtems v -> desc_fits rtems d -> value_matches_descriptor v d = Ok tt -> sound v ->
  (wire_levels (as_read v d) <= S (MAX_FIELD_DEPTH rtems))%nat ->
  forall dc rest,
    decode_pv_field_cached rtems receiver o d dc (encode_pv_field sender o v d ++ rest)
    = (dc, Ok (as_read v d, rest)).
Proof.
  intros Hok Hd Hm Hs Hl. rewrite (encode_host sender receiver).
  by apply (as_read_typed rtems receiver o v d).
Qed.

(** What a decoder returned, sent on under its descriptor, is read as the same value by
    the next one. *)
Theorem decoded_value_round_trip `{Target} `{ScalarCopyOk} rtems sender receiver o v d :
  well_typed v d = true -> everywhere distinct_here v ->
  value_ok rtems v -> desc_fits rtems d -> (wire_levels v <= S (MAX_FIELD_DEPTH rtems))%nat ->
  forall dc rest,
    decode_pv_field_cached rtems receiver o d dc (encode_pv_field sender o v d ++ rest)
    = (dc, Ok (v, rest)).
Proof.
  intros Ht Hn Hok Hd Hl. destruct (typed_settles v Hn d Ht) as (Hm & Hs & Hr).
  rewrite (encode_host sender receiver).
  destruct (as_read_typed rtems receiver o v d Hok Hd Hm Hs) as [_ Hc]; rewrite Hr in *; [done|].
  exact Hc.
Qed.

(** ** Examples *)

(** Copying no scalar out as another type: the least a conversion can do. *)
Definition no_copy : ScalarCopy := fun _ _ => None.

Lemma no_copy_ok : @ScalarCopyOk no_copy.
Proof. by intros v st w Hv. Qed.

(** A structure of a double, a union of an int and a string, and an "any". *)
Definition sample_desc : FieldDesc :=
  Structure [110] [([118], Scalar Double);
                   ([117], Union [] [([105], Scalar Int); ([115], Scalar String)]);
                   ([97], Variant);
                   ([120], ScalarArray Short)].

Definition sample_value : PvField.t :=
  PvField.Structure (mkPvStructure [110]
    [([118], PvField.Scalar (ScalarValue.Double 0x3FF8000000000000));
     ([117], PvField.Union 1 [115] (PvField.Scalar (ScalarValue.String [104; 105])));
     ([97], PvField.Variant (mkVariantValue (Some (Scalar Int)) (PvField.Scalar (ScalarValue.Int (-7)))));
     ([120], PvField.ScalarArrayTyped (TypedScalarArray.Short [1; -2; 3]))]).

(** The same with its members in another order and its array untyped. *)
Definition sample_loose : PvField.t :=
  PvField.Structure (mkPvStructure [110]
    [([120], PvField.ScalarArray [ScalarValue.Short 1; ScalarValue.Short (-2); ScalarValue.Short 3]);
     ([97], PvField.Variant (mkVariantValue (Some (Scalar Int)) (PvField.Scalar (ScalarValue.Int (-7)))));
     ([118], PvField.Scalar (ScalarValue.Double 0x3FF8000000000000));
     ([117], PvField.Union 1 [] (PvField.Scalar (ScalarValue.String [104; 105])))]).

(** An int where the descriptor has a double, and nothing else. *)
Definition sample_wrong : PvField.t :=
  PvField.Structure (mkPvStructure [] [([118], PvField.Scalar (ScalarValue.Int 7))]).

Lemma sample_fits : desc_fits false sample_desc.
Proof. repeat split; vm_compute; try done; repeat constructor. Defined.

(** Closes the range side conditions of a concrete value. *)
Ltac in_range :=
  repeat match goal with
  | |- _ /\ _ => split
  | |- True => exact I
  | |- everywhere _ _ => cbn [everywhere foldr fields variant_value item_value]
  | |- ok_here _ _ => unfold ok_here; cbn
  | |- sound_here _ => cbn
  | |- distinct_here _ => cbn
  | |- desc_fits _ _ => unfold desc_fits, MAX_FIELD_NODES, uint_max; cbn [MAX_FIELD_DEPTH node_count]
  | |- array_ok _ => unfold array_ok
  | |- scalars_ok _ => unfold scalars_ok
  | |- Forall _ [] => apply List.Forall_nil
  | |- Forall _ (_ :: _) => apply List.Forall_cons
  | |- Forall _ _ => progress cbn
  | |- desc_ok _ => cbn
  | |- text_ok _ => split; [vm_compute; reflexivity|cbn; lia]
  | |- scalar_ok _ => cbn
  | |- NoDup _ => apply (bool_decide_unpack _); vm_compute; exact I
  | |- _ = Ok tt => vm_compute; reflexivity
  end; try (unfold is_uint, is_sint, uint_max; cbn; lia).

Lemma encoded_value_keeps_its_place_witness :
  exists w, well_typed w (Structure [110] [([118], Scalar Double)]) = true /\
    forall dc rest,
      @decode_pv_field_cached host64 false Big Little (Structure [110] [([118], Scalar Double)]) dc
        (@encode_pv_field no_copy Little Little sample_wrong
           (Structure [110] [([118], Scalar Double)]) ++ rest)
      = (dc, Ok (w, rest)).
Proof.
  destruct (@encoded_value_keeps_its_place host64 no_copy no_copy_ok false Little Big Little
              sample_wrong (Structure [110] [([118], Scalar Double)])) as (w & Hw & Hr);
    [unfold sample_wrong; in_range|in_range|].
  exists w. split; [exact Hw|]. intros dc rest. apply Hr. clear Hr.
  destruct w as [| | |[id [|[n []] [|[]]]]| | | | | |]; simpl in *; rewrite ?andb_false_r in Hw;
    try discriminate Hw; lia.
Defined.

Lemma checked_value_round_trip_witness :
  as_read sample_loose sample_desc = sample_value /\
  forall dc rest,
    @decode_pv_field_cached host64 false Big Little sample_desc dc
      (@encode_pv_field no_copy Little Little sample_loose sample_desc ++ rest)
    = (dc, Ok (as_read sample_loose sample_desc, rest)).
Proof.
  split; [vm_compute; reflexivity|].
  apply (@checked_value_round_trip host64 no_copy no_copy_ok false Little Big Little);
    [unfold sample_loose; in_range|exact sample_fits|vm_compute; reflexivity
    |unfold sample_loose; in_range|vm_compute; lia].
Defined.

Lemma decoded_value_round_trip_witness :
  @decode_pv_field_cached host64 false Big Little sample_desc ∅
    (@encode_pv_field no_copy Little Little sample_value sample_desc ++ [9])
  = (∅, Ok (sample_value, [9])).
Proof.
  apply (@decoded_value_round_trip host64 no_copy no_copy_ok false Little Big Little);
    [vm_compute; reflexivity|unfold sample_value; in_range|unfold sample_value; in_range
    |exact sample_fits|vm_compute; lia].
Defined.

Lemma decoded_value_has_its_type_witness :
  let r := @decode_pv_field_cached host64 false Little Little (Scalar Short) ∅ [0x34; 0x12; 9] in
  snd r = Ok (PvField.Scalar (ScalarValue.Short 0x1234), [9]) /\
  cache_ok false (fst r) /\
  well_typed (PvField.Scalar (ScalarValue.Short 0x1234)) (Scalar Short) = true.
Proof.
  assert (Hc : cache_ok false ∅) by apply map_Forall_empty.
  destruct (@decoded_value_has_its_type host64 false Little Little (Scalar Short) ∅ [0x34; 0x12; 9] Hc)
    as [H1 H2]; [vm_compute; discriminate|].
  split; [vm_compute; reflexivity|]. split; [exact H1|].
  apply (H2 _ [9]). vm_compute. reflexivity.
Defined.
