(* ===== verification/PvaDelta.v ===== *)
(** * Deltas of pvData values

    Models the delta half of [epics-pva-rs/src/pvdata/encode.rs]: the encoding of the marked
    fields of a value, the three decoders of such a delta (a fresh value, the same with the
    connection's type cache, in place), the merge of a delta into an earlier value and the
    reduction of a delta to what it marks; and [monitor_squash.rs], the merge of two queued
    monitor bodies.  A bit is a field in depth-first order, a set structure bit is the whole
    structure. *)
From stdpp Require Import base tactics numbers list option strings gmap.
From S2P Require Import Prelude PvaProto PvaText PvaDesc PvaValue.

Open Scope Z_scope.

(** ** Encoding *)

Section EncodeMembers.
Variable marks : BitSet.t.
Variable enc : PvField.t -> FieldDesc -> nat -> list Z.
(** The member loop of [encode_marked]: only members with a set bit are looked up. *)
Fixpoint encode_marked_members (v : PvField.t) (i : nat) (fs : list (list Z * FieldDesc))
    (child_bit : nat) : list Z :=
  match fs with
  | [] => []
  | (name, child_desc) :: fs =>
      let span := total_bits child_desc in
      (if BitSet.any_in marks child_bit (child_bit + span) then
         let child_value := match v with
                            | PvField.Structure s => member_at s i name
                            | _ => None
                            end in
         enc (default (default_value_for child_desc) child_value) child_desc child_bit
       else [])
      ++ encode_marked_members v (S i) fs (child_bit + span)
  end.
End EncodeMembers.

Fixpoint encode_marked `{ScalarCopy} (host o : ByteOrder) (marks : BitSet.t) (v : PvField.t)
    (d : FieldDesc) (bit_offset : nat) : list Z :=
  match d with
  | Structure _ fs =>
      if BitSet.get marks bit_offset then encode_pv_field host o v d
      else encode_marked_members marks (fun v d bit => encode_marked host o marks v d bit)
             v 0 fs (bit_offset + 1)
  | _ => encode_pv_field host o v d
  end.

Definition encode_pv_field_with_bitset `{ScalarCopy} (host o : ByteOrder) (v : PvField.t)
    (d : FieldDesc) (marks : BitSet.t) (bit_offset : nat) : list Z :=
  if BitSet.any_in marks bit_offset (bit_offset + total_bits d)
  then encode_marked host o marks v d bit_offset else [].

(** ** Decoding *)

Section DecodeMembers.
Variable child : FieldDesc -> nat -> reader PvField.t.
Fixpoint decode_marked_members (fs : list (list Z * FieldDesc)) (child_bit : nat)
    : reader (list (list Z * PvField.t)) := fun cur =>
  match fs with
  | [] => Ok ([], cur)
  | (name, d) :: fs =>
      '(v, cur) ← child d child_bit cur;
      '(rest, cur) ← decode_marked_members fs (child_bit + total_bits d) cur;
      Ok ((name, v) :: rest, cur)
  end.
End DecodeMembers.

(** Every leaf decoded with a type cache of its own. *)
Fixpoint decode_pv_field_with_bitset `{Target} (rtems : bool) (host o : ByteOrder)
    (marks : BitSet.t) (d : FieldDesc) (bit_offset : nat) : reader PvField.t := fun cur =>
  if BitSet.get marks bit_offset then decode_pv_field rtems host o d cur
  else
    match d with
    | Structure id fs =>
        if negb (BitSet.any_in marks bit_offset (bit_offset + total_bits d))
        then Ok (default_value_for d, cur)
        else
          '(ms, cur) ← decode_marked_members (decode_pv_field_with_bitset rtems host o marks)
                         fs (bit_offset + 1) cur;
          Ok (PvField.Structure (mkPvStructure id ms), cur)
    | _ => Ok (default_value_for d, cur)
    end.

Section DecodeMembersCached.
Variable child : FieldDesc -> nat -> dec PvField.t.
Fixpoint decode_marked_members_cached (fs : list (list Z * FieldDesc)) (child_bit : nat)
    : dec (list (list Z * PvField.t)) :=
  match fs with
  | [] => mret []
  | (name, d) :: fs =>
      v ← child d child_bit;
      rest ← decode_marked_members_cached fs (child_bit + total_bits d);
      mret ((name, v) :: rest)
  end.
End DecodeMembersCached.

Fixpoint decode_pv_field_with_bitset_cached `{Target} (rtems : bool) (host o : ByteOrder)
    (marks : BitSet.t) (d : FieldDesc) (bit_offset : nat) : dec PvField.t :=
  if BitSet.get marks bit_offset then decode_pv_field_cached rtems host o d
  else
    match d with
    | Structure id fs =>
        if negb (BitSet.any_in marks bit_offset (bit_offset + total_bits d))
        then mret (default_value_for d)
        else
          ms ← decode_marked_members_cached
                 (decode_pv_field_with_bitset_cached rtems host o marks) fs (bit_offset + 1);
          mret (PvField.Structure (mkPvStructure id ms))
    | _ => mret (default_value_for d)
    end.

(** *** In place

    The destination keeps what was written to it before a failure. *)
Definition into (A : Type) : Type :=
  A -> TypeCache -> list Z -> TypeCache * A * result DecodeError (list Z).

(** [*dst = r?]. *)
Definition assign {A : Type} (r : dec A) : into A := fun dst cache cur =>
  match r cache cur with
  | (cache, Ok (v, cur)) => (cache, v, Ok cur)
  | (cache, Err e) => (cache, dst, Err e)
  end.

Definition untouched {A : Type} : into A := fun dst cache cur => (cache, dst, Ok cur).

Section IntoMembers.
Variable child : FieldDesc -> nat -> into PvField.t.
(** The loop over [s.fields.iter_mut().zip(fields)]. *)
Fixpoint decode_into_members (fs : list (list Z * FieldDesc)) (child_bit : nat)
    : into (list (list Z * PvField.t)) := fun ms cache cur =>
  match ms, fs with
  | (n, slot) :: ms, (_, d) :: fs =>
      match child d child_bit slot cache cur with
      | (cache, slot, Ok cur) =>
          let '(cache, ms, r) := decode_into_members fs (child_bit + total_bits d) ms cache cur in
          (cache, (n, slot) :: ms, r)
      | (cache, slot, Err e) => (cache, (n, slot) :: ms, Err e)
      end
  | _, _ => (cache, ms, Ok cur)
  end.
End IntoMembers.

Fixpoint decode_pv_field_with_bitset_into `{Target} (rtems : bool) (host o : ByteOrder)
    (marks : BitSet.t) (d : FieldDesc) (bit_offset : nat) : into PvField.t :=
  if BitSet.get marks bit_offset then assign (decode_pv_field_cached rtems host o d)
  else
    match d with
    | Structure id fs =>
        if negb (BitSet.any_in marks bit_offset (bit_offset + total_bits d)) then untouched
        else fun dst cache cur =>
          let fresh :=
            assign (decode_pv_field_with_bitset_cached rtems host o marks d bit_offset)
              dst cache cur in
          match dst with
          | PvField.Structure s =>
              if (length (fields s) =? length fs)%nat then
                let '(cache, ms, r) :=
                  decode_into_members (decode_pv_field_with_bitset_into rtems host o marks)
                    fs (bit_offset + 1) (fields s) cache cur in
                (cache, PvField.Structure (mkPvStructure (struct_id s) ms), r)
              else fresh
          | _ => fresh
          end
    | _ => untouched
    end.

(** ** Merging *)

(** [Vec::swap_remove]: the last element takes the place of the removed one. *)
Definition swap_remove {A : Type} (i : nat) (l : list A) : list A :=
  match last l with
  | Some z => removelast (<[i := z]> l)
  | None => l
  end.

(** The child of a name taken out of the decoded members. *)
Definition take_named {A : Type} (name : list Z) (l : list (list Z * A))
    : option (A * list (list Z * A)) :=
  i ← position (fun '(n, _) => bool_decide (n = name)) l;
  '(_, a) ← l !! i;
  Some (a, swap_remove i l).

Section FillMembers.
Variable fill : FieldDesc -> nat -> PvField.t -> PvField.t -> PvField.t.
Fixpoint fill_members (fs : list (list Z * FieldDesc)) (child_bit : nat)
    (decoded_children : list (list Z * PvField.t)) (prior_struct : option struct_t)
    : list (list Z * PvField.t) :=
  match fs with
  | [] => []
  | (name, child_desc) :: fs =>
      let '(decoded_child, decoded_children) :=
        match take_named name decoded_children with
        | Some (c, rest) => (c, rest)
        | None => (default_value_for child_desc, decoded_children)
        end in
      let prior_child :=
        default (default_value_for child_desc) (s ← prior_struct; get_field s name) in
      (name, fill child_desc child_bit decoded_child prior_child)
      :: fill_members fs (child_bit + total_bits child_desc) decoded_children prior_struct
  end.
End FillMembers.

Fixpoint fill_unmarked_from_prior (marks : BitSet.t) (d : FieldDesc) (bit_offset : nat)
    (decoded prior : PvField.t) : PvField.t :=
  if BitSet.get marks bit_offset then decoded
  else
    match d with
    | Structure id fs =>
        let decoded_children :=
          match decoded with PvField.Structure s => fields s | _ => [] end in
        let prior_struct := match prior with PvField.Structure s => Some s | _ => None end in
        PvField.Structure (mkPvStructure id
          (fill_members (fill_unmarked_from_prior marks) fs (bit_offset + 1)
             decoded_children prior_struct))
    | _ => prior
    end.

Section PruneMembers.
Variable prune : FieldDesc -> nat -> PvField.t -> option PvField.t.
Fixpoint prune_members (fs : list (list Z * FieldDesc)) (child_bit : nat)
    (decoded_struct : option struct_t) : list (list Z * PvField.t) :=
  match fs with
  | [] => []
  | (name, child_desc) :: fs =>
      let decoded_child :=
        default (default_value_for child_desc) (s ← decoded_struct; get_field s name) in
      let rest := prune_members fs (child_bit + total_bits child_desc) decoded_struct in
      match prune child_desc child_bit decoded_child with
      | Some kept => (name, kept) :: rest
      | None => rest
      end
  end.
End PruneMembers.

Fixpoint prune_to_marked (marks : BitSet.t) (d : FieldDesc) (bit_offset : nat)
    (decoded : PvField.t) : option PvField.t :=
  if BitSet.get marks bit_offset then Some decoded
  else
    match d with
    | Structure id fs =>
        let decoded_struct := match decoded with PvField.Structure s => Some s | _ => None end in
        match prune_members (prune_to_marked marks) fs (bit_offset + 1) decoded_struct with
        | [] => None
        | ms => Some (PvField.Structure (mkPvStructure id ms))
        end
    | _ => None
    end.

(** ** Queued monitor bodies *)

Record MonitorBody : Type := mkMonitorBody {
  body_bytes : list Z;
  body_order : ByteOrder;
}.

Section LeafMembers.
Variable walk : FieldDesc -> nat -> BitSet.t -> BitSet.t.
Fixpoint leaf_members (fs : list (list Z * FieldDesc)) (child : nat) (out : BitSet.t) : BitSet.t :=
  match fs with
  | [] => out
  | (_, f) :: fs => leaf_members fs (child + total_bits f) (walk f child out)
  end.
End LeafMembers.

Fixpoint leaf_bits (src : BitSet.t) (d : FieldDesc) (bit : nat) (whole : bool) (out : BitSet.t)
    : BitSet.t :=
  let whole := whole || BitSet.get src bit in
  match d with
  | Structure _ fs =>
      leaf_members (fun f child out => leaf_bits src f child whole out) fs (bit + 1) out
  | _ => if whole then BitSet.set out bit else out
  end.

Definition union_into (a b : BitSet.t) : BitSet.t := foldl BitSet.set a (BitSet.iter b).

(** The part that failed, with the error. *)
Inductive SquashError : Type := SquashErr (part : string) (e : DecodeError).

Definition squash_monitor_bodies `{Target} `{ScalarCopy} (rtems : bool) (host : ByteOrder)
    (intro : FieldDesc) (older newer : MonitorBody) (out_order : ByteOrder)
    : result SquashError (list Z) :=
  let part {A} (what : string) (r : result DecodeError A) : result SquashError A :=
    map_err (SquashErr what) r in
  '(changed_a, cur_a) ← part "older changed bitset"
                          (BitSet.decode (body_order older) (body_bytes older));
  '(value, cur_a) ← part "older value"
      (decode_pv_field_with_bitset rtems host (body_order older) changed_a intro 0 cur_a);
  '(overrun_a, _) ← part "older overrun bitset" (BitSet.decode (body_order older) cur_a);
  '(changed_b, cur_b) ← part "newer changed bitset"
                          (BitSet.decode (body_order newer) (body_bytes newer));
  let '(_, value, r) :=
    decode_pv_field_with_bitset_into rtems host (body_order newer) changed_b intro 0
      value ∅ cur_b in
  cur_b ← part "newer value" r;
  '(overrun_b, _) ← part "newer overrun bitset" (BitSet.decode (body_order newer) cur_b);
  let changed := leaf_bits changed_a intro 0 false BitSet.new in
  let leaves_b := leaf_bits changed_b intro 0 false BitSet.new in
  let changed := union_into changed leaves_b in
  let overrun := union_into overrun_a overrun_b in
  Ok (BitSet.encode changed out_order
      ++ encode_pv_field_with_bitset host out_order value intro changed 0
      ++ BitSet.encode overrun out_order).
