(* ===== verification/PvaDeltaTheory.v ===== *)
(** * Properties of deltas

    A value is the function from its leaves' bits to their values; a delta overlays the leaves
    it marks.  Encoding and decoding a delta, merging it into an earlier value, decoding it in
    place, copying the marked fields of a post and squashing two queued bodies are each that
    overlay, so a client that merges every update it receives holds the server's value,
    squashed or not. *)
From stdpp Require Import base tactics numbers list option strings gmap.
From S2P Require Import Prelude PvaProto PvaProtoTheory PvaText PvaDesc PvaDescTheory PvaValue PvaCheck.
From S2P Require Import PvaValueTheory PvaReadTheory PvaDelta.
Import BitSetTheory.

Open Scope Z_scope.

(** ** Values as leaves *)

(** The structures of a descriptor, whatever the leaves. *)
Fixpoint shaped (v : PvField.t) (d : FieldDesc) : bool :=
  match d with
  | Structure id fs =>
      match v with
      | PvField.Structure s => bool_decide (struct_id s = id) && zip_typed shaped (fields s) fs
      | _ => false
      end
  | _ => true
  end.

Abbreviation fields_of v := (match v with PvField.Structure s => fields s | _ => [] end).

Section LeafAt.
Variable leaf : FieldDesc -> nat -> PvField.t -> nat -> option PvField.t.
Fixpoint member_leaf (fs : list (list Z * FieldDesc)) (bit : nat) (ms : list (list Z * PvField.t))
    (p : nat) : option PvField.t :=
  match fs, ms with
  | (_, d) :: fs, (_, v) :: ms =>
      if (p <? bit + total_bits d)%nat then leaf d bit v p
      else member_leaf fs (bit + total_bits d) ms p
  | _, _ => None
  end.
End LeafAt.

(** The leaf of bit [p], in a value whose own bit is [bit]. *)
Fixpoint leaf_at (d : FieldDesc) (bit : nat) (v : PvField.t) (p : nat) : option PvField.t :=
  match d with
  | Structure _ fs => member_leaf leaf_at fs (bit + 1) (fields_of v) p
  | _ => if (p =? bit)%nat then Some v else None
  end.

Section CoveredAt.
Variable covered : FieldDesc -> nat -> nat -> bool.
Fixpoint member_covered (fs : list (list Z * FieldDesc)) (bit : nat) (p : nat) : bool :=
  match fs with
  | [] => false
  | (_, d) :: fs =>
      if (p <? bit + total_bits d)%nat then covered d bit p
      else member_covered fs (bit + total_bits d) p
  end.
End CoveredAt.

(** The leaf [p] is marked, by its own bit or by that of a structure around it. *)
Fixpoint covered (m : nat -> bool) (whole : bool) (d : FieldDesc) (bit p : nat) : bool :=
  let whole := whole || m bit in
  match d with
  | Structure _ fs => member_covered (covered m whole) fs (bit + 1) p
  | _ => whole && (p =? bit)%nat
  end.

Section Overlay.
Variable over : FieldDesc -> nat -> PvField.t -> PvField.t -> PvField.t.
Fixpoint overlay_members (fs : list (list Z * FieldDesc)) (bit : nat)
    (new old : list (list Z * PvField.t)) : list (list Z * PvField.t) :=
  match fs, new, old with
  | (n, d) :: fs, (_, v) :: new, (_, w) :: old =>
      (n, over d bit v w) :: overlay_members fs (bit + total_bits d) new old
  | _, _, _ => []
  end.
End Overlay.

(** The marked leaves of [new], the others of [old]. *)
Fixpoint overlay (m : nat -> bool) (d : FieldDesc) (bit : nat) (new old : PvField.t) : PvField.t :=
  if m bit then new
  else
    match d with
    | Structure id fs =>
        PvField.Structure (mkPvStructure id
          (overlay_members (overlay m) fs (bit + 1) (fields_of new) (fields_of old)))
    | _ => old
    end.

(** *** Shapes *)

Lemma total_bits_pos d : (0 < total_bits d)%nat.
Proof. destruct d; simpl; lia. Qed.

Lemma shaped_struct v id fs :
  shaped v (Structure id fs) = true <->
  v = PvField.Structure (mkPvStructure id (fields_of v)) /\ zip_typed shaped (fields_of v) fs = true.
Proof.
  destruct v as [| | |[id' ms]| | | | | |]; simpl; try (split; [done|by intros [? _]]).
  rewrite andb_true_iff, bool_decide_eq_true. split; [by intros [-> ?]|].
  by intros [[= ->] ?].
Qed.

Lemma zip_shaped_forall2 ms fs :
  zip_typed shaped ms fs = true <-> Forall2 (fun m f => m.1 = f.1 /\ shaped m.2 f.2 = true) ms fs.
Proof.
  split.
  - revert fs. induction ms as [|[n v] ms IH]; intros [|[m d] fs]; simpl; try done.
    rewrite !andb_true_iff, bool_decide_eq_true. intros [[-> Hv] Hz]. constructor; auto.
  - induction 1 as [|[n v] [m d] ms fs [Hn Hv] _ IH]; [done|]. simpl in *.
    by rewrite bool_decide_eq_true_2, Hv, IH.
Qed.

(** Two values of one shape, member by member. *)
Inductive zip3 (P : FieldDesc -> PvField.t -> PvField.t -> Prop)
    : list (list Z * FieldDesc) -> list (list Z * PvField.t) -> list (list Z * PvField.t) -> Prop :=
| zip3_nil : zip3 P [] [] []
| zip3_cons n d v w fs ns os :
    shaped v d = true -> shaped w d = true -> P d v w -> zip3 P fs ns os ->
    zip3 P ((n, d) :: fs) ((n, v) :: ns) ((n, w) :: os).

Definition is_leaf (d : FieldDesc) : bool := match d with Structure _ _ => false | _ => true end.

Lemma leaf_shaped v d : is_leaf d = true -> shaped v d = true.
Proof. by destruct d, v. Qed.

Lemma shaped_ind2 (P : FieldDesc -> PvField.t -> PvField.t -> Prop) :
  (forall d v w, is_leaf d = true -> P d v w) ->
  (forall id fs ns os, zip3 P fs ns os ->
     P (Structure id fs) (PvField.Structure (mkPvStructure id ns)) (PvField.Structure (mkPvStructure id os))) ->
  forall d v w, shaped v d = true -> shaped w d = true -> P d v w.
Proof.
  intros Hl Hs. induction d as [d IH] using desc_ind'. intros v w Hv Hw.
  destruct d as [| |id fs| | | | |]; try (by apply Hl).
  apply shaped_struct in Hv as [Ev Hv]. apply shaped_struct in Hw as [Ew Hw].
  rewrite Ev, Ew. apply Hs. clear Ev Ew.
  apply zip_shaped_forall2 in Hv, Hw. simpl in IH. revert Hv Hw IH.
  generalize (fields_of v) (fields_of w). intros vs ws Hv. revert ws.
  induction Hv as [|[n v'] [x d] ns fs [Hx Hv'] _ IHv]; intros os Ho IH.
  - apply Forall2_nil_inv_r in Ho as ->. constructor.
  - apply Forall2_cons_inv_r in Ho as ([y w'] & os' & [Hy Hw'] & Ho & ->).
    apply list.Forall_cons in IH as [IHd IH]. simpl in *. subst. constructor; auto.
Qed.

Lemma shaped_members P id fs ns os :
  zip3 P fs ns os ->
  shaped (PvField.Structure (mkPvStructure id ns)) (Structure id fs) = true /\
  shaped (PvField.Structure (mkPvStructure id os)) (Structure id fs) = true.
Proof.
  intros Hz. simpl. rewrite bool_decide_eq_true_2 by done. simpl.
  induction Hz as [|n d v w fs ns os Hv Hw _ _ [IH1 IH2]]; [done|]. simpl.
  by rewrite bool_decide_eq_true_2, Hv, Hw, IH1, IH2.
Qed.

Lemma overlay_leaf m d bit new old : is_leaf d = true -> overlay m d bit new old = if m bit then new else old.
Proof. by destruct d. Qed.

Lemma overlay_shaped m d new old :
  shaped new d = true -> shaped old d = true ->
  forall bit, shaped (overlay m d bit new old) d = true.
Proof.
  revert d new old. apply (shaped_ind2 (fun d new old => forall bit, shaped (overlay m d bit new old) d = true)).
  - intros. by apply leaf_shaped.
  - intros id fs ns os Hz bit. cbn [overlay]. destruct (m bit).
    { by apply (shaped_members _ _ _ _ _ Hz). }
    apply shaped_struct. split; [done|]. cbn [fields]. generalize (bit + 1)%nat. clear bit.
    induction Hz as [|n d v w fs ns os _ _ IHd _ IH]; intros bit; [done|]. simpl.
    by rewrite bool_decide_eq_true_2, IHd, IH.
Qed.

(** What an overlay has at each leaf. *)
Lemma leaf_overlay m d new old :
  shaped new d = true -> shaped old d = true -> forall bit p whole,
  (if covered m whole d bit p then leaf_at d bit new p else leaf_at d bit old p)
  = leaf_at d bit (if whole then new else overlay m d bit new old) p.
Proof.
  revert d new old. apply (shaped_ind2 (fun d new old => forall bit p whole,
    (if covered m whole d bit p then leaf_at d bit new p else leaf_at d bit old p)
    = leaf_at d bit (if whole then new else overlay m d bit new old) p)).
  - intros d v w Hl bit p whole. rewrite overlay_leaf by done.
    assert (Hc : covered m whole d bit p = (whole || m bit) && (p =? bit)%nat) by (by destruct d).
    assert (Ha : forall v, leaf_at d bit v p = if (p =? bit)%nat then Some v else None) by (by destruct d).
    rewrite Hc, !Ha. by destruct whole, (m bit), (p =? bit)%nat.
  - intros id fs ns os Hz bit p whole. cbn [covered overlay].
    assert (Hm : forall bit whole,
      (if member_covered (covered m whole) fs bit p then member_leaf leaf_at fs bit ns p
       else member_leaf leaf_at fs bit os p)
      = member_leaf leaf_at fs bit
          (if whole then ns else overlay_members (overlay m) fs bit ns os) p).
    { clear bit whole. induction Hz as [|n d v w fs ns os _ _ IHd _ IH]; intros bit whole; [by destruct whole|].
      specialize (IH (bit + total_bits d)%nat whole). specialize (IHd bit p whole).
      destruct whole; cbn [member_covered member_leaf overlay_members];
        destruct (p <? bit + total_bits d)%nat; done. }
    specialize (Hm (bit + 1)%nat (whole || m bit)). cbn [leaf_at fields].
    rewrite Hm. by destruct whole, (m bit).
Qed.

(** A value of a shape is its leaves. *)
Lemma shaped_ext d v w :
  shaped v d = true -> shaped w d = true -> forall bit,
  (forall p, leaf_at d bit v p = leaf_at d bit w p) -> v = w.
Proof.
  enough (H : shaped v d = true -> shaped w d = true -> forall bit,
    (forall p, (bit <= p < bit + total_bits d)%nat -> leaf_at d bit v p = leaf_at d bit w p) -> v = w)
    by (intros; eapply H; eauto).
  revert d v w. apply (shaped_ind2 (fun d v w => forall bit,
    (forall p, (bit <= p < bit + total_bits d)%nat -> leaf_at d bit v p = leaf_at d bit w p) -> v = w)).
  - intros d v w Hl bit Hp. specialize (Hp bit). pose proof (total_bits_pos d).
    assert (Ha : forall v, leaf_at d bit v bit = Some v)
      by (intros; destruct d; try done; simpl; by rewrite Nat.eqb_refl).
    rewrite !Ha in Hp. injection Hp as ->; [done|lia].
  - intros id fs ns os Hz bit Hp. do 2 f_equal. cbn [leaf_at fields total_bits] in Hp.
    assert (Hq : forall p, (bit + 1 <= p < bit + 1 + sum_list_with
        (fun '((_, c) : list Z * FieldDesc) => total_bits c) fs)%nat ->
      member_leaf leaf_at fs (bit + 1) ns p = member_leaf leaf_at fs (bit + 1) os p)
      by (intros; apply Hp; lia).
    clear Hp. revert Hq. generalize (bit + 1)%nat. clear bit.
    induction Hz as [|n d v w fs ns os _ _ IHd _ IH]; intros bit Hq; [done|].
    cbn [member_leaf sum_list_with] in Hq. pose proof (total_bits_pos d). f_equal.
    + f_equal. apply (IHd bit). intros p Hp. specialize (Hq p ltac:(lia)).
      destruct (Nat.ltb_spec p (bit + total_bits d)); [done|lia].
    + apply (IH (bit + total_bits d)%nat). intros p Hp. specialize (Hq p ltac:(lia)).
      destruct (Nat.ltb_spec p (bit + total_bits d)); [lia|done].
Qed.

(** *** Marked leaves *)

Abbreviation members_bits fs :=
  (sum_list_with (fun '((_, c) : list Z * FieldDesc) => total_bits c) fs).

Lemma member_covered_range g fs :
  Forall (fun nc => forall bit p, g nc.2 bit p = true -> (bit <= p < bit + total_bits nc.2)%nat) fs ->
  forall bit p, member_covered g fs bit p = true -> (bit <= p < bit + members_bits fs)%nat.
Proof.
  induction 1 as [|[n d] fs Hd _ IH]; intros bit p; simpl; [done|].
  destruct (Nat.ltb_spec p (bit + total_bits d)); intros Hp;
    [apply Hd in Hp|apply IH in Hp]; simpl in *; lia.
Qed.

Lemma covered_range m d : forall whole bit p,
  covered m whole d bit p = true -> (bit <= p < bit + total_bits d)%nat.
Proof.
  induction d as [d IH] using desc_ind'. intros whole bit p.
  destruct d as [| |id fs| | | | |]; cbn [covered];
    try (intros [_ ->%Nat.eqb_eq]%andb_true_iff; simpl; lia).
  intros Hp. apply member_covered_range in Hp; [simpl; lia|].
  eapply Forall_impl; [exact IH|]. intros nc Hc b q. apply Hc.
Qed.

Lemma covered_false m d whole bit p :
  ~ (bit <= p < bit + total_bits d)%nat -> covered m whole d bit p = false.
Proof.
  intros Hp. destruct (covered m whole d bit p) eqn:E; [|done]. by apply covered_range in E.
Qed.

Lemma member_covered_false m whole fs bit p :
  ~ (bit <= p < bit + members_bits fs)%nat -> member_covered (covered m whole) fs bit p = false.
Proof.
  intros Hp. destruct (member_covered _ fs bit p) eqn:E; [|done].
  apply member_covered_range in E; [done|]. apply Forall_true. intros nc b q. apply covered_range.
Qed.

(** The leaf bits the code computes are the covered leaves. *)
Lemma get_leaf_bits src d : forall bit whole out p,
  BitSet.get (leaf_bits src d bit whole out) p
  = BitSet.get out p || covered (BitSet.get src) whole d bit p.
Proof.
  induction d as [d IH] using desc_ind'. intros bit whole out p.
  destruct (is_leaf d) eqn:Hl.
  - assert (E : leaf_bits src d bit whole out
                = if whole || BitSet.get src bit then BitSet.set out bit else out) by (by destruct d).
    assert (Hc : covered (BitSet.get src) whole d bit p
                 = (whole || BitSet.get src bit) && (p =? bit)%nat) by (by destruct d).
    rewrite E, Hc. destruct (whole || BitSet.get src bit); simpl; [|by rewrite orb_false_r].
    by rewrite get_set, (Nat.eqb_sym bit p), orb_comm.
  - destruct d as [| |id fs| | | | |]; try done. cbn [leaf_bits covered members] in *.
    generalize (whole || BitSet.get src bit). clear Hl whole. intros whole.
    generalize (bit + 1)%nat. clear bit. intros bit. revert bit out.
    induction IH as [|[n c] fs Hc _ IHfs]; intros bit out; cbn [leaf_members member_covered];
      [by rewrite orb_false_r|].
    rewrite IHfs, Hc. cbn [snd]. destruct (Nat.ltb_spec p (bit + total_bits c)).
    + rewrite (member_covered_false _ _ fs) by lia. by rewrite orb_false_r.
    + rewrite (covered_false _ c) by lia. by rewrite orb_false_r.
Qed.

Lemma covered_ext m m' d : (forall i, m i = m' i) -> forall whole bit p,
  covered m whole d bit p = covered m' whole d bit p.
Proof.
  intros Hm. induction d as [d IH] using desc_ind'. intros whole bit p.
  destruct d as [| |id fs| | | | |]; cbn [covered]; rewrite ?Hm; try done.
  generalize (whole || m' bit) (bit + 1)%nat. clear bit whole. intros whole. simpl in IH.
  induction IH as [|[n c] fs Hc _ IHfs]; intros bit; cbn [member_covered]; [done|].
  rewrite Hc, IHfs. done.
Qed.

(** A leaf covered at all is a leaf. *)
Lemma covered_weaken m m' d : forall whole bit p,
  covered m whole d bit p = true -> covered m' true d bit p = true.
Proof.
  induction d as [d IH] using desc_ind'. intros whole bit p.
  destruct d as [| |id fs| | | | |]; cbn [covered orb]; try (by intros [_ ->]%andb_true_iff).
  generalize (whole || m bit) (bit + 1)%nat. clear bit whole. intros whole. simpl in IH.
  induction IH as [|[n c] fs Hc _ IHfs]; intros bit; cbn [member_covered snd] in *; [done|].
  destruct (p <? bit + total_bits c)%nat; [apply Hc|apply IHfs].
Qed.

(** A set of leaf bits covers exactly its members. *)
Lemma covered_self g d : forall bit,
  (forall p, (bit <= p < bit + total_bits d)%nat -> g p = true -> covered g true d bit p = true) ->
  forall p, covered g false d bit p = g p && covered g true d bit p.
Proof.
  induction d as [d IH] using desc_ind'. intros bit Hg p.
  destruct (is_leaf d) eqn:Hl.
  - assert (Hc : forall whole, covered g whole d bit p = (whole || g bit) && (p =? bit)%nat) by (by destruct d).
    rewrite !Hc. simpl. destruct (Nat.eqb_spec p bit); subst; by rewrite ?andb_true_r, ?andb_false_r.
  - destruct d as [| |id fs| | | | |]; try done. cbn [covered total_bits members orb] in *.
    assert (Hb : g bit = false).
    { destruct (g bit) eqn:E; [|done]. specialize (Hg bit ltac:(lia) E).
      by rewrite member_covered_false in Hg by lia. }
    rewrite Hb. assert (Hg' : forall p, (bit + 1 <= p < bit + 1 + members_bits fs)%nat -> g p = true ->
      member_covered (covered g true) fs (bit + 1) p = true) by (intros; apply Hg; [lia|done]).
    clear Hg Hl Hb. revert Hg'. generalize (bit + 1)%nat. clear bit.
    induction IH as [|[n c] fs Hc _ IHfs]; intros bit Hg; cbn [member_covered sum_list_with snd] in *;
      [by rewrite andb_false_r|].
    pose proof (total_bits_pos c). destruct (Nat.ltb_spec p (bit + total_bits c)).
    + apply Hc. intros q Hq Hgq. specialize (Hg q ltac:(lia) Hgq).
      by destruct (Nat.ltb_spec q (bit + total_bits c)); [|lia].
    + apply IHfs. intros q Hq Hgq. specialize (Hg q ltac:(lia) Hgq).
      by destruct (Nat.ltb_spec q (bit + total_bits c)); [lia|].
Qed.

(** *** Overlays *)

Lemma covered_none m d : forall bit p,
  (forall i, (bit <= i < bit + total_bits d)%nat -> m i = false) -> covered m false d bit p = false.
Proof.
  induction d as [d IH] using desc_ind'. intros bit p Hm. pose proof (total_bits_pos d).
  destruct d as [| |id fs| | | | |]; cbn [covered]; rewrite (Hm bit) by lia; try done.
  simpl orb. simpl in IH, Hm.
  assert (Hm' : forall i, (bit + 1 <= i < bit + 1 + members_bits fs)%nat -> m i = false)
    by (intros; apply Hm; lia). clear Hm. revert Hm'. generalize (bit + 1)%nat. clear bit H.
  induction IH as [|[n c] fs Hc _ IHfs]; intros bit Hm; cbn [member_covered sum_list_with] in *; [done|].
  destruct (p <? bit + total_bits c)%nat; [apply Hc|apply IHfs]; intros; apply Hm; simpl in *; lia.
Qed.

Lemma leaf_overlay_at m d bit new old p :
  shaped new d = true -> shaped old d = true ->
  leaf_at d bit (overlay m d bit new old) p
  = if covered m false d bit p then leaf_at d bit new p else leaf_at d bit old p.
Proof. intros Hn Ho. by rewrite (leaf_overlay m d new old Hn Ho bit p false). Qed.

(** Nothing marked, nothing changed. *)
Lemma overlay_none m d bit new old :
  shaped new d = true -> shaped old d = true ->
  (forall i, (bit <= i < bit + total_bits d)%nat -> m i = false) -> overlay m d bit new old = old.
Proof.
  intros Hn Ho Hm. apply (shaped_ext d _ _ (overlay_shaped m d new old Hn Ho bit) Ho bit).
  intros p. rewrite leaf_overlay_at, covered_none by done. done.
Qed.

(** Two overlays agree when they cover the same leaves. *)
Lemma overlay_same m m' d bit new old :
  shaped new d = true -> shaped old d = true ->
  (forall p, covered m false d bit p = covered m' false d bit p) ->
  overlay m d bit new old = overlay m' d bit new old.
Proof.
  intros Hn Ho Hc.
  apply (shaped_ext d _ _ (overlay_shaped m d new old Hn Ho bit) (overlay_shaped m' d new old Hn Ho bit) bit).
  intros p. by rewrite !leaf_overlay_at, Hc by done.
Qed.

Lemma default_shaped d : shaped (default_value_for d) d = true.
Proof.
  induction d as [d IH] using desc_ind'. destruct d as [| |id fs| | | | |]; try done.
  apply shaped_struct. split; [done|]. cbn [default_value_for fields].
  apply zip_shaped_forall2. simpl in IH. induction IH as [|[n c] fs Hc _ IHfs]; [constructor|].
  rewrite fmap_cons. by constructor.
Qed.

Lemma typed_shaped v d : well_typed v d = true -> shaped v d = true.
Proof.
  revert d. induction v as [v IH] using value_ind'. intros d Ht.
  destruct (is_leaf d) eqn:Hl; [by apply leaf_shaped|].
  destruct d as [| |id fs| | | | |]; try done. destruct v as [| | |s| | | | | |]; try done.
  simpl in *. apply andb_true_iff in Ht as [-> Hz]. simpl. revert fs Hz Hl IH.
  generalize (fields s). intros ms. induction ms as [|[n v] ms IHms]; intros [|[x c] fs] Hz Hl IH; try done.
  simpl in *. rewrite !andb_true_iff in *. destruct Hz as [[Hn Hv] Hz].
  apply list.Forall_cons in IH as [IHv IH]. eauto.
Qed.

Create HintDb shapes.
#[export] Hint Resolve overlay_shaped default_shaped typed_shaped : shapes.

(** ** Merging is overlaying *)

Lemma swap_remove_perm {A : Type} i (l : list A) x :
  l !! i = Some x -> l ≡ₚ x :: swap_remove i l.
Proof.
  intros Hi. unfold swap_remove. destruct l as [|a l _] using rev_ind; [done|].
  rewrite last_snoc. destruct (decide (i = length l)) as [->|Hne].
  - rewrite list_insert_id.
    + rewrite removelast_last. rewrite lookup_app_r, Nat.sub_diag in Hi by lia. injection Hi as ->.
      symmetry. apply Permutation_cons_append.
    + by rewrite lookup_app_r, Nat.sub_diag by lia.
  - apply lookup_lt_Some in Hi as Hl. rewrite length_app in Hl. simpl in Hl.
    rewrite lookup_app_l in Hi by lia. rewrite insert_app_l, removelast_last by lia.
    rewrite insert_take_drop by lia. rewrite <- (take_drop_middle l i x Hi) at 1.
    rewrite <- app_assoc. cbn [app]. rewrite <- Permutation_middle. constructor.
    rewrite app_assoc, <- Permutation_cons_append. by rewrite Permutation_middle.
Qed.

Lemma take_named_perm {A : Type} n (v : A) l l' :
  NoDup l.*1 -> l ≡ₚ (n, v) :: l' -> exists l'', take_named n l = Some (v, l'') /\ l'' ≡ₚ l'.
Proof.
  intros Hnd Hp. assert (Hin : (n, v) ∈ l) by (rewrite Hp; constructor).
  unfold take_named. destruct (position _ l) as [i|] eqn:Ei.
  - simpl. apply position_spec in Ei as ([n' w] & Hi & Hn). apply bool_decide_eq_true in Hn as ->.
    rewrite Hi. simpl. apply list_elem_of_lookup in Hin as [j Hj].
    assert (w = v) as ->.
    { pose proof (find_name_nodup n w l i Hnd Hi). pose proof (find_name_nodup n v l j Hnd Hj). congruence. }
    exists (swap_remove i l). split; [done|]. apply (Permutation_cons_inv (a := (n, v))).
    by rewrite <- (swap_remove_perm i l (n, v) Hi).
  - exfalso. revert Hin Ei. clear. induction l as [|[m w] l IH]; simpl; [by intros ?%not_elem_of_nil|].
    intros [[= -> ->]|Hin]%elem_of_cons; [by rewrite bool_decide_eq_true_2|].
    case_bool_decide; [done|]. destruct (position _ l); [done|]. auto.
Qed.

(** The member names of every structure of a descriptor are distinct. *)
Fixpoint distinct_desc (d : FieldDesc) : Prop :=
  match d with
  | Structure _ fs => NoDup fs.*1 /\ foldr (fun '(_, c) Q => distinct_desc c /\ Q) True fs
  | _ => True
  end.

Lemma zip3_names P fs ns os : zip3 P fs ns os -> ns.*1 = fs.*1 /\ os.*1 = fs.*1.
Proof. induction 1 as [|n d v w fs ns os _ _ _ _ [IH1 IH2]]; [done|]. by rewrite !fmap_cons, IH1, IH2. Qed.

Lemma fill_members_overlay g over P fs ns os :
  zip3 P fs ns os ->
  (forall d v w, (exists n, (n, d) ∈ fs) -> P d v w -> forall bit, g d bit v w = over d bit v w) ->
  NoDup fs.*1 -> forall bit children prior,
  children ≡ₚ ns -> (forall n w, (n, w) ∈ os -> get_field prior n = Some w) ->
  fill_members g fs bit children (Some prior) = overlay_members over fs bit ns os.
Proof.
  intros Hz Hg Hnd. induction Hz as [|n d v w fs ns os Hv Hw HP Hz IH]; intros bit children prior Hc Hp; [done|].
  pose proof (zip3_names _ _ _ _ Hz) as [Hn1 Hn2]. rewrite fmap_cons in Hnd.
  apply NoDup_cons in Hnd as [Hn Hnd]. cbn [fill_members overlay_members].
  destruct (take_named_perm n v children ns) as (rest & -> & Hr); [|done|].
  { assert (Hf : children.*1 ≡ₚ n :: ns.*1) by (rewrite Hc; done). rewrite Hf, Hn1. by constructor. }
  cbn [mbind option_bind]. rewrite (Hp n w) by constructor. simpl. f_equal.
  - f_equal. apply Hg; [exists n; constructor|done].
  - apply IH; [|done..|].
    + intros d' v' w' [x Hx]. apply Hg. exists x. by constructor.
    + intros x y Hx. apply Hp. by constructor.
Qed.

Lemma fill_overlay marks d decoded prior :
  shaped decoded d = true -> shaped prior d = true -> distinct_desc d -> forall bit,
  fill_unmarked_from_prior marks d bit decoded prior = overlay (BitSet.get marks) d bit decoded prior.
Proof.
  revert d decoded prior. apply (shaped_ind2 (fun d decoded prior => distinct_desc d -> forall bit,
    fill_unmarked_from_prior marks d bit decoded prior
    = overlay (BitSet.get marks) d bit decoded prior)).
  - by intros [].
  - intros id fs ns os Hz [Hnd Hdd] bit. cbn [fill_unmarked_from_prior overlay fields].
    destruct (BitSet.get marks bit); [done|]. do 2 f_equal.
    pose proof (zip3_names _ _ _ _ Hz) as [_ Hn2].
    eapply fill_members_overlay; [exact Hz| |done|done|].
    + intros d v w [n Hin] HP. apply HP. clear -Hin Hdd. induction fs as [|[m c] fs IH];
        [by apply not_elem_of_nil in Hin|]. simpl in Hdd.
      apply elem_of_cons in Hin as [[= -> ->]|Hin]; [tauto|]. apply IH; tauto.
    + intros n w Hin. unfold get_field. cbn [fields]. apply list_elem_of_lookup in Hin as [i Hi].
      eapply find_name_nodup; [by rewrite Hn2|done].
Qed.

(** ** Copying the marked fields of a post *)

Lemma copy_members_overlay (copy over : FieldDesc -> nat -> PvField.t -> PvField.t -> PvField.t) P fs ns os :
  zip3 P fs ns os -> (forall d v w, P d v w -> forall bit, copy d bit v w = over d bit v w) ->
  forall bit (ds : struct_t) i pre pre',
    fields ds = pre ++ ns -> length pre = i -> length pre' = i ->
    copy_marked_members copy ds i fs bit (pre' ++ os) = pre' ++ overlay_members over fs bit ns os.
Proof.
  intros Hz Hc. induction Hz as [|n d v w fs ns os _ _ HP _ IH]; intros bit ds i pre pre' Hf Hi Hi';
    cbn [copy_marked_members overlay_members]; [done|].
  assert (Hm : member_at ds i n = Some v).
  { unfold member_at. rewrite Hf, lookup_app_r, Hi, Nat.sub_diag by lia. simpl. by case_bool_decide. }
  rewrite Hm. unfold alter_at. rewrite lookup_app_r, Hi', Nat.sub_diag by lia.
  cbn [lookup list_lookup]. rewrite bool_decide_eq_true_2 by done.
  rewrite insert_app_r_alt, Hi', Nat.sub_diag by lia.
  cbn [insert list_insert]. rewrite (Hc _ _ _ HP).
  change ((n, over d bit v w) :: os) with ([(n, over d bit v w)] ++ os). rewrite app_assoc.
  rewrite (IH _ ds (S i) (pre ++ [(n, v)]) (pre' ++ [(n, over d bit v w)])).
  - by rewrite <- app_assoc.
  - by rewrite Hf, <- app_assoc.
  - rewrite length_app. simpl. lia.
  - rewrite length_app. simpl. lia.
Qed.

Lemma copy_overlay marks d delta cur :
  shaped delta d = true -> shaped cur d = true -> forall bit,
  copy_marked marks d bit delta cur = overlay (BitSet.get marks) d bit delta cur.
Proof.
  revert d delta cur. apply (shaped_ind2 (fun d delta cur => forall bit,
    copy_marked marks d bit delta cur = overlay (BitSet.get marks) d bit delta cur)).
  - by intros [].
  - intros id fs ns os Hz bit. cbn [copy_marked overlay fields struct_id].
    destruct (BitSet.get marks bit); [done|]. do 2 f_equal.
    by apply (copy_members_overlay _ _ _ _ _ _ Hz (fun _ _ _ H => H) _ _ 0 [] []).
Qed.

(** ** Deltas on the wire *)

Section Wire.
Context `{Target} `{ScalarCopyOk}.
Variable rtems : bool.
Variables host o : ByteOrder.

(** A value that is read back as it is. *)
Definition ready (v : PvField.t) (d : FieldDesc) : Prop :=
  well_typed v d = true /\ everywhere distinct_here v /\ value_ok rtems v /\ desc_fits rtems d /\
  (wire_levels v <= S (MAX_FIELD_DEPTH rtems))%nat.

Lemma ready_consumes v d :
  ready v d -> consumes (decode_pv_field_cached rtems host o d) (encode_pv_field host o v d) v.
Proof.
  intros (Ht & Hn & Hok & Hd & Hl). destruct (typed_settles v Hn d Ht) as (Hm & Hs & Hr).
  destruct (as_read_typed rtems host o v d Hok Hd Hm Hs) as [_ Hc]; rewrite Hr in *; done.
Qed.

Section MarkedReady.
Variable rdy : FieldDesc -> nat -> PvField.t -> Prop.
Fixpoint members_ready (fs : list (list Z * FieldDesc)) (bit : nat) (ms : list (list Z * PvField.t)) : Prop :=
  match fs, ms with
  | (_, d) :: fs, (_, v) :: ms => rdy d bit v /\ members_ready fs (bit + total_bits d) ms
  | _, _ => True
  end.
End MarkedReady.

(** Every marked part of a value is read back as it is. *)
Fixpoint marked_ready (m : nat -> bool) (d : FieldDesc) (bit : nat) (v : PvField.t) : Prop :=
  if m bit then ready v d
  else match d with
       | Structure _ fs => members_ready (marked_ready m) fs (bit + 1) (fields_of v)
       | _ => True
       end.

Variable marks : BitSet.t.
Hypothesis marks_wf : wf marks.

Lemma any_in_bit d bit : BitSet.get marks bit = true -> BitSet.any_in marks bit (bit + total_bits d) = true.
Proof.
  intros Hb. apply any_in_scan; [done|]. exists bit. pose proof (total_bits_pos d). split; [lia|done].
Qed.

Lemma any_in_false d bit :
  BitSet.any_in marks bit (bit + total_bits d) = false ->
  forall i, (bit <= i < bit + total_bits d)%nat -> BitSet.get marks i = false.
Proof.
  intros Ha i Hi. destruct (BitSet.get marks i) eqn:E; [|done]. rewrite <- Ha. symmetry.
  apply any_in_scan; [done|]. by exists i.
Qed.

Abbreviation sent := (fun v d bit => encode_pv_field_with_bitset host o v d marks bit).

Definition members_wire (fs : list (list Z * FieldDesc)) : nat -> list (list Z * PvField.t) -> list Z :=
  (fix go fs bit ms := match fs, ms with
     | (_, d) :: fs, (_, v) :: ms => sent v d bit ++ go fs (bit + total_bits d)%nat ms
     | _, _ => [] end) fs.

Lemma encode_members_wire fs (s : struct_t) i bit pre ms :
  fields s = pre ++ ms -> length pre = i ->
  Forall2 (fun f m => f.1 = m.1) fs ms ->
  encode_marked_members marks (fun v d bit => encode_marked host o marks v d bit)
    (PvField.Structure s) i fs bit = members_wire fs bit ms.
Proof.
  revert i bit pre ms. induction fs as [|[n d] fs IH]; intros i bit pre ms Hf Hi HF; [done|].
  destruct ms as [|[m v] ms]; [by apply Forall2_nil_inv_r in HF|].
  apply Forall2_cons in HF as [Hn HF]. simpl in Hn. subst m. cbn [encode_marked_members].
  assert (Hm : member_at s i n = Some v).
  { unfold member_at. rewrite Hf, lookup_app_r, Hi, Nat.sub_diag by lia. simpl. by case_bool_decide. }
  rewrite Hm. simpl default. rewrite (IH (S i) _ (pre ++ [(n, v)]) ms);
    [done|by rewrite Hf, <- app_assoc|rewrite length_app; simpl; lia|done].
Qed.

(** A decoder of a delta: what it reads, with the connection's cache and without. *)
Definition delta_read (d : FieldDesc) (bit : nat) (b : list Z) (w : PvField.t) : Prop :=
  consumes (decode_pv_field_with_bitset_cached rtems host o marks d bit) b w /\
  forall rest, decode_pv_field_with_bitset rtems host o marks d bit (b ++ rest) = Ok (w, rest).

Lemma delta_whole d bit b w :
  BitSet.get marks bit = true -> consumes (decode_pv_field_cached rtems host o d) b w ->
  delta_read d bit b w.
Proof.
  intros Hb Hc. split.
  - intros dc rest. destruct d; cbn [decode_pv_field_with_bitset_cached]; rewrite Hb; apply Hc.
  - intros rest. destruct d; cbn [decode_pv_field_with_bitset]; rewrite Hb;
      unfold decode_pv_field; by rewrite Hc.
Qed.

Lemma delta_nothing d bit :
  BitSet.any_in marks bit (bit + total_bits d) = false -> delta_read d bit [] (default_value_for d).
Proof.
  intros Ha. assert (Hb : BitSet.get marks bit = false).
  { apply (any_in_false d bit Ha). pose proof (total_bits_pos d). lia. }
  split.
  - intros dc rest. destruct d; cbn [decode_pv_field_with_bitset_cached]; rewrite Hb; try done.
    by rewrite Ha.
  - intros rest. destruct d; cbn [decode_pv_field_with_bitset]; rewrite Hb; try done. by rewrite Ha.
Qed.

Lemma delta_members fs bit ns os :
  zip3 (fun d v w => forall bit, marked_ready (BitSet.get marks) d bit v ->
          delta_read d bit (sent v d bit) (overlay (BitSet.get marks) d bit v w)) fs ns os ->
  members_ready (marked_ready (BitSet.get marks)) fs bit ns ->
  consumes (decode_marked_members_cached (decode_pv_field_with_bitset_cached rtems host o marks) fs bit)
    (members_wire fs bit ns) (overlay_members (overlay (BitSet.get marks)) fs bit ns os) /\
  forall rest, decode_marked_members (decode_pv_field_with_bitset rtems host o marks) fs bit
    (members_wire fs bit ns ++ rest)
    = Ok (overlay_members (overlay (BitSet.get marks)) fs bit ns os, rest).
Proof.
  intros Hz. revert bit. induction Hz as [|n d v w fs ns os _ _ HP _ IH]; intros bit Hr; [done|].
  destruct Hr as [Hv Hr]. destruct (HP bit Hv) as [Hc1 Hc2]. destruct (IH _ Hr) as [IHc1 IHc2].
  cbn [members_wire overlay_members decode_marked_members_cached decode_marked_members]. split.
  - eapply consumes_bind; [exact Hc1|]. cbn beta.
    by apply (consumes_map _ (fun rest => (n, overlay (BitSet.get marks) d bit v w) :: rest)).
  - intros rest. rewrite <- app_assoc, Hc2. rbind. by rewrite IHc2.
Qed.

Lemma zip3_default P Q fs ns os :
  zip3 P fs ns os -> os = (fun '((n, c) : list Z * FieldDesc) => (n, default_value_for c)) <$> fs ->
  (forall d v w, P d v w -> w = default_value_for d -> Q d v w) -> zip3 Q fs ns os.
Proof.
  intros Hz He Hpq. induction Hz as [|n d v w fs ns os Hv Hw HP _ IH]; [constructor|].
  rewrite fmap_cons in He. injection He as -> He. constructor; auto.
Qed.

Lemma sent_whole v d bit :
  BitSet.get marks bit = true -> sent v d bit = encode_pv_field host o v d.
Proof.
  intros Hb. unfold encode_pv_field_with_bitset. rewrite any_in_bit by done.
  destruct d; cbn [encode_marked]; try done. by rewrite Hb.
Qed.

(** The marked leaves of a value, sent and read back: they arrive, the rest are defaults. *)
Lemma delta_reads d v w :
  shaped v d = true -> shaped w d = true -> w = default_value_for d -> forall bit,
  marked_ready (BitSet.get marks) d bit v ->
  delta_read d bit (sent v d bit) (overlay (BitSet.get marks) d bit v w).
Proof.
  revert d v w. apply (shaped_ind2 (fun d v w => w = default_value_for d -> forall bit,
    marked_ready (BitSet.get marks) d bit v ->
    delta_read d bit (sent v d bit) (overlay (BitSet.get marks) d bit v w))).
  - intros d v w Hl -> bit Hr. rewrite overlay_leaf by done.
    destruct (BitSet.get marks bit) eqn:Hb.
    + rewrite sent_whole by done. apply delta_whole, ready_consumes; [done|].
      destruct d; cbn [marked_ready] in Hr; by rewrite Hb in Hr.
    + assert (Ha : BitSet.any_in marks bit (bit + total_bits d) = false).
      { destruct (BitSet.any_in _ _ _) eqn:Ha; [|done]. apply any_in_scan in Ha as (i & Hi & Hg); [|done].
        assert (total_bits d = 1%nat) by (by destruct d). assert (i = bit) as -> by lia. congruence. }
      unfold encode_pv_field_with_bitset. rewrite Ha. by apply delta_nothing.
  - intros id fs ns os Hz He bit Hr. destruct (shaped_members _ id _ _ _ Hz) as [Hn Ho].
    cbn [default_value_for] in He. injection He as He.
    destruct (BitSet.get marks bit) eqn:Hb.
    { rewrite sent_whole by done. cbn [overlay marked_ready] in *. rewrite Hb in *.
      by apply delta_whole, ready_consumes. }
    destruct (BitSet.any_in marks bit (bit + total_bits (Structure id fs))) eqn:Ha.
    + pose proof (zip3_default _ (fun d v w => forall bit, marked_ready (BitSet.get marks) d bit v ->
        delta_read d bit (sent v d bit) (overlay (BitSet.get marks) d bit v w)) _ _ _ Hz He
        (fun _ _ _ HP => HP)) as Hz'.
      cbn [marked_ready fields] in Hr. rewrite Hb in Hr.
      destruct (delta_members fs (bit + 1)%nat ns os Hz' Hr) as [Hc Hp].
      unfold encode_pv_field_with_bitset. rewrite Ha. cbn [encode_marked overlay fields]. rewrite Hb.
      rewrite (encode_members_wire fs _ 0%nat _ [] ns) by (try done; clear -Hz; induction Hz; by constructor).
      split.
      * cbn [decode_pv_field_with_bitset_cached]. rewrite Hb, Ha. cbn [negb].
        apply (consumes_map _ (fun ms => PvField.Structure (mkPvStructure id ms))). exact Hc.
      * intros rest. cbn [decode_pv_field_with_bitset]. rewrite Hb, Ha. cbn [negb]. by rewrite Hp.
    + rewrite overlay_none by (try done; by apply any_in_false).
      unfold encode_pv_field_with_bitset. rewrite Ha. rewrite He. by apply delta_nothing.
Qed.
End Wire.

(** ** Decoding in place *)

(** Below a whole mark every leaf is covered. *)
Lemma leaf_uncovered m d : forall bit v p, covered m true d bit p = false -> leaf_at d bit v p = None.
Proof.
  induction d as [d IH] using desc_ind'. intros bit v p Hc.
  destruct (is_leaf d) eqn:Hl.
  - assert (Hd : covered m true d bit p = (p =? bit)%nat) by (by destruct d).
    rewrite Hd in Hc. destruct d; try done; simpl; by rewrite Hc.
  - destruct d as [| |id fs| | | | |]; try done. cbn [covered leaf_at orb members] in *.
    revert Hc. generalize (fields_of v) (bit + 1)%nat. clear v bit.
    induction IH as [|[n c] fs Hc _ IHfs]; intros ms bit Hp; cbn [member_leaf]; [done|].
    destruct ms as [|[x v] ms]; [done|]. cbn [member_covered] in Hp.
    destruct (p <? bit + total_bits c)%nat; [by apply Hc|by apply IHfs].
Qed.

Section InPlace.
Context `{Target}.
Variable rtems : bool.
Variables host o : ByteOrder.
Variable marks : BitSet.t.
Abbreviation m := (BitSet.get marks).
Abbreviation fresh := (decode_pv_field_with_bitset_cached rtems host o marks).
Abbreviation in_place := (decode_pv_field_with_bitset_into rtems host o marks).

(** The in-place decoder [into] does to [dst] what [r] says: on success it is [over] of what
    was read, a failure is the same one, and where [unmarked] holds [dst] is kept. *)
Definition follows {A : Type} (r : dec A) (w : into A) (over : A -> A -> A) (kept : A -> A -> Prop)
    (dst : A) : Prop := forall cache cur,
  let '(cache', dst', res) := w dst cache cur in
  kept dst dst' /\
  match r cache cur with
  | (c, Ok (v, rest)) => cache' = c /\ dst' = over v dst /\ res = Ok rest
  | (c, Err e) => cache' = c /\ res = Err e
  end.

Definition kept_leaves (d : FieldDesc) (bit : nat) (dst dst' : PvField.t) : Prop :=
  forall p, covered m false d bit p = false -> leaf_at d bit dst' p = leaf_at d bit dst p.

Definition kept_members (fs : list (list Z * FieldDesc)) (bit : nat)
    (ms ms' : list (list Z * PvField.t)) : Prop :=
  forall p, member_covered (covered m false) fs bit p = false ->
    member_leaf leaf_at fs bit ms' p = member_leaf leaf_at fs bit ms p.

Lemma follows_assign {A : Type} (r : dec A) over (kept : A -> A -> Prop) dst :
  (forall v, over v dst = v) -> (forall v, kept dst v) -> follows r (assign r) over kept dst.
Proof.
  intros Ho Hk cache cur. unfold assign. destruct (r cache cur) as [c [[v rest]|e]]; rewrite ?Ho; auto.
Qed.

Lemma follows_untouched {A : Type} over (kept : A -> A -> Prop) dst (v : A) :
  over v dst = dst -> kept dst dst -> follows (mret v) untouched over kept dst.
Proof. intros Ho Hk cache cur. simpl. by rewrite Ho. Qed.

Lemma follows_members fs :
  Forall (fun nd => forall dst, shaped dst nd.2 = true -> forall bit,
    follows (fresh nd.2 bit) (in_place nd.2 bit) (overlay m nd.2 bit) (kept_leaves nd.2 bit) dst) fs ->
  forall ms bit, zip_typed shaped ms fs = true ->
  follows (decode_marked_members_cached fresh fs bit) (decode_into_members in_place fs bit)
    (overlay_members (overlay m) fs bit) (kept_members fs bit) ms.
Proof.
  induction 1 as [|[n d] fs Hd _ IH]; intros [|[x v] ms] bit Hz cache cur; try done.
  simpl in Hz, Hd. apply andb_true_iff in Hz as [[->%bool_decide_eq_true Hv]%andb_true_iff Hz].
  cbn [decode_into_members decode_marked_members_cached]. unfold mbind, dec_bind.
  specialize (Hd v Hv bit cache cur). destruct (in_place d bit v cache cur) as [[c1 v1] r1].
  destruct Hd as [Hk Hd]. destruct (fresh d bit cache cur) as [c [[w rest]|e]].
  - destruct Hd as (-> & Ew & ->). specialize (IH ms (bit + total_bits d)%nat Hz c rest).
    destruct (decode_into_members in_place fs (bit + total_bits d) ms c rest) as [[c2 ms2] r2].
    destruct IH as [Hks IH]. split.
    + intros p. cbn [member_covered member_leaf]. specialize (Hk p). specialize (Hks p).
      by destruct (p <? bit + total_bits d)%nat.
    + destruct (decode_marked_members_cached fresh fs _ c rest) as [c' [[ws rest']|e]];
        cbn [overlay_members]; [|done].
      destruct IH as (-> & -> & ->). by rewrite Ew.
  - destruct Hd as (-> & ->). split; [|done].
    intros p. cbn [member_covered member_leaf]. specialize (Hk p).
    by destruct (p <? bit + total_bits d)%nat.
Qed.

Lemma follows_whole d dst bit :
  m bit = true -> follows (decode_pv_field_cached rtems host o d)
    (assign (decode_pv_field_cached rtems host o d)) (overlay m d bit) (kept_leaves d bit) dst.
Proof.
  intros Hb. apply follows_assign.
  - intros v. by destruct d; cbn [overlay]; rewrite Hb.
  - intros v p Hc. assert (Hu : covered m true d bit p = false).
    { rewrite <- Hc. destruct d; cbn [covered]; by rewrite Hb. }
    by rewrite !(leaf_uncovered m).
Qed.

Lemma in_place_follows (marks_wf : wf marks) d : forall dst, shaped dst d = true -> forall bit,
  follows (fresh d bit) (in_place d bit) (overlay m d bit) (kept_leaves d bit) dst.
Proof.
  induction d as [d IH] using desc_ind'. intros dst Hs bit.
  destruct (m bit) eqn:Hb.
  { assert (Ef : fresh d bit = decode_pv_field_cached rtems host o d) by (destruct d; simpl; by rewrite Hb).
    assert (Ei : in_place d bit = assign (decode_pv_field_cached rtems host o d))
      by (destruct d; cbn [decode_pv_field_with_bitset_into]; by rewrite Hb).
    rewrite Ef, Ei. by apply follows_whole. }
  destruct (is_leaf d) eqn:Hl.
  { assert (Ef : fresh d bit = mret (default_value_for d)) by (destruct d; try done; simpl; by rewrite Hb).
    assert (Ei : in_place d bit = untouched) by (destruct d; try done; simpl; by rewrite Hb).
    rewrite Ef, Ei. apply follows_untouched; [|done]. by rewrite overlay_leaf, Hb. }
  destruct d as [| |id fs| | | | |]; try done.
  cbn [decode_pv_field_with_bitset_cached decode_pv_field_with_bitset_into]. rewrite Hb.
  destruct (BitSet.any_in marks bit (bit + total_bits (Structure id fs))) eqn:Ha; cbn [negb].
  - apply shaped_struct in Hs as [Ed Hz]. cbn [members] in IH. intros cache cur. rewrite Ed.
    cbn [fields]. assert (Hlen : length (fields_of dst) = length fs).
    { apply zip_shaped_forall2 in Hz. by apply Forall2_length in Hz. }
    rewrite Hlen, Nat.eqb_refl.
    pose proof (follows_members fs IH (fields_of dst) (bit + 1)%nat Hz cache cur) as Hf.
    destruct (decode_into_members in_place fs (bit + 1) (fields_of dst) cache cur) as [[c ms] r].
    destruct Hf as [Hk Hf]. split.
    + intros p. cbn [covered leaf_at]. rewrite Hb. apply Hk.
    + unfold mbind, dec_bind. cbn [overlay]. rewrite Hb. cbn [fields struct_id].
      destruct (decode_marked_members_cached fresh fs (bit + 1) cache cur) as [c' [[ws rest]|e]]; [|done].
      simpl. by destruct Hf as (-> & -> & ->).
  - apply follows_untouched; [|done].
    apply overlay_none; [apply default_shaped|done|]. by apply any_in_false.
Qed.
End InPlace.

(** ** Deltas *)


(** Decoding a delta in place agrees with decoding it afresh on any bytes a peer sends:
    the same cache, the same bytes consumed or the same error; on success the destination is
    the old value with the marked leaves of the decoded one, and after a failure its unmarked
    leaves are still what they were. *)
Theorem in_place_decoding_agrees `{Target} rtems host o marks d dst cache cur :
  wf marks -> shaped dst d = true ->
  let '(cache', dst', r) :=
    decode_pv_field_with_bitset_into rtems host o marks d 0 dst cache cur in
  match decode_pv_field_with_bitset_cached rtems host o marks d 0 cache cur with
  | (c, Ok (v, rest)) =>
      cache' = c /\ r = Ok rest /\ dst' = overlay (BitSet.get marks) d 0 v dst
  | (c, Err e) => cache' = c /\ r = Err e
  end /\
  forall p, covered (BitSet.get marks) false d 0 p = false -> leaf_at d 0 dst' p = leaf_at d 0 dst p.
Proof.
  intros Hw Hs. pose proof (in_place_follows rtems host o marks Hw d dst Hs 0 cache cur) as Hf.
  destruct (decode_pv_field_with_bitset_into _ _ _ _ _ _ _ _ _) as [[cache' dst'] r].
  destruct Hf as [Hk Hf]. split; [|exact Hk].
  destruct (decode_pv_field_with_bitset_cached _ _ _ _ _ _ _ _) as [c [[v rest]|e]]; tauto.
Qed.

(** The merge of a received delta into the prior value and the copy of a post's marked
    fields into the stored value are the same function, leaf by leaf: a marked leaf is the
    new one, any other the old one. *)
Theorem merges_agree marks d new old :
  shaped new d = true -> shaped old d = true -> distinct_desc d ->
  fill_unmarked_from_prior marks d 0 new old = copy_marked marks d 0 new old /\
  shaped (copy_marked marks d 0 new old) d = true /\
  forall p, leaf_at d 0 (copy_marked marks d 0 new old) p
    = if covered (BitSet.get marks) false d 0 p then leaf_at d 0 new p else leaf_at d 0 old p.
Proof.
  intros Hn Ho Hd. rewrite fill_overlay, copy_overlay by done.
  split_and!; [done|by apply overlay_shaped|intros p; by apply leaf_overlay_at].
Qed.

(** *** Samples *)

Definition delta_desc : FieldDesc :=
  Structure [110] [([118], Scalar Int);
                   ([116], Structure [] [([115], Scalar Long); ([110], Scalar Int)]);
                   ([120], ScalarArray Short)].

Definition delta_value (v s n : Z) (x : list Z) : PvField.t :=
  PvField.Structure (mkPvStructure [110]
    [([118], PvField.Scalar (ScalarValue.Int v));
     ([116], PvField.Structure (mkPvStructure []
        [([115], PvField.Scalar (ScalarValue.Long s)); ([110], PvField.Scalar (ScalarValue.Int n))]));
     ([120], PvField.ScalarArrayTyped (TypedScalarArray.Short x))]).

(** The whole time stamp and the array. *)
Definition delta_marks : BitSet.t := BitSet.set (BitSet.set BitSet.new 2) 5.

Lemma delta_marks_wf : wf delta_marks.
Proof. repeat apply wf_set. apply List.Forall_nil. Defined.

(** Closes the readiness of a concrete value. *)
Ltac ready_now :=
  unfold ready; split; [vm_compute; reflexivity|split; [in_range|split; [in_range|split; [in_range|vm_compute; lia]]]].

Ltac marks_now :=
  cbn [marked_ready members_ready fields total_bits sum_list_with Nat.add];
  repeat match goal with
  | |- context [BitSet.get ?b ?i] =>
      let r := eval vm_compute in (BitSet.get b i) in change (BitSet.get b i) with r
  end; cbv iota; repeat match goal with |- _ /\ _ => split | |- True => exact I end; ready_now.

Lemma delta_ready : @marked_ready host64 false (BitSet.get delta_marks) delta_desc 0 (delta_value 7 8 9 [1; 2]).
Proof.
  unfold delta_desc, delta_value. marks_now.
Defined.


Lemma in_place_decoding_agrees_witness :
  let '(_, dst', r) :=
    @decode_pv_field_with_bitset_into host64 false Little Little (BitSet.set BitSet.new 1) delta_desc 0
      (delta_value 7 8 9 [1; 2]) ∅ [42; 0; 0; 0; 5] in
  r = Ok [5] /\ dst' = delta_value 42 8 9 [1; 2].
Proof.
  assert (Hw : wf (BitSet.set BitSet.new 1)) by (apply wf_set; apply List.Forall_nil).
  pose proof (@in_place_decoding_agrees host64 false Little Little (BitSet.set BitSet.new 1) delta_desc
    (delta_value 7 8 9 [1; 2]) ∅ [42; 0; 0; 0; 5] Hw eq_refl) as H.
  vm_compute in H. vm_compute. destruct H as [(_ & H1 & H2) _]. split; [exact H1|exact H2].
Defined.

Lemma merges_agree_witness :
  fill_unmarked_from_prior delta_marks delta_desc 0 (delta_value 7 8 9 [1]) (delta_value 1 2 3 [])
  = copy_marked delta_marks delta_desc 0 (delta_value 7 8 9 [1]) (delta_value 1 2 3 []) /\
  copy_marked delta_marks delta_desc 0 (delta_value 7 8 9 [1]) (delta_value 1 2 3 [])
  = delta_value 1 8 9 [1].
Proof.
  destruct (merges_agree delta_marks delta_desc (delta_value 7 8 9 [1]) (delta_value 1 2 3 [])) as [H _];
    [reflexivity|reflexivity| |].
  { repeat split; apply (bool_decide_unpack _); vm_compute; exact I. }
  split; [exact H|]. vm_compute. reflexivity.
Defined.
