(* ===== verification/PvaSquashTheory.v ===== *)
(** * Squashing monitor bodies

    Two queued bodies merged into one are, for whoever receives the result, the two bodies
    one after the other: the merged body decodes, marks the leaves either one marked, and
    overlaid on any earlier value gives what the two give in turn. *)
From stdpp Require Import base tactics numbers list option strings gmap.
From S2P Require Import Prelude PvaProto PvaProtoTheory PvaText PvaDesc PvaDescTheory PvaValue PvaCheck.
From S2P Require Import PvaValueTheory PvaReadTheory PvaDelta PvaDeltaTheory.
Import BitSetTheory.

Open Scope Z_scope.

(** ** Mark sets up to their members *)

Definition same_bits (a b : BitSet.t) : Prop := forall i, BitSet.get a i = BitSet.get b i.

#[export] Instance same_bits_equiv : Equivalence same_bits.
Proof.
  split; [done|by intros a b H i|]. intros a b c Ha Hb i. by rewrite Ha.
Qed.

#[export] Instance get_proper : Proper (same_bits ==> (=) ==> (=)) BitSet.get.
Proof. intros a b H i ? <-. apply H. Qed.

Lemma any_in_same a b start stop :
  wf a -> wf b -> same_bits a b -> BitSet.any_in a start stop = BitSet.any_in b start stop.
Proof.
  intros Ha Hb Hs. apply eq_true_iff_eq. rewrite !any_in_scan by done.
  unfold scan. by setoid_rewrite Hs.
Qed.

Lemma length_set b i : (length (BitSet.bytes (BitSet.set b i)) <= length (BitSet.bytes b) `max` (i / 8 + 1))%nat.
Proof.
  unfold BitSet.set. cbn [BitSet.bytes]. rewrite length_alter.
  destruct (Nat.ltb_spec (length (BitSet.bytes b)) (i / 8 + 1)); rewrite ?length_resize; lia.
Qed.

Lemma union_into_spec a b :
  (wf a -> wf (union_into a b)) /\
  (forall i, BitSet.get (union_into a b) i = BitSet.get a i || BitSet.get b i) /\
  (length (BitSet.bytes (union_into a b))
   <= length (BitSet.bytes a) `max` length (BitSet.bytes b))%nat.
Proof.
  unfold union_into.
  assert (Hf : forall l, (forall i, i ∈ l -> (i / 8 < length (BitSet.bytes b))%nat) -> forall a,
    (wf a -> wf (foldl BitSet.set a l)) /\
    (forall i, BitSet.get (foldl BitSet.set a l) i = BitSet.get a i || bool_decide (i ∈ l)) /\
    (length (BitSet.bytes (foldl BitSet.set a l))
     <= length (BitSet.bytes a) `max` length (BitSet.bytes b))%nat).
  { intros l. induction l as [|x l IH]; intros Hb a0; cbn [foldl].
    - split_and!; [done| |lia]. intros i. rewrite bool_decide_eq_false_2 by apply not_elem_of_nil.
      by rewrite orb_false_r.
    - destruct (IH (fun i Hi => Hb i (list_elem_of_further _ _ _ Hi)) (BitSet.set a0 x)) as (Hw & Hg & Hl).
      split_and!.
      + intros Ha. by apply Hw, wf_set.
      + intros i. rewrite Hg, get_set.
        rewrite (bool_decide_ext (i ∈ x :: l) (i = x \/ i ∈ l)) by apply elem_of_cons.
        rewrite bool_decide_or. replace (x =? i)%nat with (bool_decide (i = x))
          by (destruct (Nat.eqb_spec x i); case_bool_decide; congruence).
        by rewrite orb_assoc, (orb_comm (bool_decide _) (BitSet.get a0 i)).
      + pose proof (length_set a0 x). specialize (Hb x ltac:(constructor)). lia. }
  destruct (Hf (BitSet.iter b)) with (a := a) as (Hw & Hg & Hl).
  { intros i Hi. apply elem_of_iter in Hi. unfold BitSet.get in Hi.
    destruct (BitSet.bytes b !! (i / 8)%nat) eqn:E; [by apply lookup_lt_Some in E|done]. }
  split_and!; [done| |done].
  intros i. rewrite Hg. f_equal. apply eq_true_iff_eq. by rewrite bool_decide_eq_true, elem_of_iter.
Qed.

Lemma leaf_bits_storage src d : forall bit whole out,
  (wf out -> wf (leaf_bits src d bit whole out)) /\
  (length (BitSet.bytes (leaf_bits src d bit whole out))
   <= length (BitSet.bytes out) `max` (bit + total_bits d))%nat.
Proof.
  induction d as [d IH] using desc_ind'. intros bit whole out.
  destruct (is_leaf d) eqn:Hl.
  - assert (E : leaf_bits src d bit whole out
                = if whole || BitSet.get src bit then BitSet.set out bit else out) by (by destruct d).
    rewrite E. pose proof (length_set out bit) as Hs. pose proof (total_bits_pos d).
    assert (bit / 8 <= bit)%nat by ndivlia.
    destruct (whole || BitSet.get src bit); (split; [|lia]); [apply wf_set|done].
  - destruct d as [| |id fs| | | | |]; try done. cbn [leaf_bits total_bits members] in *.
    generalize (whole || BitSet.get src bit). clear Hl whole. intros whole.
    assert (Hf : forall bit out,
      (wf out -> wf (leaf_members (fun f child out => leaf_bits src f child whole out) fs bit out)) /\
      (length (BitSet.bytes (leaf_members (fun f child out => leaf_bits src f child whole out) fs bit out))
       <= length (BitSet.bytes out) `max` (bit + members_bits fs))%nat).
    { clear bit out. induction IH as [|[n c] fs Hc _ IHfs]; intros bit out; cbn [leaf_members]; [split; [done|lia]|].
      cbn [snd] in Hc. destruct (Hc bit whole out) as [Hw1 Hl1].
      destruct (IHfs (bit + total_bits c)%nat (leaf_bits src c bit whole out)) as [Hw2 Hl2].
      split; [auto|]. cbn [sum_list_with]. lia. }
    destruct (Hf (bit + 1)%nat out) as [Hw1 Hl1]. split; [done|]. lia.
Qed.

(** ** Readiness leaf by leaf *)

Section LeafDesc.
Variable leaf : FieldDesc -> nat -> nat -> option FieldDesc.
Fixpoint member_desc (fs : list (list Z * FieldDesc)) (bit p : nat) : option FieldDesc :=
  match fs with
  | [] => None
  | (_, d) :: fs =>
      if (p <? bit + total_bits d)%nat then leaf d bit p else member_desc fs (bit + total_bits d) p
  end.
End LeafDesc.

(** The descriptor of the leaf of bit [p]. *)
Fixpoint leaf_desc (d : FieldDesc) (bit p : nat) : option FieldDesc :=
  match d with
  | Structure _ fs => member_desc leaf_desc fs (bit + 1) p
  | _ => if (p =? bit)%nat then Some d else None
  end.

Lemma leaf_desc_range d : forall bit p dl,
  leaf_desc d bit p = Some dl -> (bit <= p < bit + total_bits d)%nat.
Proof.
  induction d as [d IH] using desc_ind'. intros bit p dl.
  destruct (is_leaf d) eqn:Hl.
  - assert (E : leaf_desc d bit p = if (p =? bit)%nat then Some d else None) by (by destruct d).
    rewrite E. pose proof (total_bits_pos d). destruct (Nat.eqb_spec p bit); [lia|done].
  - destruct d as [| |id fs| | | | |]; try done. cbn [leaf_desc total_bits members] in *. intros Hd.
    enough (bit + 1 <= p < bit + 1 + members_bits fs)%nat by lia. revert Hd.
    generalize (bit + 1)%nat. clear bit Hl. induction IH as [|[n c] fs Hc _ IHfs]; intros bit Hd; [done|].
    cbn [member_desc sum_list_with snd] in *. destruct (Nat.ltb_spec p (bit + total_bits c)).
    + apply Hc in Hd. lia.
    + apply IHfs in Hd. lia.
Qed.

Section Ready.
Context `{Target}.
Variable rtems : bool.
Abbreviation rdy := (ready rtems).

Lemma ready_members id fs ms :
  rdy (PvField.Structure (mkPvStructure id ms)) (Structure id fs) ->
  Forall2 (fun m f => rdy m.2 f.2) ms fs.
Proof.
  intros (Ht & Hn & Hok & Hd & Hl).
  assert (Hc : forall n c, (n, c) ∈ fs -> desc_fits rtems c)
    by (intros n c Hin; eapply (desc_fits_member rtems (Structure id fs)); [done|exact Hin]).
  assert (Hm : forall n v, (n, v) ∈ ms -> everywhere distinct_here v /\ value_ok rtems v /\
                 (wire_levels v <= S (MAX_FIELD_DEPTH rtems))%nat).
  { intros n v Hin. pose proof (child_of_struct (mkPvStructure id ms) n v Hin) as Hch. split_and!.
    - by eapply everywhere_child.
    - by eapply everywhere_child.
    - apply (max_list_elem (fun '((_, f) : list Z * PvField.t) => wire_levels f)) in Hin.
      cbn [wire_levels fields] in Hl. simpl in Hin. lia. }
  cbn [well_typed struct_id fields] in Ht. apply andb_true_iff in Ht as [_ Hz].
  clear Hn Hok Hd Hl. revert fs Hz Hc. induction ms as [|[n v] ms IH]; intros [|[x d] fs] Hz Hc; try done.
  simpl in Hz. rewrite !andb_true_iff in Hz. destruct Hz as [[_ Hv] Hz]. constructor.
  - destruct (Hm n v) as (? & ? & ?); [constructor|]. unfold ready. cbn [snd]. split_and!; try done.
    apply (Hc x). constructor.
  - apply IH; [|done|]; intros; [eapply Hm|eapply Hc]; by constructor.
Qed.

(** The leaves [c] selects are read back as they are. *)
Definition leaves_ready (c : nat -> bool) (d : FieldDesc) (bit : nat) (v : PvField.t) : Prop :=
  forall p dl w, c p = true -> leaf_desc d bit p = Some dl -> leaf_at d bit v p = Some w -> rdy w dl.

Lemma ready_leaves m d v : shaped v d = true -> forall bit (whole : bool),
  (if whole then rdy v d else marked_ready rtems m d bit v) ->
  leaves_ready (covered m whole d bit) d bit v.
Proof.
  intros Hs. refine (shaped_ind2 (fun d v _ => forall bit (whole : bool),
    (if whole then rdy v d else marked_ready rtems m d bit v) ->
    leaves_ready (covered m whole d bit) d bit v) _ _ d v v Hs Hs); clear d v Hs.
  - intros d v _ Hl bit whole Hr p dl w Hc Hd Ha.
    assert (E1 : leaf_desc d bit p = if (p =? bit)%nat then Some d else None) by (by destruct d).
    assert (E2 : leaf_at d bit v p = if (p =? bit)%nat then Some v else None) by (by destruct d).
    assert (E3 : covered m whole d bit p = (whole || m bit) && (p =? bit)%nat) by (by destruct d).
    rewrite E1 in Hd. rewrite E2 in Ha. rewrite E3 in Hc. destruct (p =? bit)%nat; [|done].
    simplify_eq. destruct whole; [done|]. simpl in Hc. rewrite andb_true_r in Hc.
    destruct dl; cbn [marked_ready] in Hr; by rewrite Hc in Hr.
  - intros id fs ns os Hz bit whole Hr.
    assert (Hr' : if whole || m bit then Forall2 (fun m f => rdy m.2 f.2) ns fs
                  else members_ready (marked_ready rtems m) fs (bit + 1) ns).
    { cbn [marked_ready fields] in Hr. destruct whole; [by eapply ready_members|]. simpl.
      destruct (m bit); [by eapply ready_members|done]. }
    clear Hr. intros p dl w. cbn [covered leaf_desc leaf_at fields].
    revert p dl w Hr'. generalize (whole || m bit). clear whole. intros whole.
    generalize (bit + 1)%nat. clear bit. intros bit p dl w Hr. revert bit p dl w Hr.
    induction Hz as [|n d v w fs ns os _ _ HP _ IH]; intros bit p dl x Hr; [done|].
    cbn [member_covered member_desc member_leaf]. specialize (IH (bit + total_bits d)%nat p dl x).
    specialize (HP bit whole). destruct whole.
    + apply Forall2_cons in Hr as [Hr1 Hr2].
      destruct (p <? bit + total_bits d)%nat; [by apply HP|by apply IH].
    + destruct Hr as [Hr1 Hr2]. destruct (p <? bit + total_bits d)%nat; [by apply HP|by apply IH].
Qed.

(** Sent leaf by leaf, the leaves are enough. *)
Lemma leaves_marked_ready c d v : shaped v d = true -> forall bit,
  (forall p, (bit <= p < bit + total_bits d)%nat -> c p = true -> covered c true d bit p = true) ->
  leaves_ready c d bit v -> marked_ready rtems c d bit v.
Proof.
  intros Hs. refine (shaped_ind2 (fun d v _ => forall bit,
    (forall p, (bit <= p < bit + total_bits d)%nat -> c p = true -> covered c true d bit p = true) ->
    leaves_ready c d bit v -> marked_ready rtems c d bit v) _ _ d v v Hs Hs); clear d v Hs.
  - intros d v _ Hl bit _ Hr.
    assert (E : marked_ready rtems c d bit v = if c bit then rdy v d else True) by (by destruct d).
    rewrite E. destruct (c bit) eqn:Hb; [|done]. apply (Hr bit); [done|..].
    + destruct d; try done; simpl; by rewrite Nat.eqb_refl.
    + destruct d; try done; simpl; by rewrite Nat.eqb_refl.
  - intros id fs ns os Hz bit Hc Hr. cbn [marked_ready covered leaf_desc leaf_at fields total_bits orb] in *.
    destruct (c bit) eqn:Hb.
    { specialize (Hc bit ltac:(lia) Hb). rewrite member_covered_false in Hc by lia. done. }
    assert (Hc' : forall p, (bit + 1 <= p < bit + 1 + members_bits fs)%nat -> c p = true ->
      member_covered (covered c true) fs (bit + 1) p = true) by (intros; apply Hc; [lia|done]).
    assert (Hr' : forall p dl w, (bit + 1 <= p)%nat -> c p = true ->
      member_desc leaf_desc fs (bit + 1) p = Some dl ->
      member_leaf leaf_at fs (bit + 1) ns p = Some w -> rdy w dl) by (intros p ? ? _; apply Hr).
    clear Hc Hr Hb. revert Hc' Hr'. generalize (bit + 1)%nat. clear bit.
    induction Hz as [|n d v w fs ns os _ _ HP _ IH]; intros bit Hc Hr; [done|].
    cbn [member_covered member_desc member_leaf members_ready sum_list_with] in *. split.
    + apply HP.
      * intros p Hp Hcp. specialize (Hc p ltac:(lia) Hcp).
        by destruct (Nat.ltb_spec p (bit + total_bits d)); [|lia].
      * intros p dl w' Hcp Hd Ha. assert (Hp : (bit <= p < bit + total_bits d)%nat) by (by eapply leaf_desc_range).
        apply (Hr p); [lia|done|..]; by destruct (Nat.ltb_spec p (bit + total_bits d)); [|lia].
    + apply IH.
      * intros p Hp Hcp. specialize (Hc p ltac:(lia) Hcp).
        by destruct (Nat.ltb_spec p (bit + total_bits d)); [lia|].
      * intros p dl w' Hp Hcp Hd Ha.
        apply (Hr p); [lia|done|..]; by destruct (Nat.ltb_spec p (bit + total_bits d)); [lia|].
Qed.
End Ready.

(** ** Updates and their bodies *)

(** An update of a monitor: what changed, to which value, and what was overrun. *)
Record Update : Type := mkUpdate {
  changed : BitSet.t;
  new_value : PvField.t;
  overrun : BitSet.t;
}.

Section Bodies.
Context `{Target} `{ScalarCopyOk}.
Variable rtems : bool.
Variable host : ByteOrder.

(** The bits of a set fit the wire's size field. *)
Definition marks_ok (b : BitSet.t) : Prop := wf b /\ len (BitSet.bytes b) < 2 ^ 32.

Definition sendable (d : FieldDesc) (u : Update) : Prop :=
  marks_ok (changed u) /\ marks_ok (overrun u) /\ shaped (new_value u) d = true /\
  marked_ready rtems (BitSet.get (changed u)) d 0 (new_value u).

(** [changed | value | overrun]. *)
Definition update_body (o : ByteOrder) (d : FieldDesc) (u : Update) : list Z :=
  BitSet.encode (changed u) o
  ++ encode_pv_field_with_bitset host o (new_value u) d (changed u) 0
  ++ BitSet.encode (overrun u) o.

(** What an update makes of an earlier value. *)
Definition update_to (d : FieldDesc) (u : Update) (prior : PvField.t) : PvField.t :=
  overlay (BitSet.get (changed u)) d 0 (new_value u) prior.

Lemma encode_members_ext (enc enc' : PvField.t -> FieldDesc -> nat -> list Z) a b v fs :
  wf a -> wf b -> same_bits a b ->
  Forall (fun nd => forall v bit, enc v nd.2 bit = enc' v nd.2 bit) fs ->
  forall i bit, encode_marked_members a enc v i fs bit = encode_marked_members b enc' v i fs bit.
Proof.
  intros Ha Hb Hs. induction 1 as [|[n d] fs Hd _ IH]; intros i bit; [done|].
  cbn [encode_marked_members]. rewrite (any_in_same a b), IH by done. simpl in Hd. by rewrite Hd.
Qed.

Lemma sent_same o a b d : wf a -> wf b -> same_bits a b -> forall v bit,
  encode_pv_field_with_bitset host o v d a bit = encode_pv_field_with_bitset host o v d b bit.
Proof.
  intros Ha Hb Hs. assert (He : forall v bit, encode_marked host o a v d bit = encode_marked host o b v d bit).
  { induction d as [d IH] using desc_ind'. intros v bit. destruct d as [| |id fs| | | | |]; try done.
    cbn [encode_marked]. rewrite Hs. destruct (BitSet.get b bit); [done|].
    by apply encode_members_ext. }
  intros v bit. unfold encode_pv_field_with_bitset. rewrite (any_in_same a b) by done. by rewrite He.
Qed.

Lemma trimmed_same b : same_bits (BitSet.mk (trimmed b)) b.
Proof. intros i. apply get_trimmed. Qed.

Lemma trimmed_wf b : wf b -> wf (BitSet.mk (trimmed b)).
Proof. intros Hb. unfold wf, trimmed. cbn [BitSet.bytes]. by apply Forall_take. Qed.

Lemma marked_ready_ext c c' d : (forall i, c i = c' i) -> forall bit v,
  marked_ready rtems c d bit v -> marked_ready rtems c' d bit v.
Proof.
  intros Hc. induction d as [d IH] using desc_ind'. intros bit v.
  destruct d as [| |id fs| | | | |]; cbn [marked_ready]; rewrite Hc; try done.
  destruct (c' bit); [done|]. simpl in IH. generalize (fields_of v) (bit + 1)%nat.
  induction IH as [|[n d] fs Hd _ IHfs]; intros ms b Hm; [done|]. destruct ms as [|[x w] ms]; [done|].
  cbn [members_ready snd] in *. destruct Hm as [H2 H3]. auto.
Qed.

(** Each part of a body, read in turn. *)
Lemma body_parts o d u :
  sendable d u ->
  let c := BitSet.mk (trimmed (changed u)) in
  let got := overlay (BitSet.get c) d 0 (new_value u) (default_value_for d) in
  exists value_bytes,
    (forall rest, BitSet.decode o (update_body o d u ++ rest)
       = Ok (c, value_bytes ++ BitSet.encode (overrun u) o ++ rest)) /\
    delta_read rtems host o c d 0 value_bytes got /\
    (forall rest, BitSet.decode o (BitSet.encode (overrun u) o ++ rest)
       = Ok (BitSet.mk (trimmed (overrun u)), rest)).
Proof.
  intros ([Hw Hl] & [Hwo Hlo] & Hs & Hr) c got.
  exists (encode_pv_field_with_bitset host o (new_value u) d (changed u) 0). split_and!.
  - intros rest. unfold update_body. rewrite <- !app_assoc. by apply decode_encoded.
  - pose proof (trimmed_wf _ Hw) as Hc. pose proof (trimmed_same (changed u)) as Hsame.
    rewrite (sent_same o (changed u) c) by done.
    apply delta_reads; [done|done|apply default_shaped|done|].
    eapply marked_ready_ext; [|exact Hr]. intros i. by rewrite Hsame.
  - intros rest. by apply decode_encoded.
Qed.

(** The leaf bits of two mark sets, as the squash unites them. *)
Lemma leaf_union d a b :
  Z.of_nat (total_bits d) < 2 ^ 32 ->
  let c := union_into (leaf_bits a d 0 false BitSet.new) (leaf_bits b d 0 false BitSet.new) in
  marks_ok c /\
  (forall p, BitSet.get c p = covered (BitSet.get a) false d 0 p || covered (BitSet.get b) false d 0 p) /\
  (forall p, covered (BitSet.get c) false d 0 p = BitSet.get c p).
Proof.
  intros Hd c. destruct (union_into_spec (leaf_bits a d 0 false BitSet.new)
    (leaf_bits b d 0 false BitSet.new)) as (Hw & Hg & Hl).
  destruct (leaf_bits_storage a d 0 false BitSet.new) as [Hwa Hla].
  destruct (leaf_bits_storage b d 0 false BitSet.new) as [_ Hlb].
  assert (Hc : forall p, BitSet.get c p
    = covered (BitSet.get a) false d 0 p || covered (BitSet.get b) false d 0 p).
  { intros p. unfold c. by rewrite Hg, !get_leaf_bits. }
  assert (Ht : forall p, BitSet.get c p = true -> covered (BitSet.get c) true d 0 p = true).
  { intros p. rewrite Hc. intros [Hp|Hp]%orb_true_iff; by eapply covered_weaken. }
  split; [split|split; [done|]].
  - apply Hw, Hwa. constructor.
  - unfold c in *. cbn [BitSet.new BitSet.bytes length] in *. lia.
  - intros p. rewrite covered_self by auto. destruct (BitSet.get c p) eqn:E; [by rewrite Ht|done].
Qed.

Lemma overlay_ext m m' d : (forall i, m i = m' i) -> forall bit new old,
  overlay m d bit new old = overlay m' d bit new old.
Proof.
  intros Hm. induction d as [d IH] using desc_ind'. intros bit new old.
  destruct d as [| |id fs| | | | |]; cbn [overlay]; rewrite Hm; try done.
  destruct (m' bit); [done|]. do 2 f_equal. simpl in IH.
  generalize (fields_of new) (fields_of old) (bit + 1)%nat.
  induction IH as [|[n d] fs Hd _ IHfs]; intros ns os b; [done|].
  destruct ns as [|[x v] ns], os as [|[y w] os]; try done.
  cbn [overlay_members snd] in *. by rewrite Hd, IHfs.
Qed.

Lemma overlay_trimmed b d new old :
  overlay (BitSet.get (BitSet.mk (trimmed b))) d 0 new old = overlay (BitSet.get b) d 0 new old.
Proof. apply overlay_ext. intros i. apply trimmed_same. Qed.

Ltac by_leaves d :=
  apply (shaped_ext d) with (bit := 0%nat); [by auto with shapes|by auto with shapes|];
  intros p; rewrite !leaf_overlay_at by auto with shapes.

Lemma overlay_again m d new base old :
  shaped new d = true -> shaped base d = true -> shaped old d = true ->
  overlay m d 0 (overlay m d 0 new base) old = overlay m d 0 new old.
Proof. intros. by_leaves d. by destruct (covered m false d 0 p). Qed.

(** One overlay of the leaves of either for two in turn. *)
Lemma overlay_union m a b d va vb base prior :
  shaped va d = true -> shaped vb d = true -> shaped base d = true -> shaped prior d = true ->
  (forall p, covered m false d 0 p = covered a false d 0 p || covered b false d 0 p) ->
  overlay m d 0 (overlay b d 0 vb (overlay a d 0 va base)) prior
  = overlay b d 0 vb (overlay a d 0 va prior).
Proof.
  intros Ha Hb Hs Hp Hm. by_leaves d. rewrite Hm.
  by destruct (covered a false d 0 p), (covered b false d 0 p).
Qed.

(** The leaves of the merged value are leaves of one update or the other. *)
Lemma merged_ready d ua ub c :
  sendable d ua -> sendable d ub ->
  (forall p, BitSet.get c p = covered (BitSet.get (changed ua)) false d 0 p
                              || covered (BitSet.get (changed ub)) false d 0 p) ->
  marked_ready rtems (BitSet.get c) d 0 (update_to d ub (update_to d ua (default_value_for d))).
Proof.
  intros (_ & _ & Hsa & Hra) (_ & _ & Hsb & Hrb) Hc. unfold update_to.
  apply leaves_marked_ready; [by auto with shapes|..].
  - intros p _. rewrite Hc. intros [Hp|Hp]%orb_true_iff; by eapply covered_weaken.
  - intros p dl w Hp Hd. rewrite !leaf_overlay_at by auto with shapes. rewrite Hc in Hp.
    destruct (covered (BitSet.get (changed ub)) false d 0 p) eqn:Eb.
    + by apply (ready_leaves rtems _ d _ Hsb 0 false Hrb p).
    + rewrite orb_false_r in Hp. rewrite Hp. by apply (ready_leaves rtems _ d _ Hsa 0 false Hra p).
Qed.

Lemma squash_updates d ua ub oa ob out :
  sendable d ua -> sendable d ub -> Z.of_nat (total_bits d) < 2 ^ 32 ->
  exists u,
    squash_monitor_bodies rtems host d (mkMonitorBody (update_body oa d ua) oa)
      (mkMonitorBody (update_body ob d ub) ob) out = Ok (update_body out d u) /\
    sendable d u /\
    (forall p, BitSet.get (changed u) p = covered (BitSet.get (changed ua)) false d 0 p
                                          || covered (BitSet.get (changed ub)) false d 0 p) /\
    (forall i, BitSet.get (overrun u) i = BitSet.get (overrun ua) i || BitSet.get (overrun ub) i) /\
    (forall prior, shaped prior d = true -> update_to d u prior = update_to d ub (update_to d ua prior)).
Proof.
  intros Ha Hb Hd. pose proof Ha as (_ & Hoa & Hsa & _). pose proof Hb as (Hcb & Hob & Hsb & _).
  destruct (body_parts oa d ua Ha) as (bytes_a & Ha1 & [_ Ha2] & Ha3).
  destruct (body_parts ob d ub Hb) as (bytes_b & Hb1 & [Hb2 _] & Hb3).
  rewrite !overlay_trimmed in *.
  set (ca := BitSet.mk (trimmed (changed ua))) in *. set (cb := BitSet.mk (trimmed (changed ub))) in *.
  destruct (leaf_union d ca cb Hd) as (Hc1 & Hc2 & Hc3).
  set (c := union_into (leaf_bits ca d 0 false BitSet.new) (leaf_bits cb d 0 false BitSet.new)) in *.
  destruct (union_into_spec (BitSet.mk (trimmed (overrun ua))) (BitSet.mk (trimmed (overrun ub))))
    as (Ho1 & Ho2 & Ho3).
  set (ov := union_into _ _) in Ho1, Ho2, Ho3.
  assert (Hc2' : forall p, BitSet.get c p = covered (BitSet.get (changed ua)) false d 0 p
                                          || covered (BitSet.get (changed ub)) false d 0 p).
  { intros p. rewrite Hc2. f_equal; apply covered_ext; apply trimmed_same. }
  set (value := update_to d ub (update_to d ua (default_value_for d))).
  exists (mkUpdate c value ov).
  pose proof (Ha1 []) as Ha1'. pose proof (Hb1 []) as Hb1'.
  rewrite (app_nil_r (update_body _ d ua)) in Ha1'. rewrite (app_nil_r (update_body _ d ub)) in Hb1'.
  split_and!.
  - unfold squash_monitor_bodies. cbn [body_order body_bytes].
    rewrite Ha1'. rbind. rewrite Ha2. rbind. rewrite Ha3. rbind. rewrite Hb1'. rbind.
    pose proof (in_place_follows rtems host ob cb (trimmed_wf _ (proj1 Hcb)) d
      (overlay (BitSet.get (changed ua)) d 0 (new_value ua) (default_value_for d))
      ltac:(auto with shapes) 0%nat ∅ (bytes_b ++ BitSet.encode (overrun ub) ob ++ [])) as Hf.
    rewrite Hb2 in Hf. destruct (decode_pv_field_with_bitset_into _ _ _ _ _ _ _ _ _) as [[dc v] r].
    destruct Hf as (_ & _ & -> & ->). rbind. rewrite Hb3. rbind. unfold cb.
    rewrite overlay_trimmed, overlay_again by auto with shapes. done.
  - split_and!; cbn [changed overrun new_value]; [done| |unfold value, update_to; auto with shapes|].
    + split; [apply Ho1, trimmed_wf, Hoa|]. cbn [BitSet.bytes] in Ho3. rewrite !length_trimmed in Ho3.
      pose proof (trim_len_le (BitSet.bytes (overrun ua)) (length (BitSet.bytes (overrun ua)))).
      pose proof (trim_len_le (BitSet.bytes (overrun ub)) (length (BitSet.bytes (overrun ub)))).
      destruct Hoa, Hob. lia.
    + by apply merged_ready.
  - done.
  - intros i. cbn [overrun]. by rewrite Ho2, !get_trimmed.
  - intros prior Hp. unfold value, update_to. cbn [changed new_value].
    apply overlay_union; auto with shapes. intros p. by rewrite Hc3, Hc2'.
Qed.
End Bodies.

(** C7: two queued monitor bodies, in either byte order each, squash into one that decodes in
    the order asked for: it marks exactly the leaves one of the two marked, its overrun set is
    the union of theirs, and whoever merges it into an earlier value holds what merging the
    older body and then the newer one gives. *)
Theorem squash_is_both_updates_in_turn `{Target} `{ScalarCopyOk} rtems host d older newer oa ob out :
  sendable rtems d older -> sendable rtems d newer -> Z.of_nat (total_bits d) < 2 ^ 32 ->
  exists body c cur value cur' ov,
    squash_monitor_bodies rtems host d (mkMonitorBody (update_body host oa d older) oa)
      (mkMonitorBody (update_body host ob d newer) ob) out = Ok body /\
    BitSet.decode out body = Ok (c, cur) /\
    decode_pv_field_with_bitset rtems host out c d 0 cur = Ok (value, cur') /\
    BitSet.decode out cur' = Ok (ov, []) /\
    (forall p, BitSet.get c p = covered (BitSet.get (changed older)) false d 0 p
                                || covered (BitSet.get (changed newer)) false d 0 p) /\
    (forall i, BitSet.get ov i = BitSet.get (overrun older) i || BitSet.get (overrun newer) i) /\
    (forall prior, shaped prior d = true ->
       overlay (BitSet.get c) d 0 value prior = update_to d newer (update_to d older prior)).
Proof.
  intros Ha Hb Hd. destruct (squash_updates rtems host d older newer oa ob out Ha Hb Hd)
    as (u & Hs & Hu & Hc & Ho & Hp).
  pose proof Hu as (_ & _ & Hsu & _).
  destruct (body_parts rtems host out d u Hu) as (bytes & H2 & [_ H3] & H4).
  eexists _, _, _, _, _, _. split_and!.
  - exact Hs.
  - rewrite <- (app_nil_r (update_body host out d u)). apply H2.
  - apply H3.
  - apply H4.
  - intros p. by rewrite get_trimmed.
  - intros i. by rewrite get_trimmed.
  - intros prior Hpr. rewrite !overlay_trimmed, overlay_again by auto with shapes. by apply Hp.
Qed.

(** *** Sample *)

Definition older_update : Update :=
  mkUpdate (BitSet.set BitSet.new 2) (delta_value 0 8 9 []) (BitSet.set BitSet.new 1).
Definition newer_update : Update :=
  mkUpdate (BitSet.set (BitSet.set BitSet.new 1) 4) (delta_value 7 0 5 []) BitSet.new.

Lemma marks_ok_new : marks_ok BitSet.new.
Proof. split; [apply List.Forall_nil|vm_compute; reflexivity]. Defined.

Lemma updates_sendable :
  @sendable host64 false delta_desc older_update /\ @sendable host64 false delta_desc newer_update.
Proof.
  split; (split; [|split; [|split]]).
  1, 2, 5: split; [repeat apply wf_set; apply List.Forall_nil|vm_compute; reflexivity].
  1, 4: vm_compute; reflexivity.
  2: exact marks_ok_new.
  all: unfold delta_desc, older_update, newer_update, delta_value; cbn [changed new_value]; marks_now.
Defined.

Lemma squash_is_both_updates_in_turn_witness :
  exists body c cur value,
    @squash_monitor_bodies host64 no_copy false Little delta_desc
      (mkMonitorBody (@update_body no_copy Little Little delta_desc older_update) Little)
      (mkMonitorBody (@update_body no_copy Little Big delta_desc newer_update) Big) Little = Ok body /\
    BitSet.decode Little body = Ok (c, cur) /\
    overlay (BitSet.get c) delta_desc 0 value (delta_value 1 2 3 [4]) = delta_value 7 8 5 [4].
Proof.
  destruct (@squash_is_both_updates_in_turn host64 no_copy no_copy_ok false Little delta_desc
    older_update newer_update Little Big Little (proj1 updates_sendable) (proj2 updates_sendable))
    as (body & c & cur & value & cur' & ov & H1 & H2 & _ & _ & _ & _ & H3); [vm_compute; reflexivity|].
  exists body, c, cur, value. split; [exact H1|]. split; [exact H2|].
  rewrite H3 by reflexivity. vm_compute. reflexivity.
Defined.
