(* ===== verification/PvaFrame.v ===== *)
(** * pvAccess frames and replies

    Models [epics-pva-rs/src/decode.rs]: cutting one frame off a receive buffer, the
    reassembly of segmented messages and the decoders of the server's replies; the server's
    [read_frame] loop ([server_native/tcp.rs]), which feeds the first from a socket; and
    the fallible growth of receive buffers ([peer_buf.rs]). *)
From stdpp Require Import base tactics numbers list option strings gmap.
From S2P Require Import Prelude PvaProto PvaText PvaDesc PvaValue PvaDelta.

Open Scope Z_scope.

(** The error of an operation.  The source's messages are rendered text; the cause is kept. *)
Inductive PvaError : Type :=
| Decode (e : DecodeError)
| DecodeText (what : string)
| Protocol (what : string)
| ResourceExhausted (what : string).

Definition decoding {A : Type} (r : result DecodeError A) : result PvaError A := map_err Decode r.

Record Frame : Type := mkFrame {
  header : PvaHeader;
  payload : list Z;
}.

Definition frame_order (f : Frame) : ByteOrder := byte_order (flags (header f)).

(** ** One frame *)

Module PeerRole.
Inductive t : Type := Server | Client | Either.
End PeerRole.

Definition HEADER_SIZE : nat := 8.

(** What a call does: it returns, or its arithmetic or a slice of it panics. *)
Inductive outcome (A : Type) : Type :=
| Returns (a : A)
| Panics.
Arguments Returns {A}.
Arguments Panics {A}.

Definition wrong_direction (role : PeerRole.t) (from_server : bool) : bool :=
  match role with
  | PeerRole.Server => from_server
  | PeerRole.Client => negb from_server
  | PeerRole.Either => false
  end.

(** The frame and the bytes it took, or [None] when more bytes are needed.
    [PvaHeader::SIZE + payload_length as usize] panics where it overflows: the addition
    itself in a checked build, the slice [8..needed], which then ends before it starts, in
    an unchecked one. *)
Definition try_parse_frame_role `{Target} (buf : list Z) (role : PeerRole.t)
    : outcome (result PvaError (option (Frame * nat))) :=
  if (length buf <? HEADER_SIZE)%nat then Returns (Ok None)
  else
    match decoding (header_decode buf) with
    | Err e => Returns (Err e)
    | Ok (header, _) =>
        if wrong_direction role (is_server (flags header))
        then Returns (Err (Protocol "direction bit"))
        else if is_control (flags header) then Returns (Ok (Some (mkFrame header [], HEADER_SIZE)))
        else
          let needed := Z.of_nat HEADER_SIZE + wrap usize_bits (payload_length header) in
          if needed <=? uint_max usize_bits then
            let needed := Z.to_nat needed in
            if (length buf <? needed)%nat then Returns (Ok None)
            else Returns (Ok (Some (mkFrame header (drop HEADER_SIZE (take needed buf)), needed)))
          else Panics
    end.

Definition try_parse_frame `{Target} (buf : list Z)
    : outcome (result PvaError (option (Frame * nat))) :=
  try_parse_frame_role buf PeerRole.Either.

(** ** The receive loop of the server *)

(** [Vec::try_reserve] then [extend_from_slice]; [alloc len additional] is whether the
    allocator grants the growth. *)
Definition try_extend (alloc : nat -> nat -> bool) (buf data : list Z) (what : string)
    : result PvaError (list Z) :=
  if alloc (length buf) (length data) then Ok (buf ++ data) else Err (ResourceExhausted what).

(** What a call of [read_frame] comes to once the socket has given [chunks]. *)
Inductive read_result : Type :=
| Got (f : Frame) (rx_buf : list Z) (rest : list (list Z))
| Failed (e : PvaError)
| Waiting (rx_buf : list Z)
| Crashed.

Definition over_cap `{Target} (max_msg_size : option Z) (rx_buf : list Z) : bool :=
  match max_msg_size with
  | None => false
  | Some cap =>
      if (HEADER_SIZE <=? length rx_buf)%nat then
        match header_decode rx_buf with
        | Ok (hdr, _) =>
            negb (is_control (flags hdr)) && (cap <? wrap usize_bits (payload_length hdr))
        | Err _ => false
        end
      else false
  end.

(** A chunk is what one [read] gave: no bytes is the end of the stream. *)
Fixpoint read_frame `{Target} (alloc : nat -> nat -> bool) (max_msg_size : option Z)
    (rx_buf : list Z) (chunks : list (list Z)) : read_result :=
  match try_parse_frame_role rx_buf PeerRole.Server with
  | Panics => Crashed
  | Returns (Err e) => Failed e
  | Returns (Ok (Some (frame, n))) => Got frame (drop n rx_buf) chunks
  | Returns (Ok None) =>
      if over_cap max_msg_size rx_buf
      then Failed (Protocol "inbound payload exceeds max_message_size")
      else
        match chunks with
        | [] => Waiting rx_buf
        | [] :: _ => Failed (Protocol "client closed")
        | chunk :: chunks =>
            match try_extend alloc rx_buf chunk "the connection receive buffer" with
            | Err e => Failed e
            | Ok rx_buf => read_frame alloc max_msg_size rx_buf chunks
            end
        end
  end.

(** ** Segmented messages *)

Record SegmentAssembler : Type := mkSegmentAssembler {
  seg_buf : list Z;
  seg_cmd : Z;
  seg_flags : Z;
  expect : bool;
}.

Definition SegmentAssembler_default : SegmentAssembler := mkSegmentAssembler [] 0 0 false.

(** The assembler after the call, kept where the call fails, with its result. *)
Definition SegmentAssembler_push `{Target} (alloc : nat -> nat -> bool) (a : SegmentAssembler)
    (frame : Frame) (cap : option Z) : SegmentAssembler * result PvaError (option Frame) :=
  let seg := Z.land (flags (header frame)) FLAG_SEGMENT_MASK in
  let continuation := negb (Z.land seg FLAG_SEGMENT_LAST =? 0) in
  if xorb continuation (expect a)
     || (continuation && negb (command (header frame) =? seg_cmd a))
  then (a, Err (Protocol "PVA segmentation violation"))
  else if match cap with
          | Some cap => cap <? Z.min (len (seg_buf a) + len (payload frame)) (uint_max usize_bits)
          | None => false
          end
  then (a, Err (Protocol "segmented PVA message exceeds max_message_size"))
  else if seg =? 0 then (a, Ok (Some frame))
  else
    let a :=
      if seg =? FLAG_SEGMENT_FIRST then
        mkSegmentAssembler [] (command (header frame))
          (Z.ldiff (flags (header frame)) FLAG_SEGMENT_MASK) true
      else a in
    match try_extend alloc (seg_buf a) (payload frame) "the segment-reassembly buffer" with
    | Err e => (a, Err e)
    | Ok buf =>
        if negb (seg =? FLAG_SEGMENT_LAST)
        then (mkSegmentAssembler buf (seg_cmd a) (seg_flags a) (expect a), Ok None)
        else
          (mkSegmentAssembler [] (seg_cmd a) (seg_flags a) false,
           Ok (Some (mkFrame
             (mkPvaHeader (version (header frame)) (seg_flags a) (seg_cmd a) (wrap 32 (len buf)))
             buf)))
    end.

(** ** Replies *)

(** [cur.set_position(n)]: reading from beyond the end is a short read. *)
Definition cursor_at (n : nat) (payload : list Z) : list Z := drop n payload.

Definition expect_command (f : Frame) (c : Command) (what : string) : result PvaError unit :=
  if command (header f) =? code c then Ok tt else Err (Protocol what).

(** A search reply (the source's [SearchResponse], a name the command has). *)
Record SearchReply : Type := mkSearchReply {
  guid : list Z;
  search_seq : Z;
  server_addr : IpAddr * Z;
  protocol : list Z;
  found : bool;
  cids : list Z;
}.

Definition decode_search_response (f : Frame) : result PvaError SearchReply :=
  _ ← expect_command f SearchResponse "expected SearchResponse (4)";
  let o := frame_order f in
  '(guid, cur) ← decoding (get_bytes 12 (payload f));
  '(seq, cur) ← decoding (get_u32 o cur);
  '(addr, cur) ← decoding (get_bytes 16 cur);
  '(port, cur) ← decoding (get_u16 o cur);
  '(protocol, cur) ← decoding (decode_string_or_default o cur);
  '(found, cur) ← decoding (get_u8 cur);
  '(count, cur) ← decoding (get_u16 o cur);
  '(cids, cur) ← decoding (repeat_reader (get_u32 o) (Z.to_nat count) cur);
  Ok (mkSearchReply guid seq (ip_from_bytes_allow_unspec addr, port) protocol
        (negb (found =? 0)) cids).

Record ConnectionValidationRequest : Type := mkConnectionValidationRequest {
  server_buffer_size : Z;
  server_registry_size : Z;
  auth_methods : list (list Z);
}.

Definition decode_connection_validation_request (f : Frame)
    : result PvaError ConnectionValidationRequest :=
  _ ← expect_command f ConnectionValidation "expected ConnectionValidation (1)";
  let o := frame_order f in
  '(server_buffer_size, cur) ← decoding (get_u32 o (payload f));
  '(server_registry_size, cur) ← decoding (get_u16 o cur);
  '(size, cur) ← decoding (decode_size o cur);
  count ← ok_or size (DecodeText "auth-method count is the null Size marker");
  '(auth_methods, cur) ←
    decoding (repeat_reader (decode_string_or_default o) (Z.to_nat count) cur);
  Ok (mkConnectionValidationRequest server_buffer_size server_registry_size auth_methods).

Definition decode_connection_validated (f : Frame) : result PvaError Status :=
  _ ← expect_command f ConnectionValidated "expected ConnectionValidated (9)";
  '(status, _) ← decoding (status_decode (frame_order f) (payload f));
  Ok status.

Record CreateChannelResponse : Type := mkCreateChannelResponse {
  cid : Z;
  sid : Z;
  create_status : Status;
}.

Definition decode_create_channel_response (f : Frame) : result PvaError CreateChannelResponse :=
  _ ← expect_command f CreateChannel "expected CreateChannel (7)";
  let o := frame_order f in
  '(cid, cur) ← decoding (get_u32 o (payload f));
  '(sid, cur) ← decoding (get_u32 o cur);
  '(status, _) ← decoding (status_decode o cur);
  Ok (mkCreateChannelResponse cid sid status).

Record GetFieldResponse : Type := mkGetFieldResponse {
  field_ioid : Z;
  field_status : Status;
  field_introspection : option FieldDesc;
}.

Definition decode_get_field_response (rtems : bool) (f : Frame) : result PvaError GetFieldResponse :=
  _ ← expect_command f GetField "expected GetField (17)";
  let o := frame_order f in
  '(ioid, cur) ← decoding (get_u32 o (payload f));
  '(status, cur) ← decoding (status_decode o cur);
  if negb (is_success status) then Ok (mkGetFieldResponse ioid status None)
  else
    '(intro, _) ← decoding (decode_type_desc rtems o cur);
    Ok (mkGetFieldResponse ioid status (Some intro)).

Definition is_set_byte_order (h : PvaHeader) : bool :=
  is_control (flags h) && (command h =? control_code SetByteOrder).

(** ** Operation replies *)

Inductive OpResponse : Type :=
| Init (ioid subcmd : Z) (status : Status) (field_name : list Z) (introspection : FieldDesc)
| Data (ioid subcmd : Z) (status : Status) (changed : BitSet.t) (value : PvField.t)
    (overrun : BitSet.t) (response_desc : option FieldDesc)
| OpStatus (ioid subcmd : Z) (status : Status).

Definition has_bit (subcmd bit : Z) : bool := negb (Z.land subcmd bit =? 0).

(** The status of a final monitor frame and where its last update begins, if it has one. *)
Definition monitor_finish_body (payload : list Z) (o : ByteOrder)
    : result PvaError (Status * option nat) :=
  subcmd ← ok_or (payload !! 4%nat) (DecodeText "MONITOR FINISH frame too short");
  '(status, rest) ← decoding (status_decode o (cursor_at 5 payload));
  let pos := (length payload - length rest)%nat in
  let body := is_success status && negb (has_bit subcmd 0x08) && (pos <? length payload)%nat in
  Ok (status, if body then Some pos else None).

Definition op_data_body_start (payload : list Z) (o : ByteOrder) (cmd : Command) (subcmd : Z)
    : option nat :=
  match cmd with
  | Monitor =>
      if has_bit subcmd 0x10 then
        match monitor_finish_body payload o with Ok (_, body) => body | Err _ => None end
      else Some 5%nat
  | _ =>
      if match cmd with Put => negb (has_bit subcmd 0x40) | _ => false end then None
      else
        match status_decode o (cursor_at 5 payload) with
        | Ok (s, rest) => if is_success s then Some (length payload - length rest)%nat else None
        | Err _ => None
        end
  end.

(** Decoding with the type cache, with the errors of an operation. *)
Definition op (A : Type) : Type := TypeCache -> list Z -> TypeCache * result PvaError (A * list Z).
#[export] Instance op_ret : MRet op := fun A a cache cur => (cache, Ok (a, cur)).
#[export] Instance op_bind : MBind op := fun A B f m cache cur =>
  match m cache cur with
  | (cache, Ok (a, cur)) => f a cache cur
  | (cache, Err e) => (cache, Err e)
  end.
Definition via {A : Type} (r : dec A) : op A := fun cache cur =>
  let '(cache, res) := r cache cur in (cache, decoding res).
Definition reads_with {A : Type} (r : reader A) : op A := via (lift r).
Definition refuse {A : Type} (e : PvaError) : op A := fun cache _ => (cache, Err e).
Definition seek (n : nat) (payload : list Z) : op unit := fun cache _ =>
  (cache, Ok (tt, cursor_at n payload)).

Section OpResponse.
Context `{Target}.
Variable rtems : bool.
Variable host : ByteOrder.
Variable o : ByteOrder.

Definition decode_op_init (cmd : Command) (ioid subcmd : Z) : op OpResponse :=
  status ← reads_with (status_decode o);
  if negb (is_success status) then mret (Init ioid subcmd status [] Variant)
  else
    intro ← match cmd with
            | Rpc => mret Variant
            | _ => via (decode_type_desc_cached rtems o)
            end;
    mret (Init ioid subcmd status [] intro).

Definition decode_op_rpc (ioid subcmd : Z) : op OpResponse :=
  status ← reads_with (status_decode o);
  if negb (is_success status) then mret (OpStatus ioid subcmd status)
  else
    resp_desc ← via (decode_type_desc_cached_opt rtems o);
    resp_value ← match resp_desc with
                 | Some desc => via (decode_pv_field_cached rtems host o desc)
                 | None => mret PvField.Null
                 end;
    mret (Data ioid subcmd status (BitSet.set BitSet.new 0) resp_value BitSet.new resp_desc).

Definition decode_op_data (cmd : Command) (ioid subcmd : Z) (finish_status : option Status)
    (introspection : option FieldDesc) : op OpResponse :=
  match introspection with
  | None => refuse (Protocol "data response without prior introspection")
  | Some intro =>
      let get_or_put := match cmd with Get | Put => true | _ => false end in
      status ← match finish_status with
               | Some s => mret s
               | None => if get_or_put then reads_with (status_decode o) else mret OkNoMsg
               end;
      if get_or_put && negb (is_success status) then mret (OpStatus ioid subcmd status)
      else
        changed ← reads_with (BitSet.decode o);
        value ← via (decode_pv_field_with_bitset_cached rtems host o changed intro 0);
        overrun ← match cmd with
                  | Monitor => reads_with (BitSet.decode o)
                  | _ => mret BitSet.new
                  end;
        mret (Data ioid subcmd status changed value overrun None)
  end.

(** What follows the subcommand, once a final monitor frame is accounted for. *)
Definition decode_op_rest (cmd : Command) (ioid subcmd : Z) (finish_status : option Status)
    (introspection : option FieldDesc) : op OpResponse :=
  if has_bit subcmd 0x08 then decode_op_init cmd ioid subcmd
  else if match cmd with Put => negb (has_bit subcmd 0x40) | _ => false end then
    status ← reads_with (status_decode o); mret (OpStatus ioid subcmd status)
  else match cmd with
       | Rpc => decode_op_rpc ioid subcmd
       | _ => decode_op_data cmd ioid subcmd finish_status introspection
       end.
End OpResponse.

Definition decode_op_response_cached `{Target} (rtems : bool) (host : ByteOrder) (f : Frame)
    (introspection : option FieldDesc) (cache : TypeCache) : TypeCache * result PvaError OpResponse :=
  let o := frame_order f in
  let body : op OpResponse :=
    match from_code (command (header f)) with
    | None => refuse (Protocol "unknown command")
    | Some cmd =>
        match cmd with
        | Get | Put | Monitor | Rpc =>
            ioid ← reads_with (get_u32 o);
            subcmd ← reads_with get_u8;
            if match cmd with Monitor => has_bit subcmd 0x10 | _ => false end then
              match monitor_finish_body (payload f) o with
              | Err e => refuse e
              | Ok (status, None) => mret (OpStatus ioid subcmd status)
              | Ok (status, Some start) =>
                  _ ← seek start (payload f);
                  decode_op_rest rtems host o cmd ioid subcmd (Some status) introspection
              end
            else decode_op_rest rtems host o cmd ioid subcmd None introspection
        | _ => refuse (Protocol "not an op response")
        end
    end in
  match body cache (payload f) with
  | (cache, Ok (r, _)) => (cache, Ok r)
  | (cache, Err e) => (cache, Err e)
  end.

Definition decode_op_response `{Target} (rtems : bool) (host : ByteOrder) (f : Frame)
    (introspection : option FieldDesc) : result PvaError OpResponse :=
  snd (decode_op_response_cached rtems host f introspection ∅).
