(* ===== verification/PvaFrameTheory.v ===== *)
(** * Properties of frames

    A frame is cut off the stream whatever the reads were; the parser panics exactly where
    the length of a frame overflows the machine word; a segmented message is put together
    again, within its cap. *)
From stdpp Require Import base tactics numbers list option strings gmap.
From S2P Require Import Prelude PvaProto PvaProtoTheory PvaText PvaDesc PvaDescTheory PvaValue PvaDelta.
From S2P Require Import PvaFrame.

Open Scope Z_scope.

(** ** One frame *)

(** The wire form of a frame that is not a control message. *)
Definition frame_bytes (f : Frame) : list Z := header_encode (header f) ++ payload f.

(** A data frame, its length field its length. *)
Definition frame_ok `{Target} (f : Frame) : Prop :=
  header_ok (header f) /\ version (header f) <> 0 /\ is_control (flags (header f)) = false /\
  payload_length (header f) = len (payload f) /\
  8 + len (payload f) <= uint_max usize_bits.

Lemma length_header_encode h : length (header_encode h) = HEADER_SIZE.
Proof.
  rewrite header_encode_write_into. unfold header_write_into, put_u8. rewrite !length_app, length_put_u32. done.
Qed.

Lemma read_exact_more n (cur more b rest : list Z) :
  read_exact n cur = Ok (b, rest) -> read_exact n (cur ++ more) = Ok (b, rest ++ more).
Proof.
  unfold read_exact. destruct (Nat.ltb_spec (length cur) n); [done|]. intros [= <- <-].
  rewrite length_app. destruct (Nat.ltb_spec (length cur + length more) n); [lia|].
  by rewrite take_app_le, drop_app_le by lia.
Qed.

(** A header already there is not changed by what follows. *)
Lemma header_decode_app cur more h rest :
  header_decode cur = Ok (h, rest) -> header_decode (cur ++ more) = Ok (h, rest ++ more).
Proof.
  assert (H8 : forall cur b r, get_u8 cur = Ok (b, r) -> get_u8 (cur ++ more) = Ok (b, r ++ more)).
  { clear. intros cur b r ->%get_u8_inv. apply get_u8_cons. }
  unfold header_decode.
  destruct (get_u8 cur) as [[m c1]|] eqn:E1; rbind; [|done]. rewrite (H8 _ _ _ E1). rbind.
  destruct (negb (m =? MAGIC)); [done|].
  destruct (get_u8 c1) as [[v c2]|] eqn:E2; rbind; [|done]. rewrite (H8 _ _ _ E2). rbind.
  destruct (v =? 0); [done|].
  destruct (get_u8 c2) as [[f c3]|] eqn:E3; rbind; [|done]. rewrite (H8 _ _ _ E3). rbind.
  destruct (get_u8 c3) as [[c c4]|] eqn:E4; rbind; [|done]. rewrite (H8 _ _ _ E4). rbind.
  unfold get_u32, get_uint. destruct (read_exact 4 c4) as [[b r]|] eqn:E5; rbind; [|done].
  rewrite (read_exact_more _ _ _ _ _ E5). rbind. by intros [= <- <-].
Qed.

Lemma get_uint_range n o cur v rest :
  bytes_ok cur -> get_uint n o cur = Ok (v, rest) -> 0 <= v < 256 ^ Z.of_nat n.
Proof.
  intros Hc. unfold get_uint. destruct (read_exact n cur) as [[b r]|] eqn:E; rbind; [|done].
  apply read_exact_inv in E as [-> <-]. apply Forall_app in Hc as [Hb _]. intros [= <- _].
  destruct o; [by apply from_le_bytes_range|by apply from_be_bytes_range].
Qed.

Lemma header_decode_len cur h rest :
  bytes_ok cur -> header_decode cur = Ok (h, rest) -> is_u32 (payload_length h).
Proof.
  intros Hok. unfold header_decode.
  destruct (get_u8 cur) as [[m c1]|] eqn:E1; rbind; [|done]. apply get_u8_inv in E1 as ->.
  destruct (negb (m =? MAGIC)); [done|].
  destruct (get_u8 c1) as [[v c2]|] eqn:E2; rbind; [|done]. apply get_u8_inv in E2 as ->.
  destruct (v =? 0); [done|].
  destruct (get_u8 c2) as [[f c3]|] eqn:E3; rbind; [|done]. apply get_u8_inv in E3 as ->.
  destruct (get_u8 c3) as [[c c4]|] eqn:E4; rbind; [|done]. apply get_u8_inv in E4 as ->.
  destruct (get_u32 _ c4) as [[n c5]|] eqn:E5; rbind; [|done]. intros [= <- _]. cbn [payload_length].
  apply get_uint_range in E5; [exact E5|]. by do 4 apply Forall_inv_tail in Hok.
Qed.

Section Parse.
Context `{Target}.

(** What the parser says of a buffer that starts with a whole header. *)
Lemma parse_header h tail role :
  header_ok h -> version h <> 0 -> is_control (flags h) = false ->
  wrong_direction role (is_server (flags h)) = false ->
  8 + payload_length h <= uint_max usize_bits ->
  try_parse_frame_role (header_encode h ++ tail) role
  = Returns (Ok (if len tail <? payload_length h then None
                 else Some (mkFrame h (take (Z.to_nat (payload_length h)) tail),
                            (8 + Z.to_nat (payload_length h))%nat))).
Proof.
  intros Hok Hv Hc Hw Hb. unfold try_parse_frame_role.
  pose proof (length_header_encode h) as Hl. unfold HEADER_SIZE in *.
  rewrite length_app, Hl. destruct (Nat.ltb_spec (8 + length tail) 8); [lia|].
  rewrite header_decode_encode by done. cbn [decoding map_err]. rewrite Hw, Hc.
  destruct Hok as (_ & _ & _ & [Hp0 Hp1]).
  assert (Hwr : wrap usize_bits (payload_length h) = payload_length h).
  { apply wrap_small. unfold is_uint, uint_max in *. lia. }
  rewrite Hwr. change (Z.of_nat 8) with 8.
  destruct (Z.leb_spec (8 + payload_length h) (uint_max usize_bits)); [|lia].
  assert (Hn : Z.to_nat (8 + payload_length h) = (8 + Z.to_nat (payload_length h))%nat) by lia.
  rewrite Hn. destruct (Z.ltb_spec (len tail) (payload_length h)) as [Hs|Hs].
  - destruct (Nat.ltb_spec (8 + length tail) (8 + Z.to_nat (payload_length h))); [done|lia].
  - destruct (Nat.ltb_spec (8 + length tail) (8 + Z.to_nat (payload_length h))); [lia|].
    do 4 f_equal. rewrite <- Hl at 1 2. rewrite take_app_add', drop_app_length' by done. done.
Qed.

(** A frame and what follows it. *)
Lemma parse_frame f rest role :
  frame_ok f -> wrong_direction role (is_server (flags (header f))) = false ->
  try_parse_frame_role (frame_bytes f ++ rest) role
  = Returns (Ok (Some (f, length (frame_bytes f)))).
Proof.
  intros (Hok & Hv & Hc & Hp & Hb) Hw. unfold frame_bytes. rewrite <- app_assoc.
  rewrite parse_header by (rewrite ?Hp; done). rewrite Hp, length_app.
  destruct (Z.ltb_spec (Z.of_nat (length (payload f) + length rest)) (len (payload f))); [lia|].
  rewrite Nat2Z.id, take_app_length, length_app, length_header_encode. by destruct f.
Qed.

(** A part of one: more is needed. *)
Lemma parse_partial f part role :
  frame_ok f -> wrong_direction role (is_server (flags (header f))) = false ->
  part `prefix_of` frame_bytes f -> (length part < length (frame_bytes f))%nat ->
  try_parse_frame_role part role = Returns (Ok None).
Proof.
  intros (Hok & Hv & Hc & Hp & Hb) Hw [more Hm] Hl.
  destruct (decide (length part < 8)%nat) as [Hs|Hs].
  { unfold try_parse_frame_role, HEADER_SIZE. by destruct (Nat.ltb_spec (length part) 8); [|lia]. }
  assert (exists tail, part = header_encode (header f) ++ tail) as [tail ->].
  { exists (drop 8 part). unfold frame_bytes in Hm.
    assert (Ht : take 8 part = header_encode (header f)).
    { rewrite <- (take_app_le part more 8), <- Hm by lia.
      rewrite take_app_le by (rewrite length_header_encode; unfold HEADER_SIZE; lia).
      apply take_ge. by rewrite length_header_encode. }
    by rewrite <- Ht, take_drop. }
  rewrite parse_header by (rewrite ?Hp; done). rewrite Hp.
  unfold frame_bytes in Hl. rewrite !length_app in Hl.
  destruct (Z.ltb_spec (len tail) (len (payload f))); [done|lia].
Qed.

(** ** The receive loop *)

Lemma not_over_cap f part max_msg_size :
  frame_ok f -> part `prefix_of` frame_bytes f ->
  (forall cap, max_msg_size = Some cap -> len (payload f) <= cap) ->
  over_cap max_msg_size part = false.
Proof.
  intros (Hok & Hv & Hc & Hp & Hb) [more Hm] Hcap. unfold over_cap. destruct max_msg_size as [cap|]; [|done].
  unfold HEADER_SIZE. destruct (Nat.leb_spec 8 (length part)) as [Hl|]; [|done].
  destruct (header_decode part) as [[h r]|e] eqn:E; [|done].
  assert (h = header f) as ->.
  { assert (E' : header_decode (part ++ more) = Ok (h, r ++ more)) by (by apply header_decode_app).
    rewrite <- Hm in E'. unfold frame_bytes in E'. rewrite header_decode_encode in E' by done. congruence. }
  rewrite Hc, Hp. simpl. apply Z.ltb_ge.
  rewrite wrap_small by (unfold is_uint, uint_max in *; lia). by apply Hcap.
Qed.

Lemma read_frame_next alloc max_msg_size f chunks : forall rx_buf rest,
  frame_ok f -> is_server (flags (header f)) = false ->
  (forall a b, alloc a b = true) -> (forall cap, max_msg_size = Some cap -> len (payload f) <= cap) ->
  Forall (fun c => c <> []) chunks -> rx_buf ++ mjoin chunks = frame_bytes f ++ rest ->
  exists rx_buf' chunks',
    read_frame alloc max_msg_size rx_buf chunks = Got f rx_buf' chunks' /\
    rx_buf' ++ mjoin chunks' = rest /\ chunks' `suffix_of` chunks.
Proof.
  induction chunks as [|c chunks IH]; intros rx_buf rest Hf Hs Ha Hcap Hc Hb.
  - cbn [mjoin list_join] in Hb. rewrite app_nil_r in Hb. subst rx_buf. cbn [read_frame].
    rewrite parse_frame by done. exists rest, []. split_and!; [|by rewrite app_nil_r|done].
    by rewrite drop_app_length.
  - apply list.Forall_cons in Hc as [Hc0 Hc]. cbn [read_frame]. change (mjoin (c :: chunks)) with (c ++ mjoin chunks) in Hb.
    destruct (decide (length (frame_bytes f) <= length rx_buf)%nat) as [Hl|Hl].
    + assert (exists tail, rx_buf = frame_bytes f ++ tail) as [tail ->].
      { exists (drop (length (frame_bytes f)) rx_buf).
        rewrite <- (take_drop (length (frame_bytes f)) rx_buf) at 1. f_equal.
        rewrite <- (take_app_le rx_buf (c ++ mjoin chunks)), Hb by done. by rewrite take_app_length. }
      rewrite parse_frame by done. exists tail, (c :: chunks). split_and!; [by rewrite drop_app_length| |done].
      rewrite <- app_assoc in Hb. by apply app_inv_head in Hb.
    + assert (Hpre : rx_buf `prefix_of` frame_bytes f).
      { exists (drop (length rx_buf) (frame_bytes f)).
        rewrite <- (take_drop (length rx_buf) (frame_bytes f)) at 1. f_equal.
        rewrite <- (take_app_le (frame_bytes f) rest), <- Hb by lia. by rewrite take_app_length. }
      rewrite (parse_partial f) by (done || lia). rewrite (not_over_cap f) by done.
      destruct c as [|x c]; [done|]. unfold try_extend. rewrite Ha.
      destruct (IH (rx_buf ++ x :: c) rest) as (rx' & ch' & E & Hr & Hsuf); try done.
      { by rewrite <- app_assoc. }
      exists rx', ch'. split_and!; [done|done|]. by apply suffix_cons_r.
Qed.
End Parse.

(** Whatever sizes the socket's reads come in, and whatever follows on the wire, the
    server's read loop returns the next frame a client sent, whole, and leaves exactly the
    bytes after it for the next call. *)
Theorem read_frame_takes_the_next_frame `{Target} alloc max_msg_size f rx_buf chunks rest :
  frame_ok f -> is_server (flags (header f)) = false ->
  (forall a b, alloc a b = true) -> (forall cap, max_msg_size = Some cap -> len (payload f) <= cap) ->
  Forall (fun c => c <> []) chunks -> rx_buf ++ mjoin chunks = frame_bytes f ++ rest ->
  exists rx_buf' chunks',
    read_frame alloc max_msg_size rx_buf chunks = Got f rx_buf' chunks' /\
    rx_buf' ++ mjoin chunks' = rest /\ chunks' `suffix_of` chunks.
Proof. apply read_frame_next. Qed.

(** The frame parser panics exactly on a data frame of the right direction whose length
    field, with the eight bytes of the header, does not fit the machine word: never where
    words have 64 bits, and on a 32-bit target for every length from 2^32 - 8 on, before any
    limit on the message size is looked at. *)
Theorem frame_parser_panics_on_word_overflow `{Target} buf role :
  bytes_ok buf ->
  try_parse_frame_role buf role = Panics <->
  exists h rest, header_decode buf = Ok (h, rest) /\ (8 <= length buf)%nat /\
    wrong_direction role (is_server (flags h)) = false /\ is_control (flags h) = false /\
    usize_bits < 33 /\ 2 ^ 32 - 8 <= payload_length h.
Proof.
  intros Hok. unfold try_parse_frame_role, HEADER_SIZE. pose proof usize_bits_ge as Hge.
  destruct (Nat.ltb_spec (length buf) 8) as [Hs|Hs].
  { split; [done|]. intros (h & rest & _ & Hl & _). lia. }
  destruct (header_decode buf) as [[h rest]|e] eqn:E; simpl.
  2:{ split; [done|]. intros (h & rest & He & _). done. }
  assert (Hp : is_u32 (payload_length h)) by (by eapply header_decode_len).
  destruct (wrong_direction role (is_server (flags h))) eqn:Ew.
  { split; [done|]. intros (h' & r' & [= <- <-] & _ & Hw & _). congruence. }
  destruct (is_control (flags h)) eqn:Ec.
  { split; [done|]. intros (h' & r' & [= <- <-] & _ & _ & Hc & _). congruence. }
  rewrite wrap_small by (by apply usize_holds_u32). unfold uint_max, is_uint in *.
  change (Z.of_nat 8) with 8.
  assert (Hw : usize_bits < 33 <-> 2 ^ usize_bits = 2 ^ 32).
  { split; intros Hu; [f_equal; lia|]. apply Z.pow_inj_r in Hu; lia. }
  assert (Hmono : 2 ^ 32 <= 2 ^ usize_bits) by (apply Z.pow_le_mono_r; lia).
  assert (Hmono' : usize_bits < 33 \/ 2 ^ 33 <= 2 ^ usize_bits)
    by (destruct (decide (usize_bits < 33)); [tauto|right; apply Z.pow_le_mono_r; lia]).
  destruct (Z.leb_spec (8 + payload_length h) (2 ^ usize_bits - 1)) as [Hb|Hb].
  - split; [by case_match|]. intros (h' & r' & [= <- <-] & _ & _ & _ & Hu & Hl).
    apply Hw in Hu. lia.
  - split; [|done]. intros _. exists h, rest. split_and!; try done; [|lia]. lia.
Qed.

Lemma frame_parser_panics_on_word_overflow_witness :
  @try_parse_frame_role rtems32 [0xCA; 2; 0; 3; 0xFF; 0xFF; 0xFF; 0xFF] PeerRole.Server = Panics.
Proof.
  apply (@frame_parser_panics_on_word_overflow rtems32).
  - repeat (apply List.Forall_cons; [split; [lia|reflexivity]|]). apply List.Forall_nil.
  - exists (mkPvaHeader 2 0 3 0xFFFFFFFF), []. repeat split; vm_compute; (reflexivity || discriminate || lia).
Defined.

Lemma read_frame_takes_the_next_frame_witness :
  exists rx_buf' chunks',
    @read_frame host64 (fun _ _ => true) (Some 16) [] [[0xCA; 2]; [0; 3; 2; 0]; [0; 0; 7; 8; 9]]
    = Got (mkFrame (mkPvaHeader 2 0 3 2) [7; 8]) rx_buf' chunks' /\
    rx_buf' ++ mjoin chunks' = [9] /\ chunks' `suffix_of` [[0xCA; 2]; [0; 3; 2; 0]; [0; 0; 7; 8; 9]].
Proof.
  apply (@read_frame_takes_the_next_frame host64).
  - repeat split; vm_compute; (reflexivity || discriminate || lia).
  - reflexivity.
  - intros. reflexivity.
  - intros cap [= <-]. vm_compute. discriminate.
  - repeat (apply List.Forall_cons; [discriminate|]). apply List.Forall_nil.
  - reflexivity.
Defined.


(** ** Segmented messages *)

(** A segment of a message: its flags with the segment bits of its place. *)
Definition segment (v fl cmd bits : Z) (part : list Z) : Frame :=
  mkFrame (mkPvaHeader v (Z.lor fl bits) cmd (len part)) part.

(** A message cut into a first part, middle ones and a last. *)
Definition segments (v fl cmd : Z) (first : list Z) (mids : list (list Z)) (last : list Z) : list Frame :=
  segment v fl cmd FLAG_SEGMENT_FIRST first
  :: (segment v fl cmd FLAG_SEGMENT_MASK <$> mids) ++ [segment v fl cmd FLAG_SEGMENT_LAST last].

(** The circuit's frames through its assembler: what each push gave. *)
Fixpoint assemble `{Target} alloc (cap : option Z) (a : SegmentAssembler) (fs : list Frame)
    : SegmentAssembler * list (result PvaError (option Frame)) :=
  match fs with
  | [] => (a, [])
  | f :: fs =>
      let '(a, r) := SegmentAssembler_push alloc a f cap in
      let '(a, rs) := assemble alloc cap a fs in (a, r :: rs)
  end.

Section Segments.
Context `{Target}.
Variable alloc : nat -> nat -> bool.
Hypothesis granted : forall a b, alloc a b = true.

Lemma segment_bits fl bits :
  Z.land fl FLAG_SEGMENT_MASK = 0 -> Z.land bits FLAG_SEGMENT_MASK = bits ->
  Z.land (Z.lor fl bits) FLAG_SEGMENT_MASK = bits /\ Z.ldiff (Z.lor fl bits) FLAG_SEGMENT_MASK = fl.
Proof.
  intros Hf Hb. split.
  - by rewrite Z.land_lor_distr_l, Hf, Hb, Z.lor_0_l.
  - apply Z.bits_inj'. intros n Hn. rewrite Z.ldiff_spec, Z.lor_spec.
    assert (E1 : Z.testbit fl n && Z.testbit FLAG_SEGMENT_MASK n = false)
      by (by rewrite <- Z.land_spec, Hf, Z.bits_0).
    assert (E2 : Z.testbit bits n && Z.testbit FLAG_SEGMENT_MASK n = Z.testbit bits n)
      by (by rewrite <- Z.land_spec, Hb).
    by destruct (Z.testbit fl n), (Z.testbit bits n), (Z.testbit FLAG_SEGMENT_MASK n).
Qed.

Definition within (cap : option Z) (n : Z) : Prop :=
  match cap with Some cap => n <= cap | None => True end.

Lemma cap_ok cap n m : within cap (n + m) ->
  match cap with Some cap => cap <? Z.min (n + m) (uint_max usize_bits) | None => false end = false.
Proof. destruct cap as [cap|]; [|done]. simpl. intros Hc. apply Z.ltb_ge. lia. Qed.

Variables v fl cmd : Z.
Hypothesis plain : Z.land fl FLAG_SEGMENT_MASK = 0.

Lemma push_first cap a part :
  expect a = false -> seg_buf a = [] -> within cap (len part) ->
  SegmentAssembler_push alloc a (segment v fl cmd FLAG_SEGMENT_FIRST part) cap
  = (mkSegmentAssembler part cmd fl true, Ok None).
Proof.
  intros He Hb Hc. unfold SegmentAssembler_push, segment. cbn [header flags command payload].
  destruct (segment_bits fl FLAG_SEGMENT_FIRST plain eq_refl) as [-> ->].
  cbn [Z.land Pos.land FLAG_SEGMENT_FIRST FLAG_SEGMENT_LAST Z.eqb negb xorb]. rewrite He. cbn [xorb orb andb].
  rewrite Hb, cap_ok by (simpl; done). simpl. unfold try_extend. by rewrite granted.
Qed.

Lemma push_middle cap buf part :
  within cap (len buf + len part) ->
  SegmentAssembler_push alloc (mkSegmentAssembler buf cmd fl true)
    (segment v fl cmd FLAG_SEGMENT_MASK part) cap
  = (mkSegmentAssembler (buf ++ part) cmd fl true, Ok None).
Proof.
  intros Hc. unfold SegmentAssembler_push, segment. cbn [header flags command payload seg_buf seg_cmd expect].
  destruct (segment_bits fl FLAG_SEGMENT_MASK plain eq_refl) as [-> _].
  change (negb (Z.land FLAG_SEGMENT_MASK FLAG_SEGMENT_LAST =? 0)) with true. cbn [xorb orb].
  rewrite Z.eqb_refl. cbn [negb andb]. rewrite cap_ok by done. simpl. unfold try_extend. by rewrite granted.
Qed.

Lemma push_last cap buf part :
  within cap (len buf + len part) ->
  SegmentAssembler_push alloc (mkSegmentAssembler buf cmd fl true)
    (segment v fl cmd FLAG_SEGMENT_LAST part) cap
  = (mkSegmentAssembler [] cmd fl false,
     Ok (Some (mkFrame (mkPvaHeader v fl cmd (wrap 32 (len (buf ++ part)))) (buf ++ part)))).
Proof.
  intros Hc. unfold SegmentAssembler_push, segment. cbn [header flags command payload seg_buf seg_cmd expect].
  destruct (segment_bits fl FLAG_SEGMENT_LAST plain eq_refl) as [-> _].
  change (negb (Z.land FLAG_SEGMENT_LAST FLAG_SEGMENT_LAST =? 0)) with true. cbn [xorb orb].
  rewrite Z.eqb_refl. cbn [negb andb]. rewrite cap_ok by done. simpl. unfold try_extend. by rewrite granted.
Qed.

Lemma assemble_rest cap last mids : forall buf,
  within cap (len (buf ++ mjoin mids ++ last)) ->
  assemble alloc cap (mkSegmentAssembler buf cmd fl true)
    ((segment v fl cmd FLAG_SEGMENT_MASK <$> mids) ++ [segment v fl cmd FLAG_SEGMENT_LAST last])
  = (mkSegmentAssembler [] cmd fl false,
     replicate (length mids) (Ok None)
     ++ [Ok (Some (mkFrame (mkPvaHeader v fl cmd (wrap 32 (len (buf ++ mjoin mids ++ last))))
                     (buf ++ mjoin mids ++ last)))]).
Proof.
  induction mids as [|p mids IH]; intros buf Hc.
  - simpl in *. rewrite push_last; [done|]. rewrite length_app in Hc. destruct cap; simpl in *; [lia|done].
  - change (mjoin (p :: mids)) with (p ++ mjoin mids) in *. rewrite fmap_cons. cbn [app assemble].
    rewrite push_middle by (rewrite !length_app in Hc; destruct cap; simpl in *; [lia|done]).
    rewrite IH by (by rewrite <- !app_assoc in *). rewrite <- !app_assoc. done.
Qed.
End Segments.

(** C34: a message sent in segments, one after the other, to an assembler between messages
    comes out whole with its last segment and no sooner: its parts in order, under the command
    and flags of the message without the segment bits; the assembler is then ready for the
    next message. *)
Theorem segmented_message_is_reassembled `{Target} alloc cap a v fl cmd first mids last :
  (forall a b, alloc a b = true) -> Z.land fl FLAG_SEGMENT_MASK = 0 ->
  expect a = false -> seg_buf a = [] -> within cap (len (first ++ mjoin mids ++ last)) ->
  assemble alloc cap a (segments v fl cmd first mids last)
  = (mkSegmentAssembler [] cmd fl false,
     replicate (S (length mids)) (Ok None)
     ++ [Ok (Some (mkFrame (mkPvaHeader v fl cmd (wrap 32 (len (first ++ mjoin mids ++ last))))
                     (first ++ mjoin mids ++ last)))]).
Proof.
  intros Ha Hf He Hb Hc. unfold segments. cbn [assemble].
  rewrite push_first by (try done; rewrite length_app in Hc; destruct cap; simpl in *; lia || done).
  by rewrite assemble_rest.
Qed.

Lemma segmented_message_is_reassembled_witness :
  @assemble host64 (fun _ _ => true) (Some 8) SegmentAssembler_default
    (segments 2 0x40 13 [1; 2] [[3]; []; [4]] [5])
  = (mkSegmentAssembler [] 13 0x40 false,
     [Ok None; Ok None; Ok None; Ok None;
      Ok (Some (mkFrame (mkPvaHeader 2 0x40 13 5) [1; 2; 3; 4; 5]))]).
Proof.
  apply (@segmented_message_is_reassembled host64 (fun _ _ => true) (Some 8) SegmentAssembler_default
    2 0x40 13 [1; 2] [[3]; []; [4]] [5]); try reflexivity. vm_compute. discriminate.
Defined.

(** A circuit's assembler: nothing is buffered between messages, and never more than the cap. *)
Definition assembler_ok (cap : Z) (a : SegmentAssembler) : Prop :=
  (expect a = false -> seg_buf a = []) /\ len (seg_buf a) <= cap.

Lemma segment_bits_cases x :
  let seg := Z.land x FLAG_SEGMENT_MASK in
  seg = 0 \/ seg = FLAG_SEGMENT_FIRST \/ negb (Z.land seg FLAG_SEGMENT_LAST =? 0) = true.
Proof.
  intros seg.
  assert (Hs : seg = Z.lor (if Z.testbit x 4 then 16 else 0) (if Z.testbit x 5 then 32 else 0)).
  { unfold seg. apply Z.bits_inj'. intros n Hn. rewrite Z.land_spec, Z.lor_spec.
    destruct (decide (n < 6)) as [Hl|Hl].
    - assert (Hc : n = 0 \/ n = 1 \/ n = 2 \/ n = 3 \/ n = 4 \/ n = 5) by lia.
      destruct Hc as [->|[->|[->|[->|[->| ->]]]]]; destruct (Z.testbit x 4), (Z.testbit x 5);
        rewrite ?andb_false_r, ?andb_true_r; done.
    - rewrite (Z.bits_above_log2 FLAG_SEGMENT_MASK) by (vm_compute (Z.log2 FLAG_SEGMENT_MASK); lia || done).
      rewrite andb_false_r. symmetry. apply orb_false_iff.
      split; case_match; rewrite ?Z.bits_0; try done; apply Z.bits_above_log2; try done; simpl; lia. }
  rewrite Hs. destruct (Z.testbit x 4), (Z.testbit x 5); vm_compute; tauto.
Qed.

Lemma push_within_cap `{Target} alloc cap a f a' r :
  0 <= cap < uint_max usize_bits -> assembler_ok cap a ->
  SegmentAssembler_push alloc a f (Some cap) = (a', r) ->
  assembler_ok cap a' /\ forall g, r = Ok (Some g) -> len (payload g) <= cap.
Proof.
  intros Hc [Ha Hl]. unfold SegmentAssembler_push.
  pose proof (segment_bits_cases (flags (header f))) as Hseg. cbv zeta in Hseg.
  set (seg := Z.land (flags (header f)) FLAG_SEGMENT_MASK) in *.
  destruct (xorb _ _ || _) eqn:E1; [intros [= <- <-]; by split|].
  apply orb_false_iff in E1 as [E1 _].
  destruct (Z.ltb_spec cap (Z.min (len (seg_buf a) + len (payload f)) (uint_max usize_bits)));
    [intros [= <- <-]; by split|].
  destruct (Z.eqb_spec seg 0); [intros [= <- <-]; split; [done|intros g [= <-]; lia]|].
  set (a1 := if seg =? FLAG_SEGMENT_FIRST then _ else a).
  assert (Ha1 : len (seg_buf a1) <= len (seg_buf a)) by (unfold a1; case_match; simpl; lia).
  assert (Hx1 : expect a1 = true).
  { unfold a1. destruct (Z.eqb_spec seg FLAG_SEGMENT_FIRST); [done|].
    destruct Hseg as [?|[?|Hs]]; [done|done|]. rewrite Hs in E1. by destruct (expect a). }
  unfold try_extend. destruct (alloc _ _).
  - destruct (negb (seg =? FLAG_SEGMENT_LAST)).
    + intros [= <- <-]. split; [|done]. split; cbn [expect seg_buf]; [congruence|rewrite length_app; lia].
    + intros [= <- <-]. split; [split; [done|simpl; lia]|]. intros g [= <-]. cbn [payload].
      rewrite length_app. lia.
  - intros [= <- <-]. split; [|done]. split; [congruence|lia].
Qed.

(** C35: whatever frames a peer sends, a circuit with a cap on its messages never buffers more
    than the cap and never hands on a message longer than it; between messages it buffers
    nothing. *)
Theorem reassembly_respects_its_cap `{Target} alloc cap fs a rs :
  0 <= cap < uint_max usize_bits ->
  assemble alloc (Some cap) SegmentAssembler_default fs = (a, rs) ->
  assembler_ok cap a /\ forall g, Ok (Some g) ∈ rs -> len (payload g) <= cap.
Proof.
  intros Hc. assert (Hd : assembler_ok cap SegmentAssembler_default) by (split; [done|simpl; lia]).
  revert Hd. generalize SegmentAssembler_default. revert a rs.
  induction fs as [|f fs IH]; intros a rs a0 H0; cbn [assemble].
  - intros [= <- <-]. split; [done|]. by intros g ?%not_elem_of_nil.
  - destruct (SegmentAssembler_push alloc a0 f (Some cap)) as [a1 r] eqn:E1.
    destruct (assemble alloc (Some cap) a1 fs) as [a2 rs'] eqn:E2. intros [= <- <-].
    destruct (push_within_cap alloc cap a0 f a1 r Hc H0 E1) as [H1 Hr].
    destruct (IH a2 rs' a1 H1 E2) as [H2 Hrs]. split; [done|].
    intros g [Hg|Hg]%elem_of_cons; [by apply Hr|by apply Hrs].
Qed.

Lemma reassembly_respects_its_cap_witness :
  snd (@assemble host64 (fun _ _ => true) (Some 3) SegmentAssembler_default
    (segments 2 0x40 13 [1; 2] [[3]] [5]))
  = [Ok None; Ok None; Err (Protocol "segmented PVA message exceeds max_message_size")] /\
  len (seg_buf (fst (@assemble host64 (fun _ _ => true) (Some 3) SegmentAssembler_default
    (segments 2 0x40 13 [1; 2] [[3]] [5])))) <= 3.
Proof.
  split; [vm_compute; reflexivity|].
  destruct (@reassembly_respects_its_cap host64 (fun _ _ => true) 3 (segments 2 0x40 13 [1; 2] [[3]] [5])
    _ _ ltac:(vm_compute; split; discriminate || reflexivity) (surjective_pairing _)) as [[_ H1] _]. exact H1.
Defined.
