(* ===== verification/PvaMonitor.v ===== *)
(** * Monitors

    Models the two ends of a pvAccess subscription.  On the server: the frames of a monitor,
    the updates a source posts and how two of them coalesce, the decoded queue
    ([MonitorQueue]) and the queue of raw bodies a gateway forwards
    ([server_native/tcp.rs], [server_native/source.rs]).  On the client: the bounded backlog
    of received frames and the delivery fence of a connection
    ([client_native/monitor_queue.rs]), and the loop that merges each update into the value
    the subscriber sees ([client_native/ops_v2.rs]). *)
From stdpp Require Import base tactics numbers list option strings gmap.
From S2P Require Import Prelude PvaProto PvaText PvaDesc PvaValue PvaDelta PvaFrame.

Open Scope Z_scope.

(** A shared allocation: its address and what it holds.  Two live handles of one address are
    the same allocation. *)
Record Arc (A : Type) : Type := mkArc {
  addr : nat;
  pointee : A;
}.
Arguments mkArc {A}.
Arguments addr {A}.
Arguments pointee {A}.

Definition ptr_eq {A : Type} (a b : Arc A) : bool := (addr a =? addr b)%nat.

(** ** Frames of a monitor *)

Definition monitor_payload (ioid subcmd : Z) (body : list Z) (o : ByteOrder) : list Z :=
  put_u32 ioid o ++ put_u8 subcmd ++ body.

Definition monitor_frame (ioid subcmd : Z) (body : list Z) (o : ByteOrder) : list Z :=
  let payload := monitor_payload ioid subcmd body o in
  header_write_into (application true o (code Monitor) (wrap 32 (len payload))) ++ payload.

(** The frame, and the size hint it leaves. *)
Definition build_monitor_payload `{ScalarCopy} (host : ByteOrder) (ioid : Z) (intro : FieldDesc)
    (value : PvField.t) (changed : BitSet.t) (o : ByteOrder) : list Z * nat :=
  let payload :=
    put_u32 ioid o ++ put_u8 0x00
    ++ BitSet.encode changed o
    ++ encode_pv_field_with_bitset host o value intro changed 0
    ++ BitSet.encode BitSet.new o in
  let h := application true o (code Monitor) (wrap 32 (len payload)) in
  (header_encode h ++ payload, length (header_encode h ++ payload)).

Definition build_monitor_finish (ioid : Z) (o : ByteOrder) : list Z :=
  monitor_frame ioid 0x10 (status_encode OkNoMsg o) o.

Definition build_monitor_error (ioid : Z) (msg : list Z) (o : ByteOrder) : list Z :=
  monitor_frame ioid 0x10 (status_encode (Detailed StError msg []) o) o.

(** ** Updates a source posts *)

Inductive Marks : Type :=
| Owned (paths : list (list Z))
| Shared (paths : Arc (list (list Z))).

Definition mark_paths (m : Marks) : list (list Z) :=
  match m with Owned p => p | Shared p => pointee p end.

Definition same_set (a b : Marks) : bool :=
  match a, b with
  | Shared a, Shared b => ptr_eq a b
  | _, _ => false
  end.

Record MonitorUpdate : Type := mkMonitorUpdate {
  up_value : PvField.t;
  marked : option Marks;
  type_changed : bool;
  lost : list (list Z);
}.

Definition type_change : MonitorUpdate := mkMonitorUpdate PvField.Null None true [].

(** [From<PvField>]. *)
Definition whole_update (v : PvField.t) : MonitorUpdate := mkMonitorUpdate v None false [].

Definition contains (l : list (list Z)) (p : list Z) : bool := bool_decide (p ∈ l).

(** Append every path of the second list that the first does not hold. *)
Definition union_paths (into from : list (list Z)) : list (list Z) :=
  foldl (fun acc p => if contains acc p then acc else acc ++ [p]) into from.

Definition union_marks (a b : option Marks) : option Marks :=
  match a, b with
  | Some a, Some b =>
      if same_set a b then Some a else Some (Owned (union_paths (mark_paths a) (mark_paths b)))
  | _, _ => None
  end.

(** [MonitorUpdate::squash], the rule of the rings of posts. *)
Definition squash_update (tail newer : MonitorUpdate) : MonitorUpdate :=
  let both :=
    match marked tail, marked newer with
    | Some a, Some b => List.filter (contains (mark_paths b)) (mark_paths a)
    | None, Some b => mark_paths b
    | Some a, None => mark_paths a
    | None, None => []
    end in
  mkMonitorUpdate (up_value newer) (union_marks (marked tail) (marked newer))
    (type_changed tail || type_changed newer)
    (union_paths (union_paths (lost tail) (lost newer)) both).

(** [coalesce_monitor_update], the rule of the server's decoded queue. *)
Definition coalesce_monitor_update (older newer : MonitorUpdate) : MonitorUpdate :=
  if type_changed older || type_changed newer then type_change
  else
    let overrun := union_paths (lost older) (lost newer) in
    let overrun :=
      match marked older, marked newer with
      | Some a, Some b =>
          foldl (fun acc p => if contains (mark_paths b) p && negb (contains acc p)
                              then acc ++ [p] else acc) overrun (mark_paths a)
      | _, _ => overrun
      end in
    mkMonitorUpdate (up_value newer) (union_marks (marked older) (marked newer)) false overrun.

(** ** The decoded queue of the server *)

(** The wire changed set of a framed value. *)
Definition read_changed_bitset (intro : FieldDesc) (mask : BitSet.t)
    (marked : option (list (list Z))) : BitSet.t :=
  match marked with
  | Some paths => marked_wire_changed_bitset intro paths mask
  | None => canonical_changed_bitset intro mask
  end.

Record QueuedUpdate : Type := mkQueuedUpdate {
  update : MonitorUpdate;
  wire : Arc BitSet.t;
}.

(** [fresh] is the address the allocator gives a new set. *)
Definition coalesce_queued_update (fresh : nat) (older newer : QueuedUpdate) : QueuedUpdate :=
  let update := coalesce_monitor_update (update older) (update newer) in
  let changed :=
    if type_changed update then mkArc fresh BitSet.new
    else if ptr_eq (wire older) (wire newer) then wire older
    else mkArc fresh (BitSet.union_with (pointee (wire older)) (pointee (wire newer))) in
  mkQueuedUpdate update changed.

Record MonitorStat : Type := mkMonitorStat {
  stat_max_queue : nat;
  stat_n_squash : Z;
}.

Definition stat_queued (s : MonitorStat) (depth : nat) : MonitorStat :=
  if (stat_max_queue s <? depth)%nat then mkMonitorStat depth (stat_n_squash s) else s.
Definition stat_squashed (s : MonitorStat) : MonitorStat :=
  mkMonitorStat (stat_max_queue s) (wrap 64 (stat_n_squash s + 1)).

(** Append while there is room, a terminal always, else coalesce into the tail; [None] is the
    panic of an empty full queue. *)
Definition push_squash_monitor {T : Type} (is_terminal : T -> bool) (coalesce : T -> T -> T)
    (limit : nat) (pending : list T) (stat : MonitorStat) (ev : T) : option (list T * MonitorStat) :=
  if is_terminal ev || (length pending <? limit)%nat then
    Some (pending ++ [ev], stat_queued stat (length (pending ++ [ev])))
  else
    match last pending with
    | None => None
    | Some tail => Some (removelast pending ++ [coalesce tail ev], stat_squashed stat)
    end.

Record MonitorQueue : Type := mkMonitorQueue {
  pending : list QueuedUpdate;
  limit : nat;
  first : bool;
  intro : FieldDesc;
  mask : BitSet.t;
  unmarked_changed : Arc BitSet.t;
  shared_changed : list (Marks * Arc BitSet.t);
  stat : MonitorStat;
  next_addr : nat;
}.

Definition SHARED_CHANGED_CAP : nat := 8.

Definition MonitorQueue_new (limit : nat) (intro : FieldDesc) (mask : BitSet.t)
    (stat : MonitorStat) : MonitorQueue :=
  mkMonitorQueue [] (limit `max` 1) true intro mask
    (mkArc 0 (canonical_changed_bitset intro mask)) [] stat 1.

(** The entry of a shared set in the cache. *)
Fixpoint find_shared (m : Marks) (l : list (Marks * Arc BitSet.t)) : option (Arc BitSet.t) :=
  match l with
  | [] => None
  | (m', bits) :: l => if same_set m' m then Some bits else find_shared m l
  end.

(** The wire set of an update, and the queue with its cache and allocator moved on. *)
Definition wire_changed (q : MonitorQueue) (ev : MonitorUpdate) : Arc BitSet.t * MonitorQueue :=
  let with_cache shared :=
    mkMonitorQueue (pending q) (limit q) (first q) (intro q) (mask q) (unmarked_changed q)
      shared (stat q) (S (next_addr q)) in
  if type_changed ev then (mkArc (next_addr q) BitSet.new, with_cache (shared_changed q))
  else
    match marked ev with
    | None => (unmarked_changed q, q)
    | Some marks =>
        let resolve := mkArc (next_addr q)
          (marked_wire_changed_bitset (intro q) (mark_paths marks) (mask q)) in
        match marks with
        | Owned _ => (resolve, with_cache (shared_changed q))
        | Shared _ =>
            match find_shared marks (shared_changed q) with
            | Some bits => (bits, q)
            | None =>
                let kept :=
                  if (length (shared_changed q) =? SHARED_CHANGED_CAP)%nat
                  then tail (shared_changed q) else shared_changed q in
                (resolve, with_cache (kept ++ [(marks, resolve)]))
            end
        end
    end.

Definition with_pending (q : MonitorQueue) (first : bool) (pending : list QueuedUpdate)
    (stat : MonitorStat) (next : nat) : MonitorQueue :=
  mkMonitorQueue pending (limit q) first (intro q) (mask q) (unmarked_changed q)
    (shared_changed q) stat next.

(** The value a read gives, with the leaves it assigned. *)
Record SourceRead : Type := mkSourceRead {
  read_value : PvField.t;
  read_marked : option (list (list Z));
}.

Definition read_update (r : SourceRead) : MonitorUpdate :=
  mkMonitorUpdate (read_value r) (Owned <$> read_marked r) false [].

Definition MonitorQueue_seed (q : MonitorQueue) (initial : SourceRead) : MonitorQueue :=
  let update := read_update initial in
  let '(changed, q) := wire_changed q update in
  let pending := pending q ++ [mkQueuedUpdate update changed] in
  with_pending q false pending (stat_queued (stat q) (length pending)) (next_addr q).

Definition queued_is_terminal (q : QueuedUpdate) : bool := type_changed (update q).

(** Whether the update was queued; [None] is a panic. *)
Definition MonitorQueue_push (q : MonitorQueue) (ev : MonitorUpdate) : option (bool * MonitorQueue) :=
  let '(changed, q) := wire_changed q ev in
  if negb (first q || type_changed ev || negb (BitSet.is_empty (pointee changed)))
  then Some (false, q)
  else
    '(pending, stat) ← push_squash_monitor queued_is_terminal
                         (coalesce_queued_update (next_addr q)) (limit q) (pending q) (stat q)
                         (mkQueuedUpdate ev changed);
    Some (true, with_pending q false pending stat (S (next_addr q))).

Definition MonitorQueue_pop (q : MonitorQueue) : option QueuedUpdate * MonitorQueue :=
  match pending q with
  | [] => (None, q)
  | u :: rest => (Some u, with_pending q (first q) rest (stat q) (next_addr q))
  end.

(** ** Raw bodies a gateway forwards *)

Record RawMonitorEvent : Type := mkRawMonitorEvent {
  raw_bytes : list Z;
  raw_order : ByteOrder;
  raw_type_changed : bool;
}.

Section Raw.
Context `{Target} `{ScalarCopy}.
Variable rtems : bool.
Variable host : ByteOrder.

Definition coalesce_raw_monitor_event (intro : FieldDesc) (older newer : RawMonitorEvent)
    : RawMonitorEvent :=
  if raw_type_changed older || raw_type_changed newer
  then mkRawMonitorEvent [] (raw_order newer) true
  else
    match squash_monitor_bodies rtems host intro
            (mkMonitorBody (raw_bytes older) (raw_order older))
            (mkMonitorBody (raw_bytes newer) (raw_order newer)) (raw_order newer) with
    | Ok body => mkRawMonitorEvent body (raw_order newer) false
    | Err _ => newer
    end.

(** The part of a body that did not decode, with the error. *)
Definition reencode_raw_monitor (ioid : Z) (intro : FieldDesc) (ev : RawMonitorEvent)
    (downstream_order : ByteOrder) : result SquashError (list Z) :=
  let part {A} (what : string) (r : result DecodeError A) : result SquashError A :=
    map_err (SquashErr what) r in
  '(changed, cur) ← part "decode changed bitset" (BitSet.decode (raw_order ev) (raw_bytes ev));
  '(value, cur) ← part "decode value with bitset"
      (decode_pv_field_with_bitset rtems host (raw_order ev) changed intro 0 cur);
  '(overrun, _) ← part "decode overrun bitset" (BitSet.decode (raw_order ev) cur);
  Ok (monitor_frame ioid 0x00
        (BitSet.encode changed downstream_order
         ++ encode_pv_field_with_bitset host downstream_order value intro changed 0
         ++ BitSet.encode overrun downstream_order) downstream_order).

Definition build_monitor_payload_raw (ioid : Z) (ev : RawMonitorEvent) (o : ByteOrder) : list Z :=
  monitor_frame ioid 0x00 (raw_bytes ev) o.

Inductive RawMonitorFrame : Type :=
| Forward (frame : list Z)
| Terminate (frame : list Z) (reason : SquashError).

(** [render] is the text of an error. *)
Definition raw_monitor_frame (render : SquashError -> list Z) (ioid : Z) (intro : FieldDesc)
    (ev : RawMonitorEvent) (downstream_order : ByteOrder) : RawMonitorFrame :=
  if decide (raw_order ev = downstream_order)
  then Forward (build_monitor_payload_raw ioid ev downstream_order)
  else
    match reencode_raw_monitor ioid intro ev downstream_order with
    | Ok p => Forward p
    | Err reason => Terminate (build_monitor_error ioid (render reason) downstream_order) reason
    end.
End Raw.

(** ** The backlog of the client *)

Definition BODY_AT : nat := 5.

(** A data frame: subcommand zero and a body. *)
Definition is_data (f : Frame) : bool :=
  (BODY_AT <? length (payload f))%nat && bool_decide (payload f !! 4%nat = Some 0x00).

(** Each frame with the ticket it holds in the connection's fence. *)
Record MonitorBacklog : Type := mkMonitorBacklog {
  bq : list (Frame * nat);
  blimit : nat;
  pipeline : bool;
  bintro : option FieldDesc;
  n_squash : Z;
  max_queue : nat;
  closed : bool;
}.

Definition MonitorBacklog_new (limit : nat) (pipeline : bool) : MonitorBacklog :=
  mkMonitorBacklog [] (limit `max` 1) pipeline None 0 0 false.

Definition MonitorBacklog_arm (b : MonitorBacklog) (intro : FieldDesc) : MonitorBacklog :=
  mkMonitorBacklog (bq b) (blimit b) (pipeline b) (Some intro) (n_squash b) (max_queue b) (closed b).

Definition with_q (b : MonitorBacklog) (q : list (Frame * nat)) (n : Z) : MonitorBacklog :=
  mkMonitorBacklog q (blimit b) (pipeline b) (bintro b) n (max_queue b) (closed b).

(** The frame a squash leaves in the tail's place. *)
Definition merged_frame (frame : Frame) (body : list Z) : Frame :=
  let payload := take BODY_AT (payload frame) ++ body in
  mkFrame (application true (frame_order frame) (command (header frame)) (wrap 32 (len payload)))
    payload.

(** The squash of a frame into the tail, where the two can be merged. *)
Definition squash_frames `{Target} `{ScalarCopy} (rtems : bool) (host : ByteOrder)
    (intro : FieldDesc) (tail frame : Frame) : result SquashError Frame :=
  body ← squash_monitor_bodies rtems host intro
           (mkMonitorBody (drop BODY_AT (payload tail)) (frame_order tail))
           (mkMonitorBody (drop BODY_AT (payload frame)) (frame_order frame)) (frame_order frame);
  Ok (merged_frame frame body).

(** [Inner::push]: the ticket of a frame that is squashed is dropped, the tail keeps its own.
    The second component is the ticket dropped. *)
Definition Inner_push `{Target} `{ScalarCopy} (rtems : bool) (host : ByteOrder)
    (b : MonitorBacklog) (frame : Frame) (ticket : nat) : MonitorBacklog * option nat :=
  let append := (with_q b (bq b ++ [(frame, ticket)]) (n_squash b), None) in
  if negb (is_data frame) || pipeline b || (length (bq b) <? blimit b)%nat then append
  else
    match bintro b, last (bq b) with
    | Some intro, Some (tail, kept) =>
        if is_data tail then
          match squash_frames rtems host intro tail frame with
          | Ok merged =>
              (with_q b (removelast (bq b) ++ [(merged, kept)]) (wrap 64 (n_squash b + 1)), Some ticket)
          | Err _ => append
          end
        else append
    | _, _ => append
    end.

(** [MonitorBacklog::push]: nothing enters a closed backlog. *)
Definition MonitorBacklog_push `{Target} `{ScalarCopy} (rtems : bool) (host : ByteOrder)
    (b : MonitorBacklog) (frame : Frame) (ticket : nat) : MonitorBacklog * option nat :=
  if closed b then (b, Some ticket)
  else
    let '(b, dropped) := Inner_push rtems host b frame ticket in
    let depth := length (bq b) in
    (if (max_queue b <? depth)%nat
     then mkMonitorBacklog (bq b) (blimit b) (pipeline b) (bintro b) (n_squash b) depth (closed b)
     else b, dropped).

Definition MonitorBacklog_close (b : MonitorBacklog) : MonitorBacklog :=
  mkMonitorBacklog (bq b) (blimit b) (pipeline b) (bintro b) (n_squash b) (max_queue b) true.

(** The backlog of a consumer that is gone, with the tickets it releases. *)
Definition MonitorBacklog_abandon (b : MonitorBacklog) : MonitorBacklog * list nat :=
  (mkMonitorBacklog [] (blimit b) (pipeline b) (bintro b) (n_squash b) (max_queue b) true,
   snd <$> bq b).

Inductive recv_result : Type :=
| Received (f : Frame) (ticket : nat)
| EndOfStream
| Parked.

(** One pass of the loop of [recv]. *)
Definition MonitorBacklog_recv (b : MonitorBacklog) : recv_result * MonitorBacklog :=
  match bq b with
  | (f, ticket) :: q => (Received f ticket, with_q b q (n_squash b))
  | [] => (if closed b then EndOfStream else Parked, b)
  end.

Definition MonitorBacklog_counters (b : MonitorBacklog) : Z * Z * Z :=
  (n_squash b, wrap 32 (Z.of_nat (max_queue b)), wrap 32 (len (bq b))).

(** ** The delivery fence of a connection *)

(** Each outstanding ticket, with the waker of a loop that awaits its turn. *)
Record Tickets : Type := mkTickets {
  next_ticket : nat;
  outstanding : gmap nat (option nat);
}.

Definition DeliveryFence_new : Tickets := mkTickets 0 ∅.

(** [first_key_value] of the map. *)
Definition oldest (m : gmap nat (option nat)) : option nat :=
  map_fold (fun k _ acc => Some (match acc with None => k | Some a => (k `min` a)%nat end)) None m.

Definition issue (t : Tickets) : nat * Tickets :=
  (next_ticket t, mkTickets (S (next_ticket t)) (<[next_ticket t := None]> (outstanding t))).

(** A reply's place: behind every ticket issued so far, or nothing to wait for. *)
Definition point (t : Tickets) : option nat :=
  if decide (outstanding t = ∅) then None else Some (next_ticket t).

Inductive poll : Type := Ready | Pending | PanicsOnPoll.

(** One poll of [Delivery::turn] with the task's waker. *)
Definition turn (t : Tickets) (seq waker : nat) : poll * Tickets :=
  if decide (oldest (outstanding t) = Some seq) then (Ready, t)
  else
    match outstanding t !! seq with
    | None => (PanicsOnPoll, t)
    | Some _ => (Pending, mkTickets (next_ticket t) (<[seq := Some waker]> (outstanding t)))
    end.

(** [Drop for Delivery]: the tickets after it, the waker it wakes and whether it notifies the
    waiting points. *)
Definition drop_delivery (t : Tickets) (seq : nat) : Tickets * option nat * bool :=
  let was_oldest := bool_decide (oldest (outstanding t) = Some seq) in
  let left := delete seq (outstanding t) in
  if negb was_oldest then (mkTickets (next_ticket t) left, None, false)
  else
    match oldest left with
    | None => (mkTickets (next_ticket t) left, None, true)
    | Some next =>
        (mkTickets (next_ticket t) (<[next := None]> left), mjoin (left !! next), true)
    end.

(** One pass of the loop of [FencePoint::reached]. *)
Definition reached (t : Tickets) (p : option nat) : bool :=
  match p with
  | None => true
  | Some at_ => match oldest (outstanding t) with None => true | Some o => (at_ <=? o)%nat end
  end.

(** ** The subscriber *)

(** What one pass of the monitor loop makes of a frame: the value handed to the callback,
    which is the prior of the next, or the end of the subscription. *)
Inductive monitor_pass : Type :=
| Delivered (value : PvField.t) (finished : bool)
| Finished
| RemoteError (s : Status)
| Invalid (e : PvaError).

Definition monitor_loop_pass `{Target} (rtems : bool) (host : ByteOrder) (intro : FieldDesc)
    (prior : option PvField.t) (f : Frame) : monitor_pass :=
  match decode_op_response rtems host f (Some intro) with
  | Ok (Data _ subcmd _ changed value _ _) =>
      let value :=
        match prior with
        | Some prev => fill_unmarked_from_prior changed intro 0 value prev
        | None => value
        end in
      Delivered value (has_bit subcmd 0x10)
  | Ok (OpStatus _ _ status) => if is_success status then Finished else RemoteError status
  | Ok (Init _ _ _ _ _) => Invalid (Protocol "unexpected second INIT on a running subscription")
  | Err e => Invalid e
  end.
