(* ===== verification/PvaQueueTheory.v ===== *)
(** * Bounded queues that squash their tail

    Every monitor queue of the system, at the server and at the client, appends an update or,
    once full, merges it into the one at its tail.  This file states that contract once: an
    element has an effect on the state of whoever consumes it, a merge has the effect of the
    two elements in turn, and then the consumer of the queue ends in the state the elements
    pushed would have given it, whatever was merged and however pushes and pops interleave. *)
From stdpp Require Import base tactics numbers list option strings gmap.
From S2P Require Import Prelude.

(** What a kind of element promises. *)
Class TailSquash {T S : Type} (effect : T -> S -> S) : Type := {
  (** The states the elements apply to, and the elements meant. *)
  fits : S -> Prop;
  valid : T -> Prop;
  (** The second element may be posted right after the first. *)
  before : T -> T -> Prop;
  (** The third element is the first with the second merged into it. *)
  merges : T -> T -> T -> Prop;
  (** The element need not be queued at all. *)
  negligible : T -> Prop;
  effect_fits x s : valid x -> fits s -> fits (effect x s);
  merges_valid t x m : valid t -> valid x -> merges t x m -> valid m;
  merges_effect t x m s :
    valid t -> valid x -> before t x -> merges t x m -> fits s -> effect m s = effect x (effect t s);
  merges_before t x m y :
    valid t -> valid x -> before t x -> merges t x m -> before x y -> before m y;
  negligible_effect x s : valid x -> negligible x -> fits s -> effect x s = s;
  negligible_before t x y : valid x -> negligible x -> before t x -> before x y -> before t y;
}.

Section Queue.
Context {T S : Type} {effect : T -> S -> S} `{!TailSquash effect}.

Definition effects (s : S) (l : list T) : S := foldl (fun s x => effect x s) s l.

(** A push appends or merges. *)
Inductive enqueue (q : list T) (x : T) : list T -> Prop :=
| enqueue_append : enqueue q x (q ++ [x])
| enqueue_merge q0 t m : q = q0 ++ [t] -> merges t x m -> enqueue q x (q0 ++ [m]).

(** The elements posted, those taken out so far and those queued. *)
Inductive qrun : list T -> list T -> list T -> Prop :=
| qrun_nil : qrun [] [] []
| qrun_push ps out q x q' :
    qrun ps out q -> valid x -> (forall a, last ps = Some a -> before a x) -> enqueue q x q' ->
    qrun (ps ++ [x]) out q'
| qrun_skip ps out q x :
    qrun ps out q -> valid x -> (forall a, last ps = Some a -> before a x) -> negligible x ->
    qrun (ps ++ [x]) out q
| qrun_pop ps out x q : qrun ps out (x :: q) -> qrun ps (out ++ [x]) q.

Lemma effects_app s l k : effects s (l ++ k) = effects (effects s l) k.
Proof. apply foldl_app. Qed.

Lemma effects_fit s l : Forall valid l -> fits s -> fits (effects s l).
Proof.
  intros Hl. revert s. induction Hl as [|x l Hx _ IH]; intros s Hs; [done|].
  apply IH. by apply effect_fits.
Qed.

Lemma Forall_snoc_2 (P : T -> Prop) l x : Forall P l -> P x -> Forall P (l ++ [x]).
Proof. intros Hl Hx. apply Forall_app. split; [done|]. by constructor. Qed.

(** The tail of the queue stands for the last element posted. *)
Definition stands_for (ps q : list T) : Prop :=
  forall t, last q = Some t -> exists a, last ps = Some a /\ forall y, before a y -> before t y.

Lemma qrun_invariant ps out q :
  qrun ps out q ->
  Forall valid ps /\ Forall valid out /\ Forall valid q /\ stands_for ps q /\
  forall s, fits s -> effects s (out ++ q) = effects s ps.
Proof.
  induction 1 as [|ps out q x q' _ (Hps & Hout & Hq & Hst & Heff) Hx Hb He
                 |ps out q x _ (Hps & Hout & Hq & Hst & Heff) Hx Hb Hn
                 |ps out x q _ (Hps & Hout & Hq & Hst & Heff)].
  - split_and!; try constructor; try done.
  - assert (Hlast : last (ps ++ [x]) = Some x) by apply last_snoc.
    destruct He as [|q0 t m -> Hm].
    + split_and!; auto using Forall_snoc_2.
      * intros t. rewrite last_snoc. intros [= <-]. by exists x.
      * intros s Hs. by rewrite app_assoc, (effects_app s (out ++ q)), (effects_app s ps), Heff.
    + apply Forall_app in Hq as [Hq0 Ht]. apply list.Forall_cons in Ht as [Ht _].
      destruct (Hst t) as (a & Ha & Hat); [apply last_snoc|]. pose proof (Hb a Ha) as Hax.
      split_and!; auto using Forall_snoc_2.
      * apply Forall_snoc_2; [done|]. exact (merges_valid t x m Ht Hx Hm).
      * intros t'. rewrite last_snoc. intros [= <-]. exists x. split; [done|].
        intros y. exact (merges_before t x m y Ht Hx (Hat x Hax) Hm).
      * intros s Hs. rewrite app_assoc, (effects_app s (out ++ q0)). change (effects ?u [m]) with (effect m u).
        rewrite (merges_effect t x); try done; [|by apply Hat|apply effects_fit; [by apply Forall_app|done]].
        rewrite (effects_app s ps), <- Heff by done. by rewrite (app_assoc out), (effects_app s (out ++ q0)).
  - split_and!; auto using Forall_snoc_2.
    + intros t Ht. destruct (Hst t Ht) as (a & Ha & Hat). exists x. rewrite last_snoc. split; [done|].
      intros y Hxy. exact (negligible_before t x y Hx Hn (Hat x (Hb a Ha)) Hxy).
    + intros s Hs. rewrite (effects_app s ps), <- Heff by done. change (effects ?u [x]) with (effect x u).
      rewrite (negligible_effect x _ Hx Hn); [done|]. apply effects_fit; [by apply Forall_app|done].
  - apply list.Forall_cons in Hq as [Hx Hq]. split_and!; try done.
    + by apply Forall_snoc_2.
    + intros t Ht. apply Hst. destruct q; [done|]. by rewrite last_cons_cons.
    + intros s Hs. rewrite <- app_assoc. by apply Heff.
Qed.

(** Whoever takes everything out ends in the state of everything posted. *)
Lemma drained_effect ps out : qrun ps out [] -> forall s, fits s -> effects s out = effects s ps.
Proof.
  intros Hr s Hs. destruct (qrun_invariant _ _ _ Hr) as (_ & _ & _ & _ & He).
  rewrite <- He by done. by rewrite app_nil_r.
Qed.
End Queue.
