(* ===== verification/PvaMonitorTheory.v ===== *)
(** * Properties of monitors

    A subscriber that lags loses no value: the frames its backlog squashed leave it with the
    value all of them give (client), and the updates the server's queue coalesced leave its
    client with the source's value (server). *)
From stdpp Require Import base tactics numbers list option strings gmap.
From S2P Require Import Prelude PvaProto PvaProtoTheory PvaText PvaDesc PvaDescTheory PvaValue PvaCheck.
From S2P Require Import PvaValueTheory PvaReadTheory PvaDelta PvaDeltaTheory PvaSquashTheory PvaFrame.
From S2P Require Import PvaMonitor PvaQueueTheory.
Import BitSetTheory.

Open Scope Z_scope.

Lemma op_bind_ok {A B : Type} (m : op A) (f : A -> op B) dc cur dc' a cur' :
  m dc cur = (dc', Ok (a, cur')) -> (m ≫= f) dc cur = f a dc' cur'.
Proof. intros E. unfold mbind, op_bind. by rewrite E. Qed.

Lemma reads_with_ok {A : Type} (r : reader A) dc cur a cur' :
  r cur = Ok (a, cur') -> reads_with r dc cur = (dc, Ok (a, cur')).
Proof. intros E. unfold reads_with, via, lift. by rewrite E. Qed.

Lemma via_ok {A : Type} (r : dec A) dc cur dc' a cur' :
  r dc cur = (dc', Ok (a, cur')) -> via r dc cur = (dc', Ok (a, cur')).
Proof. intros E. unfold via. by rewrite E. Qed.

(** ** Frames of updates *)

Section Client.
Context `{Target} `{ScalarCopyOk}.
Variable rtems : bool.
Variable host : ByteOrder.
Variable d : FieldDesc.
Hypothesis distinct : distinct_desc d.
Hypothesis small : Z.of_nat (total_bits d) < 2 ^ 32.

(** A data frame with the body of an update. *)
Definition carries (f : Frame) (u : Update) : Prop :=
  command (header f) = code Monitor /\ sendable rtems d u /\
  exists ioid, is_u32 ioid /\
    payload f = monitor_payload ioid 0x00 (update_body host (frame_order f) d u) (frame_order f).

Lemma encode_nonempty b o : BitSet.encode b o <> [].
Proof. unfold BitSet.encode, encode_size. by destruct (_ <? _). Qed.

Lemma carries_data f u : carries f u -> is_data f = true.
Proof.
  intros (_ & _ & ioid & _ & Hp). unfold is_data, BODY_AT. rewrite Hp.
  unfold monitor_payload, update_body, put_u8. rewrite lookup_app_r by (by rewrite length_put_u32).
  rewrite !length_app, length_put_u32. simpl.
  assert (length (BitSet.encode (changed u) (frame_order f)) <> 0%nat).
  { intros E%nil_length_inv. by apply encode_nonempty in E. }
  rewrite andb_true_r. apply Nat.ltb_lt. lia.
Qed.

(** What the reply decoder makes of it. *)
Lemma decode_carried f u :
  carries f u ->
  exists ioid,
    decode_op_response rtems host f (Some d)
    = Ok (Data ioid 0x00 OkNoMsg (BitSet.mk (trimmed (changed u)))
            (overlay (BitSet.get (changed u)) d 0 (new_value u) (default_value_for d))
            (BitSet.mk (trimmed (overrun u))) None).
Proof.
  intros (Hc & Hs & ioid & Hi & Hp). exists ioid.
  destruct (body_parts rtems host (frame_order f) d u Hs) as (bytes & Hb1 & [Hb2 _] & Hb3).
  unfold decode_op_response, decode_op_response_cached. rewrite Hc.
  change (from_code (code Monitor)) with (Some Monitor). cbv beta iota zeta. rewrite Hp.
  unfold monitor_payload.
  erewrite op_bind_ok by (apply reads_with_ok; by apply get_put_u32).
  erewrite (op_bind_ok (reads_with get_u8) _ _ _ _ 0) by (apply reads_with_ok; reflexivity).
  change (has_bit 0 0x10) with false. cbv iota. unfold decode_op_rest.
  change (has_bit 0 0x08) with false. cbv iota. unfold decode_op_data. cbv iota zeta.
  rewrite <- (app_nil_r (update_body host (frame_order f) d u)).
  erewrite (op_bind_ok (mret OkNoMsg : op Status)) by reflexivity. cbv beta iota. cbn [andb].
  erewrite op_bind_ok by (apply reads_with_ok; apply Hb1).
  erewrite op_bind_ok by (apply via_ok; apply Hb2).
  erewrite op_bind_ok by (apply reads_with_ok; apply Hb3).
  cbn. by rewrite overlay_trimmed.
Qed.

(** *** The subscriber *)

(** The value the subscriber holds after a frame. *)
Definition frame_effect (f : Frame) (s : option PvField.t) : option PvField.t :=
  match monitor_loop_pass rtems host d s f with
  | Delivered v _ => Some v
  | _ => s
  end.

Definition held (s : option PvField.t) : Prop :=
  match s with Some v => shaped v d = true | None => True end.

Lemma carried_effect f u s :
  carries f u -> held s ->
  frame_effect f s = Some (update_to d u (default (default_value_for d) s)).
Proof.
  intros Hc Hs. destruct (decode_carried f u Hc) as [ioid E].
  destruct Hc as (_ & (_ & _ & Hv & _) & _). unfold frame_effect, monitor_loop_pass. rewrite E.
  destruct s as [w|]; [|done]. simpl in Hs |- *. f_equal.
  rewrite fill_overlay, overlay_trimmed by auto with shapes.
  apply overlay_again; auto with shapes.
Qed.

Lemma squash_carries t f ut uf :
  carries t ut -> carries f uf ->
  exists m u, squash_frames rtems host d t f = Ok m /\ carries m u /\
    forall w, shaped w d = true -> update_to d u w = update_to d uf (update_to d ut w).
Proof.
  intros (_ & Ht & it & _ & Ept) (Hc & Hf & i & Hi & Epf).
  destruct (squash_updates rtems host d ut uf (frame_order t) (frame_order f) (frame_order f) Ht Hf small)
    as (u & Hs & Hu & _ & _ & He).
  assert (Hcut : forall f ioid body,
    payload f = monitor_payload ioid 0 body (frame_order f) ->
    drop BODY_AT (payload f) = body /\ take BODY_AT (payload f) = put_u32 ioid (frame_order f) ++ put_u8 0).
  { intros g ioid body ->. unfold monitor_payload. rewrite app_assoc.
    assert (length (put_u32 ioid (frame_order g) ++ put_u8 0) = BODY_AT)
      by (by rewrite length_app, length_put_u32).
    by rewrite drop_app_length', take_app_length'. }
  destruct (Hcut t it _ Ept) as [Et _]. destruct (Hcut f i _ Epf) as [Ef1 Ef2].
  eexists (merged_frame f _), u. split_and!; [|split_and!; [done..|]|done].
  - unfold squash_frames. rewrite Et, Ef1. setoid_rewrite Hs. reflexivity.
  - exists i. split; [done|]. unfold merged_frame. rewrite Ef2.
    assert (Ho : forall p q, frame_order (mkFrame (application true (frame_order f) p q)
      ((put_u32 i (frame_order f) ++ put_u8 0) ++ update_body host (frame_order f) d u)) = frame_order f).
    { intros p q. unfold frame_order at 1. cbn [header flags application].
      by destruct (HeaderFlags_new_spec true false (frame_order f)) as (_ & _ & -> & _). }
    rewrite Ho. cbn [payload]. unfold monitor_payload. by rewrite <- app_assoc.
Qed.

(** The frames the backlog is about: updates, and frames the subscriber's value does not
    depend on. *)
Definition follows_updates (f : Frame) : Prop :=
  (exists u, carries f u) \/ (is_data f = false /\ forall s, frame_effect f s = s).

Lemma data_carries f : follows_updates f -> is_data f = true -> exists u, carries f u.
Proof. intros [Hf|[Hf _]] Hd; [done|congruence]. Qed.

#[export, refine] Instance frame_squash : TailSquash frame_effect := {|
  fits := held;
  valid := follows_updates;
  before _ _ := True;
  merges t f m := is_data t = true /\ is_data f = true /\ squash_frames rtems host d t f = Ok m;
  negligible _ := False;
|}.
Proof.
  - intros f s [[u Hu]|[_ He]] Hs; [|by rewrite He].
    rewrite (carried_effect f u s) by done. simpl. destruct Hu as (_ & (_ & _ & Hv & _) & _).
    unfold update_to. destruct s; simpl in *; auto with shapes.
  - intros t f m Ht Hf (Hdt & Hdf & E). left.
    destruct (data_carries t Ht Hdt) as [ut Hut], (data_carries f Hf Hdf) as [uf Huf].
    destruct (squash_carries t f ut uf Hut Huf) as (m' & u & E' & Hm & _). exists u. congruence.
  - intros t f m s Ht Hf _ (Hdt & Hdf & E) Hs.
    destruct (data_carries t Ht Hdt) as [ut Hut], (data_carries f Hf Hdf) as [uf Huf].
    destruct (squash_carries t f ut uf Hut Huf) as (m' & u & E' & Hm & He).
    assert (m' = m) as -> by congruence.
    assert (Hw : shaped (default (default_value_for d) s) d = true)
      by (destruct s; simpl in *; auto with shapes).
    rewrite (carried_effect m u), (carried_effect t ut), (carried_effect f uf) by
      (done || (simpl; unfold update_to; destruct Hut as (_ & (_ & _ & Hv & _) & _); auto with shapes)).
    simpl. by rewrite He.
  - done.
  - done.
  - done.
Defined.

(** *** The backlog *)

(** The frames pushed, those received so far and the backlog: the reader pushes, the loop
    arms, receives, and the routing slot closes, in any order.  An orderly server sends no
    data before the loop has armed the backlog, which it does before it sends START. *)
Inductive backlog_run (orderly : bool) : list Frame -> list Frame -> MonitorBacklog -> Prop :=
| run_new limit pipeline : backlog_run orderly [] [] (MonitorBacklog_new limit pipeline)
| run_arm ps out b : backlog_run orderly ps out b -> backlog_run orderly ps out (MonitorBacklog_arm b d)
| run_push ps out b f ticket :
    backlog_run orderly ps out b -> closed b = false ->
    (orderly = true -> is_data f = true -> bintro b = Some d) ->
    backlog_run orderly (ps ++ [f]) out (fst (MonitorBacklog_push rtems host b f ticket))
| run_recv ps out b f ticket b' :
    backlog_run orderly ps out b -> MonitorBacklog_recv b = (Received f ticket, b') ->
    backlog_run orderly ps (out ++ [f]) b'
| run_close ps out b : backlog_run orderly ps out b -> backlog_run orderly ps out (MonitorBacklog_close b).

(** A push appends the frame or squashes it into the tail. *)
Inductive pushed (b : MonitorBacklog) (f : Frame) (ticket : nat) : list (Frame * nat) -> Z -> Prop :=
| pushed_append :
    (is_data f = true -> pipeline b = false -> (blimit b <= length (bq b))%nat ->
     forall intro t k, bintro b = Some intro -> last (bq b) = Some (t, k) -> is_data t = true ->
     is_ok (squash_frames rtems host intro t f) = false) ->
    pushed b f ticket (bq b ++ [(f, ticket)]) (n_squash b)
| pushed_squash q0 t k m intro :
    bq b = q0 ++ [(t, k)] -> bintro b = Some intro -> is_data t = true -> is_data f = true ->
    pipeline b = false -> (blimit b <= length (bq b))%nat -> squash_frames rtems host intro t f = Ok m ->
    pushed b f ticket (q0 ++ [(m, k)]) (wrap 64 (n_squash b + 1)).

Lemma push_spec b f ticket :
  closed b = false ->
  let b' := fst (MonitorBacklog_push rtems host b f ticket) in
  blimit b' = blimit b /\ pipeline b' = pipeline b /\ bintro b' = bintro b /\ closed b' = false /\
  pushed b f ticket (bq b') (n_squash b').
Proof.
  intros Hc b'. unfold b', MonitorBacklog_push. rewrite Hc.
  enough (Hi : let r := fst (Inner_push rtems host b f ticket) in
    blimit r = blimit b /\ pipeline r = pipeline b /\ bintro r = bintro b /\ closed r = false /\
    pushed b f ticket (bq r) (n_squash r)).
  { destruct (Inner_push rtems host b f ticket) as [r dr]. simpl in Hi |- *.
    by destruct (max_queue r <? length (bq r))%nat. }
  unfold Inner_push. destruct (negb (is_data f) || pipeline b || (length (bq b) <? blimit b)%nat) eqn:Ea.
  { simpl. split_and!; try done. constructor. intros Hd Hp Hl. rewrite Hd, Hp in Ea. simpl in Ea.
    apply Nat.ltb_lt in Ea. lia. }
  rewrite !orb_false_iff, negb_false_iff, Nat.ltb_ge in Ea. destruct Ea as [[Hd Hp] Hl].
  destruct (bintro b) as [intro|] eqn:Ei; [|simpl; split_and!; try done; constructor; congruence].
  destruct (last (bq b)) as [[t k]|] eqn:El;
    [|simpl; split_and!; try done; constructor; congruence].
  destruct (is_data t) eqn:Et; [|simpl; split_and!; try done; constructor; congruence].
  destruct (squash_frames rtems host intro t f) as [m|e] eqn:Es; simpl; split_and!; try done.
  - apply last_Some in El as [q0 El]. rewrite El, removelast_last.
    apply (pushed_squash b f ticket q0 t k m intro); try done.
  - constructor. intros _ _ _ intro' t' k' Hi' Ht' _. simplify_eq. by rewrite Es.
Qed.

Lemma backlog_intro orderly ps out b : backlog_run orderly ps out b -> bintro b = None \/ bintro b = Some d.
Proof.
  induction 1 as [| | ps out b f ticket _ IH Hc _|ps out b f ticket b' _ IH Hr|]; auto.
  - destruct (push_spec b f ticket Hc) as (_ & _ & -> & _). done.
  - unfold MonitorBacklog_recv in Hr. destruct (bq b) as [|[g k] q]; [by destruct (closed b)|].
    by injection Hr as <- <- <-.
Qed.

(** The backlog is a queue that squashes its tail. *)
Lemma backlog_refines orderly ps out b :
  backlog_run orderly ps out b -> Forall follows_updates ps -> qrun ps out (bq b).*1.
Proof.
  induction 1 as [| |ps out b f ticket Hr IH Hc _|ps out b f ticket b' _ IH Hr|]; intros Hv; try by auto.
  - constructor.
  - apply Forall_app in Hv as [Hv Hf]. apply list.Forall_cons in Hf as [Hf _].
    apply (qrun_push _ _ (bq b).*1); [by apply IH|done|done|].
    destruct (push_spec b f ticket Hc) as (_ & _ & _ & _ & Hp).
    destruct Hp as [_|q0 t k m intro Hq Hi Ht Hd _ _ Hs].
    + rewrite fmap_app. constructor.
    + rewrite Hq, !fmap_app. apply (enqueue_merge _ _ _ t); [done|].
      destruct (backlog_intro _ _ _ _ Hr) as [Hi'|Hi']; [congruence|].
      assert (intro = d) as -> by congruence. done.
  - unfold MonitorBacklog_recv in Hr. destruct (bq b) as [|[g k] q] eqn:Eq; [by destruct (closed b)|].
    injection Hr as <- <- <-. apply qrun_pop. by apply IH.
Qed.

Lemma recv_cases b f ticket b' :
  MonitorBacklog_recv b = (Received f ticket, b') ->
  bq b = (f, ticket) :: bq b' /\ b' = with_q b (bq b') (n_squash b).
Proof.
  unfold MonitorBacklog_recv. destruct (bq b) as [|[g k] q]; [by destruct (closed b)|].
  by intros [= <- <- <-].
Qed.

(** Every frame pushed is received, queued, or counted as squashed. *)
Lemma backlog_account orderly ps out b :
  backlog_run orderly ps out b -> n_squash b = wrap 64 (len ps - len out - len (bq b)).
Proof.
  induction 1 as [| |ps out b f ticket _ IH Hc _|ps out b f ticket b' _ IH Hr|]; try done.
  - destruct (push_spec b f ticket Hc) as (_ & _ & _ & _ & Hp).
    destruct Hp as [_|q0 t k m intro Hq _ _ _ _ _ _]; rewrite !length_app; simpl.
    + rewrite IH. f_equal. lia.
    + rewrite IH, Hq, length_app. simpl. unfold wrap. rewrite Zplus_mod_idemp_l. f_equal. lia.
  - apply recv_cases in Hr as [Hq Hb]. rewrite Hb. cbn [with_q n_squash bq]. rewrite IH, Hq, length_app.
    simpl. f_equal. lia.
Qed.

Abbreviation control_frames := (List.filter (fun f => negb (is_data f))).

(** Control frames are neither lost nor reordered. *)
Lemma backlog_controls orderly ps out b :
  backlog_run orderly ps out b -> Forall follows_updates ps ->
  control_frames (out ++ (bq b).*1) = control_frames ps.
Proof.
  intros Hr Hv. assert (Hq : qrun ps out (bq b).*1) by (by eapply backlog_refines).
  clear Hr Hv. induction Hq as [|ps out q x q' Hq IH Hx _ He|ps out q x _ IH _ _ Hn|ps out x q _ IH]; try done.
  - rewrite (List.filter_app _ ps), <- IH. destruct He as [|q0 t m -> Hm].
    + by rewrite app_assoc, List.filter_app.
    + pose proof (qrun_invariant _ _ _ Hq) as (_ & _ & Hvq & _).
      apply Forall_app in Hvq as [_ Ht]. apply list.Forall_cons in Ht as [Ht _].
      destruct (merges_valid t x m Ht Hx Hm) as [[u Hu]|[Hd _]];
        destruct Hm as (Hdt & Hdx & E).
      * apply carries_data in Hu. rewrite !List.filter_app. simpl. rewrite Hu, Hdt, Hdx. simpl. by rewrite !app_nil_r.
      * exfalso. destruct (data_carries t Ht Hdt) as [ut Hut], (data_carries x Hx Hdx) as [ux Hux].
        destruct (squash_carries t x ut ux Hut Hux) as (m' & u & E' & Hc & _).
        apply carries_data in Hc. congruence.
  - by rewrite <- app_assoc.
Qed.

Definition is_control_tail (q : list (Frame * nat)) : nat :=
  match last q with Some (f, _) => if is_data f then 0 else 1 | None => 0 end.

(** Data never grows the queue past its limit; a control frame makes room for itself and for
    one update behind it. *)
Lemma backlog_bounded ps out b :
  backlog_run true ps out b -> Forall follows_updates ps -> pipeline b = false ->
  (length (bq b) + is_control_tail (bq b) <= blimit b + 2 * length (control_frames ps))%nat /\
  (1 <= blimit b)%nat.
Proof.
  induction 1 as [limit pl|ps out b Hrun IH|ps out b f ticket Hrun IH Hc Ho|ps out b f ticket b' Hrun IH Hr|ps out b Hrun IH];
    intros Hv Hp; try by auto.
  - cbn. lia.
  - apply Forall_app in Hv as [Hv Hf]. apply list.Forall_cons in Hf as [Hf _].
    destruct (push_spec b f ticket Hc) as (Hlim & Hpipe & _ & _ & Hpush).
    rewrite Hlim. rewrite Hpipe in Hp. destruct (IH Hv Hp) as [IHl IH1]. split; [|done].
    rewrite List.filter_app, length_app. simpl.
    assert (Hqv : forall g k, (g, k) ∈ bq b -> follows_updates g).
    { intros g k Hin. pose proof (backlog_refines _ _ _ _ Hrun Hv) as Hq.
      apply qrun_invariant in Hq as (_ & _ & Hq & _). rewrite list.Forall_forall in Hq. apply Hq.
      apply list_elem_of_fmap. by exists (g, k). }
    destruct Hpush as [Ha|q0 t k m intro Hq Hi Ht Hd _ _ Hs].
    + unfold is_control_tail at 1. rewrite last_snoc, length_app. simpl.
      destruct (is_data f) eqn:Hd; simpl; [|lia].
      destruct (decide (length (bq b) < blimit b)%nat) as [|Hfull]; [lia|].
      enough (is_control_tail (bq b) = 1%nat) by lia. unfold is_control_tail.
      destruct (last (bq b)) as [[t k]|] eqn:El.
      * destruct (is_data t) eqn:Ht; [|done]. exfalso.
        specialize (Ha eq_refl Hp ltac:(lia) d t k (Ho eq_refl eq_refl) eq_refl Ht).
        assert (Hvt : follows_updates t).
        { apply last_Some in El as [q0 El]. apply (Hqv t k). rewrite El. apply elem_of_app. right. constructor. }
        destruct (data_carries t Hvt Ht) as [ut Hut], (data_carries f Hf Hd) as [uf Huf].
        destruct (squash_carries t f ut uf Hut Huf) as (m & u & E & _). rewrite E in Ha. done.
      * apply last_None in El. rewrite El in Hfull. simpl in Hfull. lia.
    + rewrite Hq, length_app in IHl. simpl in IHl. rewrite length_app. simpl.
      assert (Hm : is_data m = true).
      { assert (Hvt : follows_updates t) by (apply (Hqv t k); rewrite Hq; apply elem_of_app; right; constructor).
        destruct (data_carries t Hvt Ht) as [ut Hut], (data_carries f Hf Hd) as [uf Huf].
        destruct (backlog_intro _ _ _ _ Hrun) as [Hi'|Hi']; [congruence|]. assert (intro = d) as -> by congruence.
        destruct (squash_carries t f ut uf Hut Huf) as (m' & u & E & Hm & _).
        assert (m' = m) as <- by congruence. by eapply carries_data. }
      unfold is_control_tail in *. rewrite last_snoc in *. rewrite Hm. rewrite Ht in IHl. rewrite Hd. simpl. lia.
  - apply recv_cases in Hr as [Hq Hb]. rewrite Hb in Hp |- *. cbn [with_q blimit bq pipeline] in *.
    destruct (IH Hv Hp) as [IHl IH1]. split; [|done]. rewrite Hq in IHl. simpl in IHl.
    enough (is_control_tail (bq b') <= is_control_tail ((f, ticket) :: bq b'))%nat by lia.
    unfold is_control_tail. destruct (bq b') as [|y q]; [simpl; lia|]. by rewrite last_cons_cons.
Qed.
End Client.


(** C9: however the reader's pushes and the subscriber's receives interleave, and whatever the
    backlog squashed while the subscriber lagged, a subscriber that has drained its backlog
    holds the value that receiving every frame the server sent would have given it. *)
Theorem lagging_subscriber_holds_the_same_value `{Target} `{ScalarCopyOk} rtems host d orderly ps out b :
  distinct_desc d -> Z.of_nat (total_bits d) < 2 ^ 32 ->
  backlog_run rtems host d orderly ps out b -> bq b = [] ->
  Forall (follows_updates rtems host d) ps ->
  foldl (fun s f => frame_effect rtems host d f s) None out
  = foldl (fun s f => frame_effect rtems host d f s) None ps.
Proof.
  intros Hd Hs Hr Hq Hv.
  pose proof (backlog_refines rtems host d Hd Hs orderly ps out b Hr Hv) as Hrun. rewrite Hq in Hrun.
  exact (drained_effect (TailSquash0 := frame_squash rtems host d Hd Hs) ps out Hrun None I).
Qed.

(** C36: with an orderly server and no pipelining a backlog never loses track of a frame: each
    one pushed is received, queued or counted as squashed (modulo 2^64); end-of-stream and
    other control frames are never squashed away nor reordered; and data frames do not grow
    the queue past its limit, beyond one slot for each control frame and one for the update
    behind it. *)
Theorem backlog_keeps_its_account_and_bound `{Target} `{ScalarCopyOk} rtems host d ps out b :
  distinct_desc d -> Z.of_nat (total_bits d) < 2 ^ 32 ->
  backlog_run rtems host d true ps out b -> pipeline b = false ->
  Forall (follows_updates rtems host d) ps ->
  n_squash b = wrap 64 (len ps - len out - len (bq b)) /\
  List.filter (fun f => negb (is_data f)) (out ++ (bq b).*1)
  = List.filter (fun f => negb (is_data f)) ps /\
  (length (bq b) <= blimit b + 2 * length (List.filter (fun f => negb (is_data f)) ps))%nat.
Proof.
  intros Hd Hs Hr Hp Hv. split_and!.
  - exact (backlog_account rtems host d true ps out b Hr).
  - exact (backlog_controls rtems host d Hd Hs true ps out b Hr Hv).
  - destruct (backlog_bounded rtems host d Hd Hs ps out b Hr Hv Hp) as [Hb _]. lia.
Qed.

(** *** Samples *)

(** A data frame with the body of an update of the sample descriptor. *)
Definition update_frame (u : Update) : Frame :=
  let payload := monitor_payload 7 0 (@update_body no_copy Little Little delta_desc u) Little in
  mkFrame (application true Little (code Monitor) (len payload)) payload.

Definition finish_frame : Frame :=
  let payload := monitor_payload 7 0x10 (status_encode OkNoMsg Little) Little in
  mkFrame (application true Little (code Monitor) (len payload)) payload.

Lemma sample_distinct : distinct_desc delta_desc.
Proof. repeat split; apply (bool_decide_unpack _); vm_compute; exact I. Defined.

Lemma update_frame_follows u :
  @sendable host64 false delta_desc u -> @follows_updates host64 no_copy false Little delta_desc (update_frame u).
Proof.
  intros Hu. left. exists u. split; [reflexivity|]. split; [exact Hu|].
  exists 7. split; [split; [lia|reflexivity]|reflexivity].
Defined.

Lemma finish_frame_follows : @follows_updates host64 no_copy false Little delta_desc finish_frame.
Proof.
  right. split; [reflexivity|]. intros s. unfold frame_effect, monitor_loop_pass.
  replace (decode_op_response false Little finish_frame (Some delta_desc))
    with (Ok (E := PvaError) (OpStatus 7 0x10 OkNoMsg)) by (vm_compute; reflexivity).
  reflexivity.
Defined.

Definition sample_frames : list Frame :=
  [update_frame older_update; update_frame newer_update; finish_frame].

Lemma sample_frames_follow :
  Forall (@follows_updates host64 no_copy false Little delta_desc) sample_frames.
Proof.
  apply List.Forall_cons; [apply update_frame_follows, updates_sendable|].
  apply List.Forall_cons; [apply update_frame_follows, updates_sendable|].
  apply List.Forall_cons; [apply finish_frame_follows|apply List.Forall_nil].
Defined.

(** A backlog of one: the second update is squashed into the first. *)
Definition sample_backlog : MonitorBacklog :=
  let b := MonitorBacklog_arm (MonitorBacklog_new 1 false) delta_desc in
  foldl (fun b f => fst (@MonitorBacklog_push host64 no_copy false Little b f 0)) b sample_frames.

Lemma sample_run :
  @backlog_run host64 no_copy false Little delta_desc true sample_frames [] sample_backlog.
Proof.
  apply (run_push _ _ _ _ [update_frame older_update; update_frame newer_update] [] _ finish_frame 0);
    [|vm_compute; reflexivity|vm_compute; discriminate].
  apply (run_push _ _ _ _ [update_frame older_update] [] _ (update_frame newer_update) 0);
    [|vm_compute; reflexivity|vm_compute; reflexivity].
  apply (run_push _ _ _ _ [] [] _ (update_frame older_update) 0);
    [|vm_compute; reflexivity|vm_compute; reflexivity].
  apply run_arm, run_new.
Defined.

Lemma lagging_subscriber_holds_the_same_value_witness :
  exists out b,
    @backlog_run host64 no_copy false Little delta_desc true sample_frames out b /\
    length out = 2%nat /\ n_squash b = 1 /\
    foldl (fun s f => @frame_effect host64 false Little delta_desc f s) None out
    = Some (overlay (fun p => negb (p =? 0)%nat && (p <? 5)%nat) delta_desc 0
              (delta_value 7 8 5 []) (default_value_for delta_desc)).
Proof.
  set (r1 := MonitorBacklog_recv sample_backlog).
  set (r2 := MonitorBacklog_recv (snd r1)).
  exists (match fst r1, fst r2 with Received f _, Received g _ => [f; g] | _, _ => [] end), (snd r2).
  assert (Hrun : @backlog_run host64 no_copy false Little delta_desc true sample_frames
    (match fst r1, fst r2 with Received f _, Received g _ => [f; g] | _, _ => [] end) (snd r2)).
  { destruct r1 as [x1 b1] eqn:E1. destruct r2 as [x2 b2] eqn:E2. simpl in E2 |- *.
    pose proof sample_run as H. unfold r1 in E1. unfold r2 in E2.
    destruct x1 as [f k| |]; [|vm_compute in E1; discriminate E1|vm_compute in E1; discriminate E1].
    apply (run_recv _ _ _ _ _ _ _ _ _ _ H) in E1 as H1.
    assert (Hx : exists g k2, x2 = Received g k2).
    { vm_compute in E1. injection E1 as <- <- <-. vm_compute in E2. injection E2 as <- <-. eauto. }
    destruct Hx as (g & k2 & ->). exact (run_recv _ _ _ _ _ _ _ _ _ _ H1 E2). }
  split; [exact Hrun|]. split; [vm_compute; reflexivity|]. split; [vm_compute; reflexivity|].
  transitivity (foldl (fun s f => @frame_effect host64 false Little delta_desc f s) None sample_frames).
  - refine (@lagging_subscriber_holds_the_same_value host64 no_copy no_copy_ok false Little delta_desc
      true sample_frames _ _ sample_distinct _ Hrun _ sample_frames_follow); vm_compute; reflexivity.
  - vm_compute. reflexivity.
Defined.

Lemma backlog_keeps_its_account_and_bound_witness :
  n_squash sample_backlog = 1 /\ length (bq sample_backlog) = 2%nat /\
  (length (bq sample_backlog) <= blimit sample_backlog
     + 2 * length (List.filter (fun f => negb (is_data f)) sample_frames))%nat.
Proof.
  destruct (@backlog_keeps_its_account_and_bound host64 no_copy no_copy_ok false Little delta_desc
    sample_frames [] sample_backlog sample_distinct ltac:(vm_compute; reflexivity) sample_run
    ltac:(vm_compute; reflexivity) sample_frames_follow) as (H1 & _ & H3).
  split; [rewrite H1; vm_compute; reflexivity|]. split; [vm_compute; reflexivity|exact H3].
Defined.
