(* ===== verification/PvaServerTheory.v ===== *)
(** * Properties of the server's monitor queue

    An update is queued under the changed set its frame carries; coalescing two updates keeps
    that set the one of their united marks, so the comment of [coalesce_queued_update] holds;
    and a client that follows the frames of a lagging subscription converges to the source's
    latest value on every leaf its request selected. *)
From stdpp Require Import base tactics numbers list option strings gmap.
From S2P Require Import Prelude PvaProto PvaProtoTheory PvaText PvaDesc PvaDescTheory PvaChangedTheory.
From S2P Require Import PvaValue PvaCheck PvaValueTheory PvaReadTheory PvaDelta PvaDeltaTheory PvaSquashTheory.
From S2P Require Import PvaFrame PvaFrameTheory PvaMonitor PvaQueueTheory PvaMonitorTheory.
Import BitSetTheory.

Open Scope Z_scope.

(** ** Leaves *)

Lemma covered_leaves m d : forall bit p, covered m true d bit p = true <-> p ∈ leaves d bit.
Proof.
  induction d as [d IH] using desc_ind'. intros bit p.
  destruct (is_leaf d) eqn:Hl.
  - assert (Hc : covered m true d bit p = (p =? bit)%nat) by (by destruct d).
    assert (Hv : leaves d bit = [bit]) by (by destruct d).
    by rewrite Hc, Hv, list_elem_of_singleton, Nat.eqb_eq.
  - destruct d as [| |id fs| | | | |]; try done. cbn [covered leaves members orb] in *.
    generalize (bit + 1)%nat. clear Hl bit.
    assert (Hr : forall fs bit q, q ∈ member_leaves leaves fs bit -> (bit <= q)%nat).
    { clear. assert (Hd : forall d bit q, q ∈ leaves d bit -> (bit <= q)%nat).
      { induction d as [d IH] using desc_ind'. intros bit q.
        destruct d as [| |id fs| | | | |]; cbn [leaves]; try (intros ->%list_elem_of_singleton; lia).
        intros Hq. enough (bit + 1 <= q)%nat by lia. revert Hq. generalize (bit + 1)%nat. simpl in IH.
        induction IH as [|[n c] fs Hc _ IHfs]; intros b; cbn [member_leaves]; [by intros ?%not_elem_of_nil|].
        intros [Hq|Hq]%elem_of_app; [by apply Hc|]. apply IHfs in Hq. lia. }
      induction fs as [|[n c] fs IHfs]; intros b q; cbn [member_leaves]; [by intros ?%not_elem_of_nil|].
      intros [Hq|Hq]%elem_of_app; [by apply Hd in Hq|]. apply IHfs in Hq. lia. }
    induction IH as [|[n c] fs Hc _ IHfs]; intros bit; cbn [member_covered member_leaves snd] in *.
    + split; [done|by intros ?%not_elem_of_nil].
    + rewrite elem_of_app. destruct (Nat.ltb_spec p (bit + total_bits c)) as [Hp|Hp].
      * rewrite Hc. split; [tauto|]. intros [?|Hq]; [done|]. apply Hr in Hq. lia.
      * rewrite IHfs. split; [tauto|]. intros [Hq|?]; [|done].
        apply Hc, covered_range in Hq. lia.
Qed.

(** A set of leaf bits overlays its members. *)
Lemma leaf_set_covers (b : BitSet.t) d :
  (forall i, BitSet.get b i = true -> i ∈ leaves d 0) ->
  forall p, covered (BitSet.get b) false d 0 p = BitSet.get b p.
Proof.
  intros Hb p. rewrite covered_self by (intros; by apply covered_leaves, Hb).
  destruct (BitSet.get b p) eqn:E; [|done]. simpl. by apply covered_leaves, Hb.
Qed.

(** ** Wire sets *)

(** What the wire set of marks holds. *)
Definition selects (d : FieldDesc) (mask : BitSet.t) (m : option Marks) (i : nat) : Prop :=
  i ∈ leaves d 0 /\ BitSet.get mask i = true /\ from_option (fun m => marks d (mark_paths m) i) True m.

Lemma read_changed_spec d mask m i :
  BitSet.get (read_changed_bitset d mask (mark_paths <$> m)) i = true <-> selects d mask m i.
Proof.
  unfold selects, read_changed_bitset. destruct m as [m|]; simpl.
  - apply marked_wire_spec.
  - rewrite canonical_spec. tauto.
Qed.

Lemma elem_of_union_paths a b p : p ∈ union_paths a b <-> p ∈ a \/ p ∈ b.
Proof.
  unfold union_paths. revert a. induction b as [|x b IH]; intros a; cbn [foldl].
  - split; [tauto|]. intros [?|?%not_elem_of_nil]; done.
  - rewrite IH, elem_of_cons. unfold contains. case_bool_decide as Hx.
    + split; [tauto|]. intros [?|[->|?]]; tauto.
    + rewrite elem_of_app, list_elem_of_singleton. tauto.
Qed.

Lemma marks_elem d ps qs i :
  (forall p, p ∈ ps <-> p ∈ qs) -> marks d ps i <-> marks d qs i.
Proof.
  intros He. unfold marks. split; intros (p & s & e & Hp & Hr); exists p, s, e; (split; [by apply He|done]).
Qed.

(** Shared marks of one address are one set. *)
Definition honest_marks (a b : option Marks) : Prop :=
  forall m m', a = Some m -> b = Some m' -> same_set m m' = true -> mark_paths m = mark_paths m'.

(** Uniting the marks unites the leaves they select. *)
Lemma union_selects d mask a b i :
  honest_marks a b ->
  selects d mask (union_marks a b) i <-> selects d mask a i \/ selects d mask b i.
Proof.
  intros Hh. unfold selects, union_marks. destruct a as [a|], b as [b|]; simpl; try tauto.
  destruct (same_set a b) eqn:E; simpl.
  - rewrite (Hh a b eq_refl eq_refl E). tauto.
  - rewrite (marks_elem d (union_paths _ _) (mark_paths a ++ mark_paths b)).
    + rewrite marks_app. tauto.
    + intros p. by rewrite elem_of_union_paths, elem_of_app.
Qed.

(** ** The queue *)

(** Handles of one address are one handle, and the allocator's next address is new. *)
Definition separate (l : list (Arc BitSet.t)) (next : nat) : Prop :=
  (forall a, a ∈ l -> (addr a < next)%nat) /\
  (forall a b, a ∈ l -> b ∈ l -> addr a = addr b -> a = b).

Lemma separate_sub l l' n n' :
  separate l n -> (forall a, a ∈ l' -> a ∈ l) -> (n <= n')%nat -> separate l' n'.
Proof.
  intros [Hf Hs] Hl Hn. split.
  - intros a Ha. specialize (Hf a (Hl a Ha)). lia.
  - intros a b Ha Hb. apply Hs; auto.
Qed.

Lemma separate_fresh l n x : separate l n -> separate (mkArc n x :: l) (S n).
Proof.
  intros [Hf Hs]. split.
  - intros a [->|Ha]%elem_of_cons; simpl; [lia|]. specialize (Hf a Ha). lia.
  - intros a b [->|Ha]%elem_of_cons [->|Hb]%elem_of_cons; simpl; auto.
    + intros E. specialize (Hf b Hb). lia.
    + intros E. specialize (Hf a Ha). lia.
Qed.

Definition arcs (q : MonitorQueue) : list (Arc BitSet.t) :=
  unmarked_changed q :: (shared_changed q).*2 ++ (wire <$> pending q).

Definition wire_ok (d : FieldDesc) (mask : BitSet.t) (u : QueuedUpdate) : Prop :=
  type_changed (update u) = false -> forall i,
  BitSet.get (pointee (wire u)) i = true <-> selects d mask (marked (update u)) i.

Definition live (u : QueuedUpdate) : bool := negb (queued_is_terminal u).

Record queue_ok (q : MonitorQueue) : Prop := {
  ok_limit : (1 <= limit q)%nat;
  ok_unmarked : pointee (unmarked_changed q) = canonical_changed_bitset (intro q) (mask q);
  ok_cache : forall m bits, (m, bits) ∈ shared_changed q ->
    pointee bits = marked_wire_changed_bitset (intro q) (mark_paths m) (mask q);
  ok_cache_cap : (length (shared_changed q) <= SHARED_CHANGED_CAP)%nat;
  ok_arcs : separate (arcs q) (next_addr q);
  ok_wire : Forall (wire_ok (intro q) (mask q)) (pending q);
  ok_bound : (length (List.filter live (pending q)) <= limit q)%nat;
}.

(** The sets held by the queue while an update arrives: one address, one set. *)
Definition coherent (q : MonitorQueue) (ev : MonitorUpdate) : Prop :=
  (forall m bits, (m, bits) ∈ shared_changed q -> honest_marks (Some m) (marked ev)) /\
  (forall u, u ∈ pending q -> honest_marks (marked (update u)) (marked ev)).

Lemma find_shared_spec m l bits :
  find_shared m l = Some bits -> exists m', (m', bits) ∈ l /\ same_set m' m = true.
Proof.
  induction l as [|[m' b] l IH]; cbn [find_shared]; [done|].
  destruct (same_set m' m) eqn:E.
  - intros [= <-]. exists m'. split; [constructor|done].
  - intros (m'' & Hin & Hs)%IH. exists m''. split; [by constructor|done].
Qed.

(** The parts of a queue a computation of the wire set leaves alone. *)
Definition same_queue (q q' : MonitorQueue) : Prop :=
  pending q' = pending q /\ limit q' = limit q /\ first q' = first q /\ intro q' = intro q /\
  mask q' = mask q /\ stat q' = stat q /\ unmarked_changed q' = unmarked_changed q.

Lemma wire_changed_ok q ev a q' :
  queue_ok q -> coherent q ev -> wire_changed q ev = (a, q') ->
  queue_ok q' /\ same_queue q q' /\ separate (a :: arcs q') (next_addr q') /\
  wire_ok (intro q) (mask q) (mkQueuedUpdate ev a) /\
  (type_changed ev = true -> pointee a = BitSet.new).
Proof.
  intros Hq [Hco _] E. pose proof Hq as [H1 H2 H3 H4 H5 H6 H7]. unfold wire_changed in E.
  destruct (type_changed ev) eqn:Et.
  { injection E as <- <-. split_and!; try done.
    - split; try done. cbn. eapply separate_sub; [exact H5|done|lia].
    - by apply separate_fresh.
    - intros Hf. cbn in Hf. congruence. }
  destruct (marked ev) as [mk|] eqn:Em.
  2:{ injection E as <- <-. split_and!; try done.
      - eapply separate_sub; [exact H5| |lia].
        intros x [->|?]%elem_of_cons; [constructor|done].
      - intros _ i. cbn. rewrite H2, canonical_spec, Em. unfold selects. simpl. tauto. }
  assert (Hres : forall n, wire_ok (intro q) (mask q) (mkQueuedUpdate ev
      (mkArc n (marked_wire_changed_bitset (intro q) (mark_paths mk) (mask q))))).
  { intros n _ i. cbn. rewrite Em. apply marked_wire_spec. }
  destruct mk as [ps|ps].
  { injection E as <- <-. split_and!; try done.
    - split; try done. cbn. eapply separate_sub; [exact H5|done|lia].
    - by apply separate_fresh. }
  destruct (find_shared (Shared ps) (shared_changed q)) as [bits|] eqn:Ef.
  { injection E as <- <-. apply find_shared_spec in Ef as (m' & Hin & Hs). split_and!; try done.
    - eapply separate_sub; [exact H5| |lia]. intros x [->|?]%elem_of_cons; [|done].
      apply elem_of_cons. right. apply elem_of_app. left. apply list_elem_of_fmap. by exists (m', bits).
    - intros _ i. cbn. rewrite (H3 m' bits Hin), Em, marked_wire_spec.
      by rewrite (Hco m' bits Hin m' (Shared ps) eq_refl eq_refl Hs). }
  injection E as <- <-.
  set (res := mkArc (next_addr q) (marked_wire_changed_bitset (intro q) (mark_paths (Shared ps)) (mask q))) in *.
  set (kept := if (length (shared_changed q) =? SHARED_CHANGED_CAP)%nat then tail (shared_changed q)
               else shared_changed q) in *.
  assert (Hk : forall x, x ∈ kept -> x ∈ shared_changed q).
  { intros x. unfold kept. destruct (_ =? _)%nat; [|done].
    destruct (shared_changed q) as [|y l]; [done|]. by constructor. }
  assert (Hkl : (length kept < SHARED_CHANGED_CAP)%nat).
  { unfold kept, SHARED_CHANGED_CAP in *. destruct (Nat.eqb_spec (length (shared_changed q)) 8); [|lia].
    destruct (shared_changed q); simpl in *; lia. }
  assert (Hsep : separate (res :: arcs q) (S (next_addr q))) by (by apply separate_fresh).
  split_and!; try done.
  - split; try done; cbn.
    + intros m bits [Hin|Hin]%elem_of_app; [by apply H3, Hk|].
      apply list_elem_of_singleton in Hin. by simplify_eq.
    + rewrite length_app. simpl. lia.
    + eapply separate_sub; [exact Hsep| |lia]. unfold arcs. cbn [unmarked_changed shared_changed pending].
      intros x. rewrite fmap_app, !elem_of_cons, !elem_of_app.
      intros [?|[[Hx|Hx]|?]]; [tauto| | |tauto].
      * right. right. left. apply list_elem_of_fmap in Hx as (y & -> & Hy). apply list_elem_of_fmap. eauto.
      * left. by apply list_elem_of_singleton in Hx.
  - eapply separate_sub; [exact Hsep| |cbn; lia]. unfold arcs. cbn [unmarked_changed shared_changed pending].
    intros x. rewrite fmap_app, !elem_of_cons, !elem_of_app.
    intros [?|[?|[[Hx|Hx]|?]]]; [tauto|tauto| | |tauto].
    + right. right. left. apply list_elem_of_fmap in Hx as (y & -> & Hy). apply list_elem_of_fmap. eauto.
    + left. by apply list_elem_of_singleton in Hx.
Qed.

Lemma wf_canonical_walk selection d : forall base out,
  wf out -> wf (canonical_walk selection d base out).
Proof.
  induction d as [d IH] using desc_ind'. intros base out Hw.
  destruct d as [| |id fs| | | | |]; cbn [canonical_walk];
    try (destruct (BitSet.get selection base); [by apply wf_set|done]).
  generalize (base + 1)%nat. clear base. simpl in IH. revert out Hw.
  induction IH as [|[n c] fs Hc _ IHfs]; intros out Hw bit; cbn [canonical_members]; [done|].
  by apply IHfs, Hc.
Qed.

Lemma wf_canonical d selection : wf (canonical_changed_bitset d selection).
Proof. apply wf_canonical_walk. constructor. Qed.

Lemma wire_changed_wf q ev a q' : queue_ok q -> wire_changed q ev = (a, q') -> wf (pointee a).
Proof.
  intros Hq. unfold wire_changed. destruct (type_changed ev).
  { intros [= <- <-]. constructor. }
  destruct (marked ev) as [mk|]; [|intros [= <- <-]; rewrite (ok_unmarked q Hq); apply wf_canonical].
  destruct mk as [ps|ps]; [intros [= <- <-]; apply wf_canonical|].
  destruct (find_shared _ _) as [bits|] eqn:Ef; [|intros [= <- <-]; apply wf_canonical].
  intros [= <- <-]. apply find_shared_spec in Ef as (m' & Hin & _).
  rewrite (ok_cache q Hq m' bits Hin). apply wf_canonical.
Qed.

Lemma is_empty_get b : wf b -> BitSet.is_empty b = true <-> forall i, BitSet.get b i = false.
Proof.
  intros Hb. rewrite is_empty_bits, bool_decide_eq_true by done. rewrite elem_of_equiv_empty_L. split.
  - intros He i. destruct (BitSet.get b i) eqn:E; [|done]. by apply elem_of_bits, He in E.
  - intros Hg i Hi%elem_of_bits. by rewrite Hg in Hi.
Qed.

(** Coalescing keeps the set of the united marks. *)
Lemma coalesce_wire d mask fresh t x :
  wire_ok d mask t -> wire_ok d mask x ->
  (ptr_eq (wire t) (wire x) = true -> wire t = wire x) ->
  honest_marks (marked (update t)) (marked (update x)) ->
  wire_ok d mask (coalesce_queued_update fresh t x).
Proof.
  intros Ht Hx Hp Hm Hn i. unfold wire_ok, coalesce_queued_update, coalesce_monitor_update in *.
  destruct (type_changed (update t) || type_changed (update x)) eqn:Et; [done|].
  apply orb_false_iff in Et as [E1 E2]. cbn [type_changed update marked wire] in *.
  rewrite union_selects by done. rewrite <- (Ht E1 i), <- (Hx E2 i).
  destruct (ptr_eq (wire t) (wire x)) eqn:E.
  - rewrite (Hp eq_refl). tauto.
  - cbn [pointee]. by rewrite get_union_with, orb_true_iff.
Qed.

(** What a push does to the entries. *)
Inductive queued (q : MonitorQueue) (x : QueuedUpdate) : list QueuedUpdate -> Prop :=
| queued_append : queued q x (pending q ++ [x])
| queued_merge q0 t fresh :
    pending q = q0 ++ [t] -> type_changed (update x) = false ->
    (ptr_eq (wire t) (wire x) = true -> wire t = wire x) ->
    queued q x (q0 ++ [coalesce_queued_update fresh t x]).

Lemma filter_snoc {A : Type} (f : A -> bool) l x :
  length (List.filter f (l ++ [x])) = (length (List.filter f l) + if f x then 1 else 0)%nat.
Proof. rewrite List.filter_app, length_app. simpl. by destruct (f x). Qed.

Lemma coalesce_terminal fresh t x :
  type_changed (update (coalesce_queued_update fresh t x))
  = type_changed (update t) || type_changed (update x).
Proof.
  unfold coalesce_queued_update, coalesce_monitor_update. cbn [update].
  by destruct (type_changed (update t) || type_changed (update x)).
Qed.

Lemma push_ok q ev :
  queue_ok q -> coherent q ev ->
  let a := fst (wire_changed q ev) in
  exists b q',
    MonitorQueue_push q ev = Some (b, q') /\ queue_ok q' /\
    limit q' = limit q /\ intro q' = intro q /\ mask q' = mask q /\
    wire_ok (intro q) (mask q) (mkQueuedUpdate ev a) /\
    match b with
    | true => first q' = false /\ queued q (mkQueuedUpdate ev a) (pending q')
    | false => first q = false /\ type_changed ev = false /\ pending q' = pending q /\
               forall i, BitSet.get (pointee a) i = false
    end.
Proof.
  intros Hq Hco a0. unfold a0, MonitorQueue_push. clear a0.
  destruct (wire_changed q ev) as [a q1] eqn:Ew. cbn [fst].
  pose proof (wire_changed_wf q ev a q1 Hq Ew) as Hwf.
  destruct (wire_changed_ok q ev a q1 Hq Hco Ew)
    as (Hq1 & (Hp & Hl & Hf & Hi & Hm & Hst & Hu) & Hsep & Hwire & _).
  destruct (negb (first q1 || type_changed ev || negb (BitSet.is_empty (pointee a)))) eqn:Eg.
  { rewrite negb_true_iff, !orb_false_iff, negb_false_iff in Eg. destruct Eg as [[E1 E2] E3].
    exists false, q1. split_and!; try done; try congruence. by apply is_empty_get. }
  pose proof Hq1 as [H1 H2 H3 H4 H5 H6 H7]. unfold push_squash_monitor.
  rewrite Hi, Hm in *. destruct (queued_is_terminal (mkQueuedUpdate ev a) || (length (pending q1) <? limit q1)%nat) eqn:Ea.
  { eexists true, _. split; [reflexivity|]. split_and!; try done.
    - split; cbn; rewrite ?Hi, ?Hm; try done.
      + eapply separate_sub; [exact Hsep| |lia]. unfold arcs. cbn [unmarked_changed shared_changed pending with_pending].
        intros z. rewrite fmap_app, !elem_of_cons, !elem_of_app. cbn [fmap list_fmap].
        rewrite list_elem_of_singleton. cbn [wire]. tauto.
      + apply Forall_app. split; [done|]. by constructor.
      + rewrite filter_snoc. unfold live at 2. destruct (queued_is_terminal (mkQueuedUpdate ev a)) eqn:Eterm;
          simpl in *; [rewrite Hp, Hl in *; lia|]. apply Nat.ltb_lt in Ea.
        pose proof (List.filter_length_le live (pending q1)). lia.
    - cbn. rewrite Hp. constructor. }
  apply orb_false_iff in Ea as [Eterm Ea]. apply Nat.ltb_ge in Ea.
  destruct (last (pending q1)) as [t|] eqn:El; [|apply last_None in El; rewrite El in Ea; simpl in Ea; lia].
  apply last_Some in El as [q0 El].
  assert (Hsame : ptr_eq (wire t) a = true -> wire t = a).
  { unfold ptr_eq. intros He%Nat.eqb_eq. destruct Hsep as [_ Hs]. apply Hs; [|constructor|done].
    apply elem_of_cons. right. unfold arcs. apply elem_of_cons. right. apply elem_of_app. right.
    rewrite El, fmap_app. apply elem_of_app. right. constructor. }
  eexists true, _. split; [reflexivity|].
  rewrite El, removelast_last.
  assert (Hwt : wire_ok (intro q) (mask q) t).
  { rewrite El in H6. apply Forall_app in H6 as [_ H6]. by apply list.Forall_cons in H6 as [H6 _]. }
  assert (Hhm : honest_marks (marked (update t)) (marked ev)).
  { apply Hco. rewrite <- Hp, El. apply elem_of_app. right. constructor. }
  split_and!; try done.
  - split; cbn; rewrite ?Hi, ?Hm; try done.
    + eapply (separate_sub (mkArc (next_addr q1) (pointee (wire (coalesce_queued_update (next_addr q1) t (mkQueuedUpdate ev a))))
        :: a :: arcs q1)); [by apply separate_fresh| |lia].
      unfold arcs. cbn [unmarked_changed shared_changed pending with_pending]. rewrite El.
      intros z. rewrite !fmap_app, !elem_of_cons, !elem_of_app. cbn [fmap list_fmap].
      rewrite !list_elem_of_singleton. intros [?|[?|[?| ->]]]; try tauto.
      unfold coalesce_queued_update. cbn [wire update].
      destruct (type_changed (coalesce_monitor_update _ _)); [tauto|].
      destruct (ptr_eq (wire t) a); tauto.
    + rewrite El in H6. apply Forall_app in H6 as [H6 _]. apply Forall_app. split; [done|].
      constructor; [|done]. by apply coalesce_wire.
    + rewrite El, filter_snoc in H7. rewrite filter_snoc. unfold live at 2. unfold live at 2 in H7.
      unfold queued_is_terminal in *. rewrite coalesce_terminal, Eterm, orb_false_r. cbn [update] in *. lia.
  - cbn. rewrite Hp in El. apply (queued_merge q _ q0 t); try done.
Qed.

(** ** Convergence *)

Section Converge.
Variable d : FieldDesc.
Variable msk : BitSet.t.
(** What every value of the source satisfies. *)
Variable P : PvField.t -> Prop.

(** What a queued update makes of the value its client holds. *)
Definition queued_effect (u : QueuedUpdate) (w : PvField.t) : PvField.t :=
  if type_changed (update u) then w
  else overlay (BitSet.get (pointee (wire u))) d 0 (up_value (update u)) w.

(** An update a source may post: a value of the descriptor's shape. *)
Definition posted (u : QueuedUpdate) : Prop :=
  wire_ok d msk u /\
  (type_changed (update u) = false -> shaped (up_value (update u)) d = true /\ P (up_value (update u))).

(** A source marks what it changes: a selected leaf its next update does not mark is what it
    was.  Nothing follows a change of type. *)
Definition marks_changes (u v : QueuedUpdate) : Prop :=
  type_changed (update u) = false /\
  (type_changed (update v) = false -> forall p,
     p ∈ leaves d 0 -> BitSet.get msk p = true -> BitSet.get (pointee (wire v)) p = false ->
     leaf_at d 0 (up_value (update u)) p = leaf_at d 0 (up_value (update v)) p).

Definition coalesces (t x m : QueuedUpdate) : Prop :=
  type_changed (update x) = false /\ (ptr_eq (wire t) (wire x) = true -> wire t = wire x) /\
  honest_marks (marked (update t)) (marked (update x)) /\
  exists fresh, m = coalesce_queued_update fresh t x.

Lemma wire_leaves u : wire_ok d msk u -> type_changed (update u) = false ->
  forall i, BitSet.get (pointee (wire u)) i = true -> i ∈ leaves d 0 /\ BitSet.get msk i = true.
Proof. intros Hw Ht i Hi. apply (Hw Ht) in Hi as (? & ? & _). done. Qed.

Lemma wire_covers u : wire_ok d msk u -> type_changed (update u) = false ->
  forall p, covered (BitSet.get (pointee (wire u))) false d 0 p = BitSet.get (pointee (wire u)) p.
Proof. intros Hw Ht. apply leaf_set_covers. intros i Hi. by apply (wire_leaves u). Qed.

Lemma coalesces_spec t x m :
  type_changed (update t) = false -> coalesces t x m ->
  type_changed (update m) = false /\ up_value (update m) = up_value (update x) /\
  forall i, BitSet.get (pointee (wire m)) i
            = BitSet.get (pointee (wire t)) i || BitSet.get (pointee (wire x)) i.
Proof.
  intros Ht (Hx & Hp & _ & fresh & ->). rewrite coalesce_terminal, Ht, Hx.
  unfold coalesce_queued_update, coalesce_monitor_update. cbn [update wire]. rewrite Ht, Hx. cbn.
  split_and!; [done|done|]. intros i. destruct (ptr_eq (wire t) (wire x)) eqn:E.
  - rewrite (Hp eq_refl). by rewrite orb_diag.
  - apply get_union_with.
Qed.

#[export, refine] Instance queued_squash : TailSquash queued_effect := {|
  fits w := shaped w d = true;
  valid := posted;
  before := marks_changes;
  merges := coalesces;
  negligible u := type_changed (update u) = false /\ forall i, BitSet.get (pointee (wire u)) i = false;
|}.
Proof.
  - intros u w [_ Hv] Hw. unfold queued_effect. destruct (type_changed (update u)); [done|].
    apply overlay_shaped; [by apply Hv|done].
  - intros t x m [Hwt Hvt] [Hwx Hvx] Hm. pose proof Hm as (Hx & Hp & Hh & fresh & ->). split.
    + by apply coalesce_wire.
    + rewrite coalesce_terminal. intros [Et _]%orb_false_iff.
      destruct (coalesces_spec t x _ Et Hm) as (_ & -> & _). auto.
  - intros t x m w [Hwt Hvt] [Hwx Hvx] [Ht Hb] Hm Hw.
    pose proof Hm as (Hx & _). specialize (Hb Hx).
    destruct (coalesces_spec t x m Ht Hm) as (Em & Ev & Eb).
    unfold queued_effect. rewrite Em, Ht, Hx, Ev.
    destruct (Hvt Ht) as [Hs1 _], (Hvx Hx) as [Hs2 _].
    apply (shaped_ext d) with (bit := 0%nat); [by auto using overlay_shaped..|]. intros p.
    rewrite !leaf_overlay_at by auto using overlay_shaped.
    rewrite (wire_covers t), (wire_covers x) by done.
    rewrite leaf_set_covers.
    + rewrite Eb. destruct (BitSet.get (pointee (wire t)) p) eqn:E1, (BitSet.get (pointee (wire x)) p) eqn:E2; try done.
      simpl. symmetry. by apply Hb; [apply (wire_leaves t)..|].
    + intros i. rewrite Eb. intros [Hi|Hi]%orb_true_iff; [by apply (wire_leaves t)|by apply (wire_leaves x)].
  - intros t x m y _ _ [Ht _] Hm [_ Hb].
    destruct (coalesces_spec t x m Ht Hm) as (Em & Ev & _). split; [done|]. by rewrite Ev.
  - intros u w [_ Hv] [Ht He] Hw. unfold queued_effect. rewrite Ht. apply overlay_none; [by apply Hv|done|auto].
  - intros t x y _ [Hx He] [Ht Hb] [_ Hc]. split; [done|]. intros Hy p Hl Hs Hp.
    rewrite (Hb Hx p Hl Hs (He p)). by apply Hc.
Defined.

(** *** Runs of the queue *)

(** The updates posted, each with its wire set, those popped so far and the queue. *)
Inductive queue_run : list QueuedUpdate -> list QueuedUpdate -> MonitorQueue -> Prop :=
| queue_new limit stat : queue_run [] [] (MonitorQueue_new limit d msk stat)
| queue_seed limit stat r :
    let q := MonitorQueue_new limit d msk stat in
    queue_run [mkQueuedUpdate (read_update r) (fst (wire_changed q (read_update r)))] []
      (MonitorQueue_seed q r)
| queue_push ps out q ev b q' :
    queue_run ps out q -> coherent q ev -> MonitorQueue_push q ev = Some (b, q') ->
    queue_run (ps ++ [mkQueuedUpdate ev (fst (wire_changed q ev))]) out q'
| queue_pop ps out q u q' :
    queue_run ps out q -> MonitorQueue_pop q = (Some u, q') -> queue_run ps (out ++ [u]) q'.

Lemma new_ok limit stat : queue_ok (MonitorQueue_new limit d msk stat).
Proof.
  split; cbn; try done; try lia.
  - intros m bits Hin. by apply not_elem_of_nil in Hin.
  - split.
    + intros a [->|Ha]%elem_of_cons; [simpl; lia|]. by apply not_elem_of_nil in Ha.
    + intros a b [->|Ha]%elem_of_cons [->|Hb]%elem_of_cons; try done;
        try (by apply not_elem_of_nil in Ha); by apply not_elem_of_nil in Hb.
Qed.

Lemma pop_cases q u q' :
  MonitorQueue_pop q = (Some u, q') ->
  pending q = u :: pending q' /\ intro q' = intro q /\ mask q' = mask q /\ first q' = first q /\
  limit q' = limit q /\ (queue_ok q -> queue_ok q').
Proof.
  unfold MonitorQueue_pop. destruct (pending q) as [|u' rest] eqn:E; [done|]. intros [= -> <-].
  split_and!; try done. intros [H1 H2 H3 H4 H5 H6 H7]. rewrite E in H6, H7. split; cbn; try done.
  - eapply separate_sub; [exact H5| |done]. unfold arcs. cbn. rewrite E.
    intros a. cbn [fmap list_fmap]. rewrite !elem_of_cons, !elem_of_app, elem_of_cons. tauto.
  - by apply list.Forall_cons in H6 as [_ ?].
  - simpl in H7. destruct (live u); simpl in H7; lia.
Qed.

Lemma seed_ok limit stat r :
  let q := MonitorQueue_new limit d msk stat in
  let x := mkQueuedUpdate (read_update r) (fst (wire_changed q (read_update r))) in
  queue_ok (MonitorQueue_seed q r) /\ pending (MonitorQueue_seed q r) = [x] /\ wire_ok d msk x /\
  intro (MonitorQueue_seed q r) = d /\ mask (MonitorQueue_seed q r) = msk.
Proof.
  intros q x. assert (Hq : queue_ok q) by apply new_ok.
  assert (Hc : coherent q (read_update r)) by (split; [intros m b Hin|intros u Hin]; by apply not_elem_of_nil in Hin).
  unfold x, MonitorQueue_seed. destruct (wire_changed q (read_update r)) as [a q1] eqn:Ew.
  destruct (wire_changed_ok q _ a q1 Hq Hc Ew) as ([H1 H2 H3 H4 H5 H6 H7] & (Hp & Hl & Hf & Hi & Hm & _) & Hs & Hw & _).
  assert (Hp' : pending q1 = []) by (by rewrite Hp). cbn [fst]. rewrite Hp'. cbn.
  assert (Hi' : intro q1 = d) by (by rewrite Hi). assert (Hm' : mask q1 = msk) by (by rewrite Hm).
  split_and!; try done. split; cbn; rewrite ?Hi', ?Hm' in *; try done.
  - eapply separate_sub; [exact Hs| |done]. unfold arcs. cbn. rewrite Hp'. cbn [fmap list_fmap].
    intros z. rewrite !elem_of_cons, !elem_of_app, list_elem_of_singleton. tauto.
  - by constructor.
Qed.

Lemma queue_run_ok ps out q :
  queue_run ps out q ->
  queue_ok q /\ intro q = d /\ mask q = msk /\ Forall (wire_ok d msk) ps.
Proof.
  induction 1 as [limit stat|limit stat r q|ps out q ev b q' _ (Hq & Hi & Hm & Hw) Hc Hpush|
                  ps out q u q' _ (Hq & Hi & Hm & Hw) Hpop].
  - split_and!; [apply new_ok|done|done|constructor].
  - destruct (seed_ok limit stat r) as (H1 & _ & H2 & H3 & H4). split_and!; [done..|]. by constructor.
  - destruct (push_ok q ev Hq Hc) as (b' & q'' & E & Hq' & _ & Hi' & Hm' & Hwx & _).
    rewrite Hpush in E. injection E as <- <-. rewrite Hi', Hm', Hi, Hm in *. split_and!; try done.
    apply Forall_app. split; [done|]. by constructor.
  - destruct (pop_cases q u q' Hpop) as (_ & -> & -> & _ & _ & Hok). split_and!; auto.
Qed.

(** Each update may follow the one before it. *)
Definition chain (ps : list QueuedUpdate) : Prop :=
  forall pre a b post, ps = pre ++ a :: b :: post -> marks_changes a b.

Lemma chain_snoc ps x :
  chain (ps ++ [x]) -> chain ps /\ forall a, last ps = Some a -> marks_changes a x.
Proof.
  intros Hc. split.
  - intros pre a b post ->. apply (Hc pre a b (post ++ [x])). by rewrite <- app_assoc.
  - intros a [pre ->]%last_Some. apply (Hc pre a x []). by rewrite <- app_assoc.
Qed.

(** The server's queue is a queue that squashes its tail. *)
Lemma queue_refines ps out q :
  queue_run ps out q -> chain ps -> Forall posted ps -> qrun ps out (pending q).
Proof.
  induction 1 as [limit stat|limit stat r q|ps out q ev b q' Hrun IH Hc Hpush|ps out q u q' Hrun IH Hpop];
    intros Hch Hv.
  - apply qrun_nil.
  - destruct (seed_ok limit stat r) as (_ & Hp & _). fold q in Hp. rewrite Hp. apply list.Forall_cons in Hv as [Hv _].
    apply (qrun_push [] [] []); [apply qrun_nil|done|done|apply (enqueue_append [])].
  - apply chain_snoc in Hch as [Hch Hlast]. apply Forall_app in Hv as [Hv Hx].
    apply list.Forall_cons in Hx as [Hx _]. specialize (IH Hch Hv).
    destruct (queue_run_ok _ _ _ Hrun) as (Hq & Hi & Hm & _).
    destruct (push_ok q ev Hq Hc) as (b' & q'' & E & _ & _ & _ & _ & Hwx & Hb).
    rewrite Hpush in E. injection E as <- <-. destruct b.
    + destruct Hb as [_ Hqueued]. apply (qrun_push _ _ (pending q)); [done..|].
      destruct Hqueued as [|q0 t fresh Ep Et Hptr]; [constructor|].
      apply (enqueue_merge _ _ q0 t); [done|]. split_and!; [done|done| |by exists fresh].
      apply Hc. rewrite Ep. apply elem_of_app. right. constructor.
    + destruct Hb as (_ & Ht & -> & He). by apply qrun_skip.
  - destruct (pop_cases q u q' Hpop) as (E & _). apply qrun_pop. rewrite <- E. by apply IH.
Qed.

Lemma queue_run_popped ps out q : queue_run ps out q -> Forall (wire_ok d msk) out.
Proof.
  induction 1 as [| |ps out q ev b q' _ IH|ps out q u q' Hr IH Hpop]; try done; try constructor.
  apply Forall_app. split; [done|]. constructor; [|constructor].
  destruct (queue_run_ok _ _ _ Hr) as ([_ _ _ _ _ Hw _] & Hi & Hm & _). rewrite Hi, Hm in Hw.
  destruct (pop_cases q u q' Hpop) as (E & _). rewrite E in Hw. by apply list.Forall_cons in Hw as [? _].
Qed.

(** What a client that saw every update would hold: the latest value on each selected leaf. *)
Lemma posts_effect ps w p : forall x0 v,
  chain ps -> Forall posted ps -> Forall (fun u => type_changed (update u) = false) ps ->
  shaped w d = true -> p ∈ leaves d 0 -> BitSet.get msk p = true ->
  head ps = Some x0 -> BitSet.get (pointee (wire x0)) p = true -> last ps = Some v ->
  leaf_at d 0 (effects (effect := queued_effect) w ps) p = leaf_at d 0 (up_value (update v)) p.
Proof.
  induction ps as [|x ps IH] using rev_ind; intros x0 v Hc Hv Ht Hw Hl Hs Hh H0 Hlast; [done|].
  rewrite last_snoc in Hlast. injection Hlast as <-.
  apply chain_snoc in Hc as [Hc Hx]. apply Forall_app in Hv as [Hv Hvx]. apply Forall_app in Ht as [Ht Htx].
  apply list.Forall_cons in Hvx as [Hvx _]. apply list.Forall_cons in Htx as [Htx _].
  rewrite effects_app. change (effects ?u [x]) with (queued_effect x u).
  assert (Hfit : shaped (effects (effect := queued_effect) w ps) d = true)
    by exact (effects_fit (TailSquash0 := queued_squash) w ps Hv Hw).
  unfold queued_effect at 1. rewrite Htx, leaf_overlay_at, (wire_covers x) by (done || by apply Hvx).
  destruct (BitSet.get (pointee (wire x)) p) eqn:E; [done|].
  destruct (last ps) as [a|] eqn:Ea.
  - destruct (Hx a eq_refl) as [_ Hm]. rewrite <- (Hm Htx p Hl Hs E).
    apply (IH x0 a); try done. by destruct ps.
  - apply last_None in Ea as ->. injection Hh as <-. congruence.
Qed.
End Converge.

(** C28: on any run of the server's monitor queue, whatever was posted, coalesced or dropped,
    the changed set an update is queued and framed under holds exactly the leaves that its
    marks name and the request selects; live updates never exceed the negotiated limit; a
    post never panics, and the posts it drops are those that mark no selected leaf. *)
Theorem queue_frames_the_marked_leaves d msk ps out q :
  queue_run d msk ps out q ->
  (forall u, u ∈ out ++ pending q -> type_changed (update u) = false -> forall i,
     BitSet.get (pointee (wire u)) i = true <-> selects d msk (marked (update u)) i) /\
  (length (List.filter live (pending q)) <= limit q)%nat /\
  (forall ev, coherent q ev -> exists b q', MonitorQueue_push q ev = Some (b, q') /\
     (b = false -> pending q' = pending q /\ forall i, ~ selects d msk (marked ev) i)).
Proof.
  intros Hr. destruct (queue_run_ok _ _ _ _ _ Hr) as (Hq & Hi & Hm & _).
  pose proof (queue_run_popped _ _ _ _ _ Hr) as Hout. pose proof Hq as [_ _ _ _ _ Hpend Hb].
  rewrite Hi, Hm in Hpend. split_and!; [|done|].
  - intros u Hu. assert (Hall : Forall (wire_ok d msk) (out ++ pending q)) by (by apply Forall_app).
    rewrite list.Forall_forall in Hall. by apply Hall.
  - intros ev Hc. destruct (push_ok q ev Hq Hc) as (b & q' & E & _ & _ & _ & _ & Hw & Hres).
    exists b, q'. split; [done|]. intros ->. destruct Hres as (_ & Ht & Hp & He). split; [done|].
    intros i Hs. rewrite Hi, Hm in Hw. apply (Hw Ht) in Hs. cbn [wire] in Hs. by rewrite He in Hs.
Qed.


(** ** From the source to the subscriber *)

Lemma canonical_storage selection d : forall base out,
  (length (BitSet.bytes (canonical_walk selection d base out))
   <= length (BitSet.bytes out) `max` (base + total_bits d))%nat.
Proof.
  induction d as [d IH] using desc_ind'. intros base out.
  destruct (is_leaf d) eqn:Hl.
  - assert (E : canonical_walk selection d base out
                = if BitSet.get selection base then BitSet.set out base else out) by (by destruct d).
    rewrite E. pose proof (length_set out base). pose proof (total_bits_pos d).
    assert (base / 8 <= base)%nat by ndivlia. destruct (BitSet.get selection base); lia.
  - destruct d as [| |id fs| | | | |]; try done. cbn [canonical_walk total_bits members] in *.
    assert (Hf : forall bit out,
      (length (BitSet.bytes (canonical_members (canonical_walk selection) fs bit out))
       <= length (BitSet.bytes out) `max` (bit + members_bits fs))%nat).
    { clear base out Hl. induction IH as [|[n c] fs Hc _ IHfs]; intros bit out; cbn [canonical_members sum_list_with]; [lia|].
      cbn [snd] in Hc. specialize (Hc bit out).
      specialize (IHfs (bit + total_bits c)%nat (canonical_walk selection c bit out)). lia. }
    specialize (Hf (base + 1)%nat out). lia.
Qed.

Lemma canonical_marks_ok d selection :
  Z.of_nat (total_bits d) < 2 ^ 32 -> marks_ok (canonical_changed_bitset d selection).
Proof.
  intros Hd. split; [apply wf_canonical|]. pose proof (canonical_storage selection d 0 BitSet.new) as Hl.
  unfold canonical_changed_bitset. cbn [BitSet.new BitSet.bytes length] in Hl. lia.
Qed.

Lemma length_or_bytes a b : length (BitSet.or_bytes a b) = length a.
Proof. revert b. induction a as [|x a IH]; intros [|y b]; simpl; try done. by rewrite IH. Qed.

Lemma union_marks_ok a b : marks_ok a -> marks_ok b -> marks_ok (BitSet.union_with a b).
Proof.
  intros [Ha La] [Hb Lb]. split; [by apply wf_union_with|].
  unfold BitSet.union_with. cbn [BitSet.bytes]. rewrite length_or_bytes.
  case_match; [rewrite length_resize|]; lia.
Qed.

Section EndToEnd.
Context `{Target} `{ScalarCopyOk}.
Variable rtems : bool.
Variables host o : ByteOrder.
Variable d : FieldDesc.
Hypothesis distinct : distinct_desc d.
Hypothesis small : Z.of_nat (total_bits d) < 2 ^ 32.
Variable msk : BitSet.t.

Lemma wire_changed_marks q ev a q' :
  queue_ok q -> intro q = d -> wire_changed q ev = (a, q') -> marks_ok (pointee a).
Proof.
  intros Hq Hi. unfold wire_changed. destruct (type_changed ev).
  { intros [= <- <-]. split; [constructor|done]. }
  rewrite Hi. destruct (marked ev) as [mk|].
  2:{ intros [= <- <-]. rewrite (ok_unmarked q Hq), Hi. by apply canonical_marks_ok. }
  destruct mk as [ps|ps]; [intros [= <- <-]; by apply canonical_marks_ok|].
  destruct (find_shared _ _) as [bits|] eqn:Ef; [|intros [= <- <-]; by apply canonical_marks_ok].
  intros [= <- <-]. apply find_shared_spec in Ef as (m' & Hin & _).
  rewrite (ok_cache q Hq m' bits Hin), Hi. by apply canonical_marks_ok.
Qed.

Lemma queue_run_marks ps out q :
  queue_run d msk ps out q -> Forall (fun u => marks_ok (pointee (wire u))) (out ++ pending q).
Proof.
  induction 1 as [limit stat|limit stat r q|ps out q ev b q' Hr IH Hc Hpush|ps out q u q' Hr IH Hpop].
  - constructor.
  - destruct (seed_ok d msk limit stat r) as (_ & Hp & _). fold q in Hp. rewrite Hp. constructor; [|constructor].
    cbn [wire]. destruct (wire_changed q (read_update r)) as [a q1] eqn:Ew.
    eapply wire_changed_marks; [apply (new_ok d msk limit stat)|done|exact Ew].
  - destruct (queue_run_ok _ _ _ _ _ Hr) as (Hq & Hi & Hm & _).
    destruct (push_ok q ev Hq Hc) as (b' & q'' & E & _ & _ & _ & _ & _ & Hb).
    rewrite Hpush in E. injection E as <- <-. apply Forall_app in IH as [IHo IHp].
    apply Forall_app. split; [done|].
    destruct (wire_changed q ev) as [a q1] eqn:Ew. cbn [fst] in Hb.
    assert (Ha : marks_ok (pointee a)) by (by eapply wire_changed_marks).
    destruct b; [|by destruct Hb as (_ & _ & -> & _)]. destruct Hb as [_ Hqd].
    destruct Hqd as [|q0 t fresh Ep _ _]; [by apply Forall_snoc_2|].
    rewrite Ep in IHp. apply Forall_app in IHp as [IHp Ht]. apply list.Forall_cons in Ht as [Ht _].
    apply Forall_snoc_2; [done|]. unfold coalesce_queued_update. cbn [wire].
    case_match; [split; [constructor|done]|]. case_match; [done|]. by apply union_marks_ok.
  - destruct (pop_cases q u q' Hpop) as (E & _). rewrite E in IH. by rewrite <- app_assoc.
Qed.

(** A popped update, as its frame carries it. *)
Definition update_of (u : QueuedUpdate) : Update :=
  mkUpdate (pointee (wire u)) (up_value (update u)) BitSet.new.

Definition sent_bytes (ioid : Z) (u : QueuedUpdate) : list Z :=
  fst (build_monitor_payload host ioid d (up_value (update u)) (pointee (wire u)) o).

Lemma queued_sendable u :
  posted d msk (fun v => ready rtems v d) u -> type_changed (update u) = false ->
  marks_ok (pointee (wire u)) -> sendable rtems d (update_of u).
Proof.
  intros [Hw Hv] Ht Hm. destruct (Hv Ht) as [Hs Hr]. split_and!; [done| |done|].
  - split; [constructor|done].
  - apply leaves_marked_ready; [done|..].
    + intros p _ Hp. apply covered_leaves. by apply (wire_leaves d msk u) in Hp as [? _].
    + intros p dl w Hp Hd Ha.
      assert (Hl : leaves_ready rtems (covered (BitSet.get (pointee (wire u))) true d 0) d 0 (up_value (update u)))
        by (apply ready_leaves; done).
      apply (Hl p); try done. apply covered_leaves. by apply (wire_leaves d msk u) in Hp as [? _].
Qed.

Lemma sent_carries ioid u f n :
  is_u32 ioid -> sendable rtems d (update_of u) -> len (sent_bytes ioid u) < 2 ^ 32 ->
  try_parse_frame_role (sent_bytes ioid u) PeerRole.Client = Returns (Ok (Some (f, n))) ->
  carries rtems host d f (update_of u).
Proof.
  intros Hi Hs Hl Hp. unfold sent_bytes, build_monitor_payload in *. cbn [fst] in *.
  set (pay := put_u32 ioid o ++ _) in *.
  set (h := application true o (code Monitor) (wrap 32 (len pay))) in *.
  rewrite length_app, length_header_encode in Hl. unfold HEADER_SIZE in Hl.
  assert (Hwr : wrap 32 (len pay) = len pay) by (apply wrap_small; split; lia).
  destruct (HeaderFlags_new_spec true false o) as (Hsv & Hctl & Hbo & _ & _ & _ & Hu8).
  assert (Hf : frame_ok (mkFrame h pay)).
  { unfold frame_ok, h. cbn [header payload application version flags command payload_length].
    pose proof usize_bits_ge. assert (2 ^ 32 <= 2 ^ usize_bits) by (apply Z.pow_le_mono_r; lia).
    split; [|split_and!; [discriminate|exact Hctl|exact Hwr|unfold uint_max; lia]].
    split; [by split|split; [done|split; [by split|]]]. cbn [payload_length application]. rewrite Hwr. split; lia. }
  pose proof (parse_frame (mkFrame h pay) [] PeerRole.Client Hf) as Hpf.
  unfold frame_bytes in Hpf. cbn [header payload] in Hpf. rewrite app_nil_r in Hpf.
  cbn [wrong_direction application flags] in Hpf. unfold h in Hpf at 1. cbn [flags application] in Hpf.
  rewrite Hsv in Hpf. rewrite (Hpf eq_refl) in Hp. injection Hp as <- <-.
  split; [done|]. split; [done|]. exists ioid. split; [done|].
  unfold frame_order, h. cbn [header flags application payload]. rewrite Hbo. reflexivity.
Qed.

Lemma subscriber_fold us fs : forall s,
  Forall2 (fun u f => carries rtems host d f (update_of u)) us fs -> held d s ->
  Forall (fun u => type_changed (update u) = false) us ->
  default (default_value_for d) (foldl (fun s f => frame_effect rtems host d f s) s fs)
  = effects (effect := queued_effect d) (default (default_value_for d) s) us.
Proof.
  intros s HF. revert s. induction HF as [|u f us fs Hc _ IH]; intros s Hs Ht; [done|].
  apply list.Forall_cons in Ht as [Htu Ht]. cbn [foldl].
  change (effects ?w (u :: us)) with (effects (effect := queued_effect d) (queued_effect d u w) us).
  rewrite (carried_effect rtems host d distinct f (update_of u) s Hc Hs).
  assert (Hsh : shaped (default (default_value_for d) s) d = true) by (destruct s; simpl in *; auto with shapes).
  rewrite IH; [|simpl; unfold update_to; destruct Hc as (_ & (_ & _ & Hv & _) & _); auto with shapes|done].
  simpl. unfold queued_effect at 3. by rewrite Htu.
Qed.
End EndToEnd.

(** C1: end to end.  A source posts values, marking what each changes; the server's queue
    coalesces them behind a slow client, frames what is left, the client's backlog squashes
    the frames behind a slow subscriber.  Once both queues are drained, the subscriber holds
    the source's latest value on every leaf its request selected. *)
Theorem subscriber_converges_to_the_source `{Target} `{ScalarCopyOk} rtems host o d msk ioid
    ps out q fs orderly received b x0 latest :
  distinct_desc d -> Z.of_nat (total_bits d) < 2 ^ 32 -> is_u32 ioid ->
  queue_run d msk ps out q -> pending q = [] ->
  chain d msk ps -> Forall (posted d msk (fun v => ready rtems v d)) ps ->
  Forall (fun u => type_changed (update u) = false) (ps ++ out) ->
  head ps = Some x0 -> marked (update x0) = None -> last ps = Some latest ->
  Forall2 (fun u f => len (sent_bytes host o d ioid u) < 2 ^ 32 /\ exists n,
    try_parse_frame_role (sent_bytes host o d ioid u) PeerRole.Client = Returns (Ok (Some (f, n)))) out fs ->
  backlog_run rtems host d orderly fs received b -> bq b = [] ->
  let held := default (default_value_for d)
                (foldl (fun s f => frame_effect rtems host d f s) None received) in
  forall p, p ∈ leaves d 0 -> BitSet.get msk p = true ->
  leaf_at d 0 held p = leaf_at d 0 (up_value (update latest)) p.
Proof.
  intros Hd Hsm Hi Hrun Hdr Hch Hv Ht Hh Hm Hl HF Hb Hbq held p Hp Hs.
  apply Forall_app in Ht as [Htp Hto].
  pose proof (queue_refines d msk _ _ _ _ Hrun Hch Hv) as Hq. rewrite Hdr in Hq.
  pose proof (qrun_invariant _ _ _ Hq) as (_ & Hvo & _).
  pose proof (queue_run_marks d Hsm msk _ _ _ Hrun) as Hmk. rewrite Hdr, app_nil_r in Hmk.
  assert (Hc : Forall2 (fun u f => carries rtems host d f (update_of u)) out fs).
  { clear -Hvo Hto Hmk HF Hi. induction HF as [|u f out fs [Hlen [n Hparse]] _ IH]; [constructor|].
    apply list.Forall_cons in Hvo as [Hvu Hvo], Hto as [Htu Hto], Hmk as [Hmu Hmk].
    constructor; [|auto]. eapply sent_carries; [done| |done|exact Hparse].
    exact (queued_sendable rtems d msk u Hvu Htu Hmu). }
  assert (Hfu : Forall (follows_updates rtems host d) fs).
  { clear -Hc. induction Hc as [|u f out fs Hc _ IH]; [constructor|]. constructor; [|done]. left. eauto. }
  pose proof (backlog_refines rtems host d Hd Hsm orderly fs received b Hb Hfu) as Hbr. rewrite Hbq in Hbr.
  assert (Hheld : held = effects (effect := queued_effect d) (default_value_for d) ps).
  { unfold held. pose proof (drained_effect (TailSquash0 := frame_squash rtems host d Hd Hsm) fs received Hbr None I) as E.
    unfold effects in E at 1 2. rewrite E.
    rewrite (subscriber_fold rtems host d Hd out fs None Hc I Hto). simpl.
    exact (drained_effect (TailSquash0 := queued_squash d msk _) ps out Hq (default_value_for d) (default_shaped d)). }
  rewrite Hheld. apply (posts_effect d msk (fun v => ready rtems v d) ps (default_value_for d) p x0 latest);
    try done; [apply default_shaped|].
  destruct (queue_run_ok _ _ _ _ _ Hrun) as (_ & _ & _ & Hw).
  assert (Hx0 : x0 ∈ ps) by (destruct ps; [done|injection Hh as <-; constructor]).
  rewrite list.Forall_forall in Hw, Htp. apply (Hw x0 Hx0 (Htp x0 Hx0)). by rewrite Hm.
Qed.

(** *** Sample: three posts, the last two coalesced *)

Definition sample_mask : BitSet.t := BitSet.all_set 6.
Definition sample_seed : SourceRead := mkSourceRead (delta_value 1 2 3 [4]) None.
Definition sample_post1 : MonitorUpdate :=
  mkMonitorUpdate (delta_value 7 2 3 [4]) (Some (Owned [[118]])) false [].
Definition sample_post2 : MonitorUpdate :=
  mkMonitorUpdate (delta_value 7 8 3 [4]) (Some (Owned [[116; 46; 115]])) false [].

Definition sample_new : MonitorQueue :=
  MonitorQueue_new 1 delta_desc sample_mask (mkMonitorStat 0 0).
Definition sample_q0 : MonitorQueue := MonitorQueue_seed sample_new sample_seed.
Definition sample_q1 : MonitorQueue := snd (MonitorQueue_pop sample_q0).
Definition sample_push (q : MonitorQueue) (ev : MonitorUpdate) : MonitorQueue :=
  from_option snd q (MonitorQueue_push q ev).
Definition sample_q2 : MonitorQueue := sample_push sample_q1 sample_post1.
Definition sample_q3 : MonitorQueue := sample_push sample_q2 sample_post2.
Definition sample_q4 : MonitorQueue := snd (MonitorQueue_pop sample_q3).

Definition sample_posts : list QueuedUpdate :=
  [mkQueuedUpdate (read_update sample_seed) (fst (wire_changed sample_new (read_update sample_seed)));
   mkQueuedUpdate sample_post1 (fst (wire_changed sample_q1 sample_post1));
   mkQueuedUpdate sample_post2 (fst (wire_changed sample_q2 sample_post2))].

Definition sample_popped : list QueuedUpdate := pending sample_q0 ++ pending sample_q3.
Definition sample_first : QueuedUpdate :=
  default (mkQueuedUpdate sample_post1 (mkArc 0 BitSet.new)) (sample_popped !! 0%nat).
Definition sample_second : QueuedUpdate :=
  default (mkQueuedUpdate sample_post1 (mkArc 0 BitSet.new)) (sample_popped !! 1%nat).

Lemma owned_coherent q ev ps : marked ev = Some (Owned ps) -> coherent q ev.
Proof.
  intros E. split; [intros m bits _|intros u _]; unfold honest_marks; rewrite E;
    intros m1 m2 _ [= <-]; by destruct m1.
Defined.

Lemma sample_queue_run : queue_run delta_desc sample_mask sample_posts sample_popped sample_q4.
Proof.
  apply (queue_pop _ _ sample_posts (pending sample_q0) sample_q3); [|vm_compute; reflexivity].
  apply (queue_push _ _ (take 2 sample_posts) (pending sample_q0) sample_q2 sample_post2 true sample_q3);
    [|by eapply owned_coherent|vm_compute; reflexivity].
  apply (queue_push _ _ (take 1 sample_posts) (pending sample_q0) sample_q1 sample_post1 true sample_q2);
    [|by eapply owned_coherent|vm_compute; reflexivity].
  apply (queue_pop _ _ (take 1 sample_posts) [] sample_q0); [|vm_compute; reflexivity].
  apply (queue_seed delta_desc sample_mask 1 (mkMonitorStat 0 0) sample_seed).
Defined.

Lemma queue_frames_the_marked_leaves_witness :
  (length (List.filter live (pending sample_q3)) <= limit sample_q3)%nat /\
  exists b q', MonitorQueue_push sample_q4 sample_post1 = Some (b, q').
Proof.
  split; [vm_compute; lia|].
  destruct (queue_frames_the_marked_leaves delta_desc sample_mask sample_posts sample_popped sample_q4
    sample_queue_run) as (_ & _ & H).
  destruct (H sample_post1 (owned_coherent sample_q4 sample_post1 [[118]] eq_refl)) as (b & q' & E & _). exists b, q'. exact E.
Defined.

Lemma sample_chain : chain delta_desc sample_mask sample_posts.
Proof.
  assert (Hw : forall a b, type_changed (update a) = false ->
    Forall (fun p => BitSet.get (pointee (wire b)) p = true \/
      leaf_at delta_desc 0 (up_value (update a)) p = leaf_at delta_desc 0 (up_value (update b)) p)
      (leaves delta_desc 0) -> marks_changes delta_desc sample_mask a b).
  { intros a b Ha Hf. split; [done|]. intros _ p Hp _ Hn. rewrite list.Forall_forall in Hf.
    destruct (Hf p Hp) as [Hg|Hg]; [by rewrite Hg in Hn|exact Hg]. }
  assert (Hl : leaves delta_desc 0 = [1; 3; 4; 5]%nat) by reflexivity.
  intros pre a b post E. unfold sample_posts in E.
  destruct pre as [|x [|y pre]].
  3:{ exfalso. apply (f_equal length) in E. rewrite !length_cons, length_app, !length_cons in E. simpl in E. lia. }
  all: injection E; intros; subst; (apply Hw; [reflexivity|]; rewrite Hl;
     repeat (constructor; [first [left; vm_compute; reflexivity|right; vm_compute; reflexivity]|]); constructor).
Defined.

Lemma sample_posted :
  Forall (posted delta_desc sample_mask (fun v => @ready host64 false v delta_desc)) sample_posts.
Proof.
  assert (Hall : Forall (wire_ok delta_desc sample_mask) sample_posts)
    by (destruct (queue_run_ok _ _ _ _ _ sample_queue_run) as (_ & _ & _ & Hw); exact Hw).
  assert (Hv : Forall (fun u => shaped (up_value (update u)) delta_desc = true /\
    @ready host64 false (up_value (update u)) delta_desc) sample_posts).
  { unfold sample_posts, sample_seed, sample_post1, sample_post2, read_update.
    repeat (apply List.Forall_cons; [cbn [update up_value read_value]; split; [vm_compute; reflexivity|unfold delta_value, delta_desc; ready_now]|]).
    apply List.Forall_nil. }
  revert Hall Hv. induction sample_posts as [|u us IH]; intros Hw Hv; [apply List.Forall_nil|].
  apply list.Forall_cons in Hw as [Hu Hw], Hv as [Hr Hv].
  apply List.Forall_cons; [split; [exact Hu|intros _; exact Hr]|apply IH; assumption].
Defined.

(** The frames the client's reader parses out of what the server sent. *)
Definition sent_frame (u : QueuedUpdate) : Frame :=
  match @try_parse_frame_role host64 (@sent_bytes no_copy Little Little delta_desc 7 u) PeerRole.Client with
  | Returns (Ok (Some (f, _))) => f
  | _ => finish_frame
  end.

Definition sent_frames : list Frame := sent_frame <$> sample_popped.

Definition subscriber_backlog : MonitorBacklog :=
  let b := MonitorBacklog_arm (MonitorBacklog_new 1 false) delta_desc in
  foldl (fun b f => fst (@MonitorBacklog_push host64 no_copy false Little b f 0)) b sent_frames.

Definition received_frame : Frame :=
  match fst (MonitorBacklog_recv subscriber_backlog) with Received f _ => f | _ => finish_frame end.

Definition drained_backlog : MonitorBacklog := snd (MonitorBacklog_recv subscriber_backlog).

Lemma subscriber_run :
  @backlog_run host64 no_copy false Little delta_desc true sent_frames [received_frame] drained_backlog.
Proof.
  apply (run_recv _ _ _ _ sent_frames [] subscriber_backlog received_frame 0 drained_backlog);
    [|vm_compute; reflexivity].
  apply (run_push _ _ _ _ (take 1 sent_frames) [] _ (sent_frame sample_second) 0);
    [|vm_compute; reflexivity|vm_compute; reflexivity].
  apply (run_push _ _ _ _ [] [] _ (sent_frame sample_first) 0);
    [|vm_compute; reflexivity|vm_compute; reflexivity].
  apply run_arm, run_new.
Defined.

Lemma sent_frames_parse :
  Forall2 (fun u f => len (@sent_bytes no_copy Little Little delta_desc 7 u) < 2 ^ 32 /\ exists n,
    @try_parse_frame_role host64 (@sent_bytes no_copy Little Little delta_desc 7 u) PeerRole.Client
    = Returns (Ok (Some (f, n)))) sample_popped sent_frames.
Proof.
  apply List.Forall2_cons; [split; [vm_compute; reflexivity|eexists; vm_compute; reflexivity]|].
  apply List.Forall2_cons; [split; [vm_compute; reflexivity|eexists; vm_compute; reflexivity]|].
  apply List.Forall2_nil.
Defined.

(** The seed and two posts reach the subscriber as one frame. *)
Lemma subscriber_converges_to_the_source_witness :
  let held := default (default_value_for delta_desc)
    (foldl (fun s f => @frame_effect host64 false Little delta_desc f s) None [received_frame]) in
  leaf_at delta_desc 0 held 3 = leaf_at delta_desc 0 (delta_value 7 8 3 [4]) 3.
Proof.
  refine (@subscriber_converges_to_the_source host64 no_copy no_copy_ok false Little Little delta_desc
    sample_mask 7 sample_posts sample_popped sample_q4 sent_frames true [received_frame] drained_backlog
    (mkQueuedUpdate (read_update sample_seed) (fst (wire_changed sample_new (read_update sample_seed))))
    (mkQueuedUpdate sample_post2 (fst (wire_changed sample_q2 sample_post2)))
    sample_distinct _ _ sample_queue_run _ sample_chain sample_posted _ _ _ _ sent_frames_parse
    subscriber_run _ 3%nat _ _); try (vm_compute; reflexivity).
  - split; [lia|reflexivity].
  - change (sample_posts ++ sample_popped) with (sample_posts ++ [sample_first; sample_second]).
    repeat (apply List.Forall_cons; [vm_compute; reflexivity|]). apply List.Forall_nil.
  - apply list_elem_of_In. vm_compute. tauto.
Defined.
