(* ===== verification/Float64Theory.v ===== *)
(** * IEEE-754 binary64: canonical doubles and their bits

    A double is canonical when its mantissa has the width its exponent asks for
    ([valid_binary]).  Every conversion from an integer or a decimal text gives a canonical
    double, a canonical double is read back from its bit pattern, and doubles that compare
    equal are the same double or both zero. *)
From Stdlib Require Import SpecFloat.
From stdpp Require Import base tactics numbers list option.
From S2P Require Import Prelude Float64.

Open Scope Z_scope.

Definition f64_valid (a : f64) : bool := valid_binary f64_prec f64_emax a.

Definition f64_is_zero (a : f64) : bool := match a with S754_zero _ => true | _ => false end.

Lemma f64_eqb_eq a b : f64_eqb a b = true -> a = b \/ (f64_is_zero a = true /\ f64_is_zero b = true).
Proof.
  unfold f64_eqb. destruct a as [[]|[]| |s m e], b as [[]|[]| |s' m' e']; simpl; try (by auto).
  all: try (destruct s; done). all: try (destruct s'; done).
  destruct s, s'; try done; destruct (Z.compare_spec e e') as [-> |?|?]; try done;
    change (Pos.compare_cont Eq m m') with (m ?= m')%positive;
    destruct (Pos.compare_spec m m') as [-> |?|?]; simpl; auto; done.
Qed.

(** ** Rounding gives canonical doubles *)

Lemma digits2_log2 p : Z.pos (digits2_pos p) = Z.log2 (Z.pos p) + 1.
Proof.
  induction p as [p IH|p IH|]; [| |done]; cbn [digits2_pos]; rewrite Pos2Z.inj_succ, IH.
  - rewrite (Pos2Z.inj_xI p), Z.log2_succ_double by lia. lia.
  - rewrite (Pos2Z.inj_xO p), Z.log2_double by lia. lia.
Qed.

Lemma Zdigits2_log2 m : 0 < m -> Zdigits2 m = Z.log2 m + 1.
Proof. destruct m as [|p|p]; intros; [lia| |lia]. apply digits2_log2. Qed.

Lemma shr_1_half r : 0 <= shr_m r -> shr_m (shr_1 r) = shr_m r / 2.
Proof.
  destruct r as [[|[p|p|]|p] ? ?]; simpl; intros; try lia; try done.
  - rewrite (Pos2Z.inj_xI p). apply (Z.div_unique _ _ _ 1); lia.
  - rewrite (Pos2Z.inj_xO p), Z.mul_comm, Z.div_mul; lia.
Qed.

Lemma iter_shr p : forall r, 0 <= shr_m r ->
  shr_m (SpecFloat.iter_pos shr_1 p r) = shr_m r / 2 ^ Z.pos p.
Proof.
  assert (Hd : forall a b, 0 < a -> 0 <= b -> 0 <= b / a) by (intros; apply Z.div_pos; lia).
  induction p as [p IH|p IH|]; intros r Hr; cbn [SpecFloat.iter_pos].
  - assert (Hh := shr_1_half r Hr). assert (0 <= shr_m r / 2) by (apply Hd; lia).
    rewrite IH, IH, Hh by (rewrite ?IH, ?Hh by lia; try apply Hd; lia).
    rewrite !Z.div_div by lia. f_equal. rewrite (Pos2Z.inj_xI p), Z.pow_add_r, <- (Z.add_diag (Z.pos p)), Z.pow_add_r by lia. lia.
  - rewrite IH, IH by (rewrite ?IH by lia; try apply Hd; lia).
    rewrite Z.div_div by lia. f_equal. rewrite (Pos2Z.inj_xO p), <- (Z.add_diag (Z.pos p)), Z.pow_add_r by lia. lia.
  - rewrite shr_1_half by done. done.
Qed.

Lemma shr_m_of_loc m l : shr_m (shr_record_of_loc m l) = m.
Proof. by destruct l as [|[]]. Qed.

Lemma round_even_step m l : 0 <= m -> m <= round_nearest_even m l <= m + 1.
Proof. destruct l as [|[]]; simpl; try lia. destruct (Z.even m); lia. Qed.

Lemma iter_xO d : forall m, Z.pos (Pos.iter xO m d) = Z.pos m * 2 ^ Z.pos d.
Proof.
  induction d as [|d IH] using Pos.peano_ind; intros m; [simpl; lia|].
  rewrite Pos.iter_succ, (Pos2Z.inj_xO (Pos.iter xO m d)), IH, Pos2Z.inj_succ, Z.pow_succ_r by lia. lia.
Qed.

(** Rounding at any precision; [f64] and [f32] are instances. *)
Section Rounding.
Context (prec emax : Z) (Hprec : 0 < prec).

Lemma fexp_max e : fexp prec emax e = Z.max (e - prec) (3 - emax - prec).
Proof. reflexivity. Qed.

(** One shift leaves a mantissa of the right width, or nothing. *)
Lemma shr_fexp_canonical m e l r e' :
  0 < m -> e <= (fexp prec emax) (Zdigits2 m + e) -> shr_fexp prec emax m e l = (r, e') ->
  (shr_m r = 0 /\ e' = 3 - emax - prec) \/ (0 < shr_m r /\ (fexp prec emax) (Zdigits2 (shr_m r) + e') = e').
Proof.
  intros Hm He. unfold shr_fexp, shr. rewrite (Zdigits2_log2 m Hm) in *.
  set (n := (fexp prec emax) _ - e). assert (Hn : 0 <= n) by lia.
  destruct n as [|p|p] eqn:En; [| |lia]; subst n; intros [= <- <-].
  - right. rewrite shr_m_of_loc, (Zdigits2_log2 m Hm). lia.
  - rewrite iter_shr by (rewrite shr_m_of_loc; lia). rewrite shr_m_of_loc, <- Z.shiftr_div_pow2 by lia.
    pose proof (Z.log2_nonneg m). rewrite fexp_max in *.
    destruct (Z.le_gt_cases (Z.pos p) (Z.log2 m)) as [Hle|Hgt].
    + right. assert (Hpos : 0 < Z.shiftr m (Z.pos p)).
      { rewrite Z.shiftr_div_pow2 by lia. apply Z.div_str_pos.
        split; [lia|]. transitivity (2 ^ Z.log2 m); [apply Z.pow_le_mono_r; lia|apply Z.log2_spec; lia]. }
      split; [done|]. rewrite Zdigits2_log2, Z.log2_shiftr by lia. lia.
    + left. split; [apply Z.shiftr_eq_0; lia|lia].
Qed.

Lemma binary_round_aux_valid s m e l :
  0 < m -> e <= (fexp prec emax) (Zdigits2 m + e) ->
  valid_binary prec emax (binary_round_aux prec emax s m e l) = true.
Proof.
  intros Hm He. unfold binary_round_aux. destruct (shr_fexp _ _ m e l) as [r e'] eqn:E.
  pose proof (shr_fexp_canonical _ _ _ _ _ Hm He E) as Hc.
  set (m2 := round_nearest_even (shr_m r) (loc_of_shr_record r)).
  assert (H2 : shr_m r <= m2 <= shr_m r + 1) by (apply round_even_step; lia).
  destruct (shr_fexp _ _ m2 e' loc_Exact) as [r2 e2] eqn:E2.
  destruct (decide (m2 = 0)) as [Hz|Hnz].
  { rewrite Hz in E2. unfold shr_fexp, shr in E2.
    assert (shr_m r2 = 0) as ->; [|done].
    destruct ((fexp prec emax) _ - e') in E2; injection E2 as <- <-; try done.
    rewrite iter_shr by done. apply Z.div_0_l. lia. }
  assert (Hf : e' <= (fexp prec emax) (Zdigits2 m2 + e')).
  { rewrite Zdigits2_log2, fexp_max by lia. pose proof (Z.log2_nonneg m2).
    destruct Hc as [[? ->]|[Hp Hc]]; [lia|].
    rewrite Zdigits2_log2, fexp_max in Hc by lia.
    assert (Z.log2 (shr_m r) <= Z.log2 m2) by (apply Z.log2_le_mono; lia). lia. }
  destruct (shr_fexp_canonical m2 _ _ _ _ ltac:(lia) Hf E2) as [[-> _]|[Hp Hc2]]; [done|].
  destruct (shr_m r2) as [|p|p]; [done| |done]. destruct (Z.leb_spec e2 (emax - prec)) as [Hle|]; [|done].
  unfold valid_binary, bounded, canonical_mantissa.
  apply andb_true_intro. split; [apply Z.eqb_eq, Hc2|by apply Z.leb_le].
Qed.

Lemma binary_round_valid s m e : valid_binary prec emax (binary_round prec emax s m e) = true.
Proof.
  unfold binary_round, shl_align.
  set (x := (fexp prec emax) (Z.pos (digits2_pos m) + e)).
  assert (Hx : x = Z.max (Z.log2 (Z.pos m) + 1 + e - prec) (3 - emax - prec)) by (subst x; by rewrite digits2_log2).
  destruct (x - e) as [|d|d] eqn:E; apply binary_round_aux_valid; try lia.
  1,2: change (Zdigits2 (Z.pos m)) with (Z.pos (digits2_pos m)); fold x; lia.
  rewrite Zdigits2_log2, iter_xO, Z.log2_mul_pow2, fexp_max by lia. lia.
Qed.

Lemma binary_normalize_valid m e s : valid_binary prec emax (binary_normalize prec emax m e s) = true.
Proof. destruct m; [done|apply binary_round_valid..]. Qed.

End Rounding.

Abbreviation fexp64 := (fexp f64_prec f64_emax).

Lemma fexp64_max e : fexp64 e = Z.max (e - 53) (-1074).
Proof. reflexivity. Qed.

Lemma f64_of_Z_valid z : f64_valid (f64_of_Z z) = true.
Proof. by apply binary_normalize_valid. Qed.

Lemma f64_of_decimal_valid m e : f64_valid (f64_of_decimal m e) = true.
Proof.
  unfold f64_of_decimal. destruct (m =? 0); [done|]. destruct (0 <=? e); [apply f64_of_Z_valid|].
  by apply binary_normalize_valid.
Qed.

(** ** Bit patterns *)

(** Sign, exponent field of [ew] bits and fraction of [mw] bits of a pattern built from them. *)
Lemma fields_of_bits ew mw (s : bool) ex f :
  0 < ew -> 0 < mw -> 0 <= ex < 2 ^ ew -> 0 <= f < 2 ^ mw ->
  let b := (if s then 2 ^ (ew + mw) else 0) + ex * 2 ^ mw + f in
  Z.testbit b (ew + mw) = s /\ Z.land (Z.shiftr b mw) (Z.ones ew) = ex /\ Z.land b (Z.ones mw) = f.
Proof.
  intros Hew Hmw He Hf b. pose proof (Z.pow_pos_nonneg 2 ew). pose proof (Z.pow_pos_nonneg 2 mw).
  assert (Hb : b = (Z.b2z s * 2 ^ ew + ex) * 2 ^ mw + f).
  { subst b. rewrite Z.pow_add_r by lia. destruct s; cbn [Z.b2z]; ring. }
  assert (Hr : 0 <= ex * 2 ^ mw + f < 2 ^ ew * 2 ^ mw) by nia.
  rewrite Z.testbit_eqb, !Z.land_ones, Z.shiftr_div_pow2, Z.pow_add_r, Hb by lia. split_and!.
  - replace ((Z.b2z s * 2 ^ ew + ex) * 2 ^ mw + f)
      with (Z.b2z s * (2 ^ ew * 2 ^ mw) + (ex * 2 ^ mw + f)) by ring.
    rewrite Z.div_add_l, (Z.div_small (ex * _ + _)) by lia. by destruct s.
  - rewrite Z.div_add_l, (Z.div_small f), Z.add_0_r, Z.add_comm, Z.mod_add by lia.
    by apply Z.mod_small.
  - rewrite Z.add_comm, Z.mod_add by lia. by apply Z.mod_small.
Qed.

Lemma valid_cases s m e : f64_valid (S754_finite s m e) = true ->
  (Z.pos m < 2 ^ 52 /\ e = -1074) \/ (2 ^ 52 <= Z.pos m < 2 ^ 53 /\ -1074 <= e <= 971).
Proof.
  unfold f64_valid, valid_binary, bounded, canonical_mantissa.
  intros [Hc%Z.eqb_eq Hb%Z.leb_le]%andb_prop. rewrite digits2_log2, fexp64_max in Hc.
  pose proof (Z.log2_spec (Z.pos m) ltac:(lia)) as [Hl Hh]. pose proof (Z.log2_nonneg (Z.pos m)).
  destruct (Z.lt_ge_cases (Z.log2 (Z.pos m)) 52) as [Hlt|Hge].
  - left. split; [|lia]. eapply Z.lt_le_trans; [exact Hh|]. apply Z.pow_le_mono_r; lia.
  - right. assert (Z.log2 (Z.pos m) = 52) as E by lia. rewrite E in *. lia.
Qed.

Ltac f64_fields :=
  change (11 + 52) with 63 in *; change (Z.ones 11) with 0x7FF in *;
  change (Z.ones 52) with (2 ^ 52 - 1) in *.

(** A canonical double is read back from its bits. *)
Lemma f64_bits_round_trip a : f64_valid a = true -> f64_of_bits (f64_to_bits a) = a.
Proof.
  destruct a as [s|s| |s m e]; intros Hv; [by destruct s|by destruct s|done|].
  apply valid_cases in Hv. unfold f64_to_bits. destruct (Z.ltb_spec (Z.pos m) (2 ^ 52)) as [Hlt|Hge].
  - assert (e = -1074) as -> by lia.
    destruct (fields_of_bits 11 52 s 0 (Z.pos m)) as (Hs & He & Hm); [lia..|].
    rewrite Z.mul_0_l, Z.add_0_r in Hs, He, Hm. f64_fields. unfold f64_of_bits. rewrite Hs, He, Hm. done.
  - destruct (fields_of_bits 11 52 s (e + 1075) (Z.pos m - 2 ^ 52)) as (Hs & He & Hm); [lia..|].
    f64_fields. unfold f64_of_bits. rewrite Hs, He, Hm.
    destruct (Z.eqb_spec (e + 1075) 0x7FF); [lia|]. destruct (Z.eqb_spec (e + 1075) 0); [lia|].
    replace (Z.pos m - 2 ^ 52 + 2 ^ 52) with (Z.pos m) by lia. f_equal. lia.
Qed.

Lemma f64_to_bits_range a : f64_valid a = true -> 0 <= f64_to_bits a < 2 ^ 64.
Proof.
  destruct a as [s|s| |s m e]; intros Hv; [by destruct s|by destruct s|done|].
  apply valid_cases in Hv. unfold f64_to_bits. destruct s, (Z.ltb_spec (Z.pos m) (2 ^ 52)); lia.
Qed.

(** ** Canonical results *)

Lemma f64_of_bits_valid b : f64_valid (f64_of_bits b) = true.
Proof.
  assert (Hv : forall s m e, (Z.pos m < 2 ^ 52 /\ e = -1074) \/
                (2 ^ 52 <= Z.pos m < 2 ^ 53 /\ -1074 <= e <= 971) ->
              f64_valid (S754_finite s m e) = true).
  { intros s m e H. unfold f64_valid, valid_binary, bounded, canonical_mantissa.
    rewrite digits2_log2, fexp_max.
    pose proof (Z.log2_nonneg (Z.pos m)). apply andb_true_intro. split; [apply Z.eqb_eq|apply Z.leb_le; lia].
    destruct H as [[Hm ->]|[Hm He]].
    - apply Z.log2_lt_pow2 in Hm; lia.
    - assert (Z.log2 (Z.pos m) = 52); [|lia]. apply Z.log2_unique; lia. }
  unfold f64_of_bits.
  assert (He : 0 <= Z.land (Z.shiftr b 52) 0x7FF < 2 ^ 11).
  { change 0x7FF with (Z.ones 11). rewrite Z.land_ones by lia. by apply Z.mod_pos_bound. }
  assert (Hm : 0 <= Z.land b (2 ^ 52 - 1) < 2 ^ 52).
  { replace (2 ^ 52 - 1) with (Z.ones 52) by reflexivity. rewrite Z.land_ones by lia. by apply Z.mod_pos_bound. }
  destruct (Z.eqb_spec (Z.land (Z.shiftr b 52) 0x7FF) 0x7FF); [by case_match|].
  destruct (Z.eqb_spec (Z.land (Z.shiftr b 52) 0x7FF) 0).
  - destruct (Z.land b (2 ^ 52 - 1)); [done| |done]. apply Hv. lia.
  - destruct (Z.land b (2 ^ 52 - 1) + 2 ^ 52) eqn:E; [done| |done]. apply Hv. lia.
Qed.

Lemma f64_opp_valid a : f64_valid (f64_opp a) = f64_valid a.
Proof. by destruct a. Qed.

(** The exact product has at least the bits either factor is short of. *)
Lemma f64_mul_valid a b : f64_valid a = true -> f64_valid b = true -> f64_valid (f64_mul a b) = true.
Proof.
  destruct a as [| | |s m e], b as [| | |s' m' e']; try done. intros Ha%valid_cases Hb%valid_cases.
  unfold f64_mul, SFmul. apply binary_round_aux_valid; [done|lia|].
  rewrite Pos2Z.inj_mul, Zdigits2_log2, fexp_max by lia.
  pose proof (Z.log2_nonneg (Z.pos m * Z.pos m')).
  destruct (decide (2 ^ 52 <= Z.pos m * Z.pos m')) as [Hge|Hlt].
  - assert (52 <= Z.log2 (Z.pos m * Z.pos m')) by (apply Z.log2_le_pow2; lia). lia.
  - assert (Z.pos m < 2 ^ 52 /\ Z.pos m' < 2 ^ 52) by nia. lia.
Qed.
