(* ===== verification/Strtod.v ===== *)
(** * Reading a number

    [epics-libcom-rs/src/runtime/stdlib.rs]: C's [strtod] as the workspace ports it, with the
    hexadecimal significand accumulated in a 64-bit word, and [epicsParseDouble] over it.
    Text is its bytes.  The decimal path hands its text to [str::parse], whose result is the
    nearest double ([f64_of_decimal]). *)
From Stdlib Require Import SpecFloat.
From stdpp Require Import base tactics numbers list option strings.
From S2P Require Import Prelude Float64.

Open Scope Z_scope.

(** C's [isspace]: space, tab, newline, vertical tab, form feed, carriage return. *)
Definition c_isspace (c : Z) : bool :=
  (c =? 32) || (c =? 9) || (c =? 10) || (c =? 11) || (c =? 12) || (c =? 13).

Definition is_ascii_digit (b : Z) : bool := (48 <=? b) && (b <=? 57).
Definition is_ascii_uppercase (b : Z) : bool := (65 <=? b) && (b <=? 90).
Definition is_ascii_lowercase (b : Z) : bool := (97 <=? b) && (b <=? 122).
Definition to_ascii_uppercase (b : Z) : Z := if is_ascii_lowercase b then b - 32 else b.
Definition to_ascii_lowercase (b : Z) : Z := if is_ascii_uppercase b then b + 32 else b.
Definition is_ascii_hexdigit (b : Z) : bool :=
  is_ascii_digit b || ((65 <=? b) && (b <=? 70)) || ((97 <=? b) && (b <=? 102)).
Definition is_ascii_alphanumeric (b : Z) : bool :=
  is_ascii_digit b || is_ascii_uppercase b || is_ascii_lowercase b.

(** The ASCII text of a literal of the program. *)
Fixpoint ascii_bytes (s : string) : list Z :=
  match s with
  | String.EmptyString => []
  | String.String c s => Z.of_N (Ascii.N_of_ascii c) :: ascii_bytes s
  end.

Definition eq_ignore_ascii_case (a b : list Z) : bool :=
  bool_decide (to_ascii_lowercase <$> a = to_ascii_lowercase <$> b).

Definition starts_ci (s word : list Z) : bool :=
  (length word <=? length s)%nat && eq_ignore_ascii_case (take (length word) s) word.

Definition sat_i32 (x : Z) : Z := Z.max (- 2 ^ 31) (Z.min (2 ^ 31 - 1) x).

(** ** The hexadecimal significand *)

Record HexSignificand : Type := mkHexSignificand {
  hex_m : Z;
  hex_e2 : Z;
  hex_sticky : bool;
}.

Definition HexSignificand_new : HexSignificand := mkHexSignificand 0 0 false.

Definition push_digit (h : HexSignificand) (digit : Z) (fractional : bool) : HexSignificand :=
  if Z.shiftr (hex_m h) 60 =? 0 then
    mkHexSignificand (Z.lor (wrap 64 (Z.shiftl (hex_m h) 4)) digit)
      (if fractional then sat_i32 (hex_e2 h - 4) else hex_e2 h) (hex_sticky h)
  else
    mkHexSignificand (hex_m h)
      (if fractional then hex_e2 h else sat_i32 (hex_e2 h + 4))
      (hex_sticky h || negb (digit =? 0)).

Definition apply_binary_exponent (h : HexSignificand) (exp : Z) : HexSignificand :=
  mkHexSignificand (hex_m h) (sat_i32 (hex_e2 h + exp)) (hex_sticky h).

Definition pow2 (k : Z) : f64 :=
  if -1022 <=? k then f64_of_bits (Z.shiftl (k + 1023) 52)
  else f64_of_bits (Z.shiftl 1 (k + 1074)).

Definition leading_zeros (m : Z) : Z := if m =? 0 then 64 else 63 - Z.log2 m.

(** The value rounded, and [errno == ERANGE]. *)
Definition hex_to_f64 (h : HexSignificand) : f64 * bool :=
  let m := hex_m h in
  if m =? 0 then (f64_zero, false)
  else
    let shift := leading_zeros m in
    let mm := wrap 64 (Z.shiftl m shift) in
    let e := hex_e2 h + 63 - shift in
    if 1023 <? e then (S754_infinity false, true)
    else
      let tiny := e <? -1022 in
      let keep := if tiny then e + 1075 else 53 in
      if keep <=? 0 then
        let round_up := (keep =? 0) && (negb (mm =? Z.shiftl 1 63) || hex_sticky h) in
        if round_up then (pow2 (-1074), true) else (f64_zero, true)
      else
        let drop := 64 - keep in
        let kept := Z.shiftr mm drop in
        let rest := Z.land mm (Z.shiftl 1 drop - 1) in
        let half := Z.shiftl 1 (drop - 1) in
        let inexact := negb (rest =? 0) || hex_sticky h in
        let round_up := (half <? rest) || ((rest =? half) && (hex_sticky h || (Z.land kept 1 =? 1))) in
        let value := f64_mul (f64_of_Z (kept + (if round_up then 1 else 0))) (pow2 (e - keep + 1)) in
        (value, f64_is_infinite value || (tiny && inexact)).

Definition hex_val (c : Z) : Z :=
  if is_ascii_digit c then c - 48 else Z.lor c 0x20 - 97 + 10.

(** ** The scanner *)

Fixpoint span (f : Z -> bool) (s : list Z) : list Z * list Z :=
  match s with
  | [] => ([], [])
  | b :: rest => if f b then let '(a, c) := span f rest in (b :: a, c) else ([], s)
  end.

(** The digits of a C exponent, [exp.saturating_mul(10).saturating_add(d)]. *)
Definition sat_decimal (digits : list Z) : Z :=
  foldl (fun exp d => sat_i32 (sat_i32 (exp * 10) + (d - 48))) 0 digits.

(** [e]/[p], an optional sign, then at least one digit: the value and how far it runs. *)
Definition exponent (s : list Z) : option (Z * nat) :=
  let '(negative, sign, rest) :=
    match drop 1 s with
    | b :: rest => if b =? 45 then (true, 1%nat, rest)
                   else if b =? 43 then (false, 1%nat, rest) else (false, O, b :: rest)
    | [] => (false, O, [])
    end in
  match fst (span is_ascii_digit rest) with
  | [] => None
  | digits =>
      let exp := sat_decimal digits in
      Some (if negative : bool then - exp else exp, (1 + sign + length digits)%nat)
  end.

Definition ranged_out (value : f64) (nonzero : bool) : bool :=
  nonzero && (f64_is_infinite value || f64_ltb (f64_abs value) (pow2 (-1022))).

Definition nan_char_sequence (s : list Z) : nat :=
  match s with
  | b :: rest =>
      if b =? 40 then
        let '(inside, after) := span (fun b => negb (b =? 41)) rest in
        match after with
        | _ :: _ =>
            if forallb (fun b => is_ascii_alphanumeric b || (b =? 95)) inside
            then S (S (length inside)) else O
        | [] => O
        end
      else O
  | [] => O
  end.

Definition hex (s : list Z) : f64 * nat * bool :=
  let '(whole, rest) := span is_ascii_hexdigit (drop 2 s) in
  let sig := foldl (fun h d => push_digit h (hex_val d) false) HexSignificand_new whole in
  let i := (2 + length whole)%nat in
  let '(sig, i, rest) :=
    match rest with
    | b :: rest' =>
        if b =? 46 then
          let '(frac, rest') := span is_ascii_hexdigit rest' in
          (foldl (fun h d => push_digit h (hex_val d) true) sig frac,
           (i + 1 + length frac)%nat, rest')
        else (sig, i, rest)
    | [] => (sig, i, rest)
    end in
  let '(sig, i) :=
    match rest with
    | b :: _ =>
        if Z.lor b 0x20 =? 112 then
          match exponent rest with
          | Some (exp, n) => (apply_binary_exponent sig exp, (i + n)%nat)
          | None => (sig, i)
          end
        else (sig, i)
    | [] => (sig, i)
    end in
  let '(value, erange) := hex_to_f64 sig in
  (value, i, erange).

(** The integer a run of decimal digits spells. *)
Definition digits_value (l : list Z) : Z := foldl (fun n d => n * 10 + (d - 48)) 0 l.

(** The exponent [str::parse] reads; it does not saturate. *)
Definition parsed_exponent (s : list Z) : Z :=
  match drop 1 s with
  | b :: rest =>
      if b =? 45 then - digits_value (fst (span is_ascii_digit rest))
      else digits_value (fst (span is_ascii_digit (if b =? 43 then rest else b :: rest)))
  | [] => 0
  end.

Definition decimal (s : list Z) : option (f64 * nat * bool) :=
  let '(whole, rest) := span is_ascii_digit s in
  let '(frac, rest, i) :=
    match rest with
    | b :: rest' =>
        if b =? 46 then
          let '(frac, rest') := span is_ascii_digit rest' in
          (frac, rest', (length whole + 1 + length frac)%nat)
        else ([], rest, length whole)
    | [] => ([], rest, length whole)
    end in
  match whole ++ frac with
  | [] => None
  | digits =>
      let '(exp, i) :=
        match rest with
        | b :: _ =>
            if Z.lor b 0x20 =? 101 then
              match exponent rest with
              | Some (_, n) => (parsed_exponent rest, (i + n)%nat)
              | None => (0, i)
              end
            else (0, i)
        | [] => (0, i)
        end in
      let value := f64_of_decimal (digits_value digits) (exp - len frac) in
      Some (value, i, ranged_out value (existsb (fun d => negb (d =? 48)) digits))
  end.

(** The unsigned part, its length, and ERANGE. *)
Definition magnitude (s : list Z) : option (f64 * nat * bool) :=
  if starts_ci s (ascii_bytes "inf") then
    Some (S754_infinity false, if starts_ci s (ascii_bytes "infinity") then 8%nat else 3%nat, false)
  else if starts_ci s (ascii_bytes "nan") then
    Some (S754_nan, (3 + nan_char_sequence (drop 3 s))%nat, false)
  else
    let hex_digit_at k := from_option is_ascii_hexdigit false (s !! k) in
    match s with
    | z :: x :: c :: _ =>
        if (z =? 48) && (Z.lor x 0x20 =? 120) &&
           (hex_digit_at 2%nat || ((c =? 46) && hex_digit_at 3%nat))
        then Some (hex s) else decimal s
    | _ => decimal s
    end.

Record Strtod : Type := mkStrtod {
  std_value : f64;
  std_len : nat;
  std_erange : bool;
}.

Definition strtod (s : list Z) : Strtod :=
  let '(space, rest) := span c_isspace s in
  let '(negative, i, rest) :=
    match rest with
    | b :: rest' => if b =? 45 then (true, S (length space), rest')
                    else if b =? 43 then (false, S (length space), rest')
                    else (false, length space, rest)
    | [] => (false, length space, rest)
    end in
  match magnitude rest with
  | None => mkStrtod f64_zero 0 false
  | Some (m, n, erange) => mkStrtod (if negative : bool then f64_opp m else m) (i + n) erange
  end.

Inductive ParseDoubleError : Type := NoConversion | ParseOverflow | ParseUnderflow | Extraneous.

Definition epics_parse_double_units (s : list Z) : result ParseDoubleError (f64 * list Z) :=
  let r := strtod s in
  if (std_len r =? 0)%nat then Err NoConversion
  else if std_erange r then
    Err (if f64_eqb (std_value r) f64_zero then ParseUnderflow else ParseOverflow)
  else Ok (std_value r, snd (span c_isspace (drop (std_len r) s))).

Definition epics_parse_double (s : list Z) : result ParseDoubleError f64 :=
  '(v, rest) ← epics_parse_double_units s;
  match rest with [] => Ok v | _ => Err Extraneous end.

Definition epics_scan_double (s : list Z) : option f64 :=
  match epics_parse_double s with Ok v => Some v | Err _ => None end.
