(* ===== verification/CalcOps.v ===== *)
(** * Calculation engine: opcodes, tokens, errors

    [epics-base-rs/src/calc/engine]: the instruction set of the three dialects
    ([opcodes.rs]), the compile and run errors with their C codes ([error.rs]), the lexical
    elements ([token.rs]) and the dialect tag ([mod.rs]).  A constructor [CoreOp::Add] of the
    source is [CoreOp.Add] here. *)
From Stdlib Require Import SpecFloat.
From stdpp Require Import base tactics numbers list option strings.
From S2P Require Import Prelude Float64.

Open Scope Z_scope.

(** The three compilers: base [calc], synApps [sCalc] and [aCalc]. *)
Inductive ExprKind : Type := Numeric | StringKind | ArrayKind.

#[export] Instance ExprKind_eq_dec : EqDecision ExprKind.
Proof. solve_decision. Defined.

(** [CalcError]. *)
Module CalcError.
Inductive t : Type :=
| TooMany | BadLiteral | ParenNotOpen | ParenOpen | Conditional | Incomplete | Underflow
| Overflow | Syntax | NullArg | Internal | DivisionByZero | BadSeparator | BadAssignment
| TypeMismatch | InvalidFormat | EmptyArray | InvalidSubrange | BracketNotOpen
| BraceNotOpen | DomainError | EmptyProgram | FitFailed | StackLeak.
#[global] Instance eq_dec : EqDecision t.
Proof. solve_decision. Defined.
End CalcError.

(** [CoreOp]: what the three dialects share. *)
Module CoreOp.
Inductive t : Type :=
| PushConst (x : f64)
| PushVar (x : Z)
| PushDoubleVar (x : Z)
| Add | Sub | Mul | Div | Mod | Neg | Power | Eq | Ne | Lt | Le | Gt | Ge | And | Or | Not
| BitAnd | BitOr | BitXor | BitNot | Shl | Shr | ShrLogical | CondIf | CondElse | CondEnd
| Abs | Sqrt | Exp | Log10 | LogE | Sin | Cos | Tan | Asin | Acos | Atan | Sinh | Cosh
| Tanh | Ceil | Floor | Nint
| IsNan (x : Z)
| IsInf
| Finite (x : Z)
| Atan2 | Fmod
| Max (x : Z)
| Min (x : Z)
| MaxVal | MinVal | Pi | D2R | R2D | S2R | R2S | Random | NormalRandom | FetchVal
| FetchSval
| StoreVar (x : Z)
| StoreDoubleVar (x : Z)
| End.
#[global] Instance eq_dec : EqDecision t.
Proof. solve_decision. Defined.
End CoreOp.

(** [StringOp]: sCalc. *)
Module StringOp.
Inductive t : Type :=
| PushString (at_ : Z) (n : Z)
| ToString | ToDouble | Len | Byte | TrEsc | Esc | Printf | Sscanf | BinRead | BinWrite
| Crc16 | Crc16Append | Lrc | LrcAppend | Xor8 | Xor8Append | Subrange | Replace | SubLast
| DynFetch | DynSFetch | DynStore | DynSStore.
#[global] Instance eq_dec : EqDecision t.
Proof. solve_decision. Defined.
End StringOp.

(** [ControlOp]: loops. *)
Module ControlOp.
Inductive t : Type :=
| Until | UntilEnd | NotGenerated.
#[global] Instance eq_dec : EqDecision t.
Proof. solve_decision. Defined.
End ControlOp.

(** [ArrayOp]: aCalc. *)
Module ArrayOp.
Inductive t : Type :=
| ConstIndex | ToArray | ToDouble | Average | StdDev | Fwhm | ArraySum | ArrayMax
| ArrayMin | IndexMax | IndexMin | IndexZero | IndexNonZero | Smooth | NSmooth | Deriv
| NDeriv | Cum | Cat | ArrayRandom | ArraySubrange | ArraySubrangeInPlace | FitPoly
| FitMPoly
| FitQ (x : Z)
| FitMQ (x : Z)
| ANeg | APos | FetchAval | DynFetch | DynAFetch | DynStore | DynAStore | LenNoop.
#[global] Instance eq_dec : EqDecision t.
Proof. solve_decision. Defined.
End ArrayOp.

(** [Opcode]. *)
Module Opcode.
Inductive t : Type :=
| Core (x : CoreOp.t)
| String (x : StringOp.t)
| Control (x : ControlOp.t)
| Array (x : ArrayOp.t).
#[global] Instance eq_dec : EqDecision t.
Proof. solve_decision. Defined.
End Opcode.

(** [FuncName]. *)
Module FuncName.
Inductive t : Type :=
| Abs | Sqrt | Sqr | Exp | Log10 | LogE | Ln | Sin | Cos | Tan | Asin | Acos | Atan | Atan2
| Fmod | Sinh | Cosh | Tanh | Ceil | Floor | Nint | Int | IsNan | IsInf | Finite | Max
| Min | Not | Dbl | Str | Len | Byte | TrEsc | Esc | ANeg | APos | DynFetch | DynAFetch
| SDynFetch | SDynSFetch | ALenNoop | Printf | Sscanf | BinRead | BinWrite | Crc16 | ModBus
| Lrc | AModBus | Xor8 | AddXor8 | Avg | Std | FwhmFunc | Sum | AMax | AMin | IxMax | IxMin
| IxZ | IxNz | Arr | AToD | Smoo | NSmoo | Deriv | NDeriv | FitPoly | FitMPoly | FitQ
| FitMQ | Cum | Cat.
#[global] Instance eq_dec : EqDecision t.
Proof. solve_decision. Defined.
End FuncName.

(** [ConstName]. *)
Module ConstName.
Inductive t : Type :=
| Pi | D2R | R2D | S2R | R2S.
#[global] Instance eq_dec : EqDecision t.
Proof. solve_decision. Defined.
End ConstName.

(** [Token]. *)
Module Token.
Inductive t : Type :=
| Number (x : f64)
| Var (x : Z)
| DoubleVar (x : Z)
| Rndm | Nrndm | FetchVal | FetchSval
| StringLiteral (x : list Z)
| Plus | Minus | FetchAval | ConstIx | ARndm | Star | Slash | Percent | Caret | DoubleStar
| Eq | Ne | Lt | Le | Gt | Ge | AndAnd | OrOr | BitAnd | BitOr | BitXor | Tilde | Shl | Shr
| ShrLogical | Bang | Question | Colon | LParen | RParen | Comma | Semicolon | LBracket
| RBracket | LBrace | RBrace | PipeMinus
| Func (x : FuncName.t)
| Const (x : ConstName.t)
| Assign | MaxOp | MinOp | UntilKeyword.
#[global] Instance eq_dec : EqDecision t.
Proof. solve_decision. Defined.
End Token.

(** [CalcError::code]: the [CALC_ERR_*] number. *)
Definition error_code (e : CalcError.t) : Z :=
  match e with
  | CalcError.TooMany | CalcError.StackLeak => 1
  | CalcError.BadLiteral => 2
  | CalcError.BadAssignment => 3
  | CalcError.BadSeparator => 4
  | CalcError.ParenNotOpen => 5
  | CalcError.ParenOpen => 6
  | CalcError.Conditional => 7
  | CalcError.Incomplete => 8
  | CalcError.Underflow => 9
  | CalcError.Overflow => 10
  | CalcError.Syntax | CalcError.DivisionByZero | CalcError.TypeMismatch
  | CalcError.InvalidFormat | CalcError.EmptyArray | CalcError.InvalidSubrange
  | CalcError.DomainError | CalcError.FitFailed => 11
  | CalcError.NullArg | CalcError.EmptyProgram => 12
  | CalcError.Internal => 13
  | CalcError.BracketNotOpen => 14
  | CalcError.BraceNotOpen => 15
  end.

Definition ERR_STRS : list string :=
  ["No error"; "Too many results returned"; "Badly formed numeric literal";
   "Bad assignment target"; "Comma without enclosing parentheses";
   "Close parenthesis found without open"; "Parenthesis still open at end of expression";
   "Unbalanced conditional ?: operators"; "Incomplete expression, operand missing";
   "Not enough operands provided"; "Runtime stack overflow";
   "Syntax error, unknown operator/operand"; "NULL or empty input argument to postfix()";
   "Internal error, unknown element type"]%string.

Definition calc_error_str (error : Z) : option string :=
  if (0 <=? error) && (error <=? 13) then ERR_STRS !! Z.to_nat error else None.

(** Where a [:=] is accepted, and its in-stack priority. *)
Inductive StoreRule : Type := TopLevel | Anywhere.

Definition store_in_stack_pri (r : StoreRule) : Z :=
  match r with TopLevel => 0 | Anywhere => 1 end.

(** What a [;] does. *)
Inductive Terminator : Type := Statement | FlushOnly.

(** Which literal reader a dialect has. *)
Inductive LiteralReader : Type := ParseDouble | StrtodReader.
