(* ===== verification/CalcLex.v ===== *)
(** * Calculation engine: the element tables and the lexer

    [epics-base-rs/src/calc/engine/token.rs].  Each dialect has its own table of elements, in
    the two lists C searches: [operands] while an operand is needed, [operators] after one.
    The lexer's position is the text that is left. *)
From Stdlib Require Import SpecFloat.
From stdpp Require Import base tactics numbers list option strings.
From S2P Require Import Prelude Float64 Strtod CalcOps.

Open Scope Z_scope.

Record ElementTable : Type := mkElementTable {
  operands : list (list Z * Token.t);
  operators : list (list Z * Token.t);
  last_var : Z;
  last_double_var : option Z;
  string_literals : bool;
  literal_words : list (list Z);
  literals : LiteralReader;
  stack_size : Z;
  terminator : Terminator;
  store : StoreRule;
}.

(** The bytes of an element's name. *)
Definition element (e : string * Token.t) : list Z * Token.t := (ascii_bytes (fst e), snd e).

Definition INF_NAN : list (list Z) := [ascii_bytes "INF"; ascii_bytes "NAN"].

Open Scope string_scope.

Definition BASE_OPERANDS : list (string * Token.t) :=
  [("ABS", Token.Func FuncName.Abs); ("ACOS", Token.Func FuncName.Acos);
   ("ASIN", Token.Func FuncName.Asin); ("ATAN", Token.Func FuncName.Atan);
   ("ATAN2", Token.Func FuncName.Atan2); ("CEIL", Token.Func FuncName.Ceil);
   ("COS", Token.Func FuncName.Cos); ("COSH", Token.Func FuncName.Cosh);
   ("D2R", Token.Const ConstName.D2R); ("EXP", Token.Func FuncName.Exp);
   ("FINITE", Token.Func FuncName.Finite); ("FLOOR", Token.Func FuncName.Floor);
   ("FMOD", Token.Func FuncName.Fmod); ("ISINF", Token.Func FuncName.IsInf);
   ("ISNAN", Token.Func FuncName.IsNan); ("LN", Token.Func FuncName.Ln);
   ("LOG", Token.Func FuncName.Log10); ("LOGE", Token.Func FuncName.LogE);
   ("MAX", Token.Func FuncName.Max); ("MIN", Token.Func FuncName.Min);
   ("NINT", Token.Func FuncName.Nint); ("NOT", Token.Func FuncName.Not);
   ("PI", Token.Const ConstName.Pi); ("R2D", Token.Const ConstName.R2D); ("RNDM", Token.Rndm);
   ("SIN", Token.Func FuncName.Sin); ("SINH", Token.Func FuncName.Sinh);
   ("SQR", Token.Func FuncName.Sqr); ("SQRT", Token.Func FuncName.Sqrt);
   ("TAN", Token.Func FuncName.Tan); ("TANH", Token.Func FuncName.Tanh);
   ("VAL", Token.FetchVal); ("(", Token.LParen); ("-", Token.Minus); ("!", Token.Bang);
   ("~", Token.Tilde)].

Definition BASE_OPERATORS : list (string * Token.t) :=
  [("AND", Token.BitAnd); ("OR", Token.BitOr); ("XOR", Token.BitXor); ("!=", Token.Ne);
   ("#", Token.Ne); ("%", Token.Percent); ("&", Token.BitAnd); ("&&", Token.AndAnd);
   (")", Token.RParen); ("*", Token.Star); ("**", Token.DoubleStar); ("+", Token.Plus);
   (",", Token.Comma); ("-", Token.Minus); ("/", Token.Slash); (":", Token.Colon);
   (":=", Token.Assign); (";", Token.Semicolon); ("<", Token.Lt); ("<<", Token.Shl);
   ("<=", Token.Le); ("=", Token.Eq); ("==", Token.Eq); (">", Token.Gt); (">=", Token.Ge);
   (">>", Token.Shr); (">>>", Token.ShrLogical); ("?", Token.Question); ("^", Token.Caret);
   ("|", Token.BitOr); ("||", Token.OrOr)].

Definition BASE_TABLE : ElementTable :=
  mkElementTable (element <$> BASE_OPERANDS) (element <$> BASE_OPERATORS)
    20 None false INF_NAN ParseDouble 80 Statement TopLevel.

Definition SCALC_OPERANDS : list (string * Token.t) :=
  [("ABS", Token.Func FuncName.Abs); ("ACOS", Token.Func FuncName.Acos);
   ("ADD_XOR8", Token.Func FuncName.AddXor8); ("AMODBUS", Token.Func FuncName.AModBus);
   ("ASIN", Token.Func FuncName.Asin); ("ATAN", Token.Func FuncName.Atan);
   ("ATAN2", Token.Func FuncName.Atan2); ("BYTE", Token.Func FuncName.Byte);
   ("CEIL", Token.Func FuncName.Ceil); ("COS", Token.Func FuncName.Cos);
   ("COSH", Token.Func FuncName.Cosh); ("CRC16", Token.Func FuncName.Crc16);
   ("DBL", Token.Func FuncName.Dbl); ("D2R", Token.Const ConstName.D2R);
   ("ESC", Token.Func FuncName.Esc); ("$E", Token.Func FuncName.Esc);
   ("$P", Token.Func FuncName.Printf); ("$R", Token.Func FuncName.BinRead);
   ("$S", Token.Func FuncName.Sscanf); ("$T", Token.Func FuncName.TrEsc);
   ("$W", Token.Func FuncName.BinWrite); ("EXP", Token.Func FuncName.Exp);
   ("FINITE", Token.Func FuncName.Finite); ("FLOOR", Token.Func FuncName.Floor);
   ("INT", Token.Func FuncName.Int); ("ISINF", Token.Func FuncName.IsInf);
   ("ISNAN", Token.Func FuncName.IsNan); ("LEN", Token.Func FuncName.Len);
   ("LN", Token.Func FuncName.Ln); ("LOG", Token.Func FuncName.Log10);
   ("LOGE", Token.Func FuncName.LogE); ("LRC", Token.Func FuncName.Lrc);
   ("MAX", Token.Func FuncName.Max); ("MIN", Token.Func FuncName.Min);
   ("MODBUS", Token.Func FuncName.ModBus); ("NINT", Token.Func FuncName.Nint);
   ("NOT", Token.Func FuncName.Not); ("NRNDM", Token.Nrndm); ("PI", Token.Const ConstName.Pi);
   ("PRINTF", Token.Func FuncName.Printf); ("R2D", Token.Const ConstName.R2D);
   ("R2S", Token.Const ConstName.R2S); ("S2R", Token.Const ConstName.S2R);
   ("READ", Token.Func FuncName.BinRead); ("RNDM", Token.Rndm);
   ("SIN", Token.Func FuncName.Sin); ("SINH", Token.Func FuncName.Sinh);
   ("SQR", Token.Func FuncName.Sqr); ("SQRT", Token.Func FuncName.Sqrt);
   ("SSCANF", Token.Func FuncName.Sscanf); ("STR", Token.Func FuncName.Str);
   ("SVAL", Token.FetchSval); ("@", Token.Func FuncName.SDynFetch);
   ("@@", Token.Func FuncName.SDynSFetch); ("TAN", Token.Func FuncName.Tan);
   ("TANH", Token.Func FuncName.Tanh); ("TR_ESC", Token.Func FuncName.TrEsc);
   ("UNTIL", Token.UntilKeyword); ("VAL", Token.FetchVal);
   ("WRITE", Token.Func FuncName.BinWrite); ("XOR8", Token.Func FuncName.Xor8);
   ("(", Token.LParen); ("-", Token.Minus); ("!", Token.Bang); ("~", Token.Tilde)].

Definition SCALC_OPERATORS : list (string * Token.t) :=
  [("AND", Token.BitAnd); ("OR", Token.BitOr); ("XOR", Token.BitXor); ("!=", Token.Ne);
   ("#", Token.Ne); ("%", Token.Percent); ("&", Token.BitAnd); ("&&", Token.AndAnd);
   (")", Token.RParen); ("[", Token.LBracket); ("]", Token.RBracket); ("{", Token.LBrace);
   ("}", Token.RBrace); ("*", Token.Star); ("**", Token.DoubleStar); ("+", Token.Plus);
   (",", Token.Comma); ("-", Token.Minus); ("/", Token.Slash); (":", Token.Colon);
   (":=", Token.Assign); (";", Token.Semicolon); ("<", Token.Lt); ("<<", Token.Shl);
   ("<=", Token.Le); ("=", Token.Eq); ("==", Token.Eq); (">", Token.Gt); (">=", Token.Ge);
   (">>", Token.Shr); ("?", Token.Question); ("^", Token.Caret); ("|", Token.BitOr);
   ("||", Token.OrOr); ("|-", Token.PipeMinus); ("-|", Token.Minus); (">?", Token.MaxOp);
   ("<?", Token.MinOp)].

Definition SCALC_TABLE : ElementTable :=
  mkElementTable (element <$> SCALC_OPERANDS) (element <$> SCALC_OPERATORS)
    15 (Some 11) true INF_NAN StrtodReader 30 FlushOnly Anywhere.

Definition ACALC_OPERANDS : list (string * Token.t) :=
  [("ABS", Token.Func FuncName.Abs); ("ACOS", Token.Func FuncName.Acos);
   ("AMAX", Token.Func FuncName.AMax); ("AMIN", Token.Func FuncName.AMin);
   ("ARNDM", Token.ARndm); ("ARR", Token.Func FuncName.Arr); ("ASIN", Token.Func FuncName.Asin);
   ("ATAN", Token.Func FuncName.Atan); ("ATAN2", Token.Func FuncName.Atan2);
   ("AVG", Token.Func FuncName.Avg); ("@", Token.Func FuncName.DynFetch);
   ("@@", Token.Func FuncName.DynAFetch); ("AVAL", Token.FetchAval);
   ("ANEG", Token.Func FuncName.ANeg); ("APOS", Token.Func FuncName.APos);
   ("LEN", Token.Func FuncName.ALenNoop); ("CAT", Token.Func FuncName.Cat);
   ("CEIL", Token.Func FuncName.Ceil); ("COS", Token.Func FuncName.Cos);
   ("COSH", Token.Func FuncName.Cosh); ("CUM", Token.Func FuncName.Cum);
   ("DBL", Token.Func FuncName.AToD); ("DERIV", Token.Func FuncName.Deriv);
   ("D2R", Token.Const ConstName.D2R); ("EXP", Token.Func FuncName.Exp);
   ("FINITE", Token.Func FuncName.Finite); ("FITMPOLY", Token.Func FuncName.FitMPoly);
   ("FITMQ", Token.Func FuncName.FitMQ); ("FITPOLY", Token.Func FuncName.FitPoly);
   ("FITQ", Token.Func FuncName.FitQ); ("FLOOR", Token.Func FuncName.Floor);
   ("FWHM", Token.Func FuncName.FwhmFunc); ("INT", Token.Func FuncName.Int);
   ("ISINF", Token.Func FuncName.IsInf); ("ISNAN", Token.Func FuncName.IsNan);
   ("IX", Token.ConstIx); ("IXMAX", Token.Func FuncName.IxMax);
   ("IXMIN", Token.Func FuncName.IxMin); ("IXNZ", Token.Func FuncName.IxNz);
   ("IXZ", Token.Func FuncName.IxZ); ("LN", Token.Func FuncName.Ln);
   ("LOG", Token.Func FuncName.Log10); ("LOGE", Token.Func FuncName.LogE);
   ("MAX", Token.Func FuncName.Max); ("MIN", Token.Func FuncName.Min);
   ("NDERIV", Token.Func FuncName.NDeriv); ("NINT", Token.Func FuncName.Nint);
   ("NOT", Token.Func FuncName.Not); ("NRNDM", Token.Nrndm);
   ("NSMOO", Token.Func FuncName.NSmoo); ("PI", Token.Const ConstName.Pi);
   ("R2D", Token.Const ConstName.R2D); ("R2S", Token.Const ConstName.R2S);
   ("S2R", Token.Const ConstName.S2R); ("RNDM", Token.Rndm); ("SIN", Token.Func FuncName.Sin);
   ("SINH", Token.Func FuncName.Sinh); ("SMOO", Token.Func FuncName.Smoo);
   ("SQR", Token.Func FuncName.Sqr); ("SQRT", Token.Func FuncName.Sqrt);
   ("STD", Token.Func FuncName.Std); ("SUM", Token.Func FuncName.Sum);
   ("TAN", Token.Func FuncName.Tan); ("TANH", Token.Func FuncName.Tanh);
   ("UNTIL", Token.UntilKeyword); ("VAL", Token.FetchVal); ("(", Token.LParen);
   ("-", Token.Minus); ("!", Token.Bang); ("~", Token.Tilde)].

Definition ACALC_OPERATORS : list (string * Token.t) :=
  [("AND", Token.BitAnd); ("OR", Token.BitOr); ("XOR", Token.BitXor); ("!=", Token.Ne);
   ("#", Token.Ne); ("%", Token.Percent); ("&", Token.BitAnd); ("&&", Token.AndAnd);
   (")", Token.RParen); ("[", Token.LBracket); ("]", Token.RBracket); ("{", Token.LBrace);
   ("}", Token.RBrace); ("*", Token.Star); ("**", Token.DoubleStar); ("+", Token.Plus);
   (",", Token.Comma); ("-", Token.Minus); ("/", Token.Slash); (":", Token.Colon);
   (":=", Token.Assign); (";", Token.Semicolon); ("<", Token.Lt); ("<<", Token.Shl);
   ("<=", Token.Le); ("=", Token.Eq); ("==", Token.Eq); (">", Token.Gt); (">=", Token.Ge);
   (">>", Token.Shr); ("?", Token.Question); ("^", Token.Caret); ("|", Token.BitOr);
   ("||", Token.OrOr); (">?", Token.MaxOp); ("<?", Token.MinOp)].

Definition ACALC_TABLE : ElementTable :=
  mkElementTable (element <$> ACALC_OPERANDS) (element <$> ACALC_OPERATORS)
    15 (Some 11) false [] StrtodReader 20 FlushOnly Anywhere.

Close Scope string_scope.

Definition table_for (kind : ExprKind) : ElementTable :=
  match kind with
  | Numeric => BASE_TABLE
  | StringKind => SCALC_TABLE
  | ArrayKind => ACALC_TABLE
  end.

Definition runtime_stack_size (kind : ExprKind) : Z := stack_size (table_for kind).
Definition expr_terminator (kind : ExprKind) : Terminator := terminator (table_for kind).
Definition store_rule (kind : ExprKind) : StoreRule := store (table_for kind).

(** ** The tokenizer *)

Definition skip_whitespace (rem : list Z) : list Z := snd (span c_isspace rem).

Definition starts_with_ci (text name : list Z) : bool := starts_ci text name.

(** The bytes up to the closing quote, or all of them. *)
Definition read_string_literal (quote : Z) (rem : list Z) : list Z * list Z :=
  let '(raw, rest) := span (fun b => negb (b =? quote)) rem in (raw, drop 1 rest).

(** The longest name that prefixes the text; the first of them in the table. *)
Definition best_symbol (rem : list Z) (symbols : list (list Z * Token.t)) : option (nat * Token.t) :=
  foldl (fun best '(name, tok) =>
    if starts_with_ci rem name then
      match best with
      | Some (blen, _) => if (blen <? length name)%nat then Some (length name, tok) else best
      | None => Some (length name, tok)
      end
    else best) None symbols.

Definition match_symbol (rem : list Z) (symbols : list (list Z * Token.t))
    : option (Token.t * list Z) :=
  '(n, tok) ← best_symbol rem symbols; Some (tok, drop n rem).

Definition match_single (t : ElementTable) (rem : list Z) : option (Token.t * list Z) :=
  match rem with
  | b :: rest =>
      let c := to_ascii_uppercase b in
      if is_ascii_uppercase c && (c - 65 <=? last_var t) then Some (Token.Var (c - 65), rest)
      else None
  | [] => None
  end.

Definition match_var (t : ElementTable) (rem : list Z) : option (Token.t * list Z) :=
  match last_double_var t, rem with
  | Some last, x :: y :: rest =>
      let a := to_ascii_uppercase x in
      let b := to_ascii_uppercase y in
      if (a =? b) && is_ascii_uppercase a && (a - 65 <=? last)
      then Some (Token.DoubleVar (a - 65), rest)
      else match_single t rem
  | _, _ => match_single t rem
  end.

Definition at_literal (t : ElementTable) (rem : list Z) : bool :=
  match rem with
  | [] => false
  | b :: _ => is_ascii_digit b || (b =? 46) || existsb (starts_with_ci rem) (literal_words t)
  end.

Definition is_parse_double (t : ElementTable) : bool :=
  match literals t with ParseDouble => true | StrtodReader => false end.

(** [u32::from_str_radix(digits, 16)]. *)
Definition hex_u32 (digits : list Z) : option Z :=
  let v := foldl (fun n d => n * 16 + hex_val d) 0 digits in
  if v <? 2 ^ 32 then Some v else None.

Definition read_literal (t : ElementTable) (rem : list Z) : result CalcError.t (f64 * list Z) :=
  let is_hex :=
    match rem with
    | z :: x :: h :: _ => (z =? 48) && ((x =? 120) || (x =? 88)) && is_ascii_hexdigit h
    | _ => false
    end in
  if is_hex && is_parse_double t then
    let '(digits, rest) := span is_ascii_hexdigit (drop 2 rem) in
    match hex_u32 digits with
    | Some v => Ok (f64_of_Z (swrap 32 v), rest)
    | None => Err CalcError.BadLiteral
    end
  else
    let n := strtod rem in
    if (std_len n =? 0)%nat then Err CalcError.BadLiteral
    else if std_erange n && is_parse_double t then Err CalcError.BadLiteral
    else Ok (std_value n, drop (std_len n) rem).

(** [Lexer::next]: the next element and the text after it. *)
Definition Lexer_next (kind : ExprKind) (operand : bool) (rem : list Z)
    : result CalcError.t (option (Token.t * list Z)) :=
  let t := table_for kind in
  let rem := skip_whitespace rem in
  match rem with
  | [] => Ok None
  | b :: rest =>
      if negb operand then Some <$> ok_or (match_symbol rem (operators t)) CalcError.Syntax
      else if at_literal t rem then
        '(n, rest) ← read_literal t rem; Ok (Some (Token.Number n, rest))
      else if ((b =? 34) || (b =? 39)) && string_literals t then
        let '(raw, rest) := read_string_literal b rest in Ok (Some (Token.StringLiteral raw, rest))
      else
        match match_symbol rem (operands t) with
        | Some r => Ok (Some r)
        | None => Some <$> ok_or (match_var t rem) CalcError.Syntax
        end
  end.
