(* ===== verification/CalcCode.v ===== *)
(** * Calculation engine: the postfix byte stream

    [epics-base-rs/src/calc/engine/bytecode.rs]: one byte per opcode in each dialect's own
    numbering, literals and argument counts inline.  [Emitter] is the only writer and [decode]
    the only reader.  Offsets are [nat]; a loop over the stream carries fuel, and [None] is
    fuel run out (CalcTheory.v shows the fuel given is enough). *)
From Stdlib Require Import SpecFloat.
From stdpp Require Import base tactics numbers list option strings.
From S2P Require Import Prelude Float64 CalcOps.

Open Scope Z_scope.

Abbreviation END := 0.
Abbreviation LITERAL_DOUBLE := 1.
Abbreviation LITERAL_INT := 2.

(** The byte order of [to_ne_bytes]. *)
Class Host : Type := big_host : bool.

Definition to_ne_bytes `{Host} (n : nat) (x : Z) : list Z :=
  if big_host then to_be_bytes n x else to_le_bytes n x.
Definition from_ne_bytes `{Host} (b : list Z) : Z :=
  if big_host then from_be_bytes b else from_le_bytes b.

(** ** The tables *)

Inductive Def : Type :=
| Op (op : Opcode.t)
| Vararg (op : Opcode.t)
| LitDouble | LitInt | LitString
| Fetch (n : nat)
| FetchD (n : nat)
| Store (n : nat)
| StoreD (n : nat)
| Head | Unused.

Module Slot.
Inductive t : Type :=
| Invalid
| Op (op : Opcode.t)
| Vararg (op : Opcode.t)
| LitDouble | LitInt | LitString.
End Slot.

(** The slots a definition fills. *)
Definition def_slots (d : Def) : list Slot.t :=
  let run (f : Z -> CoreOp.t) n := (fun k => Slot.Op (Opcode.Core (f (Z.of_nat k)))) <$> seq 0 n in
  match d with
  | Op op => [Slot.Op op]
  | Vararg op => [Slot.Vararg op]
  | LitDouble => [Slot.LitDouble]
  | LitInt => [Slot.LitInt]
  | LitString => [Slot.LitString]
  | Fetch n => run CoreOp.PushVar n
  | FetchD n => run CoreOp.PushDoubleVar n
  | Store n => run CoreOp.StoreVar n
  | StoreD n => run CoreOp.StoreDoubleVar n
  | Head | Unused => [Slot.Invalid]
  end.

(** 256 slots, filled from the front. *)
Definition build (defs : list Def) : list Slot.t :=
  let slots := mjoin (def_slots <$> defs) in
  slots ++ replicate (256 - length slots) Slot.Invalid.

Definition BASE_DEFS : list Def :=
  [Op (Opcode.Core CoreOp.End); LitDouble; LitInt; Op (Opcode.Core CoreOp.FetchVal); Fetch 21;
   Store 21; Op (Opcode.Core CoreOp.Pi); Op (Opcode.Core CoreOp.D2R);
   Op (Opcode.Core CoreOp.R2D); Op (Opcode.Core CoreOp.Neg); Op (Opcode.Core CoreOp.Add);
   Op (Opcode.Core CoreOp.Sub); Op (Opcode.Core CoreOp.Mul); Op (Opcode.Core CoreOp.Div);
   Op (Opcode.Core CoreOp.Mod); Op (Opcode.Core CoreOp.Power); Op (Opcode.Core CoreOp.Abs);
   Op (Opcode.Core CoreOp.Exp); Op (Opcode.Core CoreOp.Log10); Op (Opcode.Core CoreOp.LogE);
   Vararg (Opcode.Core (CoreOp.Max 0)); Vararg (Opcode.Core (CoreOp.Min 0));
   Op (Opcode.Core CoreOp.Sqrt); Op (Opcode.Core CoreOp.Acos); Op (Opcode.Core CoreOp.Asin);
   Op (Opcode.Core CoreOp.Atan); Op (Opcode.Core CoreOp.Atan2); Op (Opcode.Core CoreOp.Cos);
   Op (Opcode.Core CoreOp.Cosh); Op (Opcode.Core CoreOp.Sin); Op (Opcode.Core CoreOp.Sinh);
   Op (Opcode.Core CoreOp.Tan); Op (Opcode.Core CoreOp.Tanh); Op (Opcode.Core CoreOp.Ceil);
   Op (Opcode.Core CoreOp.Floor); Op (Opcode.Core CoreOp.Fmod);
   Vararg (Opcode.Core (CoreOp.Finite 0)); Op (Opcode.Core CoreOp.IsInf);
   Vararg (Opcode.Core (CoreOp.IsNan 0)); Op (Opcode.Core CoreOp.Nint);
   Op (Opcode.Core CoreOp.Random); Op (Opcode.Core CoreOp.Or); Op (Opcode.Core CoreOp.And);
   Op (Opcode.Core CoreOp.Not); Op (Opcode.Core CoreOp.BitOr); Op (Opcode.Core CoreOp.BitAnd);
   Op (Opcode.Core CoreOp.BitXor); Op (Opcode.Core CoreOp.BitNot);
   Op (Opcode.Core CoreOp.Shr); Op (Opcode.Core CoreOp.Shl);
   Op (Opcode.Core CoreOp.ShrLogical); Op (Opcode.Core CoreOp.Ne); Op (Opcode.Core CoreOp.Lt);
   Op (Opcode.Core CoreOp.Le); Op (Opcode.Core CoreOp.Eq); Op (Opcode.Core CoreOp.Ge);
   Op (Opcode.Core CoreOp.Gt); Op (Opcode.Core CoreOp.CondIf);
   Op (Opcode.Core CoreOp.CondElse); Op (Opcode.Core CoreOp.CondEnd); Unused].

Definition synapps_core_head : list Def :=
  [Fetch 16; FetchD 12; Store 16; StoreD 12; Op (Opcode.Core CoreOp.Pi);
   Op (Opcode.Core CoreOp.D2R); Op (Opcode.Core CoreOp.R2D); Op (Opcode.Core CoreOp.Neg);
   Op (Opcode.Core CoreOp.Add); Op (Opcode.Core CoreOp.Sub); Op (Opcode.Core CoreOp.Mul);
   Op (Opcode.Core CoreOp.Div); Op (Opcode.Core CoreOp.Mod); Op (Opcode.Core CoreOp.Power);
   Op (Opcode.Core CoreOp.Abs); Op (Opcode.Core CoreOp.Exp)].

Definition synapps_core_tail : list Def :=
  [Op (Opcode.Core CoreOp.Log10); Op (Opcode.Core CoreOp.LogE);
   Vararg (Opcode.Core (CoreOp.Max 0)); Vararg (Opcode.Core (CoreOp.Min 0));
   Op (Opcode.Core CoreOp.Sqrt); Op (Opcode.Core CoreOp.Acos); Op (Opcode.Core CoreOp.Asin);
   Op (Opcode.Core CoreOp.Atan); Op (Opcode.Core CoreOp.Atan2); Op (Opcode.Core CoreOp.Cos);
   Op (Opcode.Core CoreOp.Cosh); Op (Opcode.Core CoreOp.Sin); Op (Opcode.Core CoreOp.Sinh);
   Op (Opcode.Core CoreOp.Tan); Op (Opcode.Core CoreOp.Tanh); Op (Opcode.Core CoreOp.Ceil);
   Op (Opcode.Core CoreOp.Floor); Vararg (Opcode.Core (CoreOp.Finite 0));
   Op (Opcode.Core CoreOp.IsInf); Vararg (Opcode.Core (CoreOp.IsNan 0));
   Op (Opcode.Core CoreOp.Nint); Op (Opcode.Core CoreOp.Random); Op (Opcode.Core CoreOp.Or);
   Op (Opcode.Core CoreOp.And); Op (Opcode.Core CoreOp.Not); Op (Opcode.Core CoreOp.BitOr);
   Op (Opcode.Core CoreOp.BitAnd); Op (Opcode.Core CoreOp.BitXor);
   Op (Opcode.Core CoreOp.BitNot); Op (Opcode.Core CoreOp.Shr); Op (Opcode.Core CoreOp.Shl);
   Op (Opcode.Core CoreOp.Ne); Op (Opcode.Core CoreOp.Lt); Op (Opcode.Core CoreOp.Le);
   Op (Opcode.Core CoreOp.Eq); Op (Opcode.Core CoreOp.Ge); Op (Opcode.Core CoreOp.Gt);
   Op (Opcode.Core CoreOp.CondIf); Op (Opcode.Core CoreOp.CondElse);
   Op (Opcode.Core CoreOp.CondEnd); Op (Opcode.Control ControlOp.NotGenerated)].

Definition SCALC_HEAD : list Def :=
  [Op (Opcode.Core CoreOp.End); LitDouble; LitInt; Op (Opcode.Core CoreOp.FetchVal);
   Op (Opcode.Core CoreOp.FetchSval)].

Definition SCALC_TAIL : list Def :=
  [Op (Opcode.Core CoreOp.S2R); Op (Opcode.Core CoreOp.R2S); LitString;
   Op (Opcode.String StringOp.Sscanf); Unused; Unused; Op (Opcode.Core CoreOp.MaxVal);
   Op (Opcode.Core CoreOp.MinVal); Unused; Op (Opcode.String StringOp.ToDouble);
   Op (Opcode.String StringOp.Printf); Op (Opcode.String StringOp.Subrange);
   Op (Opcode.String StringOp.ToString); Op (Opcode.String StringOp.Replace);
   Op (Opcode.String StringOp.DynFetch); Op (Opcode.String StringOp.DynSFetch);
   Op (Opcode.String StringOp.Byte); Op (Opcode.String StringOp.SubLast);
   Op (Opcode.String StringOp.TrEsc); Op (Opcode.String StringOp.Esc);
   Op (Opcode.String StringOp.Crc16); Op (Opcode.String StringOp.Crc16Append);
   Op (Opcode.String StringOp.Lrc); Op (Opcode.String StringOp.LrcAppend);
   Op (Opcode.String StringOp.Xor8); Op (Opcode.String StringOp.Xor8Append);
   Op (Opcode.String StringOp.BinRead); Op (Opcode.String StringOp.BinWrite);
   Op (Opcode.String StringOp.Len); Op (Opcode.Core CoreOp.NormalRandom);
   Op (Opcode.String StringOp.DynStore); Op (Opcode.String StringOp.DynSStore);
   Op (Opcode.Control ControlOp.Until); Op (Opcode.Control ControlOp.UntilEnd); Head; Head].

Definition ACALC_HEAD : list Def :=
  [Op (Opcode.Core CoreOp.End); LitDouble; LitInt; Op (Opcode.Core CoreOp.FetchVal);
   Op (Opcode.Array ArrayOp.FetchAval)].

Definition ACALC_TAIL : list Def :=
  [Op (Opcode.Core CoreOp.S2R); Op (Opcode.Core CoreOp.R2S);
   Op (Opcode.Array ArrayOp.ConstIndex); Unused; Unused; Op (Opcode.Core CoreOp.MaxVal);
   Op (Opcode.Core CoreOp.MinVal); Unused; Op (Opcode.Array ArrayOp.ToDouble);
   Op (Opcode.Array ArrayOp.ArraySubrange); Op (Opcode.Array ArrayOp.ArraySubrangeInPlace);
   Op (Opcode.Array ArrayOp.ToArray); Op (Opcode.Array ArrayOp.DynFetch);
   Op (Opcode.Array ArrayOp.DynAFetch); Op (Opcode.Array ArrayOp.LenNoop);
   Op (Opcode.Core CoreOp.NormalRandom); Op (Opcode.Array ArrayOp.DynStore);
   Op (Opcode.Array ArrayOp.DynAStore); Op (Opcode.Control ControlOp.Until);
   Op (Opcode.Control ControlOp.UntilEnd); Op (Opcode.Array ArrayOp.Average);
   Op (Opcode.Array ArrayOp.StdDev); Op (Opcode.Array ArrayOp.Fwhm);
   Op (Opcode.Array ArrayOp.Smooth); Op (Opcode.Array ArrayOp.NSmooth);
   Op (Opcode.Array ArrayOp.Deriv); Op (Opcode.Array ArrayOp.NDeriv);
   Op (Opcode.Array ArrayOp.ArraySum); Op (Opcode.Array ArrayOp.ArrayMax);
   Op (Opcode.Array ArrayOp.ArrayMin); Op (Opcode.Array ArrayOp.FitPoly);
   Op (Opcode.Array ArrayOp.FitMPoly); Op (Opcode.Array ArrayOp.ArrayRandom);
   Op (Opcode.Array ArrayOp.Cum); Op (Opcode.Array ArrayOp.IndexMax);
   Op (Opcode.Array ArrayOp.IndexMin); Op (Opcode.Array ArrayOp.IndexZero);
   Op (Opcode.Array ArrayOp.IndexNonZero); Vararg (Opcode.Array (ArrayOp.FitQ 0));
   Vararg (Opcode.Array (ArrayOp.FitMQ 0)); Op (Opcode.Array ArrayOp.Cat)].

Definition SCALC_DEFS : list Def :=
  (SCALC_HEAD ++ synapps_core_head) ++ synapps_core_tail ++ SCALC_TAIL.

Definition ACALC_DEFS : list Def :=
  (ACALC_HEAD ++ synapps_core_head
   ++ [Op (Opcode.Array ArrayOp.ANeg); Op (Opcode.Array ArrayOp.APos)])
  ++ synapps_core_tail ++ ACALC_TAIL.

Definition BASE : list Slot.t := build BASE_DEFS.
Definition SCALC : list Slot.t := build SCALC_DEFS.
Definition ACALC : list Slot.t := build ACALC_DEFS.

(** The number of codes an enum has. *)
Definition codes (defs : list Def) : Z :=
  foldl (fun n d => n + match d with
                        | Fetch k | FetchD k | Store k | StoreD k => Z.of_nat k
                        | _ => 1
                        end) 0 defs.

Definition SCALC_NO_STRING : Z := codes SCALC_DEFS - 2.
Definition SCALC_USES_STRING : Z := codes SCALC_DEFS - 1.

Definition table (kind : ExprKind) : list Slot.t :=
  match kind with Numeric => BASE | StringKind => SCALC | ArrayKind => ACALC end.

(** ** Reading *)

Definition is_empty (code : list Z) : bool :=
  match code with [] => true | b :: _ => b =? END end.

Definition body_start (kind : ExprKind) (code : list Z) : nat :=
  match kind with
  | StringKind => if is_empty code then 0%nat else 1%nat
  | _ => 0%nat
  end.

Definition uses_string (code : list Z) : bool :=
  match code with [] => false | b :: _ => b =? SCALC_USES_STRING end.

Definition with_nargs (op : Opcode.t) (n : Z) : Opcode.t :=
  match op with
  | Opcode.Core (CoreOp.Max _) => Opcode.Core (CoreOp.Max n)
  | Opcode.Core (CoreOp.Min _) => Opcode.Core (CoreOp.Min n)
  | Opcode.Core (CoreOp.Finite _) => Opcode.Core (CoreOp.Finite n)
  | Opcode.Core (CoreOp.IsNan _) => Opcode.Core (CoreOp.IsNan n)
  | Opcode.Array (ArrayOp.FitQ _) => Opcode.Array (ArrayOp.FitQ n)
  | Opcode.Array (ArrayOp.FitMQ _) => Opcode.Array (ArrayOp.FitMQ n)
  | other => other
  end.

(** [code.get(pc..pc + n)]. *)
Definition get_range (code : list Z) (pc n : nat) : option (list Z) :=
  if (pc + n <=? length code)%nat then Some (take n (drop pc code)) else None.

Fixpoint nul_position (l : list Z) : option nat :=
  match l with
  | [] => None
  | b :: l => if b =? 0 then Some O else S <$> nul_position l
  end.

Definition decode `{Host} (t : list Slot.t) (code : list Z) (pc : nat)
    : result CalcError.t (Opcode.t * nat) :=
  match code !! pc with
  | None => Ok (Opcode.Core CoreOp.End, pc)
  | Some b =>
      let pc := S pc in
      match default Slot.Invalid (t !! Z.to_nat b) with
      | Slot.Op op => Ok (op, pc)
      | Slot.LitInt =>
          p ← ok_or (get_range code pc 4) CalcError.Internal;
          Ok (Opcode.Core (CoreOp.PushConst (f64_of_Z (swrap 32 (from_ne_bytes p)))), (pc + 4)%nat)
      | Slot.LitDouble =>
          p ← ok_or (get_range code pc 8) CalcError.Internal;
          Ok (Opcode.Core (CoreOp.PushConst (f64_of_bits (from_ne_bytes p))), (pc + 8)%nat)
      | Slot.LitString =>
          n ← ok_or (nul_position (drop pc code)) CalcError.Internal;
          Ok (Opcode.String (StringOp.PushString (wrap 32 (Z.of_nat pc)) (wrap 32 (Z.of_nat n))),
              (pc + n + 1)%nat)
      | Slot.Vararg op =>
          n ← ok_or (code !! pc) CalcError.Internal;
          Ok (with_nargs op n, S pc)
      | Slot.Invalid => Err CalcError.Internal
      end
  end.

(** Every instruction with its offset, up to the end or the first undecodable byte. *)
Fixpoint instructions_from `{Host} (t : list Slot.t) (code : list Z) (pc : nat) (fuel : nat)
    : option (list (nat * Opcode.t)) :=
  match fuel with
  | O => None
  | S fuel =>
      match decode t code pc with
      | Err _ => Some []
      | Ok (Opcode.Core CoreOp.End, _) => Some []
      | Ok (op, next) => cons (pc, op) <$> instructions_from t code next fuel
      end
  end.

Definition instructions `{Host} (kind : ExprKind) (code : list Z) : option (list (nat * Opcode.t)) :=
  instructions_from (table kind) code (body_start kind code) (S (length code)).

(** [cond_search]: the offset after the matching [COND_ELSE] or [COND_END]. *)
Fixpoint cond_search_from `{Host} (t : list Slot.t) (code : list Z) (find_else : bool) (pc : nat)
    (count : Z) (fuel : nat) : option (result CalcError.t nat) :=
  match fuel with
  | O => None
  | S fuel =>
      match decode t code pc with
      | Err e => Some (Err e)
      | Ok (op, next) =>
          let go count := cond_search_from t code find_else next count fuel in
          let matched := if count - 1 =? 0 then Some (Ok next) else go (count - 1) in
          match op with
          | Opcode.Core CoreOp.End => Some (Err CalcError.Conditional)
          | Opcode.Core CoreOp.CondElse => if find_else then matched else go count
          | Opcode.Core CoreOp.CondEnd => if find_else then go count else matched
          | Opcode.Core CoreOp.CondIf => go (count + 1)
          | _ => go count
          end
      end
  end.

Definition cond_search `{Host} (t : list Slot.t) (code : list Z) (pc : nat) (find_else : bool)
    : option (result CalcError.t nat) :=
  cond_search_from t code find_else pc 1 (S (length code)).

(** ** Loops of sCalc and aCalc *)

Definition MAX_UNTILS : nat := 9.

Record UntilSlot : Type := mkUntilSlot {
  until_at : nat;
  until_end : option nat;
  until_depth : nat;
}.

Definition until_open (slots : list UntilSlot) (at_ : nat) : result CalcError.t (list UntilSlot) :=
  if (length slots =? MAX_UNTILS)%nat then Err CalcError.Overflow
  else Ok (slots ++ [mkUntilSlot at_ None 0]).

(** The latest loop not yet closed; the list is given newest first. *)
Fixpoint close_first (slots : list UntilSlot) (at_ : nat) : option (list UntilSlot) :=
  match slots with
  | [] => None
  | s :: rest =>
      match until_end s with
      | None => Some (mkUntilSlot (until_at s) (Some at_) (until_depth s) :: rest)
      | Some _ => cons s <$> close_first rest at_
      end
  end.

Definition until_close (slots : list UntilSlot) (at_ : nat) : result CalcError.t (list UntilSlot) :=
  ok_or (reverse <$> close_first (reverse slots) at_) CalcError.Internal.

Fixpoint until_scan_from `{Host} (t : list Slot.t) (code : list Z) (slots : list UntilSlot)
    (pc : nat) (fuel : nat) : option (result CalcError.t (list UntilSlot)) :=
  match fuel with
  | O => None
  | S fuel =>
      match decode t code pc with
      | Err e => Some (Err e)
      | Ok (op, next) =>
          let go r := match r with
                      | Ok slots => until_scan_from t code slots next fuel
                      | Err e => Some (Err e)
                      end in
          match op with
          | Opcode.Core CoreOp.End => Some (Ok slots)
          | Opcode.Control ControlOp.Until => go (until_open slots pc)
          | Opcode.Control ControlOp.UntilEnd => go (until_close slots pc)
          | _ => go (Ok slots)
          end
      end
  end.

Definition until_scan `{Host} (kind : ExprKind) (code : list Z)
    : option (result CalcError.t (list UntilSlot)) :=
  until_scan_from (table kind) code [] (body_start kind code) (S (length code)).

Fixpoint until_mark (slots : list UntilSlot) (at_ depth : nat) : result CalcError.t (list UntilSlot) :=
  match slots with
  | [] => Err CalcError.Internal
  | s :: rest =>
      if (until_at s =? at_)%nat then Ok (mkUntilSlot at_ (until_end s) depth :: rest)
      else cons s <$> until_mark rest at_ depth
  end.

Definition until_loop_back (slots : list UntilSlot) (at_ : nat) : option (nat * nat) :=
  s ← List.find (fun s => bool_decide (until_end s = Some at_)) slots;
  Some (until_at s, until_depth s).

(** ** Writing *)

Fixpoint slot_position (f : Slot.t -> bool) (slots : list Slot.t) : option nat :=
  match slots with
  | [] => None
  | s :: rest => if f s then Some O else S <$> slot_position f rest
  end.

Definition lit_string_code (t : list Slot.t) : option Z :=
  Z.of_nat <$> slot_position (fun s => match s with Slot.LitString => true | _ => false end) t.

Definition op_nargs (op : Opcode.t) : option Z :=
  match op with
  | Opcode.Core (CoreOp.Max n | CoreOp.Min n | CoreOp.Finite n | CoreOp.IsNan n)
  | Opcode.Array (ArrayOp.FitQ n | ArrayOp.FitMQ n) => Some n
  | _ => None
  end.

(** Does the slot hold this opcode? *)
Definition slot_matches (op : Opcode.t) (s : Slot.t) : bool :=
  match s, op_nargs op with
  | Slot.Op o, None => bool_decide (o = op)
  | Slot.Vararg o, Some n => bool_decide (with_nargs o n = op)
  | _, _ => false
  end.

(** The bytes of an instruction, where the dialect has it. *)
Definition encode `{Host} (t : list Slot.t) (op : Opcode.t) : option (list Z) :=
  match op with
  | Opcode.Core (CoreOp.PushConst v) =>
      let i := f64_to_i32 v in
      Some (if f64_eqb v (f64_of_Z i) then LITERAL_INT :: to_ne_bytes 4 (wrap 32 i)
            else LITERAL_DOUBLE :: to_ne_bytes 8 (f64_to_bits v))
  | _ =>
      b ← slot_position (slot_matches op) t;
      Some (Z.of_nat b :: match op_nargs op with Some n => [n] | None => [] end)
  end.

Record Emitter : Type := mkEmitter {
  em_kind : ExprKind;
  em_code : list Z;
  em_last : option nat;
  em_bad : bool;
}.

Definition Emitter_new (kind : ExprKind) : Emitter :=
  mkEmitter kind (match kind with StringKind => [SCALC_NO_STRING] | _ => [] end) None false.

Definition emit `{Host} (e : Emitter) (op : Opcode.t) : Emitter :=
  match encode (table (em_kind e)) op with
  | Some b => mkEmitter (em_kind e) (em_code e ++ b) (Some (length (em_code e))) (em_bad e)
  | None => mkEmitter (em_kind e) (em_code e) (em_last e) true
  end.

Definition emit_string (e : Emitter) (s : list Z) : Emitter :=
  match lit_string_code (table (em_kind e)) with
  | Some b =>
      mkEmitter (em_kind e) (em_code e ++ b :: s ++ [END]) (Some (length (em_code e))) (em_bad e)
  | None => mkEmitter (em_kind e) (em_code e) (em_last e) true
  end.

Definition emitted_last `{Host} (e : Emitter) : option Opcode.t :=
  at_ ← em_last e;
  match decode (table (em_kind e)) (em_code e) at_ with
  | Ok (op, _) => Some op
  | Err _ => None
  end.

Definition retract_last (e : Emitter) : Emitter :=
  match em_last e with
  | Some at_ => mkEmitter (em_kind e) (take at_ (em_code e)) None (em_bad e)
  | None => e
  end.

Definition set_uses_string (e : Emitter) : Emitter :=
  match em_kind e with
  | StringKind => mkEmitter StringKind (<[0%nat := SCALC_USES_STRING]> (em_code e)) (em_last e) (em_bad e)
  | _ => e
  end.

Definition Emitter_finish (e : Emitter) : result CalcError.t (list Z) :=
  if em_bad e then Err CalcError.Internal else Ok (em_code e ++ [END]).
