(* ===== verification/CalcPostfix.v ===== *)
(** * Calculation engine: the infix compiler

    [epics-base-rs/src/calc/engine/postfix.rs]: C's operator-precedence compiler for the three
    dialects, with the count of the run-time depth C keeps and the analysis of missing values
    ([Holes]) the port adds to it.  The operator stack is a list with its top first; the other
    vectors are lists in order.  Depths and effects are [i32]s that stay far below their
    bound, as [Z]. *)
From Stdlib Require Import SpecFloat.
From stdpp Require Import base tactics numbers list option strings.
From S2P Require Import Prelude Float64 Strtod CalcOps CalcLex CalcCode.

Open Scope Z_scope.

(** ** Missing values *)

Abbreviation Span := nat.

Inductive Hole : Type :=
| HStore (depth : Z)
| HMissing (depth : Z).

#[global] Instance Hole_eq_dec : EqDecision Hole.
Proof. solve_decision. Defined.

Definition hole_depth (h : Hole) : Z := match h with HStore d | HMissing d => d end.

(** One way through the conditionals read so far: the run-time depth less C's count, the
    missing values, and each open span with the depth and the number of holes it began at. *)
Record Path : Type := mkPath {
  off : Z;
  holes : list Hole;
  spans : list (Span * Z * nat);
}.

#[global] Instance Path_eq_dec : EqDecision Path.
Proof. solve_decision. Defined.

Definition Path_default : Path := mkPath 0 [] [].

(** [Path::cut]: the holes past [n] are taken out. *)
Definition path_cut (n : nat) (p : Path) : list Hole * Path :=
  (drop n (holes p),
   mkPath (off p) (take n (holes p)) ((fun '(s, d, l) => (s, d, (l `min` n)%nat)) <$> spans p)).

Fixpoint remove_span (span : Span) (l : list (Span * Z * nat))
    : option (Z * nat) * list (Span * Z * nat) :=
  match l with
  | [] => (None, [])
  | (s, d, n) :: l =>
      if (s =? span)%nat then (Some (d, n), l)
      else let '(r, l) := remove_span span l in (r, (s, d, n) :: l)
  end.

(** [Path::end]. *)
Definition path_end (span : Span) (p : Path) : option (Z * nat) * Path :=
  let '(r, spans) := remove_span span (spans p) in (r, mkPath (off p) (holes p) spans).

(** [Path::finish]: the branch ends; only whether it left its value is kept. *)
Definition path_finish (branch : Span) (depth : Z) (p : Path) : Path :=
  let real := depth + off p in
  let '(r, p) := path_end branch p in
  let p :=
    match r with
    | Some (from, n) =>
        let missing := (real <=? from) || bool_decide (HMissing real ∈ drop n (holes p)) in
        let '(_, p) := path_cut n p in
        if missing then mkPath (off p) (holes p ++ [HMissing real]) (spans p) else p
    | None => p
    end in
  mkPath real (holes p) (spans p).

Record Fork : Type := mkFork {
  fork_then : Span;
  fork_depth : Z;
  fork_rest : list Path;
}.

Record Arm : Type := mkArm {
  arm_then : option Span;
  arm_ends : list Path;
  arm_n : nat;
  arm_count : Z;
}.

Definition MAX_PATHS : nat := 256.

Record Holes : Type := mkHoles {
  paths : list Path;
  read : bool;
  opened : list Span;
  next_span : nat;
  lost : bool;
  arms : list Arm;
}.

Definition Holes_default : Holes := mkHoles [Path_default] false [] 0 false [].

Definition with_paths (h : Holes) (ps : list Path) : Holes :=
  mkHoles ps (read h) (opened h) (next_span h) (lost h) (arms h).
Definition with_arms (h : Holes) (l : list Arm) : Holes :=
  mkHoles (paths h) (read h) (opened h) (next_span h) (lost h) l.
Definition with_open (h : Holes) (l : list Span) : Holes :=
  mkHoles (paths h) (read h) l (next_span h) (lost h) (arms h).

(** [Holes::drop_reads]. *)
Definition drop_reads (reads : Path -> bool) (h : Holes) : Holes :=
  let kept := List.filter (fun p => negb (reads p)) (paths h) in
  mkHoles kept (read h || (length kept <? length (paths h))%nat) (opened h) (next_span h)
    (lost h) (arms h).

(** The deepest position a path can pop down to: its highest hole. *)
Definition floor_of (p : Path) : Z :=
  match hole_depth <$> holes p with
  | [] => 0
  | d :: ds => foldl Z.max d ds
  end.

Definition holes_take (depth pops : Z) (h : Holes) : Holes :=
  drop_reads (fun p => depth + off p - floor_of p <? pops) h.

Definition holes_store (depth : Z) (h : Holes) : Holes :=
  with_paths h ((fun p => mkPath (off p) (holes p ++ [HStore (depth + off p)]) (spans p)) <$> paths h).

Definition holes_open (depth : Z) (h : Holes) : Span * Holes :=
  let span := next_span h in
  (span,
   mkHoles ((fun p => mkPath (off p) (holes p) (spans p ++ [(span, depth + off p, length (holes p))]))
              <$> paths h)
     (read h) (opened h ++ [span]) (S span) (lost h) (arms h)).

Definition path_close (span : Span) (depth : Z) (p : Path) : Path :=
  let real := depth + off p in
  let '(r, p) := path_end span p in
  match r with
  | Some (from, n) =>
      if from <? real then
        let '(tail, p) := path_cut n p in
        mkPath (off p) (holes p ++ List.filter (fun h => bool_decide (h = HMissing real)) tail) (spans p)
      else p
  | None => p
  end.

Definition without (span : Span) (l : list Span) : list Span :=
  List.filter (fun s => negb (s =? span)%nat) l.

Definition holes_close (span : Span) (depth : Z) (h : Holes) : Holes :=
  with_open (with_paths h (path_close span depth <$> paths h)) (without span (opened h)).

Definition holes_fork (depth : Z) (h : Holes) : Fork * Holes :=
  let h := with_arms h ((fun a => mkArm (arm_then a) (arm_ends a) (arm_n a) (arm_count a + 1)) <$> arms h) in
  let '(span, h) := holes_open depth h in
  (mkFork span depth (paths h), h).

(** [Holes::end]: the false branch of a conditional ends on every path. *)
Definition holes_end (branch : Span) (depth : Z) (h : Holes) : Holes :=
  with_open
    (with_paths h ((fun p => let p := path_finish branch depth p in
                             mkPath (off p - depth) (holes p) (spans p)) <$> paths h))
    (without branch (opened h)).

Fixpoint insert_span (x : Span * Z * nat) (l : list (Span * Z * nat)) : list (Span * Z * nat) :=
  match l with
  | [] => [x]
  | y :: rest => if (fst (fst y) <=? fst (fst x))%nat then y :: insert_span x rest else x :: l
  end.
(** [sort_by_key] on the span's number; it is stable. *)
Definition sort_spans (l : list (Span * Z * nat)) : list (Span * Z * nat) :=
  foldl (fun sorted x => insert_span x sorted) [] l.

Definition even_path (opened : list Span) (depth : Z) (p : Path) : Path :=
  let kept := List.filter (fun s => bool_decide (fst (fst s) ∈ opened)) (spans p) in
  let absent := List.filter (fun s => negb (bool_decide (s ∈ (fst ∘ fst) <$> kept))) opened in
  mkPath (off p) (holes p)
    (sort_spans (kept ++ ((fun s => (s, depth + off p, length (holes p))) <$> absent))).

(** [Holes::even]: every path gets the open spans, repeated paths are dropped. *)
Definition even (depth : Z) (h : Holes) : Holes :=
  let ps := foldl (fun acc p => let p := even_path (opened h) depth p in
                                if bool_decide (p ∈ acc) then acc else acc ++ [p]) [] (paths h) in
  if (MAX_PATHS <? length ps)%nat
  then mkHoles [] (read h) (opened h) (next_span h) true (arms h)
  else with_paths h ps.

(** The conditionals read since the [?], the latest first: each ends here. *)
Fixpoint end_inner (fork : Span) (depth : Z) (inner : list Arm) (h : Holes) : list Arm * Holes :=
  match inner with
  | [] => ([], h)
  | a :: rest =>
      let '(rest, h) := end_inner fork depth rest h in
      let h := match arm_then a with Some branch => holes_end branch depth h | None => h end in
      (mkArm None (path_finish fork 0 <$> arm_ends a) (arm_n a) (arm_count a) :: rest, h)
  end.

(** The arms up to the last that was there at the [?], and those after it. *)
Fixpoint split_arms (first : nat) (l : list Arm) : list Arm * list Arm :=
  match l with
  | [] => ([], [])
  | a :: rest =>
      let '(outer, inner) := split_arms first rest in
      match outer with
      | [] => if (arm_n a <? first)%nat then ([a], inner) else ([], a :: inner)
      | _ => (a :: outer, inner)
      end
  end.

Definition holes_branch (fork : Fork) (depth : Z) (n first : nat) (h : Holes) : Holes :=
  let '(outer, inner) := split_arms first (arms h) in
  let '(inner, h) := end_inner (fork_then fork) depth inner h in
  let ends := path_finish (fork_then fork) depth <$> paths h in
  let rest := (fun p => mkPath (off p + (fork_depth fork - (depth - 1))) (holes p) (spans p))
                <$> fork_rest fork in
  let h := even (depth - 1) (with_paths h rest) in
  with_arms h ((outer ++ inner) ++ [mkArm (Some (fork_then fork)) ends n 1]).

(** The last arm whose count is zero, and the others. *)
Fixpoint take_landed (l : list Arm) : option (Arm * list Arm) :=
  match l with
  | [] => None
  | a :: rest =>
      match take_landed rest with
      | Some (b, rest) => Some (b, a :: rest)
      | None => if arm_count a =? 0 then Some (a, rest) else None
      end
  end.

Fixpoint land (fuel : nat) (depth : Z) (h : Holes) : Holes :=
  match fuel with
  | O => h
  | S fuel =>
      match take_landed (arms h) with
      | None => h
      | Some (a, rest) =>
          let h := with_arms h rest in
          let h := match arm_then a with Some branch => holes_end branch depth h | None => h end in
          let back := (fun p => mkPath (off p - depth) (holes p) (spans p)) <$> arm_ends a in
          land fuel depth (even depth (with_paths h (paths h ++ back)))
      end
  end.

Definition holes_cond_end (depth : Z) (h : Holes) : Holes :=
  let h := with_arms h ((fun a => mkArm (arm_then a) (arm_ends a) (arm_n a) (arm_count a - 1)) <$> arms h) in
  land (length (arms h)) depth h.

Definition holes_refused (depth : Z) (h : Holes) : bool :=
  let h := drop_reads (fun p => bool_decide (HMissing (depth + off p) ∈ holes p)) h in
  read h && negb (lost h) && negb (existsb (fun p => depth + off p =? 1) (paths h)).

(** ** The operator stack *)

Inductive StoreTarget : Type :=
| TVar (idx : Z)
| TDoubleVar (idx : Z)
| TDyn
| TDynDouble.

Inductive StackEntry : Type :=
| SOp (token : Token.t) (in_stack_pri : Z)
| SLParen (runtime_effect : Z) (span : Span) (args closes_until : bool)
| SSubrange (in_place : bool) (runtime_effect : Z) (span : Span)
| SVarargFunc (func : FuncName.t) (in_stack_pri runtime_effect : Z)
| SCondEnd
| SStore (target : StoreTarget) (in_stack_pri : Z)
| SUntilEnd.

Definition in_stack_pri (e : StackEntry) : Z :=
  match e with
  | SOp _ p => p
  | SLParen _ _ _ _ => 0
  | SSubrange _ _ _ => 0
  | SVarargFunc _ p _ => p
  | SCondEnd => 0
  | SStore _ p => p
  | SUntilEnd => 0
  end.

(** In-stack and in-coming priority of a binary operator. *)
Definition binary_op (token : Token.t) : option (Z * Z) :=
  match token with
  | Token.OrOr | Token.BitOr | Token.BitXor => Some (2, 2)
  | Token.AndAnd | Token.BitAnd | Token.Shr | Token.ShrLogical | Token.Shl => Some (3, 3)
  | Token.MaxOp | Token.MinOp => Some (4, 4)
  | Token.Eq | Token.Ne | Token.Lt | Token.Le | Token.Gt | Token.Ge => Some (5, 5)
  | Token.Plus | Token.Minus => Some (6, 6)
  | Token.Star | Token.Slash | Token.Percent => Some (7, 7)
  | Token.Caret | Token.DoubleStar => Some (8, 8)
  | _ => None
  end.

(** [None] is [unreachable!]. *)
Definition token_to_binary_opcode (token : Token.t) : option Opcode.t :=
  match token with
  | Token.Plus => Some (Opcode.Core CoreOp.Add)
  | Token.Minus => Some (Opcode.Core CoreOp.Sub)
  | Token.Star => Some (Opcode.Core CoreOp.Mul)
  | Token.Slash => Some (Opcode.Core CoreOp.Div)
  | Token.Percent => Some (Opcode.Core CoreOp.Mod)
  | Token.Caret | Token.DoubleStar => Some (Opcode.Core CoreOp.Power)
  | Token.Eq => Some (Opcode.Core CoreOp.Eq)
  | Token.Ne => Some (Opcode.Core CoreOp.Ne)
  | Token.Lt => Some (Opcode.Core CoreOp.Lt)
  | Token.Le => Some (Opcode.Core CoreOp.Le)
  | Token.Gt => Some (Opcode.Core CoreOp.Gt)
  | Token.Ge => Some (Opcode.Core CoreOp.Ge)
  | Token.AndAnd => Some (Opcode.Core CoreOp.And)
  | Token.OrOr => Some (Opcode.Core CoreOp.Or)
  | Token.BitAnd => Some (Opcode.Core CoreOp.BitAnd)
  | Token.BitOr => Some (Opcode.Core CoreOp.BitOr)
  | Token.BitXor => Some (Opcode.Core CoreOp.BitXor)
  | Token.Shl => Some (Opcode.Core CoreOp.Shl)
  | Token.Shr => Some (Opcode.Core CoreOp.Shr)
  | Token.ShrLogical => Some (Opcode.Core CoreOp.ShrLogical)
  | Token.MaxOp => Some (Opcode.Core CoreOp.MaxVal)
  | Token.MinOp => Some (Opcode.Core CoreOp.MinVal)
  | Token.PipeMinus => Some (Opcode.String StringOp.SubLast)
  | _ => None
  end.

Definition is_vararg (func : FuncName.t) : bool :=
  match func with
  | FuncName.Min | FuncName.Max | FuncName.Finite | FuncName.IsNan | FuncName.FitQ
  | FuncName.FitMQ => true
  | _ => false
  end.

Definition func_arity (func : FuncName.t) : Z :=
  match func with
  | FuncName.Atan2 | FuncName.Fmod => 2
  | FuncName.Printf | FuncName.Sscanf | FuncName.BinRead | FuncName.BinWrite => 2
  | FuncName.NSmoo | FuncName.NDeriv | FuncName.Cat | FuncName.FitMPoly => 2
  | FuncName.FitPoly => 1
  | _ => 1
  end.

Definition func_to_opcode (func : FuncName.t) (nargs : Z) : Opcode.t :=
  match func with
  | FuncName.Abs => Opcode.Core CoreOp.Abs
  | FuncName.Sqrt | FuncName.Sqr => Opcode.Core CoreOp.Sqrt
  | FuncName.Exp => Opcode.Core CoreOp.Exp
  | FuncName.Log10 => Opcode.Core CoreOp.Log10
  | FuncName.LogE | FuncName.Ln => Opcode.Core CoreOp.LogE
  | FuncName.Sin => Opcode.Core CoreOp.Sin
  | FuncName.Cos => Opcode.Core CoreOp.Cos
  | FuncName.Tan => Opcode.Core CoreOp.Tan
  | FuncName.Asin => Opcode.Core CoreOp.Asin
  | FuncName.Acos => Opcode.Core CoreOp.Acos
  | FuncName.Atan => Opcode.Core CoreOp.Atan
  | FuncName.Atan2 => Opcode.Core CoreOp.Atan2
  | FuncName.Fmod => Opcode.Core CoreOp.Fmod
  | FuncName.Sinh => Opcode.Core CoreOp.Sinh
  | FuncName.Cosh => Opcode.Core CoreOp.Cosh
  | FuncName.Tanh => Opcode.Core CoreOp.Tanh
  | FuncName.Ceil => Opcode.Core CoreOp.Ceil
  | FuncName.Floor => Opcode.Core CoreOp.Floor
  | FuncName.Nint | FuncName.Int => Opcode.Core CoreOp.Nint
  | FuncName.IsNan => Opcode.Core (CoreOp.IsNan nargs)
  | FuncName.IsInf => Opcode.Core CoreOp.IsInf
  | FuncName.Finite => Opcode.Core (CoreOp.Finite nargs)
  | FuncName.Max => Opcode.Core (CoreOp.Max nargs)
  | FuncName.Min => Opcode.Core (CoreOp.Min nargs)
  | FuncName.Not => Opcode.Core CoreOp.BitNot
  | FuncName.Dbl => Opcode.String StringOp.ToDouble
  | FuncName.Str => Opcode.String StringOp.ToString
  | FuncName.Len => Opcode.String StringOp.Len
  | FuncName.ANeg => Opcode.Array ArrayOp.ANeg
  | FuncName.APos => Opcode.Array ArrayOp.APos
  | FuncName.DynFetch => Opcode.Array ArrayOp.DynFetch
  | FuncName.DynAFetch => Opcode.Array ArrayOp.DynAFetch
  | FuncName.SDynFetch => Opcode.String StringOp.DynFetch
  | FuncName.SDynSFetch => Opcode.String StringOp.DynSFetch
  | FuncName.ALenNoop => Opcode.Array ArrayOp.LenNoop
  | FuncName.Byte => Opcode.String StringOp.Byte
  | FuncName.TrEsc => Opcode.String StringOp.TrEsc
  | FuncName.Esc => Opcode.String StringOp.Esc
  | FuncName.Printf => Opcode.String StringOp.Printf
  | FuncName.Sscanf => Opcode.String StringOp.Sscanf
  | FuncName.BinRead => Opcode.String StringOp.BinRead
  | FuncName.BinWrite => Opcode.String StringOp.BinWrite
  | FuncName.Crc16 => Opcode.String StringOp.Crc16
  | FuncName.ModBus => Opcode.String StringOp.Crc16Append
  | FuncName.Lrc => Opcode.String StringOp.Lrc
  | FuncName.AModBus => Opcode.String StringOp.LrcAppend
  | FuncName.Xor8 => Opcode.String StringOp.Xor8
  | FuncName.AddXor8 => Opcode.String StringOp.Xor8Append
  | FuncName.Avg => Opcode.Array ArrayOp.Average
  | FuncName.Std => Opcode.Array ArrayOp.StdDev
  | FuncName.FwhmFunc => Opcode.Array ArrayOp.Fwhm
  | FuncName.Sum => Opcode.Array ArrayOp.ArraySum
  | FuncName.AMax => Opcode.Array ArrayOp.ArrayMax
  | FuncName.AMin => Opcode.Array ArrayOp.ArrayMin
  | FuncName.IxMax => Opcode.Array ArrayOp.IndexMax
  | FuncName.IxMin => Opcode.Array ArrayOp.IndexMin
  | FuncName.IxZ => Opcode.Array ArrayOp.IndexZero
  | FuncName.IxNz => Opcode.Array ArrayOp.IndexNonZero
  | FuncName.Arr => Opcode.Array ArrayOp.ToArray
  | FuncName.AToD => Opcode.Array ArrayOp.ToDouble
  | FuncName.Smoo => Opcode.Array ArrayOp.Smooth
  | FuncName.NSmoo => Opcode.Array ArrayOp.NSmooth
  | FuncName.Deriv => Opcode.Array ArrayOp.Deriv
  | FuncName.NDeriv => Opcode.Array ArrayOp.NDeriv
  | FuncName.FitPoly => Opcode.Array ArrayOp.FitPoly
  | FuncName.FitMPoly => Opcode.Array ArrayOp.FitMPoly
  | FuncName.FitQ => Opcode.Array (ArrayOp.FitQ nargs)
  | FuncName.FitMQ => Opcode.Array (ArrayOp.FitMQ nargs)
  | FuncName.Cum => Opcode.Array ArrayOp.Cum
  | FuncName.Cat => Opcode.Array ArrayOp.Cat
  end.

Definition store_opcode (kind : ExprKind) (target : StoreTarget) : Opcode.t :=
  match target with
  | TVar idx => Opcode.Core (CoreOp.StoreVar idx)
  | TDoubleVar idx => Opcode.Core (CoreOp.StoreDoubleVar idx)
  | TDyn => match kind with
            | ArrayKind => Opcode.Array ArrayOp.DynStore
            | _ => Opcode.String StringOp.DynStore
            end
  | TDynDouble => match kind with
                  | ArrayKind => Opcode.Array ArrayOp.DynAStore
                  | _ => Opcode.String StringOp.DynSStore
                  end
  end.

(** What an entry emits; [None] is [unreachable!]. *)
Definition entry_opcode (entry : StackEntry) (kind : ExprKind) : option Opcode.t :=
  match entry with
  | SSubrange in_place _ _ =>
      Some match kind, in_place with
           | ArrayKind, false => Opcode.Array ArrayOp.ArraySubrange
           | ArrayKind, true => Opcode.Array ArrayOp.ArraySubrangeInPlace
           | _, false => Opcode.String StringOp.Subrange
           | _, true => Opcode.String StringOp.Replace
           end
  | SOp token p =>
      match token with
      | Token.Minus => if p =? 9 then Some (Opcode.Core CoreOp.Neg) else token_to_binary_opcode token
      | Token.Bang => Some (Opcode.Core CoreOp.Not)
      | Token.Tilde => Some (Opcode.Core CoreOp.BitNot)
      | Token.Func f => Some (func_to_opcode f 1)
      | _ => token_to_binary_opcode token
      end
  | SVarargFunc func _ effect => Some (func_to_opcode func (wrap 8 (1 - effect)))
  | SCondEnd => Some (Opcode.Core CoreOp.CondEnd)
  | SUntilEnd => Some (Opcode.Control ControlOp.UntilEnd)
  | SStore target _ => Some (store_opcode kind target)
  | SLParen _ _ _ _ => Some (Opcode.Control ControlOp.NotGenerated)
  end.

Definition stack_effect (entry : StackEntry) : Z :=
  match entry with
  | SOp token p =>
      match token with
      | Token.Minus => if p =? 9 then 0 else -1
      | Token.Bang | Token.Tilde => 0
      | Token.Func f => 1 - func_arity f
      | _ => -1
      end
  | SVarargFunc _ _ effect => effect
  | SCondEnd => 0
  | SStore _ _ => -1
  | SLParen effect _ _ _ => effect
  | SSubrange _ effect _ => effect
  | SUntilEnd => 0
  end.

Definition is_barrier (entry : StackEntry) : bool :=
  match entry with SLParen _ _ _ _ | SSubrange _ _ _ => true | _ => false end.

(** ** The compiler's state *)

Record Compiler : Type := mkCompiler {
  output : Emitter;
  stack : list StackEntry;
  operand_needed : bool;
  runtime_depth : Z;
  missing : Holes;
  conds : list (Fork * nat);
  elses : nat;
  until_read : bool;
}.

Definition Compiler_new (kind : ExprKind) : Compiler :=
  mkCompiler (Emitter_new kind) [] true 0 Holes_default [] 0 false.

Definition with_stack (c : Compiler) (s : list StackEntry) : Compiler :=
  mkCompiler (output c) s (operand_needed c) (runtime_depth c) (missing c) (conds c) (elses c) (until_read c).
Definition with_output (c : Compiler) (o : Emitter) : Compiler :=
  mkCompiler o (stack c) (operand_needed c) (runtime_depth c) (missing c) (conds c) (elses c) (until_read c).
Definition with_missing (c : Compiler) (h : Holes) : Compiler :=
  mkCompiler (output c) (stack c) (operand_needed c) (runtime_depth c) h (conds c) (elses c) (until_read c).
Definition with_depth (c : Compiler) (d : Z) : Compiler :=
  mkCompiler (output c) (stack c) (operand_needed c) d (missing c) (conds c) (elses c) (until_read c).
Definition with_needed (c : Compiler) (b : bool) : Compiler :=
  mkCompiler (output c) (stack c) b (runtime_depth c) (missing c) (conds c) (elses c) (until_read c).
Definition with_until (c : Compiler) (b : bool) : Compiler :=
  mkCompiler (output c) (stack c) (operand_needed c) (runtime_depth c) (missing c) (conds c) (elses c) b.

Definition push_entry (c : Compiler) (e : StackEntry) : Compiler := with_stack c (e :: stack c).

Section Compile.
Context `{Host}.
Variable kind : ExprKind.

(** [output.op]; an [unreachable!] opcode never reaches it. *)
Definition emit_op (c : Compiler) (op : Opcode.t) : Compiler := with_output c (emit (output c) op).

Definition emit_entry (c : Compiler) (entry : StackEntry) : Compiler :=
  match entry_opcode entry kind with Some op => emit_op c op | None => c end.

(** [flush]: emit an entry leaving the stack and charge its effect. *)
Definition flush (entry : StackEntry) (c : Compiler) : Compiler :=
  let effect := stack_effect entry in
  let pushes := match entry with SStore _ _ | SLParen _ _ _ _ | SCondEnd => 0 | _ => 1 end in
  let h := holes_take (runtime_depth c) (pushes - effect) (missing c) in
  let depth := runtime_depth c + effect in
  let h := match entry with
           | SStore _ _ => holes_store depth h
           | SCondEnd => holes_cond_end depth h
           | _ => h
           end in
  emit_entry (with_depth (with_missing c h) depth) entry.

(** Flush entries off the top while [f] holds. *)
Fixpoint flush_while (f : StackEntry -> bool) (s : list StackEntry) (c : Compiler) : Compiler :=
  match s with
  | [] => with_stack c []
  | e :: rest => if f e then flush_while f rest (flush e c) else with_stack c s
  end.

Definition pop_higher_or_equal (incoming : Z) (c : Compiler) : Compiler :=
  flush_while (fun e => negb (is_barrier e || (in_stack_pri e <? incoming))) (stack c) c.

Definition pop_higher_strict (incoming : Z) (c : Compiler) : Compiler :=
  flush_while (fun e => negb (is_barrier e || (in_stack_pri e <=? incoming))) (stack c) c.

(** An element that pushes one value. *)
Definition operand (op : Opcode.t) (c : Compiler) : Compiler :=
  with_needed (with_depth (emit_op c op) (runtime_depth c + 1)) false.

Definition unary (token : Token.t) (c : Compiler) : Compiler :=
  push_entry (pop_higher_or_equal 10 c) (SOp token 9).

Definition const_opcode (c : ConstName.t) : CoreOp.t :=
  match c with
  | ConstName.Pi => CoreOp.Pi
  | ConstName.D2R => CoreOp.D2R
  | ConstName.R2D => CoreOp.R2D
  | ConstName.S2R => CoreOp.S2R
  | ConstName.R2S => CoreOp.R2S
  end.

(** The elements read while an operand is needed. *)
Definition operand_step (token : Token.t) (after_until : bool) (c : Compiler)
    : result CalcError.t Compiler :=
  match token with
  | Token.Number v => Ok (operand (Opcode.Core (CoreOp.PushConst v)) c)
  | Token.Var idx => Ok (operand (Opcode.Core (CoreOp.PushVar idx)) c)
  | Token.DoubleVar idx => Ok (operand (Opcode.Core (CoreOp.PushDoubleVar idx)) c)
  | Token.FetchVal => Ok (operand (Opcode.Core CoreOp.FetchVal) c)
  | Token.FetchAval => Ok (operand (Opcode.Array ArrayOp.FetchAval) c)
  | Token.ConstIx => Ok (operand (Opcode.Array ArrayOp.ConstIndex) c)
  | Token.ARndm => Ok (operand (Opcode.Array ArrayOp.ArrayRandom) c)
  | Token.FetchSval => Ok (operand (Opcode.Core CoreOp.FetchSval) c)
  | Token.Rndm => Ok (operand (Opcode.Core CoreOp.Random) c)
  | Token.Nrndm => Ok (operand (Opcode.Core CoreOp.NormalRandom) c)
  | Token.Const k => Ok (operand (Opcode.Core (const_opcode k)) c)
  | Token.StringLiteral s =>
      Ok (with_needed (with_depth (with_output c (emit_string (output c) s)) (runtime_depth c + 1)) false)
  | Token.Minus | Token.Bang | Token.Tilde => Ok (unary token c)
  | Token.LParen =>
      let args := match stack c with
                  | SVarargFunc _ _ _ :: _ => true
                  | SOp (Token.Func f) _ :: _ => 1 <? func_arity f
                  | _ => false
                  end in
      let '(span, h) := holes_open (runtime_depth c) (missing c) in
      Ok (push_entry (with_missing c h) (SLParen 0 span args after_until))
  | Token.UntilKeyword =>
      let c := emit_op (pop_higher_or_equal 10 c) (Opcode.Control ControlOp.Until) in
      Ok (with_until (push_entry c SUntilEnd) true)
  | Token.Func func =>
      let c := pop_higher_or_equal 10 c in
      Ok (push_entry c (if is_vararg func then SVarargFunc func 9 0 else SOp token 9))
  | _ => Err CalcError.Syntax
  end.

Definition is_lparen (e : StackEntry) : bool := match e with SLParen _ _ _ _ => true | _ => false end.

(** [)]. *)
Definition close_paren (c : Compiler) : result CalcError.t Compiler :=
  let c := flush_while (fun e => negb (is_lparen e)) (stack c) c in
  match stack c with
  | SLParen paren span _ closes_until :: rest =>
      let c := with_stack (with_missing c (holes_close span (runtime_depth c) (missing c))) rest in
      let c :=
        if closes_until : bool then
          match rest with
          | SUntilEnd :: rest => flush SUntilEnd (with_stack c rest)
          | _ => c
          end
        else c in
      Ok match stack c with
         | SVarargFunc func p _ :: rest => with_stack c (SVarargFunc func p paren :: rest)
         | _ => c
         end
  | _ => Err CalcError.ParenNotOpen
  end.

(** [,]. *)
Definition separator (c : Compiler) : result CalcError.t Compiler :=
  let c := flush_while (fun e => negb (is_barrier e)) (stack c) c in
  let next span args effect build rest :=
    let '(span, h) :=
      if args : bool
      then holes_open (runtime_depth c) (holes_close span (runtime_depth c) (missing c))
      else (span, missing c) in
    Ok (with_needed (with_stack (with_missing c h) (build (effect - 1) span :: rest)) true) in
  match stack c with
  | SSubrange in_place effect span :: rest => next span true effect (SSubrange in_place) rest
  | SLParen effect span args until :: rest =>
      next span args effect (fun effect span => SLParen effect span args until) rest
  | _ => Err CalcError.BadSeparator
  end.

(** [?]. *)
Definition question (c : Compiler) : Compiler :=
  let c := emit_op (pop_higher_strict 0 c) (Opcode.Core CoreOp.CondIf) in
  let h := holes_take (runtime_depth c) 1 (missing c) in
  let depth := runtime_depth c - 1 in
  let '(fork, h) := holes_fork depth h in
  let c := with_needed (with_depth (with_missing c h) depth) true in
  mkCompiler (output c) (stack c) (operand_needed c) (runtime_depth c) (missing c)
    ((fork, elses c) :: conds c) (elses c) (until_read c).

(** [:]. *)
Definition colon (c : Compiler) : result CalcError.t Compiler :=
  let c := emit_op (pop_higher_strict 0 c) (Opcode.Core CoreOp.CondElse) in
  match conds c with
  | [] => Err CalcError.Conditional
  | (fork, first) :: conds =>
      let h := holes_branch fork (runtime_depth c) (elses c) first (missing c) in
      Ok (mkCompiler (output c) (SCondEnd :: stack c) true (runtime_depth c - 1) h conds
            (S (elses c)) (until_read c))
  end.

(** [;]. *)
Definition semicolon (c : Compiler) : result CalcError.t Compiler :=
  let c := flush_while (fun e => negb (is_lparen e)) (stack c) c in
  match expr_terminator kind with
  | FlushOnly => Ok (with_needed c true)
  | Statement =>
      match stack c with
      | _ :: _ => Err CalcError.ParenOpen
      | [] =>
          match conds c with
          | _ :: _ => Err CalcError.Conditional
          | [] => if 1 <? runtime_depth c then Err CalcError.TooMany else Ok (with_needed c true)
          end
      end
  end.

Definition is_dyn_fetch (e : StackEntry) : bool :=
  match e with
  | SOp (Token.Func (FuncName.SDynFetch | FuncName.SDynSFetch | FuncName.DynFetch
                    | FuncName.DynAFetch)) _ => true
  | _ => false
  end.

Definition dyn_target (e : StackEntry) : StoreTarget :=
  match e with
  | SOp (Token.Func (FuncName.SDynFetch | FuncName.DynFetch)) _ => TDyn
  | _ => TDynDouble
  end.

(** [:=]. *)
Definition assign (c : Compiler) : result CalcError.t Compiler :=
  let rule := store_rule kind in
  let refused := match rule, stack c with TopLevel, _ :: _ => true | _, _ => false end in
  if refused then Err CalcError.BadAssignment
  else
    let pri := store_in_stack_pri rule in
    c ← (if existsb is_dyn_fetch (stack c) then
           let c := flush_while (fun e => negb (is_dyn_fetch e)) (stack c) c in
           match stack c with
           | e :: rest =>
               let c := with_missing c (holes_take (runtime_depth c) 1 (missing c)) in
               Ok (with_stack c (SStore (dyn_target e) pri :: rest))
           | [] => Err CalcError.BadAssignment
           end
         else
           match emitted_last (output c) with
           | Some (Opcode.Core (CoreOp.PushVar idx)) =>
               Ok (push_entry (with_output c (retract_last (output c))) (SStore (TVar idx) pri))
           | Some (Opcode.Core (CoreOp.PushDoubleVar idx)) =>
               Ok (push_entry (with_output c (retract_last (output c))) (SStore (TDoubleVar idx) pri))
           | _ => Err CalcError.BadAssignment
           end);
    Ok (with_needed (with_depth c (runtime_depth c - 1)) true).

(** [\[] and [{]. *)
Definition open_subrange (in_place : bool) (c : Compiler) : Compiler :=
  let c := pop_higher_or_equal 11 c in
  let '(span, h) := holes_open (runtime_depth c) (missing c) in
  with_needed (push_entry (with_missing c h) (SSubrange in_place (-1) span)) true.

Definition is_subrange (in_place : bool) (e : StackEntry) : bool :=
  match e with SSubrange b _ _ => Bool.eqb b in_place | _ => false end.

(** [\]] and [}]. *)
Definition close_subrange (in_place : bool) (c : Compiler) : result CalcError.t Compiler :=
  let c := flush_while (fun e => negb (is_subrange in_place e)) (stack c) c in
  match stack c with
  | (SSubrange _ _ span as e) :: rest =>
      let c := with_missing c (holes_close span (runtime_depth c) (missing c)) in
      Ok (flush e (with_stack c rest))
  | _ => Err (if in_place then CalcError.BraceNotOpen else CalcError.BracketNotOpen)
  end.

(** The elements read after an operand. *)
Definition operator_step (token : Token.t) (c : Compiler) : result CalcError.t Compiler :=
  match binary_op token with
  | Some (isp, icp) => Ok (with_needed (push_entry (pop_higher_or_equal icp c) (SOp token isp)) true)
  | None =>
      match token with
      | Token.RParen => close_paren c
      | Token.Comma => separator c
      | Token.Question => Ok (question c)
      | Token.Colon => colon c
      | Token.Semicolon => semicolon c
      | Token.Assign => assign c
      | Token.LBracket => Ok (open_subrange false c)
      | Token.LBrace => Ok (open_subrange true c)
      | Token.RBracket => close_subrange false c
      | Token.RBrace => close_subrange true c
      | Token.PipeMinus =>
          Ok (with_needed (push_entry (pop_higher_or_equal 6 c) (SOp Token.PipeMinus 6)) true)
      | _ => Err CalcError.Syntax
      end
  end.

Definition token_is_string_element (token : Token.t) : bool :=
  match token with
  | Token.DoubleVar _ | Token.FetchSval | Token.StringLiteral _ => true
  | Token.LBracket | Token.LBrace => true
  | Token.Func f =>
      match f with
      | FuncName.Str | FuncName.Printf | FuncName.BinWrite | FuncName.Sscanf | FuncName.BinRead
      | FuncName.SDynSFetch | FuncName.TrEsc | FuncName.Esc | FuncName.Crc16 | FuncName.ModBus
      | FuncName.Lrc | FuncName.AModBus | FuncName.Xor8 | FuncName.AddXor8 | FuncName.Len => true
      | _ => false
      end
  | _ => false
  end.

(** One pass of the loop, with the checks on the depth at its end. *)
Definition token_step (token : Token.t) (c : Compiler) : result CalcError.t Compiler :=
  let after_until := until_read c in
  let c := with_until c false in
  let c := match kind with
           | StringKind =>
               if token_is_string_element token
               then with_output c (set_uses_string (output c)) else c
           | _ => c
           end in
  c ← (if operand_needed c then operand_step token after_until c else operator_step token c);
  if runtime_depth c <? 0 then Err CalcError.Underflow
  else if runtime_stack_size kind <=? runtime_depth c then Err CalcError.Overflow
  else Ok c.

(** What is left on the operator stack at the end of the text. *)
Fixpoint flush_rest (s : list StackEntry) (c : Compiler) : result CalcError.t Compiler :=
  match s with
  | [] => Ok (with_stack c [])
  | SLParen _ _ _ _ :: _ => Err CalcError.ParenOpen
  | e :: rest => flush_rest rest (flush e c)
  end.

Definition finish_compile (c : Compiler) : result CalcError.t (list Z) :=
  c ← flush_rest (stack c) c;
  match conds c with
  | _ :: _ => Err CalcError.Conditional
  | [] =>
      if operand_needed c || negb (runtime_depth c =? 1) then Err CalcError.Incomplete
      else if holes_refused (runtime_depth c) (missing c) then Err CalcError.Underflow
      else Emitter_finish (output c)
  end.

Fixpoint compile_loop (fuel : nat) (rem : list Z) (c : Compiler)
    : option (result CalcError.t (list Z)) :=
  match fuel with
  | O => None
  | S fuel =>
      match Lexer_next kind (operand_needed c) rem with
      | Err e => Some (Err e)
      | Ok None => Some (finish_compile c)
      | Ok (Some (token, rem)) =>
          match token_step token c with
          | Err e => Some (Err e)
          | Ok c => compile_loop fuel rem c
          end
      end
  end.

(** [postfix::compile]. *)
Definition postfix_compile (expr : list Z) : option (result CalcError.t (list Z)) :=
  compile_loop (S (length expr)) expr (Compiler_new kind).
End Compile.

(** [calc::compile], [scalc_compile], [acalc_compile]. *)
Definition compile `{Host} (expr : list Z) : option (result CalcError.t (list Z)) :=
  match expr with
  | [] => Some (Err CalcError.NullArg)
  | _ => postfix_compile Numeric expr
  end.

Definition synapps_compile `{Host} (kind : ExprKind) (expr : list Z)
    : option (result CalcError.t (list Z)) :=
  match expr with
  | [] => Some (Ok [END])
  | _ => postfix_compile kind expr
  end.
