(* ===== verification/CalcEval.v ===== *)
(** * Calculation engine: the numeric evaluator

    [epics-base-rs/src/calc/engine]: the casts of [cast.rs], the fixed operand stack of
    [stack.rs], the arguments of [mod.rs], base's generator of [random.rs] and [calcPerform],
    [numeric.rs].  The elementary functions of libm are the class [Libm].  The loop carries
    fuel; [OutOfFuel] is fuel run out. *)
From Stdlib Require Import SpecFloat.
From stdpp Require Import base tactics numbers list option strings.
From S2P Require Import Prelude Float64 CalcOps CalcCode CalcPostfix.

Open Scope Z_scope.

(** ** Casts *)

Definition c_int (x : f64) : Z := cvttsd2si32 x.

(** [x.trunc().rem_euclid(2^32) as u64 as u32]. *)
Definition f64_to_u32_wrap (x : f64) : Z :=
  if f64_is_nan x then 0
  else wrap 32 (f64_to_u64 (f64_rem_euclid (f64_trunc x) (f64_of_Z 4294967296))).

Definition f64_to_i32_wrap (x : f64) : Z :=
  if f64_is_nan x then 0
  else swrap 32 (f64_to_u64 (f64_rem_euclid (f64_trunc x) (f64_of_Z 4294967296))).

Definition d2i (x : f64) : Z :=
  if f64_ltb x f64_zero then f64_to_i32_wrap x else swrap 32 (f64_to_u32_wrap x).

Definition d2ui (x : f64) : Z :=
  if f64_ltb x f64_zero then wrap 32 (f64_to_i32_wrap x) else f64_to_u32_wrap x.

Definition f64_half : f64 := f64_of_bits 0x3FE0000000000000.
Definition f64_one : f64 := f64_of_Z 1.

(** [nint] and [imod] with the dialect's narrowing. *)
Definition nint (narrow : f64 -> Z) (x : f64) : f64 :=
  f64_of_Z (narrow (if f64_geb x f64_zero then f64_add x f64_half else f64_sub x f64_half)).

Definition imod (narrow : f64 -> Z) (a b : f64) : option f64 :=
  let divisor := narrow b in
  if divisor =? 0 then None
  else if divisor =? -1 then Some f64_zero
  else Some (f64_of_Z (Z.rem (narrow a) divisor)).

(** [super::isinf]. *)
Definition isinf (v : f64) : f64 := if f64_is_infinite v then f64_one else f64_zero.

Definition of_bool (b : bool) : f64 := if b then f64_one else f64_zero.

(** ** libm *)

Class Libm : Type := {
  powf : f64 -> f64 -> f64;
  atan2 : f64 -> f64 -> f64;
  libm_exp : f64 -> f64; libm_log10 : f64 -> f64; libm_ln : f64 -> f64;
  libm_sin : f64 -> f64; libm_cos : f64 -> f64; libm_tan : f64 -> f64;
  libm_asin : f64 -> f64; libm_acos : f64 -> f64; libm_atan : f64 -> f64;
  libm_sinh : f64 -> f64; libm_cosh : f64 -> f64; libm_tanh : f64 -> f64;
}.

Definition PI : f64 := f64_of_bits 0x400921FB54442D18.

(** ** The operand stack *)

(** [Stack<T, N>]: the values, the bottom first, and whether a push was dropped. *)
Record Stack : Type := mkStack {
  cells : list f64;
  overflowed : bool;
}.

Definition CALCPERFORM_STACK : nat := 80.

Definition Stack_new : Stack := mkStack [] false.

Definition push (s : Stack) (v : f64) : Stack :=
  if (length (cells s) <? CALCPERFORM_STACK)%nat
  then mkStack (cells s ++ [v]) (overflowed s) else mkStack (cells s) true.

Definition pop (s : Stack) : option (f64 * Stack) :=
  v ← last (cells s); Some (v, mkStack (removelast (cells s)) (overflowed s)).

Definition truncate (s : Stack) (n : nat) : Stack := mkStack (take n (cells s)) (overflowed s).

Definition pop1 (s : Stack) : result CalcError.t (f64 * Stack) := ok_or (pop s) CalcError.Underflow.

Definition pop2 (s : Stack) : result CalcError.t (f64 * f64 * Stack) :=
  '(b, s) ← pop1 s; '(a, s) ← pop1 s; Ok (a, b, s).

(** ** Arguments *)

Definition CALC_NARGS : nat := 21.

Record NumericVars : Type := mkNumericVars {
  vars : list f64;
  prev_val : f64;
  num_args : nat;
}.

Definition with_counts (n : nat) : NumericVars :=
  mkNumericVars (replicate CALC_NARGS f64_zero) f64_zero (n `min` CALC_NARGS).

(** The caller's own block of [CALC_NARGS]. *)
Definition all_vars (vars : list f64) (prev_val : f64) : NumericVars :=
  mkNumericVars vars prev_val CALC_NARGS.

Definition num_arg (v : NumericVars) (i : nat) : option f64 :=
  if (i <? num_args v)%nat then vars v !! i else None.

(** The store through [num_arg_mut]. *)
Definition store_arg (v : NumericVars) (i : nat) (x : f64) : NumericVars :=
  if (i <? num_args v)%nat then mkNumericVars (<[i := x]> (vars v)) (prev_val v) (num_args v) else v.

(** ** The generator *)

Definition RAND_MULTY : Z := 1533.
Definition RAND_ADDY : Z := 0x3141.
Definition advance (seed : Z) : Z := wrap 16 (wrap 16 (seed * RAND_MULTY) + RAND_ADDY).
Definition calc_random (seed : Z) : f64 * Z :=
  let s := advance seed in (f64_div (f64_of_Z s) (f64_of_Z 65535), s).

(** ** calcPerform *)

(** What an evaluation changes: the stack, the arguments, the thread's seed. *)
Record Machine : Type := mkMachine {
  operand_stack : Stack;
  args : NumericVars;
  seed : Z;
}.

Definition on_stack (m : Machine) (s : Stack) : Machine := mkMachine s (args m) (seed m).
Definition push_value (m : Machine) (v : f64) : Machine := on_stack m (push (operand_stack m) v).

Definition unary_op (f : f64 -> f64) (m : Machine) : result CalcError.t Machine :=
  '(a, s) ← pop1 (operand_stack m); Ok (on_stack m (push s (f a))).

Definition binary (f : f64 -> f64 -> f64) (m : Machine) : result CalcError.t Machine :=
  '(a, b, s) ← pop2 (operand_stack m); Ok (on_stack m (push s (f a b))).

Definition nonzero (a : f64) : bool := negb (f64_eqb a f64_zero).

Definition bit_op (f : Z -> Z -> Z) (a b : f64) : f64 := f64_of_Z (f (d2i a) (d2i b)).

(** Of [n] arguments, the shallowest kept unless a deeper one wins; [n = 0] indexes past an
    empty stack, or takes the top without its being an argument, as the source does. *)
Definition extremum (wins : f64 -> f64 -> bool) (n : nat) (m : Machine)
    : option (result CalcError.t Machine) :=
  let s := operand_stack m in
  if (length (cells s) <? n)%nat then Some (Err CalcError.Underflow)
  else
    match last (cells s) with
    | None => None
    | Some top =>
        let base := (length (cells s) - n)%nat in
        let deeper := reverse (drop base (removelast (cells s))) in
        let acc := foldl (fun acc d => if wins d acc || f64_is_nan acc then acc else d) top deeper in
        Some (Ok (on_stack m (push (truncate s base) acc)))
    end.

Definition any_all (f : list f64 -> bool) (n : nat) (m : Machine) : result CalcError.t Machine :=
  let s := operand_stack m in
  if (length (cells s) <? n)%nat then Err CalcError.Underflow
  else
    let base := (length (cells s) - n)%nat in
    Ok (on_stack m (push (truncate s base) (of_bool (f (drop base (cells s)))))).

(** How one instruction leaves the loop. *)
Inductive eval_step : Type :=
| Continue (m : Machine) (pc : nat)
| Finished
| Fault (e : CalcError.t)
| Panicked
| Unfinished.

Definition continue_at (pc : nat) (r : result CalcError.t Machine) : eval_step :=
  match r with Ok m => Continue m pc | Err e => Fault e end.

Definition jump (m : Machine) (r : option (result CalcError.t nat)) : eval_step :=
  match r with
  | Some (Ok pc) => Continue m pc
  | Some (Err e) => Fault e
  | None => Unfinished
  end.

Section Eval.
Context `{Host} `{Libm}.
Variable code : list Z.

(** The count byte of a vararg operator at [pc]. *)
Definition vararg_step (pc : nat) (f : nat -> option (result CalcError.t Machine)) : eval_step :=
  match code !! pc with
  | None => Fault CalcError.Internal
  | Some n =>
      match f (Z.to_nat n) with
      | Some r => continue_at (S pc) r
      | None => Panicked
      end
  end.

(** The switch of [eval_vars] on the byte [b], with [pc] past it. *)
Definition dispatch (b : Z) (pc : nat) (m : Machine) : eval_step :=
  let one f := continue_at pc (unary_op f m) in
  let two f := continue_at pc (binary f m) in
  let test f := continue_at pc (binary (fun a b => of_bool (f a b)) m) in
  if b =? END then Finished
  else if b =? LITERAL_DOUBLE then
    match get_range code pc 8 with
    | Some p => Continue (push_value m (f64_of_bits (from_ne_bytes p))) (pc + 8)
    | None => Fault CalcError.Internal
    end
  else if b =? LITERAL_INT then
    match get_range code pc 4 with
    | Some p => Continue (push_value m (f64_of_Z (swrap 32 (from_ne_bytes p)))) (pc + 4)
    | None => Fault CalcError.Internal
    end
  else if b =? 3 then Continue (push_value m (prev_val (args m))) pc
  else if (4 <=? b) && (b <=? 24) then
    Continue (push_value m (default f64_zero (num_arg (args m) (Z.to_nat (b - 4))))) pc
  else if (25 <=? b) && (b <=? 45) then
    match pop1 (operand_stack m) with
    | Ok (v, s) => Continue (mkMachine s (store_arg (args m) (Z.to_nat (b - 25)) v) (seed m)) pc
    | Err e => Fault e
    end
  else
    match b with
    | 46 => Continue (push_value m PI) pc
    | 47 => Continue (push_value m (f64_div PI (f64_of_Z 180))) pc
    | 48 => Continue (push_value m (f64_div (f64_of_Z 180) PI)) pc
    | 49 => one f64_opp
    | 50 => two f64_add
    | 51 => two f64_sub
    | 52 => two f64_mul
    | 53 => two f64_div
    | 54 => two (fun a b => default S754_nan (imod c_int a b))
    | 55 => two powf
    | 56 => one f64_abs
    | 57 => one libm_exp
    | 58 => one libm_log10
    | 59 => one libm_ln
    | 60 => vararg_step pc (fun n => extremum f64_ltb n m)
    | 61 => vararg_step pc (fun n => extremum f64_gtb n m)
    | 62 => one f64_sqrt
    | 63 => one libm_acos
    | 64 => one libm_asin
    | 65 => one libm_atan
    | 66 => two (fun a b => atan2 b a)
    | 67 => one libm_cos
    | 68 => one libm_cosh
    | 69 => one libm_sin
    | 70 => one libm_sinh
    | 71 => one libm_tan
    | 72 => one libm_tanh
    | 73 => one f64_ceil
    | 74 => one f64_floor
    | 75 => two f64_rem
    | 76 => vararg_step pc (fun n => Some (any_all (forallb f64_is_finite) n m))
    | 77 => one isinf
    | 78 => vararg_step pc (fun n => Some (any_all (existsb f64_is_nan) n m))
    | 79 => one (nint c_int)
    | 80 => let '(v, s) := calc_random (seed m) in
            Continue (mkMachine (push (operand_stack m) v) (args m) s) pc
    | 81 => test (fun a b => nonzero a || nonzero b)
    | 82 => test (fun a b => nonzero a && nonzero b)
    | 83 => one (fun a => of_bool (f64_eqb a f64_zero))
    | 84 => two (bit_op Z.lor)
    | 85 => two (bit_op Z.land)
    | 86 => two (bit_op Z.lxor)
    | 87 => one (fun a => f64_of_Z (Z.lnot (d2i a)))
    | 88 => two (fun a b => f64_of_Z (Z.shiftr (d2i a) (Z.land (d2i b) 31)))
    | 89 => two (fun a b => f64_of_Z (swrap 32 (Z.shiftl (d2i a) (Z.land (d2i b) 31))))
    | 90 => two (fun a b => f64_of_Z (Z.shiftr (d2ui a) (Z.land (d2ui b) 31)))
    | 91 => test (fun a b => negb (f64_eqb a b))
    | 92 => test f64_ltb
    | 93 => test f64_leb
    | 94 => test f64_eqb
    | 95 => test f64_geb
    | 96 => test f64_gtb
    | 97 => match pop1 (operand_stack m) with
            | Ok (cond, s) =>
                let m := on_stack m s in
                if f64_eqb cond f64_zero then jump m (cond_search BASE code pc true)
                else Continue m pc
            | Err e => Fault e
            end
    | 98 => jump m (cond_search BASE code pc false)
    | 99 => Continue m pc
    | _ => Fault CalcError.Internal
    end.

(** The closing checks. *)
Definition eval_result (m : Machine) : result CalcError.t f64 :=
  if overflowed (operand_stack m) then Err CalcError.Overflow
  else match cells (operand_stack m) with
       | [v] => Ok v
       | _ => Err CalcError.Internal
       end.

(** The answer and the machine, whose arguments are the caller's. *)
Inductive evaluation : Type :=
| Done (r : result CalcError.t f64) (m : Machine)
| Panics
| OutOfFuel.

Fixpoint eval_loop (fuel : nat) (pc : nat) (m : Machine) : evaluation :=
  match fuel with
  | O => OutOfFuel
  | S fuel =>
      match code !! pc with
      | None => Done (eval_result m) m
      | Some b =>
          match dispatch b (S pc) m with
          | Continue m pc => eval_loop fuel pc m
          | Finished => Done (eval_result m) m
          | Fault e => Done (Err e) m
          | Panicked => Panics
          | Unfinished => OutOfFuel
          end
      end
  end.

Definition eval_vars (inputs : NumericVars) (seed : Z) : evaluation :=
  let m := mkMachine Stack_new inputs seed in
  if is_empty code then Done (Err CalcError.EmptyProgram) m
  else eval_loop (S (length code)) 0 m.
End Eval.

(** [calc::calc]: compile and evaluate; a compile error leaves the arguments alone. *)
Definition calc `{Host} `{Libm} (expr : list Z) (inputs : NumericVars) (seed : Z) : evaluation :=
  match compile expr with
  | Some (Ok code) => eval_vars code inputs seed
  | Some (Err e) => Done (Err e) (mkMachine Stack_new inputs seed)
  | None => OutOfFuel
  end.
