(* ===== verification/CalcTheory.v ===== *)
(** * Calculation engine: reading, writing and termination

    Every loop over the text or the byte stream ends within the fuel it is given, in each
    dialect; an instruction decodes from its own bytes. *)
From Stdlib Require Import SpecFloat.
From stdpp Require Import base tactics numbers list option strings.
From S2P Require Import Prelude Float64 Strtod CalcOps CalcLex CalcCode CalcPostfix CalcEval.

Open Scope Z_scope.

(** ** Instructions advance *)

Lemma get_range_spec code pc n p :
  get_range code pc n = Some p -> (pc + n <= length code)%nat /\ p = take n (drop pc code).
Proof. unfold get_range. destruct (Nat.leb_spec (pc + n) (length code)); naive_solver. Qed.

Lemma nul_position_lt l n : nul_position l = Some n -> (n < length l)%nat.
Proof.
  revert n. induction l as [|b l IH]; intros n; [done|]. simpl. destruct (b =? 0); [naive_solver lia|].
  destruct (nul_position l) as [k|]; [|done]. intros [= <-]. specialize (IH k eq_refl). lia.
Qed.

Section Reading.
Context `{Host}.

Lemma decode_advances t code pc op next b :
  code !! pc = Some b -> decode t code pc = Ok (op, next) -> (pc < next <= length code)%nat.
Proof.
  intros Hb. unfold decode. rewrite Hb. apply lookup_lt_Some in Hb.
  destruct (default Slot.Invalid (t !! Z.to_nat b)); [done|..]; intros Hd.
  - injection Hd as <- <-. lia.
  - destruct (code !! S pc) eqn:E; [|done]. injection Hd as <- <-. apply lookup_lt_Some in E. lia.
  - destruct (get_range code (S pc) 8) eqn:E; [|done]. injection Hd as <- <-.
    apply get_range_spec in E. lia.
  - destruct (get_range code (S pc) 4) eqn:E; [|done]. injection Hd as <- <-.
    apply get_range_spec in E. lia.
  - destruct (nul_position (drop (S pc) code)) as [n|] eqn:E; [|done]. injection Hd as <- <-.
    apply nul_position_lt in E. rewrite length_drop in E. lia.
Qed.

Lemma decode_past t code pc : (length code <= pc)%nat -> decode t code pc = Ok (Opcode.Core CoreOp.End, pc).
Proof. intros Hl. unfold decode. by rewrite lookup_ge_None_2. Qed.

(** The fuel left and the offset reached, kept by every loop. *)
Lemma decode_cases t code pc :
  (exists e, decode t code pc = Err e) \/
  (decode t code pc = Ok (Opcode.Core CoreOp.End, pc)) \/
  (exists op next, decode t code pc = Ok (op, next) /\ (pc < next <= length code)%nat).
Proof.
  destruct (decode t code pc) as [[op next]|e] eqn:E; [|eauto]. right.
  destruct (code !! pc) as [b|] eqn:Hb.
  - right. exists op, next. split; [done|]. by eapply decode_advances.
  - left. unfold decode in E. rewrite Hb in E. done.
Qed.

Lemma instructions_total t code : forall fuel pc,
  (length code < fuel + pc)%nat -> (0 < fuel)%nat -> is_Some (instructions_from t code pc fuel).
Proof.
  induction fuel as [|fuel IH]; intros pc Hf Hp; [lia|]. cbn [instructions_from].
  destruct (decode_cases t code pc) as [[e ->]|[-> |(op & next & -> & Hn)]]; [eauto|eauto|].
  assert (Hi : is_Some (instructions_from t code next fuel)) by (apply IH; lia).
  destruct Hi as [l Hl]. destruct op as [[]| | |]; rewrite ?Hl; eauto.
Qed.

Lemma cond_search_total t code find_else : forall fuel pc count,
  (length code < fuel + pc)%nat -> (0 < fuel)%nat ->
  exists r, cond_search_from t code find_else pc count fuel = Some r /\
  forall next, r = Ok next -> (pc < next <= length code)%nat.
Proof.
  induction fuel as [|fuel IH]; intros pc count Hf Hp; [lia|]. cbn [cond_search_from].
  destruct (decode_cases t code pc) as [[e ->]|[-> |(op & next & -> & Hn)]];
    [eexists; split; [done|naive_solver]|eexists; split; [done|naive_solver]|].
  assert (Hi : forall count, exists r, cond_search_from t code find_else next count fuel = Some r /\
    forall n, r = Ok n -> (pc < n <= length code)%nat).
  { intros k. destruct (IH next k) as (r & Hr & Hb); [lia|lia|]. exists r. split; [done|].
    intros n ->. specialize (Hb n eq_refl). lia. }
  assert (Hm : exists r, (if count - 1 =? 0 then Some (Ok next)
      else cond_search_from t code find_else next (count - 1) fuel) = Some r /\
    forall n, r = Ok n -> (pc < n <= length code)%nat).
  { destruct (count - 1 =? 0); [|apply Hi]. exists (Ok next). split; [done|]. intros n [= <-]. lia. }
  destruct op as [[]| | |]; try apply Hi; try (by eexists; split; [done|]); destruct find_else; done || apply Hi.
Qed.

Lemma until_scan_total t code : forall fuel slots pc,
  (length code < fuel + pc)%nat -> (0 < fuel)%nat -> is_Some (until_scan_from t code slots pc fuel).
Proof.
  induction fuel as [|fuel IH]; intros slots pc Hf Hp; [lia|]. cbn [until_scan_from].
  destruct (decode_cases t code pc) as [[e ->]|[-> |(op & next & -> & Hn)]]; [eauto|eauto|].
  assert (Hi : forall slots, is_Some (until_scan_from t code slots next fuel)) by (intros; apply IH; lia).
  destruct op as [[]| |[]|]; try apply Hi; eauto; case_match; eauto.
Qed.
End Reading.

(** ** The evaluator ends *)

Create HintDb calc.

Section Ends.
Context `{Host} `{Libm}.
Variable code : list Z.

(** An instruction goes on past its own byte, and never runs out of fuel. *)
Definition moves_on (pc : nat) (st : eval_step) : Prop :=
  match st with
  | Continue _ pc' => (pc <= pc')%nat
  | Unfinished => False
  | _ => True
  end.

Lemma continue_moves pc r : moves_on pc (continue_at pc r).
Proof. by destruct r; simpl. Qed.

Lemma vararg_moves pc f : moves_on pc (vararg_step code pc f).
Proof. unfold vararg_step. destruct (code !! pc); [|done]. destruct (f _) as [[]|]; simpl; lia. Qed.

Lemma jump_moves pc m b : moves_on pc (jump m (cond_search BASE code pc b)).
Proof.
  unfold cond_search. destruct (cond_search_total BASE code b (S (length code)) pc 1) as (r & -> & Hr); [lia|lia|].
  destruct r as [next|]; simpl; [|done]. specialize (Hr next eq_refl). lia.
Qed.

Lemma dispatch_moves b pc m : moves_on pc (dispatch code b pc m).
Proof.
  unfold dispatch. cbv zeta.
  repeat match goal with
  | |- moves_on _ (continue_at _ _) => apply continue_moves
  | |- moves_on _ (vararg_step _ _ _) => apply vararg_moves
  | |- moves_on _ (jump _ _) => apply jump_moves
  | |- moves_on _ (Continue _ _) => simpl; lia
  | |- moves_on _ (match ?x with _ => _ end) => destruct x
  | |- moves_on _ _ => exact I
  end.
Qed.

Lemma eval_loop_ends : forall fuel pc m,
  (length code < fuel + pc)%nat -> (0 < fuel)%nat -> eval_loop code fuel pc m <> OutOfFuel.
Proof.
  induction fuel as [|fuel IH]; intros pc m Hf Hp; [lia|]. cbn [eval_loop].
  destruct (code !! pc) as [b|] eqn:Hb; [|done]. apply lookup_lt_Some in Hb.
  pose proof (dispatch_moves b (S pc) m) as Hm.
  destruct (dispatch code b (S pc) m) as [m' pc'| | | |]; simpl in Hm; try done. apply IH; lia.
Qed.
End Ends.

(** ** The lexer consumes *)

Lemma span_app f s a b : span f s = (a, b) -> s = a ++ b.
Proof.
  revert a b. induction s as [|x s IH]; intros a b; simpl; [by intros [= <- <-]|].
  destruct (f x); [|by intros [= <- <-]]. destruct (span f s) as [a' b'].
  intros [= <- <-]. by rewrite (IH _ _ eq_refl).
Qed.

Lemma span_snd f s : (length (snd (span f s)) <= length s)%nat.
Proof.
  destruct (span f s) as [a b] eqn:E. apply span_app in E as ->. rewrite length_app. simpl. lia.
Qed.

Lemma best_symbol_spec rem symbols n tok :
  best_symbol rem symbols = Some (n, tok) ->
  exists name, (name, tok) ∈ symbols /\ n = length name /\ starts_with_ci rem name = true.
Proof.
  unfold best_symbol.
  set (f := fun best '(name, tok) => _).
  assert (Hg : forall (symbols : list (list Z * Token.t)) (best : option (nat * Token.t)),
    (forall n tok, best = Some (n, tok) ->
      exists name, (name, tok) ∈ symbols /\ n = length name /\ starts_with_ci rem name = true) ->
    forall rest : list (list Z * Token.t), (forall x, x ∈ rest -> x ∈ symbols) -> forall n tok, foldl f best rest = Some (n, tok) ->
      exists name, (name, tok) ∈ symbols /\ n = length name /\ starts_with_ci rem name = true).
  { intros syms best Hb rest. revert best Hb. induction rest as [|[name t] rest IH]; intros best Hb Hin k tk; [apply Hb|].
    cbn [foldl]. apply IH; [|intros x Hx; apply Hin; by constructor].
    intros k' tk'. unfold f. destruct (starts_with_ci rem name) eqn:Es; [|apply Hb].
    assert (Hn : (name, t) ∈ syms) by (apply Hin; constructor).
    destruct best as [[blen bt]|]; [|naive_solver].
    destruct (blen <? length name)%nat; [naive_solver|apply Hb]. }
  apply (Hg symbols None); naive_solver.
Qed.

Lemma starts_length text name : starts_with_ci text name = true -> (length name <= length text)%nat.
Proof. unfold starts_with_ci, starts_ci. intros [Hl _]%andb_prop. by apply Nat.leb_le. Qed.

(** No element has an empty name. *)
Definition names_ok (symbols : list (list Z * Token.t)) : bool :=
  forallb (fun '(name, _) => negb (length name =? 0)%nat) symbols.

Lemma tables_named kind : names_ok (operands (table_for kind)) = true /\ names_ok (operators (table_for kind)) = true.
Proof. destruct kind; split; vm_compute; reflexivity. Qed.

Lemma match_symbol_consumes rem symbols tok rest :
  names_ok symbols = true -> match_symbol rem symbols = Some (tok, rest) -> (length rest < length rem)%nat.
Proof.
  unfold match_symbol. intros Hn. destruct (best_symbol rem symbols) as [[n t]|] eqn:E; [|done]. simpl. intros [= <- <-].
  apply best_symbol_spec in E as (name & Hin & -> & Hs). apply starts_length in Hs.
  unfold names_ok in Hn. rewrite forallb_forall in Hn.
  specialize (Hn _ (proj1 (list_elem_of_In _ _) Hin)). simpl in Hn.
  apply negb_true_iff, Nat.eqb_neq in Hn. rewrite length_drop. lia.
Qed.

Lemma match_var_consumes t rem tok rest :
  match_var t rem = Some (tok, rest) -> (length rest < length rem)%nat.
Proof.
  unfold match_var, match_single.
  repeat case_match; intros; simplify_eq; simpl; lia.
Qed.

Lemma read_literal_consumes t rem v rest :
  rem <> [] -> read_literal t rem = Ok (v, rest) -> (length rest < length rem)%nat.
Proof.
  intros Hne. assert (Hp : (0 < length rem)%nat) by (destruct rem; [done|simpl; lia]).
  unfold read_literal. case_match eqn:Hh.
  - apply andb_prop in Hh as [Hh _].
    destruct (span is_ascii_hexdigit (drop 2 rem)) as [a b] eqn:E. destruct (hex_u32 a); [|done]. intros [= _ <-].
    pose proof (span_snd is_ascii_hexdigit (drop 2 rem)) as Hl. rewrite E, length_drop in Hl. simpl in Hl.
    destruct rem as [|? [|? ?]]; simpl in *; try done; lia.
  - destruct (std_len (strtod rem) =? 0)%nat eqn:E0; [done|]. destruct (std_erange _ && _); [done|]. intros [= _ <-].
    apply Nat.eqb_neq in E0. rewrite length_drop. lia.
Qed.

Lemma next_consumes kind operand rem tok rest :
  Lexer_next kind operand rem = Ok (Some (tok, rest)) -> (length rest < length rem)%nat.
Proof.
  unfold Lexer_next. pose proof (span_snd c_isspace rem) as Hs. unfold skip_whitespace.
  destruct (tables_named kind) as [Ho Hr].
  destruct (snd (span c_isspace rem)) as [|b text]; [done|]. intros Hn.
  enough (length rest < length (b :: text))%nat by lia. clear Hs rem. revert Hn.
  destruct operand; cbn [negb].
  - destruct (at_literal _ _).
    { destruct (read_literal _ _) as [[v r]|] eqn:E; [|done]. intros [= <- <-]. eapply read_literal_consumes; [done|exact E]. }
    case_match.
    { unfold read_string_literal. destruct (span _ text) as [raw r] eqn:E. intros [= <- <-].
      pose proof (span_snd (fun x => negb (x =? b)) text) as Hl. rewrite E in Hl. simpl in Hl.
      rewrite length_drop. simpl. lia. }
    destruct (match_symbol (b :: text) _) as [[t r]|] eqn:E.
    { intros [= <- <-]. eapply match_symbol_consumes; [exact Ho|exact E]. }
    destruct (match_var _ _) as [[t r]|] eqn:Ev; [|done]. intros [= <- <-]. eapply match_var_consumes; exact Ev.
  - destruct (match_symbol (b :: text) _) as [[t r]|] eqn:E; [|done]. intros [= <- <-]. eapply match_symbol_consumes; [exact Hr|exact E].
Qed.

Lemma compile_loop_total `{Host} kind : forall fuel rem c,
  (length rem < fuel)%nat -> is_Some (compile_loop kind fuel rem c).
Proof.
  induction fuel as [|fuel IH]; intros rem c Hf; [lia|]. cbn [compile_loop].
  destruct (Lexer_next kind (operand_needed c) rem) as [[[tok rest]|]|e] eqn:E; [|eauto|eauto].
  apply next_consumes in E. destruct (token_step kind tok c); [|eauto]. apply IH. lia.
Qed.

(** C14: the compiler, the instruction reader and the loop scan return on every text and every
    byte string, in each dialect, and the evaluator ends on any byte string given as a program,
    and on the program of any text: within a fuel of one more than the length each loop ends,
    with a value, an error or a panic of the code. *)
Theorem calc_terminates `{Host} `{Libm} kind expr code inputs seed :
  is_Some (postfix_compile kind expr) /\ is_Some (instructions kind code) /\
  is_Some (until_scan kind code) /\ eval_vars code inputs seed <> OutOfFuel /\
  calc expr inputs seed <> OutOfFuel.
Proof.
  assert (He : forall code, eval_vars code inputs seed <> OutOfFuel).
  { intros cd. unfold eval_vars. destruct (is_empty cd); [done|]. apply eval_loop_ends; lia. }
  assert (Hc : forall kind, is_Some (postfix_compile kind expr)) by (intros; apply compile_loop_total; lia).
  split_and!; [done|apply instructions_total; lia|apply until_scan_total; lia|done|].
  unfold calc, compile. destruct expr; [done|]. destruct (Hc Numeric) as [[cd|e] ->]; [apply He|done].
Qed.
