(* ===== verification/CalcCodeTheory.v ===== *)
(** * Calculation engine: a program is read back as it was written

    The bytes [Emitter] writes for an instruction are the ones [decode] reads, in each of the
    three numberings and for either byte order: a constant comes back as the same double (a
    negative zero as zero), a count of arguments with its operator, a string as the range of
    the program that holds it. *)
From Stdlib Require Import SpecFloat.
From stdpp Require Import base tactics numbers list option strings.
From S2P Require Import Prelude Float64 Float64Theory Strtod CalcOps CalcCode CalcTheory.

Open Scope Z_scope.

(** The double a constant's bytes hold. *)
Definition literal_value (v : f64) : f64 :=
  let i := f64_of_Z (f64_to_i32 v) in if f64_eqb v i then i else v.

Lemma literal_value_eqb v : literal_value v = v \/ f64_eqb v (literal_value v) = true.
Proof. unfold literal_value. destruct (f64_eqb v _) eqn:E; auto. Qed.

Definition stored (op : Opcode.t) : Opcode.t :=
  match op with
  | Opcode.Core (CoreOp.PushConst v) => Opcode.Core (CoreOp.PushConst (literal_value v))
  | _ => op
  end.

Definition const_ok (op : Opcode.t) : bool :=
  match op with Opcode.Core (CoreOp.PushConst v) => f64_valid v | _ => true end.

Lemma slot_position_spec f l k : slot_position f l = Some k -> exists s, l !! k = Some s /\ f s = true.
Proof.
  revert k. induction l as [|s l IH]; intros k; [done|]. simpl. destruct (f s) eqn:E.
  - intros [= <-]. by exists s.
  - destruct (slot_position f l) as [j|]; [|done]. intros [= <-]. by apply IH.
Qed.

Lemma lookup_at {A} (pre : list A) b rest : (pre ++ b :: rest) !! length pre = Some b.
Proof. by rewrite list_lookup_middle. Qed.

Lemma lookup_after {A} (pre : list A) b c rest : (pre ++ b :: c :: rest) !! S (length pre) = Some c.
Proof. change (b :: c :: rest) with ([b] ++ c :: rest). rewrite app_assoc. apply list_lookup_middle. rewrite length_app. simpl. lia. Qed.

Lemma drop_after {A} (pre : list A) b rest : drop (S (length pre)) (pre ++ b :: rest) = rest.
Proof. change (b :: rest) with ([b] ++ rest). rewrite app_assoc. apply drop_app_length'. rewrite length_app. simpl. lia. Qed.

Lemma get_range_after pre b p rest n :
  length p = n -> get_range (pre ++ b :: p ++ rest) (S (length pre)) n = Some p.
Proof.
  intros Hn. unfold get_range. rewrite drop_after, take_app_length' by done.
  destruct (Nat.leb_spec (S (length pre) + n) (length (pre ++ b :: p ++ rest))) as [|Hlt]; [done|].
  rewrite length_app in Hlt. simpl in Hlt. rewrite length_app in Hlt. lia.
Qed.

Section Code.
Context `{Host}.

Lemma length_ne n x : length (to_ne_bytes n x) = n.
Proof. unfold to_ne_bytes. destruct big_host; [apply length_to_be_bytes|apply length_to_le_bytes]. Qed.

Lemma from_to_ne n x : 0 <= x < 256 ^ Z.of_nat n -> from_ne_bytes (to_ne_bytes n x) = x.
Proof.
  intros Hx. unfold from_ne_bytes, to_ne_bytes.
  destruct big_host; rewrite ?from_to_be_bytes, ?from_to_le_bytes; by apply Z.mod_small.
Qed.

Lemma table_literals kind :
  table kind !! 1%nat = Some Slot.LitDouble /\ table kind !! 2%nat = Some Slot.LitInt.
Proof. destruct kind; split; vm_compute; reflexivity. Qed.

(** An instruction is a constant, or its slot and its count. *)
Lemma encode_cases t op :
  (exists v, op = Opcode.Core (CoreOp.PushConst v)) \/
  (stored op = op /\
   encode t op = b ← slot_position (slot_matches op) t;
                 Some (Z.of_nat b :: match op_nargs op with Some n => [n] | None => [] end)).
Proof. destruct op as [[]| | |]; eauto. Qed.

(** An instruction decodes from its own bytes. *)
Lemma decode_encode kind pre op b rest :
  encode (table kind) op = Some b -> const_ok op = true ->
  decode (table kind) (pre ++ b ++ rest) (length pre) = Ok (stored op, (length pre + length b)%nat).
Proof.
  destruct (table_literals kind) as [Hd Hi]. intros He Hc.
  destruct (encode_cases (table kind) op) as [[v ->]|[Hs Hn]].
  - cbn [encode] in He. cbn [stored]. unfold literal_value.
    pose proof (f64_to_int_range (- 2 ^ 31) (2 ^ 31 - 1) v ltac:(lia)) as Hr. fold (f64_to_i32 v) in Hr.
    destruct (f64_eqb v _); injection He as <-; unfold decode;
      cbn [app]; rewrite lookup_at; change (Z.to_nat LITERAL_INT) with 2%nat; change (Z.to_nat LITERAL_DOUBLE) with 1%nat.
    + rewrite Hi. cbn [default from_option id]. rewrite get_range_after by apply length_ne. cbn [ok_or mbind result_bind].
      rewrite from_to_ne by (apply (wrap_range 32); lia). rewrite swrap_wrap, swrap_small by lia.
      cbn [length]. rewrite length_ne. do 2 f_equal. lia.
    + rewrite Hd. cbn [default from_option id]. rewrite get_range_after by apply length_ne. cbn [ok_or mbind result_bind].
      rewrite from_to_ne, f64_bits_round_trip by (done || by apply f64_to_bits_range).
      cbn [length]. rewrite length_ne. do 2 f_equal. lia.
  - rewrite Hn in He. destruct (slot_position _ _) as [k|] eqn:Ek; [|done]. cbn in He. injection He as <-.
    apply slot_position_spec in Ek as (s & Hk & Hm). unfold decode. cbn [app].
    rewrite lookup_at, Nat2Z.id, Hk, Hs. cbn [default from_option id].
    unfold slot_matches in Hm. destruct s; try done.
    + destruct (op_nargs op); [done|]. apply bool_decide_eq_true in Hm as ->. cbn [length]. do 2 f_equal. lia.
    + destruct (op_nargs op) as [n|]; [|done]. apply bool_decide_eq_true in Hm as <-. cbn [app length].
      rewrite lookup_after. cbn. do 2 f_equal. lia.
Qed.
End Code.

(** ** Programs *)

Inductive item : Type :=
| IOp (op : Opcode.t)
| IString (s : list Z).

Definition emit_item `{Host} (e : Emitter) (i : item) : Emitter :=
  match i with IOp op => emit e op | IString s => emit_string e s end.

(** What a compiler writes: no [End] of its own, canonical constants, no NUL in a string. *)
Definition writable (i : item) : bool :=
  match i with
  | IOp op => negb (bool_decide (op = Opcode.Core CoreOp.End)) && const_ok op
  | IString s => forallb (fun b => negb (b =? 0)) s
  end.

(** The instruction [op] of the program [code] is what was written. *)
Definition reads_as (code : list Z) (i : item) (op : Opcode.t) : Prop :=
  match i with
  | IOp o => op = stored o
  | IString s =>
      exists at_, op = Opcode.String (StringOp.PushString at_ (len s)) /\ slice at_ (at_ + len s) code = s
  end.

Section Programs.
Context `{Host}.

Definition item_bytes (t : list Slot.t) (i : item) : option (list Z) :=
  match i with
  | IOp op => encode t op
  | IString s => b ← lit_string_code t; Some (b :: s ++ [END])
  end.

Fixpoint items_bytes (t : list Slot.t) (l : list item) : option (list Z) :=
  match l with
  | [] => Some []
  | i :: l => b ← item_bytes t i; bs ← items_bytes t l; Some (b ++ bs)
  end.

Lemma emit_item_spec e i :
  em_kind (emit_item e i) = em_kind e /\
  match item_bytes (table (em_kind e)) i with
  | Some b => em_code (emit_item e i) = em_code e ++ b /\ em_bad (emit_item e i) = em_bad e
  | None => em_bad (emit_item e i) = true
  end.
Proof.
  destruct i; cbn [emit_item item_bytes]; unfold emit, emit_string;
    [destruct (encode _ _)|destruct (lit_string_code _)]; done.
Qed.

Lemma emit_bad_stays l : forall e, em_bad e = true -> em_bad (foldl emit_item e l) = true.
Proof.
  induction l as [|i l IH]; intros e He; [done|]. apply IH.
  pose proof (emit_item_spec e i) as [_ Hi]. destruct (item_bytes _ i); [|done]. by destruct Hi as [_ ->].
Qed.

Lemma emit_items_spec l : forall e,
  em_bad (foldl emit_item e l) = false ->
  em_bad e = false /\
  exists bs, items_bytes (table (em_kind e)) l = Some bs /\ em_code (foldl emit_item e l) = em_code e ++ bs.
Proof.
  induction l as [|i l IH]; intros e He; cbn [foldl items_bytes] in *.
  { split; [done|]. exists []. by rewrite app_nil_r. }
  destruct (IH _ He) as (Hb & bs & Hbs & Hc). pose proof (emit_item_spec e i) as [Hk Hi]. rewrite Hk in Hbs.
  destruct (item_bytes _ i) as [b|]; [|congruence]. destruct Hi as [Hci Hbi].
  split; [congruence|]. exists (b ++ bs). cbn. rewrite Hbs. split; [done|]. by rewrite Hc, Hci, app_assoc.
Qed.

Lemma nul_position_app s rest : forallb (fun b => negb (b =? 0)) s = true ->
  nul_position (s ++ 0 :: rest) = Some (length s).
Proof.
  induction s as [|b s IH]; [done|]. cbn [forallb nul_position app]. intros [Hb Hs]%andb_prop.
  apply negb_true_iff in Hb as ->. by rewrite (IH Hs).
Qed.

(** Where a byte was written, the item is read back. *)
Lemma decode_item kind pre i b rest :
  item_bytes (table kind) i = Some b -> writable i = true -> Z.of_nat (length (pre ++ b ++ rest)) < 2 ^ 32 ->
  exists op, decode (table kind) (pre ++ b ++ rest) (length pre) = Ok (op, (length pre + length b)%nat) /\
    reads_as (pre ++ b ++ rest) i op /\ op <> Opcode.Core CoreOp.End.
Proof.
  destruct i as [op|s]; cbn [item_bytes writable]; intros Hb Hw Hl.
  - apply andb_prop in Hw as [Hne Hc]. apply negb_true_iff, bool_decide_eq_false in Hne.
    exists (stored op). split_and!; [by apply decode_encode|done|].
    destruct op as [[]| | |]; done.
  - unfold lit_string_code in Hb. destruct (slot_position _ _) as [k|] eqn:Ek; [|done]. cbn in Hb. injection Hb as <-.
    apply slot_position_spec in Ek as (sl & Hk & Hm). destruct sl; try done.
    rewrite length_app in Hl. cbn [app length] in Hl. rewrite !length_app in Hl. cbn [length] in Hl.
    exists (Opcode.String (StringOp.PushString (Z.of_nat (S (length pre))) (len s))). split_and!; [| |done].
    + unfold decode. cbn [app]. rewrite lookup_at, Nat2Z.id, Hk. cbn [default from_option id].
      rewrite drop_after, <- app_assoc. cbn [app]. rewrite nul_position_app by done. cbn.
      rewrite !wrap_small by (unfold is_uint; lia). rewrite length_app. cbn [length]. do 2 f_equal. lia.
    + eexists. split; [done|]. unfold slice, ztake, zdrop. rewrite Nat2Z.id. cbn [app].
      rewrite drop_after, <- app_assoc. apply take_app_length'. rewrite Z.add_simpl_l. apply Nat2Z.id.
Qed.

Lemma instructions_read kind l : forall pre bs rest fuel,
  items_bytes (table kind) l = Some bs -> forallb writable l = true ->
  Z.of_nat (length (pre ++ bs ++ END :: rest)) < 2 ^ 32 ->
  (length l < fuel)%nat ->
  exists ops, instructions_from (table kind) (pre ++ bs ++ END :: rest) (length pre) fuel = Some ops /\
    Forall2 (reads_as (pre ++ bs ++ END :: rest)) l (snd <$> ops).
Proof.
  induction l as [|i l IH]; intros pre bs rest fuel Hb Hw Hl Hf; destruct fuel as [|fuel]; simpl in Hf; [lia|..|lia|].
  - injection Hb as <-. exists []. split; [|constructor]. cbn [instructions_from]. unfold decode.
    cbn [app]. rewrite lookup_at. by destruct kind.
  - cbn [items_bytes] in Hb. destruct (item_bytes _ i) as [b|] eqn:Ei; [|done].
    cbn in Hb. destruct (items_bytes _ l) as [bs'|] eqn:El; [|done]. cbn in Hb. injection Hb as <-.
    cbn [forallb] in Hw. apply andb_prop in Hw as [Hi Hw].
    assert (Ha : pre ++ (b ++ bs') ++ END :: rest = pre ++ b ++ bs' ++ END :: rest) by (by rewrite <- app_assoc).
    rewrite Ha in *. destruct (decode_item kind pre i b (bs' ++ END :: rest) Ei Hi Hl) as (op & Hd & Hr & Hn).
    destruct (IH (pre ++ b) bs' rest fuel eq_refl Hw) as (ops & Ho & Hall); [by rewrite <- app_assoc|lia|].
    rewrite length_app, <- app_assoc in Ho. rewrite <- app_assoc in Hall.
    exists ((length pre, op) :: ops). split; [|cbn; by constructor].
    cbn [instructions_from]. rewrite Hd, Ho. destruct op as [[]| | |]; done.
Qed.

Lemma item_bytes_nonempty t i b : item_bytes t i = Some b -> (0 < length b)%nat.
Proof.
  destruct i as [op|s]; cbn [item_bytes].
  - unfold encode. destruct op as [[]| | |];
      try (destruct (slot_position _ _); [|done]; intros [= <-]; simpl; lia).
    case_match; intros [= <-]; simpl; lia.
  - destruct (lit_string_code t); [|done]. intros [= <-]. simpl. lia.
Qed.

Lemma items_bytes_length t l : forall bs, items_bytes t l = Some bs -> (length l <= length bs)%nat.
Proof.
  induction l as [|i l IH]; intros bs; cbn [items_bytes]; [intros [= <-]; done|].
  destruct (item_bytes t i) as [b|] eqn:Ei; [|done]. cbn. destruct (items_bytes t l) as [bs'|]; [|done].
  intros [= <-]. specialize (IH _ eq_refl). apply item_bytes_nonempty in Ei. rewrite length_app. simpl. lia.
Qed.
End Programs.

(** C27: what the compilers' emitter writes, the evaluators and [arg_usage] read: the
    instructions of a finished program are, in order, the ones that were emitted, each in its
    dialect's numbering and with either byte order.  A constant is read as a double equal to
    the one written (the same one, but for a negative zero), a vararg operator with its
    count, a string literal as the range of the program that spells it. *)
Theorem program_reads_back `{Host} kind items code :
  forallb writable items = true ->
  Emitter_finish (foldl emit_item (Emitter_new kind) items) = Ok code ->
  Z.of_nat (length code) < 2 ^ 32 ->
  exists ops, instructions kind code = Some ops /\ Forall2 (reads_as code) items (snd <$> ops).
Proof.
  intros Hw. unfold Emitter_finish. destruct (em_bad _) eqn:Eb; [done|]. intros [= <-] Hl.
  destruct (emit_items_spec items (Emitter_new kind) Eb) as (_ & bs & Hbs & Hc). rewrite Hc in *.
  change (em_kind (Emitter_new kind)) with kind in Hbs. rewrite <- app_assoc in *.
  pose proof (items_bytes_length _ _ _ Hbs) as Hlen.
  assert (Hst : body_start kind (em_code (Emitter_new kind) ++ bs ++ [END]) = length (em_code (Emitter_new kind)))
    by (by destruct kind).
  unfold instructions. rewrite Hst. apply instructions_read; try done. rewrite !length_app. lia.
Qed.

Definition little_host : Host := false.

Definition printf_items : list item :=
  [IString (ascii_bytes "%d"); IOp (Opcode.Core (CoreOp.PushConst (f64_of_Z 7)));
   IOp (Opcode.Core (CoreOp.PushVar 2)); IOp (Opcode.Core (CoreOp.Max 2));
   IOp (Opcode.String StringOp.Printf)].

Definition printf_code : list Z :=
  Eval vm_compute in
    match Emitter_finish (foldl (@emit_item little_host) (Emitter_new StringKind) printf_items) with
    | Ok code => code
    | Err _ => []
    end.

Lemma program_reads_back_witness :
  exists ops, @instructions little_host StringKind printf_code = Some ops /\
    Forall2 (reads_as printf_code) printf_items (snd <$> ops).
Proof.
  apply (@program_reads_back little_host StringKind printf_items printf_code);
    [vm_compute; reflexivity|vm_compute; reflexivity|].
  replace (length printf_code) with 15%nat by reflexivity. lia.
Defined.
