(* ===== verification/CalcExpr.v ===== *)
(** * Calculation engine: expressions, their text and their value

    What a CALC expression means, independently of how it is compiled: a syntax tree, its text
    with the fewest parentheses the precedences of [postfix.rs] allow (operators of one level
    group to the left, a conditional to the right), the value of the tree, and the postfix
    order of its operators.  A program is a list of assignments and the expression that gives
    the answer.  CalcCorrect.v shows that compiling the text and running the result gives the
    value. *)
From Stdlib Require Import SpecFloat.
From stdpp Require Import base tactics numbers list option strings.
From S2P Require Import Prelude Float64 Strtod CalcOps CalcLex CalcCode CalcPostfix CalcEval.

Open Scope Z_scope.

(** ** The meaning of the opcodes *)

Section Meaning.
Context `{Libm}.

Definition sem1 (op : CoreOp.t) : option (f64 -> f64) :=
  match op with
  | CoreOp.Neg => Some f64_opp
  | CoreOp.Not => Some (fun a => of_bool (f64_eqb a f64_zero))
  | CoreOp.BitNot => Some (fun a => f64_of_Z (Z.lnot (d2i a)))
  | CoreOp.Abs => Some f64_abs
  | CoreOp.Sqrt => Some f64_sqrt
  | CoreOp.Exp => Some libm_exp
  | CoreOp.Log10 => Some libm_log10
  | CoreOp.LogE => Some libm_ln
  | CoreOp.Sin => Some libm_sin
  | CoreOp.Cos => Some libm_cos
  | CoreOp.Tan => Some libm_tan
  | CoreOp.Asin => Some libm_asin
  | CoreOp.Acos => Some libm_acos
  | CoreOp.Atan => Some libm_atan
  | CoreOp.Sinh => Some libm_sinh
  | CoreOp.Cosh => Some libm_cosh
  | CoreOp.Tanh => Some libm_tanh
  | CoreOp.Ceil => Some f64_ceil
  | CoreOp.Floor => Some f64_floor
  | CoreOp.Nint => Some (nint c_int)
  | CoreOp.IsInf => Some isinf
  | _ => None
  end.

Definition sem2 (op : CoreOp.t) : option (f64 -> f64 -> f64) :=
  match op with
  | CoreOp.Add => Some f64_add
  | CoreOp.Sub => Some f64_sub
  | CoreOp.Mul => Some f64_mul
  | CoreOp.Div => Some f64_div
  | CoreOp.Mod => Some (fun a b => default S754_nan (imod c_int a b))
  | CoreOp.Power => Some powf
  | CoreOp.Eq => Some (fun a b => of_bool (f64_eqb a b))
  | CoreOp.Ne => Some (fun a b => of_bool (negb (f64_eqb a b)))
  | CoreOp.Lt => Some (fun a b => of_bool (f64_ltb a b))
  | CoreOp.Le => Some (fun a b => of_bool (f64_leb a b))
  | CoreOp.Gt => Some (fun a b => of_bool (f64_gtb a b))
  | CoreOp.Ge => Some (fun a b => of_bool (f64_geb a b))
  | CoreOp.And => Some (fun a b => of_bool (nonzero a && nonzero b))
  | CoreOp.Or => Some (fun a b => of_bool (nonzero a || nonzero b))
  | CoreOp.BitAnd => Some (bit_op Z.land)
  | CoreOp.BitOr => Some (bit_op Z.lor)
  | CoreOp.BitXor => Some (bit_op Z.lxor)
  | CoreOp.Shl => Some (fun a b => f64_of_Z (swrap 32 (Z.shiftl (d2i a) (Z.land (d2i b) 31))))
  | CoreOp.Shr => Some (fun a b => f64_of_Z (Z.shiftr (d2i a) (Z.land (d2i b) 31)))
  | CoreOp.ShrLogical => Some (fun a b => f64_of_Z (Z.shiftr (d2ui a) (Z.land (d2ui b) 31)))
  | CoreOp.Atan2 => Some (fun a b => atan2 b a)
  | CoreOp.Fmod => Some f64_rem
  | _ => None
  end.

(** The last argument, unless one to its left beats what is kept; a NaN stays. *)
Definition extremum_of (wins : f64 -> f64 -> bool) (vs : list f64) : f64 :=
  match reverse vs with
  | [] => S754_nan
  | top :: deeper => foldl (fun acc d => if wins d acc || f64_is_nan acc then acc else d) top deeper
  end.

Definition semN (op : CoreOp.t) : option (Z * (list f64 -> f64)) :=
  match op with
  | CoreOp.Max n => Some (n, extremum_of f64_ltb)
  | CoreOp.Min n => Some (n, extremum_of f64_gtb)
  | CoreOp.Finite n => Some (n, fun vs => of_bool (forallb f64_is_finite vs))
  | CoreOp.IsNan n => Some (n, fun vs => of_bool (existsb f64_is_nan vs))
  | _ => None
  end.

(** An operator applied to as many values as it takes. *)
Definition apply_op (op : CoreOp.t) (vs : list f64) : option f64 :=
  match sem1 op, sem2 op, semN op, vs with
  | Some f, _, _, [a] => Some (f a)
  | _, Some f, _, [a; b] => Some (f a b)
  | _, _, Some (n, f), _ :: _ => if n =? len vs then Some (f vs) else None
  | _, _, _, _ => None
  end.
End Meaning.

(** ** Expressions *)

Inductive expr : Type :=
| Lit (whole frac : list Z)
| Arg (i : Z)
| Word (token : Token.t)
| Unary (token : Token.t) (a : expr)
| Call (f : FuncName.t) (args : list expr)
| Binary (token : Token.t) (a b : expr)
| Cond (a b c : expr).

(** A decimal literal: its value and its text. *)
Definition lit_value (whole frac : list Z) : f64 :=
  f64_of_decimal (digits_value (whole ++ frac)) (- len frac).
Definition lit_text (whole frac : list Z) : list Z :=
  whole ++ match frac with [] => [] | _ => 46 :: frac end.

(** The level an expression is printed at: a binary operator's precedence, 9 for a unary one,
    10 for an operand, 1 for a conditional. *)
Definition level (e : expr) : Z :=
  match e with
  | Lit _ _ | Arg _ | Word _ | Call _ _ => 10
  | Unary _ _ => 9
  | Binary token _ _ => match binary_op token with Some (isp, _) => isp | None => 0 end
  | Cond _ _ _ => 1
  end.

(** A printed element: its text and the token it is. *)
Abbreviation elem := (list Z * Token.t)%type.

Definition named (l : list (list Z * Token.t)) (token : Token.t) : elem :=
  default ([], token) (List.find (fun e => bool_decide (snd e = token)) l).
Definition operand_elem : Token.t -> elem := named (operands BASE_TABLE).
Definition operator_elem : Token.t -> elem := named (operators BASE_TABLE).

Fixpoint sep_args (l : list (list elem)) : list elem :=
  match l with
  | [] => []
  | [a] => a
  | a :: l => a ++ operator_elem Token.Comma :: sep_args l
  end.

Definition parens (l : list elem) : list elem :=
  operand_elem Token.LParen :: l ++ [operator_elem Token.RParen].

(** The elements of an expression where level [p] is wanted. *)
Fixpoint show (p : Z) (e : expr) : list elem :=
  let body :=
    match e with
    | Lit whole frac => [(lit_text whole frac, Token.Number (lit_value whole frac))]
    | Arg i => [([65 + i], Token.Var i)]
    | Word token => [operand_elem token]
    | Unary token a => operand_elem token :: show 9 a
    | Call f args => operand_elem (Token.Func f) :: parens (sep_args (List.map (show 1) args))
    | Binary token a b => show (level e) a ++ operator_elem token :: show (level e + 1) b
    | Cond a b c =>
        show 2 a ++ operator_elem Token.Question :: show 2 b
        ++ operator_elem Token.Colon :: show 1 c
    end in
  if level e <? p then parens body else body.

(** The opcode of an element. *)
Definition word_op (token : Token.t) : CoreOp.t :=
  match token with
  | Token.Const k => const_opcode k
  | Token.Rndm => CoreOp.Random
  | _ => CoreOp.FetchVal
  end.
Definition unary_opcode (token : Token.t) : CoreOp.t :=
  match token with
  | Token.Minus => CoreOp.Neg
  | Token.Bang => CoreOp.Not
  | _ => CoreOp.BitNot
  end.
Definition core (op : option Opcode.t) : CoreOp.t :=
  match op with Some (Opcode.Core op) => op | _ => CoreOp.End end.
Definition binary_opcode (token : Token.t) : CoreOp.t := core (token_to_binary_opcode token).
Definition call_opcode (f : FuncName.t) (n : Z) : CoreOp.t := core (Some (func_to_opcode f n)).

(** Postfix order. *)
Fixpoint postfix (e : expr) : list CoreOp.t :=
  match e with
  | Lit whole frac => [CoreOp.PushConst (lit_value whole frac)]
  | Arg i => [CoreOp.PushVar i]
  | Word token => [word_op token]
  | Unary token a => postfix a ++ [unary_opcode token]
  | Call f args => mjoin (List.map postfix args) ++ [call_opcode f (len args)]
  | Binary token a b => postfix a ++ postfix b ++ [binary_opcode token]
  | Cond a b c =>
      postfix a ++ CoreOp.CondIf :: postfix b ++ CoreOp.CondElse :: postfix c ++ [CoreOp.CondEnd]
  end.

(** The cells an evaluation needs. *)
Fixpoint need (e : expr) : Z :=
  match e with
  | Lit _ _ | Arg _ | Word _ => 1
  | Unary _ a => need a
  | Call f args => foldr (fun n k => Z.max n (1 + k)) 0 (List.map need args)
  | Binary _ a b => Z.max (need a) (1 + need b)
  | Cond a b c => Z.max (need a) (Z.max (need b) (need c))
  end.

(** Every element is of the base dialect, every function has its arguments, and no literal is
    out of range. *)
Definition words : list Token.t :=
  [Token.Const ConstName.Pi; Token.Const ConstName.D2R; Token.Const ConstName.R2D; Token.Rndm;
   Token.FetchVal].
Definition digits_ok (l : list Z) : bool := forallb is_ascii_digit l.

Definition token_is_binary (token : Token.t) : bool :=
  bool_decide (token ∈ snd <$> operators BASE_TABLE) && bool_decide (is_Some (binary_op token)).
Definition call_ok (f : FuncName.t) {A : Type} (args : list A) : bool :=
  bool_decide (Token.Func f ∈ snd <$> operands BASE_TABLE) &&
  (if is_vararg f then negb (length args =? 0)%nat else len args =? func_arity f).

Fixpoint wf (e : expr) : bool :=
  match e with
  | Lit whole frac =>
      digits_ok whole && digits_ok frac && negb (length whole =? 0)%nat &&
      negb (ranged_out (lit_value whole frac) (existsb (fun d => negb (d =? 48)) (whole ++ frac)))
  | Arg i => (0 <=? i) && (i <=? 20)
  | Word token => bool_decide (token ∈ words)
  | Unary token a => bool_decide (token ∈ [Token.Minus; Token.Bang; Token.Tilde]) && wf a
  | Call f args => call_ok f args && forallb wf args
  | Binary token a b => token_is_binary token && wf a && wf b
  | Cond a b c => wf a && wf b && wf c
  end.

(** ** Values *)

Section Value.
Context `{Libm}.
Variable v : NumericVars.

Definition word_value (token : Token.t) (seed : Z) : f64 * Z :=
  match token with
  | Token.Const ConstName.Pi => (PI, seed)
  | Token.Const ConstName.D2R => (f64_div PI (f64_of_Z 180), seed)
  | Token.Const _ => (f64_div (f64_of_Z 180) PI, seed)
  | Token.Rndm => calc_random seed
  | _ => (prev_val v, seed)
  end.

Definition apply1 (op : CoreOp.t) (vs : list f64) : f64 := default S754_nan (apply_op op vs).

(** The value of an expression and the generator's seed after it; arguments are evaluated
    from the left, and of a conditional the branch that is taken. *)
Fixpoint value (e : expr) (seed : Z) : f64 * Z :=
  match e with
  | Lit whole frac => (lit_value whole frac, seed)
  | Arg i => (default f64_zero (num_arg v (Z.to_nat i)), seed)
  | Word token => word_value token seed
  | Unary token a => let '(x, seed) := value a seed in (apply1 (unary_opcode token) [x], seed)
  | Call f args =>
      let '(xs, seed) :=
        (fix values (l : list expr) (seed : Z) : list f64 * Z :=
           match l with
           | [] => ([], seed)
           | a :: l => let '(x, seed) := value a seed in
                       let '(xs, seed) := values l seed in (x :: xs, seed)
           end) args seed in
      (apply1 (call_opcode f (len args)) xs, seed)
  | Binary token a b =>
      let '(x, seed) := value a seed in
      let '(y, seed) := value b seed in (apply1 (binary_opcode token) [x; y], seed)
  | Cond a b c =>
      let '(x, seed) := value a seed in
      if f64_eqb x f64_zero then value c seed else value b seed
  end.

Fixpoint values (l : list expr) (seed : Z) : list f64 * Z :=
  match l with
  | [] => ([], seed)
  | a :: l => let '(x, seed) := value a seed in
              let '(xs, seed) := values l seed in (x :: xs, seed)
  end.
End Value.

(** ** Programs *)

(** [A:=e;...;e]: the assignments in order, then the answer. *)
Record program : Type := mkProgram {
  stores : list (Z * expr);
  answer : expr;
}.

Definition show_store (s : Z * expr) : list elem :=
  ([65 + fst s], Token.Var (fst s)) :: operator_elem Token.Assign :: show 1 (snd s)
  ++ [operator_elem Token.Semicolon].

Definition show_program (p : program) : list elem :=
  mjoin (show_store <$> stores p) ++ show 1 (answer p).

(** The text: every element and a space. *)
Definition text (l : list elem) : list Z := mjoin ((fun e => fst e ++ [32]) <$> l).

Definition wf_program (p : program) : bool :=
  forallb (fun s => wf (Arg (fst s)) && wf (snd s) && (need (snd s) <? 80)) (stores p)
  && wf (answer p) && (need (answer p) <? 80).

Definition run_stores `{Libm} (l : list (Z * expr)) (v : NumericVars) (seed : Z) : NumericVars * Z :=
  foldl (fun '(v, seed) '(i, e) =>
    let '(x, seed) := value v e seed in (store_arg v (Z.to_nat i) x, seed)) (v, seed) l.

Definition run_program `{Libm} (p : program) (v : NumericVars) (seed : Z) : f64 * NumericVars * Z :=
  let '(v, seed) := run_stores (stores p) v seed in
  let '(x, seed) := value v (answer p) seed in (x, v, seed).
