(* ===== verification/CalcRunTheory.v ===== *)
(** * Calculation engine: running postfix code

    The byte evaluator executes the opcodes its own table numbers: an operator replaces its
    arguments on the operand stack by its value, a conditional runs the branch its condition
    selects.  [runs_expr] is the correctness of the postfix order of an expression. *)
From Stdlib Require Import SpecFloat.
From stdpp Require Import base tactics numbers list option strings.
From S2P Require Import Prelude Float64 Float64Theory Strtod CalcOps CalcLex CalcCode CalcPostfix.
From S2P Require Import CalcEval CalcTheory CalcCodeTheory CalcExpr.

Open Scope Z_scope.

(** Follow the tests of the dispatch on a byte known up to an offset. *)
Ltac pick_byte :=
  repeat match goal with
  | |- context [if ?a =? ?b then _ else _] => destruct (Z.eqb_spec a b); try lia
  | |- context [if ?c && ?d then _ else _] =>
      first [replace (c && d) with true by lia | replace (c && d) with false by lia]
  end.

(** ** The operand stack *)

Lemma pop_app st v o : pop (mkStack (st ++ [v]) o) = Some (v, mkStack st o).
Proof. unfold pop. cbn [cells overflowed]. by rewrite last_snoc, removelast_last. Qed.

Lemma pop1_app st v o : pop1 (mkStack (st ++ [v]) o) = Ok (v, mkStack st o).
Proof. unfold pop1. by rewrite pop_app. Qed.

Lemma pop2_app st a b o : pop2 (mkStack (st ++ [a; b]) o) = Ok (a, b, mkStack st o).
Proof.
  unfold pop2. change [a; b] with ([a] ++ [b]). rewrite app_assoc, pop1_app. cbn. by rewrite pop1_app.
Qed.

Lemma push_room st v o : (length st < 80)%nat -> push (mkStack st o) v = mkStack (st ++ [v]) o.
Proof.
  intros Hl. unfold push. cbn [cells overflowed].
  by destruct (Nat.ltb_spec (length st) CALCPERFORM_STACK); [|unfold CALCPERFORM_STACK in *; lia].
Qed.

Abbreviation M st v seed := (mkMachine (mkStack st false) v seed).

Lemma unary_op_app f st a v s :
  (length st < 80)%nat -> unary_op f (M (st ++ [a]) v s) = Ok (M (st ++ [f a]) v s).
Proof. intros Hl. unfold unary_op. cbn [operand_stack]. rewrite pop1_app. cbn. unfold on_stack. cbn. by rewrite push_room. Qed.

Lemma binary_app f st a b v s :
  (length st < 80)%nat -> binary f (M (st ++ [a; b]) v s) = Ok (M (st ++ [f a b]) v s).
Proof. intros Hl. unfold binary. cbn [operand_stack]. rewrite pop2_app. cbn. unfold on_stack. cbn. by rewrite push_room. Qed.

Lemma take_base {A} (st vs : list A) : take (length (st ++ vs) - length vs) (st ++ vs) = st.
Proof. apply take_app_length'. rewrite length_app. lia. Qed.

Lemma drop_base {A} (st vs : list A) : drop (length (st ++ vs) - length vs) (st ++ vs) = vs.
Proof. apply drop_app_length'. rewrite length_app. lia. Qed.

Lemma extremum_app wins st vs v s :
  (length st < 80)%nat -> vs <> [] ->
  extremum wins (length vs) (M (st ++ vs) v s) = Some (Ok (M (st ++ [extremum_of wins vs]) v s)).
Proof.
  intros Hl Hv. unfold extremum. cbn [operand_stack cells].
  destruct (Nat.ltb_spec (length (st ++ vs)) (length vs)) as [Hlt|_]; [rewrite length_app in Hlt; lia|].
  destruct vs as [|top vs' _] using rev_ind; [done|].
  unfold extremum_of. rewrite reverse_snoc, app_assoc, last_snoc, removelast_last.
  unfold truncate, on_stack. cbn [cells args seed]. rewrite <- app_assoc, take_base.
  replace (drop (length (st ++ vs' ++ [top]) - length (vs' ++ [top])) (st ++ vs')) with vs'
    by (symmetry; apply drop_app_length'; rewrite !length_app; lia).
  cbn [overflowed]. by rewrite push_room.
Qed.

Lemma any_all_app f st vs v s :
  (length st < 80)%nat ->
  any_all f (length vs) (M (st ++ vs) v s) = Ok (M (st ++ [of_bool (f vs)]) v s).
Proof.
  intros Hl. unfold any_all. cbn [operand_stack cells].
  destruct (Nat.ltb_spec (length (st ++ vs)) (length vs)) as [Hlt|_]; [rewrite length_app in Hlt; lia|].
  unfold truncate, on_stack. cbn [cells args seed overflowed].
  by rewrite take_base, drop_base, push_room.
Qed.

(** ** The table and the evaluator agree *)

Section Run.
Context `{Host} `{Libm}.

Definition enc (op : CoreOp.t) : list Z := default [] (encode BASE (Opcode.Core op)).
Definition bytes (ops : list CoreOp.t) : list Z := mjoin (enc <$> ops).

Lemma slot_position_first f (l : list Slot.t) k s :
  l !! k = Some s -> f s = true -> forallb (fun x => negb (f x)) (take k l) = true ->
  slot_position f l = Some k.
Proof.
  revert k. induction l as [|x l IH]; intros [|k] Hk Hf; simpl; try done.
  - injection Hk as ->. by rewrite Hf.
  - intros [Hx Ht]%andb_prop. apply negb_true_iff in Hx as ->. by rewrite (IH k).
Qed.

Lemma encode_vararg op n k :
  op_nargs (Opcode.Core op) = Some n ->
  slot_matches (Opcode.Core op) (default Slot.Invalid (BASE !! k)) = true -> (k < 256)%nat ->
  forallb (fun x => negb (slot_matches (Opcode.Core op) x)) (take k BASE) = true ->
  encode BASE (Opcode.Core op) = Some [Z.of_nat k; n].
Proof.
  intros Hn Hm Hk Hf. destruct (BASE !! k) as [s|] eqn:E; [|done].
  pose proof (slot_position_first _ _ _ _ E Hm Hf) as Hp.
  destruct (encode_cases BASE (Opcode.Core op)) as [[v' Hv]|[_ ->]]; [simplify_eq; done|].
  by rewrite Hp, Hn.
Qed.

Lemma dispatch_sem1 op f : sem1 op = Some f ->
  exists b, enc op = [b] /\ forall code pc m, dispatch code b pc m = continue_at pc (unary_op f m).
Proof. destruct op; intros [= <-]; (eexists; split; [vm_compute; reflexivity|reflexivity]). Qed.

Lemma dispatch_sem2 op f : sem2 op = Some f ->
  exists b, enc op = [b] /\ forall code pc m, dispatch code b pc m = continue_at pc (binary f m).
Proof. destruct op; intros [= <-]; (eexists; split; [vm_compute; reflexivity|reflexivity]). Qed.

(** What a vararg operator does with its arguments. *)
Definition takes_all (g : list f64 -> f64) (f : nat -> Machine -> option (result CalcError.t Machine)) : Prop :=
  forall st vs v s, (length st < 80)%nat -> vs <> [] ->
    f (length vs) (M (st ++ vs) v s) = Some (Ok (M (st ++ [g vs]) v s)).

Lemma dispatch_semN op n g : semN op = Some (n, g) ->
  exists b f, enc op = [b; n] /\ takes_all g f /\
    forall code pc m, dispatch code b pc m = vararg_step code pc (fun k => f k m).
Proof.
  unfold enc. destruct op; intros [= <- <-].
  - rewrite (encode_vararg (CoreOp.IsNan x) x 78) by (done || lia || (apply bool_decide_eq_true; done)).
    eexists _, (fun k m => Some (any_all (existsb f64_is_nan) k m)). split_and!; [done| |done].
    intros st vs v s Hl _. by rewrite any_all_app.
  - rewrite (encode_vararg (CoreOp.Finite x) x 76) by (done || lia || (apply bool_decide_eq_true; done)).
    eexists _, (fun k m => Some (any_all (forallb f64_is_finite) k m)). split_and!; [done| |done].
    intros st vs v s Hl _. by rewrite any_all_app.
  - rewrite (encode_vararg (CoreOp.Max x) x 60) by (done || lia || (apply bool_decide_eq_true; done)).
    eexists _, (fun k m => extremum f64_ltb k m). split_and!; [done| |done].
    intros st vs v s Hl Hv. by rewrite extremum_app.
  - rewrite (encode_vararg (CoreOp.Min x) x 61) by (done || lia || (apply bool_decide_eq_true; done)).
    eexists _, (fun k m => extremum f64_gtb k m). split_and!; [done| |done].
    intros st vs v s Hl Hv. by rewrite extremum_app.
Qed.

(** ** Code in a program *)

(** The bytes of [ops] are at offset [pc] of [code]. *)
Definition code_at (code : list Z) (pc : nat) (ops : list CoreOp.t) : Prop :=
  exists pre rest, code = pre ++ bytes ops ++ rest /\ length pre = pc.

Abbreviation size ops := (length (bytes ops)).

Lemma bytes_app a b : bytes (a ++ b) = bytes a ++ bytes b.
Proof. unfold bytes. by rewrite fmap_app, join_app. Qed.

Lemma bytes_cons op ops : bytes (op :: ops) = enc op ++ bytes ops.
Proof. done. Qed.

Lemma code_at_app code pc a b :
  code_at code pc (a ++ b) -> code_at code pc a /\ code_at code (pc + size a) b.
Proof.
  intros (pre & rest & -> & <-). rewrite bytes_app. split.
  - exists pre, (bytes b ++ rest). by rewrite <- !app_assoc.
  - exists (pre ++ bytes a), rest. by rewrite length_app, <- !app_assoc.
Qed.

Lemma code_at_cons code pc op ops :
  code_at code pc (op :: ops) -> code_at code pc [op] /\ code_at code (pc + size [op]) ops.
Proof. apply (code_at_app code pc [op] ops). Qed.

(** The bytes of one instruction, and its decoding. *)
Lemma code_at_bytes code pc op b bs :
  enc op = b :: bs -> code_at code pc [op] -> code !! pc = Some b /\
  forall n, bs = [n] -> code !! S pc = Some n.
Proof.
  intros He (pre & rest & -> & <-). unfold bytes. cbn [fmap list_fmap mjoin list_join].
  rewrite app_nil_r, He. cbn [app]. split; [apply lookup_at|]. intros n ->. apply lookup_after.
Qed.

Lemma code_at_decode code pc op :
  is_Some (encode BASE (Opcode.Core op)) -> const_ok (Opcode.Core op) = true -> code_at code pc [op] ->
  decode BASE code pc = Ok (stored (Opcode.Core op), (pc + size [op])%nat).
Proof.
  intros [b Hb] Hc (pre & rest & -> & <-). unfold bytes. cbn [fmap list_fmap mjoin list_join].
  rewrite app_nil_r. unfold enc. rewrite Hb. cbn [default from_option id].
  by apply (decode_encode Numeric).
Qed.

(** ** Runs *)

Inductive reaches (code : list Z) : nat -> Machine -> nat -> Machine -> Prop :=
| reach_refl pc m : reaches code pc m pc m
| reach_step pc m b pc' m' pc'' m'' :
    code !! pc = Some b -> dispatch code b (S pc) m = Continue m' pc' ->
    reaches code pc' m' pc'' m'' -> reaches code pc m pc'' m''.

Lemma reaches_trans code pc m pc' m' pc'' m'' :
  reaches code pc m pc' m' -> reaches code pc' m' pc'' m'' -> reaches code pc m pc'' m''.
Proof. induction 1; intros; [done|]. by eapply reach_step; eauto. Qed.

Lemma reaches_one code pc m b pc' m' :
  code !! pc = Some b -> dispatch code b (S pc) m = Continue m' pc' -> reaches code pc m pc' m'.
Proof. intros. eapply reach_step; [done..|apply reach_refl]. Qed.

(** The loop follows a run, with the fuel it has. *)
Lemma reaches_eval code pc m pc' m' :
  reaches code pc m pc' m' -> forall fuel, (length code < fuel + pc)%nat ->
  exists fuel', (length code < fuel' + pc')%nat /\ eval_loop code fuel pc m = eval_loop code fuel' pc' m'.
Proof.
  induction 1 as [|pc m b pc' m' pc'' m'' Hb Hd _ IH]; intros fuel Hf; [by exists fuel|].
  assert (Hp : (pc < length code)%nat) by (by eapply lookup_lt_Some). destruct fuel as [|fuel]; [lia|].
  pose proof (dispatch_moves code b (S pc) m) as Hm. rewrite Hd in Hm. simpl in Hm.
  destruct (IH fuel) as (fuel' & Hf' & He); [lia|]. exists fuel'. split; [done|].
  cbn [eval_loop]. by rewrite Hb, Hd.
Qed.

(** ** Operators and operands *)

Lemma sems_disjoint op :
  (sem1 op <> None -> sem2 op = None /\ semN op = None) /\ (sem2 op <> None -> semN op = None).
Proof. by destruct op. Qed.

Lemma run_op code pc op vs x st v s :
  apply_op op vs = Some x -> (length st < 80)%nat -> code_at code pc [op] ->
  reaches code pc (M (st ++ vs) v s) (pc + size [op]) (M (st ++ [x]) v s).
Proof.
  intros Ha Hl Hc. unfold apply_op in Ha.
  assert (Hs : size [op] = length (enc op)) by (rewrite bytes_cons, length_app; simpl; lia).
  destruct (sem1 op) as [f|] eqn:E1.
  { destruct (dispatch_sem1 op f E1) as (b & He & Hd).
    destruct (sems_disjoint op) as [Hd1 _]. rewrite E1 in Hd1. destruct (Hd1 ltac:(done)) as [E2 E3]. rewrite E2, E3 in Ha.
    assert (Hvs : exists a, vs = [a] /\ x = f a) by (destruct vs as [|? [|? [|]]]; simplify_eq; eauto).
    destruct Hvs as (a & -> & ->). destruct (code_at_bytes _ _ _ _ _ He Hc) as [Hb _].
    eapply reaches_one; [exact Hb|]. rewrite Hd, unary_op_app by done. simpl. f_equal. rewrite Hs, He. simpl. lia. }
  destruct (sem2 op) as [f|] eqn:E2.
  { destruct (dispatch_sem2 op f E2) as (b & He & Hd).
    destruct (sems_disjoint op) as [_ Hd2]. rewrite E2 in Hd2. rewrite (Hd2 ltac:(done)) in Ha.
    assert (Hvs : exists a b, vs = [a; b] /\ x = f a b) by (destruct vs as [|? [|? [|]]]; simplify_eq; eauto).
    destruct Hvs as (a & a' & -> & ->). destruct (code_at_bytes _ _ _ _ _ He Hc) as [Hb _].
    eapply reaches_one; [exact Hb|]. rewrite Hd, binary_app by done. simpl. f_equal. rewrite Hs, He. simpl. lia. }
  destruct (semN op) as [[n g]|] eqn:E3; [|done]. destruct vs as [|a vs]; [done|].
  destruct (Z.eqb_spec n (len (a :: vs))) as [-> |]; [|done]. injection Ha as <-.
  destruct (dispatch_semN op _ g E3) as (b & f & He & Hf & Hd).
  destruct (code_at_bytes _ _ _ _ _ He Hc) as [Hb Hn].
  eapply reaches_one; [exact Hb|]. rewrite Hd. unfold vararg_step. rewrite (Hn _ eq_refl).
  rewrite Hs, He, Nat2Z.id, Hf by done. cbn [continue_at length]. f_equal. lia.
Qed.

Lemma size_one op : size [op] = length (enc op).
Proof. rewrite bytes_cons, length_app. simpl. lia. Qed.

(** An operand pushes one value. *)
Definition pushes (op : CoreOp.t) (v : NumericVars) (s : Z) (x : f64) (s' : Z) : Prop :=
  forall code pc st, (length st < 80)%nat -> code_at code pc [op] ->
  reaches code pc (M st v s) (pc + size [op]) (M (st ++ [x]) v s').

Lemma pushes_byte op b v s x s' :
  enc op = [b] ->
  (forall code pc st, (length st < 80)%nat ->
     dispatch code b pc (M st v s) = Continue (M (st ++ [x]) v s') pc) ->
  pushes op v s x s'.
Proof.
  intros He Hd code pc st Hl Hc. destruct (code_at_bytes _ _ _ _ _ He Hc) as [Hb _].
  eapply reaches_one; [exact Hb|]. rewrite Hd by done. f_equal. rewrite size_one, He. simpl. lia.
Qed.

Lemma push_value_room st v s x : (length st < 80)%nat -> push_value (M st v s) x = M (st ++ [x]) v s.
Proof. intros. unfold push_value, on_stack. cbn [operand_stack args seed]. by rewrite push_room. Qed.

Lemma pushes_const x v s : f64_valid x = true -> pushes (CoreOp.PushConst x) v s (literal_value x) s.
Proof.
  intros Hx code pc st Hl Hc. rewrite size_one. destruct Hc as (pre & rest & -> & <-).
  rewrite bytes_cons. change (bytes []) with (@nil Z). rewrite app_nil_r.
  pose proof (f64_to_int_range (- 2 ^ 31) (2 ^ 31 - 1) x ltac:(lia)) as Hr. fold (f64_to_i32 x) in Hr.
  unfold enc, literal_value. cbn [encode default from_option id].
  destruct (f64_eqb x _); (eapply reaches_one; [apply lookup_at|]); unfold dispatch; cbn [app Z.eqb Pos.eqb];
    (rewrite get_range_after by apply length_ne); cbn [length]; rewrite length_ne, push_value_room by done.
  - rewrite from_to_ne by (apply (wrap_range 32); lia). rewrite swrap_wrap, swrap_small by lia. f_equal. lia.
  - rewrite from_to_ne, f64_bits_round_trip by (done || by apply f64_to_bits_range). f_equal. lia.
Qed.

Lemma small_cases (P : Z -> Prop) i : 0 <= i <= 20 ->
  Forall P [0;1;2;3;4;5;6;7;8;9;10;11;12;13;14;15;16;17;18;19;20] -> P i.
Proof.
  intros Hi Hp. rewrite list.Forall_forall in Hp. apply Hp. rewrite !elem_of_cons. lia.
Qed.

Lemma enc_var i : 0 <= i <= 20 -> enc (CoreOp.PushVar i) = [4 + i] /\ enc (CoreOp.StoreVar i) = [25 + i].
Proof.
  intros Hi. pattern i. apply small_cases; [done|].
  repeat (apply List.Forall_cons; [split; vm_compute; reflexivity|]). apply List.Forall_nil.
Qed.

Lemma pushes_var i v s : 0 <= i <= 20 ->
  pushes (CoreOp.PushVar i) v s (default f64_zero (num_arg v (Z.to_nat i))) s.
Proof.
  intros Hi. destruct (enc_var i Hi) as [He _].
  apply (pushes_byte _ _ _ _ _ _ He). intros code pc st Hl.
  unfold dispatch. cbv zeta. pick_byte. replace (4 + i - 4) with i by lia. by rewrite push_value_room.
Qed.

Lemma pushes_word tok v s : tok ∈ words ->
  pushes (word_op tok) v s (fst (word_value v tok s)) (snd (word_value v tok s)).
Proof.
  intros Hw. unfold words in Hw. rewrite !elem_of_cons in Hw.
  destruct Hw as [-> |[-> |[-> |[-> |[-> |Hw]]]]]; [| | | | |by apply not_elem_of_nil in Hw];
    (eapply pushes_byte; [vm_compute; reflexivity|]); intros code pc st Hl; cbn [word_value word_op const_opcode fst snd];
    unfold dispatch; cbn [andb Z.eqb Z.leb Pos.eqb Z.compare Pos.compare Pos.compare_cont]; try (by rewrite push_value_room).
  cbn [operand_stack args seed]. destruct (calc_random s) as [x s']. cbn [fst snd]. by rewrite push_room.
Qed.

(** A store takes the top. *)
Lemma run_store code pc i st x v s :
  0 <= i <= 20 -> code_at code pc [CoreOp.StoreVar i] ->
  reaches code pc (M (st ++ [x]) v s) (pc + size [CoreOp.StoreVar i]) (M st (store_arg v (Z.to_nat i) x) s).
Proof.
  intros Hi Hc. destruct (enc_var i Hi) as [_ He]. destruct (code_at_bytes _ _ _ _ _ He Hc) as [Hb _].
  eapply reaches_one; [exact Hb|]. unfold dispatch. cbv zeta. pick_byte.
  cbn [operand_stack args seed]. rewrite pop1_app, size_one, He. cbn [length].
  replace (25 + i - 25) with i by lia. f_equal. lia.
Qed.

(** ** Conditionals *)

(** An instruction of the base dialect. *)
Definition op_ok (op : CoreOp.t) : Prop :=
  is_Some (encode BASE (Opcode.Core op)) /\ const_ok (Opcode.Core op) = true.

Definition is_marker (op : CoreOp.t) : bool :=
  match op with
  | CoreOp.CondIf | CoreOp.CondElse | CoreOp.CondEnd | CoreOp.End => true
  | _ => false
  end.

Lemma op_ok_decode code pc op :
  op_ok op -> code_at code pc [op] ->
  decode BASE code pc = Ok (stored (Opcode.Core op), (pc + size [op])%nat).
Proof. intros [He Hc]. by apply code_at_decode. Qed.

Lemma marker_ok op : is_marker op = true -> op_ok op /\ size [op] = 1%nat.
Proof. destruct op; try done; intros _; (split; [split; [vm_compute; eauto|done]|vm_compute; reflexivity]). Qed.

(** A search started inside a conditional goes past the code of an expression. *)
Definition skips (fe : bool) (ops : list CoreOp.t) : Prop :=
  forall code pc n fuel, code_at code pc ops -> 1 <= n ->
  cond_search_from BASE code fe pc n (length ops + fuel) =
  cond_search_from BASE code fe (pc + size ops) n fuel.

Lemma skips_nil fe : skips fe [].
Proof. intros code pc n fuel _ _. cbn. by rewrite Nat.add_0_r. Qed.

Lemma skips_app fe a b : skips fe a -> skips fe b -> skips fe (a ++ b).
Proof.
  intros Ha Hb code pc n fuel Hc Hn. apply code_at_app in Hc as [Hca Hcb].
  rewrite length_app, <- Nat.add_assoc, Ha, Hb by done. f_equal. rewrite bytes_app, length_app. lia.
Qed.

Lemma skips_one fe op : op_ok op -> is_marker op = false -> skips fe [op].
Proof.
  intros Ho Hm code pc n fuel Hc Hn. cbn [length Nat.add cond_search_from].
  rewrite (op_ok_decode _ _ _ Ho Hc). by destruct op.
Qed.

Lemma search_marker fe code pc n fuel op :
  is_marker op = true -> code_at code pc [op] ->
  cond_search_from BASE code fe pc n (S fuel) =
  let go n := cond_search_from BASE code fe (pc + 1) n fuel in
  let matched := if n - 1 =? 0 then Some (Ok (pc + 1)%nat) else go (n - 1) in
  match op with
  | CoreOp.End => Some (Err CalcError.Conditional)
  | CoreOp.CondElse => if fe then matched else go n
  | CoreOp.CondEnd => if fe then go n else matched
  | _ => go (n + 1)
  end.
Proof.
  intros Hm Hc. destruct (marker_ok op Hm) as [Ho Hs]. cbn [cond_search_from].
  rewrite (op_ok_decode _ _ _ Ho Hc), Hs. destruct op; try discriminate Hm; reflexivity.
Qed.

Lemma code_at_marker code pc op ops :
  is_marker op = true -> code_at code pc (op :: ops) -> code_at code pc [op] /\ code_at code (pc + 1) ops.
Proof. intros Hm Hc. apply code_at_cons in Hc. by rewrite (proj2 (marker_ok op Hm)) in Hc. Qed.

Lemma size_marker op ops : is_marker op = true -> size (op :: ops) = S (size ops).
Proof.
  intros Hm. destruct (marker_ok op Hm) as [_ Hs]. rewrite size_one in Hs. rewrite bytes_cons, length_app. lia.
Qed.

Lemma skips_cond fe b c :
  skips fe b -> skips fe c -> skips fe (CoreOp.CondIf :: b ++ CoreOp.CondElse :: c ++ [CoreOp.CondEnd]).
Proof.
  intros Hb Hc code pc n fuel Hat Hn.
  apply code_at_marker in Hat as [Hif Hat]; [|done]. apply code_at_app in Hat as [Hcb Hat].
  apply code_at_marker in Hat as [Helse Hat]; [|done]. apply code_at_app in Hat as [Hcc Hend].
  cbn [length]. rewrite length_app. cbn [length]. rewrite length_app. cbn [length].
  replace (S (length b + S (length c + 1)) + fuel)%nat with (S (length b + S (length c + S fuel))) by lia.
  rewrite (search_marker _ _ _ _ _ CoreOp.CondIf) by done. cbv zeta. rewrite Hb by (done || lia).
  rewrite (search_marker _ _ _ _ _ CoreOp.CondElse) by done. cbv zeta.
  rewrite (size_marker CoreOp.CondIf), bytes_app, length_app, (size_marker CoreOp.CondElse), bytes_app, length_app,
    (size_marker CoreOp.CondEnd) by done. change (bytes []) with (@nil Z). cbn [length].
  replace (pc + S (size b + S (size c + 1)))%nat with (pc + 1 + size b + 1 + size c + 1)%nat by lia.
  destruct fe.
  - destruct (Z.eqb_spec (n + 1 - 1) 0); [lia|]. rewrite Hc by (done || lia).
    rewrite (search_marker _ _ _ _ _ CoreOp.CondEnd) by done. cbv beta zeta. by rewrite Z.add_simpl_r.
  - rewrite Hc by (done || lia). rewrite (search_marker _ _ _ _ _ CoreOp.CondEnd) by done. cbv zeta.
    destruct (Z.eqb_spec (n + 1 - 1) 0); [lia|]. by rewrite Z.add_simpl_r.
Qed.

Lemma enc_nonempty op : op_ok op -> (1 <= size [op])%nat.
Proof.
  intros [[b Hb] _]. rewrite size_one. unfold enc. rewrite Hb. cbn [default from_option id].
  apply (item_bytes_nonempty BASE (IOp (Opcode.Core op)) b Hb).
Qed.

Lemma length_le_size ops : Forall op_ok ops -> (length ops <= size ops)%nat.
Proof.
  induction 1 as [|op ops Ho _ IH]; [done|]. pose proof (enc_nonempty _ Ho) as He. rewrite size_one in He.
  rewrite bytes_cons, length_app. simpl. lia.
Qed.

Lemma code_at_length code pc ops : code_at code pc ops -> (pc + size ops <= length code)%nat.
Proof. intros (pre & rest & -> & <-). rewrite !length_app. lia. Qed.

(** The search finds the marker after the code it skips. *)
Lemma search_finds (fe : bool) code pc ops :
  skips fe ops -> Forall op_ok ops ->
  code_at code pc (ops ++ [if fe then CoreOp.CondElse else CoreOp.CondEnd]) ->
  cond_search BASE code pc fe = Some (Ok (pc + size ops + 1)%nat).
Proof.
  intros Hs Ho Hc. pose proof (code_at_length _ _ _ Hc) as Hl. apply code_at_app in Hc as [Hc Hm].
  pose proof (length_le_size _ Ho) as Hlen. rewrite bytes_app, length_app in Hl.
  unfold cond_search.
  replace (S (length code)) with (length ops + S (length code - length ops))%nat by lia.
  rewrite Hs, (search_marker _ _ _ _ _ (if fe then CoreOp.CondElse else CoreOp.CondEnd)) by (done || (by destruct fe)).
  by destruct fe.
Qed.

(** ** The operators of an expression *)

Lemma enc_some op b bs : enc op = b :: bs -> is_Some (encode BASE (Opcode.Core op)).
Proof. unfold enc. destruct (encode BASE _); [eauto|done]. Qed.

Lemma apply_op_ok op vs x : apply_op op vs = Some x -> op_ok op /\ is_marker op = false.
Proof.
  intros Ha. assert (Hn : const_ok (Opcode.Core op) = true /\ is_marker op = false) by (by destruct op).
  split; [|apply Hn]. split; [|apply Hn]. unfold apply_op in Ha.
  destruct (sem1 op) as [f|] eqn:E1.
  { destruct (dispatch_sem1 op f E1) as (b & He & _). by eapply enc_some. }
  destruct (sem2 op) as [f|] eqn:E2.
  { destruct (dispatch_sem2 op f E2) as (b & He & _). by eapply enc_some. }
  destruct (semN op) as [[n g]|] eqn:E3; [|done].
  destruct (dispatch_semN op n g E3) as (b & f & He & _). by eapply enc_some.
Qed.

Lemma apply_unary tok x : tok ∈ [Token.Minus; Token.Bang; Token.Tilde] ->
  is_Some (apply_op (unary_opcode tok) [x]).
Proof.
  rewrite !elem_of_cons. intros [-> |[-> |[-> |Hf]]]; [cbn; eauto..|by apply not_elem_of_nil in Hf].
Qed.

Lemma apply_binary tok x y : token_is_binary tok = true -> is_Some (apply_op (binary_opcode tok) [x; y]).
Proof. destruct tok; intros Ht; vm_compute in Ht; try discriminate Ht; cbn; eauto. Qed.

Lemma apply_call {A} f (args : list A) vs :
  call_ok f args = true -> length vs = length args -> is_Some (apply_op (call_opcode f (len args)) vs).
Proof.
  unfold call_ok. intros [Hf Ha]%andb_prop Hl. rewrite <- Hl in *. clear Hl args.
  destruct f; vm_compute in Hf; try discriminate Hf; clear Hf; cbn [is_vararg func_arity] in Ha;
    destruct vs as [|a [|b [|c vs]]]; try discriminate Ha; unfold apply_op;
    cbn [call_opcode core func_to_opcode sem1 sem2 semN]; rewrite ?Z.eqb_refl; eauto;
    apply Z.eqb_eq in Ha; cbn [length] in Ha; lia.
Qed.

(** ** Literals *)

Lemma round_aux_zero m e l : binary_round_aux f64_prec f64_emax false m e l <> S754_zero true.
Proof.
  unfold binary_round_aux. destruct (shr_fexp _ _ m e l) as [r e']. destruct (shr_fexp _ _ _ e' _) as [r2 e2].
  destruct (shr_m r2); [done| |done]. by destruct (e2 <=? _).
Qed.

Lemma normalize_nonneg m e : 0 <= m -> binary_normalize f64_prec f64_emax m e false <> S754_zero true.
Proof.
  intros Hm. destruct m as [|m|m]; [done| |lia]. unfold binary_normalize, binary_round.
  destruct (shl_align _ _ _). apply round_aux_zero.
Qed.

Lemma decimal_nonneg m e : 0 <= m -> f64_of_decimal m e <> S754_zero true.
Proof.
  intros Hm. unfold f64_of_decimal. destruct (m =? 0); [done|]. destruct (Z.leb_spec 0 e).
  - apply normalize_nonneg. pose proof (Z.pow_nonneg 10 e). nia.
  - apply normalize_nonneg. assert (0 <= m * 2 ^ Z.max 0 (66 + Z.log2 (10 ^ (- e)) - Z.log2 m) / 10 ^ (- e)).
    { apply Z.div_pos; [|apply Z.pow_pos_nonneg; lia]. apply Z.mul_nonneg_nonneg; [done|apply Z.pow_nonneg; lia]. }
    destruct (_ mod _ =? 0); lia.
Qed.

Lemma digits_value_nonneg l : digits_ok l = true -> 0 <= digits_value l.
Proof.
  unfold digits_value. assert (Hg : forall n, 0 <= n -> digits_ok l = true -> 0 <= foldl (fun n d => n * 10 + (d - 48)) n l).
  { induction l as [|d l IH]; intros n Hn; [done|]. cbn [foldl digits_ok forallb]. intros [Hd Hl]%andb_prop.
    unfold is_ascii_digit in Hd. zbool. apply IH; [lia|done]. }
  by apply Hg.
Qed.

(** A literal is stored exactly. *)
Lemma literal_exact whole frac : digits_ok whole = true -> digits_ok frac = true ->
  literal_value (lit_value whole frac) = lit_value whole frac.
Proof.
  intros Hw Hf. unfold literal_value. destruct (f64_eqb _ _) eqn:E; [|done].
  pose proof (decimal_nonneg (digits_value (whole ++ frac)) (- len frac)) as Hn. fold (lit_value whole frac) in Hn.
  apply f64_eqb_eq in E as [<-|[Ez _]]; [done|].
  destruct (lit_value whole frac) as [s| | |]; try done. destruct s; [|done].
  exfalso. apply Hn; [|done]. apply digits_value_nonneg. unfold digits_ok in *. by rewrite forallb_app, Hw, Hf.
Qed.

(** ** Expressions *)

Section Induction.
Variable P : expr -> Prop.
Hypothesis HLit : forall whole frac, P (Lit whole frac).
Hypothesis HArg : forall i, P (Arg i).
Hypothesis HWord : forall tok, P (Word tok).
Hypothesis HUnary : forall tok a, P a -> P (Unary tok a).
Hypothesis HCall : forall f args, Forall P args -> P (Call f args).
Hypothesis HBinary : forall tok a b, P a -> P b -> P (Binary tok a b).
Hypothesis HCond : forall a b c, P a -> P b -> P c -> P (Cond a b c).

Fixpoint expr_rect' (e : expr) : P e :=
  match e with
  | Lit whole frac => HLit whole frac
  | Arg i => HArg i
  | Word tok => HWord tok
  | Unary tok a => HUnary tok a (expr_rect' a)
  | Call f args =>
      HCall f args ((fix go l : Forall P l :=
                       match l with
                       | [] => List.Forall_nil P
                       | a :: l => @List.Forall_cons _ P a l (expr_rect' a) (go l)
                       end) args)
  | Binary tok a b => HBinary tok a b (expr_rect' a) (expr_rect' b)
  | Cond a b c => HCond a b c (expr_rect' a) (expr_rect' b) (expr_rect' c)
  end.
End Induction.

Lemma value_call v f args s :
  value v (Call f args) s = let '(xs, s) := values v args s in (apply1 (call_opcode f (len args)) xs, s).
Proof. reflexivity. Qed.

Lemma values_length v args : forall s, length (fst (values v args s)) = length args.
Proof.
  induction args as [|a args IH]; intros s; [done|]. cbn [values]. destruct (value v a s) as [x s1].
  specialize (IH s1). destruct (values v args s1). simpl in *. lia.
Qed.

(** Every instruction of an expression's code is one of the base dialect, and a search for
    the end of a conditional skips it. *)
Lemma postfix_ok e : wf e = true -> Forall op_ok (postfix e) /\ forall fe, skips fe (postfix e).
Proof.
  assert (H1 : forall op, op_ok op -> is_marker op = false -> Forall op_ok [op] /\ forall fe, skips fe [op]).
  { intros op Ho Hm. split; [apply List.Forall_cons; [done|apply List.Forall_nil]|]. intros fe. by apply skips_one. }
  assert (Hx : forall op vs, is_Some (apply_op op vs) -> Forall op_ok [op] /\ forall fe, skips fe [op]).
  { intros op vs [x Hx]. apply apply_op_ok in Hx as [Ho Hm]. by apply H1. }
  assert (Ha : forall a b, (Forall op_ok a /\ forall fe, skips fe a) -> (Forall op_ok b /\ forall fe, skips fe b) ->
    Forall op_ok (a ++ b) /\ forall fe, skips fe (a ++ b)).
  { intros a b [? ?] [? ?]. split; [by apply Forall_app|]. intros. by apply skips_app. }
  induction e as [whole frac|i|tok|tok a IHa|f l IHl|tok a b IHa IHb|a b c IHa IHb IHc] using expr_rect';
    cbn [wf postfix]; intros Hw.
  - apply H1; [|done]. split; [simpl; eauto|]. apply f64_of_decimal_valid.
  - apply H1; [|done]. split; [|done]. destruct (enc_var i) as [He _]; [zbool; lia|]. by eapply enc_some.
  - apply bool_decide_eq_true in Hw. apply H1.
    + unfold words in Hw. rewrite !elem_of_cons in Hw.
      destruct Hw as [-> |[-> |[-> |[-> |[-> |Hw]]]]]; [..|by apply not_elem_of_nil in Hw];
        (split; [vm_compute; eauto|done]).
    + destruct tok as [| | | | | | | | | | | | | | | | | | | | | | | | | | | | | | | | | | | | | | | | | | | | | |[]| | | |]; done.
  - apply andb_prop in Hw as [Ht Hw]. apply bool_decide_eq_true in Ht.
    apply Ha; [by apply IHa|]. apply (Hx _ [f64_zero]). by apply apply_unary.
  - apply andb_prop in Hw as [Hc Hw]. apply Ha; [|].
    + clear Hc. induction IHl as [|a l IHa IHl' IH]; [split; [constructor|apply skips_nil]|].
      cbn [forallb] in Hw. apply andb_prop in Hw as [Hwa Hwl]. cbn [List.map]. rewrite mjoin_cons.
      apply Ha; [by apply IHa|by apply IH].
    + apply (Hx _ (replicate (length l) f64_zero)). apply apply_call; [done|]. apply length_replicate.
  - apply andb_prop in Hw as [[Ht Hwa]%andb_prop Hwb]. apply Ha; [by apply IHa|]. apply Ha; [by apply IHb|].
    apply (Hx _ [f64_zero; f64_zero]). by apply apply_binary.
  - apply andb_prop in Hw as [[Hwa Hwb]%andb_prop Hwc].
    destruct (IHb Hwb) as [Hob Hsb]. destruct (IHc Hwc) as [Hoc Hsc]. apply Ha; [by apply IHa|]. split.
    + constructor; [by apply marker_ok|]. apply Forall_app. split; [done|]. constructor; [by apply marker_ok|].
      apply Forall_app. split; [done|]. constructor; [by apply marker_ok|constructor].
    + intros fe. by apply skips_cond.
Qed.

(** The code of an expression pushes its value. *)
Definition runs (v : NumericVars) (e : expr) : Prop :=
  forall code pc st s, code_at code pc (postfix e) -> Z.of_nat (length st) + need e <= 80 ->
  reaches code pc (M st v s) (pc + size (postfix e)) (M (st ++ [fst (value v e s)]) v (snd (value v e s))).

Lemma run_apply code pc op vs st v s :
  is_Some (apply_op op vs) -> (length st < 80)%nat -> code_at code pc [op] ->
  reaches code pc (M (st ++ vs) v s) (pc + size [op]) (M (st ++ [apply1 op vs]) v s).
Proof. intros [x Hx] Hl Hc. unfold apply1. rewrite Hx. by apply run_op. Qed.

Lemma need_pos e : wf e = true -> 1 <= need e.
Proof.
  induction e as [| | |tok a IHa|f l IHl|tok a b IHa IHb|a b c IHa IHb IHc] using expr_rect';
    cbn [wf need]; intros Hw; try lia.
  - apply andb_prop in Hw as [_ Hw]. auto.
  - apply andb_prop in Hw as [Hc Hw]. destruct IHl as [|a l IHa _].
    + exfalso. unfold call_ok in Hc. apply andb_prop in Hc as [Hf Hc].
      destruct f; vm_compute in Hf; try discriminate Hf; vm_compute in Hc; discriminate Hc.
    + cbn [forallb] in Hw. apply andb_prop in Hw as [Hw _]. simpl. specialize (IHa Hw). lia.
  - apply andb_prop in Hw as [[_ Hw]%andb_prop _]. specialize (IHa Hw). lia.
  - apply andb_prop in Hw as [[Hw _]%andb_prop _]. specialize (IHa Hw). lia.
Qed.

(** Arguments are pushed from the left. *)
Lemma runs_args v l : Forall (fun e => wf e = true -> runs v e) l -> forallb wf l = true ->
  forall code pc st s, code_at code pc (mjoin (List.map postfix l)) ->
  Z.of_nat (length st) + foldr (fun n k => Z.max n (1 + k)) 0 (List.map need l) <= 80 ->
  reaches code pc (M st v s) (pc + size (mjoin (List.map postfix l)))
    (M (st ++ fst (values v l s)) v (snd (values v l s))).
Proof.
  induction 1 as [|a l Ha _ IH]; intros Hw code pc st s Hc Hn.
  { cbn. rewrite Nat.add_0_r, app_nil_r. apply reach_refl. }
  cbn [forallb List.map foldr values] in *. apply andb_prop in Hw as [Hwa Hwl].
  rewrite mjoin_cons in *. apply code_at_app in Hc as [Hca Hcl].
  specialize (Ha Hwa code pc st s Hca). destruct (value v a s) as [x s1]. cbn [fst snd] in Ha.
  specialize (IH Hwl code _ (st ++ [x]) s1 Hcl). destruct (values v l s1) as [xs s2]. cbn [fst snd] in *.
  rewrite bytes_app, length_app, Nat.add_assoc.
  eapply reaches_trans; [apply Ha; lia|]. replace (st ++ x :: xs) with ((st ++ [x]) ++ xs) by (by rewrite <- app_assoc).
  apply IH. rewrite length_app. simpl. lia.
Qed.

Lemma run_marker code pc m : code_at code pc [CoreOp.CondEnd] -> reaches code pc m (pc + 1) m.
Proof.
  intros Hc. destruct (code_at_bytes code pc CoreOp.CondEnd 99 []) as [Hb _]; [vm_compute; reflexivity|done|].
  eapply reaches_one; [exact Hb|]. rewrite Nat.add_1_r. reflexivity.
Qed.

Lemma run_if code pc x st v s ops :
  skips true ops -> Forall op_ok ops ->
  code_at code pc (CoreOp.CondIf :: ops ++ [CoreOp.CondElse]) ->
  reaches code pc (M (st ++ [x]) v s)
    (if f64_eqb x f64_zero then pc + 1 + size ops + 1 else pc + 1)%nat (M st v s).
Proof.
  intros Hs Ho Hc. apply code_at_marker in Hc as [Hc Hops]; [|done].
  destruct (code_at_bytes code pc CoreOp.CondIf 97 []) as [Hb _]; [vm_compute; reflexivity|done|].
  rewrite !Nat.add_1_r in *. pose proof (search_finds true _ _ _ Hs Ho Hops) as Hf.
  eapply reaches_one; [exact Hb|]. unfold dispatch. cbn [Z.eqb Z.leb Pos.eqb Z.compare Pos.compare Pos.compare_cont operand_stack].
  rewrite pop1_app. unfold on_stack. cbn [args seed]. destruct (f64_eqb x f64_zero); [|done].
  rewrite Hf. cbn [jump]. f_equal. lia.
Qed.

Lemma run_else code pc m ops :
  skips false ops -> Forall op_ok ops ->
  code_at code pc (CoreOp.CondElse :: ops ++ [CoreOp.CondEnd]) ->
  reaches code pc m (pc + 1 + size ops + 1) m.
Proof.
  intros Hs Ho Hc. apply code_at_marker in Hc as [Hc Hops]; [|done].
  destruct (code_at_bytes code pc CoreOp.CondElse 98 []) as [Hb _]; [vm_compute; reflexivity|done|].
  rewrite !Nat.add_1_r in *. pose proof (search_finds false _ _ _ Hs Ho Hops) as Hf.
  eapply reaches_one; [exact Hb|]. unfold dispatch. cbn [Z.eqb Z.leb Pos.eqb Z.compare Pos.compare Pos.compare_cont].
  rewrite Hf. cbn [jump]. f_equal. lia.
Qed.

Lemma runs_cond v a b c :
  wf (Cond a b c) = true -> runs v a -> runs v b -> runs v c -> runs v (Cond a b c).
Proof.
  cbn [wf]. intros [[Hwa Hwb]%andb_prop Hwc]%andb_prop Ha Hb Hc code pc st s Hat Hn.
  cbn [postfix need value] in *.
  destruct (postfix_ok b Hwb) as [Hob Hsb]. destruct (postfix_ok c Hwc) as [Hoc Hsc].
  apply code_at_app in Hat as [Hca Hat].
  assert (Hif : code_at code (pc + size (postfix a)) (CoreOp.CondIf :: postfix b ++ [CoreOp.CondElse])).
  { replace (CoreOp.CondIf :: postfix b ++ CoreOp.CondElse :: postfix c ++ [CoreOp.CondEnd])
      with ((CoreOp.CondIf :: postfix b ++ [CoreOp.CondElse]) ++ postfix c ++ [CoreOp.CondEnd]) in Hat
      by (cbn; by rewrite <- app_assoc).
    by apply code_at_app in Hat as [Hat _]. }
  apply code_at_marker in Hat as [_ Hat]; [|done]. apply code_at_app in Hat as [Hcb Helse].
  pose proof Helse as Hcc. apply code_at_marker in Hcc as [_ Hcc]; [|done]. apply code_at_app in Hcc as [Hcc Hend].
  rewrite bytes_app, length_app, (size_marker CoreOp.CondIf), bytes_app, length_app, (size_marker CoreOp.CondElse),
    bytes_app, length_app, (size_marker CoreOp.CondEnd) by done.
  change (bytes []) with (@nil Z). cbn [length].
  specialize (Ha code pc st s Hca). destruct (value v a s) as [x s1]. cbn [fst snd] in Ha.
  eapply reaches_trans; [apply Ha; lia|]. eapply reaches_trans; [apply (run_if _ _ _ _ _ _ _ (Hsb true) Hob Hif)|].
  destruct (f64_eqb x f64_zero).
  - eapply reaches_trans; [apply (Hc _ _ _ _ Hcc); lia|].
    replace (pc + (size (postfix a) + S (size (postfix b) + S (size (postfix c) + 1))))%nat
      with (pc + size (postfix a) + 1 + size (postfix b) + 1 + size (postfix c) + 1)%nat by lia.
    by apply run_marker.
  - eapply reaches_trans; [apply (Hb _ _ _ _ Hcb); lia|].
    replace (pc + (size (postfix a) + S (size (postfix b) + S (size (postfix c) + 1))))%nat
      with (pc + size (postfix a) + 1 + size (postfix b) + 1 + size (postfix c) + 1)%nat by lia.
    by apply run_else.
Qed.

Lemma runs_expr v e : wf e = true -> runs v e.
Proof.
  induction e as [whole frac|i|tok|tok a IHa|f l IHl|tok a b IHa IHb|a b c IHa IHb IHc] using expr_rect'; intros Hw.
  - intros code pc st s Hat Hn. cbn [wf postfix need value fst snd] in *.
    apply andb_prop in Hw as [[[Hd Hf]%andb_prop _]%andb_prop _].
    rewrite <- (literal_exact _ _ Hd Hf) at 2. apply pushes_const; [apply f64_of_decimal_valid|lia|done].
  - intros code pc st s Hat Hn. cbn [wf postfix need value fst snd] in *. zbool. apply pushes_var; [lia|lia|done].
  - intros code pc st s Hat Hn. cbn [wf postfix need value] in *. apply bool_decide_eq_true in Hw.
    apply pushes_word; [done|lia|done].
  - intros code pc st s Hat Hn. cbn [wf postfix need value] in *. apply andb_prop in Hw as [Ht Hw].
    apply bool_decide_eq_true in Ht. apply code_at_app in Hat as [Hca Hop]. pose proof (need_pos a Hw).
    specialize (IHa Hw code pc st s Hca). destruct (value v a s) as [x s1]. cbn [fst snd] in *.
    rewrite bytes_app, length_app, Nat.add_assoc. eapply reaches_trans; [apply IHa; lia|].
    apply run_apply; [by apply apply_unary|lia|done].
  - pose proof (need_pos _ Hw). intros code pc st s Hat Hn. rewrite value_call. cbn [wf postfix need] in *.
    apply andb_prop in Hw as [Hc Hw]. apply code_at_app in Hat as [Hcl Hop].
    pose proof (runs_args v l IHl Hw code pc st s Hcl) as Hr. pose proof (values_length v l s) as Hlen.
    destruct (values v l s) as [xs s1]. cbn [fst snd] in *.
    rewrite bytes_app, length_app, Nat.add_assoc. eapply reaches_trans; [apply Hr; lia|].
    apply run_apply; [by apply apply_call|lia|done].
  - intros code pc st s Hat Hn. cbn [wf postfix need value] in *. apply andb_prop in Hw as [[Ht Hwa]%andb_prop Hwb].
    apply code_at_app in Hat as [Hca Hat]. apply code_at_app in Hat as [Hcb Hop].
    pose proof (need_pos a Hwa). pose proof (need_pos b Hwb).
    specialize (IHa Hwa code pc st s Hca). destruct (value v a s) as [x s1]. cbn [fst snd] in *.
    specialize (IHb Hwb code _ (st ++ [x]) s1 Hcb). destruct (value v b s1) as [y s2]. cbn [fst snd] in *.
    rewrite !bytes_app, !length_app, !Nat.add_assoc. eapply reaches_trans; [apply IHa; lia|].
    eapply reaches_trans; [apply IHb; rewrite length_app; simpl; lia|]. rewrite <- app_assoc.
    apply run_apply; [by apply apply_binary|lia|done].
  - pose proof Hw as Hw'. cbn [wf] in Hw'. apply andb_prop in Hw' as [[Hwa Hwb]%andb_prop Hwc].
    apply runs_cond; auto.
Qed.
End Run.
