(* ===== verification/CalcCompileTheory.v ===== *)
(** * Calculation engine: the compiler on the text of an expression

    The operator-precedence compiler, run on the elements of an expression, emits the
    expression's postfix order.  What it still holds on its operator stack after the last
    element ([pend]) completes the code once flushed, whichever of the flushes an enclosing
    element performs.  The analysis of missing values stays on one path throughout: that of a
    conditional's two branches is the same, so they join again. *)
From Stdlib Require Import SpecFloat Sorted.
From stdpp Require Import base tactics numbers list option strings.
From S2P Require Import Prelude Float64 Float64Theory Strtod CalcOps CalcLex CalcCode CalcPostfix.
From S2P Require Import CalcEval CalcTheory CalcCodeTheory CalcExpr CalcRunTheory.

Open Scope Z_scope.

(** ** One path of holes *)

(** The analysis when no value is missing: one path, with the holes of the stores so far and
    the spans that are open. *)
Definition calm (hs : list Hole) (sp : list (Span * Z * nat)) (k : nat) (ar : list Arm) : Holes :=
  mkHoles [mkPath 0 hs sp] false ((fst ∘ fst) <$> sp) k false ar.

Record calm_ok (hs : list Hole) (sp : list (Span * Z * nat)) (k : nat) (ar : list Arm) (el : nat) : Prop := {
  holes_stores : Forall (eq (HStore 0)) hs;
  spans_len : Forall (fun x => snd x = length hs) sp;
  spans_sorted : StronglySorted lt ((fst ∘ fst) <$> sp);
  spans_old : Forall (fun x => (fst (fst x) < k)%nat) sp;
  arms_open : Forall (fun a => 1 <= arm_count a /\ (arm_n a < el)%nat) ar;
}.

Lemma floor_stores hs sp : Forall (eq (HStore 0)) hs -> floor_of (mkPath 0 hs sp) = 0.
Proof.
  unfold floor_of. cbn [holes]. destruct 1 as [|h hs <- Hs]; [done|]. cbn [fmap list_fmap hole_depth].
  assert (Hf : foldl Z.max 0 (hole_depth <$> hs) = 0); [|done].
  induction Hs as [|h hs <- _ IH]; [done|]. exact IH.
Qed.

Section Calm.
Context (hs : list Hole) (sp : list (Span * Z * nat)) (k : nat) (ar : list Arm) (el : nat).
Hypothesis Hok : calm_ok hs sp k ar el.

Lemma take_calm d pops : pops <= d -> holes_take d pops (calm hs sp k ar) = calm hs sp k ar.
Proof.
  intros Hp. unfold holes_take, drop_reads, calm. cbn [paths List.filter read opened next_span lost arms off].
  rewrite floor_stores by apply Hok. destruct (Z.ltb_spec (d + 0 - 0) pops); [lia|]. done.
Qed.

Lemma open_calm d :
  holes_open d (calm hs sp k ar) = (k, calm hs (sp ++ [(k, d, length hs)]) (S k) ar).
Proof.
  unfold holes_open, calm. cbn [paths read opened next_span lost arms fmap list_fmap off holes spans].
  rewrite Z.add_0_r. f_equal. f_equal. change list_fmap with (@fmap list _). by rewrite fmap_app.
Qed.

Lemma open_calm_ok d : calm_ok hs (sp ++ [(k, d, length hs)]) (S k) ar el.
Proof.
  destruct Hok as [H1 H2 H3 H4 H5]. constructor; [done|..|done].
  - apply Forall_app. split; [done|]. by repeat constructor.
  - rewrite fmap_app. cbn. clear -H3 H4. induction sp as [|x l IH]; cbn in *; [by repeat constructor|].
    apply StronglySorted_inv in H3 as [Hs Hf]. inversion_clear H4.
    constructor; [by apply IH|]. apply Forall_app. split; [done|]. by repeat constructor.
  - apply Forall_app. split; [|repeat constructor; simpl; lia]. eapply Forall_impl; [exact H4|]. simpl. lia.
Qed.

Lemma calm_ok_mono k' ar' el' : (k <= k')%nat ->
  Forall (fun a => 1 <= arm_count a /\ (arm_n a < el')%nat) ar' -> calm_ok hs sp k' ar' el'.
Proof.
  intros Hk Ha. destruct Hok as [H1 H2 H3 H4 H5]. constructor; try done.
  eapply Forall_impl; [exact H4|]. simpl. lia.
Qed.

Lemma calm_ok_later k' el' : (k <= k')%nat -> (el <= el')%nat -> calm_ok hs sp k' ar el'.
Proof.
  intros Hk He. apply calm_ok_mono; [done|]. eapply Forall_impl; [apply Hok|]. simpl. lia.
Qed.

(** The last span is the one that ends. *)
Lemma end_last k' d :
  (k <= k')%nat ->
  path_end k' (mkPath 0 hs (sp ++ [(k', d, length hs)])) = (Some (d, length hs), mkPath 0 hs sp).
Proof.
  intros Hk. unfold path_end. cbn [spans off holes].
  assert (Hr : remove_span k' (sp ++ [(k', d, length hs)]) = (Some (d, length hs), sp)); [|by rewrite Hr].
  pose proof (spans_old _ _ _ _ _ Hok) as Hs. clear -Hs Hk.
  induction Hs as [|[[s d'] n] l Hx Hl IH]; cbn [app remove_span].
  - by rewrite Nat.eqb_refl.
  - simpl in Hx. destruct (Nat.eqb_spec s k'); [lia|]. by rewrite IH.
Qed.

Lemma cut_all : path_cut (length hs) (mkPath 0 hs sp) = ([], mkPath 0 hs sp).
Proof.
  unfold path_cut. cbn [holes off spans]. rewrite drop_all, take_ge by done. do 2 f_equal.
  pose proof (spans_len _ _ _ _ _ Hok) as Hl. clear -Hl. induction Hl as [|[[s d] n] l Hx _ IH]; [done|].
  cbn [fmap list_fmap]. simpl in Hx. subst n. rewrite Nat.min_id. f_equal. exact IH.
Qed.

Lemma without_last k' d : (k <= k')%nat ->
  without k' ((fst ∘ fst) <$> (sp ++ [(k', d, length hs)])) = (fst ∘ fst) <$> sp.
Proof.
  intros Hk. unfold without. rewrite fmap_app, List.filter_app. cbn. rewrite Nat.eqb_refl. cbn. rewrite app_nil_r.
  pose proof (spans_old _ _ _ _ _ Hok) as Hs. clear -Hs Hk.
  induction Hs as [|x l Hx _ IH]; [done|]. cbn. destruct (Nat.eqb_spec (fst (fst x)) k'); [lia|]. cbn. by f_equal.
Qed.

Lemma close_calm k' d d' K AR : (k <= k')%nat -> d < d' ->
  holes_close k' d' (calm hs (sp ++ [(k', d, length hs)]) K AR) = calm hs sp K AR.
Proof.
  intros Hk Hd. unfold holes_close, calm. cbn [paths fmap list_fmap with_paths with_open opened read next_span lost arms].
  unfold path_close. rewrite end_last by done. cbn [off]. destruct (Z.ltb_spec d (d' + 0)); [|lia].
  rewrite cut_all. cbn [off holes spans List.filter]. rewrite app_nil_r. unfold with_paths, with_open. cbn.
  by rewrite (without_last k' d Hk).
Qed.

(** A branch that left its value ends: the path keeps the absolute depth. *)
Lemma finish_calm k' d d' : (k <= k')%nat -> d < d' ->
  path_finish k' d' (mkPath 0 hs (sp ++ [(k', d, length hs)])) = mkPath d' hs sp.
Proof.
  intros Hk Hd. unfold path_finish. rewrite end_last by done. cbn [off holes].
  destruct (Z.leb_spec (d' + 0) d); [lia|]. rewrite drop_all, bool_decide_eq_false_2 by apply not_elem_of_nil.
  cbn [orb]. rewrite cut_all. cbn [holes spans]. by rewrite Z.add_0_r.
Qed.

Lemma even_path_calm d : even_path ((fst ∘ fst) <$> sp) d (mkPath 0 hs sp) = mkPath 0 hs sp.
Proof.
  unfold even_path. cbn [spans off holes].
  assert (Hk : List.filter (fun s => bool_decide (fst (fst s) ∈ (fst ∘ fst) <$> sp)) sp = sp).
  { apply List.forallb_filter_id. apply forallb_forall. intros x Hx. apply bool_decide_eq_true.
    apply list_elem_of_fmap. exists x. split; [done|]. by apply list_elem_of_In. }
  rewrite Hk.
  assert (Ha : List.filter (fun s => negb (bool_decide (s ∈ (fst ∘ fst) <$> sp))) ((fst ∘ fst) <$> sp) = []).
  { match goal with |- ?f = [] => destruct f as [|x l] eqn:E; [reflexivity|] end. exfalso.
    assert (Hx : In x (x :: l)) by (by left). rewrite <- E in Hx. apply filter_In in Hx as [Hin Hn].
    apply list_elem_of_In in Hin. rewrite bool_decide_eq_true_2 in Hn by done. discriminate Hn. }
  rewrite Ha. cbn [fmap list_fmap]. rewrite app_nil_r. f_equal.
  pose proof (spans_sorted _ _ _ _ _ Hok) as Hs. clear -Hs. unfold sort_spans.
  assert (Hg : forall l acc, StronglySorted lt ((fst ∘ fst) <$> (acc ++ l)) ->
    foldl (fun sorted x => insert_span x sorted) acc l = acc ++ l).
  { clear. induction l as [|x l IH]; intros acc Hacc; cbn [foldl]; [by rewrite app_nil_r|].
    assert (Hi : insert_span x acc = acc ++ [x]).
    { clear IH. induction acc as [|y acc IH]; [done|]. cbn [insert_span app].
      cbn [app] in Hacc. rewrite fmap_cons in Hacc. apply StronglySorted_inv in Hacc as [Hacc Hf].
      rewrite IH by done. rewrite list.Forall_forall in Hf.
      assert (Hlt : (fst (fst y) < fst (fst x))%nat).
      { apply (Hf (fst (fst x))). apply list_elem_of_fmap. exists x. split; [done|]. apply elem_of_app. right. by constructor. }
      destruct (Nat.leb_spec (fst (fst y)) (fst (fst x))); [done|lia]. }
    rewrite Hi, IH by (by rewrite <- app_assoc). by rewrite <- app_assoc. }
  rewrite Hg; done.
Qed.

Lemma even_calm d n K : even d (mkHoles (replicate (S n) (mkPath 0 hs sp)) false ((fst ∘ fst) <$> sp) K false ar)
  = calm hs sp K ar.
Proof.
  unfold even. cbv zeta. cbn [opened paths].
  assert (Hf : foldl (fun acc p => if bool_decide (even_path ((fst ∘ fst) <$> sp) d p ∈ acc) then acc
    else acc ++ [even_path ((fst ∘ fst) <$> sp) d p]) [] (replicate (S n) (mkPath 0 hs sp)) = [mkPath 0 hs sp]).
  { cbn [replicate foldl]. rewrite even_path_calm.
    rewrite bool_decide_eq_false_2 by apply not_elem_of_nil. cbn [app].
    induction n as [|n IH]; [done|]. cbn [replicate foldl]. rewrite even_path_calm.
    rewrite bool_decide_eq_true_2 by (by constructor). exact IH. }
  rewrite Hf. done.
Qed.

End Calm.

(** ** Conditionals *)

Section Branches.
Context (hs : list Hole) (sp : list (Span * Z * nat)) (k : nat) (ar : list Arm) (el : nat).
Hypothesis Hok : calm_ok hs sp k ar el.

Definition inc (l : list Arm) : list Arm :=
  (fun a => mkArm (arm_then a) (arm_ends a) (arm_n a) (arm_count a + 1)) <$> l.

Abbreviation spans' d := (sp ++ [(k, d, length hs)]).

Lemma fork_calm d :
  holes_fork d (calm hs sp k ar) = (mkFork k d [mkPath 0 hs (spans' d)], calm hs (spans' d) (S k) (inc ar)).
Proof.
  unfold holes_fork, holes_open, with_arms, calm.
  cbn [paths read opened next_span lost arms fmap list_fmap off holes spans].
  rewrite Z.add_0_r. f_equal. f_equal. change list_fmap with (@fmap list _). by rewrite fmap_app.
Qed.

Lemma inc_old first : (el <= first)%nat -> Forall (fun a => (arm_n a < first)%nat) (inc ar).
Proof.
  intros Hf. apply Forall_fmap. eapply Forall_impl; [exact (arms_open _ _ _ _ _ Hok)|]. simpl. lia.
Qed.

Lemma split_all first l : Forall (fun a => (arm_n a < first)%nat) l -> split_arms first l = (l, []).
Proof.
  induction 1 as [|a l Ha _ IH]; [done|]. cbn [split_arms]. rewrite IH. destruct l; [|done].
  destruct (Nat.ltb_spec (arm_n a) first); [done|lia].
Qed.

(** The arm a [:] leaves: the true branch ended with its value. *)
Definition left_arm (d : Z) (n : nat) (count : Z) : Arm := mkArm (Some k) [mkPath (d + 1) hs sp] n count.

Lemma branch_calm d n first K :
  (el <= first)%nat -> (k < K)%nat ->
  holes_branch (mkFork k d [mkPath 0 hs (spans' d)]) (d + 1) n first (calm hs (spans' d) K (inc ar))
  = calm hs (spans' d) K (inc ar ++ [left_arm d n 1]).
Proof.
  intros Hf HK. unfold holes_branch. change (arms (calm hs (spans' d) K (inc ar))) with (inc ar).
  rewrite split_all by (by apply inc_old). cbn [end_inner fork_then fork_rest fork_depth].
  unfold calm. cbn [paths fmap list_fmap]. rewrite (finish_calm _ _ _ _ _ Hok) by lia.
  replace (d - (d + 1 - 1)) with 0 by lia. cbn [off holes spans]. rewrite Z.add_0_r.
  unfold with_paths. cbn [read opened next_span lost arms].
  replace (d + 1 - 1) with d by lia.
  assert (He : even d (mkHoles (replicate 1 (mkPath 0 hs (spans' d))) false ((fst ∘ fst) <$> spans' d) K false (inc ar))
    = calm hs (spans' d) K (inc ar)).
  { apply (even_calm _ _ (S k) _ (S el)) with (n := O). pose proof (open_calm_ok _ _ _ _ _ Hok d) as Ho.
    constructor; try apply Ho. apply Forall_fmap. eapply Forall_impl; [exact (arms_open _ _ _ _ _ Hok)|]. simpl. lia. }
  cbn [replicate] in He. rewrite He. unfold with_arms, calm. cbn [paths read opened next_span lost arms].
  by rewrite app_nil_r.
Qed.

Lemma take_landed_last l a : arm_count a = 0 -> take_landed (l ++ [a]) = Some (a, l).
Proof.
  intros Ha. induction l as [|b l IH]; cbn [app take_landed].
  - by rewrite Ha.
  - by rewrite IH.
Qed.

Lemma take_landed_none l : Forall (fun a => 1 <= arm_count a) l -> take_landed l = None.
Proof.
  induction 1 as [|a l Ha _ IH]; [done|]. cbn [take_landed]. rewrite IH. destruct (Z.eqb_spec (arm_count a) 0); [lia|done].
Qed.

Lemma land_none fuel d h : Forall (fun a => 1 <= arm_count a) (arms h) -> land fuel d h = h.
Proof. intros Ha. destruct fuel; [done|]. cbn [land]. by rewrite take_landed_none. Qed.

(** A conditional ends: its two paths are one again. *)
Lemma cond_end_calm d n K :
  holes_cond_end (d + 1) (calm hs (spans' d) K (inc ar ++ [left_arm d n 1])) = calm hs sp K ar.
Proof.
  unfold holes_cond_end.
  assert (Hd : (fun a => mkArm (arm_then a) (arm_ends a) (arm_n a) (arm_count a - 1)) <$> (inc ar ++ [left_arm d n 1])
    = ar ++ [left_arm d n 0]).
  { rewrite fmap_app. f_equal. unfold inc. rewrite <- list_fmap_compose. clear. induction ar as [|[t e m c] l IH]; [done|].
    rewrite fmap_cons, IH. unfold compose. cbn [arm_then arm_ends arm_n arm_count]. by rewrite Z.add_simpl_r. }
  unfold with_arms, calm. cbn [paths read opened next_span lost arms]. rewrite Hd. cbn [arms].
  replace (length (ar ++ [left_arm d n 0])) with (S (length ar)) by (rewrite length_app; simpl; lia).
  cbn [land arms]. rewrite take_landed_last by done. cbn [left_arm arm_then arm_ends].
  unfold holes_end, with_arms. cbn [paths read opened next_span lost arms fmap list_fmap].
  rewrite (finish_calm _ _ _ _ _ Hok) by lia. cbn [off holes spans]. change list_fmap with (@fmap list _).
  unfold with_open, with_paths. cbn [paths read opened next_span lost arms app].
  rewrite (without_last _ _ _ _ _ Hok) by lia. rewrite Z.sub_diag.
  pose proof (even_calm _ _ _ _ _ Hok (d + 1) 1 K) as He. cbn [replicate] in He. rewrite He. apply land_none. unfold calm. cbn [arms].
  eapply Forall_impl; [exact (arms_open _ _ _ _ _ Hok)|]. simpl. lia.
Qed.
End Branches.

(** ** Flushing *)

Section Steps.
Context `{Host}.

Fixpoint steps (l : list Token.t) (c : Compiler) : result CalcError.t Compiler :=
  match l with
  | [] => Ok c
  | t :: l => c ← token_step Numeric t c; steps l c
  end.

Lemma steps_app a b c : steps (a ++ b) c = c ← steps a c; steps b c.
Proof.
  revert c. induction a as [|t a IH]; intros c; [done|]. cbn [app steps].
  destruct (token_step Numeric t c) as [c'|]; cbn; [apply IH|done].
Qed.

Definition emits (o : Emitter) (ops : list CoreOp.t) : Emitter := foldl (fun o op => emit o (Opcode.Core op)) o ops.
Definition flushes (l : list StackEntry) (c : Compiler) : Compiler := foldl (fun c e => flush Numeric e c) c l.

Lemma emits_app o a b : emits o (a ++ b) = emits (emits o a) b.
Proof. apply foldl_app. Qed.

Lemma emits_cons o op ops : emits o (op :: ops) = emits (emit o (Opcode.Core op)) ops.
Proof. done. Qed.

Lemma flushes_app a b c : flushes (a ++ b) c = flushes b (flushes a c).
Proof. apply foldl_app. Qed.

Lemma flush_stack e c s : flush Numeric e (with_stack c s) = with_stack (flush Numeric e c) s.
Proof. unfold flush, emit_entry, emit_op. cbn. by destruct (entry_opcode e Numeric). Qed.

Lemma flushes_stack l : forall c s, flushes l (with_stack c s) = with_stack (flushes l c) s.
Proof. induction l as [|e l IH]; intros c s; [done|]. cbn [flushes foldl]. rewrite flush_stack. apply IH. Qed.

(** A flush takes the pending entries and stops at the enclosing one. *)
Lemma flush_while_pend f l s c :
  Forall (fun e => f e = true) l -> match s with [] => True | e :: _ => f e = false end ->
  flush_while Numeric f (l ++ s) c = with_stack (flushes l c) s.
Proof.
  intros Hl Hs. revert c. induction Hl as [|e l He _ IH]; intros c; cbn [app flush_while flushes foldl].
  - destruct s as [|e s]; [done|]. cbn [flush_while]. by rewrite Hs.
  - rewrite He. apply IH.
Qed.

Lemma with_stack_stack c s s' : with_stack (with_stack c s) s' = with_stack c s'.
Proof. done. Qed.

(** A state in which no value is missing. *)
Abbreviation St o s b d hs sp k ar cs el := (mkCompiler o s b d (calm hs sp k ar) cs el false).

Lemma with_stack_St o s s' b d hs sp k ar cs el :
  with_stack (St o s b d hs sp k ar cs el) s' = St o s' b d hs sp k ar cs el.
Proof. done. Qed.

(** An operator leaving the stack: [n] values in, one out. *)
Lemma flush_op e op n o s b d hs sp k ar cs el :
  calm_ok hs sp k ar el -> entry_opcode e Numeric = Some (Opcode.Core op) -> stack_effect e = 1 - n ->
  match e with SStore _ _ | SLParen _ _ _ _ | SCondEnd => False | _ => True end ->
  n <= d ->
  flush Numeric e (St o s b d hs sp k ar cs el) = St (emit o (Opcode.Core op)) s b (d + 1 - n) hs sp k ar cs el.
Proof.
  intros Hok Ho He Hk Hn. unfold flush, emit_entry, emit_op, with_output, with_depth, with_missing.
  rewrite He, Ho. cbn [output stack operand_needed runtime_depth missing conds elses until_read].
  assert (Hp : (match e with SStore _ _ | SLParen _ _ _ _ | SCondEnd => 0 | _ => 1 end) = 1) by (by destruct e).
  rewrite Hp. replace (1 - (1 - n)) with n by lia. rewrite (take_calm _ _ _ _ _ Hok) by lia.
  replace (d + (1 - n)) with (d + 1 - n) by lia. by destruct e.
Qed.

Lemma flush_cond_end d o s b hs sp k ar cs el n K :
  calm_ok hs sp k ar el -> (k < K)%nat -> 0 <= d ->
  flush Numeric SCondEnd
    (St o s b (d + 1) hs (sp ++ [(k, d, length hs)]) K (inc ar ++ [left_arm hs sp k d n 1]) cs el)
  = St (emit o (Opcode.Core CoreOp.CondEnd)) s b (d + 1) hs sp K ar cs el.
Proof.
  intros Hok HK Hd. unfold flush, emit_entry, emit_op, with_output, with_depth, with_missing.
  cbn [entry_opcode stack_effect output stack operand_needed runtime_depth missing conds elses until_read].
  rewrite Z.add_0_r. 
  assert (Ht : holes_take (d + 1) (0 - 0) (calm hs (sp ++ [(k, d, length hs)]) K (inc ar ++ [left_arm hs sp k d n 1]))
    = calm hs (sp ++ [(k, d, length hs)]) K (inc ar ++ [left_arm hs sp k d n 1])).
  { unfold holes_take, drop_reads, calm. cbn [paths List.filter read opened next_span lost arms off].
    rewrite floor_stores by apply Hok. destruct (Z.ltb_spec (d + 1 + 0 - 0) (0 - 0)); [lia|]. done. }
  rewrite Ht. by rewrite (cond_end_calm _ _ _ _ _ Hok).
Qed.

Lemma flush_store i p o s b hs k ar cs el :
  Forall (eq (HStore 0)) hs ->
  flush Numeric (SStore (TVar i) p) (St o s b 1 hs [] k ar cs el)
  = St (emit o (Opcode.Core (CoreOp.StoreVar i))) s b 0 (hs ++ [HStore 0]) [] k ar cs el.
Proof.
  intros Hs. unfold flush, emit_entry, emit_op, with_output, with_depth, with_missing.
  cbn [entry_opcode stack_effect store_opcode output stack operand_needed runtime_depth missing conds elses until_read].
  unfold holes_take, drop_reads, calm. cbn [paths List.filter read opened next_span lost arms off].
  rewrite floor_stores by done. reflexivity.
Qed.

(** ** Tokens *)

Lemma token_operand t c c' :
  operand_needed c = true -> until_read c = false -> operand_step Numeric t false c = Ok c' ->
  0 <= runtime_depth c' < 80 -> token_step Numeric t c = Ok c'.
Proof.
  intros Hn Hu Ho Hd. unfold token_step. destruct c as [o s b d h cs el u]. cbn in Hn, Hu. subst.
  cbn [until_read with_until operand_needed output stack runtime_depth missing conds elses].
  unfold with_until. cbn [until_read operand_needed output stack runtime_depth missing conds elses].
  rewrite Ho. cbn. destruct (Z.ltb_spec (runtime_depth c') 0); [lia|].
  change (runtime_stack_size Numeric) with 80. destruct (Z.leb_spec 80 (runtime_depth c')); [lia|done].
Qed.

Lemma token_operator t c c' :
  operand_needed c = false -> until_read c = false -> operator_step Numeric t c = Ok c' ->
  0 <= runtime_depth c' < 80 -> token_step Numeric t c = Ok c'.
Proof.
  intros Hn Hu Ho Hd. unfold token_step. destruct c as [o s b d h cs el u]. cbn in Hn, Hu. subst.
  unfold with_until. cbn [until_read operand_needed output stack runtime_depth missing conds elses].
  rewrite Ho. cbn. destruct (Z.ltb_spec (runtime_depth c') 0); [lia|].
  change (runtime_stack_size Numeric) with 80. destruct (Z.leb_spec 80 (runtime_depth c')); [lia|done].
Qed.

(** ** Compiling an expression *)

(** What may enclose an expression printed at level [p]. *)
Definition top_ok (p : Z) (s : list StackEntry) : Prop :=
  match s with
  | [] => True
  | x :: _ =>
      match x with SVarargFunc _ _ _ => False | _ => True end /\
      (in_stack_pri x < p \/ (9 <= p /\ in_stack_pri x <= 9))
  end.

(** What it may leave pending. *)
Definition pend_ok (p : Z) (l : list StackEntry) : Prop :=
  Forall (fun x => is_barrier x = false /\ (2 <= p -> Z.min p 9 <= in_stack_pri x)) l.

(** From [c] the elements are read, and flushing what is pending down to [s] gives [T]. *)
Definition ends_in (toks : list Token.t) (c : Compiler) (p : Z) (s : list StackEntry) (T : Compiler) : Prop :=
  exists c' pend, steps toks c = Ok c' /\ stack c' = pend ++ s /\ operand_needed c' = false /\
    until_read c' = false /\ pend_ok p pend /\ with_stack (flushes pend c') s = T.

Definition compiles (p : Z) (e : expr) : Prop :=
  forall o s d hs sp k ar cs el, calm_ok hs sp k ar el -> top_ok p s -> 0 <= d -> d + need e <= 79 ->
  exists k' el', (k <= k')%nat /\ (el <= el')%nat /\
    ends_in (snd <$> show p e) (St o s true d hs sp k ar cs el) p s
      (St (emits o (postfix e)) s false (d + 1) hs sp k' ar cs el').

Lemma ends_in_now c p s : stack c = s -> operand_needed c = false -> until_read c = false -> ends_in [] c p s c.
Proof.
  intros Hs Hn Hu. exists c, []. split_and!; try done; [by apply List.Forall_nil|]. cbn. subst s. by destruct c.
Qed.

Lemma ends_in_cons t toks c c1 p s T :
  token_step Numeric t c = Ok c1 -> ends_in toks c1 p s T -> ends_in (t :: toks) c p s T.
Proof. intros Ht (c' & pend & Hs & Hr). exists c', pend. split; [|done]. cbn [steps]. by rewrite Ht. Qed.

Lemma ends_in_steps a toks c c1 p s T :
  steps a c = Ok c1 -> ends_in toks c1 p s T -> ends_in (a ++ toks) c p s T.
Proof. intros Ht (c' & pend & Hs & Hr). exists c', pend. split; [|done]. by rewrite steps_app, Ht. Qed.

(** An element that takes what is pending: [f] says which entries, [g] is the rest of it. *)
Lemma steps_operator toks t c p s T c2 (f : StackEntry -> bool) (g : Compiler -> result CalcError.t Compiler) :
  ends_in toks c p s T ->
  (forall c', operand_needed c' = false -> operator_step Numeric t c' = g (flush_while Numeric f (stack c') c')) ->
  (forall x, is_barrier x = false -> (2 <= p -> Z.min p 9 <= in_stack_pri x) -> f x = true) ->
  match s with [] => True | x :: _ => f x = false end ->
  g T = Ok c2 -> 0 <= runtime_depth c2 < 80 ->
  steps (toks ++ [t]) c = Ok c2.
Proof.
  intros (c' & pend & Hs & Hst & Hn & Hu & Hp & HT) Hg Hf Htop H2 Hd. rewrite steps_app, Hs. cbn [mbind result_bind steps].
  rewrite (token_operator t c' c2); [done..| |done]. rewrite (Hg c' Hn), Hst, flush_while_pend; [by rewrite HT| |done].
  eapply Forall_impl; [exact Hp|]. intros x [? ?]. by apply Hf.
Qed.

(** A pending entry more. *)
Lemma ends_in_push toks c p q e s T T' :
  ends_in toks c q (e :: s) T -> (2 <= p -> Z.min p 9 <= Z.min q 9 /\ 2 <= q) ->
  is_barrier e = false -> (2 <= p -> Z.min p 9 <= in_stack_pri e) ->
  flush Numeric e (with_stack T s) = T' -> ends_in toks c p s T'.
Proof.
  intros (c' & pend & Hs & Hst & Hn & Hu & Hp & HT) Hq Hb He HT'. exists c', (pend ++ [e]).
  split_and!; try done.
  - by rewrite Hst, <- app_assoc.
  - apply Forall_app. split; [|by repeat constructor]. eapply Forall_impl; [exact Hp|]. intros x [Hx Hx2].
    split; [done|]. intros H2. specialize (Hq H2). lia.
  - rewrite flushes_app. cbn [flushes foldl]. rewrite <- flush_stack. subst T. by rewrite with_stack_stack in HT'.
Qed.

Lemma snd_named l tok : snd (named l tok) = tok.
Proof.
  unfold named. destruct (List.find _ l) as [x|] eqn:E; [|done]. apply find_some in E as [_ E].
  by apply bool_decide_eq_true in E.
Qed.

Lemma toks_parens l : snd <$> parens l = Token.LParen :: (snd <$> l) ++ [Token.RParen].
Proof.
  unfold parens. rewrite fmap_cons, fmap_app. cbn [fmap list_fmap].
  by rewrite (snd_named (operands BASE_TABLE)), (snd_named (operators BASE_TABLE)).
Qed.

Lemma top_ok_mono p q s : p <= q -> top_ok p s -> top_ok q s.
Proof. destruct s as [|x s]; [done|]. simpl. intros Hp [? ?]. split; [done|]. lia. Qed.

(** ** Operands *)

Lemma compiles_operand p t op o s d hs sp k ar cs el :
  operand_step Numeric t false (St o s true d hs sp k ar cs el)
    = Ok (operand (Opcode.Core op) (St o s true d hs sp k ar cs el)) ->
  0 <= d -> d + 1 <= 79 ->
  ends_in [t] (St o s true d hs sp k ar cs el) p s (St (emits o [op]) s false (d + 1) hs sp k ar cs el).
Proof.
  intros Ho Hd Hn. eapply ends_in_cons.
  - apply token_operand; [done|done|exact Ho|]. cbn. lia.
  - by apply ends_in_now.
Qed.

(** ** Parentheses *)

Definition close_rest (c : Compiler) : result CalcError.t Compiler :=
  match stack c with
  | SLParen paren span _ closes_until :: rest =>
      let c := with_stack (with_missing c (holes_close span (runtime_depth c) (missing c))) rest in
      let c :=
        if closes_until : bool then
          match rest with
          | SUntilEnd :: rest => flush Numeric SUntilEnd (with_stack c rest)
          | _ => c
          end
        else c in
      Ok match stack c with
         | SVarargFunc func p _ :: rest => with_stack c (SVarargFunc func p paren :: rest)
         | _ => c
         end
  | _ => Err CalcError.ParenNotOpen
  end.

(** What closing a parenthesis does to the entry under it. *)
Definition closed (eff : Z) (s : list StackEntry) : list StackEntry :=
  match s with SVarargFunc f p _ :: s => SVarargFunc f p eff :: s | _ => s end.

(** [)] after the contents of a parenthesis. *)
Lemma steps_close toks c eff kk flag s o d d0 hs sp k ar cs el p k' el' :
  ends_in toks c p (SLParen eff kk flag false :: s)
    (St o (SLParen eff kk flag false :: s) false d hs (sp ++ [(kk, d0, length hs)]) k' ar cs el') ->
  calm_ok hs sp k ar el -> (k <= kk)%nat -> d0 < d -> 0 <= d <= 79 ->
  steps (toks ++ [Token.RParen]) c = Ok (St o (closed eff s) false d hs sp k' ar cs el').
Proof.
  intros He Hok Hk Hd Hr.
  eapply (steps_operator _ _ _ _ _ _ _ (fun e => negb (is_lparen e)) close_rest He); [done| |done| |cbn; lia].
  - intros x Hx _. by destruct x.
  - unfold close_rest. cbn [stack with_missing with_stack runtime_depth missing].
    rewrite (close_calm _ _ _ _ _ Hok) by done. cbn [stack]. unfold closed. destruct s as [|[] s]; done.
Qed.

(** [(]: a span opens. *)
Lemma token_open o s d hs sp k ar cs el :
  0 <= d <= 79 ->
  exists flag, flag = match s with
                      | SVarargFunc _ _ _ :: _ => true
                      | SOp (Token.Func f) _ :: _ => 1 <? func_arity f
                      | _ => false
                      end /\
  token_step Numeric Token.LParen (St o s true d hs sp k ar cs el)
  = Ok (St o (SLParen 0 k flag false :: s) true d hs (sp ++ [(k, d, length hs)]) (S k) ar cs el).
Proof.
  intros Hd. eexists. split; [reflexivity|]. apply token_operand; [done|done| |cbn; lia].
  cbn [operand_step stack runtime_depth missing]. rewrite open_calm. reflexivity.
Qed.

Lemma compiles_parens p e : 1 <= p <= 9 -> wf e = true -> compiles 1 e -> show p e = parens (show 1 e) -> compiles p e.
Proof.
  intros Hp Hw He Hs o s d hs sp k ar cs el Hok Htop Hd Hn. pose proof (need_pos e Hw).
  destruct (token_open o s d hs sp k ar cs el) as (flag & _ & Ht); [lia|].
  destruct (He o (SLParen 0 k flag false :: s) d hs (sp ++ [(k, d, length hs)]) (S k) ar cs el) as (k' & el' & Hk & Hel & Hin);
    [by apply open_calm_ok|split; [done|left; done]|done|done|].
  exists k', el'. split_and!; [lia|done|]. rewrite Hs, toks_parens. eapply ends_in_cons; [exact Ht|].
  rewrite <- (app_nil_r (_ ++ [Token.RParen])). eapply ends_in_steps; [eapply steps_close; [exact Hin|exact Hok|lia..]|].
  assert (Hc : closed 0 s = s) by (by destruct s as [|[] s]; simpl in Htop; try done; destruct Htop).
  rewrite Hc. by apply ends_in_now.
Qed.

(** ** Unary operators *)

Lemma pop_nothing (o : Emitter) s b d hs sp k ar cs el p : p <= 9 -> top_ok p s ->
  pop_higher_or_equal Numeric 10 (St o s b d hs sp k ar cs el) = St o s b d hs sp k ar cs el.
Proof.
  intros Hp Htop. unfold pop_higher_or_equal. cbn [stack]. rewrite (flush_while_pend _ [] s); [done|by apply List.Forall_nil|].
  destruct s as [|x s]; [done|]. simpl in Htop. apply negb_false_iff, orb_true_iff. right. apply Z.ltb_lt. lia.
Qed.

Lemma unary_entry tok : tok ∈ [Token.Minus; Token.Bang; Token.Tilde] ->
  entry_opcode (SOp tok 9) Numeric = Some (Opcode.Core (unary_opcode tok)) /\ stack_effect (SOp tok 9) = 1 - 1 /\
  forall c, operand_step Numeric tok false c = Ok (unary Numeric tok c).
Proof.
  rewrite !elem_of_cons. intros [-> |[-> |[-> |Hf]]]; [done..|by apply not_elem_of_nil in Hf].
Qed.

Lemma compiles_unary p tok a : 1 <= p <= 9 -> wf (Unary tok a) = true -> compiles 9 a -> compiles p (Unary tok a).
Proof.
  intros Hp Hw Ha o s d hs sp k ar cs el Hok Htop Hd Hn. pose proof (need_pos _ Hw) as Hnp. cbn [wf need postfix] in *.
  apply andb_prop in Hw as [Ht Hw]. apply bool_decide_eq_true in Ht. destruct (unary_entry tok Ht) as (He & Hf & Hs).
  destruct (Ha o (SOp tok 9 :: s) d hs sp k ar cs el) as (k' & el' & Hk & Hel & Hin);
    [done|split; [done|right; simpl; lia]|done|done|].
  exists k', el'. split_and!; [done|done|]. cbn [show level]. destruct (Z.ltb_spec 9 p); [lia|].
  rewrite fmap_cons, (snd_named (operands BASE_TABLE)).
  eapply ends_in_cons; [apply token_operand; [done|done| |]|].
  - rewrite Hs. unfold unary. rewrite (pop_nothing _ _ _ _ _ _ _ _ _ _ p) by (done || lia). reflexivity.
  - cbn. lia.
  - eapply ends_in_push; [exact Hin|lia|done|simpl; lia|].
    rewrite with_stack_St, (flush_op _ (unary_opcode tok) 1), emits_app; [|by eapply calm_ok_later|done..|lia].
    f_equal. lia.
Qed.

(** ** Binary operators *)

Lemma binary_entry tok : token_is_binary tok = true ->
  exists q, binary_op tok = Some (q, q) /\ 2 <= q <= 8 /\
    entry_opcode (SOp tok q) Numeric = Some (Opcode.Core (binary_opcode tok)) /\ stack_effect (SOp tok q) = 1 - 2.
Proof.
  destruct tok; intros Ht; vm_compute in Ht; try discriminate Ht; (eexists; split_and!; [reflexivity|lia..|reflexivity|reflexivity]).
Qed.

Definition push_operator (tok : Token.t) (q : Z) (c : Compiler) : result CalcError.t Compiler :=
  Ok (with_needed (push_entry c (SOp tok q)) true).

Lemma compiles_binary p tok a b :
  1 <= p -> p <= level (Binary tok a b) -> wf (Binary tok a b) = true ->
  (forall q, 1 <= q <= 9 -> compiles q a) -> (forall q, 1 <= q <= 9 -> compiles q b) -> compiles p (Binary tok a b).
Proof.
  intros Hp Hl Hw Ha Hb o s d hs sp k ar cs el Hok Htop Hd Hn.
  cbn [wf need postfix] in *. apply andb_prop in Hw as [[Ht Hwa]%andb_prop Hwb].
  pose proof (need_pos a Hwa). pose proof (need_pos b Hwb).
  destruct (binary_entry tok Ht) as (q & Hq & Hqr & He & Hf). cbn [level] in Hl. rewrite Hq in Hl.
  destruct (Ha q ltac:(lia) o s d hs sp k ar cs el) as (k1 & el1 & Hk1 & He1 & Hina);
    [done|by eapply top_ok_mono|done|lia|].
  destruct (Hb (q + 1) ltac:(lia) (emits o (postfix a)) (SOp tok q :: s) (d + 1) hs sp k1 ar cs el1)
    as (k2 & el2 & Hk2 & He2 & Hinb); [by eapply calm_ok_later|split; [done|left; simpl; lia]|lia|lia|].
  exists k2, el2. split_and!; [lia|lia|]. cbn [show level]. rewrite Hq. destruct (Z.ltb_spec q p); [lia|].
  rewrite fmap_app, fmap_cons, (snd_named (operators BASE_TABLE)).
  change (tok :: (show (q + 1) b).*2) with ([tok] ++ (show (q + 1) b).*2). rewrite app_assoc.
  eapply ends_in_steps.
  - eapply (steps_operator _ _ _ _ _ _ _ (fun e => negb (is_barrier e || (in_stack_pri e <? q))) (push_operator tok q) Hina).
    + intros c' Hc'. unfold operator_step. by rewrite Hq.
    + intros x Hx Hx2. rewrite Hx. simpl. apply negb_true_iff, Z.ltb_ge. lia.
    + destruct s as [|x s]; [done|]. simpl in Htop. apply negb_false_iff, orb_true_iff. right. apply Z.ltb_lt. lia.
    + reflexivity.
    + cbn. lia.
  - cbn [with_needed push_entry with_stack output stack operand_needed runtime_depth missing conds elses until_read].
    eapply ends_in_push; [exact Hinb|lia|done|simpl; lia|].
    rewrite with_stack_St, (flush_op _ (binary_opcode tok) 2), !emits_app; [|eapply calm_ok_later; [exact Hok|lia..]|done..|lia].
    f_equal. lia.
Qed.

(** ** Calls *)

Definition separator_rest (c : Compiler) : result CalcError.t Compiler :=
  let next span args effect build rest :=
    let '(span, h) :=
      if args : bool
      then holes_open (runtime_depth c) (holes_close span (runtime_depth c) (missing c))
      else (span, missing c) in
    Ok (with_needed (with_stack (with_missing c h) (build (effect - 1) span :: rest)) true) in
  match stack c with
  | SSubrange in_place effect span :: rest => next span true effect (SSubrange in_place) rest
  | SLParen effect span args until :: rest =>
      next span args effect (fun effect span => SLParen effect span args until) rest
  | _ => Err CalcError.BadSeparator
  end.

Abbreviation needs l := (foldr (fun n k => Z.max n (1 + k)) 0 (List.map need l)).

(** The arguments of a call, from the left; each has its own span. *)
Lemma compiles_args s hs sp ar cs flag l :
  Forall (fun a => wf a = true /\ compiles 1 a) l -> l <> [] -> (flag = false -> len l = 1) ->
  forall eff o d kk k el,
  calm_ok hs sp kk ar el -> (kk < k)%nat -> 0 <= d -> d + needs l <= 79 ->
  exists kk' k' el', (kk <= kk')%nat /\ (kk' < k')%nat /\ (el <= el')%nat /\
    ends_in (snd <$> sep_args (List.map (show 1) l))
      (St o (SLParen eff kk flag false :: s) true d hs (sp ++ [(kk, d, length hs)]) k ar cs el) 1
      (SLParen (eff - (len l - 1)) kk' flag false :: s)
      (St (emits o (mjoin (List.map postfix l))) (SLParen (eff - (len l - 1)) kk' flag false :: s) false (d + len l)
        hs (sp ++ [(kk', d + len l - 1, length hs)]) k' ar cs el').
Proof.
  induction 1 as [|a l [Hwa Ha] Hl IH]; [done|]. intros _ Hflag eff o d kk k el Hok Hk Hd Hn.
  cbn [List.map foldr] in Hn.
  destruct (Ha o (SLParen eff kk flag false :: s) d hs (sp ++ [(kk, d, length hs)]) k ar cs el)
    as (k1 & el1 & Hk1 & He1 & Hin);
    [eapply calm_ok_later; [by apply open_calm_ok|lia|lia]|split; [done|left; done]|lia|lia|].
  destruct l as [|b l].
  { exists kk, k1, el1. split_and!; [lia|lia|lia|]. cbn [List.map sep_args length].
    replace (eff - (Z.of_nat 1 - 1)) with eff by lia. replace (d + Z.of_nat 1 - 1) with d by lia.
    replace (d + Z.of_nat 1) with (d + 1) by lia. rewrite mjoin_cons, app_nil_r. exact Hin. }
  assert (flag = true) as -> by (destruct flag; [done|specialize (Hflag eq_refl); simpl in Hflag; lia]).
  assert (Hok1 : calm_ok hs sp k1 ar el1) by (eapply calm_ok_later; [exact Hok|lia..]).
  destruct (IH ltac:(done) ltac:(done) (eff - 1) (emits o (postfix a)) (d + 1) k1 (S k1) el1 Hok1)
    as (kk' & k' & el' & Hkk & Hkk' & Hel & Hin'); [lia|lia|lia|].
  exists kk', k', el'. split_and!; [lia|lia|lia|].
  change (sep_args (List.map (show 1) (a :: b :: l)))
    with (show 1 a ++ operator_elem Token.Comma :: sep_args (List.map (show 1) (b :: l))).
  rewrite fmap_app, fmap_cons, (snd_named (operators BASE_TABLE)).
  change (Token.Comma :: (sep_args (List.map (show 1) (b :: l))).*2)
    with ([Token.Comma] ++ (sep_args (List.map (show 1) (b :: l))).*2). rewrite app_assoc.
  eapply ends_in_steps.
  - eapply (steps_operator _ _ _ _ _ _ _ (fun e => negb (is_barrier e)) separator_rest Hin); [done| |done| |].
    + intros x Hx _. by rewrite Hx.
    + unfold separator_rest. cbn [stack runtime_depth missing]. rewrite (close_calm _ _ _ _ _ Hok) by lia.
      rewrite open_calm. reflexivity.
    + cbn. pose proof (need_pos a Hwa). lia.
  - cbn [with_needed with_stack with_missing output stack operand_needed runtime_depth missing conds elses until_read].
    cbn [List.map]. rewrite mjoin_cons, emits_app.
    replace (eff - (len (a :: b :: l) - 1)) with (eff - 1 - (len (b :: l) - 1)) by (cbn [length]; lia).
    replace (d + len (a :: b :: l)) with (d + 1 + len (b :: l)) by (cbn [length]; lia). exact Hin'.
Qed.

(** The entry of a function: as it is pushed, and after its parenthesis. *)
Definition func_entry (f : FuncName.t) (eff : Z) : StackEntry :=
  if is_vararg f then SVarargFunc f 9 eff else SOp (Token.Func f) 9.

Lemma needs_ge l : len l <= needs l.
Proof. induction l as [|a l IH]; [done|]. cbn [List.map foldr length]. lia. Qed.

Lemma call_entry {A} f (args : list A) : call_ok f args = true -> len args < 256 ->
  entry_opcode (func_entry f (0 - (len args - 1))) Numeric = Some (Opcode.Core (call_opcode f (len args))) /\
  stack_effect (func_entry f (0 - (len args - 1))) = 1 - len args /\ 1 <= len args.
Proof.
  unfold call_ok. intros [Hf Ha]%andb_prop Hl.
  assert (Hn : wrap 8 (1 - (0 - (len args - 1))) = len args)
    by (replace (1 - (0 - (len args - 1))) with (len args) by lia; apply wrap_small; unfold is_uint; lia).
  destruct f; vm_compute in Hf; try discriminate Hf; clear Hf; cbn [is_vararg func_arity] in Ha;
    unfold func_entry; cbn [is_vararg entry_opcode stack_effect func_arity]; rewrite ?Hn;
    (split; [reflexivity|]); zbool; try lia; apply Nat.eqb_neq in Ha; lia.
Qed.

Lemma compiles_call p f args :
  1 <= p <= 9 -> wf (Call f args) = true -> Forall (fun a => wf a = true /\ compiles 1 a) args ->
  compiles p (Call f args).
Proof.
  intros Hp Hw Hargs o s d hs sp k ar cs el Hok Htop Hd Hn.
  pose proof (need_pos _ Hw) as Hnp. cbn [wf need postfix] in *. apply andb_prop in Hw as [Hc Hw].
  pose proof (needs_ge args) as Hge. destruct (call_entry f args Hc) as (He & Hf & H1); [lia|].
  destruct (token_open o (func_entry f 0 :: s) d hs sp k ar cs el) as (flag & Hflag & Hopen); [lia|].
  destruct (compiles_args (func_entry f 0 :: s) hs sp ar cs flag args Hargs) with (eff := 0) (o := o) (d := d) (kk := k)
    (k := S k) (el := el) as (kk' & k' & el' & Hkk & Hkk' & Hel & Hin); [by intros ->| |done|lia|done|done|].
  { intros ->. unfold func_entry in Hflag. unfold call_ok in Hc. destruct (is_vararg f); [done|].
    apply andb_prop in Hc as [_ Hc]. zbool. symmetry in Hflag. apply Z.ltb_ge in Hflag. lia. }
  exists k', el'. split_and!; [lia|lia|]. cbn [show level]. destruct (Z.ltb_spec 10 p); [lia|].
  rewrite fmap_cons, toks_parens, (snd_named (operands BASE_TABLE)).
  eapply ends_in_cons; [apply token_operand; [done|done| |]|].
  - cbn [operand_step]. rewrite (pop_nothing _ _ _ _ _ _ _ _ _ _ p) by (done || lia). reflexivity.
  - cbn. lia.
  - change (if is_vararg f then SVarargFunc f 9 0 else SOp (Token.Func f) 9) with (func_entry f 0).
    unfold push_entry. cbn [stack]. rewrite with_stack_St. eapply ends_in_cons; [exact Hopen|].
    rewrite <- (app_nil_r (_ ++ [Token.RParen])).
    eapply ends_in_steps; [eapply steps_close; [exact Hin|exact Hok|lia..]|].
    assert (Hcl : closed (0 - (len args - 1)) (func_entry f 0 :: s) = func_entry f (0 - (len args - 1)) :: s)
      by (unfold func_entry; by destruct (is_vararg f)).
    rewrite Hcl. eapply (ends_in_push _ _ _ 9); [by apply ends_in_now|lia|..].
    + unfold func_entry. by destruct (is_vararg f).
    + intros _. unfold func_entry. destruct (is_vararg f); simpl; lia.
    + rewrite with_stack_St, (flush_op _ (call_opcode f (len args)) (len args)), emits_app;
        [|eapply calm_ok_later; [exact Hok|lia..]|done..| |lia].
      * f_equal. lia.
      * unfold func_entry. by destruct (is_vararg f).
Qed.

(** ** Conditionals *)

Definition question_rest (c : Compiler) : result CalcError.t Compiler :=
  let c := emit_op c (Opcode.Core CoreOp.CondIf) in
  let h := holes_take (runtime_depth c) 1 (missing c) in
  let depth := runtime_depth c - 1 in
  let '(fork, h) := holes_fork depth h in
  let c := with_needed (with_depth (with_missing c h) depth) true in
  Ok (mkCompiler (output c) (stack c) (operand_needed c) (runtime_depth c) (missing c)
        ((fork, elses c) :: conds c) (elses c) (until_read c)).

Definition colon_rest (c : Compiler) : result CalcError.t Compiler :=
  let c := emit_op c (Opcode.Core CoreOp.CondElse) in
  match conds c with
  | [] => Err CalcError.Conditional
  | (fork, first) :: conds =>
      let h := holes_branch fork (runtime_depth c) (elses c) first (missing c) in
      Ok (mkCompiler (output c) (SCondEnd :: stack c) true (runtime_depth c - 1) h conds
            (S (elses c)) (until_read c))
  end.

Definition strict0 (e : StackEntry) : bool := negb (is_barrier e || (in_stack_pri e <=? 0)).

Lemma strict0_pend x : is_barrier x = false -> (2 <= 2 -> Z.min 2 9 <= in_stack_pri x) -> strict0 x = true.
Proof. intros Hx Hp. unfold strict0. rewrite Hx. apply negb_true_iff, Z.leb_gt. lia. Qed.

Lemma strict0_top s : top_ok 1 s -> match s with [] => True | x :: _ => strict0 x = false end.
Proof.
  destruct s as [|x s]; [done|]. simpl. intros Htop. unfold strict0. apply negb_false_iff, orb_true_iff. right.
  apply Z.leb_le. lia.
Qed.

Lemma inc_open ar el el' : (el <= el')%nat ->
  Forall (fun a => 1 <= arm_count a /\ (arm_n a < el)%nat) ar ->
  Forall (fun a => 1 <= arm_count a /\ (arm_n a < el')%nat) (inc ar).
Proof. intros He Ha. apply Forall_fmap. eapply Forall_impl; [exact Ha|]. simpl. lia. Qed.

Lemma compiles_cond a b c :
  wf (Cond a b c) = true -> compiles 2 a -> compiles 2 b -> compiles 1 c -> compiles 1 (Cond a b c).
Proof.
  intros Hw Ha Hb Hc o s d hs sp k ar cs el Hok Htop Hd Hn. cbn [wf need postfix] in *.
  apply andb_prop in Hw as [[Hwa Hwb]%andb_prop Hwc]. pose proof (need_pos a Hwa).
  destruct (Ha o s d hs sp k ar cs el) as (k1 & el1 & Hk1 & He1 & Hina);
    [done|by eapply (top_ok_mono 1)|done|lia|].
  assert (Hok1 : calm_ok hs sp k1 ar el1) by (by eapply calm_ok_later).
  set (sp' := sp ++ [(k1, d, length hs)]). set (fork := mkFork k1 d [mkPath 0 hs sp']).
  assert (Hok2 : forall K AR EL, (k1 < K)%nat -> Forall (fun a => 1 <= arm_count a /\ (arm_n a < EL)%nat) AR ->
    calm_ok hs sp' K AR EL).
  { intros K AR EL HK HA. eapply calm_ok_mono; [by apply open_calm_ok|lia|done]. }
  set (o1 := emit (emits o (postfix a)) (Opcode.Core CoreOp.CondIf)).
  destruct (Hb o1 s d hs sp' (S k1) (inc ar) ((fork, el1) :: cs) el1)
    as (k2 & el2 & Hk2 & He2 & Hinb);
    [apply Hok2; [lia|eapply (inc_open _ el1); [done|apply Hok1]]|by eapply (top_ok_mono 1)|done|lia|].
  set (arm := left_arm hs sp k1 d el2 1).
  set (o2 := emit (emits o1 (postfix b)) (Opcode.Core CoreOp.CondElse)).
  destruct (Hc o2 (SCondEnd :: s) d hs sp' k2 (inc ar ++ [arm])
    cs (S el2)) as (k3 & el3 & Hk3 & He3 & Hinc); [|split; [done|left; done]|done|lia|].
  { apply Hok2; [lia|]. apply Forall_app. split; [eapply (inc_open _ el1); [lia|apply Hok1]|].
    apply List.Forall_cons; [simpl; lia|apply List.Forall_nil]. }
  exists k3, el3. split_and!; [lia|lia|]. cbn [show level]. rewrite Z.ltb_irrefl.
  rewrite fmap_app, fmap_cons, fmap_app, fmap_cons, !(snd_named (operators BASE_TABLE)).
  replace ((show 2 a).*2 ++ Token.Question :: (show 2 b).*2 ++ Token.Colon :: (show 1 c).*2)
    with (((show 2 a).*2 ++ [Token.Question]) ++ ((show 2 b).*2 ++ [Token.Colon]) ++ (show 1 c).*2)
    by (rewrite <- !app_assoc; reflexivity).
  eapply ends_in_steps.
  { eapply (steps_operator _ _ _ _ _ _ _ strict0 question_rest Hina); [done|apply strict0_pend|by apply strict0_top| |].
    - unfold question_rest, emit_op, with_output. cbn [runtime_depth missing output stack operand_needed conds elses until_read].
      rewrite (take_calm _ _ _ _ _ Hok1) by lia. replace (d + 1 - 1) with d by lia. rewrite fork_calm. reflexivity.
    - cbn. lia. }
  cbn [with_needed with_depth with_missing output stack operand_needed runtime_depth missing conds elses until_read].
  eapply ends_in_steps.
  { eapply (steps_operator _ _ _ _ _ _ _ strict0 colon_rest Hinb); [done|apply strict0_pend|by apply strict0_top| |].
    - unfold colon_rest, emit_op, with_output. cbn [runtime_depth missing output stack operand_needed conds elses until_read].
      unfold fork. rewrite (branch_calm _ _ _ _ _ Hok1) by lia. replace (d + 1 - 1) with d by lia. reflexivity.
    - cbn. lia. }
  rewrite emits_app, emits_cons, emits_app, emits_cons, emits_app. fold o1 o2 sp' arm.
  eapply ends_in_push; [exact Hinc|lia|done|lia|]. rewrite with_stack_St. apply flush_cond_end; [|lia|done]. eapply calm_ok_later; [exact Hok1|lia|lia].
Qed.

(** ** Expressions *)

Lemma level_range e : wf e = true -> 1 <= level e <= 10.
Proof.
  destruct e; cbn [wf level]; try lia. intros [[Ht _]%andb_prop _]%andb_prop.
  destruct (binary_entry token Ht) as (q & -> & Hq & _). lia.
Qed.

Lemma show_parens p e : wf e = true -> level e < p -> show p e = parens (show 1 e).
Proof.
  intros Hw Hl. pose proof (level_range e Hw).
  assert (H1 : (level e <? 1) = false) by (apply Z.ltb_ge; lia).
  assert (H2 : (level e <? p) = true) by (by apply Z.ltb_lt).
  destruct e; cbn [show]; by rewrite H1, H2.
Qed.

Lemma word_step tok : tok ∈ words -> forall c, operand_step Numeric tok false c = Ok (operand (Opcode.Core (word_op tok)) c).
Proof.
  unfold words. rewrite !elem_of_cons. intros [-> |[-> |[-> |[-> |[-> |Hf]]]]]; [done..|by apply not_elem_of_nil in Hf].
Qed.

Lemma compiles_at_level e : wf e = true -> (forall p, 1 <= p <= 9 -> p <= level e -> compiles p e) ->
  forall p, 1 <= p <= 9 -> compiles p e.
Proof.
  intros Hw Hc p Hp. pose proof (level_range e Hw). destruct (Z.le_gt_cases p (level e)); [by apply Hc|].
  apply compiles_parens; [done|done|apply Hc; lia|]. apply show_parens; [done|lia].
Qed.

Lemma compiles_expr e : wf e = true -> forall p, 1 <= p <= 9 -> compiles p e.
Proof.
  induction e as [whole frac|i|tok|tok a IHa|f l IHl|tok a b IHa IHb|a b c IHa IHb IHc] using expr_rect';
    intros Hw; apply (compiles_at_level _ Hw); intros p Hp Hl.
  1-3: intros o s d hs sp k ar cs el Hok Htop Hd Hn; cbn [need] in Hn; exists k, el; split_and!; [done|done|];
    cbn [show level postfix]; destruct (Z.ltb_spec 10 p); [lia|]; cbn [fmap list_fmap snd];
    rewrite ?(snd_named (operands BASE_TABLE)); apply compiles_operand; [|lia|lia].
  - done.
  - done.
  - apply word_step. cbn [wf] in Hw. by apply bool_decide_eq_true in Hw.
  - apply compiles_unary; [done|done|]. apply IHa; [|lia]. cbn [wf] in Hw. by apply andb_prop in Hw as [_ Hw].
  - apply compiles_call; [done|done|]. cbn [wf] in Hw. apply andb_prop in Hw as [_ Hw]. clear Hl.
    induction IHl as [|a l Ha _ IH]; [apply List.Forall_nil|]. cbn [forallb] in Hw. apply andb_prop in Hw as [Hwa Hwl].
    apply List.Forall_cons; [split; [done|apply Ha; [done|lia]]|by apply IH].
  - pose proof Hw as Hw'. cbn [wf] in Hw'. apply andb_prop in Hw' as [[_ Hwa]%andb_prop Hwb].
    apply compiles_binary; [lia|done|done|by apply IHa|by apply IHb].
  - pose proof Hw as Hw'. cbn [wf] in Hw'. apply andb_prop in Hw' as [[Hwa Hwb]%andb_prop Hwc].
    cbn [level] in Hl. assert (p = 1) as -> by lia.
    apply compiles_cond; [done|apply IHa; [done|lia]|apply IHb; [done|lia]|apply IHc; [done|lia]].
Qed.
End Steps.
