(* ===== verification/CalcLexTheory.v ===== *)
(** * Calculation engine: the lexer on the text of an expression

    An element followed by a space is read as the element, in the mode the compiler is in when
    it takes it: a name as the longest element with that name, a letter as an argument, digits
    as the number they spell. *)
From Stdlib Require Import SpecFloat.
From stdpp Require Import base tactics numbers list option strings.
From S2P Require Import Prelude Float64 Float64Theory Strtod CalcOps CalcLex CalcCode CalcPostfix.
From S2P Require Import CalcEval CalcTheory CalcCodeTheory CalcExpr CalcRunTheory CalcCompileTheory.

Open Scope Z_scope.

(** ** Names and spaces *)

Definition no_space (l : list Z) : bool := forallb (fun b => negb (b =? 32)) l.

Lemma lower_space b : to_ascii_lowercase b = 32 -> b = 32.
Proof. unfold to_ascii_lowercase, is_ascii_uppercase. destruct (_ && _) eqn:E; [|done]. zbool. lia. Qed.

Lemma starts_space txt rest name : no_space name = true ->
  starts_with_ci (txt ++ 32 :: rest) name = starts_with_ci txt name.
Proof.
  intros Hn. unfold starts_with_ci, starts_ci.
  destruct (Nat.leb_spec (length name) (length txt)) as [Hle|Hgt].
  - rewrite take_app_le by done. replace (length name <=? length (txt ++ 32%Z :: rest))%nat with true; [done|].
    symmetry. apply Nat.leb_le. rewrite length_app. lia.
  - cbn [andb]. apply andb_false_iff. destruct (Nat.leb_spec (length name) (length (txt ++ 32 :: rest))) as [Hl|]; [right|by left].
    unfold eq_ignore_ascii_case. apply bool_decide_eq_false. intros He.
    assert (Hx : (to_ascii_lowercase <$> name) !! length txt = Some 32).
    { rewrite <- He, list_lookup_fmap, lookup_take_lt, list_lookup_middle by (done || lia). reflexivity. }
    rewrite list_lookup_fmap in Hx. destruct (name !! length txt) as [b|] eqn:Eb; [|done]. injection Hx as Hx.
    apply lower_space in Hx as ->. apply list_elem_of_lookup_2, list_elem_of_In in Eb.
    unfold no_space in Hn. rewrite forallb_forall in Hn. specialize (Hn _ Eb). done.
Qed.

Lemma best_symbol_space txt rest symbols :
  forallb (fun e => no_space (fst e)) symbols = true ->
  best_symbol (txt ++ 32 :: rest) symbols = best_symbol txt symbols.
Proof.
  intros Hs. unfold best_symbol. generalize (@None (nat * Token.t)). revert Hs.
  induction symbols as [|[name tok] symbols IH]; intros Hs b; [done|]. cbn [forallb fst] in Hs.
  apply andb_prop in Hs as [Hn Hs]. cbn [foldl]. rewrite starts_space by done. by apply IH.
Qed.

Lemma tables_no_space :
  forallb (fun e => no_space (fst e)) (operands BASE_TABLE) = true /\
  forallb (fun e => no_space (fst e)) (operators BASE_TABLE) = true /\
  forallb no_space (literal_words BASE_TABLE) = true.
Proof. split_and!; vm_compute; reflexivity. Qed.

Lemma at_literal_space b txt rest : at_literal BASE_TABLE ((b :: txt) ++ 32 :: rest) = at_literal BASE_TABLE (b :: txt).
Proof.
  cbn [at_literal app]. f_equal. destruct tables_no_space as (_ & _ & Hw). revert Hw.
  generalize (literal_words BASE_TABLE) as ws. induction ws as [|w ws IH]; [done|]. cbn [forallb existsb].
  intros [Hw Hws]%andb_prop. rewrite (IH Hws). f_equal. by apply (starts_space (b :: txt)).
Qed.

Lemma lex_skip m r : Lexer_next Numeric m (32 :: r) = Lexer_next Numeric m r.
Proof.
  unfold Lexer_next, skip_whitespace. cbn [span]. change (c_isspace 32) with true. cbn [snd].
  by destruct (span c_isspace r).
Qed.

(** ** Elements *)

Definition lexes (m : bool) (e : elem) : Prop :=
  forall rest, Lexer_next Numeric m (fst e ++ 32 :: rest) = Ok (Some (snd e, 32 :: rest)).

(** The elements the compiler takes in each mode. *)
Definition lex_mode (tok : Token.t) (m : bool) : bool :=
  match tok with
  | Token.Number _ | Token.Var _ | Token.DoubleVar _ | Token.Rndm | Token.Nrndm | Token.FetchVal
  | Token.FetchSval | Token.StringLiteral _ | Token.FetchAval | Token.ConstIx | Token.ARndm
  | Token.Tilde | Token.Bang | Token.LParen | Token.Func _ | Token.Const _ | Token.UntilKeyword => m
  | Token.Minus => true
  | _ => negb m
  end.

Lemma step_mode `{Host} tok c c' : token_step Numeric tok c = Ok c' -> lex_mode tok (operand_needed c) = true.
Proof.
  unfold token_step. destruct c as [o s b d h cs el u]. unfold with_until.
  cbn [operand_needed output stack runtime_depth missing conds elses until_read].
  destruct b, tok; try done.
Qed.

Definition elem_ok (e : elem) : Prop := forall m, lex_mode (snd e) m = true -> lexes m e.

(** The check on an element with a name, by evaluation. *)
Definition reads_name (m : bool) (e : elem) : bool :=
  match fst e with
  | [] => false
  | b :: _ =>
      negb (c_isspace b) && (negb m || negb (at_literal BASE_TABLE (fst e))) &&
      bool_decide (best_symbol (fst e) (if m then operands BASE_TABLE else operators BASE_TABLE)
                   = Some (length (fst e), snd e))
  end.

Lemma reads_name_lexes m e : reads_name m e = true -> lexes m e.
Proof.
  destruct e as [[|b txt] tok]; [done|]. unfold reads_name. cbn [fst snd].
  intros [[Hb Hl]%andb_prop Hs]%andb_prop rest. apply bool_decide_eq_true in Hs. apply negb_true_iff in Hb.
  destruct tables_no_space as (Ho & Hr & _). cbn [fst snd].
  assert (Hskip : skip_whitespace ((b :: txt) ++ 32 :: rest) = (b :: txt) ++ 32 :: rest).
  { unfold skip_whitespace. cbn [app span]. by rewrite Hb. }
  assert (Hm : match_symbol ((b :: txt) ++ 32 :: rest) (if m then operands BASE_TABLE else operators BASE_TABLE)
    = Some (tok, 32 :: rest)).
  { unfold match_symbol. rewrite best_symbol_space by (by destruct m). rewrite Hs. cbn [mbind option_bind].
    by rewrite drop_app_length. }
  unfold Lexer_next. rewrite Hskip. change (table_for Numeric) with BASE_TABLE. cbn [app].
  change (b :: txt ++ 32 :: rest) with ((b :: txt) ++ 32 :: rest). destruct m; cbn [negb].
  - cbn [negb orb] in Hl. apply negb_true_iff in Hl. rewrite at_literal_space, Hl, andb_false_r, Hm. done.
  - rewrite Hm. done.
Qed.

Lemma table_elems e : In e (operands BASE_TABLE ++ operators BASE_TABLE) -> elem_ok e.
Proof.
  intros Hin m Hm.
  assert (Hc : forallb (fun e => (negb (lex_mode (snd e) true) || reads_name true e) &&
    (negb (lex_mode (snd e) false) || reads_name false e)) (operands BASE_TABLE ++ operators BASE_TABLE) = true)
    by (vm_compute; reflexivity).
  rewrite forallb_forall in Hc. specialize (Hc e Hin). apply andb_prop in Hc as [Ht Hf]. apply reads_name_lexes.
  destruct m; rewrite Hm in *; done.
Qed.

Lemma named_in l tok : tok ∈ snd <$> l -> In (named l tok) l.
Proof.
  intros Hin. unfold named. destruct (List.find _ l) as [x|] eqn:E; [by apply find_some in E as [E _]|].
  exfalso. apply list_elem_of_fmap in Hin as (x & -> & Hx). apply list_elem_of_In in Hx.
  pose proof (find_none _ _ E x Hx) as Hn. cbn in Hn. by rewrite bool_decide_eq_true_2 in Hn.
Qed.

Lemma operand_elem_ok tok : tok ∈ snd <$> operands BASE_TABLE -> elem_ok (operand_elem tok).
Proof. intros Hin. apply table_elems, in_or_app. left. by apply named_in. Qed.

Lemma operator_elem_ok tok : tok ∈ snd <$> operators BASE_TABLE -> elem_ok (operator_elem tok).
Proof. intros Hin. apply table_elems, in_or_app. right. by apply named_in. Qed.

(** ** Arguments *)

Lemma var_elem_ok i : 0 <= i <= 20 -> elem_ok ([65 + i], Token.Var i).
Proof.
  intros Hi m Hm rest. cbn [lex_mode snd] in Hm. subst m. cbn [fst snd].
  assert (Hc : best_symbol [65 + i] (operands BASE_TABLE) = None /\ at_literal BASE_TABLE [65 + i] = false).
  { pattern i. apply small_cases; [done|].
    repeat (apply List.Forall_cons; [split; vm_compute; reflexivity|]). apply List.Forall_nil. }
  destruct Hc as [Hb Hl]. destruct tables_no_space as (Ho & _ & _).
  unfold Lexer_next, skip_whitespace. cbn [app span].
  replace (c_isspace (65 + i)) with false by (unfold c_isspace; symmetry; rewrite !orb_false_iff, !Z.eqb_neq; lia).
  cbn [snd negb]. change (table_for Numeric) with BASE_TABLE.
  change (65 + i :: 32 :: rest) with ([65 + i] ++ 32 :: rest). rewrite at_literal_space, Hl, andb_false_r.
  unfold match_symbol. rewrite best_symbol_space, Hb by done. cbn [mbind option_bind app].
  unfold match_var. cbn [last_double_var BASE_TABLE]. unfold match_single, to_ascii_uppercase, is_ascii_lowercase, is_ascii_uppercase.
  replace ((97 <=? 65 + i) && (65 + i <=? 122)) with false by (symmetry; apply andb_false_iff; left; apply Z.leb_gt; lia).
  replace ((65 <=? 65 + i) && (65 + i <=? 90) && (65 + i - 65 <=? last_var BASE_TABLE)) with true
    by (symmetry; change (last_var BASE_TABLE) with 20; rewrite !andb_true_iff, !Z.leb_le; lia).
  cbn. do 4 f_equal. lia.
Qed.

(** ** Literals *)

Lemma span_digits l r : digits_ok l = true -> match r with [] => True | b :: _ => is_ascii_digit b = false end ->
  span is_ascii_digit (l ++ r) = (l, r).
Proof.
  intros Hl Hr. induction l as [|b l IH].
  - destruct r as [|b r]; [done|]. cbn [app span]. by rewrite Hr.
  - cbn [digits_ok forallb] in Hl. apply andb_prop in Hl as [Hb Hl]. cbn [app span]. by rewrite Hb, (IH Hl).
Qed.

Lemma digit_range b : is_ascii_digit b = true -> 48 <= b <= 57.
Proof. unfold is_ascii_digit. intros. zbool. lia. Qed.

Lemma decimal_text whole frac rest :
  digits_ok whole = true -> digits_ok frac = true -> whole <> [] ->
  decimal (lit_text whole frac ++ 32 :: rest) =
    Some (lit_value whole frac, length (lit_text whole frac),
          ranged_out (lit_value whole frac) (existsb (fun d => negb (d =? 48)) (whole ++ frac))).
Proof.
  intros Hw Hf Hne. unfold decimal, lit_text, lit_value. rewrite <- app_assoc.
  destruct frac as [|f frac].
  - cbn [app]. rewrite span_digits by done. change (32 =? 46) with false. cbv iota beta.
    rewrite !app_nil_r. destruct whole as [|w whole]; [done|].
    change (Z.lor 32 0x20 =? 101) with false. cbv iota beta. reflexivity.
  - cbn [app]. rewrite span_digits by done. change (46 =? 46) with true. cbv iota beta.
    change (f :: frac ++ 32 :: rest) with ((f :: frac) ++ 32 :: rest).
    rewrite (span_digits (f :: frac) (32 :: rest)) by done.
    destruct whole as [|w whole]; [done|]. cbn [app].
    change (Z.lor 32 0x20 =? 101) with false. cbv iota beta. rewrite Z.sub_0_l. repeat f_equal.
    cbn [length]. rewrite length_app. cbn [length]. lia.
Qed.

(** The second character of a literal is not an [x]. *)
Lemma lit_second whole frac rest w x tl :
  digits_ok whole = true -> digits_ok frac = true ->
  lit_text (w :: whole) frac ++ 32 :: rest = w :: x :: tl -> Z.lor x 0x20 <> 120 /\ x <> 120 /\ x <> 88.
Proof.
  intros Hw Hf He. unfold lit_text in He. cbn [app] in He. injection He as He.
  assert (Hx : 48 <= x <= 57 \/ x = 46 \/ x = 32).
  { destruct whole as [|y whole]; cbn [app] in He.
    - destruct frac; cbn [app] in He; injection He as <- _; lia.
    - injection He as <- _. cbn [digits_ok forallb] in Hw. apply andb_prop in Hw as [Hy _]. apply digit_range in Hy. lia. }
  split; [|lia]. destruct Hx as [Hx|[-> | ->]]; [|done..].
  assert (Hc : forall y, Forall (fun y => Z.lor y 0x20 <> 120) [48;49;50;51;52;53;54;55;56;57] -> y ∈ [48;49;50;51;52;53;54;55;56;57] -> Z.lor y 0x20 <> 120).
  { intros y Hy. rewrite list.Forall_forall in Hy. apply Hy. }
  apply Hc; [|rewrite !elem_of_cons; lia]. repeat (apply List.Forall_cons; [done|]). apply List.Forall_nil.
Qed.

Lemma starts_digit b l w ws : is_ascii_digit b = true -> to_ascii_lowercase w <> b -> starts_ci (b :: l) (w :: ws) = false.
Proof.
  intros Hb Hw. unfold starts_ci. apply andb_false_iff. right. cbn [length take]. unfold eq_ignore_ascii_case.
  apply bool_decide_eq_false. cbn [fmap list_fmap]. intros [= He _]. apply Hw. rewrite <- He.
  apply digit_range in Hb. unfold to_ascii_lowercase, is_ascii_uppercase.
  destruct ((65 <=? b) && (b <=? 90)) eqn:E; [|done]. zbool. lia.
Qed.

Lemma strtod_text whole frac rest :
  digits_ok whole = true -> digits_ok frac = true -> whole <> [] ->
  strtod (lit_text whole frac ++ 32 :: rest) =
    mkStrtod (lit_value whole frac) (length (lit_text whole frac))
      (ranged_out (lit_value whole frac) (existsb (fun d => negb (d =? 48)) (whole ++ frac))).
Proof.
  intros Hw Hf Hne. pose proof (decimal_text whole frac rest Hw Hf Hne) as Hd.
  destruct whole as [|w whole]; [done|]. pose proof Hw as Hw'. cbn [digits_ok forallb] in Hw'.
  apply andb_prop in Hw' as [Hwd Hws]. pose proof (digit_range w Hwd) as Hr.
  pose proof (lit_second whole frac rest w) as Hx.
  assert (Hshape : exists tl, lit_text (w :: whole) frac ++ 32 :: rest = w :: tl) by (eexists; reflexivity).
  destruct Hshape as [tl Htl]. rewrite Htl in *.
  assert (Hm : magnitude (w :: tl) = decimal (w :: tl)).
  { unfold magnitude. change (ascii_bytes "inf") with [105; 110; 102]. change (ascii_bytes "nan") with [110; 97; 110].
    rewrite !(starts_digit w tl) by (done || (unfold to_ascii_lowercase; simpl; lia)).
    destruct tl as [|x [|c tl]]; [done|done|]. destruct (Hx x (c :: tl) Hws Hf eq_refl) as [Hlor _].
    apply Z.eqb_neq in Hlor. rewrite Hlor, andb_false_r. done. }
  unfold strtod. cbn [span]. replace (c_isspace w) with false
    by (unfold c_isspace; symmetry; rewrite !orb_false_iff, !Z.eqb_neq; lia).
  destruct (Z.eqb_spec w 45); [lia|]. destruct (Z.eqb_spec w 43); [lia|]. by rewrite Hm, Hd.
Qed.

Lemma lit_elem_ok whole frac : wf (Lit whole frac) = true ->
  elem_ok (lit_text whole frac, Token.Number (lit_value whole frac)).
Proof.
  cbn [wf]. intros [[[Hw Hf]%andb_prop Hne]%andb_prop Hr]%andb_prop m Hm rest. cbn [lex_mode snd] in Hm. subst m. cbn [fst snd].
  assert (Hn : whole <> []) by (by destruct whole). pose proof (strtod_text whole frac rest Hw Hf Hn) as Hs.
  apply negb_true_iff in Hr. rewrite Hr in Hs.
  destruct whole as [|w whole]; [done|]. pose proof Hw as Hw'. cbn [digits_ok forallb] in Hw'.
  apply andb_prop in Hw' as [Hwd Hws]. pose proof (digit_range w Hwd) as Hrange.
  pose proof (lit_second whole frac rest w) as Hx.
  assert (Hdrop : drop (length (lit_text (w :: whole) frac)) (lit_text (w :: whole) frac ++ 32 :: rest) = 32 :: rest)
    by apply drop_app_length.
  assert (Hshape : exists tl, lit_text (w :: whole) frac ++ 32 :: rest = w :: tl) by (eexists; reflexivity).
  destruct Hshape as [tl Htl]. rewrite Htl in *.
  unfold Lexer_next, skip_whitespace. cbn [span]. replace (c_isspace w) with false
    by (unfold c_isspace; symmetry; rewrite !orb_false_iff, !Z.eqb_neq; lia).
  cbn [snd negb]. change (table_for Numeric) with BASE_TABLE. cbn [at_literal]. rewrite Hwd. cbn [orb].
  assert (Hl : read_literal BASE_TABLE (w :: tl) = Ok (lit_value (w :: whole) frac, 32 :: rest)); [|by rewrite Hl].
  unfold read_literal.
  replace (match tl with x :: h :: _ => (w =? 48) && ((x =? 120) || (x =? 88)) && is_ascii_hexdigit h | _ => false end) with false.
  2: { destruct tl as [|x [|h tl]]; [done|done|]. destruct (Hx x (h :: tl) Hws Hf eq_refl) as (_ & H1 & H2).
       apply Z.eqb_neq in H1 as ->, H2 as ->. by rewrite andb_false_r. }
  cbn [andb]. rewrite Hs. cbn [std_len std_erange std_value]. rewrite Hdrop.
  destruct (Nat.eqb_spec (length (lit_text (w :: whole) frac)) 0) as [E|]; [unfold lit_text in E; done|]. done.
Qed.

(** ** The text of an expression *)

Lemma operators_ok tok : tok ∈ [Token.Comma; Token.RParen; Token.Question; Token.Colon; Token.Assign; Token.Semicolon] ->
  elem_ok (operator_elem tok).
Proof.
  rewrite !elem_of_cons. intros Ht. apply operator_elem_ok.
  destruct Ht as [-> |[-> |[-> |[-> |[-> |[-> |Hf]]]]]]; [..|by apply not_elem_of_nil in Hf];
    apply (bool_decide_eq_true_1 _); vm_compute; reflexivity.
Qed.

Ltac plain_operator := apply operators_ok; rewrite !elem_of_cons; tauto.

Lemma parens_ok l : Forall elem_ok l -> Forall elem_ok (parens l).
Proof.
  intros Hl. unfold parens. apply List.Forall_cons.
  - apply operand_elem_ok, (bool_decide_eq_true_1 _). vm_compute. reflexivity.
  - apply Forall_app. split; [done|]. apply List.Forall_cons; [plain_operator|apply List.Forall_nil].
Qed.

Lemma sep_args_ok l : Forall (Forall elem_ok) l -> Forall elem_ok (sep_args l).
Proof.
  induction 1 as [|a l Ha Hl IH]; [apply List.Forall_nil|]. destruct l as [|b l]; [done|].
  change (sep_args (a :: b :: l)) with (a ++ operator_elem Token.Comma :: sep_args (b :: l)).
  apply Forall_app. split; [done|]. apply List.Forall_cons; [plain_operator|done].
Qed.

Lemma show_ok e : wf e = true -> forall p, Forall elem_ok (show p e).
Proof.
  assert (Hp : forall e p (body : list elem), Forall elem_ok body ->
    Forall elem_ok (if level e <? p then parens body else body)).
  { intros e0 p body Hb. destruct (level e0 <? p); [by apply parens_ok|done]. }
  assert (H1 : forall x, elem_ok x -> Forall elem_ok [x]) by (intros; apply List.Forall_cons; [done|apply List.Forall_nil]).
  induction e as [whole frac|i|tok|tok a IHa|f l IHl|tok a b IHa IHb|a b c IHa IHb IHc] using expr_rect';
    intros Hw p; cbn [show]; apply Hp.
  - apply H1. by apply lit_elem_ok.
  - apply H1, var_elem_ok. cbn [wf] in Hw. zbool. lia.
  - apply H1, operand_elem_ok. cbn [wf] in Hw. apply bool_decide_eq_true in Hw. unfold words in Hw.
    rewrite !elem_of_cons in Hw.
    destruct Hw as [-> |[-> |[-> |[-> |[-> |Hf]]]]]; [..|by apply not_elem_of_nil in Hf];
      apply (bool_decide_eq_true_1 _); vm_compute; reflexivity.
  - cbn [wf] in Hw. apply andb_prop in Hw as [Ht Hw]. apply bool_decide_eq_true in Ht. apply List.Forall_cons; [|by apply IHa].
    apply operand_elem_ok. rewrite !elem_of_cons in Ht.
    destruct Ht as [-> |[-> |[-> |Hf]]]; [..|by apply not_elem_of_nil in Hf]; apply (bool_decide_eq_true_1 _); vm_compute; reflexivity.
  - cbn [wf] in Hw. apply andb_prop in Hw as [Hc Hw]. apply List.Forall_cons.
    + apply operand_elem_ok. unfold call_ok in Hc. apply andb_prop in Hc as [Hc _]. by apply bool_decide_eq_true in Hc.
    + apply parens_ok, sep_args_ok. clear Hc.
      induction IHl as [|a l Ha _ IH]; [apply List.Forall_nil|]. cbn [forallb] in Hw. apply andb_prop in Hw as [Hwa Hwl].
      cbn [List.map]. apply List.Forall_cons; [by apply Ha|by apply IH].
  - cbn [wf] in Hw. apply andb_prop in Hw as [[Ht Hwa]%andb_prop Hwb]. apply Forall_app. split; [by apply IHa|].
    apply List.Forall_cons; [|by apply IHb]. apply operator_elem_ok. unfold token_is_binary in Ht.
    apply andb_prop in Ht as [Ht _]. by apply bool_decide_eq_true in Ht.
  - cbn [wf] in Hw. apply andb_prop in Hw as [[Hwa Hwb]%andb_prop Hwc]. apply Forall_app. split; [by apply IHa|].
    apply List.Forall_cons; [plain_operator|]. apply Forall_app. split; [by apply IHb|].
    apply List.Forall_cons; [plain_operator|by apply IHc].
Qed.

Lemma program_ok p : wf_program p = true -> Forall elem_ok (show_program p).
Proof.
  unfold wf_program, show_program. intros [[Hs Ha]%andb_prop _]%andb_prop. apply Forall_app. split; [|by apply show_ok].
  clear Ha. induction (stores p) as [|[i e] l IH]; [apply List.Forall_nil|]. cbn [forallb fst snd] in Hs.
  apply andb_prop in Hs as [[[Hi He]%andb_prop _]%andb_prop Hl]. rewrite fmap_cons, mjoin_cons. apply Forall_app.
  split; [|by apply IH]. unfold show_store. cbn [fst snd]. apply List.Forall_cons.
  { apply var_elem_ok. cbn [wf] in Hi. zbool. lia. }
  apply List.Forall_cons; [plain_operator|]. apply Forall_app. split; [by apply show_ok|].
  apply List.Forall_cons; [plain_operator|apply List.Forall_nil].
Qed.

(** The compiler reads the text as its elements. *)
Lemma compile_text `{Host} l : forall c c' fuel rem,
  Forall elem_ok l -> steps (snd <$> l) c = Ok c' -> rem = text l \/ rem = 32 :: text l -> (length rem < fuel)%nat ->
  compile_loop Numeric fuel rem c = Some (finish_compile Numeric c').
Proof.
  induction l as [|e l IH]; intros c c' fuel rem Hl Hs Hrem Hf; (destruct fuel as [|fuel]; [lia|]); cbn [compile_loop].
  - cbn in Hs. injection Hs as <-. destruct Hrem as [-> | ->]; rewrite ?lex_skip; reflexivity.
  - inversion_clear Hl as [|? ? He Hl']. rewrite fmap_cons in Hs. cbn [steps] in Hs.
    destruct (token_step Numeric (snd e) c) as [c1|] eqn:Ht; [|done]. cbn [mbind result_bind] in Hs.
    assert (Hlex : Lexer_next Numeric (operand_needed c) rem = Ok (Some (snd e, 32 :: text l))).
    { assert (Ht' : text (e :: l) = fst e ++ 32 :: text l)
        by (unfold text; rewrite fmap_cons, mjoin_cons, <- app_assoc; reflexivity).
      apply step_mode in Ht. destruct Hrem as [-> | ->]; rewrite ?lex_skip, Ht'; by apply He. }
    pose proof (next_consumes _ _ _ _ _ Hlex) as Hc. rewrite Hlex, Ht.
    apply (IH c1 c'); [done|done|by right|lia].
Qed.
