(* ===== verification/CalcCorrect.v ===== *)
(** * Calculation engine: compiling and running a program gives its value

    The composition of the lexer, the compiler and the evaluator on the text of a program: the
    stores in order, each seen by what follows, then the answer. *)
From Stdlib Require Import SpecFloat.
From stdpp Require Import base tactics numbers list option strings.
From S2P Require Import Prelude Float64 Float64Theory Strtod CalcOps CalcLex CalcCode CalcPostfix.
From S2P Require Import CalcEval CalcTheory CalcCodeTheory CalcExpr CalcRunTheory CalcCompileTheory CalcLexTheory.

Open Scope Z_scope.

(** The code of a program. *)
Definition store_code (s : Z * expr) : list CoreOp.t := postfix (snd s) ++ [CoreOp.StoreVar (fst s)].
Definition program_code (p : program) : list CoreOp.t := mjoin (store_code <$> stores p) ++ postfix (answer p).

Section Correct.
Context `{Host} `{Libm}.

(** ** The emitter *)

Definition out (o : Emitter) (code : list Z) : Prop :=
  em_kind o = Numeric /\ em_bad o = false /\ em_code o = code.

Lemma emit_out o code op : out o code -> op_ok op -> out (emit o (Opcode.Core op)) (code ++ enc op).
Proof.
  intros (Hk & Hb & Hc) [[b He] _]. unfold emit, out, enc. rewrite Hk. change (table Numeric) with BASE. rewrite He.
  cbn [em_kind em_bad em_code]. by rewrite Hc.
Qed.

Lemma emits_out ops : forall o code, out o code -> Forall op_ok ops -> out (emits o ops) (code ++ bytes ops).
Proof.
  induction ops as [|op ops IH]; intros o code Ho Hops; [by rewrite app_nil_r|].
  inversion_clear Hops. rewrite emits_cons, bytes_cons, app_assoc. apply IH; [by apply emit_out|done].
Qed.

Lemma var_ok i : 0 <= i <= 20 -> op_ok (CoreOp.PushVar i) /\ op_ok (CoreOp.StoreVar i).
Proof.
  intros Hi. destruct (enc_var i Hi) as [H1 H2]. split; (split; [by eapply enc_some|done]).
Qed.

(** The operand before [:=] is taken back. *)
Lemma emitted_var o code i : out o code -> 0 <= i <= 20 ->
  let o' := emit o (Opcode.Core (CoreOp.PushVar i)) in
  emitted_last o' = Some (Opcode.Core (CoreOp.PushVar i)) /\ out (retract_last o') code.
Proof.
  intros Ho Hi. destruct (proj1 (var_ok i Hi)) as [[b He] _].
  destruct Ho as (Hk & Hb & Hc). unfold emit. rewrite Hk. change (table Numeric) with BASE. rewrite He. cbn zeta. split.
  - unfold emitted_last. cbn [em_last em_kind em_code mbind option_bind].
    pose proof (decode_encode Numeric (em_code o) (Opcode.Core (CoreOp.PushVar i)) b [] He eq_refl) as Hd.
    rewrite app_nil_r in Hd. rewrite Hd. reflexivity.
  - unfold retract_last, out. cbn [em_last em_kind em_code em_bad]. by rewrite take_app_length.
Qed.

(** ** Statements *)

Definition semicolon_rest (c : Compiler) : result CalcError.t Compiler :=
  match stack c with
  | _ :: _ => Err CalcError.ParenOpen
  | [] =>
      match conds c with
      | _ :: _ => Err CalcError.Conditional
      | [] => if 1 <? runtime_depth c then Err CalcError.TooMany else Ok (with_needed c true)
      end
  end.

Abbreviation Top o hs k el := (mkCompiler o [] true 0 (calm hs [] k []) [] el false).

Lemma top_calm hs k el : Forall (eq (HStore 0)) hs -> calm_ok hs [] k [] el.
Proof. intros Hs. constructor; [done|apply List.Forall_nil|constructor|apply List.Forall_nil|apply List.Forall_nil]. Qed.

Lemma compile_store i e o code hs k el :
  out o code -> Forall (eq (HStore 0)) hs -> 0 <= i <= 20 -> wf e = true -> need e < 80 ->
  exists o' k' el', out o' (code ++ bytes (store_code (i, e))) /\
    steps (snd <$> show_store (i, e)) (Top o hs k el) = Ok (Top o' (hs ++ [HStore 0]) k' el').
Proof.
  intros Ho Hs Hi Hw Hn. destruct (emitted_var o code i Ho Hi) as [Hlast Hback].
  set (o0 := retract_last (emit o (Opcode.Core (CoreOp.PushVar i)))) in *.
  destruct (compiles_expr e Hw 1 ltac:(lia) o0 [SStore (TVar i) 0] 0 hs [] k [] [] el)
    as (k' & el' & _ & _ & Hin); [by apply top_calm|split; [done|left; done]|done|lia|].
  exists (emits o0 (postfix e ++ [CoreOp.StoreVar i])), k', el'. split.
  { apply emits_out; [done|]. apply Forall_app. split; [by apply postfix_ok|].
    apply List.Forall_cons; [by apply var_ok|apply List.Forall_nil]. }
  unfold show_store. cbn [fst snd]. rewrite !fmap_cons, fmap_app. cbn [snd fmap list_fmap].
  change list_fmap with (@fmap list _). rewrite !(snd_named (operators BASE_TABLE)). cbn [steps].
  erewrite token_operand; [|done|done|reflexivity|cbn; lia]. cbn [mbind result_bind].
  erewrite token_operator; [|done|done| |].
  2: { change (operator_step Numeric Token.Assign) with (assign Numeric). unfold assign.
       cbn [store_rule table_for store BASE_TABLE]. unfold operand, emit_op, with_output, with_depth, with_needed.
       cbn [stack output existsb runtime_depth missing conds elses until_read operand_needed]. rewrite Hlast. reflexivity. }
  2: { cbn. lia. }
  fold o0. eapply steps_operator with (p := 1) (f := fun e => negb (is_lparen e)) (g := semicolon_rest).
  - eapply ends_in_push; [exact Hin|lia|done|lia|]. rewrite with_stack_St. apply flush_store. done.
  - done.
  - intros x Hx _. by destruct x.
  - done.
  - unfold semicolon_rest. cbn [stack conds runtime_depth]. rewrite emits_app. reflexivity.
  - cbn. lia.
Qed.

Lemma stores_wf l : forallb (fun s => wf (Arg (fst s)) && wf (snd s) && (need (snd s) <? 80)) l = true ->
  Forall (fun s => 0 <= fst s <= 20 /\ wf (snd s) = true /\ need (snd s) < 80) l.
Proof.
  induction l as [|[i e] l IH]; [intros; apply List.Forall_nil|]. cbn [forallb fst snd].
  intros [[[Hi He]%andb_prop Hn]%andb_prop Hl]%andb_prop. cbn [wf] in Hi. zbool.
  apply List.Forall_cons; [simpl; split_and!; (done || lia)|by apply IH].
Qed.

Lemma compile_stores l : Forall (fun s => 0 <= fst s <= 20 /\ wf (snd s) = true /\ need (snd s) < 80) l ->
  forall o code hs k el, out o code -> Forall (eq (HStore 0)) hs ->
  exists o' hs' k' el', out o' (code ++ bytes (mjoin (store_code <$> l))) /\ Forall (eq (HStore 0)) hs' /\
    steps (snd <$> mjoin (show_store <$> l)) (Top o hs k el) = Ok (Top o' hs' k' el').
Proof.
  induction 1 as [|[i e] l (Hi & Hw & Hn) _ IH]; intros o code hs k el Ho Hs.
  { exists o, hs, k, el. by rewrite app_nil_r. }
  cbn [fst snd] in *. destruct (compile_store i e o code hs k el) as (o1 & k1 & el1 & Ho1 & Hst); [done..|].
  destruct (IH o1 _ (hs ++ [HStore 0]) k1 el1 Ho1) as (o2 & hs2 & k2 & el2 & Ho2 & Hs2 & Hst2).
  { apply Forall_app. split; [done|]. apply List.Forall_cons; [done|apply List.Forall_nil]. }
  exists o2, hs2, k2, el2. split_and!; [|done|].
  - rewrite fmap_cons, mjoin_cons, bytes_app, app_assoc. exact Ho2.
  - rewrite fmap_cons, mjoin_cons, fmap_app, steps_app, Hst. exact Hst2.
Qed.

(** ** The end of the text *)

Lemma flush_rest_pend l : Forall (fun x => is_barrier x = false) l ->
  forall c, flush_rest Numeric l c = Ok (with_stack (flushes l c) []).
Proof.
  induction 1 as [|x l Hx _ IH]; intros c; [done|]. cbn [flush_rest flushes foldl]. destruct x; try done; apply IH.
Qed.

Lemma not_refused hs k : Forall (eq (HStore 0)) hs -> holes_refused 1 (calm hs [] k []) = false.
Proof.
  intros Hs. unfold holes_refused, drop_reads, calm. cbn [paths List.filter read off holes].
  rewrite bool_decide_eq_false_2; [done|]. intros Hin. rewrite list.Forall_forall in Hs.
  specialize (Hs _ Hin). discriminate Hs.
Qed.

Lemma text_nonempty p : wf_program p = true -> text (show_program p) <> [].
Proof.
  intros Hw Ht. pose proof (program_ok p Hw) as Hok.
  assert (Hne : show_program p <> []).
  { unfold show_program. intros [_ Hs]%app_eq_nil. unfold wf_program in Hw.
    apply andb_prop in Hw as [[_ Hw]%andb_prop _]. destruct (answer p) as [| | | | | |a b c]; cbn [show] in Hs;
      try (destruct (_ <? _); discriminate Hs).
    - destruct (_ <? _); [discriminate Hs|]. by apply app_eq_nil in Hs as [_ Hs].
    - destruct (_ <? _); [discriminate Hs|]. by apply app_eq_nil in Hs as [_ Hs]. }
  destruct (show_program p) as [|e l]; [done|]. unfold text in Ht. rewrite fmap_cons, mjoin_cons in Ht.
  apply app_eq_nil in Ht as [Ht _]. by apply app_eq_nil in Ht as [_ Ht].
Qed.

Lemma compile_program p : wf_program p = true ->
  compile (text (show_program p)) = Some (Ok (bytes (program_code p) ++ [END])).
Proof.
  intros Hw. pose proof (text_nonempty p Hw) as Hne. pose proof (program_ok p Hw) as Hok.
  unfold wf_program in Hw. apply andb_prop in Hw as [[Hst Hwa]%andb_prop Hn]. apply Z.ltb_lt in Hn.
  destruct (compile_stores (stores p) (stores_wf _ Hst) (Emitter_new Numeric) [] [] 0 0)
    as (o & hs & k & el & Ho & Hs & Hsteps); [done|apply List.Forall_nil|].
  destruct (compiles_expr (answer p) Hwa 1 ltac:(lia) o [] 0 hs [] k [] [] el)
    as (k' & el' & _ & _ & c' & pend & Hst' & Hstack & _ & _ & Hpend & HT); [by apply top_calm|done|done|lia|].
  assert (Hall : steps (snd <$> show_program p) (Compiler_new Numeric) = Ok c').
  { unfold show_program. rewrite fmap_app, steps_app.
    change (Compiler_new Numeric) with (Top (Emitter_new Numeric) [] 0 0). rewrite Hsteps. exact Hst'. }
  unfold compile. destruct (text (show_program p)) as [|b t] eqn:Et; [done|]. unfold postfix_compile.
  rewrite (compile_text (show_program p) _ c' _ (b :: t) Hok Hall) by (by left || lia). f_equal.
  unfold finish_compile. rewrite Hstack, app_nil_r, flush_rest_pend.
  2: { eapply Forall_impl; [exact Hpend|]. by intros x [? _]. }
  rewrite HT. cbn [mbind result_bind conds operand_needed runtime_depth missing output orb].
  change (0 + 1 =? 1) with true. cbn [negb]. change (0 + 1) with 1. rewrite not_refused by done.
  assert (Hfin : out (emits o (postfix (answer p))) (([] ++ bytes (mjoin (store_code <$> stores p))) ++ bytes (postfix (answer p))))
    by (apply emits_out; [done|by apply postfix_ok]).
  destruct Hfin as (_ & Hb & Hc). unfold Emitter_finish. rewrite Hb, Hc. unfold program_code. by rewrite bytes_app.
Qed.

(** ** Running it *)

Lemma run_stores_cons i e l v s :
  run_stores ((i, e) :: l) v s =
  run_stores l (store_arg v (Z.to_nat i) (fst (value v e s))) (snd (value v e s)).
Proof. unfold run_stores. cbn [foldl]. by destruct (value v e s). Qed.

Lemma runs_stores l : Forall (fun s => 0 <= fst s <= 20 /\ wf (snd s) = true /\ need (snd s) < 80) l ->
  forall code pc v s, code_at code pc (mjoin (store_code <$> l)) ->
  reaches code pc (M [] v s) (pc + length (bytes (mjoin (store_code <$> l))))
    (M [] (fst (run_stores l v s)) (snd (run_stores l v s))).
Proof.
  induction 1 as [|[i e] l (Hi & Hw & Hn) _ IH]; intros code pc v s Hc.
  { cbn. rewrite Nat.add_0_r. apply reach_refl. }
  cbn [fst snd] in *. rewrite fmap_cons, mjoin_cons in *. apply code_at_app in Hc as [Hce Hcl].
  unfold store_code in Hce at 1. cbn [fst snd] in Hce. apply code_at_app in Hce as [Hce Hcs].
  rewrite run_stores_cons, bytes_app, length_app, Nat.add_assoc.
  eapply reaches_trans; [|apply IH; exact Hcl].
  unfold store_code at 1. cbn [fst snd]. rewrite bytes_app, length_app, Nat.add_assoc.
  eapply reaches_trans; [apply (runs_expr v e Hw); [exact Hce|simpl; lia]|].
  apply (run_store code _ i [] _ v); [done|exact Hcs].
Qed.

(** A run that changes the machine does not start at an [END]. *)
Lemma reaches_not_empty code pc' m m' : reaches code 0 m pc' m' -> m <> m' -> is_empty code = false.
Proof.
  intros Hr Hm. remember 0%nat as pc eqn:Epc. destruct Hr as [|pc m b pc1 m1 pc2 m2 Hb Hd _]; [done|]. subst pc.
  unfold is_empty. destruct code as [|b' code]; [done|]. injection Hb as ->.
  destruct (Z.eqb_spec b END) as [-> |]; [discriminate Hd|done].
Qed.
End Correct.

(** C3: the calculation engine computes what an expression says.  For every program of the base
    dialect (assignments and an answer over literals, arguments, constants, RNDM, VAL, the
    unary and binary operators, function calls and conditionals) whose operand stack fits,
    the text with the fewest parentheses compiles to the postfix order of its tree, and
    compiling and running it answers the value of the tree: operators bind by their
    precedence and to the left, a conditional to the right and only its chosen branch is
    evaluated, each assignment is seen by what follows and is left in the caller's arguments,
    and the generator's seed advances once per RNDM evaluated. *)
Theorem calc_computes_the_program `{Host} `{Libm} p inputs seed :
  wf_program p = true ->
  compile (text (show_program p)) = Some (Ok (bytes (program_code p) ++ [END])) /\
  let '(x, v, s) := run_program p inputs seed in
  calc (text (show_program p)) inputs seed = Done (Ok x) (mkMachine (mkStack [x] false) v s).
Proof.
  intros Hw. pose proof (compile_program p Hw) as Hc. split; [done|].
  unfold wf_program in Hw. apply andb_prop in Hw as [[Hst Hwa]%andb_prop Hn]. apply Z.ltb_lt in Hn.
  unfold calc. rewrite Hc. set (code := bytes (program_code p) ++ [END]).
  assert (Hat : code_at code 0 (program_code p)) by (by exists [], [END]).
  pose proof Hat as Hat'. unfold program_code in Hat'. apply code_at_app in Hat' as [Hcs Hca].
  pose proof (runs_stores (stores p) (stores_wf _ Hst) code 0 inputs seed Hcs) as Hr.
  unfold run_program. destruct (run_stores (stores p) inputs seed) as [v s]. cbn [fst snd] in Hr.
  pose proof (runs_expr v (answer p) Hwa code _ [] s Hca) as Ha. cbn [length] in Ha.
  destruct (value v (answer p) s) as [x s']. cbn [fst snd app] in Ha.
  pose proof (reaches_trans _ _ _ _ _ _ _ Hr (Ha ltac:(lia))) as Hall.
  unfold eval_vars. rewrite (reaches_not_empty _ _ _ _ Hall) by (intros [=]).
  destruct (reaches_eval _ _ _ _ _ Hall (S (length code))) as (fuel & Hf & He); [lia|].
  unfold Stack_new. rewrite He.
  assert (Hlen : (0 + length (bytes (mjoin (store_code <$> stores p))) + length (bytes (postfix (answer p))))%nat
    = length (bytes (program_code p))) by (unfold program_code; rewrite bytes_app, length_app; lia).
  rewrite Hlen in *.
  assert (Hend : code !! length (bytes (program_code p)) = Some END) by apply lookup_at.
  destruct fuel as [|fuel]; [apply lookup_lt_Some in Hend; lia|]. cbn [eval_loop]. rewrite Hend. reflexivity.
Qed.

(** A libm to evaluate witnesses with: every function is its first argument. *)
Definition first_libm : Libm :=
  Build_Libm (fun a _ => a) (fun a _ => a) id id id id id id id id id id id id.

(** [A:=B+12.5; C:=A>10?(A?B:C):RNDM; MAX(A,-C*2,ATAN2(B,3))-(1-A)]. *)
Definition sample : program :=
  mkProgram
    [(0, Binary Token.Plus (Arg 1) (Lit [49; 50] [53]));
     (2, Cond (Binary Token.Gt (Arg 0) (Lit [49; 48] [])) (Cond (Arg 0) (Arg 1) (Arg 2)) (Word Token.Rndm))]
    (Binary Token.Minus
       (Call FuncName.Max
          [Arg 0; Binary Token.Star (Unary Token.Minus (Arg 2)) (Lit [50] []);
           Call FuncName.Atan2 [Arg 1; Lit [51] []]])
       (Binary Token.Minus (Lit [49] []) (Arg 0))).

Definition twenty_one : NumericVars := all_vars (f64_of_Z <$> (Z.of_nat <$> seq 1 21)) f64_zero.

Lemma calc_computes_the_program_witness :
  @compile little_host (text (show_program sample)) = Some (Ok (@bytes little_host (program_code sample) ++ [END])) /\
  let '(x, v, s) := @run_program first_libm sample twenty_one 99 in
  @calc little_host first_libm (text (show_program sample)) twenty_one 99
    = Done (Ok x) (mkMachine (mkStack [x] false) v s).
Proof. apply (@calc_computes_the_program little_host first_libm sample twenty_one 99). vm_compute. reflexivity. Defined.
