(* ===== verification/AccessSecurity.v ===== *)
(** * Access security: rules, inputs and checks

    [epics-base-rs/src/server/access_security.rs] without its file reader: the rules and
    groups of a configuration, the state the [INP] watcher publishes for a group and the
    rule results computed from it, the rule walk and the checks above it.  A byte string is
    its bytes; a group names its published state by the load that made it and its name, and
    the states live in one store, so the copies of a configuration share them.  Host lookup
    is a parameter.  [None] of a delivery is a panic of the evaluator. *)
From Stdlib Require Import SpecFloat.
From stdpp Require Import base tactics numbers list option strings gmap.
From S2P Require Import Prelude Float64 Alarm PvaText Strtod CalcOps CalcCode CalcPostfix CalcEval.

Open Scope Z_scope.

(** A [Vec<u8>] or a [str]. *)
Abbreviation bytes := (list Z).

(** ** Data *)

Inductive AccessLevel : Type := NoAccess | Read | ReadWrite.

#[export] Instance AccessLevel_eq_dec : EqDecision AccessLevel.
Proof. solve_decision. Defined.

Module RuleAccess.
Inductive t : Type := None | Read | Write.
End RuleAccess.

#[export] Instance RuleAccess_eq_dec : EqDecision RuleAccess.t.
Proof. solve_decision. Defined.

(** [CompiledExpr] of the calculation engine. *)
Record CompiledExpr : Type := mkCompiledExpr {
  ce_code : list Z;
  ce_kind : ExprKind;
}.

Record AccessRule : Type := mkAccessRule {
  level : Z;
  access : RuleAccess.t;
  uag : list bytes;
  hag : list bytes;
  method : list bytes;
  authority : list bytes;
  trap : bool;
  calc_text : option bytes;
  calc_compiled : option CompiledExpr;
  inp_used : Z;
  ignore : bool;
}.

(** [AccessRule { level, access, ..AccessRule::default() }]. *)
Definition AccessRule_new (l : Z) (a : RuleAccess.t) : AccessRule :=
  mkAccessRule l a [] [] [] [] false None None 0 false.

(** [AsgInp]: the letter's index and the link. *)
Record AsgInp : Type := mkAsgInp {
  index : Z;
  link : bytes;
}.

(** The load and the name that tell a group's state from every other one. *)
Definition StateId : Type := Z * bytes.

Record AccessSecurityGroup : Type := mkGroup {
  rules : list AccessRule;
  inp : list AsgInp;
  state_id : StateId;
}.

(** [AsgState]; [values] is the argument block, [CALC_NARGS] doubles. *)
Record AsgState : Type := mkAsgState {
  values : NumericVars;
  good : Z;
  changed : Z;
  results : list bool;
}.

Definition AsgState_default : AsgState := mkAsgState (with_counts CALC_NARGS) 0 0 [].

(** Every group's published state; a group just made has the default one. *)
Abbreviation States := (gmap StateId AsgState).

Definition state_of (st : States) (g : AccessSecurityGroup) : AsgState :=
  default AsgState_default (st !! state_id g).

Record InpReading : Type := mkInpReading {
  reading_value : f64;
  severity : AlarmSeverity;
}.

Inductive InpEvent : Type :=
| Reading (r : InpReading)
| Disconnected.

Record AccessSecurityConfig : Type := mkConfig {
  cfg_uag : gmap bytes (list bytes);
  cfg_hag : gmap bytes (list bytes);
  cfg_hag_raw : gmap bytes (list bytes);
  cfg_asg : gmap bytes AccessSecurityGroup;
  unknown_access : AccessLevel;
  load_id : Z;
}.

(** ** Which arguments a program reads *)

Definition bit_of (i : Z) : Z := Z.shiftl 1 i.

(** [CompiledExpr::arg_usage]: the arguments read, and the arguments stored into. *)
Definition usage_step (u : Z * Z) (op : Opcode.t) : Z * Z :=
  let '(inputs, stores) := u in
  match op with
  | Opcode.Core (CoreOp.PushVar i) | Opcode.Core (CoreOp.PushDoubleVar i) =>
      if i <? Z.of_nat CALC_NARGS then (Z.lor inputs (Z.ldiff (bit_of i) stores), stores)
      else (inputs, stores)
  | Opcode.Core (CoreOp.StoreVar i) | Opcode.Core (CoreOp.StoreDoubleVar i) =>
      if i <? Z.of_nat CALC_NARGS then (inputs, Z.lor stores (bit_of i))
      else (inputs, stores)
  | _ => (inputs, stores)
  end.

Definition arg_usage `{Host} (e : CompiledExpr) : option (Z * Z) :=
  ops ← instructions (ce_kind e) (ce_code e);
  Some (foldl (fun u i => usage_step u (snd i)) (0, 0) ops).

(** ** Rules *)

Definition rule_access (r : AccessRule) : AccessLevel :=
  if ignore r then NoAccess
  else match access r with
       | RuleAccess.None => NoAccess
       | RuleAccess.Read => Read
       | RuleAccess.Write => ReadWrite
       end.

Definition calc_result_is_true (result : f64) : bool :=
  f64_gtb result (f64_of_decimal 99 (-2)) && f64_ltb result (f64_of_decimal 101 (-2)).

Definition rule_rank (l : AccessLevel) : Z :=
  match l with NoAccess => 0 | Read => 1 | ReadWrite => 2 end.

(** ** The inputs of a group *)

(** [AsgState::apply]. *)
Definition apply (s : AsgState) (index : Z) (event : InpEvent) : AsgState :=
  if Z.of_nat CALC_NARGS <=? index then s
  else
    let bit := bit_of index in
    match event with
    | Reading r =>
        if bool_decide (severity r = Invalid)
        then mkAsgState (values s) (Z.ldiff (good s) bit) (Z.lor (changed s) bit) (results s)
        else mkAsgState
               (mkNumericVars (<[Z.to_nat index := reading_value r]> (vars (values s)))
                  (prev_val (values s)) (num_args (values s)))
               (Z.lor (good s) bit) (Z.lor (changed s) bit) (results s)
    | Disconnected => mkAsgState (values s) (Z.ldiff (good s) bit) (changed s) (results s)
    end.

(** [calc::eval(..).is_ok_and(calc_result_is_true)] with [VAL] the previous result, and the
    generator's seed after it. *)
Definition rule_holds `{Host} `{Libm} (compiled : CompiledExpr) (v : NumericVars) (previous : bool)
    (sd : Z) : option (bool * Z) :=
  match eval_vars (ce_code compiled) (mkNumericVars (vars v) (of_bool previous) (num_args v)) sd with
  | Done (Ok x) m => Some (calc_result_is_true x, seed m)
  | Done (Err _) m => Some (false, seed m)
  | Panics => None
  | OutOfFuel => None
  end.

(** One rule of [AsgState::compute]. *)
Definition compute_rule `{Host} `{Libm} (v : NumericVars) (changed : Z) (rule : AccessRule)
    (result : bool) (sd : Z) : option (bool * Z) :=
  if ignore rule || (Z.land changed (inp_used rule) =? 0) then Some (result, sd)
  else match calc_compiled rule with
       | None => Some (result, sd)
       | Some compiled => rule_holds compiled v result sd
       end.

Fixpoint compute_results `{Host} `{Libm} (v : NumericVars) (changed : Z) (rules : list AccessRule)
    (results : list bool) (sd : Z) : option (list bool * Z) :=
  match rules, results with
  | rule :: rules, result :: results =>
      '(result, sd) ← compute_rule v changed rule result sd;
      '(results, sd) ← compute_results v changed rules results sd;
      Some (result :: results, sd)
  | _, _ => Some ([], sd)
  end.

(** [AsgState::compute]. *)
Definition compute `{Host} `{Libm} (s : AsgState) (rules : list AccessRule) (sd : Z)
    : option (AsgState * Z) :=
  '(results, sd) ← compute_results (values s) (changed s) rules
                     (vec_resize (len rules) false (results s)) sd;
  Some (mkAsgState (values s) (good s) 0 results, sd).

Definition bad (s : AsgState) (declared : Z) : Z := Z.ldiff declared (good s).

Definition value (s : AsgState) (index : Z) : f64 :=
  default f64_zero (vars (values s) !! Z.to_nat index).

Definition rule_result (s : AsgState) (index : nat) : bool := default false (results s !! index).

Definition declared (g : AccessSecurityGroup) : Z :=
  foldl (fun bits i => Z.lor bits (bit_of (index i))) 0
    (filter (fun i => index i < Z.of_nat CALC_NARGS) (inp g)).

Definition inp_bad (st : States) (g : AccessSecurityGroup) : Z := bad (state_of st g) (declared g).

(** The loop of [AccessSecurityGroup::deliver] on its own copy of the state. *)
Fixpoint deliver_events `{Host} `{Libm} (rules : list AccessRule) (s : AsgState)
    (events : list (Z * InpEvent)) (sd : Z) : option (AsgState * Z) :=
  match events with
  | [] => Some (s, sd)
  | (index, event) :: events =>
      '(s, sd) ← compute (apply s index event) rules sd;
      deliver_events rules s events sd
  end.

Definition deliver `{Host} `{Libm} (st : States) (g : AccessSecurityGroup)
    (events : list (Z * InpEvent)) (sd : Z) : option (States * Z) :=
  '(s, sd) ← deliver_events (rules g) (state_of st g) events sd;
  Some (<[state_id g := s]> st, sd).

(** ** Host groups *)

(** Host lookup: the process's [asCheckClientIP], and [aToIPAddr] written as a dotted quad. *)
Class Hosts : Type := {
  as_check_client_ip : bool;
  resolve_hag_host : bytes -> option bytes;
}.

Definition hag_members `{Hosts} (members : list bytes) : list bytes :=
  if negb as_check_client_ip then map (map to_ascii_lowercase) members
  else
    let unresolved m := ascii_bytes "unresolved:" ++ m in
    map (fun m => if valid_utf8 m then default (unresolved m) (resolve_hag_host m) else unresolved m)
      members.

(** [with_refreshed_hags]: the members resolved again, when that changes any. *)
Definition with_refreshed_hags `{Hosts} (c : AccessSecurityConfig) : option AccessSecurityConfig :=
  let refreshed := hag_members <$> cfg_hag_raw c in
  if bool_decide (refreshed = cfg_hag c) then None
  else Some (mkConfig (cfg_uag c) refreshed (cfg_hag_raw c) (cfg_asg c) (unknown_access c) (load_id c)).

(** ** Checks *)

(** Who asks: the arguments every check passes down. *)
Record Client : Type := mkClient {
  host : bytes;
  user : bytes;
  roles : list bytes;
  client_method : bytes;
  client_authority : bytes;
}.

Definition strip_role (m : bytes) : option bytes :=
  let p := ascii_bytes "role/" in
  if bool_decide (take (length p) m = p) then Some (drop (length p) m) else None.

Definition member_matches (c : Client) (m : bytes) : bool :=
  bool_decide (m = user c) ||
  match strip_role m with
  | Some role => existsb (fun r => bool_decide (r = role)) (roles c)
  | None => false
  end.

(** A rule's groups of users, of hosts, its methods and its authorities: none is any. *)
Definition user_match (cfg : AccessSecurityConfig) (c : Client) (r : AccessRule) : bool :=
  bool_decide (uag r = []) ||
  existsb (fun g => default false (existsb (member_matches c) <$> cfg_uag cfg !! g)) (uag r).

Definition host_match (cfg : AccessSecurityConfig) (c : Client) (r : AccessRule) : bool :=
  bool_decide (hag r = []) ||
  existsb (fun g => default false
     (existsb (fun m => eq_ignore_ascii_case m (host c)) <$> cfg_hag cfg !! g)) (hag r).

Definition method_match (c : Client) (r : AccessRule) : bool :=
  bool_decide (method r = []) ||
  existsb (fun m => eq_ignore_ascii_case m (client_method c)) (method r).

Definition authority_match (c : Client) (r : AccessRule) : bool :=
  bool_decide (authority r = []) ||
  existsb (fun a => eq_ignore_ascii_case a (client_authority c)) (authority r).

Definition is_some {A : Type} (o : option A) : bool := match o with Some _ => true | None => false end.

(** One round of the loop of [compute_rules]: [None] is its [break]. *)
Definition walk_rule (cfg : AccessSecurityConfig) (s : AsgState) (bad : Z) (c : Client) (record_asl : Z)
    (ix : nat) (r : AccessRule) (acc : AccessLevel * bool) : option (AccessLevel * bool) :=
  let '(access, trapped) := acc in
  if ignore r then Some acc
  else if bool_decide (access = ReadWrite) then None
  else if rule_rank (rule_access r) <=? rule_rank access then Some acc
  else if level r <? record_asl then Some acc
  else if negb (user_match cfg c r) then Some acc
  else if negb (host_match cfg c r) then Some acc
  else if negb (method_match c r) then Some acc
  else if negb (authority_match c r) then Some acc
  else if is_some (calc_text r) && (negb (Z.land bad (inp_used r) =? 0) || negb (rule_result s ix))
  then Some acc
  else Some (rule_access r, trap r).

Fixpoint walk_rules (cfg : AccessSecurityConfig) (s : AsgState) (bad : Z) (c : Client) (record_asl : Z)
    (ix : nat) (rs : list AccessRule) (acc : AccessLevel * bool) : AccessLevel * bool :=
  match rs with
  | [] => acc
  | r :: rs =>
      match walk_rule cfg s bad c record_asl ix r acc with
      | Some acc => walk_rules cfg s bad c record_asl (S ix) rs acc
      | None => acc
      end
  end.

(** [compute_rules]. *)
Definition compute_rules (st : States) (cfg : AccessSecurityConfig) (g : AccessSecurityGroup)
    (c : Client) (record_asl : Z) : AccessLevel * bool :=
  walk_rules cfg (state_of st g) (inp_bad st g) c record_asl 0 (rules g) (NoAccess, false).

Definition DEFAULT : bytes := ascii_bytes "DEFAULT".

Definition asg_or_default (cfg : AccessSecurityConfig) (asg_name : bytes) : option AccessSecurityGroup :=
  match cfg_asg cfg !! asg_name with
  | Some g => Some g
  | None => cfg_asg cfg !! DEFAULT
  end.

Definition compute_for_name (st : States) (cfg : AccessSecurityConfig) (asg_name : bytes)
    (c : Client) (record_asl : Z) : AccessLevel * bool :=
  match asg_or_default cfg asg_name with
  | None => (NoAccess, false)
  | Some g => compute_rules st cfg g c record_asl
  end.

Definition without_roles (c : Client) : Client :=
  mkClient (host c) (user c) [] (client_method c) (client_authority c).

Definition check_access_method_trap (st : States) (cfg : AccessSecurityConfig) (asg_name : bytes)
    (c : Client) (record_asl : Z) : AccessLevel * bool :=
  match asg_or_default cfg asg_name with
  | None => (NoAccess, false)
  | Some g => compute_rules st cfg g (without_roles c) record_asl
  end.

Definition check_access_method (st : States) (cfg : AccessSecurityConfig) (asg_name : bytes)
    (c : Client) (record_asl : Z) : AccessLevel :=
  fst (check_access_method_trap st cfg asg_name c record_asl).

Definition check_access_asl (st : States) (cfg : AccessSecurityConfig) (asg_name h u : bytes)
    (record_asl : Z) : AccessLevel :=
  check_access_method st cfg asg_name (mkClient h u [] [] []) record_asl.

Definition check_access (st : States) (cfg : AccessSecurityConfig) (asg_name h u : bytes) : AccessLevel :=
  check_access_asl st cfg asg_name h u 0.
