(* ===== verification/AcfParse.v ===== *)
(** * Access security: the configuration file

    The reader of [epics-base-rs/src/server/access_security.rs]: the scanner [AcfScanner],
    the tokens and the grammar.  A function of the source that takes the scanner by
    reference is a [Parser]; [Rejected] is its [SyntaxError], [ParsePanics] a failed
    [expect] and [ParseStuck] fuel run out.  Every loop has one unit of fuel per byte of the
    file and one more.  A diagnostic is the value its text is made from. *)
From Stdlib Require Import SpecFloat.
From stdpp Require Import base tactics numbers list option strings gmap.
From S2P Require Import Prelude Float64 PvaText Strtod CalcOps CalcCode CalcPostfix CalcEval.
From S2P Require Import AccessSecurity.

Open Scope Z_scope.

(** ** Diagnostics *)

Inductive GroupKind : Type := UserGroup | HostGroup | SecurityGroup.

Inductive Unsupported : Type := BareBlock | PlainBlock | NestedBlock | UnsupportedRule.

(** What an error says. *)
Inductive Why : Type :=
| NewlineInString
| InvalidCharacter (c : Z)
| BadInt64 (text : bytes)
| BadFloat64 (text : bytes)
| SyntaxErrorAt
| NegativeLevel (n : Z)
| BadLogOption
| DuplicateGroup (kind : GroupKind) (name : bytes)
| NoGroupNamed (kind : GroupKind) (name : bytes)
| CalcRejected (e : CalcError.t) (expr : bytes)
| CalcAssigns (expr : bytes)
| NoRuleToDisable (keyword : bytes).

(** A line of the parse's stderr. *)
Inductive Line : Type :=
| ErrorLine (what : Why) (line : Z)
| WhereLine (line : Z)
| WarningLine (what : Unsupported) (line : Z) (token : bytes).

(** ** The scanner *)

Record AcfScanner : Type := mkScanner {
  src : bytes;
  pos : nat;
  line : Z;
  warned : bool;
  warning : option Line;
  said : list Line;
  errors : list (Why * Z);
  duplicated_users : list (bytes * bytes);
  duplicated_hosts : list (bytes * bytes);
  errlog : list Why;
}.

Definition AcfScanner_new (content : bytes) : AcfScanner :=
  mkScanner content 0 1 false None [] [] [] [] [].

Inductive outcome (A : Type) : Type :=
| Parsed (a : A) (sc : AcfScanner)
| Rejected (line : Z) (sc : AcfScanner)
| ParsePanics
| ParseStuck.
Arguments Parsed {A} _ _.
Arguments Rejected {A} _ _.
Arguments ParsePanics {A}.
Arguments ParseStuck {A}.

Definition Parser (A : Type) : Type := AcfScanner -> outcome A.

#[export] Instance parser_ret : MRet Parser := fun A a sc => Parsed a sc.
#[export] Instance parser_bind : MBind Parser := fun A B f m sc =>
  match m sc with
  | Parsed a sc => f a sc
  | Rejected l sc => Rejected l sc
  | ParsePanics => ParsePanics
  | ParseStuck => ParseStuck
  end.

Definition read_only {A : Type} (f : AcfScanner -> A) : Parser A := fun sc => Parsed (f sc) sc.
Definition modify (f : AcfScanner -> AcfScanner) : Parser unit := fun sc => Parsed () (f sc).
Definition stuck {A : Type} : Parser A := fun _ => ParseStuck.
Definition panic {A : Type} : Parser A := fun _ => ParsePanics.

(** [Err(sc.reject())]. *)
Definition reject {A : Type} : Parser A := fun sc => Rejected (line sc) sc.

Definition warn_at (what : Unsupported) (l : Z) (token : bytes) (sc : AcfScanner) : AcfScanner :=
  let w := WarningLine what l token in
  if negb (warned sc) && negb (bool_decide (token = []))
  then mkScanner (src sc) (pos sc) (line sc) true (Some w) (said sc ++ [w]) (errors sc)
         (duplicated_users sc) (duplicated_hosts sc) (errlog sc)
  else mkScanner (src sc) (pos sc) (line sc) true (warning sc) (said sc) (errors sc)
         (duplicated_users sc) (duplicated_hosts sc) (errlog sc).

(** [sc.warn(what, sc.line, token)]. *)
Definition warn (what : Unsupported) (token : bytes) : Parser unit :=
  modify (fun sc => warn_at what (line sc) token sc).

Definition error_at (what : Why) (sc : AcfScanner) : AcfScanner :=
  mkScanner (src sc) (pos sc) (line sc) (warned sc) (warning sc) (said sc ++ [ErrorLine what (line sc)])
    (errors sc ++ [(what, line sc)]) (duplicated_users sc) (duplicated_hosts sc) (errlog sc).

Definition error (what : Why) : Parser unit := modify (error_at what).

Definition error_saying_where (why : Why) : Parser unit := modify (fun sc =>
  mkScanner (src sc) (pos sc) (line sc) (warned sc) (warning sc) (said sc ++ [WhereLine (line sc)])
    (errors sc ++ [(why, line sc)]) (duplicated_users sc) (duplicated_hosts sc) (errlog sc)).

Definition refuse (why : Why) : Parser unit :=
  modify (fun sc =>
    mkScanner (src sc) (pos sc) (line sc) (warned sc) (warning sc) (said sc) (errors sc)
      (duplicated_users sc) (duplicated_hosts sc) (errlog sc ++ [why]));;
  error_saying_where why.

Definition push_duplicates (users hosts : list (bytes * bytes)) : Parser unit := modify (fun sc =>
  mkScanner (src sc) (pos sc) (line sc) (warned sc) (warning sc) (said sc) (errors sc)
    (duplicated_users sc ++ users) (duplicated_hosts sc ++ hosts) (errlog sc)).

Definition at_cursor (sc : AcfScanner) : bytes := drop (pos sc) (src sc).
Definition peek : Parser (option Z) := read_only (fun sc => head (at_cursor sc)).

(** [self.pos += n], for a run that holds no newline. *)
Definition skip_run (n : nat) : Parser unit := modify (fun sc =>
  mkScanner (src sc) (pos sc + n) (line sc) (warned sc) (warning sc) (said sc) (errors sc)
    (duplicated_users sc) (duplicated_hosts sc) (errlog sc)).

(** [AcfScanner::next]. *)
Definition next : Parser (option Z) := fun sc =>
  match head (at_cursor sc) with
  | None => Parsed None sc
  | Some c =>
      Parsed (Some c)
        (mkScanner (src sc) (S (pos sc)) (if c =? 10 then wrap 32 (line sc + 1) else line sc)
           (warned sc) (warning sc) (said sc) (errors sc)
           (duplicated_users sc) (duplicated_hosts sc) (errlog sc))
  end.

(** ** Characters and numbers *)

Definition is_acf_space (c : Z) : bool := (c =? 32) || (c =? 9) || (c =? 13) || (c =? 10).

Definition is_acf_name_char (c : Z) : bool :=
  is_ascii_alphanumeric c ||
  existsb (Z.eqb c) [95; 46; 45; 43; 58; 91; 93; 60; 62; 59].

Definition is_sign (c : Z) : bool := (c =? 45) || (c =? 43).

Definition skip_sign (t : bytes) : bytes :=
  match t with c :: rest => if is_sign c then rest else t | [] => [] end.

Definition is_exponent_char (c : Z) : bool := (c =? 101) || (c =? 69).

Definition is_acf_number (run : bytes) : bool :=
  let '(int, t) := span is_ascii_digit (skip_sign run) in
  match t with
  | [] => negb (bool_decide (int = []))
  | c :: t =>
      if negb (c =? 46) then false
      else
        let '(frac, t) := span is_ascii_digit t in
        if bool_decide (frac = []) then false
        else match t with
             | [] => true
             | c :: e =>
                 if is_exponent_char c
                 then let e := skip_sign e in negb (bool_decide (e = [])) && forallb is_ascii_digit e
                 else false
             end
  end.

Definition mantissa_nonzero (run : bytes) : bool :=
  existsb (fun c => (49 <=? c) && (c <=? 57)) (fst (span (fun c => negb (is_exponent_char c)) run)).

(** [str::parse::<i64>] of a run [is_acf_number] accepts. *)
Definition parse_i64 (run : bytes) : option Z :=
  let negative := match run with c :: _ => c =? 45 | [] => false end in
  let t := skip_sign run in
  if bool_decide (t = []) || negb (forallb is_ascii_digit t) then None
  else
    let v := if negative then - digits_value t else digits_value t in
    if (- 2 ^ 63 <=? v) && (v <? 2 ^ 63) then Some v else None.

(** The magnitude of [str::parse::<f64>] of such a run. *)
Definition parse_f64_abs (run : bytes) : option f64 :=
  '(v, _, _) ← decimal (skip_sign run); Some v.

(** [number_error]: [None] of the outer option is its [expect]. *)
Definition number_error (run : bytes) : option (option Why) :=
  if negb (is_acf_number run) then Some None
  else if negb (existsb (Z.eqb 46) run) then
    Some (match parse_i64 run with None => Some (BadInt64 run) | Some _ => None end)
  else
    v ← parse_f64_abs run;
    let underflow := f64_ltb v (pow2 (-1022)) && mantissa_nonzero run in
    Some (if f64_is_infinite v || underflow then Some (BadFloat64 run) else None).

(** ** Spaces, comments and what the lexer drops *)

Inductive QuoteEnd : Type := Closed | Newline (at_ : nat) | Stray.

(** [quoted_end] on the bytes after the quote, [i] the offset of the first of them. *)
Fixpoint quoted_end_from (l : bytes) (i : nat) : QuoteEnd :=
  match l with
  | [] => Stray
  | c :: l =>
      if c =? 34 then Closed
      else if c =? 10 then Newline i
      else if c =? 92 then
        match l with
        | d :: l => if d =? 10 then Stray else quoted_end_from l (2 + i)
        | [] => Stray
        end
      else quoted_end_from l (S i)
  end.

Definition quoted_end (sc : AcfScanner) : QuoteEnd :=
  quoted_end_from (drop (S (pos sc)) (src sc)) (S (pos sc)).

Definition name_run (sc : AcfScanner) : bytes := fst (span is_acf_name_char (at_cursor sc)).

Definition fuel_of (sc : AcfScanner) : nat := S (length (src sc)).

Fixpoint skip_comment (fuel : nat) : Parser unit :=
  match fuel with
  | O => stuck
  | S fuel =>
      c ← peek;
      match c with
      | Some c => if c =? 10 then mret () else next;; skip_comment fuel
      | None => mret ()
      end
  end.

(** [while self.pos <= newline { self.next(); }]. *)
Fixpoint skip_through (fuel : nat) (newline : nat) : Parser unit :=
  match fuel with
  | O => stuck
  | S fuel =>
      p ← read_only pos;
      if (p <=? newline)%nat then next;; skip_through fuel newline else mret ()
  end.

Definition is_punctuation (c : Z) : bool := existsb (Z.eqb c) [40; 41; 123; 125; 44].

(** One round of [skip_ws_comments]; [true] is its [return]. *)
Definition skip_one (c : Z) : Parser bool :=
  fuel ← read_only fuel_of;
  if is_acf_space c then next;; mret false
  else if c =? 35 then skip_comment fuel;; mret false
  else if is_punctuation c then mret true
  else if c =? 34 then
    e ← read_only quoted_end;
    match e with
    | Closed => mret true
    | Newline at_ => error NewlineInString;; skip_through fuel at_;; mret false
    | Stray => error (InvalidCharacter 34);; next;; mret false
    end
  else if is_acf_name_char c then
    run ← read_only name_run;
    match number_error run with
    | None => panic
    | Some None => mret true
    | Some (Some why) => error why;; skip_run (length run);; mret false
    end
  else error (InvalidCharacter c);; next;; mret false.

Fixpoint skip_loop (fuel : nat) : Parser unit :=
  match fuel with
  | O => stuck
  | S fuel =>
      c ← peek;
      match c with
      | None => mret ()
      | Some c => stop ← skip_one c; if stop : bool then mret () else skip_loop fuel
      end
  end.

Definition skip_ws_comments : Parser unit := fuel ← read_only fuel_of; skip_loop fuel.

Fixpoint quoted_loop (fuel : nat) (body : bytes) : Parser bytes :=
  match fuel with
  | O => stuck
  | S fuel =>
      c ← next;
      match c with
      | None => mret body
      | Some c =>
          if c =? 34 then mret body
          else if c =? 92 then d ← next; quoted_loop fuel (body ++ [92; default 0 d])
          else quoted_loop fuel (body ++ [c])
      end
  end.

Definition quoted : Parser bytes := next;; fuel ← read_only fuel_of; quoted_loop fuel [].

(** ** Tokens *)

Module Token.
Inductive t : Type :=
| Quoted (b : bytes) | Name (b : bytes) | Number (b : bytes) | Keyword (b : bytes).
End Token.

Definition into_bytes (t : Token.t) : bytes :=
  match t with Token.Quoted b | Token.Name b | Token.Number b | Token.Keyword b => b end.

Definition parse_inp_index (suffix : bytes) : option Z :=
  match suffix with
  | [c] => if (65 <=? c) && (c <=? 85) then Some (c - 65) else None
  | _ => None
  end.

(** [run.strip_prefix(b"INP").and_then(parse_inp_index)]. *)
Definition inp_keyword (run : bytes) : option Z :=
  if bool_decide (take 3 run = ascii_bytes "INP") then parse_inp_index (drop 3 run) else None.

Definition is_acf_keyword (run : bytes) : bool :=
  existsb (fun k => bool_decide (run = ascii_bytes k)) ["UAG"; "HAG"; "ASG"; "RULE"; "CALC"]%string ||
  is_some (inp_keyword run).

Definition read_token : Parser (option Token.t) :=
  skip_ws_comments;;
  c ← peek;
  match c with
  | None => mret None
  | Some c =>
      if c =? 34 then b ← quoted; mret (Some (Token.Quoted b))
      else if is_acf_name_char c then
        run ← read_only name_run;
        skip_run (length run);;
        mret (Some (if is_acf_number run then Token.Number run
                    else if is_acf_keyword run then Token.Keyword run
                    else Token.Name run))
      else mret None
  end.

Definition expect (want : Z) : Parser unit :=
  skip_ws_comments;;
  c ← peek;
  if bool_decide (c = Some want) then next;; mret () else reject.

Definition read_string : Parser bytes :=
  t ← read_token;
  match t with
  | Some (Token.Name b) | Some (Token.Quoted b) => mret b
  | _ => reject
  end.

Definition read_paren_name : Parser bytes :=
  expect 40;; name ← read_string; expect 41;; mret name.

Inductive ListKind : Type := Strings | Generic.

#[export] Instance ListKind_eq_dec : EqDecision ListKind.
Proof. solve_decision. Defined.

Definition list_item (kind : ListKind) (t : option Token.t) : Parser bytes :=
  match t, kind with
  | Some (Token.Number _), Strings => reject
  | Some (Token.Keyword _), Strings => reject
  | Some t, _ => mret (into_bytes t)
  | None, _ => reject
  end.

Fixpoint token_list_loop (fuel : nat) (close : Z) (kind : ListKind) (items : list bytes)
    : Parser (list bytes) :=
  match fuel with
  | O => stuck
  | S fuel =>
      t ← read_token;
      item ← list_item kind t;
      skip_ws_comments;;
      c ← next;
      match c with
      | Some c =>
          if c =? 44 then token_list_loop fuel close kind (items ++ [item])
          else if c =? close then mret (items ++ [item]) else reject
      | None => reject
      end
  end.

Definition read_token_list (open close : Z) (kind : ListKind) : Parser (list bytes) :=
  expect open;;
  skip_ws_comments;;
  c ← peek;
  if bool_decide (kind = Generic) && bool_decide (c = Some close) then next;; mret []
  else fuel ← read_only fuel_of; token_list_loop fuel close kind [].

Definition read_optional_brace_list : Parser (list bytes) :=
  skip_ws_comments;;
  c ← peek;
  if bool_decide (c = Some 123) then read_token_list 123 125 Strings else mret [].

(** ** What the grammar reads only to skip *)

(** [read_token(sc).ok_or_else(|| sc.reject())?]. *)
Definition required_token : Parser Token.t :=
  t ← read_token; match t with Some t => mret t | None => reject end.

(** A [peek] after [skip_ws_comments]. *)
Definition peek_token : Parser (option Z) := skip_ws_comments;; peek.

(** The rest of [{ e, e }], the cursor past an element. *)
Fixpoint block_items (fuel : nat) (single : bool) : Parser bool :=
  match fuel with
  | O => stuck
  | S fuel =>
      c ← peek;
      match c with
      | Some c =>
          if c =? 125 then next;; mret single
          else if c =? 44 then
            next;; required_token;; skip_ws_comments;; block_items fuel false
          else reject
      | None => reject
      end
  end.

(** [skip_generic_block], with [skip_generic_elem] and the loop over named elements. *)
Fixpoint skip_generic_block (fuel : nat) : Parser bool :=
  match fuel with
  | O => stuck
  | S fuel =>
      next;;
      first ← required_token;
      c ← peek_token;
      if bool_decide (c = Some 40) then
        match first with
        | Token.Number _ => reject
        | _ => named_elements fuel
        end
      else block_items fuel true
  end
with named_elements (fuel : nat) : Parser bool :=
  match fuel with
  | O => stuck
  | S fuel =>
      (* skip_generic_elem *)
      read_token_list 40 41 Generic;;
      c ← peek_token;
      (if bool_decide (c = Some 123) then skip_generic_block fuel;; mret () else mret ());;
      c ← peek_token;
      if bool_decide (c = Some 125) then next;; mret false
      else
        t ← read_token;
        match t with
        | Some (Token.Number _) | None => reject
        | Some _ =>
            c ← peek_token;
            if bool_decide (c = Some 40) then named_elements fuel else reject
        end
  end.

Definition skip_block : Parser bool := fuel ← read_only fuel_of; skip_generic_block fuel.

Definition skip_generic_elem : Parser unit :=
  read_token_list 40 41 Generic;;
  c ← peek_token;
  if bool_decide (c = Some 123) then skip_block;; mret () else mret ().

Definition skip_generic_item (keyword : bytes) : Parser unit :=
  read_token_list 40 41 Generic;;
  c ← peek_token;
  what ←
    (if bool_decide (c = Some 123) then
       single ← skip_block;
       if single : bool then
         c ← peek_token;
         if bool_decide (c = Some 123) then
           items ← read_token_list 123 125 Generic;
           if (length items <? 2)%nat then reject else mret NestedBlock
         else mret PlainBlock
       else mret PlainBlock
     else mret BareBlock);
  warn what keyword.

(** ** Rules *)

Inductive RuleTarget : Type :=
| Made (asg : bytes) (ix : nat)
| Ignored
| Refused.

Definition Made_b (t : RuleTarget) : bool := match t with Made _ _ => true | _ => false end.

(** [target.rule(&mut config.asg)] and the write through it; [None] when it names no rule. *)
Definition update_rule (t : RuleTarget) (f : AccessRule -> AccessRule) (c : AccessSecurityConfig)
    : option AccessSecurityConfig :=
  match t with
  | Made asg ix =>
      g ← cfg_asg c !! asg;
      r ← rules g !! ix;
      let g := mkGroup (<[ix := f r]> (rules g)) (inp g) (state_id g) in
      Some (mkConfig (cfg_uag c) (cfg_hag c) (cfg_hag_raw c) (<[asg := g]> (cfg_asg c))
              (unknown_access c) (load_id c))
  | _ => None
  end.

(** The write where the source ignores a missing rule. *)
Definition edit_rule (t : RuleTarget) (f : AccessRule -> AccessRule) (c : AccessSecurityConfig)
    : AccessSecurityConfig := default c (update_rule t f c).

Definition set_trap (r : AccessRule) : AccessRule :=
  mkAccessRule (level r) (access r) (uag r) (hag r) (method r) (authority r) true
    (calc_text r) (calc_compiled r) (inp_used r) (ignore r).
Definition add_uag (g : bytes) (r : AccessRule) : AccessRule :=
  mkAccessRule (level r) (access r) (uag r ++ [g]) (hag r) (method r) (authority r) (trap r)
    (calc_text r) (calc_compiled r) (inp_used r) (ignore r).
Definition add_hag (g : bytes) (r : AccessRule) : AccessRule :=
  mkAccessRule (level r) (access r) (uag r) (hag r ++ [g]) (method r) (authority r) (trap r)
    (calc_text r) (calc_compiled r) (inp_used r) (ignore r).
Definition set_calc (expr : bytes) (e : CompiledExpr) (used : Z) (r : AccessRule) : AccessRule :=
  mkAccessRule (level r) (access r) (uag r) (hag r) (method r) (authority r) (trap r)
    (Some expr) (Some e) used (ignore r).
Definition extend_method (l : list bytes) (r : AccessRule) : AccessRule :=
  mkAccessRule (level r) (access r) (uag r) (hag r) (method r ++ l) (authority r) (trap r)
    (calc_text r) (calc_compiled r) (inp_used r) (ignore r).
Definition extend_authority (l : list bytes) (r : AccessRule) : AccessRule :=
  mkAccessRule (level r) (access r) (uag r) (hag r) (method r) (authority r ++ l) (trap r)
    (calc_text r) (calc_compiled r) (inp_used r) (ignore r).
Definition disable (r : AccessRule) : AccessRule :=
  mkAccessRule (level r) (access r) (uag r) (hag r) (method r) (authority r) (trap r)
    (calc_text r) (calc_compiled r) (inp_used r) true.

Definition no_rule_to_disable (keyword : bytes) : Parser unit :=
  error_saying_where (NoRuleToDisable keyword).

(** [compile_rule_calc]; [None] is the compiler or [arg_usage] out of fuel. *)
Definition compile_rule_calc `{Host} (expr : bytes) : option (result Why (CompiledExpr * Z)) :=
  if negb (valid_utf8 expr) then Some (Err (CalcRejected CalcError.Syntax expr))
  else
    r ← compile expr;
    match r with
    | Err e => Some (Err (CalcRejected e expr))
    | Ok code =>
        let compiled := mkCompiledExpr code Numeric in
        '(used, stores) ← arg_usage compiled;
        Some (if negb (stores =? 0) then Err (CalcAssigns expr) else Ok (compiled, used))
    end.

Section Rules.
Context `{Host}.

(** [rules.push]: the configuration and the new rule's place. *)
Definition push_rule (asg : bytes) (r : AccessRule) (c : AccessSecurityConfig)
    : option (RuleTarget * AccessSecurityConfig) :=
  g ← cfg_asg c !! asg;
  let g' := mkGroup (rules g ++ [r]) (inp g) (state_id g) in
  Some (Made asg (length (rules g)),
        mkConfig (cfg_uag c) (cfg_hag c) (cfg_hag_raw c) (<[asg := g']> (cfg_asg c))
          (unknown_access c) (load_id c)).

Definition rule_access_keyword (s : bytes) : option RuleAccess.t :=
  if bool_decide (s = ascii_bytes "WRITE") then Some RuleAccess.Write
  else if bool_decide (s = ascii_bytes "READ") then Some RuleAccess.Read
  else if bool_decide (s = ascii_bytes "NONE") then Some RuleAccess.None
  else None.

(** The head up to the access keyword: the rule it makes. *)
Definition rule_head (asg : option bytes) (c : AccessSecurityConfig)
    : Parser (RuleTarget * AccessSecurityConfig) :=
  expect 40;;
  t ← read_token;
  level_num ←
    match t with
    | Some (Token.Number n) =>
        if existsb (Z.eqb 46) n then reject
        else match parse_i64 n with Some v => mret v | None => panic end
    | _ => reject
    end;
  expect 44;;
  access_str ← read_string;
  if level_num <? 0 then error (NegativeLevel level_num);; mret (Refused, c)
  else match rule_access_keyword access_str with
       | Some a =>
           match asg with
           | Some asg =>
               match push_rule asg (AccessRule_new (swrap 32 level_num) a) c with
               | Some made => mret made
               | None => panic
               end
           | None => mret (Refused, c)
           end
       | None => warn UnsupportedRule access_str;; mret (Ignored, c)
       end.

(** [rule_log_option] and the closing parenthesis. *)
Definition rule_log_option (t : RuleTarget) (c : AccessSecurityConfig) : Parser AccessSecurityConfig :=
  p ← peek_token;
  c ← (if bool_decide (p = Some 44) then
         next;;
         log_opt ← read_string;
         if bool_decide (log_opt = ascii_bytes "TRAPWRITE") then mret (edit_rule t set_trap c)
         else if bool_decide (log_opt = ascii_bytes "NOTRAPWRITE") then mret c
         else error BadLogOption;; mret c
       else mret c);
  expect 41;; mret c.

(** The names of a [UAG] or [HAG] clause. *)
Fixpoint group_clause (fuel : nat) (users : bool) (t : RuleTarget) (c : AccessSecurityConfig)
    : Parser AccessSecurityConfig :=
  match fuel with
  | O => stuck
  | S fuel =>
      name ← read_string;
      let defined := if users then cfg_uag c else cfg_hag c in
      c ← (if Made_b t && negb (is_some (defined !! name)) then
             refuse (NoGroupNamed (if users then UserGroup else HostGroup) name);; mret c
           else mret (edit_rule t (if users then add_uag name else add_hag name) c));
      skip_ws_comments;;
      p ← next;
      match p with
      | Some p => if p =? 44 then group_clause fuel users t c
                  else if p =? 41 then mret c else reject
      | None => reject
      end
  end.

Definition calc_clause (t : RuleTarget) (c : AccessSecurityConfig) : Parser AccessSecurityConfig :=
  expr ← read_paren_name;
  match update_rule t id c with
  | None => mret c
  | Some _ =>
      match compile_rule_calc expr with
      | None => stuck
      | Some (Ok (compiled, used)) => mret (edit_rule t (set_calc expr compiled used) c)
      | Some (Err why) => refuse why;; mret c
      end
  end.

(** What a clause that changes no rule says. *)
Definition edit_or_say (t : RuleTarget) (f : AccessRule -> AccessRule) (keyword : bytes)
    (c : AccessSecurityConfig) : Parser AccessSecurityConfig :=
  match update_rule t f c with
  | Some c => mret c
  | None => match t with
            | Refused => no_rule_to_disable keyword;; mret c
            | _ => mret c
            end
  end.

Definition scope_clause (keyword : bytes) (t : RuleTarget) (c : AccessSecurityConfig)
    : Parser AccessSecurityConfig :=
  items ← read_token_list 40 41 Generic;
  p ← peek_token;
  (if bool_decide (p = Some 123) then skip_block;; mret () else mret ());;
  edit_or_say t
    (if bool_decide (keyword = ascii_bytes "METHOD") then extend_method items else extend_authority items)
    keyword c.

Definition other_clause (name : bytes) (t : RuleTarget) (c : AccessSecurityConfig)
    : Parser AccessSecurityConfig :=
  skip_generic_elem;;
  warn UnsupportedRule name;;
  edit_or_say t disable name c.

(** One item of [rule_list], its first token read. *)
Definition rule_item (tok : option Token.t) (t : RuleTarget) (c : AccessSecurityConfig)
    : Parser AccessSecurityConfig :=
  fuel ← read_only fuel_of;
  match tok with
  | Some (Token.Keyword kw) =>
      if bool_decide (kw = ascii_bytes "UAG") then expect 40;; group_clause fuel true t c
      else if bool_decide (kw = ascii_bytes "HAG") then expect 40;; group_clause fuel false t c
      else if bool_decide (kw = ascii_bytes "CALC") then calc_clause t c
      else other_clause kw t c
  | Some (Token.Name kw) =>
      if bool_decide (kw = ascii_bytes "METHOD") || bool_decide (kw = ascii_bytes "AUTHORITY")
      then scope_clause kw t c
      else other_clause kw t c
  | Some (Token.Quoted name) => other_clause name t c
  | Some (Token.Number _) | None => reject
  end.

(** [rule_list]; [first] until an item has been read. *)
Fixpoint rule_items (fuel : nat) (first : bool) (t : RuleTarget) (c : AccessSecurityConfig)
    : Parser AccessSecurityConfig :=
  match fuel with
  | O => stuck
  | S fuel =>
      p ← peek_token;
      if negb first && bool_decide (p = Some 125) then next;; mret c
      else
        tok ← read_token;
        c ← rule_item tok t c;
        rule_items fuel false t c
  end.

Definition parse_rule (asg : option bytes) (c : AccessSecurityConfig) : Parser AccessSecurityConfig :=
  '(t, c) ← rule_head asg c;
  c ← rule_log_option t c;
  p ← peek_token;
  if bool_decide (p = Some 123) then
    next;; fuel ← read_only fuel_of; rule_items fuel true t c
  else mret c.

(** ** Groups and the file *)

(** [asg.inp.push] for the group [yyAsg] names, if any. *)
Definition push_inp (name : option bytes) (i : AsgInp) (c : AccessSecurityConfig) : AccessSecurityConfig :=
  default c (
    name ← name;
    g ← cfg_asg c !! name;
    Some (mkConfig (cfg_uag c) (cfg_hag c) (cfg_hag_raw c)
            (<[name := mkGroup (rules g) (inp g ++ [i]) (state_id g)]> (cfg_asg c))
            (unknown_access c) (load_id c))).

Fixpoint asg_items (fuel : nat) (first : bool) (name : option bytes) (c : AccessSecurityConfig)
    : Parser AccessSecurityConfig :=
  match fuel with
  | O => stuck
  | S fuel =>
      p ← peek_token;
      if negb first && bool_decide (p = Some 125) then next;; mret c
      else
        tok ← read_token;
        match tok with
        | Some (Token.Keyword kw) =>
            c ← (if bool_decide (kw = ascii_bytes "RULE") then parse_rule name c
                 else match inp_keyword kw with
                      | Some i => l ← read_paren_name; mret (push_inp name (mkAsgInp i l) c)
                      | None => reject
                      end);
            asg_items fuel false name c
        | _ => reject
        end
  end.

Definition parse_asg_body (name : option bytes) (c : AccessSecurityConfig) : Parser AccessSecurityConfig :=
  next;; fuel ← read_only fuel_of; asg_items fuel true name c.

(** The members a list repeats, once per repeat. *)
Fixpoint repeated_from (seen : list bytes) (members : list bytes) : list bytes :=
  match members with
  | [] => []
  | m :: members =>
      if existsb (fun x => bool_decide (x = m)) seen then m :: repeated_from seen members
      else repeated_from (m :: seen) members
  end.

Definition repeated (members : list bytes) : list bytes := repeated_from [] members.

Definition empty_group (load : Z) (name : bytes) : AccessSecurityGroup := mkGroup [] [] (load, name).

Definition uag_item (c : AccessSecurityConfig) : Parser AccessSecurityConfig :=
  name ← read_paren_name;
  let fresh := negb (is_some (cfg_uag c !! name)) in
  (if fresh then mret () else refuse (DuplicateGroup UserGroup name));;
  members ← read_optional_brace_list;
  if negb fresh then mret c
  else
    push_duplicates ((fun u => (u, name)) <$> repeated members) [];;
    mret (mkConfig (<[name := members]> (cfg_uag c)) (cfg_hag c) (cfg_hag_raw c) (cfg_asg c)
            (unknown_access c) (load_id c)).

Definition hag_item `{Hosts} (c : AccessSecurityConfig) : Parser AccessSecurityConfig :=
  name ← read_paren_name;
  let fresh := negb (is_some (cfg_hag c !! name)) in
  (if fresh then mret () else refuse (DuplicateGroup HostGroup name));;
  members ← read_optional_brace_list;
  if negb fresh then mret c
  else
    let hosts := hag_members members in
    push_duplicates [] ((fun h => (h, name)) <$> repeated hosts);;
    mret (mkConfig (cfg_uag c) (<[name := hosts]> (cfg_hag c)) (<[name := members]> (cfg_hag_raw c))
            (cfg_asg c) (unknown_access c) (load_id c)).

(** Whether [asAsgAdd] refuses the name: any group but the empty [DEFAULT]. *)
Definition taken (name : bytes) (g : AccessSecurityGroup) : bool :=
  negb (bool_decide (name = DEFAULT)) || negb (bool_decide (length (rules g) = O))
  || negb (bool_decide (length (inp g) = O)).

(** [config.asg.entry(name).or_default()]. *)
Definition entry_or_default (name : bytes) (c : AccessSecurityConfig) : AccessSecurityConfig :=
  match cfg_asg c !! name with
  | Some _ => c
  | None => mkConfig (cfg_uag c) (cfg_hag c) (cfg_hag_raw c)
              (<[name := empty_group (load_id c) name]> (cfg_asg c)) (unknown_access c) (load_id c)
  end.

Definition asg_item (c : AccessSecurityConfig) : Parser AccessSecurityConfig :=
  name ← read_paren_name;
  '(asg, c) ←
    (if from_option (taken name) false (cfg_asg c !! name)
     then refuse (DuplicateGroup SecurityGroup name);; mret (None, c)
     else mret (Some name, entry_or_default name c));
  p ← peek_token;
  if bool_decide (p = Some 123) then parse_asg_body asg c else mret c.

Fixpoint acf_items `{Hosts} (fuel : nat) (c : AccessSecurityConfig) : Parser AccessSecurityConfig :=
  match fuel with
  | O => stuck
  | S fuel =>
      tok ← read_token;
      match tok with
      | Some (Token.Keyword k) =>
          c ← (if bool_decide (k = ascii_bytes "UAG") then uag_item c
               else if bool_decide (k = ascii_bytes "HAG") then hag_item c
               else if bool_decide (k = ascii_bytes "ASG") then asg_item c
               else reject);
          acf_items fuel c
      | Some (Token.Name k) | Some (Token.Quoted k) => skip_generic_item k;; acf_items fuel c
      | Some (Token.Number _) => reject
      | None => p ← peek; match p with Some _ => reject | None => mret c end
      end
  end.

(** The configuration before the file: an empty [DEFAULT]. *)
Definition initial_config (load : Z) : AccessSecurityConfig :=
  mkConfig ∅ ∅ ∅ {[DEFAULT := empty_group load DEFAULT]} Read load.

(** [parse_acf_in]; [load] is the fresh [LoadId]. *)
Definition parse_acf_in `{Hosts} (load : Z) : Parser AccessSecurityConfig :=
  fuel ← read_only fuel_of; acf_items fuel (initial_config load).
End Rules.

(** What [parse_acf_reporting] reports and returns. *)
Record Report : Type := mkReport {
  reported : list Line;
  logged : list Why;
  logged_duplicates : list (bytes * bytes);
  parsed : result (list (Why * Z)) AccessSecurityConfig;
}.

Inductive acf_outcome : Type :=
| Read_acf (r : Report)
| AcfPanics
| AcfStuck.

Definition parse_acf_reporting `{Host} `{Hosts} (load : Z) (content : bytes) : acf_outcome :=
  match parse_acf_in load (AcfScanner_new content) with
  | Parsed config sc =>
      Read_acf
        (if bool_decide (length (errors sc) = O)
         then mkReport (said sc) (errlog sc) (duplicated_users sc ++ duplicated_hosts sc) (Ok config)
         else mkReport (said sc) (errlog sc) [] (Err (errors sc)))
  | Rejected l sc =>
      let sc := error_at SyntaxErrorAt
        (mkScanner (src sc) (pos sc) l (warned sc) (warning sc) (said sc) (errors sc)
           (duplicated_users sc) (duplicated_hosts sc) (errlog sc)) in
      Read_acf (mkReport (said sc) (errlog sc) [] (Err (errors sc)))
  | ParsePanics => AcfPanics
  | ParseStuck => AcfStuck
  end.

(** [parse_acf]: the configuration, or the errors. *)
Definition parse_acf `{Host} `{Hosts} (load : Z) (content : bytes)
    : option (result (list (Why * Z)) AccessSecurityConfig) :=
  match parse_acf_reporting load content with
  | Read_acf r => Some (parsed r)
  | _ => None
  end.
