(* ===== verification/CalcUsageTheory.v ===== *)
(** * Calculation engine: a program depends only on the arguments it reads

    [CompiledExpr::arg_usage] walks the instructions; the evaluator's program counter stays
    on the offsets of that walk, so what it fetches is in the bitmap.  A program that
    stores nothing gives the same answer on argument blocks that agree there. *)
From Stdlib Require Import SpecFloat.
From stdpp Require Import base tactics numbers list option strings sets.
From S2P Require Import Prelude Float64 CalcOps CalcCode CalcPostfix CalcEval CalcTheory.
From S2P Require Import Alarm AccessSecurity.

Open Scope Z_scope.

(** ** Offsets of instructions *)

Section Offsets.
Context `{Host}.
Variable code : list Z.

Definition is_end (op : Opcode.t) : bool :=
  match op with Opcode.Core CoreOp.End => true | _ => false end.

(** The offsets the walk from the first byte comes to. *)
Inductive boundary : nat -> Prop :=
| boundary_start : boundary 0
| boundary_next pc op next :
    boundary pc -> decode BASE code pc = Ok (op, next) -> is_end op = false -> boundary next.

Lemma instructions_step fuel pc op next l :
  instructions_from BASE code pc (S fuel) = Some l ->
  decode BASE code pc = Ok (op, next) -> is_end op = false ->
  exists rest, l = (pc, op) :: rest /\ instructions_from BASE code next fuel = Some rest.
Proof.
  cbn [instructions_from]. intros Hl Hd He. rewrite Hd in Hl.
  destruct (instructions_from BASE code next fuel) as [rest|];
    destruct op as [[]| | |]; simplify_eq/=; by exists rest.
Qed.

(** What the walk has still to list at an offset, and the fuel it has for it. *)
Lemma boundary_listed l pc :
  instructions Numeric code = Some l -> boundary pc ->
  exists fuel rest, instructions_from BASE code pc fuel = Some rest /\ rest ⊆ l.
Proof.
  intros Hl Hb. induction Hb as [|pc op next _ (fuel & rest & Hr & Hs) Hd He].
  - eexists _, l. split; [exact Hl|done].
  - destruct fuel as [|fuel]; [done|].
    destruct (instructions_step _ _ _ _ _ Hr Hd He) as (rest' & -> & Hr').
    exists fuel, rest'. split; [done|]. set_solver.
Qed.

Lemma boundary_instruction l pc op next :
  instructions Numeric code = Some l -> boundary pc ->
  decode BASE code pc = Ok (op, next) -> is_end op = false -> (pc, op) ∈ l.
Proof.
  intros Hl Hb Hd He. destruct (boundary_listed _ _ Hl Hb) as (fuel & rest & Hr & Hs).
  destruct fuel as [|fuel]; [done|].
  destruct (instructions_step _ _ _ _ _ Hr Hd He) as (rest' & -> & _). set_solver.
Qed.

Lemma cond_search_boundary find_else : forall fuel pc count next,
  boundary pc -> cond_search_from BASE code find_else pc count fuel = Some (Ok next) -> boundary next.
Proof.
  induction fuel as [|fuel IH]; intros pc count next Hb Hc; [done|]. cbn [cond_search_from] in Hc.
  destruct (decode BASE code pc) as [[op n]|] eqn:Hd; [|done].
  destruct (is_end op) eqn:He.
  { by destruct op as [[]| | |]. }
  assert (Hn : boundary n) by (by eapply boundary_next).
  assert (Hgo : forall k, cond_search_from BASE code find_else n k fuel = Some (Ok next) -> boundary next)
    by (intros k; by apply IH).
  destruct op as [[]| | |]; try (by apply (Hgo _ Hc)); try done;
    destruct find_else; try (by apply (Hgo _ Hc)); destruct (count - 1 =? 0); try (by apply (Hgo _ Hc));
    by simplify_eq.
Qed.
End Offsets.

(** ** The evaluator's offsets *)

(** The bytes whose instruction is themselves. *)
Definition one_byte (b : Z) : bool :=
  (3 <=? b) && (b <=? 99) && negb (existsb (Z.eqb b) [60; 61; 76; 78]).

Definition one_byte_slot (k : nat) : bool :=
  negb (one_byte (Z.of_nat k)) ||
  match BASE !! k with Some (Slot.Op op) => negb (is_end op) | _ => false end.

Lemma one_byte_slots : forallb one_byte_slot (seq 0 100) = true.
Proof. vm_compute. reflexivity. Qed.

Lemma one_byte_op b :
  one_byte b = true -> exists op, BASE !! Z.to_nat b = Some (Slot.Op op) /\ is_end op = false.
Proof.
  intros Hb. pose proof Hb as Hr. unfold one_byte in Hr. apply andb_prop in Hr as [Hr _].
  assert (Hs : one_byte_slot (Z.to_nat b) = true).
  { apply (proj1 (forallb_forall _ _) one_byte_slots), in_seq. lia. }
  unfold one_byte_slot in Hs. rewrite Z2Nat.id, Hb in Hs by lia. cbn [negb orb] in Hs.
  destruct (BASE !! Z.to_nat b) as [[|op| | | |]|]; try done.
  exists op. split; [done|]. by apply negb_true_iff.
Qed.

(** Where the instruction of byte [b] goes on, [pc] past the byte. *)
Definition goes_on `{Host} (code : list Z) (b : Z) (pc pc' : nat) : Prop :=
  (one_byte b = true /\ pc' = pc) \/
  ((b = 60 \/ b = 61 \/ b = 76 \/ b = 78) /\ is_Some (code !! pc) /\ pc' = S pc) \/
  (b = LITERAL_DOUBLE /\ is_Some (get_range code pc 8) /\ pc' = (pc + 8)%nat) \/
  (b = LITERAL_INT /\ is_Some (get_range code pc 4) /\ pc' = (pc + 4)%nat) \/
  (one_byte b = true /\ exists e, cond_search BASE code pc e = Some (Ok pc')).

Definition goes_step `{Host} (code : list Z) (b : Z) (pc : nat) (st : eval_step) : Prop :=
  match st with Continue _ pc' => goes_on code b pc pc' | _ => True end.

Section Steps.
Context `{Host} `{Libm}.
Variable code : list Z.

Lemma continue_goes b pc r : one_byte b = true -> goes_step code b pc (continue_at pc r).
Proof. intros Hb. destruct r; simpl; [by left|done]. Qed.

Lemma vararg_goes b pc f :
  b = 60 \/ b = 61 \/ b = 76 \/ b = 78 -> goes_step code b pc (vararg_step code pc f).
Proof.
  intros Hb. unfold vararg_step. destruct (code !! pc) eqn:Hc; [|done].
  destruct (f _) as [[]|]; simpl; [|done|done]. right. left. rewrite Hc. eauto.
Qed.

Lemma jump_goes b pc m e : one_byte b = true -> goes_step code b pc (jump m (cond_search BASE code pc e)).
Proof.
  intros Hb. destruct (cond_search BASE code pc e) as [[pc'|]|] eqn:Hc; simpl; [|done|done].
  do 4 right. eauto.
Qed.

Ltac goes :=
  repeat match goal with
  | |- goes_step _ _ _ (continue_at _ _) => apply continue_goes; reflexivity
  | |- goes_step _ _ _ (vararg_step _ _ _) => apply vararg_goes; lia
  | |- goes_step _ _ _ (jump _ _) => apply jump_goes; reflexivity
  | |- goes_step _ _ _ (Continue _ _) => left; split; reflexivity
  | |- goes_step _ _ _ (match ?x with _ => _ end) => destruct x
  | |- goes_step _ _ _ _ => exact I
  end.

Lemma dispatch_goes b pc m : goes_step code b pc (dispatch code b pc m).
Proof.
  unfold dispatch. cbv zeta.
  destruct (Z.eqb_spec b END) as [->|_]; [exact I|].
  destruct (Z.eqb_spec b LITERAL_DOUBLE) as [->|H1].
  { destruct (get_range code pc 8) eqn:Hr; [|exact I]. do 2 right. left. rewrite Hr. eauto. }
  destruct (Z.eqb_spec b LITERAL_INT) as [->|H2].
  { destruct (get_range code pc 4) eqn:Hr; [|exact I]. do 3 right. left. rewrite Hr. eauto. }
  destruct (Z.eqb_spec b 3) as [->|H3]; [left; by split|].
  destruct ((4 <=? b) && (b <=? 24)) eqn:H24.
  { left. split; [|done]. unfold one_byte. apply andb_true_intro. split; [lia|].
    apply negb_true_iff. simpl. lia. }
  destruct ((25 <=? b) && (b <=? 45)) eqn:H45.
  { assert (Ho : one_byte b = true).
    { unfold one_byte. apply andb_true_intro. split; [lia|]. apply negb_true_iff. simpl. lia. }
    destruct (pop1 (operand_stack m)) as [[v s]|]; [by left|exact I]. }
  goes.
Qed.

(** The evaluator moves from instruction to instruction. *)
Lemma dispatch_boundary b pc m m' pc' :
  boundary code pc -> code !! pc = Some b -> dispatch code b (S pc) m = Continue m' pc' ->
  boundary code pc'.
Proof.
  intros Hb Hc Hd. pose proof (dispatch_goes b (S pc) m) as Hg. rewrite Hd in Hg. cbn in Hg.
  assert (Hone : one_byte b = true -> boundary code (S pc)).
  { intros Ho. destruct (one_byte_op _ Ho) as (op & Ht & He). eapply boundary_next; [done| |exact He].
    unfold decode. rewrite Hc. cbv zeta. by rewrite Ht. }
  destruct Hg as [[Ho ->]|[(Hv & [n Hn] & ->)|[(-> & [p Hp] & ->)|[(-> & [p Hp] & ->)|(Ho & e & Hs)]]]].
  - by apply Hone.
  - destruct Hv as [->|[->|[->| ->]]].
    all: eapply boundary_next; [done|unfold decode; rewrite Hc; cbv zeta|].
    all: lazymatch goal with |- context [BASE !! ?k] =>
           let v := eval vm_compute in (BASE !! k) in change (BASE !! k) with v end || idtac.
    all: try (cbn [default from_option id]; rewrite Hn; reflexivity).
    all: reflexivity.
  - eapply boundary_next; [done|unfold decode; rewrite Hc; cbv zeta|].
    { change (BASE !! Z.to_nat 1) with (Some Slot.LitDouble). cbn [default from_option id].
      rewrite Hp. reflexivity. }
    reflexivity.
  - eapply boundary_next; [done|unfold decode; rewrite Hc; cbv zeta|].
    { change (BASE !! Z.to_nat 2) with (Some Slot.LitInt). cbn [default from_option id].
      rewrite Hp. reflexivity. }
    reflexivity.
  - unfold cond_search in Hs. apply (cond_search_boundary _ _ _ _ _ _ (Hone Ho) Hs).
Qed.
End Steps.

(** ** What a program fetches is in its bitmap *)

Definition stores_to (op : Opcode.t) : option Z :=
  match op with
  | Opcode.Core (CoreOp.StoreVar i) | Opcode.Core (CoreOp.StoreDoubleVar i) => Some i
  | _ => None
  end.

Lemma usage_stores_grow ops : forall u,
  Z.ldiff (snd u) (snd (foldl (fun u (i : nat * Opcode.t) => usage_step u (snd i)) u ops)) = 0.
Proof.
  induction ops as [|[pc op] ops IH]; intros [inputs stores]; cbn [foldl snd].
  - apply Z.ldiff_diag.
  - specialize (IH (usage_step (inputs, stores) op)).
    set (fin := snd (foldl _ _ _)) in *.
    assert (Hs : Z.ldiff stores (snd (usage_step (inputs, stores) op)) = 0).
    { destruct op as [[]| | |]; cbn [usage_step]; try case_match; cbn [snd]; try apply Z.ldiff_diag;
        apply Z.bits_inj'; intros n Hn; rewrite Z.ldiff_spec, Z.lor_spec, Z.bits_0;
        by destruct (Z.testbit stores n). }
    apply Z.bits_inj'. intros n Hn. apply (f_equal (fun z => Z.testbit z n)) in IH, Hs.
    rewrite Z.ldiff_spec, Z.bits_0 in *. destruct (Z.testbit stores n); [|done].
    destruct (Z.testbit (snd (usage_step _ _)) n); [done|]. discriminate Hs.
Qed.

Lemma usage_inputs_grow ops n : forall u, 0 <= n ->
  Z.testbit (fst u) n = true ->
  Z.testbit (fst (foldl (fun u (i : nat * Opcode.t) => usage_step u (snd i)) u ops)) n = true.
Proof.
  induction ops as [|[pc op] ops IH]; intros [inputs stores] Hn Ht; cbn [foldl]; [done|].
  apply IH; [done|]. cbn [fst] in Ht.
  destruct op as [[]| | |]; cbn [usage_step snd]; try done; case_match; cbn [fst]; try done;
    rewrite Z.lor_spec, Ht; reflexivity.
Qed.

Lemma arg_index i : 0 <= i < 21 -> (i <? Z.of_nat CALC_NARGS) = true.
Proof. intros Hi. apply Z.ltb_lt. unfold CALC_NARGS. lia. Qed.

(** With no store anywhere, every fetch of an argument sets its bit, and nothing stores. *)
Lemma usage_fetch ops u used pc i :
  foldl (fun u (i : nat * Opcode.t) => usage_step u (snd i)) u ops = (used, 0) -> 0 <= i < 21 ->
  (pc, Opcode.Core (CoreOp.PushVar i)) ∈ ops -> Z.testbit used i = true.
Proof.
  revert u. induction ops as [|[pc' op] ops IH]; intros u Hf Hi Hin; [by apply not_elem_of_nil in Hin|].
  cbn [foldl snd] in Hf. apply elem_of_cons in Hin as [Heq|Hin]; [|by apply (IH _ Hf)].
  injection Heq as -> <-.
  pose proof (usage_stores_grow ops (usage_step u (Opcode.Core (CoreOp.PushVar i)))) as Hs.
  pose proof (usage_inputs_grow ops i (usage_step u (Opcode.Core (CoreOp.PushVar i)))) as Hg.
  rewrite Hf in Hs, Hg. destruct u as [inputs stores]. cbn [usage_step fst snd] in *.
  rewrite (arg_index i Hi) in Hs, Hg. cbn [fst snd] in Hs, Hg.
  rewrite Z.ldiff_0_r in Hs. subst stores. apply Hg; [lia|].
  unfold bit_of. rewrite Z.lor_spec, Z.ldiff_0_r, Z.shiftl_1_l, Z.pow2_bits_true by lia. apply orb_true_r.
Qed.

Lemma usage_store ops u used pc i :
  foldl (fun u (i : nat * Opcode.t) => usage_step u (snd i)) u ops = (used, 0) -> 0 <= i < 21 ->
  (pc, Opcode.Core (CoreOp.StoreVar i)) ∈ ops -> False.
Proof.
  revert u. induction ops as [|[pc' op] ops IH]; intros u Hf Hi Hin; [by apply not_elem_of_nil in Hin|].
  cbn [foldl snd] in Hf. apply elem_of_cons in Hin as [Heq|Hin]; [|by apply (IH _ Hf)].
  injection Heq as -> <-.
  pose proof (usage_stores_grow ops (usage_step u (Opcode.Core (CoreOp.StoreVar i)))) as Hs.
  rewrite Hf in Hs. destruct u as [inputs stores]. cbn [usage_step fst snd] in *.
  rewrite (arg_index i Hi) in Hs. cbn [fst snd] in Hs.
  rewrite Z.ldiff_0_r in Hs. apply (f_equal (fun z => Z.testbit z i)) in Hs.
  unfold bit_of in Hs. rewrite Z.lor_spec, Z.shiftl_1_l, Z.pow2_bits_true, Z.bits_0, orb_true_r in Hs by lia.
  discriminate Hs.
Qed.

(** ** Agreement *)

(** Blocks that agree on the arguments of [used], and everything else. *)
Record agree (used : Z) (v w : NumericVars) : Prop := mkAgree {
  agree_vars : forall i : nat, Z.testbit used (Z.of_nat i) = true -> vars v !! i = vars w !! i;
  agree_prev : prev_val v = prev_val w;
  agree_args : num_args v = num_args w;
}.

Lemma agree_num_arg used v w i :
  agree used v w -> Z.testbit used (Z.of_nat i) = true -> num_arg v i = num_arg w i.
Proof. intros [Hv _ Hn] Hi. unfold num_arg. by rewrite Hn, (Hv _ Hi). Qed.

(** The step with other arguments put in the machine it goes on with. *)
Definition with_args (a : NumericVars) (st : eval_step) : eval_step :=
  match st with
  | Continue m pc => Continue (mkMachine (operand_stack m) a (seed m)) pc
  | st => st
  end.

Section Agreement.
Context `{Host} `{Libm}.
Variable code : list Z.

Lemma continue_args pc s a a0 sd f :
  continue_at pc (unary_op f (mkMachine s a sd)) =
  with_args a (continue_at pc (unary_op f (mkMachine s a0 sd))).
Proof. unfold unary_op. cbn [operand_stack]. by destruct (pop1 s) as [[x s']|]. Qed.

Lemma continue_args2 pc s a a0 sd f :
  continue_at pc (binary f (mkMachine s a sd)) =
  with_args a (continue_at pc (binary f (mkMachine s a0 sd))).
Proof. unfold binary. cbn [operand_stack]. by destruct (pop2 s) as [[[x y] s']|]. Qed.

Lemma vararg_args pc s a a0 sd (f : nat -> Machine -> option (result CalcError.t Machine)) :
  (forall n, match f n (mkMachine s a sd), f n (mkMachine s a0 sd) with
             | Some (Ok m), Some (Ok m0) => m = mkMachine (operand_stack m0) a (seed m0)
             | Some (Err e), Some (Err e0) => e = e0
             | None, None => True
             | _, _ => False
             end) ->
  vararg_step code pc (fun n => f n (mkMachine s a sd)) =
  with_args a (vararg_step code pc (fun n => f n (mkMachine s a0 sd))).
Proof.
  intros Hf. unfold vararg_step. destruct (code !! pc) as [n|]; [|done]. specialize (Hf (Z.to_nat n)).
  destruct (f _ _) as [[]|]; destruct (f _ _) as [[]|]; try done; simpl; by subst.
Qed.

Lemma extremum_args wins n s a a0 sd :
  match extremum wins n (mkMachine s a sd), extremum wins n (mkMachine s a0 sd) with
  | Some (Ok m), Some (Ok m0) => m = mkMachine (operand_stack m0) a (seed m0)
  | Some (Err e), Some (Err e0) => e = e0
  | None, None => True
  | _, _ => False
  end.
Proof. unfold extremum. cbn [operand_stack]. destruct (_ <? _)%nat; [done|]. by destruct (last (cells s)). Qed.

Lemma any_all_args f n s a a0 sd :
  match Some (any_all f n (mkMachine s a sd)), Some (any_all f n (mkMachine s a0 sd)) with
  | Some (Ok m), Some (Ok m0) => m = mkMachine (operand_stack m0) a (seed m0)
  | Some (Err e), Some (Err e0) => e = e0
  | None, None => True
  | _, _ => False
  end.
Proof. unfold any_all. cbn [operand_stack]. by destruct (_ <? _)%nat. Qed.

Lemma jump_args s a a0 sd r :
  jump (mkMachine s a sd) r = with_args a (jump (mkMachine s a0 sd) r).
Proof. by destruct r as [[]|]. Qed.

(** An instruction that neither fetches nor stores does not look at the arguments. *)
Lemma dispatch_args b pc s a a0 sd :
  prev_val a = prev_val a0 -> (4 <=? b) && (b <=? 45) = false ->
  dispatch code b pc (mkMachine s a sd) = with_args a (dispatch code b pc (mkMachine s a0 sd)).
Proof.
  intros Hp Hb. unfold dispatch. cbv zeta. cbn [args operand_stack seed].
  replace ((4 <=? b) && (b <=? 24)) with false by lia.
  replace ((25 <=? b) && (b <=? 45)) with false by lia.
  destruct (b =? END); [done|]. destruct (b =? 1); [by destruct (get_range code pc 8)|].
  destruct (b =? 2); [by destruct (get_range code pc 4)|].
  destruct (b =? 3); [by rewrite Hp|].
  repeat match goal with
  | |- continue_at _ (unary_op _ _) = _ => apply continue_args
  | |- continue_at _ (binary _ _) = _ => apply continue_args2
  | |- vararg_step _ _ (fun n => extremum ?w n _) = _ =>
      apply (vararg_args pc s a a0 sd (fun n m => extremum w n m)); intros n; apply extremum_args
  | |- vararg_step _ _ (fun n => Some (any_all ?f n _)) = _ =>
      apply (vararg_args pc s a a0 sd (fun n m => Some (any_all f n m))); intros n; apply any_all_args
  | |- jump (mkMachine _ _ _) _ = _ => apply jump_args
  | |- Continue _ _ = _ => reflexivity
  | |- Fault _ = _ => reflexivity
  | |- match ?x with _ => _ end = _ => destruct x
  | |- jump (on_stack _ _) _ = _ => apply jump_args
  end.
Qed.
End Agreement.

(** ** The answer depends only on what is read *)

Definition argument_slot (k : nat) : bool :=
  match BASE !! k with
  | Some (Slot.Op (Opcode.Core (CoreOp.PushVar i))) => (4 <=? Z.of_nat k) && (Z.of_nat k <=? 24) && (i =? Z.of_nat k - 4)
  | Some (Slot.Op (Opcode.Core (CoreOp.StoreVar i))) => (25 <=? Z.of_nat k) && (Z.of_nat k <=? 45) && (i =? Z.of_nat k - 25)
  | _ => (Z.of_nat k <? 4) || (45 <? Z.of_nat k)
  end.

Lemma argument_slots : forallb argument_slot (seq 0 100) = true.
Proof. vm_compute. reflexivity. Qed.

Lemma argument_op b : 4 <= b <= 45 ->
  BASE !! Z.to_nat b =
  Some (Slot.Op (Opcode.Core (if b <=? 24 then CoreOp.PushVar (b - 4) else CoreOp.StoreVar (b - 25)))).
Proof.
  intros Hb. assert (Hs : argument_slot (Z.to_nat b) = true).
  { apply (proj1 (forallb_forall _ _) argument_slots), in_seq. lia. }
  unfold argument_slot in Hs. rewrite Z2Nat.id in Hs by lia.
  destruct (BASE !! Z.to_nat b) as [[|[[]| | |]| | | |]|]; cbn match in Hs; try lia;
    destruct (Z.leb_spec b 24); try lia; do 4 f_equal; lia.
Qed.

(** What an evaluation tells its caller. *)
Definition answer (e : evaluation) : option (result CalcError.t f64 * Z) :=
  match e with Done r m => Some (r, seed m) | _ => None end.

Section Reads.
Context `{Host} `{Libm}.
Variables (code : list Z) (used : Z).
Hypothesis Hused : arg_usage (mkCompiledExpr code Numeric) = Some (used, 0).

Lemma argument_decodes b pc :
  code !! pc = Some b -> 4 <= b <= 45 ->
  exists op, decode BASE code pc = Ok (Opcode.Core op, S pc) /\
    op = if b <=? 24 then CoreOp.PushVar (b - 4) else CoreOp.StoreVar (b - 25).
Proof.
  intros Hc Hb. eexists. split; [|reflexivity]. unfold decode. rewrite Hc. cbv zeta.
  by rewrite (argument_op _ Hb).
Qed.

Lemma fetch_used b pc :
  boundary code pc -> code !! pc = Some b -> 4 <= b <= 45 -> b <= 24 /\ Z.testbit used (b - 4) = true.
Proof.
  intros Hp Hc Hb. unfold arg_usage in Hused. cbn [ce_kind ce_code] in Hused.
  destruct (instructions Numeric code) as [l|] eqn:Hl; [|done].
  change (Some (foldl (fun u (i : nat * Opcode.t) => usage_step u (snd i)) (0, 0) l) = Some (used, 0)) in Hused.
  injection Hused as Hf. destruct (argument_decodes _ _ Hc Hb) as (op & Hd & ->).
  pose proof (boundary_instruction code _ _ _ _ Hl Hp Hd) as Hi.
  destruct (Z.leb_spec b 24) as [H24|H24]; specialize (Hi eq_refl).
  - split; [done|]. apply (usage_fetch _ _ _ _ _ Hf) in Hi; [done|lia].
  - exfalso. apply (usage_store l (0, 0) used pc (b - 25) Hf); [lia|exact Hi].
Qed.

Lemma eval_loop_agrees a a0 : agree used a a0 -> forall fuel pc s sd, boundary code pc ->
  answer (eval_loop code fuel pc (mkMachine s a sd)) = answer (eval_loop code fuel pc (mkMachine s a0 sd)).
Proof.
  intros Ha. induction fuel as [|fuel IH]; intros pc s sd Hp; [done|]. cbn [eval_loop].
  destruct (code !! pc) as [b|] eqn:Hc; [|done].
  destruct ((4 <=? b) && (b <=? 45)) eqn:Hr.
  - destruct (fetch_used b pc Hp Hc) as [H24 Hu]; [lia|].
    assert (Hfetch : forall v, dispatch code b (S pc) (mkMachine s v sd) =
      Continue (mkMachine (push s (default f64_zero (num_arg v (Z.to_nat (b - 4))))) v sd) (S pc)).
    { intros v. unfold dispatch. cbv zeta.
      replace (b =? END) with false by lia. replace (b =? 1) with false by lia.
      replace (b =? 2) with false by lia. replace (b =? 3) with false by lia.
      replace ((4 <=? b) && (b <=? 24)) with true by lia. done. }
    rewrite !Hfetch, (agree_num_arg _ _ _ (Z.to_nat (b - 4)) Ha) by (rewrite Z2Nat.id by lia; done).
    apply IH. apply (dispatch_boundary code b pc _ _ _ Hp Hc (Hfetch a0)).
  - rewrite (dispatch_args code b (S pc) s a a0 sd (agree_prev _ _ _ Ha) Hr).
    pose proof (dispatch_args code b (S pc) s a0 a0 sd eq_refl Hr) as Hself.
    destruct (dispatch code b (S pc) (mkMachine s a0 sd)) as [m' pc'| | | |] eqn:Hd; cbn [with_args]; try done.
    injection Hself as ->. apply IH. apply (dispatch_boundary code b pc _ _ _ Hp Hc Hd).
Qed.

Lemma eval_agrees a a0 sd : agree used a a0 ->
  answer (eval_vars code a sd) = answer (eval_vars code a0 sd).
Proof.
  intros Ha. unfold eval_vars. cbv zeta. destruct (is_empty code); [done|].
  apply eval_loop_agrees; [done|]. apply boundary_start.
Qed.
End Reads.
