(* ===== verification/AccessTheory.v ===== *)
(** * Properties of access security

    The results the [INP] watcher keeps are those of the rules on the values last
    delivered, although only the rules that read a changed input are run again; the rule
    walk grants the strongest level an applicable rule gives, with the trap flag of the
    first rule that gives it. *)
From Stdlib Require Import SpecFloat.
From stdpp Require Import base tactics numbers list option strings gmap sets.
From S2P Require Import Prelude Float64 Alarm Strtod CalcOps CalcCode CalcPostfix CalcEval.
From S2P Require Import CalcTheory AccessSecurity CalcUsageTheory.

Open Scope Z_scope.

(** ** Rules and their programs *)

(** What the file reader keeps of every rule. *)
Record rule_ok `{Host} (r : AccessRule) : Prop := mkRuleOk {
  rule_compiled : is_some (calc_text r) = is_some (calc_compiled r);
  rule_usage : forall e, calc_compiled r = Some e ->
    ce_kind e = Numeric /\ arg_usage e = Some (inp_used r, 0);
}.

Lemma rule_holds_answer `{Host} `{Libm} e v previous sd :
  rule_holds e v previous sd =
  match answer (eval_vars (ce_code e) (mkNumericVars (vars v) (of_bool previous) (num_args v)) sd) with
  | Some (Ok x, s) => Some (calc_result_is_true x, s)
  | Some (Err _, s) => Some (false, s)
  | None => None
  end.
Proof. unfold rule_holds. by destruct (eval_vars _ _ _) as [[] ?| |]. Qed.

(** A rule's answer is the same on blocks that agree on the inputs it reads. *)
Lemma rule_holds_agrees `{Host} `{Libm} r e v w previous sd :
  rule_ok r -> calc_compiled r = Some e ->
  (forall i : nat, Z.testbit (inp_used r) (Z.of_nat i) = true -> vars v !! i = vars w !! i) ->
  num_args v = num_args w ->
  rule_holds e v previous sd = rule_holds e w previous sd.
Proof.
  intros Hr He Hv Hn. destruct (rule_usage r Hr e He) as [Hk Hu]. destruct e as [code kind].
  cbn [ce_kind] in Hk. subst kind. rewrite !rule_holds_answer. cbn [ce_code].
  by rewrite (eval_agrees code (inp_used r) Hu _ (mkNumericVars (vars w) (of_bool previous) (num_args w))).
Qed.

(** ** Bits *)

Lemma testbit_bit_of i n : 0 <= i -> 0 <= n -> Z.testbit (bit_of i) n = (i =? n).
Proof.
  intros Hi Hn. unfold bit_of. rewrite Z.shiftl_1_l.
  destruct (Z.eqb_spec i n) as [->|]; [by apply Z.pow2_bits_true|by apply Z.pow2_bits_false].
Qed.

Lemma land_bit_of i u : 0 <= i -> (Z.land (bit_of i) u =? 0) = negb (Z.testbit u i).
Proof.
  intros Hi. destruct (Z.testbit u i) eqn:Hu; cbn [negb].
  - apply Z.eqb_neq. intros He. apply (f_equal (fun z => Z.testbit z i)) in He.
    rewrite Z.land_spec, testbit_bit_of, Z.eqb_refl, Hu, Z.bits_0 in He by lia. discriminate He.
  - apply Z.eqb_eq, Z.bits_inj'. intros n Hn. rewrite Z.land_spec, testbit_bit_of, Z.bits_0 by lia.
    destruct (Z.eqb_spec i n) as [<-|]; [done|]. by destruct (Z.testbit u n).
Qed.

(** ** The inputs of a group *)

Lemma lookup_vec_resize (n : Z) (l : list bool) (i : nat) :
  (i < Z.to_nat n)%nat -> default false (vec_resize n false l !! i) = default false (l !! i).
Proof.
  intros Hi. unfold vec_resize. destruct (decide (i < length l)%nat) as [Hl|Hl].
  - by rewrite lookup_resize.
  - rewrite lookup_resize_new by lia. by rewrite (lookup_ge_None_2 l) by lia.
Qed.

Section Results.
Context `{Host} `{Libm}.

Lemma compute_results_lookup v ch : forall rs res sd res' sd',
  compute_results v ch rs res sd = Some (res', sd') -> (length rs <= length res)%nat ->
  forall i r, rs !! i = Some r ->
  exists s1 s2, compute_rule v ch r (default false (res !! i)) s1 = Some (default false (res' !! i), s2).
Proof.
  induction rs as [|r0 rs IH]; intros res sd res' sd' Hc Hl i r Hi; [done|].
  destruct res as [|x res]; [simpl in Hl; lia|]. cbn [compute_results] in Hc.
  destruct (compute_rule v ch r0 x sd) as [[y s1]|] eqn:Hx; [|done]. cbn in Hc.
  destruct (compute_results v ch rs res s1) as [[ys s2]|] eqn:Hy; [|done]. cbn in Hc.
  injection Hc as <- <-. destruct i as [|i]; simplify_eq/=; [eauto|].
  apply (IH _ _ _ _ Hy); [lia|done].
Qed.

(** What the events delivered to a group since its load leave an input at: the value of the
    last reading that was not invalid, and zero before one. *)
Definition last_reading (history : list (Z * InpEvent)) (k : nat) : f64 :=
  foldl (fun x ev =>
    match ev with
    | (index, Reading r) => if (index =? Z.of_nat k) && negb (bool_decide (severity r = Invalid)) then reading_value r else x
    | (_, Disconnected) => x
    end) f64_zero history.

Definition last_readings (history : list (Z * InpEvent)) : NumericVars :=
  all_vars (map (last_reading history) (seq 0 CALC_NARGS)) f64_zero.

(** No reading, good or invalid, of an input the rule reads has come. *)
Definition unread (history : list (Z * InpEvent)) (r : AccessRule) : Prop :=
  forall index event, (index, event) ∈ history -> Z.testbit (inp_used r) index = true -> event = Disconnected.

(** A rule's stored result is its answer on the last readings, from some previous result;
    or no reading of an input it reads has come, and its result is false. *)
Definition settled_rule (history : list (Z * InpEvent)) (s : AsgState) (i : nat) (r : AccessRule)
    (e : CompiledExpr) : Prop :=
  (exists previous s1 s2, rule_holds e (last_readings history) previous s1 = Some (rule_result s i, s2)) \/
  (rule_result s i = false /\ unread history r).

Record settled (rs : list AccessRule) (history : list (Z * InpEvent)) (s : AsgState) : Prop := mkSettled {
  settled_changed : changed s = 0;
  settled_values : values s = last_readings history;
  settled_rules : forall i r e, rs !! i = Some r -> ignore r = false -> calc_compiled r = Some e ->
    settled_rule history s i r e;
}.

Lemma settled_default rs : settled rs [] AsgState_default.
Proof.
  split; [done|by vm_compute|]. intros i r e _ _ _. right. split; [done|].
  intros index event Hin. by apply elem_of_nil in Hin.
Qed.

Lemma last_reading_snoc history index event k :
  last_reading (history ++ [(index, event)]) k =
  match event with
  | Reading r => if (index =? Z.of_nat k) && negb (bool_decide (severity r = Invalid)) then reading_value r
                 else last_reading history k
  | Disconnected => last_reading history k
  end.
Proof. unfold last_reading. rewrite foldl_snoc. by destruct event. Qed.

Lemma last_readings_lookup history k :
  vars (last_readings history) !! k = if decide (k < CALC_NARGS)%nat then Some (last_reading history k) else None.
Proof.
  unfold last_readings, all_vars. cbn [vars]. rewrite list_lookup_fmap. case_decide.
  - by rewrite lookup_seq_lt.
  - by rewrite lookup_seq_ge by lia.
Qed.

(** The argument block follows the readings. *)
Lemma apply_values s history index event :
  0 <= index -> values s = last_readings history ->
  values (apply s index event) = last_readings (history ++ [(index, event)]).
Proof.
  intros Hi Hv. assert (Hfix : (forall k, (k < CALC_NARGS)%nat ->
      last_reading (history ++ [(index, event)]) k = last_reading history k) ->
    last_readings history = last_readings (history ++ [(index, event)])).
  { intros Hk. unfold last_readings, all_vars. f_equal. apply map_ext_in.
    intros k Hin%in_seq. symmetry. apply Hk. lia. }
  unfold apply. destruct (Z.leb_spec (Z.of_nat CALC_NARGS) index) as [Hn|Hn].
  { rewrite Hv. apply Hfix. intros k Hk. rewrite last_reading_snoc.
    replace (index =? Z.of_nat k) with false by lia. by destruct event. }
  destruct event as [r|]; [case_bool_decide as Hr|]; cbn [values];
    [rewrite Hv; apply Hfix; intros k _; rewrite last_reading_snoc, bool_decide_true, andb_false_r by done; done|
    |rewrite Hv; apply Hfix; intros k _; by rewrite last_reading_snoc].
  rewrite Hv. unfold last_readings at 2 3 4, all_vars. cbn [prev_val num_args]. f_equal.
  apply list_eq. intros k.
  change (map (last_reading (history ++ [(index, Reading r)])) (seq 0 CALC_NARGS)) with
    (vars (last_readings (history ++ [(index, Reading r)]))).
  rewrite last_readings_lookup, last_reading_snoc, bool_decide_false, andb_true_r by done.
  destruct (decide (k = Z.to_nat index)) as [->|Hne].
  - rewrite list_lookup_insert_eq by (unfold last_readings, all_vars; cbn [vars]; rewrite length_map, length_seq; lia).
    rewrite decide_True by lia. by rewrite Z2Nat.id, Z.eqb_refl by lia.
  - rewrite list_lookup_insert_ne, last_readings_lookup by done.
    by rewrite (proj2 (Z.eqb_neq index (Z.of_nat k))) by lia.
Qed.

(** An event of an argument marks its input changed unless it is a disconnection. *)
Lemma apply_changed s index event :
  changed s = 0 ->
  results (apply s index event) = results s /\
  (changed (apply s index event) = 0 /\ (event = Disconnected \/ Z.of_nat CALC_NARGS <= index) \/
   changed (apply s index event) = bit_of index).
Proof.
  intros Hc. unfold apply. destruct (Z.leb_spec (Z.of_nat CALC_NARGS) index); [by auto|].
  destruct event as [r|]; [destruct (bool_decide _)|]; cbn [results changed]; rewrite ?Hc, ?Z.lor_0_l; auto.
Qed.

(** A program reads only arguments. *)
Lemma usage_bounded ops n : Z.of_nat CALC_NARGS <= n -> forall u : Z * Z,
  Z.testbit (fst u) n = false -> Z.testbit (fst (foldl (fun u (i : nat * Opcode.t) => usage_step u (snd i)) u ops)) n = false.
Proof.
  intros Hn. induction ops as [|[pc op] ops IH]; intros u Hu; [done|]. cbn [foldl]. apply IH.
  destruct u as [a b]. cbn [fst snd] in *. unfold usage_step.
  repeat case_match; try done; cbn [fst]; rewrite Z.lor_spec, Hu, Z.ldiff_spec; unfold bit_of;
    rewrite Z.shiftl_1_l, Z.pow2_bits_false by lia; done.
Qed.

Lemma rule_reads_arguments r e index :
  rule_ok r -> calc_compiled r = Some e -> Z.testbit (inp_used r) index = true -> index < Z.of_nat CALC_NARGS.
Proof.
  intros Hr He Hb. destruct (rule_usage r Hr e He) as [_ Hu]. unfold arg_usage in Hu.
  destruct (instructions _ _) as [ops|]; [|done]. cbn in Hu. injection Hu as Hu.
  destruct (Z.ltb_spec index (Z.of_nat CALC_NARGS)); [done|].
  pose proof (usage_bounded ops index ltac:(done) (0, 0) (Z.bits_0 index)) as Hf.
  rewrite Hu in Hf. cbn [fst] in Hf. congruence.
Qed.

Lemma compute_lookup s rs sd s' sd' i r :
  compute s rs sd = Some (s', sd') -> rs !! i = Some r ->
  values s' = values s /\ good s' = good s /\ changed s' = 0 /\
  exists s1 s2, compute_rule (values s) (changed s) r (rule_result s i) s1 = Some (rule_result s' i, s2).
Proof.
  unfold compute. intros Hc Hi.
  destruct (compute_results _ _ _ _ _) as [[res s2]|] eqn:Hr; [|done]. cbn in Hc. injection Hc as <- <-.
  do 3 (split; [done|]).
  destruct (compute_results_lookup _ _ _ _ _ _ _ Hr) with (2 := Hi) as (s1 & s3 & Hx).
  { pose proof (len_vec_resize (len rs) false (results s)). lia. }
  apply lookup_lt_Some in Hi. rewrite lookup_vec_resize in Hx by lia. by exists s1, s3.
Qed.

Lemma settled_step rs history s index event sd s' sd' :
  Forall rule_ok rs -> settled rs history s -> 0 <= index ->
  compute (apply s index event) rs sd = Some (s', sd') -> settled rs (history ++ [(index, event)]) s'.
Proof.
  intros Hok [Hch Hv Hs] Hi Hc. destruct (apply_changed s index event Hch) as [Hre Hbit].
  pose proof (apply_values s history index event Hi Hv) as Hav.
  assert (Hnew : changed s' = 0 /\ values s' = values (apply s index event)).
  { revert Hc. unfold compute. destruct (compute_results _ _ _ _ _) as [[]|]; [|done]. cbn. by intros [= <- <-]. }
  destruct Hnew as [Hch' Hv']. split; [done|congruence|].
  intros i r e Hr Hign He.
  destruct (compute_lookup _ _ _ _ _ _ _ Hc Hr) as (_ & _ & _ & s1 & s2 & Hx).
  pose proof (proj1 (list.Forall_lookup _ _) Hok _ _ Hr) as Hrok.
  unfold compute_rule in Hx. rewrite Hign, He in Hx. cbn [orb] in Hx.
  destruct (Z.land (changed (apply s index event)) (inp_used r) =? 0) eqn:Hu; cycle 1.
  { left. rewrite <- Hav. eauto. }
  injection Hx as Hx _. replace (rule_result (apply s index event) i) with (rule_result s i) in Hx
    by (unfold rule_result; by rewrite Hre).
  unfold settled_rule. rewrite <- Hx.
  assert (Hread : Z.testbit (inp_used r) index = true -> event = Disconnected).
  { intros Ht. pose proof (rule_reads_arguments r e index Hrok He Ht) as Hlt.
    destruct Hbit as [[_ [?|?]]|Hb]; [done|lia|]. rewrite Hb, land_bit_of, Ht in Hu by done. discriminate Hu. }
  destruct (Hs i r e Hr Hign He) as [(p & t1 & t2 & Hh)|[Hf Hl]].
  - left. exists p, t1, t2. rewrite <- Hh.
    apply (rule_holds_agrees r e); [done|done| |done].
    intros k Hk. rewrite !last_readings_lookup, last_reading_snoc. destruct event as [rd|]; [|done].
    destruct (Z.eqb_spec index (Z.of_nat k)) as [->|]; [|done]. discriminate (Hread Hk).
  - right. split; [done|]. intros ix ev Hin Ht. apply elem_of_app in Hin as [Hin|Hin]; [by apply (Hl ix)|].
    apply list_elem_of_singleton in Hin. injection Hin as -> ->. by apply Hread.
Qed.

(** Every state the watcher publishes for a group is settled. *)
Lemma deliver_events_settled rs : Forall rule_ok rs -> forall events history s sd s' sd',
  settled rs history s -> Forall (fun ev => 0 <= fst ev) events ->
  deliver_events rs s events sd = Some (s', sd') -> settled rs (history ++ events) s'.
Proof.
  intros Hok. induction events as [|[index event] events IH]; intros history s sd s' sd' Hs Hi Hd; cbn [deliver_events] in Hd.
  { rewrite app_nil_r. by injection Hd as <- <-. }
  inversion Hi as [|? ? H1 H2]; subst.
  destruct (compute (apply s index event) rs sd) as [[t t']|] eqn:Hc; [|done]. cbn in Hd.
  rewrite cons_middle, app_assoc.
  apply (IH _ _ _ _ _ (settled_step _ _ _ _ _ _ _ _ Hok Hs H1 Hc) H2 Hd).
Qed.
End Results.

(** ** The rule walk *)

(** Whether a rule is for this client and record, in the state of its group. *)
Definition rule_applies (cfg : AccessSecurityConfig) (s : AsgState) (bad : Z) (c : Client) (record_asl : Z)
    (ix : nat) (r : AccessRule) : bool :=
  negb (ignore r) && (record_asl <=? level r) && user_match cfg c r && host_match cfg c r &&
  method_match c r && authority_match c r &&
  (negb (is_some (calc_text r)) || ((Z.land bad (inp_used r) =? 0) && rule_result s ix)).

Section Walk.
Variables (cfg : AccessSecurityConfig) (s : AsgState) (bad : Z) (c : Client) (record_asl : Z).
Abbreviation applies := (rule_applies cfg s bad c record_asl).
Abbreviation rank_of r := (rule_rank (rule_access r)).

Lemma rank_write l : rule_rank l <= rule_rank ReadWrite.
Proof. by destruct l. Qed.

(** One round: it stops at write access, takes a stronger rule that applies, or goes on. *)
Lemma walk_rule_cases ix r acc :
  match walk_rule cfg s bad c record_asl ix r acc with
  | None => fst acc = ReadWrite
  | Some acc' =>
      (acc' = acc /\ (applies ix r = true -> rank_of r <= rule_rank (fst acc))) \/
      (acc' = (rule_access r, trap r) /\ applies ix r = true /\ rule_rank (fst acc) < rank_of r)
  end.
Proof.
  unfold walk_rule, rule_applies. destruct acc as [a t]. cbn [fst].
  destruct (ignore r); [by left|]. cbn [negb andb].
  case_bool_decide; [done|].
  destruct (Z.leb_spec (rank_of r) (rule_rank a)); [by left|].
  destruct (Z.ltb_spec (level r) record_asl).
  { left. split; [done|]. replace (record_asl <=? level r) with false by lia. done. }
  replace (record_asl <=? level r) with true by lia.
  destruct (user_match cfg c r); [|by left]. destruct (host_match cfg c r); [|by left].
  destruct (method_match c r); [|by left]. destruct (authority_match c r); [|by left].
  cbn [negb andb].
  destruct (is_some (calc_text r)), (Z.land bad (inp_used r) =? 0), (rule_result s ix); cbn [negb andb orb];
    (by left) || (right; repeat split; lia).
Qed.

(** What the walk from [ix] has found when it ends. *)
Lemma walk_rules_spec : forall rs ix acc,
  let out := walk_rules cfg s bad c record_asl ix rs acc in
  rule_rank (fst acc) <= rule_rank (fst out) /\
  (forall i r, rs !! i = Some r -> applies (ix + i) r = true -> rank_of r <= rule_rank (fst out)) /\
  (out = acc \/
   exists i r, rs !! i = Some r /\ applies (ix + i) r = true /\ out = (rule_access r, trap r) /\
     rule_rank (fst acc) < rule_rank (fst out) /\
     forall j r', (j < i)%nat -> rs !! j = Some r' -> applies (ix + j) r' = true ->
       rank_of r' < rule_rank (fst out)).
Proof.
  induction rs as [|r rs IH]; intros ix acc; cbn [walk_rules].
  { split; [lia|]. split; [done|by left]. }
  pose proof (walk_rule_cases ix r acc) as Hc.
  destruct (walk_rule cfg s bad c record_asl ix r acc) as [acc'|] eqn:Hw; cycle 1.
  { cbv zeta. split; [lia|]. split; [|by left]. intros i r' _ _. rewrite Hc. apply rank_write. }
  destruct (IH (S ix) acc') as (Hle & Hall & Hout). cbv zeta.
  set (out := walk_rules cfg s bad c record_asl (S ix) rs acc') in *.
  assert (Hhead : applies ix r = true -> rank_of r <= rule_rank (fst acc')).
  { destruct Hc as [[-> H]|[-> _]]; [done|]. cbn [fst]. lia. }
  assert (Hacc : rule_rank (fst acc) <= rule_rank (fst acc')).
  { destruct Hc as [[-> _]|(-> & _ & H)]; cbn [fst]; lia. }
  split; [lia|]. split.
  { intros [|i] r' Hi Ha; simplify_eq/=.
    - rewrite Nat.add_0_r in Ha. specialize (Hhead Ha). lia.
    - apply (Hall i r' Hi). by rewrite Nat.add_succ_r in Ha. }
  destruct Hout as [-> |(i & r' & Hi & Ha & Ho & Hlt & Hbefore)].
  - destruct Hc as [[-> _]|(-> & Ha & Hlt)]; [by left|right].
    exists 0%nat, r. rewrite Nat.add_0_r. do 4 (split; [done|]). intros j. lia.
  - right. exists (S i), r'. rewrite Nat.add_succ_r. do 3 (split; [done|]). split; [lia|].
    intros [|j] r2 Hj Hr2 Ha2; simplify_eq/=.
    + rewrite Nat.add_0_r in Ha2. specialize (Hhead Ha2). lia.
    + apply (Hbefore j r2); [lia|done|]. by rewrite Nat.add_succ_r in Ha2.
Qed.
End Walk.

(** The state and the bad inputs a check of a group reads. *)
Abbreviation applies_now st cfg g := (rule_applies cfg (state_of st g) (inp_bad st g)).

(** What [rule_applies] asks, one by one. *)
Lemma rule_applies_parts cfg s bad c record_asl ix r :
  rule_applies cfg s bad c record_asl ix r = true ->
  ignore r = false /\ record_asl <= level r /\ user_match cfg c r = true /\ host_match cfg c r = true /\
  method_match c r = true /\ authority_match c r = true /\
  (forall text, calc_text r = Some text -> Z.land bad (inp_used r) = 0 /\ rule_result s ix = true).
Proof.
  unfold rule_applies. rewrite !andb_true_iff. intros ((((((Hi & Hl) & Hu) & Hh) & Hm) & Ha) & Hc).
  apply negb_true_iff in Hi. apply Z.leb_le in Hl. do 6 (split; [done|]).
  intros text Ht. rewrite Ht in Hc. cbn [is_some negb orb] in Hc.
  apply andb_prop in Hc as [Hb Hr]. by apply Z.eqb_eq in Hb.
Qed.

(** An access that is granted comes from a rule that applies. *)
Lemma grant_has_rule st cfg g c record_asl lvl trapped :
  compute_rules st cfg g c record_asl = (lvl, trapped) -> lvl <> NoAccess ->
  exists i r, rules g !! i = Some r /\ applies_now st cfg g c record_asl i r = true /\
    rule_access r = lvl /\ trap r = trapped.
Proof.
  unfold compute_rules. intros Hw Hl.
  pose proof (walk_rules_spec cfg (state_of st g) (inp_bad st g) c record_asl (rules g) 0 (NoAccess, false))
    as (_ & _ & [Ho|(i & r & Hi & Ha & Ho & _)]); rewrite Hw in Ho;
    [by simplify_eq|]. exists i, r. injection Ho as -> ->. done.
Qed.

(** C24: A check grants the strongest access any applicable rule of the group gives, none when
    no rule applies, and the trap flag is that of the first applicable rule giving it.  A rule
    applies to the records whose level is at most its own. *)
Theorem check_grants_strongest_rule st cfg g c record_asl :
  let '(lvl, trapped) := compute_rules st cfg g c record_asl in
  (forall i r, rules g !! i = Some r -> applies_now st cfg g c record_asl i r = true ->
     rule_rank (rule_access r) <= rule_rank lvl) /\
  ((lvl = NoAccess /\ trapped = false) \/
   exists i r, rules g !! i = Some r /\ applies_now st cfg g c record_asl i r = true /\
     rule_access r = lvl /\ trap r = trapped /\
     forall j r', (j < i)%nat -> rules g !! j = Some r' ->
       applies_now st cfg g c record_asl j r' = true -> rule_rank (rule_access r') < rule_rank lvl).
Proof.
  unfold compute_rules.
  pose proof (walk_rules_spec cfg (state_of st g) (inp_bad st g) c record_asl (rules g) 0 (NoAccess, false))
    as (_ & Hall & Hout).
  destruct (walk_rules _ _ _ _ _ _ _ _) as [lvl trapped]. cbn [fst] in *. split; [exact Hall|].
  destruct Hout as [Ho|(i & r & Hi & Ha & Ho & _ & Hb)]; simplify_eq; [by left|right].
  exists i, r. do 4 (split; [done|]). exact Hb.
Qed.
