(* ===== verification/AcfScanTheory.v ===== *)
(** * The access security file: every parse ends

    A small program logic for the parsers of the file: a parser never panics nor runs out of
    fuel, and moves the cursor forward.  Its rules for the scanner and the tokens are here;
    the grammar's are in the next file. *)
From Stdlib Require Import SpecFloat.
From stdpp Require Import base tactics numbers list option strings gmap.
From S2P Require Import Prelude Float64 PvaText Strtod CalcOps CalcCode CalcPostfix CalcEval CalcTheory.
From S2P Require Import AccessSecurity AcfParse.

Open Scope Z_scope.

(** ** Outcomes *)

Definition wp {A : Type} (o : outcome A) (Q : A -> AcfScanner -> Prop) : Prop :=
  match o with
  | Parsed a sc => Q a sc
  | Rejected _ _ => True
  | ParsePanics | ParseStuck => False
  end.

Lemma wp_mono {A} (o : outcome A) (P Q : A -> AcfScanner -> Prop) :
  wp o P -> (forall a sc, P a sc -> Q a sc) -> wp o Q.
Proof. destruct o; simpl; auto. Qed.

(** The rule of sequence. *)
Lemma wp_then {A B} (m : Parser A) (f : A -> Parser B) sc P Q :
  wp (m sc) P -> (forall a sc', P a sc' -> wp (f a sc') Q) -> wp ((m ≫= f) sc) Q.
Proof.
  unfold mbind, parser_bind. destruct (m sc) as [a sc'| | |]; simpl; auto.
Qed.

Lemma wp_reject {A} sc (Q : A -> AcfScanner -> Prop) : wp (reject sc) Q.
Proof. exact I. Qed.

Lemma wp_read {A B} (g : AcfScanner -> A) (f : A -> Parser B) sc Q :
  wp (f (g sc) sc) Q -> wp ((read_only g ≫= f) sc) Q.
Proof. done. Qed.

(** ** Where the cursor is *)

Definition sc_ok (sc : AcfScanner) : Prop := (pos sc <= length (src sc))%nat.

(** The cursor has gone on by [k] bytes or more, in the same file. *)
Definition past (sc : AcfScanner) (k : nat) (sc' : AcfScanner) : Prop :=
  src sc' = src sc /\ (pos sc + k <= pos sc')%nat /\ sc_ok sc'.

Lemma past_refl sc : sc_ok sc -> past sc 0 sc.
Proof. unfold past. auto with lia. Qed.

Lemma past_trans sc j sc1 k sc2 i :
  past sc j sc1 -> past sc1 k sc2 -> (i <= j + k)%nat -> past sc i sc2.
Proof.
  intros (H1 & H2 & H3) (H4 & H5 & H6) Hi. unfold past.
  split; [congruence|]. split; [lia|done].
Qed.

Lemma past_weaken sc k sc' j : past sc k sc' -> (j <= k)%nat -> past sc j sc'.
Proof. intros (H1 & H2 & H3) Hj. unfold past. split; [done|]. split; [lia|done]. Qed.

Lemma past_ok sc k sc' : past sc k sc' -> sc_ok sc'.
Proof. by intros (_ & _ & H). Qed.

Lemma past_fuel sc k sc' fuel :
  past sc k sc' -> (length (src sc) < fuel + pos sc + k)%nat -> (length (src sc') < fuel + pos sc')%nat.
Proof. intros (-> & H & _) Hf. lia. Qed.

Create HintDb acf.
#[export] Hint Resolve past_refl past_ok : acf.

(** A change of the diagnostics keeps the cursor. *)
Definition same (sc sc' : AcfScanner) : Prop := src sc' = src sc /\ pos sc' = pos sc.

Lemma same_past sc sc' : sc_ok sc -> same sc sc' -> past sc 0 sc'.
Proof. unfold past, sc_ok. intros H [-> ->]. split; [done|]. lia. Qed.

Lemma same_cursor sc sc' : same sc sc' -> at_cursor sc' = at_cursor sc.
Proof. unfold at_cursor. by intros [-> ->]. Qed.

Lemma same_name_run sc sc' : same sc sc' -> name_run sc' = name_run sc.
Proof. unfold name_run. intros H. by rewrite (same_cursor _ _ H). Qed.

Lemma past_same sc k sc1 sc2 : same sc sc1 -> past sc1 k sc2 -> past sc k sc2.
Proof. unfold past. intros [-> ->]. done. Qed.
#[export] Hint Resolve same_past : acf.

(** A byte at the cursor leaves room. *)
Lemma head_room sc c : head (at_cursor sc) = Some c -> (pos sc < length (src sc))%nat.
Proof.
  unfold at_cursor. intros Hh. destruct (decide (pos sc < length (src sc))%nat); [done|].
  rewrite drop_ge in Hh by lia. done.
Qed.

Lemma wp_next sc : sc_ok sc ->
  wp (next sc) (fun c sc' => c = head (at_cursor sc) /\ past sc (if c then 1 else 0) sc').
Proof.
  intros Hs. unfold next. destruct (head (at_cursor sc)) as [c|] eqn:Hh; simpl; split; auto with acf.
  apply head_room in Hh. unfold past, sc_ok. simpl. split; [done|lia].
Qed.

(** [next] where a byte is known to be there. *)
Lemma wp_next_some sc c : head (at_cursor sc) = Some c -> wp (next sc) (fun _ sc' => past sc 1 sc').
Proof.
  intros Hh. eapply wp_mono; [apply wp_next|]; [apply head_room in Hh; unfold sc_ok; lia|].
  intros x sc' [-> Hp]. by rewrite Hh in Hp.
Qed.

Lemma wp_peek {B} sc (f : option Z -> Parser B) Q :
  wp (f (head (at_cursor sc)) sc) Q -> wp ((peek ≫= f) sc) Q.
Proof. done. Qed.

Lemma wp_ret {A} (a : A) sc Q : Q a sc -> wp ((mret a : Parser A) sc) Q.
Proof. done. Qed.

Lemma wp_error why sc : wp (error why sc) (fun _ sc' => same sc sc').
Proof. done. Qed.

Lemma wp_error_where why sc : wp (error_saying_where why sc) (fun _ sc' => same sc sc').
Proof. done. Qed.

Lemma wp_refuse why sc : wp (refuse why sc) (fun _ sc' => same sc sc').
Proof. done. Qed.

Lemma wp_warn what token sc : wp (warn what token sc) (fun _ sc' => same sc sc').
Proof. unfold warn, modify, warn_at. simpl. by case_match. Qed.

Lemma wp_push_duplicates u h sc : wp (push_duplicates u h sc) (fun _ sc' => same sc sc').
Proof. done. Qed.

(** ** Numbers *)

Lemma span_spec f l a b : span f l = (a, b) ->
  l = a ++ b /\ forallb f a = true /\ match b with [] => True | c :: _ => f c = false end.
Proof.
  revert a b. induction l as [|c l IH]; intros a b; cbn [span].
  - by intros [= <- <-].
  - destruct (f c) eqn:Hc; [|by intros [= <- <-]].
    destruct (span f l) as [a' b'] eqn:Hs. intros [= <- <-].
    destruct (IH a' b' eq_refl) as (-> & Ha & Hb). split; [done|]. split; [|done].
    cbn [forallb]. by rewrite Hc, Ha.
Qed.

Lemma number_decimal run : is_acf_number run = true -> is_Some (parse_f64_abs run).
Proof.
  unfold is_acf_number, parse_f64_abs, decimal.
  destruct (span is_ascii_digit (skip_sign run)) as [int t].
  destruct t as [|c t].
  { rewrite app_nil_r. destruct int as [|d int]; [done|]. intros _. simpl. eauto. }
  destruct (c =? 46); [|done]. cbn [negb].
  destruct (span is_ascii_digit t) as [frac t']. case_bool_decide as Hf; [done|]. intros _.
  destruct (int ++ frac) as [|d ds] eqn:Hd; [by apply app_eq_nil in Hd as [_ ->]|].
  repeat case_match; simplify_eq/=; eauto.
Qed.

Lemma number_error_total run : is_Some (number_error run).
Proof.
  unfold number_error. destruct (is_acf_number run) eqn:Hn; simpl; [|eauto].
  destruct (negb (existsb (Z.eqb 46) run)); [eauto|].
  destruct (number_decimal _ Hn) as [v ->]. simpl. eauto.
Qed.

(** A number the lexer passes, without a point, is an [i64]. *)
Lemma number_parses n : is_acf_number n = true -> number_error n = Some None ->
  existsb (Z.eqb 46) n = false -> is_Some (parse_i64 n).
Proof.
  unfold number_error. intros -> He Hd. rewrite Hd in He. cbn [negb] in He.
  destruct (parse_i64 n); [eauto|done].
Qed.

(** ** What the lexer drops *)

(** The cursor is at a token, at punctuation or at the end. *)
Definition at_token (sc : AcfScanner) : Prop :=
  match head (at_cursor sc) with
  | None => True
  | Some c => is_acf_name_char c = true -> c <> 34 -> number_error (name_run sc) = Some None
  end.

Lemma quoted_end_bounds : forall l i k, quoted_end_from l i = Newline k -> (i <= k < i + length l)%nat.
Proof.
  refine (Fix (well_founded_ltof _ (@length Z)) _ _). intros l IH i k. unfold ltof in IH.
  destruct l as [|c l]; [done|]. cbn [quoted_end_from length].
  destruct (c =? 34); [done|]. destruct (c =? 10); [intros [= <-]; lia|].
  destruct (c =? 92).
  - destruct l as [|d l]; [done|]. destruct (d =? 10); [done|]. intros He.
    apply IH in He; cbn [length] in *; lia.
  - intros He. apply IH in He; cbn [length] in *; lia.
Qed.

Lemma skip_comment_wp : forall fuel sc, sc_ok sc -> (length (src sc) < fuel + pos sc)%nat ->
  wp (skip_comment fuel sc) (fun _ sc' => past sc 0 sc').
Proof.
  induction fuel as [|fuel IH]; intros sc Hs Hf; [unfold sc_ok in Hs; lia|]. cbn [skip_comment].
  apply wp_peek. destruct (head (at_cursor sc)) as [c|] eqn:Hh; [|by apply past_refl].
  destruct (c =? 10); [by apply past_refl|].
  eapply wp_then; [by eapply wp_next_some|]. intros ? sc1 H1.
  eapply wp_mono; [apply IH; [exact (past_ok _ _ _ H1)|by eapply past_fuel; [exact H1|lia]]|].
  intros ? sc2 H2. by eapply past_trans; [exact H1|exact H2|lia].
Qed.

Lemma skip_comment_moves fuel sc : head (at_cursor sc) = Some 35 ->
  (length (src sc) < fuel + pos sc)%nat -> wp (skip_comment fuel sc) (fun _ sc' => past sc 1 sc').
Proof.
  intros Hh Hf. pose proof (head_room _ _ Hh). destruct fuel as [|fuel]; [lia|]. cbn [skip_comment].
  apply wp_peek. rewrite Hh. cbn [Z.eqb Pos.eqb].
  eapply wp_then; [by eapply wp_next_some|]. intros ? sc1 H1.
  eapply wp_mono; [apply skip_comment_wp; [exact (past_ok _ _ _ H1)|by eapply past_fuel; [exact H1|lia]]|].
  intros ? sc2 H2. by eapply past_trans; [exact H1|exact H2|lia].
Qed.

Lemma skip_through_wp newline : forall fuel sc, sc_ok sc -> (newline < length (src sc))%nat ->
  (length (src sc) < fuel + pos sc)%nat ->
  wp (skip_through fuel newline sc) (fun _ sc' => past sc (S newline - pos sc) sc').
Proof.
  induction fuel as [|fuel IH]; intros sc Hs Hn Hf; [unfold sc_ok in Hs; lia|]. cbn [skip_through].
  apply wp_read. destruct (Nat.leb_spec (pos sc) newline) as [Hp|Hp].
  - eapply wp_then.
    { apply (wp_next_some sc (nth (pos sc) (src sc) 0)). unfold at_cursor.
      rewrite <- (firstn_skipn (pos sc) (src sc)) at 2. rewrite app_nth2; rewrite length_take; [|lia].
      destruct (drop (pos sc) (src sc)) as [|c l] eqn:Hd.
      { apply (f_equal length) in Hd. rewrite length_drop in Hd. cbn [length] in Hd. lia. }
      replace (pos sc - pos sc `min` length (src sc))%nat with O by lia. done. }
    intros ? sc1 H1. pose proof H1 as (Hsrc & Hpos & Hok).
    eapply wp_mono; [apply IH; [done|by rewrite Hsrc|by eapply past_fuel; [exact H1|lia]]|].
    intros ? sc2 (E2 & P2 & O2). split; [congruence|]. split; [lia|done].
  - apply wp_ret. eapply past_weaken; [by apply past_refl|lia].
Qed.

Lemma span_length f l : (length (fst (span f l)) <= length l)%nat.
Proof.
  destruct (span f l) as [a b] eqn:Hs. apply span_spec in Hs as (-> & _). rewrite length_app. cbn [fst]. lia.
Qed.

Lemma name_run_length sc : (length (name_run sc) <= length (src sc) - pos sc)%nat.
Proof. unfold name_run, at_cursor. rewrite span_length, length_drop. done. Qed.

Lemma name_run_nonempty sc c : head (at_cursor sc) = Some c -> is_acf_name_char c = true ->
  (0 < length (name_run sc))%nat.
Proof.
  unfold name_run. destruct (at_cursor sc) as [|d l]; [done|]. intros [= ->] Hc. cbn [span]. rewrite Hc.
  destruct (span is_acf_name_char l). simpl. lia.
Qed.

Lemma wp_skip_run sc : sc_ok sc -> wp (skip_run (length (name_run sc)) sc) (fun _ sc' => past sc (length (name_run sc)) sc').
Proof. intros Hs. pose proof (name_run_length sc). unfold sc_ok in Hs. split; [done|]. unfold sc_ok. simpl. lia. Qed.

(** One round goes on past a byte, or stops where it is, at a token. *)
Lemma skip_one_wp sc c : head (at_cursor sc) = Some c ->
  wp (skip_one c sc) (fun stop sc' => if stop : bool then sc' = sc /\ at_token sc else past sc 1 sc').
Proof.
  intros Hh. pose proof (head_room _ _ Hh) as Hroom. assert (Hs : sc_ok sc) by (unfold sc_ok; lia).
  assert (Hf : (length (src sc) < fuel_of sc + pos sc)%nat) by (unfold fuel_of; lia).
  unfold skip_one. apply wp_read.
  destruct (is_acf_space c) eqn:Hsp. { eapply wp_then; [by eapply wp_next_some|auto]. }
  destruct (Z.eqb_spec c 35) as [->|_].
  { eapply wp_then; [by apply skip_comment_moves|auto]. }
  destruct (is_punctuation c) eqn:Hp.
  { apply wp_ret. split; [done|]. unfold at_token. rewrite Hh. intros Hn. exfalso.
    unfold is_punctuation in Hp. cbn [existsb] in Hp.
    assert (Hc : c = 40 \/ c = 41 \/ c = 123 \/ c = 125 \/ c = 44) by lia.
    destruct Hc as [->|[->|[->|[->| ->]]]]; discriminate Hn. }
  destruct (Z.eqb_spec c 34) as [->|Hq].
  { apply wp_read. destruct (quoted_end sc) as [|k|] eqn:He.
    - apply wp_ret. split; [done|]. unfold at_token. by rewrite Hh.
    - apply quoted_end_bounds in He. rewrite length_drop in He.
      eapply wp_then; [apply wp_error|]. intros ? sc1 H1. pose proof H1 as [Hsrc Hpos].
      eapply wp_then; [apply (skip_through_wp k)|].
      + exact (past_ok _ _ _ (same_past _ _ Hs H1)).
      + rewrite Hsrc. lia.
      + rewrite Hsrc, Hpos. done.
      + intros ? sc2 H2. apply wp_ret. eapply past_same; [exact H1|].
        eapply past_weaken; [exact H2|]. rewrite Hpos. lia.
    - eapply wp_then; [apply wp_error|]. intros ? sc1 H1.
      eapply wp_then; [apply (wp_next_some sc1 34); by rewrite (same_cursor _ _ H1)|].
      intros ? sc2 H2. apply wp_ret. exact (past_same _ _ _ _ H1 H2). }
  destruct (is_acf_name_char c) eqn:Hn; cycle 1.
  { eapply wp_then; [apply wp_error|]. intros ? sc1 H1.
    eapply wp_then; [apply (wp_next_some sc1 c); by rewrite (same_cursor _ _ H1)|].
    intros ? sc2 H2. apply wp_ret. exact (past_same _ _ _ _ H1 H2). }
  apply wp_read. destruct (number_error_total (name_run sc)) as [o Ho]. rewrite Ho.
  destruct o as [why|]; cycle 1.
  { apply wp_ret. split; [done|]. unfold at_token. by rewrite Hh. }
  eapply wp_then; [apply wp_error|]. intros ? sc1 H1.
  rewrite <- (same_name_run _ _ H1).
  eapply wp_then; [apply wp_skip_run; exact (past_ok _ _ _ (same_past _ _ Hs H1))|].
  intros ? sc2 H2. apply wp_ret. eapply past_same; [exact H1|].
  eapply past_weaken; [exact H2|]. rewrite (same_name_run _ _ H1).
  pose proof (name_run_nonempty _ _ Hh Hn). lia.
Qed.

Lemma skip_loop_wp : forall fuel sc, sc_ok sc -> (length (src sc) < fuel + pos sc)%nat ->
  wp (skip_loop fuel sc) (fun _ sc' => past sc 0 sc' /\ at_token sc').
Proof.
  induction fuel as [|fuel IH]; intros sc Hs Hf; [unfold sc_ok in Hs; lia|]. cbn [skip_loop].
  apply wp_peek. destruct (head (at_cursor sc)) as [c|] eqn:Hh.
  - eapply wp_then; [by apply skip_one_wp|]. intros [|] sc1 H1.
    + destruct H1 as [-> Ht]. apply wp_ret. split; [by apply past_refl|done].
    + eapply wp_mono; [apply IH; [exact (past_ok _ _ _ H1)|by eapply past_fuel; [exact H1|lia]]|].
      intros ? sc2 [H2 Ht]. split; [|done]. by eapply past_trans; [exact H1|exact H2|lia].
  - apply wp_ret. split; [by apply past_refl|]. unfold at_token. by rewrite Hh.
Qed.

Lemma acf_fuel_enough sc : (length (src sc) < fuel_of sc + pos sc)%nat.
Proof. unfold fuel_of. lia. Qed.

Lemma skip_ws_wp sc : sc_ok sc -> wp (skip_ws_comments sc) (fun _ sc' => past sc 0 sc' /\ at_token sc').
Proof. intros Hs. apply wp_read, skip_loop_wp; [done|apply acf_fuel_enough]. Qed.

Lemma quoted_loop_wp : forall fuel body sc, sc_ok sc -> (length (src sc) < fuel + pos sc)%nat ->
  wp (quoted_loop fuel body sc) (fun _ sc' => past sc 0 sc').
Proof.
  induction fuel as [|fuel IH]; intros body sc Hs Hf; [unfold sc_ok in Hs; lia|]. cbn [quoted_loop].
  eapply wp_then; [by apply wp_next|]. intros [c|] sc1 [_ H1]; [|by apply wp_ret].
  assert (Hback : forall b sc2, past sc1 0 sc2 -> wp (quoted_loop fuel b sc2) (fun _ sc' => past sc 0 sc')).
  { intros b sc2 H2. eapply wp_mono; [apply IH; [exact (past_ok _ _ _ H2)|]|].
    - destruct H1 as (E1 & P1 & _), H2 as (E2 & P2 & _). rewrite E2, E1. lia.
    - intros ? sc3 H3. apply (past_trans sc 1 sc1 0 sc3); [exact H1| |lia].
      by apply (past_trans sc1 0 sc2 0 sc3); [exact H2|exact H3|lia]. }
  destruct (c =? 34); [apply wp_ret; by eapply past_weaken; [exact H1|lia]|].
  destruct (c =? 92); [|apply Hback; exact (past_refl _ (past_ok _ _ _ H1))].
  eapply wp_then; [apply wp_next; exact (past_ok _ _ _ H1)|]. intros d sc2 [_ H2]. apply Hback.
  by eapply past_weaken; [exact H2|lia].
Qed.

(** ** Tokens *)

(** What the lexer promises of a token. *)
Definition token_ok (t : Token.t) : Prop :=
  match t with
  | Token.Number n => is_acf_number n = true /\ number_error n = Some None
  | _ => True
  end.

Lemma read_token_wp sc : sc_ok sc ->
  wp (read_token sc) (fun t sc' => match t with
                                   | Some t => token_ok t /\ past sc 1 sc'
                                   | None => past sc 0 sc'
                                   end).
Proof.
  intros Hs. unfold read_token. eapply wp_then; [by apply skip_ws_wp|]. intros ? sc1 [H1 Ht].
  apply wp_peek. destruct (head (at_cursor sc1)) as [c|] eqn:Hh; [|by apply wp_ret].
  destruct (Z.eqb_spec c 34) as [->|Hq].
  - unfold quoted. eapply wp_then; [eapply wp_then; [by eapply wp_next_some|]|].
    + intros ? sc2 H2. apply wp_read.
      eapply (wp_mono _ _ (fun _ sc' => past sc 1 sc')); [apply quoted_loop_wp; [exact (past_ok _ _ _ H2)|apply acf_fuel_enough]|].
      intros ? sc3 H3. apply (past_trans sc 0 sc1 1 sc3); [exact H1| |lia].
      by apply (past_trans sc1 1 sc2 0 sc3); [exact H2|exact H3|lia].
    + intros b sc2 H2. apply wp_ret. by split.
  - destruct (is_acf_name_char c) eqn:Hn; [|by apply wp_ret]. apply wp_read.
    unfold at_token in Ht. rewrite Hh in Ht. specialize (Ht Hn Hq).
    eapply wp_then; [apply wp_skip_run; exact (past_ok _ _ _ H1)|]. intros ? sc2 H2. apply wp_ret.
    pose proof (name_run_nonempty _ _ Hh Hn).
    split; [|by eapply past_trans; [exact H1|exact H2|lia]].
    destruct (is_acf_number (name_run sc1)) eqn:Hnum; [by split|].
    by destruct (is_acf_keyword (name_run sc1)).
Qed.

Lemma expect_wp want sc : sc_ok sc -> wp (expect want sc) (fun _ sc' => past sc 1 sc').
Proof.
  intros Hs. unfold expect. eapply wp_then; [by apply skip_ws_wp|]. intros ? sc1 [H1 _]. apply wp_peek.
  case_bool_decide as Hh; [|exact I]. eapply wp_then; [by eapply wp_next_some|].
  intros ? sc2 H2. apply wp_ret. by eapply past_trans; [exact H1|exact H2|lia].
Qed.

Lemma read_string_wp sc : sc_ok sc -> wp (read_string sc) (fun _ sc' => past sc 1 sc').
Proof.
  intros Hs. unfold read_string. eapply wp_then; [by apply read_token_wp|].
  intros [[]|] sc1 H1; try exact I; by destruct H1.
Qed.

Lemma peek_token_wp {B} (f : option Z -> Parser B) sc Q : sc_ok sc ->
  (forall sc', past sc 0 sc' -> wp (f (head (at_cursor sc')) sc') Q) -> wp ((peek_token ≫= f) sc) Q.
Proof.
  intros Hs Hf. unfold peek_token. eapply wp_then.
  - eapply wp_then; [by apply skip_ws_wp|]. intros ? sc1 [H1 _].
    instantiate (1 := fun c sc' => past sc 0 sc' /\ c = head (at_cursor sc')). by split.
  - intros c sc1 [H1 ->]. by apply Hf.
Qed.
