(* ===== verification/AcfTheory.v ===== *)
(** * Properties of the access security file

    The grammar's rules of the program logic, with the configuration they build: every
    parse ends, without panic, and a configuration read from a file is well formed.  With
    the rule walk and the published inputs this gives what a granted access means. *)
From Stdlib Require Import SpecFloat.
From stdpp Require Import base tactics numbers list option strings gmap.
From S2P Require Import Prelude Float64 Alarm PvaText Strtod CalcOps CalcCode CalcPostfix CalcEval CalcTheory.
From S2P Require Import AccessSecurity AcfParse CalcUsageTheory AccessTheory AcfScanTheory.

Open Scope Z_scope.

(** ** Parsers that only move *)

Definition advances {A : Type} (j : nat) (m : Parser A) : Prop :=
  forall sc, sc_ok sc -> wp (m sc) (fun _ sc' => past sc j sc').

Lemma adv_seq {A B} j (m : Parser A) (f : A -> Parser B) sc0 k sc Q :
  advances j m -> past sc0 k sc ->
  (forall a sc', past sc0 (k + j) sc' -> wp (f a sc') Q) -> wp ((m ≫= f) sc) Q.
Proof.
  intros Hm Hp Hf. eapply wp_then; [apply Hm, (past_ok _ _ _ Hp)|]. intros a sc' H1. apply Hf.
  by apply (past_trans sc0 k sc j sc').
Qed.

Lemma adv_end {A} j (m : Parser A) sc0 k sc i :
  advances j m -> past sc0 k sc -> (i <= k + j)%nat -> wp (m sc) (fun _ sc' => past sc0 i sc').
Proof.
  intros Hm Hp Hi. eapply wp_mono; [apply Hm, (past_ok _ _ _ Hp)|]. intros a sc' H1.
  by apply (past_trans sc0 k sc j sc').
Qed.

Lemma adv_ret {A} (a : A) sc0 k sc i : past sc0 k sc -> (i <= k)%nat ->
  wp ((mret a : Parser A) sc) (fun _ sc' => past sc0 i sc').
Proof. intros Hp Hi. by apply (past_weaken _ _ _ _ Hp). Qed.

Lemma adv_peek {B} (f : option Z -> Parser B) sc0 k sc Q :
  past sc0 k sc ->
  (forall sc', past sc0 k sc' -> wp (f (head (at_cursor sc')) sc') Q) -> wp ((peek_token ≫= f) sc) Q.
Proof.
  intros Hp Hf. apply peek_token_wp; [exact (past_ok _ _ _ Hp)|]. intros sc' H1. apply Hf.
  apply (past_trans sc0 k sc 0 sc'); [done|done|lia].
Qed.

(** A byte known to be at the cursor. *)
Lemma adv_byte {B} (f : option Z -> Parser B) sc0 k sc c Q :
  past sc0 k sc -> head (at_cursor sc) = Some c ->
  (forall a sc', past sc0 (k + 1) sc' -> wp (f a sc') Q) -> wp ((next ≫= f) sc) Q.
Proof.
  intros Hp Hh Hf. eapply wp_then; [by apply (wp_next_some _ c)|]. intros a sc' H1. apply Hf.
  by apply (past_trans sc0 k sc 1 sc').
Qed.

Lemma adv_same {A} (m : Parser A) : (forall sc, wp (m sc) (fun _ sc' => same sc sc')) -> advances 0 m.
Proof. intros Hm sc Hs. eapply wp_mono; [apply Hm|]. intros a sc' H1. by apply same_past. Qed.

Lemma adv_skip : advances 0 skip_ws_comments.
Proof. intros sc Hs. eapply wp_mono; [by apply skip_ws_wp|]. by intros a sc' [H _]. Qed.

Lemma adv_next : advances 0 next.
Proof.
  intros sc Hs. eapply wp_mono; [by apply wp_next|]. intros c sc' [_ H]. by apply (past_weaken _ _ _ _ H), Nat.le_0_l.
Qed.

Lemma adv_expect want : advances 1 (expect want).
Proof. intros sc. apply expect_wp. Qed.

Lemma adv_string : advances 1 read_string.
Proof. intros sc. apply read_string_wp. Qed.

Lemma adv_read_token : advances 0 read_token.
Proof.
  intros sc Hs. eapply wp_mono; [by apply read_token_wp|]. intros [t|] sc' H; [|done].
  apply (past_weaken _ _ _ _ (proj2 H)). lia.
Qed.

Lemma adv_required : advances 1 required_token.
Proof.
  intros sc Hs. unfold required_token. eapply wp_then; [by apply read_token_wp|].
  intros [t|] sc1 H1; [|exact I]. apply wp_ret, (proj2 H1).
Qed.

Lemma adv_paren_name : advances 1 read_paren_name.
Proof.
  intros sc Hs. unfold read_paren_name.
  eapply adv_seq; [apply adv_expect|by apply past_refl|]. intros ? sc1 H1.
  eapply adv_seq; [apply adv_string|exact H1|]. intros name sc2 H2.
  eapply adv_seq; [apply adv_expect|exact H2|]. intros ? sc3 H3. apply (adv_ret _ _ _ _ _ H3). lia.
Qed.

(** A token where one is required, and no room for a second reading of it. *)
Lemma read_some_token {B} (f : option Token.t -> Parser B) sc0 k sc Q :
  past sc0 k sc ->
  (forall t sc', token_ok t -> past sc0 (k + 1) sc' -> wp (f (Some t) sc') Q) ->
  (forall sc', past sc0 k sc' -> wp (f None sc') Q) -> wp ((read_token ≫= f) sc) Q.
Proof.
  intros Hp Hs Hn. eapply wp_then; [apply read_token_wp, (past_ok _ _ _ Hp)|].
  intros [t|] sc1 H1.
  - destruct H1 as [Ht H1]. apply Hs; [done|]. by apply (past_trans sc0 k sc 1 sc1).
  - apply Hn. apply (past_trans sc0 k sc 0 sc1); [done|done|lia].
Qed.

Lemma adv_list_loop close kind : forall fuel items sc, sc_ok sc -> (length (src sc) < fuel + pos sc)%nat ->
  wp (token_list_loop fuel close kind items sc) (fun _ sc' => past sc 1 sc').
Proof.
  induction fuel as [|fuel IH]; intros items sc Hs Hf; [unfold sc_ok in Hs; lia|]. cbn [token_list_loop].
  apply (read_some_token _ sc 0); [by apply past_refl| |intros sc1 _; by destruct kind].
  intros t sc1 _ H1. cbn [Nat.add] in H1.
  assert (Hrest : forall item, wp ((skip_ws_comments;; c ← next;
     match c with
     | Some c => if c =? 44 then token_list_loop fuel close kind (items ++ [item])
                 else if c =? close then mret (items ++ [item]) else reject
     | None => reject
     end) sc1) (fun _ sc' => past sc 1 sc')).
  { intros item. eapply adv_seq; [apply adv_skip|exact H1|]. intros ? sc2 H2.
    eapply adv_seq; [apply adv_next|exact H2|]. intros [c|] sc3 H3; [|exact I].
    destruct (c =? 44).
    - eapply wp_mono; [apply IH; [exact (past_ok _ _ _ H3)|by eapply past_fuel; [exact H3|lia]]|].
      intros ? sc4 H4. by apply (past_trans sc 1 sc3 1 sc4); [exact H3|exact H4|lia].
    - destruct (c =? close); [|exact I]. exact H3. }
  destruct t, kind; cbn [list_item]; try exact I; apply Hrest.
Qed.

Lemma adv_list open close kind : advances 1 (read_token_list open close kind).
Proof.
  intros sc Hs. unfold read_token_list.
  eapply adv_seq; [apply adv_expect|by apply past_refl|]. intros ? sc1 H1.
  eapply adv_seq; [apply adv_skip|exact H1|]. intros ? sc2 H2. apply wp_peek.
  destruct (bool_decide (kind = Generic) && _).
  - eapply adv_seq; [apply adv_next|exact H2|]. intros ? sc3 H3. apply (adv_ret _ _ _ _ _ H3). lia.
  - apply wp_read. eapply wp_mono; [apply adv_list_loop; [exact (past_ok _ _ _ H2)|apply acf_fuel_enough]|].
    intros ? sc3 H3. by apply (past_trans sc 1 sc2 1 sc3); [exact H2|exact H3|lia].
Qed.

Lemma adv_optional_list : advances 0 read_optional_brace_list.
Proof.
  intros sc Hs. unfold read_optional_brace_list.
  eapply adv_seq; [apply adv_skip|by apply past_refl|]. intros ? sc1 H1. apply wp_peek.
  destruct (bool_decide _); [|exact H1]. by apply (adv_end 1 _ _ _ _ _ (adv_list _ _ _) H1); lia.
Qed.

Lemma adv_block_items : forall fuel single sc, sc_ok sc -> (length (src sc) < fuel + pos sc)%nat ->
  wp (block_items fuel single sc) (fun _ sc' => past sc 0 sc').
Proof.
  induction fuel as [|fuel IH]; intros single sc Hs Hf; [unfold sc_ok in Hs; lia|]. cbn [block_items].
  apply wp_peek. destruct (head (at_cursor sc)) as [c|] eqn:Hh; [|exact I].
  destruct (c =? 125).
  { eapply adv_seq; [apply adv_next|by apply past_refl|]. intros ? sc1 H1. exact H1. }
  destruct (c =? 44); [|exact I].
  eapply adv_seq; [apply adv_next|by apply past_refl|]. intros ? sc1 H1.
  eapply adv_seq; [apply adv_required|exact H1|]. intros ? sc2 H2.
  eapply adv_seq; [apply adv_skip|exact H2|]. intros ? sc3 H3.
  eapply wp_mono; [apply IH; [exact (past_ok _ _ _ H3)|by eapply past_fuel; [exact H3|lia]]|].
  intros ? sc4 H4. by apply (past_trans sc 1 sc3 0 sc4); [exact H3|exact H4|lia].
Qed.

Lemma adv_blocks : forall fuel,
  (forall sc, sc_ok sc -> (length (src sc) < fuel + pos sc)%nat ->
     wp (skip_generic_block fuel sc) (fun _ sc' => past sc 0 sc')) /\
  (forall sc, sc_ok sc -> (length (src sc) < fuel + pos sc)%nat ->
     wp (named_elements fuel sc) (fun _ sc' => past sc 0 sc')).
Proof.
  induction fuel as [|fuel [IHb IHn]]; split; intros sc Hs Hf; try (unfold sc_ok in Hs; lia).
  - cbn [skip_generic_block]. eapply adv_seq; [apply adv_next|by apply past_refl|]. intros ? sc1 H1.
    eapply adv_seq; [apply adv_required|exact H1|]. intros first sc2 H2.
    apply (adv_peek _ _ _ _ _ H2). intros sc3 H3.
    assert (Hn : (length (src sc3) < fuel + pos sc3)%nat) by (eapply past_fuel; [exact H3|lia]).
    assert (Hend : forall m : Parser bool, wp (m sc3) (fun _ sc' => past sc3 0 sc') ->
      wp (m sc3) (fun _ sc' => past sc 0 sc')).
    { intros m Hm. eapply wp_mono; [exact Hm|]. intros ? sc4 H4.
      by apply (past_trans sc 1 sc3 0 sc4); [exact H3|exact H4|lia]. }
    destruct (bool_decide _).
    + destruct first; try exact I; (apply Hend, IHn; [exact (past_ok _ _ _ H3)|done]).
    + apply Hend, adv_block_items; [exact (past_ok _ _ _ H3)|done].
  - cbn [named_elements]. eapply adv_seq; [apply adv_list|by apply past_refl|]. intros ? sc1 H1.
    apply (adv_peek _ _ _ _ _ H1). intros sc2 H2.
    eapply (wp_then _ _ _ (fun _ sc' => past sc 1 sc')).
    { destruct (bool_decide _); [|exact H2].
      eapply wp_then; [apply IHb; [exact (past_ok _ _ _ H2)|by eapply past_fuel; [exact H2|lia]]|].
      intros ? sc3 H3. apply wp_ret. by apply (past_trans sc 1 sc2 0 sc3); [exact H2|exact H3|lia]. }
    intros ? sc3 H3. apply (adv_peek _ _ _ _ _ H3). intros sc4 H4. destruct (bool_decide _).
    { eapply adv_seq; [apply adv_next|exact H4|]. intros ? sc5 H5. apply (adv_ret _ _ _ _ _ H5). lia. }
    eapply adv_seq; [apply adv_read_token|exact H4|]. intros tok sc5 H5.
    assert (Hgo : wp ((c ← peek_token; if bool_decide (c = Some 40) then named_elements fuel else reject) sc5)
                     (fun _ sc' => past sc 0 sc')).
    { apply (adv_peek _ _ _ _ _ H5). intros sc6 H6. destruct (bool_decide _); [|exact I].
      eapply wp_mono; [apply IHn; [exact (past_ok _ _ _ H6)|by eapply past_fuel; [exact H6|lia]]|].
      intros ? sc7 H7. by apply (past_trans sc 1 sc6 0 sc7); [exact H6|exact H7|lia]. }
    destruct tok as [[]|]; try exact I; exact Hgo.
Qed.

Lemma adv_block : advances 0 skip_block.
Proof. intros sc Hs. apply wp_read, (proj1 (adv_blocks _)); [done|apply acf_fuel_enough]. Qed.

(** The optional block after a head. *)
Lemma adv_if_block sc0 k sc (c : option Z) :
  past sc0 k sc ->
  wp ((if bool_decide (c = Some 123) then skip_block;; mret () else mret ()) sc) (fun _ sc' => past sc0 k sc').
Proof.
  intros Hp. destruct (bool_decide _); [|exact Hp].
  eapply adv_seq; [apply adv_block|exact Hp|]. intros ? sc1 H1. apply (adv_ret _ _ _ _ _ H1). lia.
Qed.

Lemma adv_generic_elem : advances 1 skip_generic_elem.
Proof.
  intros sc Hs. unfold skip_generic_elem.
  eapply adv_seq; [apply adv_list|by apply past_refl|]. intros ? sc1 H1.
  apply (adv_peek _ _ _ _ _ H1). intros sc2 H2. by apply adv_if_block.
Qed.

Lemma adv_warn what token : advances 0 (warn what token).
Proof. apply adv_same. intros sc. apply wp_warn. Qed.
Lemma adv_error why : advances 0 (error why).
Proof. apply adv_same. intros sc. apply wp_error. Qed.
Lemma adv_refuse why : advances 0 (refuse why).
Proof. apply adv_same. intros sc. apply wp_refuse. Qed.
Lemma adv_duplicates u h : advances 0 (push_duplicates u h).
Proof. apply adv_same. intros sc. apply wp_push_duplicates. Qed.
Lemma adv_no_rule keyword : advances 0 (no_rule_to_disable keyword).
Proof. apply adv_same. intros sc. apply wp_error_where. Qed.

Lemma adv_generic_item keyword : advances 0 (skip_generic_item keyword).
Proof.
  intros sc Hs. unfold skip_generic_item.
  eapply adv_seq; [apply adv_list|by apply past_refl|]. intros ? sc1 H1.
  apply (adv_peek _ _ _ _ _ H1). intros sc2 H2.
  eapply (wp_then _ _ _ (fun _ sc' => past sc 0 sc')).
  - destruct (bool_decide _); [|by apply (adv_ret _ _ _ _ _ H2); lia].
    eapply adv_seq; [apply adv_block|exact H2|]. intros single sc3 H3.
    destruct single; [|by apply (adv_ret _ _ _ _ _ H3); lia].
    apply (adv_peek _ _ _ _ _ H3). intros sc4 H4.
    destruct (bool_decide _); [|by apply (adv_ret _ _ _ _ _ H4); lia].
    eapply adv_seq; [apply adv_list|exact H4|]. intros items sc5 H5.
    destruct (_ <? _)%nat; [exact I|]. apply (adv_ret _ _ _ _ _ H5). lia.
  - intros what sc3 H3. by apply (adv_end 0 _ _ _ _ _ (adv_warn _ _) H3); lia.
Qed.

(** ** Well-formed configurations *)

(** What the reader keeps of a rule, under the groups defined so far. *)
Record rule_in `{Host} (users hosts : gmap bytes (list bytes)) (r : AccessRule) : Prop := mkRuleIn {
  in_ok : rule_ok r;
  in_calc : forall t, calc_text r = Some t ->
    exists e, calc_compiled r = Some e /\ compile t = Some (Ok (ce_code e));
  in_uag : forall g, g ∈ uag r -> is_Some (users !! g);
  in_hag : forall g, g ∈ hag r -> is_Some (hosts !! g);
  in_level : - 2 ^ 31 <= level r < 2 ^ 31;
}.

Record cfg_ok `{Host} `{Hosts} (c : AccessSecurityConfig) : Prop := mkCfgOk {
  ok_default : is_Some (cfg_asg c !! DEFAULT);
  ok_groups : forall n g, cfg_asg c !! n = Some g ->
    state_id g = (load_id c, n) /\
    (forall r, r ∈ rules g -> rule_in (cfg_uag c) (cfg_hag c) r) /\
    (forall i, i ∈ inp g -> 0 <= index i < 21);
  ok_hag : cfg_hag c = hag_members <$> cfg_hag_raw c;
}.

(** What every part of the grammar keeps: the load, and the groups that are there. *)
Definition grows (c c' : AccessSecurityConfig) : Prop :=
  load_id c' = load_id c /\ forall n, is_Some (cfg_asg c !! n) -> is_Some (cfg_asg c' !! n).

Lemma grows_refl c : grows c c.
Proof. by split. Qed.

Lemma grows_trans c1 c2 c3 : grows c1 c2 -> grows c2 c3 -> grows c1 c3.
Proof. intros [H1 H2] [H3 H4]. split; [congruence|auto]. Qed.

Lemma rule_in_mono `{Host} u h u' h' r :
  (forall g, is_Some (u !! g) -> is_Some (u' !! g)) -> (forall g, is_Some (h !! g) -> is_Some (h' !! g)) ->
  rule_in u h r -> rule_in u' h' r.
Proof. intros Hu Hh [H1 H2 H3 H4 H5]. split; auto. Qed.

Lemma is_Some_insert (m : gmap bytes (list bytes)) k v g : is_Some (m !! g) -> is_Some (<[k := v]> m !! g).
Proof. intros Hg. destruct (decide (k = g)) as [->|Hk]; [rewrite lookup_insert_eq|rewrite lookup_insert_ne]; eauto. Qed.

Section Config.
Context `{Host} `{Hosts}.

Lemma rule_new_in u h l a : rule_in u h (AccessRule_new (swrap 32 l) a).
Proof.
  pose proof (swrap_range 32 l ltac:(lia)). split; [by split|done| | |done].
  - intros g Hg. by apply not_elem_of_nil in Hg.
  - intros g Hg. by apply not_elem_of_nil in Hg.
Qed.

(** Replacing one group's rules and inputs. *)
Lemma with_group c name g rs ins :
  cfg_ok c -> cfg_asg c !! name = Some g ->
  (forall r, r ∈ rs -> rule_in (cfg_uag c) (cfg_hag c) r) -> (forall i, i ∈ ins -> 0 <= index i < 21) ->
  let c' := mkConfig (cfg_uag c) (cfg_hag c) (cfg_hag_raw c)
              (<[name := mkGroup rs ins (state_id g)]> (cfg_asg c)) (unknown_access c) (load_id c) in
  cfg_ok c' /\ grows c c'.
Proof.
  intros [Hd Hg Hh] Hn Hr Hi. cbv zeta.
  assert (Hgrow : forall n, is_Some (cfg_asg c !! n) ->
    is_Some (<[name := mkGroup rs ins (state_id g)]> (cfg_asg c) !! n)).
  { intros n Hx. destruct (decide (name = n)) as [->|Hne]; [rewrite lookup_insert_eq|rewrite lookup_insert_ne]; eauto. }
  split; [split; cbn [cfg_asg cfg_uag cfg_hag cfg_hag_raw load_id]; auto|by split].
  intros n g' Hl. destruct (decide (name = n)) as [->|Hne].
  - rewrite lookup_insert_eq in Hl. injection Hl as <-. cbn [state_id rules inp].
    destruct (Hg _ _ Hn) as [-> _]. auto.
  - rewrite lookup_insert_ne in Hl by done. auto.
Qed.

Lemma update_rule_ok t f c c' :
  cfg_ok c -> (forall r, rule_in (cfg_uag c) (cfg_hag c) r -> rule_in (cfg_uag c) (cfg_hag c) (f r)) ->
  update_rule t f c = Some c' -> cfg_ok c' /\ grows c c'.
Proof.
  intros Hc Hf. destruct t as [asg ix| |]; [|done|done]. cbn [update_rule].
  destruct (cfg_asg c !! asg) as [g|] eqn:Hg; [|done]. cbn.
  destruct (rules g !! ix) as [r|] eqn:Hr; [|done]. cbn. intros [= <-].
  destruct (ok_groups c Hc _ _ Hg) as (_ & Hrs & Hin).
  apply with_group; [done|done| |done].
  intros r' Hr'. apply list_elem_of_lookup in Hr' as [k Hk]. apply list_lookup_insert_Some in Hk as [(<- & <- & _)|[_ Hk]].
  - apply Hf, Hrs. by apply list_elem_of_lookup_2 with ix.
  - apply Hrs. by apply list_elem_of_lookup_2 with k.
Qed.

Lemma edit_rule_ok t f c :
  cfg_ok c -> (forall r, rule_in (cfg_uag c) (cfg_hag c) r -> rule_in (cfg_uag c) (cfg_hag c) (f r)) ->
  cfg_ok (edit_rule t f c) /\ grows c (edit_rule t f c).
Proof.
  intros Hc Hf. unfold edit_rule. destruct (update_rule t f c) as [c'|] eqn:Hu; cbn [default from_option id].
  - by apply (update_rule_ok t f).
  - split; [done|apply grows_refl].
Qed.

Lemma set_trap_in u h r : rule_in u h r -> rule_in u h (set_trap r).
Proof. intros [[] H2 H3 H4 H5]. split; [by split|exact H2|exact H3|exact H4|exact H5]. Qed.
Lemma disable_in u h r : rule_in u h r -> rule_in u h (disable r).
Proof. intros [[] H2 H3 H4 H5]. split; [by split|exact H2|exact H3|exact H4|exact H5]. Qed.
Lemma extend_method_in u h l r : rule_in u h r -> rule_in u h (extend_method l r).
Proof. intros [[] H2 H3 H4 H5]. split; [by split|exact H2|exact H3|exact H4|exact H5]. Qed.
Lemma extend_authority_in u h l r : rule_in u h r -> rule_in u h (extend_authority l r).
Proof. intros [[] H2 H3 H4 H5]. split; [by split|exact H2|exact H3|exact H4|exact H5]. Qed.
Lemma add_uag_in u h g r : is_Some (u !! g) -> rule_in u h r -> rule_in u h (add_uag g r).
Proof.
  intros Hg [[] H2 H3 H4 H5]. split; [by split|exact H2| |exact H4|exact H5].
  intros g' Hin. cbn [add_uag uag] in Hin. apply elem_of_app in Hin as [Hin|Hin]; [by apply H3|].
  apply list_elem_of_singleton in Hin. by subst.
Qed.
Lemma add_hag_in u h g r : is_Some (h !! g) -> rule_in u h r -> rule_in u h (add_hag g r).
Proof.
  intros Hg [[] H2 H3 H4 H5]. split; [by split|exact H2|exact H3| |exact H5].
  intros g' Hin. cbn [add_hag hag] in Hin. apply elem_of_app in Hin as [Hin|Hin]; [by apply H4|].
  apply list_elem_of_singleton in Hin. by subst.
Qed.

(** A condition compiles, or is refused; compiled, it stores nothing. *)
Lemma compile_rule_calc_total expr : is_Some (compile_rule_calc expr).
Proof.
  unfold compile_rule_calc. destruct (negb (valid_utf8 expr)); [eauto|].
  assert (Hc : is_Some (compile expr)).
  { unfold compile. destruct expr; [eauto|]. apply compile_loop_total. lia. }
  destruct Hc as [[code|e] ->]; cbn [mbind option_bind]; [|eauto]. unfold arg_usage. cbn [ce_kind ce_code].
  assert (Hi : is_Some (instructions Numeric code)) by (apply instructions_total; lia).
  destruct Hi as [l ->]. cbn [mbind option_bind]. destruct (foldl _ _ _). eauto.
Qed.

Lemma compile_rule_calc_ok expr e used :
  compile_rule_calc expr = Some (Ok (e, used)) ->
  ce_kind e = Numeric /\ arg_usage e = Some (used, 0) /\ compile expr = Some (Ok (ce_code e)).
Proof.
  unfold compile_rule_calc. destruct (negb (valid_utf8 expr)); [done|].
  destruct (compile expr) as [[code|err]|]; cbn [mbind option_bind]; [|done|done].
  destruct (arg_usage (mkCompiledExpr code Numeric)) as [[u st]|] eqn:Hu; cbn [mbind option_bind]; [|done].
  destruct (Z.eqb_spec st 0) as [->|]; cbn [negb]; [|done]. intros [= <- <-]. done.
Qed.

Lemma set_calc_in u h expr e used r :
  compile_rule_calc expr = Some (Ok (e, used)) -> rule_in u h r -> rule_in u h (set_calc expr e used r).
Proof.
  intros Hc [[] H2 H3 H4 H5]. apply compile_rule_calc_ok in Hc as (Hk & Hu & Hx).
  split; [split; [done|]| |exact H3|exact H4|exact H5]; cbn [set_calc calc_compiled calc_text inp_used].
  - by intros e' [= <-].
  - intros t [= <-]. eauto.
Qed.

(** ** The grammar *)

(** A part of the grammar, from a configuration: it moves on and keeps it well formed. *)
Definition keeps (j : nat) (c : AccessSecurityConfig) (m : Parser AccessSecurityConfig) : Prop :=
  forall sc, sc_ok sc ->
  wp (m sc) (fun c' sc' => past sc j sc' /\ cfg_ok c' /\ grows c c').

Lemma keeps_ret c c' sc0 k sc j :
  past sc0 k sc -> (j <= k)%nat -> cfg_ok c' /\ grows c c' ->
  wp ((mret c' : Parser AccessSecurityConfig) sc) (fun c' sc' => past sc0 j sc' /\ cfg_ok c' /\ grows c c').
Proof. intros Hp Hj Hc. split; [by apply (past_weaken _ _ _ _ Hp)|done]. Qed.

Lemma keeps_end j m c c1 sc0 k sc i :
  keeps j c1 m -> grows c c1 -> past sc0 k sc -> (i <= k + j)%nat ->
  wp (m sc) (fun c' sc' => past sc0 i sc' /\ cfg_ok c' /\ grows c c').
Proof.
  intros Hm Hg Hp Hi. eapply wp_mono; [apply Hm, (past_ok _ _ _ Hp)|]. intros c' sc' (H1 & H2 & H3).
  split; [by apply (past_trans sc0 k sc j sc')|]. split; [done|by eapply grows_trans].
Qed.

Lemma keeps_seq {B} j m c1 (f : AccessSecurityConfig -> Parser B) sc0 k sc Q :
  keeps j c1 m -> past sc0 k sc ->
  (forall c2 sc', past sc0 (k + j) sc' -> cfg_ok c2 -> grows c1 c2 -> wp (f c2 sc') Q) ->
  wp ((m ≫= f) sc) Q.
Proof.
  intros Hm Hp Hf. eapply wp_then; [apply Hm, (past_ok _ _ _ Hp)|]. intros c2 sc' (H1 & H2 & H3).
  apply Hf; [by apply (past_trans sc0 k sc j sc')|done|done].
Qed.

Lemma rule_head_wp asg c sc :
  sc_ok sc -> cfg_ok c -> (forall n, asg = Some n -> is_Some (cfg_asg c !! n)) ->
  wp (rule_head asg c sc) (fun tc sc' => past sc 1 sc' /\ cfg_ok (snd tc) /\ grows c (snd tc)).
Proof.
  intros Hs Hc Ha. unfold rule_head.
  eapply adv_seq; [apply adv_expect|by apply past_refl|]. intros ? sc1 H1.
  apply (read_some_token _ _ _ _ _ H1); [|intros; exact I]. intros t sc2 Ht H2.
  destruct t as [b|b|n|b]; try exact I.
  eapply (wp_then _ _ _ (fun _ sc' => past sc 1 sc')).
  { destruct (existsb (Z.eqb 46) n) eqn:Hd; [exact I|].
    destruct (number_parses n) as [v ->]; [apply Ht|apply Ht|done|]. apply (adv_ret _ _ _ _ _ H2). lia. }
  intros level_num sc3 H3.
  eapply adv_seq; [apply adv_expect|exact H3|]. intros ? sc4 H4.
  eapply adv_seq; [apply adv_string|exact H4|]. intros access_str sc5 H5.
  assert (Hsame : forall (m : Parser unit) t, advances 0 m -> wp ((m;; mret (t, c) : Parser (RuleTarget * AccessSecurityConfig)) sc5)
    (fun tc sc' => past sc 1 sc' /\ cfg_ok (snd tc) /\ grows c (snd tc))).
  { intros m t Hm. eapply adv_seq; [exact Hm|exact H5|]. intros ? sc6 H6. apply wp_ret.
    split; [apply (past_weaken _ _ _ _ H6); lia|]. split; [done|apply grows_refl]. }
  destruct (level_num <? 0); [apply Hsame, adv_error|].
  destruct (rule_access_keyword access_str) as [acc|]; [|apply Hsame, adv_warn].
  destruct asg as [asg|]; cycle 1.
  { apply wp_ret. split; [apply (past_weaken _ _ _ _ H5); lia|]. split; [done|apply grows_refl]. }
  unfold push_rule. destruct (Ha asg eq_refl) as [g Hg]. rewrite Hg. cbn [mbind option_bind].
  apply wp_ret. split; [apply (past_weaken _ _ _ _ H5); lia|]. cbn [snd].
  destruct (ok_groups c Hc _ _ Hg) as (_ & Hrs & Hin). apply with_group; [done|done| |done].
  intros r Hr. apply elem_of_app in Hr as [Hr|Hr]; [by apply Hrs|].
  apply list_elem_of_singleton in Hr. subst r. apply rule_new_in.
Qed.

Lemma rule_log_keeps t c : cfg_ok c -> keeps 0 c (rule_log_option t c).
Proof.
  intros Hc sc Hs. unfold rule_log_option. apply (adv_peek _ sc 0); [by apply past_refl|]. intros sc1 H1.
  apply (keeps_seq 0 _ c _ sc 0 sc1); [|exact H1|].
  - intros sc2 Hs2. destruct (bool_decide _); [|apply (keeps_ret _ _ _ 0); [by apply past_refl|lia|split; [done|apply grows_refl]]].
    eapply adv_seq; [apply adv_next|by apply past_refl|]. intros ? sc3 H3.
    eapply adv_seq; [apply adv_string|exact H3|]. intros log_opt sc4 H4.
    destruct (bool_decide _). { apply (keeps_ret _ _ _ _ _ _ H4); [lia|]. apply edit_rule_ok; [done|]. intros r. apply set_trap_in. }
    destruct (bool_decide _). { apply (keeps_ret _ _ _ _ _ _ H4); [lia|]. split; [done|apply grows_refl]. }
    eapply adv_seq; [apply adv_error|exact H4|]. intros ? sc5 H5.
    apply (keeps_ret _ _ _ _ _ _ H5); [lia|]. split; [done|apply grows_refl].
  - intros c2 sc2 H2 Hc2 Hg2. eapply adv_seq; [apply adv_expect|exact H2|]. intros ? sc3 H3.
    apply (keeps_ret _ _ _ _ _ _ H3); [lia|done].
Qed.

Lemma group_clause_keeps users t : forall fuel c sc, cfg_ok c -> sc_ok sc ->
  (length (src sc) < fuel + pos sc)%nat ->
  wp (group_clause fuel users t c sc) (fun c' sc' => past sc 0 sc' /\ cfg_ok c' /\ grows c c').
Proof.
  induction fuel as [|fuel IH]; intros c sc Hc Hs Hf; [unfold sc_ok in Hs; lia|]. cbn [group_clause].
  eapply adv_seq; [apply adv_string|by apply past_refl|]. intros name sc1 H1.
  apply (keeps_seq 0 _ c _ sc 1 sc1); [|exact H1|].
  - intros sc2 Hs2. destruct (Made_b t && _) eqn:Hm.
    + eapply adv_seq; [apply adv_refuse|by apply past_refl|]. intros ? sc3 H3.
      apply (keeps_ret _ _ _ _ _ _ H3); [lia|]. split; [done|apply grows_refl].
    + apply (keeps_ret _ _ _ 0); [by apply past_refl|lia|].
      destruct t as [asg ix| |]; [|split; [done|apply grows_refl]|split; [done|apply grows_refl]].
      cbn [Made_b andb] in Hm. apply negb_false_iff in Hm.
      apply edit_rule_ok; [done|]. intros r.
      destruct users; [apply add_uag_in|apply add_hag_in];
        (destruct (_ !! name); [eauto|discriminate Hm]).
  - intros c2 sc2 H2 Hc2 Hg2. eapply adv_seq; [apply adv_skip|exact H2|]. intros ? sc3 H3.
    eapply adv_seq; [apply adv_next|exact H3|]. intros [p|] sc4 H4; [|exact I].
    destruct (p =? 44).
    + eapply wp_mono; [apply (IH c2); [done|exact (past_ok _ _ _ H4)|by eapply past_fuel; [exact H4|lia]]|].
      intros c3 sc5 (H5 & Hc3 & Hg3).
      split; [by apply (past_trans sc 1 sc4 0 sc5); [exact H4|exact H5|lia]|]. split; [done|by eapply grows_trans].
    + destruct (p =? 41); [|exact I]. apply (keeps_ret _ _ _ _ _ _ H4); [lia|done].
Qed.

Lemma calc_clause_keeps t c : cfg_ok c -> keeps 0 c (calc_clause t c).
Proof.
  intros Hc sc Hs. unfold calc_clause.
  eapply adv_seq; [apply adv_paren_name|by apply past_refl|]. intros expr sc1 H1.
  destruct (update_rule t id c); [|apply (keeps_ret _ _ _ _ _ _ H1); [lia|split; [done|apply grows_refl]]].
  destruct (compile_rule_calc_total expr) as [[[e used]|why] Hx]; rewrite Hx.
  - apply (keeps_ret _ _ _ _ _ _ H1); [lia|]. apply edit_rule_ok; [done|]. intros r. by apply set_calc_in.
  - eapply adv_seq; [apply adv_refuse|exact H1|]. intros ? sc2 H2.
    apply (keeps_ret _ _ _ _ _ _ H2); [lia|]. split; [done|apply grows_refl].
Qed.

Lemma edit_or_say_keeps t f keyword c :
  cfg_ok c -> (forall r, rule_in (cfg_uag c) (cfg_hag c) r -> rule_in (cfg_uag c) (cfg_hag c) (f r)) ->
  keeps 0 c (edit_or_say t f keyword c).
Proof.
  intros Hc Hf sc Hs. unfold edit_or_say. destruct (update_rule t f c) as [c'|] eqn:Hu.
  { apply (keeps_ret _ _ _ 0); [by apply past_refl|lia|]. by apply (update_rule_ok t f). }
  assert (Hsame : wp ((mret c : Parser AccessSecurityConfig) sc) (fun c' sc' => past sc 0 sc' /\ cfg_ok c' /\ grows c c')).
  { apply (keeps_ret _ _ _ 0); [by apply past_refl|lia|]. split; [done|apply grows_refl]. }
  destruct t; [exact Hsame|exact Hsame|].
  eapply adv_seq; [apply adv_no_rule|by apply past_refl|]. intros ? sc1 H1.
  apply (keeps_ret _ _ _ _ _ _ H1); [lia|]. split; [done|apply grows_refl].
Qed.

Lemma scope_clause_keeps keyword t c : cfg_ok c -> keeps 0 c (scope_clause keyword t c).
Proof.
  intros Hc sc Hs. unfold scope_clause.
  eapply adv_seq; [apply adv_list|by apply past_refl|]. intros items sc1 H1.
  apply (adv_peek _ _ _ _ _ H1). intros sc2 H2.
  eapply wp_then; [by apply (adv_if_block sc 1)|]. intros ? sc3 H3.
  apply (keeps_end 0 _ c c _ _ _ _) with (3 := H3); [|apply grows_refl|lia].
  apply edit_or_say_keeps; [done|]. intros r. destruct (bool_decide _); [apply extend_method_in|apply extend_authority_in].
Qed.

Lemma other_clause_keeps name t c : cfg_ok c -> keeps 0 c (other_clause name t c).
Proof.
  intros Hc sc Hs. unfold other_clause.
  eapply adv_seq; [apply adv_generic_elem|by apply past_refl|]. intros ? sc1 H1.
  eapply adv_seq; [apply adv_warn|exact H1|]. intros ? sc2 H2.
  apply (keeps_end 0 _ c c _ _ _ _) with (3 := H2); [|apply grows_refl|lia].
  apply edit_or_say_keeps; [done|]. intros r. apply disable_in.
Qed.

Lemma rule_item_keeps tok t c : cfg_ok c -> keeps 0 c (rule_item tok t c).
Proof.
  intros Hc sc Hs. unfold rule_item. apply wp_read.
  assert (Hgroup : forall users, wp ((expect 40;; group_clause (fuel_of sc) users t c) sc)
    (fun c' sc' => past sc 0 sc' /\ cfg_ok c' /\ grows c c')).
  { intros users. eapply adv_seq; [apply adv_expect|by apply past_refl|]. intros ? sc1 H1.
    eapply wp_mono; [apply group_clause_keeps; [done|exact (past_ok _ _ _ H1)|]|].
    - eapply past_fuel; [exact H1|]. unfold fuel_of. lia.
    - intros c' sc2 (H2 & H3). split; [by apply (past_trans sc 1 sc1 0 sc2); [exact H1|exact H2|lia]|done]. }
  destruct tok as [[b|kw|b|kw]|]; try exact I.
  - by apply other_clause_keeps.
  - destruct (_ || _); [by apply scope_clause_keeps|by apply other_clause_keeps].
  - destruct (bool_decide _); [apply Hgroup|]. destruct (bool_decide _); [apply Hgroup|].
    destruct (bool_decide _); [by apply calc_clause_keeps|by apply other_clause_keeps].
Qed.

Lemma rule_items_keeps t : forall fuel first c sc, cfg_ok c -> sc_ok sc ->
  (length (src sc) < fuel + pos sc)%nat ->
  wp (rule_items fuel first t c sc) (fun c' sc' => past sc 0 sc' /\ cfg_ok c' /\ grows c c').
Proof.
  induction fuel as [|fuel IH]; intros first c sc Hc Hs Hf; [unfold sc_ok in Hs; lia|]. cbn [rule_items].
  apply (adv_peek _ sc 0); [by apply past_refl|]. intros sc1 H1.
  destruct (negb first && _).
  { eapply adv_seq; [apply adv_next|exact H1|]. intros ? sc2 H2.
    apply (keeps_ret _ _ _ _ _ _ H2); [lia|]. split; [done|apply grows_refl]. }
  apply (read_some_token _ _ _ _ _ H1); [|intros; exact I]. intros tok sc2 _ H2.
  apply (keeps_seq 0 _ c _ sc 1 sc2); [by apply rule_item_keeps|exact H2|].
  intros c2 sc3 H3 Hc2 Hg2.
  eapply wp_mono; [apply (IH false c2); [done|exact (past_ok _ _ _ H3)|by eapply past_fuel; [exact H3|lia]]|].
  intros c3 sc4 (H4 & Hc3 & Hg3).
  split; [by apply (past_trans sc 1 sc3 0 sc4); [exact H3|exact H4|lia]|]. split; [done|by eapply grows_trans].
Qed.

Lemma parse_rule_keeps asg c :
  cfg_ok c -> (forall n, asg = Some n -> is_Some (cfg_asg c !! n)) -> keeps 0 c (parse_rule asg c).
Proof.
  intros Hc Ha sc Hs. unfold parse_rule.
  eapply wp_then; [by apply rule_head_wp|]. intros [t c1] sc1 (H1 & Hc1 & Hg1). cbn [snd] in *.
  apply (keeps_seq 0 _ c1 _ sc 1 sc1); [by apply rule_log_keeps|exact H1|]. intros c2 sc2 H2 Hc2 Hg2.
  apply (adv_peek _ _ _ _ _ H2). intros sc3 H3.
  pose proof (grows_trans _ _ _ Hg1 Hg2) as Hg.
  destruct (bool_decide _); [|by apply (keeps_ret _ _ _ _ _ _ H3); [lia|]].
  eapply adv_seq; [apply adv_next|exact H3|]. intros ? sc4 H4. apply wp_read.
  eapply wp_mono; [apply rule_items_keeps; [exact Hc2|exact (past_ok _ _ _ H4)|apply acf_fuel_enough]|].
  intros c3 sc5 (H5 & Hc3 & Hg3).
  split; [by apply (past_trans sc 1 sc4 0 sc5); [exact H4|exact H5|lia]|]. split; [done|by eapply grows_trans].
Qed.

(** ** Groups and the file *)

Lemma inp_keyword_bound kw i : inp_keyword kw = Some i -> 0 <= i < 21.
Proof.
  unfold inp_keyword. destruct (bool_decide _); [|done]. unfold parse_inp_index.
  destruct (drop 3 kw) as [|c [|]]; [done| |done].
  destruct ((65 <=? c) && (c <=? 85)) eqn:Hc; [|done]. intros [= <-]. lia.
Qed.

Lemma push_inp_ok name i c : cfg_ok c -> 0 <= index i < 21 -> cfg_ok (push_inp name i c) /\ grows c (push_inp name i c).
Proof.
  intros Hc Hi. unfold push_inp. destruct name as [name|]; [|split; [done|apply grows_refl]].
  cbn [mbind option_bind]. destruct (cfg_asg c !! name) as [g|] eqn:Hg; [|split; [done|apply grows_refl]].
  cbn [mbind option_bind default from_option id].
  destruct (ok_groups c Hc _ _ Hg) as (_ & Hrs & Hin). apply with_group; [done|done|done|].
  intros j Hj. apply elem_of_app in Hj as [Hj|Hj]; [by apply Hin|].
  apply list_elem_of_singleton in Hj. by subst.
Qed.

Lemma asg_items_keeps name : forall fuel first c sc, cfg_ok c -> sc_ok sc ->
  (forall n, name = Some n -> is_Some (cfg_asg c !! n)) -> (length (src sc) < fuel + pos sc)%nat ->
  wp (asg_items fuel first name c sc) (fun c' sc' => past sc 0 sc' /\ cfg_ok c' /\ grows c c').
Proof.
  induction fuel as [|fuel IH]; intros first c sc Hc Hs Hn Hf; [unfold sc_ok in Hs; lia|]. cbn [asg_items].
  apply (adv_peek _ sc 0); [by apply past_refl|]. intros sc1 H1.
  destruct (negb first && _).
  { eapply adv_seq; [apply adv_next|exact H1|]. intros ? sc2 H2.
    apply (keeps_ret _ _ _ _ _ _ H2); [lia|]. split; [done|apply grows_refl]. }
  apply (read_some_token _ _ _ _ _ H1); [|intros; exact I]. intros tok sc2 _ H2.
  destruct tok as [b|b|b|kw]; try exact I.
  apply (keeps_seq 0 _ c _ sc 1 sc2); [|exact H2|].
  - intros sc3 Hs3. destruct (bool_decide _); [by apply parse_rule_keeps|].
    destruct (inp_keyword kw) as [i|] eqn:Hk; [|exact I].
    eapply adv_seq; [apply adv_paren_name|by apply past_refl|]. intros l sc4 H4.
    apply (keeps_ret _ _ _ _ _ _ H4); [lia|]. apply push_inp_ok; [done|]. by apply inp_keyword_bound in Hk.
  - intros c2 sc3 H3 Hc2 Hg2.
    eapply wp_mono; [apply (IH false c2); [done|exact (past_ok _ _ _ H3)| |by eapply past_fuel; [exact H3|lia]]|].
    { intros n Hx. apply Hg2, Hn, Hx. }
    intros c3 sc4 (H4 & Hc3 & Hg3).
    split; [by apply (past_trans sc 1 sc3 0 sc4); [exact H3|exact H4|lia]|]. split; [done|by eapply grows_trans].
Qed.

Lemma adv_refuse_unless (b : bool) why : advances 0 (if b then mret () else refuse why).
Proof. intros sc Hs. destruct b; [by apply past_refl|]. by apply adv_refuse. Qed.

Lemma uag_item_keeps c : cfg_ok c -> keeps 0 c (uag_item c).
Proof.
  intros Hc sc Hs. unfold uag_item.
  eapply adv_seq; [apply adv_paren_name|by apply past_refl|]. intros name sc1 H1.
  eapply adv_seq; [apply adv_refuse_unless|exact H1|]. intros ? sc2 H2.
  eapply adv_seq; [apply adv_optional_list|exact H2|]. intros members sc3 H3.
  destruct (negb _). { apply (keeps_ret _ _ _ _ _ _ H3); [lia|]. split; [done|apply grows_refl]. }
  eapply adv_seq; [apply adv_duplicates|exact H3|]. intros ? sc4 H4.
  apply (keeps_ret _ _ _ _ _ _ H4); [lia|]. split; [|by split]. destruct Hc as [Hd Hg Hh].
  split; cbn [cfg_asg cfg_uag cfg_hag cfg_hag_raw load_id]; [done| |done].
  intros n g Hn. destruct (Hg n g Hn) as (Hi & Hr & Hin). split; [done|]. split; [|done].
  intros r Hx. apply (rule_in_mono (cfg_uag c) (cfg_hag c)); [|done|by apply Hr].
  intros k. apply is_Some_insert.
Qed.

Lemma hag_item_keeps c : cfg_ok c -> keeps 0 c (hag_item c).
Proof.
  intros Hc sc Hs. unfold hag_item.
  eapply adv_seq; [apply adv_paren_name|by apply past_refl|]. intros name sc1 H1.
  eapply adv_seq; [apply adv_refuse_unless|exact H1|]. intros ? sc2 H2.
  eapply adv_seq; [apply adv_optional_list|exact H2|]. intros members sc3 H3.
  destruct (negb _). { apply (keeps_ret _ _ _ _ _ _ H3); [lia|]. split; [done|apply grows_refl]. }
  eapply adv_seq; [apply adv_duplicates|exact H3|]. intros ? sc4 H4.
  apply (keeps_ret _ _ _ _ _ _ H4); [lia|]. split; [|by split]. destruct Hc as [Hd Hg Hh].
  split; cbn [cfg_asg cfg_uag cfg_hag cfg_hag_raw load_id]; [done| |by rewrite fmap_insert, Hh].
  intros n g Hn. destruct (Hg n g Hn) as (Hi & Hr & Hin). split; [done|]. split; [|done].
  intros r Hx. apply (rule_in_mono (cfg_uag c) (cfg_hag c)); [done| |by apply Hr].
  intros k. apply is_Some_insert.
Qed.

Lemma entry_ok name c : cfg_ok c ->
  cfg_ok (entry_or_default name c) /\ grows c (entry_or_default name c) /\
  is_Some (cfg_asg (entry_or_default name c) !! name).
Proof.
  intros Hc. unfold entry_or_default. destruct (cfg_asg c !! name) as [g|] eqn:Hn.
  { split; [done|]. split; [apply grows_refl|]. rewrite Hn. eauto. }
  destruct Hc as [Hd Hg Hh].
  assert (Hgrow : forall n, is_Some (cfg_asg c !! n) ->
    is_Some (<[name := empty_group (load_id c) name]> (cfg_asg c) !! n)).
  { intros n Hx. rewrite lookup_insert_ne; [done|]. intros ->. rewrite Hn in Hx. by destruct Hx. }
  cbn [cfg_asg]. split; [|split; [by split|rewrite lookup_insert_eq; eauto]].
  split; cbn [cfg_asg cfg_uag cfg_hag cfg_hag_raw load_id]; [by apply Hgrow| |done].
  intros n g Hx. destruct (decide (name = n)) as [->|Hne].
  - rewrite lookup_insert_eq in Hx. injection Hx as <-. split; [done|].
    split; intros ? He; by apply not_elem_of_nil in He.
  - rewrite lookup_insert_ne in Hx by done. by apply Hg.
Qed.

Lemma asg_item_keeps c : cfg_ok c -> keeps 0 c (asg_item c).
Proof.
  intros Hc sc Hs. unfold asg_item.
  eapply adv_seq; [apply adv_paren_name|by apply past_refl|]. intros name sc1 H1.
  eapply (wp_then _ _ _ (fun ac sc' => past sc 1 sc' /\ cfg_ok (snd ac) /\ grows c (snd ac) /\
    forall n, fst ac = Some n -> is_Some (cfg_asg (snd ac) !! n))).
  - destruct (from_option _ _ _).
    + eapply adv_seq; [apply adv_refuse|exact H1|]. intros ? sc2 H2. apply wp_ret.
      split; [exact H2|]. split; [done|]. split; [apply grows_refl|done].
    + apply wp_ret. destruct (entry_ok name c Hc) as (Hc2 & Hg2 & Hn2).
      split; [exact H1|]. split; [done|]. split; [done|]. by intros n [= <-].
  - intros [asg c1] sc2 (H2 & Hc1 & Hg1 & Hn). cbn [fst snd] in *.
    apply (adv_peek _ _ _ _ _ H2). intros sc3 H3.
    destruct (bool_decide _); [|apply (keeps_ret _ _ _ _ _ _ H3); [lia|done]].
    unfold parse_asg_body. eapply adv_seq; [apply adv_next|exact H3|]. intros ? sc4 H4. apply wp_read.
    eapply wp_mono; [apply asg_items_keeps; [exact Hc1|exact (past_ok _ _ _ H4)|exact Hn|apply acf_fuel_enough]|].
    intros c3 sc5 (H5 & Hc3 & Hg3).
    split; [by apply (past_trans sc 1 sc4 0 sc5); [exact H4|exact H5|lia]|]. split; [done|by eapply grows_trans].
Qed.

Lemma acf_items_keeps : forall fuel c sc, cfg_ok c -> sc_ok sc -> (length (src sc) < fuel + pos sc)%nat ->
  wp (acf_items fuel c sc) (fun c' sc' => past sc 0 sc' /\ cfg_ok c' /\ grows c c').
Proof.
  induction fuel as [|fuel IH]; intros c sc Hc Hs Hf; [unfold sc_ok in Hs; lia|]. cbn [acf_items].
  apply (read_some_token _ sc 0); [by apply past_refl| |]; cycle 1.
  { intros sc1 H1. apply wp_peek. destruct (head _); [exact I|].
    apply (keeps_ret _ _ _ _ _ _ H1); [lia|]. split; [done|apply grows_refl]. }
  intros tok sc1 _ H1.
  assert (Hagain : forall c2 sc2, past sc 1 sc2 -> cfg_ok c2 -> grows c c2 ->
    wp (acf_items fuel c2 sc2) (fun c' sc' => past sc 0 sc' /\ cfg_ok c' /\ grows c c')).
  { intros c2 sc2 H2 Hc2 Hg2.
    eapply wp_mono; [apply IH; [exact Hc2|exact (past_ok _ _ _ H2)|by eapply past_fuel; [exact H2|lia]]|].
    intros c3 sc3 (H3 & Hc3 & Hg3).
    split; [by apply (past_trans sc 1 sc2 0 sc3); [exact H2|exact H3|lia]|]. split; [done|by eapply grows_trans]. }
  assert (Hskip : forall k, wp ((skip_generic_item k;; acf_items fuel c) sc1)
    (fun c' sc' => past sc 0 sc' /\ cfg_ok c' /\ grows c c')).
  { intros k. eapply adv_seq; [apply adv_generic_item|exact H1|]. intros ? sc2 H2.
    apply Hagain; [exact H2|done|apply grows_refl]. }
  destruct tok as [k|k|k|k]; [apply Hskip|apply Hskip|exact I|].
  apply (keeps_seq 0 _ c _ sc 1 sc1); [|exact H1|by apply Hagain].
  intros sc2 Hs2. destruct (bool_decide _); [by apply uag_item_keeps|].
  destruct (bool_decide _); [by apply hag_item_keeps|].
  destruct (bool_decide _); [by apply asg_item_keeps|exact I].
Qed.

Lemma initial_config_ok load : cfg_ok (initial_config load).
Proof.
  split; cbn [initial_config cfg_asg cfg_uag cfg_hag cfg_hag_raw load_id].
  - rewrite lookup_singleton_eq. eauto.
  - intros n g Hn. apply lookup_singleton_Some in Hn as [<- <-]. split; [done|].
    split; intros ? He; by apply not_elem_of_nil in He.
  - by rewrite fmap_empty.
Qed.

Lemma parse_acf_in_wp load content :
  wp (parse_acf_in load (AcfScanner_new content))
     (fun c _ => cfg_ok c /\ load_id c = load).
Proof.
  apply wp_read. eapply wp_mono.
  - apply acf_items_keeps; [apply initial_config_ok|unfold sc_ok; simpl; lia|apply acf_fuel_enough].
  - intros c sc (_ & Hc & [Hl _]). done.
Qed.

Lemma parse_acf_ok load content c : parse_acf load content = Some (Ok c) -> cfg_ok c /\ load_id c = load.
Proof.
  unfold parse_acf, parse_acf_reporting. pose proof (parse_acf_in_wp load content) as Hw.
  destruct (parse_acf_in load _) as [c' sc| | |]; cbn [wp] in Hw; [|done|done|done].
  destruct (bool_decide _); cbn [parsed]; [|done]. by intros [= <-].
Qed.
End Config.
