(* ===== verification/AccessCorrect.v ===== *)
(** * Access security: what a granted access means

    From the text of the file to the answer of a check: every file is read to a well-formed
    configuration or refused with errors, the published results stay those of the rules,
    and an access is granted only by a rule of the file that is for the client and whose
    condition holds on the values last delivered. *)
From Stdlib Require Import SpecFloat.
From stdpp Require Import base tactics numbers list option strings gmap relations.
From S2P Require Import Prelude Float64 Alarm PvaText Strtod CalcOps CalcCode CalcPostfix CalcEval CalcTheory.
From S2P Require Import AccessSecurity AcfParse CalcUsageTheory AccessTheory AcfScanTheory AcfTheory.
From S2P Require Import CalcCodeTheory CalcCorrect.

Open Scope Z_scope.

(** ** The states a configuration is served with *)

(** The host lookups change between refreshes. *)
Definition refresh (c c' : AccessSecurityConfig) : Prop :=
  exists hs : Hosts, with_refreshed_hags c = Some c'.

Lemma refresh_keeps c c' : rtc refresh c c' ->
  cfg_asg c' = cfg_asg c /\ load_id c' = load_id c /\ cfg_uag c' = cfg_uag c.
Proof.
  intros Hr. induction Hr as [|c1 c2 c3 [hs Hs] _ (IH1 & IH2 & IH3)]; [done|].
  unfold with_refreshed_hags in Hs. destruct (bool_decide _); [done|]. injection Hs as <-. done.
Qed.

(** The stores a load is served with: none of its groups has a state at first; then the
    watcher delivers to one of them, or the states of other loads change. *)
Inductive published `{Host} `{Libm} (c : AccessSecurityConfig) : States -> Prop :=
| pub_load st : (forall n, st !! (load_id c, n) = None) -> published c st
| pub_deliver st n g events sd st' sd' :
    published c st -> cfg_asg c !! n = Some g -> Forall (fun ev => 0 <= fst ev) events ->
    deliver st g events sd = Some (st', sd') -> published c st'
| pub_other st st' :
    published c st -> (forall n, st' !! (load_id c, n) = st !! (load_id c, n)) -> published c st'.

(** The same, with the events each group has been delivered since the load, oldest first. *)
Inductive served `{Host} `{Libm} (c : AccessSecurityConfig) : (bytes -> list (Z * InpEvent)) -> States -> Prop :=
| served_load st : (forall n, st !! (load_id c, n) = None) -> served c (fun _ => []) st
| served_deliver h st n g events sd st' sd' :
    served c h st -> cfg_asg c !! n = Some g -> Forall (fun ev => 0 <= fst ev) events ->
    deliver st g events sd = Some (st', sd') ->
    served c (fun m => if decide (m = n) then h m ++ events else h m) st'
| served_other h st st' :
    served c h st -> (forall n, st' !! (load_id c, n) = st !! (load_id c, n)) -> served c h st'.

Section Served.
Context `{Host} `{Libm}.

Lemma served_settled c h st :
  (forall n g, cfg_asg c !! n = Some g -> state_id g = (load_id c, n) /\ Forall rule_ok (rules g)) ->
  served c h st -> forall n g, cfg_asg c !! n = Some g -> settled (rules g) (h n) (state_of st g).
Proof.
  intros Hok Hp. induction Hp as [st Hn|h st n0 g0 events sd st' sd' _ IH Hg0 Hev Hd|h st st' _ IH Hs];
    intros n g Hg; destruct (Hok n g Hg) as [Hid Hrs]; unfold state_of; rewrite Hid.
  - rewrite Hn. apply settled_default.
  - unfold deliver in Hd. destruct (deliver_events (rules g0) (state_of st g0) events sd) as [[s sd1]|] eqn:He; [|done].
    cbn in Hd. injection Hd as <- <-. destruct (Hok n0 g0 Hg0) as [Hid0 Hrs0]. rewrite Hid0.
    destruct (decide (n = n0)) as [->|Hne].
    + rewrite lookup_insert_eq. cbn [default from_option id]. rewrite Hg0 in Hg. injection Hg as <-.
      apply (deliver_events_settled _ Hrs0 events _ _ _ _ _ (IH _ _ Hg0) Hev He).
    + rewrite lookup_insert_ne by congruence. specialize (IH n g Hg). unfold state_of in IH. by rewrite Hid in IH.
  - rewrite Hs. specialize (IH n g Hg). unfold state_of in IH. by rewrite Hid in IH.
Qed.

Lemma published_served c st : published c st -> exists h, served c h st.
Proof.
  induction 1 as [st Hn|st n g events sd st' sd' _ [h IH] Hg Hev Hd|st st' _ [h IH] Hs].
  - eexists. by apply served_load.
  - eexists. by eapply served_deliver.
  - exists h. by eapply served_other.
Qed.
End Served.

(** What the rules of a well-formed configuration promise the theorems above. *)
Lemma cfg_rules_ok `{Host} `{Hosts} c n g :
  cfg_ok c -> cfg_asg c !! n = Some g -> state_id g = (load_id c, n) /\ Forall rule_ok (rules g).
Proof.
  intros Hc Hg. destruct (ok_groups c Hc _ _ Hg) as (Hid & Hr & _). split; [done|].
  apply list.Forall_forall. intros r Hin. by apply (in_ok _ _ _ (Hr r Hin)).
Qed.

(** A result that is true is the truth of an evaluation on the stored values. *)
Lemma rule_holds_true `{Host} `{Libm} e v previous s1 s2 :
  rule_holds e v previous s1 = Some (true, s2) ->
  exists x m, eval_vars (ce_code e) (mkNumericVars (vars v) (of_bool previous) (num_args v)) s1 = Done (Ok x) m /\
    calc_result_is_true x = true.
Proof.
  unfold rule_holds. destruct (eval_vars _ _ _) as [[x|err] m| |]; [|done|done|done].
  intros [= Ht _]. eauto.
Qed.

(** ** The sample the witnesses use *)

Definition name_hosts : Hosts := {| as_check_client_ip := false; resolve_hag_host := fun _ => None |}.

(** The quotes of the condition are written as [~]. *)
Definition sample_file : list Z := map (fun c => if c =? 126 then 34 else c) (ascii_bytes
  "UAG(ops) {ann,bob} HAG(ctl) {HostA} ASG(DEFAULT) { INPA(gate) RULE(1,READ) RULE(1,WRITE,TRAPWRITE) { UAG(ops) HAG(ctl) CALC(~A=1~) } }").

Definition sample_config : AccessSecurityConfig :=
  match @parse_acf little_host name_hosts 7 sample_file with
  | Some (Ok c) => c
  | _ => initial_config 7
  end.

Definition sample_group : AccessSecurityGroup :=
  default (empty_group 7 DEFAULT) (cfg_asg sample_config !! DEFAULT).

Definition gate_opens : list (Z * InpEvent) := [(0, Reading (mkInpReading f64_one NoAlarm))].

Definition sample_states : States :=
  match @deliver little_host first_libm ∅ sample_group gate_opens 5 with
  | Some (st, _) => st
  | None => ∅
  end.

Definition ann : Client := mkClient (ascii_bytes "hosta") (ascii_bytes "ann") [] [] [].

Lemma sample_parses : @parse_acf little_host name_hosts 7 sample_file = Some (Ok sample_config).
Proof. vm_compute. reflexivity. Qed.

Lemma sample_delivered :
  exists sd', @deliver little_host first_libm ∅ sample_group gate_opens 5 = Some (sample_states, sd').
Proof. eexists. vm_compute. reflexivity. Qed.

(** The events of the sample: only [DEFAULT] is delivered to. *)
Definition sample_history : bytes -> list (Z * InpEvent) :=
  fun m => if decide (m = DEFAULT) then [] ++ gate_opens else [].

Lemma sample_served : @served little_host first_libm sample_config sample_history sample_states.
Proof.
  destruct sample_delivered as [sd' Hd].
  apply (@served_deliver little_host first_libm sample_config (fun _ => []) ∅ DEFAULT sample_group gate_opens 5 _ sd').
  - apply served_load. intros n. apply lookup_empty.
  - vm_compute. reflexivity.
  - apply List.Forall_cons; [simpl; lia|apply List.Forall_nil].
  - exact Hd.
Qed.

Lemma sample_published : @published little_host first_libm sample_config sample_states.
Proof.
  destruct sample_delivered as [sd' Hd].
  apply (@pub_deliver little_host first_libm sample_config ∅ DEFAULT sample_group gate_opens 5 _ sd').
  - apply pub_load. intros n. apply lookup_empty.
  - vm_compute. reflexivity.
  - apply List.Forall_cons; [simpl; lia|apply List.Forall_nil].
  - exact Hd.
Qed.

(** The example the comments give, [RULE(0, READ) RULE(1, WRITE)]: a rule is for the records
    whose level is at most its own, so a record of level 0 is writable, as is one of level 1,
    and one of level 2 has no access. *)
Definition levels_file : list Z := ascii_bytes "ASG(DEFAULT) { RULE(0,READ) RULE(1,WRITE) }".

Lemma low_level_record_is_writable :
  match @parse_acf little_host name_hosts 7 levels_file with
  | Some (Ok c) => map (compute_for_name ∅ c DEFAULT ann) [0; 1; 2] = [(ReadWrite, false); (ReadWrite, false); (NoAccess, false)]
  | _ => False
  end.
Proof. vm_compute. reflexivity. Qed.

(** ** The claims *)

(** C16: Reading an access security file ends on every byte string without a panic.  A refused
    file has errors; an accepted one has a [DEFAULT] group, its rules name groups the file
    defines, every condition compiled to a program that stores nothing with the inputs it
    reads, its inputs are among A to U and its host groups are the resolved members. *)
Theorem acf_file_is_read `{Host} `{Hosts} load content :
  match parse_acf load content with
  | Some (Ok c) => cfg_ok c /\ load_id c = load
  | Some (Err errs) => errs <> []
  | None => False
  end.
Proof.
  unfold parse_acf, parse_acf_reporting. pose proof (parse_acf_in_wp load content) as Hw.
  destruct (parse_acf_in load _) as [c sc|l sc| |]; cbn [wp] in Hw;
    [| |done|done]; cycle 1.
  { cbv zeta. cbn [parsed error_at errors line]. intros He. by apply app_eq_nil in He as [_ He]. }
  case_bool_decide as He; cbn [parsed]; [done|]. intros E. by rewrite E in He.
Qed.

(** C15: Although a delivery runs again only the rules that read the input it changes, a
    group's published values are, for each input, the last reading since the load that was
    not invalid (zero before one), and every result it publishes is its rule's answer on
    those values with the previous result some truth value; or every event since the load of
    an input the rule reads was a disconnection, and the result is false. *)
Theorem published_results_are_current `{Host} `{Libm} `{Hosts} load content c h st n g i r e :
  parse_acf load content = Some (Ok c) -> served c h st -> cfg_asg c !! n = Some g ->
  rules g !! i = Some r -> ignore r = false -> calc_compiled r = Some e ->
  values (state_of st g) = last_readings (h n) /\
  ((exists previous s1 s2, rule_holds e (last_readings (h n)) previous s1 =
      Some (rule_result (state_of st g) i, s2)) \/
   (rule_result (state_of st g) i = false /\ unread (h n) r)).
Proof.
  intros Hp Hpub Hg Hr Hi He. apply parse_acf_ok in Hp as [Hc _].
  pose proof (served_settled c h st (fun n g => cfg_rules_ok c n g Hc) Hpub n g Hg) as [_ Hv Hs].
  split; [done|]. by apply (Hs i r e).
Qed.

Lemma published_results_are_current_witness :
  exists r e previous s1 s2,
    rules sample_group !! 1%nat = Some r /\ calc_compiled r = Some e /\
    @rule_holds little_host first_libm e (last_readings gate_opens) previous s1 =
      Some (rule_result (state_of sample_states sample_group) 1, s2).
Proof.
  assert (Hr : is_Some (rules sample_group !! 1%nat)) by (vm_compute; eauto). destruct Hr as [r Hr].
  assert (He : exists e, calc_compiled r = Some e /\ ignore r = false /\ inp_used r = 1).
  { vm_compute in Hr. injection Hr as <-. eexists. split; [reflexivity|]. split; reflexivity. }
  destruct He as (e & He & Hi & Hu).
  destruct (@published_results_are_current little_host first_libm name_hosts 7 sample_file sample_config
    sample_history sample_states DEFAULT sample_group 1 r e sample_parses sample_served ltac:(vm_compute; reflexivity) Hr Hi He)
    as [_ [(p & s1 & s2 & Hh)|[_ Hg]]].
  - exists r, e, p, s1, s2. exact (conj Hr (conj He Hh)).
  - exfalso. assert (Hx : Reading (mkInpReading f64_one NoAlarm) = Disconnected); [|discriminate Hx].
    apply (Hg 0); [|rewrite Hu; reflexivity]. vm_compute. apply list_elem_of_singleton. reflexivity.
Defined.

(** C2: A check that grants access does so by a rule of the file: of the group it names, or
    of [DEFAULT] for a name the file does not have; not disabled, giving that level with
    that trap flag, for the record's level, for the client's user, host, method and
    authority; and when it has a condition, every declared input it reads is good and the
    compiled text of the file evaluates to one on the values last delivered. *)
Theorem granted_access_is_licensed `{Host} `{Libm} `{Hosts} load content c0 c st asg cl record_asl lvl trapped :
  parse_acf load content = Some (Ok c0) -> rtc refresh c0 c -> published c st ->
  compute_for_name st c asg cl record_asl = (lvl, trapped) -> lvl <> NoAccess ->
  exists n g i r,
    cfg_asg c !! n = Some g /\ (n = asg \/ n = DEFAULT /\ cfg_asg c !! asg = None) /\
    rules g !! i = Some r /\ ignore r = false /\ rule_access r = lvl /\ trap r = trapped /\
    record_asl <= level r /\ user_match c cl r = true /\ host_match c cl r = true /\
    method_match cl r = true /\ authority_match cl r = true /\
    (forall text, calc_text r = Some text ->
       Z.land (inp_bad st g) (inp_used r) = 0 /\
       exists code previous s1 x m, compile text = Some (Ok code) /\
         eval_vars code (mkNumericVars (vars (values (state_of st g))) (of_bool previous)
                           (num_args (values (state_of st g)))) s1 = Done (Ok x) m /\
         calc_result_is_true x = true).
Proof.
  intros Hp Hr Hpub Hcheck Hl. apply parse_acf_ok in Hp as [Hc _].
  destruct (refresh_keeps _ _ Hr) as (Hasg & Hload & _).
  unfold compute_for_name in Hcheck. destruct (asg_or_default c asg) as [g|] eqn:Hg; [|congruence].
  assert (Hname : exists n, cfg_asg c !! n = Some g /\ (n = asg \/ n = DEFAULT /\ cfg_asg c !! asg = None)).
  { unfold asg_or_default in Hg. destruct (cfg_asg c !! asg) as [g'|] eqn:He; simplify_eq; eauto. }
  destruct Hname as (n & Hn & Hcase).
  destruct (grant_has_rule st c g cl record_asl lvl trapped Hcheck Hl) as (i & r & Hi & Ha & Hlvl & Htr).
  apply rule_applies_parts in Ha as (Hign & Hasl & Hu & Hh & Hm & Hau & Hcalc).
  exists n, g, i, r. do 11 (split; [done|]). intros text Ht. destruct (Hcalc text Ht) as [Hb Hres]. split; [done|].
  destruct (ok_groups c0 Hc n g ltac:(by rewrite <- Hasg)) as (_ & Hrules & _).
  destruct (in_calc _ _ _ (Hrules r (list_elem_of_lookup_2 _ _ _ Hi)) text Ht) as (e & He & Hcomp).
  apply published_served in Hpub as [h Hpub].
  assert (Hset : settled (rules g) (h n) (state_of st g)).
  { apply (served_settled c h st); [|done|done].
    intros n' g' Hg'. rewrite Hasg in Hg'. rewrite Hload. by apply cfg_rules_ok. }
  rewrite (settled_values _ _ _ Hset). destruct (settled_rules _ _ _ Hset i r e Hi Hign He) as [(p & s1 & s2 & Hholds)|[Hf _]]; [|congruence].
  rewrite Hres in Hholds. apply rule_holds_true in Hholds as (x & m & Hx & Htrue).
  exists (ce_code e), p, s1, x, m. done.
Qed.

Lemma granted_access_is_licensed_witness :
  compute_for_name sample_states sample_config (ascii_bytes "none") ann 1 = (ReadWrite, true) /\
  exists i r, rules sample_group !! i = Some r /\ rule_access r = ReadWrite /\ trap r = true /\
    host_match sample_config ann r = true /\
    (forall text, calc_text r = Some text ->
       Z.land (inp_bad sample_states sample_group) (inp_used r) = 0).
Proof.
  assert (Hcheck : compute_for_name sample_states sample_config (ascii_bytes "none") ann 1 = (ReadWrite, true))
    by (vm_compute; reflexivity).
  split; [exact Hcheck|].
  destruct (@granted_access_is_licensed little_host first_libm name_hosts 7 sample_file sample_config sample_config
    sample_states (ascii_bytes "none") ann 1 ReadWrite true sample_parses (rtc_refl _ _) sample_published Hcheck
    ltac:(discriminate)) as (n & g & i & r & Hn & Hcase & Hi & _ & Hl & Ht & _ & _ & Hh & _ & _ & Hcalc).
  assert (Hnone : cfg_asg sample_config !! ascii_bytes "none" = None) by (vm_compute; reflexivity).
  assert (Hd : cfg_asg sample_config !! DEFAULT = Some sample_group) by (vm_compute; reflexivity).
  destruct Hcase as [->|[-> _]].
  { exfalso. rewrite Hnone in Hn. discriminate Hn. }
  pose proof (inj Some _ _ (eq_trans (eq_sym Hn) Hd)) as Hg. subst g.
  exists i, r. split; [exact Hi|]. split; [exact Hl|]. split; [exact Ht|]. split; [exact Hh|]. intros text Htext. exact (proj1 (Hcalc text Htext)).
Defined.
