(* ===== verification/AccessGate.v ===== *)
(** * Access security: the gate and its cache of checks

    [AccessGate] of [epics-base-rs/src/server/access_security.rs]: a check answers from a cache
    entry whose three stamps still hold, or resolves the record's group, walks the rules and
    stores the answer.  Checks run concurrently with each other and with the changes of
    policy, inputs and record groups; a check is a state machine whose steps are the source's
    loads and stores, and a change publishes first and moves the generation after
    ([notify_asg_field_changed]). *)
From stdpp Require Import base tactics numbers list option strings gmap relations.
From S2P Require Import Prelude Float64 Alarm Strtod AccessSecurity.

Open Scope Z_scope.

(** ** The gate *)

(** [CheckKey]: the record, then host, user, method, authority and roles. *)
Definition CheckKey : Type := bytes * (bytes * bytes * bytes * bytes * list bytes).

Definition key_client (k : CheckKey) : Client :=
  let '(_, (h, u, m, a, rs)) := k in mkClient h u rs m a.

Abbreviation Answer := (AccessLevel * bool)%type.

Record CachedCheck : Type := mkCachedCheck {
  entry_version : Z;
  entry_generation : Z;
  cfg_ident : Z;
  entry_answer : Answer;
}.

Definition CHECK_CACHE_CAP : nat := 4096.

(** What the checks share: the policy with the address of its [Arc], what the resolver reads
    of the records, the published input states, the two counters and the cache. *)
Record Gate : Type := mkGate {
  policy : option (Z * AccessSecurityConfig);
  resolver : bytes -> bytes * Z;
  input_states : States;
  acl_version : Z;
  asg_generation : Z;
  check_cache : gmap CheckKey CachedCheck;
}.

(** One call of [check_with_roles], between its loads and stores.  It holds the [Arc] of the
    policy it loaded until it answers. *)
Inductive Check : Type :=
| Begin (k : CheckKey)
| Loaded (k : CheckKey) (id : Z) (c : AccessSecurityConfig)
| Versioned (k : CheckKey) (id : Z) (c : AccessSecurityConfig) (v : Z)
| Stamped (k : CheckKey) (id : Z) (c : AccessSecurityConfig) (v g : Z)
| Missed (k : CheckKey) (id : Z) (c : AccessSecurityConfig) (v g : Z)
| Resolved (k : CheckKey) (id : Z) (c : AccessSecurityConfig) (v g : Z) (asg : bytes) (asl : Z)
| Computed (k : CheckKey) (id : Z) (c : AccessSecurityConfig) (v g : Z) (a : Answer)
| Answered (k : CheckKey) (a : Answer).

Definition with_cache (s : Gate) (c : gmap CheckKey CachedCheck) : Gate :=
  mkGate (policy s) (resolver s) (input_states s) (acl_version s) (asg_generation s) c.

(** The entry for a key, if its stamps hold. *)
Definition cache_hit (s : Gate) (k : CheckKey) (id v g : Z) : option Answer :=
  e ← check_cache s !! k;
  if (entry_version e =? v) && (entry_generation e =? g) && (cfg_ident e =? id)
  then Some (entry_answer e) else None.

(** Insert, flushing a full map first. *)
Definition cache_insert (s : Gate) (k : CheckKey) (e : CachedCheck) : Gate :=
  let cache := if (CHECK_CACHE_CAP <=? size (check_cache s))%nat then ∅ else check_cache s in
  with_cache s (<[k := e]> cache).

(** The next step of [check_with_roles] on a gate with an ACF cell. *)
Definition check_step (s : Gate) (c : Check) : Gate * Check :=
  match c with
  | Begin k =>
      (s, match policy s with
          | None => Answered k (ReadWrite, false)
          | Some (id, cfg) => Loaded k id cfg
          end)
  | Loaded k id cfg => (s, Versioned k id cfg (acl_version s))
  | Versioned k id cfg v => (s, Stamped k id cfg v (asg_generation s))
  | Stamped k id cfg v g =>
      (s, match cache_hit s k id v g with
          | Some a => Answered k a
          | None => Missed k id cfg v g
          end)
  | Missed k id cfg v g =>
      let '(asg, asl) := resolver s (fst k) in (s, Resolved k id cfg v g asg asl)
  | Resolved k id cfg v g asg asl =>
      (s, Computed k id cfg v g (compute_for_name (input_states s) cfg asg (key_client k) asl))
  | Computed k id cfg v g a => (cache_insert s k (mkCachedCheck v g id a), Answered k a)
  | Answered k a => (s, Answered k a)
  end.

(** [check_with_roles] with nothing else running. *)
Fixpoint check_run (n : nat) (s : Gate) (c : Check) : Gate * Check :=
  match n with
  | O => (s, c)
  | S n => let '(s, c) := check_run n s c in check_step s c
  end.

Definition check_with_roles (s : Gate) (k : CheckKey) : Gate * Check := check_run 7 s (Begin k).

(** [check_with_roles] on an open gate. *)
Definition check_open : Answer := (ReadWrite, false).

Definition allows_read (a : Answer) : bool := negb (bool_decide (fst a = NoAccess)).
Definition allows_write (a : Answer) : bool := bool_decide (fst a = ReadWrite).

(** [AccessGate::bump_acl_version] and [notify_asg_field_changed]. *)
Definition bump_acl_version (s : Gate) : Gate :=
  mkGate (policy s) (resolver s) (input_states s) (wrap 64 (acl_version s + 1)) (asg_generation s) (check_cache s).
Definition notify_asg_field_changed (s : Gate) : Gate :=
  mkGate (policy s) (resolver s) (input_states s) (acl_version s) (wrap 64 (asg_generation s + 1)) (check_cache s).

(** ** Interleavings *)

(** The gate, the changes that are between their first publication and their notification,
    and the checks there are, by task. *)
Record System : Type := mkSystem {
  gate : Gate;
  changing : nat;
  checks : gmap nat Check;
}.

(** The policy a check keeps alive. *)
Definition held (c : Check) : option (Z * AccessSecurityConfig) :=
  match c with
  | Loaded _ id cfg | Versioned _ id cfg _ | Stamped _ id cfg _ _ | Missed _ id cfg _ _
  | Resolved _ id cfg _ _ _ _ | Computed _ id cfg _ _ _ => Some (id, cfg)
  | Begin _ | Answered _ _ => None
  end.

(** A new [Arc] is at an address no live one has. *)
Definition fresh_arc (s : System) (id : Z) : Prop :=
  (forall id' c, policy (gate s) = Some (id', c) -> id' <> id) /\
  (forall t ck id' c, checks s !! t = Some ck -> held ck = Some (id', c) -> id' <> id).

(** What one publication writes: the policy ([AcfCell::store], [replace_derived]), the group of
    a record, or the inputs of a group ([deliver]). *)
Inductive publishes (s : System) : Gate -> Prop :=
| pub_policy id c : fresh_arc s id ->
    publishes s (mkGate (Some (id, c)) (resolver (gate s)) (input_states (gate s)) (acl_version (gate s))
                   (asg_generation (gate s)) (check_cache (gate s)))
| pub_clear :
    publishes s (mkGate None (resolver (gate s)) (input_states (gate s)) (acl_version (gate s))
                   (asg_generation (gate s)) (check_cache (gate s)))
| pub_group r :
    publishes s (mkGate (policy (gate s)) r (input_states (gate s)) (acl_version (gate s))
                   (asg_generation (gate s)) (check_cache (gate s)))
| pub_inputs st :
    publishes s (mkGate (policy (gate s)) (resolver (gate s)) st (acl_version (gate s))
                   (asg_generation (gate s)) (check_cache (gate s))).

(** Steps that change no access: a check starts or goes on, the owner bumps its version. *)
Inductive quiet_step (s : System) : System -> Prop :=
| step_start t k : checks s !! t = None ->
    quiet_step s (mkSystem (gate s) (changing s) (<[t := Begin k]> (checks s)))
| step_check t c : checks s !! t = Some c ->
    quiet_step s (mkSystem (fst (check_step (gate s) c)) (changing s)
                    (<[t := snd (check_step (gate s) c)]> (checks s)))
| step_bump : quiet_step s (mkSystem (bump_acl_version (gate s)) (changing s) (checks s)).

(** All steps: a change starts with a publication, may publish more, and ends with its
    notification.  The generation is a 64-bit counter and is taken not to come round. *)
Inductive step (s : System) : System -> Prop :=
| step_quiet s' : quiet_step s s' -> step s s'
| step_change g : publishes s g -> step s (mkSystem g (S (changing s)) (checks s))
| step_publish g n : publishes s g -> changing s = S n -> step s (mkSystem g (changing s) (checks s))
| step_notify n : changing s = S n -> asg_generation (gate s) + 1 < 2 ^ 64 ->
    step s (mkSystem (notify_asg_field_changed (gate s)) n (checks s)).

(** Before any check: an empty cache. *)
Definition initial (s : System) : Prop :=
  check_cache (gate s) = ∅ /\ checks s = ∅ /\ changing s = O /\ 0 <= asg_generation (gate s) < 2 ^ 64.

(** What a check should answer: the rule walk on the present policy, group and inputs. *)
Definition present_answer (s : Gate) (k : CheckKey) : Answer :=
  match policy s with
  | None => (ReadWrite, false)
  | Some (_, c) =>
      let '(asg, asl) := resolver s (fst k) in compute_for_name (input_states s) c asg (key_client k) asl
  end.

(** ** The cache holds no stale answer *)

(** The generation a check has loaded. *)
Definition stamp (c : Check) : option Z :=
  match c with
  | Stamped _ _ _ _ g | Missed _ _ _ _ g | Resolved _ _ _ _ g _ _ | Computed _ _ _ _ g _ => Some g
  | _ => None
  end.

(** What a check has learned, while nothing is changing and its stamp is the present one. *)
Definition learned (s : Gate) (c : Check) : Prop :=
  match c with
  | Resolved k _ _ _ _ asg asl => resolver s (fst k) = (asg, asl)
  | Computed k id _ _ _ a => forall c', policy s = Some (id, c') -> a = present_answer s k
  | _ => True
  end.

Record coherent (s : System) : Prop := mkCoherent {
  co_range : 0 <= asg_generation (gate s) < 2 ^ 64;
  co_entries : forall k e, check_cache (gate s) !! k = Some e -> entry_generation e <= asg_generation (gate s);
  co_stamps : forall t c g, checks s !! t = Some c -> stamp c = Some g -> g <= asg_generation (gate s);
  co_arcs : forall t c id c1 c2, checks s !! t = Some c -> held c = Some (id, c1) ->
    policy (gate s) = Some (id, c2) -> c1 = c2;
  co_fresh : changing s = O -> forall k e id c, check_cache (gate s) !! k = Some e ->
    policy (gate s) = Some (id, c) -> entry_generation e = asg_generation (gate s) -> cfg_ident e = id ->
    entry_answer e = present_answer (gate s) k;
  co_learned : changing s = O -> forall t c, checks s !! t = Some c ->
    stamp c = Some (asg_generation (gate s)) -> learned (gate s) c;
}.

Lemma initial_coherent s : initial s -> coherent s.
Proof.
  intros (Hc & Ht & Hn & Hg). split; [done| | | | |]; intros; rewrite ?Hc, ?Ht, ?lookup_empty in *; done.
Qed.

(** A check step moves only the cache. *)
Lemma check_step_gate s c :
  policy (fst (check_step s c)) = policy s /\ resolver (fst (check_step s c)) = resolver s /\
  input_states (fst (check_step s c)) = input_states s /\ asg_generation (fst (check_step s c)) = asg_generation s.
Proof. destruct c; cbn [check_step]; try done. by destruct (resolver s (fst k)). Qed.

Lemma present_same s s' k :
  policy s' = policy s -> resolver s' = resolver s -> input_states s' = input_states s ->
  present_answer s' k = present_answer s k.
Proof. unfold present_answer. by intros -> -> ->. Qed.

Lemma present_step s c k : present_answer (fst (check_step s c)) k = present_answer s k.
Proof. destruct (check_step_gate s c) as (H1 & H2 & H3 & _). by apply present_same. Qed.

Lemma learned_same s s' c :
  policy s' = policy s -> resolver s' = resolver s -> input_states s' = input_states s ->
  learned s c -> learned s' c.
Proof.
  intros Hp Hr Hi. destruct c; simpl; rewrite ?Hp, ?Hr; try done.
  intros Hl c' Hc. rewrite (present_same s s') by done. by apply (Hl c').
Qed.

(** The entry a check leaves behind. *)
Lemma cache_step s c k e :
  check_cache (fst (check_step s c)) !! k = Some e ->
  check_cache s !! k = Some e \/
  (exists id cfg v g a, c = Computed k id cfg v g a /\ e = mkCachedCheck v g id a).
Proof.
  destruct c; cbn [check_step fst]; auto; [destruct (resolver s (fst k0)); by left|].
  unfold cache_insert, with_cache. cbn [check_cache]. intros He.
  destruct (decide (k0 = k)) as [->|Hk].
  - rewrite lookup_insert_eq in He. injection He as <-. right. eauto 10.
  - rewrite lookup_insert_ne in He by done. destruct (_ <=? _)%nat; [by rewrite lookup_empty in He|by left].
Qed.

Lemma check_step_held s c id cfg :
  held (snd (check_step s c)) = Some (id, cfg) -> held c = Some (id, cfg) \/ policy s = Some (id, cfg).
Proof.
  destruct c; cbn [check_step snd]; auto.
  - destruct (policy s) as [[id' c']|]; [|done]. cbn [held]. by intros [= <- <-]; right.
  - destruct (cache_hit _ _ _ _ _); [done|auto].
  - destruct (resolver s (fst k)). auto.
  - done.
Qed.

Lemma check_step_stamp s c g :
  stamp (snd (check_step s c)) = Some g -> stamp c = Some g \/ g = asg_generation s.
Proof.
  destruct c; cbn [check_step snd]; auto.
  - by destruct (policy s) as [[]|].
  - cbn [stamp]. intros [= <-]. by right.
  - destruct (cache_hit _ _ _ _ _); [done|auto].
  - destruct (resolver s (fst k)). auto.
  - done.
Qed.

(** What a step teaches a check of the present stamp. *)
Lemma check_step_learns s c :
  (forall id c1 c2, held c = Some (id, c1) -> policy s = Some (id, c2) -> c1 = c2) ->
  learned s c -> learned (fst (check_step s c)) (snd (check_step s c)).
Proof.
  intros Ha Hl. destruct c; cbn [check_step fst snd learned]; try done.
  - by destruct (policy s) as [[]|].
  - by destruct (cache_hit _ _ _ _ _).
  - destruct (resolver s (fst k)) eqn:Hr. cbn [fst snd learned]. by rewrite Hr.
  - intros c' Hc. unfold present_answer. rewrite Hc. cbn [learned] in Hl. rewrite Hl.
    by rewrite (Ha id c c' eq_refl Hc).
Qed.

Lemma lookup_insert_cases {A} (m : gmap nat A) t x t' y :
  <[t := x]> m !! t' = Some y -> y = x \/ m !! t' = Some y.
Proof.
  destruct (decide (t = t')) as [->|Ht]; [rewrite lookup_insert_eq|rewrite lookup_insert_ne by done]; [|auto].
  intros [= ->]. by left.
Qed.

Lemma quiet_coherent s s' : quiet_step s s' -> coherent s -> coherent s'.
Proof.
  intros Hq [Hr He Hs Ha Hf Hl]. destruct Hq as [t k Ht|t c Hc|].
  - split; cbn [gate changing checks]; auto.
    + intros t' c g Hx Hg. apply lookup_insert_cases in Hx as [->|Hx]; [done|by apply (Hs t' c)].
    + intros t' c id c1 c2 Hx. apply lookup_insert_cases in Hx as [->|Hx]; [done|by apply (Ha t' c)].
    + intros Hn t' c Hx Hg. apply lookup_insert_cases in Hx as [->|Hx]; [done|by apply (Hl Hn t')].
  - destruct (check_step_gate (gate s) c) as (Gp & Gr & Gi & Gg).
    split; cbn [gate changing checks]; rewrite ?Gg, ?Gp.
    + done.
    + intros k e Hk. apply cache_step in Hk as [Hk|(id & cfg & v & g & a & -> & ->)]; [by apply (He k)|].
      by apply (Hs t _ g Hc).
    + intros t' c' g Hx Hg. apply lookup_insert_cases in Hx as [->|Hx]; [|by apply (Hs t' c')].
      apply check_step_stamp in Hg as [Hg| ->]; [by apply (Hs t c)|done].
    + intros t' c' id c1 c2 Hx Hh Hp. apply lookup_insert_cases in Hx as [->|Hx]; [|by apply (Ha t' c' id)].
      apply check_step_held in Hh as [Hh|Hh]; [by apply (Ha t c id)|congruence].
    + intros Hn k e id cfg Hk Hp Hg Hi. rewrite present_step.
      apply cache_step in Hk as [Hk|(id' & cfg' & v & g & a & -> & ->)]; [by apply (Hf Hn k e id cfg)|].
      cbn [entry_generation cfg_ident entry_answer] in *. subst g id'.
      apply (Hl Hn t _ Hc eq_refl cfg Hp).
    + intros Hn t' c' Hx Hg. apply lookup_insert_cases in Hx as [->|Hx].
      * apply check_step_learns; [intros id c1 c2; apply (Ha t c id c1 c2 Hc)|].
        destruct (stamp c) as [g0|] eqn:H0; [|by destruct c].
        apply (Hl Hn t c Hc). rewrite H0. f_equal.
        destruct c; cbn [check_step snd stamp] in *; simplify_eq; try done;
          [destruct (cache_hit _ _ _ _ _); [done|]|destruct (resolver _ _)]; cbn [snd stamp] in Hg; by simplify_eq.
      * apply (learned_same (gate s)); [done|done|done|]. by apply (Hl Hn t').
  - split; cbn [gate changing checks bump_acl_version policy resolver input_states asg_generation check_cache]; auto.
Qed.

Lemma publish_coherent s g n :
  publishes s g -> n <> O -> coherent s -> coherent (mkSystem g n (checks s)).
Proof.
  intros Hp Hn [Hr He Hs Ha Hf Hl]. destruct Hp as [id c [Hid1 Hid2]| | |];
    split; cbn [gate changing checks policy asg_generation check_cache]; try done.
  intros t ck id' c1 c2 Hx Hh [= <- <-]. by destruct (Hid2 t ck id c1 Hx Hh).
Qed.

Lemma step_coherent s s' : step s s' -> coherent s -> coherent s'.
Proof.
  intros Hst Hco. destruct Hst as [s' Hq|g Hp|g n Hp Hn|n Hn Hb].
  - by apply (quiet_coherent s).
  - by apply publish_coherent.
  - apply publish_coherent; [done|by rewrite Hn|done].
  - destruct Hco as [Hr He Hs Ha Hf Hl].
    assert (Hw : asg_generation (notify_asg_field_changed (gate s)) = asg_generation (gate s) + 1).
    { cbn [notify_asg_field_changed asg_generation]. apply wrap_small. unfold is_uint. lia. }
    split; cbn [gate changing checks]; rewrite ?Hw; cbn [policy check_cache notify_asg_field_changed].
    + lia.
    + intros k e Hk. specialize (He k e Hk). lia.
    + intros t c g Hx Hg. specialize (Hs t c g Hx Hg). lia.
    + exact Ha.
    + intros _ k e id c Hk _ Hg. specialize (He k e Hk). lia.
    + intros _ t c Hx Hg. specialize (Hs t c _ Hx Hg). lia.
Qed.

Lemma reachable_coherent s0 s : initial s0 -> rtc step s0 s -> coherent s.
Proof.
  intros Hi Hs. apply initial_coherent in Hi. revert Hi.
  induction Hs as [|s1 s2 s3 H12 _ IH]; [done|]. intros Hc. apply IH. by apply (step_coherent s1).
Qed.

(** ** A check that starts once a change is notified *)

(** What a check has found, with nothing changing since it started. *)
Definition up_to_date (s : Gate) (c : Check) : Prop :=
  match c with
  | Begin _ => True
  | Loaded _ id cfg | Versioned _ id cfg _ => policy s = Some (id, cfg)
  | Stamped _ id cfg _ g | Missed _ id cfg _ g => policy s = Some (id, cfg) /\ g = asg_generation s
  | Resolved k id cfg _ g asg asl =>
      policy s = Some (id, cfg) /\ g = asg_generation s /\ resolver s (fst k) = (asg, asl)
  | Computed k id cfg _ g a =>
      policy s = Some (id, cfg) /\ g = asg_generation s /\ a = present_answer s k
  | Answered k a => a = present_answer s k
  end.

Lemma check_step_up_to_date s c :
  (forall k e id cfg, check_cache s !! k = Some e -> policy s = Some (id, cfg) ->
     entry_generation e = asg_generation s -> cfg_ident e = id -> entry_answer e = present_answer s k) ->
  up_to_date s c -> up_to_date (fst (check_step s c)) (snd (check_step s c)).
Proof.
  intros Hf. destruct c; cbn [check_step fst snd up_to_date]; try done.
  - destruct (policy s) as [[id cfg]|] eqn:Hp; cbn [up_to_date]; [done|]. unfold present_answer. by rewrite Hp.
  - intros [Hp ->]. unfold cache_hit.
    destruct (check_cache s !! k) as [e|] eqn:He; cbn [mbind option_bind]; [|done].
    destruct ((entry_version e =? v) && (entry_generation e =? asg_generation s) && (cfg_ident e =? id)) eqn:Hm;
      cbn [up_to_date]; [|done].
    rewrite !andb_true_iff, !Z.eqb_eq in Hm. destruct Hm as [[_ Hg] Hi]. by apply (Hf k e id c).
  - intros [Hp ->]. destruct (resolver s (fst k)) as [asg asl] eqn:Hr. cbn [fst snd up_to_date]. by rewrite Hr.
  - intros (Hp & -> & Hr). do 2 (split; [done|]). unfold present_answer. by rewrite Hp, Hr.
  - intros (Hp & -> & ->). symmetry. by apply present_same.
Qed.

Lemma up_to_date_same s s' c :
  policy s' = policy s -> resolver s' = resolver s -> input_states s' = input_states s ->
  asg_generation s' = asg_generation s -> up_to_date s c -> up_to_date s' c.
Proof.
  intros Hp Hr Hi Hg. destruct c; cbn [up_to_date]; rewrite ?Hp, ?Hr, ?Hg, ?(present_same s s' _ Hp Hr Hi); done.
Qed.

(** A quiet step keeps what the checks answer from. *)
Lemma quiet_same s s' : quiet_step s s' ->
  changing s' = changing s /\ policy (gate s') = policy (gate s) /\ resolver (gate s') = resolver (gate s) /\
  input_states (gate s') = input_states (gate s) /\ asg_generation (gate s') = asg_generation (gate s).
Proof.
  intros Hq. destruct Hq as [| t c _|]; cbn [changing gate]; [done| |done].
  destruct (check_step_gate (gate s) c) as (H1 & H2 & H3 & H4). done.
Qed.

(** The checks that were not there at the start of a quiet run. *)
Lemma quiet_up_to_date s s' (old : gset nat) :
  coherent s -> changing s = O ->
  (forall t c, t ∉ old -> checks s !! t = Some c -> up_to_date (gate s) c) ->
  quiet_step s s' ->
  forall t c, t ∉ old -> checks s' !! t = Some c -> up_to_date (gate s') c.
Proof.
  intros Hco Hn Hall Hq t' c' Hold Hx.
  destruct (quiet_same _ _ Hq) as (_ & Gp & Gr & Gi & Gg).
  destruct Hq as [t k Ht|t c Hc|]; cbn [gate checks] in *.
  - apply lookup_insert_cases in Hx as [->|Hx]; [done|by apply (Hall t')].
  - destruct (decide (t = t')) as [->|Hne].
    + rewrite lookup_insert_eq in Hx. injection Hx as <-.
      apply check_step_up_to_date; [|by apply (Hall t')]. intros k e id cfg. apply (co_fresh s Hco Hn).
    + rewrite lookup_insert_ne in Hx by done. by apply (up_to_date_same (gate s)), (Hall t').
  - by apply (up_to_date_same (gate s)), (Hall t').
Qed.

Lemma quiet_run s s' (old : gset nat) :
  coherent s -> changing s = O ->
  (forall t c, t ∉ old -> checks s !! t = Some c -> up_to_date (gate s) c) ->
  rtc quiet_step s s' ->
  (forall t c, t ∉ old -> checks s' !! t = Some c -> up_to_date (gate s') c) /\
  (forall k, present_answer (gate s') k = present_answer (gate s) k).
Proof.
  intros Hco Hn Hall Hrun. revert Hco Hn Hall.
  induction Hrun as [s|s1 s2 s3 H12 _ IH]; intros Hco Hn Hall; [done|].
  destruct (quiet_same _ _ H12) as (Gn & Gp & Gr & Gi & _).
  destruct IH as [IH1 IH2]; [by apply (quiet_coherent s1)|congruence|by apply (quiet_up_to_date s1)|].
  split; [done|]. intros k. rewrite IH2. by apply present_same.
Qed.

(** Alone, a check answers within its seven steps. *)
Lemma check_returns s k : exists s' a, check_with_roles s k = (s', Answered k a).
Proof.
  unfold check_with_roles. cbn [check_run check_step fst snd].
  destruct (policy s) as [[id cfg]|]; cbn [check_step fst snd]; [|eauto].
  destruct (cache_hit s k id (acl_version s) (asg_generation s)); cbn [check_step fst snd]; [eauto|].
  destruct (resolver s (fst k)) as [asg asl]. cbn [check_step fst snd]. eauto.
Qed.

(** C12: Once every change has been notified, a check that starts answers the rule walk on the
    present policy, record group and inputs, whatever the checks still under way cached or
    go on to cache, as long as nothing changes again before it answers: the cache never
    revives an access a change took away. *)
Theorem settled_policy_is_enforced s0 s s' t k a :
  initial s0 -> rtc step s0 s -> changing s = O -> checks s !! t = None ->
  rtc quiet_step s s' -> checks s' !! t = Some (Answered k a) ->
  a = present_answer (gate s) k.
Proof.
  intros Hi Hr Hn Ht Hq Ha. pose proof (reachable_coherent _ _ Hi Hr) as Hco.
  destruct (quiet_run s s' (dom (checks s)) Hco Hn) as [Hall Hp]; [|done|].
  { intros t' c Hd Hx. apply not_elem_of_dom in Hd. congruence. }
  rewrite <- Hp. apply (Hall t (Answered k a)); [|done]. by apply not_elem_of_dom.
Qed.

(** ** An execution: write access is cached, then the policy is cleared of its rules *)

Definition open_policy : AccessSecurityConfig :=
  mkConfig ∅ ∅ ∅ {[DEFAULT := mkGroup [AccessRule_new 1 RuleAccess.Write] [] (1, DEFAULT)]} Read 1.
Definition closed_policy : AccessSecurityConfig :=
  mkConfig ∅ ∅ ∅ {[DEFAULT := mkGroup [] [] (2, DEFAULT)]} Read 2.

Definition a_key : CheckKey := (ascii_bytes "rec", ([], [], [], [], [])).

Definition gate_with (p : Z * AccessSecurityConfig) (g : Z) (cache : gmap CheckKey CachedCheck) : Gate :=
  mkGate (Some p) (fun _ => (DEFAULT, 0)) ∅ 0 g cache.

Definition before : System := mkSystem (gate_with (100, open_policy) 0 ∅) 0 ∅.

(** The first check cached its write access; the closed policy is published and notified. *)
Definition changed_gate : Gate := gate_with (200, closed_policy) 1
  {[a_key := mkCachedCheck 0 0 100 (ReadWrite, false)]}.
Definition after_change : System := mkSystem changed_gate 0 {[1%nat := Answered a_key (ReadWrite, false)]}.

Definition run_of (n : nat) (s : System) (t : nat) (c : Check) : System :=
  let '(g, c) := check_run n (gate s) c in
  mkSystem g (changing s) (<[t := c]> (checks s)).

Lemma run_steps n s t c :
  checks s !! t = Some c -> rtc quiet_step s (run_of n s t c).
Proof.
  intros Hc. induction n as [|n IH]; unfold run_of in *; cbn [check_run].
  - rewrite insert_id by done. by destruct s.
  - eapply rtc_r; [exact IH|]. destruct (check_run n (gate s) c) as [g c'].
    pose proof (step_check (mkSystem g (changing s) (<[t := c']> (checks s))) t c') as Hs.
    cbn [gate changing checks] in Hs. rewrite lookup_insert_eq, insert_insert_eq in Hs. specialize (Hs eq_refl).
    destruct (check_step g c') as [g2 c2]. exact Hs.
Qed.

Lemma before_initial : initial before.
Proof. split; [done|]. split; [done|]. split; [done|]. simpl. lia. Qed.

(** The execution up to the notification. *)
Lemma change_reached : rtc step before after_change.
Proof.
  set (s1 := mkSystem (gate before) 0 (<[1%nat := Begin a_key]> ∅)).
  set (s2 := run_of 7 s1 1 (Begin a_key)).
  assert (H12 : rtc step s1 s2).
  { eapply rtc_subrel; [intros x y Hxy; exact (step_quiet x y Hxy)|]. by apply run_steps. }
  assert (E2 : s2 = mkSystem (gate_with (100, open_policy) 0
    {[a_key := mkCachedCheck 0 0 100 (ReadWrite, false)]}) 0 {[1%nat := Answered a_key (ReadWrite, false)]})
    by (vm_compute; reflexivity).
  eapply rtc_l; [apply step_quiet, (step_start before 1 a_key eq_refl)|].
  etransitivity; [exact H12|]. rewrite E2.
  eapply rtc_l; [apply step_change, (pub_policy _ 200 closed_policy)|].
  - split; [by intros id' c [= <- _]|]. intros t ck id' c Hx Hh. cbn [checks] in Hx.
    apply lookup_singleton_Some in Hx as [_ <-]. done.
  - apply rtc_once.
    refine (step_notify (mkSystem (gate_with (200, closed_policy) 0
      {[a_key := mkCachedCheck 0 0 100 (ReadWrite, false)]}) 1 {[1%nat := Answered a_key (ReadWrite, false)]}) 0 eq_refl _).
    simpl. lia.
Qed.

Lemma settled_policy_is_enforced_witness :
  checks (run_of 7 (mkSystem changed_gate 0 (<[2%nat := Begin a_key]> (checks after_change))) 2 (Begin a_key)) !! 2%nat
    = Some (Answered a_key (NoAccess, false)) /\
  (NoAccess, false) = present_answer changed_gate a_key.
Proof.
  set (s1 := mkSystem changed_gate 0 (<[2%nat := Begin a_key]> (checks after_change))).
  assert (Ha : checks (run_of 7 s1 2 (Begin a_key)) !! 2%nat = Some (Answered a_key (NoAccess, false)))
    by (vm_compute; reflexivity).
  split; [exact Ha|].
  apply (settled_policy_is_enforced before after_change (run_of 7 s1 2 (Begin a_key)) 2 a_key (NoAccess, false)
    before_initial change_reached eq_refl).
  - reflexivity.
  - eapply rtc_l; [exact (step_start after_change 2 a_key eq_refl)|]. apply run_steps. reflexivity.
  - exact Ha.
Defined.
