(* ===== verification/Strtol.v ===== *)
(** * Reading an integer

    Models the integer half of [epics-libcom-rs/src/runtime/stdlib.rs]: C's [strtol] family
    over one scanner, with its saturation, [errno] and base prefixes, [atoi], and the string
    hash.  A text is the list of its bytes; a C integer type is its range, and the width of
    [long] is a parameter.  [strto_reads_the_number]: with base 10 the scanner returns the
    number the digits spell, saturated at the type, for a text of any length. *)
From stdpp Require Import base tactics numbers list option strings.
From S2P Require Import Prelude Float64 Strtod.

Open Scope Z_scope.

(** [CInt]: the range of a C integer type. *)
Record CInt : Type := mkCInt { c_min : Z; c_max : Z }.

Definition signed_int (w : Z) : CInt := mkCInt (- 2 ^ (w - 1)) (2 ^ (w - 1) - 1).
Definition unsigned_int (w : Z) : CInt := mkCInt 0 (2 ^ w - 1).

(** C [long]: 64 bits, or 32. *)
Class CLong := { long_bits : Z; long_bits_ok : long_bits = 32 \/ long_bits = 64 }.
Definition lp64 : CLong := {| long_bits := 64; long_bits_ok := or_intror eq_refl |}.
Definition llp64 : CLong := {| long_bits := 32; long_bits_ok := or_introl eq_refl |}.

Record Digits : Type := mkDigits {
  dg_negative : bool;
  dg_magnitude : option Z;
  dg_any : bool;
  dg_end : nat;
}.

(** glibc refuses these bases before reading. *)
Definition einval (base : Z) : bool := (base =? 1) || (36 <? base).

(** [char::to_digit]. *)
Definition to_digit (base c : Z) : option Z :=
  let d :=
    if is_ascii_digit c then c - 48
    else if is_ascii_lowercase c then c - 87
    else if is_ascii_uppercase c then c - 55
    else 99 in
  if d <? base then Some d else None.

(** [checked_mul] then [checked_add] at 128 bits. *)
Definition push_u128 (base d : Z) (m : option Z) : option Z :=
  m ≫= fun m =>
  if m * base <? 2 ^ 128 then
    if m * base + d <? 2 ^ 128 then Some (m * base + d) else None
  else None.

(** The digit loop: the magnitude, and how mdg_any digits it read. *)
Fixpoint scan_digits (base : Z) (m : option Z) (b : list Z) : option Z * nat :=
  match b with
  | [] => (m, 0%nat)
  | c :: b =>
      match to_digit base c with
      | None => (m, 0%nat)
      | Some d => let '(m, n) := scan_digits base (push_u128 base d m) b in (m, S n)
      end
  end.

(** The base prefix at the head of the digits: the base, and how much it takes. *)
Definition base_prefix (base : Z) (b : list Z) : Z * nat :=
  let '(base, n) :=
    match b with
    | z :: x :: c :: _ =>
        if z =? 48 then
          if ((base =? 0) || (base =? 16)) && (to_ascii_lowercase x =? 120)
             && is_ascii_hexdigit c
          then (16, 2%nat)
          else if ((base =? 0) || (base =? 2)) && (to_ascii_lowercase x =? 98)
                  && ((c =? 48) || (c =? 49))
          then (2, 2%nat)
          else (base, 0%nat)
        else (base, 0%nat)
    | _ => (base, 0%nat)
    end in
  if base =? 0 then
    (match drop n b with c :: _ => if c =? 48 then 8 else 10 | [] => 10 end, n)
  else (base, n).

(** An optional sign: whether it negates, its length, and what follows. *)
Definition read_sign (b : list Z) : bool * nat * list Z :=
  match b with
  | c :: rest =>
      if c =? 45 then (true, 1%nat, rest)
      else if c =? 43 then (false, 1%nat, rest)
      else (false, 0%nat, b)
  | [] => (false, 0%nat, b)
  end.

Definition scan_int (b : list Z) (base : Z) : Digits :=
  if einval base then mkDigits false (Some 0) false 0
  else
    let '(space, b) := span c_isspace b in
    let '(negative, sign, b) := read_sign b in
    let '(base, prefix) := base_prefix base b in
    let '(m, n) := scan_digits base (Some 0) (drop prefix b) in
    mkDigits negative m (negb (n =? 0)%nat) (length space + sign + prefix + n).

(** [ranged]: [Err] is [ERANGE], with the saturated value. *)
Definition ranged (t : CInt) (d : Digits) : result Z Z :=
  let signed := c_min t <? 0 in
  let over := if signed && dg_negative d then c_min t else c_max t in
  match dg_magnitude d ≫= (fun m => if m <? 2 ^ 127 then Some m else None) with
  | None => Err over
  | Some m =>
      let v :=
        if signed && dg_negative d then - m
        else if negb signed && dg_negative d && (m <=? c_max t)
             then Z.rem (c_max t + 1 - m) (c_max t + 1)
             else m in
      if (c_min t <=? v) && (v <=? c_max t) then Ok v else Err over
  end.

Definition strto (t : CInt) (s : list Z) (base : Z) : Z * nat :=
  let d := scan_int s base in
  if dg_any d then (match ranged t d with Ok v => v | Err over => over end, dg_end d)
  else (0, 0%nat).

Definition strto_errno (t : CInt) (s : list Z) (base : Z) : option (Z * nat) :=
  if einval base then None
  else
    let d := scan_int s base in
    if dg_any d then match ranged t d with Ok v => Some (v, dg_end d) | Err _ => None end
    else Some (0, 0%nat).

Section Long.
Context `{CLong}.

Definition c_long : CInt := signed_int long_bits.
Definition c_ulong : CInt := unsigned_int long_bits.
Definition c_longlong : CInt := signed_int 64.
Definition c_ulonglong : CInt := unsigned_int 64.

Definition strtol (s : list Z) (base : Z) : Z * nat := strto c_long s base.
Definition strtoul (s : list Z) (base : Z) : Z * nat := strto c_ulong s base.
Definition strtoll (s : list Z) (base : Z) : Z * nat := strto c_longlong s base.
Definition strtoull (s : list Z) (base : Z) : Z * nat := strto c_ulonglong s base.
Definition strtol_errno (s : list Z) (base : Z) : option (Z * nat) := strto_errno c_long s base.
Definition strtoul_errno (s : list Z) (base : Z) : option (Z * nat) := strto_errno c_ulong s base.
Definition strtoll_errno (s : list Z) (base : Z) : option (Z * nat) :=
  strto_errno c_longlong s base.
Definition strtoull_errno (s : list Z) (base : Z) : option (Z * nat) :=
  strto_errno c_ulonglong s base.

(** C's [(int)] of a [long], and [(unsigned int)] of an [unsigned long]. *)
Definition long_to_int (v : Z) : Z := swrap 32 v.
Definition ulong_to_uint (v : Z) : Z := wrap 32 v.

Definition atoi (s : list Z) : Z := long_to_int (fst (strtol s 10)).
Definition atol (s : list Z) : Z := fst (strtol s 10).
Definition strtoul_auto (s : list Z) : Z := fst (strtoul s 0).

End Long.

(** [epicsStrHash]: two bytes a turn, each widened with its sign. *)
Definition hash_byte (b : Z) : Z := wrap 32 (swrap 8 b).
Definition shl32 (x n : Z) : Z := wrap 32 (Z.shiftl x n).
Fixpoint epics_str_hash (s : list Z) (hash : Z) : Z :=
  match s with
  | [] => hash
  | c1 :: s =>
      let mixed := Z.lxor (Z.lxor (shl32 hash 11) (hash_byte c1)) (Z.shiftr hash 5) in
      let hash := Z.lxor hash (wrap 32 (Z.lnot mixed)) in
      match s with
      | [] => hash
      | c2 :: s =>
          epics_str_hash s
            (Z.lxor hash (Z.lxor (Z.lxor (shl32 hash 7) (hash_byte c2)) (Z.shiftr hash 3)))
      end
  end.

(** ** The number a text spells *)

(** The value of a run of digits in a base, unbounded. *)
Definition run_value (base : Z) (ds : list Z) : Z :=
  foldl (fun n c => n * base + default 0 (to_digit base c)) 0 ds.

Lemma to_digit_range base c d : to_digit base c = Some d -> 0 <= d < base.
Proof.
  unfold to_digit, is_ascii_digit, is_ascii_lowercase, is_ascii_uppercase.
  repeat case_match; intros [= <-]; zbool; lia.
Qed.

Lemma foldl_value_mono base ds n :
  1 <= base -> 0 <= n ->
  n <= foldl (fun n c => n * base + default 0 (to_digit base c)) n ds.
Proof.
  intros Hb. revert n. induction ds as [|c ds IH]; intros n Hn; cbn [foldl]; [lia|].
  assert (0 <= default 0 (to_digit base c)).
  { destruct (to_digit base c) eqn:E; cbn [default from_option id]; [|lia].
    apply to_digit_range in E. lia. }
  etransitivity; [|apply IH]; nia.
Qed.

(** The checked magnitude is the exact one while it fits, and gone once it does not. *)
Definition checked (m : Z) : option Z := if m <? 2 ^ 128 then Some m else None.

Lemma push_checked base d m :
  1 <= base -> 0 <= d -> 0 <= m -> push_u128 base d (checked m) = checked (m * base + d).
Proof.
  intros Hb Hd Hm. unfold push_u128, checked.
  destruct (Z.ltb_spec m (2 ^ 128)); cbn [mbind option_bind];
    destruct (Z.ltb_spec (m * base + d) (2 ^ 128)); try done; try nia.
  - by rewrite (proj2 (Z.ltb_lt _ _)) by nia.
  - by destruct (Z.ltb_spec (m * base) (2 ^ 128)).
Qed.

Lemma scan_digits_run base m ds rest :
  1 <= base -> 0 <= m -> Forall (fun c => is_Some (to_digit base c)) ds ->
  match rest with [] => True | c :: _ => to_digit base c = None end ->
  scan_digits base (checked m) (ds ++ rest) =
    (checked (foldl (fun n c => n * base + default 0 (to_digit base c)) m ds), length ds).
Proof.
  intros Hb Hm Hd Hr. revert m Hm. induction Hd as [|c ds [d Hc] Hd IH]; intros m Hm.
  - destruct rest as [|c rest]; [done|]. cbn [app scan_digits]. by rewrite Hr.
  - pose proof (to_digit_range _ _ _ Hc) as Hrg. cbn [app scan_digits foldl length].
    rewrite Hc. cbn [default from_option id]. rewrite push_checked by lia.
    by rewrite IH by nia.
Qed.

(** What C promises for a number [v] with its sign, at a type: the number when it fits, a
    leading minus of an unsigned read modulo the width, and otherwise the nearer bound. *)
Definition saturated (t : CInt) (negative : bool) (v : Z) : Z :=
  if c_min t <? 0 then Z.max (c_min t) (Z.min (c_max t) (if negative then - v else v))
  else if v <=? c_max t then (if negative then (- v) mod (c_max t + 1) else v) else c_max t.

(** A C integer type of at most 64 bits. *)
Definition c_type (t : CInt) : Prop :=
  exists w, 1 <= w <= 64 /\ (t = signed_int w \/ t = unsigned_int w).

Lemma pow_64 w : 1 <= w <= 64 -> 1 <= 2 ^ (w - 1) /\ 2 ^ w = 2 * 2 ^ (w - 1) /\ 2 ^ w <= 2 ^ 64.
Proof.
  intros Hw. replace w with (w - 1 + 1) at 2 by lia. rewrite Z.pow_add_r by lia.
  pose proof (Z.pow_pos_nonneg 2 (w - 1) ltac:(lia) ltac:(lia)).
  pose proof (Z.pow_le_mono_r 2 w 64 ltac:(lia) ltac:(lia)). lia.
Qed.

(** Decide the range test of the goal. *)
Ltac by_leb :=
  repeat match goal with |- context [?a <=? ?b] => destruct (Z.leb_spec a b) end;
  cbn [andb]; lia.

Lemma ranged_saturated t neg v :
  c_type t -> 0 <= v ->
  (match ranged t (mkDigits neg (checked v) true 0) with Ok x => x | Err x => x end)
  = saturated t neg v.
Proof.
  intros (w & Hw & Ht) Hv. pose proof (pow_64 w Hw) as (H1 & H2 & H3).
  unfold ranged, saturated, checked. cbn [dg_negative dg_magnitude].
  assert (Hm : (if v <? 2 ^ 128 then Some v else None) ≫=
    (fun m => if m <? 2 ^ 127 then Some m else None) = if v <? 2 ^ 127 then Some v else None).
  { destruct (Z.ltb_spec v (2 ^ 128)); cbn [mbind option_bind]; [done|].
    destruct (Z.ltb_spec v (2 ^ 127)); [lia|done]. }
  rewrite Hm. clear Hm. destruct Ht as [-> | ->]; cbn [c_min c_max signed_int unsigned_int].
  - rewrite (proj2 (Z.ltb_lt (- 2 ^ (w - 1)) 0)) by lia. cbn [negb andb].
    destruct (Z.ltb_spec v (2 ^ 127)).
    + destruct neg; cbn [andb]; by_leb.
    + destruct neg; cbn [andb]; lia.
  - cbn [Z.ltb Z.compare negb andb]. destruct (Z.ltb_spec v (2 ^ 127)).
    + destruct neg; cbn [andb].
      * destruct (Z.leb_spec v (2 ^ w - 1)).
        -- replace (2 ^ w - 1 + 1) with (2 ^ w) by lia.
           rewrite Z.rem_mod_nonneg by lia.
           replace ((2 ^ w - v) mod 2 ^ w) with ((- v) mod 2 ^ w)
             by (rewrite <- (Z_mod_plus_full (- v) 1); f_equal; lia).
           pose proof (Z.mod_pos_bound (- v) (2 ^ w) ltac:(lia)).
           rewrite (proj2 (Z.leb_le 0 _)), (proj2 (Z.leb_le _ (2 ^ w - 1))) by lia. done.
        -- rewrite (proj2 (Z.leb_le 0 v)), (proj2 (Z.leb_gt v (2 ^ w - 1))) by lia. done.
      * rewrite (proj2 (Z.leb_le 0 v)) by lia. by destruct (Z.leb_spec v (2 ^ w - 1)).
    + destruct (Z.leb_spec v (2 ^ w - 1)); [lia|done].
Qed.

Lemma span_stops f (l r : list Z) :
  Forall (fun c => f c = true) l -> match r with [] => True | c :: _ => f c = false end ->
  span f (l ++ r) = (l, r).
Proof.
  intros Hl Hr. induction Hl as [|c l Hc Hl IH]; cbn [app span].
  - destruct r as [|c r]; [done|]. cbn [span]. by rewrite Hr.
  - by rewrite Hc, IH.
Qed.

Lemma digit_not_space c d : to_digit 10 c = Some d -> c_isspace c = false.
Proof.
  unfold to_digit, is_ascii_digit, is_ascii_lowercase, is_ascii_uppercase, c_isspace.
  intros H. repeat case_match; zbool; simplify_eq; repeat (case_match; zbool); lia.
Qed.

(** The sign a text may carry, and whether it negates. *)
Definition sign_bytes (sign : option bool) : list Z :=
  match sign with None => [] | Some true => [45] | Some false => [43] end.
Definition sign_negates (sign : option bool) : bool := bool_decide (sign = Some true).

Lemma read_sign_digits sign d ds :
  is_Some (to_digit 10 d) ->
  read_sign (sign_bytes sign ++ d :: ds) = (sign_negates sign, length (sign_bytes sign), d :: ds).
Proof.
  intros [x Hx]. assert (Hd : d <> 45 /\ d <> 43) by (split; intros ->; vm_compute in Hx; done).
  destruct sign as [[]|]; [done|done|]. cbn [sign_bytes app read_sign].
  by rewrite (proj2 (Z.eqb_neq d 45)), (proj2 (Z.eqb_neq d 43)) by tauto.
Qed.

Lemma scan_int_decimal sp sign d ds rest :
  Forall (fun c => c_isspace c = true) sp ->
  Forall (fun c => is_Some (to_digit 10 c)) (d :: ds) ->
  match rest with [] => True | c :: _ => to_digit 10 c = None end ->
  scan_int (sp ++ sign_bytes sign ++ (d :: ds) ++ rest) 10 =
    mkDigits (sign_negates sign) (checked (run_value 10 (d :: ds))) true
      (length sp + length (sign_bytes sign) + length (d :: ds)).
Proof.
  intros Hsp Hds Hr. pose proof Hds as [[x Hx] _]%List.Forall_cons_iff.
  pose proof (digit_not_space _ _ Hx) as Hns. unfold scan_int. cbn [einval Z.eqb Z.ltb orb].
  rewrite span_stops; [|done|by destruct sign as [[]|]].
  pose proof (scan_digits_run 10 0 (d :: ds) rest ltac:(lia) ltac:(lia) Hds Hr) as Hscan.
  assert (Hp : base_prefix 10 ((d :: ds) ++ rest) = (10, 0%nat)).
  { unfold base_prefix. destruct ((d :: ds) ++ rest) as [|a [|b [|c l]]]; [done..|].
    by destruct (a =? 48). }
  change (sign_bytes sign ++ (d :: ds) ++ rest) with (sign_bytes sign ++ d :: (ds ++ rest)).
  rewrite read_sign_digits by eauto. change (d :: (ds ++ rest)) with ((d :: ds) ++ rest).
  rewrite Hp. change (drop 0 ((d :: ds) ++ rest)) with ((d :: ds) ++ rest).
  change (checked 0) with (Some 0) in Hscan. rewrite Hscan.
  fold (run_value 10 (d :: ds)). cbn [length]. f_equal; lia.
Qed.

(** The [strtol] family reads the number it is given.  A text of white space, an optional
    sign, decimal digits, however many, and then anything that does not begin with a digit is
    read, at base 10 and any C type of up to 64 bits, as the exact value of the digits with
    their sign, saturated at the type's bounds (an unsigned type negates modulo its width),
    and the read ends after the last digit. *)
Theorem strto_reads_the_number (t : CInt) (sp : list Z) (sign : option bool) (d : Z)
    (ds rest : list Z) :
  c_type t -> Forall (fun c => c_isspace c = true) sp ->
  Forall (fun c => is_Some (to_digit 10 c)) (d :: ds) ->
  match rest with [] => True | c :: _ => to_digit 10 c = None end ->
  strto t (sp ++ sign_bytes sign ++ (d :: ds) ++ rest) 10 =
    (saturated t (sign_negates sign) (run_value 10 (d :: ds)),
     (length sp + length (sign_bytes sign) + length (d :: ds))%nat).
Proof.
  intros Ht Hsp Hds Hr. unfold strto. rewrite scan_int_decimal by done. cbn [dg_any dg_end].
  f_equal. apply (ranged_saturated t (sign_negates sign)); [done|].
  apply (foldl_value_mono 10 (d :: ds) 0); lia.
Qed.

(** A number past the type's range saturates, with text left over. *)
Lemma strto_reads_the_number_witness :
  strto (signed_int 32) (ascii_bytes "  -99999999999999999999999999999999999999999999 V") 10
  = (- 2 ^ 31, 47%nat).
Proof.
  apply (strto_reads_the_number (signed_int 32) (ascii_bytes "  ") (Some true) 57
    (ascii_bytes "9999999999999999999999999999999999999999999") (ascii_bytes " V")).
  - exists 32. split; [lia|by left].
  - repeat constructor.
  - repeat (constructor; [eexists; vm_compute; reflexivity|]). constructor.
  - reflexivity.
Defined.

(** ** Printing *)

(** [format!("{n}")] of an integer. *)
Fixpoint show_digits (fuel : nat) (n : Z) : list Z :=
  match fuel with
  | O => []
  | S fuel => if n <? 10 then [48 + n] else show_digits fuel (n / 10) ++ [48 + n mod 10]
  end.
Definition show_Z (z : Z) : list Z :=
  let digits n := show_digits (S (Z.to_nat (Z.log2 n))) n in
  if z <? 0 then 45 :: digits (- z) else digits z.

Lemma to_digit_decimal n : 0 <= n < 10 -> to_digit 10 (48 + n) = Some n.
Proof.
  intros Hn. unfold to_digit, is_ascii_digit.
  rewrite (proj2 (Z.leb_le 48 _)), (proj2 (Z.leb_le _ 57)) by lia. cbn [andb].
  rewrite (proj2 (Z.ltb_lt _ 10)) by lia. f_equal. lia.
Qed.

Lemma show_digits_reads fuel n :
  0 <= n < 10 ^ Z.of_nat fuel -> (0 < fuel)%nat ->
  run_value 10 (show_digits fuel n) = n /\
  Forall (fun c => is_Some (to_digit 10 c)) (show_digits fuel n) /\ show_digits fuel n <> [].
Proof.
  revert n. induction fuel as [|fuel IH]; intros n Hn Hf; [lia|]. cbn [show_digits].
  destruct (Z.ltb_spec n 10) as [H|H].
  - unfold run_value. cbn [foldl]. rewrite to_digit_decimal by lia. cbn [default from_option id].
    split; [lia|]. split; [|done]. constructor; [|done]. rewrite to_digit_decimal by lia. eauto.
  - assert (Hd : 0 <= n / 10 < 10 ^ Z.of_nat fuel).
    { split; [apply Z.div_pos; lia|]. apply Z.div_lt_upper_bound; [lia|].
      rewrite Nat2Z.inj_succ, Z.pow_succ_r in Hn by lia. lia. }
    pose proof (Z.mod_pos_bound n 10 ltac:(lia)) as Hm.
    destruct (IH (n / 10) Hd) as (Hv & Hall & Hne).
    { destruct fuel; [|lia]. change (10 ^ Z.of_nat 0) with 1 in Hd.
      pose proof (Z.div_le_mono 10 n 10 ltac:(lia) ltac:(lia)).
      change (10 / 10) with 1 in *. lia. }
    split; [|split].
    + unfold run_value in *. rewrite foldl_app, Hv. cbn [foldl].
      rewrite to_digit_decimal by done. cbn [default from_option id].
      pose proof (Z.div_mod n 10 ltac:(lia)). lia.
    + apply Forall_app_2; [done|]. constructor; [|done]. rewrite to_digit_decimal by done. eauto.
    + by destruct (show_digits fuel (n / 10)).
Qed.

Lemma log2_fuel n : 0 <= n -> n < 10 ^ Z.of_nat (S (Z.to_nat (Z.log2 n))).
Proof.
  intros Hn. rewrite Nat2Z.inj_succ, Z2Nat.id by apply Z.log2_nonneg.
  destruct (Z.eq_dec n 0) as [->|]; [done|].
  eapply Z.lt_le_trans; [apply Z.log2_spec; lia|].
  apply Z.pow_le_mono_l. lia.
Qed.

(** The first digit of a printed number is no zero, but for zero itself. *)
Lemma show_digits_head fuel n :
  0 < n < 10 ^ Z.of_nat fuel -> exists d l, show_digits fuel n = d :: l /\ d <> 48.
Proof.
  revert n. induction fuel as [|fuel IH]; intros n Hn; [change (10 ^ Z.of_nat 0) with 1 in Hn; lia|].
  cbn [show_digits]. destruct (Z.ltb_spec n 10) as [H|H]; [exists (48 + n), []; split; [done|lia]|].
  destruct (IH (n / 10)) as (d & l & -> & Hd).
  { split; [apply Z.div_str_pos; lia|]. apply Z.div_lt_upper_bound; [lia|].
    rewrite Nat2Z.inj_succ, Z.pow_succ_r in Hn by lia. lia. }
  by eexists _, _.
Qed.

(** With base 0 a number that begins with no zero is decimal. *)
Lemma scan_int_auto s sp sign d ds :
  s = sp ++ sign_bytes sign ++ d :: ds -> Forall (fun c => c_isspace c = true) sp ->
  Forall (fun c => is_Some (to_digit 10 c)) (d :: ds) -> d <> 48 -> scan_int s 0 = scan_int s 10.
Proof.
  intros -> Hsp Hds Hd. pose proof Hds as [[x Hx] _]%List.Forall_cons_iff.
  pose proof (digit_not_space _ _ Hx) as Hns. unfold scan_int. cbn [einval Z.eqb Z.ltb orb].
  rewrite span_stops; [|done|by destruct sign as [[]|]].
  assert (Hp : base_prefix 0 (d :: ds) = base_prefix 10 (d :: ds)).
  { unfold base_prefix. destruct ds as [|b [|c l]].
    all: rewrite ?(proj2 (Z.eqb_neq d 48) Hd); cbn [Z.eqb drop]; by rewrite ?(proj2 (Z.eqb_neq d 48) Hd). }
  by rewrite read_sign_digits, Hp by eauto.
Qed.

Lemma show_Z_scan z :
  scan_int (show_Z z) 0 =
    mkDigits (z <? 0) (checked (Z.abs z)) true (length (show_Z z)).
Proof.
  destruct (Z.eq_dec z 0) as [->|Hz]; [done|].
  set (n := Z.abs z). assert (Hn : 0 < n) by lia.
  pose proof (log2_fuel n ltac:(lia)) as Hf. set (fuel := S (Z.to_nat (Z.log2 n))) in *.
  destruct (show_digits_reads fuel n ltac:(lia) ltac:(unfold fuel; lia)) as (Hv & Hall & _).
  destruct (show_digits_head fuel n ltac:(lia)) as (d & ds & E & Hd). rewrite E in Hv, Hall.
  assert (Hs : exists sign, show_Z z = [] ++ sign_bytes sign ++ d :: ds /\
    sign_negates sign = (z <? 0)).
  { unfold show_Z. destruct (Z.ltb_spec z 0).
    - exists (Some true). split; [|done]. cbn [sign_bytes app]. f_equal.
      replace (- z) with n by lia. exact E.
    - exists None. split; [|done]. replace z with n by lia. exact E. }
  destruct Hs as (sign & Hs & Hneg).
  rewrite (scan_int_auto _ [] sign d ds Hs) by done.
  rewrite Hs. rewrite <- (app_nil_r (d :: ds)) at 1. rewrite scan_int_decimal by done.
  rewrite Hv, Hneg. rewrite !length_app. cbn [app length]. reflexivity.
Qed.

(** A printed integer reads back, at any type that holds it. *)
Lemma show_Z_reads t z :
  c_type t -> c_min t <= z <= c_max t ->
  strto_errno t (show_Z z) 0 = Some (z, length (show_Z z)).
Proof.
  intros Ht Hz. unfold strto_errno. cbn [einval Z.eqb Z.ltb orb].
  rewrite show_Z_scan. cbn [dg_any dg_end].
  assert (Hok : ranged t (mkDigits (z <? 0) (checked (Z.abs z)) true (length (show_Z z))) = Ok z);
    [|by rewrite Hok].
  destruct Ht as (w & Hw & Ht). pose proof (pow_64 w Hw) as (H1 & H2 & H3).
  unfold ranged, checked. cbn [dg_negative dg_magnitude].
  destruct Ht as [-> | ->]; cbn [c_min c_max signed_int unsigned_int] in *.
  - rewrite (proj2 (Z.ltb_lt (- 2 ^ (w - 1)) 0)) by lia.
    rewrite (proj2 (Z.ltb_lt _ (2 ^ 128))) by lia. cbn [mbind option_bind].
    rewrite (proj2 (Z.ltb_lt _ (2 ^ 127))) by lia. cbn [negb andb].
    destruct (Z.ltb_spec z 0); cbn [andb].
    + replace (- Z.abs z) with z by lia.
      by rewrite (proj2 (Z.leb_le _ z)), (proj2 (Z.leb_le z _)) by lia.
    + replace (Z.abs z) with z by lia.
      by rewrite (proj2 (Z.leb_le _ z)), (proj2 (Z.leb_le z _)) by lia.
  - cbn [Z.ltb Z.compare]. rewrite (proj2 (Z.ltb_lt _ (2 ^ 128))) by lia. cbn [mbind option_bind].
    rewrite (proj2 (Z.ltb_lt _ (2 ^ 127))) by lia. rewrite (proj2 (Z.ltb_ge z 0)) by lia.
    cbn [negb andb]. replace (Z.abs z) with z by lia.
    by rewrite (proj2 (Z.leb_le 0 z)), (proj2 (Z.leb_le z _)) by lia.
Qed.
