(* ===== verification/Value.v ===== *)
(** * Values of the database

    Models [epics-base-rs/src/types/value.rs] as far as the monitor path reads it, and the
    scalar a field log carries ([server/pv.rs]): [EpicsValue] with every variant of the
    source, its element count, field type and numeric reading [to_f64].  Integers are [Z],
    strings the list of their bytes, [f64] and [f32] [spec_float]s of 53 and 24 bits.
    [str::trim] and [str::parse::<f64>] are the Standard Library's of the language, written
    out on UTF-8 bytes. *)
From Stdlib Require Import SpecFloat.
From stdpp Require Import base tactics numbers list option strings.
From S2P Require Import Prelude Dbr Float64 Strtod PvaText.

Open Scope Z_scope.

(** [f32]; a finite one has at most 24 bits of mantissa. *)
Abbreviation f32 := spec_float.

(** [PvString]: bytes, not necessarily UTF-8. *)
Abbreviation PvString := (list Z).

(** ** The value *)

Inductive EpicsValue : Type :=
| VString (s : PvString)
| VShort (v : Z)
| VFloat (v : f32)
| VEnum (v : Z)
| VEnumWithChoices (index : Z) (choices : list PvString)
| VChar (v : Z)
| VLong (v : Z)
| VDouble (v : f64)
| VInt64 (v : Z)
| VUInt64 (v : Z)
| VUShort (v : Z)
| VULong (v : Z)
| VUChar (v : Z)
| VShortArray (a : list Z)
| VFloatArray (a : list f32)
| VEnumArray (a : list Z)
| VDoubleArray (a : list f64)
| VLongArray (a : list Z)
| VCharArray (a : list Z)
| VInt64Array (a : list Z)
| VUInt64Array (a : list Z)
| VUShortArray (a : list Z)
| VULongArray (a : list Z)
| VUCharArray (a : list Z)
| VStringArray (a : list PvString).

#[export] Instance EpicsValue_eq_dec : EqDecision EpicsValue.
Proof. solve_decision. Defined.

(** [EpicsValue::count], [arr.len() as u32]. *)
Definition count (v : EpicsValue) : Z :=
  match v with
  | VShortArray a | VEnumArray a | VLongArray a | VInt64Array a | VUInt64Array a
  | VUShortArray a | VULongArray a | VUCharArray a | VCharArray a => wrap 32 (len a)
  | VFloatArray a => wrap 32 (len a)
  | VDoubleArray a => wrap 32 (len a)
  | VStringArray a => wrap 32 (len a)
  | _ => 1
  end.

(** The elements of a value; [count] is their number in 32 bits. *)
Definition elements (v : EpicsValue) : Z :=
  match v with
  | VShortArray a | VEnumArray a | VCharArray a | VLongArray a | VInt64Array a | VUInt64Array a
  | VUShortArray a | VULongArray a | VUCharArray a => len a
  | VFloatArray a | VDoubleArray a => len a
  | VStringArray a => len a
  | _ => 1
  end.

Lemma count_of_elements v : count v = wrap 32 (elements v).
Proof. by destruct v. Qed.

Lemma elements_nonneg v : 0 <= elements v.
Proof. destruct v; cbn; lia. Qed.

Lemma count_elements v : elements v < 2 ^ 32 -> count v = elements v.
Proof. intros H. destruct v; cbn in *; try done; unfold wrap; rewrite Z.mod_small; lia. Qed.

Definition db_field_type (v : EpicsValue) : DbFieldType :=
  match v with
  | VDouble _ => Double
  | VFloat _ => Float
  | VLong _ => Long
  | VShort _ => Short
  | VEnum _ | VEnumWithChoices _ _ => Enum
  | VChar _ => Char
  | VString _ => DString
  | VInt64 _ | VInt64Array _ => Int64
  | VUInt64 _ | VUInt64Array _ => UInt64
  | VUShort _ | VUShortArray _ => UShort
  | VULong _ | VULongArray _ => ULong
  | VUChar _ | VUCharArray _ => UChar
  | VCharArray _ => Char
  | VShortArray _ => Short
  | VLongArray _ => Long
  | VEnumArray _ => Enum
  | VFloatArray _ => Float
  | VDoubleArray _ => Double
  | VStringArray _ => DString
  end.

(** ** Reading a string as a number *)

(** The code points with the [White_Space] property, as the UTF-8 sequences [str::trim]
    removes. *)
Definition white_space : list (list Z) :=
  [[9]; [10]; [11]; [12]; [13]; [32]; [0xC2; 0x85]; [0xC2; 0xA0]; [0xE1; 0x9A; 0x80];
   [0xE2; 0x80; 0x80]; [0xE2; 0x80; 0x81]; [0xE2; 0x80; 0x82]; [0xE2; 0x80; 0x83];
   [0xE2; 0x80; 0x84]; [0xE2; 0x80; 0x85]; [0xE2; 0x80; 0x86]; [0xE2; 0x80; 0x87];
   [0xE2; 0x80; 0x88]; [0xE2; 0x80; 0x89]; [0xE2; 0x80; 0x8A]; [0xE2; 0x80; 0xA8];
   [0xE2; 0x80; 0xA9]; [0xE2; 0x80; 0xAF]; [0xE2; 0x81; 0x9F]; [0xE3; 0x80; 0x80]].

(** [str::strip_prefix]. *)
Definition strip_prefix (p s : list Z) : option (list Z) :=
  if decide (take (length p) s = p) then Some (drop (length p) s) else None.

(** The first pattern of [ps] that [s] starts with, removed. *)
Fixpoint strip_any (ps : list (list Z)) (s : list Z) : option (list Z) :=
  match ps with
  | [] => None
  | p :: ps => match strip_prefix p s with Some r => Some r | None => strip_any ps s end
  end.

(** Every step removes at least one byte. *)
Fixpoint trim_loop (fuel : nat) (ps : list (list Z)) (s : list Z) : list Z :=
  match fuel with
  | O => s
  | S fuel => match strip_any ps s with Some r => trim_loop fuel ps r | None => s end
  end.
Definition trim_start (ps : list (list Z)) (s : list Z) : list Z := trim_loop (length s) ps s.

(** [str::trim]: UTF-8 is self-synchronising, so the end is trimmed in mirror image. *)
Definition trim (s : list Z) : list Z :=
  rev (trim_start (map (@rev Z) white_space) (rev (trim_start white_space s))).

(** [u64::from_str_radix(_, 16)]: an optional [+], then digits alone. *)
Fixpoint hex_u64_digits (acc : Z) (s : list Z) : option Z :=
  match s with
  | [] => Some acc
  | c :: s =>
      if is_ascii_hexdigit c then
        let acc := acc * 16 + hex_val c in
        if acc <? 2 ^ 64 then hex_u64_digits acc s else None
      else None
  end.
Definition hex_u64 (s : list Z) : option Z :=
  match s with
  | [] => None
  | [c] => if c =? 43 then None else hex_u64_digits 0 s
  | c :: rest => hex_u64_digits 0 (if c =? 43 then rest else s)
  end.

(** [str::parse::<f64>]: a sign, then [inf], [infinity] or [nan] in any case, or digits
    with an optional point and exponent, and nothing after. *)
Definition parse_f64_unsigned (s : list Z) : option f64 :=
  if eq_ignore_ascii_case s (ascii_bytes "inf") || eq_ignore_ascii_case s (ascii_bytes "infinity")
  then Some (S754_infinity false)
  else if eq_ignore_ascii_case s (ascii_bytes "nan") then Some S754_nan
  else match decimal s with
       | Some (v, n, _) => if (n =? length s)%nat then Some v else None
       | None => None
       end.
Definition parse_f64 (s : list Z) : option f64 :=
  match s with
  | c :: rest =>
      if c =? 45 then f64_opp <$> parse_f64_unsigned rest
      else parse_f64_unsigned (if c =? 43 then rest else s)
  | [] => None
  end.

Definition parse_string_to_f64 (s : list Z) : option f64 :=
  let trimmed := trim s in
  let '(negative, body) :=
    match strip_prefix [45] trimmed with
    | Some rest => (true, rest)
    | None => (false, default trimmed (strip_prefix [43] trimmed))
    end in
  let hexadecimal :=
    match strip_prefix [48; 120] body with
    | Some h => Some h
    | None => strip_prefix [48; 88] body
    end in
  match hexadecimal ≫= hex_u64 with
  | Some v =>
      Some (f64_mul (if negative : bool then f64_opp (f64_of_Z 1) else f64_of_Z 1) (f64_of_Z v))
  | None => parse_f64 trimmed
  end.

(** [v as f64] of an [f32]: exact. *)
Definition f64_of_f32 (v : f32) : f64 :=
  match v with
  | S754_finite s m e =>
      binary_normalize f64_prec f64_emax (if s then Z.neg m else Z.pos m) e s
  | _ => v
  end.

(** [EpicsValue::to_f64]: [None] for an array and for text that is no number. *)
Definition to_f64 (v : EpicsValue) : option f64 :=
  match v with
  | VDouble v => Some v
  | VFloat v => Some (f64_of_f32 v)
  | VLong v | VShort v | VEnum v => Some (f64_of_Z v)
  | VEnumWithChoices index _ => Some (f64_of_Z index)
  | VInt64 v | VUInt64 v | VUShort v | VULong v => Some (f64_of_Z v)
  | VChar v => Some (f64_of_Z (swrap 8 v))
  | VUChar v => Some (f64_of_Z v)
  | VString s => parse_string_to_f64 (from_utf8_lossy s)
  | _ => None
  end.

(** ** The scalar a field log carries *)

Inductive NativeValue : Type :=
| NShort (v : Z)
| NFloat (v : f32)
| NEnum (v : Z)
| NChar (v : Z)
| NLong (v : Z)
| NDouble (v : f64)
| NInt64 (v : Z)
| NUInt64 (v : Z)
| NUShort (v : Z)
| NULong (v : Z)
| NUChar (v : Z).

#[export] Instance NativeValue_eq_dec : EqDecision NativeValue.
Proof. solve_decision. Defined.

Definition native_of (v : EpicsValue) : option NativeValue :=
  match v with
  | VShort v => Some (NShort v)
  | VFloat v => Some (NFloat v)
  | VEnum v => Some (NEnum v)
  | VChar v => Some (NChar v)
  | VLong v => Some (NLong v)
  | VDouble v => Some (NDouble v)
  | VInt64 v => Some (NInt64 v)
  | VUInt64 v => Some (NUInt64 v)
  | VUShort v => Some (NUShort v)
  | VULong v => Some (NULong v)
  | VUChar v => Some (NUChar v)
  | _ => None
  end.

Definition native_value (v : NativeValue) : EpicsValue :=
  match v with
  | NShort v => VShort v
  | NFloat v => VFloat v
  | NEnum v => VEnum v
  | NChar v => VChar v
  | NLong v => VLong v
  | NDouble v => VDouble v
  | NInt64 v => VInt64 v
  | NUInt64 v => VUInt64 v
  | NUShort v => VUShort v
  | NULong v => VULong v
  | NUChar v => VUChar v
  end.

(** ** Lemmas *)

Lemma native_of_value v n : native_of v = Some n -> native_value n = v.
Proof. by destruct v; intros [= <-]. Qed.

(** A scalar a log copies always reads as a number. *)
Lemma native_to_f64 n : is_Some (to_f64 (native_value n)).
Proof. destruct n; cbn [native_value to_f64]; eauto. Qed.

(** A value a log does not copy by value is text, a choice or an array: a number only when
    it is a choice or spells one. *)
Lemma not_native_to_f64 v f :
  native_of v = None -> to_f64 v = Some f ->
  (exists index choices, v = VEnumWithChoices index choices) \/ (exists s, v = VString s).
Proof. destruct v; try done; intros _ _; eauto. Qed.
