(* ===== verification/CParse.v ===== *)
(** * Writing a field from text

    Models [epics-base-rs/src/types/c_parse.rs]: the conversion of a string to each numeric
    field type as C's [epicsParse] functions and the database's string rows make it, for puts
    and gets, one element or an array, with its three outcomes: a value stored, success without
    a store, a refusal.  The text of a refusal is not modelled, only that it is one.
    [stored_values_fit_the_field]: whatever the text, what is stored is of the field's type and
    within its range.  [printed_integer_is_stored]: an integer in range, printed, is stored as
    itself. *)
From Stdlib Require Import SpecFloat.
From stdpp Require Import base tactics numbers list option strings.
From S2P Require Import Prelude Dbr Float64 Strtod Strtol PvaText Value.

Open Scope Z_scope.

Inductive NumericField : Type :=
| FChar | FUChar | FShort | FUShort | FLong | FULong | FInt64 | FUInt64 | FFloat | FDouble.

#[export] Instance NumericField_eq_dec : EqDecision NumericField.
Proof. solve_decision. Defined.

Definition NumericField_of (t : DbFieldType) : option NumericField :=
  match t with
  | Char => Some FChar
  | UChar => Some FUChar
  | Short => Some FShort
  | UShort => Some FUShort
  | Long => Some FLong
  | ULong => Some FULong
  | Int64 => Some FInt64
  | UInt64 => Some FUInt64
  | Float => Some FFloat
  | Double => Some FDouble
  | DString | Enum => None
  end.

Inductive Converted : Type := Stored (v : EpicsValue) | Unchanged.
Inductive Row : Type := RStored (v : EpicsValue) | RUnchanged | RRefused.

Definition row_stored (v : option EpicsValue) : Row :=
  match v with Some v => RStored v | None => RRefused end.

(** A put C refuses. *)
Inductive Refused : Type := PutRefused | GetConvertFailed.

Definition zero (target : NumericField) : EpicsValue :=
  match target with
  | FChar => VChar 0
  | FUChar => VUChar 0
  | FShort => VShort 0
  | FUShort => VUShort 0
  | FLong => VLong 0
  | FULong => VULong 0
  | FInt64 => VInt64 0
  | FUInt64 => VUInt64 0
  | FFloat => VFloat f64_zero
  | FDouble => VDouble f64_zero
  end.

(** [v as f32]: to nearest, ties to even, at 24 bits. *)
Definition f32_of_f64 (v : f64) : f32 :=
  match v with
  | S754_finite s m e => binary_normalize 24 128 (if s then Z.neg m else Z.pos m) e s
  | _ => v
  end.
Definition F32_MIN_POSITIVE : f64 := pow2 (-126).
Definition F32_MAX : f64 := f64_of_Z ((2 ^ 24 - 1) * 2 ^ 104).

Definition narrow_to_f32 (v : f64) : option f32 :=
  let a := f64_abs v in
  if f64_gtb v f64_zero && f64_leb a F32_MIN_POSITIVE then None
  else if f64_is_finite v && f64_geb a F32_MAX then None
  else Some (f32_of_f64 v).

Definition in_range (v lo hi : Z) : option Z := if (lo <=? v) && (v <=? hi) then Some v else None.

(** [epicsParseDouble] with a units pointer. *)
Definition parse_double (s : list Z) : option f64 :=
  match epics_parse_double_units s with Ok (v, _) => Some v | Err _ => None end.

Definition converted {T : Type} (read : option (T * nat)) : option (T * nat) :=
  match read with
  | Some (v, e) => if (0 <? e)%nat then Some (v, e) else None
  | None => None
  end.

Definition extraneous (s : list Z) (e : nat) : bool :=
  match snd (span c_isspace (drop e s)) with [] => false | _ => true end.

Definition strict {T : Type} (s : list Z) (read : option (T * nat)) : option T :=
  match converted read with
  | Some (v, e) => if extraneous s e then None else Some v
  | None => None
  end.

Section CParse.
Context `{CLong}.

(** Only [value > max && value <= !max] is rejected, at [unsigned long]'s width. *)
Definition outside_band (v max : Z) : option Z :=
  if (max <? v) && (v <=? uint_max long_bits - max) then None else Some v.

Definition parse_long (s : list Z) : option Z := fst <$> converted (strtol_errno s 0).
Definition parse_ulong (s : list Z) : option Z := fst <$> converted (strtoul_errno s 0).

Definition epics_parse_int32_units (s : list Z) : option Z :=
  v ← parse_long s; in_range v (- 0x80000000) 0x7fffffff.
Definition epics_parse_uint16 (s : list Z) : option Z :=
  v ← strict s (strtoul_errno s 0); wrap 16 <$> outside_band v 0xffff.
Definition epics_parse_uint16_units (s : list Z) : option Z :=
  v ← parse_ulong s; wrap 16 <$> outside_band v 0xffff.

Definition parse_two_way (target : NumericField) (s : list Z) : option EpicsValue :=
  match target with
  | FChar => v ← parse_long s; VChar ∘ wrap 8 <$> in_range v (-0x80) 0x7f
  | FShort => v ← parse_long s; VShort <$> in_range v (-0x8000) 0x7fff
  | FLong => VLong <$> epics_parse_int32_units s
  | FInt64 => VInt64 ∘ fst <$> converted (strtoll_errno s 0)
  | FUChar => v ← parse_ulong s; VUChar ∘ wrap 8 <$> outside_band v 0xff
  | FUShort => v ← parse_ulong s; VUShort ∘ wrap 16 <$> outside_band v 0xffff
  | FUInt64 => VUInt64 ∘ fst <$> converted (strtoull_errno s 0)
  | FFloat => v ← parse_double s; VFloat <$> narrow_to_f32 v
  | FDouble => VDouble <$> parse_double s
  | FULong => None
  end.

(** [(0.0..=u32::MAX as f64).contains(&dval)]. *)
Definition in_u32_band (d : f64) : bool :=
  f64_leb f64_zero d && f64_leb d (f64_of_Z (2 ^ 32 - 1)).
Definition stored_u32 (d : f64) : Row := RStored (VULong (f64_to_int 0 (2 ^ 32 - 1) d)).

Definition parse_ulong_via_double (s : list Z) : Row :=
  match strtoul_errno s 0 with
  | None => RRefused
  | Some (v, e) =>
      let int_value :=
        if (0 <? e)%nat then
          match outside_band v 0xffffffff with
          | None => Err tt
          | Some v => Ok (Some (wrap 32 v))
          end
        else Ok None in
      let stopped_at_float :=
        match s !! e with
        | Some c => (c =? 46) || (c =? 101) || (c =? 69)
        | None => false
        end in
      match int_value with
      | Err _ => RRefused
      | Ok (Some prefix) =>
          if stopped_at_float then
            match parse_double s with
            | Some dval => if in_u32_band dval then stored_u32 dval else RStored (VULong prefix)
            | None => RRefused
            end
          else RStored (VULong prefix)
      | Ok None =>
          match parse_double s with
          | Some dval => if in_u32_band dval then stored_u32 dval else RUnchanged
          | None => RRefused
          end
      end
  end.

Definition parse (target : NumericField) (s : list Z) : Row :=
  if decide (target = FULong) then parse_ulong_via_double s
  else row_stored (parse_two_way target s).

(** The scalar put row, with its empty-string arm, and the array row without. *)
Definition put_string (target : NumericField) (s : list Z) : result Refused Converted :=
  match s with
  | [] => Ok (Stored (zero target))
  | _ =>
      match parse target s with
      | RStored v => Ok (Stored v)
      | RUnchanged => Ok Unchanged
      | RRefused => Err PutRefused
      end
  end.
Definition put_string_element (target : NumericField) (s : list Z) : result Refused Converted :=
  match parse target s with
  | RStored v => Ok (Stored v)
  | RUnchanged => Ok Unchanged
  | RRefused => Err PutRefused
  end.

Definition get_string (target : NumericField) (s : list Z) : result Refused EpicsValue :=
  match s with
  | [] => Ok (zero target)
  | _ =>
      match parse target s with
      | RStored v => Ok v
      | RUnchanged | RRefused => Err GetConvertFailed
      end
  end.

(** The element a row of [target] produces, and the array it packs. *)
Definition scalar_Z (target : NumericField) (v : EpicsValue) : option Z :=
  match target, v with
  | FChar, VChar x | FUChar, VUChar x | FShort, VShort x | FUShort, VUShort x
  | FLong, VLong x | FULong, VULong x | FInt64, VInt64 x | FUInt64, VUInt64 x => Some x
  | _, _ => None
  end.
Definition scalar_f (target : NumericField) (v : EpicsValue) : option spec_float :=
  match target, v with
  | FFloat, VFloat x | FDouble, VDouble x => Some x
  | _, _ => None
  end.

(** [put_string_elements]: the first refusal refuses the request, an element that is not
    stored leaves it unstored. *)
Fixpoint pack_puts {T : Type} (target : NumericField) (element : EpicsValue -> option T)
    (texts : list PvString) (out : list T) : result Refused (option (list T)) :=
  match texts with
  | [] => Ok (Some out)
  | t :: texts =>
      match put_string_element target (from_utf8_lossy t) with
      | Err e => Err e
      | Ok (Stored v) =>
          match element v with
          | Some x => pack_puts target element texts (out ++ [x])
          | None => Ok None
          end
      | Ok Unchanged => Ok None
      end
  end.

Definition stored_array {T : Type} (mk : list T -> EpicsValue)
    (r : result Refused (option (list T))) : result Refused Converted :=
  match r with
  | Err e => Err e
  | Ok (Some l) => Ok (Stored (mk l))
  | Ok None => Ok Unchanged
  end.

Definition put_string_elements (target : NumericField) (texts : list PvString)
  : result Refused Converted :=
  let ints mk := stored_array mk (pack_puts target (scalar_Z target) texts []) in
  let floats mk := stored_array mk (pack_puts target (scalar_f target) texts []) in
  match target with
  | FChar => ints VCharArray
  | FUChar => ints VUCharArray
  | FShort => ints VShortArray
  | FUShort => ints VUShortArray
  | FLong => ints VLongArray
  | FULong => ints VULongArray
  | FInt64 => ints VInt64Array
  | FUInt64 => ints VUInt64Array
  | FFloat => floats VFloatArray
  | FDouble => floats VDoubleArray
  end.

(** [get_string_array]: the first element that cannot be read aborts the get. *)
Fixpoint collect_gets {T : Type} (target : NumericField) (element : EpicsValue -> option T)
    (elems : list PvString) (out : list T) : result Refused (list T) :=
  match elems with
  | [] => Ok out
  | t :: elems =>
      match get_string target (from_utf8_lossy t) with
      | Err e => Err e
      | Ok v =>
          match element v with
          | Some x => collect_gets target element elems (out ++ [x])
          | None => Err GetConvertFailed
          end
      end
  end.

Definition get_string_array (target : NumericField) (elems : list PvString)
  : result Refused EpicsValue :=
  let ints mk := mk <$> collect_gets target (scalar_Z target) elems [] in
  let floats mk := mk <$> collect_gets target (scalar_f target) elems [] in
  match target with
  | FChar => ints VCharArray
  | FUChar => ints VUCharArray
  | FShort => ints VShortArray
  | FUShort => ints VUShortArray
  | FLong => ints VLongArray
  | FULong => ints VULongArray
  | FInt64 => ints VInt64Array
  | FUInt64 => ints VUInt64Array
  | FFloat => floats VFloatArray
  | FDouble => floats VDoubleArray
  end.

(** [parse_units_null]: the strict rows, with a base. *)
Definition parse_units_null (target : NumericField) (s : list Z) (base : Z) : option EpicsValue :=
  match target with
  | FChar => v ← strict s (strtol_errno s base); VChar ∘ wrap 8 <$> in_range v (-0x80) 0x7f
  | FShort => v ← strict s (strtol_errno s base); VShort <$> in_range v (-0x8000) 0x7fff
  | FLong => v ← strict s (strtol_errno s base); VLong <$> in_range v (-0x80000000) 0x7fffffff
  | FInt64 => VInt64 <$> strict s (strtoll_errno s base)
  | FUChar => v ← strict s (strtoul_errno s base); VUChar ∘ wrap 8 <$> outside_band v 0xff
  | FUShort => v ← strict s (strtoul_errno s base); VUShort ∘ wrap 16 <$> outside_band v 0xffff
  | FULong => v ← strict s (strtoul_errno s base); VULong ∘ wrap 32 <$> outside_band v 0xffffffff
  | FUInt64 => VUInt64 <$> strict s (strtoull_errno s base)
  | FFloat =>
      match epics_parse_double s with
      | Ok v => VFloat <$> narrow_to_f32 v
      | Err _ => None
      end
  | FDouble => match epics_parse_double s with Ok v => Some (VDouble v) | Err _ => None end
  end.
Definition parse_base10_units_null (target : NumericField) (s : list Z) : option EpicsValue :=
  parse_units_null target s 10.
Definition parse_auto_base_units_null (target : NumericField) (s : list Z) : option EpicsValue :=
  parse_units_null target s 0.

End CParse.

(** ** What a row stores *)

(** The value is of the field's type, and an integer is in its range; a [DBF_CHAR] is kept
    as its byte. *)
Definition fits (target : NumericField) (v : EpicsValue) : Prop :=
  match target, v with
  | FChar, VChar x | FUChar, VUChar x => is_u8 x
  | FShort, VShort x => - 2 ^ 15 <= x < 2 ^ 15
  | FUShort, VUShort x => is_u16 x
  | FLong, VLong x => - 2 ^ 31 <= x < 2 ^ 31
  | FULong, VULong x => is_u32 x
  | FInt64, VInt64 x => - 2 ^ 63 <= x < 2 ^ 63
  | FUInt64, VUInt64 x => is_u64 x
  | FFloat, VFloat _ | FDouble, VDouble _ => True
  | _, _ => False
  end.

Lemma in_range_Some v lo hi x : in_range v lo hi = Some x -> lo <= x <= hi /\ x = v.
Proof. unfold in_range. case_match; [|done]. intros [= <-]. zbool. lia. Qed.

Lemma converted_Some {T} (r : option (T * nat)) x : converted r = Some x -> r = Some x.
Proof. destruct r as [[v e]|]; [|done]. cbn [converted]. by case_match. Qed.

Lemma ranged_range t d v : ranged t d = Ok v -> c_min t <= v <= c_max t.
Proof.
  unfold ranged. case_match; [|done]. case_match; [|done]. intros [= <-]. zbool. lia.
Qed.

Lemma strto_errno_range t s base v e :
  c_min t <= 0 <= c_max t -> strto_errno t s base = Some (v, e) -> c_min t <= v <= c_max t.
Proof.
  intros Ht. unfold strto_errno. case_match; [done|]. case_match; [|by intros [= <- <-]].
  destruct (ranged t _) eqn:E; [|done]. intros [= <- <-]. by apply ranged_range in E.
Qed.

Lemma wrap_uint w x : 0 <= w -> is_uint w (wrap w x).
Proof. intros Hw. unfold is_uint, wrap. apply Z.mod_pos_bound. by apply Z.pow_pos_nonneg. Qed.

Section Stored.
Context `{CLong}.

Lemma parse_two_way_fits target s v : parse_two_way target s = Some v -> fits target v.
Proof.
  destruct target; cbn [parse_two_way]; intros Hp; try done.
  - apply bind_Some in Hp as (x & _ & Hp). apply fmap_Some in Hp as (y & _ & ->).
    by apply wrap_uint.
  - apply bind_Some in Hp as (x & _ & Hp). apply fmap_Some in Hp as (y & _ & ->).
    by apply wrap_uint.
  - apply bind_Some in Hp as (x & _ & Hp). apply fmap_Some in Hp as (y & Hy & ->).
    apply in_range_Some in Hy as [Hy _]. cbn [fits]. lia.
  - apply bind_Some in Hp as (x & _ & Hp). apply fmap_Some in Hp as (y & _ & ->).
    by apply wrap_uint.
  - apply fmap_Some in Hp as (y & Hy & ->). unfold epics_parse_int32_units in Hy.
    apply bind_Some in Hy as (x & _ & Hy). apply in_range_Some in Hy as [Hy _]. cbn [fits]. lia.
  - apply fmap_Some in Hp as ([y e] & Hy & ->). apply converted_Some in Hy.
    apply strto_errno_range in Hy; cbn [c_longlong signed_int c_min c_max] in *; cbn [fits fst compose]; lia.
  - apply fmap_Some in Hp as ([y e] & Hy & ->). apply converted_Some in Hy.
    apply strto_errno_range in Hy; cbn [c_ulonglong unsigned_int c_min c_max] in *;
      cbn [fits fst compose]; unfold is_uint; lia.
  - apply bind_Some in Hp as (x & _ & Hp). by apply fmap_Some in Hp as (y & _ & ->).
  - by apply fmap_Some in Hp as (y & _ & ->).
Qed.

Lemma stored_u32_fits d v : stored_u32 d = RStored v -> fits FULong v.
Proof.
  unfold stored_u32. intros [= <-]. cbn [fits].
  pose proof (f64_to_int_range 0 (2 ^ 32 - 1) d ltac:(lia)). unfold is_uint. lia.
Qed.

Lemma parse_fits target s v : parse target s = RStored v -> fits target v.
Proof.
  unfold parse. case_decide as Ht.
  - subst target. unfold parse_ulong_via_double.
    destruct (strtoul_errno s 0) as [[x e]|]; [|done].
    assert (Hw : forall y, fits FULong (VULong (wrap 32 y))) by (intros y; by apply wrap_uint).
    destruct (0 <? e)%nat; [destruct (outside_band x _) as [y|]; [|done]|];
      repeat case_match; try done; try apply stored_u32_fits; intros Hv; inversion Hv; subst; apply Hw.
  - unfold row_stored. destruct (parse_two_way target s) eqn:E; [|done]. intros [= <-].
    by apply parse_two_way_fits in E.
Qed.

Lemma zero_fits target : fits target (zero target).
Proof. destruct target; cbn; unfold is_uint; lia || done. Qed.

(** Whatever text is written to a numeric field, what the put stores is a value of the
    field's own type and within its range. *)
Theorem stored_values_fit_the_field (target : NumericField) (s : list Z) (v : EpicsValue) :
  put_string target s = Ok (Stored v) -> fits target v.
Proof.
  unfold put_string. destruct s as [|c s]; [intros [= <-]; apply zero_fits|].
  destruct (parse target (c :: s)) eqn:E; intros [= <-]. by apply parse_fits in E.
Qed.

End Stored.

(** [-1] written to an unsigned 16-bit field stores 65535. *)
Lemma stored_values_fit_the_field_witness : fits FUShort (VUShort 65535).
Proof.
  exact (@stored_values_fit_the_field lp64 FUShort (ascii_bytes "-1") (VUShort 65535) eq_refl).
Defined.

(** ** Printed integers *)

(** The integers an integer field holds, and the value it stores for one. *)
Definition int_range (target : NumericField) : option (Z * Z) :=
  match target with
  | FChar => Some (- 2 ^ 7, 2 ^ 7 - 1)
  | FUChar => Some (0, 2 ^ 8 - 1)
  | FShort => Some (- 2 ^ 15, 2 ^ 15 - 1)
  | FUShort => Some (0, 2 ^ 16 - 1)
  | FLong => Some (- 2 ^ 31, 2 ^ 31 - 1)
  | FULong => Some (0, 2 ^ 32 - 1)
  | FInt64 => Some (- 2 ^ 63, 2 ^ 63 - 1)
  | FUInt64 => Some (0, 2 ^ 64 - 1)
  | FFloat | FDouble => None
  end.
Definition int_value (target : NumericField) (z : Z) : EpicsValue :=
  match target with
  | FChar => VChar (wrap 8 z)
  | FUChar => VUChar z
  | FShort => VShort z
  | FUShort => VUShort z
  | FLong => VLong z
  | FULong => VULong z
  | FInt64 => VInt64 z
  | _ => VUInt64 z
  end.

Lemma show_Z_nonempty z : exists c l, show_Z z = c :: l.
Proof.
  unfold show_Z. destruct (z <? 0); [by eexists _, _|]. cbn [show_digits]. destruct (z <? 10);
    [by eexists _, _|]. destruct (show_digits _ _); by eexists _, _.
Qed.

Section Printed.
Context `{CLong}.

Lemma long_type : c_type c_long /\ c_type c_ulong /\ c_type c_longlong /\ c_type c_ulonglong.
Proof.
  unfold c_type, c_long, c_ulong, c_longlong, c_ulonglong.
  destruct long_bits_ok as [-> | ->]; repeat split; eexists; (split; [|eauto]); lia.
Qed.

Lemma long_range : 2 ^ 31 <= 2 ^ (long_bits - 1) /\ 2 ^ 32 <= 2 ^ long_bits.
Proof. destruct long_bits_ok as [-> | ->]; lia. Qed.

Lemma converted_show t z :
  c_type t -> c_min t <= z <= c_max t ->
  converted (strto_errno t (show_Z z) 0) = Some (z, length (show_Z z)).
Proof.
  intros Ht Hz. rewrite show_Z_reads by done. cbn [converted].
  destruct (show_Z_nonempty z) as (c & l & ->). done.
Qed.

Lemma parse_long_show z : - 2 ^ 31 <= z < 2 ^ 31 -> parse_long (show_Z z) = Some z.
Proof.
  intros Hz. pose proof long_range. unfold parse_long, strtol_errno.
  rewrite converted_show; [done|apply long_type|cbn [c_long signed_int c_min c_max]; lia].
Qed.

Lemma parse_ulong_show z : 0 <= z < 2 ^ 32 -> parse_ulong (show_Z z) = Some z.
Proof.
  intros Hz. pose proof long_range. unfold parse_ulong, strtoul_errno.
  rewrite converted_show; [done|apply long_type|cbn [c_ulong unsigned_int c_min c_max]; lia].
Qed.

Lemma in_range_in v lo hi : lo <= v <= hi -> in_range v lo hi = Some v.
Proof. intros Hv. unfold in_range. by rewrite (proj2 (Z.leb_le lo v)), (proj2 (Z.leb_le v hi)) by lia. Qed.

Lemma outside_band_in v max : v <= max -> outside_band v max = Some v.
Proof. intros Hv. unfold outside_band. by rewrite (proj2 (Z.ltb_ge max v)) by lia. Qed.

Lemma parse_two_way_show target z lo hi :
  target <> FULong -> int_range target = Some (lo, hi) -> lo <= z <= hi ->
  parse_two_way target (show_Z z) = Some (int_value target z).
Proof.
  intros Ht Hr Hz. destruct target; try done; cbn [int_range] in Hr; injection Hr as <- <-;
    cbn [parse_two_way int_value].
  - rewrite parse_long_show by lia. cbn [mbind option_bind]. by rewrite in_range_in by lia.
  - rewrite parse_ulong_show by lia. cbn [mbind option_bind]. rewrite outside_band_in by lia.
    cbn [fmap option_fmap option_map compose]. by rewrite wrap_small by (unfold is_uint; lia).
  - rewrite parse_long_show by lia. cbn [mbind option_bind]. by rewrite in_range_in by lia.
  - rewrite parse_ulong_show by lia. cbn [mbind option_bind]. rewrite outside_band_in by lia.
    cbn [fmap option_fmap option_map compose]. by rewrite wrap_small by (unfold is_uint; lia).
  - unfold epics_parse_int32_units. rewrite parse_long_show by lia. cbn [mbind option_bind].
    by rewrite in_range_in by lia.
  - unfold strtoll_errno. rewrite converted_show; [done|apply long_type|].
    cbn [c_longlong signed_int c_min c_max]. lia.
  - unfold strtoull_errno. rewrite converted_show; [done|apply long_type|].
    cbn [c_ulonglong unsigned_int c_min c_max]. lia.
Qed.

Lemma parse_ulong_via_double_show z :
  0 <= z < 2 ^ 32 -> parse_ulong_via_double (show_Z z) = RStored (VULong z).
Proof.
  intros Hz. pose proof long_range. unfold parse_ulong_via_double, strtoul_errno.
  rewrite show_Z_reads; [|apply long_type|cbn [c_ulong unsigned_int c_min c_max]; lia].
  destruct (show_Z_nonempty z) as (c & l & E). rewrite (proj2 (Nat.ltb_lt 0 (length (show_Z z))))
    by (rewrite E; cbn [length]; lia).
  rewrite outside_band_in by lia. rewrite lookup_ge_None_2 by lia. by rewrite wrap_small by (unfold is_uint; lia).
Qed.

Lemma parse_show target z lo hi :
  int_range target = Some (lo, hi) -> lo <= z <= hi ->
  parse target (show_Z z) = RStored (int_value target z).
Proof.
  intros Hr Hz. unfold parse. case_decide as Ht.
  - subst target. injection Hr as <- <-. by rewrite parse_ulong_via_double_show by lia.
  - by rewrite (parse_two_way_show target z lo hi).
Qed.

(** C26: an integer written as decimal text is stored as itself: for every integer field type
    and every integer in its range, the put of its printed form stores exactly that value, at
    either width of C's [long]. *)
Theorem printed_integer_is_stored (target : NumericField) (z lo hi : Z) :
  int_range target = Some (lo, hi) -> lo <= z <= hi ->
  put_string target (show_Z z) = Ok (Stored (int_value target z)).
Proof.
  intros Hr Hz. unfold put_string. destruct (show_Z_nonempty z) as (c & l & E).
  rewrite E, <- E. by rewrite (parse_show target z lo hi).
Qed.

(** A get reads it the same. *)
Lemma get_string_show target z lo hi :
  int_range target = Some (lo, hi) -> lo <= z <= hi ->
  get_string target (show_Z z) = Ok (int_value target z).
Proof.
  intros Hr Hz. unfold get_string. destruct (show_Z_nonempty z) as (c & l & E).
  rewrite E, <- E. by rewrite (parse_show target z lo hi).
Qed.

End Printed.

Lemma printed_integer_is_stored_witness :
  @put_string llp64 FLong (ascii_bytes "-2147483648") = Ok (Stored (VLong (- 2 ^ 31))).
Proof.
  exact (@printed_integer_is_stored llp64 FLong (- 2 ^ 31) (- 2 ^ 31) (2 ^ 31 - 1) eq_refl
    ltac:(lia)).
Defined.
