(* ===== verification/Filters.v ===== *)
(** * Channel filters

    Models [epics-base-rs/src/server/database/filters]: the filter framework ([mod.rs]) and
    the six filters [dbnd], [dec], [sync], [utag], [arr] and [ts], the field log they run on
    ([server/pv.rs]), a monitor's post through its pre chain into the event queue
    ([Subscriber::post]) and its read through the post chain
    ([db_access.rs], [DbSubscription::read_event]).

    The [SubscriptionFilter] implementations are the constructors of [Filter], each with its
    configuration and the state behind its mutex or atomic; applying a filter returns its
    next state.  A chain owns its filters: [split] deals them out to the two halves and the
    paths modelled here drop the chain it came from.  The named states [sync] listens to are
    shared, so a filter holds a cell index into [DbStates].  The clock and the rendering of a
    time as text (a third-party crate) are parameters. *)
From Stdlib Require Import SpecFloat.
From stdpp Require Import base tactics numbers list option strings.
From S2P Require Import Prelude Dbr Float64 Alarm EventQueue Strtod PvaText Value.

Open Scope Z_scope.

(** ** The field log *)

(** [WallTime]: a [Duration] since the Unix epoch. *)
Record WallTime : Type := mkWallTime { unix_secs : Z; subsec_nanos : Z }.

#[export] Instance WallTime_eq_dec : EqDecision WallTime.
Proof. solve_decision. Defined.

(** What [db_create_field_log] copies off the record, with the writer's id. *)
Record LogHead : Type := mkLogHead {
  stat : Z;
  sevr : Z;
  amsg : list Z;
  time : WallTime;
  utag : Z;
  origin : Z;
}.

(** The event queue's logs carry these. *)
#[export] Instance record_logs : LogTypes := {
  EventQueue.NativeValue := Value.NativeValue;
  EventQueue.EpicsValue := Value.EpicsValue;
  EventQueue.LogHead := LogHead;
  EventQueue.DeliveryContext := unit;
}.

Abbreviation MonitorEvent := (@PostLog record_logs).
Abbreviation LogData := (@EventQueue.LogData record_logs).
Abbreviation native n := (@Val record_logs n).
Abbreviation by_reference := (@Ref record_logs).
Abbreviation owned v := (@OwnedCopy record_logs v).
Abbreviation mkEvent := (@mkLog record_logs).

(** [LogData::holding]. *)
Definition holding (v : EpicsValue) : LogData :=
  match native_of v with Some n => native n | None => owned v end.

(** [MonitorEvent::posted]: a value wider than [native_value] is read at delivery. *)
Definition posted_data (v : EpicsValue) : LogData :=
  match native_of v with Some n => native n | None => by_reference end.

(** [MonitorEvent::value] then [LogValue::as_value]. *)
Definition as_value (e : MonitorEvent) : option EpicsValue :=
  match log_value e with
  | Val v => Some (native_value v)
  | OwnedCopy v => Some v
  | Ref => None
  end.

Definition event_time (e : MonitorEvent) : WallTime := time (log_head e).
Definition event_utag (e : MonitorEvent) : Z := utag (log_head e).
Definition event_origin (e : MonitorEvent) : Z := origin (log_head e).

Definition set_time (t : WallTime) (e : MonitorEvent) : MonitorEvent :=
  let h := log_head e in
  mkEvent (mkLogHead (stat h) (sevr h) (amsg h) t (utag h) (origin h)) (log_mask e) (log_value e).

Definition set_value (v : EpicsValue) (e : MonitorEvent) : MonitorEvent :=
  mkEvent (log_head e) (log_mask e) (holding v).

(** The value swapped out; a log read at delivery hands back a [Long] of zero. *)
Definition replace_value (v : EpicsValue) (e : MonitorEvent) : EpicsValue * MonitorEvent :=
  (default (VLong 0) (as_value e), set_value v e).

(** [MonitorEvent::read_of]: the log a read's chain runs on. *)
Definition read_of (head : LogHead) (v : EpicsValue) (mask : EventMask) : MonitorEvent :=
  mkEvent head mask (holding v).

Record FilteredMonitorEvent : Type := mkFiltered {
  event : MonitorEvent;
  read_context : bool;
}.

Definition filtered_new (e : MonitorEvent) : FilteredMonitorEvent := mkFiltered e false.
Definition filtered_new_read (e : MonitorEvent) : FilteredMonitorEvent := mkFiltered e true.
Definition map_event (f : MonitorEvent -> MonitorEvent) (e : FilteredMonitorEvent)
  : FilteredMonitorEvent := mkFiltered (f (event e)) (read_context e).

(** The events [dec], [sync] and [utag] let by untouched. *)
Definition bypasses (e : FilteredMonitorEvent) : bool :=
  read_context e || mask_intersects (log_mask (event e)) MASK_PROPERTY.

(** ** [dbnd] *)

Inductive DeadbandMode : Type := Absolute | Relative.

#[export] Instance DeadbandMode_eq_dec : EqDecision DeadbandMode.
Proof. solve_decision. Defined.

Record DeadbandFilter : Type := mkDeadband {
  cval : f64;
  dbnd_mode : DeadbandMode;
  dbnd_last : f64;
  hyst : f64;
}.

Definition DeadbandFilter_new (cval : f64) (mode : DeadbandMode) : DeadbandFilter :=
  let cval := f64_abs cval in
  mkDeadband cval mode S754_nan cval.

Definition c_delta (prev cur : f64) : f64 :=
  if f64_is_finite prev && f64_is_finite cur then f64_abs (f64_sub prev cur)
  else if xorb (f64_is_nan prev) (f64_is_nan cur)
          || xorb (f64_is_infinite prev) (f64_is_infinite cur)
          || (f64_is_infinite cur && negb (f64_eqb cur prev))
  then S754_infinity false
  else f64_zero.

(** The numeric reading the deadband compares. *)
Definition numeric (e : FilteredMonitorEvent) : option f64 := as_value (event e) ≫= to_f64.

Definition dbnd_apply (f : DeadbandFilter) (e : FilteredMonitorEvent)
  : option FilteredMonitorEvent * DeadbandFilter :=
  match numeric e with
  | None => (Some e, f)
  | Some cur =>
      let delta := c_delta (dbnd_last f) cur in
      let supra := f64_gtb delta (hyst f) in
      let last := if supra then cur else dbnd_last f in
      let bypass := mkEventMask (and_not (bits (log_mask (event e)))
                                   (bits (mask_or MASK_VALUE MASK_LOG))) in
      let send := supra || negb (mask_is_empty bypass) in
      let hyst :=
        if send && bool_decide (dbnd_mode f = Relative)
        then f64_abs (f64_div (f64_mul cur (cval f)) (f64_of_Z 100))
        else hyst f in
      (if send then Some e else None, mkDeadband (cval f) (dbnd_mode f) last hyst)
  end.

(** ** [dec] *)

Record DecimateFilter : Type := mkDecimate { dec_n : Z; counter : Z }.

Definition DecimateFilter_new (n : Z) : option DecimateFilter :=
  if 1 <=? n then Some (mkDecimate n 0) else None.

Definition dec_apply (f : DecimateFilter) (e : FilteredMonitorEvent)
  : option FilteredMonitorEvent * DecimateFilter :=
  if bypasses e then (Some e, f)
  else
    let position := counter f mod dec_n f in
    (if position =? 0 then Some e else None,
     mkDecimate (dec_n f) (wrap 64 (counter f + 1))).

(** ** [sync] *)

(** The named states: each registered name and its cell, in creation order. *)
Record DbStates : Type := mkDbStates {
  registry : list (list Z * nat);
  cells : list bool;
}.

Definition DbStates_new : DbStates := mkDbStates [] [].

Definition state_get (cell : nat) (s : DbStates) : bool := default false (cells s !! cell).
Definition state_set (cell : nat) (value : bool) (s : DbStates) : DbStates :=
  mkDbStates (registry s) (<[cell := value]> (cells s)).

(** [DbStateRegistry::find]. *)
Fixpoint find_name (name : list Z) (l : list (list Z * nat)) : option nat :=
  match l with
  | [] => None
  | (n, c) :: l => if decide (n = name) then Some c else find_name name l
  end.
Definition find_state (name : list Z) (s : DbStates) : option nat :=
  find_name name (registry s).

Definition get_or_create (name : list Z) (s : DbStates) : nat * DbStates :=
  match find_state name s with
  | Some c => (c, s)
  | None =>
      let c := length (cells s) in
      (c, mkDbStates (registry s ++ [(name, c)]) (cells s ++ [false]))
  end.

(** [DbStateRegistry::set] and [get]. *)
Definition set_named (name : list Z) (value : bool) (s : DbStates) : DbStates :=
  let '(c, s) := get_or_create name s in state_set c value s.
Definition get_named (name : list Z) (s : DbStates) : bool * DbStates :=
  let '(c, s) := get_or_create name s in (state_get c s, s).

Inductive SyncMode : Type := Before | First | Last | After | While | Unless.

#[export] Instance SyncMode_eq_dec : EqDecision SyncMode.
Proof. solve_decision. Defined.

Record SyncFilter : Type := mkSync {
  sync_mode : SyncMode;
  sync_cell : nat;
  last_state : bool;
  cached_event : option FilteredMonitorEvent;
}.

Definition SyncFilter_new (mode : SyncMode) (cell : nat) (s : DbStates) : SyncFilter :=
  mkSync mode cell (state_get cell s) None.

Definition sync_apply (s : DbStates) (f : SyncFilter) (e : FilteredMonitorEvent)
  : option FilteredMonitorEvent * SyncFilter :=
  if bypasses e then (Some e, f)
  else
    let actstate := state_get (sync_cell f) s in
    let laststate := last_state f in
    let transition_up := actstate && negb laststate in
    let transition_down := negb actstate && laststate in
    let '(pass, cache) :=
      match sync_mode f with
      | Before => (if transition_up then cached_event f else None, Some e)
      | First => (if transition_up then Some e else None, cached_event f)
      | Last => (if transition_down then cached_event f else None, Some e)
      | After => (if transition_down then Some e else None, cached_event f)
      | While => (if actstate then Some e else None, cached_event f)
      | Unless => (if negb actstate then Some e else None, cached_event f)
      end in
    (pass, mkSync (sync_mode f) (sync_cell f) actstate cache).

(** ** [utag] *)

Record UserTagFilter : Type := mkUserTag { tag_mask : Z; tag_value : Z; first : bool }.

Definition UserTagFilter_new (mask value : Z) : UserTagFilter := mkUserTag mask value true.

Definition utag_apply (f : UserTagFilter) (e : FilteredMonitorEvent)
  : option FilteredMonitorEvent * UserTagFilter :=
  if bypasses e then (Some e, f)
  else
    let f' := mkUserTag (tag_mask f) (tag_value f) false in
    if first f then (Some e, f')
    else if negb (Z.land (event_utag (event e)) (tag_mask f) =? tag_value f) then (None, f')
    else (Some e, f').

(** ** [arr] *)

Record ArrayFilterConfig : Type := mkArrayConfig { start : Z; incr_field : Z; end_ : Z }.

Definition ArrayFilterConfig_new (start incr end_ : Z) : ArrayFilterConfig :=
  mkArrayConfig start (Z.max incr 1) end_.
Definition ArrayFilterConfig_default : ArrayFilterConfig := mkArrayConfig 0 1 (-1).

(** The clamping accessor the slice helpers read through. *)
Definition incr (cfg : ArrayFilterConfig) : Z := Z.max (incr_field cfg) 1.

(** [i64::clamp]. *)
Definition clamp (lo hi x : Z) : Z := if x <? lo then lo else if hi <? x then hi else x.

Definition resolve_index (len idx hi : Z) : Z := clamp 0 hi (if idx <? 0 then len + idx else idx).

Definition slice_len (len : Z) (cfg : ArrayFilterConfig) : Z :=
  if len <=? 1 then Z.max len 0
  else
    let start := resolve_index len (start cfg) len in
    let end_ := resolve_index len (end_ cfg) (len - 1) in
    if end_ <? start then 0
    else Z.quot (end_ - start) (incr cfg) + 1.

(** [Iterator::step_by]: the first element, then every [n]-th. *)
Fixpoint step_by_aux {A : Type} (n wait : nat) (l : list A) : list A :=
  match l with
  | [] => []
  | x :: l =>
      match wait with
      | O => x :: step_by_aux n (pred n) l
      | S wait => step_by_aux n wait l
      end
  end.
Definition step_by {A : Type} (n : Z) (l : list A) : list A := step_by_aux (Z.to_nat n) 0 l.

Definition slice_with {A : Type} (input : list A) (cfg : ArrayFilterConfig) : list A :=
  let len := len input in
  if len <=? 1 then input
  else
    let start := resolve_index len (start cfg) len in
    let end_ := resolve_index len (end_ cfg) (len - 1) in
    if end_ <? start then []
    else if (start =? 0) && (incr cfg =? 1) then ztake (end_ + 1) input
    else step_by (incr cfg) (slice start (end_ + 1) input).

Definition slice_value (cfg : ArrayFilterConfig) (taken : EpicsValue) : EpicsValue :=
  match taken with
  | VShortArray v => VShortArray (slice_with v cfg)
  | VLongArray v => VLongArray (slice_with v cfg)
  | VInt64Array v => VInt64Array (slice_with v cfg)
  | VUInt64Array v => VUInt64Array (slice_with v cfg)
  | VUShortArray v => VUShortArray (slice_with v cfg)
  | VULongArray v => VULongArray (slice_with v cfg)
  | VFloatArray v => VFloatArray (slice_with v cfg)
  | VDoubleArray v => VDoubleArray (slice_with v cfg)
  | VEnumArray v => VEnumArray (slice_with v cfg)
  | VCharArray v => VCharArray (slice_with v cfg)
  | VStringArray v => VStringArray (slice_with v cfg)
  | other => other
  end.

Definition arr_apply (cfg : ArrayFilterConfig) (e : FilteredMonitorEvent)
  : FilteredMonitorEvent :=
  let '(taken, ev) := replace_value (VDouble f64_zero) (event e) in
  mkFiltered (snd (replace_value (slice_value cfg taken) ev)) (read_context e).

(** ** [ts] *)

Definition EPICS_UNIX_EPOCH_OFFSET_SECS : Z := 631152000.

Inductive TsMode : Type :=
| Generate | TsDouble | Seconds | Nanoseconds | TsArray | StringEpics | StringIso.

#[export] Instance TsMode_eq_dec : EqDecision TsMode.
Proof. solve_decision. Defined.

Inductive TsEpoch : Type := Epics | Unix.

#[export] Instance TsEpoch_eq_dec : EqDecision TsEpoch.
Proof. solve_decision. Defined.

Record TimestampFilter : Type := mkTimestamp { ts_mode : TsMode; ts_epoch : TsEpoch }.

Definition TimestampFilter_new : TimestampFilter := mkTimestamp Generate Epics.

Definition ts_parts (t : WallTime) (epoch : TsEpoch) : Z * Z :=
  let sec_unix := swrap 64 (unix_secs t) in
  let sec :=
    match epoch with
    | Unix => sec_unix
    | Epics => sec_unix - EPICS_UNIX_EPOCH_OFFSET_SECS
    end in
  (sec, subsec_nanos t).

(** The two texts a [ts] filter renders, by their [strftime] pattern. *)
Inductive TimeFormat : Type := EpicsFormat | IsoFormat.

(** The world a filter runs in: [now_wall], and [chrono]'s rendering in the local zone of
    an instant given as seconds and nanoseconds, including its fallback for a pair out of
    range. *)
Class World := {
  now_wall : WallTime;
  render_local : TimeFormat -> Z -> Z -> list Z;
}.

(** [Duration::as_secs_f64]. *)
Definition as_secs_f64 (t : WallTime) : f64 :=
  f64_add (f64_of_Z (unix_secs t)) (f64_div (f64_of_Z (subsec_nanos t)) (f64_of_Z (10 ^ 9))).

(** [format_epics_string] and [format_iso_string]: one body, two patterns. *)
Definition format_string `{World} (fmt : TimeFormat) (t : WallTime) : list Z :=
  let unix_secs := as_secs_f64 t in
  let whole := f64_trunc unix_secs in
  render_local fmt (f64_to_i64 whole)
    (f64_to_int 0 (2 ^ 32 - 1)
       (f64_mul (f64_sub unix_secs whole) (f64_of_Z (10 ^ 9)))).

Definition ts_value `{World} (f : TimestampFilter) (time : WallTime) : option EpicsValue :=
  let '(sec, nsec) := ts_parts time (ts_epoch f) in
  match ts_mode f with
  | Generate => None
  | TsDouble =>
      Some (VDouble (f64_add (f64_of_Z sec)
                       (f64_mul (f64_of_Z nsec) (f64_of_decimal 1 (-9)))))
  | Seconds => Some (VULong (wrap 32 sec))
  | Nanoseconds => Some (VULong nsec)
  | TsArray => Some (VULongArray [wrap 32 sec; nsec])
  | StringEpics => Some (VString (format_string EpicsFormat time))
  | StringIso => Some (VString (format_string IsoFormat time))
  end.

Definition ts_apply `{World} (f : TimestampFilter) (e : FilteredMonitorEvent)
  : FilteredMonitorEvent :=
  match ts_value f (event_time (event e)) with
  | None => map_event (set_time now_wall) e
  | Some v => map_event (set_value v) e
  end.

(** ** The chain *)

(** The implementors of [SubscriptionFilter]. *)
Inductive Filter : Type :=
| Dbnd (f : DeadbandFilter)
| Dec (f : DecimateFilter)
| Sync (f : SyncFilter)
| Utag (f : UserTagFilter)
| Arr (cfg : ArrayFilterConfig)
| Ts (f : TimestampFilter).

(** The trait's [apply]. *)
Definition filter_apply `{World} (s : DbStates) (f : Filter) (e : FilteredMonitorEvent)
  : option FilteredMonitorEvent * Filter :=
  match f with
  | Dbnd f => let '(r, f) := dbnd_apply f e in (r, Dbnd f)
  | Dec f => let '(r, f) := dec_apply f e in (r, Dec f)
  | Sync f => let '(r, f) := sync_apply s f e in (r, Sync f)
  | Utag f => let '(r, f) := utag_apply f e in (r, Utag f)
  | Arr cfg => (Some (arr_apply cfg e), Arr cfg)
  | Ts f => (Some (ts_apply f e), Ts f)
  end.

Definition filter_element_count (f : Filter) (input : Z) : Z :=
  match f with
  | Arr cfg => slice_len input cfg
  | Ts f => match ts_mode f with Generate => input | TsArray => 2 | _ => 1 end
  | _ => input
  end.

Definition filter_log_type (f : Filter) : option DbFieldType :=
  match f with
  | Ts f =>
      match ts_mode f with
      | Generate => None
      | TsDouble => Some Double
      | Seconds | Nanoseconds | TsArray => Some ULong
      | StringEpics | StringIso => Some DString
      end
  | _ => None
  end.

Definition post_chain (f : Filter) : bool :=
  match f with
  | Arr _ => true
  | Ts f => negb (bool_decide (ts_mode f = Generate))
  | _ => false
  end.

Abbreviation FilterChain := (list Filter).

(** [FilterChain::apply]: the filters behind the one that drops keep their state. *)
Fixpoint chain_apply `{World} (s : DbStates) (c : FilterChain) (e : FilteredMonitorEvent)
  : option FilteredMonitorEvent * FilterChain :=
  match c with
  | [] => (Some e, [])
  | f :: c =>
      match filter_apply s f e with
      | (Some e, f) => let '(r, c) := chain_apply s c e in (r, f :: c)
      | (None, f) => (None, f :: c)
      end
  end.

Definition final_element_count (c : FilterChain) (native : Z) : Z :=
  foldl (fun n f => filter_element_count f n) native c.

(** [iter().rev().find_map(log_type)]. *)
Fixpoint chain_log_type (c : FilterChain) : option DbFieldType :=
  match c with
  | [] => None
  | f :: c => match chain_log_type c with Some t => Some t | None => filter_log_type f end
  end.
Definition final_field_type (c : FilterChain) (native : DbFieldType) : DbFieldType :=
  default native (chain_log_type c).

(** [FilterChain::split]: the pre chain and the post chain. *)
Definition split (c : FilterChain) : FilterChain * FilterChain :=
  (filter (fun f => post_chain f = false) c, filter (fun f => post_chain f = true) c).

(** [FilterChain::run_read]: the event of a filtered read log. *)
Definition run_read `{World} (s : DbStates) (c : FilterChain) (log : MonitorEvent)
  : option MonitorEvent * FilterChain :=
  let '(r, c) := chain_apply s c (filtered_new_read log) in (event <$> r, c).

Definition apply_to_read_log `{World} (s : DbStates) (c : FilterChain) (head : LogHead)
    (value : EpicsValue) : option EpicsValue * FilterChain :=
  match c with
  | [] => (Some value, c)
  | _ =>
      let '(r, c) := run_read s c (read_of head value MASK_NONE) in
      (r ≫= as_value, c)
  end.

(** ** The monitor: posting and reading *)

(** [EventSink]: the queue it posts into, its slot there, and the kind of its logs. *)
Record EventSink : Type := mkSink { sink_que : nat; sink_id : AttachId; sink_kind : LogKind }.

(** [Subscriber]: its select mask, sink, pre chain and delivery gate. *)
Record Subscriber : Type := mkSubscriber {
  select : Z;
  sink : EventSink;
  filters : FilterChain;
  active : bool;
}.

Definition set_filters (c : FilterChain) (s : Subscriber) : Subscriber :=
  mkSubscriber (select s) (sink s) c (active s).

(** [Subscriber::delivered_mask]. *)
Definition delivered_mask (s : Subscriber) (post : EventMask) : option EventMask :=
  let narrowed := mask_and post (mkEventMask (select s)) in
  if mask_is_empty narrowed then None else Some narrowed.

(** The circuits' queues, each with its flow-control flag. *)
Abbreviation Queues := (list (@QueInner record_logs * bool)).

(** [EventSink::post_in]: the queue's outcome; a queue that is gone refuses the post. *)
Definition sink_post (qs : Queues) (k : EventSink) (log : MonitorEvent)
  : PostOutcome * Queues :=
  match qs !! sink_que k with
  | Some (q, flow_on) =>
      let '(outcome, q, _) := post q flow_on (sink_id k) log in
      (outcome, <[sink_que k := (q, flow_on)]> qs)
  | None => (Closed, qs)
  end.

(** The log [Subscriber::post] makes: a by-value monitor copies a scalar that fits. *)
Definition post_event (k : LogKind) (head : LogHead) (value : option EpicsValue)
    (mask : EventMask) : MonitorEvent :=
  mkEvent head mask
    (match k, value with
     | KVal, Some v => posted_data v
     | _, _ => by_reference
     end).

(** [Subscriber::post]: the monitor and the queues after it, and whether
    [DROPPED_MONITOR_EVENTS] counts a displaced value. *)
Definition subscriber_post `{World} (states : DbStates) (s : Subscriber) (qs : Queues)
    (head : LogHead) (value : option EpicsValue) (mask : EventMask)
  : Subscriber * Queues * bool :=
  let log := post_event (sink_kind (sink s)) head value mask in
  let '(passed, s) :=
    match filters s with
    | [] => (Some log, s)
    | c => let '(r, c) := chain_apply states c (filtered_new log) in
           (event <$> r, set_filters c s)
    end in
  match passed with
  | None => (s, qs, false)
  | Some log =>
      let '(outcome, qs) := sink_post qs (sink s) log in
      (s, qs, match outcome with Replaced | Collapsed => true | _ => false end)
  end.

(** One subscriber of the loop in [ProcessVariable::deliver]. *)
Definition deliver_one `{World} (states : DbStates) (post : EventMask) (head : LogHead)
    (value : EpicsValue) (s : Subscriber) (qs : Queues) : Subscriber * Queues * bool :=
  if negb (active s) then (s, qs, false)
  else match delivered_mask s post with
       | None => (s, qs, false)
       | Some mask => subscriber_post states s qs head (Some value) mask
       end.

(** [ProcessVariable::deliver]: every subscriber in list order, nothing while the variable is
    pending; the values displaced are counted. *)
Fixpoint deliver_loop `{World} (states : DbStates) (post : EventMask) (head : LogHead)
    (value : EpicsValue) (subs : list Subscriber) (qs : Queues) (dropped : Z)
  : list Subscriber * Queues * Z :=
  match subs with
  | [] => ([], qs, dropped)
  | s :: subs =>
      let '(s, qs, displaced) := deliver_one states post head value s qs in
      let '(subs, qs, dropped) :=
        deliver_loop states post head value subs qs
          (if displaced then wrap 64 (dropped + 1) else dropped) in
      (s :: subs, qs, dropped)
  end.
Definition deliver `{World} (pending : bool) (states : DbStates) (post : EventMask)
    (head : LogHead) (value : EpicsValue) (subs : list Subscriber) (qs : Queues) (dropped : Z)
  : list Subscriber * Queues * Z :=
  if pending then (subs, qs, dropped)
  else deliver_loop states post head value subs qs dropped.

(** [read_reference]: [field] is what the record's field reads now. *)
Definition read_reference (field : option EpicsValue) (e : MonitorEvent) : MonitorEvent :=
  match as_value e, field with
  | None, Some v => set_value v e
  | _, _ => e
  end.

(** [PostStage::read] of a channel that is no [$] channel. *)
Definition post_stage_read `{World} (states : DbStates) (post : FilterChain) (e : MonitorEvent)
  : option MonitorEvent * FilterChain :=
  match post with
  | [] => (Some e, post)
  | _ => let '(r, post) := chain_apply states post (filtered_new e) in (event <$> r, post)
  end.

(** [DbSubscription::read_event]; [None] is a skipped event. *)
Definition read_event `{World} (states : DbStates) (ignore_origin : Z) (post : FilterChain)
    (field : option EpicsValue) (e : MonitorEvent) : option MonitorEvent * FilterChain :=
  if negb (ignore_origin =? 0) && (event_origin e =? ignore_origin) then (None, post)
  else post_stage_read states post (read_reference field e).
