(* ===== verification/FilterParse.v ===== *)
(** * Channel names and the filter chain they ask for

    Models [epics-base-rs/src/server/database/filters/parser.rs] and the name splitting of
    [server/database/mod.rs]: the division of a channel name into record, field, [$], range
    and filter text; the option tables of the filters and how a JSON value is stored into an
    option; the builders; and the two scans that make a chain of them, the strict one driven by
    the JSON reader's callbacks ([ChfScan]) and the permissive one over a document
    ([build_filter]).  The JSON readers themselves are not modelled: the strict scan takes the
    events the reader reports and, when it stops at a syntax error, the text it renders; the
    permissive one takes the [serde_json] value.  [show_json] stands for the printing of such a
    value in an error, [show_f64] for the printing of a float, which only a converting text
    option would use; no filter has one. *)
From Stdlib Require Import SpecFloat.
From stdpp Require Import base tactics numbers list option strings.
From S2P Require Import Prelude Dbr Float64 Alarm EventQueue Strtod Strtol PvaText Value CParse Filters.

Open Scope Z_scope.

(** ** Channel names *)

Record ParsedChannelName : Type := mkParsedName {
  pn_record_path : list Z;
  pn_string_view : bool;
  pn_json_suffix : option (list Z);
}.

Definition is_ascii_alphabetic (c : Z) : bool := is_ascii_uppercase c || is_ascii_lowercase c.

(** The first index whose byte satisfies [p]. *)
Fixpoint index_of (p : Z -> bool) (l : list Z) : option nat :=
  match l with
  | [] => None
  | c :: l => if p c then Some 0%nat else S <$> index_of p l
  end.

Definition field_name_len (b : list Z) : nat :=
  match b with
  | c :: _ =>
      if (c =? 95) || is_ascii_alphabetic c
      then default (length b) (index_of (fun c => negb ((c =? 95) || is_ascii_alphanumeric c)) b)
      else 0%nat
  | [] => 0%nat
  end.

(** [str::parse::<i64>]: an optional sign, then digits alone, within range. *)
Fixpoint all_digits (l : list Z) : bool :=
  match l with [] => true | c :: l => is_ascii_digit c && all_digits l end.
Definition parse_i64 (t : list Z) : option Z :=
  let '(neg, ds) :=
    match t with
    | c :: ds => if c =? 45 then (true, ds) else if c =? 43 then (false, ds) else (false, t)
    | [] => (false, t)
    end in
  match ds with
  | [] => None
  | _ =>
      if all_digits ds then
        let v := if neg : bool then - digits_value ds else digits_value ds in
        if (- 2 ^ 63 <=? v) && (v <=? 2 ^ 63 - 1) then Some v else None
      else None
  end.

(** [str::split]. *)
Fixpoint split_on (sep : Z) (l : list Z) : list (list Z) :=
  match l with
  | [] => [[]]
  | c :: l =>
      match split_on sep l with
      | part :: parts => if c =? sep then [] :: part :: parts else (c :: part) :: parts
      | [] => [[c]]
      end
  end.

(** A position of a range: text that is no number, nothing, or the number. *)
Definition range_part (s : list Z) : option (option Z) :=
  match trim s with
  | [] => Some None
  | t => Some <$> parse_i64 t
  end.

Definition parse_array_range (inner : list Z) : option (Z * Z * Z) :=
  match split_on 58 inner with
  | [one] => n ← range_part one; n ← n; Some (n, 1, n)
  | [s; e] => s ← range_part s; e ← range_part e; Some (default 0 s, 1, default (-1) e)
  | [s; i; e] =>
      s ← range_part s; i ← range_part i; e ← range_part e;
      Some (default 0 s, default 1 i, default (-1) e)
  | _ => None
  end.

(** [keys.join(",")]. *)
Fixpoint join_comma (l : list (list Z)) : list Z :=
  match l with
  | [] => []
  | [k] => k
  | k :: l => k ++ [44] ++ join_comma l
  end.

(** A member [QUOTE k QUOTE : n] of a JSON object. *)
Definition json_member (k n : Z) : list Z := [34; k; 34; 58] ++ show_Z n.

Definition build_arr_inner (start incr end_ : Z) : list Z :=
  let keys :=
    (if start =? 0 then [] else [json_member 115 start])
    ++ (if incr =? 1 then [] else [json_member 105 incr])
    ++ (if end_ =? -1 then [] else [json_member 101 end_]) in
  [34] ++ ascii_bytes "arr" ++ [34; 58; 123] ++ join_comma keys ++ [125].

(** [str::strip_suffix]. *)
Definition strip_suffix (p s : list Z) : option (list Z) :=
  if decide (drop (length s - length p) s = p /\ (length p <= length s)%nat)
  then Some (take (length s - length p) s) else None.

Definition merge_arr_into_json (arr_inner existing : list Z) : list Z :=
  let body :=
    default [] (trim <$> (strip_prefix [123] (trim existing) ≫= strip_suffix [125])) in
  match body with
  | [] => [123] ++ arr_inner ++ [125]
  | _ => [123] ++ arr_inner ++ [44] ++ body ++ [125]
  end.

(** The range at the head of [rest], as an [arr] member, and what follows it; [None] when the
    name is to stay whole. *)
Definition range_modifier (rest : list Z) : option (option (list Z) * list Z) :=
  match strip_prefix [91] rest with
  | None => Some (None, rest)
  | Some body =>
      close ← index_of (fun c => c =? 93) body;
      let inner := take close body in
      if valid_utf8 inner then
        '(start, incr, end_) ← parse_array_range inner;
        Some (Some (build_arr_inner start incr end_), drop (S close) body)
      else None
  end.

(** The filter text after it; [None] when the name is to stay whole. *)
Definition json_modifier (rest : list Z) : option (option (list Z)) :=
  match rest with
  | [] => Some None
  | c :: _ => if (c =? 123) && valid_utf8 rest then Some (Some rest) else None
  end.

Definition split_channel_name (raw : list Z) : ParsedChannelName :=
  let whole := mkParsedName raw false None in
  match index_of (fun c => c =? 46) raw with
  | None =>
      match strip_suffix [36] raw with
      | Some (_ :: _) => mkParsedName raw true None
      | _ => whole
      end
  | Some dot =>
      let tail := drop (S dot) raw in
      let field_len := field_name_len tail in
      let rest := drop field_len tail in
      let '(string_view, rest) :=
        match strip_prefix [36] rest with Some r => (true, r) | None => (false, rest) end in
      match range_modifier rest with
      | None => whole
      | Some (arr_inner, rest) =>
          match json_modifier rest with
          | None => whole
          | Some json =>
              let record_path :=
                if (field_len =? 0)%nat then take dot raw else take (dot + 1 + field_len) raw in
              let record_path := if string_view : bool then record_path ++ [36] else record_path in
              let json_suffix :=
                match arr_inner, json with
                | Some arr, Some json => Some (merge_arr_into_json arr json)
                | Some arr, None => Some ([123] ++ arr ++ [125])
                | None, json => json
                end in
              mkParsedName record_path string_view json_suffix
          end
      end
  end.

(** [DbNameParts::of]: record, field and tail of a name. *)
Definition name_parts (pname : list Z) : list Z * list Z * list Z :=
  match index_of (fun c => c =? 46) pname with
  | None => (pname, [], [])
  | Some dot =>
      let rest := drop (S dot) pname in
      let n := field_name_len rest in
      (take dot pname, take n rest, drop n rest)
  end.

(** [parse_pv_name]: the record, and the field text unread. *)
Definition parse_pv_name (name : list Z) : list Z * list Z :=
  let '(record, _, _) := name_parts name in
  if (length record <? length name)%nat then
    let rest := drop (S (length record)) name in
    (record, if valid_utf8 rest then rest else REPLACEMENT)
  else (name, ascii_bytes "VAL").

Record ChannelName : Type := mkChannelName {
  cn_record_path : list Z;
  cn_record : list Z;
  cn_field : list Z;
  cn_string_view : bool;
  cn_json_suffix : option (list Z);
}.

Definition spells_a_field (field : list Z) : bool := negb (existsb is_ascii_lowercase field).

Definition parse_channel_name (raw : list Z) : ChannelName :=
  let parsed := split_channel_name raw in
  let core :=
    if pn_string_view parsed
    then default (pn_record_path parsed) (strip_suffix [36] (pn_record_path parsed))
    else pn_record_path parsed in
  let '(record, field) := parse_pv_name core in
  mkChannelName core record (map to_ascii_uppercase field) (pn_string_view parsed)
    (pn_json_suffix parsed).

(** ** Options *)

Inductive FilterParseError : Type :=
| Syntax (suffix block : list Z)
| NotObject (suffix : list Z)
| UnknownFilter (name : list Z)
| UnknownOption (filter key : list Z)
| BadConfig (name config : list Z).

(** [serde_json::Value]; an object keeps the order of its members. *)
Inductive JsonValue : Type :=
| SNull
| SBool (b : bool)
| SNumberI (v : Z)
| SNumberF (v : f64)
| SString (s : list Z)
| SArray (l : list JsonValue)
| SObject (members : list (list Z * JsonValue)).

Abbreviation EnumMap := (list (list Z * Z)).

Definition DBND_MODES : EnumMap := [(ascii_bytes "abs", 0); (ascii_bytes "rel", 1)].
Definition SYNC_MODES : EnumMap :=
  [(ascii_bytes "before", 0); (ascii_bytes "first", 1); (ascii_bytes "last", 2);
   (ascii_bytes "after", 3); (ascii_bytes "while", 4); (ascii_bytes "unless", 5)].
Definition TS_NUM : EnumMap :=
  [(ascii_bytes "dbl", 2); (ascii_bytes "sec", 3); (ascii_bytes "nsec", 4); (ascii_bytes "ts", 5)].
Definition TS_EPOCH : EnumMap := [(ascii_bytes "epics", 0); (ascii_bytes "unix", 1)].
Definition TS_STR : EnumMap := [(ascii_bytes "epics", 1); (ascii_bytes "iso", 2)].

Inductive ArgType : Type := AInt32 | ADouble | AStr | AEnum (map : EnumMap).

Record ArgDef : Type := mkArg { arg_name : list Z; arg_ty : ArgType; arg_convert : bool }.

Inductive ArgValue : Type :=
| IntArg (v : Z)
| DoubleArg (v : f64)
| StrArg (v : list Z)
| EnumArg (v : Z).

Definition as_int (v : ArgValue) : option Z := match v with IntArg v => Some v | _ => None end.
Definition as_double (v : ArgValue) : option f64 :=
  match v with DoubleArg v => Some v | _ => None end.
Definition as_str (v : ArgValue) : option (list Z) :=
  match v with StrArg v => Some v | _ => None end.
Definition as_choice (v : ArgValue) : option Z := match v with EnumArg v => Some v | _ => None end.

(** [Opts]: the options stored, in order. *)
Abbreviation Opts := (list (list Z * ArgValue)).

Fixpoint opts_get (key : list Z) (o : Opts) : option ArgValue :=
  match o with
  | [] => None
  | (k, v) :: o => if decide (k = key) then Some v else opts_get key o
  end.
Definition opts_int (key : string) (o : Opts) : option Z := opts_get (ascii_bytes key) o ≫= as_int.
Definition opts_choice (key : string) (o : Opts) : option Z :=
  opts_get (ascii_bytes key) o ≫= as_choice.

Definition chf_prefix_match (incoming table_name : list Z) : bool :=
  bool_decide (take (length incoming) table_name = incoming).

Section Scan.
Context `{CLong}.
Variable show_f64 : f64 -> list Z.
Variable show_json : JsonValue -> list Z.

(** ** Storing a value into an option *)

Definition ty_is_int32 (t : ArgType) : bool := match t with AInt32 => true | _ => false end.
Definition ty_is_double (t : ArgType) : bool := match t with ADouble => true | _ => false end.
Definition ty_is_text (t : ArgType) : bool := match t with AStr | AEnum _ => true | _ => false end.

Fixpoint find_choice (val : Z) (m : EnumMap) : option Z :=
  match m with
  | [] => None
  | (_, c) :: m => if c =? val then Some c else find_choice val m
  end.
Fixpoint find_spelling (val : list Z) (m : EnumMap) : option Z :=
  match m with
  | [] => None
  | (n, c) :: m => if chf_prefix_match val n then Some c else find_spelling val m
  end.

Definition store_integer (def : ArgDef) (val : Z) : option ArgValue :=
  if negb (arg_convert def) && negb (ty_is_int32 (arg_ty def)) then None
  else match arg_ty def with
       | AInt32 => Some (IntArg val)
       | ADouble => Some (DoubleArg (f64_of_Z val))
       | AStr => Some (StrArg (show_Z val))
       | AEnum map => EnumArg <$> find_choice val map
       end.

Definition store_double (def : ArgDef) (val : f64) : option ArgValue :=
  if negb (arg_convert def) && negb (ty_is_double (arg_ty def)) then None
  else match arg_ty def with
       | AInt32 =>
           if f64_leb (f64_of_Z (- 2 ^ 31)) val && f64_leb val (f64_of_Z (2 ^ 31 - 1))
           then Some (IntArg (f64_to_i32 val)) else None
       | ADouble => Some (DoubleArg val)
       | AStr => Some (StrArg (show_f64 val))
       | AEnum _ => None
       end.

Definition store_string (def : ArgDef) (val : list Z) : option ArgValue :=
  if negb (arg_convert def) && negb (ty_is_text (arg_ty def)) then None
  else match arg_ty def with
       | AInt32 => IntArg <$> epics_parse_int32_units val
       | ADouble => DoubleArg <$> parse_double val
       | AStr => Some (StrArg val)
       | AEnum map => EnumArg <$> find_spelling val map
       end.

Definition store_boolean (def : ArgDef) (val : bool) : option ArgValue :=
  if negb (arg_convert def) then None
  else let v := if val then 1 else 0 in
       match arg_ty def with
       | AInt32 => Some (IntArg v)
       | ADouble => Some (DoubleArg (f64_of_Z v))
       | AStr => Some (StrArg (ascii_bytes (if val then "true" else "false")))
       | AEnum _ => None
       end.

(** ** The builders *)

Definition build_ts (o : Opts) : option Filter :=
  let epoch := match opts_choice "epoch" o with Some 1 => Unix | _ => Epics end in
  match opts_choice "str" o with
  | Some choice => Some (Ts (mkTimestamp (if choice =? 2 then StringIso else StringEpics) Epics))
  | None =>
      let mode :=
        match opts_choice "num" o with
        | None => Generate
        | Some 2 => TsDouble
        | Some 3 => Seconds
        | Some 4 => Nanoseconds
        | _ => TsArray
        end in
      Some (Ts (mkTimestamp mode epoch))
  end.

Definition dbnd_mode_of (choice : Z) : DeadbandMode := if choice =? 1 then Relative else Absolute.

Fixpoint dbnd_options (o : Opts) (cval : option f64) (mode : DeadbandMode)
  : option (option f64 * DeadbandMode) :=
  match o with
  | [] => Some (cval, mode)
  | (name, value) :: o =>
      if decide (name = ascii_bytes "d") then
        v ← as_double value; dbnd_options o (Some v) mode
      else if decide (name = ascii_bytes "m") then
        c ← as_choice value; dbnd_options o cval (dbnd_mode_of c)
      else if decide (name = ascii_bytes "abs") then
        v ← as_double value; dbnd_options o (Some v) Absolute
      else v ← as_double value; dbnd_options o (Some v) Relative
  end.
Definition build_dbnd (o : Opts) : option Filter :=
  '(cval, mode) ← dbnd_options o None Absolute;
  Some (Dbnd (DeadbandFilter_new (default f64_zero cval) mode)).

Definition build_utag (o : Opts) : option Filter :=
  Some (Utag (UserTagFilter_new (default (-1) (opts_int "M" o)) (default 0 (opts_int "V" o)))).

Definition build_arr (o : Opts) : option Filter :=
  Some (Arr (ArrayFilterConfig_new (default 0 (opts_int "s" o)) (default 1 (opts_int "i" o))
               (default (-1) (opts_int "e" o)))).

Definition build_decimate (o : Opts) : option Filter :=
  n ← opts_int "n" o;
  if n <? 0 then None else Dec <$> DecimateFilter_new n.

Definition sync_mode_of (choice : Z) : option SyncMode :=
  match choice with
  | 0 => Some Before | 1 => Some First | 2 => Some Last
  | 3 => Some After | 4 => Some While | 5 => Some Unless
  | _ => None
  end.

Fixpoint enum_value (name : list Z) (m : EnumMap) : option Z :=
  match m with
  | [] => None
  | (n, c) :: m => if decide (n = name) then Some c else enum_value name m
  end.

Fixpoint sync_options (o : Opts) (mode : option Z) (state : option (list Z))
  : option (option Z * option (list Z)) :=
  match o with
  | [] => Some (mode, state)
  | (name, value) :: o =>
      if decide (name = ascii_bytes "m") then
        c ← as_choice value; sync_options o (Some c) state
      else if decide (name = ascii_bytes "s") then
        v ← as_str value; sync_options o mode (Some v)
      else
        c ← enum_value name SYNC_MODES;
        v ← as_str value; sync_options o (Some c) (Some v)
  end.
Definition build_sync (states : DbStates) (o : Opts) : option Filter :=
  '(mode, state) ← sync_options o None None;
  state ← state;
  cell ← find_state state states;
  mode ← mode;
  mode ← sync_mode_of mode;
  Some (Sync (SyncFilter_new mode cell states)).

(** ** The registry *)

Inductive Plugin : Type := PDbnd | PArr | PTs | PDec | PSync | PUtag.

Definition plugin_name (p : Plugin) : list Z :=
  ascii_bytes match p with
              | PDbnd => "dbnd" | PArr => "arr" | PTs => "ts"
              | PDec => "dec" | PSync => "sync" | PUtag => "utag"
              end.

Definition arg (name : string) (ty : ArgType) (convert : bool) : ArgDef :=
  mkArg (ascii_bytes name) ty convert.

Definition plugin_defs (p : Plugin) : list ArgDef :=
  match p with
  | PDbnd => [arg "d" ADouble true; arg "m" (AEnum DBND_MODES) true;
              arg "abs" ADouble true; arg "rel" ADouble true]
  | PArr => [arg "s" AInt32 true; arg "i" AInt32 true; arg "e" AInt32 true]
  | PTs => [arg "num" (AEnum TS_NUM) false; arg "epoch" (AEnum TS_EPOCH) false;
            arg "str" (AEnum TS_STR) false]
  | PDec => [arg "n" AInt32 false]
  | PSync => [arg "m" (AEnum SYNC_MODES) true; arg "s" AStr false;
              arg "before" AStr false; arg "first" AStr false; arg "last" AStr false;
              arg "after" AStr false; arg "while" AStr false; arg "unless" AStr false]
  | PUtag => [arg "M" AInt32 true; arg "V" AInt32 true]
  end.

Definition plugin_build (p : Plugin) (states : DbStates) (o : Opts) : option Filter :=
  match p with
  | PDbnd => build_dbnd o
  | PArr => build_arr o
  | PTs => build_ts o
  | PDec => build_decimate o
  | PSync => build_sync states o
  | PUtag => build_utag o
  end.

Definition PLUGINS : list Plugin := [PDbnd; PArr; PTs; PDec; PSync; PUtag].

Definition find_plugin (key : list Z) : option Plugin :=
  snd <$> list_find (fun p => plugin_name p = key) PLUGINS.
Definition find_def (key : list Z) (defs : list ArgDef) : option ArgDef :=
  snd <$> list_find (fun d => chf_prefix_match key (arg_name d) = true) defs.

(** ** The strict scan *)

(** What the JSON reader reports. *)
Inductive JsonEvent : Type :=
| JNull
| JBoolean (b : bool)
| JInteger (v : Z)
| JDouble (v : f64)
| JString (s : list Z)
| JStartMap
| JMapKey (key : list Z)
| JEndMap
| JStartArray
| JEndArray.

Record OpenFilter : Type := mkOpen {
  of_plugin : Plugin;
  of_depth : nat;
  of_next : option ArgDef;
  of_stored : Opts;
}.

Record ChfScan : Type := mkScan {
  suffix : list Z;
  opened : bool;
  open_filter : option OpenFilter;
  chain : FilterChain;
  refusal : option FilterParseError;
}.

Definition ChfScan_new (suffix : list Z) : ChfScan := mkScan suffix false None [] None.

(** A callback's answer: whether the parse goes on, and the context after it. *)
Abbreviation callback := (bool * ChfScan)%type.

Definition refuse (e : FilterParseError) (c : ChfScan) : callback :=
  (false, mkScan (suffix c) (opened c) (open_filter c) (chain c) (Some e)).
Definition bad_config (c : ChfScan) : callback :=
  refuse (BadConfig (match open_filter c with Some f => plugin_name (of_plugin f) | None => [] end)
            (suffix c)) c.
Definition not_object (c : ChfScan) : callback := refuse (NotObject (suffix c)) c.
Definition with_filter (f : option OpenFilter) (c : ChfScan) : ChfScan :=
  mkScan (suffix c) (opened c) f (chain c) (refusal c).

(** [ChfScan::value]: a value that closes at depth 0 builds the filter. *)
Definition scan_value (states : DbStates) (c : ChfScan) : callback :=
  match open_filter c with
  | None => (true, c)
  | Some f =>
      if (0 <? of_depth f)%nat then (true, c)
      else
        let c := with_filter None c in
        match plugin_build (of_plugin f) states (of_stored f) with
        | Some built => (true, mkScan (suffix c) (opened c) None (chain c ++ [built]) (refusal c))
        | None => refuse (BadConfig (plugin_name (of_plugin f)) (suffix c)) c
        end
  end.

Definition scan_scalar (states : DbStates) (store : ArgDef -> option ArgValue) (c : ChfScan)
  : callback :=
  match open_filter c with
  | None => not_object c
  | Some f =>
      match of_next f with
      | None => bad_config c
      | Some def =>
          match store def with
          | None => bad_config c
          | Some value =>
              let name := arg_name def in
              let stored := filter (fun kv => kv.1 <> name) (of_stored f) ++ [(name, value)] in
              scan_value states
                (with_filter (Some (mkOpen (of_plugin f) (of_depth f) (of_next f) stored)) c)
          end
      end
  end.

Definition store_i64 (def : ArgDef) (v : Z) : option ArgValue :=
  if (- 2 ^ 31 <=? v) && (v <=? 2 ^ 31 - 1) then store_integer def v else None.
Definition store_bytes (def : ArgDef) (s : list Z) : option ArgValue :=
  if valid_utf8 s then store_string def s else None.

Definition scan_map_key (key : list Z) (c : ChfScan) : callback :=
  let key := from_utf8_lossy key in
  match open_filter c with
  | Some f =>
      let next := find_def key (plugin_defs (of_plugin f)) in
      let c := with_filter (Some (mkOpen (of_plugin f) (of_depth f) next (of_stored f))) c in
      match next with
      | None => refuse (UnknownOption (plugin_name (of_plugin f)) key) c
      | Some _ => (true, c)
      end
  | None =>
      match find_plugin key with
      | Some p => (true, with_filter (Some (mkOpen p 0 None [])) c)
      | None => refuse (UnknownFilter key) c
      end
  end.

(** The [Callbacks] of the scan. *)
Definition scan_event (states : DbStates) (e : JsonEvent) (c : ChfScan) : callback :=
  match e with
  | JNull | JStartArray =>
      match open_filter c with None => not_object c | Some _ => bad_config c end
  | JBoolean b => scan_scalar states (fun d => store_boolean d b) c
  | JInteger v => scan_scalar states (fun d => store_i64 d v) c
  | JDouble v => scan_scalar states (fun d => store_double d v) c
  | JString s => scan_scalar states (fun d => store_bytes d s) c
  | JStartMap =>
      match open_filter c with
      | Some f => (true, with_filter (Some (mkOpen (of_plugin f) (S (of_depth f)) (of_next f)
                                              (of_stored f))) c)
      | None => if opened c then not_object c
                else (true, mkScan (suffix c) true None (chain c) (refusal c))
      end
  | JEndMap =>
      match open_filter c with
      | None => (true, c)
      | Some f =>
          scan_value states (with_filter (Some (mkOpen (of_plugin f) (pred (of_depth f)) (of_next f)
                                                  (of_stored f))) c)
      end
  | JMapKey key => scan_map_key key c
  | JEndArray => (true, c)
  end.

(** The reader stops at the first callback that answers no. *)
Fixpoint scan_events (states : DbStates) (es : list JsonEvent) (c : ChfScan) : callback :=
  match es with
  | [] => (true, c)
  | e :: es =>
      match scan_event states e c with
      | (true, c) => scan_events states es c
      | (false, c) => (false, c)
      end
  end.

(** [try_parse_filter_chain] of a text whose reading reports [es] and then ends, or stops at a
    syntax error rendered as [block]; [None] is the [expect] of a cancelled scan with no
    refusal. *)
Definition try_parse_filter_chain (states : DbStates) (json : list Z) (es : list JsonEvent)
    (block : option (list Z)) : option (result FilterParseError FilterChain) :=
  match scan_events states es (ChfScan_new json) with
  | (true, c) =>
      Some match block with None => Ok (chain c) | Some block => Err (Syntax json block) end
  | (false, c) => Err <$> refusal c
  end.

(** ** The permissive scan *)

Definition store (def : ArgDef) (v : JsonValue) : option ArgValue :=
  match v with
  | SNumberF v => store_double def v
  | SNumberI v => store_i64 def v
  | SString s => store_string def s
  | SBool b => store_boolean def b
  | SNull | SArray _ | SObject _ => None
  end.

(** The loop of [build_filter]; [bad] is its [bad_config]. *)
Fixpoint store_all (p : Plugin) (bad : FilterParseError) (obj : list (list Z * JsonValue))
    (stored : Opts) : result FilterParseError Opts :=
  match obj with
  | [] => Ok stored
  | (key, value) :: obj =>
      match find_def key (plugin_defs p) with
      | None => Err (UnknownOption (plugin_name p) key)
      | Some def =>
          match store def value with
          | None => Err bad
          | Some v => store_all p bad obj (stored ++ [(arg_name def, v)])
          end
      end
  end.

Definition build_filter (states : DbStates) (name : list Z) (cfg : JsonValue)
  : result FilterParseError Filter :=
  match find_plugin name with
  | None => Err (UnknownFilter name)
  | Some p =>
      let bad := BadConfig name (show_json cfg) in
      match cfg with
      | SObject obj =>
          match store_all p bad obj [] with
          | Err e => Err e
          | Ok stored => ok_or (plugin_build p states stored) bad
          end
      | _ => Err bad
      end
  end.

(** [parse_filter_chain] of a text that is JSON: no object is no chain, and an entry that
    builds no filter is skipped. *)
Definition parse_filter_chain (states : DbStates) (doc : JsonValue) : FilterChain :=
  match doc with
  | SObject members =>
      omap (fun '(key, cfg) =>
              match build_filter states key cfg with Ok f => Some f | Err _ => None end) members
  | _ => []
  end.

End Scan.
