(* ===== verification/FiltersTheory.v ===== *)
(** * Channel filters: theorems

    What a chain lets through ([owed_events_pass]), what each gate withholds
    ([deadband_withholds_only_near_values], [decimator_passes_every_nth],
    [sync_follows_the_state]), and that the element count and field type a channel
    advertises are those it delivers ([advertised_shape_is_delivered]). *)
From Stdlib Require Import SpecFloat.
From stdpp Require Import base tactics numbers list option strings.
From S2P Require Import Prelude Dbr Float64 Alarm EventQueue Strtod PvaText Value Filters.

Open Scope Z_scope.

(** Case analysis on the first integer comparison of the goal. *)
Ltac zcase :=
  match goal with
  | |- context [?a <? ?b] => destruct (Z.ltb_spec a b)
  | |- context [?a <=? ?b] => destruct (Z.leb_spec a b)
  | |- context [?a =? ?b] => destruct (Z.eqb_spec a b)
  end.

(** ** Slices *)

Section Slices.
Context {A : Type}.
Implicit Types l : list A.

Lemma step_by_aux_lookup n w l j :
  (1 <= n)%nat -> step_by_aux n w l !! j = l !! (w + j * n)%nat.
Proof.
  intros Hn. revert w j. induction l as [|x l IH]; intros w j; [by rewrite !lookup_nil|].
  destruct w as [|w]; cbn [step_by_aux].
  - destruct j as [|j]; [done|]. cbn [lookup list_lookup]. rewrite IH.
    replace (0 + S j * n)%nat with (S (pred n + j * n))%nat by lia. done.
  - rewrite IH. done.
Qed.

(** The element [j] of a slice is element [start + j * incr] of the array, up to [end]. *)
Lemma slice_lookup l (a b : Z) (j : nat) :
  0 <= a -> slice a b l !! j = if Z.of_nat j <? b - a then l !! (Z.to_nat a + j)%nat else None.
Proof.
  intros Ha. unfold slice, ztake, zdrop. zcase.
  - rewrite lookup_take_lt by lia. by rewrite lookup_drop.
  - by rewrite lookup_take_ge by lia.
Qed.

Lemma clamp_range lo hi x : lo <= hi -> lo <= clamp lo hi x <= hi.
Proof. unfold clamp. repeat zcase; lia. Qed.

Lemma resolve_index_range n idx hi : 0 <= hi -> 0 <= resolve_index n idx hi <= hi.
Proof. apply clamp_range. Qed.

(** The bounds [slice_len] and [slice_with] both compute. *)
Definition slice_bounds (n : Z) (cfg : ArrayFilterConfig) : Z * Z :=
  (resolve_index n (start cfg) n, resolve_index n (end_ cfg) (n - 1)).

Lemma incr_pos cfg : 1 <= incr cfg.
Proof. unfold incr. lia. Qed.

Lemma slice_with_lookup l cfg j :
  2 <= len l ->
  slice_with l cfg !! j =
    let '(a, b) := slice_bounds (len l) cfg in
    if a + Z.of_nat j * incr cfg <=? b then l !! Z.to_nat (a + Z.of_nat j * incr cfg) else None.
Proof.
  intros Hl. unfold slice_with, slice_bounds. rewrite (proj2 (Z.leb_gt _ _)) by lia.
  pose proof (resolve_index_range (len l) (start cfg) (len l) ltac:(lia)) as Ha.
  pose proof (resolve_index_range (len l) (end_ cfg) (len l - 1) ltac:(lia)) as Hb.
  pose proof (incr_pos cfg) as Hi.
  set (a := resolve_index _ (start cfg) _) in *. set (b := resolve_index _ (end_ cfg) _) in *.
  destruct (Z.ltb_spec b a) as [Hba|Hba].
  { rewrite lookup_nil, (proj2 (Z.leb_gt _ _)); [done|nia]. }
  destruct (Z.eqb_spec a 0) as [Ha0|Ha0], (Z.eqb_spec (incr cfg) 1) as [Hi1|Hi1];
    cbn [andb].
  1: { unfold ztake. rewrite Ha0, Hi1. zcase.
       - rewrite lookup_take_lt by lia. f_equal. lia.
       - by rewrite lookup_take_ge by lia. }
  all: unfold step_by; rewrite step_by_aux_lookup, slice_lookup by lia.
  all: destruct (Z.leb_spec (a + Z.of_nat j * incr cfg) b);
    [rewrite (proj2 (Z.ltb_lt _ _)) by nia; f_equal; nia
    |rewrite (proj2 (Z.ltb_ge _ _)) by nia; done].
Qed.

(** A list is as long as the first index it has nothing at. *)
Lemma length_by_lookup l n :
  (forall j, (j < n)%nat -> is_Some (l !! j)) -> l !! n = None -> length l = n.
Proof.
  intros Hs Hn. apply lookup_ge_None in Hn. destruct n as [|n]; [lia|].
  specialize (Hs n ltac:(lia)). apply lookup_lt_is_Some in Hs. lia.
Qed.

(** [slice_len] counts what [slice_with] keeps. *)
Lemma length_slice_with l cfg : len (slice_with l cfg) = slice_len (len l) cfg.
Proof.
  destruct (Z.leb_spec (len l) 1) as [H|H].
  { unfold slice_with, slice_len. rewrite (proj2 (Z.leb_le _ _) H). lia. }
  pose proof (slice_with_lookup l cfg) as Hlk. unfold slice_bounds in Hlk.
  unfold slice_len. rewrite (proj2 (Z.leb_gt _ _)) by lia.
  pose proof (resolve_index_range (len l) (start cfg) (len l) ltac:(lia)) as Ha.
  pose proof (resolve_index_range (len l) (end_ cfg) (len l - 1) ltac:(lia)) as Hb.
  pose proof (incr_pos cfg) as Hi.
  set (a := resolve_index _ (start cfg) _) in *. set (b := resolve_index _ (end_ cfg) _) in *.
  set (n := if b <? a then 0 else Z.quot (b - a) (incr cfg) + 1).
  assert (Hn : 0 <= n /\ b < a + n * incr cfg /\ (n <= 0 \/ a + (n - 1) * incr cfg <= b)).
  { unfold n. zcase; [nia|]. rewrite Z.quot_div_nonneg by lia.
    pose proof (Z.div_mod (b - a) (incr cfg) ltac:(lia)).
    pose proof (Z.mod_pos_bound (b - a) (incr cfg) ltac:(lia)). nia. }
  rewrite (length_by_lookup _ (Z.to_nat n)); [lia|..].
  - intros j Hj. rewrite Hlk by lia. rewrite (proj2 (Z.leb_le _ _)) by nia.
    apply lookup_lt_is_Some. nia.
  - rewrite Hlk by lia. rewrite (proj2 (Z.leb_gt _ _)); [done|nia].
Qed.

End Slices.

(** ** Logs *)

Lemma as_value_set_value v e : as_value (set_value v e) = Some v.
Proof.
  unfold as_value, set_value, holding. cbn [log_value].
  destruct (native_of v) eqn:E; [|done]. by rewrite (native_of_value _ _ E).
Qed.

Lemma as_value_read_of head v mask : as_value (read_of head v mask) = Some v.
Proof. apply (as_value_set_value v (mkEvent head mask by_reference)). Qed.

Lemma set_value_twice v w e : set_value v (set_value w e) = set_value v e.
Proof. done. Qed.

(** ** The shape a channel advertises *)

(** Whether [arr] has an arm for a value. *)
Definition sliceable (v : EpicsValue) : bool :=
  match v with VUCharArray _ => false | _ => true end.

(** A value [arr] slices, with an element count 32 bits hold. *)
Definition regular (v : EpicsValue) : Prop := sliceable v = true /\ elements v < 2 ^ 32.

Lemma slice_len_le n cfg : 0 <= n -> 0 <= slice_len n cfg <= n.
Proof.
  intros Hn. unfold slice_len. destruct (Z.leb_spec n 1); [lia|].
  pose proof (resolve_index_range n (start cfg) n ltac:(lia)) as Ha.
  pose proof (resolve_index_range n (end_ cfg) (n - 1) ltac:(lia)) as Hb.
  pose proof (incr_pos cfg). zcase; [lia|].
  rewrite Z.quot_div_nonneg by lia. set (d := resolve_index _ (end_ _) _ - _) in *.
  assert (0 <= d / incr cfg <= d) by (split; [apply Z.div_pos|apply Z.div_le_upper_bound]; nia).
  lia.
Qed.

Lemma slice_value_shape cfg v :
  sliceable v = true ->
  elements (slice_value cfg v) = slice_len (elements v) cfg /\
  db_field_type (slice_value cfg v) = db_field_type v /\
  sliceable (slice_value cfg v) = true.
Proof.
  destruct v; try done; intros _; cbn [slice_value elements db_field_type sliceable];
    rewrite ?length_slice_with; done.
Qed.

Section WithWorld.
Context `{World}.

Lemma ts_value_shape f t v :
  ts_value f t = Some v ->
  elements v = filter_element_count (Ts f) (elements v) /\
  filter_log_type (Ts f) = Some (db_field_type v) /\ sliceable v = true /\ elements v <= 2 /\
  (forall n, filter_element_count (Ts f) n = elements v).
Proof.
  unfold ts_value. destruct (ts_parts t (ts_epoch f)) as [sec nsec].
  cbn [filter_element_count filter_log_type].
  destruct (ts_mode f); intros [= <-]; cbn; repeat split; lia.
Qed.

Lemma post_filter_shape s f e v :
  post_chain f = true -> as_value (event e) = Some v -> regular v ->
  exists v', filter_apply s f e = (Some (map_event (set_value v') e), f) /\
    elements v' = filter_element_count f (elements v) /\
    db_field_type v' = default (db_field_type v) (filter_log_type f) /\ regular v'.
Proof.
  intros Hp Hv [Hs Hlt]. destruct f as [| | | |cfg|f]; try done; cbn [filter_apply].
  - exists (slice_value cfg v). destruct (slice_value_shape cfg v Hs) as (Hn & Ht & Hs').
    split; [|split; [done|split; [done|split; [done|]]]].
    + unfold arr_apply, replace_value. rewrite Hv. done.
    + rewrite Hn. pose proof (slice_len_le (elements v) cfg (elements_nonneg v)). lia.
  - unfold ts_apply. destruct (ts_value f _) as [v'|] eqn:Et.
    + exists v'. destruct (ts_value_shape f _ v' Et) as (_ & Hl & Hs' & H2 & Hc).
      rewrite Hc, Hl. split; [done|]. split; [done|]. split; [done|]. split; [done|lia].
    + unfold post_chain in Hp. unfold ts_value in Et. destruct (ts_parts _ _).
      by destruct (ts_mode f).
Qed.

(** A filter that is not of the post chain leaves the advertised shape alone. *)
Lemma pre_filter_shape f :
  post_chain f = false -> (forall n, filter_element_count f n = n) /\ filter_log_type f = None.
Proof.
  destruct f as [| | | | |f]; try done. unfold post_chain, filter_element_count, filter_log_type.
  by destruct (ts_mode f).
Qed.

Lemma final_element_count_post c n :
  final_element_count c n = final_element_count (snd (split c)) n.
Proof.
  unfold final_element_count. revert n. induction c as [|f c IH]; intros n; [done|].
  cbn [split snd foldl] in *. destruct (post_chain f) eqn:E.
  - rewrite filter_cons_True by done. cbn [foldl]. apply IH.
  - rewrite filter_cons_False by (by rewrite E). rewrite (proj1 (pre_filter_shape f E)). apply IH.
Qed.

Lemma chain_log_type_post c : chain_log_type c = chain_log_type (snd (split c)).
Proof.
  induction c as [|f c IH]; [done|]. cbn [split snd chain_log_type] in *.
  destruct (post_chain f) eqn:E.
  - rewrite filter_cons_True by done. cbn [chain_log_type]. by rewrite IH.
  - rewrite filter_cons_False by (by rewrite E). rewrite (proj2 (pre_filter_shape f E)), <- IH.
    by destruct (chain_log_type c).
Qed.

Lemma post_chain_shape s c e v :
  Forall (fun f => post_chain f = true) c -> as_value (event e) = Some v -> regular v ->
  exists e' v', chain_apply s c e = (Some e', c) /\ as_value (event e') = Some v' /\
    log_head (event e') = log_head (event e) /\ log_mask (event e') = log_mask (event e) /\
    elements v' = final_element_count c (elements v) /\
    db_field_type v' = final_field_type c (db_field_type v) /\ regular v'.
Proof.
  intros Hc. revert e v. induction Hc as [|f c Hf Hc IH]; intros e v Hv Hr.
  { exists e, v. done. }
  destruct (post_filter_shape s f e v Hf Hv Hr) as (v1 & Ha & Hn1 & Ht1 & Hr1).
  destruct (IH (map_event (set_value v1) e) v1) as (e' & v' & Hc' & Hv' & Hh & Hm & Hn & Ht & Hr').
  { apply as_value_set_value. } { done. }
  exists e', v'. cbn [chain_apply]. rewrite Ha, Hc'.
  split; [done|]. split; [done|]. split; [done|]. split; [done|].
  split; [unfold final_element_count in *; cbn [foldl]; congruence|]. split; [|done].
  rewrite Ht. unfold final_field_type. cbn [chain_log_type].
  destruct (chain_log_type c); [done|]. done.
Qed.

End WithWorld.

(** ** Feeding a gate *)

(** The last element of a list. *)
Abbreviation final l := (list_basics.list.last l).

(** The events a gate lets through of those fed to it, and its state after them. *)
Fixpoint feed {F X E : Type} (step : F -> X -> option E * F) (f : F) (xs : list X)
  : list E * F :=
  match xs with
  | [] => ([], f)
  | x :: xs =>
      let '(r, f) := step f x in
      let '(sent, f) := feed step f xs in
      (option_list r ++ sent, f)
  end.

(** An invariant of what was sent and the state, established by feeding. *)
Lemma feed_invariant {F X E : Type} (step : F -> X -> option E * F)
    (P : list X -> list E -> F -> Prop) :
  (forall seen sent f x, P seen sent f ->
     P (seen ++ [x]) (sent ++ option_list (fst (step f x))) (snd (step f x))) ->
  forall xs f, P [] [] f -> P xs (fst (feed step f xs)) (snd (feed step f xs)).
Proof.
  intros Hstep xs f Hf.
  enough (G : forall seen sent f, P seen sent f ->
    P (seen ++ xs) (sent ++ fst (feed step f xs)) (snd (feed step f xs))) by apply (G [] [] f Hf).
  clear f Hf. induction xs as [|x xs IH]; intros seen sent f Hf; [by rewrite !app_nil_r|].
  specialize (Hstep seen sent f x Hf). cbn [feed]. destruct (step f x) as [r f'].
  specialize (IH _ _ _ Hstep). cbn [fst snd] in *. destruct (feed step f' xs) as [sent' f''].
  cbn [fst snd] in *. by rewrite <- !app_assoc in IH.
Qed.

(** ** The deadband *)

(** The band an event is held against, given the last number sent. *)
Definition band (cval : f64) (mode : DeadbandMode) (last_sent : option f64) : f64 :=
  match mode, last_sent with
  | Relative, Some v => f64_abs (f64_div (f64_mul v (f64_abs cval)) (f64_of_Z 100))
  | _, _ => f64_abs cval
  end.

(** An event carrying nothing but value and log changes. *)
Definition plain (e : FilteredMonitorEvent) : bool :=
  mask_is_empty (mkEventMask (and_not (bits (log_mask (event e)))
                                (bits (mask_or MASK_VALUE MASK_LOG)))).

Lemma last_omap_snoc {A B : Type} (g : A -> option B) l x :
  final (omap g (l ++ [x])) = match g x with Some y => Some y | None => final (omap g l) end.
Proof.
  rewrite omap_app. cbn [omap list_omap]. destruct (g x) as [y|].
  - by rewrite last_snoc.
  - by rewrite app_nil_r.
Qed.

(** Whether a number is inside a band around a baseline.  A NaN or infinite band holds
    everything; otherwise two finite numbers are compared by their distance, and a number that
    is not finite is inside only around itself. *)
Definition inside (base cur band : f64) : bool :=
  if f64_is_finite band then
    match base, cur with
    | S754_nan, S754_nan => true
    | S754_infinity s, S754_infinity s' => eqb s s'
    | _, _ => f64_is_finite base && f64_is_finite cur && negb (f64_gtb (f64_abs (f64_sub base cur)) band)
    end
  else true.

(** The baseline, NaN before any, and the last number sent, if any. *)
Definition deadband_step (cval : f64) (mode : DeadbandMode) (s : f64 * option f64)
    (e : FilteredMonitorEvent) : f64 * option f64 :=
  let '(base, last_sent) := s in
  match numeric e with
  | None => s
  | Some cur =>
      if inside base cur (band cval mode last_sent)
      then (base, if plain e then last_sent else Some cur)
      else (cur, Some cur)
  end.
Definition deadband_reference (cval : f64) (mode : DeadbandMode) (es : list FilteredMonitorEvent)
  : f64 * option f64 := foldl (deadband_step cval mode) (S754_nan, None) es.

Lemma f64_gtb_infinite x y : f64_is_finite (f64_abs y) = false -> f64_gtb x (f64_abs y) = false.
Proof. destruct y as [|[]| |]; try done; by destruct x as [|[]| |]. Qed.

(** The filter's comparison, against a magnitude. *)
Lemma delta_trips base cur cv mode last_sent :
  f64_gtb (c_delta base cur) (band cv mode last_sent) = negb (inside base cur (band cv mode last_sent)).
Proof.
  assert (exists x, band cv mode last_sent = f64_abs x) as [x ->] by (unfold band; destruct mode, last_sent; by eexists).
  unfold inside. destruct (f64_is_finite (f64_abs x)) eqn:Hx; [|by apply f64_gtb_infinite].
  unfold c_delta. destruct (f64_is_finite base && f64_is_finite cur) eqn:Hf.
  - destruct base, cur; try done; unfold f64_is_finite; cbn [f64_is_nan f64_is_infinite orb negb andb];
      by rewrite negb_involutive.
  - destruct x as [| | |]; try done; destruct base as [|[]| |], cur as [|[]| |]; done.
Qed.

(** The filter's state is the reference's: its baseline is a number sent, and it holds the
    band of the last number sent. *)
Definition dbnd_inv (cv : f64) (mode : DeadbandMode) (seen sent : list FilteredMonitorEvent)
    (f : DeadbandFilter) : Prop :=
  let '(base, last_sent) := deadband_reference cv mode seen in
  cval f = f64_abs cv /\ dbnd_mode f = mode /\ dbnd_last f = base /\ hyst f = band cv mode last_sent /\
  last_sent = final (omap numeric sent) /\
  (base = S754_nan \/ exists d, d ∈ sent /\ numeric d = Some base).

Lemma dbnd_inv_step cv mode seen sent f e :
  dbnd_inv cv mode seen sent f ->
  dbnd_inv cv mode (seen ++ [e]) (sent ++ option_list (fst (dbnd_apply f e))) (snd (dbnd_apply f e)).
Proof.
  unfold dbnd_inv, deadband_reference. rewrite foldl_snoc. destruct (foldl _ _ seen) as [base last_sent].
  intros (Hc & Hm & Hl & Hh & Hs & Hb). unfold deadband_step, dbnd_apply.
  assert (Hmore : forall l, base = S754_nan \/ exists d, d ∈ sent ++ l /\ numeric d = Some base).
  { intros l. destruct Hb as [|(d & ? & ?)]; [by left|]. right. exists d. by rewrite elem_of_app; auto. }
  destruct (numeric e) as [cur|] eqn:En; cycle 1.
  { cbn [fst snd option_list option_rect]. rewrite last_omap_snoc, En. by split_and!. }
  cbv zeta. fold (plain e). rewrite Hl, Hh, delta_trips.
  destruct (inside base cur _); [destruct (plain e)|];
    cbn [negb orb andb fst snd cval dbnd_mode dbnd_last hyst option_list option_rect].
  - rewrite app_nil_r. by split_and!.
  - rewrite last_omap_snoc, En, Hm, Hc. split_and!; try done. by destruct mode.
  - rewrite last_omap_snoc, En, Hm, Hc. split_and!; try done; [by destruct mode|].
    right. exists e. rewrite elem_of_app, list_elem_of_singleton. auto.
Qed.

Lemma dbnd_inv_feed cv mode es :
  let '(sent, f) := feed dbnd_apply (DeadbandFilter_new cv mode) es in dbnd_inv cv mode es sent f.
Proof.
  pose proof (feed_invariant dbnd_apply (dbnd_inv cv mode) (dbnd_inv_step cv mode) es (DeadbandFilter_new cv mode)) as G.
  destruct (feed _ _ _) as [sent f]. apply G. repeat split; [|by left]. by destruct mode.
Qed.

Lemma finite_below_infinity a : f64_is_finite a = true -> f64_gtb (S754_infinity false) a = true.
Proof. destruct a as [| | |[]]; done. Qed.

Lemma c_delta_seed cur : f64_is_nan cur = false -> c_delta S754_nan cur = S754_infinity false.
Proof. destruct cur; done. Qed.

(** C21: the [dbnd] filter withholds exactly the events that carry nothing but value and log
    changes and whose value is a number inside the band around the baseline.  After any events
    fed to a fresh filter, the baseline is the last number that fell outside its band, which
    was sent, or NaN before any; the band is the configured magnitude or, in relative mode,
    that percentage of the last number sent.  With a finite band a finite number is inside when
    its distance from a finite baseline is at most the band, and a NaN or infinite one only
    around itself, so a change to or from one trips the filter; a band that is itself NaN or
    infinite, which a relative band becomes, withholds every such event.  With a finite
    absolute band a withheld number that is no NaN always has a sent baseline. *)
Theorem deadband_withholds_only_near_values (cv : f64) (mode : DeadbandMode)
    (before : list FilteredMonitorEvent) (e : FilteredMonitorEvent) :
  let '(sent, f) := feed dbnd_apply (DeadbandFilter_new cv mode) before in
  let '(base, last_sent) := deadband_reference cv mode before in
  let near := match numeric e with Some cur => inside base cur (band cv mode last_sent) | None => false end in
  fst (dbnd_apply f e) = (if plain e && near then None else Some e) /\
  last_sent = final (omap numeric sent) /\
  (base = S754_nan \/ exists d, d ∈ sent /\ numeric d = Some base) /\
  (mode = Absolute -> f64_is_finite cv = true -> near = true -> numeric e <> Some S754_nan ->
   exists d, d ∈ sent /\ numeric d = Some base).
Proof.
  pose proof (dbnd_inv_feed cv mode before) as G. destruct (feed _ _ _) as [sent f]. unfold dbnd_inv in G.
  destruct (deadband_reference cv mode before) as [base last_sent].
  destruct G as (_ & _ & Hl & Hh & Hs & Hb). split_and!; [|done|done|].
  - unfold dbnd_apply. destruct (numeric e) as [cur|]; [|by rewrite andb_false_r]. cbv zeta. fold (plain e).
    rewrite Hl, Hh, delta_trips. by destruct (inside _ _ _), (plain e).
  - intros -> Hf. destruct Hb as [->|]; [|done]. destruct (numeric e) as [cur|]; [|done].
    unfold inside, band. replace (f64_is_finite (f64_abs cv)) with true by (by destruct cv).
    by destruct cur.
Qed.

(** In relative mode a delivered NaN leaves a NaN band, and no plain number crosses it. *)
Lemma nan_band_withholds f e cur :
  f64_is_nan (hyst f) = true -> numeric e = Some cur -> plain e = true ->
  fst (dbnd_apply f e) = None /\ f64_is_nan (hyst (snd (dbnd_apply f e))) = true.
Proof.
  intros Hh Hn Hp. unfold dbnd_apply. rewrite Hn. fold (plain e). rewrite Hp.
  assert (f64_gtb (c_delta (dbnd_last f) cur) (hyst f) = false) as ->; [|done].
  destruct (hyst f); try done.
Qed.

(** A relative deadband does not recover from a NaN.  Once an event of a NaN value has been
    sent, every later event that carries only value and log changes and reads as a number is
    withheld, whatever the number. *)
Theorem relative_deadband_sticks_on_nan (f : DeadbandFilter) (nan : FilteredMonitorEvent)
    (later : list FilteredMonitorEvent) :
  dbnd_mode f = Relative -> numeric nan = Some S754_nan ->
  fst (dbnd_apply f nan) = Some nan ->
  Forall (fun e => plain e = true /\ is_Some (numeric e)) later ->
  fst (feed dbnd_apply (snd (dbnd_apply f nan)) later) = [].
Proof.
  intros Hm Hn Hs Hl. assert (Hh : f64_is_nan (hyst (snd (dbnd_apply f nan))) = true).
  { revert Hs. unfold dbnd_apply. rewrite Hn, Hm, bool_decide_eq_true_2 by done.
    destruct (_ || _); [|done]. intros _. cbn [andb snd hyst]. done. }
  revert Hh. generalize (snd (dbnd_apply f nan)). clear f Hm Hs.
  induction Hl as [|e l [Hp [cur Hc]] Hl IH]; intros f Hh; [done|]. cbn [feed].
  destruct (nan_band_withholds f e cur Hh Hc Hp) as [Ho Hh'].
  destruct (dbnd_apply f e) as [r f']. cbn [fst snd] in *. subst r. specialize (IH f' Hh').
  by destruct (feed dbnd_apply f' l).
Qed.

(** ** The decimator *)

(** The events that count. *)
Definition gated (e : FilteredMonitorEvent) : bool := negb (bypasses e).
Definition gated_count (es : list FilteredMonitorEvent) : Z :=
  len (filter (fun e => gated e = true) es).

Lemma gated_count_snoc es e :
  gated_count (es ++ [e]) = gated_count es + (if bypasses e then 0 else 1).
Proof.
  unfold gated_count, gated. rewrite filter_app, length_app.
  destruct (bypasses e) eqn:E.
  - rewrite filter_cons_False by (by rewrite E). cbn [length filter list_filter]. lia.
  - rewrite filter_cons_True by (by rewrite E). cbn [length filter list_filter]. lia.
Qed.

Lemma dec_inv_step n seen (sent : list FilteredMonitorEvent) f e :
  dec_n f = n /\ counter f = wrap 64 (gated_count seen) ->
  dec_n (snd (dec_apply f e)) = n /\
  counter (snd (dec_apply f e)) = wrap 64 (gated_count (seen ++ [e])).
Proof.
  intros [Hn Hc]. unfold dec_apply. rewrite gated_count_snoc.
  destruct (bypasses e); cbn [snd dec_n counter].
  - by rewrite Z.add_0_r.
  - rewrite Hc. unfold wrap. by rewrite Z.add_mod_idemp_l by lia.
Qed.

(** The [dec] filter passes exactly the events at positions 0, n, 2n, ... of those that
    count: after any events, an event is passed unchanged when it is a read or carries a
    property change, and otherwise exactly when the number of counted events before it,
    modulo 2^64, is a multiple of [n].  The filter exists exactly for [n >= 1]. *)
Theorem decimator_passes_every_nth (n : Z) (before : list FilteredMonitorEvent)
    (e : FilteredMonitorEvent) :
  match DecimateFilter_new n with
  | None => n < 1
  | Some f0 =>
      1 <= n /\
      fst (dec_apply (snd (feed dec_apply f0 before)) e) =
        if bypasses e || (wrap 64 (gated_count before) mod n =? 0) then Some e else None
  end.
Proof.
  unfold DecimateFilter_new. destruct (Z.leb_spec 1 n) as [Hn|Hn]; [|done].
  split; [done|].
  destruct (feed_invariant dec_apply
    (fun seen _ f => dec_n f = n /\ counter f = wrap 64 (gated_count seen))
    (dec_inv_step n) before (mkDecimate n 0) (conj eq_refl eq_refl)) as [H1 H2].
  revert H1 H2. generalize (snd (feed dec_apply (mkDecimate n 0) before)). intros f H1 H2.
  unfold dec_apply. rewrite H1, H2. by destruct (bypasses e).
Qed.

(** ** The state-synchronised gate *)

(** What the six modes promise, from the last event that counted, the state seen with it and
    the state now. *)
Definition sync_spec (mode : SyncMode) (was : bool) (previous : option FilteredMonitorEvent)
    (now : bool) (e : FilteredMonitorEvent) : option FilteredMonitorEvent :=
  match mode with
  | Before => if now && negb was then previous else None
  | First => if now && negb was then Some e else None
  | Last => if negb now && was then previous else None
  | After => if negb now && was then Some e else None
  | While => if now then Some e else None
  | Unless => if now then None else Some e
  end.

(** The gate on events, each with the named states at that moment. *)
Definition sync_step (f : SyncFilter) (x : DbStates * FilteredMonitorEvent)
  : option FilteredMonitorEvent * SyncFilter := sync_apply (fst x) f (snd x).

(** The last pair that counted. *)
Definition last_gated (xs : list (DbStates * FilteredMonitorEvent))
  : option (DbStates * FilteredMonitorEvent) :=
  final (filter (fun x => gated (snd x) = true) xs).

Lemma last_gated_snoc xs x :
  last_gated (xs ++ [x]) = if bypasses (snd x) then last_gated xs else Some x.
Proof.
  unfold last_gated, gated. rewrite filter_app. destruct (bypasses (snd x)) eqn:E.
  - rewrite filter_cons_False by (by rewrite E). by rewrite filter_nil, app_nil_r.
  - rewrite filter_cons_True by (by rewrite E). by rewrite filter_nil, last_snoc.
Qed.

Definition caches (mode : SyncMode) : bool :=
  match mode with Before | Last => true | _ => false end.

Definition sync_inv (mode : SyncMode) (cell : nat) (init : bool)
    (seen : list (DbStates * FilteredMonitorEvent)) (f : SyncFilter) : Prop :=
  sync_mode f = mode /\ sync_cell f = cell /\
  last_state f = default init (state_get cell ∘ fst <$> last_gated seen) /\
  cached_event f = if caches mode then snd <$> last_gated seen else None.

Lemma sync_inv_step mode cell init seen (sent : list FilteredMonitorEvent) f x :
  sync_inv mode cell init seen f ->
  sync_inv mode cell init (seen ++ [x]) (snd (sync_step f x)).
Proof.
  intros (Hm & Hc & Hl & He). unfold sync_inv, sync_step, sync_apply.
  rewrite last_gated_snoc. destruct (bypasses (snd x)); [done|].
  rewrite Hm. destruct mode; cbn [snd sync_mode sync_cell last_state cached_event caches] in *;
    rewrite ?Hc, ?He; done.
Qed.

(** C22: the [sync] filter implements its table of modes.  After any events, each met with the
    named states of its moment, an event that is a read or a property change is passed
    unchanged; any other is answered as the mode promises, with the state of the filter's cell
    now, that state at the previous counted event (at creation, before any), and that event
    itself, which is what [before] and [last] emit. *)
Theorem sync_follows_the_state (mode : SyncMode) (cell : nat) (s0 : DbStates)
    (before : list (DbStates * FilteredMonitorEvent)) (s : DbStates) (e : FilteredMonitorEvent) :
  let f := snd (feed sync_step (SyncFilter_new mode cell s0) before) in
  fst (sync_apply s f e) =
    if bypasses e then Some e
    else sync_spec mode
           (default (state_get cell s0) (state_get cell ∘ fst <$> last_gated before))
           (snd <$> last_gated before) (state_get cell s) e.
Proof.
  destruct (feed_invariant sync_step
    (fun seen _ f => sync_inv mode cell (state_get cell s0) seen f)
    (sync_inv_step mode cell (state_get cell s0)) before (SyncFilter_new mode cell s0))
    as (Hm & Hc & Hl & He).
  { repeat split. by destruct mode. }
  cbn zeta. revert Hm Hc Hl He. generalize (snd (feed sync_step (SyncFilter_new mode cell s0) before)).
  intros f Hm Hc Hl He. unfold sync_apply. rewrite Hm, Hc, Hl, He.
  destruct (bypasses e); [done|]. destruct mode; cbn [caches sync_spec fst]; try done;
    by destruct (state_get cell s).
Qed.

(** ** What a chain must let through *)

Definition is_dbnd (f : Filter) : bool := match f with Dbnd _ => true | _ => false end.

(** The gates that count or hold events back. *)
Definition is_counting (f : Filter) : bool :=
  match f with Dec _ | Sync _ | Utag _ => true | _ => false end.

(** A class outside value and log makes an event more than plain. *)
Lemma plain_class e cls :
  Z.land (bits cls) 3 = 0 -> mask_intersects (log_mask (event e)) cls = true -> plain e = false.
Proof.
  intros Hk Hm. unfold plain, mask_is_empty. apply Z.eqb_neq. cbn [bits mask_or].
  unfold and_not. intros H0. unfold mask_intersects in Hm. apply negb_true_iff, Z.eqb_neq in Hm.
  apply Hm. apply Z.bits_inj'. intros n Hn. rewrite Z.land_spec, Z.testbit_0_l.
  pose proof (f_equal (fun z => Z.testbit z n) H0) as H1.
  pose proof (f_equal (fun z => Z.testbit z n) Hk) as H2.
  cbn beta in H1, H2. rewrite Z.ldiff_spec, Z.testbit_0_l in H1.
  rewrite Z.land_spec, Z.testbit_0_l in H2.
  change (Z.lor (bits MASK_VALUE) (bits MASK_LOG)) with 3 in H1.
  destruct (Z.testbit (bits (log_mask (event e))) n), (Z.testbit (bits cls) n),
    (Z.testbit 3 n); done.
Qed.

Lemma dbnd_passes f e : plain e = false -> exists f', dbnd_apply f e = (Some e, f').
Proof.
  intros Hp. unfold dbnd_apply. destruct (numeric e); [|eauto]. fold (plain e). rewrite Hp.
  cbn [negb]. rewrite orb_true_r. eauto.
Qed.

(** What an event is owed of a filter. *)
Definition owes (e : FilteredMonitorEvent) (f : Filter) : bool :=
  negb (is_dbnd f && plain e) && negb (is_counting f && gated e).

Section Chains.
Context `{World}.

Lemma owed_filter_passes s f e :
  owes e f = true ->
  exists e' f', filter_apply s f e = (Some e', f') /\
    log_mask (event e') = log_mask (event e) /\ read_context e' = read_context e.
Proof.
  unfold owes, gated. intros Ho.
  destruct f as [f|f|f|f|cfg|f]; cbn [is_dbnd is_counting andb negb] in Ho; cbn [filter_apply].
  - rewrite andb_true_r in Ho. apply negb_true_iff in Ho.
    destruct (dbnd_passes f e Ho) as [f' ->]. by eexists _, _.
  - rewrite negb_involutive in Ho. unfold dec_apply. rewrite Ho. by eexists _, _.
  - rewrite negb_involutive in Ho. unfold sync_apply. rewrite Ho. by eexists _, _.
  - rewrite negb_involutive in Ho. unfold utag_apply. rewrite Ho. by eexists _, _.
  - by eexists _, _.
  - unfold ts_apply. destruct (ts_value f _); by eexists _, _.
Qed.

Lemma owed_chain_passes s c e :
  Forall (fun f => owes e f = true) c ->
  exists e' c', chain_apply s c e = (Some e', c') /\
    log_mask (event e') = log_mask (event e) /\ read_context e' = read_context e.
Proof.
  revert e. induction c as [|f c IH]; intros e Hc; [by eexists _, _|].
  apply List.Forall_cons_iff in Hc as [Hf Hc]. cbn [chain_apply].
  destruct (owed_filter_passes s f e Hf) as (e1 & f1 & -> & Hm & Hr).
  destruct (IH e1) as (e' & c' & -> & Hm' & Hr').
  { eapply Forall_impl; [exact Hc|]. intros g. cbn beta. unfold owes, gated, bypasses, plain.
    by rewrite Hm, Hr. }
  eexists _, _. split; [done|]. by rewrite Hm', Hr', Hm, Hr.
Qed.

Lemma property_is_owed e f :
  mask_intersects (log_mask (event e)) MASK_PROPERTY = true -> owes e f = true.
Proof.
  intros Hm. unfold owes, gated, bypasses.
  rewrite (plain_class e MASK_PROPERTY eq_refl Hm), Hm, orb_true_r, !andb_false_r. done.
Qed.

Lemma alarm_is_owed e f :
  mask_intersects (log_mask (event e)) MASK_ALARM = true -> is_counting f = false ->
  owes e f = true.
Proof.
  intros Hm Hf. unfold owes. by rewrite (plain_class e MASK_ALARM eq_refl Hm), Hf, andb_false_r.
Qed.

Lemma read_is_owed e f : read_context e = true -> is_dbnd f = false -> owes e f = true.
Proof. intros Hr Hf. unfold owes, gated, bypasses. by rewrite Hr, Hf, andb_false_r. Qed.

(** No chain of filters, in any order and any state, drops an event it must let through:
    one carrying a property change; one carrying an alarm change, when the chain has no
    [dec], [sync] or [utag]; and a single read, when the chain has no [dbnd].  The event
    keeps its classes. *)
Theorem owed_events_pass (s : DbStates) (c : FilterChain) (e : FilteredMonitorEvent) :
  mask_intersects (log_mask (event e)) MASK_PROPERTY = true \/
  mask_intersects (log_mask (event e)) MASK_ALARM = true /\
    Forall (fun f => is_counting f = false) c \/
  read_context e = true /\ Forall (fun f => is_dbnd f = false) c ->
  exists e' c', chain_apply s c e = (Some e', c') /\
    log_mask (event e') = log_mask (event e) /\ read_context e' = read_context e.
Proof.
  intros Ho. apply owed_chain_passes. apply List.Forall_forall. intros f Hf.
  destruct Ho as [Hp|[[Ha Hc]|[Hr Hc]]].
  - by apply property_is_owed.
  - apply alarm_is_owed; [done|]. exact (proj1 (List.Forall_forall _ _) Hc f Hf).
  - apply read_is_owed; [done|]. exact (proj1 (List.Forall_forall _ _) Hc f Hf).
Qed.

(** ** The shape delivered *)

Lemma split_post_forall c : Forall (fun f => post_chain f = true) (snd (split c)).
Proof.
  cbn [split snd]. apply Forall_forall. intros f Hf. by apply list_elem_of_filter in Hf as [? _].
Qed.

(** C11: what a channel advertises is what it delivers.  For any chain of filters and a read or
    posted event holding a value of fewer than 2^32 elements, of any type but unsigned bytes,
    the chain's read-time half passes the event with its alarm, time, tag and classes kept, and
    the value it then holds has the element count and the field type the whole chain
    announces for the field. *)
Theorem advertised_shape_is_delivered (s : DbStates) (c : FilterChain) (e : MonitorEvent)
    (v : EpicsValue) :
  as_value e = Some v -> sliceable v = true -> elements v < 2 ^ 32 ->
  exists e' v', post_stage_read s (snd (split c)) e = (Some e', snd (split c)) /\
    log_head e' = log_head e /\ log_mask e' = log_mask e /\ as_value e' = Some v' /\
    count v' = final_element_count c (count v) /\
    db_field_type v' = final_field_type c (db_field_type v).
Proof.
  intros Hv Hs Hlt. rewrite (count_elements v Hlt), final_element_count_post.
  unfold final_field_type. rewrite chain_log_type_post.
  destruct (post_chain_shape s (snd (split c)) (filtered_new e) v (split_post_forall c) Hv
    (conj Hs Hlt)) as (e' & v' & Ha & Hv' & Hh & Hm & Hn & Ht & Hr).
  unfold post_stage_read. destruct (snd (split c)) as [|f post].
  - injection Ha as <-. cbn [event filtered_new] in *. exists e, v'.
    rewrite (count_elements v' (proj2 Hr)). done.
  - rewrite Ha. exists (event e'), v'. rewrite (count_elements v' (proj2 Hr)). done.
Qed.

(** The [arr] filter slices every array type but unsigned bytes: such an array is delivered
    whole, while the channel announces the slice's length.  With four bytes and the slice
    [0..1], four are delivered and two announced. *)
Theorem unsigned_bytes_are_not_sliced (s : DbStates) (cfg : ArrayFilterConfig) (a : list Z)
    (e : MonitorEvent) :
  let sent := post_stage_read s [Arr cfg] (set_value (VUCharArray a) e) in
  fst sent = Some (set_value (VUCharArray a) e) /\
  final_element_count [Arr cfg] (len a) = slice_len (len a) cfg /\
  slice_len 4 (ArrayFilterConfig_new 0 1 1) = 2.
Proof. done. Qed.

(** A deadband does not drop every read: a fresh [dbnd] of a finite band answers the first
    read of a number with that value, though the read's mask is empty. *)
Theorem deadband_answers_a_first_read (s : DbStates) (cv : f64) (mode : DeadbandMode)
    (head : LogHead) (v : EpicsValue) (cur : f64) :
  f64_is_finite cv = true -> to_f64 v = Some cur -> f64_is_nan cur = false ->
  fst (apply_to_read_log s [Dbnd (DeadbandFilter_new cv mode)] head v) = Some v.
Proof.
  intros Hf Hv Hn. unfold apply_to_read_log, run_read. cbn [chain_apply filter_apply].
  unfold dbnd_apply, numeric. cbn [event filtered_new_read].
  rewrite as_value_read_of. cbn [mbind option_bind]. rewrite Hv.
  cbn [DeadbandFilter_new dbnd_last hyst]. rewrite c_delta_seed by done.
  rewrite finite_below_infinity by (by destruct cv). cbn [orb fst snd fmap option_fmap option_map].
  cbn [mbind option_bind event]. apply as_value_read_of.
Qed.

End Chains.

(** ** Witnesses *)

Definition epoch_world : World := {| now_wall := mkWallTime 0 0; render_local _ _ _ := [] |}.
Definition sample_head : LogHead := mkLogHead 0 0 [] (mkWallTime 631152001 5) 0 0.
Definition sample_event (v : EpicsValue) (m : EventMask) : FilteredMonitorEvent :=
  filtered_new (read_of sample_head v m).

(** With a band of 2, a step from 10 to 11 is withheld. *)
Lemma deadband_withholds_only_near_values_witness :
  let before := [sample_event (VLong 10) MASK_VALUE] in
  let e := sample_event (VLong 11) MASK_VALUE in
  fst (dbnd_apply (snd (feed dbnd_apply (DeadbandFilter_new (f64_of_Z 2) Absolute) before)) e) = None /\
  exists d, d ∈ before /\ numeric d = Some (f64_of_Z 10).
Proof.
  destruct (deadband_withholds_only_near_values (f64_of_Z 2) Absolute
    [sample_event (VLong 10) MASK_VALUE] (sample_event (VLong 11) MASK_VALUE)) as (Hw & _ & _ & Hb).
  split; [exact Hw|]. apply Hb; [reflexivity|reflexivity|vm_compute; reflexivity|discriminate].
Defined.

(** Elements 1 and 3 of an array of four doubles. *)
Lemma advertised_shape_is_delivered_witness :
  let c := [Arr (ArrayFilterConfig_new 1 2 (-1)); Dbnd (DeadbandFilter_new f64_zero Absolute)] in
  let v := VDoubleArray (map f64_of_Z [4; 5; 6; 7]) in
  let e := read_of sample_head v MASK_VALUE in
  exists e' v', @post_stage_read epoch_world DbStates_new (snd (split c)) e
      = (Some e', snd (split c)) /\
    log_head e' = log_head e /\ log_mask e' = log_mask e /\ as_value e' = Some v' /\
    count v' = final_element_count c (count v) /\
    db_field_type v' = final_field_type c (db_field_type v).
Proof.
  exact (@advertised_shape_is_delivered epoch_world DbStates_new
    [Arr (ArrayFilterConfig_new 1 2 (-1)); Dbnd (DeadbandFilter_new f64_zero Absolute)]
    (read_of sample_head (VDoubleArray (map f64_of_Z [4; 5; 6; 7])) MASK_VALUE)
    (VDoubleArray (map f64_of_Z [4; 5; 6; 7])) eq_refl eq_refl eq_refl).
Defined.

(** A NaN under a relative band of 10 percent. *)
Lemma relative_deadband_sticks_on_nan_witness :
  fst (feed dbnd_apply
    (snd (dbnd_apply (snd (dbnd_apply (DeadbandFilter_new (f64_of_Z 10) Relative)
                             (sample_event (VLong 1) MASK_VALUE)))
       (sample_event (VDouble S754_nan) MASK_VALUE)))
    [sample_event (VLong 5) MASK_VALUE; sample_event (VLong 500000) MASK_VALUE]) = [].
Proof.
  apply relative_deadband_sticks_on_nan; [vm_compute; reflexivity..|].
  repeat constructor; eexists; vm_compute; reflexivity.
Defined.
