(* ===== verification/MonitorPath.v ===== *)
(** * From a post to the monitor queues

    The composition of Filters.v with EventQueue.v: [ProcessVariable::deliver] hands a post to
    every subscriber, each through its select mask and its pre chain, into the queue of its
    circuit.  [owed_changes_are_queued]: a change a monitor selects and its chain owes it is in
    the monitor's queue when the delivery ends.  [only_selected_classes_are_queued]: over any
    sequence of deliveries and queue operations, a monitor is never queued a class it did not
    select. *)
From stdpp Require Import base tactics numbers list option strings.
From S2P Require Import Prelude Dbr Float64 Alarm EventQueue EventQueueTheory Value Filters FiltersTheory.

Open Scope Z_scope.

(** ** Masks *)

Lemma mask_intersects_or a b cls :
  mask_intersects (mask_or a b) cls = mask_intersects a cls || mask_intersects b cls.
Proof.
  unfold mask_intersects. cbn [bits mask_or]. rewrite Z.land_lor_distr_l, <- negb_andb. f_equal.
  destruct (Z.eqb_spec (Z.land (bits a) (bits cls)) 0) as [Ha|Ha];
    destruct (Z.eqb_spec (Z.land (bits b) (bits cls)) 0) as [Hb|Hb]; cbn [andb].
  all: rewrite ?Ha, ?Hb, ?Z.lor_0_l, ?Z.lor_0_r; try by apply Z.eqb_neq.
  - done.
  - apply Z.eqb_neq. rewrite Z.lor_eq_0_iff. tauto.
Qed.

(** The classes of [m] are among [sel]. *)
Definition selected (sel : Z) (m : EventMask) : Prop := Z.ldiff (bits m) sel = 0.

Lemma ldiff_zero m sel :
  Z.ldiff m sel = 0 <-> forall n, 0 <= n -> Z.testbit m n = true -> Z.testbit sel n = true.
Proof.
  split.
  - intros H0 n Hn Ht. pose proof (f_equal (fun z => Z.testbit z n) H0) as H1. cbn beta in H1.
    rewrite Z.ldiff_spec, Z.testbit_0_l, Ht in H1. by destruct (Z.testbit sel n).
  - intros Hs. apply Z.bits_inj'. intros n Hn. rewrite Z.ldiff_spec, Z.testbit_0_l.
    specialize (Hs n Hn). destruct (Z.testbit m n); [|done]. by rewrite (Hs eq_refl).
Qed.

Lemma selected_or sel a b : selected sel a -> selected sel b -> selected sel (mask_or a b).
Proof.
  unfold selected. rewrite !ldiff_zero. cbn [bits mask_or]. intros Ha Hb n Hn.
  rewrite Z.lor_spec. intros [H|H]%orb_prop; auto.
Qed.

Lemma selected_none sel : selected sel MASK_NONE.
Proof. unfold selected. apply ldiff_zero. intros n _. cbn [bits MASK_NONE]. by rewrite Z.testbit_0_l. Qed.

Lemma selected_delivered s post m : delivered_mask s post = Some m -> selected (select s) m.
Proof.
  unfold delivered_mask. case_match; [done|]. intros [= <-]. unfold selected.
  apply ldiff_zero. cbn [bits mask_and]. intros n Hn. rewrite Z.land_spec. by intros [_ ?]%andb_prop.
Qed.

(** ** One queue *)

Lemma stored_log_mask k (log : MonitorEvent) : log_mask (stored_log k log) = log_mask log.
Proof. unfold stored_log, drop_val. case_decide; [|done]. by destruct (log_value log). Qed.

(** A post leaves the queue well formed and answers its entries as the rule says. *)
Lemma post_entries (q : @QueInner record_logs) fl id log :
  inv q (contents q) ->
  inv (post q fl id log).1.2 (contents (post q fl id log).1.2) /\
  (refuses_posts q id = true /\ (post q fl id log).1.2 = q \/
   refuses_posts q id = false /\
   exists k, post_effect fl (ring_space q) (replace_threshold q) id (stored_log k log)
     (contents q) (post q fl id log).1.1 (contents (post q fl id log).1.2)).
Proof.
  intros I. destruct (refuses_posts q id) eqn:E.
  { rewrite post_refused by done. auto. }
  apply refuses_posts_false in E as (s & Hs & Hg).
  pose proof (inv_post q _ fl id log s I Hs Hg) as Hp.
  destruct (post q fl id log) as [[o q'] c]. destruct Hp as (es' & I' & He). cbn [fst snd].
  rewrite (contents_inv _ _ I'). split; [done|]. right. split; [done|]. by exists (kind s).
Qed.

(** Whether a slot takes posts is decided by its flags, which a post leaves alone. *)
Lemma post_refuses (q : @QueInner record_logs) fl id log id' :
  inv q (contents q) -> refuses_posts (post q fl id log).1.2 id' = refuses_posts q id'.
Proof.
  intros I. unfold post. destruct (subs q !! slot id) as [[s|]|] eqn:Hs; [|done|done].
  destruct (bool_decide (sub_id s = id)) eqn:Hid; [|done]. apply bool_decide_eq_true in Hid.
  destruct (gone s =? 0) eqn:Hg; [|done]. cbn [andb negb].
  assert (G : forall q' s', subs q' = <[slot id := Some s']> (subs q) -> sub_id s' = sub_id s ->
    gone s' = gone s -> refuses_posts q' id' = refuses_posts q id').
  { intros q' s' Hq Hi Hg'. unfold refuses_posts, sub. rewrite Hq.
    destruct (decide (slot id = slot id')) as [E|E].
    - rewrite <- E, list_lookup_insert_eq, Hs by (by eapply lookup_lt_Some). rewrite Hi.
      case_decide; [|done]. by rewrite Hg'.
    - by rewrite list_lookup_insert_ne. }
  repeat case_match; cbn [fst snd]; eapply G; done.
Qed.

(** ** All queues *)

Definition queues_ok (qs : Queues) : Prop :=
  forall k q fl, qs !! k = Some (q, fl) -> inv q (contents q).

Definition accepts (qs : Queues) (k : EventSink) : Prop :=
  exists q fl, qs !! sink_que k = Some (q, fl) /\ refuses_posts q (sink_id k) = false.

Lemma sink_post_lookup qs k log j q fl :
  (sink_post qs k log).2 !! j = Some (q, fl) ->
  exists q0, qs !! j = Some (q0, fl) /\
    (q = q0 \/ j = sink_que k /\ q = (post q0 fl (sink_id k) log).1.2).
Proof.
  unfold sink_post. destruct (qs !! sink_que k) as [[q0 fl0]|] eqn:E; [|eauto].
  destruct (post q0 fl0 (sink_id k) log) as [[o q1] c] eqn:Ep. cbn [snd]. intros Hj.
  destruct (decide (j = sink_que k)) as [->|Hne].
  - rewrite list_lookup_insert_eq in Hj by (by eapply lookup_lt_Some).
    injection Hj as <- <-. exists q0. split; [done|]. right. by rewrite Ep.
  - rewrite list_lookup_insert_ne in Hj by done. eauto.
Qed.

Lemma sink_post_at qs k log q fl :
  qs !! sink_que k = Some (q, fl) ->
  (sink_post qs k log).2 !! sink_que k = Some ((post q fl (sink_id k) log).1.2, fl).
Proof.
  intros E. unfold sink_post. rewrite E. destruct (post _ _ _ _) as [[o q'] c]. cbn [fst snd].
  apply list_lookup_insert_eq. by eapply lookup_lt_Some.
Qed.

Lemma sink_post_other qs k log j :
  j <> sink_que k -> (sink_post qs k log).2 !! j = qs !! j.
Proof.
  intros Hj. unfold sink_post. destruct (qs !! sink_que k) as [[q fl]|]; [|done].
  destruct (post _ _ _ _) as [[o q'] c]. cbn [snd]. by rewrite list_lookup_insert_ne.
Qed.

Lemma sink_post_ok qs k log : queues_ok qs -> queues_ok (sink_post qs k log).2.
Proof.
  intros Hok j q fl Hj. apply sink_post_lookup in Hj as (q0 & Hj & [->|[_ ->]]); [by eapply Hok|].
  apply post_entries. by eapply Hok.
Qed.

Lemma sink_post_accepts qs k log k' :
  queues_ok qs -> accepts qs k' -> accepts (sink_post qs k log).2 k'.
Proof.
  intros Hok (q & fl & Hq & Hr). destruct (decide (sink_que k' = sink_que k)) as [E|E].
  - rewrite E in Hq. exists (post q fl (sink_id k) log).1.2, fl.
    rewrite E, (sink_post_at _ _ _ _ _ Hq). split; [done|].
    rewrite post_refuses; [done|by eapply Hok].
  - exists q, fl. by rewrite sink_post_other.
Qed.

(** ** What a post does to the entries *)

Definition carries (es : list (@Entry record_logs)) (id : AttachId) (cls : EventMask) : Prop :=
  exists e, e ∈ es /\ entry_id e = id /\ mask_intersects (log_mask (entry_log e)) cls = true.

Lemma carries_insert es k e0 e' id cls :
  es !! k = Some e0 -> entry_id e' = entry_id e0 ->
  (mask_intersects (log_mask (entry_log e0)) cls = true ->
   mask_intersects (log_mask (entry_log e')) cls = true) ->
  carries es id cls -> carries (<[k := e']> es) id cls.
Proof.
  intros Hk Hid Hm (e & He & Hi & Hc). apply list_elem_of_lookup_1 in He as [j Hj].
  pose proof (lookup_lt_Some _ _ _ Hk) as Hlt. destruct (decide (j = k)) as [->|Hne].
  - rewrite Hk in Hj. injection Hj as ->. exists e'. split; [|by rewrite Hid; auto].
    apply (list_elem_of_lookup_2 _ k). by apply list_lookup_insert_eq.
  - exists e. split; [|done]. apply (list_elem_of_lookup_2 _ j). by rewrite list_lookup_insert_ne.
Qed.

Lemma newest_id id es k e : newest (H := record_logs) id es k -> es !! k = Some e -> entry_id e = id.
Proof. intros [(e' & He & Hi) _] Hk. congruence. Qed.

Lemma post_effect_carries fl sp th id log es o es' id' cls :
  post_effect (H := record_logs) fl sp th id log es o es' ->
  carries es id' cls \/ id' = id /\ mask_intersects (log_mask log) cls = true ->
  carries es' id' cls.
Proof.
  intros Hp Hc. destruct Hp as [|k e Hn Hk|k e Hn Hk].
  - destruct Hc as [(e & He & ?)|[-> Hm]].
    + exists e. rewrite elem_of_app. auto.
    + eexists. rewrite elem_of_app, list_elem_of_singleton. split; [by right|].
      cbn [entry_id entry_log into_log_or log_mask]. by rewrite mask_intersects_or, Hm.
  - pose proof (newest_id _ _ _ _ Hn Hk) as Hi. destruct Hc as [Hc|[-> Hm]].
    + eapply carries_insert; [exact Hk|done| |done]. cbn [entry_log into_log_or log_mask].
      intros Hm. by rewrite mask_intersects_or, Hm, orb_true_r.
    + eexists. split; [apply (list_elem_of_lookup_2 _ k), list_lookup_insert_eq;
        by eapply lookup_lt_Some|]. cbn [entry_id entry_log into_log_or log_mask].
      by rewrite mask_intersects_or, Hm.
  - pose proof (newest_id _ _ _ _ Hn Hk) as Hi. destruct Hc as [Hc|[-> Hm]].
    + eapply carries_insert; [exact Hk|done| |done]. cbn [entry_log into_log_or log_mask].
      intros Hm. by rewrite mask_intersects_or, Hm.
    + eexists. split; [apply (list_elem_of_lookup_2 _ k), list_lookup_insert_eq;
        by eapply lookup_lt_Some|]. cbn [entry_id entry_log into_log_or log_mask].
      by rewrite mask_intersects_or, Hm, orb_true_r.
Qed.

(** Every entry of [id'] has its classes among [sel]. *)
Definition all_selected (es : list (@Entry record_logs)) (id : AttachId) (sel : Z) : Prop :=
  forall e, e ∈ es -> entry_id e = id -> selected sel (log_mask (entry_log e)).

Lemma all_selected_insert es k e' id sel :
  all_selected es id sel -> (entry_id e' = id -> selected sel (log_mask (entry_log e'))) ->
  all_selected (<[k := e']> es) id sel.
Proof.
  intros Ha He e Hin Hi. apply list_elem_of_lookup_1 in Hin as [j Hj].
  apply list_lookup_insert_Some in Hj as [(-> & <- & _)|[_ Hj]]; [auto|].
  by eapply Ha; [eapply list_elem_of_lookup_2|].
Qed.

Lemma post_effect_selected fl sp th id log es o es' id' sel :
  post_effect (H := record_logs) fl sp th id log es o es' ->
  all_selected es id' sel -> (id' = id -> selected sel (log_mask log)) ->
  all_selected es' id' sel.
Proof.
  intros Hp Ha Hl. destruct Hp as [|k e Hn Hk|k e Hn Hk].
  - intros e He Hi. apply elem_of_app in He as [He|He]; [by apply Ha|].
    apply list_elem_of_singleton in He as ->. cbn [entry_id entry_log into_log_or log_mask] in *.
    apply selected_or; [by apply Hl|apply selected_none].
  - pose proof (newest_id _ _ _ _ Hn Hk) as Hi. apply all_selected_insert; [done|].
    cbn [entry_id entry_log into_log_or log_mask]. intros <-. apply selected_or; [by apply Hl|].
    by eapply Ha; [eapply list_elem_of_lookup_2|].
  - pose proof (newest_id _ _ _ _ Hn Hk) as Hi. apply all_selected_insert; [done|].
    cbn [entry_id entry_log into_log_or log_mask]. intros <-. apply selected_or; [|by apply Hl].
    by eapply Ha; [eapply list_elem_of_lookup_2|].
Qed.

(** The same on the queues. *)
Definition holds (qs : Queues) (k : EventSink) (cls : EventMask) : Prop :=
  exists q fl, qs !! sink_que k = Some (q, fl) /\ carries (contents q) (sink_id k) cls.
Definition only (qs : Queues) (k : EventSink) (sel : Z) : Prop :=
  forall q fl, qs !! sink_que k = Some (q, fl) -> all_selected (contents q) (sink_id k) sel.

Lemma sink_post_keeps qs k log k' cls :
  queues_ok qs -> holds qs k' cls -> holds (sink_post qs k log).2 k' cls.
Proof.
  intros Hok (q & fl & Hq & Hc). destruct (decide (sink_que k' = sink_que k)) as [E|E].
  2:{ exists q, fl. by rewrite sink_post_other. }
  rewrite E in Hq. exists (post q fl (sink_id k) log).1.2, fl.
  rewrite E, (sink_post_at _ _ _ _ _ Hq). split; [done|].
  destruct (post_entries q fl (sink_id k) log (Hok _ _ _ Hq)) as [_ [[_ ->]|[_ [kd He]]]]; [done|].
  eapply post_effect_carries; [exact He|by left].
Qed.

Lemma sink_post_holds qs k log cls :
  queues_ok qs -> accepts qs k -> mask_intersects (log_mask log) cls = true ->
  holds (sink_post qs k log).2 k cls.
Proof.
  intros Hok (q & fl & Hq & Hr) Hm. exists (post q fl (sink_id k) log).1.2, fl.
  rewrite (sink_post_at _ _ _ _ _ Hq). split; [done|].
  destruct (post_entries q fl (sink_id k) log (Hok _ _ _ Hq)) as [_ [[Hr' _]|[_ [kd He]]]];
    [congruence|].
  eapply post_effect_carries; [exact He|]. right. by rewrite stored_log_mask.
Qed.

Lemma sink_post_only qs k log k' sel :
  queues_ok qs -> only qs k' sel ->
  (sink_que k' = sink_que k -> sink_id k' = sink_id k -> selected sel (log_mask log)) ->
  only (sink_post qs k log).2 k' sel.
Proof.
  intros Hok Ho Hl q fl Hq. apply sink_post_lookup in Hq as (q0 & Hq & [->|[E ->]]).
  { by apply Ho in Hq. }
  pose proof (Ho _ _ Hq) as Ha.
  destruct (post_entries q0 fl (sink_id k) log (Hok _ _ _ Hq)) as [_ [[_ ->]|[_ [kd He]]]]; [done|].
  eapply post_effect_selected; [exact He|done|]. intros Hi. rewrite stored_log_mask. auto.
Qed.

(** ** One subscriber *)

Section Deliver.
Context `{World}.

Lemma subscriber_post_eq states s qs head value mask :
  subscriber_post states s qs head value mask =
    let '(r, c) := chain_apply states (filters s)
                     (filtered_new (post_event (sink_kind (sink s)) head value mask)) in
    match r with
    | None => (set_filters c s, qs, false)
    | Some e =>
        let '(outcome, qs) := sink_post qs (sink s) (event e) in
        (set_filters c s, qs, match outcome with Replaced | Collapsed => true | _ => false end)
    end.
Proof.
  unfold subscriber_post. destruct s as [sel k [|f c] act]; [done|]. cbn [filters sink set_filters].
  by destruct (chain_apply _ _ _) as [[e|] c'].
Qed.

(** What any delivery leaves alone: the monitor but for its filters' state, and of the queues
    everything but additions. *)
Record framed (s s' : Subscriber) (qs qs' : Queues) : Prop := {
  fr_select : select s' = select s;
  fr_sink : sink s' = sink s;
  fr_active : active s' = active s;
  fr_ok : queues_ok qs';
  fr_accepts : forall k, accepts qs k -> accepts qs' k;
  fr_holds : forall k cls, holds qs k cls -> holds qs' k cls;
}.

Lemma deliver_one_framed states post head value s qs :
  queues_ok qs ->
  framed s (deliver_one states post head value s qs).1.1 qs
    (deliver_one states post head value s qs).1.2.
Proof.
  intros Hok. unfold deliver_one. destruct (active s); cbn [negb]; [|done].
  destruct (delivered_mask s post) as [m|]; [|done]. rewrite subscriber_post_eq.
  destruct (chain_apply _ _ _) as [[e|] c]; [|done].
  pose proof (sink_post_ok qs (sink s) (event e) Hok) as H1.
  pose proof (fun k => sink_post_accepts qs (sink s) (event e) k Hok) as H2.
  pose proof (fun k cls => sink_post_keeps qs (sink s) (event e) k cls Hok) as H3.
  destruct (sink_post qs (sink s) (event e)) as [o qs']. done.
Qed.

(** The classes a monitor's chain owes it. *)
Definition owed_class (c : FilterChain) (cls : EventMask) : Prop :=
  cls = MASK_PROPERTY \/ cls = MASK_ALARM /\ Forall (fun f => is_counting f = false) c.

Lemma owed_class_chain states c e cls :
  owed_class c cls -> mask_intersects (log_mask (event e)) cls = true ->
  exists e' c', chain_apply states c e = (Some e', c') /\
    log_mask (event e') = log_mask (event e) /\ read_context e' = read_context e.
Proof.
  intros Hc Hm. apply owed_chain_passes. apply List.Forall_forall. intros f Hf.
  destruct Hc as [->|[-> Hc]]; [by apply property_is_owed|].
  apply alarm_is_owed; [done|]. exact (proj1 (List.Forall_forall _ _) Hc f Hf).
Qed.

Lemma empty_mask_intersects m cls : mask_is_empty m = true -> mask_intersects m cls = false.
Proof.
  unfold mask_is_empty, mask_intersects. intros ->%Z.eqb_eq. by rewrite Z.land_0_l.
Qed.

Lemma deliver_one_holds states post head value s qs cls :
  queues_ok qs -> accepts qs (sink s) -> active s = true -> owed_class (filters s) cls ->
  mask_intersects (mask_and post (mkEventMask (select s))) cls = true ->
  holds (deliver_one states post head value s qs).1.2 (sink s) cls.
Proof.
  intros Hok Ha Hact Hc Hm. unfold deliver_one, delivered_mask. rewrite Hact. cbn [negb].
  destruct (mask_is_empty _) eqn:E; [by rewrite empty_mask_intersects in Hm|].
  rewrite subscriber_post_eq. set (log := post_event _ _ _ _).
  destruct (owed_class_chain states (filters s) (filtered_new log) cls Hc Hm)
    as (e' & c' & -> & Hm' & _).
  pose proof (sink_post_holds qs (sink s) (event e') cls Hok Ha) as Hh.
  rewrite Hm' in Hh. specialize (Hh Hm).
  by destruct (sink_post qs (sink s) (event e')) as [o qs'].
Qed.

(** ** All subscribers *)

Lemma deliver_loop_cons states post head value s subs qs d :
  deliver_loop states post head value (s :: subs) qs d =
    let r1 := deliver_one states post head value s qs in
    let r2 := deliver_loop states post head value subs r1.1.2
                (if r1.2 then wrap 64 (d + 1) else d) in
    (r1.1.1 :: r2.1.1, r2.1.2, r2.2).
Proof.
  cbn [deliver_loop]. destruct (deliver_one _ _ _ _ _ _) as [[s' qs'] x]. cbn [fst snd].
  by destruct (deliver_loop _ _ _ _ _ _ _) as [[subs' qs''] d'].
Qed.

Lemma deliver_loop_framed states post head value subs qs d :
  queues_ok qs ->
  queues_ok (deliver_loop states post head value subs qs d).1.2 /\
  (forall k cls, holds qs k cls -> holds (deliver_loop states post head value subs qs d).1.2 k cls).
Proof.
  revert qs d. induction subs as [|s subs IH]; intros qs d Hok; [done|].
  rewrite deliver_loop_cons. cbn zeta. cbn [fst snd].
  destruct (deliver_one_framed states post head value s qs Hok) as [_ _ _ Hok' _ Hh].
  destruct (IH _ (if (deliver_one states post head value s qs).2 then wrap 64 (d + 1) else d) Hok')
    as [H1 H2]. split; [done|]. auto.
Qed.

Lemma deliver_loop_holds states post head value subs qs d i s cls :
  queues_ok qs -> subs !! i = Some s -> accepts qs (sink s) -> active s = true ->
  owed_class (filters s) cls ->
  mask_intersects (mask_and post (mkEventMask (select s))) cls = true ->
  holds (deliver_loop states post head value subs qs d).1.2 (sink s) cls.
Proof.
  intros Hok Hi Ha Hact Hc Hm. revert qs d i Hok Hi Ha.
  induction subs as [|s0 subs IH]; intros qs d i Hok Hi Ha; [done|].
  rewrite deliver_loop_cons. cbn zeta. cbn [fst snd].
  destruct (deliver_one_framed states post head value s0 qs Hok) as [_ _ _ Hok' Hacc _].
  destruct i as [|i].
  - injection Hi as ->. apply deliver_loop_framed; [done|]. by apply deliver_one_holds.
  - by apply (IH _ _ i); auto.
Qed.

(** Queues that some run of queue operations produces. *)
Definition reachable_queues (qs : Queues) : Prop :=
  forall k q fl, qs !! k = Some (q, fl) ->
    exists n ops, (4 <= n <= MAX_EVENTS_PER_QUE)%nat /\ que_run n ops = mkState q fl.

Lemma reachable_queues_ok qs : reachable_queues qs -> queues_ok qs.
Proof.
  intros Hr k q fl Hk. destruct (Hr k q fl Hk) as (n & ops & Hn & Hq).
  pose proof (inv_run n ops Hn) as I. by rewrite Hq in I.
Qed.

(** C5: a change a monitor is owed reaches its queue.  When a post is delivered to the
    subscribers of a process variable, each through its select mask and its filters into the
    queue of its circuit, then for every active subscriber whose slot takes posts and that
    selects a property change the post carries, or an alarm change when none of its filters is
    [dec], [sync] or [utag], the slot's queue afterwards holds an entry with that class,
    whatever the filters' state, the value, the other subscribers and the queue's pressure. *)
Theorem owed_changes_are_queued (states : DbStates) (post : EventMask) (head : LogHead)
    (value : EpicsValue) (subs : list Subscriber) (qs : Queues) (dropped : Z) (i : nat)
    (s : Subscriber) (cls : EventMask) :
  reachable_queues qs -> subs !! i = Some s -> accepts qs (sink s) -> active s = true ->
  owed_class (filters s) cls ->
  mask_intersects (mask_and post (mkEventMask (select s))) cls = true ->
  let '(_, qs', _) := deliver false states post head value subs qs dropped in
  holds qs' (sink s) cls.
Proof.
  intros Hr Hi Ha Hact Hc Hm. unfold deliver.
  pose proof (deliver_loop_holds states post head value subs qs dropped i s cls
    (reachable_queues_ok _ Hr) Hi Ha Hact Hc Hm) as Hh.
  by destruct (deliver_loop _ _ _ _ _ _ _) as [[subs' qs'] d'].
Qed.

End Deliver.

(** ** Runs of deliveries and queue operations *)

(** The events a chain holds back for later have selected classes. *)
Definition filter_ok (sel : Z) (f : Filter) : Prop :=
  match f with
  | Sync f => forall e, cached_event f = Some e -> selected sel (log_mask (event e))
  | _ => True
  end.

Definition is_selected (sel : Z) (e : FilteredMonitorEvent) : Prop :=
  selected sel (log_mask (event e)).

Lemma sync_apply_selected states f e sel :
  is_selected sel e -> filter_ok sel (Sync f) ->
  (forall e', fst (sync_apply states f e) = Some e' -> is_selected sel e') /\
  filter_ok sel (Sync (snd (sync_apply states f e))).
Proof.
  intros He Hf. unfold sync_apply. cbn [filter_ok] in *.
  destruct (bypasses e); cbn [fst snd]; [split; [by intros e' [= <-]|done]|].
  set (up := state_get _ _ && _). set (down := negb _ && last_state f).
  assert (Hnew : forall e', Some e = Some e' -> is_selected sel e') by (by intros e' [= <-]).
  assert (Hnone : forall e', None = Some e' -> is_selected sel e') by done.
  destruct (sync_mode f); cbn [fst snd cached_event]; split; try done;
    [destruct up|destruct up|destruct down|destruct down|
     destruct (state_get _ _)|destruct (state_get _ _)]; done.
Qed.

Section Selected.
Context `{World}.

Lemma filter_apply_selected states f e sel :
  is_selected sel e -> filter_ok sel f ->
  (forall e', fst (filter_apply states f e) = Some e' -> is_selected sel e') /\
  filter_ok sel (snd (filter_apply states f e)).
Proof.
  intros He Hf. destruct f as [f|f|f|f|cfg|f]; cbn [filter_apply].
  - unfold dbnd_apply. destruct (numeric e); [|by split; [intros e' [= <-]|]].
    split; [|done]. cbn [fst]. intros e'. case_match; [by intros [= <-]|done].
  - split; [|by destruct (dec_apply f e)]. intros e'. unfold dec_apply.
    repeat case_match; simplify_eq; try done; by intros [= <-].
  - pose proof (sync_apply_selected states f e sel He Hf) as G.
    by destruct (sync_apply states f e) as [r f'].
  - split; [|by destruct (utag_apply f e)]. intros e'. unfold utag_apply.
    repeat case_match; simplify_eq; try done; by intros [= <-].
  - split; [by intros e' [= <-]|done].
  - split; [|done]. intros e' [= <-]. unfold ts_apply. by case_match.
Qed.

Lemma chain_apply_selected states c e sel :
  is_selected sel e -> Forall (filter_ok sel) c ->
  (forall e', fst (chain_apply states c e) = Some e' -> is_selected sel e') /\
  Forall (filter_ok sel) (snd (chain_apply states c e)).
Proof.
  intros He Hc. revert e He. induction Hc as [|f c Hf Hc IH]; intros e He.
  { split; [by intros e' [= <-]|done]. }
  cbn [chain_apply]. destruct (filter_apply_selected states f e sel He Hf) as [H1 H2].
  destruct (filter_apply states f e) as [[e1|] f']; cbn [fst snd] in *.
  - destruct (IH e1 (H1 e1 eq_refl)) as [H3 H4].
    destruct (chain_apply states c e1) as [r c']. split; [done|]. by constructor.
  - split; [done|]. by constructor.
Qed.

Definition sub_ok (s : Subscriber) : Prop := Forall (filter_ok (select s)) (filters s).

Lemma deliver_one_sub_ok states post head value s qs :
  sub_ok s -> sub_ok (deliver_one states post head value s qs).1.1.
Proof.
  intros Hs. unfold deliver_one. destruct (active s); cbn [negb]; [|done].
  destruct (delivered_mask s post) as [m|] eqn:Em; [|done].
  apply selected_delivered in Em. rewrite subscriber_post_eq. set (log := post_event _ _ _ _).
  destruct (chain_apply_selected states (filters s) (filtered_new log) (select s) Em Hs) as [_ H2].
  destruct (chain_apply _ _ _) as [[e|] c]; [|done]. by destruct (sink_post _ _ _).
Qed.

Lemma deliver_one_only states post head value s qs k sel :
  queues_ok qs -> sub_ok s -> only qs k sel ->
  (sink_que k = sink_que (sink s) -> sink_id k = sink_id (sink s) -> sel = select s) ->
  only (deliver_one states post head value s qs).1.2 k sel.
Proof.
  intros Hok Hs Ho Hk. unfold deliver_one. destruct (active s); cbn [negb]; [|done].
  destruct (delivered_mask s post) as [m|] eqn:Em; [|done].
  apply selected_delivered in Em. rewrite subscriber_post_eq. set (log := post_event _ _ _ _).
  destruct (chain_apply_selected states (filters s) (filtered_new log) (select s) Em Hs) as [H1 _].
  destruct (chain_apply _ _ _) as [[e|] c]; cbn [fst snd] in *; [|done].
  pose proof (sink_post_only qs (sink s) (event e) k sel Hok Ho) as Hp.
  destruct (sink_post qs (sink s) (event e)) as [o qs']. apply Hp.
  intros E1 E2. rewrite (Hk E1 E2). by apply H1.
Qed.

(** The slot of a subscriber. *)
Definition slot_of (s : Subscriber) : nat * AttachId := (sink_que (sink s), sink_id (sink s)).

Lemma deliver_loop_only states post head value subs qs d k sel :
  queues_ok qs -> Forall sub_ok subs -> only qs k sel ->
  (forall s, s ∈ subs -> slot_of s = (sink_que k, sink_id k) -> sel = select s) ->
  only (deliver_loop states post head value subs qs d).1.2 k sel.
Proof.
  intros Hok Hs Ho Hk. revert qs d Hok Ho. induction Hs as [|s subs Hs1 Hs IH];
    intros qs d Hok Ho; [done|].
  rewrite deliver_loop_cons. cbn zeta. cbn [fst snd]. apply IH.
  - intros s' Hin. apply Hk. by right.
  - by apply deliver_one_framed.
  - apply deliver_one_only; [done..|]. intros E1 E2. apply Hk; [by left|].
    unfold slot_of. congruence.
Qed.

Lemma deliver_loop_subs states post head value subs qs d :
  queues_ok qs -> Forall sub_ok subs ->
  let subs' := (deliver_loop states post head value subs qs d).1.1 in
  Forall sub_ok subs' /\ map sink subs' = map sink subs /\ map select subs' = map select subs.
Proof.
  intros Hok Hs. revert qs d Hok. induction Hs as [|s subs Hs1 Hs IH]; intros qs d Hok; [done|].
  rewrite deliver_loop_cons. cbn zeta. cbn [fst snd map].
  destruct (deliver_one_framed states post head value s qs Hok) as [Hsel Hsink _ Hok' _ _].
  destruct (IH _ (if (deliver_one states post head value s qs).2 then wrap 64 (d + 1) else d) Hok')
    as (H1 & H2 & H3). rewrite H2, H3, Hsel, Hsink. split; [|done].
  constructor; [by apply deliver_one_sub_ok|done].
Qed.

End Selected.

(** A queue operation other than a post only takes entries away. *)
Definition is_post (op : @QueOp record_logs) : bool :=
  match op with DoPost _ _ => true | _ => false end.

Lemma contents_que_step (st : @QueState record_logs) op :
  is_post op = false -> inv (que st) (contents (que st)) ->
  let q' := que (que_step st op) in
  inv q' (contents q') /\ forall e, e ∈ contents q' -> e ∈ contents (que st).
Proof.
  destruct st as [q fl]. cbn [que]. intros Hp I.
  assert (G : forall q' es, inv q' es -> (forall e, e ∈ es -> e ∈ contents q) ->
    inv q' (contents q') /\ forall e, e ∈ contents q' -> e ∈ contents q).
  { intros q' es I' Hs. by rewrite (contents_inv _ _ I'). }
  destruct op as [g sid k ctx|id log| |id|id|id|on|]; [|done|..]; cbn [que_step que flow].
  - destruct (try_attach q g sid k ctx) as [[id q']|] eqn:E; [|done].
    apply (inv_try_attach _ _ _ _ _ _ _ _ I) in E as [I' _]. by apply (G _ _ I').
  - unfold poll_oldest. pose proof (take_oldest_spec q fl I) as Ht.
    destruct (take_oldest q fl) as [[[ev|] q'] r]; destruct Ht as (I' & _ & Hev); cbn [fst snd].
    + apply (G _ _ I'). intros e He. destruct ev as [id sid ctx log rem| |]; [|done|done].
      destruct Hev as (_ & ds & s & -> & _). apply elem_of_app. right. by right.
    + pose proof (inv_take_ended _ _ I') as I''. destruct (take_ended q') as [x q''].
      apply (G _ _ I''). destruct Hev as [[_ ->]|[-> _]]; [done|]. intros e He. by apply elem_of_nil in He.
  - destruct (live q id) eqn:El; [|done]. cbn [que]. unfold try_next.
    destruct (sub q id) as [s|] eqn:Hs; [|done]. pose proof (live_npend _ _ _ _ I Hs) as Hn.
    destruct (Nat.eqb_spec (npend s) 0) as [E|E]; [done|]. case_match; [done|].
    pose proof (inv_take_for (set_draining q true) _ id (inv_draining _ _ _ I) El) as Ht.
    destruct (take_for _ id) as [[lg q'] r].
    destruct Ht as (ds & pre & e & post & Hc & _ & _ & _ & _ & I' & _); [lia|].
    apply (G _ _ I'). rewrite Hc. intros x Hx. rewrite !elem_of_app, elem_of_cons.
    apply elem_of_app in Hx as [?|?]; auto.
  - by apply (G _ _ (inv_close_producer q _ id I)).
  - by apply (G _ _ (inv_close_reader q _ id I)).
  - done.
  - apply (G _ (contents q)); [|done]. by apply (inv_flags q).
Qed.

(** The state of the path, and what can happen to it: a delivery (the clock and the named
    states as they then are), a subscription paused or resumed, an operation of a circuit on
    its queue. *)
Record Path : Type := mkPath { p_subs : list Subscriber; p_qs : Queues; p_dropped : Z }.

Inductive PathOp : Type :=
| Deliver (w : World) (pending : bool) (states : DbStates) (post : EventMask) (head : LogHead)
    (value : EpicsValue)
| SetActive (i : nat) (on : bool)
| QueueStep (k : nat) (op : @QueOp record_logs).

Definition set_active (on : bool) (s : Subscriber) : Subscriber :=
  mkSubscriber (select s) (sink s) (filters s) on.

Definition path_step (p : Path) (op : PathOp) : Path :=
  match op with
  | Deliver w pending states post head value =>
      let '(subs, qs, d) :=
        @deliver w pending states post head value (p_subs p) (p_qs p) (p_dropped p) in
      mkPath subs qs d
  | SetActive i on => mkPath (alter (set_active on) i (p_subs p)) (p_qs p) (p_dropped p)
  | QueueStep k op =>
      match p_qs p !! k with
      | Some (q, fl) =>
          if is_post op then p
          else let st := que_step (mkState q fl) op in
               mkPath (p_subs p) (<[k := (que st, flow st)]> (p_qs p)) (p_dropped p)
      | None => p
      end
  end.

Definition path_run (p : Path) (ops : list PathOp) : Path := foldl path_step p ops.

Record path_inv (slots : list (EventSink * Z)) (p : Path) : Prop := {
  pi_subs : map (fun s => (sink s, select s)) (p_subs p) = slots;
  pi_sub_ok : Forall sub_ok (p_subs p);
  pi_queues : queues_ok (p_qs p);
  pi_only : forall s, s ∈ p_subs p -> only (p_qs p) (sink s) (select s);
}.

(** No two subscribers share a slot of a queue. *)
Definition own_slots (slots : list (EventSink * Z)) : Prop :=
  NoDup (map (fun x => (sink_que x.1, sink_id x.1)) slots).

Lemma own_slots_select slots subs s s' :
  own_slots slots -> map (fun s => (sink s, select s)) subs = slots ->
  s ∈ subs -> s' ∈ subs -> slot_of s = slot_of s' -> select s = select s'.
Proof.
  intros Hn <- Hs Hs' E. unfold own_slots in Hn. rewrite map_map in Hn. cbn [fst] in Hn.
  apply list_elem_of_lookup_1 in Hs as [i Hi]. apply list_elem_of_lookup_1 in Hs' as [j Hj].
  assert (i = j) as ->; [|congruence].
  eapply (NoDup_lookup _ i j (slot_of s) Hn); rewrite list_lookup_fmap.
  - by rewrite Hi.
  - rewrite Hj. by rewrite E.
Qed.

Lemma path_inv_deliver slots p w pending states post head value :
  own_slots slots -> path_inv slots p ->
  path_inv slots (path_step p (Deliver w pending states post head value)).
Proof.
  intros Hn [Hs Hok Hq Ho]. cbn [path_step]. unfold deliver. destruct pending; [done|].
  destruct (deliver_loop_subs states post head value (p_subs p) (p_qs p) (p_dropped p) Hq Hok)
    as (H1 & H2 & H3).
  destruct (deliver_loop_framed states post head value (p_subs p) (p_qs p) (p_dropped p) Hq)
    as [H4 _].
  pose proof (fun k sel => deliver_loop_only states post head value (p_subs p) (p_qs p)
    (p_dropped p) k sel Hq Hok) as H5.
  destruct (deliver_loop _ _ _ _ _ _ _) as [[subs' qs'] d']. cbn [fst snd] in *.
  assert (Hm : map (fun s => (sink s, select s)) subs' = slots).
  { rewrite <- Hs. clear -H2 H3. revert subs' H2 H3.
    induction (p_subs p) as [|s l IH]; intros [|s' l'] H2 H3; try done.
    cbn [map] in *. injection H2 as E1 H2. injection H3 as E2 H3. by rewrite E1, E2, IH. }
  split; [done|done|done|]. intros s' Hin.
  assert (exists s, s ∈ p_subs p /\ sink s = sink s' /\ select s = select s') as (s & Hs1 & Ek & Es).
  { assert ((sink s', select s') ∈ map (fun s => (sink s, select s)) (p_subs p)) as Hx.
    { rewrite Hs, <- Hm. apply list_elem_of_fmap. by exists s'. }
    apply list_elem_of_fmap in Hx as (s & E & ?). injection E as E1 E2. by exists s. }
  cbn [p_qs p_subs]. rewrite <- Ek, <- Es. apply H5; [by apply Ho|].
  intros s2 Hs2 E. by apply (own_slots_select slots (p_subs p)).
Qed.

Lemma path_inv_step slots p op : own_slots slots -> path_inv slots p -> path_inv slots (path_step p op).
Proof.
  intros Hn Hp. destruct op as [w pending states post head value|i on|k op];
    [by apply path_inv_deliver|..]; destruct Hp as [Hs Hok Hq Ho]; cbn [path_step].
  - split; cbn [p_subs p_qs]; [|..|done|].
    + rewrite <- Hs. apply list_eq. intros j. rewrite !list_lookup_fmap, list_lookup_alter.
      destruct (decide (i = j)) as [->|]; [|done]. by destruct (p_subs p !! j).
    + apply Forall_alter; [done|]. by intros x _ Hx.
    + intros s Hin. apply list_elem_of_lookup_1 in Hin as [j Hj]. rewrite list_lookup_alter in Hj.
      destruct (decide (i = j)) as [->|]; [|by apply Ho, (list_elem_of_lookup_2 _ j)].
      destruct (p_subs p !! j) as [s0|] eqn:E; [|done]. injection Hj as <-.
      apply (Ho s0). by apply (list_elem_of_lookup_2 _ j).
  - destruct (p_qs p !! k) as [[q fl]|] eqn:Ek; [|done]. destruct (is_post op) eqn:Ep; [done|].
    destruct (contents_que_step (mkState q fl) op Ep (Hq _ _ _ Ek)) as [I Hsub].
    assert (Hlk : forall j q' fl', <[k := (que (que_step (mkState q fl) op),
        flow (que_step (mkState q fl) op))]> (p_qs p) !! j = Some (q', fl') ->
      exists q0 fl0, p_qs p !! j = Some (q0, fl0) /\ inv q' (contents q') /\
        forall e, e ∈ contents q' -> e ∈ contents q0).
    { intros j q' fl' Hj. apply list_lookup_insert_Some in Hj as [(<- & [= <- <-] & _)|[_ Hj]].
      - by exists q, fl.
      - exists q', fl'. split; [done|]. split; [by eapply Hq|done]. }
    split; cbn [p_subs p_qs]; [done|done|..].
    + intros j q' fl' Hj. by destruct (Hlk _ _ _ Hj) as (q0 & fl0 & _ & ? & _).
    + intros s Hin q' fl' Hj e He Hi. destruct (Hlk _ _ _ Hj) as (q0 & fl0 & Hj0 & _ & Hs0).
      exact (Ho s Hin _ _ Hj0 e (Hs0 e He) Hi).
Qed.

Lemma path_inv_run slots p ops :
  own_slots slots -> path_inv slots p -> path_inv slots (path_run p ops).
Proof.
  intros Hn. unfold path_run. revert p. induction ops as [|op ops IH]; intros p Hp; [done|].
  cbn [foldl]. apply IH. by apply path_inv_step.
Qed.

(** A chain as [try_parse_filter_chain] builds it: no [sync] holds an event yet. *)
Definition fresh (c : FilterChain) : bool :=
  forallb (fun f => match f with Sync f => bool_decide (cached_event f = None) | _ => true end) c.

Lemma fresh_sub_ok s : fresh (filters s) = true -> sub_ok s.
Proof.
  unfold fresh, sub_ok. intros Hf. apply List.Forall_forall. intros f Hin.
  apply (proj1 (List.forallb_forall _ _) Hf) in Hin. destruct f; try done. cbn [filter_ok].
  apply bool_decide_eq_true in Hin. rewrite Hin. done.
Qed.

Lemma path_inv_init subs qs :
  forallb (fun s => fresh (filters s)) subs = true -> reachable_queues qs ->
  (forall k q fl, qs !! k = Some (q, fl) -> contents q = []) ->
  path_inv (map (fun s => (sink s, select s)) subs) (mkPath subs qs 0).
Proof.
  intros Hf Hr He. split; cbn [p_subs p_qs]; [done|..].
  - apply List.Forall_forall. intros s Hin. apply fresh_sub_ok.
    exact (proj1 (List.forallb_forall _ _) Hf s Hin).
  - by apply reachable_queues_ok.
  - intros s _ q fl Hq e Hin _. rewrite (He _ _ _ Hq) in Hin. by apply elem_of_nil in Hin.
Qed.

(** C13: a monitor is queued only the classes it selected.  Start subscribers with fresh filters
    and slots of their own on empty queues, and let any sequence of deliveries, pauses and
    queue operations happen, with any clock and any named states: every entry queued in a
    subscriber's slot carries only classes of its select mask, the events its filters held
    back and the entries merged under pressure included. *)
Theorem only_selected_classes_are_queued (subs : list Subscriber) (qs : Queues)
    (ops : list PathOp) :
  own_slots (map (fun s => (sink s, select s)) subs) ->
  forallb (fun s => fresh (filters s)) subs = true ->
  reachable_queues qs -> (forall k q fl, qs !! k = Some (q, fl) -> contents q = []) ->
  let p := path_run (mkPath subs qs 0) ops in
  forall s q fl e, s ∈ p_subs p -> p_qs p !! sink_que (sink s) = Some (q, fl) ->
    e ∈ contents q -> entry_id e = sink_id (sink s) ->
    Z.ldiff (bits (log_mask (entry_log e))) (select s) = 0.
Proof.
  intros Hn Hf Hr He p s q fl e Hs Hq Hin Hi.
  exact (pi_only _ _ (path_inv_run _ _ ops Hn (path_inv_init subs qs Hf Hr He)) s Hs q fl Hq e Hin Hi).
Qed.

(** ** Witnesses *)

(** One circuit with two monitors: a deadband on the first, a decimator on the second. *)
Definition sample_attach : list (@QueOp record_logs) :=
  [@DoAttach record_logs 1 10 KVal tt; @DoAttach record_logs 2 11 KVal tt].
Definition sample_state : @QueState record_logs :=
  que_run 4 sample_attach.
Definition sample_queues : Queues := [(que sample_state, flow sample_state)].
Definition sample_subs : list Subscriber :=
  [mkSubscriber 13 (mkSink 0 (AttachId_new 1 0) KVal)
     [Dbnd (DeadbandFilter_new (f64_of_Z 2) Absolute)] true;
   mkSubscriber 1 (mkSink 0 (AttachId_new 2 1) KVal) [Dec (mkDecimate 3 0)] true].

Lemma sample_reachable : reachable_queues sample_queues.
Proof.
  intros [|k] q fl Hk; [|done].
  assert (q = que sample_state /\ fl = flow sample_state) as [-> ->] by (by injection Hk).
  exists 4%nat, sample_attach. split; [unfold MAX_EVENTS_PER_QUE; lia|].
  fold sample_state. by destruct sample_state.
Qed.

(** An alarm change without a change of value reaches the monitor behind the deadband. *)
Lemma owed_changes_are_queued_witness :
  let '(_, qs', _) := @deliver epoch_world false DbStates_new MASK_ALARM sample_head (VLong 7)
                        sample_subs sample_queues 0 in
  holds qs' (mkSink 0 (AttachId_new 1 0) KVal) MASK_ALARM.
Proof.
  apply (@owed_changes_are_queued epoch_world DbStates_new MASK_ALARM sample_head (VLong 7)
    sample_subs sample_queues 0 0
    (mkSubscriber 13 (mkSink 0 (AttachId_new 1 0) KVal)
       [Dbnd (DeadbandFilter_new (f64_of_Z 2) Absolute)] true) MASK_ALARM);
    [exact sample_reachable|reflexivity| |reflexivity|right; repeat constructor|reflexivity].
  eexists _, _. split; [reflexivity|]. vm_compute. reflexivity.
Defined.

Definition sample_post : list PathOp :=
  [Deliver epoch_world false DbStates_new (mkEventMask 7) sample_head (VLong 7)].

(** A post of the value, log and alarm classes leaves the first monitor, which selects value,
    alarm and property changes, an entry; it is marked with nothing else. *)
Lemma only_selected_classes_are_queued_witness :
  let p := path_run (mkPath sample_subs sample_queues 0) sample_post in
  match p_subs p !! 0%nat, p_qs p !! 0%nat with
  | Some s, Some (q, _) =>
      match contents q with
      | e :: _ => bits (log_mask (entry_log e)) = 5 /\
                  Z.ldiff (bits (log_mask (entry_log e))) (select s) = 0
      | [] => False
      end
  | _, _ => False
  end.
Proof.
  intros p.
  destruct (p_subs p !! 0%nat) as [s|] eqn:Es; [|vm_compute in Es; discriminate].
  destruct (p_qs p !! 0%nat) as [[q fl]|] eqn:Eq; [|vm_compute in Eq; discriminate].
  assert (Hs : sink s = mkSink 0 (AttachId_new 1 0) KVal)
    by (vm_compute in Es; injection Es as <-; reflexivity).
  destruct (contents q) as [|e es] eqn:Ec;
    [vm_compute in Eq; injection Eq as <- <-; vm_compute in Ec; discriminate|].
  assert (He : entry_id e = AttachId_new 1 0 /\ bits (log_mask (entry_log e)) = 5)
    by (vm_compute in Eq; injection Eq as <- <-; vm_compute in Ec; injection Ec as <- _;
        split; reflexivity).
  destruct He as [Hi Hb]. split; [exact Hb|].
  apply (only_selected_classes_are_queued sample_subs sample_queues sample_post) with (q := q) (fl := fl).
  - apply (bool_decide_unpack _). vm_compute. exact I.
  - reflexivity.
  - exact sample_reachable.
  - intros [|k] q' fl' Hk; [|done]. injection Hk as <- <-. vm_compute. reflexivity.
  - by apply list_elem_of_lookup_2 in Es.
  - by rewrite Hs.
  - rewrite Ec. by left.
  - by rewrite Hs.
Defined.
