(* ===== verification/FilterParseTheory.v ===== *)
(** * Channel names and filter documents: theorems

    [parsed_filters_are_legal]: whatever the JSON reader reports, the filters of a chain that
    parses are in their initial state with legal options.  [strict_scan_builds_each_filter]: on
    a document whose options are distinct and no object, the callback-driven scan makes the same
    chain, or the same refusal, as building the filters one by one.  [channel_name_parts]: a channel name
    is taken apart into the parts it was put together from. *)
From Stdlib Require Import SpecFloat.
From stdpp Require Import base tactics numbers list option strings.
From S2P Require Import Prelude Dbr Float64 Alarm EventQueue EventQueueTheory Strtod Strtol PvaText Value CParse Filters FilterParse FiltersTheory MonitorPath.

Open Scope Z_scope.

(** ** Legal filters *)

Definition legal (states : DbStates) (f : Filter) : Prop :=
  match f with
  | Dbnd f => dbnd_last f = S754_nan /\ hyst f = cval f /\ f64_abs (cval f) = cval f
  | Dec f => 1 <= dec_n f /\ counter f = 0
  | Sync f =>
      (exists name, find_state name states = Some (sync_cell f)) /\
      last_state f = state_get (sync_cell f) states /\ cached_event f = None
  | Utag f => first f = true
  | Arr cfg => 1 <= incr_field cfg
  | Ts _ => True
  end.

Lemma plugin_build_legal p states o f : plugin_build p states o = Some f -> legal states f.
Proof.
  destruct p; cbn [plugin_build].
  - unfold build_dbnd. intros ([cv mode] & _ & [= <-])%bind_Some. cbn. repeat split.
    by destruct (default f64_zero cv).
  - intros [= <-]. cbn. lia.
  - unfold build_ts. by case_match; intros [= <-].
  - unfold build_decimate. intros (n & _ & Hn)%bind_Some. case_match; [done|].
    apply fmap_Some in Hn as (d & Hd & ->). unfold DecimateFilter_new in Hd.
    destruct (Z.leb_spec 1 n); [|done]. injection Hd as <-. done.
  - unfold build_sync. intros ([mode state] & _ & Hs)%bind_Some.
    apply bind_Some in Hs as (name & _ & Hs). apply bind_Some in Hs as (cell & Hc & Hs).
    apply bind_Some in Hs as (m & _ & Hs). apply bind_Some in Hs as (m' & _ & [= <-]).
    cbn. eauto.
  - intros [= <-]. done.
Qed.

Section Scan.
Context `{CLong}.
Variable show_f64 : f64 -> list Z.

Abbreviation legal_chain states c := (Forall (legal states) (chain c)).

Lemma scan_value_legal states c :
  legal_chain states c -> legal_chain states (snd (scan_value states c)).
Proof.
  intros Hc. unfold scan_value. destruct (open_filter c) as [f|]; [|done].
  destruct (0 <? of_depth f)%nat; [done|].
  destruct (plugin_build _ _ _) as [b|] eqn:E; [|done]. cbn [snd chain].
  apply Forall_app_2; [done|]. constructor; [|done]. by eapply plugin_build_legal.
Qed.

Lemma scan_scalar_legal states st c :
  legal_chain states c -> legal_chain states (snd (scan_scalar states st c)).
Proof.
  intros Hc. unfold scan_scalar. destruct (open_filter c) as [f|]; [|done].
  destruct (of_next f) as [d|]; [|done]. destruct (st d); [|done]. by apply scan_value_legal.
Qed.

Lemma scan_event_legal states e c :
  legal_chain states c -> legal_chain states (snd (scan_event show_f64 states e c)).
Proof.
  intros Hc. destruct e; cbn [scan_event]; try by apply scan_scalar_legal.
  - by destruct (open_filter c).
  - destruct (open_filter c); [done|]. by destruct (opened c).
  - unfold scan_map_key. destruct (open_filter c).
    + by case_match.
    + by case_match.
  - destruct (open_filter c) as [f|]; [|done]. by apply scan_value_legal.
  - by destruct (open_filter c).
  - done.
Qed.

Lemma scan_events_legal states es c :
  legal_chain states c -> legal_chain states (snd (scan_events show_f64 states es c)).
Proof.
  revert c. induction es as [|e es IH]; intros c Hc; [done|]. cbn [scan_events].
  pose proof (scan_event_legal states e c Hc) as He.
  destruct (scan_event show_f64 states e c) as [[] c']; [by apply IH|done].
Qed.

Lemma legal_fresh states c : Forall (legal states) c -> fresh c = true.
Proof.
  intros Hc. unfold fresh. apply List.forallb_forall. intros f Hf.
  apply (proj1 (List.Forall_forall _ _) Hc) in Hf. destruct f; try done.
  apply bool_decide_eq_true. by destruct Hf as (_ & _ & ?).
Qed.

(** C25: a chain that parses is one a monitor may be given: whatever the JSON reader reported,
    every filter of the chain is in its initial state with legal options (a decimation of at
    least 1, a slice stride of at least 1, a deadband that is a magnitude with no baseline yet,
    a [sync] on a registered state remembering its present value, an armed [utag]), and in
    particular holds no event back. *)
Theorem parsed_filters_are_legal (states : DbStates) (json : list Z) (es : list JsonEvent)
    (block : option (list Z)) (c : FilterChain) :
  try_parse_filter_chain show_f64 states json es block = Some (Ok c) ->
  Forall (legal states) c /\ fresh c = true.
Proof.
  unfold try_parse_filter_chain. pose proof (scan_events_legal states es (ChfScan_new json)) as Hl.
  destruct (scan_events _ _ _ _) as [[] s]; [|by intros (? & _ & ?)%fmap_Some].
  destruct block; intros [= <-]. assert (Forall (legal states) (chain s)) by (by apply Hl). split; [done|].
  by apply (legal_fresh states).
Qed.

(** ** The two scans agree *)

Variable show_json : JsonValue -> list Z.

(** What the reader reports of a value. *)
Fixpoint value_events (v : JsonValue) : list JsonEvent :=
  match v with
  | SNull => [JNull]
  | SBool b => [JBoolean b]
  | SNumberI v => [JInteger v]
  | SNumberF v => [JDouble v]
  | SString s => [JString s]
  | SArray l => JStartArray :: flat_map value_events l ++ [JEndArray]
  | SObject members => JStartMap :: flat_map (fun kv => JMapKey kv.1 :: value_events kv.2) members ++ [JEndMap]
  end.

Abbreviation member_events := (flat_map (fun kv => JMapKey kv.1 :: value_events kv.2)).

(** Building the filters in order, up to the first refusal. *)
Fixpoint build_each (states : DbStates) (doc : list (list Z * JsonValue)) (built : FilterChain)
  : result FilterParseError FilterChain :=
  match doc with
  | [] => Ok built
  | (k, cfg) :: doc =>
      match build_filter show_f64 show_json states k cfg with
      | Err e => Err e
      | Ok f => build_each states doc (built ++ [f])
      end
  end.

(** The scan quotes the whole suffix where the builder quotes the filter's configuration. *)
Definition quoting (json : list Z) (e : FilterParseError) : FilterParseError :=
  match e with BadConfig name _ => BadConfig name json | e => e end.

(** A document of UTF-8 text in which no option is itself an object. *)
Definition flat_option (kv : list Z * JsonValue) : bool :=
  valid_utf8 kv.1 && match kv.2 with SString s => valid_utf8 s | SObject _ => false | _ => true end.
Definition flat_filter (kv : list Z * JsonValue) : bool :=
  valid_utf8 kv.1 && match kv.2 with SObject obj => forallb flat_option obj | _ => true end.
Definition flat_document (doc : list (list Z * JsonValue)) : bool := forallb flat_filter doc.

(** The options an object's keys select. *)
Definition resolved (p : Plugin) (obj : list (list Z * JsonValue)) : list (list Z) :=
  omap (fun '(k, _) => arg_name <$> find_def k (plugin_defs p)) obj.
Definition distinct_options (doc : list (list Z * JsonValue)) : Prop :=
  forall k obj p, (k, SObject obj) ∈ doc -> find_plugin k = Some p -> NoDup (resolved p obj).

Lemma scan_events_app states es1 es2 c :
  scan_events show_f64 states (es1 ++ es2) c =
    match scan_events show_f64 states es1 c with
    | (true, c) => scan_events show_f64 states es2 c
    | (false, c) => (false, c)
    end.
Proof.
  revert c. induction es1 as [|e es1 IH]; intros c; [done|]. cbn [app scan_events].
  by destruct (scan_event show_f64 states e c) as [[] c'].
Qed.

(** What a value does, inside a filter's object, to the option the key selected. *)
Lemma scan_option_value states k v c p def st :
  flat_option (k, v) = true -> open_filter c = Some (mkOpen p 1 (Some def) st) ->
  scan_events show_f64 states (value_events v) c =
    match store show_f64 def v with
    | None => bad_config c
    | Some x =>
        (true, with_filter (Some (mkOpen p 1 (Some def)
           (filter (fun kv => kv.1 <> arg_name def) st ++ [(arg_name def, x)]))) c)
    end.
Proof.
  intros [_ Ht]%andb_prop Ho. cbn [fst snd] in Ht.
  destruct v; try done; cbn [value_events scan_events scan_event store]; unfold scan_scalar; rewrite ?Ho;
    cbn [of_next of_plugin of_depth of_stored]; try done.
  - by destruct (store_boolean _ _).
  - by destruct (store_i64 _ _).
  - by destruct (store_double _ _ _).
  - unfold store_bytes. rewrite Ht. by destruct (store_string _ _).
Qed.

(** A configuration that is no object is refused. *)
Lemma scan_no_object states v c p :
  open_filter c = Some (mkOpen p 0 None []) -> (forall obj, v <> SObject obj) ->
  exists c', scan_events show_f64 states (value_events v) c = (false, c') /\
    refusal c' = Some (BadConfig (plugin_name p) (suffix c)).
Proof.
  intros Ho Hv. assert (Hb : refusal (bad_config c).2 = Some (BadConfig (plugin_name p) (suffix c)))
    by (unfold bad_config; rewrite Ho; done).
  destruct v; try (by destruct (Hv members)); cbn [value_events scan_events scan_event]; unfold scan_scalar;
    rewrite Ho; cbn [of_next]; by eexists.
Qed.

Lemma filter_fresh_name (name : list Z) (st : Opts) :
  name ∉ map fst st -> filter (fun kv => kv.1 <> name) st = st.
Proof.
  induction st as [|[k x] st IH]; intros Hn; [done|]. cbn [map fst] in Hn.
  apply not_elem_of_cons in Hn as [Hk Hn]. rewrite filter_cons_True by (cbn; congruence).
  by rewrite IH.
Qed.

(** The options of one object. *)
Lemma scan_options states bad obj c p nx st :
  forallb flat_option obj = true -> NoDup (map fst st ++ resolved p obj) ->
  open_filter c = Some (mkOpen p 1 nx st) -> quoting (suffix c) bad = BadConfig (plugin_name p) (suffix c) ->
  match store_all show_f64 p bad obj st with
  | Ok st' => exists nx', scan_events show_f64 states (member_events obj) c =
      (true, with_filter (Some (mkOpen p 1 nx' st')) c)
  | Err e => exists c', scan_events show_f64 states (member_events obj) c = (false, c') /\
      refusal c' = Some (quoting (suffix c) e)
  end.
Proof.
  revert c nx st. induction obj as [|[k v] obj IH]; intros c nx st Ht Hn Ho Hb.
  { exists nx. destruct c as [su o f ch r]. cbn in Ho. by subst f. }
  cbn [forallb] in Ht. apply andb_prop in Ht as [Hkv Ht]. pose proof Hkv as [Hk _]%andb_prop. cbn [fst] in Hk.
  cbn [store_all flat_map fst snd]. rewrite scan_events_app. cbn [scan_events scan_event]. unfold scan_map_key.
  rewrite (from_utf8_lossy_valid k Hk), Ho. cbn [of_plugin of_depth of_stored].
  unfold resolved in Hn. cbn [omap list_omap] in Hn.
  destruct (find_def k (plugin_defs p)) as [def|] eqn:Ed; [|by eexists].
  cbn [fmap option_fmap option_map] in Hn. fold (resolved p obj) in Hn.
  rewrite (scan_option_value states k v (with_filter (Some (mkOpen p 1 (Some def) st)) c) p def st
    Hkv eq_refl).
  destruct (store show_f64 def v) as [x|]; [|rewrite Hb; by eexists].
  assert (Hnew : arg_name def ∉ map fst st).
  { intros Hin. apply NoDup_app in Hn as (_ & Hd & _). apply (Hd _ Hin). by left. }
  rewrite (filter_fresh_name _ _ Hnew). set (st' := st ++ [(arg_name def, x)]).
  assert (Hn' : NoDup (map fst st' ++ resolved p obj)).
  { unfold st'. rewrite map_app. cbn [map fst]. by rewrite <- app_assoc. }
  exact (IH (with_filter (Some (mkOpen p 1 (Some def) st')) c) (Some def) st' Ht Hn' eq_refl Hb).
Qed.

(** A scan between two filters of the document. *)
Definition between (json : list Z) (ch : FilterChain) : ChfScan := mkScan json true None ch None.

Lemma scan_filter states json k cfg ch :
  flat_filter (k, cfg) = true ->
  (forall obj p, cfg = SObject obj -> find_plugin k = Some p -> NoDup (resolved p obj)) ->
  match build_filter show_f64 show_json states k cfg with
  | Ok f =>
      scan_events show_f64 states (JMapKey k :: value_events cfg) (between json ch) = (true, between json (ch ++ [f]))
  | Err e => exists c',
      scan_events show_f64 states (JMapKey k :: value_events cfg) (between json ch) = (false, c') /\
      refusal c' = Some (quoting json e)
  end.
Proof.
  intros [Hk Ht]%andb_prop Hn. cbn [fst snd] in *. unfold build_filter. cbn [scan_events scan_event]. unfold scan_map_key.
  rewrite (from_utf8_lossy_valid k Hk). cbn [open_filter between].
  destruct (find_plugin k) as [p|] eqn:Ep; [|by eexists].
  assert (Hname : plugin_name p = k).
  { unfold find_plugin in Ep. apply fmap_Some in Ep as ([i q] & Hf & ->).
    by apply list_find_Some in Hf as (_ & ? & _). }
  set (c0 := with_filter (Some (mkOpen p 0 None [])) (between json ch)).
  assert (Hother : (forall obj, cfg <> SObject obj) -> exists c',
    scan_events show_f64 states (value_events cfg) c0 = (false, c') /\ refusal c' = Some (BadConfig k json)).
  { intros Hv. destruct (scan_no_object states cfg c0 p eq_refl Hv) as (c' & ? & Hr). exists c'. by rewrite Hr, Hname. }
  destruct cfg as [|b|z|f|t|l|obj]; try (apply Hother; discriminate).
  cbn [value_events scan_events scan_event open_filter with_filter c0 of_plugin of_depth of_next of_stored].
  rewrite scan_events_app. set (c1 := with_filter (Some (mkOpen p 1 None [])) c0).
  pose proof (scan_options states (BadConfig k (show_json (SObject obj))) obj c1 p None []
    Ht (Hn obj p eq_refl eq_refl) eq_refl ltac:(cbn; by rewrite Hname)) as Hs.
  destruct (store_all show_f64 p _ obj []) as [st|e]; [|].
  2:{ destruct Hs as (c' & -> & Hr). eauto. }
  destruct Hs as (nx & ->). cbn [scan_events scan_event open_filter with_filter].
  unfold scan_value. cbn [open_filter with_filter of_depth of_plugin of_stored Nat.ltb Nat.leb pred].
  destruct (plugin_build p states st) as [f|]; cbn [ok_or].
  - done.
  - eexists. split; [done|]. cbn [refusal quoting]. by rewrite Hname.
Qed.

Lemma scan_document states json doc ch :
  flat_document doc = true -> distinct_options doc ->
  match build_each states doc ch with
  | Ok ch' => scan_events show_f64 states (member_events doc) (between json ch) = (true, between json ch')
  | Err e => exists c', scan_events show_f64 states (member_events doc) (between json ch) = (false, c') /\
      refusal c' = Some (quoting json e)
  end.
Proof.
  revert ch. induction doc as [|[k cfg] doc IH]; intros ch Ht Hd; [done|].
  cbn [flat_document forallb] in Ht. apply andb_prop in Ht as [Hk Ht].
  cbn [build_each]. change (member_events ((k, cfg) :: doc)) with ((JMapKey k :: value_events cfg) ++ member_events doc).
  rewrite scan_events_app. pose proof (scan_filter states json k cfg ch Hk) as Hs.
  destruct (build_filter _ _ _ _ _) as [f|e].
  - rewrite Hs; [|intros obj p -> Hp; by apply (Hd k obj p (list_elem_of_here _ _))].
    apply IH; [done|]. intros k' obj' p Hin. apply (Hd k' obj' p). by right.
  - destruct Hs as (c' & -> & Hr); [|eauto]. intros obj p -> Hp. by apply (Hd k obj p (list_elem_of_here _ _)).
Qed.

(** C23: the strict scan and the permissive builder agree.  On a document that is an object in
    UTF-8 whose filters have any value as configuration, but no object as the value of an
    option and no option selected twice within a filter (keys may be abbreviated), the
    callback-driven scan of its events does not panic and yields exactly the filters
    [build_filter] makes of its entries, in order, or the refusal of the first entry it refuses,
    which quotes the whole suffix where the builder quotes the configuration. *)
Theorem strict_scan_builds_each_filter (states : DbStates) (json : list Z) (doc : list (list Z * JsonValue)) :
  flat_document doc = true -> distinct_options doc ->
  try_parse_filter_chain show_f64 states json (value_events (SObject doc)) None =
    Some match build_each states doc [] with Ok c => Ok c | Err e => Err (quoting json e) end.
Proof.
  intros Ht Hd. unfold try_parse_filter_chain. cbn [value_events scan_events scan_event].
  change (mkScan (suffix (ChfScan_new json)) true None (chain (ChfScan_new json)) (refusal (ChfScan_new json)))
    with (between json []).
  cbn [open_filter ChfScan_new opened]. rewrite scan_events_app.
  pose proof (scan_document states json doc [] Ht Hd) as Hs.
  destruct (build_each states doc []) as [ch|e].
  - rewrite Hs. done.
  - destruct Hs as (c' & -> & ->). done.
Qed.

(** The permissive scan keeps what builds: the same chain where the strict one makes one. *)
Lemma permissive_chain states doc ch ch' :
  build_each states doc ch = Ok ch' -> ch' = ch ++ parse_filter_chain show_f64 show_json states (SObject doc).
Proof.
  revert ch. induction doc as [|[k cfg] doc IH]; intros ch; cbn [build_each].
  { intros [= <-]. by rewrite app_nil_r. }
  destruct (build_filter _ _ _ _ _) as [f|] eqn:E; [|done]. intros Hd. rewrite (IH _ Hd).
  cbn [parse_filter_chain omap list_omap]. rewrite E. by rewrite <- app_assoc.
Qed.
End Scan.

(** An object as the value of an option: the strict scan reads its members as options of the
    filter, the permissive one refuses it. *)
Lemma nested_option_is_scanned :
  let doc := SObject [(ascii_bytes "dec", SObject [(ascii_bytes "n", SObject [(ascii_bytes "n", SNumberI 3)])])] in
  @try_parse_filter_chain lp64 (fun _ => []) DbStates_new [] (value_events doc) None =
    Some (Ok [Dec (mkDecimate 3 0)]) /\
  @parse_filter_chain lp64 (fun _ => []) (fun _ => []) DbStates_new doc = [].
Proof. by vm_compute. Qed.

(** ** Channel names *)

Lemma index_of_app p l c r :
  Forall (fun x => p x = false) l -> p c = true -> index_of p (l ++ c :: r) = Some (length l).
Proof.
  intros Hl Hc. induction Hl as [|x l Hx Hl IH]; cbn [app index_of length].
  - by rewrite Hc.
  - by rewrite Hx, IH.
Qed.

Lemma index_of_none p l : Forall (fun x => p x = false) l -> index_of p l = None.
Proof. induction 1 as [|x l Hx Hl IH]; [done|]. cbn [index_of]. by rewrite Hx, IH. Qed.

(** A field name: a C identifier. *)
Definition ident_char (c : Z) : bool := (c =? 95) || is_ascii_alphanumeric c.
Definition field_name (f : list Z) : bool :=
  match f with
  | c :: _ => ((c =? 95) || is_ascii_alphabetic c) && forallb ident_char f
  | [] => false
  end.

Lemma field_name_len_app f rest :
  field_name f = true -> match rest with [] => True | c :: _ => ident_char c = false end ->
  field_name_len (f ++ rest) = length f.
Proof.
  intros Hf Hr. destruct f as [|c f]; [done|]. cbn [field_name] in Hf.
  apply andb_prop in Hf as [Hc Hall]. unfold field_name_len. cbn [app]. rewrite Hc.
  assert (Hno : Forall (fun x => negb (ident_char x) = false) (c :: f)).
  { apply List.Forall_forall. intros x Hx. rewrite (proj1 (List.forallb_forall _ _) Hall x Hx). done. }
  change (c :: f ++ rest) with ((c :: f) ++ rest). destruct rest as [|r rest].
  - rewrite app_nil_r. by rewrite index_of_none.
  - unfold ident_char in Hr. rewrite index_of_app; [done|done|]. by rewrite Hr.
Qed.

Lemma ascii_valid_utf8 l : Forall (fun b => 0 <= b < 0x80) l -> valid_utf8 l = true.
Proof.
  unfold valid_utf8. induction 1 as [|b l Hb Hl IH]; [done|]. cbn [length valid_loop].
  assert (utf8_step (b :: l) = (1%nat, true)) as ->; [|done].
  unfold utf8_step. by rewrite (proj2 (Z.ltb_lt b 0x80)) by lia.
Qed.

Lemma field_name_ascii f : field_name f = true -> Forall (fun b => 0 <= b < 0x80 /\ b <> 46) f.
Proof.
  destruct f as [|c f]; [done|]. cbn [field_name]. intros [_ Hall]%andb_prop.
  apply List.Forall_forall. intros x Hx.
  apply (proj1 (List.forallb_forall _ _) Hall) in Hx.
  unfold ident_char, is_ascii_alphanumeric, is_ascii_digit, is_ascii_uppercase,
    is_ascii_lowercase in Hx.
  repeat (apply orb_prop in Hx as [Hx|Hx]); zbool; lia.
Qed.

(** What may follow the field: the filter text. *)
Definition filter_text (json : option (list Z)) : Prop :=
  match json with
  | None => True
  | Some j => valid_utf8 j = true /\ exists l, j = 123 :: l
  end.

Lemma strip_prefix_app p s : strip_prefix p (p ++ s) = Some s.
Proof.
  unfold strip_prefix. rewrite take_app_length, drop_app_length. by rewrite decide_True.
Qed.

Lemma strip_suffix_app p s : strip_suffix p (s ++ p) = Some s.
Proof.
  unfold strip_suffix. rewrite length_app.
  replace (length s + length p - length p)%nat with (length s) by lia.
  rewrite take_app_length, drop_app_length. by rewrite decide_True by (split; [done|lia]).
Qed.

Lemma strip_prefix_none c s :
  match s with [] => True | x :: _ => x <> c end -> strip_prefix [c] s = None.
Proof.
  intros Hs. unfold strip_prefix. apply decide_False. destruct s as [|x s]; [done|].
  cbn [length take]. congruence.
Qed.

(** The modifiers after the field. *)
Lemma json_modifier_text json :
  filter_text json -> range_modifier (default [] json) = Some (None, default [] json) /\
  json_modifier (default [] json) = Some json.
Proof.
  intros Hj. destruct json as [j|]; [|done]. destruct Hj as [Hv (l & ->)].
  cbn [default from_option id]. unfold range_modifier, json_modifier.
  rewrite strip_prefix_none by done. rewrite Hv. done.
Qed.

Lemma drop_after_dot {A} (l : list A) x r : drop (S (length l)) (l ++ x :: r) = r.
Proof. by rewrite (cons_middle x l r), app_assoc, drop_app_length' by (rewrite length_app; cbn; lia). Qed.

Lemma take_field {A} (l : list A) x f r :
  take (length l + 1 + length f) (l ++ x :: f ++ r) = l ++ x :: f.
Proof.
  replace (l ++ x :: f ++ r) with ((l ++ x :: f) ++ r) by (by rewrite <- app_assoc).
  rewrite take_app_length'; [done|]. rewrite length_app. cbn [length]. lia.
Qed.

Lemma no_dot record : 46 ∉ record -> Forall (fun c => (c =? 46) = false) record.
Proof.
  intros Hr. apply List.Forall_forall. intros x Hx. apply Z.eqb_neq. intros ->.
  apply Hr. by apply list_elem_of_In.
Qed.

Lemma split_channel_name_parts record field sv json :
  46 ∉ record -> field_name field = true -> filter_text json ->
  split_channel_name
    (record ++ 46 :: field ++ (if sv : bool then [36] else []) ++ default [] json) =
  mkParsedName (record ++ 46 :: field ++ (if sv then [36] else [])) sv json.
Proof.
  intros Hr Hf Hj. unfold split_channel_name. rewrite index_of_app by (done || by apply no_dot).
  rewrite drop_after_dot. rewrite field_name_len_app; [|done|].
  2:{ destruct sv; [done|]. destruct json as [j|]; [|done]. by destruct Hj as [_ (l & ->)]. }
  rewrite drop_app_length, take_field.
  assert (Hsv : match strip_prefix [36] ((if sv then [36] else []) ++ default [] json) with
    | Some r => (true, r) | None => (false, (if sv then [36] else []) ++ default [] json) end
    = (sv, default [] json)).
  { destruct sv; [by rewrite strip_prefix_app|]. rewrite strip_prefix_none; [done|].
    destruct json as [j|]; [|done]. by destruct Hj as [_ (l & ->)]. }
  rewrite Hsv. destruct (json_modifier_text json Hj) as [-> ->].
  assert (Hne : (length field =? 0)%nat = false) by (by destruct field).
  rewrite Hne. destruct sv; [by rewrite <- app_assoc|by rewrite app_nil_r].
Qed.

Lemma parse_pv_name_parts record field :
  46 ∉ record -> field_name field = true -> parse_pv_name (record ++ 46 :: field) = (record, field).
Proof.
  intros Hr Hf. unfold parse_pv_name, name_parts.
  rewrite index_of_app by (done || by apply no_dot). rewrite take_app_length, drop_after_dot.
  rewrite (proj2 (Nat.ltb_lt _ _)) by (rewrite length_app; cbn [length]; lia).
  rewrite ascii_valid_utf8; [done|]. eapply Forall_impl; [by apply field_name_ascii|].
  intros x Hx. cbn beta in *. lia.
Qed.

(** A channel name is taken apart as it was put together: of a record name without a dot
    (braces, brackets and [$] in it are only characters), a dot, a field name, optionally the
    [$] modifier and then filter text, the parser recovers exactly the record, the field in
    upper case, the modifier and the filter text. *)
Theorem channel_name_parts (record field : list Z) (sv : bool) (json : option (list Z)) :
  46 ∉ record -> field_name field = true -> filter_text json ->
  parse_channel_name
    (record ++ 46 :: field ++ (if sv then [36] else []) ++ default [] json) =
  mkChannelName (record ++ 46 :: field) record (map to_ascii_uppercase field) sv json.
Proof.
  intros Hr Hf Hj. unfold parse_channel_name. rewrite split_channel_name_parts by done.
  cbn [pn_string_view pn_record_path pn_json_suffix].
  assert (Hcore : (if sv then default (record ++ 46 :: field ++ (if sv then [36] else []))
      (strip_suffix [36] (record ++ 46 :: field ++ (if sv then [36] else [])))
    else record ++ 46 :: field ++ (if sv then [36] else [])) = record ++ 46 :: field).
  { destruct sv; [|by rewrite app_nil_r].
    replace (record ++ 46 :: field ++ [36]) with ((record ++ 46 :: field) ++ [36])
      by (by rewrite <- app_assoc). by rewrite strip_suffix_app. }
  rewrite Hcore, parse_pv_name_parts by done. done.
Qed.

(** ** Witnesses *)

Lemma parsed_filters_are_legal_witness :
  Forall (legal DbStates_new) [Dec (mkDecimate 3 0)] /\ fresh [Dec (mkDecimate 3 0)] = true.
Proof.
  exact (@parsed_filters_are_legal lp64 (fun _ => []) DbStates_new []
    [JStartMap; JMapKey (ascii_bytes "dec"); JStartMap; JMapKey (ascii_bytes "n"); JInteger 3;
     JEndMap; JEndMap] None [Dec (mkDecimate 3 0)] eq_refl).
Defined.

(** An abbreviated key, a slice after a deadband, and an option that is null. *)
Definition sample_document : list (list Z * JsonValue) :=
  [(ascii_bytes "dbnd", SObject [(ascii_bytes "r", SNumberI 50)]);
   (ascii_bytes "arr", SObject [(ascii_bytes "s", SNumberI 2); (ascii_bytes "e", SString (ascii_bytes "7"))]);
   (ascii_bytes "dec", SObject [(ascii_bytes "n", SNull)])].

Lemma strict_scan_builds_each_filter_witness :
  @try_parse_filter_chain lp64 (fun _ => []) DbStates_new (ascii_bytes "text") (value_events (SObject sample_document)) None =
  Some (Err (BadConfig (ascii_bytes "dec") (ascii_bytes "text"))).
Proof.
  rewrite (@strict_scan_builds_each_filter lp64 (fun _ => []) (fun _ => []) DbStates_new (ascii_bytes "text") sample_document);
    [vm_compute; reflexivity|reflexivity|].
  intros k obj p Hin Hp. unfold sample_document in Hin.
  repeat (apply elem_of_cons in Hin as [[= -> ->]|Hin];
    [vm_compute in Hp; injection Hp as <-; apply (bool_decide_unpack _); vm_compute; exact I|]).
  by apply elem_of_nil in Hin.
Defined.

(** A braced record name. *)
Lemma channel_name_parts_witness :
  parse_channel_name (ascii_bytes "OP{Ax:X1}Mtr.DESC$") =
  mkChannelName (ascii_bytes "OP{Ax:X1}Mtr.DESC") (ascii_bytes "OP{Ax:X1}Mtr")
    (ascii_bytes "DESC") true None.
Proof.
  apply (channel_name_parts (ascii_bytes "OP{Ax:X1}Mtr") (ascii_bytes "DESC") true None);
    [apply (bool_decide_unpack _); vm_compute; exact I|reflexivity|exact I].
Defined.
