(* ===== verification/Float32.v ===== *)
(** * IEEE-754 binary32

    [f32] as a [spec_float] of 24 bits, as [Value.v] has it: its bit pattern, the arithmetic
    the text conversions use, and the casts to and from [f64].  A canonical [f32] is read back
    from its bits and widens to a canonical [f64]; NaN payloads are not represented. *)
From Stdlib Require Import SpecFloat.
From stdpp Require Import base tactics numbers list option.
From S2P Require Import Prelude Float64 Float64Theory Value CParse.

Open Scope Z_scope.

Definition f32_prec : Z := 24.
Definition f32_emax : Z := 128.

Definition f32_sub (a b : f32) : f32 := SFsub f32_prec f32_emax a b.
Definition f32_mul (a b : f32) : f32 := SFmul f32_prec f32_emax a b.
Definition f32_of_Z (z : Z) : f32 := binary_normalize f32_prec f32_emax z 0 false.

(** [f32::from_bits] and [f32::to_bits]. *)
Definition f32_of_bits (b : Z) : f32 :=
  let s := Z.testbit b 31 in
  let ex := Z.land (Z.shiftr b 23) 0xFF in
  let m := Z.land b (2 ^ 23 - 1) in
  if ex =? 0xFF then if m =? 0 then S754_infinity s else S754_nan
  else if ex =? 0 then
    match m with Z.pos p => S754_finite s p (-149) | _ => S754_zero s end
  else match m + 2 ^ 23 with Z.pos p => S754_finite s p (ex - 150) | _ => S754_nan end.

Definition f32_to_bits (a : f32) : Z :=
  let sign (s : bool) := if s then 2 ^ 31 else 0 in
  match a with
  | S754_zero s => sign s
  | S754_infinity s => sign s + 0xFF * 2 ^ 23
  | S754_nan => 0x7FC * 2 ^ 20
  | S754_finite s m e =>
      if Z.pos m <? 2 ^ 23 then sign s + Z.pos m
      else sign s + (e + 150) * 2 ^ 23 + (Z.pos m - 2 ^ 23)
  end.

Definition f32_valid (a : f32) : bool := valid_binary f32_prec f32_emax a.

(** ** Canonical values *)

Lemma f32_of_f64_valid a : f32_valid (f32_of_f64 a) = true.
Proof. destruct a; try done. by apply binary_normalize_valid. Qed.

Lemma f64_of_f32_valid a : f64_valid (f64_of_f32 a) = true.
Proof. destruct a; try done. by apply binary_normalize_valid. Qed.

Lemma f32_valid_cases s m e : f32_valid (S754_finite s m e) = true ->
  (Z.pos m < 2 ^ 23 /\ e = -149) \/ (2 ^ 23 <= Z.pos m < 2 ^ 24 /\ -149 <= e <= 104).
Proof.
  unfold f32_valid, valid_binary, bounded, canonical_mantissa.
  intros [Hc%Z.eqb_eq Hb%Z.leb_le]%andb_prop. rewrite digits2_log2, fexp_max in Hc.
  cbn [f32_prec f32_emax] in *. unfold f32_prec, f32_emax in *.
  pose proof (Z.log2_spec (Z.pos m) ltac:(lia)) as [Hl Hh]. pose proof (Z.log2_nonneg (Z.pos m)).
  destruct (Z.lt_ge_cases (Z.log2 (Z.pos m)) 23) as [Hlt|Hge].
  - left. split; [|lia]. eapply Z.lt_le_trans; [exact Hh|]. apply Z.pow_le_mono_r; lia.
  - right. assert (Z.log2 (Z.pos m) = 23) as E by lia. rewrite E in *. lia.
Qed.

Ltac f32_fields :=
  change (8 + 23) with 31 in *; change (Z.ones 8) with 0xFF in *;
  change (Z.ones 23) with (2 ^ 23 - 1) in *.

(** A canonical [f32] is read back from its bits. *)
Lemma f32_bits_round_trip a : f32_valid a = true -> f32_of_bits (f32_to_bits a) = a.
Proof.
  destruct a as [s|s| |s m e]; intros Hv; [by destruct s|by destruct s|done|].
  apply f32_valid_cases in Hv. unfold f32_to_bits. destruct (Z.ltb_spec (Z.pos m) (2 ^ 23)) as [Hlt|Hge].
  - assert (e = -149) as -> by lia.
    destruct (fields_of_bits 8 23 s 0 (Z.pos m)) as (Hs & He & Hm); [lia..|].
    rewrite Z.mul_0_l, Z.add_0_r in Hs, He, Hm. f32_fields. unfold f32_of_bits. by rewrite Hs, He, Hm.
  - destruct (fields_of_bits 8 23 s (e + 150) (Z.pos m - 2 ^ 23)) as (Hs & He & Hm); [lia..|].
    f32_fields. unfold f32_of_bits. rewrite Hs, He, Hm.
    destruct (Z.eqb_spec (e + 150) 0xFF); [lia|]. destruct (Z.eqb_spec (e + 150) 0); [lia|].
    replace (Z.pos m - 2 ^ 23 + 2 ^ 23) with (Z.pos m) by lia. f_equal. lia.
Qed.

Lemma f32_to_bits_range a : f32_valid a = true -> 0 <= f32_to_bits a < 2 ^ 32.
Proof.
  destruct a as [s|s| |s m e]; intros Hv; [by destruct s|by destruct s|done|].
  apply f32_valid_cases in Hv. unfold f32_to_bits. destruct s, (Z.ltb_spec (Z.pos m) (2 ^ 23)); lia.
Qed.

Lemma f32_of_bits_valid b : f32_valid (f32_of_bits b) = true.
Proof.
  assert (Hv : forall s m e, (Z.pos m < 2 ^ 23 /\ e = -149) \/
                (2 ^ 23 <= Z.pos m < 2 ^ 24 /\ -149 <= e <= 104) ->
              f32_valid (S754_finite s m e) = true).
  { intros s m e H. unfold f32_valid, valid_binary, bounded, canonical_mantissa, f32_prec, f32_emax.
    rewrite digits2_log2, fexp_max.
    pose proof (Z.log2_nonneg (Z.pos m)). apply andb_true_intro. split; [apply Z.eqb_eq|apply Z.leb_le; lia].
    destruct H as [[Hm ->]|[Hm He]].
    - apply Z.log2_lt_pow2 in Hm; lia.
    - assert (Z.log2 (Z.pos m) = 23); [|lia]. apply Z.log2_unique; lia. }
  unfold f32_of_bits.
  assert (He : 0 <= Z.land (Z.shiftr b 23) 0xFF < 2 ^ 8).
  { change 0xFF with (Z.ones 8). rewrite Z.land_ones by lia. by apply Z.mod_pos_bound. }
  assert (Hm : 0 <= Z.land b (2 ^ 23 - 1) < 2 ^ 23).
  { replace (2 ^ 23 - 1) with (Z.ones 23) by reflexivity. rewrite Z.land_ones by lia. by apply Z.mod_pos_bound. }
  destruct (Z.eqb_spec (Z.land (Z.shiftr b 23) 0xFF) 0xFF); [by case_match|].
  destruct (Z.eqb_spec (Z.land (Z.shiftr b 23) 0xFF) 0).
  - destruct (Z.land b (2 ^ 23 - 1)); [done| |done]. apply Hv. lia.
  - destruct (Z.land b (2 ^ 23 - 1) + 2 ^ 23) eqn:E; [done| |done]. apply Hv. lia.
Qed.
