(* ===== verification/CFmt.v ===== *)
(** * Numbers as text

    Models the conversions a [DBR_STRING] read of a number takes: the [%f] and [%e] forms of
    [epics-libcom-rs/src/cfmt.rs] ([CFloat]) and [cvtDoubleToString] and [cvtFloatToString] of
    [epics-base-rs/src/types/codec.rs].  Text is the list of its bytes.  The digits of the
    language's own [{:.p}] and [{:.pe}] are exact and round half to even. *)
From Stdlib Require Import SpecFloat.
From stdpp Require Import base tactics numbers list option strings.
From S2P Require Import Prelude Float64 Strtod Strtol Value CParse Float32.

Open Scope Z_scope.

(** ** Exact digits *)

(** [n / d] to the nearest integer, ties to even. *)
Definition div_half_even (n d : Z) : Z :=
  let q := n / d in
  match 2 * (n mod d) ?= d with
  | Lt => q
  | Eq => if Z.even q then q else q + 1
  | Gt => q + 1
  end.

(** A non-negative finite double as a fraction. *)
Definition fraction (a : f64) : Z * Z :=
  match a with
  | S754_finite _ m e => (Z.pos m * 2 ^ Z.max e 0, 2 ^ Z.max (- e) 0)
  | _ => (0, 1)
  end.

(** The low [n] decimal digits of [x], leading zeros kept. *)
Fixpoint digits_padded (n : nat) (x : Z) : list Z :=
  match n with O => [] | S n => digits_padded n (x / 10) ++ [48 + x mod 10] end.

(** [format!("{a:.p$}")] of a non-negative finite value. *)
Definition fixed_digits (a : f64) (p : nat) : list Z :=
  let '(n, d) := fraction a in
  let x := div_half_even (n * 10 ^ Z.of_nat p) d in
  show_Z (x / 10 ^ Z.of_nat p) ++ match p with O => [] | _ => 46 :: digits_padded p x end.

(** The exponent of a positive fraction's first decimal digit: counted down from the digits
    of its whole part, or up to the first power of ten that brings it to one or more.  A
    double has at most 309 digits before the point and 324 places after it. *)
Fixpoint exponent_below (fuel : nat) (k : Z) (n d : Z) : Z :=
  match fuel with
  | O => k
  | S fuel => if d <=? n then k else exponent_below fuel (k - 1) (n * 10) d
  end.
Definition decimal_exponent (n d : Z) : Z :=
  if d <=? n then Z.of_nat (length (show_Z (n / d))) - 1 else exponent_below 330 0 n d.

(** [format!("{a:.p$e}")] of a non-negative finite value: the digits and the exponent. *)
Definition sci_digits (a : f64) (p : nat) : list Z * Z :=
  let '(n, d) := fraction a in
  let mantissa x := show_Z (x / 10 ^ Z.of_nat p)
    ++ match p with O => [] | _ => 46 :: digits_padded p x end in
  if n =? 0 then (mantissa 0, 0)
  else
    let x := decimal_exponent n d in
    let scale := Z.of_nat p - x in
    let digits := div_half_even (n * 10 ^ Z.max scale 0) (d * 10 ^ Z.max (- scale) 0) in
    if digits <? 10 ^ (Z.of_nat p + 1) then (mantissa digits, x)
    else (mantissa (digits / 10), x + 1).

(** ** [CFloat] *)

(** [c_exponent], without the [#] flag: signed, at least two digits. *)
Definition c_exponent (mantissa : list Z) (exp : Z) : list Z :=
  mantissa ++ [101; if exp <? 0 then 45 else 43]
    ++ (if Z.abs exp <? 10 then [48] else []) ++ show_Z (Z.abs exp).

(** [exponential]. *)
Definition exponential (a : f64) (p : nat) : list Z :=
  let '(mantissa, exp) := sci_digits a p in c_exponent mantissa exp.

Inductive Conv : Type := ConvF | ConvE.

(** [emit], right-aligned in [width]: no sign, zero-padding or alternate flag is asked for. *)
Definition emit (x : f64) (conv : Conv) (p : nat) (width : nat) : list Z :=
  let negative := match x with
                  | S754_zero s | S754_infinity s | S754_finite s _ _ => s
                  | S754_nan => false
                  end in
  let body :=
    match x with
    | S754_nan => ascii_bytes "nan"
    | S754_infinity _ => ascii_bytes "inf"
    | _ => match conv with
           | ConvF => fixed_digits (f64_abs x) p
           | ConvE => exponential (f64_abs x) p
           end
    end in
  let text := (if negative : bool then [45] else []) ++ body in
  repeat 32 (width - length text) ++ text.

(** ** cvtFast *)

Definition FRAC_MULTIPLIER : list Z :=
  [1; 10; 100; 1000; 10000; 100000; 1000000; 10000000; 100000000].

(** The whole digits, leading zeros left out. *)
Fixpoint whole_digits (places : list Z) (whole : Z) (got_one : bool) : list Z :=
  match places with
  | [] => if got_one then [] else [48]
  | iplace :: places =>
      if iplace <=? whole then
        let number := Z.quot whole iplace in
        (48 + number) :: whole_digits places (whole - number * iplace) true
      else (if got_one then [48] else []) ++ whole_digits places whole got_one
  end.

Fixpoint fraction_digits (precision : nat) (fraction fplace : Z) : list Z :=
  match precision with
  | O => []
  | S precision =>
      let number := Z.quot fraction fplace in
      (48 + number) :: fraction_digits precision (fraction - number * fplace) (Z.quot fplace 10)
  end.

Definition write_fixed_digits (whole fraction fplace_full : Z) (precision : nat) : list Z :=
  whole_digits [10000000; 1000000; 100000; 10000; 1000; 100; 10; 1] whole false
  ++ match precision with
     | O => []
     | _ => 46 :: fraction_digits precision fraction (Z.quot fplace_full 10)
     end.

(** The digits of the fast path, from the whole part and the scaled fraction. *)
Definition round_and_write (whole scaled fplace_full : Z) (precision : nat) : list Z :=
  let fraction := Z.quot (scaled + 5) 10 in
  if 1 <=? Z.quot fraction fplace_full
  then write_fixed_digits (whole + 1) (fraction - fplace_full) fplace_full precision
  else write_fixed_digits whole fraction fplace_full precision.

(** [cvt_double_to_string]. *)
Definition cvt_double_to_string (val : f64) (precision : Z) : list Z :=
  let exceeds (k : Z) := f64_gtb val (f64_of_Z k) || f64_ltb val (f64_of_Z (- k)) in
  if f64_is_nan val || (8 <? precision) || exceeds (10 ^ 7) then
    if (8 <? precision) || exceeds (10 ^ 16) then
      let p := Z.to_nat (Z.min precision 17) in emit val ConvE p (p + 7)
    else emit val ConvF (Z.to_nat (Z.min precision 3)) 0
  else
    let negative := f64_ltb val f64_zero in
    let val := if negative then f64_opp val else val in
    let whole := f64_to_int (- 2 ^ 31) (2 ^ 31 - 1) val in
    let ftemp := f64_sub val (f64_of_Z whole) in
    let fplace_full := default 0 (FRAC_MULTIPLIER !! Z.to_nat precision) in
    let scaled := f64_to_int (- 2 ^ 31) (2 ^ 31 - 1)
                    (f64_mul (f64_mul ftemp (f64_of_Z fplace_full)) (f64_of_Z 10)) in
    (if negative then [45] else [])
    ++ round_and_write whole scaled fplace_full (Z.to_nat precision).

(** [cvt_float_to_string]: the fast path in [f32]. *)
Definition cvt_float_to_string (val : f32) (precision : Z) : list Z :=
  let above (k : Z) := f64_gtb val (f32_of_Z k) || f64_ltb val (f32_of_Z (- k)) in
  let reaches (k : Z) := f64_geb val (f32_of_Z k) || f64_leb val (f32_of_Z (- k)) in
  if f64_is_nan val || (8 <? precision) || above (10 ^ 7) then
    if (8 <? precision) || reaches (10 ^ 8) then
      let p := Z.to_nat (Z.min precision 12) in emit (f64_of_f32 val) ConvE p (p + 6)
    else emit (f64_of_f32 val) ConvF (Z.to_nat (Z.min precision 3)) 0
  else
    let negative := f64_ltb val f64_zero in
    let val := if negative then f64_opp val else val in
    let whole := f64_to_int (- 2 ^ 31) (2 ^ 31 - 1) val in
    let ftemp := f32_sub val (f32_of_Z whole) in
    let fplace_full := default 0 (FRAC_MULTIPLIER !! Z.to_nat precision) in
    let scaled := f64_to_int (- 2 ^ 31) (2 ^ 31 - 1)
                    (f32_mul (f32_mul ftemp (f32_of_Z fplace_full)) (f32_of_Z 10)) in
    (if negative then [45] else [])
    ++ round_and_write whole scaled fplace_full (Z.to_nat precision).
