(* ===== verification/Convert.v ===== *)
(** * Conversions between field types

    Models [epics-base-rs/src/types/c_cast.rs] and the conversion half of [types/value.rs]:
    the narrowing casts of C on x86-64, [Scalar] with its rows, the put table [convert_to] and
    the get table [get_convert].  Both tables are total over every variant and every target;
    a get can fail on text. *)
From Stdlib Require Import SpecFloat.
From stdpp Require Import base tactics numbers list option strings.
From S2P Require Import Prelude Dbr Float64 Float64Theory Strtod Strtol PvaText Value CParse.
From S2P Require Import Float32 CFmt.

Open Scope Z_scope.

(** ** [c_cast.rs] *)

(** [cvttsd2si32] is in [Float64]. *)
Definition cvttsd2si64 (v : f64) : Z :=
  if f64_geb v (f64_of_Z (-9223372036854775808)) && f64_ltb v (f64_of_Z 9223372036854775808)
  then f64_to_int (- 2 ^ 63) (2 ^ 63 - 1) v else - 2 ^ 63.

Definition cast_i32 (v : f64) : Z := cvttsd2si32 v.
Definition cast_i64 (v : f64) : Z := cvttsd2si64 v.
Definition cast_i8 (v : f64) : Z := swrap 8 (cvttsd2si32 v).
Definition cast_u8 (v : f64) : Z := wrap 8 (cvttsd2si32 v).
Definition cast_i16 (v : f64) : Z := swrap 16 (cvttsd2si32 v).
Definition cast_u16 (v : f64) : Z := wrap 16 (cvttsd2si32 v).
Definition cast_u32 (v : f64) : Z := wrap 32 (cvttsd2si64 v).
Definition cast_u64 (v : f64) : Z :=
  if f64_geb v (f64_of_Z (2 ^ 63))
  then Z.lxor (wrap 64 (cvttsd2si64 (f64_sub v (f64_of_Z (2 ^ 63))))) (2 ^ 63)
  else wrap 64 (cvttsd2si64 v).

(** [f64_to_f32]: zero and the non-finite as they are, a finite magnitude clamped to
    [FLT_MIN] and [FLT_MAX]. *)
Definition cast_f32 (v : f64) : f32 :=
  if f64_eqb v f64_zero || negb (f64_is_finite v) then f32_of_f64 v
  else
    let a := f64_abs v in
    let signed (m : f64) := f32_of_f64 (if f64_gtb v f64_zero then m else f64_opp m) in
    if f64_geb a F32_MAX then signed F32_MAX
    else if f64_leb a F32_MIN_POSITIVE then signed F32_MIN_POSITIVE
    else f32_of_f64 v.

(** ** [Scalar] *)

Inductive Scalar : Type := SInt (i : Z) | SU64 (u : Z) | SF32 (f : f32) | SFloat (f : f64).

Definition scalar_int (s : Scalar) : option Z :=
  match s with SInt i => Some i | SU64 u => Some (swrap 64 u) | SF32 _ | SFloat _ => None end.

Definition scalar_f64 (s : Scalar) : f64 :=
  match s with
  | SInt i => f64_of_Z i
  | SU64 u => f64_of_Z u
  | SF32 f => f64_of_f32 f
  | SFloat f => f
  end.

Definition scalar_f32 (s : Scalar) : f32 :=
  match s with SF32 f => f | _ => cast_f32 (scalar_f64 s) end.

(** A row of the table: an integer source keeps its low bits, a float takes the cast. *)
Definition scalar_row (s : Scalar) (cast : f64 -> Z) (low : Z -> Z) : Z :=
  match scalar_int s with Some i => low i | None => cast (scalar_f64 s) end.

Definition scalar_i8 (s : Scalar) : Z := scalar_row s cast_i8 (swrap 8).
Definition scalar_u8 (s : Scalar) : Z := scalar_row s cast_u8 (wrap 8).
Definition scalar_i16 (s : Scalar) : Z := scalar_row s cast_i16 (swrap 16).
Definition scalar_u16 (s : Scalar) : Z := scalar_row s cast_u16 (wrap 16).
Definition scalar_i32 (s : Scalar) : Z := scalar_row s cast_i32 (swrap 32).
Definition scalar_u32 (s : Scalar) : Z := scalar_row s cast_u32 (wrap 32).
Definition scalar_i64 (s : Scalar) : Z := scalar_row s cast_i64 id.
Definition scalar_u64 (s : Scalar) : Z := scalar_row s cast_u64 (wrap 64).

Definition to_field (s : Scalar) (target : DbFieldType) : option EpicsValue :=
  match target with
  | DString => None
  | Double => Some (VDouble (scalar_f64 s))
  | Float => Some (VFloat (scalar_f32 s))
  | Short => Some (VShort (scalar_i16 s))
  | Enum => Some (VEnum (scalar_u16 s))
  | Char => Some (VChar (wrap 8 (scalar_i8 s)))
  | Long => Some (VLong (scalar_i32 s))
  | Int64 => Some (VInt64 (scalar_i64 s))
  | UInt64 => Some (VUInt64 (scalar_u64 s))
  | UShort => Some (VUShort (scalar_u16 s))
  | ULong => Some (VULong (scalar_u32 s))
  | UChar => Some (VUChar (scalar_u8 s))
  end.

(** ** [EpicsValue] *)

Definition num (v : EpicsValue) : option Scalar :=
  match v with
  | VDouble v => Some (SFloat v)
  | VFloat v => Some (SF32 v)
  | VUInt64 v => Some (SU64 v)
  | VShort v | VEnum v | VUShort v | VLong v | VInt64 v | VULong v | VUChar v => Some (SInt v)
  | VChar v => Some (SInt (swrap 8 v))
  | _ => None
  end.

Definition as_f64_array (v : EpicsValue) : option (list f64) :=
  match v with
  | VShortArray a | VEnumArray a | VLongArray a | VInt64Array a | VUInt64Array a
  | VUShortArray a | VULongArray a | VUCharArray a => Some (map f64_of_Z a)
  | VFloatArray a => Some (map f64_of_f32 a)
  | VDoubleArray a => Some a
  | VStringArray a =>
      Some (map (fun s => default f64_zero (parse_string_to_f64 (from_utf8_lossy s))) a)
  | _ => None
  end.

Definition as_int_i64_array (v : EpicsValue) : option (list Z) :=
  match v with
  | VShortArray a | VEnumArray a | VLongArray a | VInt64Array a | VUShortArray a
  | VULongArray a | VUCharArray a => Some a
  | VUInt64Array a => Some (map (swrap 64) a)
  | _ => None
  end.

(** [None] is the [unreachable!] of a value that is text already. *)
Definition element_texts (v : EpicsValue) : option (list PvString) :=
  match v with
  | VUInt64Array a => Some (map show_Z a)
  | VFloatArray a => Some (map (fun f => cvt_float_to_string f 6) a)
  | VDoubleArray a => Some (map (fun f => cvt_double_to_string f 6) a)
  | _ => map show_Z <$> as_int_i64_array v
  end.

(** [nul_terminated]. *)
Definition nul_terminated (chars : list Z) : list Z :=
  fst (span (fun c => negb (c =? 0)) chars).

(** [enum_index_label]. *)
Definition enum_index_label (choices : list PvString) (index : Z) : PvString :=
  match choices !! Z.to_nat index with Some label => label | None => show_Z index end.

(** The rows of an array with a numeric view: the integers where the source has them. *)
Definition array_rows (v : EpicsValue) (nums : list f64) (target : DbFieldType)
  : option EpicsValue :=
  let scalars := match as_int_i64_array v with
                 | Some ints => map SInt ints
                 | None => map SFloat nums
                 end in
  match target with
  | Short => Some (VShortArray (map scalar_i16 scalars))
  | Float => Some (VFloatArray (map (fun v => scalar_f32 (SFloat v)) nums))
  | Enum => Some (VEnumArray (map scalar_u16 scalars))
  | Long => Some (VLongArray (map scalar_i32 scalars))
  | Double => Some (VDoubleArray nums)
  | Int64 => Some (VInt64Array (map scalar_i64 scalars))
  | UInt64 => Some (VUInt64Array (map scalar_u64 scalars))
  | UShort => Some (VUShortArray (map scalar_u16 scalars))
  | ULong => Some (VULongArray (map scalar_u32 scalars))
  | Char => Some (VCharArray (map (fun s => wrap 8 (scalar_i8 s)) scalars))
  | UChar => Some (VUCharArray (map scalar_u8 scalars))
  | DString => VStringArray <$> element_texts v
  end.

(** The rows of a signed byte array. *)
Definition char_rows (bytes : list Z) (target : DbFieldType) : EpicsValue :=
  let signed := map (swrap 8) bytes in
  match target with
  | Short => VShortArray signed
  | Float => VFloatArray (map f32_of_Z signed)
  | Enum => VEnumArray (map (wrap 16) signed)
  | Long => VLongArray signed
  | Double => VDoubleArray (map f64_of_Z signed)
  | Int64 => VInt64Array signed
  | UInt64 => VUInt64Array (map (wrap 64) signed)
  | UShort => VUShortArray (map (wrap 16) signed)
  | ULong => VULongArray (map (wrap 32) signed)
  | DString => VString (nul_terminated bytes)
  | Char => VCharArray bytes
  | UChar => VUCharArray bytes
  end.

(** The last match of [convert_other]: [None] is its [unreachable!] or [expect]. *)
Definition convert_rest (v : EpicsValue) (target : DbFieldType) : option EpicsValue :=
  match target, v with
  | Char, VString s => Some (VCharArray s)
  | UChar, VString s => Some (VUCharArray s)
  | DString, VFloat f => Some (VString (cvt_float_to_string f 6))
  | DString, VDouble f => Some (VString (cvt_double_to_string f 6))
  | DString, _ =>
      match num v with
      | Some (SInt i) => Some (VString (show_Z i))
      | Some (SU64 u) => Some (VString (show_Z u))
      | _ => None
      end
  | _, _ => to_field (default (SFloat (default f64_zero (to_f64 v))) (num v)) target
  end.

(** [convert_other], for a value that is not the enum carrier. *)
Definition convert_plain (v : EpicsValue) (target : DbFieldType) : option EpicsValue :=
  if decide (db_field_type v = target) then Some v
  else
    match as_f64_array v with
    | Some nums => array_rows v nums target
    | None =>
        match v with
        | VCharArray bytes => Some (char_rows bytes target)
        | _ => convert_rest v target
        end
    end.

Definition convert_to (v : EpicsValue) (target : DbFieldType) : option EpicsValue :=
  match num v ≫= fun n => to_field n target with
  | Some w => Some w
  | None =>
      match v with
      | VEnumWithChoices index choices =>
          match target with
          | DString => Some (VString (enum_index_label choices index))
          | _ => to_field (SInt index) target
          end
      | _ => convert_plain v target
      end
  end.

Section Get.
Context `{CLong}.

(** [get_convert]'s text rows; [UShort] stands for the [DBR_ENUM] column too. *)
Definition get_text (v : EpicsValue) (row : NumericField) : option (result Refused EpicsValue) :=
  match v with
  | VString s => Some (get_string row (from_utf8_lossy s))
  | VStringArray a => Some (get_string_array row a)
  | _ => None
  end.

Definition as_enum (v : EpicsValue) : EpicsValue :=
  match v with
  | VUShortArray a => VEnumArray a
  | VUShort x => VEnum x
  | other => other
  end.

(** [get_convert]; the outer [None] is a panic of [convert_to]. *)
Definition get_convert (v : EpicsValue) (target : DbFieldType)
  : option (result Refused EpicsValue) :=
  match num v ≫= fun n => to_field n target with
  | Some w => Some (Ok w)
  | None =>
      match target, v with
      | DString, VCharArray bytes => Some (Ok (VStringArray (map (fun b => show_Z (swrap 8 b)) bytes)))
      | DString, VUCharArray bytes => Some (Ok (VStringArray (map show_Z bytes)))
      | _, _ =>
          match NumericField_of target ≫= get_text v with
          | Some r => Some r
          | None =>
              match target, get_text v FUShort with
              | Enum, Some r => Some (as_enum <$> r)
              | _, _ => Ok <$> convert_to v target
              end
          end
      end
  end.

End Get.
