(* ===== verification/ConvertTheory.v ===== *)
(** * Conversions between field types: totality, type, count and range

    A get reaches no panic, gives a value of the requested type with as many elements as the
    source, and every number in it is one the type can hold; it fails exactly on text its row
    refuses, and integers that the target holds are kept. *)
From Stdlib Require Import SpecFloat.
From stdpp Require Import base tactics numbers list option strings.
From S2P Require Import Prelude Dbr Float64 Float64Theory Strtod Strtol PvaText Value CParse.
From S2P Require Import Float32 CFmt Convert.

Open Scope Z_scope.

(** ** Well-formed values *)

Definition is_sint (w x : Z) : Prop := - 2 ^ (w - 1) <= x < 2 ^ (w - 1).

(** What the variants of the source can hold. *)
Definition value_ok (v : EpicsValue) : Prop :=
  match v with
  | VShort x => is_sint 16 x
  | VLong x => is_sint 32 x
  | VInt64 x => is_sint 64 x
  | VChar x | VUChar x => is_u8 x
  | VEnum x | VUShort x => is_u16 x
  | VEnumWithChoices x _ => is_u16 x
  | VULong x => is_u32 x
  | VUInt64 x => is_u64 x
  | VFloat f => f32_valid f = true
  | VDouble f => f64_valid f = true
  | VShortArray a => Forall (is_sint 16) a
  | VLongArray a => Forall (is_sint 32) a
  | VInt64Array a => Forall (is_sint 64) a
  | VCharArray a | VUCharArray a => Forall is_u8 a
  | VEnumArray a | VUShortArray a => Forall is_u16 a
  | VULongArray a => Forall is_u32 a
  | VUInt64Array a => Forall is_u64 a
  | VFloatArray a => Forall (fun f => f32_valid f = true) a
  | VDoubleArray a => Forall (fun f => f64_valid f = true) a
  | VString _ | VStringArray _ => True
  end.

(** ** Text gives canonical doubles *)

Lemma hex_to_f64_valid h : f64_valid (fst (hex_to_f64 h)) = true.
Proof.
  unfold hex_to_f64. repeat case_match; try done; cbn [fst].
  all: apply f64_mul_valid; [apply f64_of_Z_valid|].
  all: unfold pow2; case_match; apply f64_of_bits_valid.
Qed.

Lemma decimal_valid s v n e : decimal s = Some (v, n, e) -> f64_valid v = true.
Proof.
  unfold decimal. destruct (span _ s) as [whole rest]. destruct (match rest with [] => _ | _ => _ end) as [[frac ?] ?].
  destruct (whole ++ frac); [done|]. destruct (match _ with [] => _ | _ => _ end) as [ex ?].
  intros [= <- _ _]. apply f64_of_decimal_valid.
Qed.

Lemma magnitude_valid s v n e : magnitude s = Some (v, n, e) -> f64_valid v = true.
Proof.
  unfold magnitude. case_match; [by intros [= <- _ _]|]. case_match; [by intros [= <- _ _]|].
  destruct s as [|z [|x [|c s]]]; try apply decimal_valid.
  case_match; [|apply decimal_valid]. intros Hv.
  assert (f64_valid (fst (fst (hex (z :: x :: c :: s)))) = true) as Hh;
    [|injection Hv as Hv; by rewrite Hv in Hh].
  clear. unfold hex. repeat (case_match; simplify_eq; [..]); try done.
  all: match goal with H : hex_to_f64 ?h = _ |- _ => pose proof (hex_to_f64_valid h) as Hx; by rewrite H in Hx end.
Qed.

Lemma strtod_valid s : f64_valid (std_value (strtod s)) = true.
Proof.
  unfold strtod. destruct (span _ s) as [space rest].
  destruct (match rest with [] => _ | _ => _ end) as [[negative i] rest'].
  destruct (magnitude rest') as [[[m n] e]|] eqn:E; [|done]. apply magnitude_valid in E.
  destruct negative; cbn [std_value]; by rewrite ?f64_opp_valid.
Qed.

Lemma parse_double_valid s v : parse_double s = Some v -> f64_valid v = true.
Proof.
  unfold parse_double, epics_parse_double_units. intros Hv. repeat case_match; simplify_eq.
  all: apply strtod_valid.
Qed.

Lemma parse_string_to_f64_valid s v : parse_string_to_f64 s = Some v -> f64_valid v = true.
Proof.
  unfold parse_string_to_f64. destruct (match strip_prefix [45] _ with Some _ => _ | None => _ end) as [neg body].
  destruct (_ ≫= hex_u64) as [x|].
  - intros [= <-]. apply f64_mul_valid; [|apply f64_of_Z_valid].
    by destruct neg.
  - assert (Hu : forall t w, parse_f64_unsigned t = Some w -> f64_valid w = true).
    { intros t w. unfold parse_f64_unsigned. case_match; [by intros [= <-]|]. case_match; [by intros [= <-]|].
      destruct (decimal t) as [[[d n] e]|] eqn:E; [|done]. case_match; [|done]. intros [= <-].
      by apply decimal_valid in E. }
    unfold parse_f64. destruct (trim s) as [|c r]; [done|]. case_match; [|apply Hu].
    intros (w & Hw & ->)%fmap_Some. rewrite f64_opp_valid. by eapply Hu.
Qed.

(** ** Rows *)

Lemma is_sint_swrap w x : 0 < w -> is_sint w (swrap w x).
Proof. apply swrap_range. Qed.

Lemma cast_i32_ok f : is_sint 32 (cast_i32 f).
Proof.
  unfold cast_i32, cvttsd2si32, f64_to_i32, is_sint. case_match; [|lia].
  pose proof (f64_to_int_range (- 2 ^ 31) (2 ^ 31 - 1) f ltac:(lia)). lia.
Qed.

Lemma cast_i64_ok f : is_sint 64 (cast_i64 f).
Proof.
  unfold cast_i64, cvttsd2si64, is_sint. case_match; [|lia].
  pose proof (f64_to_int_range (- 2 ^ 63) (2 ^ 63 - 1) f ltac:(lia)). lia.
Qed.

Lemma cast_u64_ok f : is_u64 (cast_u64 f).
Proof.
  unfold cast_u64. case_match; [|by apply wrap_range].
  set (x := wrap 64 _). assert (Hx : is_u64 x) by (by apply wrap_range). unfold is_uint in *.
  assert (Hn : 0 <= Z.lxor x (2 ^ 63)) by (apply Z.lxor_nonneg; lia).
  split; [done|]. destruct (Z.eq_dec (Z.lxor x (2 ^ 63)) 0) as [->|Hz]; [lia|].
  apply Z.log2_lt_pow2; [lia|]. eapply Z.le_lt_trans; [apply Z.log2_lxor; lia|].
  assert (Z.log2 x < 64) by (destruct (Z.eq_dec x 0) as [->|]; [done|apply Z.log2_lt_pow2; lia]).
  change (Z.log2 (2 ^ 63)) with 63. lia.
Qed.

Lemma cast_f32_valid f : f32_valid (cast_f32 f) = true.
Proof. unfold cast_f32. repeat case_match; apply f32_of_f64_valid. Qed.

(** A scalar as [num] makes one: an integer source is an [i64]. *)
Definition scalar_ok (s : Scalar) : Prop :=
  match s with
  | SInt i => is_sint 64 i
  | SU64 _ => True
  | SF32 f => f32_valid f = true
  | SFloat f => f64_valid f = true
  end.

Lemma scalar_row_ok (P : Z -> Prop) s cast low :
  (forall f, P (cast f)) -> (forall i, P (low i)) -> P (scalar_row s cast low).
Proof. intros Hc Hl. unfold scalar_row. by case_match. Qed.

Lemma scalar_f64_valid s : scalar_ok s -> f64_valid (scalar_f64 s) = true.
Proof. destruct s; cbn; auto using f64_of_Z_valid, f64_of_f32_valid. Qed.

Lemma scalar_f32_valid s : scalar_ok s -> f32_valid (scalar_f32 s) = true.
Proof. destruct s; cbn [scalar_f32 scalar_ok]; auto using cast_f32_valid. Qed.

Lemma scalar_i64_ok s : scalar_ok s -> is_sint 64 (scalar_i64 s).
Proof.
  unfold scalar_i64, scalar_row. destruct s; cbn; auto using cast_i64_ok. intros _. by apply is_sint_swrap.
Qed.

Create HintDb rows.
#[export] Hint Resolve cast_i32_ok cast_i64_ok cast_u64_ok cast_f32_valid scalar_f64_valid
  scalar_f32_valid scalar_i64_ok f64_of_Z_valid f64_of_f32_valid f32_of_f64_valid : rows.

Lemma scalar_narrow_ok s :
  is_sint 8 (scalar_i8 s) /\ is_u8 (scalar_u8 s) /\ is_sint 16 (scalar_i16 s) /\
  is_u16 (scalar_u16 s) /\ is_sint 32 (scalar_i32 s) /\ is_u32 (scalar_u32 s) /\ is_u64 (scalar_u64 s).
Proof.
  unfold scalar_i8, scalar_u8, scalar_i16, scalar_u16, scalar_i32, scalar_u32, scalar_u64.
  split_and!; match goal with |- ?P (scalar_row _ _ _) => apply (scalar_row_ok P) end; intros x;
    try (by apply is_sint_swrap); try (by apply wrap_range); auto with rows.
Qed.

(** One row: the value has the target's type and range. *)
Lemma to_field_ok s target w :
  scalar_ok s -> to_field s target = Some w -> value_ok w /\ db_field_type w = target /\ elements w = 1.
Proof.
  intros Hs. destruct (scalar_narrow_ok s) as (?&?&?&?&?&?&?).
  destruct target; intros [= <-]; split_and!; try done; cbn [value_ok]; auto with rows.
  by apply wrap_range.
Qed.

Lemma num_ok v s : value_ok v -> num v = Some s -> scalar_ok s.
Proof.
  destruct v; cbn; intros Hv [= <-]; cbn [scalar_ok]; try done;
    try (unfold is_sint, is_uint in *; lia).
  pose proof (is_sint_swrap 8 v ltac:(lia)). unfold is_sint in *. lia.
Qed.

(** ** Arrays *)

Lemma len_map {A B} (f : A -> B) l : len (map f l) = len l.
Proof. by rewrite length_map. Qed.

Lemma Forall_map_all {A B} (P : B -> Prop) (f : A -> B) l : (forall x, P (f x)) -> Forall P (map f l).
Proof. intros H. apply Forall_map. by apply Forall_true. Qed.

Lemma as_f64_array_ok v nums :
  value_ok v -> as_f64_array v = Some nums ->
  Forall (fun f => f64_valid f = true) nums /\ elements v = len nums.
Proof.
  destruct v; cbn; intros Hv [= <-]; rewrite ?len_map; split; try done;
    apply Forall_map_all; auto with rows.
  intros s. destruct (parse_string_to_f64 _) eqn:E; [|done]. by apply parse_string_to_f64_valid in E.
Qed.

Lemma as_int_i64_array_ok v ints :
  value_ok v -> as_int_i64_array v = Some ints ->
  Forall (is_sint 64) ints /\ elements v = len ints.
Proof.
  destruct v; cbn; intros Hv [= <-]; rewrite ?len_map; split; try done;
    try (by apply Forall_map_all; intros; apply is_sint_swrap);
    (eapply Forall_impl; [exact Hv|]); intros x Hx; cbn in Hx; unfold is_sint, is_uint in *; lia.
Qed.

Definition is_text (v : EpicsValue) : bool :=
  match v with VString _ | VStringArray _ => true | _ => false end.

(** What a conversion of [v] to [target] must be. *)
Definition converts (v : EpicsValue) (target : DbFieldType) (w : EpicsValue) : Prop :=
  value_ok w /\ db_field_type w = target /\ elements w = elements v.

Lemma array_rows_ok v nums target :
  value_ok v -> as_f64_array v = Some nums -> db_field_type v <> target ->
  exists w, array_rows v nums target = Some w /\ converts v target w.
Proof.
  intros Hv Hn Ht. destruct (as_f64_array_ok v nums Hv Hn) as [Hf Hc].
  set (scalars := match as_int_i64_array v with Some ints => map SInt ints | None => map SFloat nums end).
  assert (Forall scalar_ok scalars /\ elements v = len scalars) as [Hs Hl].
  { subst scalars. destruct (as_int_i64_array v) as [ints|] eqn:Ei.
    - destruct (as_int_i64_array_ok v ints Hv Ei) as [H1 H2]. rewrite len_map. split; [|done]. by apply Forall_map.
    - rewrite len_map. split; [|done]. by apply Forall_map. }
  assert (Hm : forall (P : Z -> Prop) f, (forall s, scalar_ok s -> P (f s)) -> Forall P (map f scalars)).
  { intros P f HP. apply Forall_map. eapply Forall_impl; [exact Hs|exact HP]. }
  unfold array_rows, converts. fold scalars. pose proof scalar_narrow_ok as Hr.
  destruct target; try (eexists; split; [reflexivity|]; cbn [value_ok db_field_type elements]; rewrite ?len_map;
    split_and!; try done; apply Hm; intros s Hk; destruct (Hr s) as (?&?&?&?&?&?&?); auto with rows;
    by apply wrap_range).
  - destruct (element_texts v) as [texts|] eqn:E.
    + eexists; split; [reflexivity|]. split_and!; [done|done|]. cbn [elements].
      destruct v; try done; cbn in E, Hn; simplify_eq; by rewrite len_map.
    + exfalso. by destruct v.
  - eexists; split; [reflexivity|]. cbn [value_ok elements]. rewrite len_map. split_and!; [|done|done].
    apply Forall_map. eapply Forall_impl; [exact Hf|]. intros f Hk. apply scalar_f32_valid. exact Hk.
Qed.

Lemma char_rows_ok bytes target :
  Forall is_u8 bytes -> db_field_type (VCharArray bytes) <> target -> target <> DString ->
  converts (VCharArray bytes) target (char_rows bytes target).
Proof.
  intros Hb Ht Hs. assert (Hw : forall (P : Z -> Prop), (forall x, is_sint 8 x -> P x) ->
    Forall P (map (swrap 8) bytes)).
  { intros P HP. apply Forall_map_all. intros x. apply HP. by apply is_sint_swrap. }
  unfold converts. destruct target; try done; cbn [char_rows value_ok db_field_type elements];
    rewrite ?map_map, ?len_map; split_and!; try done;
    try (apply Hw; unfold is_sint; lia);
    apply Forall_map_all; intros x; first [by apply wrap_range|by apply f64_of_Z_valid|by apply binary_normalize_valid].
Qed.

(** ** Text rows *)

Section Get.
Context `{CLong}.

Lemma get_string_ok row s w :
  get_string row s = Ok w -> value_ok w /\ fits row w.
Proof.
  intros Hg. assert (Hf : fits row w).
  { unfold get_string in Hg. destruct s; [injection Hg as <-; apply zero_fits|].
    destruct (parse row _) eqn:E; simplify_eq. by apply parse_fits in E. }
  split; [|done]. destruct row, w; try done; cbn [fits value_ok] in *; unfold is_sint, is_uint in *; try lia.
  all: unfold get_string in Hg; destruct s; [by injection Hg as <-|].
  all: destruct (parse _ _) as [x| |] eqn:E; simplify_eq; unfold parse, row_stored in E;
    cbn [parse_two_way] in E; case_decide; try done; case_match; simplify_eq.
  - match goal with H : _ = Some _ |- _ => apply bind_Some in H as (d & _ & (f & Hn & E)%fmap_Some) end.
    simplify_eq. unfold narrow_to_f32 in Hn. repeat case_match; simplify_eq. apply f32_of_f64_valid.
  - match goal with H : _ = Some _ |- _ => apply fmap_Some in H as (d & Hd & E) end.
    simplify_eq. by apply parse_double_valid in Hd.
Qed.

(** The type of a row. *)
Definition row_type (row : NumericField) : DbFieldType :=
  match row with
  | FChar => Char | FUChar => UChar | FShort => Short | FUShort => UShort | FLong => Long
  | FULong => ULong | FInt64 => Int64 | FUInt64 => UInt64 | FFloat => Float | FDouble => Double
  end.

Lemma NumericField_of_type t row : NumericField_of t = Some row -> row_type row = t.
Proof. by destruct t; intros [= <-]. Qed.

Lemma collect_gets_ok {T} row (element : EpicsValue -> option T) (P : T -> Prop) elems :
  (forall s w x, get_string row s = Ok w -> element w = Some x -> P x) ->
  forall out l, Forall P out -> collect_gets row element elems out = Ok l ->
    Forall P l /\ length l = (length out + length elems)%nat.
Proof.
  intros HP. induction elems as [|t elems IH]; intros out l Ho; cbn [collect_gets].
  - intros [= <-]. split; [done|]. cbn. lia.
  - destruct (get_string row _) as [w|] eqn:E; [|done]. destruct (element w) as [x|] eqn:Ex; [|done].
    intros Hc. apply IH in Hc as [H1 H2]; [|apply Forall_app_2; [done|]; constructor; [by eapply HP|done]].
    split; [done|]. rewrite H2, length_app. cbn. lia.
Qed.

Lemma get_string_array_ok row a w :
  get_string_array row a = Ok w ->
  value_ok w /\ db_field_type w = row_type row /\ elements w = elements (VStringArray a).
Proof.
  assert (Hz : forall (P : Z -> Prop) l,
    (forall w x, value_ok w -> scalar_Z row w = Some x -> P x) ->
    collect_gets row (scalar_Z row) a [] = Ok l -> Forall P l /\ length l = length a).
  { intros P l HP. apply (collect_gets_ok row _ P); [|done]. intros s v x [Hk _]%get_string_ok. by apply HP. }
  assert (Hf : forall (P : spec_float -> Prop) l,
    (forall w x, value_ok w -> scalar_f row w = Some x -> P x) ->
    collect_gets row (scalar_f row) a [] = Ok l -> Forall P l /\ length l = length a).
  { intros P l HP. apply (collect_gets_ok row _ P); [|done]. intros s v x [Hk _]%get_string_ok. by apply HP. }
  unfold get_string_array. destruct row.
  all: match goal with |- _ <$> ?c = _ -> _ => destruct c as [l|] eqn:E; [|done]; intros [= <-] end.
  all: cbn [value_ok db_field_type row_type elements];
    match goal with |- Forall ?P ?l /\ _ =>
      first [destruct (Hz P l) as [E1 E2]|destruct (Hf P l) as [E1 E2]];
      [intros w x Hw; destruct w; cbn; try done; intros [= <-]; exact Hw|reflexivity|by rewrite E2]
    end.
Qed.

Lemma get_text_ok v row r w :
  get_text v row = Some r -> r = Ok w ->
  value_ok w /\ db_field_type w = row_type row /\ elements w = elements v.
Proof.
  destruct v; cbn [get_text]; intros [= <-]; [|apply get_string_array_ok].
  intros [Hw Hf]%get_string_ok. split; [done|]. by destruct row, w.
Qed.

(** ** The two tables *)

Lemma num_none v : num v = None ->
  (exists index choices, v = VEnumWithChoices index choices) \/ (exists s, v = VString s) \/
  (exists nums, as_f64_array v = Some nums) \/ (exists bytes, v = VCharArray bytes).
Proof. destruct v; try done; cbn; eauto 6. Qed.

(** A put of anything but text that is no array: only the count of a signed byte array changes,
    and only when it becomes text. *)
Lemma convert_to_ok v target :
  value_ok v -> (forall s, v <> VString s) -> (forall bytes, v = VCharArray bytes -> target <> DString) ->
  exists w, convert_to v target = Some w /\ (converts v target w).
Proof.
  intros Hv Hs Hb. unfold convert_to.
  destruct (num v ≫= _) as [w|] eqn:E.
  { apply bind_Some in E as (n & Hn & Hw). exists w. split; [done|].
    destruct (to_field_ok n target w (num_ok v n Hv Hn) Hw) as (?&?&?).
    split_and!; try done. by destruct v. }
  destruct (num v) as [n|] eqn:En.
  { cbn in E. destruct target; try done. destruct v; try done; eexists; (split; [reflexivity|]); done. }
  destruct (num_none v En) as [(ix & ch & ->)|[[s ->]|[[nums Hn]|[bytes ->]]]].
  - destruct (decide (target = DString)) as [->|Ht]; [by eexists|].
    destruct (to_field (SInt ix) target) as [w|] eqn:Ew; [|by destruct target].
    destruct (to_field_ok (SInt ix) target w) as (?&?&?); [|done|].
    { cbn in *. unfold is_sint, is_uint in *. lia. }
    exists w. split; [by destruct target|]. by split_and!.
  - by destruct (Hs s).
  - assert (Hp : exists w, convert_plain v target = Some w /\ converts v target w); [|by destruct v].
    unfold convert_plain. case_decide as Ht; [by exists v|]. rewrite Hn. by apply array_rows_ok.
  - unfold convert_plain. case_decide as Ht; [by eexists|]. cbn [as_f64_array].
    eexists. split; [done|]. by apply char_rows_ok; [|done|eapply Hb].
Qed.

(** The row a text is read with, and whether it refuses it. *)
Definition text_row (target : DbFieldType) : option NumericField :=
  match target with Enum => Some FUShort | _ => NumericField_of target end.

Definition row_refuses (row : NumericField) (t : PvString) : bool :=
  match get_string row (from_utf8_lossy t) with Ok _ => false | Err _ => true end.

Definition texts (v : EpicsValue) : list PvString :=
  match v with VString s => [s] | VStringArray a => a | _ => [] end.

(** Some text of [v] is no number of the type. *)
Definition unreadable (v : EpicsValue) (target : DbFieldType) : bool :=
  match text_row target with
  | Some row => existsb (row_refuses row) (texts v)
  | None => false
  end.

Lemma collect_gets_refuses {T} row (element : EpicsValue -> option T) elems :
  (forall s w, get_string row s = Ok w -> is_Some (element w)) ->
  forall out, match collect_gets row element elems out with
              | Ok _ => existsb (row_refuses row) elems = false
              | Err _ => existsb (row_refuses row) elems = true
              end.
Proof.
  intros He. induction elems as [|t elems IH]; intros out; [done|]. cbn [collect_gets existsb].
  unfold row_refuses at 1 3. destruct (get_string row _) as [w|] eqn:E; [|done].
  destruct (He _ _ E) as [x ->]. apply IH.
Qed.

Lemma get_string_array_refuses row a :
  match get_string_array row a with
  | Ok _ => existsb (row_refuses row) a = false
  | Err _ => existsb (row_refuses row) a = true
  end.
Proof.
  unfold get_string_array.
  destruct row; match goal with |- context [collect_gets ?r ?e ?l ?o] =>
    pose proof (collect_gets_refuses r e l
      ltac:(intros s w [_ Hf]%get_string_ok; destruct w; try done; by eexists) o) as Hc;
    by destruct (collect_gets r e l o) end.
Qed.

Lemma get_text_refuses v row r :
  get_text v row = Some r ->
  match r with Ok _ => existsb (row_refuses row) (texts v) = false
             | Err _ => existsb (row_refuses row) (texts v) = true end.
Proof.
  destruct v; cbn [get_text]; intros [= <-]; [|apply get_string_array_refuses].
  cbn [texts existsb]. rewrite orb_false_r. unfold row_refuses. by destruct (get_string row _).
Qed.

(** Text: the numeric rows, the [DBR_ENUM] column, and text itself. *)
Lemma get_convert_text v target :
  (forall row, is_Some (get_text v row)) ->
  match get_convert v target with
  | None => False
  | Some (Ok w) => converts v target w /\ unreadable v target = false
  | Some (Err _) => unreadable v target = true
  end.
Proof.
  intros Ht. assert (Hn : num v = None) by (destruct v; try done; by destruct (Ht FChar)).
  unfold get_convert, unreadable. rewrite Hn. cbn [mbind option_bind].
  destruct (NumericField_of target) as [row|] eqn:Er; cbn [mbind option_bind].
  - destruct (Ht row) as [r Hr]. rewrite Hr. pose proof (get_text_refuses _ _ _ Hr) as Hx.
    assert (Hrow : text_row target = Some row) by (by destruct target). rewrite Hrow.
    assert (Hw : match r with Ok w => converts v target w | Err _ => True end).
    { destruct r as [w|]; [|done]. destruct (get_text_ok _ _ _ _ Hr eq_refl) as (?&?&?).
      by apply NumericField_of_type in Er as <-. }
    destruct target, v; try done; by destruct r.
  - destruct (Ht FUShort) as [r Hr]. rewrite Hr. pose proof (get_text_refuses _ _ _ Hr) as Hx.
    destruct target; try done; [by destruct v; try (by destruct (Ht FChar))|].
    assert (Hw : match r with Ok w => converts v Enum (as_enum w) | Err _ => True end).
    { destruct r as [w|]; [|done]. destruct (get_text_ok _ _ _ w Hr eq_refl) as (H1&H2&H3).
      by destruct w; try done; split_and!. }
    destruct v; try done; by destruct r.
Qed.

Lemma get_convert_ok (v : EpicsValue) (target : DbFieldType) :
  value_ok v ->
  match get_convert v target with
  | None => False
  | Some (Ok w) => converts v target w /\ unreadable v target = false
  | Some (Err _) => unreadable v target = true
  end.
Proof.
  intros Hv. destruct (is_text v) eqn:Ht.
  { apply get_convert_text. intros row. by destruct v. }
  assert (Hr : unreadable v target = false).
  { unfold unreadable. destruct (text_row target); [|done]. by destruct v. }
  rewrite Hr. unfold get_convert. destruct (num v ≫= _) as [w|] eqn:E.
  { apply bind_Some in E as (n & Hn & Hw).
    destruct (to_field_ok n target w (num_ok v n Hv Hn) Hw) as (?&?&?). split_and!; try done. by destruct v. }
  assert (Hc : (forall s, v <> VString s) -> (forall b, v = VCharArray b -> target <> DString) ->
    match (Ok <$> convert_to v target : option (result Refused EpicsValue)) with
    | None => False | Some (Ok w) => converts v target w /\ false = false | Some (Err _) => false = true end).
  { intros H1 H2. destruct (convert_to_ok v target Hv H1 H2) as (w & -> & Hw). by split. }
  destruct v; try done;
    destruct target; cbn [NumericField_of mbind option_bind get_text];
    try exact (Hc ltac:(done) ltac:(done)); try done.
  all: unfold converts; cbn [value_ok db_field_type elements]; by rewrite ?len_map.
Qed.

(** ** Integers *)

(** The integers a value holds, where it holds integers. *)
Definition int_contents (v : EpicsValue) : option (list Z) :=
  match v with
  | VShort x | VLong x | VInt64 x | VUChar x | VEnum x | VUShort x | VULong x | VUInt64 x
  | VEnumWithChoices x _ => Some [x]
  | VChar x => Some [swrap 8 x]
  | VShortArray a | VLongArray a | VInt64Array a | VUCharArray a | VEnumArray a | VUShortArray a
  | VULongArray a | VUInt64Array a => Some a
  | VCharArray a => Some (map (swrap 8) a)
  | VFloat _ | VDouble _ | VFloatArray _ | VDoubleArray _ | VString _ | VStringArray _ => None
  end.

(** A value that says [zs]: it holds those integers, or their decimal texts. *)
Definition says (v : EpicsValue) (zs : list Z) : Prop :=
  int_contents v = Some zs \/ v = VStringArray (map show_Z zs) \/
  (exists z, v = VString (show_Z z) /\ zs = [z]).

Definition int_holds (target : DbFieldType) (z : Z) : Prop :=
  match target with
  | Char => is_sint 8 z | UChar => is_u8 z | Short => is_sint 16 z | UShort | Enum => is_u16 z
  | Long => is_sint 32 z | ULong => is_u32 z | Int64 => is_sint 64 z | UInt64 => is_u64 z
  | Float | Double | DString => False
  end.

Lemma sint_wrap w z : 0 < w -> is_sint w z -> swrap w (wrap w z) = z.
Proof. intros Hw Hz. rewrite swrap_wrap by done. by apply swrap_small. Qed.

(** A row of an integer source keeps an integer the target holds. *)
Lemma scalar_rows_keep target s z :
  (scalar_int s = Some z \/ scalar_int s = Some (swrap 64 z)) -> int_holds target z ->
  match target with
  | Char => scalar_i8 s = z | UChar => scalar_u8 s = z | Short => scalar_i16 s = z
  | UShort | Enum => scalar_u16 s = z | Long => scalar_i32 s = z | ULong => scalar_u32 s = z
  | UInt64 => scalar_u64 s = z | Int64 => scalar_i64 s = z
  | _ => True
  end.
Proof.
  intros Hi Hz. unfold scalar_i8, scalar_u8, scalar_i16, scalar_u16, scalar_i32, scalar_u32, scalar_u64, scalar_i64, scalar_row.
  destruct target; try done; cbn [int_holds] in Hz.
  all: destruct Hi as [-> | ->]; try (rewrite (swrap_small 64 z) by (unfold is_sint, is_uint in *; lia)).
  all: try (apply swrap_small; [lia|exact Hz]); try (apply wrap_small; exact Hz); try done.
  rewrite wrap_swrap by lia. by apply wrap_small.
Qed.

Lemma to_field_keeps target s z :
  (scalar_int s = Some z \/ scalar_int s = Some (swrap 64 z)) -> int_holds target z ->
  exists w, to_field s target = Some w /\ int_contents w = Some [z].
Proof.
  intros Hs Hz. pose proof (scalar_rows_keep target s z Hs Hz) as Hr.
  destruct target; try done; cbn [to_field]; (eexists; split; [reflexivity|]); cbn [int_contents];
    rewrite ?Hr; try done. by rewrite sint_wrap.
Qed.

Definition integer_type (target : DbFieldType) : bool :=
  match target with Float | Double | DString => false | _ => true end.

(** The rows of an integer array keep the integers the target holds. *)
Lemma array_rows_keep v nums ints zs target :
  integer_type target = true -> as_int_i64_array v = Some ints ->
  (ints = zs \/ ints = map (swrap 64) zs) -> Forall (int_holds target) zs ->
  exists w, array_rows v nums target = Some w /\ int_contents w = Some zs.
Proof.
  intros Ht Hi Hz Hh. unfold array_rows. rewrite Hi.
  assert (Hk : forall f : Scalar -> Z, (forall s z, (scalar_int s = Some z \/ scalar_int s = Some (swrap 64 z)) ->
      int_holds target z -> f s = z) -> map f (map SInt ints) = zs).
  { clear Hi. intros f Hf. rewrite map_map. destruct Hz as [-> | ->]; rewrite ?map_map.
    all: induction zs as [|z zs IH]; [done|]; inversion Hh; subst; cbn [map]; f_equal; [apply Hf; auto|by apply IH]. }
  pose proof (scalar_rows_keep target) as Hr.
  destruct target; try done; (eexists; split; [reflexivity|]); cbn [int_contents]; f_equal;
    try (apply Hk; exact Hr).
  rewrite map_map. apply Hk. intros s z H1 H2. rewrite (Hr s z H1 H2). by apply sint_wrap.
Qed.

Lemma char_rows_keep bytes target :
  integer_type target = true -> Forall (int_holds target) (map (swrap 8) bytes) -> Forall is_u8 bytes ->
  int_contents (char_rows bytes target) = Some (map (swrap 8) bytes).
Proof.
  intros Ht Hh Hb.
  assert (Hk : forall w, (forall z, int_holds target z -> wrap w z = z) ->
    map (wrap w) (map (swrap 8) bytes) = map (swrap 8) bytes).
  { intros w Hw. induction (map (swrap 8) bytes) as [|z zs IH]; [done|]. inversion Hh; subst. cbn [map].
    f_equal; [by apply Hw|by apply IH]. }
  destruct target; try done; cbn [char_rows int_contents]; rewrite ?Hk; try done; try (by intros; apply wrap_small).
  clear Hk. f_equal. induction bytes as [|b bytes IH]; [done|]. inversion Hh; inversion Hb; subst. cbn [map].
  f_equal; [|by apply IH]. cbn [int_holds] in *. symmetry. apply swrap_small; [lia|].
  match goal with H : is_uint 8 (swrap 8 b) |- _ => apply wrap_small in H as Hw end.
  rewrite wrap_swrap, wrap_small in Hw by (lia || done). rewrite Hw.
  pose proof (is_sint_swrap 8 b ltac:(lia)). by rewrite <- Hw in *.
Qed.

Lemma ascii_is_read l : Forall (fun c => 0 <= c < 128) l -> from_utf8_lossy l = l.
Proof.
  intros Hl. apply from_utf8_lossy_valid. induction Hl as [|c l Hc _ IH]; [done|].
  rewrite <- IH. apply (valid_utf8_step [c] 1 l); [|done]. unfold utf8_step. by rewrite (proj2 (Z.ltb_lt _ _)) by lia.
Qed.

Lemma show_Z_ascii z : from_utf8_lossy (show_Z z) = show_Z z.
Proof.
  apply ascii_is_read. assert (Hd : forall fuel n, 0 <= n -> Forall (fun c => 0 <= c < 128) (show_digits fuel n)).
  { induction fuel as [|fuel IH]; intros n Hn; [done|]. cbn [show_digits].
    destruct (Z.ltb_spec n 10); [repeat constructor; lia|]. apply Forall_app_2; [apply IH; apply Z.div_pos; lia|].
    pose proof (Z.mod_pos_bound n 10 ltac:(lia)). repeat constructor; lia. }
  unfold show_Z. destruct (Z.ltb_spec z 0); [constructor; [lia|]|]; apply Hd; lia.
Qed.

(** The row of an integer type reads the printed integers the type holds. *)
Lemma text_row_int target row z :
  text_row target = Some row -> int_holds target z ->
  exists lo hi, int_range row = Some (lo, hi) /\ lo <= z <= hi.
Proof.
  destruct target; intros [= <-] Hz; try done; cbn [int_holds] in Hz; unfold is_sint, is_uint in Hz;
    eexists _, _; (split; [reflexivity|]); lia.
Qed.

Lemma get_string_printed target row z :
  text_row target = Some row -> int_holds target z ->
  get_string row (from_utf8_lossy (show_Z z)) = Ok (int_value row z).
Proof.
  intros Hr Hz. destruct (text_row_int target row z Hr Hz) as (lo & hi & H1 & H2).
  rewrite show_Z_ascii. by apply (get_string_show row z lo hi).
Qed.

Lemma collect_gets_printed target row (enc : Z -> Z) zs :
  text_row target = Some row -> Forall (int_holds target) zs ->
  (forall z, scalar_Z row (int_value row z) = Some (enc z)) ->
  forall out, collect_gets row (scalar_Z row) (map show_Z zs) out = Ok (out ++ map enc zs).
Proof.
  intros Hr Hz He. induction Hz as [|z zs Hz _ IH]; intros out; cbn [map collect_gets]; [by rewrite app_nil_r|].
  rewrite (get_string_printed target row z Hr Hz), He, IH, <- app_assoc. done.
Qed.

Lemma get_text_printed target row v zs :
  integer_type target = true -> text_row target = Some row -> Forall (int_holds target) zs ->
  (v = VStringArray (map show_Z zs) \/ exists z, v = VString (show_Z z) /\ zs = [z]) ->
  exists w, get_text v row = Some (Ok w) /\ int_contents w = Some zs /\ (target = Enum -> int_contents (as_enum w) = Some zs).
Proof.
  intros Ht Hr Hz [-> |(z & -> & ->)]; cbn [get_text].
  - assert (Hid : map id zs = zs) by apply map_id.
    assert (Hc : map (swrap 8) (map (wrap 8) zs) = zs \/ target <> Char).
    { destruct (decide (target = Char)) as [->|]; [left|by right]. rewrite map_map. clear -Hz.
      induction Hz as [|z zs H _ IH]; [done|]. cbn [map]. f_equal; [by apply sint_wrap|done]. }
    pose proof (collect_gets_printed target row) as Hp.
    destruct target; try done; injection Hr as <-; unfold get_string_array;
      first [rewrite (Hp (wrap 8) zs) by done|rewrite (Hp id zs) by done];
      (eexists; split; [reflexivity|]); cbn [app int_contents as_enum]; rewrite ?Hid; try done.
    destruct Hc as [->|]; done.
  - inversion Hz as [|? ? Hh _]; subst. rewrite (get_string_printed target row z Hr Hh).
    eexists. split; [reflexivity|].
    destruct target; try done; injection Hr as <-; cbn [int_value int_contents as_enum]; try done.
    by rewrite sint_wrap.
Qed.

(** A get of integers, or of their decimal texts, as an integer type that holds them. *)
Lemma get_keeps_integers v target zs :
  value_ok v -> integer_type target = true -> says v zs -> Forall (int_holds target) zs ->
  exists w, get_convert v target = Some (Ok w) /\ int_contents w = Some zs.
Proof.
  intros Hv Ht Hs Hz. assert (Hrow : exists row, text_row target = Some row) by (destruct target; try done; by eexists).
  destruct Hrow as [row Hrow]. destruct Hs as [Hi|Htext]; cycle 1.
  { destruct (get_text_printed target row v zs Ht Hrow Hz Htext) as (w & Hw & Hc & He).
    assert (Hn : num v = None) by (by destruct Htext as [->|(z & -> & _)]). unfold get_convert. rewrite Hn.
    destruct target; try done; injection Hrow as <-; cbn [mbind option_bind NumericField_of]; rewrite Hw; eauto. }
  unfold get_convert. destruct (num v) as [n|] eqn:En.
  { assert (exists z, zs = [z] /\ (scalar_int n = Some z \/ scalar_int n = Some (swrap 64 z))) as (z & -> & Hn).
    { destruct v; simplify_eq/=; eexists; eauto. }
    inversion Hz as [|? ? Hh _]; subst. destruct (to_field_keeps target n z Hn Hh) as (w & Hw & Hc).
    cbn [mbind option_bind]. rewrite Hw. eauto. }
  cbn [mbind option_bind].
  assert (Hget : NumericField_of target ≫= get_text v = None /\ get_text v FUShort = None).
  { destruct v; try done; by destruct target. }
  assert (Hconv : exists w, convert_to v target = Some w /\ int_contents w = Some zs).
  { unfold convert_to. rewrite En. cbn [mbind option_bind].
    assert (Hp : forall nums ints, as_f64_array v = Some nums -> as_int_i64_array v = Some ints ->
      ints = zs \/ ints = map (swrap 64) zs -> exists w, convert_plain v target = Some w /\ int_contents w = Some zs).
    { intros nums ints Hf Hints Hor. unfold convert_plain. case_decide; [by exists v|]. rewrite Hf.
      by apply (array_rows_keep v nums ints). }
    destruct v; try done; try (apply (Hp _ _ eq_refl eq_refl); simplify_eq/=; auto).
    - injection Hi as <-. apply List.Forall_cons_iff in Hz as [Hh _].
      match type of Hh with int_holds _ ?z =>
        destruct (to_field_keeps target (SInt z) z ltac:(by left) Hh) as (w & Hw & Hc) end.
      exists w. by destruct target.
    - injection Hi as <-. unfold convert_plain. case_decide as Hd; [by eexists|]. cbn [as_f64_array].
      eexists. split; [reflexivity|]. by apply char_rows_keep. }
  destruct Hconv as (w & Hw & Hc). destruct Hget as [Hg1 Hg2]. rewrite Hg1, Hg2, Hw. exists w. split; [|done].
  by destruct target, v.
Qed.

(** C20: reading a value as another field type never reaches the conversion's [unreachable!] and
    [expect].  It fails exactly when the value is text and some element is one the parser of
    the target's row refuses ([DBR_ENUM] reads with the unsigned short row), and otherwise gives
    a value of the type asked for, with as many elements as the source and every number in its
    range.  Integers, or texts that are decimal integers, all of which an integer target holds,
    never fail and are kept as they are. *)
Theorem get_converts_every_value (v : EpicsValue) (target : DbFieldType) :
  value_ok v ->
  match get_convert v target with
  | None => False
  | Some (Ok w) => (value_ok w /\ db_field_type w = target /\ elements w = elements v) /\ unreadable v target = false
  | Some (Err _) => unreadable v target = true
  end /\
  forall zs, integer_type target = true -> says v zs -> Forall (int_holds target) zs ->
    exists w, get_convert v target = Some (Ok w) /\ int_contents w = Some zs.
Proof. intros Hv. split; [by apply get_convert_ok|]. intros zs. by apply get_keeps_integers. Qed.

End Get.

(** The texts 12 and -3 read as shorts, and refused as unsigned ones. *)
Lemma get_converts_every_value_witness :
  (exists w, @get_convert lp64 (VStringArray [ascii_bytes "12"; ascii_bytes "-3"]) Short = Some (Ok w) /\
     int_contents w = Some [12; -3]) /\
  match @get_convert lp64 (VCharArray [1; 255]) ULong with
  | None => False
  | Some (Ok w) => (value_ok w /\ db_field_type w = ULong /\ elements w = 2) /\
      @unreadable lp64 (VCharArray [1; 255]) ULong = false
  | Some (Err _) => @unreadable lp64 (VCharArray [1; 255]) ULong = true
  end.
Proof.
  split.
  - apply (@get_converts_every_value lp64 (VStringArray [ascii_bytes "12"; ascii_bytes "-3"]) Short I);
      [reflexivity|right; left; reflexivity|]. repeat constructor; vm_compute; congruence.
  - apply (@get_converts_every_value lp64 (VCharArray [1; 255]) ULong).
    repeat constructor; vm_compute; congruence.
Defined.
