(* ===== verification/DbrCodec.v ===== *)
(** * DBR bodies: a reading and its wire form

    Models [epics-base-rs/src/types/codec.rs] (encoding and decoding a DBR body), the byte
    forms of [types/value.rs], the [Snapshot] of [server/snapshot.rs], and the encoding of a
    queued update of [server/database/dbr_delivery.rs] and [server/pv.rs].

    An encoder appends to its destination and returns it with the outcome, since a failed
    conversion leaves the metadata written.  [may A] is a computation that can panic: [None]
    is an index out of bounds or an [unreachable!], [Some (Err e)] an error of the source. *)
From Stdlib Require Import SpecFloat.
From stdpp Require Import base tactics numbers list option strings pretty.
From S2P Require Import Prelude Dbr Float64 Strtod Strtol PvaText Alarm EventQueue Value CParse.
From S2P Require Import Filters Float32 CFmt Convert.

Open Scope Z_scope.

(** ** Computations that can panic *)

Inductive DbrError : Type := Wire (e : CaError) | Conversion (e : Refused).

Definition may (A : Type) : Type := option (result DbrError A).
Definition ret {A : Type} (x : A) : may A := Some (Ok x).
Definition throw {A : Type} (e : DbrError) : may A := Some (Err e).
Definition panic {A : Type} : may A := None.
Definition may_bind {A B : Type} (m : may A) (f : A -> may B) : may B :=
  match m with
  | None => None
  | Some (Err e) => Some (Err e)
  | Some (Ok x) => f x
  end.
Notation "'do' x <- m ; k" := (may_bind m (fun x => k))
  (at level 10, x pattern, m at level 100, k at level 200).

Definition lift_wire {A : Type} (r : CaResult A) : may A :=
  match r with Ok x => ret x | Err e => throw (Wire e) end.

(** [&data[off..off + n]] and [&data[off..]]. *)
Definition index_slice (data : list Z) (off n : Z) : may (list Z) :=
  if off + n <=? len data then ret (slice off (off + n) data) else panic.
Definition index_from (data : list Z) (off : Z) : may (list Z) :=
  if off <=? len data then ret (zdrop off data) else panic.

(** ** The reading ([snapshot.rs]) *)

Record AlarmInfo : Type := mkAlarmInfo {
  al_status : Z;
  al_severity : Z;
  al_ackt : option Z;
  al_acks : option Z;
  al_amsg : list Z;
}.

Record DisplayInfo : Type := mkDisplayInfo {
  d_units : PvString;
  d_precision : Z;
  upper_disp_limit : f64;
  lower_disp_limit : f64;
  upper_alarm_limit : f64;
  upper_warning_limit : f64;
  lower_warning_limit : f64;
  lower_alarm_limit : f64;
  d_form : Z;
  d_description : PvString;
}.

Record ControlInfo : Type := mkControlInfo {
  upper_ctrl_limit : f64;
  lower_ctrl_limit : f64;
}.

Inductive EnumOverflow : Type := OverflowText (text : PvString) | OverflowDecimal.

Record EnumStringForm : Type := mkEnumStringForm {
  slots : list PvString;
  overflow : EnumOverflow;
}.

Definition render_enum (f : EnumStringForm) (index : Z) : PvString :=
  match slots f !! Z.to_nat index with
  | Some slot => slot
  | None => match overflow f with OverflowText text => text | OverflowDecimal => show_Z index end
  end.

(** [EnumStringForm::menu], [device] and [states]. *)
Definition menu_form (choices : list PvString) : EnumStringForm := mkEnumStringForm choices OverflowDecimal.
Definition device_form (choices : list PvString) : EnumStringForm :=
  mkEnumStringForm choices (OverflowText []).
Definition states_form (states : list PvString) (sentinel : PvString) : EnumStringForm :=
  mkEnumStringForm states (OverflowText sentinel).

Record EnumInfo : Type := mkEnumInfo {
  enum_strings : list PvString;
  string_form : EnumStringForm;
}.

Definition EnumInfo_new (strings : list PvString) : EnumInfo :=
  mkEnumInfo strings (mkEnumStringForm strings (OverflowText [])).

Definition with_string_form (strings : list PvString) (form : EnumStringForm) : EnumInfo :=
  mkEnumInfo strings form.

Record PropertySupport : Type := mkPropertySupport {
  p_units : bool;
  p_precision : bool;
  p_graphic_double : bool;
  p_control_double : bool;
  p_alarm_double : bool;
  p_enum_strs : bool;
}.

Definition NONE : PropertySupport := mkPropertySupport false false false false false false.

Definition narrowed_to_field (p : PropertySupport) (t : DbFieldType) (is_menu_field : bool)
  : PropertySupport :=
  mkPropertySupport (p_units p)
    (p_precision p && match t with Float | Double => true | _ => false end)
    (p_graphic_double p) (p_control_double p) (p_alarm_double p)
    (match t with Enum => true | _ => false end && (p_enum_strs p || is_menu_field)).

Record Snapshot : Type := mkSnapshot {
  s_value : EpicsValue;
  s_alarm : AlarmInfo;
  s_timestamp : WallTime;
  s_display : option DisplayInfo;
  s_control : option ControlInfo;
  s_enums : option EnumInfo;
  s_properties : PropertySupport;
  s_user_tag : Z;
  s_class_name : option (list Z);
}.

Definition UNIX_EPOCH : WallTime := mkWallTime 0 0.

Definition Snapshot_new (v : EpicsValue) (status severity : Z) (t : WallTime) : Snapshot :=
  mkSnapshot v (mkAlarmInfo status severity None None []) t None None None NONE 0 None.

(** [split_nsec]: the masked bits of the nanoseconds become the user tag. *)
Definition split_nsec (t : WallTime) (utag nsec_mask : Z) : WallTime * Z :=
  if nsec_mask =? 0 then (t, utag)
  else
    let mask := wrap 32 nsec_mask in
    (mkWallTime (unix_secs t) (Z.ldiff (subsec_nanos t) mask), swrap 32 (Z.land (subsec_nanos t) mask)).

Definition supplied {A B : Type} (s : Snapshot) (info : option A) (p : PropertySupport -> bool)
    (f : A -> B) : option B :=
  d ← info; if p (s_properties s) then Some (f d) else None.

Definition units (s : Snapshot) : option PvString := supplied s (s_display s) p_units d_units.
Definition precision (s : Snapshot) : option Z := supplied s (s_display s) p_precision d_precision.
Definition graphic_limits (s : Snapshot) : option (f64 * f64) :=
  supplied s (s_display s) p_graphic_double (fun d => (lower_disp_limit d, upper_disp_limit d)).
Definition control_limits (s : Snapshot) : option (f64 * f64) :=
  supplied s (s_control s) p_control_double (fun c => (lower_ctrl_limit c, upper_ctrl_limit c)).
Definition alarm_limits (s : Snapshot) : option (f64 * f64 * f64 * f64) :=
  supplied s (s_display s) p_alarm_double (fun d =>
    (lower_alarm_limit d, lower_warning_limit d, upper_warning_limit d, upper_alarm_limit d)).

(** ** Values as bytes ([value.rs]) *)

(** [buf[..len].copy_from_slice(&bytes[..len])] into [n] zeros, [len] at most [n - 1]. *)
Definition fixed_text (n : Z) (s : PvString) : list Z := vec_resize n 0 (ztake (n - 1) s).

Definition be_u16 (x : Z) : list Z := to_be_bytes 2 (wrap 16 x).
Definition be_u32 (x : Z) : list Z := to_be_bytes 4 (wrap 32 x).
Definition be_f32 (f : f32) : list Z := to_be_bytes 4 (f32_to_bits f).
Definition be_f64 (f : f64) : list Z := to_be_bytes 8 (f64_to_bits f).

(** [write_be]: one fixed-stride copy per element. *)
Definition write_be {T : Type} (arr : list T) (wire : T -> list Z) : list Z := mjoin (map wire arr).

(** [EpicsValue::write_into]: what is appended. *)
Definition write_into (v : EpicsValue) : list Z :=
  match v with
  | VString s => fixed_text 40 s
  | VShort x | VEnum x | VEnumWithChoices x _ => be_u16 x
  | VFloat f => be_f32 f
  | VChar x | VUChar x => [x]
  | VLong x | VUShort x => be_u32 x
  | VDouble f => be_f64 f
  | VInt64 x | VUInt64 x | VULong x => be_f64 (f64_of_Z x)
  | VShortArray a | VEnumArray a => write_be a be_u16
  | VFloatArray a => write_be a be_f32
  | VDoubleArray a => write_be a be_f64
  | VLongArray a | VUShortArray a => write_be a be_u32
  | VInt64Array a | VUInt64Array a | VULongArray a => write_be a (fun x => be_f64 (f64_of_Z x))
  | VCharArray a | VUCharArray a => a
  | VStringArray a => write_be a (fixed_text 40)
  end.

Definition from_be_i (w : Z) (b : list Z) : Z := swrap w (from_be_bytes b).
Definition from_be_f32 (b : list Z) : f32 := f32_of_bits (from_be_bytes b).
Definition from_be_f64 (b : list Z) : f64 := f64_of_bits (from_be_bytes b).

(** [EpicsValue::from_bytes]. *)
Definition from_bytes (t : DbFieldType) (data : list Z) : may EpicsValue :=
  let scalar {T : Type} (n : Z) (msg : string) (mk : T -> EpicsValue) (read : list Z -> T) :=
    if len data <? n then throw (Wire (Protocol msg))
    else do b <- index_slice data 0 n; ret (mk (read b)) in
  match t with
  | DString => ret (VString (nul_terminated (ztake 40 data)))
  | Short => scalar 2 "short data too small" VShort (from_be_i 16)
  | Float => scalar 4 "float data too small" VFloat from_be_f32
  | Enum => scalar 2 "enum data too small" VEnum from_be_bytes
  | Char => scalar 1 "char data empty" VChar from_be_bytes
  | Long => scalar 4 "long data too small" VLong (from_be_i 32)
  | Double => scalar 8 "double data too small" VDouble from_be_f64
  | Int64 => scalar 8 "int64 data too small" VInt64 (from_be_i 64)
  | UInt64 => scalar 8 "uint64 data too small" VUInt64 from_be_bytes
  | UShort => scalar 2 "ushort data too small" VUShort from_be_bytes
  | ULong => scalar 4 "ulong data too small" VULong from_be_bytes
  | UChar => scalar 1 "uchar data too small" VUChar from_be_bytes
  end.

(** [slice::as_chunks]: the complete chunks of [n] bytes. *)
Fixpoint as_chunks (fuel n : nat) (data : list Z) : list (list Z) :=
  match fuel with
  | O => []
  | S fuel =>
      if (length data <? n)%nat then [] else take n data :: as_chunks fuel n (drop n data)
  end.

(** [read_be]; every chunk is at least one byte. *)
Definition read_be {T : Type} (data : list Z) (cnt : Z) (n : nat) (elem : list Z -> T) : list T :=
  map elem (ztake cnt (as_chunks (length data) n data)).

(** [EpicsValue::from_bytes_array]. *)
Definition from_bytes_array (t : DbFieldType) (data : list Z) (cnt : Z) : may EpicsValue :=
  if cnt =? 0 then
    ret match t with
        | DString => VStringArray [] | Short => VShortArray [] | Float => VFloatArray []
        | Enum => VEnumArray [] | Char => VCharArray [] | Long => VLongArray []
        | Double => VDoubleArray [] | Int64 => VInt64Array [] | UInt64 => VUInt64Array []
        | UShort => VUShortArray [] | ULong => VULongArray [] | UChar => VUCharArray []
        end
  else if cnt =? 1 then from_bytes t data
  else
    ret match t with
        | Short => VShortArray (read_be data cnt 2 (from_be_i 16))
        | Float => VFloatArray (read_be data cnt 4 from_be_f32)
        | Enum => VEnumArray (read_be data cnt 2 from_be_bytes)
        | Double => VDoubleArray (read_be data cnt 8 from_be_f64)
        | Long => VLongArray (read_be data cnt 4 (from_be_i 32))
        | Int64 => VInt64Array (read_be data cnt 8 (from_be_i 64))
        | UInt64 => VUInt64Array (read_be data cnt 8 from_be_bytes)
        | UShort => VUShortArray (read_be data cnt 2 from_be_bytes)
        | ULong => VULongArray (read_be data cnt 4 from_be_bytes)
        | Char => VCharArray (ztake (Z.min cnt (len data)) data)
        | UChar => VUCharArray (ztake (Z.min cnt (len data)) data)
        | DString => VStringArray (read_be data cnt 40 nul_terminated)
        end.

(** [EpicsValue::dbr_type]: the type the value has on the wire. *)
Definition dbr_type (v : EpicsValue) : DbFieldType :=
  match v with
  | VString _ | VStringArray _ => DString
  | VShort _ | VShortArray _ => Short
  | VFloat _ | VFloatArray _ => Float
  | VEnum _ | VEnumWithChoices _ _ | VEnumArray _ => Enum
  | VChar _ | VCharArray _ | VUChar _ | VUCharArray _ => Char
  | VLong _ | VLongArray _ | VUShort _ | VUShortArray _ => Long
  | VDouble _ | VDoubleArray _ | VInt64 _ | VInt64Array _ | VUInt64 _ | VUInt64Array _
  | VULong _ | VULongArray _ => Double
  end.

(** ** Encoding ([codec.rs]) *)

Definition EPICS_UNIX_EPOCH_OFFSET_SECS : Z := 631152000.

Definition epics_timestamp_parts (t : WallTime) : Z * Z :=
  if decide (t = UNIX_EPOCH) then (0, 0)
  else (wrap 32 (wrap 64 (unix_secs t - EPICS_UNIX_EPOCH_OFFSET_SECS)), subsec_nanos t).

(** [wall_clock_range_warning]: whether the clock is reported. *)
Definition wall_clock_range_warning (now : WallTime) : bool :=
  if decide (now = UNIX_EPOCH) then false
  else negb ((EPICS_UNIX_EPOCH_OFFSET_SECS <=? unix_secs now)
             && (unix_secs now - EPICS_UNIX_EPOCH_OFFSET_SECS <=? 2 ^ 32 - 1)).

Definition write_sts_meta (target : DbFieldType) (status severity : Z) : list Z :=
  be_u16 status ++ be_u16 severity ++ sts_pad target.

Definition write_time_meta (target : DbFieldType) (status severity : Z) (t : WallTime) : list Z :=
  let '(secs, nanos) := epics_timestamp_parts t in
  be_u16 status ++ be_u16 severity ++ be_u32 secs ++ be_u32 nanos ++ time_pad target.

Definition encode_units (s : Snapshot) : list Z :=
  match units s with
  | Some u => fixed_text MAX_UNITS_SIZE u
  | None => replicate (Z.to_nat MAX_UNITS_SIZE) 0
  end.

Definition LIMIT_SEED : list f64 :=
  [f64_zero; f64_zero; S754_nan; S754_nan; S754_nan; S754_nan; f64_zero; f64_zero].

Definition get_limits (s : Snapshot) (n_limits : nat) : list f64 :=
  let limits := LIMIT_SEED in
  let limits := match graphic_limits s with
                | Some (lower, upper) => <[1%nat := lower]> (<[0%nat := upper]> limits)
                | None => limits
                end in
  let limits := match alarm_limits s with
                | Some (lolo, low, high, hihi) =>
                    <[5%nat := lolo]> (<[4%nat := low]> (<[3%nat := high]> (<[2%nat := hihi]> limits)))
                | None => limits
                end in
  if (6 <? n_limits)%nat then
    match control_limits s with
    | Some (lower, upper) => <[7%nat := lower]> (<[6%nat := upper]> limits)
    | None => limits
    end
  else limits.

(** [limits_as_integers]: the alarm limits, places 2 to 5, read zero when not finite. *)
Definition limits_as_integers (limits : list f64) : list Z :=
  imap (fun i l => if (2 <=? i)%nat && (i <? 6)%nat && negb (f64_is_finite l) then 0 else cast_i32 l)
    limits.

Definition encode_limits {T : Type} (n_limits : nat) (limits : list T) (wire : T -> list Z) : list Z :=
  write_be (take n_limits limits) wire.

Definition encode_precision (s : Snapshot) : list Z := be_u16 (default 0 (precision s)) ++ [0; 0].

Definition encode_prec_units_limits_f64 (s : Snapshot) (n_limits : nat) : list Z :=
  encode_precision s ++ encode_units s ++ encode_limits n_limits (get_limits s n_limits) be_f64.
Definition encode_prec_units_limits_f32 (s : Snapshot) (n_limits : nat) : list Z :=
  encode_precision s ++ encode_units s
  ++ encode_limits n_limits (get_limits s n_limits) (fun l => be_f32 (cast_f32 l)).
Definition encode_units_limits_i16 (s : Snapshot) (n_limits : nat) : list Z :=
  encode_units s ++ encode_limits n_limits (limits_as_integers (get_limits s n_limits)) be_u16.
Definition encode_units_limits_i32 (s : Snapshot) (n_limits : nat) : list Z :=
  encode_units s ++ encode_limits n_limits (limits_as_integers (get_limits s n_limits)) be_u32.
Definition encode_units_limits_u8 (s : Snapshot) (n_limits : nat) : list Z :=
  encode_units s
  ++ encode_limits n_limits (limits_as_integers (get_limits s n_limits)) (fun l => [wrap 8 l]).

Definition encode_enum_metadata (s : Snapshot) : list Z :=
  match s_enums s with
  | Some ei =>
      be_u16 (Z.min (len (enum_strings ei)) MAX_ENUM_STATES)
      ++ write_be (seq 0 16) (fun i =>
           match enum_strings ei !! i with
           | Some label => fixed_text MAX_ENUM_STRING_SIZE label
           | None => replicate (Z.to_nat MAX_ENUM_STRING_SIZE) 0
           end)
  | None => be_u16 0 ++ replicate (Z.to_nat (MAX_ENUM_STATES * MAX_ENUM_STRING_SIZE)) 0
  end.

Definition write_gr_ctrl_meta (target : DbFieldType) (s : Snapshot) (n_limits : nat) : list Z :=
  be_u16 (al_status (s_alarm s)) ++ be_u16 (al_severity (s_alarm s))
  ++ match target with
     | DString => sts_pad target
     | Enum => encode_enum_metadata s
     | Float => encode_prec_units_limits_f32 s n_limits
     | Double => encode_prec_units_limits_f64 s n_limits
     | Short => encode_units_limits_i16 s n_limits
     | Long | UShort => encode_units_limits_i32 s n_limits
     | Char | UChar => encode_units_limits_u8 s n_limits ++ [0]
     | Int64 | UInt64 | ULong => encode_prec_units_limits_f64 s n_limits
     end.

Definition cap_dbr_string (s : PvString) : PvString := ztake 39 s.

Definition cap_dbr_strings (v : EpicsValue) : EpicsValue :=
  match v with
  | VStringArray a => VStringArray (map cap_dbr_string a)
  | VString s => VString (cap_dbr_string s)
  | other => other
  end.

Definition dbr_string_at_precision (v : EpicsValue) (prec : Z) : option EpicsValue :=
  match v with
  | VDouble f => Some (VString (cvt_double_to_string f prec))
  | VFloat f => Some (VString (cvt_float_to_string f prec))
  | VDoubleArray a => Some (VStringArray (map (fun f => cvt_double_to_string f prec) a))
  | VFloatArray a => Some (VStringArray (map (fun f => cvt_float_to_string f prec) a))
  | _ => None
  end.

Definition enum_label (s : Snapshot) (idx : Z) : PvString :=
  match s_enums s with Some e => render_enum (string_form e) idx | None => [] end.

Section Encode.
Context `{CLong}.

Definition lift_get (r : option (result Refused EpicsValue)) : may EpicsValue :=
  match r with
  | None => panic
  | Some (Ok v) => ret v
  | Some (Err e) => throw (Conversion e)
  end.

Definition convert_value_to_dbr_string (v : EpicsValue) (s : Snapshot) : may EpicsValue :=
  let prec := match precision s with Some p => wrap 16 p | None => 6 end in
  match dbr_string_at_precision v prec with
  | Some rendered => ret rendered
  | None =>
      match v with
      | VEnum x => ret (VString (enum_label s x))
      | VEnumArray a => ret (VStringArray (map (enum_label s) a))
      | other => lift_get (get_convert other DString)
      end
  end.

(** [snapshot_value_as]: what a link read takes of the reading. *)
Definition snapshot_value_as (s : Snapshot) (target : DbFieldType) : may EpicsValue :=
  if decide (target = DString)
  then do v <- convert_value_to_dbr_string (s_value s) s; ret (cap_dbr_strings v)
  else lift_get (get_convert (s_value s) target).

(** The value as it is written for a target type. *)
Definition converted_value (target : DbFieldType) (v : EpicsValue) : may EpicsValue :=
  if decide (dbr_type v = target) then ret v else lift_get (get_convert v target).

(** Bytes appended to [dst] with the outcome. *)
Definition appended (dst : list Z) (v : may EpicsValue) : option (list Z * result DbrError unit) :=
  match v with
  | None => None
  | Some (Err e) => Some (dst, Err e)
  | Some (Ok v) => Some (dst ++ write_into v, Ok tt)
  end.

(** The metadata of a DBR class, [None] for a type with none. *)
Definition dbr_meta (t : Z) (target : DbFieldType) (s : Snapshot) : option (list Z) :=
  let status := al_status (s_alarm s) in
  let severity := al_severity (s_alarm s) in
  if Dbr.in_range 0 6 t then Some []
  else if Dbr.in_range 7 13 t then Some (write_sts_meta target status severity)
  else if Dbr.in_range 14 20 t then Some (write_time_meta target status severity (s_timestamp s))
  else if Dbr.in_range 21 27 t then Some (write_gr_ctrl_meta target s 6)
  else if Dbr.in_range 28 34 t then Some (write_gr_ctrl_meta target s 8)
  else if (t =? DBR_PUT_ACKT) || (t =? DBR_PUT_ACKS) then Some []
  else if t =? DBR_STSACK_STRING then
    Some (be_u16 status ++ be_u16 severity
          ++ be_u16 (default 0 (al_ackt (s_alarm s))) ++ be_u16 (default 0 (al_acks (s_alarm s))))
  else None.

Definition encode_dbr_into (dst : list Z) (t : Z) (s : Snapshot)
  : option (list Z * result DbrError unit) :=
  if t =? DBR_CLASS_NAME then Some (dst ++ fixed_text 40 (default [] (s_class_name s)), Ok tt)
  else
    match native_type_for_dbr t with
    | Err e => Some (dst, Err (Wire e))
    | Ok target =>
        match dbr_meta t target s with
        | None => Some (dst, Err (Wire (UnsupportedType t)))
        | Some meta =>
            let dst := dst ++ meta in
            appended dst (if decide (target = DString) then convert_value_to_dbr_string (s_value s) s
                          else converted_value target (s_value s))
        end
    end.

Definition encode_dbr (t : Z) (s : Snapshot) : option (result DbrError (list Z)) :=
  match encode_dbr_into [] t s with
  | None => None
  | Some (buf, Ok _) => Some (Ok buf)
  | Some (_, Err e) => Some (Err e)
  end.

(** [encode_log_dbr_into]: the plain, STS and TIME classes from a field log alone. *)
Definition encode_log_dbr_into (dst : list Z) (t : Z) (v : EpicsValue) (status severity : Z)
    (time : WallTime) : option (list Z * result DbrError unit) :=
  match native_type_for_dbr t with
  | Err e => Some (dst, Err (Wire e))
  | Ok target =>
      let value meta := appended (dst ++ meta) (converted_value target v) in
      if Dbr.in_range 0 6 t then value []
      else if Dbr.in_range 7 13 t then value (write_sts_meta target status severity)
      else if Dbr.in_range 14 20 t then value (write_time_meta target status severity time)
      else Some (dst, Err (Wire (UnsupportedType t)))
  end.

(** [serialize_dbr]: the body of a channel with no metadata of its own. *)
Definition serialize_dbr (t : Z) (v : EpicsValue) (status severity : Z) (time : WallTime)
  : may (list Z) :=
  if t =? DBR_CLASS_NAME then ret (fixed_text 40 (match v with VString s => s | _ => [] end))
  else
    do target <- lift_wire (native_type_for_dbr t);
    do w <- converted_value target v;
    let val_bytes := write_into w in
    let bare := Snapshot_new (VDouble f64_zero) status severity UNIX_EPOCH in
    if Dbr.in_range 0 6 t then ret val_bytes
    else if Dbr.in_range 7 13 t then ret (write_sts_meta target status severity ++ val_bytes)
    else if Dbr.in_range 14 20 t then ret (write_time_meta target status severity time ++ val_bytes)
    else if Dbr.in_range 21 27 t then ret (write_gr_ctrl_meta target bare 6 ++ val_bytes)
    else if Dbr.in_range 28 34 t then ret (write_gr_ctrl_meta target bare 8 ++ val_bytes)
    else throw (Wire (UnsupportedType t)).

(** ** A queued update ([dbr_delivery.rs]) *)

(** [MonitorEvent::write_log_over]. *)
Definition write_log_over (e : MonitorEvent) (base : Snapshot) : Snapshot :=
  let h := log_head e in
  let '(v, p) := match as_value e with
                 | Some v => (v, narrowed_to_field (s_properties base) (db_field_type v) false)
                 | None => (s_value base, s_properties base)
                 end in
  mkSnapshot v (mkAlarmInfo (stat h) (sevr h) (al_ackt (s_alarm base)) (al_acks (s_alarm base)) (amsg h))
    (time h) (s_display base) (s_control base) (s_enums base) p (utag h) (s_class_name base).

Inductive Body : Type := BodyLog (v : EpicsValue) | BodyRead (read : Snapshot).
Record Update : Type := mkUpdate { u_log : MonitorEvent; u_body : Body }.

Definition reads_options (t : Z) (v : EpicsValue) : bool :=
  let is_string := match v with VString _ | VStringArray _ => true | _ => false end in
  Dbr.in_range 21 34 t || (t =? DBR_STSACK_STRING) || (t =? DBR_CLASS_NAME)
  || match native_type_for_dbr t with
     | Ok DString => negb is_string
     | Ok Enum => is_string
     | _ => false
     end.

(** [with_live_options]: [live] is the channel read, [None] when it fails. *)
Definition with_live_options (t : Z) (e : MonitorEvent) (live : option Snapshot) : option Update :=
  match as_value e with
  | Some v =>
      if reads_options t v
      then read ← live; Some (mkUpdate e (BodyRead (write_log_over e read)))
      else Some (mkUpdate e (BodyLog v))
  | None => read ← live; Some (mkUpdate e (BodyRead (write_log_over e read)))
  end.

(** [Delivery::encode_dbr_into] of a channel whose stage sends every event as posted. *)
Definition update_encode (dst : list Z) (t : Z) (u : Update) : option (list Z * result DbrError unit) :=
  match u_body u with
  | BodyLog v =>
      encode_log_dbr_into dst t v (stat (log_head (u_log u))) (sevr (log_head (u_log u)))
        (time (log_head (u_log u)))
  | BodyRead read => encode_dbr_into dst t read
  end.

Definition update_count (u : Update) : Z :=
  match u_body u with BodyLog v => count v | BodyRead read => count (s_value read) end.

End Encode.

(** ** Decoding ([codec.rs]) *)

(** [read_u16] and its siblings: the length test, then the bytes by index. *)
Definition read_int (data : list Z) (off n : Z) (what : string) : may Z :=
  if len data <? off + n then throw (Wire (Protocol ("buffer too short for " +:+ what)))
  else do b <- index_slice data off n; ret (from_be_bytes b).

Definition read_u16 (data : list Z) (off : Z) : may Z := read_int data off 2 "u16".
Definition read_i16 (data : list Z) (off : Z) : may Z :=
  do x <- read_int data off 2 "i16"; ret (swrap 16 x).
Definition read_u32 (data : list Z) (off : Z) : may Z := read_int data off 4 "u32".
Definition read_i32 (data : list Z) (off : Z) : may Z :=
  do x <- read_int data off 4 "i32"; ret (swrap 32 x).
Definition read_f32 (data : list Z) (off : Z) : may f32 :=
  do x <- read_int data off 4 "f32"; ret (f32_of_bits x).
Definition read_f64 (data : list Z) (off : Z) : may f64 :=
  do x <- read_int data off 8 "f64"; ret (f64_of_bits x).

Definition read_pv_string (data : list Z) (off max_len : Z) : may PvString :=
  let end_ := Z.min (len data) (off + max_len) in
  if end_ <=? off then ret []
  else do b <- index_slice data off (end_ - off); ret (nul_terminated b).

(** [epics_secs_to_wall_time]; [Duration::new] carries whole seconds out of [nanos]. *)
Definition epics_secs_to_wall_time (secs nanos : Z) : WallTime :=
  mkWallTime (secs + EPICS_UNIX_EPOCH_OFFSET_SECS + nanos / 10 ^ 9) (nanos mod 10 ^ 9).

(** A limit at an offset: what the loop of each arm of [decode_gr_ctrl] stores. *)
Definition read_limit (target : DbFieldType) (data : list Z) (off : Z) : may f64 :=
  match target with
  | Float => do f <- read_f32 data off; ret (f64_of_f32 f)
  | Double | Int64 | UInt64 | ULong => read_f64 data off
  | Short => do i <- read_i16 data off; ret (f64_of_Z i)
  | Long | UShort => do i <- read_i32 data off; ret (f64_of_Z i)
  | Char | UChar =>
      if off <? len data
      then do b <- index_slice data off 1; ret (f64_of_Z (swrap 8 (from_be_bytes b)))
      else ret f64_zero
  | DString | Enum => ret f64_zero
  end.

Definition limit_size (target : DbFieldType) : Z :=
  match target with
  | Float | Long | UShort => 4
  | Double | Int64 | UInt64 | ULong => 8
  | Short => 2
  | Char | UChar => 1
  | DString | Enum => 0
  end.

(** [for i in 0..n_limits], reading and advancing. *)
Fixpoint read_limits (n : nat) (target : DbFieldType) (data : list Z) (off : Z) : may (list f64 * Z) :=
  match n with
  | O => ret ([], off)
  | S n =>
      do l <- read_limit target data off;
      do rest <- read_limits n target data (off + limit_size target);
      ret (l :: fst rest, snd rest)
  end.

(** The display and control blocks of a limit array; [limits] starts as eight zeros. *)
Definition display_of (u : PvString) (prec : Z) (limits : list f64) : DisplayInfo :=
  let l i := default f64_zero (limits !! i) in
  mkDisplayInfo u prec (l 0%nat) (l 1%nat) (l 2%nat) (l 3%nat) (l 4%nat) (l 5%nat) 0 [].
Definition control_of (limits : list f64) : ControlInfo :=
  let l i := default f64_zero (limits !! i) in mkControlInfo (l 6%nat) (l 7%nat).

(** The numeric arms of [decode_gr_ctrl]: precision where the class has one, units, limits,
    and the pad of the char class. *)
Definition decode_numeric_meta (target : DbFieldType) (data : list Z) (off : Z) (ctrl : bool)
  : may (DisplayInfo * option ControlInfo * Z) :=
  do (prec, off) <-
    match target with
    | Float | Double | Int64 | UInt64 | ULong => do p <- read_i16 data off; ret (p, off + 4)
    | _ => ret (0, off)
    end;
  do u <- read_pv_string data off MAX_UNITS_SIZE;
  do (limits, off) <- read_limits (if ctrl then 8 else 6)%nat target data (off + MAX_UNITS_SIZE);
  let off := match target with Char | UChar => off + 1 | _ => off end in
  ret (display_of u prec limits, if ctrl then Some (control_of limits) else None, off).

(** The sixteen slots, of which the first [no_str] are kept. *)
Fixpoint decode_enum_slots (n : nat) (i no_str : Z) (data : list Z) (pos : Z) : may (list PvString) :=
  match n with
  | O => ret []
  | S n =>
      do label <- read_pv_string data pos MAX_ENUM_STRING_SIZE;
      do rest <- decode_enum_slots n (i + 1) no_str data (pos + MAX_ENUM_STRING_SIZE);
      ret (if i <? no_str then label :: rest else rest)
  end.

Definition decode_enum_metadata (data : list Z) (off : Z) : may (EnumInfo * Z) :=
  do no_str <- read_u16 data off;
  do strings <- decode_enum_slots 16 0 no_str data (off + 2);
  ret (EnumInfo_new strings, off + 2 + MAX_ENUM_STATES * MAX_ENUM_STRING_SIZE).

Definition decode_sts (target : DbFieldType) (data : list Z) (cnt : Z) : may Snapshot :=
  do status <- read_u16 data 0;
  do severity <- read_u16 data 2;
  do rest <- index_from data (4 + len (sts_pad target));
  do v <- from_bytes_array target rest cnt;
  ret (Snapshot_new v status severity UNIX_EPOCH).

Definition decode_time (target : DbFieldType) (data : list Z) (cnt : Z) : may Snapshot :=
  do status <- read_u16 data 0;
  do severity <- read_u16 data 2;
  do secs <- read_u32 data 4;
  do nanos <- read_u32 data 8;
  do rest <- index_from data (12 + len (time_pad target));
  do v <- from_bytes_array target rest cnt;
  ret (Snapshot_new v status severity (epics_secs_to_wall_time secs nanos)).

Definition decode_gr_ctrl (target : DbFieldType) (data : list Z) (cnt : Z) (ctrl : bool)
  : may Snapshot :=
  do status <- read_u16 data 0;
  do severity <- read_u16 data 2;
  do (display, control, enums, off) <-
    match target with
    | DString => ret (None, None, None, 4 + len (sts_pad target))
    | Enum => do (ei, off) <- decode_enum_metadata data 4; ret (None, None, Some ei, off)
    | _ => do (d, c, off) <- decode_numeric_meta target data 4 ctrl; ret (Some d, c, None, off)
    end;
  do rest <- index_from data off;
  do v <- from_bytes_array target rest cnt;
  let has {A : Type} (x : option A) := match x with Some _ => true | None => false end in
  let properties := narrowed_to_field
    (mkPropertySupport (has display) (has display) (has display) (has control) (has display) (has enums))
    (db_field_type v) false in
  ret (mkSnapshot v (mkAlarmInfo status severity None None []) UNIX_EPOCH display control enums
         properties 0 None).

Definition decode_dbr (t : Z) (data : list Z) (cnt : Z) : may Snapshot :=
  let refused (msg : string) := throw (Wire (Protocol (msg +:+ pretty (len data)))) in
  if t =? DBR_CLASS_NAME then
    if len data <? 40 then refused "DBR_CLASS_NAME requires 40-byte payload, got "
    else
      do name <- read_pv_string data 0 40;
      let s := Snapshot_new (VString name) 0 0 UNIX_EPOCH in
      ret (mkSnapshot (s_value s) (s_alarm s) (s_timestamp s) None None None NONE 0
             (Some (from_utf8_lossy name)))
  else if t =? DBR_STSACK_STRING then
    if len data <? 48 then refused "DBR_STSACK_STRING requires 48-byte payload, got "
    else
      do status <- read_u16 data 0;
      do severity <- read_u16 data 2;
      do ackt <- read_u16 data 4;
      do acks <- read_u16 data 6;
      do v <- read_pv_string data 8 40;
      ret (mkSnapshot (VString v) (mkAlarmInfo status severity (Some ackt) (Some acks) []) UNIX_EPOCH
             None None None NONE 0 None)
  else
    do target <- lift_wire (native_type_for_dbr t);
    let target := wire_carrier target in
    let meta := dbr_meta_size t target in
    if len data <? meta then
      refused ("DBR type " +:+ pretty t +:+ " requires at least " +:+ pretty meta
               +:+ " metadata bytes, got ")
    else if Dbr.in_range 0 6 t then
      do v <- from_bytes_array target data cnt; ret (Snapshot_new v 0 0 UNIX_EPOCH)
    else if Dbr.in_range 7 13 t then decode_sts target data cnt
    else if Dbr.in_range 14 20 t then decode_time target data cnt
    else if Dbr.in_range 21 27 t then decode_gr_ctrl target data cnt false
    else if Dbr.in_range 28 34 t then decode_gr_ctrl target data cnt true
    else throw (Wire (UnsupportedType t)).
