(* ===== verification/DbrCodecTheory.v ===== *)
(** * DBR bodies: what a client decodes is what the server read

    A body is its class's metadata followed by one cell per element.  Decoding it at a count
    reads the metadata back and that many cells, whatever bytes follow; decoding any bytes at
    all panics nowhere; and an update that needs no option of its channel is encoded from its
    log alone as the full read would be, the two acknowledgement types apart. *)
From Stdlib Require Import SpecFloat.
From stdpp Require Import base tactics numbers list option strings.
From S2P Require Import Prelude Dbr Float64 Float64Theory Strtod Strtol PvaText Alarm EventQueue.
From S2P Require Import Value CParse Filters Float32 CFmt Convert ConvertTheory DbrCodec.

Open Scope Z_scope.

(** ** Cells *)

(** An element on the wire. *)
Inductive Cell : Type := CInt (x : Z) | CReal (f : spec_float) | CText (s : PvString).

Definition cells (v : EpicsValue) : list Cell :=
  match v with
  | VString s => [CText s]
  | VShort x | VEnum x | VEnumWithChoices x _ | VChar x | VUChar x | VLong x | VUShort x => [CInt x]
  | VFloat f | VDouble f => [CReal f]
  | VInt64 x | VUInt64 x | VULong x => [CReal (f64_of_Z x)]
  | VShortArray a | VEnumArray a | VLongArray a | VUShortArray a | VCharArray a | VUCharArray a =>
      map CInt a
  | VFloatArray a | VDoubleArray a => map CReal a
  | VInt64Array a | VUInt64Array a | VULongArray a => map (fun x => CReal (f64_of_Z x)) a
  | VStringArray a => map CText a
  end.

(** The bytes of a cell of a wire type. *)
Definition image (t : DbFieldType) (c : Cell) : list Z :=
  match t, c with
  | DString, CText s => fixed_text 40 s
  | (Short | Enum), CInt x => be_u16 x
  | Char, CInt x => [x]
  | Long, CInt x => be_u32 x
  | Float, CReal f => be_f32 f
  | Double, CReal f => be_f64 f
  | _, _ => []
  end.

Definition cell_ok (t : DbFieldType) (c : Cell) : Prop :=
  match t, c with
  | DString, CText _ => True
  | Short, CInt x => is_sint 16 x
  | Enum, CInt x => is_u16 x
  | Char, CInt x => is_u8 x
  | Long, CInt x => is_sint 32 x
  | Float, CReal f => f32_valid f = true
  | Double, CReal f => f64_valid f = true
  | _, _ => False
  end.

(** What a [DBR_STRING] slot keeps of a text: 39 bytes, and those up to a NUL. *)
Definition slot_text (s : PvString) : PvString := nul_terminated (ztake 39 s).

Definition cell_int (c : Cell) : Z := match c with CInt x => x | _ => 0 end.
Definition cell_real (c : Cell) : spec_float := match c with CReal f => f | _ => f64_zero end.
Definition cell_text (c : Cell) : PvString := match c with CText s => slot_text s | _ => [] end.

(** The value a client makes of the cells it is sent: nothing, one element or an array, bytes
    unsigned. *)
Definition received (t : DbFieldType) (cs : list Cell) : EpicsValue :=
  match t, cs with
  | DString, [c] => VString (cell_text c)
  | DString, _ => VStringArray (map cell_text cs)
  | Short, [c] => VShort (cell_int c)
  | Short, _ => VShortArray (map cell_int cs)
  | Float, [c] => VFloat (cell_real c)
  | Float, _ => VFloatArray (map cell_real cs)
  | Enum, [c] => VEnum (cell_int c)
  | Enum, _ => VEnumArray (map cell_int cs)
  | Long, [c] => VLong (cell_int c)
  | Long, _ => VLongArray (map cell_int cs)
  | Double, [c] => VDouble (cell_real c)
  | Double, _ => VDoubleArray (map cell_real cs)
  | _, [c] => VUChar (cell_int c)
  | _, _ => VUCharArray (map cell_int cs)
  end.

Definition wire_type (t : DbFieldType) : bool :=
  match t with DString | Short | Float | Enum | Char | Long | Double => true | _ => false end.

(** ** Bytes of cells *)

Lemma len_be_u16 x : len (be_u16 x) = 2.
Proof. unfold be_u16. by rewrite length_to_be_bytes. Qed.
Lemma len_be_u32 x : len (be_u32 x) = 4.
Proof. unfold be_u32. by rewrite length_to_be_bytes. Qed.
Lemma len_be_f32 x : len (be_f32 x) = 4.
Proof. unfold be_f32. by rewrite length_to_be_bytes. Qed.
Lemma len_be_f64 x : len (be_f64 x) = 8.
Proof. unfold be_f64. by rewrite length_to_be_bytes. Qed.
Lemma len_fixed_text n s : 0 <= n -> len (fixed_text n s) = n.
Proof. intros. unfold fixed_text, vec_resize. rewrite length_resize. lia. Qed.

Create Rewrite HintDb lens.
#[export] Hint Rewrite len_be_u16 len_be_u32 len_be_f32 len_be_f64 : lens.
#[export] Hint Rewrite len_fixed_text using lia : lens.

Lemma from_be_u16 x : from_be_bytes (be_u16 x) = wrap 16 x.
Proof. unfold be_u16. rewrite from_to_be_bytes. by apply Z.mod_mod. Qed.
Lemma from_be_u32 x : from_be_bytes (be_u32 x) = wrap 32 x.
Proof. unfold be_u32. rewrite from_to_be_bytes. by apply Z.mod_mod. Qed.
Lemma from_be_of_f32 f : f32_valid f = true -> f32_of_bits (from_be_bytes (be_f32 f)) = f.
Proof.
  intros Hf. unfold be_f32. rewrite from_to_be_bytes, Z.mod_small by (by apply f32_to_bits_range).
  by apply f32_bits_round_trip.
Qed.
Lemma from_be_of_f64 f : f64_valid f = true -> f64_of_bits (from_be_bytes (be_f64 f)) = f.
Proof.
  intros Hf. unfold be_f64. rewrite from_to_be_bytes, Z.mod_small by (by apply f64_to_bits_range).
  by apply f64_bits_round_trip.
Qed.

(** Cutting a padded text at its first NUL. *)
Lemma nul_terminated_padded s n : nul_terminated (s ++ replicate n 0) = nul_terminated s.
Proof.
  unfold nul_terminated. induction s as [|c s IH]; cbn [app span].
  - by destruct n.
  - destruct (negb (c =? 0)); [|done]. destruct (span _ (s ++ _)), (span _ s). cbn in *. by rewrite IH.
Qed.

Lemma nul_terminated_fixed n s : 0 < n -> nul_terminated (fixed_text n s) = nul_terminated (ztake (n - 1) s).
Proof.
  intros Hn. unfold fixed_text, vec_resize.
  rewrite resize_ge by (unfold ztake; rewrite length_take; lia). apply nul_terminated_padded.
Qed.

Lemma len_image t c : cell_ok t c -> length (image t c) = Z.to_nat (element_size t).
Proof.
  destruct t, c; try done; intros _; cbn [image element_size]; apply Nat2Z.inj; rewrite Z2Nat.id by lia;
    autorewrite with lens; done.
Qed.

(** The image of a cell is read back. *)
Lemma read_image_i16 c : cell_ok Short c -> from_be_i 16 (image Short c) = cell_int c.
Proof.
  destruct c; try done. intros Hx. unfold from_be_i. cbn [image cell_int].
  rewrite from_be_u16, swrap_wrap by lia. by apply swrap_small.
Qed.
Lemma read_image_i32 c : cell_ok Long c -> from_be_i 32 (image Long c) = cell_int c.
Proof.
  destruct c; try done. intros Hx. unfold from_be_i. cbn [image cell_int].
  rewrite from_be_u32, swrap_wrap by lia. by apply swrap_small.
Qed.
Lemma read_image_u16 c : cell_ok Enum c -> from_be_bytes (image Enum c) = cell_int c.
Proof. destruct c; try done. intros Hx. cbn [image]. rewrite from_be_u16. by apply wrap_small. Qed.
Lemma read_image_u8 c : cell_ok Char c -> image Char c = [cell_int c].
Proof. by destruct c. Qed.
Lemma read_image_f32 c : cell_ok Float c -> from_be_f32 (image Float c) = cell_real c.
Proof. destruct c; try done. apply from_be_of_f32. Qed.
Lemma read_image_f64 c : cell_ok Double c -> from_be_f64 (image Double c) = cell_real c.
Proof. destruct c; try done. apply from_be_of_f64. Qed.
Lemma read_image_text c : cell_ok DString c -> nul_terminated (image DString c) = cell_text c.
Proof. destruct c; try done. intros _. by apply nul_terminated_fixed. Qed.

Lemma as_chunks_cons n b data :
  (0 < n)%nat -> length b = n -> forall fuel, (length data < fuel)%nat ->
  as_chunks fuel n (b ++ data) = b :: as_chunks (pred fuel) n data.
Proof.
  intros Hn Hb fuel Hf. destruct fuel as [|fuel]; [lia|]. cbn [as_chunks pred].
  rewrite length_app, (proj2 (Nat.ltb_ge _ _)) by lia. by rewrite <- Hb, take_app_length, drop_app_length.
Qed.

(** The first chunks of concatenated blocks are the blocks. *)
Lemma take_as_chunks n bs rest fuel :
  (0 < n)%nat -> Forall (fun b => length b = n) bs -> (length (mjoin bs ++ rest) <= fuel)%nat ->
  take (length bs) (as_chunks fuel n (mjoin bs ++ rest)) = bs.
Proof.
  intros Hn Hb. revert fuel. induction Hb as [|b bs Hb Hbs IH]; intros fuel Hf; [done|].
  rewrite mjoin_cons, <- app_assoc in *. rewrite length_app in Hf.
  rewrite as_chunks_cons by (rewrite ?length_app in *; lia). cbn [length take].
  by rewrite IH by lia.
Qed.

Lemma read_be_cells {T} t cs rest (elem : list Z -> T) (f : Cell -> T) :
  0 < element_size t -> Forall (cell_ok t) cs -> (forall c, cell_ok t c -> elem (image t c) = f c) ->
  read_be (mjoin (map (image t) cs) ++ rest) (len cs) (Z.to_nat (element_size t)) elem = map f cs.
Proof.
  intros Ht Hc He. unfold read_be, ztake. rewrite Nat2Z.id, <- (length_map (image t) cs).
  rewrite take_as_chunks; [|lia| |done].
  - rewrite map_map. apply map_ext_Forall. eapply Forall_impl; [exact Hc|exact He].
  - apply Forall_map. eapply Forall_impl; [exact Hc|]. apply len_image.
Qed.

Lemma len_mjoin_images t cs :
  Forall (cell_ok t) cs -> len (mjoin (map (image t) cs)) = element_size t * len cs.
Proof.
  intros Hc. induction Hc as [|c cs Hc Hcs IH]; [cbn; lia|]. cbn [map length]. rewrite mjoin_cons, length_app.
  rewrite len_image by done. destruct t; cbn [element_size] in *; try done; lia.
Qed.

Lemma mjoin_char_images cs : Forall (cell_ok Char) cs -> mjoin (map (image Char) cs) = map cell_int cs.
Proof.
  induction 1 as [|c cs Hc Hcs IH]; [done|]. cbn [map]. by rewrite mjoin_cons, IH, read_image_u8.
Qed.

(** A scalar is read from the front of the data. *)
Lemma index_slice_front b rest : index_slice (b ++ rest) 0 (len b) = ret b.
Proof.
  unfold index_slice, slice. rewrite (proj2 (Z.leb_le _ _)) by (rewrite length_app; lia).
  by rewrite zdrop_0, Z.add_0_l, Z.sub_0_r, ztake_len_app.
Qed.

Lemma from_bytes_cell t c rest :
  wire_type t = true -> cell_ok t c ->
  from_bytes (wire_carrier t) (image t c ++ rest) = ret (received t [c]).
Proof.
  intros Ht Hc. pose proof (len_image t c Hc) as Hl.
  assert (Hf : forall n : Z, n = len (image t c) ->
    (len (image t c ++ rest) <? n) = false /\ index_slice (image t c ++ rest) 0 n = ret (image t c)).
  { intros n ->. split; [|apply index_slice_front]. apply Z.ltb_ge. rewrite length_app. lia. }
  destruct t; try done; cbn [wire_carrier element_size] in *; cbn [from_bytes].
  1: { unfold ret. do 3 f_equal. cbn [received].
       rewrite <- read_image_text by done. unfold ztake. by rewrite <- Hl, take_app_length. }
  all: match goal with |- context [?a <? ?n] => destruct (Hf n) as [-> ->]; [lia|] end; cbn [may_bind ret];
    unfold ret; do 2 f_equal; cbn [received]; f_equal.
  - by apply read_image_i16.
  - by apply read_image_f32.
  - by apply read_image_u16.
  - rewrite read_image_u8 by done. unfold from_be_bytes. cbn [rev app from_le_bytes]. lia.
  - by apply read_image_i32.
  - by apply read_image_f64.
Qed.

(** Decoding as many elements as cells were sent gives those cells. *)
Lemma from_bytes_array_cells t cs rest :
  wire_type t = true -> Forall (cell_ok t) cs ->
  from_bytes_array (wire_carrier t) (mjoin (map (image t) cs) ++ rest) (len cs) = ret (received t cs).
Proof.
  intros Ht Hc. destruct cs as [|c [|c2 cs]].
  - by destruct t.
  - cbn [map]. rewrite mjoin_cons, <- app_assoc. apply Forall_inv in Hc. by apply from_bytes_cell.
  - unfold from_bytes_array. rewrite (proj2 (Z.eqb_neq _ 0)), (proj2 (Z.eqb_neq _ 1)) by (cbn; lia).
    destruct t; try done; cbn [wire_carrier]; unfold ret; do 2 f_equal.
    + cbn [received]. f_equal. apply (read_be_cells DString); [done|done|]. apply read_image_text.
    + cbn [received]. f_equal. apply (read_be_cells Short); [done|done|]. apply read_image_i16.
    + cbn [received]. f_equal. apply (read_be_cells Float); [done|done|]. apply read_image_f32.
    + cbn [received]. f_equal. apply (read_be_cells Enum); [done|done|]. apply read_image_u16.
    + cbn [received]. f_equal. rewrite mjoin_char_images by done.
      rewrite Z.min_l by (rewrite length_app, length_map; lia). unfold ztake. rewrite Nat2Z.id.
      rewrite <- (length_map cell_int). by rewrite take_app_length.
    + cbn [received]. f_equal. apply (read_be_cells Long); [done|done|]. apply read_image_i32.
    + cbn [received]. f_equal. apply (read_be_cells Double); [done|done|]. apply read_image_f64.
Qed.

(** ** A value is its cells *)

Lemma write_into_cells v : write_into v = mjoin (map (image (dbr_type v)) (cells v)).
Proof.
  destruct v; cbn [write_into cells dbr_type map]; unfold write_be; rewrite ?map_map;
    try (cbn; by rewrite ?app_nil_r); try done.
  all: cbn [image]; induction a as [|x a IH]; [done|]; cbn [map]; rewrite mjoin_cons; by rewrite <- IH.
Qed.

Lemma cells_ok v : value_ok v -> Forall (cell_ok (dbr_type v)) (cells v).
Proof.
  destruct v; cbn [value_ok cells dbr_type]; intros Hv; rewrite ?Forall_singleton, ?Forall_map;
    cbn [cell_ok]; auto using f64_of_Z_valid.
  all: try (by apply Forall_true; intros; cbn [compose cell_ok]; auto using f64_of_Z_valid).
  - unfold is_sint, is_uint in *. lia.
  - eapply Forall_impl; [exact Hv|]. intros x Hx. cbn in *. unfold is_sint, is_uint in *. lia.
Qed.

Lemma len_cells v : count v = wrap 32 (len (cells v)).
Proof. destruct v; cbn [count cells]; rewrite ?length_map; done. Qed.

(** ** What the client sees of the metadata *)

(** The stamp holds the low 32 bits of the seconds since 1990; an unset one reads 1990. *)
Definition client_time (t : WallTime) : WallTime :=
  if decide (t = UNIX_EPOCH) then mkWallTime EPICS_UNIX_EPOCH_OFFSET_SECS 0
  else mkWallTime (wrap 32 (unix_secs t - EPICS_UNIX_EPOCH_OFFSET_SECS) + EPICS_UNIX_EPOCH_OFFSET_SECS)
         (subsec_nanos t).

(** A field of a block the channel has and supplies, [absent] otherwise. *)
Definition shown {A B : Type} (block : option A) (supplied : bool) (field : A -> B) (absent : B) : B :=
  match block with Some d => if supplied then field d else absent | None => absent end.

(** The units, seven bytes of them up to a NUL. *)
Definition client_units (s : Snapshot) : PvString :=
  shown (s_display s) (p_units (s_properties s)) (fun d => nul_terminated (ztake 7 (d_units d))) [].

(** The precision, which only the real classes carry. *)
Definition client_precision (target : DbFieldType) (s : Snapshot) : Z :=
  match target with
  | Float | Double => shown (s_display s) (p_precision (s_properties s)) d_precision 0
  | _ => 0
  end.

(** A limit as the class of [target] carries it: narrowed to a float, or cast to the integer of
    the class, where an alarm limit that is not finite is zero. *)
Definition client_limit (target : DbFieldType) (alarm : bool) (l : f64) : f64 :=
  let int := if alarm && negb (f64_is_finite l) then 0 else cast_i32 l in
  match target with
  | Double => l
  | Float => f64_of_f32 (cast_f32 l)
  | Short => f64_of_Z (swrap 16 int)
  | Char => f64_of_Z (swrap 8 int)
  | _ => f64_of_Z int
  end.

(** The display limits are zero and the alarm limits NaN where the channel supplies none. *)
Definition client_display (target : DbFieldType) (s : Snapshot) : DisplayInfo :=
  let graphic field := client_limit target false (shown (s_display s) (p_graphic_double (s_properties s)) field f64_zero) in
  let alarm field := client_limit target true (shown (s_display s) (p_alarm_double (s_properties s)) field S754_nan) in
  {| d_units := client_units s;
     d_precision := client_precision target s;
     upper_disp_limit := graphic upper_disp_limit;
     lower_disp_limit := graphic lower_disp_limit;
     upper_alarm_limit := alarm upper_alarm_limit;
     upper_warning_limit := alarm upper_warning_limit;
     lower_warning_limit := alarm lower_warning_limit;
     lower_alarm_limit := alarm lower_alarm_limit;
     d_form := 0;
     d_description := [] |}.

Definition client_control (target : DbFieldType) (s : Snapshot) : ControlInfo :=
  let control field := client_limit target false (shown (s_control s) (p_control_double (s_properties s)) field f64_zero) in
  {| upper_ctrl_limit := control upper_ctrl_limit; lower_ctrl_limit := control lower_ctrl_limit |}.

(** The labels of the first sixteen states, 25 bytes of each. *)
Definition client_labels (s : Snapshot) : list PvString :=
  match s_enums s with
  | Some ei => map (fun label => nul_terminated (ztake 25 label)) (take 16 (enum_strings ei))
  | None => []
  end.

(** A reading of a value with its alarm and stamp and no metadata. *)
Definition bare_reading (v : EpicsValue) (status severity : Z) (t : WallTime) : Snapshot :=
  {| s_value := v;
     s_alarm := {| al_status := status; al_severity := severity; al_ackt := None; al_acks := None; al_amsg := [] |};
     s_timestamp := t; s_display := None; s_control := None; s_enums := None;
     s_properties := mkPropertySupport false false false false false false;
     s_user_tag := 0; s_class_name := None |}.

(** The reading a client makes of a body of class [t]. *)
Definition client_view (t : Z) (target : DbFieldType) (s : Snapshot) (v : EpicsValue) : Snapshot :=
  let status := al_status (s_alarm s) in
  let severity := al_severity (s_alarm s) in
  if t <=? 6 then bare_reading v 0 0 (mkWallTime 0 0)
  else if t <=? 13 then bare_reading v status severity (mkWallTime 0 0)
  else if t <=? 20 then bare_reading v status severity (client_time (s_timestamp s))
  else
    let ctrl := 28 <=? t in
    let numeric := match target with DString | Enum => false | _ => true end in
    let real := match target with Float | Double => true | _ => false end in
    let labels := client_labels s in
    {| s_value := v;
       s_alarm := s_alarm (bare_reading v status severity (mkWallTime 0 0));
       s_timestamp := mkWallTime 0 0;
       s_display := if numeric then Some (client_display target s) else None;
       s_control := if numeric && ctrl then Some (client_control target s) else None;
       s_enums := match target with Enum => Some (mkEnumInfo labels (mkEnumStringForm labels (OverflowText []))) | _ => None end;
       s_properties :=
         {| p_units := numeric; p_precision := real; p_graphic_double := numeric;
            p_control_double := numeric && ctrl; p_alarm_double := numeric;
            p_enum_strs := match target with Enum => true | _ => false end |};
       s_user_tag := 0; s_class_name := None |}.

(** What the fields of a reading can hold. *)
Record snapshot_ok (s : Snapshot) : Prop := {
  so_value : value_ok (s_value s);
  so_count : len (cells (s_value s)) < 2 ^ 32;
  so_status : is_u16 (al_status (s_alarm s));
  so_severity : is_u16 (al_severity (s_alarm s));
  so_time : 0 <= subsec_nanos (s_timestamp s) < 10 ^ 9;
  so_precision : forall d, s_display s = Some d -> is_sint 16 (d_precision d);
  so_display : forall d, s_display s = Some d ->
    Forall (fun f => f64_valid f = true)
      [upper_disp_limit d; lower_disp_limit d; upper_alarm_limit d; upper_warning_limit d;
       lower_warning_limit d; lower_alarm_limit d];
  so_control : forall c, s_control s = Some c ->
    Forall (fun f => f64_valid f = true) [upper_ctrl_limit c; lower_ctrl_limit c];
}.

(** ** Reading at an offset *)

Lemma zdrop_here data off (b post : list Z) :
  0 <= off -> zdrop off data = b ++ post ->
  (0 < len b -> off + len b <= len data) /\ slice off (off + len b) data = b /\
  zdrop (off + len b) data = post.
Proof.
  intros Ho H. split_and!.
  - intros Hb. pose proof (len_zdrop off data Ho) as Hl. rewrite H, length_app in Hl. lia.
  - unfold slice. rewrite H. replace (off + len b - off) with (len b) by lia. apply ztake_len_app.
  - rewrite Z.add_comm, <- zdrop_zdrop, H by lia. apply zdrop_len_app.
Qed.

Lemma index_slice_here data off (b post : list Z) n :
  0 <= off -> n = len b -> 0 < n -> zdrop off data = b ++ post -> index_slice data off n = ret b.
Proof.
  intros Ho -> Hn H. destruct (zdrop_here _ _ _ _ Ho H) as (Hl & Hs & _). unfold index_slice.
  rewrite (proj2 (Z.leb_le _ _)) by auto. by rewrite Hs.
Qed.

Lemma read_int_here data off (b post : list Z) n what :
  0 <= off -> n = len b -> 0 < n -> zdrop off data = b ++ post ->
  read_int data off n what = ret (from_be_bytes b).
Proof.
  intros Ho Hn Hp H. unfold read_int. rewrite (index_slice_here _ _ b post) by done.
  subst n. destruct (zdrop_here _ _ _ _ Ho H) as (Hl & _). rewrite (proj2 (Z.ltb_ge _ _)) by auto. done.
Qed.

Lemma read_u16_here data off x post what :
  0 <= off -> zdrop off data = be_u16 x ++ post -> read_int data off 2 what = ret (wrap 16 x).
Proof.
  intros Ho H. rewrite (read_int_here data off (be_u16 x) post 2 what Ho);
    [by rewrite from_be_u16|by rewrite len_be_u16|done|done].
Qed.

Lemma read_u32_here data off x post what :
  0 <= off -> zdrop off data = be_u32 x ++ post -> read_int data off 4 what = ret (wrap 32 x).
Proof.
  intros Ho H. rewrite (read_int_here data off (be_u32 x) post 4 what Ho);
    [by rewrite from_be_u32|by rewrite len_be_u32|done|done].
Qed.

Lemma read_pv_string_here data off (b post : list Z) n :
  0 <= off -> n = len b -> 0 < n -> zdrop off data = b ++ post ->
  read_pv_string data off n = ret (nul_terminated b).
Proof.
  intros Ho -> Hp H. destruct (zdrop_here _ _ _ _ Ho H) as (Hl & _). specialize (Hl Hp).
  unfold read_pv_string. rewrite Z.min_r by lia. rewrite (proj2 (Z.leb_gt _ _)) by lia.
  rewrite (index_slice_here _ _ b post) by (done || lia). done.
Qed.

Lemma zdrop_next data off (b post : list Z) n :
  0 <= off -> n = len b -> zdrop off data = b ++ post -> zdrop (off + n) data = post.
Proof. intros Ho -> H. by destruct (zdrop_here _ _ _ _ Ho H) as (_ & _ & ->). Qed.

(** Loops over blocks of one size. *)
Lemma read_limits_here {T} target (wire : T -> list Z) (f : T -> f64) (ls : list T) :
  0 < limit_size target -> Forall (fun x => len (wire x) = limit_size target) ls ->
  (forall x data off post, x ∈ ls -> 0 <= off -> zdrop off data = wire x ++ post ->
     read_limit target data off = ret (f x)) ->
  forall data off post, 0 <= off -> zdrop off data = write_be ls wire ++ post ->
  read_limits (length ls) target data off = ret (map f ls, off + limit_size target * len ls).
Proof.
  intros Hs Hl. unfold write_be. induction Hl as [|x ls Hx Hls IH]; intros Hr data off post Ho H.
  - cbn. unfold ret. do 3 f_equal. lia.
  - cbn [length read_limits map] in *. rewrite mjoin_cons, <- app_assoc in H.
    rewrite (Hr x data off _) by (done || by left). cbn [may_bind ret]. unfold ret at 1. cbn [may_bind].
    rewrite (IH ltac:(intros; eapply Hr; [by right|done..]) data (off + limit_size target) post)
      by (lia || by eapply zdrop_next).
    unfold ret. cbn [may_bind fst snd]. do 3 f_equal. lia.
Qed.

(** ** The numeric classes *)

Lemma length_get_limits s n : length (get_limits s n) = 8%nat.
Proof. unfold get_limits. repeat case_match; by rewrite ?length_insert. Qed.

Lemma length_limits_as_integers ls : length (limits_as_integers ls) = length ls.
Proof. unfold limits_as_integers. by rewrite length_imap. Qed.

Lemma Forall_insert_f (P : f64 -> Prop) i x l : P x -> Forall P l -> Forall P (<[i := x]> l).
Proof. intros. by apply Forall_insert. Qed.

Lemma get_limits_valid s n :
  snapshot_ok s -> Forall (fun f => f64_valid f = true) (get_limits s n).
Proof.
  intros Hs. set (P := fun f => f64_valid f = true).
  assert (H0 : Forall P LIMIT_SEED) by (repeat constructor).
  assert (Hd : forall d, s_display s = Some d -> P (upper_disp_limit d) /\ P (lower_disp_limit d) /\
    P (upper_alarm_limit d) /\ P (upper_warning_limit d) /\ P (lower_warning_limit d) /\ P (lower_alarm_limit d)).
  { intros d Hd. pose proof (so_display s Hs d Hd) as Hf. rewrite !Forall_cons in Hf. tauto. }
  assert (Hc : forall c, s_control s = Some c -> P (upper_ctrl_limit c) /\ P (lower_ctrl_limit c)).
  { intros c Hc. pose proof (so_control s Hs c Hc) as Hf. rewrite !Forall_cons in Hf. tauto. }
  unfold get_limits, graphic_limits, alarm_limits, control_limits, supplied.
  destruct (s_display s) as [d|]; cbn [mbind option_bind]; [destruct (Hd d eq_refl) as (?&?&?&?&?&?)|];
    destruct (s_control s) as [c|]; cbn [mbind option_bind]; try destruct (Hc c eq_refl) as (?&?);
    repeat case_match; simplify_eq; repeat apply Forall_insert_f; done.
Qed.

Lemma limits_as_integers_ok ls : Forall (is_sint 32) (limits_as_integers ls).
Proof.
  apply Forall_lookup. intros i x. unfold limits_as_integers. rewrite list_lookup_imap.
  intros (l & _ & ->)%fmap_Some. case_match; [unfold is_sint; lia|apply cast_i32_ok].
Qed.

Lemma Forall_take_f {A} (P : A -> Prop) n l : Forall P l -> Forall P (take n l).
Proof. apply Forall_take. Qed.

(** The numeric metadata of a class. *)
Definition numeric_meta (target : DbFieldType) (s : Snapshot) (n : nat) : list Z :=
  match target with
  | Float => encode_prec_units_limits_f32 s n
  | Double => encode_prec_units_limits_f64 s n
  | Short => encode_units_limits_i16 s n
  | Long => encode_units_limits_i32 s n
  | _ => encode_units_limits_u8 s n ++ [0]
  end.

Definition numeric_wire (t : DbFieldType) : bool :=
  match t with Short | Float | Char | Long | Double => true | _ => false end.

(** The limits of a block, in the order of the wire, as the class carries them. *)
Definition client_limits (target : DbFieldType) (s : Snapshot) (n : nat) : list f64 :=
  let reals := take n (get_limits s n) in
  let ints := take n (limits_as_integers (get_limits s n)) in
  match target with
  | Double => reals
  | Float => map (fun l => f64_of_f32 (cast_f32 l)) reals
  | Short => map (fun l => f64_of_Z (swrap 16 l)) ints
  | Char => map (fun l => f64_of_Z (swrap 8 l)) ints
  | _ => map f64_of_Z ints
  end.

(** Each limit of the reading is in its own place of the block. *)
Lemma client_limits_named target s (ctrl : bool) :
  let d := client_display target s in
  let c := client_control target s in
  client_limits target s (if ctrl then 8 else 6)%nat =
    [upper_disp_limit d; lower_disp_limit d; upper_alarm_limit d; upper_warning_limit d;
     lower_warning_limit d; lower_alarm_limit d] ++ if ctrl then [upper_ctrl_limit c; lower_ctrl_limit c] else [].
Proof.
  unfold client_limits, limits_as_integers, get_limits, graphic_limits, alarm_limits, control_limits, supplied,
    client_display, client_control, client_limit, shown.
  destruct (s_display s) as [d|], (s_control s) as [c|], (s_properties s) as [? ? [] [] [] ?], ctrl, target; reflexivity.
Qed.

(** The limit block of a class is read as the limits it carries. *)
Lemma limit_block_here target s (ctrl : bool) data off post :
  let n := (if ctrl then 8 else 6)%nat in
  numeric_wire target = true -> snapshot_ok s -> 0 <= off ->
  zdrop off data =
    match target with
    | Float => encode_limits n (get_limits s n) (fun l => be_f32 (cast_f32 l))
    | Double => encode_limits n (get_limits s n) be_f64
    | Short => encode_limits n (limits_as_integers (get_limits s n)) be_u16
    | Long => encode_limits n (limits_as_integers (get_limits s n)) be_u32
    | _ => encode_limits n (limits_as_integers (get_limits s n)) (fun l => [wrap 8 l])
    end ++ post ->
  read_limits n (wire_carrier target) data off =
    ret (client_limits target s n, off + limit_size target * Z.of_nat n).
Proof.
  intros n Ht Hs Ho H.
  assert (Hr : Forall (fun f => f64_valid f = true) (take n (get_limits s n)))
    by (apply Forall_take_f, get_limits_valid, Hs).
  assert (Hi : Forall (is_sint 32) (take n (limits_as_integers (get_limits s n))))
    by (apply Forall_take_f, limits_as_integers_ok).
  assert (Hlr : length (take n (get_limits s n)) = n)
    by (rewrite length_take, length_get_limits; by destruct ctrl).
  assert (Hli : length (take n (limits_as_integers (get_limits s n))) = n)
    by (rewrite length_take, length_limits_as_integers, length_get_limits; by destruct ctrl).
  assert (Hb : forall {T} (l : list T) (wire : T -> list Z) k, (forall x, len (wire x) = k) ->
    Forall (fun x => len (wire x) = k) l) by (intros; by apply Forall_true).
  unfold encode_limits in H. unfold client_limits.
  destruct target; try done; cbn [wire_carrier].
  - rewrite <- Hli at 1. rewrite (read_limits_here Short be_u16 (fun l => f64_of_Z (swrap 16 l)))
      with (post := post); [by rewrite Hli|done|apply Hb, len_be_u16| |done|done].
    intros x d o p _ Hoo Hx. cbn [read_limit]. unfold read_i16.
    rewrite (read_u16_here _ _ x p) by done. unfold ret. cbn [may_bind]. by rewrite swrap_wrap.
  - rewrite <- Hlr at 1. rewrite (read_limits_here Float (fun l => be_f32 (cast_f32 l))
      (fun l => f64_of_f32 (cast_f32 l))) with (post := post);
      [by rewrite Hlr|done|apply Hb; intros; apply len_be_f32| |done|done].
    intros x d o p _ Hoo Hx. cbn [read_limit]. unfold read_f32.
    rewrite (read_int_here _ _ (be_f32 (cast_f32 x)) p) by (by rewrite ?len_be_f32). unfold ret. cbn [may_bind].
    by rewrite from_be_of_f32 by apply cast_f32_valid.
  - rewrite <- Hli at 1. rewrite (read_limits_here UChar (fun l => [wrap 8 l]) (fun l => f64_of_Z (swrap 8 l)))
      with (post := post); [by rewrite Hli|done|by apply Hb| |done|done].
    intros x d o p _ Hoo Hx. cbn [read_limit].
    destruct (zdrop_here d o [wrap 8 x] p Hoo Hx) as (Hl & _). specialize (Hl ltac:(done)).
    rewrite (proj2 (Z.ltb_lt _ _)) by (cbn in Hl; lia).
    rewrite (index_slice_here _ _ [wrap 8 x] p) by done. unfold ret. cbn [may_bind].
    unfold from_be_bytes. cbn [rev app from_le_bytes]. rewrite Z.mul_0_r, Z.add_0_r. by rewrite swrap_wrap.
  - rewrite <- Hli at 1. rewrite (read_limits_here Long be_u32 f64_of_Z)
      with (post := post); [by rewrite Hli|done|apply Hb, len_be_u32| |done|done].
    intros x d o p Hin Hoo Hx. cbn [read_limit]. unfold read_i32.
    rewrite (read_u32_here _ _ x p) by done. unfold ret. cbn [may_bind].
    rewrite swrap_wrap, swrap_small by (done || by eapply Forall_forall in Hi). done.
  - rewrite <- Hlr at 1. rewrite (read_limits_here Double be_f64 id) with (post := post);
      [by rewrite Hlr, map_id|done|apply Hb, len_be_f64| |done|done].
    intros x d o p Hin Hoo Hx. cbn [read_limit]. unfold read_f64.
    rewrite (read_int_here _ _ (be_f64 x) p) by (by rewrite ?len_be_f64). unfold ret. cbn [may_bind].
    rewrite from_be_of_f64; [done|]. by eapply Forall_forall in Hr.
Qed.

Lemma len_encode_units s : len (encode_units s) = 8.
Proof. unfold encode_units. destruct (units s); [by rewrite len_fixed_text|by rewrite length_replicate]. Qed.

Lemma nul_terminated_units s : nul_terminated (encode_units s) = client_units s.
Proof.
  unfold encode_units, client_units, units, supplied, shown. destruct (s_display s) as [d|]; [|done].
  cbn [mbind option_bind]. destruct (p_units _); [by rewrite nul_terminated_fixed|done].
Qed.

Lemma len_write_be {T} (l : list T) wire k : (forall x, len (wire x) = k) -> len (write_be l wire) = k * len l.
Proof.
  intros Hk. unfold write_be. induction l as [|x l IH]; [cbn; lia|].
  cbn [map length]. rewrite mjoin_cons, length_app. rewrite Nat2Z.inj_add, Hk, IH. lia.
Qed.

Lemma len_encode_limits {T} n (l : list T) wire k :
  (n <= length l)%nat -> (forall x, len (wire x) = k) -> len (encode_limits n l wire) = k * Z.of_nat n.
Proof. intros Hn Hk. unfold encode_limits. rewrite (len_write_be _ _ k Hk), length_take. f_equal. lia. Qed.

Lemma precision_ok s p : snapshot_ok s -> precision s = Some p -> is_sint 16 p.
Proof.
  intros Hs. unfold precision, supplied. intros (d & Hd & Hp)%bind_Some. case_match; simplify_eq.
  by apply (so_precision s Hs).
Qed.

Lemma precision_shown s : default 0 (precision s) = shown (s_display s) (p_precision (s_properties s)) d_precision 0.
Proof. unfold precision, supplied, shown. destruct (s_display s); [|done]. cbn [mbind option_bind]. by destruct (p_precision _). Qed.

(** The numeric metadata is read back as the display and control blocks. *)
Lemma decode_numeric_here target s (ctrl : bool) data post :
  let n := (if ctrl then 8 else 6)%nat in
  numeric_wire target = true -> snapshot_ok s -> zdrop 4 data = numeric_meta target s n ++ post ->
  decode_numeric_meta (wire_carrier target) data 4 ctrl =
    ret (client_display target s, if ctrl then Some (client_control target s) else None, gr_ctrl_meta_size target ctrl).
Proof.
  intros n Ht Hs H. pose proof (limit_block_here target s ctrl data) as Hb.
  assert (Hu : forall off blk, 0 <= off -> zdrop off data = encode_units s ++ blk ->
    read_pv_string data off MAX_UNITS_SIZE = ret (client_units s) /\ zdrop (off + MAX_UNITS_SIZE) data = blk).
  { intros off blk Ho Hz. rewrite (read_pv_string_here _ _ (encode_units s) blk)
      by (rewrite ?len_encode_units; done). rewrite nul_terminated_units. split; [done|].
    eapply zdrop_next; [done| |done]. by rewrite len_encode_units. }
  assert (Hp : forall rest, zdrop 4 data = encode_precision s ++ rest ->
    read_i16 data 4 = ret (default 0 (precision s)) /\ zdrop 8 data = rest).
  { intros rest Hz. unfold encode_precision in Hz. pose proof Hz as Hz'. rewrite <- app_assoc in Hz. split.
    - unfold read_i16. rewrite (read_u16_here data 4 _ _ _ ltac:(done) Hz).
      unfold ret. cbn [may_bind]. rewrite swrap_wrap by lia. do 2 f_equal. apply swrap_small; [lia|].
      destruct (precision s) as [p|] eqn:E; [by apply (precision_ok s)|cbn; lia].
    - apply (zdrop_next data 4 _ rest 4) in Hz'; [done|lia|]. rewrite length_app, Nat2Z.inj_add, len_be_u16. done. }
  unfold numeric_meta, encode_prec_units_limits_f32, encode_prec_units_limits_f64, encode_units_limits_i16,
    encode_units_limits_i32, encode_units_limits_u8 in H.
  unfold decode_numeric_meta. destruct target; try done; cbn [wire_carrier]; rewrite <- ?app_assoc in H.
  all: match type of H with
       | _ = encode_precision _ ++ _ =>
           destruct (Hp _ H) as [-> H']; unfold ret at 1; cbn [may_bind]; unfold ret at 1; cbn [may_bind];
           destruct (Hu 8 _ ltac:(lia) H') as [Hu1 Hu2]
       | _ => unfold ret at 1; cbn [may_bind]; destruct (Hu 4 _ ltac:(lia) H) as [Hu1 Hu2]
       end.
  all: change (4 + 4) with 8; rewrite Hu1; unfold ret at 1; cbn [may_bind].
  all: match type of Hu2 with zdrop ?o _ = _ ++ ?p =>
         specialize (Hb o p Ht Hs ltac:(unfold MAX_UNITS_SIZE; lia) Hu2) end.
  all: cbn [wire_carrier] in Hb; rewrite Hb; unfold ret; cbn [may_bind].
  all: unfold n; rewrite client_limits_named; rewrite ?precision_shown.
  all: unfold gr_ctrl_meta_size, limit_size, MAX_UNITS_SIZE; destruct ctrl; done.
Qed.

(** ** The enum class *)

Definition enum_slot (ei : EnumInfo) (i : nat) : list Z :=
  match enum_strings ei !! i with
  | Some label => fixed_text MAX_ENUM_STRING_SIZE label
  | None => replicate (Z.to_nat MAX_ENUM_STRING_SIZE) 0
  end.

Lemma len_enum_slot ei i : len (enum_slot ei i) = 26.
Proof. unfold enum_slot. case_match; [by rewrite len_fixed_text|by rewrite length_replicate]. Qed.

Lemma decode_enum_slots_here ei no_str data n : forall i off post,
  0 <= off -> no_str = Z.min (len (enum_strings ei)) 16 -> (i + n = 16)%nat ->
  zdrop off data = write_be (seq i n) (enum_slot ei) ++ post ->
  decode_enum_slots n (Z.of_nat i) no_str data off =
    ret (map (fun label => nul_terminated (ztake 25 label)) (take n (drop i (enum_strings ei)))).
Proof.
  induction n as [|n IH]; intros i off post Ho Hs Hi H; [done|].
  cbn [seq decode_enum_slots] in *. unfold write_be in H. cbn [map] in H. rewrite mjoin_cons, <- app_assoc in H.
  rewrite (read_pv_string_here _ _ (enum_slot ei i) _ MAX_ENUM_STRING_SIZE Ho (eq_sym (len_enum_slot ei i)) ltac:(done) H).
  unfold ret at 1. cbn [may_bind].
  replace (Z.of_nat i + 1) with (Z.of_nat (S i)) by lia.
  rewrite (IH (S i) (off + MAX_ENUM_STRING_SIZE) post);
    [|unfold MAX_ENUM_STRING_SIZE; lia|done|lia|
      eapply zdrop_next; [done|exact (eq_sym (len_enum_slot ei i))|exact H]].
  unfold ret. cbn [may_bind]. do 2 f_equal. unfold enum_slot.
  destruct (enum_strings ei !! i) as [label|] eqn:E.
  - pose proof (lookup_lt_Some _ _ _ E). rewrite (proj2 (Z.ltb_lt _ _)) by lia.
    rewrite (drop_S _ _ _ E). cbn [take map]. f_equal. by apply nul_terminated_fixed.
  - apply lookup_ge_None_1 in E. rewrite (proj2 (Z.ltb_ge _ _)) by lia.
    rewrite (drop_ge (enum_strings ei) i), (drop_ge (enum_strings ei) (S i)) by lia. by destruct n.
Qed.

Lemma decode_enum_here s data post :
  zdrop 4 data = encode_enum_metadata s ++ post ->
  decode_enum_metadata data 4 = ret (EnumInfo_new (client_labels s), 422).
Proof.
  intros H. unfold decode_enum_metadata, read_u16, client_labels.
  assert (Hz : forall ei, zdrop 4 data =
    (be_u16 (Z.min (len (enum_strings ei)) 16) ++ write_be (seq 0 16) (enum_slot ei)) ++ post ->
    (do no_str <- read_int data 4 2 "u16"; do strings <- decode_enum_slots 16 0 no_str data (4 + 2);
     ret (EnumInfo_new strings, 4 + 2 + MAX_ENUM_STATES * MAX_ENUM_STRING_SIZE)) =
    ret (EnumInfo_new (map (fun label => nul_terminated (ztake 25 label)) (take 16 (enum_strings ei))), 422)).
  { intros ei Hz. rewrite <- app_assoc in Hz.
    rewrite (read_u16_here data 4 _ _ _ ltac:(done) Hz).
    unfold ret at 1. cbn [may_bind]. rewrite wrap_small by (unfold is_uint; lia).
    change 0 with (Z.of_nat 0). rewrite (decode_enum_slots_here ei _ data 16 0 (4 + 2) post);
      [done|lia|done|done|]. eapply zdrop_next; [lia| |exact Hz]. by rewrite len_be_u16. }
  unfold encode_enum_metadata in H. destruct (s_enums s) as [ei|]; [by apply Hz|].
  apply (Hz (EnumInfo_new [])). exact H.
Qed.

(** ** Sizes *)

Ltac dbr_class :=
  unfold Dbr.in_range;
  repeat match goal with
  | |- context [?a <=? ?b] =>
      first [rewrite (proj2 (Z.leb_le a b)) by lia|rewrite (proj2 (Z.leb_gt a b)) by lia]
  | |- context [?a =? ?b] =>
      first [rewrite (proj2 (Z.eqb_eq a b)) by lia|rewrite (proj2 (Z.eqb_neq a b)) by lia]
  end; cbn [andb orb].

Lemma native_wire t target : native_type_for_dbr t = Ok target -> wire_type target = true.
Proof.
  unfold native_type_for_dbr. destruct (dbr_native_index t); [|done]. unfold from_u16.
  intros H. repeat case_hyp H; simplify_eq; done.
Qed.

Lemma len_gr_ctrl_meta target s (ctrl : bool) :
  wire_type target = true ->
  len (write_gr_ctrl_meta target s (if ctrl then 8 else 6)%nat) = gr_ctrl_meta_size target ctrl.
Proof.
  intros Ht. set (n := (if ctrl then 8 else 6)%nat).
  assert (Hn : (n <= 8)%nat) by (subst n; destruct ctrl; lia).
  assert (Hr : (n <= length (get_limits s n))%nat) by (by rewrite length_get_limits).
  assert (Hi : (n <= length (limits_as_integers (get_limits s n)))%nat)
    by (by rewrite length_limits_as_integers).
  unfold write_gr_ctrl_meta. rewrite !length_app, !Nat2Z.inj_add, !len_be_u16.
  unfold encode_prec_units_limits_f32, encode_prec_units_limits_f64, encode_units_limits_i16,
    encode_units_limits_i32, encode_units_limits_u8, encode_precision, gr_ctrl_meta_size, MAX_UNITS_SIZE.
  destruct target; try done; rewrite ?length_app, ?Nat2Z.inj_add, ?len_encode_units, ?len_be_u16.
  - rewrite (len_encode_limits n _ _ 2 Hi len_be_u16). by destruct ctrl.
  - rewrite (len_encode_limits n _ _ 4 Hr) by (intros; apply len_be_f32). by destruct ctrl.
  - unfold encode_enum_metadata. destruct (s_enums s).
    + rewrite length_app, Nat2Z.inj_add, len_be_u16, (len_write_be _ _ 26); [done|]. intros i.
      case_match; [by rewrite len_fixed_text|by rewrite length_replicate].
    + by rewrite length_app, Nat2Z.inj_add, len_be_u16, length_replicate.
  - rewrite (len_encode_limits n _ _ 1 Hi) by done. by destruct ctrl.
  - rewrite (len_encode_limits n _ _ 4 Hi len_be_u32). by destruct ctrl.
  - rewrite (len_encode_limits n _ _ 8 Hr len_be_f64). by destruct ctrl.
Qed.

(** The metadata has the size the sizing functions say. *)
Lemma len_dbr_meta t target s meta :
  0 <= t -> wire_type target = true -> dbr_meta t target s = Some meta -> len meta = dbr_meta_size t target.
Proof.
  intros Ht Hw. unfold dbr_meta, dbr_meta_size, write_sts_meta, write_time_meta.
  destruct (epics_timestamp_parts _) as [secs nanos].
  repeat (case_match; [intros [= <-]; rewrite ?length_app, ?Nat2Z.inj_add, ?len_be_u16, ?len_be_u32;
    cbn [length]; first [done|lia|apply (len_gr_ctrl_meta target s false Hw)|apply (len_gr_ctrl_meta target s true Hw)]|]).
  done.
Qed.

Lemma meta_size_carrier t target : dbr_meta_size t (wire_carrier target) = dbr_meta_size t target.
Proof. unfold dbr_meta_size. by destruct target. Qed.

(** ** A body is decoded to what was read *)

Lemma index_from_here (pre body : list Z) off : off = len pre -> index_from (pre ++ body) off = ret body.
Proof.
  intros ->. unfold index_from. rewrite (proj2 (Z.leb_le _ _)) by (rewrite length_app; lia).
  by rewrite zdrop_len_app.
Qed.

Lemma client_time_here ts :
  0 <= subsec_nanos ts < 10 ^ 9 ->
  let '(secs, nanos) := epics_timestamp_parts ts in
  is_u32 secs /\ is_u32 nanos /\ epics_secs_to_wall_time secs nanos = client_time ts.
Proof.
  intros Hn. unfold epics_timestamp_parts, client_time, epics_secs_to_wall_time. case_decide; [done|].
  split_and!; [by apply wrap_range|unfold is_uint; lia|].
  rewrite Z.div_small, Z.mod_small by lia. f_equal. unfold wrap.
  rewrite Z.mod_mod_divide by (by exists (2 ^ 32)). lia.
Qed.

Lemma decode_sts_here target s cs rest :
  wire_type target = true -> snapshot_ok s -> Forall (cell_ok target) cs ->
  decode_sts (wire_carrier target)
    (write_sts_meta target (al_status (s_alarm s)) (al_severity (s_alarm s))
     ++ mjoin (map (image target) cs) ++ rest) (len cs) =
  ret (Snapshot_new (received target cs) (al_status (s_alarm s)) (al_severity (s_alarm s)) UNIX_EPOCH).
Proof.
  intros Ht Hs Hc. set (body := mjoin (map (image target) cs) ++ rest).
  set (st := al_status (s_alarm s)). set (sv := al_severity (s_alarm s)).
  set (data := write_sts_meta target st sv ++ body).
  assert (H0 : zdrop 0 data = be_u16 st ++ be_u16 sv ++ sts_pad target ++ body).
  { subst data. unfold write_sts_meta. by rewrite zdrop_0, <- !app_assoc. }
  pose proof (zdrop_next data 0 _ _ 2 ltac:(lia) ltac:(by rewrite len_be_u16) H0) as H2.
  unfold decode_sts, read_u16. rewrite (read_u16_here data 0 _ _ _ ltac:(lia) H0). unfold ret at 1. cbn [may_bind].
  rewrite (read_u16_here data 2 _ _ _ ltac:(lia) H2). unfold ret at 1. cbn [may_bind].
  subst data. rewrite index_from_here.
  2: { unfold write_sts_meta. rewrite !length_app, !Nat2Z.inj_add, !len_be_u16. destruct target; done. }
  unfold ret at 1. cbn [may_bind]. subst body. rewrite from_bytes_array_cells by done.
  unfold ret. cbn [may_bind]. rewrite !wrap_small by apply Hs. done.
Qed.

Lemma decode_time_here target s cs rest :
  wire_type target = true -> snapshot_ok s -> Forall (cell_ok target) cs ->
  decode_time (wire_carrier target)
    (write_time_meta target (al_status (s_alarm s)) (al_severity (s_alarm s)) (s_timestamp s)
     ++ mjoin (map (image target) cs) ++ rest) (len cs) =
  ret (Snapshot_new (received target cs) (al_status (s_alarm s)) (al_severity (s_alarm s))
         (client_time (s_timestamp s))).
Proof.
  intros Ht Hs Hc. set (body := mjoin (map (image target) cs) ++ rest).
  set (st := al_status (s_alarm s)). set (sv := al_severity (s_alarm s)).
  pose proof (client_time_here _ (so_time s Hs)) as Htime. unfold write_time_meta.
  destruct (epics_timestamp_parts (s_timestamp s)) as [secs nanos]. destruct Htime as (Hse & Hna & <-).
  set (meta := be_u16 st ++ be_u16 sv ++ be_u32 secs ++ be_u32 nanos ++ time_pad target).
  set (data := meta ++ body).
  assert (H0 : zdrop 0 data = be_u16 st ++ be_u16 sv ++ be_u32 secs ++ be_u32 nanos ++ time_pad target ++ body).
  { subst data meta. by rewrite zdrop_0, <- !app_assoc. }
  pose proof (zdrop_next data 0 _ _ 2 ltac:(lia) ltac:(by rewrite len_be_u16) H0) as H2.
  pose proof (zdrop_next data 2 _ _ 2 ltac:(lia) ltac:(by rewrite len_be_u16) H2) as H4.
  pose proof (zdrop_next data 4 _ _ 4 ltac:(lia) ltac:(by rewrite len_be_u32) H4) as H8.
  unfold decode_time, read_u16, read_u32.
  rewrite (read_u16_here data 0 _ _ _ ltac:(lia) H0). unfold ret at 1. cbn [may_bind].
  rewrite (read_u16_here data 2 _ _ _ ltac:(lia) H2). unfold ret at 1. cbn [may_bind].
  rewrite (read_u32_here data 4 _ _ _ ltac:(lia) H4). unfold ret at 1. cbn [may_bind].
  rewrite (read_u32_here data 8 _ _ _ ltac:(lia) H8). unfold ret at 1. cbn [may_bind].
  subst data. rewrite index_from_here.
  2: { subst meta. rewrite !length_app, !Nat2Z.inj_add, !len_be_u16, !len_be_u32. destruct target; done. }
  unfold ret at 1. cbn [may_bind]. subst body. rewrite from_bytes_array_cells by done.
  unfold ret. cbn [may_bind]. by rewrite !wrap_small by (done || apply Hs).
Qed.

Lemma decode_gr_ctrl_here t target s (ctrl : bool) cs rest :
  20 < t -> ctrl = (28 <=? t) -> wire_type target = true -> snapshot_ok s -> Forall (cell_ok target) cs ->
  decode_gr_ctrl (wire_carrier target)
    (write_gr_ctrl_meta target s (if ctrl then 8 else 6)%nat ++ mjoin (map (image target) cs) ++ rest)
    (len cs) ctrl =
  ret (client_view t target s (received target cs)).
Proof.
  intros Hlt Hctrl Ht Hs Hc. set (body := mjoin (map (image target) cs) ++ rest).
  pose proof (len_gr_ctrl_meta target s ctrl Ht) as Hlen.
  set (meta := write_gr_ctrl_meta target s (if ctrl then 8 else 6)%nat) in *. set (data := meta ++ body).
  set (st := al_status (s_alarm s)). set (sv := al_severity (s_alarm s)).
  assert (Hbody : forall off, off = gr_ctrl_meta_size target ctrl -> index_from data off = ret body).
  { intros off ->. by apply index_from_here. }
  assert (Hv : from_bytes_array (wire_carrier target) body (len cs) = ret (received target cs))
    by (by apply from_bytes_array_cells).
  assert (H0 : exists more, zdrop 0 data = be_u16 st ++ be_u16 sv ++ more /\
    (numeric_wire target = true -> more = numeric_meta target s (if ctrl then 8 else 6)%nat ++ body) /\
    (target = Enum -> more = encode_enum_metadata s ++ body)).
  { subst data meta. unfold write_gr_ctrl_meta. rewrite zdrop_0, <- !app_assoc. eexists. split; [done|].
    by destruct target. }
  destruct H0 as (more & H0 & Hnum & Henum).
  pose proof (zdrop_next data 0 _ _ 2 ltac:(lia) ltac:(by rewrite len_be_u16) H0) as H2.
  pose proof (zdrop_next data 2 _ _ 2 ltac:(lia) ltac:(by rewrite len_be_u16) H2) as H4.
  change (zdrop 4 data = more) in H4.
  unfold decode_gr_ctrl, read_u16.
  rewrite (read_u16_here data 0 _ _ _ ltac:(lia) H0). unfold ret at 1. cbn [may_bind].
  rewrite (read_u16_here data 2 _ _ _ ltac:(lia) H2). unfold ret at 1. cbn [may_bind].
  rewrite !wrap_small by apply Hs. unfold client_view.
  rewrite (proj2 (Z.leb_gt t 6)), (proj2 (Z.leb_gt t 13)), (proj2 (Z.leb_gt t 20)) by lia. rewrite <- Hctrl.
  destruct (numeric_wire target) eqn:Hn.
  - rewrite (Hnum eq_refl) in H4. pose proof (decode_numeric_here target s ctrl data body Hn Hs H4) as Hd.
    destruct target; try done; cbn [wire_carrier] in *; rewrite Hd; unfold ret at 1; cbn [may_bind];
      unfold ret at 1; cbn [may_bind]; rewrite Hbody by done; unfold ret at 1; cbn [may_bind];
      rewrite Hv; unfold ret; cbn [may_bind]; destruct ctrl; by destruct cs as [|? [|? ?]].
  - destruct target; try done; cbn [wire_carrier] in *.
    + unfold ret at 1. cbn [may_bind]. rewrite Hbody by done. unfold ret at 1. cbn [may_bind].
      rewrite Hv. unfold ret. cbn [may_bind]. by destruct cs as [|? [|? ?]].
    + rewrite (Henum eq_refl) in H4. rewrite (decode_enum_here s data body H4). unfold ret at 1. cbn [may_bind].
      unfold ret at 1. cbn [may_bind]. rewrite Hbody by done. unfold ret at 1. cbn [may_bind].
      rewrite Hv. unfold ret. cbn [may_bind]. by destruct cs as [|? [|? ?]].
Qed.

(** Decoding a body at the count of its cells gives the client's view of the reading. *)
Lemma decode_body t target s cs rest meta :
  0 <= t <= 34 -> native_type_for_dbr t = Ok target -> snapshot_ok s -> Forall (cell_ok target) cs ->
  dbr_meta t target s = Some meta ->
  decode_dbr t (meta ++ mjoin (map (image target) cs) ++ rest) (len cs) =
  ret (client_view t target s (received target cs)).
Proof.
  intros Ht Hn Hs Hc Hm. pose proof (native_wire _ _ Hn) as Hw.
  pose proof (len_dbr_meta t target s meta ltac:(lia) Hw Hm) as Hl.
  unfold decode_dbr, DBR_CLASS_NAME, DBR_STSACK_STRING.
  rewrite (proj2 (Z.eqb_neq t _)), (proj2 (Z.eqb_neq t _)) by lia. rewrite Hn. cbn [lift_wire].
  unfold ret at 1. cbn [may_bind]. rewrite meta_size_carrier, (proj2 (Z.ltb_ge _ _)) by (rewrite length_app; lia).
  unfold dbr_meta in Hm. revert Hm.
  assert (t <= 6 \/ 7 <= t <= 13 \/ 14 <= t <= 20 \/ 21 <= t <= 27 \/ 28 <= t) as Hcase by lia.
  destruct Hcase as [?|[?|[?|[?|?]]]]; dbr_class; intros [= <-].
  - cbn [app]. rewrite from_bytes_array_cells by done. unfold ret, client_view. cbn [may_bind]. by dbr_class.
  - rewrite decode_sts_here by done. unfold client_view. by dbr_class.
  - rewrite decode_time_here by done. unfold client_view. by dbr_class.
  - apply (decode_gr_ctrl_here t target s false); try done; [lia|]. by dbr_class.
  - apply (decode_gr_ctrl_here t target s true); try done; [lia|]. by dbr_class.
Qed.

(** ** The value a body holds *)

Lemma len_cells_elements v : len (cells v) = elements v.
Proof. destruct v; cbn [cells elements]; rewrite ?length_map; done. Qed.

Lemma dbr_type_wire v : wire_type (db_field_type v) = true -> dbr_type v = db_field_type v.
Proof. by destruct v. Qed.

Section Sent.
Context `{CLong}.

(** The value as the target type carries it. *)
Definition sent_value (target : DbFieldType) (s : Snapshot) : may EpicsValue :=
  if decide (target = DString) then convert_value_to_dbr_string (s_value s) s
  else converted_value target (s_value s).

Lemma get_convert_wire v target :
  value_ok v -> wire_type target = true ->
  match lift_get (get_convert v target) with
  | None => False
  | Some (Ok w) => value_ok w /\ dbr_type w = target /\ elements w = elements v /\ unreadable v target = false
  | Some (Err _) => unreadable v target = true
  end.
Proof.
  intros Hv Ht. pose proof (get_convert_ok v target Hv) as Hg.
  destruct (get_convert v target) as [[w|e]|] eqn:E; cbn; [|done|done].
  destruct Hg as ((H1 & H2 & H3) & H4). split_and!; [done| |done|done]. rewrite dbr_type_wire; [done|by rewrite H2].
Qed.

Lemma unreadable_other v target : is_text v = false -> unreadable v target = false.
Proof. unfold unreadable. intros Hv. destruct (text_row target); [|done]. by destruct v. Qed.

(** Sending a value never panics, and fails exactly for text with an element that is no number
    of the type; otherwise it keeps the number of elements. *)
Lemma sent_value_ok target s :
  wire_type target = true -> value_ok (s_value s) ->
  match sent_value target s with
  | None => False
  | Some (Ok v) => value_ok v /\ dbr_type v = target /\ elements v = elements (s_value s) /\
      unreadable (s_value s) target = false
  | Some (Err _) => unreadable (s_value s) target = true
  end.
Proof.
  intros Ht Hv. unfold sent_value, convert_value_to_dbr_string, converted_value.
  pose proof (get_convert_wire (s_value s) target Hv Ht) as Hg.
  case_decide as Hd; [subst target|].
  - destruct (s_value s); cbn [dbr_string_at_precision]; try exact Hg;
      unfold ret; cbn [value_ok dbr_type elements]; by rewrite ?length_map.
  - case_decide as Hd'; [|exact Hg]. unfold ret. cbn. split_and!; [done..|]. apply unreadable_other.
    destruct (s_value s); try done; by subst target.
Qed.

(** Integers, or their decimal texts, are sent as they are when the type holds them. *)
Lemma sent_value_keeps target s zs :
  wire_type target = true -> value_ok (s_value s) -> integer_type target = true ->
  says (s_value s) zs -> Forall (int_holds target) zs ->
  exists v, sent_value target s = Some (Ok v) /\ int_contents v = Some zs.
Proof.
  intros Ht Hv Hi Hz Hh. unfold sent_value, converted_value. rewrite decide_False by (by intros ->).
  case_decide as Hd.
  - exists (s_value s). split; [done|]. destruct Hz as [Hz|[Hz|(z & Hz & _)]]; [done| |]; rewrite Hz in Hd;
      by subst target.
  - destruct (get_keeps_integers (s_value s) target zs Hv Hi Hz Hh) as (w & -> & Hw). by exists w.
Qed.

Lemma dbr_meta_some t target s : 0 <= t <= 34 -> exists meta, dbr_meta t target s = Some meta.
Proof.
  intros Ht. unfold dbr_meta.
  assert (t <= 6 \/ 7 <= t <= 13 \/ 14 <= t <= 20 \/ 21 <= t <= 27 \/ 28 <= t) as Hcase by lia.
  destruct Hcase as [?|[?|[?|[?|?]]]]; dbr_class; by eexists.
Qed.

Lemma native_of_class t : 0 <= t <= 34 -> exists target, native_type_for_dbr t = Ok target.
Proof.
  intros Ht. rewrite native_type_mod7 by lia. pose proof (Z.mod_pos_bound t 7 ltac:(lia)).
  assert (forall i, 0 <= i <= 6 -> exists target, from_u16 i = Ok target) as Hf; [|apply Hf; lia].
  intros i Hi. assert (i = 0 \/ i = 1 \/ i = 2 \/ i = 3 \/ i = 4 \/ i = 5 \/ i = 6) as Hc by lia.
  repeat (destruct Hc as [->|Hc]; [by eexists|]). subst i. by eexists.
Qed.

(** A body is its metadata and the value sent. *)
Lemma encode_dbr_sent t target s :
  0 <= t <= 34 -> native_type_for_dbr t = Ok target ->
  exists meta, dbr_meta t target s = Some meta /\
  encode_dbr t s = match sent_value target s with
                   | None => None
                   | Some (Err e) => Some (Err e)
                   | Some (Ok v) => Some (Ok (meta ++ write_into v))
                   end.
Proof.
  intros Ht Hn. destruct (dbr_meta_some t target s Ht) as [meta Hm]. exists meta. split; [done|].
  unfold encode_dbr, encode_dbr_into, DBR_CLASS_NAME. rewrite (proj2 (Z.eqb_neq t _)) by lia.
  rewrite Hn, Hm. unfold appended, sent_value. by destruct (if decide (target = DString) then _ else _) as [[?|?]|].
Qed.

(** C17: a reading sent as any plain, STS, TIME, GR or CTRL type is encoded without a panic, and
    refused exactly when it is text with an element the parser of that type refuses; the body
    has the size the sizing functions give, and the client, whatever bytes follow it, decodes
    at the reading's count the value sent (the same integers, when the reading holds or spells
    integers the type can carry), the alarm, the stamp, the units, the precision, and each
    display, alarm, warning and control limit and label under its own name, as its class
    carries them. *)
Theorem reading_is_decoded t s rest :
  0 <= t <= 34 -> snapshot_ok s ->
  exists target, native_type_for_dbr t = Ok target /\
  match sent_value target s with
  | None => False
  | Some (Err e) => encode_dbr t s = Some (Err e) /\ unreadable (s_value s) target = true
  | Some (Ok v) => exists bytes, encode_dbr t s = Some (Ok bytes) /\
      unreadable (s_value s) target = false /\
      (forall zs, integer_type target = true -> says (s_value s) zs -> Forall (int_holds target) zs ->
         int_contents v = Some zs) /\
      len bytes = dbr_meta_size t target + element_size target * count (s_value s) /\
      decode_dbr t (bytes ++ rest) (count (s_value s)) =
        ret (client_view t target s (received target (cells v)))
  end.
Proof.
  intros Ht Hs. destruct (native_of_class t Ht) as [target Hn]. exists target. split; [done|].
  pose proof (native_wire t target Hn) as Hw. pose proof (sent_value_ok target s Hw (so_value s Hs)) as Hv.
  destruct (encode_dbr_sent t target s Ht Hn) as (meta & Hm & He). rewrite He.
  pose proof (fun zs => sent_value_keeps target s zs Hw (so_value s Hs)) as Hkeep.
  destruct (sent_value target s) as [[v|e]|]; [|done|done].
  destruct Hv as (Hok & Hty & Hel & Hread). exists (meta ++ write_into v). do 2 (split; [done|]).
  split; [intros zs Hi Hz Hh; destruct (Hkeep zs Hi Hz Hh) as (w & [= <-] & Hint); exact Hint|].
  pose proof (so_count s Hs) as Hc. rewrite len_cells_elements in Hc.
  assert (count (s_value s) = len (cells v)) as ->.
  { rewrite count_of_elements, len_cells_elements, Hel. apply wrap_small. unfold is_uint.
    rewrite <- Hel, <- len_cells_elements in *. lia. }
  pose proof (cells_ok v Hok) as Hcells. rewrite write_into_cells, Hty in *. split.
  - rewrite length_app, Nat2Z.inj_add, len_mjoin_images by done.
    by rewrite (len_dbr_meta t target s meta) by (lia || done).
  - rewrite <- app_assoc. by apply decode_body.
Qed.

End Sent.

(** ** Any bytes *)

(** No panic, and [P] of the value of a success. *)
Definition fine {A} (P : A -> Prop) (m : may A) : Prop :=
  match m with None => False | Some (Ok x) => P x | Some (Err _) => True end.

Lemma fine_bind {A B} (P : A -> Prop) (Q : B -> Prop) m k :
  fine P m -> (forall x, P x -> fine Q (k x)) -> fine Q (may_bind m k).
Proof. destruct m as [[x|e]|]; cbn; auto. Qed.

Lemma read_int_fine data off n what : fine (fun _ => True) (read_int data off n what).
Proof.
  unfold read_int, index_slice. destruct (Z.ltb_spec (len data) (off + n)); [done|].
  by rewrite (proj2 (Z.leb_le _ _)) by lia.
Qed.

Lemma read_pv_string_fine data off n : fine (fun _ => True) (read_pv_string data off n).
Proof.
  unfold read_pv_string, index_slice. case_match; [done|].
  by rewrite (proj2 (Z.leb_le _ _)) by lia.
Qed.

Lemma index_from_fine data off :
  Forall is_u8 data -> 0 <= off <= len data ->
  fine (fun rest => Forall is_u8 rest /\ len rest <= len data) (index_from data off).
Proof.
  intros Hd Ho. unfold index_from. rewrite (proj2 (Z.leb_le _ _)) by lia. split; [by apply Forall_drop|].
  rewrite len_zdrop; lia.
Qed.

Ltac fine_read := eapply fine_bind; [first [apply read_int_fine|apply read_pv_string_fine]|intros ? _].

Lemma read_limit_fine target data off : fine (fun _ => True) (read_limit target data off).
Proof.
  unfold read_limit, read_i16, read_i32, read_f32, read_f64.
  destruct target; try done;
    try (repeat (apply (fine_bind (fun _ => True)); [|done]); apply read_int_fine).
  all: unfold index_slice; destruct (Z.ltb_spec off (len data)); [|done].
  all: by rewrite (proj2 (Z.leb_le _ _)) by lia.
Qed.

Lemma read_limits_fine n target data off :
  fine (fun r => snd r = off + limit_size target * Z.of_nat n) (read_limits n target data off).
Proof.
  revert off. induction n as [|n IH]; intros off; [cbn; lia|]. cbn [read_limits].
  eapply fine_bind; [apply read_limit_fine|intros l _]. eapply fine_bind; [apply IH|intros r Hr].
  cbn [fine ret snd]. rewrite Hr. lia.
Qed.

Lemma decode_numeric_fine target data ctrl :
  numeric_wire target = true \/ target = UChar ->
  fine (fun r => snd r = gr_ctrl_meta_size target ctrl) (decode_numeric_meta target data 4 ctrl).
Proof.
  intros Ht. unfold decode_numeric_meta.
  eapply (fine_bind (fun r => snd r = match target with Float | Double => 8 | _ => 4 end)).
  { unfold read_i16. destruct target; try (by destruct Ht); try done.
    all: repeat (apply (fine_bind (fun _ => True)); [|done]); apply read_int_fine. }
  intros [prec off] Ho. cbn [snd] in Ho. fine_read. eapply fine_bind; [apply read_limits_fine|].
  intros [limits off2] Ho2. cbn [snd fine ret] in *. subst off2 off. unfold gr_ctrl_meta_size, MAX_UNITS_SIZE.
  destruct target; try (by destruct Ht); cbn [limit_size]; destruct ctrl; lia.
Qed.

Lemma decode_enum_slots_fine n data : forall i no_str pos,
  fine (fun _ => True) (decode_enum_slots n i no_str data pos).
Proof.
  induction n as [|n IH]; intros; [done|]. cbn [decode_enum_slots]. fine_read.
  eapply fine_bind; [apply IH|done].
Qed.

(** What a decoded value is: in range, no larger than the count asked for or the data. *)
Definition decoded_ok (data : list Z) (cnt : Z) (v : EpicsValue) : Prop :=
  value_ok v /\ elements v <= cnt /\ elements v <= Z.max 1 (len data).

Lemma chunk_read_ok n b :
  Forall is_u8 b -> length b = n -> is_uint (8 * Z.of_nat n) (from_be_bytes b).
Proof.
  intros Hb Hn. pose proof (from_be_bytes_range b Hb) as Hr. rewrite Hn in Hr. unfold is_uint.
  rewrite Z.pow_mul_r by lia. exact Hr.
Qed.

Lemma as_chunks_ok n data fuel :
  Forall is_u8 data -> Forall (fun b => Forall is_u8 b /\ length b = n) (as_chunks fuel n data) /\
  (length (as_chunks fuel n data) <= fuel)%nat.
Proof.
  revert data. induction fuel as [|fuel IH]; intros data Hd; [by split; [|cbn]|]. cbn [as_chunks].
  destruct (Nat.ltb_spec (length data) n); [split; [done|cbn; lia]|].
  destruct (IH (drop n data)) as [H1 H2]; [by apply Forall_drop|]. split; [|cbn; lia].
  constructor; [|done]. split; [by apply Forall_take|]. rewrite length_take. lia.
Qed.

Lemma read_be_ok {T} (P : T -> Prop) data cnt n elem :
  Forall is_u8 data -> 0 <= cnt -> (forall b, Forall is_u8 b -> length b = n -> P (elem b)) ->
  Forall P (read_be data cnt n elem) /\ len (read_be data cnt n elem) <= Z.min cnt (len data).
Proof.
  intros Hd Hc HP. destruct (as_chunks_ok n data (length data) Hd) as [Hf Hl]. unfold read_be, ztake. split.
  - apply Forall_map, Forall_take. eapply Forall_impl; [exact Hf|]. intros b [H1 H2]. cbn. auto.
  - rewrite length_map, length_take. lia.
Qed.

Lemma from_bytes_fine t data :
  Forall is_u8 data -> fine (decoded_ok data 1) (from_bytes t data).
Proof.
  intros Hd. pose proof from_be_bytes_range as Hr.
  assert (Hs : forall {T : Type} n msg (mk : T -> EpicsValue) (read : list Z -> T), 0 <= n ->
    (forall b, Forall is_u8 b -> length b = Z.to_nat n -> value_ok (mk (read b)) /\ elements (mk (read b)) = 1) ->
    fine (decoded_ok data 1) (if len data <? n then throw (Wire (Protocol msg))
                              else do b <- index_slice data 0 n; ret (mk (read b)))).
  { intros T n msg mk read Hn HP. destruct (Z.ltb_spec (len data) n); [done|]. unfold index_slice.
    rewrite (proj2 (Z.leb_le _ _)) by lia. cbn [fine may_bind ret]. unfold ret. cbn [may_bind fine].
    destruct (HP (slice 0 (0 + n) data)) as [H1 H2]; [by apply Forall_take, Forall_drop| |split_and!; [done|lia..]].
    unfold slice, ztake, zdrop. rewrite length_take, length_drop. lia. }
  destruct t; cbn [from_bytes]; try (apply Hs; [lia|intros b Hb Hl; split; [|done]]); cbn [value_ok].
  all: try (apply is_sint_swrap; lia).
  all: try (apply (chunk_read_ok _ b Hb) in Hl; exact Hl).
  - split_and!; [done|cbn; lia..].
  - apply f32_of_bits_valid.
  - apply f64_of_bits_valid.
Qed.

Lemma from_bytes_array_fine t data cnt :
  Forall is_u8 data -> 0 <= cnt -> fine (decoded_ok data cnt) (from_bytes_array t data cnt).
Proof.
  intros Hd Hc. unfold from_bytes_array. destruct (Z.eqb_spec cnt 0) as [->|].
  { destruct t; cbn [fine ret]; unfold decoded_ok; cbn; split_and!; try done; lia. }
  destruct (Z.eqb_spec cnt 1) as [->|]; [by apply from_bytes_fine|].
  assert (Hr : forall {T} (P : T -> Prop) k elem, (forall b, Forall is_u8 b -> length b = k -> P (elem b)) ->
    Forall P (read_be data cnt k elem) /\ len (read_be data cnt k elem) <= cnt /\
    len (read_be data cnt k elem) <= Z.max 1 (len data)).
  { intros T P k elem HP. destruct (read_be_ok P data cnt k elem Hd Hc HP). split_and!; [done|lia..]. }
  assert (Hb : Forall is_u8 (ztake (Z.min cnt (len data)) data) /\
    len (ztake (Z.min cnt (len data)) data) <= cnt /\
    len (ztake (Z.min cnt (len data)) data) <= Z.max 1 (len data)).
  { split; [by apply Forall_take|]. unfold ztake. rewrite length_take. lia. }
  destruct t; cbn [fine ret]; unfold decoded_ok; cbn [value_ok elements]; try exact Hb.
  1: { destruct (Hr _ (fun _ => True) 40%nat nul_terminated) as (_ & ?); done. }
  all: apply Hr; intros b Hu Hl; first [apply is_sint_swrap; lia|exact (chunk_read_ok _ b Hu Hl)|apply f32_of_bits_valid|apply f64_of_bits_valid].
Qed.

(** The value after [meta] bytes of metadata. *)
Lemma decode_value_fine {A} target data cnt off (k : EpicsValue -> may A) (Q : A -> Prop) :
  Forall is_u8 data -> 0 <= cnt -> 0 <= off <= len data ->
  (forall v, decoded_ok data cnt v -> fine Q (k v)) ->
  fine Q (do rest <- index_from data off; do v <- from_bytes_array target rest cnt; k v).
Proof.
  intros Hd Hc Ho Hk. eapply fine_bind; [by apply index_from_fine|]. intros rest [Hr Hl].
  eapply fine_bind; [by apply from_bytes_array_fine|]. intros v (H1 & H2 & H3). apply Hk.
  unfold decoded_ok. split_and!; [done..|lia].
Qed.

Lemma decode_gr_ctrl_fine target data cnt ctrl :
  wire_type target = true -> Forall is_u8 data -> 0 <= cnt -> gr_ctrl_meta_size target ctrl <= len data ->
  fine (fun s => decoded_ok data cnt (s_value s)) (decode_gr_ctrl (wire_carrier target) data cnt ctrl).
Proof.
  intros Ht Hd Hc Hl. unfold decode_gr_ctrl, read_u16. do 2 fine_read.
  apply (fine_bind (fun r => snd r = gr_ctrl_meta_size target ctrl)).
  - pose proof (fun t => decode_numeric_fine t data ctrl) as Hn.
    destruct target; try done; cbn [wire_carrier].
    3: { unfold decode_enum_metadata, read_u16. eapply (fine_bind (fun r => snd r = 422)); [|by intros [] ?].
         fine_read. by eapply fine_bind; [apply decode_enum_slots_fine|]. }
    all: eapply fine_bind; [apply Hn; auto|]; by intros [[d c] o] Ho.
  - intros [[[d c] e] o] Ho. cbn [snd] in Ho. subst o. apply decode_value_fine; [done..| |done].
    split; [|done]. destruct target, ctrl; try done.
Qed.

(** The two classes whose body is one text whatever the message counts. *)
Definition one_text (t : Z) : bool := (t =? DBR_CLASS_NAME) || (t =? DBR_STSACK_STRING).

(** C18: whatever a peer sends as a body of whatever type, decoding it reads no byte past its
    end; when it succeeds the value is in its type's range and holds no more elements than the
    message counts (exactly one text for [DBR_CLASS_NAME] and [DBR_STSACK_STRING], whatever it
    counts), nor, beyond one, than there are bytes. *)
Theorem any_body_is_decoded_safely t data cnt :
  Forall is_u8 data -> 0 <= cnt ->
  match decode_dbr t data cnt with
  | None => False
  | Some (Err _) => True
  | Some (Ok s) =>
      value_ok (s_value s) /\
      (if one_text t then exists text, s_value s = VString text else elements (s_value s) <= cnt) /\
      elements (s_value s) <= Z.max 1 (len data)
  end.
Proof.
  intros Hd Hc. change (fine (fun s => value_ok (s_value s) /\
    (if one_text t then exists text, s_value s = VString text else elements (s_value s) <= cnt) /\
    elements (s_value s) <= Z.max 1 (len data)) (decode_dbr t data cnt)).
  unfold decode_dbr, one_text, read_u16. destruct (t =? DBR_CLASS_NAME); [|destruct (t =? DBR_STSACK_STRING)]; cbn [orb].
  - case_match; [done|]. fine_read. cbn. split_and!; [done|by eexists|lia].
  - case_match; [done|]. do 5 fine_read. cbn. split_and!; [done|by eexists|lia].
  - destruct (native_type_for_dbr t) as [target|] eqn:En; [|done]. unfold lift_wire. unfold ret at 1. cbn [may_bind].
    pose proof (native_wire t target En) as Ht. rewrite meta_size_carrier.
    destruct (Z.ltb_spec (len data) (dbr_meta_size t target)) as [|Hm]; [done|]. unfold dbr_meta_size in Hm.
    repeat case_match; try done.
    + eapply fine_bind; [by apply from_bytes_array_fine|done].
    + unfold decode_sts, read_u16. do 2 fine_read. apply decode_value_fine; [done..| |done].
      destruct target; try done; cbn in *; lia.
    + unfold decode_time, read_u16, read_u32. do 4 fine_read. apply decode_value_fine; [done..| |done].
      destruct target; try done; cbn in *; lia.
    + by apply decode_gr_ctrl_fine.
    + by apply decode_gr_ctrl_fine.
Qed.

(** ** An update encoded from its log *)

Section Log.
Context `{CLong}.

(** The two request types a channel read encodes and the log encoder does not know. *)
Definition is_ack (t : Z) : bool := (t =? DBR_PUT_ACKT) || (t =? DBR_PUT_ACKS).

(** C19: an update whose class reads nothing of its channel needs no read of it, and is encoded
    from the queued log alone to the bytes, or to the error, that reading the channel and
    writing the log over it gives, whatever the channel holds by then, and with the same count.
    [DBR_PUT_ACKT] and [DBR_PUT_ACKS] are the exception: the log encoder appends nothing and
    answers that the type is unsupported, where the read would have been encoded. *)
Theorem log_encodes_as_the_read dst t e v base :
  as_value e = Some v -> reads_options t v = false ->
  with_live_options t e None = Some (mkUpdate e (BodyLog v)) /\
  update_encode dst t (mkUpdate e (BodyLog v)) =
    (if is_ack t then Some (dst, Err (Wire (UnsupportedType t))) else encode_dbr_into dst t (write_log_over e base)) /\
  update_count (mkUpdate e (BodyLog v)) = update_count (mkUpdate e (BodyRead (write_log_over e base))).
Proof.
  intros Hv Hr. assert (Hs : s_value (write_log_over e base) = v) by (unfold write_log_over; by rewrite Hv).
  unfold with_live_options, update_count, update_encode. cbn [u_body u_log]. rewrite Hv, Hr, Hs.
  split_and!; [done| |done]. unfold is_ack.
  assert (Hm : s_timestamp (write_log_over e base) = time (log_head e) /\
    al_status (s_alarm (write_log_over e base)) = stat (log_head e) /\
    al_severity (s_alarm (write_log_over e base)) = sevr (log_head e)).
  { unfold write_log_over. by rewrite Hv. }
  destruct Hm as (Ht & Hst & Hsv). unfold reads_options in Hr. rewrite !orb_false_iff in Hr.
  destruct Hr as [[[H1 H2] H3] H4]. unfold encode_log_dbr_into, encode_dbr_into. rewrite H3.
  destruct (Z.eqb_spec t DBR_PUT_ACKT) as [->|Ha]; [done|]. destruct (Z.eqb_spec t DBR_PUT_ACKS) as [->|Hk]; [done|].
  cbn [orb]. destruct (native_type_for_dbr t) as [target|] eqn:En; [|done]. unfold dbr_meta. rewrite Ht, Hst, Hsv, Hs.
  rewrite (proj2 (Z.eqb_neq t _) Ha), (proj2 (Z.eqb_neq t _) Hk), H2. cbn [orb].
  assert (Hval : (if decide (target = DString) then convert_value_to_dbr_string v (write_log_over e base)
                  else converted_value target v) = converted_value target v).
  { case_decide as Hd; [|done]. subst target. destruct v; try done. }
  rewrite Hval. repeat case_match; done || (exfalso; unfold Dbr.in_range in *; zbool; lia).
Qed.

(** The body of a channel with no metadata is that of its bare reading, an enum asked for as
    text apart. *)
Lemma serialized_is_the_bare_reading t v status severity time :
  0 <= t <= 34 ->
  (forall target, native_type_for_dbr t = Ok target -> target = DString -> db_field_type v <> Enum) ->
  serialize_dbr t v status severity time = encode_dbr t (Snapshot_new v status severity time).
Proof.
  intros Ht He. destruct (native_of_class t Ht) as [target Hn]. specialize (He target Hn).
  assert (Hval : (if decide (target = DString)
                  then convert_value_to_dbr_string v (Snapshot_new v status severity time)
                  else converted_value target v) = converted_value target v).
  { case_decide as Hd; [|done]. subst target. specialize (He eq_refl). destruct v; done. }
  unfold serialize_dbr, encode_dbr, encode_dbr_into, DBR_CLASS_NAME. rewrite (proj2 (Z.eqb_neq t _)) by lia.
  rewrite Hn. cbn [lift_wire]. unfold ret at 1. cbn [may_bind s_value Snapshot_new]. rewrite Hval. unfold dbr_meta.
  assert (t <= 6 \/ 7 <= t <= 13 \/ 14 <= t <= 20 \/ 21 <= t <= 27 \/ 28 <= t) as Hcase by lia.
  destruct Hcase as [?|[?|[?|[?|?]]]]; dbr_class; destruct (converted_value target v) as [[w|e]|]; done.
Qed.

End Log.

(** Where the two differ: an enum asked for as text is the label of the reading, here the one
    its form gives past its slots, and the index of the bare value. *)
Lemma serialized_enum_text_differs :
  let s := mkSnapshot (VEnum 5) (mkAlarmInfo 0 0 None None []) UNIX_EPOCH None None
             (Some (EnumInfo_new [[79; 102; 102]])) NONE 0 None in
  @encode_dbr lp64 0 s = Some (Ok (replicate 40 0)) /\
  @serialize_dbr lp64 0 (VEnum 5) 0 0 UNIX_EPOCH = Some (Ok (53 :: replicate 39 0)).
Proof. by vm_compute. Qed.

(** An acknowledgement type asked of an update: the read is encoded, the log refused. *)
Lemma log_refuses_an_ack_type :
  let e := read_of (mkLogHead 3 2 [] (mkWallTime 1700000000 250) 0 0) (VShort 5) MASK_VALUE in
  let base := Snapshot_new (VShort 1) 0 0 UNIX_EPOCH in
  reads_options DBR_PUT_ACKT (VShort 5) = false /\
  @encode_dbr_into lp64 [] DBR_PUT_ACKT (write_log_over e base) = Some ([0; 5], Ok tt) /\
  @update_encode lp64 [] DBR_PUT_ACKT (mkUpdate e (BodyLog (VShort 5))) =
    Some ([], Err (Wire (UnsupportedType DBR_PUT_ACKT))).
Proof. by vm_compute. Qed.

(** A clock the check passes is decoded as it was set, to the nanosecond. *)
Lemma unwarned_clock_is_exact now :
  wall_clock_range_warning now = false -> now <> UNIX_EPOCH -> client_time now = now.
Proof.
  unfold wall_clock_range_warning, client_time. intros H Hne. case_decide; [done|].
  apply negb_false_iff, andb_prop in H as [H1%Z.leb_le H2%Z.leb_le]. destruct now as [secs ns]. cbn [unix_secs subsec_nanos] in *.
  rewrite wrap_small by (unfold is_uint; lia). f_equal. lia.
Qed.

(** Splitting a stamp loses none of its nanoseconds. *)
Lemma split_nsec_keeps_the_bits t utag mask :
  mask <> 0 -> 0 <= subsec_nanos t < 10 ^ 9 ->
  let '(t', tag) := split_nsec t utag mask in
  unix_secs t' = unix_secs t /\ subsec_nanos t' + tag = subsec_nanos t /\ 0 <= tag.
Proof.
  intros Hm Ht. unfold split_nsec. rewrite (proj2 (Z.eqb_neq _ _)) by done. cbn [unix_secs subsec_nanos].
  set (m := wrap 32 mask). set (ns := subsec_nanos t) in *.
  assert (0 <= Z.land ns m) by (apply Z.land_nonneg; lia).
  pose proof (Z.add_lor_land (Z.ldiff ns m) (Z.land ns m)) as Hsum.
  assert (Z.land (Z.ldiff ns m) (Z.land ns m) = 0) as Hdis.
  { apply Z.bits_inj'. intros n Hn. rewrite !Z.land_spec, Z.ldiff_spec, Z.bits_0. by destruct (Z.testbit ns n), (Z.testbit m n). }
  assert (Z.lor (Z.ldiff ns m) (Z.land ns m) = ns) as Hall.
  { apply Z.bits_inj'. intros n Hn. rewrite Z.lor_spec, Z.land_spec, Z.ldiff_spec. by destruct (Z.testbit ns n), (Z.testbit m n). }
  assert (0 <= Z.ldiff ns m) by (apply Z.ldiff_nonneg; lia).
  rewrite swrap_small by (unfold is_sint; lia). lia.
Qed.

(** ** A reading to check the statements on *)

(** Two shorts of a channel in millimetres, shown to three places between -1 and 100. *)
Definition sample_reading : Snapshot :=
  mkSnapshot (VShortArray [7; -2]) (mkAlarmInfo 3 2 None None []) (mkWallTime 1700000000 250)
    (Some (mkDisplayInfo ([109; 109]) 3 (f64_of_Z 100) (f64_of_Z (-1)) S754_nan S754_nan
             S754_nan S754_nan 0 []))
    (Some (mkControlInfo (f64_of_Z 50) f64_zero)) None (mkPropertySupport true true true true true true) 0 None.

(** Asked for as [DBR_CTRL_DOUBLE], it is sent as two doubles. *)
Lemma reading_is_decoded_witness :
  exists target, native_type_for_dbr 34 = Ok target /\
  match @sent_value lp64 target sample_reading with
  | None => False
  | Some (Err e) => @encode_dbr lp64 34 sample_reading = Some (Err e) /\
      @unreadable lp64 (s_value sample_reading) target = true
  | Some (Ok v) => exists bytes, @encode_dbr lp64 34 sample_reading = Some (Ok bytes) /\
      @unreadable lp64 (s_value sample_reading) target = false /\
      (forall zs, integer_type target = true -> says (s_value sample_reading) zs ->
         Forall (int_holds target) zs -> int_contents v = Some zs) /\
      len bytes = dbr_meta_size 34 target + element_size target * count (s_value sample_reading) /\
      decode_dbr 34 (bytes ++ [255]) (count (s_value sample_reading)) =
        ret (client_view 34 target sample_reading (received target (cells v)))
  end.
Proof.
  apply (@reading_is_decoded lp64 34 sample_reading [255]); [lia|].
  constructor; try (repeat constructor; vm_compute; congruence).
  - intros d [= <-]. by repeat constructor.
  - intros d [= <-]. by repeat constructor.
  - intros c [= <-]. by repeat constructor.
Defined.

(** Two bytes where a [DBR_TIME_LONG] body should be. *)
Lemma any_body_is_decoded_safely_witness :
  match decode_dbr 19 [0; 3] 1 with
  | None => False
  | Some (Err _) => True
  | Some (Ok s) => value_ok (s_value s) /\ elements (s_value s) <= 1 /\ elements (s_value s) <= Z.max 1 2
  end.
Proof. apply (any_body_is_decoded_safely 19 [0; 3] 1); [repeat constructor; lia|lia]. Defined.

(** A posted short sent as [DBR_TIME_DOUBLE]. *)
Lemma log_encodes_as_the_read_witness :
  let e := read_of (mkLogHead 3 2 [] (mkWallTime 1700000000 250) 0 0) (VShort 5) MASK_VALUE in
  let u := mkUpdate e (BodyLog (VShort 5)) in
  with_live_options 20 e None = Some u /\
  @update_encode lp64 [] 20 u = @encode_dbr_into lp64 [] 20 (write_log_over e sample_reading) /\
  update_count u = update_count (mkUpdate e (BodyRead (write_log_over e sample_reading))).
Proof. by apply (@log_encodes_as_the_read lp64 [] 20 _ (VShort 5) sample_reading). Defined.
